(* ===== verification/_CoqProject ===== *)
-Q . S2P
Prelude.v
Frames.v
Ids.v
Mem.v
Heap.v
MemMgr.v
Bytes.v
Utf8.v
Hash.v
Kdf.v
Cipher.v
Chacha.v
AesGcm.v
Random.v
Keystore.v
IoSched.v
Caps.v
Sched.v
SmpSched.v
Ipc.v
Fastpath.v
SchedIface.v
Signals.v
Wait.v
Revocation.v
Loop.v
WaveValue.v
WaveHost.v
Leb128.v
WaveInst.v
WaveInterp.v
WaveStraight.v
WaveCalls.v
WaveModule.v
WaveJit.v
WaveShared.v
Elf.v
Exec.v
Process.v
Packets.v
Firewall.v
Udp.v
Tcp.v
TcpFlow.v
NetStack.v
Sums.v
Qos.v
Paths.v
Fs.v
VfsIface.v
Ramfs.v
Vfs.v
Launch.v
KernelWasm.v
JitIr.v
RegAlloc.v
