(* ===== verification/Prelude.v ===== *)
(** * A model of the Splax kernel core and its WASM runtime

    Splax is a capability-based microkernel in Rust ([src/kernel]). Everything a
    process does goes through a few kernel structures: a capability table decides
    what it may do, a scheduler (one per machine, with per-CPU run queues beside it)
    decides when it runs, channels and lock-free rings carry its messages, signals
    and exit statuses connect it to other processes, and a bitmap allocator gives it
    physical frames; a heap in raw memory serves the kernel itself, and a key store with
    its own cryptography keeps secrets. Programs are WASM modules: the wave runtime
    ([src/runtime/wave]) parses, instantiates and interprets them, and their only way
    out is through host functions bound to capabilities. This library models those
    structures operation by operation, translated from the source, and proves what makes
    each of them correct.

    ** Files

    - [Prelude] (this file): results and the state-and-error monad of the fallible
      operations, machine-width unsigned arithmetic (the release profile leaves
      overflow checks off, so it wraps), bit operations, [Vec] and [VecDeque]
      operations, [BTreeMap] iteration in key order over stdpp's [gmap], the
      [kernel] and [bits] hint databases, the [branches] tactic.
    - [Frames] ([kernel/src/mm/frame.rs]): [FrameAllocator], its bitmap words,
      counters and search hint. Allocation is first fit from the hint and exactly
      accounted; ranges held at one time are disjoint over any history; freeing
      undoes allocating; what a double free and a run across the hint do.
    - [Mem]: byte-addressed memory with little-endian words, for code that keeps its
      data structures in raw memory.
    - [Heap] ([kernel/src/mm/mod.rs], [KernelHeap]): the free-list heap as the code
      over the memory of [Mem]: blocks with headers, splitting, coalescing. The heap
      invariant over all histories, allocations are disjoint from each other and from
      the headers, freeing everything gives one block back.
    - [MemMgr] (the rest of [mm/mod.rs]): the kernel allocator in front of the heap,
      [MemoryManager], and the bump allocator at the level of its atomic steps.
    - [Bytes]: byte strings, machine words of 32, 64 and 128 bits, rotations, big- and
      little-endian encodings, for the cryptography.
    - [Utf8]: strings as bytes and the check of [from_utf8].
    - [Hash] ([kernel/src/crypto/hash.rs]): SHA-256, SHA-512, SHA-1, XXHash3 with their
      block buffers. A digest does not depend on how the input was split into updates
      and is the padded message run through the compression function.
    - [Kdf] ([crypto/mac.rs], [crypto/kdf.rs], [constant_time_eq]): HMAC, HKDF, PBKDF2
      over any hash.
    - [Cipher], [Chacha], [AesGcm] ([crypto/cipher.rs]): the cipher trait as a class,
      ChaCha20-Poly1305 and AES-GCM. [AesGcm] also writes out FIPS 197 and SP 800-38D
      as a specification and proves the code against it.
    - [Random] ([crypto/random.rs]): RDRAND with retries, the xorshift fallback, the
      ChaCha generator, the entropy pool, uniform ranges by rejection.
    - [Keystore] ([crypto/keystore.rs]): keys with policies and encryption at rest:
      isolation of processes, round trips, derivation and rotation.
    - [Ids]: [ProcessId], [CapabilityToken] and little-endian bytes, shared by all.
    - [Caps] ([kernel/src/cap/mod.rs]): [CapabilityTable] with its owner index and
      audit log. Checks accept exactly the valid requests; a derived token never
      exceeds an ancestor; revocation ends, is exact and complete over later
      histories; the table invariant; the gap left by granting from a revoked
      parent.
    - [Revocation] ([kernel/src/cap/revocation.rs]): [RevocationEngine], delegation
      chains, the Bloom filter (no false negatives) and timed tokens. Cascades end
      and reach exactly the delegated tokens; chains only narrow; expiry and renewal.
    - [Sched] ([kernel/src/sched/mod.rs], [arch/x86_64/context.rs], the run loop of
      [lib.rs]): process table, ready queues, dispatch with register save and
      restore. The scheduler invariant over all histories, the order of dispatch,
      registers surviving a switch, starvation and the re-dispatch of blocked
      processes.
    - [SmpSched] ([kernel/src/sched/smp.rs]): affinity masks, per-CPU queues,
      placement, stealing, balancing, hot-plug. Balancing loses and duplicates
      nothing and never indexes out of bounds; taking a CPU offline ends, except on
      the boot CPU.
    - [Ipc] ([kernel/src/ipc/mod.rs]): ring-buffer channels refine a bounded FIFO
      queue; the manager's operations on every branch after any history; queued
      asynchronous operations.
    - [Fastpath] ([kernel/src/ipc/fastpath.rs]): the single-producer single-consumer
      ring refines a queue of 256 messages, also when counters wrap and under every
      interleaving of the two sides; the byte view of messages; batches and calls.
    - [IoSched] ([kernel/src/block/scheduler.rs]): the [IoScheduler] trait as a class
      with its three instances, and the class [PerProcessFifo] of what a client may
      rely on, satisfied by the first-come and the fair scheduler. No request is lost,
      nobody waits for ever; what the deadline scheduler really does.
    - [SchedIface]: the class [SchedIface] states what signals and waiting need of
      a scheduler; the instance discharges it with [Sched].
    - [Signals] ([kernel/src/process/signal.rs]): signal sets, handlers, masks, the
      pending queue, and the manager, over any [SchedIface].
    - [Wait] ([kernel/src/process/wait.rs]): exit, zombies and waiting, over the
      signal manager and any [SchedIface].
    - [Elf] ([kernel/src/process/elf.rs]): the ELF parser over bytes. Parsing inverts the
      format; on files whose tables do not wrap the answer of [parse] is characterised
      on every branch; what a loader may rely on; what a crafted file can do.
    - [Exec] ([kernel/src/process/exec.rs]): the initial user stack, preparation, copying
      a segment, the page table of a new process, and the jump to ring 3 with the
      compiler's choice of operand registers as a parameter.
    - [Process] ([kernel/src/process/mod.rs] and [exec_from_memory]): the process table
      over the frame allocator, memory, the CPU and the wait manager. Kernel stacks of
      live processes stay disjoint over any history (with a general ledger of owners of
      frames); execution, termination and switching; what is never done.

    The network stack ([kernel/src/net]):

    - [Packets] ([ethernet.rs], [arp.rs], [ip.rs], [icmp.rs]): the four formats, parsed
      and written, with their checksums, and the ARP cache. What is written is parsed
      back, and an IPv4 packet that is accepted is written back byte for byte.
    - [Firewall] ([firewall.rs]): matches, rules, chains, connection tracking. The
      action on a packet is that of the first deciding rule.
    - [Udp] ([udp.rs]): datagrams, sockets, ports, multicast groups and IGMP. What one
      socket sends the other receives, and nobody else.
    - [Tcp], [TcpFlow] ([tcp.rs]): segments, the state machine, listeners and the packet
      handler; congestion control, selective acknowledgement, the Nagle buffer and the
      options. Between ends whose sequence numbers agree, what is read is a prefix of what
      was sent, in spite of loss, repetition and reordering (a handshake of this code
      leaves them one apart); the parser of the options ends; what the state machine
      lacks.
    - [NetStack] ([mod.rs], [device.rs], the public calls of [tcp.rs]): interfaces over
      the class of devices, address resolution, dispatch, replies to pings. A ping from
      a known neighbour is answered by exactly one right frame, polling returns.
    - [Qos] ([qos.rs]): the trait of queuing disciplines as a class with its laws, and the
      four disciplines as instances. Flows stay in order and nothing accepted is lost; the
      token bucket holds its rate; what blocks, drops or starves. [Sums]: totals of a
      measure over a map.

    Files ([kernel/src/fs]):

    - [Paths]: the strings of paths as bytes, and the string operations that take them
      apart; names in directory order.
    - [Fs] ([mod.rs]): the kernel's file system in memory. It refines a finite map from
      paths to files and directories on every branch of every call, over any history;
      data written stay until they are written or removed; the boot image.
    - [VfsIface] ([vfs.rs]): the trait [Filesystem] as a class, and the class of laws a
      client relies on.
    - [Ramfs] ([ramfs.rs]): the file system of the VFS, an instance of both classes. Its
      account of space over any history; what links and renames get wrong.
    - [Vfs] ([vfs.rs]): mounts, path resolution and descriptor tables over any instance
      of the class. Files give back what was written, descriptors are private and
      bounded, the longest mount wins; what mounting at the root does.
    - [Launch] ([process/exec.rs]): [exec] over the VFS and [spawn] over [Fs], and the
      programs of the boot image in the wave runtime.

    The wave runtime ([runtime/wave/src/lib.rs]):

    - [Loop]: iteration with a bound read in binary, so that a thousand million rounds
      still evaluate.
    - [WaveValue]: value types, [WasmValue] and its coercions, vectors; signed integers
      at their width, floats as IEEE 754 bit patterns.
    - [WaveHost]: the 82 host functions with their names, import modules, required
      capabilities and signatures.
    - [Leb128]: the variable-length integers; the readers invert the encoding.
    - [WaveInst]: instances, linear memory, host calls with their capability check, and
      the class [Platform] of what the runtime asks of the outside (system calls, serial
      bytes and the time-stamp counter, as events with replies; the bits of NaN
      results). The framework [keeps] proves operations confined: the instance stays
      well-formed, its bindings the same, and every event is authorised by one of them.
    - [WaveInterp]: the opcode table, every instruction the interpreter handles, its
      loop. No module leaves its sandbox, every run ends within the step limit, host functions answer
      with the types of their signatures; and where the interpreter departs from WASM.
    - [WaveStraight]: a typed stack machine for straight-line integer code, its binary
      encoding, and the interpreter as a refinement of it.
    - [WaveCalls]: calls by name, built-ins and host functions.
    - [WaveModule]: the section parser, modules and instances of the runtime. Parsing
      inverts the format; instantiation binds every host import to a capability; over
      any history of requests there is no system call without a capability handed out.
    - [WaveJit]: the baseline compiler against a machine for the x86-64 instructions it
      emits; on the code its templates cover, and without underflow, it computes what the
      interpreter does.
    - [WaveShared]: memory shared by threads: atomic accesses, and waiting and notifying
      under every interleaving, as long as no two waits read the same timestamp.
    - [JitIr], [RegAlloc] ([runtime/wave/src/jit]): the intermediate form of the optimising
      compiler with its passes, which end and keep what code computes, and the linear-scan
      register allocator: a place for every register, none shared while both are needed,
      and straight-line code that runs on the places as on the virtual registers.
    - [KernelWasm] ([kernel/src/wasm/mod.rs]): the kernel's host of the runtime over the
      file system in memory. Programs run from files have no authority but what the kernel
      hands out; what is remembered is what is loaded; validation; what runs do not run.

    ** How the model corresponds to the code

    A struct is a [Record], an enum an [Inductive], a method a [Definition] on the
    record: [op S E A] is [S -> S * Result A E] and keeps the changes made before an
    early return. A [BTreeMap] is a [gmap] read in key order, a [Vec] or [VecDeque] a
    list, an integer a [Z] with its wrap-around written out. Readings of the cycle
    counter, the time-stamp counter and the timer are arguments. [None] is a panic
    (an index out of bounds) or an endless loop; where it can occur the comment
    on the definition says which.

    Operations are modelled one call at a time, atomically, and histories are lists of
    calls ([run_ops]) or step relations. Mostly a lock ([spin::Mutex]) held over the
    whole call makes it atomic; [grant] and [revoke] of the capability table take the
    lock of the table several times within a call, and what another processor does in
    between is not modelled. The
    lock-free ring, the bump allocator and the wait on shared memory are the exceptions,
    and are modelled access by access.

    The runtime threads a [World], an instance and the trace of events so far, through a
    monad that stops with [Fail] (an error of the code), [Panics], [Undefined] (behaviour
    the language leaves undefined) or [Diverges] (out of fuel, proved not to happen).

    ** Fuel

    - [Caps.revoke_derived] runs with one more than the number of table entries: each
      level marks a live entry, so this is enough, and the theorem proves it returns.
    - [Revocation.revoke] recurses over children: in every reachable engine some fuel
      is enough and more does not change the result; a token that is its own parent
      has none.
    - [SmpSched.drain] ends after the stealable tasks are gone; on the boot CPU it
      ends for no fuel.
    - [IoSched.cfq_next] calls itself at most once: a fuel of two is enough.
    - [Fastpath.call] polls at most 1,000,001 times, as in the code.
    - The loops of [Frames] and [Ipc] recurse on the length of their range or queue;
      those of [SmpSched] over CPUs are [for_range].
    - The walks of [Heap] over blocks and free list take the number of smallest blocks
      that fit the heap ([walk_fuel]); [fuel_enough] proves it exceeds their length.
    - The block loops of the cryptography ([absorb_blocks], [poly_blocks],
      [ghash_blocks], [add_stream]) run with one more than the length of the data, of
      which each round consumes at least one byte; [chacha_fill], [system_fill] and
      [fill_random] with the number of bytes asked for.
    - [Random.range_loop] has the number of draws as fuel (the code's loop has no
      bound); the theorem says the first accepted draw is returned and more fuel does
      not change it.
    - [WaveInterp.run_loop] runs one round more than the step limit: every round counts
      a step or stops. [WaveModule.parse_loop] and [WaveJit.compile_loop] have one more
      than the number of bytes, of which each round consumes one.

    - [Packets.fold_sum] folds the carries of a checksum three times, after which none is
      left ([fold_done]). [TcpFlow.options_loop] has one round more than bytes, of which
      each round consumes one. [NetStack.poll] has one level more than frames still to
      come, and the resolution of an address polls as often as the code.

    ** Not modelled

    Lock acquisition order, weak memory beyond the argument in [Fastpath], page
    tables beyond the top level a new process gets, assembly other than the registers
    [switch_context] saves, the jump to ring 3 and the code the baseline compiler emits,
    the audit log's text output, statistics counters. Of the runtime: the opcode tables
    for vectors and atomics, which nothing uses, both ends of the optimising compiler
    (its generator keeps no operand stack and emits placeholder operands, so that no
    statement relates its output to the WASM code; its emitter of machine code), the
    ahead-of-time compiler, the WASI layer.

    Of the rest of the repository: the drivers, interrupt handling, firmware tables and
    memory protection are reads and writes of device and control registers, whose effect
    is not in the source; the shell commands of [interrupts.rs], the tools and the
    services print text or wait for input; the file systems on disk ([splaxfs.rs],
    [ext4.rs], [fat32.rs]) stand on block devices behind those drivers, and [procfs],
    [sysfs] and [devfs] format kernel state as text. The protocols above TCP
    (name resolution, SSH, TLS, the cluster services) need connections that
    [handle_packet] never establishes (see [Tcp]); asymmetric
    cryptography and the traits of [cap/verify.rs] are left out for size. *)

From Stdlib Require Import ZArith Lia.
From Stdlib Require Export ZifyBool.
From stdpp Require Import sorting.
From stdpp Require Export base numbers option list gmap fin_maps.

#[global] Open Scope Z_scope.

(** ** Results *)

(** Rust's [Result<A, E>]. *)
Inductive Result (A E : Type) : Type :=
| Ok (a : A)
| Err (e : E).
Arguments Ok {A E} _.
Arguments Err {A E} _.

#[global] Instance Result_eq_dec {A E} `{EqDecision A, EqDecision E} :
  EqDecision (Result A E).
Proof. solve_decision. Defined.

Definition is_ok {A E} (r : Result A E) : bool :=
  match r with Ok _ => true | Err _ => false end.

(** [Option::ok_or]. *)
Definition ok_or {A E} (o : option A) (e : E) : Result A E :=
  match o with Some a => Ok a | None => Err e end.

Definition res_bind {A B E} (r : Result A E) (k : A → Result B E) : Result B E :=
  match r with Ok a => k a | Err e => Err e end.

Declare Scope res_scope.
Notation "'let?' x := m 'in' k" := (res_bind m (λ x, k))
  (at level 10, x name, m at level 100, k at level 200) : res_scope.

Lemma is_ok_true {A E} (r : Result A E) : is_ok r = true ↔ ∃ a, r = Ok a.
Proof. destruct r; naive_solver. Qed.

(** ** Fallible stateful operations

    An operation takes the state and returns the state it leaves behind
    together with its result: an early [return Err(_)] (or [?]) keeps every
    change made before it, as in the code. *)

Definition op (S E A : Type) : Type := S → S * Result A E.

Definition op_ret {S E A} (a : A) : op S E A := λ s, (s, Ok a).
Definition op_err {S E A} (e : E) : op S E A := λ s, (s, Err e).
Definition op_bind {S E A B} (m : op S E A) (k : A → op S E B) : op S E B :=
  λ s, match m s with
       | (s', Ok a) => k a s'
       | (s', Err e) => (s', Err e)
       end.
Definition op_gets {S E A} (f : S → A) : op S E A := λ s, (s, Ok (f s)).
Definition op_modify {S E} (f : S → S) : op S E unit := λ s, (f s, Ok tt).
Definition op_lift {S E A} (r : Result A E) : op S E A := λ s, (s, r).
(** [if c { return Err(e) }]. *)
Definition op_guard {S E} (c : bool) (e : E) : op S E unit :=
  λ s, (s, if c then Err e else Ok tt).

Declare Scope op_scope.
Delimit Scope op_scope with op.
Notation "'let!' x := m 'in' k" := (op_bind m (λ x, k))
  (at level 10, x name, m at level 100, k at level 200) : op_scope.
Notation "'do!' m 'in' k" := (op_bind m (λ _, k))
  (at level 10, m at level 100, k at level 200) : op_scope.

(** Runs the operations of a list one after the other, collecting results. *)
Fixpoint run_ops {S O} (step : O → S → S) (ops : list O) (s : S) : S :=
  match ops with
  | [] => s
  | o :: ops' => run_ops step ops' (step o s)
  end.

Lemma run_ops_app {S O} (step : O → S → S) ops1 ops2 s :
  run_ops step (ops1 ++ ops2) s = run_ops step ops2 (run_ops step ops1 s).
Proof. revert s. induction ops1; simpl; auto. Qed.

(** An invariant every step preserves holds after every run. *)
Lemma run_ops_invariant {S O} (step : O → S → S) (I : S → Prop) :
  (∀ o s, I s → I (step o s)) → ∀ ops s, I s → I (run_ops step ops s).
Proof. intros Hstep ops. induction ops; simpl; auto. Qed.

(** The same with an admissibility condition on the steps. *)
Lemma run_ops_invariant_on {S O} (step : O → S → S) (I : S → Prop) (P : O → Prop) :
  (∀ o s, P o → I s → I (step o s)) →
  ∀ ops s, Forall P ops → I s → I (run_ops step ops s).
Proof. intros Hstep ops. induction ops; simpl; intros ? HP ?; inversion HP; subst; auto. Qed.

(** ** Loops and list updates *)

(** [for i in start..start+n { body }] where the body may panic ([None]). *)
Fixpoint for_range {S} (n : nat) (start : nat) (body : nat → S → option S) (s : S) : option S :=
  match n with
  | O => Some s
  | Datatypes.S n =>
      match body start s with
      | Some s' => for_range n (Datatypes.S start) body s'
      | None => None
      end
  end.

(** A loop whose body preserves an invariant never panics. *)
Lemma for_range_inv {S} (I : nat → S → Prop) body n : ∀ start s,
  (∀ i s, (start ≤ i < start + n)%nat → I i s → ∃ s', body i s = Some s' ∧ I (Datatypes.S i) s') →
  I start s → ∃ s', for_range n start body s = Some s' ∧ I (start + n)%nat s'.
Proof.
  induction n as [|n IH]; intros start s Hstep HI; simpl.
  - exists s. by rewrite Nat.add_0_r.
  - destruct (Hstep start s) as (s' & -> & HI'); [lia|done|].
    destruct (IH (Datatypes.S start) s') as (s'' & ? & ?); [|done|].
    + intros i t Hi. apply Hstep. lia.
    + exists s''. split; [done|]. by rewrite Nat.add_succ_r.
Qed.

(** Updating one element of a list, seen through its concatenated contents. *)
Lemma concat_insert {A B} (f : A → list B) (l : list A) i x y :
  l !! i = Some x → f x ++ concat (f <$> <[i := y]> l) ≡ₚ f y ++ concat (f <$> l).
Proof.
  revert i. induction l as [|a l IH]; intros [|i] Hi; simplify_eq/=.
  - apply Permutation_app_swap_app.
  - rewrite (Permutation_app_swap_app (f x)), (Permutation_app_swap_app (f y)).
    by rewrite (IH i Hi).
Qed.

Lemma elem_of_concat {A} (x : A) (ls : list (list A)) : x ∈ concat ls ↔ ∃ l, l ∈ ls ∧ x ∈ l.
Proof. induction ls; simpl; set_solver. Qed.

(** Distinct offsets below the modulus give distinct slots of a ring. *)
Lemma ring_slot_ne a i j n : (i < j)%nat → (j < i + n)%nat → ((a + i) mod n ≠ (a + j) mod n)%nat.
Proof.
  intros Hij Hjn Heq.
  pose proof (Nat.div_mod_eq (a + i) n) as Hi. pose proof (Nat.div_mod_eq (a + j) n) as Hj.
  rewrite <-Heq in Hj. revert Hi Hj.
  generalize ((a + i) / n)%nat, ((a + j) / n)%nat, ((a + i) mod n)%nat. intros q1 q2 x Hi Hj.
  destruct (Nat.le_gt_cases q2 q1); nia.
Qed.

(** ** Machine-width unsigned integers *)

Definition wrap (w z : Z) : Z := z mod 2 ^ w.
Definition u8 (z : Z) : Z := wrap 8 z.
Definition u32 (z : Z) : Z := wrap 32 z.
Definition u64 (z : Z) : Z := wrap 64 z.

Definition u64_add (a b : Z) : Z := u64 (a + b).
Definition u64_sub (a b : Z) : Z := u64 (a - b).
Definition u64_mul (a b : Z) : Z := u64 (a * b).
Definition u64_not (a : Z) : Z := Z.lxor a (Z.ones 64).
(** [u64::saturating_sub]. *)
Definition sat_sub (a b : Z) : Z := Z.max 0 (a - b).
Definition u64_max : Z := 2 ^ 64 - 1.

Definition is_u64 (z : Z) : Prop := 0 ≤ z < 2 ^ 64.

Lemma u64_small z : is_u64 z → u64 z = z.
Proof. intros. by apply Z.mod_small. Qed.

Lemma u64_range z : is_u64 (u64 z).
Proof. apply Z.mod_pos_bound. lia. Qed.

Lemma u64_idemp z : u64 (u64 z) = u64 z.
Proof. apply u64_small, u64_range. Qed.

Lemma u64_add_small a b : 0 ≤ a → 0 ≤ b → a + b < 2 ^ 64 → u64_add a b = a + b.
Proof. intros. apply u64_small. unfold is_u64. lia. Qed.

Lemma u64_sub_small a b : 0 ≤ b ≤ a → a < 2 ^ 64 → u64_sub a b = a - b.
Proof. intros. apply u64_small. unfold is_u64. lia. Qed.

(** The distance between two wrapping counters, whatever wrapped. *)
Lemma u64_sub_wrapped a n : 0 ≤ n < 2 ^ 64 → u64_sub (u64 (a + n)) (u64 a) = n.
Proof.
  intros Hn. unfold u64_sub, u64, wrap.
  rewrite <-Zminus_mod. rewrite Z.mod_small; lia.
Qed.

(** ** Bit operations *)

(** [w & (1 << i) != 0]. *)
Definition bit_test (w i : Z) : bool := negb (Z.land w (Z.shiftl 1 i) =? 0).
(** [w |= 1 << i]. *)
Definition bit_set (w i : Z) : Z := Z.lor w (Z.shiftl 1 i).
(** [w &= !(1 << i)], on a 64-bit word. *)
Definition bit_clear (w i : Z) : Z := Z.land w (u64_not (Z.shiftl 1 i)).

Lemma testbit_shiftl_1 i j : 0 ≤ i → 0 ≤ j → Z.testbit (Z.shiftl 1 i) j = (j =? i).
Proof.
  intros. rewrite Z.shiftl_1_l, Z.pow2_bits_eqb by lia.
  by rewrite Z.eqb_sym.
Qed.

Lemma bit_test_spec w i : 0 ≤ i → bit_test w i = Z.testbit w i.
Proof.
  intros Hi. unfold bit_test.
  destruct (Z.eqb_spec (Z.land w (Z.shiftl 1 i)) 0) as [H|H]; simpl.
  - apply (f_equal (λ z, Z.testbit z i)) in H.
    rewrite Z.land_spec, testbit_shiftl_1, Z.eqb_refl, andb_true_r, Z.bits_0 in H by lia.
    done.
  - destruct (Z.testbit w i) eqn:E; [done|]. exfalso. apply H.
    apply Z.bits_inj'. intros j Hj. rewrite Z.land_spec, testbit_shiftl_1, Z.bits_0 by lia.
    destruct (Z.eqb_spec j i); subst; rewrite ?E; auto using andb_false_r.
Qed.

Lemma bit_set_spec w i j :
  0 ≤ i → 0 ≤ j → Z.testbit (bit_set w i) j = (Z.testbit w j || (j =? i)).
Proof. intros. unfold bit_set. by rewrite Z.lor_spec, testbit_shiftl_1. Qed.

Lemma bit_clear_spec w i j :
  0 ≤ i → 0 ≤ j < 64 → Z.testbit (bit_clear w i) j = (Z.testbit w j && negb (j =? i)).
Proof.
  intros. unfold bit_clear, u64_not.
  rewrite Z.land_spec, Z.lxor_spec, testbit_shiftl_1, Z.ones_spec_low by lia.
  by rewrite xorb_true_r.
Qed.

Lemma is_u64_testbit z : 0 ≤ z → is_u64 z ↔ ∀ j, 64 ≤ j → Z.testbit z j = false.
Proof.
  intros Hz. split.
  - intros [_ H] j Hj. destruct (decide (z = 0)) as [->|]; [apply Z.bits_0|].
    apply Z.bits_above_log2; [lia|].
    apply Z.log2_lt_pow2; [lia|]. eapply Z.lt_le_trans; [exact H|].
    apply Z.pow_le_mono_r; lia.
  - intros H. split; [done|].
    destruct (decide (z = 0)) as [->|]; [lia|].
    apply Z.log2_lt_pow2; [lia|].
    destruct (Z.lt_ge_cases (Z.log2 z) 64); [done|].
    pose proof (Z.bit_log2 z ltac:(lia)) as E.
    rewrite H in E by lia. done.
Qed.

Lemma bit_set_u64 w i : is_u64 w → 0 ≤ i < 64 → is_u64 (bit_set w i).
Proof.
  intros Hw Hi. assert (0 ≤ bit_set w i).
  { apply Z.lor_nonneg. split; [apply Hw|]. rewrite Z.shiftl_1_l. lia. }
  apply is_u64_testbit; [done|]. intros j Hj.
  rewrite bit_set_spec by lia. destruct Hw as [Hw0 Hw1].
  rewrite (proj1 (is_u64_testbit w Hw0)) by (unfold is_u64; lia).
  apply Z.eqb_neq. lia.
Qed.

Lemma bit_clear_u64 w i : is_u64 w → 0 ≤ i < 64 → is_u64 (bit_clear w i).
Proof.
  intros [Hw0 Hw1] Hi. assert (0 ≤ bit_clear w i).
  { apply Z.land_nonneg. auto. }
  apply is_u64_testbit; [done|]. intros j Hj. unfold bit_clear.
  rewrite Z.land_spec, (proj1 (is_u64_testbit w Hw0)) by (unfold is_u64; lia). done.
Qed.

(** ** [Vec] and [VecDeque] *)

(** [Vec::pop]: the last element and the rest. *)
Definition vec_pop {A} (l : list A) : option (A * list A) :=
  match list.last l with
  | Some x => Some (x, removelast l)
  | None => None
  end.

(** [VecDeque::pop_front]. *)
Definition pop_front {A} (l : list A) : option (A * list A) :=
  match l with [] => None | x :: l' => Some (x, l') end.

(** [Iterator::position]. *)
Definition position {A} (f : A → bool) (l : list A) : option nat :=
  fst <$> list_find (λ x, f x = true) l.

(** Appends to a queue that forgets its oldest element when it holds [cap]. *)
Definition push_bounded {A} (cap : nat) (l : list A) (x : A) : list A :=
  (if decide (cap ≤ length l)%nat then tail l else l) ++ [x].

Lemma vec_pop_snoc {A} (l : list A) x : vec_pop (l ++ [x]) = Some (x, l).
Proof. unfold vec_pop. by rewrite last_snoc, removelast_last. Qed.

Lemma vec_pop_Some {A} (l : list A) x l' : vec_pop l = Some (x, l') → l = l' ++ [x].
Proof.
  destruct l as [|y l0 _] using rev_ind; [done|].
  rewrite vec_pop_snoc. congruence.
Qed.

Lemma vec_pop_None {A} (l : list A) : vec_pop l = None ↔ l = [].
Proof.
  destruct l as [|y l0 _] using rev_ind; [done|].
  rewrite vec_pop_snoc. split; [done|]. by destruct l0.
Qed.

Lemma pop_front_Some {A} (l : list A) x l' : pop_front l = Some (x, l') ↔ l = x :: l'.
Proof. destruct l; naive_solver. Qed.

Lemma position_Some {A} (f : A → bool) l i :
  position f l = Some i ↔
  ∃ x, l !! i = Some x ∧ f x = true ∧
       ∀ j y, (j < i)%nat → l !! j = Some y → f y = false.
Proof.
  unfold position. split.
  - intros ([j x] & (Hx & Hf & Hj)%list_find_Some & ->)%fmap_Some. simpl.
    exists x. split_and!; [done..|]. intros k y Hk Hy.
    destruct (f y) eqn:E; [|done]. naive_solver.
  - intros (x & Hx & Hf & Hj). apply fmap_Some. exists (i, x). split; [|done].
    apply list_find_Some. split_and!; [done..|].
    intros k y Hy Hk E. rewrite (Hj k y) in E; done.
Qed.

Lemma position_None {A} (f : A → bool) l :
  position f l = None ↔ ∀ x, x ∈ l → f x = false.
Proof.
  unfold position. rewrite fmap_None. split.
  - intros Hn x Hx. apply not_true_is_false.
    apply list_find_None in Hn. rewrite Forall_forall in Hn. by apply Hn.
  - intros Hall. apply list_find_None. rewrite Forall_forall.
    intros x Hx. by rewrite Hall.
Qed.

Lemma length_push_bounded {A} cap (l : list A) x :
  (length l ≤ cap)%nat → (length (push_bounded cap l x) ≤ Nat.max 1 cap)%nat.
Proof.
  intros. unfold push_bounded. rewrite length_app. simpl.
  case_decide; [destruct l; simpl in *; lia | lia].
Qed.

Lemma tail_drop {A} n (l : list A) : tail (drop n l) = drop (S n) l.
Proof. revert l. induction n; intros [|x l]; simpl; auto. Qed.

(** A bounded queue holds the last [cap] elements pushed to it. *)
Lemma push_bounded_last {A} cap (l h : list A) x :
  (0 < cap)%nat → l = drop (length h - cap) h →
  push_bounded cap l x = drop (length (h ++ [x]) - cap) (h ++ [x]).
Proof.
  intros Hc ->. unfold push_bounded. rewrite length_drop, length_app. simpl.
  case_decide as Hd.
  - rewrite drop_app_le by lia.
    replace (length h + 1 - cap)%nat with (S (length h - cap)) by lia.
    f_equal. by rewrite tail_drop.
  - replace (length h - cap)%nat with 0%nat by lia.
    replace (length h + 1 - cap)%nat with 0%nat by lia. done.
Qed.

(** Membership in a [Vec::retain]ed list. *)
Lemma elem_of_retain {A} `{EqDecision A} (x y : A) (l : list A) :
  x ∈ filter (λ z, z ≠ y) l ↔ x ∈ l ∧ x ≠ y.
Proof. rewrite list_elem_of_filter. naive_solver. Qed.

Lemma StronglySorted_lookup {A} (R : A → A → Prop) l i j x y :
  StronglySorted R l → l !! i = Some x → l !! j = Some y → (i < j)%nat → R x y.
Proof.
  intros Hl. revert i j. induction Hl as [|a l Hl IH Ha]; intros i j Hi Hj Hij; [done|].
  destruct j as [|j]; [lia|]. destruct i as [|i]; simplify_eq/=.
  - rewrite Forall_forall in Ha. apply Ha. by eapply list_elem_of_lookup_2.
  - apply (IH i j); [done..|lia].
Qed.

(** ** [BTreeMap]: iteration in key order over a [gmap] *)

Class KeyOrder (K : Type) := {
  key_le : K → K → Prop;
  key_le_dec : ∀ x y, Decision (key_le x y);
  key_le_trans : Transitive key_le;
  key_le_total : ∀ x y, key_le x y ∨ key_le y x;
  key_le_antisym : ∀ x y, key_le x y → key_le y x → x = y
}.
#[export] Existing Instance key_le_dec.

(** The order of a newtype around an integer. *)
Definition KeyOrder_of {K} (f : K → Z) (Hinj : ∀ x y, f x = f y → x = y) : KeyOrder K.
Proof.
  refine {| key_le x y := f x ≤ f y |}.
  - intros x y. apply Z.le_dec.
  - intros x y z ??. lia.
  - intros. lia.
  - intros x y ??. apply Hinj. lia.
Defined.

#[global] Instance KeyOrder_Z : KeyOrder Z := KeyOrder_of (λ z, z) (λ _ _ H, H).

Section btree.
Context {K V : Type} `{EqDecision K, Countable K, KeyOrder K}.
Implicit Type m : gmap K V.

Definition entry_le (a b : K * V) : Prop := key_le a.1 b.1.
#[local] Instance entry_le_dec a b : Decision (entry_le a b) := key_le_dec a.1 b.1.

(** [BTreeMap::iter]. *)
Definition btree_iter m : list (K * V) := merge_sort entry_le (map_to_list m).
Definition btree_keys m : list K := (btree_iter m).*1.

Lemma btree_iter_perm m : btree_iter m ≡ₚ map_to_list m.
Proof. apply merge_sort_Permutation. Qed.

Lemma elem_of_btree_iter m k v : (k, v) ∈ btree_iter m ↔ m !! k = Some v.
Proof. by rewrite btree_iter_perm, elem_of_map_to_list. Qed.

Lemma elem_of_btree_keys m k : k ∈ btree_keys m ↔ is_Some (m !! k).
Proof.
  unfold btree_keys. rewrite list_elem_of_fmap. split.
  - intros ([k' v] & -> & ?%elem_of_btree_iter). simpl. eauto.
  - intros [v ?%elem_of_btree_iter]. by exists (k, v).
Qed.

Lemma NoDup_btree_keys m : NoDup (btree_keys m).
Proof. unfold btree_keys. rewrite btree_iter_perm. apply NoDup_fst_map_to_list. Qed.

Lemma btree_iter_sorted m : StronglySorted entry_le (btree_iter m).
Proof.
  apply StronglySorted_merge_sort.
  - intros x y z. apply key_le_trans.
  - intros x y. apply key_le_total.
Qed.

(** [iter().find(p)] is the least key satisfying [p]. *)
Definition btree_find (p : K → V → bool) m : option (K * V) :=
  snd <$> list_find (λ kv, p kv.1 kv.2 = true) (btree_iter m).

Lemma btree_find_Some p m k v :
  btree_find p m = Some (k, v) →
  m !! k = Some v ∧ p k v = true ∧
  ∀ k' v', m !! k' = Some v' → p k' v' = true → key_le k k'.
Proof.
  unfold btree_find. intros ([i kv] & (Hi & Hp & Hfst)%list_find_Some & Hkv)%fmap_Some.
  simpl in *. subst kv. split_and!.
  - apply elem_of_btree_iter. by eapply list_elem_of_lookup_2.
  - done.
  - intros k' v' Hk' Hp'.
    assert (Hin : (k', v') ∈ btree_iter m) by by apply elem_of_btree_iter.
    apply list_elem_of_lookup in Hin as [j Hj].
    destruct (Nat.lt_trichotomy i j) as [?|[->|?]].
    + assert (entry_le (k, v) (k', v')) as Hle; [|exact Hle].
      eapply (StronglySorted_lookup _ (btree_iter m) i j); eauto using btree_iter_sorted.
    + simplify_eq. destruct (key_le_total k k); done.
    + exfalso. by eapply (Hfst j (k', v')).
Qed.

Lemma btree_find_None p m :
  btree_find p m = None ↔ ∀ k v, m !! k = Some v → p k v = false.
Proof.
  unfold btree_find. rewrite fmap_None. split.
  - intros Hn k v Hk%elem_of_btree_iter. apply not_true_is_false.
    apply list_find_None in Hn. rewrite Forall_forall in Hn. by apply (Hn (k, v)).
  - intros Hall. apply list_find_None. rewrite Forall_forall.
    intros [k v] Hk%elem_of_btree_iter%Hall. simpl. by rewrite Hk.
Qed.
End btree.

(** ** Automation *)

Create HintDb kernel discriminated.
Create Rewrite HintDb bits.
#[export] Hint Resolve u64_range bit_set_u64 bit_clear_u64 : kernel.
#[export] Hint Rewrite bit_test_spec bit_set_spec bit_clear_spec using lia : bits.

(** Case analysis on the outermost match of the goal or of a hypothesis. *)
Ltac step_match :=
  match goal with
  | |- context [match ?x with _ => _ end] => destruct x eqn:?
  | H : context [match ?x with _ => _ end] |- _ => destruct x eqn:?
  end.

(** Breaks a hypothesis about the result of an operation into its branches. *)
Ltac branches := repeat (step_match; simplify_eq/=; try done).
