(* ===== verification/Frames.v ===== *)
(** * Frames: the physical frame allocator ([kernel/src/mm/frame.rs])

    The bitmap of free frames, the hint and the two counters, every operation
    of [FrameAllocator], and the theorems that make it an allocator: first fit,
    exclusive ownership of allocated ranges, exact accounting, and the two
    places where the accounting and the search fall short. *)

From Stdlib Require Import ZArith Lia.
From S2P Require Import Prelude.

(** ** Data *)

Definition PAGE_SIZE : Z := 4096.
Definition MAX_PHYSICAL_MEMORY : Z := 16 * 1024 * 1024 * 1024.
Definition MAX_FRAMES : Z := MAX_PHYSICAL_MEMORY / PAGE_SIZE.
Definition BITMAP_WORDS : Z := MAX_FRAMES / 64.

Record FrameNumber := mkFrame { frame_raw : Z }.

(** [FrameNumber::address] and [from_address]; [usize] is 64 bits wide. *)
Definition address (f : FrameNumber) : Z := u64_mul (frame_raw f) PAGE_SIZE.
Definition from_address (addr : Z) : FrameNumber := mkFrame (addr / PAGE_SIZE).

Inductive FrameAllocError := OutOfMemory | ZeroFrames | FragmentedMemory.

Record FrameAllocator := mkFA {
  bitmap : list Z;
  total_frames : Z;
  free_frames : Z;
  next_hint : Z
}.

Definition new : FrameAllocator :=
  mkFA (replicate (Z.to_nat BITMAP_WORDS) 0) 0 0 0.

(** ** Bitmap access *)

Definition word_of (frame : Z) : nat := Z.to_nat (frame / 64).

(** [bitmap[frame / 64] & (1u64 << (frame % 64)) != 0] *)
Definition bm_get (bm : list Z) (frame : Z) : bool :=
  bit_test (bm !!! word_of frame) (frame mod 64).

(** [bitmap[frame / 64] |= 1u64 << (frame % 64)] *)
Definition bm_set (bm : list Z) (frame : Z) : list Z :=
  <[word_of frame := bit_set (bm !!! word_of frame) (frame mod 64)]> bm.

(** [bitmap[frame / 64] &= !(1u64 << (frame % 64))] *)
Definition bm_clear (bm : list Z) (frame : Z) : list Z :=
  <[word_of frame := bit_clear (bm !!! word_of frame) (frame mod 64)]> bm.

(** ** The loops over [frame..end], with their [break] at [MAX_FRAMES] *)

Fixpoint set_range (n : nat) (frame : Z) (bm : list Z) : list Z :=
  match n with
  | O => bm
  | S n => if MAX_FRAMES <=? frame then bm
           else set_range n (frame + 1) (bm_set bm frame)
  end.

Fixpoint clear_range (n : nat) (frame : Z) (bm : list Z) : list Z :=
  match n with
  | O => bm
  | S n => if MAX_FRAMES <=? frame then bm
           else clear_range n (frame + 1) (bm_clear bm frame)
  end.

(** [reserve_region]'s loop also counts the frames it takes. *)
Fixpoint reserve_range (n : nat) (frame : Z) (bm : list Z) (freed : Z) : list Z * Z :=
  match n with
  | O => (bm, freed)
  | S n =>
      if MAX_FRAMES <=? frame then (bm, freed)
      else if bm_get bm frame
           then reserve_range n (frame + 1) (bm_clear bm frame) (freed + 1)
           else reserve_range n (frame + 1) bm freed
  end.

(** The search loop, with [run_start] and [run_len] as loop state. *)
Fixpoint find_loop (n : nat) (frame : Z) (bm : list Z) (count : Z)
    (run_start : option Z) (run_len : Z) : option Z :=
  match n with
  | O => None
  | S n =>
      if MAX_FRAMES <=? frame then None
      else if bm_get bm frame then
        let rs := match run_start with None => Some frame | Some _ => run_start end in
        let rl := match run_start with None => 1 | Some _ => run_len + 1 end in
        if count <=? rl then rs
        else find_loop n (frame + 1) bm count rs rl
      else find_loop n (frame + 1) bm count None 0
  end.

Definition find_contiguous (bm : list Z) (start end_ count : Z) : option Z :=
  find_loop (Z.to_nat (end_ - start)) start bm count None 0.

Definition mark_used (bm : list Z) (start count : Z) : list Z :=
  clear_range (Z.to_nat (u64_add start count - start)) start bm.

(** ** Operations *)

Definition add_region (start size : Z) (s : FrameAllocator) : FrameAllocator :=
  let start_frame := u64_sub (u64_add start PAGE_SIZE) 1 / PAGE_SIZE in
  let end_frame := u64_add start size / PAGE_SIZE in
  if end_frame <=? start_frame then s
  else
    let count := end_frame - start_frame in
    mkFA (set_range (Z.to_nat count) start_frame (bitmap s))
         (u64_add (total_frames s) count)
         (u64_add (free_frames s) count)
         (next_hint s).

Definition reserve_region (start size : Z) (s : FrameAllocator) : FrameAllocator :=
  let start_frame := start / PAGE_SIZE in
  let end_frame := u64_sub (u64_add (u64_add start size) PAGE_SIZE) 1 / PAGE_SIZE in
  let '(bm, freed) :=
    reserve_range (Z.to_nat (end_frame - start_frame)) start_frame (bitmap s) 0 in
  mkFA bm (total_frames s) (u64_sub (free_frames s) freed) (next_hint s).

(** The body shared by the two search branches of [allocate_contiguous]. *)
Definition take_run (s : FrameAllocator) (frame count : Z) : FrameAllocator :=
  mkFA (mark_used (bitmap s) frame count) (total_frames s)
       (u64_sub (free_frames s) count) (u64_add frame count).

Definition allocate_contiguous (count : Z) :
    op FrameAllocator FrameAllocError FrameNumber := λ s,
  if count =? 0 then (s, Err ZeroFrames)
  else
    let hint := next_hint s in
    match find_contiguous (bitmap s) hint MAX_FRAMES count with
    | Some frame => (take_run s frame count, Ok (mkFrame frame))
    | None =>
        match find_contiguous (bitmap s) 0 hint count with
        | Some frame => (take_run s frame count, Ok (mkFrame frame))
        | None => (s, Err OutOfMemory)
        end
    end.

Definition allocate : op FrameAllocator FrameAllocError FrameNumber :=
  allocate_contiguous 1.

Definition free_contiguous (start : FrameNumber) (count : Z) (s : FrameAllocator) :
    FrameAllocator :=
  mkFA (set_range (Z.to_nat count) (frame_raw start) (bitmap s))
       (total_frames s) (u64_add (free_frames s) count) (next_hint s).

Definition free (frame : FrameNumber) (s : FrameAllocator) : FrameAllocator :=
  free_contiguous frame 1 s.

Definition free_count (s : FrameAllocator) : Z := free_frames s.
Definition total_count (s : FrameAllocator) : Z := total_frames s.
Definition free_memory (s : FrameAllocator) : Z := u64_mul (free_count s) PAGE_SIZE.
Definition total_memory (s : FrameAllocator) : Z := u64_mul (total_count s) PAGE_SIZE.

(** ** Bitmap lemmas *)

Definition in_range (f : Z) : Prop := 0 ≤ f < MAX_FRAMES.
Definition bm_wf (bm : list Z) : Prop := length bm = Z.to_nat BITMAP_WORDS.

(** Frames [s .. s+c) exist and are all free in [bm]. *)
Definition run_free (bm : list Z) (s c : Z) : Prop :=
  0 ≤ s ∧ s + c ≤ MAX_FRAMES ∧ ∀ f, s ≤ f < s + c → bm_get bm f = true.

Lemma MAX_FRAMES_eq : MAX_FRAMES = 64 * BITMAP_WORDS.
Proof. reflexivity. Qed.

Lemma MAX_FRAMES_val : MAX_FRAMES = 4194304.
Proof. reflexivity. Qed.

Lemma MAX_FRAMES_lt : 0 < MAX_FRAMES < 2 ^ 64.
Proof. split; reflexivity. Qed.

#[global] Opaque MAX_FRAMES BITMAP_WORDS.

Lemma word_of_lt bm f : bm_wf bm → in_range f → (word_of f < length bm)%nat.
Proof.
  unfold bm_wf, word_of, in_range. intros -> [H0 H1]. rewrite MAX_FRAMES_eq in H1.
  assert (0 ≤ f / 64 < BITMAP_WORDS); [|lia].
  split; [apply Z.div_pos; lia|]. apply Z.div_lt_upper_bound; lia.
Qed.

Lemma word_bit_inj f g :
  0 ≤ f → 0 ≤ g → word_of f = word_of g → f mod 64 = g mod 64 → f = g.
Proof.
  unfold word_of. intros Hf Hg Hw Hb.
  assert (f / 64 = g / 64).
  { apply Z2Nat.inj; [apply Z.div_pos; lia..|done]. }
  rewrite (Z.div_mod f 64), (Z.div_mod g 64) by lia. lia.
Qed.

Lemma mod64 f : 0 ≤ f mod 64 < 64.
Proof. apply Z.mod_pos_bound. lia. Qed.

Lemma bm_get_set bm f g :
  bm_wf bm → in_range f → in_range g →
  bm_get (bm_set bm f) g = (bm_get bm g || (g =? f)).
Proof.
  intros Hwf Hf Hg. unfold bm_get, bm_set. pose proof (mod64 f). pose proof (mod64 g).
  rewrite list_lookup_total_insert. case_decide as Hw.
  - destruct Hw as [Hw _]. autorewrite with bits. rewrite Hw. f_equal.
    destruct (Z.eqb_spec g f) as [->|Hne]; [apply Z.eqb_refl|].
    apply Z.eqb_neq. intros Hm. apply Hne.
    apply word_bit_inj; [apply Hg|apply Hf|done|done].
  - destruct (Z.eqb_spec g f) as [->|Hne]; [|by rewrite orb_false_r].
    exfalso. apply Hw. split; [done|]. by apply word_of_lt.
Qed.

Lemma bm_get_clear bm f g :
  bm_wf bm → in_range f → in_range g →
  bm_get (bm_clear bm f) g = (bm_get bm g && negb (g =? f)).
Proof.
  intros Hwf Hf Hg. unfold bm_get, bm_clear. pose proof (mod64 f). pose proof (mod64 g).
  rewrite list_lookup_total_insert. case_decide as Hw.
  - destruct Hw as [Hw _]. autorewrite with bits. rewrite Hw. f_equal. f_equal.
    destruct (Z.eqb_spec g f) as [->|Hne]; [apply Z.eqb_refl|].
    apply Z.eqb_neq. intros Hm. apply Hne.
    apply word_bit_inj; [apply Hg|apply Hf|done|done].
  - destruct (Z.eqb_spec g f) as [->|Hne]; [|by rewrite andb_true_r].
    exfalso. apply Hw. split; [done|]. by apply word_of_lt.
Qed.

Lemma bm_set_wf bm f : bm_wf bm → bm_wf (bm_set bm f).
Proof. unfold bm_wf, bm_set. by rewrite length_insert. Qed.

Lemma bm_clear_wf bm f : bm_wf bm → bm_wf (bm_clear bm f).
Proof. unfold bm_wf, bm_clear. by rewrite length_insert. Qed.

#[export] Hint Resolve bm_set_wf bm_clear_wf : kernel.

Lemma set_range_spec n : ∀ f bm, bm_wf bm → 0 ≤ f →
  bm_wf (set_range n f bm) ∧
  ∀ g, in_range g →
    bm_get (set_range n f bm) g = (bm_get bm g || (f <=? g) && (g <? f + Z.of_nat n)).
Proof.
  induction n as [|n IH]; intros f bm Hwf Hf; simpl.
  - split; [done|]. intros g Hg.
    replace ((f <=? g) && (g <? f + Z.of_nat 0)) with false by lia. by rewrite orb_false_r.
  - destruct (Z.leb_spec MAX_FRAMES f) as [Hm|Hm].
    + split; [done|]. intros g Hg. unfold in_range in Hg.
      replace (f <=? g) with false by lia. simpl. by rewrite orb_false_r.
    + assert (in_range f) by (unfold in_range; lia).
      destruct (IH (f + 1) (bm_set bm f)) as [Hwf' Hget]; [auto with kernel|lia|].
      split; [done|]. intros g Hg. rewrite Hget, bm_get_set by done.
      rewrite <-orb_assoc. f_equal. unfold in_range in *. lia.
Qed.

Lemma clear_range_spec n : ∀ f bm, bm_wf bm → 0 ≤ f →
  bm_wf (clear_range n f bm) ∧
  ∀ g, in_range g →
    bm_get (clear_range n f bm) g
    = (bm_get bm g && negb ((f <=? g) && (g <? f + Z.of_nat n))).
Proof.
  induction n as [|n IH]; intros f bm Hwf Hf; simpl.
  - split; [done|]. intros g Hg.
    replace ((f <=? g) && (g <? f + Z.of_nat 0)) with false by lia. by rewrite andb_true_r.
  - destruct (Z.leb_spec MAX_FRAMES f) as [Hm|Hm].
    + split; [done|]. intros g Hg. unfold in_range in Hg.
      replace (f <=? g) with false by lia. simpl. by rewrite andb_true_r.
    + assert (in_range f) by (unfold in_range; lia).
      destruct (IH (f + 1) (bm_clear bm f)) as [Hwf' Hget]; [auto with kernel|lia|].
      split; [done|]. intros g Hg. rewrite Hget, bm_get_clear by done.
      rewrite <-andb_assoc. f_equal. unfold in_range in *. lia.
Qed.

(** ** Counting free frames *)

(** Number of free frames among [a .. a+n). *)
Fixpoint count_up (bm : list Z) (a : Z) (n : nat) : Z :=
  match n with
  | O => 0
  | S n => (if bm_get bm a then 1 else 0) + count_up bm (a + 1) n
  end.

Definition count_in (bm : list Z) (a n : Z) : Z := count_up bm a (Z.to_nat n).
Definition count_free (bm : list Z) : Z := count_in bm 0 MAX_FRAMES.

Lemma count_up_app bm n m : ∀ a,
  count_up bm a (n + m) = count_up bm a n + count_up bm (a + Z.of_nat n) m.
Proof.
  induction n as [|n IH]; intros a; simpl.
  - by replace (a + Z.of_nat 0) with a by lia.
  - rewrite IH. replace (a + 1 + Z.of_nat n) with (a + Z.of_nat (S n)) by lia. lia.
Qed.

Lemma count_in_app bm a n m :
  0 ≤ n → 0 ≤ m → count_in bm a (n + m) = count_in bm a n + count_in bm (a + n) m.
Proof.
  intros. unfold count_in. rewrite Z2Nat.inj_add, count_up_app by lia.
  by rewrite Z2Nat.id by lia.
Qed.

Lemma count_in_ext bm bm' a n :
  (∀ f, a ≤ f < a + n → bm_get bm f = bm_get bm' f) →
  count_in bm a n = count_in bm' a n.
Proof.
  unfold count_in. assert (Z.of_nat (Z.to_nat n) ≤ Z.max 0 n) as Hn by lia.
  revert a Hn. generalize (Z.to_nat n) as k. intros k. revert n.
  induction k as [|k IH]; intros n a Hn Hext; [done|]. simpl.
  rewrite Hext by lia. f_equal. apply (IH (n - 1)); [lia|]. intros. apply Hext. lia.
Qed.

Lemma count_in_mono bm bm' a n :
  (∀ f, a ≤ f < a + n → bm_get bm f = true → bm_get bm' f = true) →
  count_in bm a n ≤ count_in bm' a n.
Proof.
  unfold count_in. assert (Z.of_nat (Z.to_nat n) ≤ Z.max 0 n) as Hn by lia.
  revert a Hn. generalize (Z.to_nat n) as k. intros k. revert n.
  induction k as [|k IH]; intros n a Hn Himp; simpl; [lia|].
  specialize (IH (n - 1) (a + 1) ltac:(lia) ltac:(intros; apply Himp; [lia|done])).
  pose proof (Himp a ltac:(lia)). destruct (bm_get bm a), (bm_get bm' a); lia || naive_solver.
Qed.

Lemma count_in_const bm a n b :
  0 ≤ n → (∀ f, a ≤ f < a + n → bm_get bm f = b) →
  count_in bm a n = if b then n else 0.
Proof.
  intros Hn Hb. unfold count_in. rewrite <-(Z2Nat.id n) in Hb |- * at 2 by done.
  clear Hn. revert a Hb. generalize (Z.to_nat n) as k.
  induction k as [|k IH]; intros a Hb; [by destruct b|]. simpl.
  rewrite Hb, IH by (intros; try apply Hb; lia). destruct b; lia.
Qed.

Lemma count_in_bounds bm a n : 0 ≤ n → 0 ≤ count_in bm a n ≤ n.
Proof.
  intros Hn. unfold count_in. rewrite <-(Z2Nat.id n) at 3 by done. clear Hn. revert a.
  induction (Z.to_nat n) as [|k IH]; intros a; simpl; [lia|].
  specialize (IH (a + 1)). destruct (bm_get bm a); lia.
Qed.

(** Changing a run from all-[b] to all-[negb b] moves the count by its length. *)
Lemma count_free_flip bm bm' s c b :
  0 ≤ s → 0 ≤ c → s + c ≤ MAX_FRAMES →
  (∀ f, s ≤ f < s + c → bm_get bm f = b) →
  (∀ f, s ≤ f < s + c → bm_get bm' f = negb b) →
  (∀ f, in_range f → ¬ (s ≤ f < s + c) → bm_get bm' f = bm_get bm f) →
  count_free bm' = if b then count_free bm - c else count_free bm + c.
Proof.
  intros Hs Hc Hm Hb Hb' Hout. unfold count_free.
  replace MAX_FRAMES with (s + (c + (MAX_FRAMES - s - c))) by lia.
  rewrite !(count_in_app _ 0 s), !(count_in_app _ (0 + s) c) by lia.
  rewrite (count_in_const bm (0 + s) c b) by (intros; try apply Hb; lia).
  rewrite (count_in_const bm' (0 + s) c (negb b)) by (intros; try apply Hb'; lia).
  rewrite (count_in_ext bm' bm 0 s) by (intros; apply Hout; unfold in_range; lia).
  rewrite (count_in_ext bm' bm (0 + s + c)) by (intros; apply Hout; unfold in_range; lia).
  destruct b; simpl; lia.
Qed.

Lemma count_free_exact bm f c :
  run_free bm f c → 0 ≤ c → (∀ g, in_range g → bm_get bm g = true → f ≤ g < f + c) →
  count_free bm = c.
Proof.
  intros (Hf & Hm & Hfree) Hc Honly. unfold count_free.
  assert (Hout : ∀ g, in_range g → ¬ f ≤ g < f + c → bm_get bm g = false).
  { intros g Hg Hn. destruct (bm_get bm g) eqn:E; [|done]. by destruct Hn; apply Honly. }
  replace MAX_FRAMES with (f + (c + (MAX_FRAMES - f - c))) by lia.
  rewrite (count_in_app _ 0 f), (count_in_app _ (0 + f) c) by lia.
  rewrite (count_in_const bm 0 f false), (count_in_const bm (0 + f) c true),
    (count_in_const bm (0 + f + c) _ false); try lia; intros;
    first [apply Hfree; lia | apply Hout; unfold in_range; lia].
Qed.

(** The bitmap is sized, the hint in range and the free counter exact. *)
Record fa_wf (s : FrameAllocator) : Prop := {
  wf_bitmap : bm_wf (bitmap s);
  wf_hint : 0 ≤ next_hint s ≤ MAX_FRAMES;
  wf_free : free_frames s = count_free (bitmap s)
}.

Lemma count_free_range bm : 0 ≤ count_free bm ≤ MAX_FRAMES.
Proof. apply count_in_bounds. pose proof MAX_FRAMES_lt. lia. Qed.

(** ** The search is first fit *)

Lemma run_free_used bm s c u :
  bm_get bm u = false → s ≤ u < s + c → ¬ run_free bm s c.
Proof. intros Hu Hs (_ & _ & Hf). rewrite Hf in Hu; done. Qed.

(** The loop invariant: the current run is [frame - run_len .. frame), and no
    run of [count] frames starts before it. *)
Record find_inv (bm : list Z) (start count frame : Z) (rs : option Z) (rl : Z) : Prop := {
  fi_start : 0 ≤ start ≤ frame - rl;
  fi_len : 0 ≤ rl < count;
  fi_rs : rs = if rl =? 0 then None else Some (frame - rl);
  fi_run : ∀ f, frame - rl ≤ f < frame → bm_get bm f = true;
  fi_none : ∀ s, start ≤ s < frame - rl → ¬ run_free bm s count
}.

Lemma find_inv_step_free bm start count frame rs rl :
  find_inv bm start count frame rs rl → bm_get bm frame = true → rl + 1 < count →
  find_inv bm start count (frame + 1) (Some (frame - rl)) (rl + 1).
Proof.
  intros [Hs Hl -> Hr Hn] Hfree Hlt. constructor.
  - lia.
  - lia.
  - destruct (Z.eqb_spec (rl + 1) 0); [lia|]. f_equal. lia.
  - intros f Hf. destruct (decide (f = frame)) as [->|]; [done|]. apply Hr. lia.
  - intros s Hs'. apply Hn. lia.
Qed.

Lemma find_inv_step_used bm start count frame rs rl :
  find_inv bm start count frame rs rl → bm_get bm frame = false →
  find_inv bm start count (frame + 1) None 0.
Proof.
  intros [Hs Hl -> Hr Hn] Hused. constructor; simpl; [lia|lia|done|lia|].
  intros s Hs'. destruct (decide (s < frame - rl)) as [?|?]; [apply Hn; lia|].
  apply (run_free_used _ _ _ frame); [done|lia].
Qed.

Lemma find_loop_spec bm start count n : ∀ frame rs rl,
  find_inv bm start count frame rs rl →
  match find_loop n frame bm count rs rl with
  | Some s => start ≤ s ∧ s + count ≤ frame + Z.of_nat n ∧ run_free bm s count ∧
              ∀ s', start ≤ s' < s → ¬ run_free bm s' count
  | None => ∀ s, start ≤ s → s + count ≤ frame + Z.of_nat n → ¬ run_free bm s count
  end.
Proof.
  induction n as [|n IH]; intros frame rs rl Hinv; simpl.
  - intros s Hs Hsc. apply (fi_none _ _ _ _ _ _ Hinv). destruct Hinv. lia.
  - destruct (Z.leb_spec MAX_FRAMES frame) as [Hm|Hm].
    { intros s Hs Hsc. destruct (decide (s < frame - rl)).
      - apply (fi_none _ _ _ _ _ _ Hinv). lia.
      - intros (_ & ? & _). destruct Hinv. lia. }
    replace (frame + Z.of_nat (S n)) with (frame + 1 + Z.of_nat n) by lia.
    destruct (bm_get bm frame) eqn:Hb.
    + pose proof Hinv as [Hs Hl Hrs Hr Hn].
      assert ((match rs with None => Some frame | Some _ => rs end) = Some (frame - rl)) as ->.
      { rewrite Hrs. destruct (Z.eqb_spec rl 0) as [->|]; [f_equal; lia|done]. }
      assert ((match rs with None => 1 | Some _ => rl + 1 end) = rl + 1) as ->.
      { rewrite Hrs. by destruct (Z.eqb_spec rl 0) as [->|]. }
      destruct (Z.leb_spec count (rl + 1)) as [Hc|Hc].
      * split_and!; [lia|lia| |intros; apply Hn; lia].
        split_and!; [lia..|]. intros f Hf.
        destruct (decide (f = frame)) as [->|]; [done|apply Hr; lia].
      * apply IH. by apply find_inv_step_free with (rs := rs).
    + apply IH. by apply find_inv_step_used with (rs := rs) (rl := rl).
Qed.

Lemma find_contiguous_spec bm start end_ count :
  0 ≤ start ≤ end_ → 1 ≤ count →
  match find_contiguous bm start end_ count with
  | Some s => start ≤ s ∧ s + count ≤ end_ ∧ run_free bm s count ∧
              ∀ s', start ≤ s' < s → ¬ run_free bm s' count
  | None => ∀ s, start ≤ s → s + count ≤ end_ → ¬ run_free bm s count
  end.
Proof.
  intros Hs Hc. unfold find_contiguous.
  pose proof (find_loop_spec bm start count (Z.to_nat (end_ - start)) start None 0) as H.
  rewrite Z2Nat.id in H by lia. replace (start + (end_ - start)) with end_ in H by lia.
  apply H. constructor; simpl; done || lia.
Qed.

(** ** Effect of the operations on the bitmap and the counters *)

Lemma take_run_spec s f c :
  fa_wf s → 1 ≤ c → run_free (bitmap s) f c →
  fa_wf (take_run s f c) ∧ free_frames (take_run s f c) = free_frames s - c ∧
  ∀ g, in_range g →
    bm_get (bitmap (take_run s f c)) g
    = (bm_get (bitmap s) g && negb ((f <=? g) && (g <? f + c))).
Proof.
  intros [Hbm Hh Hfr] Hc (Hf0 & Hfm & Hfree). pose proof MAX_FRAMES_lt.
  unfold take_run, mark_used; simpl.
  rewrite (u64_add_small f c) by lia. replace (f + c - f) with c by lia.
  destruct (clear_range_spec (Z.to_nat c) f (bitmap s)) as [Hwf Hget]; [done..|].
  rewrite Z2Nat.id in Hget by lia.
  pose proof (count_free_range (bitmap s)).
  assert (Hcount : count_free (clear_range (Z.to_nat c) f (bitmap s))
                   = count_free (bitmap s) - c).
  { apply (count_free_flip _ _ f c true); [lia..|done| |].
    - intros g Hg. rewrite Hget by (unfold in_range; lia). rewrite Hfree by done. lia.
    - intros g Hg Hout. rewrite Hget by done.
      destruct (bm_get (bitmap s) g); [lia|done]. }
  pose proof (count_free_range (clear_range (Z.to_nat c) f (bitmap s))).
  rewrite u64_sub_small by lia. split_and!; [constructor; simpl; [exact Hwf|lia|lia]|lia|exact Hget].
Qed.

Lemma free_contiguous_spec s f c :
  bm_wf (bitmap s) → 0 ≤ f → 0 ≤ c →
  bm_wf (bitmap (free_contiguous (mkFrame f) c s)) ∧
  ∀ g, in_range g →
    bm_get (bitmap (free_contiguous (mkFrame f) c s)) g
    = (bm_get (bitmap s) g || (f <=? g) && (g <? f + c)).
Proof.
  intros Hwf Hf Hc. simpl.
  destruct (set_range_spec (Z.to_nat c) f (bitmap s)) as [? Hget]; [done..|].
  rewrite Z2Nat.id in Hget by lia. done.
Qed.

Lemma free_contiguous_wf s f c :
  fa_wf s → 0 ≤ f → 0 ≤ c → f + c ≤ MAX_FRAMES →
  (∀ g, f ≤ g < f + c → bm_get (bitmap s) g = false) →
  fa_wf (free_contiguous (mkFrame f) c s) ∧
  free_frames (free_contiguous (mkFrame f) c s) = free_frames s + c.
Proof.
  intros [Hbm Hh Hfr] Hf Hc Hm Hused. pose proof MAX_FRAMES_lt.
  destruct (free_contiguous_spec s f c) as [Hwf Hget]; [done..|].
  pose proof (count_free_range (bitmap s)).
  assert (Hcount : count_free (bitmap (free_contiguous (mkFrame f) c s))
                   = count_free (bitmap s) + c).
  { apply (count_free_flip _ _ f c false); [lia..|done| |].
    - intros g Hg. rewrite Hget by (unfold in_range; lia). simpl. lia.
    - intros g Hg Hout. rewrite Hget by done. destruct (bm_get (bitmap s) g); [done|lia]. }
  pose proof (count_free_range (bitmap (free_contiguous (mkFrame f) c s))).
  assert (Hadd : u64_add (free_frames s) c = free_frames s + c)
    by (apply u64_add_small; lia).
  split; [constructor; [done|done|]|]; simpl in *; rewrite Hadd; lia.
Qed.

Lemma reserve_range_spec n : ∀ f bm freed, bm_wf bm → 0 ≤ f →
  let '(bm', freed') := reserve_range n f bm freed in
  bm_wf bm' ∧ freed' = freed + (count_free bm - count_free bm') ∧
  ∀ g, in_range g →
    bm_get bm' g = (bm_get bm g && negb ((f <=? g) && (g <? f + Z.of_nat n))).
Proof.
  induction n as [|n IH]; intros f bm freed Hwf Hf; simpl.
  - split_and!; [done|lia|]. intros g Hg.
    replace ((f <=? g) && (g <? f + Z.of_nat 0)) with false by lia. by rewrite andb_true_r.
  - destruct (Z.leb_spec MAX_FRAMES f) as [Hm|Hm].
    { split_and!; [done|lia|]. intros g Hg. unfold in_range in Hg.
      replace (f <=? g) with false by lia. simpl. by rewrite andb_true_r. }
    assert (Hin : in_range f) by (unfold in_range; lia).
    destruct (bm_get bm f) eqn:Hb.
    + specialize (IH (f + 1) (bm_clear bm f) (freed + 1)).
      destruct (reserve_range n (f + 1) (bm_clear bm f) (freed + 1)) as [bm' freed'].
      destruct IH as (Hwf' & -> & Hget); [auto with kernel|lia|]. split_and!; [done| |].
      * enough (count_free (bm_clear bm f) = count_free bm - 1) by lia.
        apply (count_free_flip _ _ f 1 true); unfold in_range in *; try lia;
          intros g Hg; intros; rewrite ?bm_get_clear by (done || (unfold in_range; lia));
          try (replace g with f by lia; rewrite ?Hb); lia.
      * intros g Hg. rewrite Hget, bm_get_clear by done.
        rewrite <-andb_assoc. f_equal. unfold in_range in *. lia.
    + specialize (IH (f + 1) bm freed).
      destruct (reserve_range n (f + 1) bm freed) as [bm' freed'].
      destruct IH as (Hwf' & -> & Hget); [done|lia|]. split_and!; [done|lia|].
      intros g Hg. rewrite Hget by done. unfold in_range in *.
      destruct (decide (g = f)) as [->|]; [by rewrite Hb|]. f_equal. lia.
Qed.

Lemma new_get f : in_range f → bm_get (bitmap new) f = false.
Proof.
  intros Hf. unfold bm_get, new; simpl. rewrite lookup_total_replicate_2.
  - unfold bit_test. by rewrite Z.land_0_l.
  - rewrite <-(length_replicate (Z.to_nat BITMAP_WORDS) 0).
    apply word_of_lt; [apply length_replicate|done].
Qed.

Lemma count_free_new : count_free (bitmap new) = 0.
Proof.
  unfold count_free. pose proof MAX_FRAMES_lt.
  apply (count_in_const _ 0 MAX_FRAMES false); [lia|]. intros f Hf. by apply new_get.
Qed.

Lemma new_wf : fa_wf new.
Proof.
  pose proof MAX_FRAMES_lt. constructor; [apply length_replicate|simpl; lia|].
  by rewrite count_free_new.
Qed.

(** The frames a region of memory covers completely. *)
Lemma region_frames start size :
  0 ≤ start → 0 ≤ size → start + size + PAGE_SIZE < 2 ^ 64 →
  u64_sub (u64_add start PAGE_SIZE) 1 / PAGE_SIZE = (start + PAGE_SIZE - 1) / PAGE_SIZE ∧
  u64_add start size / PAGE_SIZE = (start + size) / PAGE_SIZE ∧
  u64_sub (u64_add (u64_add start size) PAGE_SIZE) 1 / PAGE_SIZE
  = (start + size + PAGE_SIZE - 1) / PAGE_SIZE.
Proof.
  unfold PAGE_SIZE. intros.
  rewrite (u64_add_small start size) by lia.
  rewrite !u64_add_small by lia. rewrite !u64_sub_small by lia. done.
Qed.

(** [add_region] on whole frames [f .. f+c) that exist. *)
Lemma add_region_spec s f c :
  fa_wf s → 0 ≤ f → 1 ≤ c → f + c ≤ MAX_FRAMES →
  (∀ g, f ≤ g < f + c → bm_get (bitmap s) g = false) →
  let s' := add_region (f * PAGE_SIZE) (c * PAGE_SIZE) s in
  fa_wf s' ∧ free_frames s' = free_frames s + c ∧
  ∀ g, in_range g →
    bm_get (bitmap s') g = (bm_get (bitmap s) g || (f <=? g) && (g <? f + c)).
Proof.
  intros Hwf Hf Hc Hm Hused. pose proof MAX_FRAMES_lt as [_ Hlt].
  assert (MAX_FRAMES * PAGE_SIZE < 2 ^ 63) as Hmul by reflexivity.
  destruct (region_frames (f * PAGE_SIZE) (c * PAGE_SIZE)) as (Hs & He & _);
    [unfold PAGE_SIZE; lia..|unfold PAGE_SIZE in *; lia|].
  unfold add_region. rewrite Hs, He.
  replace ((f * PAGE_SIZE + PAGE_SIZE - 1) / PAGE_SIZE) with f; last first.
  { unfold PAGE_SIZE. rewrite <-Z.add_sub_assoc, Z.div_add_l by lia. rewrite Z.div_small; lia. }
  rewrite <-Z.mul_add_distr_r, Z.div_mul by done.
  destruct (Z.leb_spec (f + c) f); [lia|].
  replace (f + c - f) with c by lia.
  destruct (free_contiguous_wf s f c) as [Hwf' Hfree]; [done|lia..|done|].
  destruct (free_contiguous_spec s f c) as [_ Hget]; [apply Hwf|lia..|].
  split_and!; [|exact Hfree|exact Hget].
  destruct Hwf'. constructor; done.
Qed.

Lemma reserve_region_spec s f c :
  fa_wf s → 0 ≤ f → 0 ≤ c → f + c ≤ MAX_FRAMES →
  let s' := reserve_region (f * PAGE_SIZE) (c * PAGE_SIZE) s in
  fa_wf s' ∧ next_hint s' = next_hint s ∧
  ∀ g, in_range g →
    bm_get (bitmap s') g = (bm_get (bitmap s) g && negb ((f <=? g) && (g <? f + c))).
Proof.
  intros [Hbm Hh Hfr] Hf Hc Hm. pose proof MAX_FRAMES_lt as [_ Hlt].
  assert (MAX_FRAMES * PAGE_SIZE < 2 ^ 63) as Hmul by reflexivity.
  destruct (region_frames (f * PAGE_SIZE) (c * PAGE_SIZE)) as (_ & _ & He);
    [unfold PAGE_SIZE; lia..|unfold PAGE_SIZE in *; lia|].
  unfold reserve_region. rewrite He, Z.div_mul by done.
  replace ((f * PAGE_SIZE + c * PAGE_SIZE + PAGE_SIZE - 1) / PAGE_SIZE) with (f + c); last first.
  { unfold PAGE_SIZE. rewrite <-Z.mul_add_distr_r, <-Z.add_sub_assoc, Z.div_add_l by lia.
    rewrite (Z.div_small (4096 - 1)); lia. }
  replace (f + c - f) with c by lia.
  pose proof (reserve_range_spec (Z.to_nat c) f (bitmap s) 0 Hbm Hf) as Hres.
  destruct (reserve_range (Z.to_nat c) f (bitmap s) 0) as [bm' freed].
  destruct Hres as (Hwf' & -> & Hget). rewrite Z2Nat.id in Hget by lia.
  pose proof (count_free_range bm'). pose proof (count_free_range (bitmap s)).
  simpl. split_and!; [constructor; simpl; [exact Hwf'|exact Hh|]|done|exact Hget].
  rewrite u64_sub_small; [lia| |lia]. split; [|lia].
  enough (count_free bm' ≤ count_free (bitmap s)) by lia.
  apply count_in_mono. intros g Hg. rewrite Hget by (unfold in_range; lia).
  intros [? _]%andb_true_iff. done.
Qed.

(** ** The ownership ledger

    What the callers of the allocator hold: ranges they were given and have not
    given back. *)

Inductive ledger_op := Acquire (count : Z) | Release (i : nat).

Definition ledger_step (o : ledger_op) (st : FrameAllocator * list (Z * Z)) :
    FrameAllocator * list (Z * Z) :=
  let '(s, owned) := st in
  match o with
  | Acquire c =>
      match allocate_contiguous c s with
      | (s', Ok f) => (s', (frame_raw f, c) :: owned)
      | (s', Err _) => (s', owned)
      end
  | Release i =>
      match owned !! i with
      | Some (f, c) => (free_contiguous (mkFrame f) c s, delete i owned)
      | None => (s, owned)
      end
  end.

Definition range_disjoint (r1 r2 : Z * Z) : Prop :=
  r1.1 + r1.2 ≤ r2.1 ∨ r2.1 + r2.2 ≤ r1.1.

Definition range_used (s : FrameAllocator) (r : Z * Z) : Prop :=
  0 ≤ r.1 ∧ 1 ≤ r.2 ∧ r.1 + r.2 ≤ MAX_FRAMES ∧
  ∀ g, r.1 ≤ g < r.1 + r.2 → bm_get (bitmap s) g = false.

Record ledger_inv (st : FrameAllocator * list (Z * Z)) : Prop := {
  li_wf : fa_wf st.1;
  li_used : Forall (range_used st.1) st.2;
  li_disj : ∀ i j r1 r2, i ≠ j → st.2 !! i = Some r1 → st.2 !! j = Some r2 →
                         range_disjoint r1 r2
}.

(** The full contract of [allocate_contiguous]. *)
Lemma allocate_contiguous_spec s c :
  fa_wf s → 1 ≤ c →
  match allocate_contiguous c s with
  | (s', Ok (mkFrame f)) =>
      run_free (bitmap s) f c ∧ s' = take_run s f c ∧
      (next_hint s ≤ f ∧ (∀ f', next_hint s ≤ f' < f → ¬ run_free (bitmap s) f' c) ∨
       (∀ f', next_hint s ≤ f' → ¬ run_free (bitmap s) f' c) ∧
       f + c ≤ next_hint s ∧ (∀ f', f' < f → ¬ run_free (bitmap s) f' c))
  | (s', Err e) =>
      s' = s ∧ e = OutOfMemory ∧
      (∀ f, next_hint s ≤ f → ¬ run_free (bitmap s) f c) ∧
      (∀ f, f + c ≤ next_hint s → ¬ run_free (bitmap s) f c)
  end.
Proof.
  intros [Hbm Hh Hfr] Hc. unfold allocate_contiguous.
  destruct (Z.eqb_spec c 0); [lia|].
  pose proof (find_contiguous_spec (bitmap s) (next_hint s) MAX_FRAMES c) as H1.
  pose proof (find_contiguous_spec (bitmap s) 0 (next_hint s) c) as H2.
  destruct (find_contiguous (bitmap s) (next_hint s) MAX_FRAMES c) as [f|].
  { destruct H1 as (?&?&?&?); [lia..|]. split_and!; [done|done|]. by left. }
  assert (Hup : ∀ f, next_hint s ≤ f → ¬ run_free (bitmap s) f c).
  { intros f Hf Hr. apply (H1 ltac:(lia) Hc f); [done| |done]. apply Hr. }
  destruct (find_contiguous (bitmap s) 0 (next_hint s) c) as [f|].
  { destruct H2 as (?&?&?&Hfirst); [lia..|]. split_and!; [done|done|]. right.
    split_and!; [done|done|]. intros f' Hf' Hr. apply (Hfirst f'); [|done].
    destruct Hr. lia. }
  split_and!; [done..|].
  intros f Hf Hr. apply (H2 ltac:(lia) Hc f); [|lia|done]. apply Hr.
Qed.

Lemma ledger_step_inv o st :
  match o with Acquire c => 0 ≤ c | Release _ => True end →
  ledger_inv st → ledger_inv (ledger_step o st).
Proof.
  destruct st as [s owned]. intros Ho [Hwf Hused Hdisj]; simpl in *.
  destruct o as [c|i]; simpl.
  - destruct (decide (c = 0)) as [->|Hc0]; [by constructor|].
    pose proof (allocate_contiguous_spec s c Hwf ltac:(lia)) as Ha.
    destruct (allocate_contiguous c s) as [s' [[f]|e]].
    2:{ destruct Ha as (-> & _). by constructor. }
    destruct Ha as (Hrun & -> & _). pose proof Hrun as (Hf0 & Hfm & Hfree).
    destruct (take_run_spec s f c) as (Hwf' & _ & Hget); [done|lia|done|].
    assert (Hd : ∀ r, r ∈ owned → range_disjoint (f, c) r).
    { intros r Hr. rewrite Forall_forall in Hused.
      destruct (Hused r Hr) as (Hr0 & Hr1 & Hrm & Hru). unfold range_disjoint; simpl.
      destruct (decide (f + c ≤ r.1)); [by left|].
      destruct (decide (r.1 + r.2 ≤ f)); [by right|]. exfalso.
      specialize (Hru (Z.max f r.1) ltac:(lia)). rewrite Hfree in Hru by lia. done. }
    constructor; simpl; [done| |].
    + constructor.
      * unfold range_used; simpl. split_and!; [lia..|]. intros g Hg.
        rewrite Hget by (unfold in_range; lia). lia.
      * eapply Forall_impl; [done|]. intros r (Hr0 & Hr1 & Hrm & Hru).
        split_and!; [done..|]. intros g Hg. rewrite Hget by (unfold in_range; lia).
        by rewrite Hru.
    + intros [|i] [|j] r1 r2 Hij H1 H2; simplify_eq/=.
      * apply Hd. by eapply list_elem_of_lookup_2.
      * destruct (Hd r1) as [?|?]; [by eapply list_elem_of_lookup_2|by right|by left].
      * apply (Hdisj i j); [lia|done..].
  - destruct (owned !! i) as [[f c]|] eqn:Hi; [|by constructor].
    rewrite Forall_forall in Hused.
    destruct (Hused (f, c)) as (Hf0 & Hc1 & Hfm & Hfu);
      [by eapply list_elem_of_lookup_2|]; simpl in *.
    destruct (free_contiguous_wf s f c) as [Hwf' _]; [done|lia..|done|].
    destruct (free_contiguous_spec s f c) as [_ Hget]; [apply Hwf|lia..|].
    constructor; simpl; [done| |].
    + apply Forall_forall. intros r Hr. apply list_elem_of_lookup in Hr as [j Hj].
      assert (∃ k, k ≠ i ∧ owned !! k = Some r) as (k & Hk & Hok).
      { destruct (decide (j < i)%nat).
        - exists j. split; [lia|]. by rewrite list_lookup_delete_lt in Hj.
        - exists (S j). split; [lia|]. rewrite list_lookup_delete_ge in Hj by lia. done. }
      destruct (Hused r) as (Hr0 & Hr1 & Hrm & Hru); [by eapply list_elem_of_lookup_2|].
      split_and!; [done..|]. intros g Hg. rewrite Hget by (unfold in_range; lia).
      rewrite Hru by done. destruct (Hdisj i k _ _ ltac:(done) Hi Hok); simpl in *; lia.
    + intros j k r1 r2 Hjk H1 H2. rewrite list_lookup_delete in H1, H2.
      eapply Hdisj; [|exact H1|exact H2]. repeat case_decide; lia.
Qed.

(** ** Properties *)

(** [C16] [allocate_contiguous] on a well-formed allocator: a success hands out
    [count] frames that exist and were all free, first fit from the hint and
    then from frame 0, removes exactly those frames from the bitmap and exactly
    their number from the free counter, and keeps the allocator well formed; a
    failure is [OutOfMemory], changes nothing, and happens only when no free
    run lies entirely above or entirely below the hint. *)
Theorem allocate_contiguous_correct (s : FrameAllocator) (count : Z)
    (Hwf : fa_wf s) (Hcount : 1 ≤ count) :
  match allocate_contiguous count s with
  | (s', Ok (mkFrame f)) =>
      run_free (bitmap s) f count ∧
      (next_hint s ≤ f ∧ (∀ f', next_hint s ≤ f' < f → ¬ run_free (bitmap s) f' count) ∨
       (∀ f', next_hint s ≤ f' → ¬ run_free (bitmap s) f' count) ∧
       f + count ≤ next_hint s ∧ (∀ f', f' < f → ¬ run_free (bitmap s) f' count)) ∧
      fa_wf s' ∧ free_count s' = free_count s - count ∧
      ∀ g, in_range g →
        bm_get (bitmap s') g
        = (bm_get (bitmap s) g && negb ((f <=? g) && (g <? f + count)))
  | (s', Err e) =>
      s' = s ∧ e = OutOfMemory ∧
      (∀ f, next_hint s ≤ f → ¬ run_free (bitmap s) f count) ∧
      (∀ f, f + count ≤ next_hint s → ¬ run_free (bitmap s) f count)
  end.
Proof.
  pose proof (allocate_contiguous_spec s count Hwf Hcount) as H.
  destruct (allocate_contiguous count s) as [s' [[f]|e]]; [|done].
  destruct H as (Hrun & -> & Hfit).
  destruct (take_run_spec s f count) as (?&?&?); [done..|]. done.
Qed.

Lemma region4_wf : fa_wf (add_region (0 * PAGE_SIZE) (4 * PAGE_SIZE) new).
Proof.
  pose proof MAX_FRAMES_lt. apply add_region_spec; [apply new_wf|lia..|rewrite MAX_FRAMES_val; lia|].
  intros g Hg. apply new_get. unfold in_range. rewrite MAX_FRAMES_val. lia.
Qed.

Lemma region4_get g :
  in_range g →
  bm_get (bitmap (add_region (0 * PAGE_SIZE) (4 * PAGE_SIZE) new)) g
  = ((0 <=? g) && (g <? 4)).
Proof.
  intros Hg. pose proof MAX_FRAMES_val.
  edestruct (add_region_spec new 0 4) as (_ & _ & Hget); [apply new_wf|lia..| |].
  { intros h Hh. apply new_get. unfold in_range. lia. }
  rewrite Hget, new_get by done. done.
Qed.

Lemma region4_run2 :
  run_free (bitmap (add_region (0 * PAGE_SIZE) (4 * PAGE_SIZE) new)) 0 2.
Proof.
  pose proof MAX_FRAMES_val. split_and!; [lia..|]. intros g Hg.
  rewrite region4_get; [lia|unfold in_range; lia].
Qed.

Lemma region4_alloc2 :
  let s := add_region (0 * PAGE_SIZE) (4 * PAGE_SIZE) new in
  allocate_contiguous 2 s = (take_run s 0 2, Ok (mkFrame 0)).
Proof.
  intros s. pose proof region4_run2 as Hrun. fold s in Hrun.
  assert (Hh : next_hint s = 0) by reflexivity.
  pose proof (allocate_contiguous_spec s 2 region4_wf ltac:(lia)) as Hs.
  destruct (allocate_contiguous 2 s) as [s' [[f]|e]].
  - destruct Hs as ((Hf & _) & -> & [[_ Hfirst]|[Hnone _]]).
    + destruct (decide (f = 0)) as [->|]; [done|]. destruct (Hfirst 0); [lia|done].
    + by destruct (Hnone 0); [lia|].
  - destruct Hs as (_ & _ & Hnone & _). by destruct (Hnone 0); [lia|].
Qed.

(** Two of the four frames taken and given back: the hint is left at 2. *)
Lemma straddle_state :
  let s0 := add_region (0 * PAGE_SIZE) (4 * PAGE_SIZE) new in
  let s := free_contiguous (mkFrame 0) 2 (allocate_contiguous 2 s0).1 in
  fa_wf s ∧ next_hint s = 2 ∧
  ∀ g, in_range g → bm_get (bitmap s) g = ((0 <=? g) && (g <? 4)).
Proof.
  intros s0 s. pose proof MAX_FRAMES_val.
  pose proof region4_run2 as Hrun. fold s0 in Hrun.
  assert (Ha : (allocate_contiguous 2 s0).1 = take_run s0 0 2)
    by (unfold s0; by rewrite region4_alloc2).
  unfold s. rewrite Ha.
  destruct (take_run_spec s0 0 2) as (Hwf & _ & Hget); [apply region4_wf|lia|done|].
  destruct (free_contiguous_wf (take_run s0 0 2) 0 2) as [Hwf' _]; [done|lia..| |].
  { intros g Hg. rewrite Hget by (unfold in_range; lia). lia. }
  destruct (free_contiguous_spec (take_run s0 0 2) 0 2) as [_ Hget']; [apply Hwf|lia..|].
  split_and!; [done|done|]. intros g Hg. rewrite Hget', Hget by done. unfold s0.
  rewrite region4_get by done. unfold in_range in Hg. lia.
Qed.

Lemma allocate_contiguous_correct_witness :
  let s := add_region (0 * PAGE_SIZE) (4 * PAGE_SIZE) new in
  fa_wf s ∧
  match allocate_contiguous 2 s with
  | (s', Ok (mkFrame f)) => run_free (bitmap s) f 2 ∧ free_count s' = free_count s - 2
  | (s', Err _) => s' = s
  end.
Proof.
  intros s. split; [apply region4_wf|].
  pose proof (allocate_contiguous_correct s 2 region4_wf ltac:(lia)) as H.
  destruct (allocate_contiguous 2 s) as [s' [[f]|e]]; [|apply H].
  destruct H as (?&_&_&?&_). done.
Defined.

(** [C23] Exclusive ownership over whole histories: starting from any well-formed
    allocator and running any sequence of acquisitions and of releases of held
    ranges, the ranges held at any time exist, are marked used, and are pairwise
    disjoint, and the allocator stays well formed. *)
Theorem held_ranges_disjoint (s : FrameAllocator) (ops : list ledger_op)
    (Hwf : fa_wf s)
    (Hops : Forall (λ o, match o with Acquire c => 0 ≤ c | Release _ => True end) ops) :
  let '(s', owned) := run_ops ledger_step ops (s, []) in
  fa_wf s' ∧ Forall (range_used s') owned ∧
  ∀ i j r1 r2, i ≠ j → owned !! i = Some r1 → owned !! j = Some r2 → range_disjoint r1 r2.
Proof.
  assert (Hinv : ledger_inv (run_ops ledger_step ops (s, []))).
  { apply (run_ops_invariant_on ledger_step ledger_inv _ ledger_step_inv ops _ Hops).
    constructor; simpl; [done|constructor|]. intros i j ????. done. }
  destruct (run_ops ledger_step ops (s, [])) as [s' owned]. by destruct Hinv.
Qed.

Lemma held_ranges_disjoint_witness :
  let ops := [Acquire 2; Acquire 1; Release 1; Acquire 2] in
  let '(s', owned) := run_ops ledger_step ops
                        (add_region (0 * PAGE_SIZE) (4 * PAGE_SIZE) new, []) in
  fa_wf s' ∧ Forall (range_used s') owned.
Proof.
  intros ops.
  pose proof (held_ranges_disjoint (add_region (0 * PAGE_SIZE) (4 * PAGE_SIZE) new) ops
                region4_wf ltac:(repeat constructor; lia)) as H.
  destruct (run_ops ledger_step ops _) as [s' owned]. split; apply H.
Defined.

(** Giving back what was just allocated restores every bit of the bitmap and
    the free count. *)
Theorem alloc_free_roundtrip (s s' : FrameAllocator) (count : Z) (f : FrameNumber)
    (Hwf : fa_wf s) (Hcount : 1 ≤ count)
    (Halloc : allocate_contiguous count s = (s', Ok f)) :
  let s'' := free_contiguous f count s' in
  fa_wf s'' ∧ free_count s'' = free_count s ∧
  ∀ g, in_range g → bm_get (bitmap s'') g = bm_get (bitmap s) g.
Proof.
  pose proof (allocate_contiguous_spec s count Hwf Hcount) as H.
  rewrite Halloc in H. destruct f as [f]. destruct H as (Hrun & -> & _).
  destruct (take_run_spec s f count) as (Hwf' & Hfree & Hget); [done..|].
  destruct Hrun as (Hf0 & Hfm & Hfr).
  destruct (free_contiguous_wf (take_run s f count) f count) as [Hwf'' Hfree'']; [done|lia..| |].
  { intros g Hg. rewrite Hget by (unfold in_range; lia). lia. }
  destruct (free_contiguous_spec (take_run s f count) f count) as [_ Hget''];
    [apply Hwf'|lia..|].
  split_and!; [done|unfold free_count; lia|].
  intros g Hg. rewrite Hget'', Hget by done.
  destruct (decide (f ≤ g < f + count)).
  - rewrite (Hfr g) by done. lia.
  - destruct (bm_get (bitmap s) g); lia.
Qed.

Lemma alloc_free_roundtrip_witness :
  let s := add_region (0 * PAGE_SIZE) (4 * PAGE_SIZE) new in
  allocate_contiguous 2 s = (take_run s 0 2, Ok (mkFrame 0)) ∧
  free_count (free_contiguous (mkFrame 0) 2 (take_run s 0 2)) = free_count s.
Proof.
  intros s. split; [apply region4_alloc2|].
  apply (alloc_free_roundtrip s (take_run s 0 2) 2 (mkFrame 0) region4_wf ltac:(lia)
           region4_alloc2).
Defined.

(** Releasing an allocated range frees exactly it and counts exactly it; there
    is no guard against releasing it again, and a second release leaves the
    bitmap as it is while the free counter moves [count] above the number of free
    frames. *)
Theorem free_then_double_free (s : FrameAllocator) (f count : Z)
    (Hwf : fa_wf s) (Hf : 0 ≤ f) (Hcount : 1 ≤ count) (Hmax : f + count ≤ MAX_FRAMES)
    (Hused : ∀ g, f ≤ g < f + count → bm_get (bitmap s) g = false) :
  let s1 := free_contiguous (mkFrame f) count s in
  let s2 := free_contiguous (mkFrame f) count s1 in
  (fa_wf s1 ∧ free_count s1 = free_count s + count ∧
   ∀ g, in_range g →
     bm_get (bitmap s1) g = (bm_get (bitmap s) g || (f <=? g) && (g <? f + count))) ∧
  (∀ g, in_range g → bm_get (bitmap s2) g = bm_get (bitmap s1) g) ∧
  free_count s2 = count_free (bitmap s2) + count.
Proof.
  intros s1 s2. pose proof MAX_FRAMES_lt as [_ Hlt]. rewrite MAX_FRAMES_val in Hlt.
  destruct (free_contiguous_wf s f count) as [Hwf1 Hfree1]; [done|lia..|done|].
  fold s1 in Hwf1, Hfree1.
  destruct (free_contiguous_spec s f count) as [Hbm1 Hget1]; [apply Hwf|lia..|].
  fold s1 in Hbm1, Hget1.
  destruct (free_contiguous_spec s1 f count) as [Hbm2 Hget2]; [apply Hwf1|lia..|].
  fold s2 in Hbm2, Hget2.
  assert (Hsame : ∀ g, in_range g → bm_get (bitmap s2) g = bm_get (bitmap s1) g).
  { intros g Hg. rewrite Hget2, Hget1 by done. destruct (bm_get (bitmap s) g); lia. }
  split_and!; [done..|].
  pose proof (count_free_range (bitmap s1)). rewrite MAX_FRAMES_val in *.
  assert (Hc : count_free (bitmap s2) = count_free (bitmap s1)).
  { apply count_in_ext. intros g Hg. by apply Hsame. }
  rewrite Hc. change (free_count s2) with (u64_add (free_frames s1) count).
  rewrite (wf_free s1 Hwf1). apply u64_add_small; lia.
Qed.

Lemma free_then_double_free_witness :
  let s := take_run (add_region (0 * PAGE_SIZE) (4 * PAGE_SIZE) new) 0 2 in
  let s2 := free_contiguous (mkFrame 0) 2 (free_contiguous (mkFrame 0) 2 s) in
  free_count s2 = count_free (bitmap s2) + 2.
Proof.
  intros s s2. pose proof MAX_FRAMES_val.
  destruct (take_run_spec (add_region (0 * PAGE_SIZE) (4 * PAGE_SIZE) new) 0 2)
    as (Hwf & _ & Hget); [apply region4_wf|lia|apply region4_run2|].
  apply (free_then_double_free s 0 2 Hwf); [lia..|].
  intros g Hg. unfold s. rewrite Hget by (unfold in_range; lia). lia.
Defined.

(** A region that reaches past [MAX_FRAMES] is counted whole although only its
    first frames get a bit. *)
Lemma add_region_beyond_max (s : FrameAllocator) :
  fa_wf s → bm_get (bitmap s) (MAX_FRAMES - 1) = false →
  let s' := add_region ((MAX_FRAMES - 1) * PAGE_SIZE) (2 * PAGE_SIZE) s in
  free_count s' = count_free (bitmap s') + 1.
Proof.
  intros [Hbm Hh Hfr] Hlast s'. pose proof MAX_FRAMES_val as Hval.
  destruct (region_frames ((MAX_FRAMES - 1) * PAGE_SIZE) (2 * PAGE_SIZE)) as (Hs & He & _);
    [rewrite ?Hval; unfold PAGE_SIZE; lia..|].
  assert (Hs' : s' = mkFA (set_range 2 (MAX_FRAMES - 1) (bitmap s))
                          (u64_add (total_frames s) 2) (u64_add (free_frames s) 2)
                          (next_hint s)).
  { unfold s', add_region. rewrite Hs, He, Hval. reflexivity. }
  rewrite Hs'. unfold free_count; simpl.
  destruct (set_range_spec 2 (MAX_FRAMES - 1) (bitmap s)) as [_ Hget]; [done|lia|].
  pose proof (count_free_range (bitmap s)). rewrite Hfr, u64_add_small by lia.
  enough (count_free (set_range 2 (MAX_FRAMES - 1) (bitmap s)) = count_free (bitmap s) + 1)
    by (simpl in *; lia).
  apply (count_free_flip _ _ (MAX_FRAMES - 1) 1 false); [lia..| | |].
  - intros g Hg. replace g with (MAX_FRAMES - 1) by lia. done.
  - intros g Hg. rewrite Hget by (unfold in_range; lia). simpl. lia.
  - intros g Hg Hout. rewrite Hget by done. unfold in_range in Hg.
    destruct (bm_get (bitmap s) g); [done|lia].
Qed.

(** The wrap-around search never looks at a run that crosses the hint: when
    the only free frames form one run with the hint strictly inside it, a request
    for exactly that many frames is refused although they are free, contiguous
    and counted. *)
Theorem straddling_run_refused (s : FrameAllocator) (f count : Z)
    (Hwf : fa_wf s) (Hrun : run_free (bitmap s) f count)
    (Hhint : f < next_hint s < f + count)
    (Honly : ∀ g, in_range g → bm_get (bitmap s) g = true → f ≤ g < f + count) :
  free_count s = count ∧ allocate_contiguous count s = (s, Err OutOfMemory).
Proof.
  pose proof Hrun as (Hf0 & Hfm & Hfr). split.
  - unfold free_count. rewrite (wf_free s Hwf). apply (count_free_exact _ f); [done|lia|done].
  - pose proof (allocate_contiguous_spec s count Hwf ltac:(lia)) as H.
    assert (Hno : ∀ f', run_free (bitmap s) f' count → f' = f).
    { intros f' (Hf'0 & Hf'm & Hf'). unfold in_range in Honly.
      pose proof (Honly f' ltac:(lia) (Hf' f' ltac:(lia))).
      pose proof (Honly (f' + count - 1) ltac:(lia) (Hf' (f' + count - 1) ltac:(lia))). lia. }
    destruct (allocate_contiguous count s) as [s' [[f']|e]]; [|by destruct H as (-> & -> & _)].
    exfalso. destruct H as (Hr%Hno & _ & [[Hle _]|(_ & Hle & _)]); lia.
Qed.

Lemma straddling_run_refused_witness :
  let s0 := add_region (0 * PAGE_SIZE) (4 * PAGE_SIZE) new in
  let s := free_contiguous (mkFrame 0) 2 (allocate_contiguous 2 s0).1 in
  free_count s = 4 ∧ allocate_contiguous 4 s = (s, Err OutOfMemory).
Proof.
  intros s0 s. assert (Hs : fa_wf s ∧ next_hint s = 2 ∧
    ∀ g, in_range g → bm_get (bitmap s) g = ((0 <=? g) && (g <? 4))).
  { apply straddle_state. }
  destruct Hs as (Hwf & Hh & Hget). pose proof MAX_FRAMES_val.
  apply (straddling_run_refused s 0 4 Hwf); [|rewrite Hh; lia|].
  - split_and!; [lia..|]. intros g Hg. rewrite Hget by (unfold in_range; lia). lia.
  - intros g Hg Hb. rewrite Hget in Hb by done. lia.
Defined.
