(* ===== verification/Ids.v ===== *)
(** * Ids: the identifiers every component shares

    [ProcessId] of [kernel/src/sched/mod.rs] and [CapabilityToken] of
    [kernel/src/cap/mod.rs] with decidable equality, countability (they key the
    kernel's [BTreeMap]s) and their derived [Ord]. *)

From Stdlib Require Import ZArith Lia.
From S2P Require Import Prelude.

(** ** Process identifiers *)

Record ProcessId := mkPid { pid_raw : Z }.

Definition KERNEL : ProcessId := mkPid 0.

#[global] Instance ProcessId_eq_dec : EqDecision ProcessId.
Proof. solve_decision. Defined.
#[global] Instance ProcessId_countable : Countable ProcessId.
Proof. by refine (inj_countable' pid_raw mkPid _); intros []. Defined.
#[global] Instance ProcessId_order : KeyOrder ProcessId.
Proof. refine (KeyOrder_of pid_raw _). intros [] []; simpl; congruence. Defined.

(** ** Capability tokens: four 64-bit words *)

Record CapabilityToken := mkToken { tok0 : Z; tok1 : Z; tok2 : Z; tok3 : Z }.

#[global] Instance CapabilityToken_eq_dec : EqDecision CapabilityToken.
Proof. solve_decision. Defined.
#[global] Instance CapabilityToken_countable : Countable CapabilityToken.
Proof.
  by refine (inj_countable' (λ t, (tok0 t, tok1 t, tok2 t, tok3 t))
               (λ '(a, b, c, d), mkToken a b c d) _); intros [].
Defined.

(** The derived [Ord]: lexicographic on the words. *)
Definition token_le (a b : CapabilityToken) : Prop :=
  tok0 a < tok0 b ∨ tok0 a = tok0 b ∧
  (tok1 a < tok1 b ∨ tok1 a = tok1 b ∧
   (tok2 a < tok2 b ∨ tok2 a = tok2 b ∧ tok3 a ≤ tok3 b)).

#[global] Instance token_le_dec (a b : CapabilityToken) : Decision (token_le a b).
Proof. unfold token_le. apply _. Defined.

#[global] Instance CapabilityToken_order : KeyOrder CapabilityToken.
Proof.
  refine {| key_le := token_le; key_le_dec := token_le_dec |}; unfold token_le.
  - intros x y z. lia.
  - intros x y. lia.
  - intros [] []; simpl. intros. f_equal; lia.
Defined.

(** ** Bytes of 64-bit words, little endian *)

Fixpoint to_le_bytes (n : nat) (z : Z) : list Z :=
  match n with
  | O => []
  | S n => u8 z :: to_le_bytes n (Z.shiftr z 8)
  end.

Fixpoint from_le_bytes (l : list Z) : Z :=
  match l with
  | [] => 0
  | b :: l => b + Z.shiftl (from_le_bytes l) 8
  end.

Definition is_byte (b : Z) : Prop := 0 ≤ b < 256.

Lemma length_to_le_bytes n z : length (to_le_bytes n z) = n.
Proof. revert z. induction n; simpl; auto. Qed.

Lemma to_le_bytes_byte n z : Forall is_byte (to_le_bytes n z).
Proof.
  revert z. induction n; intros z; simpl; constructor; auto.
  apply Z.mod_pos_bound. lia.
Qed.

Lemma from_to_le_bytes n : ∀ z,
  from_le_bytes (to_le_bytes n z) = z mod 2 ^ (8 * Z.of_nat n).
Proof.
  induction n as [|n IH]; intros z; simpl from_le_bytes.
  - by rewrite Z.mod_1_r.
  - rewrite IH, Z.shiftl_mul_pow2, Z.shiftr_div_pow2 by lia.
    replace (8 * Z.of_nat (S n)) with (8 + 8 * Z.of_nat n) by lia.
    rewrite Z.pow_add_r, Z.rem_mul_r by lia. unfold u8, wrap. lia.
Qed.

Lemma to_from_le_bytes l :
  Forall is_byte l → to_le_bytes (length l) (from_le_bytes l) = l.
Proof.
  induction 1 as [|b l Hb Hl IH]; simpl; [done|].
  rewrite Z.shiftl_mul_pow2, Z.shiftr_div_pow2 by lia. unfold is_byte in Hb.
  unfold u8, wrap. change (2 ^ 8) with 256. f_equal.
  - rewrite Z.mod_add by lia. apply Z.mod_small. lia.
  - rewrite Z.div_add, Z.div_small, Z.add_0_l by lia. done.
Qed.

Lemma from_le_bytes_range l :
  Forall is_byte l → 0 ≤ from_le_bytes l < 2 ^ (8 * Z.of_nat (length l)).
Proof.
  induction 1 as [|b l Hb Hl IH]; simpl length; [done|]. simpl from_le_bytes.
  rewrite Z.shiftl_mul_pow2 by lia. unfold is_byte in Hb.
  replace (8 * Z.of_nat (S (length l))) with (8 + 8 * Z.of_nat (length l)) by lia.
  rewrite Z.pow_add_r by lia. lia.
Qed.
