(* ===== verification/Mem.v ===== *)
(** * Mem: byte-addressed memory

    Raw memory as the kernel's pointer code sees it: bytes at integer addresses, zero
    where nothing was stored (the kernel heap lives in the zeroed [.bss]), with the
    little-endian 64-bit load and store of x86-64, aligned or not. *)

From Stdlib Require Import ZArith Lia.
From stdpp Require Import gmap.
From S2P Require Import Prelude.
From S2P Require Import Ids.

Abbreviation memory := (gmap Z Z).

Definition load8 (m : memory) (a : Z) : Z := default 0 (m !! a).
Definition store8 (a v : Z) (m : memory) : memory := <[a := v]> m.

Fixpoint load_bytes (n : nat) (m : memory) (a : Z) : list Z :=
  match n with
  | O => []
  | S n => load8 m a :: load_bytes n m (a + 1)
  end.

Fixpoint store_bytes (a : Z) (bs : list Z) (m : memory) : memory :=
  match bs with
  | [] => m
  | b :: bs => store_bytes (a + 1) bs (store8 a b m)
  end.

Definition load64 (m : memory) (a : Z) : Z := from_le_bytes (load_bytes 8 m a).
Definition store64 (a v : Z) (m : memory) : memory := store_bytes a (to_le_bytes 8 v) m.

Lemma load8_store8 m a b v : load8 (store8 a v m) b = if decide (b = a) then v else load8 m b.
Proof.
  unfold load8, store8. case_decide as Hb; [subst; by rewrite lookup_insert_eq|].
  by rewrite lookup_insert_ne.
Qed.

Lemma load8_store_bytes bs : ∀ a m x,
  load8 (store_bytes a bs m) x
  = if decide (a ≤ x < a + Z.of_nat (length bs)) then nth (Z.to_nat (x - a)) bs 0 else load8 m x.
Proof.
  induction bs as [|b bs IH]; intros a m x; simpl length; cbn [store_bytes].
  { case_decide; [lia|done]. }
  rewrite IH, load8_store8. destruct (decide (x = a)) as [->|Hne].
  - rewrite decide_False by lia. rewrite decide_True by lia. by rewrite Z.sub_diag.
  - destruct (decide (a + 1 ≤ x < a + 1 + Z.of_nat (length bs))).
    + rewrite decide_True by lia. replace (Z.to_nat (x - a)) with (S (Z.to_nat (x - (a + 1)))) by lia.
      done.
    + by rewrite decide_False by lia.
Qed.

Lemma load_bytes_ext n : ∀ m m' a,
  (∀ x, a ≤ x < a + Z.of_nat n → load8 m' x = load8 m x) → load_bytes n m' a = load_bytes n m a.
Proof.
  induction n as [|n IH]; intros m m' a H; cbn [load_bytes]; [done|]. f_equal; [apply H; lia|].
  apply IH. intros x Hx. apply H. lia.
Qed.

Lemma load_bytes_store bs : ∀ a m, load_bytes (length bs) (store_bytes a bs m) a = bs.
Proof.
  induction bs as [|b bs IH]; intros a m; cbn [length load_bytes store_bytes]; [done|].
  f_equal; [|apply IH]. rewrite load8_store_bytes, decide_False by lia.
  by rewrite load8_store8, decide_True.
Qed.

Lemma load64_store64 m a v : is_u64 v → load64 (store64 a v m) a = v.
Proof.
  intros Hv. unfold load64, store64. rewrite <-(length_to_le_bytes 8 v) at 1.
  rewrite load_bytes_store, from_to_le_bytes. by apply Z.mod_small.
Qed.

Lemma load8_store64_ne m a x v : x < a ∨ a + 8 ≤ x → load8 (store64 a v m) x = load8 m x.
Proof.
  intros Hx. unfold store64. rewrite load8_store_bytes, length_to_le_bytes.
  by rewrite decide_False by lia.
Qed.

Lemma load64_ext m m' a :
  (∀ x, a ≤ x < a + 8 → load8 m' x = load8 m x) → load64 m' a = load64 m a.
Proof. intros H. unfold load64. f_equal. by apply load_bytes_ext. Qed.

Lemma load64_store64_ne m a b v : b + 8 ≤ a ∨ a + 8 ≤ b → load64 (store64 a v m) b = load64 m b.
Proof. intros H. apply load64_ext. intros x Hx. apply load8_store64_ne. lia. Qed.

Lemma load64_store8_ne m a b v : b + 8 ≤ a ∨ a + 1 ≤ b → load64 (store8 a v m) b = load64 m b.
Proof.
  intros H. apply load64_ext. intros x Hx. rewrite load8_store8. by rewrite decide_False by lia.
Qed.

(** Loads through a chain of stores at addresses [lia] can separate. *)
Ltac loads :=
  repeat first
    [ rewrite load64_store64 by (done || auto with kernel)
    | rewrite load64_store64_ne by lia
    | rewrite load8_store64_ne by lia ].

Lemma load_bytes_store8 n : ∀ m a off v, 0 ≤ off →
  load_bytes n (store8 (a + off) v m) a = <[Z.to_nat off := v]> (load_bytes n m a).
Proof.
  induction n as [|n IH]; intros m a off v Hoff; cbn [load_bytes]; [done|].
  destruct (decide (off = 0)) as [->|Hne].
  - rewrite Z.add_0_r. change (Z.to_nat 0) with O. cbn. rewrite load8_store8, decide_True by done.
    f_equal. apply load_bytes_ext. intros x Hx. by rewrite load8_store8, decide_False by lia.
  - replace (Z.to_nat off) with (S (Z.to_nat (off - 1))) by lia.
    cbn. rewrite load8_store8, decide_False by lia. f_equal.
    replace (a + off) with ((a + 1) + (off - 1)) by lia. apply IH. lia.
Qed.
