(* ===== verification/Heap.v ===== *)
(** * Heap: the kernel heap ([kernel/src/mm/mod.rs], [FreeListAllocator])

    Block headers and the doubly linked free list live in the heap memory itself,
    which is raw bytes ([Mem]): every pointer read and write of the allocator is a
    64-bit load or store. First fit, splitting, and merging with both neighbours on
    release. Pointers are addresses and 0 is the null pointer; the walks over the free
    list and over the blocks take as fuel the number of smallest blocks that fit the
    heap, plus one, and [None] is a walk that does not end. *)

From Stdlib Require Import ZArith Lia.
From stdpp Require Import gmap.
From S2P Require Import Prelude.
From S2P Require Import Ids.
From S2P Require Import Mem.

(** ** Data *)

(** [core::alloc::Layout]: [align] is a power of two. *)
Record Layout := mkLayout { size : Z; align : Z }.

(** [size_of::<BlockHeader>()] and [size_of::<usize>()]. *)
Definition header_size : Z := 8.
Definition MIN_BLOCK_SIZE : Z := header_size + 2 * 8.
Definition ALLOCATED_FLAG : Z := 1.

(** [BlockHeader]: the word [size_and_flags]. *)
Definition header_new (sz : Z) (allocated : bool) : Z :=
  if allocated then Z.lor sz ALLOCATED_FLAG else Z.land sz (u64_not ALLOCATED_FLAG).
Definition header_sz (h : Z) : Z := Z.land h (u64_not ALLOCATED_FLAG).
Definition header_allocated (h : Z) : bool := negb (Z.land h ALLOCATED_FLAG =? 0).

(** The methods of a header at address [a]. *)
Definition block_size (a : Z) (m : memory) : Z := header_sz (load64 m a).
Definition is_allocated (a : Z) (m : memory) : bool := header_allocated (load64 m a).
Definition set_allocated (a : Z) (allocated : bool) (m : memory) : memory :=
  store64 a (if allocated then Z.lor (load64 m a) ALLOCATED_FLAG
             else Z.land (load64 m a) (u64_not ALLOCATED_FLAG)) m.
Definition set_size (a sz : Z) (m : memory) : memory :=
  store64 a (if is_allocated a m then Z.lor sz ALLOCATED_FLAG else sz) m.
Definition data_ptr (a : Z) : Z := a + header_size.
Definition next_block (a : Z) (m : memory) : Z := a + block_size a m.

(** [FreeNode]: [next], then [prev]. *)
Definition node_next (n : Z) (m : memory) : Z := load64 m n.
Definition node_prev (n : Z) (m : memory) : Z := load64 m (n + 8).
Definition set_next (n v : Z) (m : memory) : memory := store64 n v m.
Definition set_prev (n v : Z) (m : memory) : memory := store64 (n + 8) v m.
Definition node_to_header (n : Z) : Z := n - header_size.

Record FreeListAllocator := mkHeap {
  mem : memory;
  heap_start : Z;
  heap_end : Z;
  free_list : Z;
  total_allocated : Z;
  allocation_count : Z;
  deallocation_count : Z
}.

Definition heap_new : FreeListAllocator := mkHeap ∅ 0 0 0 0 0 0.

Definition set_mem (f : memory → memory) (h : FreeListAllocator) : FreeListAllocator :=
  mkHeap (f (mem h)) (heap_start h) (heap_end h) (free_list h) (total_allocated h)
    (allocation_count h) (deallocation_count h).
Definition set_free_list (n : Z) (h : FreeListAllocator) : FreeListAllocator :=
  mkHeap (mem h) (heap_start h) (heap_end h) n (total_allocated h)
    (allocation_count h) (deallocation_count h).

Definition align_up (value alignment : Z) : Z :=
  Z.land (u64_sub (u64_add value alignment) 1) (u64_not (u64_sub alignment 1)).

(** Enough for a walk over distinct blocks. *)
Definition walk_fuel (h : FreeListAllocator) : nat :=
  S (S (Z.to_nat ((heap_end h - heap_start h) / MIN_BLOCK_SIZE))).

(** ** Operations *)

Definition init (start sz : Z) (h : FreeListAllocator) : FreeListAllocator :=
  let node := data_ptr start in
  mkHeap (set_prev node 0 (set_next node 0 (store64 start (header_new sz false) (mem h))))
    start (u64_add start sz) node (total_allocated h) (allocation_count h) (deallocation_count h).

Definition add_to_free_list (header : Z) (h : FreeListAllocator) : FreeListAllocator :=
  let node := data_ptr header in
  let h := set_mem (set_next node (free_list h)) h in
  let h := set_mem (set_prev node 0) h in
  let h := if free_list h =? 0 then h else set_mem (set_prev (free_list h) node) h in
  set_free_list node h.

Definition remove_from_free_list (node : Z) (h : FreeListAllocator) : FreeListAllocator :=
  let prev := node_prev node (mem h) in
  let next := node_next node (mem h) in
  let h := if prev =? 0 then set_free_list next h else set_mem (set_next prev next) h in
  if next =? 0 then h else set_mem (set_prev next prev) h.

(** The part of [allocate] for a block that fits. *)
Definition take_block (header total_needed : Z) (h : FreeListAllocator) : FreeListAllocator :=
  let block_sz := block_size header (mem h) in
  let h := remove_from_free_list (data_ptr header) h in
  let remaining := u64_sub block_sz total_needed in
  let h :=
    if MIN_BLOCK_SIZE <=? remaining then
      let new_block := header + total_needed in
      let h := set_mem (store64 new_block (header_new remaining false)) h in
      let h := add_to_free_list new_block h in
      set_mem (set_size header total_needed) h
    else h in
  let h := set_mem (set_allocated header true) h in
  mkHeap (mem h) (heap_start h) (heap_end h) (free_list h)
    (u64_add (total_allocated h) (block_size header (mem h)))
    (u64_add (allocation_count h) 1) (deallocation_count h).

(** Bytes needed from a block at [header], and the address returned. *)
Definition needed (layout : Layout) (header : Z) : Z * Z :=
  let required_size := Z.max (u64_add header_size (size layout)) MIN_BLOCK_SIZE in
  let aligned_ptr := align_up (data_ptr header) (align layout) in
  let padding := u64_sub aligned_ptr (data_ptr header) in
  (u64_add required_size padding, aligned_ptr).

Fixpoint find_fit (fuel : nat) (layout : Layout) (current : Z) (h : FreeListAllocator) :
    option (FreeListAllocator * option Z) :=
  match fuel with
  | O => None
  | S fuel =>
      if current =? 0 then Some (h, None)
      else
        let header := node_to_header current in
        let '(total_needed, aligned_ptr) := needed layout header in
        if total_needed <=? block_size header (mem h)
        then Some (take_block header total_needed h, Some aligned_ptr)
        else find_fit fuel layout (node_next current (mem h)) h
  end.

Definition allocate (layout : Layout) (h : FreeListAllocator) :
    option (FreeListAllocator * option Z) :=
  if size layout =? 0 then Some (h, Some (align layout))
  else find_fit (walk_fuel h) layout (free_list h) h.

Fixpoint find_prev (fuel : nat) (target prev current : Z) (h : FreeListAllocator) : option Z :=
  match fuel with
  | O => None
  | S fuel =>
      if (current <? heap_end h) && negb (current =? target)
      then find_prev fuel target current (next_block current (mem h)) h
      else Some (if current =? target then prev else 0)
  end.

Definition find_prev_block (target : Z) (h : FreeListAllocator) : option Z :=
  find_prev (walk_fuel h) target 0 (heap_start h) h.

(** The halves of [coalesce]: with the next block, whose size is then added, and with the
    previous one. *)
Definition merge_next (header : Z) (h : FreeListAllocator) : FreeListAllocator * Z :=
  let current_size := block_size header (mem h) in
  let next_header := next_block header (mem h) in
  if (next_header <? heap_end h) && negb (is_allocated next_header (mem h)) then
    let h := remove_from_free_list (data_ptr next_header) h in
    let current_size := u64_add current_size (block_size next_header (mem h)) in
    (set_mem (set_size header current_size) h, current_size)
  else (h, current_size).

Definition merge_prev (header current_size : Z) (h : FreeListAllocator) : option FreeListAllocator :=
  prev_header ← find_prev_block header h;
  if negb (prev_header =? 0) && negb (is_allocated prev_header (mem h)) then
    let h := remove_from_free_list (data_ptr prev_header) h in
    let merged_size := u64_add (block_size prev_header (mem h)) current_size in
    Some (add_to_free_list prev_header (set_mem (set_size prev_header merged_size) h))
  else Some (add_to_free_list header h).

Definition coalesce (header : Z) (h : FreeListAllocator) : option FreeListAllocator :=
  let '(h, current_size) := merge_next header h in
  merge_prev header current_size h.

Definition deallocate (ptr : Z) (layout : Layout) (h : FreeListAllocator) :
    option FreeListAllocator :=
  if (ptr =? 0) || (size layout =? 0) then Some h
  else
    let header := ptr - header_size in
    if (header <? heap_start h) || (heap_end h <=? header) then Some h
    else if negb (is_allocated header (mem h)) then Some h
    else
      let block_sz := block_size header (mem h) in
      let h := mkHeap (mem h) (heap_start h) (heap_end h) (free_list h)
                 (sat_sub (total_allocated h) block_sz) (allocation_count h)
                 (u64_add (deallocation_count h) 1) in
      coalesce header (set_mem (set_allocated header false) h).

Fixpoint count_free (fuel : nat) (current count : Z) (h : FreeListAllocator) : option Z :=
  match fuel with
  | O => None
  | S fuel => if current =? 0 then Some count
              else count_free fuel (node_next current (mem h)) (u64_add count 1) h
  end.
Definition count_free_blocks (h : FreeListAllocator) : option Z :=
  count_free (walk_fuel h) (free_list h) 0 h.

(** [AllocatorStats]. *)
Record AllocatorStats := mkStats {
  st_heap_size : Z; st_total_allocated : Z; st_allocation_count : Z;
  st_deallocation_count : Z; st_free_blocks : Z
}.
Definition stats (h : FreeListAllocator) : option AllocatorStats :=
  n ← count_free_blocks h;
  Some (mkStats (sat_sub (heap_end h) (heap_start h)) (total_allocated h) (allocation_count h)
          (deallocation_count h) n).

(** ** Masks *)

(** [x & !(2^k - 1)] clears the low [k] bits. *)
Lemma land_not_ones x k : is_u64 x → 0 ≤ k ≤ 64 →
  Z.land x (u64_not (Z.ones k)) = x - x mod 2 ^ k.
Proof.
  intros Hx Hk. rewrite <-Z.land_ones by lia.
  rewrite Z.sub_nocarry_ldiff.
  2:{ apply Z.bits_inj'. intros i Hi. rewrite Z.ldiff_spec, Z.land_spec, Z.bits_0.
      destruct (Z.testbit x i), (Z.testbit (Z.ones k) i); done. }
  apply Z.bits_inj'. intros i Hi. unfold u64_not.
  rewrite Z.ldiff_spec, !Z.land_spec, Z.lxor_spec, !Z.testbit_ones_nonneg by lia.
  destruct (Z.testbit x i) eqn:E; [|done]. simpl.
  assert (i < 64).
  { destruct (Z.lt_ge_cases i 64); [done|]. rewrite (proj1 (is_u64_testbit x (proj1 Hx)) Hx) in E; done. }
  rewrite (proj2 (Z.ltb_lt i 64)) by done. by destruct (i <? k).
Qed.

Lemma header_sz_spec x : is_u64 x → header_sz x = x - x mod 2.
Proof. intros Hx. exact (land_not_ones x 1 Hx ltac:(lia)). Qed.

Lemma land_flag x : Z.land x ALLOCATED_FLAG = x mod 2.
Proof. exact (Z.land_ones x 1 ltac:(lia)). Qed.

Lemma header_allocated_spec x : header_allocated x = (x mod 2 =? 1).
Proof. unfold header_allocated. rewrite land_flag. pose proof (Z.mod_pos_bound x 2). lia. Qed.

Lemma lor_flag x : x mod 2 = 0 → Z.lor x ALLOCATED_FLAG = x + 1.
Proof. intros Hx. pose proof (Z.add_lor_land x ALLOCATED_FLAG). rewrite land_flag in *. unfold ALLOCATED_FLAG in *. lia. Qed.

Lemma align_up_spec v k : 0 ≤ k ≤ 12 → 0 ≤ v < 2 ^ 63 →
  align_up v (2 ^ k) = (v + 2 ^ k - 1) - (v + 2 ^ k - 1) mod 2 ^ k.
Proof.
  intros Hk Hv. assert (1 ≤ 2 ^ k ≤ 4096).
  { split; [change 1 with (2 ^ 0)|change 4096 with (2 ^ 12)]; apply Z.pow_le_mono_r; lia. }
  unfold align_up. rewrite (u64_add_small v), !u64_sub_small by lia.
  replace (2 ^ k - 1) with (Z.ones k) by (rewrite Z.ones_equiv; lia).
  apply land_not_ones; unfold is_u64; lia.
Qed.

(** ** Blocks *)

Record Block := mkBlock { b_addr : Z; b_size : Z; b_alloc : bool }.

#[global] Instance Block_eq_dec : EqDecision Block.
Proof. solve_decision. Defined.

Definition header_word (b : Block) : Z := b_size b + (if b_alloc b then 1 else 0).

(** The blocks cover [a, e) without gaps. *)
Fixpoint tiles (a : Z) (bs : list Block) (e : Z) : Prop :=
  match bs with
  | [] => a = e
  | b :: bs => b_addr b = a ∧ MIN_BLOCK_SIZE ≤ b_size b ∧ b_size b mod 8 = 0 ∧
               tiles (a + b_size b) bs e
  end.

Definition headers (m : memory) (bs : list Block) : Prop :=
  Forall (λ b, load64 m (b_addr b) = header_word b) bs.

(** No two free blocks are neighbours. *)
Fixpoint coalesced (bs : list Block) : Prop :=
  match bs with
  | b :: bs => match bs with
               | b' :: _ => b_alloc b = true ∨ b_alloc b' = true
               | [] => True
               end ∧ coalesced bs
  | [] => True
  end.

(** A doubly linked segment of free nodes: the headers [l], entered at [c] from [p], left
    at [c'] from [p']. *)
Fixpoint dls (m : memory) (p c : Z) (l : list Z) (p' c' : Z) : Prop :=
  match l with
  | [] => p' = p ∧ c' = c
  | a :: l => c = data_ptr a ∧ node_prev c m = p ∧ dls m (data_ptr a) (node_next c m) l p' c'
  end.

Definition dlist (m : memory) (first : Z) (l : list Z) : Prop :=
  ∃ last, dls m 0 first l last 0.

Lemma dls_app m l1 l2 : ∀ p c p' c',
  dls m p c (l1 ++ l2) p' c' ↔ ∃ q d, dls m p c l1 q d ∧ dls m q d l2 p' c'.
Proof.
  induction l1 as [|a l1 IH]; intros p c p' c'; simpl.
  - split; [eauto 6|]. by intros (? & ? & [-> ->] & ?).
  - rewrite IH. naive_solver.
Qed.

(** The fields of the nodes of a segment. *)
Definition same_nodes (m m' : memory) (l : list Z) : Prop :=
  ∀ a, a ∈ l → node_next (data_ptr a) m' = node_next (data_ptr a) m ∧
               node_prev (data_ptr a) m' = node_prev (data_ptr a) m.

Lemma dls_same m m' l : ∀ p c p' c',
  same_nodes m m' l → dls m p c l p' c' → dls m' p c l p' c'.
Proof.
  induction l as [|a l IH]; intros p c p' c' Hs; simpl; [done|]. intros (-> & Hp & H).
  destruct (Hs a) as [Hn Hp']; [by constructor|]. rewrite Hn, Hp'. split; [done|]. split; [done|].
  apply IH; [|done]. intros x Hx. apply Hs. by constructor.
Qed.

Lemma dls_last m p c l a p' c' :
  dls m p c (l ++ [a]) p' c' ↔
  p' = data_ptr a ∧ c' = node_next (data_ptr a) m ∧
  ∃ q, dls m p c l q (data_ptr a) ∧ node_prev (data_ptr a) m = q.
Proof. rewrite dls_app. simpl. naive_solver. Qed.

(** Nodes apart from each other do not share memory. *)
Definition apart (a b : Z) : Prop := a + MIN_BLOCK_SIZE ≤ b ∨ b + MIN_BLOCK_SIZE ≤ a.

Definition separate (l : list Z) : Prop :=
  NoDup l ∧ ∀ a b, a ∈ l → b ∈ l → a ≠ b → apart a b.

Lemma separate_sublist l l' : NoDup l' → l' ⊆ l → separate l → separate l'.
Proof. intros Hnd Hsub [_ H]. split; [done|]. auto. Qed.

Ltac fields := unfold node_next, node_prev, set_next, set_prev, data_ptr, header_size, apart,
  MIN_BLOCK_SIZE, header_size in *.

(** Bytes that are in no node of [l]. *)
Definition outside (l : list Z) (x : Z) : Prop :=
  ∀ a, a ∈ l → x < data_ptr a ∨ data_ptr a + 16 ≤ x.

Lemma same_set_next m l b v : (∀ a, a ∈ l → apart a b) → same_nodes m (set_next (data_ptr b) v m) l.
Proof. intros H a Ha. specialize (H a Ha). fields. split; apply load64_store64_ne; lia. Qed.

Lemma same_set_prev m l b v : (∀ a, a ∈ l → apart a b) → same_nodes m (set_prev (data_ptr b) v m) l.
Proof. intros H a Ha. specialize (H a Ha). fields. split; apply load64_store64_ne; lia. Qed.

Lemma separate_app_l l1 l2 : separate (l1 ++ l2) → separate l1.
Proof. intros [[? _]%NoDup_app ?]. split; [done|set_solver]. Qed.

Lemma separate_app_r l1 l2 : separate (l1 ++ l2) → separate l2.
Proof. intros [(_ & _ & ?)%NoDup_app ?]. split; [done|set_solver]. Qed.

Lemma separate_mid l1 a l2 x : separate (l1 ++ a :: l2) → x ∈ l1 ++ l2 → apart x a.
Proof.
  intros [Hnd H] Hx. apply H; [set_solver..|]. intros ->.
  rewrite <-Permutation_middle, NoDup_cons in Hnd. by destruct Hnd.
Qed.

Lemma separate_delete l1 a l2 : separate (l1 ++ a :: l2) → separate (l1 ++ l2).
Proof.
  intros [Hnd H]. split; [|set_solver]. rewrite <-Permutation_middle, NoDup_cons in Hnd. naive_solver.
Qed.

Lemma dls_set_next m p c l b p' c' v : separate (l ++ [b]) → is_u64 v →
  dls m p c (l ++ [b]) p' c' → dls (set_next (data_ptr b) v m) p c (l ++ [b]) p' v.
Proof.
  intros Hs Hv. rewrite !dls_last. intros (-> & _ & q & Hl & Hp). split; [done|].
  split; [fields; by rewrite load64_store64|]. exists q. split.
  - eapply dls_same; [|done]. apply same_set_next. intros a Ha.
    eapply separate_mid; [done|]. by rewrite app_nil_r.
  - rewrite <-Hp. fields. apply load64_store64_ne. lia.
Qed.

Lemma dls_set_prev m p c a l p' c' v : separate (a :: l) → is_u64 v →
  dls m p c (a :: l) p' c' → dls (set_prev (data_ptr a) v m) v c (a :: l) p' c'.
Proof.
  intros Hs Hv. simpl. intros (-> & _ & Hl). split; [done|].
  split; [fields; by rewrite load64_store64|].
  assert (node_next (data_ptr a) (set_prev (data_ptr a) v m) = node_next (data_ptr a) m) as ->.
  { fields. apply load64_store64_ne. lia. }
  eapply dls_same; [|done]. apply same_set_prev. intros x Hx. by apply (separate_mid [] a l).
Qed.

Lemma outside_set_next m l b v x : b ∈ l → outside l x → load8 (set_next (data_ptr b) v m) x = load8 m x.
Proof. intros Hb Hx. specialize (Hx b Hb). fields. apply load8_store64_ne. lia. Qed.

Lemma outside_set_prev m l b v x : b ∈ l → outside l x → load8 (set_prev (data_ptr b) v m) x = load8 m x.
Proof. intros Hb Hx. specialize (Hx b Hb). fields. apply load8_store64_ne. lia. Qed.

Definition addr_ok (a : Z) : Prop := 0 < a < 2 ^ 63.

(** Everything but the memory and the list head. *)
Definition same_fields (h h' : FreeListAllocator) : Prop :=
  heap_start h' = heap_start h ∧ heap_end h' = heap_end h ∧ total_allocated h' = total_allocated h ∧
  allocation_count h' = allocation_count h ∧ deallocation_count h' = deallocation_count h.

#[global] Instance same_fields_equiv : Equivalence same_fields.
Proof. unfold same_fields. split; repeat intro; naive_solver congruence. Qed.

(** [h'] has the free list [l'] and differs from [h] only inside the nodes of [l]. *)
Definition relinked (l : list Z) (h h' : FreeListAllocator) (l' : list Z) : Prop :=
  dlist (mem h') (free_list h') l' ∧
  (∀ x, outside l x → load8 (mem h') x = load8 (mem h) x) ∧ same_fields h h'.

Lemma data_ptr_u64 a : addr_ok a → is_u64 (data_ptr a) ∧ data_ptr a ≠ 0.
Proof. unfold addr_ok, is_u64. fields. lia. Qed.

Lemma remove_spec h l1 a l2 :
  dlist (mem h) (free_list h) (l1 ++ a :: l2) → separate (l1 ++ a :: l2) →
  Forall addr_ok (l1 ++ a :: l2) →
  relinked (l1 ++ l2) h (remove_from_free_list (data_ptr a) h) (l1 ++ l2).
Proof.
  intros [last Hd] Hsep Hok. apply dls_app in Hd as (q & d & H1 & Hd).
  simpl in Hd. destruct Hd as (-> & Hp & H2).
  pose proof (separate_delete _ _ _ Hsep) as Hsep'.
  apply Forall_app in Hok as [Hok1 [Hoka Hok2]%Forall_cons].
  unfold remove_from_free_list. rewrite Hp. set (n := node_next (data_ptr a) (mem h)) in *.
  assert (Hn : is_u64 n ∧ (n = 0 ↔ l2 = [])).
  { destruct l2 as [|c l2]; simpl in H2; [destruct H2 as [_ <-]; by unfold is_u64|].
    destruct H2 as [-> _]. apply Forall_cons in Hok2 as [Hc _].
    destruct (data_ptr_u64 c Hc). naive_solver. }
  (* the successor's back link *)
  set (h1 := if q =? 0 then set_free_list n h else set_mem (set_next q n) h).
  assert (Hh1 : dls (mem h1) 0 (free_list h1) l1 q n ∧ dls (mem h1) (data_ptr a) n l2 last 0 ∧
    (∀ x, outside (l1 ++ l2) x → load8 (mem h1) x = load8 (mem h) x) ∧ same_fields h h1 ∧ is_u64 q).
  { subst h1. destruct l1 as [|b l1 _] using rev_ind.
    - simpl in H1. destruct H1 as [-> Hf]. simpl. by split_and!.
    - pose proof H1 as H1'. apply dls_last in H1' as (-> & _).
      apply Forall_app in Hok1 as [_ [Hb _]%Forall_cons].
      destruct (data_ptr_u64 b Hb) as [? Hb0]. rewrite (proj2 (Z.eqb_neq _ _) Hb0).
      split; [|split; [|split; [|done]]]; simpl.
      + eapply dls_set_next; [by eapply separate_app_l|apply Hn|done].
      + eapply dls_same; [|done]. apply same_set_next. intros x Hx. apply (proj2 Hsep'); [set_solver..|].
        intros ->. destruct Hsep' as [(_ & Hdis & _)%NoDup_app _]. apply (Hdis b); set_solver.
      + intros x Hx. eapply outside_set_next; [|done]. set_solver. }
  clearbody h1. destruct Hh1 as (H1' & H2' & Hout & Hsame & Hq).
  destruct (Z.eqb_spec n 0) as [Hn0|Hn0].
  - destruct Hn as [_ [Hnil _]]. specialize (Hnil Hn0). subst l2. rewrite app_nil_r in *.
    split; [|done]. exists q. by rewrite Hn0 in H1'.
  - destruct l2 as [|c l2]; [naive_solver|]. pose proof H2' as Hc. simpl in Hc. destruct Hc as [Hc _].
    split; [|split].
    + exists last. apply dls_app. exists q, n. simpl. split.
      * eapply dls_same; [|done]. rewrite Hc. apply same_set_prev. intros x Hx.
        apply (proj2 Hsep'); [set_solver..|]. intros ->.
        destruct Hsep' as [(_ & Hdis & _)%NoDup_app _]. apply (Hdis c); set_solver.
      * rewrite Hc in *. eapply dls_set_prev; [by eapply separate_app_r|done|done].
    + intros x Hx. rewrite <-Hout by done. rewrite Hc. simpl. eapply outside_set_prev; [|done]. set_solver.
    + etrans; [exact Hsame|done].
Qed.

Lemma add_spec h l a :
  dlist (mem h) (free_list h) l → separate (a :: l) → Forall addr_ok (a :: l) →
  relinked (a :: l) h (add_to_free_list a h) (a :: l).
Proof.
  intros [last Hd] Hsep [Ha Hok]%Forall_cons. destruct (data_ptr_u64 a Ha) as [Hau Ha0].
  assert (Happ : ∀ x, x ∈ l → apart x a) by (intros x Hx; by apply (separate_mid [] a l)).
  assert (Hf : is_u64 (free_list h) ∧ (free_list h = 0 ↔ l = [])).
  { destruct l as [|c l]; simpl in Hd; [destruct Hd as [_ <-]; by unfold is_u64|].
    destruct Hd as [-> _]. apply Forall_cons in Hok as [Hc _].
    destruct (data_ptr_u64 c Hc). naive_solver. }
  unfold add_to_free_list. set (f := free_list h) in *.
  set (h1 := set_mem (set_prev (data_ptr a) 0) (set_mem (set_next (data_ptr a) f) h)).
  assert (Hm1 : dls (mem h1) 0 f l last 0 ∧ node_next (data_ptr a) (mem h1) = f ∧
    node_prev (data_ptr a) (mem h1) = 0 ∧ (∀ x, outside (a :: l) x → load8 (mem h1) x = load8 (mem h) x) ∧
    free_list h1 = f ∧ same_fields h h1).
  { split; [|split; [|split; [|split; [|done]]]]; simpl.
    - apply (dls_same (set_next (data_ptr a) f (mem h))); [by apply same_set_prev|].
      apply (dls_same (mem h)); [by apply same_set_next|done].
    - fields. rewrite load64_store64_ne by lia. apply load64_store64, Hf.
    - fields. by apply load64_store64.
    - intros x Hx. rewrite (outside_set_prev _ (a :: l)), (outside_set_next _ (a :: l)); set_solver. }
  clearbody h1. destruct Hm1 as (Hl & Hnx & Hpv & Hout & Hfl & Hsame). rewrite Hfl.
  destruct (Z.eqb_spec f 0) as [Hf0|Hf0].
  - assert (l = []) as -> by naive_solver. split; [|by split]. simpl.
    exists (data_ptr a). simpl. split; [done|]. split; [done|]. split; [done|]. congruence.
  - destruct l as [|c l]; [naive_solver|]. pose proof Hl as Hc. simpl in Hc. destruct Hc as [Hc _].
    split; [|split; [|by etrans]]; cbn [mem free_list set_mem set_free_list].
    + exists last. change (dls ?m ?p ?c (a :: ?l) ?q ?d) with
        (c = data_ptr a ∧ node_prev c m = p ∧ dls m (data_ptr a) (node_next c m) l q d).
      assert (apart a c) as Hac by (apply or_comm, Happ; constructor).
      assert (node_next (data_ptr a) (set_prev f (data_ptr a) (mem h1)) = f ∧
              node_prev (data_ptr a) (set_prev f (data_ptr a) (mem h1)) = 0) as [Hn' Hp'].
      { rewrite <-Hnx at 2. rewrite <-Hpv. rewrite Hc. fields. split; apply load64_store64_ne; lia. }
      split; [done|]. split; [done|]. rewrite Hn', Hc. rewrite Hc in Hl.
      eapply dls_set_prev; [by eapply (separate_app_r [a])|done|done].
    + intros x Hx. rewrite Hc, (outside_set_prev _ (a :: c :: l)); [by apply Hout|set_solver|done].
Qed.

(** ** The heap as a sequence of blocks and a free list *)

Lemma tiles_app a l1 l2 e : tiles a (l1 ++ l2) e ↔ ∃ c, tiles a l1 c ∧ tiles c l2 e.
Proof.
  revert a. induction l1 as [|b l1 IH]; intros a; simpl; [naive_solver|].
  rewrite IH. naive_solver.
Qed.

Lemma tiles_in a bs e b : tiles a bs e → b ∈ bs →
  a ≤ b_addr b ∧ b_addr b + b_size b ≤ e ∧ MIN_BLOCK_SIZE ≤ b_size b ∧ b_size b mod 8 = 0.
Proof.
  revert a. induction bs as [|b' bs IH]; intros a; [set_solver|].
  intros (<- & Hm & H8 & Ht) [->|Hin]%elem_of_cons.
  - split; [done|]. split; [|done]. clear IH H8. revert Ht. generalize (b_addr b' + b_size b').
    induction bs as [|c bs IH]; intros x; simpl; [lia|]. intros (<- & ? & _ & ?%IH).
    fields. lia.
  - destruct (IH _ Ht Hin) as (? & ? & ? & ?). fields. split_and!; try done; lia.
Qed.

Lemma tiles_apart a bs e b b' : tiles a bs e → b ∈ bs → b' ∈ bs →
  b = b' ∨ b_addr b + b_size b ≤ b_addr b' ∨ b_addr b' + b_size b' ≤ b_addr b.
Proof.
  revert a. induction bs as [|c bs IH]; intros a; [set_solver|].
  intros (<- & Hm & H8 & Ht) [->|Hb]%elem_of_cons [->|Hb']%elem_of_cons; [by left|..|by eapply IH].
  - destruct (tiles_in _ _ _ _ Ht Hb'). lia.
  - destruct (tiles_in _ _ _ _ Ht Hb). lia.
Qed.

Lemma same_block a bs e b b' : tiles a bs e → b ∈ bs → b' ∈ bs → b_addr b = b_addr b' → b = b'.
Proof.
  intros Ht Hb Hb' Heq. destruct (tiles_apart _ _ _ _ _ Ht Hb Hb') as [?|Hap]; [done|].
  destruct (tiles_in _ _ _ _ Ht Hb) as (_ & _ & ? & _).
  destruct (tiles_in _ _ _ _ Ht Hb') as (_ & _ & ? & _). fields. lia.
Qed.

Lemma tiles_mod8 a bs e b : tiles a bs e → a mod 8 = 0 → b ∈ bs → b_addr b mod 8 = 0.
Proof.
  revert a. induction bs as [|c bs IH]; intros a; [set_solver|].
  intros (<- & Hm & H8 & Ht) Ha [->|Hb]%elem_of_cons; [done|].
  eapply IH; [exact Ht| |done]. rewrite Z.add_mod, Ha, H8 by lia. done.
Qed.

Lemma tiles_length a bs e : tiles a bs e → MIN_BLOCK_SIZE * Z.of_nat (length bs) ≤ e - a.
Proof.
  revert a. induction bs as [|b bs IH]; intros a; simpl length; cbn [tiles]; [lia|].
  intros (<- & ? & _ & ?%IH). lia.
Qed.

Lemma tiles_header_u64 a bs e b : tiles a bs e → 0 < a → e < 2 ^ 63 → b ∈ bs →
  is_u64 (header_word b) ∧ addr_ok (b_addr b) ∧ b_size b mod 2 = 0.
Proof.
  intros Ht Ha He Hb. destruct (tiles_in _ _ _ _ Ht Hb) as (? & ? & ? & H8).
  unfold header_word, addr_ok, is_u64. fields. split_and!; try (destruct (b_alloc b); lia); try lia.
  rewrite <-(Z.mod_mod_divide (b_size b) 8 2), H8 by (by exists 4). done.
Qed.

(** A node list that shares no memory with the block headers. *)
Definition nodes_ok (bs : list Block) (l : list Z) : Prop :=
  separate l ∧ Forall addr_ok l ∧
  ∀ b x, b ∈ bs → x ∈ l → b_addr b ≤ x ∨ x + MIN_BLOCK_SIZE ≤ b_addr b.

Record core (h : FreeListAllocator) (bs : list Block) (l : list Z) : Prop := mkCore {
  core_start : 0 < heap_start h ∧ heap_start h mod 8 = 0 ∧ heap_end h < 2 ^ 63;
  core_tiles : tiles (heap_start h) bs (heap_end h);
  core_headers : headers (mem h) bs;
  core_list : dlist (mem h) (free_list h) l;
  core_nodes : nodes_ok bs l
}.

Lemma core_header h bs l b : core h bs l → b ∈ bs →
  block_size (b_addr b) (mem h) = b_size b ∧ is_allocated (b_addr b) (mem h) = b_alloc b.
Proof.
  intros Hc Hb. destruct (core_start _ _ _ Hc) as (Hs & _ & He).
  destruct (tiles_header_u64 _ _ _ b (core_tiles _ _ _ Hc) Hs He Hb) as (Hu & _ & H2).
  pose proof (proj1 (Forall_forall _ _) (core_headers _ _ _ Hc) b Hb) as Hh. simpl in Hh.
  unfold block_size, is_allocated. rewrite Hh, header_sz_spec, header_allocated_spec by done.
  unfold header_word in *. destruct (b_alloc b); [|rewrite Z.add_0_r, H2; split; [lia|done]].
  rewrite Z.add_mod, H2 by lia. change ((0 + 1 mod 2) mod 2) with 1. split; [lia|done].
Qed.

Lemma nodes_ok_sub bs l l' : NoDup l' → l' ⊆ l → nodes_ok bs l → nodes_ok bs l'.
Proof.
  intros Hnd Hsub (Hs & Ha & Hn). split; [by eapply separate_sublist|]. split; [|set_solver].
  apply Forall_forall. intros x Hx. rewrite Forall_forall in Ha. set_solver.
Qed.

Lemma headers_outside m m' bs l : nodes_ok bs l →
  (∀ x, outside l x → load8 m' x = load8 m x) → headers m bs → headers m' bs.
Proof.
  intros (_ & _ & Hn) Hout Hh. apply Forall_forall. intros b Hb.
  rewrite <-(proj1 (Forall_forall _ _) Hh b Hb). apply load64_ext. intros x Hx.
  apply Hout. intros a Ha. destruct (Hn b a Hb Ha); fields; lia.
Qed.

Lemma core_remove h bs l1 a l2 : core h bs (l1 ++ a :: l2) →
  let h' := remove_from_free_list (data_ptr a) h in
  core h' bs (l1 ++ l2) ∧ same_fields h h' ∧
  ∀ x, outside (l1 ++ l2) x → load8 (mem h') x = load8 (mem h) x.
Proof.
  intros Hc h'. destruct (core_nodes _ _ _ Hc) as (Hsep & Hok & Hn).
  destruct (remove_spec h l1 a l2 (core_list _ _ _ Hc) Hsep Hok) as (Hd & Hout & Hsame).
  assert (Hn' : nodes_ok bs (l1 ++ l2)).
  { eapply nodes_ok_sub; [apply (separate_delete _ _ _ Hsep)| |apply (core_nodes _ _ _ Hc)]. set_solver. }
  subst h'. split; [|done]. destruct (id Hsame) as (Hs & He & _).
  split; rewrite ?Hs, ?He; [apply Hc|apply Hc| |done|done].
  eapply headers_outside; [exact Hn'|exact Hout|apply Hc].
Qed.

Lemma core_add h bs l a : core h bs l → nodes_ok bs (a :: l) →
  let h' := add_to_free_list a h in
  core h' bs (a :: l) ∧ same_fields h h' ∧
  ∀ x, outside (a :: l) x → load8 (mem h') x = load8 (mem h) x.
Proof.
  intros Hc Hn h'. destruct (id Hn) as (Hsep & Hok & _).
  destruct (add_spec h l a (core_list _ _ _ Hc) Hsep Hok) as (Hd & Hout & Hsame).
  subst h'. split; [|done]. destruct (id Hsame) as (Hs & He & _).
  split; rewrite ?Hs, ?He; [apply Hc|apply Hc| |done|done].
  eapply headers_outside; [exact Hn|exact Hout|apply Hc].
Qed.

(** Writing one header, which may change how the heap is cut into blocks. *)
Lemma core_store h bs bs' l b0 : core h bs l → b0 ∈ bs' →
  tiles (heap_start h) bs' (heap_end h) → nodes_ok bs' l →
  (∀ b, b ∈ bs' → b = b0 ∨ load64 (mem h) (b_addr b) = header_word b) →
  core (set_mem (store64 (b_addr b0) (header_word b0)) h) bs' l.
Proof.
  intros Hc Hb0 Ht Hn' Hsub. destruct (core_start _ _ _ Hc) as (Hs & H8 & He).
  destruct (id Hn') as (Hsep & Hok & Hn).
  split; try done; simpl.
  - apply Forall_forall. intros b Hb.
    destruct (tiles_apart _ _ _ b b0 Ht Hb Hb0) as [->|Hap].
    + apply load64_store64. by eapply tiles_header_u64.
    + destruct (tiles_in _ _ _ _ Ht Hb) as (_ & _ & ? & _).
      destruct (tiles_in _ _ _ _ Ht Hb0) as (_ & _ & ? & _).
      destruct (Hsub b Hb) as [->|Hb']; [fields; lia|].
      by rewrite load64_store64_ne by (fields; lia).
  - destruct (core_list _ _ _ Hc) as [last Hd]. exists last. eapply dls_same; [|exact Hd].
    intros a Ha. destruct (Hn b0 a Hb0 Ha); fields; split; apply load64_store64_ne; lia.
Qed.

(** Writing a word inside a block, clear of the nodes. *)
Lemma core_inner h bs l b c v : core h bs l → b ∈ bs → is_u64 v →
  b_addr b + MIN_BLOCK_SIZE ≤ c → c + 8 ≤ b_addr b + b_size b →
  (∀ x, x ∈ l → c ≤ x ∨ x + MIN_BLOCK_SIZE ≤ c) →
  core (set_mem (store64 c v) h) bs l ∧ load64 (mem (set_mem (store64 c v) h)) c = v.
Proof.
  intros Hc Hb Hv Hlo Hhi Hl. split; [|by apply load64_store64].
  split; try apply Hc; simpl.
  - apply Forall_forall. intros b' Hb'. rewrite load64_store64_ne.
    + by apply (proj1 (Forall_forall _ _) (core_headers _ _ _ Hc) b').
    + destruct (tiles_apart _ _ _ b b' (core_tiles _ _ _ Hc) Hb Hb') as [<-|?]; [fields; lia|].
      destruct (tiles_in _ _ _ _ (core_tiles _ _ _ Hc) Hb') as (_ & _ & ? & _). fields. lia.
  - destruct (core_list _ _ _ Hc) as [last Hd]. exists last. eapply dls_same; [|exact Hd].
    intros a Ha. destruct (Hl a Ha); fields; split; apply load64_store64_ne; lia.
Qed.

(** Every node is a free block. *)
Definition linked (bs : list Block) (l : list Z) : Prop :=
  NoDup l ∧ ∀ x, x ∈ l → ∃ s, mkBlock x s false ∈ bs.

Lemma linked_nodes_ok a bs e l : tiles a bs e → 0 < a → e < 2 ^ 63 → linked bs l → nodes_ok bs l.
Proof.
  intros Ht Ha He [Hnd Hl]. split; [split; [done|]|split].
  - intros x y [s Hx]%Hl [s' Hy]%Hl Hne. destruct (tiles_apart _ _ _ _ _ Ht Hx Hy) as [[= ?]|Hap]; [done|].
    destruct (tiles_in _ _ _ _ Ht Hx) as (_ & _ & ? & _).
    destruct (tiles_in _ _ _ _ Ht Hy) as (_ & _ & ? & _). simpl in *. fields. lia.
  - apply Forall_forall. intros x [s Hx]%Hl.
    by destruct (tiles_header_u64 _ _ _ _ Ht Ha He Hx) as (_ & ? & _).
  - intros b x Hb [s Hx]%Hl. destruct (tiles_apart _ _ _ _ _ Ht Hb Hx) as [->|Hap]; [by left|].
    destruct (tiles_in _ _ _ _ Ht Hb) as (_ & _ & ? & _).
    destruct (tiles_in _ _ _ _ Ht Hx) as (_ & _ & ? & _). simpl in *. fields. lia.
Qed.

Lemma core_u64 h bs l b : core h bs l → b ∈ bs → 0 ≤ b_size b < 2 ^ 63 ∧ b_size b mod 2 = 0.
Proof.
  intros Hc Hb. destruct (core_start _ _ _ Hc) as (Hs & _ & He).
  destruct (tiles_in _ _ _ _ (core_tiles _ _ _ Hc) Hb) as (? & ? & ? & _).
  destruct (tiles_header_u64 _ _ _ _ (core_tiles _ _ _ Hc) Hs He Hb) as (_ & _ & ?). fields. lia.
Qed.

(** The two header updates on a block of the heap. *)
Lemma core_set_size h bs l b sz : core h bs l → b ∈ bs → b_alloc b = false →
  set_mem (set_size (b_addr b) sz) h = set_mem (store64 (b_addr b) (header_word (mkBlock (b_addr b) sz false))) h.
Proof.
  intros Hc Hb Ha. unfold set_mem, set_size. destruct (core_header _ _ _ _ Hc Hb) as [_ ->].
  unfold header_word. simpl. by rewrite Ha, Z.add_0_r.
Qed.

Lemma core_set_allocated h bs l b al : core h bs l → b ∈ bs →
  set_mem (set_allocated (b_addr b) al) h
  = set_mem (store64 (b_addr b) (header_word (mkBlock (b_addr b) (b_size b) al))) h.
Proof.
  intros Hc Hb. unfold set_mem, set_allocated.
  destruct (core_start _ _ _ Hc) as (Hs & _ & He).
  destruct (tiles_header_u64 _ _ _ _ (core_tiles _ _ _ Hc) Hs He Hb) as (Hu & _ & H2).
  pose proof (proj1 (Forall_forall _ _) (core_headers _ _ _ Hc) b Hb) as Hh. simpl in Hh.
  rewrite Hh. f_equal. f_equal. unfold header_word. simpl. destruct al.
  - destruct (b_alloc b); [|by rewrite Z.add_0_r, lor_flag].
    by rewrite <-(lor_flag (b_size b) H2), <-Z.lor_assoc.
  - change (Z.land ?x (u64_not ALLOCATED_FLAG)) with (header_sz x).
    rewrite header_sz_spec by exact Hu. unfold header_word in *. destruct (b_alloc b).
    + rewrite Z.add_mod, H2 by lia. change ((0 + 1 mod 2) mod 2) with 1. lia.
    + rewrite Z.add_0_r, H2. lia.
Qed.

Lemma find_prev_spec h pre : ∀ fuel a prev b post,
  tiles a (pre ++ b :: post) (heap_end h) →
  (∀ c, c ∈ pre → block_size (b_addr c) (mem h) = b_size c) → (length pre < fuel)%nat →
  find_prev fuel (b_addr b) prev a h = Some (default prev (b_addr <$> list.last pre)).
Proof.
  induction pre as [|c pre IH]; intros [|fuel] a prev b post Ht Hsz Hf; try (simpl in Hf; lia).
  - simpl in Ht. destruct Ht as [<- _]. simpl. by rewrite Z.eqb_refl, andb_false_r.
  - pose proof Ht as Ht'. simpl in Ht. destruct Ht as (<- & Hm & _ & Ht).
    destruct (tiles_in _ _ _ b Ht) as (Hle & Hend & Hbm & _); [set_solver|]. simpl.
    fields. rewrite (proj2 (Z.ltb_lt _ _)) by lia. rewrite (proj2 (Z.eqb_neq _ _)) by lia. simpl.
    unfold next_block. rewrite Hsz by constructor.
    rewrite (IH fuel _ (b_addr c) b post Ht); [|intros; apply Hsz; by constructor|simpl in Hf; lia].
    rewrite last_cons. by destruct (list.last pre).
Qed.

(** ** Taking a block *)

(** What becomes of a free block of [s] bytes at [a] of which [n] are taken. *)
Definition cut (a s n : Z) : list Block :=
  if MIN_BLOCK_SIZE <=? s - n then [mkBlock a n true; mkBlock (a + n) (s - n) false]
  else [mkBlock a s true].
Definition rest_node (a s n : Z) : list Z := if MIN_BLOCK_SIZE <=? s - n then [a + n] else [].

Lemma tiles_replace a pre mid mid' post e :
  (∀ c d, tiles c mid d → tiles c mid' d) → tiles a (pre ++ mid ++ post) e → tiles a (pre ++ mid' ++ post) e.
Proof. intros H. rewrite !tiles_app. setoid_rewrite tiles_app. naive_solver. Qed.

Lemma tiles_split c d a s n al al' : MIN_BLOCK_SIZE ≤ n → MIN_BLOCK_SIZE ≤ s - n → n mod 8 = 0 →
  tiles c [mkBlock a s al] d → tiles c [mkBlock a n al'; mkBlock (a + n) (s - n) false] d.
Proof.
  intros Hn Hr H8. simpl. intros (<- & _ & Hs & <-). split_and!; try done; [|lia].
  rewrite Zminus_mod, Hs, H8. done.
Qed.

Lemma linked_other h bs l a s al pre post : core h bs l → bs = pre ++ mkBlock a s al :: post →
  linked bs l → a ∉ l → ∀ x, x ∈ l →
  ∃ s', mkBlock x s' false ∈ pre ++ post ∧ MIN_BLOCK_SIZE ≤ s' ∧ (x + s' ≤ a ∨ a + s ≤ x).
Proof.
  intros Hc -> [_ Hl] Ha x Hx. destruct (Hl x Hx) as [s' Hb].
  destruct (tiles_in _ _ _ _ (core_tiles _ _ _ Hc) Hb) as (_ & _ & Hm & _). simpl in Hm.
  destruct (tiles_apart _ _ _ _ (mkBlock a s al) (core_tiles _ _ _ Hc) Hb) as [[= -> _ _]|Hap];
    [set_solver|done|]. exists s'. split; [|by split].
  apply elem_of_app in Hb as [Hb|[[= -> _ _]|Hb]%elem_of_cons]; [set_solver|done|set_solver].
Qed.

(** Changing the flag of a block that is in no list. *)
Lemma flag_spec h pre a s al al' post l :
  let bs := pre ++ mkBlock a s al :: post in
  let bs' := pre ++ mkBlock a s al' :: post in
  core h bs l → linked bs l → a ∉ l →
  let h' := set_mem (set_allocated a al') h in
  core h' bs' l ∧ linked bs' l ∧ (∀ x, x < a ∨ a + 8 ≤ x → load8 (mem h') x = load8 (mem h) x).
Proof.
  intros bs bs' Hc Hlk Ha h'. assert (Hb : mkBlock a s al ∈ bs) by set_solver.
  destruct (core_start _ _ _ Hc) as (Hst & _ & Hend).
  pose proof (core_set_allocated h bs l (mkBlock a s al) al' Hc Hb) as E.
  cbn [b_addr b_size] in E. subst h'. rewrite E.
  assert (Ht : tiles (heap_start h) bs' (heap_end h)).
  { apply (tiles_replace _ pre [mkBlock a s al] [mkBlock a s al'] post); [|apply Hc]. by intros c d. }
  assert (Hlk' : linked bs' l).
  { split; [apply Hlk|]. intros x Hx.
    destruct (linked_other _ _ _ _ _ _ pre post Hc eq_refl Hlk Ha x Hx) as (s' & Hin & _).
    exists s'. set_solver. }
  split; [|split; [done|]].
  - apply (core_store h bs bs' l (mkBlock a s al') Hc); [set_solver|done|by eapply linked_nodes_ok|].
    intros b Hin. destruct (decide (b = mkBlock a s al')); [by left|right].
    apply (proj1 (Forall_forall _ _) (core_headers _ _ _ Hc)). set_solver.
  - intros x Hx. apply load8_store64_ne. lia.
Qed.

(** The remainder of a split block becomes a free block of its own. *)
Lemma split_spec h pre a s n post l :
  let bs := pre ++ mkBlock a s false :: post in
  let bs' := pre ++ mkBlock a n false :: mkBlock (a + n) (s - n) false :: post in
  core h bs l → linked bs l → a ∉ l →
  MIN_BLOCK_SIZE ≤ n → MIN_BLOCK_SIZE ≤ s - n → n mod 8 = 0 →
  let h' := set_mem (set_size a n) (add_to_free_list (a + n)
              (set_mem (store64 (a + n) (header_new (s - n) false)) h)) in
  core h' bs' (a + n :: l) ∧ linked bs' (a + n :: l) ∧ same_fields h h' ∧
  (∀ x, outside l x → x < a ∨ a + s ≤ x → load8 (mem h') x = load8 (mem h) x).
Proof.
  intros bs bs' Hc Hlk Ha Hn Hr H8 h'.
  pose proof (linked_other _ _ _ _ _ _ pre post Hc eq_refl Hlk Ha) as Hother.
  assert (Hb : mkBlock a s false ∈ bs) by set_solver.
  destruct (core_start _ _ _ Hc) as (Hst & _ & Hend).
  destruct (core_u64 _ _ _ _ Hc Hb) as [Hs63 Hs2]. simpl in Hs63, Hs2.
  assert (Ht : tiles (heap_start h) bs' (heap_end h)).
  { apply (tiles_replace _ pre [mkBlock a s false] [_; _] post); [|apply Hc].
    intros c d. by apply tiles_split. }
  assert (Hlk' : linked bs' (a + n :: l)).
  { split.
    - apply NoDup_cons. split; [|apply Hlk]. intros (s' & _ & ? & ?)%Hother. fields. lia.
    - intros x [->|Hx]%elem_of_cons; [exists (s - n); set_solver|].
      destruct (Hother x Hx) as (s' & Hin & _). exists s'. set_solver. }
  assert (Hnew : header_new (s - n) false = s - n).
  { change (header_sz (s - n) = s - n). rewrite header_sz_spec by (unfold is_u64; fields; lia).
    rewrite Zminus_mod, Hs2, <-(Z.mod_mod_divide n 8 2), H8 by (by exists 4). apply Z.sub_0_r. }
  pose proof (linked_nodes_ok _ _ _ _ Ht Hst Hend Hlk') as Hok'.
  destruct (core_inner h bs l (mkBlock a s false) (a + n) (header_new (s - n) false)) as [Hc2 Hl2];
    [done|done|rewrite Hnew; unfold is_u64; fields; lia|simpl; fields; lia|simpl; fields; lia| |].
  { intros x (s' & _ & ? & ?)%Hother. fields. lia. }
  set (h2 := set_mem _ h) in *. rewrite Hnew in Hl2.
  assert (Hok2 : nodes_ok bs (a + n :: l)).
  { destruct Hok' as (Hs' & Ho' & Hn'). split; [done|]. split; [done|]. intros b x Hin Hx.
    destruct (decide (b = mkBlock a s false)) as [->|Hne].
    - apply (Hn' (mkBlock a n false) x); [set_solver|done].
    - apply Hn'; [set_solver|done]. }
  destruct (core_add h2 bs l (a + n) Hc2 Hok2) as (Hc3 & Hs3 & Hout3).
  set (h3 := add_to_free_list (a + n) h2) in *.
  pose proof (core_set_size h3 bs (a + n :: l) (mkBlock a s false) n Hc3 Hb eq_refl) as E.
  cbn [b_addr] in E. subst h'. rewrite E.
  destruct (id Hs3) as (Hst3 & Hend3 & _).
  split; [|split; [done|split; [by etrans|]]].
  - apply (core_store h3 bs bs' (a + n :: l) (mkBlock a n false) Hc3);
      [set_solver|by rewrite Hst3, Hend3|done|].
    intros b Hin. destruct (decide (b = mkBlock a n false)); [by left|right].
    destruct (decide (b = mkBlock (a + n) (s - n) false)) as [->|Hne].
    + unfold header_word. simpl. rewrite Z.add_0_r, <-Hl2. apply load64_ext.
      intros x Hx. apply Hout3. intros y [->|Hy]%elem_of_cons; [fields; lia|].
      destruct (Hother y Hy) as (s' & _ & ? & ?). fields. lia.
    + apply (proj1 (Forall_forall _ _) (core_headers _ _ _ Hc3)). set_solver.
  - intros x Hx Hxa. simpl. rewrite load8_store64_ne by (fields; lia). rewrite Hout3.
    + simpl. apply load8_store64_ne. fields. lia.
    + intros y [->|Hy]%elem_of_cons; [fields; lia|by apply Hx].
Qed.

Lemma take_spec h pre a s n post l1 l2 :
  let bs := pre ++ mkBlock a s false :: post in
  let l := l1 ++ l2 in
  core h bs (l1 ++ a :: l2) → linked bs (l1 ++ a :: l2) →
  MIN_BLOCK_SIZE ≤ n ≤ s → n mod 8 = 0 →
  let h' := take_block a n h in
  core h' (pre ++ cut a s n ++ post) (rest_node a s n ++ l) ∧
  linked (pre ++ cut a s n ++ post) (rest_node a s n ++ l) ∧
  (∀ x, outside l x → x < a ∨ a + s ≤ x → load8 (mem h') x = load8 (mem h) x) ∧
  heap_start h' = heap_start h ∧ heap_end h' = heap_end h ∧
  total_allocated h' = u64_add (total_allocated h) (if MIN_BLOCK_SIZE <=? s - n then n else s).
Proof.
  intros bs l Hc Hlk Hn H8 h'.
  assert (Hnd : NoDup l ∧ a ∉ l).
  { destruct Hlk as [Hnd _]. rewrite <-Permutation_middle, NoDup_cons in Hnd. naive_solver. }
  destruct (core_remove h bs l1 a l2 Hc) as (Hc1 & Hs1 & Hout1).
  set (h1 := remove_from_free_list (data_ptr a) h) in *. fold l in Hc1, Hout1.
  assert (Hlk1 : linked bs l) by (split; [apply Hnd|intros x Hx; apply Hlk; set_solver]).
  assert (Hb : mkBlock a s false ∈ bs) by set_solver.
  destruct (core_u64 _ _ _ _ Hc Hb) as [Hs63 _]. simpl in Hs63.
  destruct (core_header _ _ _ _ Hc Hb) as [Hsz _]. simpl in Hsz.
  subst h'. unfold take_block. rewrite Hsz. fold h1. rewrite u64_sub_small by (fields; lia).
  unfold cut, rest_node.
  assert (Hfin : ∀ h4 n' post' l', core h4 (pre ++ mkBlock a n' false :: post') l' →
    linked (pre ++ mkBlock a n' false :: post') l' → a ∉ l' → n' ≤ s → same_fields h1 h4 →
    (∀ x, outside l x → x < a ∨ a + s ≤ x → load8 (mem h4) x = load8 (mem h1) x) →
    let h5 := set_mem (set_allocated a true) h4 in
    let h6 := mkHeap (mem h5) (heap_start h5) (heap_end h5) (free_list h5)
      (u64_add (total_allocated h5) (block_size a (mem h5))) (u64_add (allocation_count h5) 1)
      (deallocation_count h5) in
    core h6 (pre ++ mkBlock a n' true :: post') l' ∧ linked (pre ++ mkBlock a n' true :: post') l' ∧
    (∀ x, outside l x → x < a ∨ a + s ≤ x → load8 (mem h6) x = load8 (mem h) x) ∧
    heap_start h6 = heap_start h ∧ heap_end h6 = heap_end h ∧
    total_allocated h6 = u64_add (total_allocated h) n').
  { intros h4 n' post' l' Hc4 Hlk4 Ha4 Hle Hs4 Hout4 h5 h6.
    destruct (flag_spec h4 pre a n' false true post' l' Hc4 Hlk4 Ha4) as (Hc5 & Hlk5 & Hout5).
    destruct Hs1 as (Hs11 & Hs12 & Hs13 & _). destruct Hs4 as (Hs41 & Hs42 & Hs43 & _).
    split; [destruct Hc5; by split|]. split; [done|]. split; [|split; [|split]].
    - intros x Hx Hxa. simpl. rewrite <-Hout1, <-Hout4 by done. apply Hout5. fields. lia.
    - simpl. congruence.
    - simpl. congruence.
    - destruct (core_header _ _ _ (mkBlock a n' true) Hc5) as [Hz _]; [set_solver|]. simpl in *.
      rewrite Hz. congruence. }
  destruct (Z.leb_spec MIN_BLOCK_SIZE (s - n)) as [Hr|Hr].
  - destruct (split_spec h1 pre a s n post l Hc1 Hlk1 (proj2 Hnd)) as (Hc4 & Hlk4 & Hs4 & Hout4);
      [lia|done|done|].
    apply Hfin; [done|done| |lia|done|done]. intros [Hx|Hx]%elem_of_cons; [fields; lia|by apply Hnd].
  - apply (Hfin h1 s post l); [done|done|apply Hnd|lia|reflexivity|done].
Qed.

(** ** Merging blocks *)

Definition free_addrs (bs : list Block) : list Z := b_addr <$> filter (λ b, b_alloc b = false) bs.
Definition used (bs : list Block) : list Block := filter (λ b, b_alloc b = true) bs.

(** Bytes that belong to no free block. *)
Definition untouched (bs : list Block) (x : Z) : Prop :=
  ∀ b, b ∈ bs → b_alloc b = false → x < b_addr b ∨ b_addr b + b_size b ≤ x.

Lemma elem_of_free_addrs bs x : x ∈ free_addrs bs ↔ ∃ s, mkBlock x s false ∈ bs.
Proof.
  unfold free_addrs. rewrite list_elem_of_fmap. setoid_rewrite list_elem_of_filter. split.
  - intros ([a s al] & -> & Hal & Hb). simpl in *. subst al. eauto.
  - intros [s Hb]. by exists (mkBlock x s false).
Qed.

Lemma free_addrs_app l1 l2 : free_addrs (l1 ++ l2) = free_addrs l1 ++ free_addrs l2.
Proof. unfold free_addrs. by rewrite filter_app, fmap_app. Qed.

Lemma tiles_NoDup a bs e : tiles a bs e → NoDup (b_addr <$> bs).
Proof.
  revert a. induction bs as [|b bs IH]; intros a; simpl; [constructor|].
  intros (<- & Hm & _ & Ht). apply NoDup_cons. split; [|by eapply IH].
  intros (c & Hc & Hin)%list_elem_of_fmap. destruct (tiles_in _ _ _ _ Ht Hin). fields. lia.
Qed.

Lemma free_linked a bs e l : tiles a bs e → l ≡ₚ free_addrs bs → linked bs l.
Proof.
  intros Ht Hl. split.
  - rewrite Hl. unfold free_addrs. eapply sublist_NoDup; [by eapply tiles_NoDup|].
    apply fmap_sublist, sublist_filter.
  - intros x. rewrite Hl, elem_of_free_addrs. done.
Qed.

Lemma untouched_outside bs l x : untouched bs x → linked bs l →
  (∀ b, b ∈ bs → MIN_BLOCK_SIZE ≤ b_size b) → outside l x.
Proof.
  intros Hu [_ Hl] Hm a [s Hb]%Hl. pose proof (Hm _ Hb). destruct (Hu _ Hb eq_refl); simpl in *; fields; lia.
Qed.

Lemma coalesced_app l1 l2 : coalesced (l1 ++ l2) ↔ coalesced l1 ∧ coalesced l2 ∧
  ∀ b b', list.last l1 = Some b → head l2 = Some b' → b_alloc b = true ∨ b_alloc b' = true.
Proof.
  induction l1 as [|b [|b1 l1] IH].
  - simpl. split; [|tauto]. by intros ?.
  - simpl. destruct l2; simpl; split.
    + by intros _.
    + by intros _.
    + intros [? ?]. split; [done|]. split; [done|]. by intros ?? [= <-] [= <-].
    + intros (_ & ? & H). split; [by apply H|done].
  - change (coalesced ((b :: b1 :: l1) ++ l2)) with
      ((b_alloc b = true ∨ b_alloc b1 = true) ∧ coalesced ((b1 :: l1) ++ l2)). rewrite IH.
    change (coalesced (b :: b1 :: l1)) with
      ((b_alloc b = true ∨ b_alloc b1 = true) ∧ coalesced (b1 :: l1)).
    rewrite last_cons_cons. tauto.
Qed.

(** Block [a] is free but not yet on the list, which holds all other free blocks. *)
Definition pending (h : FreeListAllocator) (bs : list Block) (a : Z) (l : list Z) : Prop :=
  core h bs l ∧ (a :: l) ≡ₚ free_addrs bs.

Lemma pending_linked h bs a l : pending h bs a l → linked bs l ∧ (a ∉ l) ∧ linked bs (a :: l).
Proof.
  intros [Hc Hl]. destruct (free_linked _ _ _ _ (core_tiles _ _ _ Hc) Hl) as [Hnd Hin].
  split; [split|split]; [by apply NoDup_cons in Hnd as []|set_solver|by apply NoDup_cons in Hnd as []|].
  by split.
Qed.

Lemma pending_outside h bs a l x : pending h bs a l → untouched bs x → outside (a :: l) x.
Proof.
  intros Hp Hu. destruct (pending_linked _ _ _ _ Hp) as (_ & _ & Hlk).
  eapply untouched_outside; [done|done|]. intros b Hb.
  by destruct (tiles_in _ _ _ _ (core_tiles _ _ _ (proj1 Hp)) Hb) as (_ & _ & ? & _).
Qed.

Lemma tiles_merge c d a s1 s2 :
  tiles c [mkBlock a s1 false; mkBlock (a + s1) s2 false] d → tiles c [mkBlock a (s1 + s2) false] d.
Proof.
  simpl. intros (<- & ? & H1 & _ & ? & H2 & <-). fields. split_and!; [done|lia| |lia].
  by rewrite Z.add_mod, H1, H2 by lia.
Qed.

Lemma untouched_merge pre a s1 s2 post x : 0 ≤ s1 → 0 ≤ s2 →
  untouched (pre ++ mkBlock a s1 false :: mkBlock (a + s1) s2 false :: post) x →
  untouched (pre ++ mkBlock a (s1 + s2) false :: post) x.
Proof.
  intros H1 H2 Hu b Hb Hal.
  apply elem_of_app in Hb as [Hb|[->|Hb]%elem_of_cons]; [apply Hu; set_solver| |apply Hu; set_solver].
  pose proof (Hu (mkBlock a s1 false) ltac:(set_solver) eq_refl).
  pose proof (Hu (mkBlock (a + s1) s2 false) ltac:(set_solver) eq_refl). simpl in *. lia.
Qed.

(** Giving the first of two neighbouring free blocks the size of both. *)
Lemma merge_spec h pre a s1 s2 post l :
  let bs := pre ++ mkBlock a s1 false :: mkBlock (a + s1) s2 false :: post in
  let bs' := pre ++ mkBlock a (s1 + s2) false :: post in
  core h bs l → linked bs l → a ∉ l → a + s1 ∉ l →
  let h' := set_mem (set_size a (s1 + s2)) h in
  core h' bs' l ∧ ∀ x, x < a ∨ a + 8 ≤ x → load8 (mem h') x = load8 (mem h) x.
Proof.
  intros bs bs' Hc Hlk Ha Ha1 h'.
  assert (Hb : mkBlock a s1 false ∈ bs) by set_solver.
  destruct (core_start _ _ _ Hc) as (Hst & _ & Hend).
  assert (Ht : tiles (heap_start h) bs' (heap_end h)).
  { apply (tiles_replace _ pre [_; _] [mkBlock a (s1 + s2) false] post _ (λ c d, tiles_merge c d a s1 s2)), Hc. }
  assert (Hlk' : linked bs' l).
  { split; [apply Hlk|]. intros x Hx.
    destruct (linked_other _ _ _ _ _ _ pre _ Hc eq_refl Hlk Ha x Hx) as (s' & Hin & _).
    exists s'. apply elem_of_app in Hin as [?|[[= -> _]|?]%elem_of_cons]; set_solver. }
  pose proof (core_set_size h bs l (mkBlock a s1 false) (s1 + s2) Hc Hb eq_refl) as E.
  cbn [b_addr] in E. subst h'. rewrite E. split.
  - apply (core_store h bs bs' l (mkBlock a (s1 + s2) false) Hc);
      [set_solver|done|by eapply linked_nodes_ok|].
    intros b Hin. destruct (decide (b = mkBlock a (s1 + s2) false)); [by left|right].
    apply (proj1 (Forall_forall _ _) (core_headers _ _ _ Hc)). set_solver.
  - intros x Hx. apply load8_store64_ne. lia.
Qed.

Lemma pending_merge h pre a s1 s2 post l1 l2 q n :
  let bs := pre ++ mkBlock a s1 false :: mkBlock (a + s1) s2 false :: post in
  let bs' := pre ++ mkBlock a (s1 + s2) false :: post in
  core h bs (l1 ++ q :: l2) → n :: l1 ++ q :: l2 ≡ₚ free_addrs bs → (n = a ∧ q = a + s1 ∨ n = a + s1 ∧ q = a) →
  let h' := set_mem (set_size a (s1 + s2)) (remove_from_free_list (data_ptr q) h) in
  pending h' bs' a (l1 ++ l2) ∧ same_fields h h' ∧
  ∀ x, untouched bs x → load8 (mem h') x = load8 (mem h) x.
Proof.
  intros bs bs' Hc Hl Hnq h'. destruct (core_remove h bs l1 q l2 Hc) as (Hc1 & Hs1 & Hout1).
  set (h1 := remove_from_free_list (data_ptr q) h) in *.
  assert (Hp : pending h bs n (l1 ++ q :: l2)) by done.
  destruct (free_linked _ _ _ _ (core_tiles _ _ _ Hc) Hl) as [Hnd Hin].
  rewrite <-Permutation_middle, !NoDup_cons in Hnd. destruct Hnd as (Hnin & Hqin & Hnd).
  assert (linked bs (l1 ++ l2)) as Hlk1 by (split; [done|set_solver]).
  destruct (merge_spec h1 pre a s1 s2 post (l1 ++ l2)) as [Hc2 Hout2]; [done|done|set_solver|set_solver|].
  split; [split; [done|]|split; [exact Hs1|]].
  - assert (a :: a + s1 :: l1 ++ l2 ≡ₚ free_addrs bs) as Hl'.
    { rewrite <-Hl, <-Permutation_middle. destruct Hnq as [[-> ->]|[-> ->]]; [done|apply perm_swap]. }
    unfold bs, bs' in *. rewrite free_addrs_app in Hl' |- *. unfold free_addrs in Hl' |- *. simpl in *.
    rewrite <-!Permutation_middle in Hl'. apply Permutation_cons_inv in Hl'.
    rewrite <-Permutation_middle. constructor. by apply Permutation_cons_inv in Hl'.
  - intros x Hu. simpl. rewrite Hout2, Hout1; [done| |].
    + intros y Hy. eapply pending_outside; [done..|]. set_solver.
    + specialize (Hu (mkBlock a s1 false) ltac:(set_solver) eq_refl). simpl in Hu.
      destruct (tiles_in _ _ _ (mkBlock a s1 false) (core_tiles _ _ _ Hc)) as (_ & _ & Hm & _);
        [set_solver|]. simpl in Hm. fields. lia.
Qed.

Lemma used_app l1 l2 : used (l1 ++ l2) = used l1 ++ used l2.
Proof. apply filter_app. Qed.

(** A block is at the end of the heap, or another one follows it. *)
Lemma next_spec h pre a s al post l : core h (pre ++ mkBlock a s al :: post) l →
  match post with
  | [] => a + s = heap_end h
  | b :: _ => b_addr b = a + s ∧ a + s < heap_end h
  end.
Proof.
  intros Hc. pose proof (core_tiles _ _ _ Hc) as (c & _ & Ht)%tiles_app.
  simpl in Ht. destruct Ht as (-> & _ & _ & Ht). destruct post as [|b post]; [done|].
  destruct (tiles_in _ _ _ b Ht) as (? & ? & ? & _); [set_solver|].
  simpl in Ht. destruct Ht as [-> _]. fields. split; [done|lia].
Qed.

Definition starts_used (bs : list Block) : Prop := ∀ b, head bs = Some b → b_alloc b = true.

Lemma merge_next_spec h pre a s post l :
  let bs := pre ++ mkBlock a s false :: post in
  pending h bs a l → coalesced post →
  ∃ h' s' post' l', merge_next a h = (h', s') ∧
    pending h' (pre ++ mkBlock a s' false :: post') a l' ∧ coalesced post' ∧ starts_used post' ∧
    used post' = used post ∧ same_fields h h' ∧
    ∀ x, untouched bs x → untouched (pre ++ mkBlock a s' false :: post') x ∧
                          load8 (mem h') x = load8 (mem h) x.
Proof.
  intros bs Hp Hco. destruct (id Hp) as [Hc Hl]. assert (Hb : mkBlock a s false ∈ bs) by set_solver.
  destruct (core_header _ _ _ _ Hc Hb) as [Hsz _]. simpl in Hsz.
  pose proof (next_spec h pre a s false post l Hc) as Hnext.
  unfold merge_next, next_block. rewrite Hsz. destruct post as [|[a2 s2 al2] post].
  - rewrite Hnext, Z.ltb_irrefl. simpl. exists h, s, [], l. by split_and!.
  - simpl in Hnext. destruct Hnext as [-> Hlt]. rewrite (proj2 (Z.ltb_lt _ _) Hlt).
    destruct (core_header h bs l (mkBlock (a + s) s2 al2) Hc) as [Hsz2 Hal2]; [set_solver|].
    cbn [b_addr b_size b_alloc] in Hsz2, Hal2. rewrite Hal2. destruct al2; cbn [andb negb].
    { exists h, s, (mkBlock (a + s) s2 true :: post), l. split_and!; try done. by intros b [= <-]. }
    assert (Hin : a + s ∈ l).
    { assert (a + s ∈ a :: l) as Hin.
      { rewrite Hl, elem_of_free_addrs. exists s2. set_solver. }
      destruct (tiles_in _ _ _ _ (core_tiles _ _ _ Hc) Hb) as (_ & _ & Hm & _). simpl in Hm.
      apply elem_of_cons in Hin as [Hin|]; [fields; lia|done]. }
    apply list_elem_of_split in Hin as (l1 & l2 & ->).
    destruct (pending_merge h pre a s s2 post l1 l2 (a + s) a) as (Hp' & Hs' & Hout');
      [done|done|by left|].
    set (h1 := remove_from_free_list _ h) in *.
    assert (Hsz2' : block_size (a + s) (mem h1) = s2).
    { destruct (core_remove h bs l1 (a + s) l2 Hc) as (Hc1 & _).
      destruct (core_header _ _ _ (mkBlock (a + s) s2 false) Hc1) as [Hz _]; [set_solver|done]. }
    destruct (core_u64 _ _ _ _ Hc Hb) as [Hu1 _].
    destruct (core_u64 h bs _ (mkBlock (a + s) s2 false) Hc) as [Hu2 _]; [set_solver|]. simpl in Hu1, Hu2.
    rewrite Hsz2', u64_add_small by (unfold is_u64; lia).
    eexists _, (s + s2), post, (l1 ++ l2). split; [done|]. split; [done|].
    destruct post as [|b post]; simpl in Hco.
    + split; [done|]. split; [by intros ??|]. split; [done|]. split; [done|].
      intros x Hu. split; [apply (untouched_merge pre a s s2 []); [lia..|done]|by apply Hout'].
    + split; [apply Hco|]. split; [intros ? [= <-]; by destruct Hco as [[?|?] _]|].
      split; [done|]. split; [done|]. intros x Hu.
      split; [apply (untouched_merge pre a s s2 (b :: post)); [lia..|done]|by apply Hout'].
Qed.

(** The heap is the blocks [bs]: the list holds exactly the free ones, and no two of them
    are neighbours. *)
Definition shape (h : FreeListAllocator) (bs : list Block) : Prop :=
  (∃ l, core h bs l ∧ l ≡ₚ free_addrs bs) ∧ coalesced bs.

Lemma add_pending h bs a l : pending h bs a l → coalesced bs →
  let h' := add_to_free_list a h in
  shape h' bs ∧ same_fields h h' ∧ ∀ x, untouched bs x → load8 (mem h') x = load8 (mem h) x.
Proof.
  intros Hp Hco h'. destruct (id Hp) as [Hc Hl]. destruct (core_start _ _ _ Hc) as (Hst & _ & Hend).
  destruct (pending_linked _ _ _ _ Hp) as (_ & _ & Hlk).
  destruct (core_add h bs l a Hc) as (Hc' & Hs' & Hout'); [by eapply linked_nodes_ok; [apply Hc|..]|].
  split; [split; [by exists (a :: l)|done]|]. split; [done|].
  intros x Hu. apply Hout'. by eapply pending_outside.
Qed.

Lemma fuel_enough h bs l : core h bs l → (S (length bs) < walk_fuel h)%nat.
Proof.
  intros Hc. pose proof (tiles_length _ _ _ (core_tiles _ _ _ Hc)) as Hl. unfold walk_fuel.
  apply Z.div_le_lower_bound in Hl; [|done]. lia.
Qed.

Lemma find_prev_block_spec h pre b post l : core h (pre ++ b :: post) l →
  find_prev_block (b_addr b) h = Some (default 0 (b_addr <$> list.last pre)).
Proof.
  intros Hc. apply find_prev_spec with post; [apply Hc| |].
  - intros c Hin. apply (core_header _ _ _ _ Hc). set_solver.
  - pose proof (fuel_enough _ _ _ Hc). rewrite length_app in *. simpl in *. lia.
Qed.

Lemma coalesced_insert pre a s post : coalesced pre → coalesced post → starts_used post →
  (∀ b, list.last pre = Some b → b_alloc b = true) → coalesced (pre ++ mkBlock a s false :: post).
Proof.
  intros Hpre Hpost Hu Hl. apply coalesced_app. split; [done|]. split.
  - destruct post as [|b post]; simpl; [done|]. split; [|done]. right. by apply Hu.
  - intros b b' Hb _. left. by apply Hl.
Qed.

Lemma merge_prev_spec h pre a s post l :
  let bs := pre ++ mkBlock a s false :: post in
  pending h bs a l → coalesced pre → coalesced post → starts_used post →
  ∃ h' bs', merge_prev a s h = Some h' ∧ shape h' bs' ∧ used bs' = used pre ++ used post ∧
    same_fields h h' ∧ ∀ x, untouched bs x → untouched bs' x ∧ load8 (mem h') x = load8 (mem h) x.
Proof.
  intros bs Hp Hpre Hpost Hst. destruct (id Hp) as [Hc Hl].
  unfold merge_prev. pose proof (find_prev_block_spec h pre (mkBlock a s false) post l Hc) as Hf.
  cbn [b_addr] in Hf. rewrite Hf. clear Hf. simpl.
  assert (Hplain : (∀ b, list.last pre = Some b → b_alloc b = true) →
    ∃ h' bs', Some (add_to_free_list a h) = Some h' ∧ shape h' bs' ∧ used bs' = used pre ++ used post ∧
    same_fields h h' ∧ ∀ x, untouched bs x → untouched bs' x ∧ load8 (mem h') x = load8 (mem h) x).
  { intros Hlast. destruct (add_pending h bs a l Hp) as (Hsh & Hs' & Hout'); [by apply coalesced_insert|].
    eexists _, bs. split; [done|]. split; [done|]. split; [unfold bs; by rewrite used_app|]. split; [done|]. eauto. }
  destruct pre as [|[ap sp alp] pre _] using rev_ind; [by apply Hplain|].
  rewrite last_snoc in *. change (default 0 (b_addr <$> Some (mkBlock ap sp alp))) with ap.
  destruct (core_start _ _ _ Hc) as (Hst0 & _ & Hend).
  assert (Hb : mkBlock ap sp alp ∈ bs) by set_solver.
  destruct (tiles_header_u64 _ _ _ _ (core_tiles _ _ _ Hc) Hst0 Hend Hb) as (_ & Hok & _). simpl in Hok.
  rewrite (proj2 (Z.eqb_neq ap 0)) by (unfold addr_ok in Hok; simpl in Hok; lia).
  destruct (core_header _ _ _ _ Hc Hb) as [_ Hal]. cbn [b_addr b_alloc] in Hal. rewrite Hal.
  destruct alp; cbn [negb andb]; [apply Hplain; by intros b [= <-]|clear Hplain].
  unfold bs in *. rewrite <-app_assoc in *. simpl in *.
  pose proof (next_spec h pre ap sp false _ l Hc) as [Ha _]. cbn [b_addr] in Ha. subst a.
  assert (Hin : ap ∈ l).
  { assert (ap ∈ (ap + sp) :: l) as Hin.
    { rewrite Hl, elem_of_free_addrs. exists sp. set_solver. }
    destruct (tiles_in _ _ _ _ (core_tiles _ _ _ Hc) Hb) as (_ & _ & Hm & _). simpl in Hm.
    apply elem_of_cons in Hin as [Hin|]; [fields; lia|done]. }
  apply list_elem_of_split in Hin as (l1 & l2 & ->).
  destruct (pending_merge h pre ap sp s post l1 l2 ap (ap + sp)) as (Hp' & Hs' & Hout');
    [done|done|by right|].
  destruct (core_remove h _ l1 ap l2 Hc) as (Hc1 & _).
  destruct (core_header _ _ _ _ Hc1 Hb) as [Hsz _]. cbn [b_addr b_size] in Hsz. rewrite Hsz.
  destruct (core_u64 _ _ _ _ Hc Hb) as [Hu1 _].
  destruct (core_u64 h _ _ (mkBlock (ap + sp) s false) Hc) as [Hu2 _]; [set_solver|]. simpl in Hu1, Hu2.
  rewrite u64_add_small by (unfold is_u64; lia).
  apply coalesced_app in Hpre as (Hpre & _ & Hj).
  destruct (add_pending _ _ _ _ Hp') as (Hsh & Hs2 & Hout2).
  { apply coalesced_insert; [done..|]. intros b Hlast. by destruct (Hj b _ Hlast eq_refl). }
  eexists _, _. split; [done|]. split; [exact Hsh|]. split; [|split; [by etrans|]].
  - rewrite !used_app. unfold used. simpl. by rewrite app_nil_r.
  - intros x Hu. assert (untouched (pre ++ mkBlock ap (sp + s) false :: post) x) as Hu'
      by (apply untouched_merge; [lia..|done]).
    split; [done|]. rewrite Hout2 by done. by apply Hout'.
Qed.

Lemma coalesce_spec h pre a s post l :
  let bs := pre ++ mkBlock a s false :: post in
  pending h bs a l → coalesced pre → coalesced post →
  ∃ h' bs', coalesce a h = Some h' ∧ shape h' bs' ∧ used bs' = used pre ++ used post ∧
    same_fields h h' ∧ ∀ x, untouched bs x → untouched bs' x ∧ load8 (mem h') x = load8 (mem h) x.
Proof.
  intros bs Hp Hpre Hpost. unfold coalesce.
  destruct (merge_next_spec h pre a s post l Hp Hpost)
    as (h1 & s1 & post1 & l1 & -> & Hp1 & Hpost1 & Hst1 & Hu1 & Hs1 & Hm1).
  destruct (merge_prev_spec h1 pre a s1 post1 l1 Hp1 Hpre Hpost1 Hst1)
    as (h2 & bs2 & -> & Hsh & Hu2 & Hs2 & Hm2).
  exists h2, bs2. split; [done|]. split; [done|]. split; [congruence|]. split; [by etrans|].
  intros x [Hx Hl]%Hm1. destruct (Hm2 x Hx). split; [done|]. congruence.
Qed.

(** ** The requests of clients *)

(** A layout whose block keeps the heap 8-aligned: Rust bounds the size of a layout by
    [isize::MAX]. *)
Definition layout_ok (l : Layout) : Prop :=
  0 < size l < 2 ^ 62 ∧ (size l ≤ 16 ∨ size l mod 8 = 0) ∧
  (align l = 1 ∨ align l = 2 ∨ align l = 4 ∨ align l = 8).

(** The bytes of the block for a layout. *)
Definition need (l : Layout) : Z := Z.max (header_size + size l) MIN_BLOCK_SIZE.

Lemma need_ok l : layout_ok l → MIN_BLOCK_SIZE ≤ need l ∧ need l mod 8 = 0 ∧
  header_size + size l ≤ need l ∧ need l < 2 ^ 63.
Proof.
  intros (Hs & H8 & _). unfold need. fields. split_and!; [lia| |lia|lia].
  destruct (Z.max_spec (8 + size l) (8 + 2 * 8)) as [[Hlt ->]|[Hle ->]]; [done|].
  destruct H8 as [H8|H8]; [assert (size l = 16) as -> by lia; done|].
  by rewrite Z.add_mod, H8 by lia.
Qed.

Lemma needed_spec l a : layout_ok l → addr_ok (data_ptr a) → a mod 8 = 0 →
  needed l a = (need l, data_ptr a).
Proof.
  intros Hl Ha H8. pose proof (need_ok l Hl) as (Hm & _ & _ & Hn). destruct Hl as (Hs & _ & Hal).
  assert (align_up (data_ptr a) (align l) = data_ptr a) as E.
  { assert (∃ k, align l = 2 ^ k ∧ 0 ≤ k ≤ 3) as (k & -> & Hk).
    { destruct Hal as [->|[->|[->| ->]]]; [exists 0|exists 1|exists 2|exists 3]; (split; [done|lia]). }
    unfold addr_ok in Ha. rewrite align_up_spec by lia.
    assert (Hd : data_ptr a mod 2 ^ k = 0).
    { assert (2 ^ 3 = 2 ^ (3 - k) * 2 ^ k) by (rewrite <-Z.pow_add_r by lia; f_equal; lia).
      rewrite <-(Z.mod_mod_divide _ (2 ^ 3)) by (by exists (2 ^ (3 - k))).
      fields. change (2 ^ 3) with 8. rewrite Z.add_mod, H8 by lia. done. }
    assert (1 ≤ 2 ^ k) by (change 1 with (2 ^ 0); apply Z.pow_le_mono_r; lia).
    replace (data_ptr a + 2 ^ k - 1) with (data_ptr a + (2 ^ k - 1)) by lia.
    rewrite Z.add_mod, Hd, Z.add_0_l, Z.mod_mod, Z.mod_small by lia. lia. }
  unfold needed. rewrite E. unfold addr_ok in Ha. rewrite u64_sub_small, Z.sub_diag by lia.
  rewrite (u64_add_small header_size) by (unfold is_u64; fields; lia).
  rewrite u64_add_small by (unfold is_u64; fields; lia). by rewrite Z.add_0_r.
Qed.

(** What [find_fit] does on the blocks: the first block of the list that is large enough. *)
Lemma find_fit_spec h bs lay l2 : ∀ fuel l1 p c,
  layout_ok lay → core h bs (l1 ++ l2) → linked bs (l1 ++ l2) → (length l2 < fuel)%nat →
  (∃ last, dls (mem h) p c l2 last 0) →
  (∃ l1' a l2' s, l1 ++ l2 = l1' ++ a :: l2' ∧ mkBlock a s false ∈ bs ∧ need lay ≤ s ∧
     find_fit fuel lay c h = Some (take_block a (need lay) h, Some (data_ptr a))) ∨
  (find_fit fuel lay c h = Some (h, None) ∧ ∀ a s, a ∈ l2 → mkBlock a s false ∈ bs → s < need lay).
Proof.
  induction l2 as [|a l2 IH]; intros [|fuel] l1 p c Hlay Hc Hlk Hf [last Hd]; try (simpl in Hf; lia).
  - simpl in Hd. destruct Hd as [_ <-]. right. split; [done|set_solver].
  - cbn [dls] in Hd. destruct Hd as (-> & _ & Hd).
    destruct (core_start _ _ _ Hc) as (Hst & H8 & Hend).
    destruct (proj2 Hlk a) as [s Hb]; [set_solver|].
    destruct (tiles_in _ _ _ _ (core_tiles _ _ _ Hc) Hb) as (Hlo & Hhi & Hm & _). simpl in Hlo, Hhi, Hm.
    pose proof (tiles_mod8 _ _ _ _ (core_tiles _ _ _ Hc) H8 Hb) as Ha8. simpl in Ha8.
    cbn [find_fit]. rewrite (proj2 (Z.eqb_neq _ _)) by (fields; lia).
    replace (node_to_header (data_ptr a)) with a by (unfold node_to_header; fields; lia).
    rewrite needed_spec by (unfold addr_ok; fields; done || lia).
    destruct (core_header _ _ _ _ Hc Hb) as [Hsz _]. cbn [b_addr b_size] in Hsz. rewrite Hsz.
    destruct (Z.leb_spec (need lay) s) as [Hle|Hgt]; [left; by exists l1, a, l2, s|].
    destruct (IH fuel (l1 ++ [a]) (data_ptr a) (node_next (data_ptr a) (mem h)))
      as [(l1' & a' & l2' & s' & Heq & Hr)|[Hr Hsmall]]; rewrite <-?app_assoc; try done.
    + simpl in Hf. lia.
    + by exists last.
    + left. exists l1', a', l2', s'. split; [|done]. rewrite <-Heq. by rewrite <-app_assoc.
    + right. split; [done|]. intros a' s' [->|Ha']%elem_of_cons Hb'; [|by eapply Hsmall].
      by injection (same_block _ _ _ _ _ (core_tiles _ _ _ Hc) Hb Hb' eq_refl) as <-.
Qed.

Lemma free_length h bs l : core h bs l → l ≡ₚ free_addrs bs → (length l ≤ length bs)%nat.
Proof.
  intros _ ->. unfold free_addrs. rewrite length_fmap. apply length_filter.
Qed.

Lemma free_cut pre a s n post l : (l ++ [a]) ≡ₚ free_addrs (pre ++ mkBlock a s false :: post) →
  (rest_node a s n ++ l) ≡ₚ free_addrs (pre ++ cut a s n ++ post).
Proof.
  intros Hl. rewrite free_addrs_app in *. unfold rest_node, cut.
  assert (l ≡ₚ free_addrs pre ++ free_addrs post) as ->.
  { apply (Permutation_cons_inv (a := a)). rewrite Permutation_middle.
    rewrite <-Hl. by rewrite Permutation_app_comm. }
  rewrite free_addrs_app. case_match; simpl; [|done]. by rewrite Permutation_middle.
Qed.

Lemma coalesced_cut pre a s n post : coalesced (pre ++ mkBlock a s false :: post) →
  coalesced (pre ++ cut a s n ++ post).
Proof.
  rewrite !coalesced_app. intros (Hpre & Hpost & _).
  assert (coalesced post ∧ ∀ b, head post = Some b → b_alloc b = true) as [Hpost' Hh].
  { destruct post as [|b post]; [done|]. destruct Hpost as [[?|?] ?]; [done|].
    split; [done|]. by intros ? [= <-]. }
  unfold cut. split; [done|]. case_match.
  - split; [|intros ??? [= <-]; by right]. split; [simpl; tauto|]. split; [done|].
    intros b b' _ Hb'. right. by apply Hh.
  - split; [|intros ??? [= <-]; by right]. split; [simpl; tauto|]. split; [done|].
    intros b b' _ Hb'. right. by apply Hh.
Qed.

Lemma untouched_l bs pre a s post l x : bs = pre ++ mkBlock a s false :: post → untouched bs x →
  linked bs l → (∀ b, b ∈ bs → MIN_BLOCK_SIZE ≤ b_size b) → outside l x ∧ (x < a ∨ a + s ≤ x).
Proof.
  intros -> Hu Hlk Hm. split; [by eapply untouched_outside|].
  apply (Hu (mkBlock a s false)); [set_solver|done].
Qed.

(** The size of the block that is handed out. *)
Definition granted (s n : Z) : Z := if MIN_BLOCK_SIZE <=? s - n then n else s.

Lemma allocate_blocks h bs lay : shape h bs → layout_ok lay →
  (∃ pre a s post h', bs = pre ++ mkBlock a s false :: post ∧ need lay ≤ s ∧
     allocate lay h = Some (h', Some (data_ptr a)) ∧
     shape h' (pre ++ cut a s (need lay) ++ post) ∧
     (∀ x, untouched bs x → load8 (mem h') x = load8 (mem h) x) ∧
     heap_start h' = heap_start h ∧ heap_end h' = heap_end h ∧
     total_allocated h' = u64_add (total_allocated h) (granted s (need lay))) ∨
  (allocate lay h = Some (h, None) ∧ ∀ b, b ∈ bs → b_alloc b = false → b_size b < need lay).
Proof.
  intros [(l & Hc & Hl) Hco] Hlay. pose proof (need_ok _ Hlay) as (Hn & Hn8 & _).
  pose proof (free_linked _ _ _ _ (core_tiles _ _ _ Hc) Hl) as Hlk.
  unfold allocate. rewrite (proj2 (Z.eqb_neq _ _)) by (destruct Hlay; lia).
  destruct (find_fit_spec h bs lay l (walk_fuel h) [] 0 (free_list h))
    as [(l1 & a & l2 & s & Heq & Hb & Hle & Hr)|[Hr Hsmall]]; [done|done|done| |apply Hc| |].
  - pose proof (free_length _ _ _ Hc Hl). pose proof (fuel_enough _ _ _ Hc). lia.
  - left. simpl in Heq. subst l. apply list_elem_of_split in Hb as (pre & post & ->).
    destruct (take_spec h pre a s (need lay) post l1 l2 Hc Hlk)
      as (Hc' & Hlk' & Hout & Hs' & He' & Hta); [done|done|].
    exists pre, a, s, post, (take_block a (need lay) h).
    split; [done|]. split; [done|]. split; [done|]. split; [|split; [|by split_and!]].
    + split; [|by apply coalesced_cut]. eexists. split; [exact Hc'|].
      apply free_cut. rewrite <-Hl, <-(Permutation_middle l1 l2 a). by rewrite Permutation_app_comm.
    + intros x Hu.
      destruct (untouched_l _ pre a s post (l1 ++ l2) x eq_refl Hu) as [? ?]; [| |by apply Hout].
      * destruct Hlk as [Hnd Hin]. rewrite <-Permutation_middle, NoDup_cons in Hnd.
        split; [apply Hnd|]. intros y Hy. apply Hin. set_solver.
      * intros b Hb. by destruct (tiles_in _ _ _ _ (core_tiles _ _ _ Hc) Hb) as (_ & _ & ? & _).
  - right. split; [done|]. intros [a s al] Hb Hal. simpl in *. subst al. eapply Hsmall; [|done].
    rewrite Hl. apply elem_of_free_addrs. eauto.
Qed.

Lemma deallocate_blocks h pre a s post lay :
  shape h (pre ++ mkBlock a s true :: post) → size lay ≠ 0 →
  ∃ h' bs', deallocate (data_ptr a) lay h = Some h' ∧ shape h' bs' ∧
    used bs' = used pre ++ used post ∧ heap_start h' = heap_start h ∧ heap_end h' = heap_end h ∧
    total_allocated h' = sat_sub (total_allocated h) s ∧
    ∀ x, untouched (pre ++ mkBlock a s false :: post) x →
      untouched bs' x ∧ load8 (mem h') x = load8 (mem h) x.
Proof.
  intros [(l & Hc & Hl) Hco] Hsz. set (bs := pre ++ _) in *.
  assert (Hb : mkBlock a s true ∈ bs) by set_solver.
  destruct (core_start _ _ _ Hc) as (Hst & H8 & Hend).
  destruct (tiles_in _ _ _ _ (core_tiles _ _ _ Hc) Hb) as (Hlo & Hhi & Hm & _). simpl in Hlo, Hhi, Hm.
  pose proof (free_linked _ _ _ _ (core_tiles _ _ _ Hc) Hl) as Hlk.
  assert (Ha : a ∉ l).
  { rewrite Hl, elem_of_free_addrs. intros [s' Hb'].
    by pose proof (same_block _ _ _ _ _ (core_tiles _ _ _ Hc) Hb Hb' eq_refl). }
  unfold deallocate. rewrite (proj2 (Z.eqb_neq (data_ptr a) 0)) by (fields; lia).
  rewrite (proj2 (Z.eqb_neq _ _) Hsz). cbn [orb].
  replace (data_ptr a - header_size) with a by (fields; lia).
  rewrite (proj2 (Z.ltb_ge _ _)), (proj2 (Z.leb_gt _ _)) by (fields; lia). cbn [orb].
  destruct (core_header _ _ _ _ Hc Hb) as [Hbs Hba]. cbn [b_addr b_size b_alloc] in Hbs, Hba.
  rewrite Hba, Hbs. cbn [negb].
  set (h1 := mkHeap (mem h) _ _ _ _ _ _).
  assert (Hc1 : core h1 bs l) by (destruct Hc; by split).
  destruct (flag_spec h1 pre a s true false post l Hc1 Hlk Ha) as (Hc2 & Hlk2 & Hout2).
  apply coalesced_app in Hco as (Hpre & Hpost & _).
  destruct (coalesce_spec (set_mem (set_allocated a false) h1) pre a s post l)
    as (h' & bs' & Hr & Hsh & Hu & Hsame & Hmem).
  - split; [done|]. unfold bs in Hl. rewrite free_addrs_app in *.
    rewrite Hl. apply Permutation_middle.
  - done.
  - destruct post; simpl in Hpost; [done|apply Hpost].
  - destruct Hsame as (Hs1 & Hs2 & Hs3 & _).
    exists h', bs'. split; [exact Hr|]. split; [done|]. split; [done|].
    split; [exact Hs1|]. split; [exact Hs2|]. split; [exact Hs3|].
    intros x Hx. destruct (Hmem x Hx) as [? ->]. split; [done|]. rewrite Hout2; [done|].
    specialize (Hx (mkBlock a s false) ltac:(set_solver) eq_refl). simpl in Hx. fields. lia.
Qed.

Definition used_bytes (bs : list Block) : Z := foldr Z.add 0 (b_size <$> used bs).

Lemma used_cons b bs : used (b :: bs) = (if b_alloc b then [b] else []) ++ used bs.
Proof. unfold used. rewrite filter_cons. by destruct (b_alloc b). Qed.

Lemma elem_of_used bs b : b ∈ used bs ↔ b_alloc b = true ∧ b ∈ bs.
Proof. unfold used. by rewrite list_elem_of_filter. Qed.

Lemma foldr_add_app l1 l2 : foldr Z.add 0 (l1 ++ l2) = foldr Z.add 0 l1 + foldr Z.add 0 l2.
Proof. induction l1; simpl; lia. Qed.

Lemma used_bytes_app l1 l2 : used_bytes (l1 ++ l2) = used_bytes l1 + used_bytes l2.
Proof. unfold used_bytes. by rewrite used_app, fmap_app, foldr_add_app. Qed.

Lemma used_bytes_bound a bs e : tiles a bs e → 0 ≤ used_bytes bs ≤ e - a.
Proof.
  revert a. induction bs as [|b bs IH]; intros a; cbn [tiles]; [intros ->; unfold used_bytes; simpl; lia|].
  intros (<- & Hm & _ & H%IH). change (b :: bs) with ([b] ++ bs). rewrite used_bytes_app.
  unfold used_bytes at 1 3. rewrite used_cons. destruct (b_alloc b); simpl; fields; lia.
Qed.

(** What a client holds: the pointer, the layout it asked for, and the bytes it expects. *)
Record Live := mkLive { lv_ptr : Z; lv_layout : Layout; lv_data : list Z }.

Inductive HeapOp :=
| HAlloc (l : Layout)
| HFree (i : nat)
| HWrite (i : nat) (off v : Z).

(** One request; freeing or writing an index that is not live does nothing. *)
Definition heap_step (op : HeapOp) (st : FreeListAllocator * list Live) :
    option (FreeListAllocator * list Live) :=
  let '(h, live) := st in
  match op with
  | HAlloc l =>
      '(h, r) ← allocate l h;
      Some (h, match r with
               | Some p => live ++ [mkLive p l (load_bytes (Z.to_nat (size l)) (mem h) p)]
               | None => live
               end)
  | HFree i =>
      match live !! i with
      | Some e => h ← deallocate (lv_ptr e) (lv_layout e) h; Some (h, delete i live)
      | None => Some (h, live)
      end
  | HWrite i off v =>
      match live !! i with
      | Some e =>
          if (0 <=? off) && (off <? size (lv_layout e))
          then Some (set_mem (store8 (lv_ptr e + off) v) h,
                     <[i := mkLive (lv_ptr e) (lv_layout e) (<[Z.to_nat off := v]> (lv_data e))]> live)
          else Some (h, live)
      | None => Some (h, live)
      end
  end.

Fixpoint heap_run (ops : list HeapOp) (st : FreeListAllocator * list Live) :
    option (FreeListAllocator * list Live) :=
  match ops with
  | [] => Some st
  | op :: ops => st ← heap_step op st; heap_run ops st
  end.

Definition op_ok (op : HeapOp) : Prop :=
  match op with HAlloc l => layout_ok l | _ => True end.

(** A live entry lies in a used block and its bytes are in memory. *)
Definition live_ok (m : memory) (bs : list Block) (e : Live) : Prop :=
  (∃ b, b ∈ used bs ∧ lv_ptr e = data_ptr (b_addr b) ∧ header_size + size (lv_layout e) ≤ b_size b) ∧
  layout_ok (lv_layout e) ∧
  lv_data e = load_bytes (Z.to_nat (size (lv_layout e))) m (lv_ptr e).

Definition heap_inv (st : FreeListAllocator * list Live) : Prop :=
  ∃ bs, shape st.1 bs ∧ lv_ptr <$> st.2 ≡ₚ (λ b, data_ptr (b_addr b)) <$> used bs ∧
    Forall (live_ok (mem st.1) bs) st.2 ∧ total_allocated st.1 = used_bytes bs.

Lemma init_shape start sz h : 0 < start → start mod 8 = 0 → MIN_BLOCK_SIZE ≤ sz → sz mod 8 = 0 →
  start + sz < 2 ^ 63 → shape (init start sz h) [mkBlock start sz false].
Proof.
  intros H0 H8 Hm Hs He.
  assert (Hn : header_new sz false = sz).
  { change (header_sz sz = sz). rewrite header_sz_spec by (unfold is_u64; fields; lia).
    rewrite <-(Z.mod_mod_divide sz 8 2), Hs by (by exists 4). apply Z.sub_0_r. }
  split; [|done]. exists [start]. split; [|done]. unfold init. rewrite Hn, u64_add_small by (fields; lia).
  split; simpl.
  - done.
  - by split_and!.
  - constructor; [|constructor]. unfold header_word. simpl. fields. rewrite Z.add_0_r.
    rewrite !load64_store64_ne by lia. apply load64_store64. unfold is_u64. lia.
  - exists (data_ptr start). simpl. fields.
    rewrite load64_store64, load64_store64_ne, load64_store64 by (done || lia). done.
  - split; [split; [apply NoDup_singleton|]|split].
    + intros a b ->%list_elem_of_singleton ->%list_elem_of_singleton. done.
    + constructor; [|constructor]. unfold addr_ok. fields. lia.
    + intros b x ->%list_elem_of_singleton ->%list_elem_of_singleton. simpl. lia.
Qed.

Lemma used_untouched a bs e b x : tiles a bs e → b ∈ used bs → b_addr b ≤ x < b_addr b + b_size b →
  untouched bs x.
Proof.
  intros Ht [Hal Hb]%elem_of_used Hx b' Hb' Hal'.
  destruct (tiles_apart _ _ _ _ _ Ht Hb Hb') as [->|Hap]; [congruence|lia].
Qed.

Lemma live_ok_mono m m' bs bs' a z e : tiles a bs z → live_ok m bs e → used bs ⊆ used bs' →
  (∀ x, untouched bs x → load8 m' x = load8 m x) → live_ok m' bs' e.
Proof.
  intros Ht ((b & Hb & Hp & Hsz) & Hlay & Hd) Hsub Hm. split; [|split; [done|]].
  - exists b. split; [by apply Hsub|done].
  - rewrite Hd. symmetry. apply load_bytes_ext. intros x Hx. apply Hm.
    destruct (id Hlay) as ((Hpos & _) & _). rewrite Z2Nat.id in Hx by lia.
    eapply used_untouched; [done..|]. rewrite Hp in Hx. fields. lia.
Qed.

Lemma used_cut a s n : used (cut a s n) = [mkBlock a (granted s n) true].
Proof. unfold cut, granted. by case_match. Qed.

Lemma step_alloc_inv h live lay : heap_inv (h, live) → layout_ok lay →
  ∃ st, heap_step (HAlloc lay) (h, live) = Some st ∧ heap_inv st ∧
    heap_start st.1 = heap_start h ∧ heap_end st.1 = heap_end h.
Proof.
  intros (bs & Hsh & Hp & Hlive & Hta) Hlay. simpl in *.
  destruct (need_ok lay Hlay) as (Hn24 & _ & Hneed & _).
  destruct (allocate_blocks h bs lay Hsh Hlay)
    as [(pre & a & s & post & h' & -> & Hn & -> & Hsh' & Hmem & Hst & Hend & Hta')|[-> _]];
    cbn [mbind option_bind].
  2:{ eexists. split; [done|]. split; [|done]. by exists bs. }
  eexists. split; [done|]. split; [|done].
  destruct (id Hsh) as [(l0 & Hc & _) _]. destruct (id Hsh') as [(l & Hc' & _) _].
  assert (Hu : used (pre ++ cut a s (need lay) ++ post)
               = used pre ++ mkBlock a (granted s (need lay)) true :: used post).
  { by rewrite !used_app, used_cut. }
  assert (Hu0 : used (pre ++ mkBlock a s false :: post) = used pre ++ used post) by by rewrite used_app.
  exists (pre ++ cut a s (need lay) ++ post). split; [done|]. rewrite Hu0 in Hp. simpl. split; [|split].
  - rewrite Hu, !fmap_app, Hp, fmap_app, <-app_assoc. apply Permutation_app_head.
    symmetry. apply Permutation_cons_append.
  - apply Forall_app. split.
    + eapply Forall_impl; [done|]. intros e He. simpl in He. eapply live_ok_mono; [apply Hc|done| |exact Hmem].
      rewrite Hu, Hu0. set_solver.
    + constructor; [|constructor]. split; [|by split]. simpl.
      exists (mkBlock a (granted s (need lay)) true). rewrite Hu. split; [set_solver|].
      split; [done|]. simpl. unfold granted. case_match; lia.
  - rewrite Hta', Hta. unfold used_bytes. rewrite Hu, Hu0, !fmap_app, !foldr_add_app. cbn [fmap list_fmap foldr b_size].
    pose proof (used_bytes_bound _ _ _ (core_tiles _ _ _ Hc')) as Hb.
    pose proof (used_bytes_bound _ _ _ (core_tiles _ _ _ Hc)) as Hb0.
    unfold used_bytes in Hb, Hb0. rewrite Hu in Hb. rewrite Hu0 in Hb0.
    rewrite !fmap_app, !foldr_add_app in Hb, Hb0. cbn [fmap list_fmap foldr b_size] in Hb.
    assert (0 ≤ granted s (need lay)) by (unfold granted; case_match; fields; lia).
    destruct (core_start _ _ _ Hc') as (? & _ & ?). rewrite u64_add_small by lia. lia.
Qed.

Lemma fields_NoDup a bs z : tiles a bs z → NoDup ((λ b, data_ptr (b_addr b)) <$> used bs).
Proof.
  intros Ht. eapply sublist_NoDup; [|apply fmap_sublist, sublist_filter].
  rewrite (list_fmap_compose b_addr data_ptr). apply NoDup_fmap_2; [intros x y; fields; lia|].
  by eapply tiles_NoDup.
Qed.

(** Two live entries lie in different blocks. *)
Lemma live_apart h live bs a z i j e e' : tiles a bs z →
  lv_ptr <$> live ≡ₚ (λ b, data_ptr (b_addr b)) <$> used bs →
  live !! i = Some e → live !! j = Some e' → i ≠ j →
  live_ok h bs e → live_ok h bs e' →
  lv_ptr e + size (lv_layout e) ≤ lv_ptr e' - header_size ∨
  lv_ptr e' + size (lv_layout e') ≤ lv_ptr e - header_size.
Proof.
  intros Ht Hp Hi Hj Hne ((b & Hb & He & Hs) & _) ((b' & Hb' & He' & Hs') & _).
  apply elem_of_used in Hb as [_ Hb]. apply elem_of_used in Hb' as [_ Hb'].
  destruct (tiles_apart _ _ _ _ _ Ht Hb Hb') as [<-|Hap]; [|fields; lia]. exfalso. apply Hne.
  eapply (NoDup_lookup (lv_ptr <$> live)); [rewrite Hp; by eapply fields_NoDup| |].
  - rewrite list_lookup_fmap, Hi. done.
  - rewrite list_lookup_fmap, Hj. simpl. congruence.
Qed.

Lemma core_store8 h bs l b c v : core h bs l → linked bs l → b ∈ used bs →
  data_ptr (b_addr b) ≤ c < b_addr b + b_size b → core (set_mem (store8 c v) h) bs l.
Proof.
  intros Hc [_ Hlk] [Hal Hb]%elem_of_used Hx. split; try apply Hc; simpl.
  - apply Forall_forall. intros b' Hb'. rewrite load64_store8_ne.
    + by apply (proj1 (Forall_forall _ _) (core_headers _ _ _ Hc) b').
    + destruct (tiles_in _ _ _ _ (core_tiles _ _ _ Hc) Hb') as (_ & _ & ? & _).
      destruct (tiles_apart _ _ _ _ _ (core_tiles _ _ _ Hc) Hb Hb') as [<-|?]; fields; lia.
  - destruct (core_list _ _ _ Hc) as [last Hd]. exists last. eapply dls_same; [|exact Hd].
    intros x [s Hxb]%Hlk.
    destruct (tiles_in _ _ _ _ (core_tiles _ _ _ Hc) Hxb) as (_ & _ & ? & _).
    destruct (tiles_apart _ _ _ _ _ (core_tiles _ _ _ Hc) Hb Hxb) as [->|?]; [done|].
    simpl in *. fields. split; apply load64_store8_ne; lia.
Qed.

Lemma step_write_inv h live i off v : heap_inv (h, live) →
  ∃ st, heap_step (HWrite i off v) (h, live) = Some st ∧ heap_inv st ∧
    heap_start st.1 = heap_start h ∧ heap_end st.1 = heap_end h.
Proof.
  intros Hinv. destruct (id Hinv) as (bs & Hsh & Hp & Hlive & Hta). simpl in *.
  destruct (live !! i) as [e|] eqn:Hi; [|by eexists].
  destruct ((0 <=? off) && (off <? size (lv_layout e))) eqn:Hoff; [|by eexists].
  apply andb_true_iff in Hoff as [Hlo%Z.leb_le Hhi%Z.ltb_lt].
  eexists. split; [done|]. split; [|done]. destruct (id Hsh) as [(l & Hc & Hl) Hco].
  pose proof (free_linked _ _ _ _ (core_tiles _ _ _ Hc) Hl) as Hlk.
  pose proof (proj1 (Forall_lookup _ _) Hlive) as Hlv.
  destruct (Hlv i e Hi) as ((b & Hb & He & Hs) & Hlay & Hd).
  exists bs. simpl. split; [split; [|done]|split; [|split; [|done]]].
  - exists l. split; [|done]. eapply core_store8; [done|done|done|]. rewrite He. fields. lia.
  - rewrite list_fmap_insert. simpl. rewrite list_insert_id; [done|]. by rewrite list_lookup_fmap, Hi.
  - apply Forall_lookup. intros j e' Hj. destruct (decide (i = j)) as [<-|Hne].
    + rewrite list_lookup_insert_eq in Hj by (by eapply lookup_lt_Some). injection Hj as <-.
      split; [by exists b|]. split; [done|]. simpl. rewrite load_bytes_store8 by done. by rewrite <-Hd.
    + rewrite list_lookup_insert_ne in Hj by done. pose proof (Hlv j e' Hj) as Hlj.
      pose proof (live_apart _ _ _ _ _ _ _ _ _ (core_tiles _ _ _ Hc) Hp Hi Hj Hne (Hlv i e Hi) Hlj) as Hap.
      destruct Hlj as (Hb' & Hlay' & Hd'). split; [done|]. split; [done|]. rewrite Hd'. symmetry.
      apply load_bytes_ext. intros x Hx. rewrite load8_store8, decide_False; [done|].
      destruct Hlay', Hlay. rewrite Z2Nat.id in Hx by lia. fields. lia.
Qed.

Lemma step_free_inv h live i : heap_inv (h, live) →
  ∃ st, heap_step (HFree i) (h, live) = Some st ∧ heap_inv st ∧
    heap_start st.1 = heap_start h ∧ heap_end st.1 = heap_end h.
Proof.
  intros Hinv. destruct (id Hinv) as (bs & Hsh & Hp & Hlive & Hta). simpl in *.
  destruct (live !! i) as [e|] eqn:Hi; [|by eexists].
  pose proof (proj1 (Forall_lookup _ _) Hlive i e Hi) as ((b & Hb & He & Hs) & Hlay & _).
  pose proof Hb as [Hal Hin]%elem_of_used. apply list_elem_of_split in Hin as (pre & post & ->).
  destruct b as [a s al]. simpl in Hal, He. subst al.
  destruct (id Hsh) as [(l & Hc & Hl) Hco].
  assert (Hu : used (pre ++ mkBlock a s true :: post) = used pre ++ mkBlock a s true :: used post)
    by by rewrite used_app.
  assert (Ht0 : tiles (heap_start h) (pre ++ mkBlock a s false :: post) (heap_end h)).
  { apply (tiles_replace _ pre [mkBlock a s true] [mkBlock a s false] post); [|apply Hc]. by intros c d. }
  destruct (deallocate_blocks h pre a s post (lv_layout e) Hsh)
    as (h' & bs' & Hr & Hsh' & Hu' & Hst & Hend & Hta' & Hmem); [destruct Hlay; lia|].
  rewrite He, Hr. cbn [mbind option_bind]. eexists. split; [done|]. split; [|done].
  assert (Hp' : lv_ptr <$> delete i live ≡ₚ (λ b, data_ptr (b_addr b)) <$> used bs').
  { apply (Permutation_cons_inv (a := lv_ptr e)). rewrite Hu', fmap_app, Permutation_middle.
    rewrite (delete_Permutation live i e Hi), Hu, fmap_app in Hp. simpl in Hp. by rewrite Hp, He. }
  exists bs'. split; [done|]. split; [done|]. simpl. split.
  - apply Forall_forall. intros e' Hin'.
    assert (live_ok (mem h) (pre ++ mkBlock a s true :: post) e') as Hok.
    { apply (proj1 (Forall_forall _ _) Hlive). rewrite (delete_Permutation live i e Hi). by right. }
    eapply live_ok_mono; [exact Ht0| | |intros x Hx; by apply Hmem].
    2:{ rewrite Hu', used_app. done. }
    destruct Hok as ((b' & Hb' & He' & Hs') & Hlay' & Hd'). split; [|done]. exists b'. split; [|done].
    assert (lv_ptr e' ∈ (λ b, data_ptr (b_addr b)) <$> used bs') as Hin.
    { rewrite <-Hp'. by apply list_elem_of_fmap_2. }
    apply list_elem_of_fmap in Hin as (b2 & He2 & Hb2). rewrite Hu' in Hb2.
    rewrite used_app. change (used (mkBlock a s false :: post)) with (used post).
    assert (b' = b2) as ->; [|done].
    assert (b2 ∈ used (pre ++ mkBlock a s true :: post)) as Hb2u by (rewrite Hu; set_solver).
    apply elem_of_used in Hb' as [_ Hb']. apply elem_of_used in Hb2u as [_ Hb2u].
    apply (same_block _ _ _ _ _ (core_tiles _ _ _ Hc) Hb' Hb2u). rewrite He' in He2. fields. lia.
  - rewrite Hta', Hta. unfold used_bytes. rewrite Hu', Hu, !fmap_app, !foldr_add_app.
    cbn [fmap list_fmap foldr b_size].
    pose proof (core_tiles _ _ _ Hc) as (c & Ht1 & Ht2)%tiles_app.
    destruct Ht2 as (_ & _ & _ & Ht2). apply used_bytes_bound in Ht1, Ht2.
    unfold used_bytes in Ht1, Ht2. unfold sat_sub. lia.
Qed.

Lemma heap_run_inv ops : ∀ st, heap_inv st → Forall op_ok ops →
  ∃ st', heap_run ops st = Some st' ∧ heap_inv st' ∧
    heap_start st'.1 = heap_start st.1 ∧ heap_end st'.1 = heap_end st.1.
Proof.
  induction ops as [|op ops IH]; intros [h live] Hinv Hok; [by eexists|].
  apply Forall_cons in Hok as [Hop Hok].
  assert (∃ st, heap_step op (h, live) = Some st ∧ heap_inv st ∧
    heap_start st.1 = heap_start h ∧ heap_end st.1 = heap_end h) as (st & Hs & Hi & H1 & H2).
  { destruct op; [by apply step_alloc_inv|by apply step_free_inv|by apply step_write_inv]. }
  destruct (IH st Hi Hok) as (st' & Hr & Hi' & H1' & H2'). exists st'. simpl in *. rewrite Hs. simpl.
  split; [done|]. split; [done|]. split; congruence.
Qed.

Definition region_ok (start sz : Z) : Prop :=
  0 < start ∧ start mod 8 = 0 ∧ MIN_BLOCK_SIZE ≤ sz ∧ sz mod 8 = 0 ∧ start + sz < 2 ^ 63.

Lemma init_inv start sz : region_ok start sz →
  heap_inv (init start sz heap_new, []) ∧
  heap_start (init start sz heap_new) = start ∧ heap_end (init start sz heap_new) = start + sz.
Proof.
  intros (H0 & H8 & Hm & Hs & He). split.
  - exists [mkBlock start sz false]. split; [by apply init_shape|]. by split_and!.
  - simpl. rewrite u64_add_small by (fields; lia). done.
Qed.

Lemma reachable_inv start sz ops : region_ok start sz → Forall op_ok ops →
  ∃ h live, heap_run ops (init start sz heap_new, []) = Some (h, live) ∧ heap_inv (h, live) ∧
    heap_start h = start ∧ heap_end h = start + sz.
Proof.
  intros Hr Hok. destruct (init_inv start sz Hr) as (Hi & H1 & H2).
  destruct (heap_run_inv ops _ Hi Hok) as ([h live] & Hrun & Hi' & H1' & H2').
  exists h, live. simpl in *. split; [done|]. split; [done|]. split; congruence.
Qed.

Lemma tiles_cover bs : ∀ a e c, tiles a bs e → a ≤ c < e →
  ∃ pre b post, bs = pre ++ b :: post ∧ b_addr b ≤ c < b_addr b + b_size b.
Proof.
  induction bs as [|b bs IH]; intros a e c; cbn [tiles]; [lia|]. intros (<- & Hm & _ & Ht) Hc.
  destruct (Z.lt_ge_cases c (b_addr b + b_size b)); [exists [], b, bs; split; [done|lia]|].
  destruct (IH _ _ c Ht) as (pre & b' & post & -> & ?); [lia|]. by exists (b :: pre), b', post.
Qed.

(** A stretch that meets no used block lies in one free block. *)
Lemma free_stretch h bs c n : shape h bs → 0 < n → heap_start h ≤ c → c + n ≤ heap_end h →
  (∃ b, b ∈ used bs ∧ b_addr b < c + n ∧ c < b_addr b + b_size b) ∨
  (∃ b, b ∈ bs ∧ b_alloc b = false ∧ n ≤ b_size b).
Proof.
  intros [(l & Hc & _) Hco] Hn Hlo Hhi.
  destruct (tiles_cover _ _ _ c (core_tiles _ _ _ Hc)) as (pre & [a s al] & post & -> & Hin); [lia|].
  simpl in Hin. destruct al; [left; exists (mkBlock a s true); rewrite elem_of_used; simpl; split; [set_solver|lia]|].
  destruct (Z.le_gt_cases (c + n) (a + s)).
  { right. exists (mkBlock a s false). simpl. split; [set_solver|]. split; [done|lia]. }
  pose proof (next_spec h pre a s false post l Hc) as Hnext. destruct post as [|b post]; [lia|].
  destruct Hnext as [Hb _]. left. exists b. apply coalesced_app in Hco as (_ & [[?|Hal] _] & _); [done|].
  destruct (tiles_in _ _ _ b (core_tiles _ _ _ Hc)) as (_ & _ & Hm & _); [set_solver|].
  rewrite elem_of_used. split; [set_solver|]. fields. lia.
Qed.

Lemma used_live h live bs b : lv_ptr <$> live ≡ₚ (λ b, data_ptr (b_addr b)) <$> used bs →
  Forall (live_ok h bs) live → b ∈ used bs → ∃ i e, live !! i = Some e ∧ lv_ptr e = data_ptr (b_addr b).
Proof.
  intros Hp _ Hb. assert (data_ptr (b_addr b) ∈ lv_ptr <$> live) as Hin.
  { rewrite Hp. by apply (list_elem_of_fmap_2 (λ b, data_ptr (b_addr b))). }
  apply list_elem_of_fmap in Hin as (e & He & [i Hi]%list_elem_of_lookup). by exists i, e.
Qed.

(** ** Properties *)

(** [C4] Whatever sequence of allocations, releases and writes the clients make with
    layouts of at most 16 bytes or a multiple of 8, alignment at most 8, every walk of the
    allocator ends, and every live allocation lies inside the heap, is aligned as asked,
    shares no byte with another one, and still holds the bytes its client wrote. *)
Theorem heap_clients_safe (start sz : Z) (ops : list HeapOp) :
  region_ok start sz → Forall op_ok ops →
  ∃ h live, heap_run ops (init start sz heap_new, []) = Some (h, live) ∧
    (∀ i e, live !! i = Some e →
       start ≤ lv_ptr e ∧ lv_ptr e + size (lv_layout e) ≤ start + sz ∧
       lv_ptr e mod align (lv_layout e) = 0 ∧
       load_bytes (Z.to_nat (size (lv_layout e))) (mem h) (lv_ptr e) = lv_data e) ∧
    (∀ i j e e', live !! i = Some e → live !! j = Some e' → i ≠ j →
       lv_ptr e + size (lv_layout e) ≤ lv_ptr e' ∨ lv_ptr e' + size (lv_layout e') ≤ lv_ptr e).
Proof.
  intros Hr Hok. destruct (reachable_inv start sz ops Hr Hok) as (h & live & Hrun & Hinv & H1 & H2).
  exists h, live. split; [done|]. destruct Hinv as (bs & Hsh & Hp & Hlive & _). simpl in *.
  destruct Hsh as [(l & Hc & Hl) _]. pose proof (core_tiles _ _ _ Hc) as Ht.
  pose proof (proj1 (Forall_lookup _ _) Hlive) as Hlv. rewrite H1, H2 in Ht. split.
  - intros i e Hi. destruct (Hlv i e Hi) as ((b & [_ Hb]%elem_of_used & He & Hs) & Hlay & Hd).
    destruct (tiles_in _ _ _ _ Ht Hb) as (? & ? & ? & _).
    pose proof (tiles_mod8 _ _ _ _ Ht (proj1 (proj2 Hr)) Hb) as H8.
    rewrite He. split; [fields; lia|]. split; [fields; lia|]. split; [|by rewrite <-He].
    destruct Hlay as (_ & _ & Hal).
    assert (data_ptr (b_addr b) mod 8 = 0) as H8' by (fields; by rewrite Z.add_mod, H8 by lia).
    destruct Hal as [->|[->|[->| ->]]]; [apply Z.mod_1_r|..|done];
      (rewrite <-(Z.mod_mod_divide _ 8), H8'; [done|]); [by exists 4|by exists 2].
  - intros i j e e' Hi Hj Hne.
    destruct (live_apart _ _ _ _ _ _ _ _ _ Ht Hp Hi Hj Hne (Hlv i e Hi) (Hlv j e' Hj)); fields; lia.
Qed.

(** Nothing is lost to fragmentation between free neighbours: the allocator fails only
    when every stretch of the heap as long as the block it needs meets the block of a live
    allocation, header included. *)
Theorem heap_out_of_memory (start sz c : Z) (ops : list HeapOp) (lay : Layout)
    (h h' : FreeListAllocator) (live : list Live) :
  region_ok start sz → Forall op_ok ops → layout_ok lay →
  heap_run ops (init start sz heap_new, []) = Some (h, live) →
  allocate lay h = Some (h', None) →
  start ≤ c → c + need lay ≤ start + sz →
  h' = h ∧ ∃ i e, live !! i = Some e ∧ lv_ptr e - header_size < c + need lay ∧
    c < lv_ptr e - header_size + block_size (lv_ptr e - header_size) (mem h).
Proof.
  intros Hr Hok Hlay Hrun Hall Hlo Hhi.
  destruct (reachable_inv start sz ops Hr Hok) as (h1 & live1 & Hrun1 & Hinv & H1 & H2).
  rewrite Hrun in Hrun1. injection Hrun1 as <- <-. destruct Hinv as (bs & Hsh & Hp & Hlive & _).
  simpl in *. destruct (need_ok lay Hlay) as (Hn & _).
  destruct (allocate_blocks h bs lay Hsh Hlay)
    as [(pre & a & s & post & h2 & _ & _ & Hr' & _)|[Hr' Hsmall]]; [congruence|].
  split; [congruence|].
  destruct (free_stretch h bs c (need lay) Hsh) as [(b & Hb & ? & ?)|(b & Hb & Hal & ?)];
    [fields; lia|lia|lia| |specialize (Hsmall b Hb Hal); lia].
  destruct (used_live _ _ _ _ Hp Hlive Hb) as (i & e & Hi & He). exists i, e.
  replace (lv_ptr e - header_size) with (b_addr b) by (fields; lia).
  apply elem_of_used in Hb as [_ Hb]. destruct Hsh as [(l & Hc & _) _].
  destruct (core_header _ _ _ _ Hc Hb) as [-> _]. by split_and!.
Qed.

(** When everything that was allocated has been released, the blocks have merged back
    into one: the list has a single block, no byte counts as allocated, and the next
    allocation succeeds at the start of the heap as long as it fits the whole heap. *)
Theorem heap_recovers (start sz : Z) (ops : list HeapOp) (lay : Layout) (h : FreeListAllocator) :
  region_ok start sz → Forall op_ok ops → layout_ok lay → need lay ≤ sz →
  heap_run ops (init start sz heap_new, []) = Some (h, []) →
  total_allocated h = 0 ∧ count_free_blocks h = Some 1 ∧ block_size start (mem h) = sz ∧
  ∃ h', allocate lay h = Some (h', Some (data_ptr start)).
Proof.
  intros Hr Hok Hlay Hfit Hrun.
  destruct (reachable_inv start sz ops Hr Hok) as (h1 & live1 & Hrun1 & Hinv & H1 & H2).
  rewrite Hrun in Hrun1. injection Hrun1 as <- <-. destruct Hinv as (bs & Hsh & Hp & _ & Hta).
  simpl in Hsh, Hp, Hta. symmetry in Hp. apply Permutation_nil_r, fmap_nil_inv in Hp.
  assert (Hbs : bs = [mkBlock start sz false]).
  { destruct Hsh as [(l & Hc & _) Hco]. pose proof (core_tiles _ _ _ Hc) as Ht. rewrite H1, H2 in Ht.
    destruct bs as [|[a s al] [|b2 bs]]; simpl in Ht.
    - destruct Hr as (_ & _ & ? & _). fields. lia.
    - destruct Ht as (-> & _ & _ & ?). rewrite used_cons in Hp. destruct al; [done|].
      f_equal. f_equal. lia.
    - rewrite !used_cons in Hp. simpl in Hp, Hco. destruct Hco as [Hco _].
      destruct al; [done|]. destruct (b_alloc b2); [done|]. by destruct Hco. }
  subst bs. split; [exact Hta|]. destruct (id Hsh) as [(l & Hc & Hl) _].
  apply Permutation_singleton_r in Hl. subst l.
  destruct (core_header _ _ _ (mkBlock start sz false) Hc) as [Hsz _]; [set_solver|].
  split; [|split; [done|]].
  - destruct (core_list _ _ _ Hc) as [last Hd]. cbn [dls b_addr] in Hd. destruct Hd as (Hf & _ & _ & Hnx). rewrite Hf in Hnx.
    unfold count_free_blocks, walk_fuel. rewrite Hf. cbn [count_free].
    rewrite (proj2 (Z.eqb_neq (data_ptr start) 0)) by (destruct Hr; fields; lia).
    by rewrite <-Hnx.
  - destruct (allocate_blocks h _ lay Hsh Hlay)
      as [(pre & a & s & post & h2 & Heq & _ & Hr' & _)|[_ Hsmall]].
    + exists h2. rewrite Hr'. destruct pre as [|b pre]; [by injection Heq as <-|].
      by destruct pre.
    + specialize (Hsmall (mkBlock start sz false) ltac:(set_solver) eq_refl). simpl in Hsmall. lia.
Qed.

Lemma heap_clients_safe_witness :
  let ops := [HAlloc (mkLayout 16 8); HAlloc (mkLayout 40 4); HWrite 1 3 77; HFree 0;
              HAlloc (mkLayout 8 8)] in
  region_ok 4096 1024 ∧ Forall op_ok ops ∧
  (∃ h live, heap_run ops (init 4096 1024 heap_new, []) = Some (h, live) ∧
    (∀ i e, live !! i = Some e →
       4096 ≤ lv_ptr e ∧ lv_ptr e + size (lv_layout e) ≤ 4096 + 1024 ∧
       lv_ptr e mod align (lv_layout e) = 0 ∧
       load_bytes (Z.to_nat (size (lv_layout e))) (mem h) (lv_ptr e) = lv_data e) ∧
    (∀ i j e e', live !! i = Some e → live !! j = Some e' → i ≠ j →
       lv_ptr e + size (lv_layout e) ≤ lv_ptr e' ∨ lv_ptr e' + size (lv_layout e') ≤ lv_ptr e)) ∧
  lv_ptr <$> default [] (snd <$> heap_run ops (init 4096 1024 heap_new, [])) = [4128; 4104].
Proof.
  intros ops. assert (region_ok 4096 1024) as Hr by (unfold region_ok; fields; split_and!; reflexivity || lia).
  assert (Forall op_ok ops) as Hok.
  { repeat constructor; unfold layout_ok; simpl; split_and!; lia || (left; lia) || auto. }
  split; [done|]. split; [done|]. split; [|vm_compute; reflexivity].
  exact (heap_clients_safe 4096 1024 ops Hr Hok).
Defined.

Lemma heap_out_of_memory_witness :
  let ops := [HAlloc (mkLayout 16 8); HAlloc (mkLayout 40 8)] in
  let st := default (heap_new, []) (heap_run ops (init 4096 72 heap_new, [])) in
  allocate (mkLayout 24 8) st.1 = Some (st.1, None) ∧
  st.1 = st.1 ∧ ∃ i e, st.2 !! i = Some e ∧ lv_ptr e - header_size < 4120 + need (mkLayout 24 8) ∧
    4120 < lv_ptr e - header_size + block_size (lv_ptr e - header_size) (mem st.1).
Proof.
  intros ops st. assert (allocate (mkLayout 24 8) st.1 = Some (st.1, None)) as Ha by (vm_compute; reflexivity).
  split; [done|].
  apply (heap_out_of_memory 4096 72 4120 ops (mkLayout 24 8) st.1 st.1 st.2).
  - unfold region_ok. fields. split_and!; reflexivity || lia.
  - repeat constructor; unfold layout_ok; simpl; split_and!; lia || (left; lia) || auto.
  - unfold layout_ok. simpl. split_and!; lia || auto.
  - vm_compute. reflexivity.
  - exact Ha.
  - lia.
  - unfold need. fields. simpl. lia.
Defined.

Lemma heap_recovers_witness :
  let ops := [HAlloc (mkLayout 16 8); HAlloc (mkLayout 40 8); HAlloc (mkLayout 8 8); HFree 1; HFree 0; HFree 0] in
  let h := (default (heap_new, []) (heap_run ops (init 4096 1024 heap_new, []))).1 in
  total_allocated h = 0 ∧ count_free_blocks h = Some 1 ∧ block_size 4096 (mem h) = 1024 ∧
  ∃ h', allocate (mkLayout 1016 8) h = Some (h', Some 4104).
Proof.
  intros ops h. apply (heap_recovers 4096 1024 ops (mkLayout 1016 8) h).
  - unfold region_ok. fields. split_and!; reflexivity || lia.
  - repeat constructor; unfold layout_ok; simpl; split_and!; lia || (left; lia) || auto.
  - unfold layout_ok. simpl. split_and!; lia || auto.
  - unfold need. fields. simpl. lia.
  - vm_compute. reflexivity.
Defined.

(** Two requests the allocator accepts and mishandles, on a heap of 1024 bytes. A
    request of 17 bytes makes a block of odd size, whose low bit is then read as the
    allocated flag; after its release the only free block claims 255512 bytes, and a
    request of 100000 bytes is granted. A request aligned to 16 returns a padded pointer,
    for which the release finds no header and frees nothing. *)
Theorem heap_mishandled_layouts :
  let h0 := init 4096 1024 heap_new in
  (r ← allocate (mkLayout 17 1) h0;
   h ← deallocate 4104 (mkLayout 17 1) r.1;
   r' ← allocate (mkLayout 100000 8) h;
   Some (r.2, block_size (node_to_header (free_list h)) (mem h), r'.2, heap_end r'.1))
  = Some (Some 4104, 255512, Some 4104, 5120) ∧
  (r ← allocate (mkLayout 16 16) h0;
   h ← deallocate 4112 (mkLayout 16 16) r.1;
   Some (r.2, total_allocated h, deallocation_count h))
  = Some (Some 4112, 32, 0).
Proof. split; vm_compute; reflexivity. Qed.
