(* ===== verification/MemMgr.v ===== *)
(** * MemMgr: the memory manager, the global allocator and the bump allocator
    ([kernel/src/mm/mod.rs])

    [MemoryManager] keeps a byte budget over the frame allocator ([Frames]); the global
    allocator of the kernel runs [FreeListAllocator] ([Heap]) and initialises it on first
    use; [BumpAllocator] advances an atomic pointer by compare-and-swap, modelled as the
    atomic steps of any number of threads. *)

From Stdlib Require Import ZArith Lia.
From stdpp Require Import gmap.
From S2P Require Import Prelude.
From S2P Require Import Frames.
From S2P Require Import Ids.
From S2P Require Import Mem.
From S2P Require Import Heap.

(** ** The memory manager *)

Definition KERNEL_HEAP_SIZE : Z := 8 * 1024 * 1024.

Inductive MemoryRegionType := KernelHeap | UserHeap | DeviceMemory | SharedMemory | DmaMemory.

#[global] Instance MemoryRegionType_eq_dec : EqDecision MemoryRegionType.
Proof. solve_decision. Defined.

Record MemoryConfig := mkConfig {
  kernel_heap_size : Z; max_regions : Z; page_size : Z
}.
Definition config_default : MemoryConfig := mkConfig (16 * 1024 * 1024) 1024 4096.

Record MemoryRegion := mkRegion {
  base : Z; region_size : Z; region_type : MemoryRegionType; allocated : bool
}.

Inductive MemoryError :=
| OutOfMemory | InvalidAddress | InvalidAlignment | PermissionDenied | AlreadyAllocated.

Record MemoryManager := mkMM { config : MemoryConfig; mm_total : Z; used_memory : Z }.

(** [new], less the heap initialisation, which is [init_heap] below. *)
Definition mm_new (c : MemoryConfig) : MemoryManager := mkMM c KERNEL_HEAP_SIZE 0.

Definition mm_init (memory_map : list MemoryRegion) (m : MemoryManager) : MemoryManager :=
  foldl (λ m r, if decide (region_type r = KernelHeap)
                then mkMM (config m) (u64_add (mm_total m) (region_size r)) (used_memory m)
                else m) m memory_map.

(** The size in whole pages. *)
Definition aligned_size (sz : Z) : Z :=
  Z.land (u64_sub (u64_add sz PAGE_SIZE) 1) (u64_not (PAGE_SIZE - 1)).

(** The manager and the frame allocator it draws from. *)
Definition mm_allocate (sz : Z) : op (MemoryManager * FrameAllocator) MemoryError Z := λ '(m, fa),
  let aligned := aligned_size sz in
  if mm_total m <? u64_add (used_memory m) aligned then (m, fa, Err OutOfMemory)
  else
    match allocate_contiguous (aligned / PAGE_SIZE) fa with
    | (fa, Ok frame) =>
        (mkMM (config m) (mm_total m) (u64_add (used_memory m) aligned), fa, Ok (address frame))
    | (fa, Err _) => (m, fa, Err OutOfMemory)
    end.

Definition mm_free (addr sz : Z) : op (MemoryManager * FrameAllocator) MemoryError unit := λ '(m, fa),
  if addr =? 0 then (m, fa, Err InvalidAddress)
  else
    let aligned := aligned_size sz in
    (mkMM (config m) (mm_total m) (sat_sub (used_memory m) aligned),
     free_contiguous (from_address addr) (aligned / PAGE_SIZE) fa, Ok tt).

Record MemoryStats := mkMemStats { ms_total : Z; ms_used : Z; ms_free : Z }.
Definition mm_stats (m : MemoryManager) : MemoryStats :=
  mkMemStats (mm_total m) (used_memory m) (sat_sub (mm_total m) (used_memory m)).

(** ** The global allocator *)

Section global.
  (** The address of [HEAP_MEMORY], which the linker chooses. *)
Context (heap_base : Z).

(** [ALLOCATOR_INITIALIZED] and [FREE_LIST_ALLOCATOR]. *)
Record Kernel := mkKernel { initialized : bool; allocator : FreeListAllocator }.

Definition init_heap (k : Kernel) : Kernel :=
  if initialized k then k else mkKernel true (Heap.init heap_base KERNEL_HEAP_SIZE (allocator k)).

Definition heap_stats (k : Kernel) : option AllocatorStats := Heap.stats (allocator k).

(** [alloc]: 0 is the null pointer. *)
Definition kernel_alloc (layout : Layout) (k : Kernel) : option (Kernel * Z) :=
  if size layout =? 0 then Some (k, align layout)
  else
    let k := init_heap k in
    '(h, result) ← Heap.allocate layout (allocator k);
    Some (mkKernel (initialized k) h, default 0 result).

Definition kernel_dealloc (ptr : Z) (layout : Layout) (k : Kernel) : option Kernel :=
  if (ptr =? 0) || (size layout =? 0) then Some k
  else h ← Heap.deallocate ptr layout (allocator k); Some (mkKernel (initialized k) h).
End global.

(** ** The bump allocator *)

Record BumpAllocator := mkBump {
  bump_start : Z; bump_end : Z; next : Z; allocations : Z
}.
Definition bump_new : BumpAllocator := mkBump 0 0 0 0.
Definition bump_init (start sz : Z) (b : BumpAllocator) : BumpAllocator :=
  mkBump start (u64_add start sz) start (allocations b).

(** What a call of [allocate] computes from the pointer it loaded. *)
Definition bump_place (layout : Layout) (current : Z) (b : BumpAllocator) : option (Z * Z) :=
  let alloc_start := align_up current (align layout) in
  if 2 ^ 64 <=? alloc_start + size layout then None
  else let alloc_end := alloc_start + size layout in
       if bump_end b <? alloc_end then None else Some (alloc_start, alloc_end).

(** The state of a call: before its load, or with the value it loaded; then its result. *)
Inductive BumpCall := BStart (l : Layout) | BLoaded (l : Layout) (current : Z) | BDone (l : Layout) (r : option Z).

(** One atomic step of a call; [spurious] is a weak exchange that fails for no reason. *)
Definition bump_step (spurious : bool) (c : BumpCall) (b : BumpAllocator) : BumpCall * BumpAllocator :=
  match c with
  | BStart l =>
      if size l =? 0 then (BDone l (Some (align l)), b)
      else if bump_start b =? 0 then (BDone l None, b)
      else (BLoaded l (next b), b)
  | BLoaded l current =>
      match bump_place l current b with
      | None => (BDone l None, b)
      | Some (alloc_start, alloc_end) =>
          if (next b =? current) && negb spurious
          then (BDone l (Some alloc_start),
                mkBump (bump_start b) (bump_end b) alloc_end (u64_add (allocations b) 1))
          else (BStart l, b)
      end
  | BDone l r => (c, b)
  end.

Definition bump_stats (b : BumpAllocator) : Z * Z * Z :=
  let used := sat_sub (next b) (bump_start b) in
  let total := sat_sub (bump_end b) (bump_start b) in
  (used, sat_sub total used, allocations b).

(** Calls in progress, and a schedule of which one steps. *)
Fixpoint bump_run (sched : list (nat * bool)) (st : list BumpCall * BumpAllocator) :
    list BumpCall * BumpAllocator :=
  match sched with
  | [] => st
  | (i, spurious) :: sched =>
      bump_run sched
        (match st.1 !! i with
         | Some c => let '(c, b) := bump_step spurious c st.2 in (<[i := c]> st.1, b)
         | None => st
         end)
  end.

(** ** The budget of the memory manager *)

Inductive mm_op := MAlloc (sz : Z) | MFree (i : nat).

(** The clients remember the address and size of what they hold. *)
Definition mm_step (o : mm_op) (st : MemoryManager * FrameAllocator * list (Z * Z)) :
    MemoryManager * FrameAllocator * list (Z * Z) :=
  let '(s, live) := st in
  match o with
  | MAlloc sz => match mm_allocate sz s with
                 | (s, Ok a) => (s, (a, sz) :: live)
                 | (s, Err _) => (s, live)
                 end
  | MFree i => match live !! i with
               | Some (a, sz) => match mm_free a sz s with
                                 | (s, Ok _) => (s, delete i live)
                                 | (s, Err _) => (s, live)
                                 end
               | None => (s, live)
               end
  end.

Definition mm_run (ops : list mm_op) (st : MemoryManager * FrameAllocator * list (Z * Z)) :=
  foldl (λ st o, mm_step o st) st ops.

Definition op_u64 (o : mm_op) : Prop := match o with MAlloc sz => is_u64 sz | MFree _ => True end.

Lemma aligned_size_spec sz : is_u64 sz →
  is_u64 (aligned_size sz) ∧ aligned_size sz mod PAGE_SIZE = 0 ∧
  (aligned_size sz ≤ MAX_FRAMES * PAGE_SIZE → aligned_size sz ≠ 0 → sz ≤ aligned_size sz < sz + PAGE_SIZE).
Proof.
  intros Hsz. unfold aligned_size. set (v := u64_sub (u64_add sz PAGE_SIZE) 1).
  assert (is_u64 v) as Hv by (apply Z.mod_pos_bound; lia).
  change (PAGE_SIZE - 1) with (Z.ones 12). rewrite land_not_ones by (done || lia).
  change (2 ^ 12) with PAGE_SIZE. pose proof (Z.mod_pos_bound v PAGE_SIZE ltac:(done)) as Hb.
  pose proof (Z.mod_le v PAGE_SIZE ltac:(unfold is_u64 in Hv; lia) ltac:(done)).
  split; [unfold is_u64 in *; lia|]. split.
  { rewrite Zminus_mod, Z.mod_mod, Z.sub_diag by done. done. }
  rewrite MAX_FRAMES_val. unfold PAGE_SIZE in *. unfold is_u64 in *. intros Hle Hne.
  assert (v = sz + 4095 ∨ v = sz + 4095 - 2 ^ 64) as [Hv'|Hv'].
  { assert (v = (sz + 4095) mod 2 ^ 64) as ->.
    { subst v. unfold u64_sub, u64_add, u64, wrap. rewrite Zminus_mod_idemp_l. f_equal. lia. }
    destruct (Z.lt_ge_cases (sz + 4095) (2 ^ 64)); [left; apply Z.mod_small; lia|right].
    symmetry. apply Z.mod_unique with 1; lia. }
  - lia.
  - exfalso. apply Hne. rewrite Z.mod_small; lia.
Qed.

(** The frames behind a holding. *)
Definition frames_of (r : Z * Z) : Z * Z := (r.1 / PAGE_SIZE, aligned_size r.2 / PAGE_SIZE).

Definition held_bytes (live : list (Z * Z)) : Z := foldr Z.add 0 ((λ r, aligned_size r.2) <$> live).

Record mm_inv (total : Z) (st : MemoryManager * FrameAllocator * list (Z * Z)) : Prop := {
  mi_ledger : ledger_inv (st.1.2, frames_of <$> st.2);
  mi_pages : Forall (λ r, r.1 mod PAGE_SIZE = 0 ∧ is_u64 r.2 ∧ r.2 ≤ aligned_size r.2) st.2;
  mi_total : mm_total st.1.1 = total;
  mi_used : used_memory st.1.1 = held_bytes st.2;
  mi_budget : 0 ≤ held_bytes st.2 ≤ total
}.

Lemma held_bytes_cons r live : held_bytes (r :: live) = aligned_size r.2 + held_bytes live.
Proof. done. Qed.

Lemma held_bytes_delete live : ∀ i r, live !! i = Some r →
  held_bytes live = aligned_size r.2 + held_bytes (delete i live).
Proof.
  induction live as [|r' live IH]; intros [|i] r Hi; [done|done|by injection Hi as ->|].
  change (delete (S i) (r' :: live)) with (r' :: delete i live).
  rewrite !held_bytes_cons, (IH i r Hi). lia.
Qed.

Lemma held_bytes_nonneg live : Forall (λ r, is_u64 r.2) live → 0 ≤ held_bytes live.
Proof.
  induction 1 as [|r live Hr _ IH]; [done|].
  rewrite held_bytes_cons. destruct (aligned_size_spec r.2 Hr) as ((? & _) & _). lia.
Qed.

Lemma aligned_frames sz : is_u64 sz → aligned_size sz = aligned_size sz / PAGE_SIZE * PAGE_SIZE.
Proof.
  intros Hsz. destruct (aligned_size_spec sz Hsz) as (_ & H & _).
  rewrite Z.mul_comm. by apply Z_div_exact_2.
Qed.

Lemma mm_step_inv o total st : total < 2 ^ 63 → op_u64 o → mm_inv total st → mm_inv total (mm_step o st).
Proof.
  intros Ht Ho [Hl Hp Htot Hu Hb]. destruct st as [[m fa] live]. simpl in *. destruct o as [sz|i]; simpl in *.
  - destruct (aligned_size_spec sz Ho) as (Ha & Ha0 & Hsz). pose proof (aligned_frames sz Ho) as Hfr.
    destruct (mm_total m <? u64_add (used_memory m) (aligned_size sz)) eqn:Hlt; [by split|].
    apply Z.ltb_ge in Hlt. set (c := aligned_size sz / PAGE_SIZE) in *.
    assert (0 ≤ c) as Hc by (apply Z.div_pos; [apply Ha|done]).
    pose proof (ledger_step_inv (Acquire c) _ Hc Hl) as Hstep. cbn [ledger_step] in Hstep.
    destruct (decide (c = 0)) as [Hc0|Hc0].
    { unfold allocate_contiguous in *. rewrite Hc0 in *. by split. }
    pose proof (allocate_contiguous_spec fa c (li_wf _ Hl) ltac:(lia)) as Hspec.
    destruct (allocate_contiguous c fa) as [fa' [[f]|e]].
    2:{ destruct Hspec as (-> & _). by split. }
    destruct Hspec as ((Hf0 & Hfm & _) & _). cbn [frame_raw] in Hstep. pose proof MAX_FRAMES_val as Hmax.
    assert (aligned_size sz ≤ MAX_FRAMES * PAGE_SIZE) as Hsmall by (rewrite Hfr; unfold PAGE_SIZE; lia).
    assert (aligned_size sz ≠ 0) as Hne by (rewrite Hfr; unfold PAGE_SIZE; lia).
    destruct (Hsz Hsmall Hne) as [Hcov _].
    assert (address (mkFrame f) = f * PAGE_SIZE) as Haddr.
    { unfold address, u64_mul. apply u64_small. simpl. unfold is_u64, PAGE_SIZE. lia. }
    rewrite Hmax in Hsmall. unfold PAGE_SIZE in Hsmall.
    destruct Ha as [Ha _]. rewrite u64_add_small in Hlt |- * by lia. rewrite Haddr. split; simpl.
    + unfold frames_of at 1. simpl. rewrite Z.div_mul by done. exact Hstep.
    + constructor; [|done]. simpl. split; [by apply Z.mod_mul|done].
    + done.
    + rewrite Hu, held_bytes_cons. simpl. lia.
    + rewrite held_bytes_cons. simpl. lia.
  - destruct (live !! i) as [[a sz]|] eqn:Hi; [|by split].
    unfold mm_free. destruct (a =? 0); [by split|]. simpl.
    pose proof (ledger_step_inv (Release i) _ I Hl) as Hstep. cbn [ledger_step] in Hstep.
    rewrite list_lookup_fmap, Hi in Hstep. simpl in Hstep.
    destruct (proj1 (Forall_lookup _ _) Hp i _ Hi) as (_ & Hsz & _). simpl in Hsz.
    destruct (aligned_size_spec sz Hsz) as ((Ha & _) & _).
    pose proof (held_bytes_delete live i _ Hi) as Hsum. simpl in Hsum.
    assert (0 ≤ held_bytes (delete i live)).
    { apply held_bytes_nonneg, Forall_delete. eapply Forall_impl; [exact Hp|]. by intros r (_ & ? & _). }
    split; simpl.
    + unfold from_address. rewrite <-list_fmap_delete in Hstep. exact Hstep.
    + by apply Forall_delete.
    + done.
    + rewrite Hu, Hsum. unfold sat_sub. lia.
    + lia.
Qed.

(** No overcommit: from an empty manager, whatever sizes are requested (any 64-bit
    value, so also those for which the rounding or the budget sum wraps) and whatever
    holdings are freed, the bytes in use are exactly the page-rounded sizes of the live
    allocations and never exceed the total; every allocation is page aligned, covers its
    size, lies in physical memory, and overlaps no other one. *)
Theorem mm_no_overcommit (m : MemoryManager) (fa : FrameAllocator) (ops : list mm_op) :
  fa_wf fa → used_memory m = 0 → 0 ≤ mm_total m < 2 ^ 63 → Forall op_u64 ops →
  let '(m', fa', live) := mm_run ops (m, fa, []) in
  mm_total m' = mm_total m ∧ used_memory m' = held_bytes live ∧ used_memory m' ≤ mm_total m ∧
  (∀ i a sz, live !! i = Some (a, sz) →
     a mod PAGE_SIZE = 0 ∧ 0 ≤ a ∧ sz ≤ aligned_size sz ∧
     a + aligned_size sz ≤ MAX_PHYSICAL_MEMORY) ∧
  (∀ i j a sz a' sz', live !! i = Some (a, sz) → live !! j = Some (a', sz') → i ≠ j →
     a + aligned_size sz ≤ a' ∨ a' + aligned_size sz' ≤ a).
Proof.
  intros Hwf Hu [Ht0 Ht] Hops.
  assert (∀ st, mm_inv (mm_total m) st → mm_inv (mm_total m) (mm_run ops st)) as Hrun.
  { unfold mm_run. induction Hops as [|o ops Ho _ IH]; intros st Hst; [done|].
    simpl. apply IH. by apply mm_step_inv. }
  assert (mm_inv (mm_total m) (m, fa, [])) as H0.
  { split; simpl; [split; simpl; [done|constructor|done]|constructor|done|done|done]. }
  apply Hrun in H0 as [Hl Hp Htot Hus Hb]. destruct (mm_run ops (m, fa, [])) as [[m' fa'] live].
  simpl in *.
  assert (∀ i a sz, live !! i = Some (a, sz) → a = a / PAGE_SIZE * PAGE_SIZE ∧
    aligned_size sz = aligned_size sz / PAGE_SIZE * PAGE_SIZE) as Hpg.
  { intros i a sz Hi. destruct (proj1 (Forall_lookup _ _) Hp i _ Hi) as (Ha & Hsz & _). simpl in Ha, Hsz.
    split; [|by apply aligned_frames]. rewrite Z.mul_comm. by apply Z_div_exact_2. }
  split; [done|]. split; [done|]. split; [lia|]. split.
  - intros i a sz Hi. destruct (proj1 (Forall_lookup _ _) Hp i _ Hi) as (Ha & Hsz & Hcov).
    assert ((frames_of <$> live) !! i = Some (frames_of (a, sz))) as Hi'
      by by rewrite list_lookup_fmap, Hi.
    destruct (proj1 (Forall_lookup _ _) (li_used _ Hl) i _ Hi') as (H0 & _ & Hm & _). simpl in *.
    destruct (Hpg i a sz Hi) as [Ha' Hs']. rewrite MAX_FRAMES_val in Hm.
    change MAX_PHYSICAL_MEMORY with (4194304 * 4096). unfold PAGE_SIZE in *. lia.
  - intros i j a sz a' sz' Hi Hj Hne. destruct (Hpg i a sz Hi) as [Ha1 Hs1], (Hpg j a' sz' Hj) as [Ha2 Hs2].
    destruct (li_disj _ Hl i j (frames_of (a, sz)) (frames_of (a', sz'))) as [H|H];
      [done|simpl; by rewrite list_lookup_fmap, Hi|simpl; by rewrite list_lookup_fmap, Hj| |];
      simpl in H; unfold PAGE_SIZE in *; lia.
Qed.

Lemma mm_no_overcommit_witness :
  let fa := add_region (0 * PAGE_SIZE) (4 * PAGE_SIZE) Frames.new in
  let m := mm_new config_default in
  let ops := [MAlloc 5000; MAlloc (2 ^ 64 - 1); MFree 0; MAlloc 1] in
  fa_wf fa ∧
  let '(m', fa', live) := mm_run ops (m, fa, []) in
  mm_total m' = mm_total m ∧ used_memory m' = held_bytes live ∧ used_memory m' ≤ mm_total m ∧
  (∀ i a sz, live !! i = Some (a, sz) →
     a mod PAGE_SIZE = 0 ∧ 0 ≤ a ∧ sz ≤ aligned_size sz ∧
     a + aligned_size sz ≤ MAX_PHYSICAL_MEMORY) ∧
  (∀ i j a sz a' sz', live !! i = Some (a, sz) → live !! j = Some (a', sz') → i ≠ j →
     a + aligned_size sz ≤ a' ∨ a' + aligned_size sz' ≤ a).
Proof.
  intros fa m ops. split; [apply region4_wf|].
  apply (mm_no_overcommit m fa ops region4_wf eq_refl).
  - unfold m, mm_new, KERNEL_HEAP_SIZE. simpl. lia.
  - repeat constructor; unfold is_u64; simpl; lia.
Defined.

(** ** The bump allocator under interleaving *)

(** What the calls that returned own. *)
Definition bump_owned (c : BumpCall) : option (Z * Z) :=
  match c with
  | BDone l (Some p) => if size l =? 0 then None else Some (p, size l)
  | _ => None
  end.

(** Layouts as Rust builds them, here with alignments up to a page. *)
Definition bump_layout (c : BumpCall) : Layout :=
  match c with BStart l | BLoaded l _ | BDone l _ => l end.
Definition bump_layout_ok (l : Layout) : Prop :=
  0 ≤ size l < 2 ^ 63 ∧ ∃ k, 0 ≤ k ≤ 12 ∧ align l = 2 ^ k.

Record bump_inv (start end_ : Z) (st : list BumpCall * BumpAllocator) : Prop := {
  bi_bounds : bump_start st.2 = start ∧ bump_end st.2 = end_ ∧ start ≤ next st.2 ≤ end_;
  bi_layouts : Forall (λ c, bump_layout_ok (bump_layout c)) st.1;
  bi_owned : ∀ i c p n, st.1 !! i = Some c → bump_owned c = Some (p, n) →
    start ≤ p ∧ p + n ≤ next st.2 ∧ p mod align (bump_layout c) = 0;
  bi_apart : ∀ i j c c' p n p' n', i ≠ j → st.1 !! i = Some c → st.1 !! j = Some c' →
    bump_owned c = Some (p, n) → bump_owned c' = Some (p', n') → p + n ≤ p' ∨ p' + n' ≤ p
}.

Lemma align_up_bounds v k : 0 ≤ k ≤ 12 → 0 ≤ v < 2 ^ 63 →
  v ≤ align_up v (2 ^ k) ∧ align_up v (2 ^ k) mod 2 ^ k = 0.
Proof.
  intros Hk Hv. rewrite align_up_spec by done. assert (0 < 2 ^ k) by (apply Z.pow_pos_nonneg; lia).
  pose proof (Z.mod_pos_bound (v + 2 ^ k - 1) (2 ^ k) ltac:(lia)). split; [lia|].
  by rewrite Zminus_mod, Z.mod_mod, Z.sub_diag by lia.
Qed.

(** A call that takes no memory changes nothing that matters. *)
Lemma bump_inv_neutral start end_ calls b i c c' : bump_inv start end_ (calls, b) →
  calls !! i = Some c → bump_owned c' = None → bump_layout c' = bump_layout c →
  bump_inv start end_ (<[i := c']> calls, b).
Proof.
  intros [Hb Hl Ho Ha] Hi Hn Hlay. simpl in *.
  assert (∀ j d p n, <[i := c']> calls !! j = Some d → bump_owned d = Some (p, n) → calls !! j = Some d) as Hold.
  { intros j d p n Hj Hd. destruct (decide (i = j)) as [<-|]; [|by rewrite list_lookup_insert_ne in Hj].
    rewrite list_lookup_insert_eq in Hj by (by eapply lookup_lt_Some). congruence. }
  split; simpl; [done| |eauto|eauto].
  apply Forall_insert; [done|]. rewrite Hlay. by apply (proj1 (Forall_lookup _ _) Hl i).
Qed.

Lemma bump_step_inv start end_ calls b i c sp : 0 < start → end_ < 2 ^ 63 →
  bump_inv start end_ (calls, b) → calls !! i = Some c →
  let '(c', b') := bump_step sp c b in bump_inv start end_ (<[i := c']> calls, b').
Proof.
  intros Hst Hend Hinv Hi. pose proof Hinv as [(Hbs & Hbe & Hnx) Hl Ho Ha]. simpl in *.
  pose proof (proj1 (Forall_lookup _ _) Hl i c Hi) as Hlay.
  destruct c as [l|l cur|l r]; simpl.
  - destruct (size l =? 0) eqn:Hz; [by eapply bump_inv_neutral; [..|simpl; by rewrite Hz|]|].
    destruct (bump_start b =? 0); by eapply bump_inv_neutral.
  - destruct (bump_place l cur b) as [[s e]|] eqn:Hp; [|by eapply bump_inv_neutral].
    destruct ((next b =? cur) && negb sp) eqn:Hc; [|by eapply bump_inv_neutral].
    apply andb_true_iff in Hc as [<-%Z.eqb_eq _]. unfold bump_place in Hp.
    destruct (2 ^ 64 <=? _); [done|]. destruct (Z.ltb_spec (bump_end b) (align_up (next b) (align l) + size l)); [done|].
    injection Hp as <- <-. destruct Hlay as (Hsz & k & Hk & Hal). simpl in Hal, Hsz.
    destruct (align_up_bounds (next b) k Hk ltac:(lia)) as [Hge Hmod]. rewrite <-Hal in Hge, Hmod.
    set (s := align_up (next b) (align l)) in *.
    assert (∀ j d p n, <[i := BDone l (Some s)]> calls !! j = Some d → bump_owned d = Some (p, n) →
      (j = i ∧ d = BDone l (Some s) ∧ p = s ∧ n = size l) ∨ (j ≠ i ∧ calls !! j = Some d)) as Hcase.
    { intros j d p n Hj Hd. destruct (decide (i = j)) as [<-|Hne].
      - rewrite list_lookup_insert_eq in Hj by (by eapply lookup_lt_Some). injection Hj as <-.
        simpl in Hd. destruct (size l =? 0); [done|]. injection Hd as <- <-. by left.
      - rewrite list_lookup_insert_ne in Hj by done. by right. }
    split; simpl.
    + split; [done|]. split; [done|]. lia.
    + apply Forall_insert; [done|]. split; [done|]. by exists k.
    + intros j d p n Hj Hd. destruct (Hcase j d p n Hj Hd) as [(-> & -> & -> & ->)|[Hne Hj']].
      * split; [lia|]. split; [lia|done].
      * destruct (Ho j d p n Hj' Hd) as (? & ? & ?). split; [done|]. split; [lia|done].
    + intros j j' d d' p n p' n' Hne Hj Hj' Hd Hd'.
      destruct (Hcase j d p n Hj Hd) as [(-> & -> & -> & ->)|[Hj1 Hj2]],
        (Hcase j' d' p' n' Hj' Hd') as [(-> & -> & -> & ->)|[Hj1' Hj2']]; [done|..].
      * right. destruct (Ho j' d' p' n' Hj2' Hd') as (_ & ? & _). lia.
      * left. destruct (Ho j d p n Hj2 Hd) as (_ & ? & _). lia.
      * by eapply (Ha j j').
  - rewrite list_insert_id by done. done.
Qed.

(** Whatever the interleaving of the loads and the exchanges of any number of
    concurrent [allocate] calls, spurious failures included, the ranges they return lie in
    the heap, are aligned as asked, and are pairwise disjoint. *)
Theorem bump_concurrent (start sz : Z) (layouts : list Layout) (sched : list (nat * bool)) :
  0 < start → 0 ≤ sz → start + sz < 2 ^ 63 → Forall bump_layout_ok layouts →
  let '(calls, b) := bump_run sched (BStart <$> layouts, bump_init start sz bump_new) in
  (∀ i c p n, calls !! i = Some c → bump_owned c = Some (p, n) →
     start ≤ p ∧ p + n ≤ start + sz ∧ p mod align (bump_layout c) = 0) ∧
  (∀ i j c c' p n p' n', i ≠ j → calls !! i = Some c → calls !! j = Some c' →
     bump_owned c = Some (p, n) → bump_owned c' = Some (p', n') → p + n ≤ p' ∨ p' + n' ≤ p).
Proof.
  intros Hst Hsz Hend Hl.
  assert (∀ sched st, bump_inv start (start + sz) st → bump_inv start (start + sz) (bump_run sched st)) as Hrun.
  { clear sched. induction sched as [|[i sp] sched IH]; intros [calls b] Hi; [done|]. simpl. apply IH.
    destruct (calls !! i) as [c|] eqn:Hc; [|done].
    pose proof (bump_step_inv _ _ _ _ _ _ sp Hst Hend Hi Hc) as Hs. by destruct (bump_step sp c b). }
  assert (bump_inv start (start + sz) (BStart <$> layouts, bump_init start sz bump_new)) as H0.
  { split; simpl.
    - rewrite u64_add_small by lia. lia.
    - apply Forall_fmap. exact Hl.
    - intros i c p n (l & -> & _)%list_lookup_fmap_Some. done.
    - intros i j c c' p n p' n' _ (l & -> & _)%list_lookup_fmap_Some. done. }
  apply (Hrun sched) in H0. destruct (bump_run sched _) as [calls b]. destruct H0 as [Hb _ Ho Ha].
  simpl in *. split; [|exact Ha]. intros i c p n Hc Hp. destruct (Ho i c p n Hc Hp) as (? & ? & ?).
  split; [done|]. split; [lia|done].
Qed.

Lemma bump_concurrent_witness :
  let layouts := [mkLayout 10 1; mkLayout 16 8] in
  let sched := [(0, false); (1, false); (1, false); (0, false); (0, false); (0, false)]%nat in
  let '(calls, b) := bump_run sched (BStart <$> layouts, bump_init 4096 64 bump_new) in
  calls = [BDone (mkLayout 10 1) (Some 4112); BDone (mkLayout 16 8) (Some 4096)] ∧
  (∀ i c p n, calls !! i = Some c → bump_owned c = Some (p, n) →
     4096 ≤ p ∧ p + n ≤ 4096 + 64 ∧ p mod align (bump_layout c) = 0) ∧
  (∀ i j c c' p n p' n', i ≠ j → calls !! i = Some c → calls !! j = Some c' →
     bump_owned c = Some (p, n) → bump_owned c' = Some (p', n') → p + n ≤ p' ∨ p' + n' ≤ p).
Proof.
  intros layouts sched.
  assert (Forall bump_layout_ok layouts) as Hl.
  { constructor; [|constructor; [|constructor]]; (split; [simpl; lia|]);
      [exists 0|exists 3]; (split; [lia|done]). }
  pose proof (bump_concurrent 4096 64 layouts sched ltac:(lia) ltac:(lia) ltac:(lia) Hl) as H.
  split; [vm_compute; reflexivity|exact H].
Defined.
