(* ===== verification/Bytes.v ===== *)
(** * Bytes: byte strings and fixed-width words

    The big-endian counterparts of the conversions of [Ids], slices ([copy_from_slice],
    byte-wise xor), rotations and complement of words of a given width, and the ranges
    they keep. *)

From Stdlib Require Import ZArith Lia.
From stdpp Require Import list.
From S2P Require Import Prelude.
From S2P Require Import Ids.

Definition to_be_bytes (n : nat) (z : Z) : list Z := rev (to_le_bytes n z).
Definition from_be_bytes (l : list Z) : Z := from_le_bytes (rev l).

(** [buf[off..off + data.len()].copy_from_slice(data)]. *)
Definition splice (off : nat) (data buf : list Z) : list Z :=
  take off buf ++ data ++ drop (off + length data) buf.

(** Byte-wise xor, as long as the shorter operand. *)
Definition xor_bytes (a b : list Z) : list Z := zip_with Z.lxor a b.

(** ** Words of [w] bits *)

Definition is_word (w x : Z) : Prop := 0 ≤ x < 2 ^ w.
Definition word_not (w x : Z) : Z := Z.lxor x (Z.ones w).
Definition rotate_right (w n x : Z) : Z := Z.lor (Z.shiftr x n) (wrap w (Z.shiftl x (w - n))).
Definition rotate_left (w n x : Z) : Z := Z.lor (wrap w (Z.shiftl x n)) (Z.shiftr x (w - n)).
Definition wadd (w a b : Z) : Z := wrap w (a + b).

Lemma is_word_testbit w x : 0 ≤ w → 0 ≤ x → is_word w x ↔ ∀ j, w ≤ j → Z.testbit x j = false.
Proof.
  intros Hw Hx. split.
  - intros [_ H] j Hj. destruct (decide (x = 0)) as [->|]; [apply Z.bits_0|].
    apply Z.bits_above_log2; [lia|]. apply Z.log2_lt_pow2; [lia|].
    eapply Z.lt_le_trans; [exact H|]. apply Z.pow_le_mono_r; lia.
  - intros H. split; [done|]. destruct (decide (x = 0)) as [->|]; [apply Z.pow_pos_nonneg; lia|].
    apply Z.log2_lt_pow2; [lia|]. destruct (Z.lt_ge_cases (Z.log2 x) w); [done|].
    pose proof (Z.bit_log2 x ltac:(lia)) as E. rewrite H in E by lia. done.
Qed.

Lemma wrap_word w x : 0 ≤ w → is_word w (wrap w x).
Proof. intros Hw. apply Z.mod_pos_bound, Z.pow_pos_nonneg; lia. Qed.

Lemma wrap_small w x : is_word w x → wrap w x = x.
Proof. intros [? ?]. by apply Z.mod_small. Qed.

Lemma wrap_add_l w a b : wrap w (wrap w a + b) = wrap w (a + b).
Proof. unfold wrap. by rewrite Zplus_mod_idemp_l. Qed.

Lemma wrap_add_r w a b : wrap w (a + wrap w b) = wrap w (a + b).
Proof. unfold wrap. by rewrite Zplus_mod_idemp_r. Qed.

(** Sums that wrap at every step or only at the end. *)
Ltac wraps :=
  unfold wadd; repeat (rewrite ?wrap_add_r, ?wrap_add_l; rewrite <-?Z.add_assoc;
    progress rewrite ?wrap_add_r, ?wrap_add_l);
  rewrite ?wrap_add_r, ?wrap_add_l; f_equal; lia.

Lemma wadd_word w a b : 0 ≤ w → is_word w (wadd w a b).
Proof. apply wrap_word. Qed.

Lemma lxor_word w a b : 0 ≤ w → is_word w a → is_word w b → is_word w (Z.lxor a b).
Proof.
  intros Hw Ha Hb. assert (0 ≤ Z.lxor a b) by (apply Z.lxor_nonneg; destruct Ha, Hb; tauto).
  apply is_word_testbit; [done..|]. intros j Hj.
  rewrite Z.lxor_spec, (proj1 (is_word_testbit w a Hw (proj1 Ha)) Ha),
    (proj1 (is_word_testbit w b Hw (proj1 Hb)) Hb) by done. done.
Qed.

Lemma lor_word w a b : 0 ≤ w → is_word w a → is_word w b → is_word w (Z.lor a b).
Proof.
  intros Hw Ha Hb. assert (0 ≤ Z.lor a b) by (apply Z.lor_nonneg; destruct Ha, Hb; tauto).
  apply is_word_testbit; [done..|]. intros j Hj.
  rewrite Z.lor_spec, (proj1 (is_word_testbit w a Hw (proj1 Ha)) Ha),
    (proj1 (is_word_testbit w b Hw (proj1 Hb)) Hb) by done. done.
Qed.

Lemma land_word w a b : 0 ≤ w → is_word w a → 0 ≤ b → is_word w (Z.land a b).
Proof.
  intros Hw Ha Hb. assert (0 ≤ Z.land a b) by (apply Z.land_nonneg; destruct Ha; tauto).
  apply is_word_testbit; [done..|]. intros j Hj.
  by rewrite Z.land_spec, (proj1 (is_word_testbit w a Hw (proj1 Ha)) Ha) by done.
Qed.

(** Clearing the low [k] bits of a word. *)
Lemma land_word_not w k x : 0 ≤ k ≤ w → is_word w x → Z.land x (word_not w (2 ^ k - 1)) = x / 2 ^ k * 2 ^ k.
Proof.
  intros Hk Hx. unfold word_not. replace (2 ^ k - 1) with (Z.ones k) by (rewrite Z.ones_equiv; lia).
  rewrite <-Z.shiftr_div_pow2, <-Z.shiftl_mul_pow2 by lia. apply Z.bits_inj'. intros n Hn.
  rewrite Z.land_spec, Z.lxor_spec, Z.shiftl_spec, !Z.testbit_ones_nonneg by lia.
  destruct (Z.ltb_spec n k).
  - rewrite (Z.testbit_neg_r _ (n - k)) by lia. rewrite (proj2 (Z.ltb_lt n w)) by lia. by rewrite andb_false_r.
  - rewrite Z.shiftr_spec by lia. replace (n - k + k) with n by lia.
    destruct (Z.ltb_spec n w); [by rewrite andb_true_r|].
    rewrite (proj1 (is_word_testbit w x ltac:(lia) ltac:(apply Hx)) Hx) by lia. done.
Qed.

Lemma shiftr_word w x n : 0 ≤ n → is_word w x → is_word w (Z.shiftr x n).
Proof.
  intros Hn [Hx Hlt]. rewrite Z.shiftr_div_pow2 by done. assert (0 < 2 ^ n) by (apply Z.pow_pos_nonneg; lia).
  split; [by apply Z.div_pos|]. eapply Z.le_lt_trans; [|exact Hlt]. apply Z.div_le_upper_bound; nia.
Qed.

Lemma rotate_left_word w n x : 0 ≤ n ≤ w → is_word w x → is_word w (rotate_left w n x).
Proof. intros Hn Hx. apply lor_word; [lia|apply wrap_word; lia|apply shiftr_word; [lia|done]]. Qed.

Lemma is_byte_word x : is_byte x ↔ is_word 8 x.
Proof. done. Qed.

(** ** Byte strings *)

Lemma length_to_be_bytes n z : length (to_be_bytes n z) = n.
Proof. unfold to_be_bytes. by rewrite length_rev, length_to_le_bytes. Qed.

Lemma to_be_bytes_byte n z : Forall is_byte (to_be_bytes n z).
Proof. apply Forall_rev, to_le_bytes_byte. Qed.

Lemma from_le_bytes_app a b : from_le_bytes (a ++ b) = from_le_bytes a + from_le_bytes b * 2 ^ (8 * Z.of_nat (length a)).
Proof.
  induction a as [|x a IH]; cbn [app from_le_bytes length].
  - rewrite Z.mul_0_r, Z.pow_0_r. lia.
  - rewrite IH, !Z.shiftl_mul_pow2, Nat2Z.inj_succ by lia.
    replace (8 * Z.succ (Z.of_nat (length a))) with (8 * Z.of_nat (length a) + 8) by lia.
    rewrite Z.pow_add_r by lia. nia.
Qed.

Lemma from_be_bytes_app a b : from_be_bytes (a ++ b) = from_be_bytes a * 2 ^ (8 * Z.of_nat (length b)) + from_be_bytes b.
Proof. unfold from_be_bytes. rewrite rev_app_distr, from_le_bytes_app, length_rev. lia. Qed.

Lemma from_be_bytes_cons x l : from_be_bytes (x :: l) = x * 2 ^ (8 * Z.of_nat (length l)) + from_be_bytes l.
Proof. change (x :: l) with ([x] ++ l). rewrite from_be_bytes_app. change (from_be_bytes [x]) with (x + 0). by rewrite Z.add_0_r. Qed.

Lemma from_be_bytes_range l : Forall is_byte l → is_word (8 * Z.of_nat (length l)) (from_be_bytes l).
Proof. intros Hl. unfold from_be_bytes. rewrite <-(length_rev l). by apply from_le_bytes_range, Forall_rev. Qed.

Lemma to_from_be_bytes l : Forall is_byte l → to_be_bytes (length l) (from_be_bytes l) = l.
Proof.
  intros Hl. unfold to_be_bytes, from_be_bytes. rewrite <-(length_rev l), to_from_le_bytes by by apply Forall_rev.
  apply rev_involutive.
Qed.

Lemma from_to_be_bytes n z : is_word (8 * Z.of_nat n) z → from_be_bytes (to_be_bytes n z) = z.
Proof.
  intros Hz. unfold to_be_bytes, from_be_bytes. rewrite rev_involutive, from_to_le_bytes. by apply Z.mod_small.
Qed.

Lemma to_le_bytes_wrap n z : to_le_bytes n (wrap (8 * Z.of_nat n) z) = to_le_bytes n z.
Proof.
  unfold wrap. rewrite <-from_to_le_bytes. rewrite <-(length_to_le_bytes n z) at 1.
  apply to_from_le_bytes, to_le_bytes_byte.
Qed.

Lemma to_be_bytes_wrap n z : to_be_bytes n (wrap (8 * Z.of_nat n) z) = to_be_bytes n z.
Proof. unfold to_be_bytes. by rewrite to_le_bytes_wrap. Qed.

Lemma from_be_bytes_inj l1 l2 : Forall is_byte l1 → Forall is_byte l2 → length l1 = length l2 →
  from_be_bytes l1 = from_be_bytes l2 → l1 = l2.
Proof.
  intros H1 H2 Hl He. rewrite <-(to_from_be_bytes l1), <-(to_from_be_bytes l2) by done. by rewrite He, Hl.
Qed.

Lemma insert_splice i x buf : (i < length buf)%nat → <[i := x]> buf = splice i [x] buf.
Proof.
  intros Hi. unfold splice. rewrite insert_take_drop by done. simpl. by rewrite Nat.add_1_r.
Qed.

Lemma length_splice off data buf : (off + length data ≤ length buf)%nat →
  length (splice off data buf) = length buf.
Proof. intros H. unfold splice. rewrite !length_app, length_take, length_drop. lia. Qed.

Lemma take_splice off data buf : (off ≤ length buf)%nat →
  take (off + length data) (splice off data buf) = take off buf ++ data.
Proof.
  intros H. unfold splice. rewrite app_assoc. apply take_app_length'.
  rewrite length_app, length_take. lia.
Qed.

Lemma length_xor_bytes a b : length (xor_bytes a b) = Nat.min (length a) (length b).
Proof. apply length_zip_with. Qed.

Lemma xor_bytes_byte a b : Forall is_byte a → Forall is_byte b → Forall is_byte (xor_bytes a b).
Proof.
  intros Ha. revert b. induction Ha as [|x a Hx _ IH]; intros b Hb; [constructor|].
  destruct Hb as [|y b Hy Hb]; [constructor|]. constructor; [by apply (lxor_word 8)|by apply IH].
Qed.

(** Xor with the same key twice gives the text back. *)
Lemma xor_bytes_twice a b : (length a ≤ length b)%nat → xor_bytes (xor_bytes a b) b = a.
Proof.
  revert b. induction a as [|x a IH]; intros [|y b] H; simpl in *; try done; [lia|].
  f_equal; [|apply IH; lia]. by rewrite Z.lxor_assoc, Z.lxor_nilpotent, Z.lxor_0_r.
Qed.

(** Filling an array of [r] more words from left to right is building the sequence. *)
Lemma fill_array (m : nat) (step : list Z → nat → list Z) (next : list Z → Z) (sched : nat → list Z) (r : nat) :
  (∀ n, length (sched n) = (m + n)%nat) →
  (∀ n, sched (S n) = sched n ++ [next (sched n)]) →
  (∀ L x, (m <= length L < m + r)%nat → step (L ++ x) (length L) = <[length L := next L]> (L ++ x)) →
  foldl step (sched 0%nat ++ replicate r 0) (seq m r) = sched r.
Proof.
  intros Hlen Hs Hstep.
  assert (∀ n, (n ≤ r)%nat →
    foldl step (sched 0%nat ++ replicate r 0) (seq m n) = sched n ++ replicate (r - n) 0) as Hn.
  { induction n as [|n IH]; intros Hle; [by rewrite Nat.sub_0_r|].
    rewrite seq_S, foldl_app, IH by lia. cbn [foldl].
    rewrite <-(Hlen n), Hstep by (rewrite Hlen; lia). rewrite Hs.
    replace (r - n)%nat with (S (r - S n)) by lia. simpl.
    rewrite insert_app_r_alt by lia. rewrite Nat.sub_diag. simpl. by rewrite <-app_assoc. }
  rewrite Hn by lia. by rewrite Nat.sub_diag, app_nil_r.
Qed.
