(* ===== verification/Utf8.v ===== *)
(** * Utf8: strings as bytes

    Strings are Rocq [string]s, one character per byte; [from_utf8] is the check of
    [core::str::from_utf8]. *)

From Stdlib Require Import ZArith Lia String Ascii.
From stdpp Require Import list strings.
From S2P Require Import Prelude.

Definition bytes_of_string (s : string) : list Z :=
  (λ a, Z.of_N (N_of_ascii a)) <$> list_ascii_of_string s.
Definition string_of_bytes (l : list Z) : string :=
  string_of_list_ascii ((λ b, ascii_of_N (Z.to_N b)) <$> l).

(** [core::str::from_utf8] succeeds: well-formed UTF-8. *)
Definition cont (b : Z) : bool := (0x80 <=? b) && (b <=? 0xBF).
Definition within (lo hi b : Z) : bool := (lo <=? b) && (b <=? hi).

Fixpoint utf8_valid (l : list Z) : bool :=
  match l with
  | [] => true
  | a :: r =>
      if a <? 0x80 then utf8_valid r
      else if within 0xC2 0xDF a then
        match r with b :: r => cont b && utf8_valid r | _ => false end
      else if within 0xE0 0xEF a then
        match r with
        | b :: c :: r =>
            (if a =? 0xE0 then within 0xA0 0xBF b
             else if a =? 0xED then within 0x80 0x9F b else cont b) && cont c && utf8_valid r
        | _ => false
        end
      else if within 0xF0 0xF4 a then
        match r with
        | b :: c :: d :: r =>
            (if a =? 0xF0 then within 0x90 0xBF b
             else if a =? 0xF4 then within 0x80 0x8F b else cont b)
            && cont c && cont d && utf8_valid r
        | _ => false
        end
      else false
  end.

Definition from_utf8 (l : list Z) : option string :=
  if utf8_valid l then Some (string_of_bytes l) else None.

Lemma string_bytes s : string_of_bytes (bytes_of_string s) = s.
Proof.
  unfold string_of_bytes, bytes_of_string. induction s as [|a s IH]; [done|].
  simpl. f_equal; [|exact IH]. rewrite N2Z.id. apply ascii_N_embedding.
Qed.
