(* ===== verification/Hash.v ===== *)
(** * Hash: SHA-256, SHA-512, SHA-1 and XXHash3 ([kernel/src/crypto/hash.rs])

    The three secure hashers share one buffer discipline: they differ in the block size,
    the width of the length field, the initial state and the compression function. That
    part is written once over the class [BlockHash], with one instance per hasher. The
    specification is FIPS 180-4: padding of the whole message, then the compression
    function over its blocks. *)

From Stdlib Require Import ZArith Lia.
From stdpp Require Import list.
From S2P Require Import Prelude.
From S2P Require Import Ids.
From S2P Require Import Bytes.

(** ** The compression functions *)

(** [w[i]] and the state fields: an index past the end does not occur. *)
Notation "l .[ i ]" := (nth i l 0) (at level 1, i at level 200, format "l .[ i ]").

(** [from_be_bytes] of each chunk of [n] bytes of a block, into the first words of [w]. *)
Fixpoint parse_words (n k : nat) (block : list Z) : list Z :=
  match k with
  | O => []
  | S k => from_be_bytes (take n block) :: parse_words n k (drop n block)
  end.

(** The SHA-2 family: word width and rotation amounts. *)
Record Sha2 := mkSha2 {
  s_w : Z; s_rounds : nat; s_k : list Z;
  s_small0 : Z * Z * Z; s_small1 : Z * Z * Z; s_big0 : Z * Z * Z; s_big1 : Z * Z * Z
}.

Section sha2.
Context (P : Sha2).
Let w := s_w P.

(** Two rotations and a shift, or three rotations, xored. *)
Definition small_sigma (r : Z * Z * Z) (x : Z) : Z :=
  let '(r1, r2, sh) := r in
  Z.lxor (Z.lxor (rotate_right (s_w P) r1 x) (rotate_right (s_w P) r2 x)) (Z.shiftr x sh).
Definition big_sigma (r : Z * Z * Z) (x : Z) : Z :=
  let '(r1, r2, r3) := r in
  Z.lxor (Z.lxor (rotate_right (s_w P) r1 x) (rotate_right (s_w P) r2 x)) (rotate_right (s_w P) r3 x).

Definition extend_at (ws : list Z) (i : nat) : list Z :=
  let s0 := small_sigma (s_small0 P) ws.[i - 15] in
  let s1 := small_sigma (s_small1 P) ws.[i - 2] in
  <[i := wadd w (wadd w (wadd w ws.[i - 16] s0) ws.[i - 7]) s1]> ws.

Definition message_words (block : list Z) : list Z :=
  foldl extend_at
    (parse_words (Z.to_nat (s_w P / 8)) 16 block ++ replicate (s_rounds P - 16) 0)
    (seq 16 (s_rounds P - 16)).

(** The working variables [a] to [h]. *)
Definition Vars : Type := Z * Z * Z * Z * Z * Z * Z * Z.

Definition round (ws : list Z) (v : Vars) (i : nat) : Vars :=
  let '(a, b, c, d, e, f, g, h) := v in
  let s1 := big_sigma (s_big1 P) e in
  let ch := Z.lxor (Z.land e f) (Z.land (word_not w e) g) in
  let temp1 := wadd w (wadd w (wadd w (wadd w h s1) ch) (s_k P).[i]) ws.[i] in
  let s0 := big_sigma (s_big0 P) a in
  let maj := Z.lxor (Z.lxor (Z.land a b) (Z.land a c)) (Z.land b c) in
  let temp2 := wadd w s0 maj in
  (wadd w temp1 temp2, a, b, c, wadd w d temp1, e, f, g).

Definition sha2_compress (state block : list Z) : list Z :=
  let ws := message_words block in
  let '(a, b, c, d, e, f, g, h) :=
    foldl (round ws)
      (state.[0], state.[1], state.[2], state.[3], state.[4], state.[5], state.[6], state.[7])
      (seq 0 (s_rounds P)) in
  [wadd w state.[0] a; wadd w state.[1] b; wadd w state.[2] c; wadd w state.[3] d;
   wadd w state.[4] e; wadd w state.[5] f; wadd w state.[6] g; wadd w state.[7] h].
End sha2.

Definition sha256_H : list Z := [
  0x6a09e667; 0xbb67ae85; 0x3c6ef372; 0xa54ff53a;
  0x510e527f; 0x9b05688c; 0x1f83d9ab; 0x5be0cd19].

(** Tables are written a line of the code to a number: four words of 32 bits. *)
Definition unpack_words (w : Z) (n : nat) (rows : list Z) : list Z :=
  flat_map (λ row, map (λ i, wrap w (Z.shiftr row (w * Z.of_nat (n - 1 - i)))) (seq 0 n)) rows.

Definition sha256_K : list Z := Eval vm_compute in unpack_words 32 4 [
  0x428a2f98_71374491_b5c0fbcf_e9b5dba5;
  0x3956c25b_59f111f1_923f82a4_ab1c5ed5;
  0xd807aa98_12835b01_243185be_550c7dc3;
  0x72be5d74_80deb1fe_9bdc06a7_c19bf174;
  0xe49b69c1_efbe4786_0fc19dc6_240ca1cc;
  0x2de92c6f_4a7484aa_5cb0a9dc_76f988da;
  0x983e5152_a831c66d_b00327c8_bf597fc7;
  0xc6e00bf3_d5a79147_06ca6351_14292967;
  0x27b70a85_2e1b2138_4d2c6dfc_53380d13;
  0x650a7354_766a0abb_81c2c92e_92722c85;
  0xa2bfe8a1_a81a664b_c24b8b70_c76c51a3;
  0xd192e819_d6990624_f40e3585_106aa070;
  0x19a4c116_1e376c08_2748774c_34b0bcb5;
  0x391c0cb3_4ed8aa4a_5b9cca4f_682e6ff3;
  0x748f82ee_78a5636f_84c87814_8cc70208;
  0x90befffa_a4506ceb_bef9a3f7_c67178f2].

Definition sha512_H : list Z := [
  0x6a09e667f3bcc908; 0xbb67ae8584caa73b; 0x3c6ef372fe94f82b; 0xa54ff53a5f1d36f1;
  0x510e527fade682d1; 0x9b05688c2b3e6c1f; 0x1f83d9abfb41bd6b; 0x5be0cd19137e2179].

Definition sha512_K : list Z := [
  0x428a2f98d728ae22; 0x7137449123ef65cd; 0xb5c0fbcfec4d3b2f; 0xe9b5dba58189dbbc;
  0x3956c25bf348b538; 0x59f111f1b605d019; 0x923f82a4af194f9b; 0xab1c5ed5da6d8118;
  0xd807aa98a3030242; 0x12835b0145706fbe; 0x243185be4ee4b28c; 0x550c7dc3d5ffb4e2;
  0x72be5d74f27b896f; 0x80deb1fe3b1696b1; 0x9bdc06a725c71235; 0xc19bf174cf692694;
  0xe49b69c19ef14ad2; 0xefbe4786384f25e3; 0x0fc19dc68b8cd5b5; 0x240ca1cc77ac9c65;
  0x2de92c6f592b0275; 0x4a7484aa6ea6e483; 0x5cb0a9dcbd41fbd4; 0x76f988da831153b5;
  0x983e5152ee66dfab; 0xa831c66d2db43210; 0xb00327c898fb213f; 0xbf597fc7beef0ee4;
  0xc6e00bf33da88fc2; 0xd5a79147930aa725; 0x06ca6351e003826f; 0x142929670a0e6e70;
  0x27b70a8546d22ffc; 0x2e1b21385c26c926; 0x4d2c6dfc5ac42aed; 0x53380d139d95b3df;
  0x650a73548baf63de; 0x766a0abb3c77b2a8; 0x81c2c92e47edaee6; 0x92722c851482353b;
  0xa2bfe8a14cf10364; 0xa81a664bbc423001; 0xc24b8b70d0f89791; 0xc76c51a30654be30;
  0xd192e819d6ef5218; 0xd69906245565a910; 0xf40e35855771202a; 0x106aa07032bbd1b8;
  0x19a4c116b8d2d0c8; 0x1e376c085141ab53; 0x2748774cdf8eeb99; 0x34b0bcb5e19b48a8;
  0x391c0cb3c5c95a63; 0x4ed8aa4ae3418acb; 0x5b9cca4f7763e373; 0x682e6ff3d6b2b8a3;
  0x748f82ee5defb2fc; 0x78a5636f43172f60; 0x84c87814a1f0ab72; 0x8cc702081a6439ec;
  0x90befffa23631e28; 0xa4506cebde82bde9; 0xbef9a3f7b2c67915; 0xc67178f2e372532b;
  0xca273eceea26619c; 0xd186b8c721c0c207; 0xeada7dd6cde0eb1e; 0xf57d4f7fee6ed178;
  0x06f067aa72176fba; 0x0a637dc5a2c898a6; 0x113f9804bef90dae; 0x1b710b35131c471b;
  0x28db77f523047d84; 0x32caab7b40c72493; 0x3c9ebe0a15c9bebc; 0x431d67c49c100d4c;
  0x4cc5d4becb3e42b6; 0x597f299cfc657e2a; 0x5fcb6fab3ad6faec; 0x6c44198c4a475817].

Definition sha256_params : Sha2 :=
  mkSha2 32 64 sha256_K (7, 18, 3) (17, 19, 10) (2, 13, 22) (6, 11, 25).
Definition sha512_params : Sha2 :=
  mkSha2 64 80 sha512_K (1, 8, 7) (19, 61, 6) (28, 34, 39) (14, 18, 41).

Definition sha256_compress : list Z → list Z → list Z := sha2_compress sha256_params.
Definition sha512_compress : list Z → list Z → list Z := sha2_compress sha512_params.

(** SHA-1. *)
Definition sha1_H : list Z := [0x67452301; 0xefcdab89; 0x98badcfe; 0x10325476; 0xc3d2e1f0].

Definition sha1_extend_at (ws : list Z) (i : nat) : list Z :=
  <[i := rotate_left 32 1
           (Z.lxor (Z.lxor (Z.lxor ws.[i - 3] ws.[i - 8]) ws.[i - 14]) ws.[i - 16])]> ws.

Definition sha1_words (block : list Z) : list Z :=
  foldl sha1_extend_at (parse_words 4 16 block ++ replicate 64 0) (seq 16 64).

Definition sha1_fk (i : nat) (b c d : Z) : Z * Z :=
  if decide (i <= 19)%nat then (Z.lor (Z.land b c) (Z.land (word_not 32 b) d), 0x5a827999)
  else if decide (i <= 39)%nat then (Z.lxor (Z.lxor b c) d, 0x6ed9eba1)
  else if decide (i <= 59)%nat then (Z.lor (Z.lor (Z.land b c) (Z.land b d)) (Z.land c d), 0x8f1bbcdc)
  else (Z.lxor (Z.lxor b c) d, 0xca62c1d6).

Definition sha1_round (ws : list Z) (v : Z * Z * Z * Z * Z) (i : nat) : Z * Z * Z * Z * Z :=
  let '(a, b, c, d, e) := v in
  let '(f, k) := sha1_fk i b c d in
  let temp := wadd 32 (wadd 32 (wadd 32 (wadd 32 (rotate_left 32 5 a) f) e) k) ws.[i] in
  (temp, a, rotate_left 32 30 b, c, d).

Definition sha1_compress (state block : list Z) : list Z :=
  let ws := sha1_words block in
  let '(a, b, c, d, e) :=
    foldl (sha1_round ws) (state.[0], state.[1], state.[2], state.[3], state.[4]) (seq 0 80) in
  [wadd 32 state.[0] a; wadd 32 state.[1] b; wadd 32 state.[2] c; wadd 32 state.[3] d; wadd 32 state.[4] e].

(** ** The hashers *)

(** What a hasher is made of: the block size, the bytes of the length field and of a
    state word, the initial state and the compression function. *)
Class BlockHash := mkBlockHash {
  block_size : nat; len_size : nat; word_size : nat;
  init_state : list Z; compress : list Z → list Z → list Z;
  block_room : (S len_size ≤ block_size)%nat;
  digest_fits : (0 < length init_state * word_size ≤ block_size)%nat;
  compress_length : ∀ state block, length (compress state block) = length init_state
}.

Lemma sha2_compress_length P state block : length (sha2_compress P state block) = 8%nat.
Proof. unfold sha2_compress. by destruct (foldl _ _ _) as [[[[[[[a b] c] d] e] f] g] h]. Qed.

Lemma sha1_compress_length state block : length (sha1_compress state block) = 5%nat.
Proof. unfold sha1_compress. by destruct (foldl _ _ _) as [[[[a b] c] d] e]. Qed.

Lemma nat_leb_le a b : Nat.leb a b = true → (a ≤ b)%nat.
Proof. apply Nat.leb_le. Qed.

#[export] Instance Sha256 : BlockHash :=
  mkBlockHash 64 8 4 sha256_H sha256_compress (nat_leb_le 9 64 eq_refl)
    (conj (nat_leb_le 1 32 eq_refl) (nat_leb_le 32 64 eq_refl)) (sha2_compress_length sha256_params).
#[export] Instance Sha512 : BlockHash :=
  mkBlockHash 128 16 8 sha512_H sha512_compress (nat_leb_le 17 128 eq_refl)
    (conj (nat_leb_le 1 64 eq_refl) (nat_leb_le 64 128 eq_refl)) (sha2_compress_length sha512_params).
#[export] Instance Sha1 : BlockHash :=
  mkBlockHash 64 8 4 sha1_H sha1_compress (nat_leb_le 9 64 eq_refl)
    (conj (nat_leb_le 1 20 eq_refl) (nat_leb_le 20 64 eq_refl)) sha1_compress_length.

Record Hasher := mkHasher {
  state : list Z; buffer : list Z; buffer_len : nat; total_len : Z
}.

Section hasher.
Context (B : BlockHash).

Definition hash_new : Hasher := mkHasher init_state (replicate block_size 0) 0 0.

(** [while offset + block_size <= data.len()]: the state and the offset reached. *)
Fixpoint absorb_blocks (fuel offset : nat) (data state : list Z) : list Z * nat :=
  match fuel with
  | O => (state, offset)
  | S fuel =>
      if decide (offset + block_size <= length data)%nat
      then absorb_blocks fuel (offset + block_size) data
             (compress state (take block_size (drop offset data)))
      else (state, offset)
  end.

Definition update (data : list Z) (h : Hasher) : Hasher :=
  let '(st, buf, len, offset) :=
    if decide (0 < buffer_len h)%nat then
      let to_copy := Nat.min (block_size - buffer_len h) (length data) in
      let buf := splice (buffer_len h) (take to_copy data) (buffer h) in
      let len := (buffer_len h + to_copy)%nat in
      if decide (len = block_size) then (compress (state h) buf, buf, 0%nat, to_copy)
      else (state h, buf, len, to_copy)
    else (state h, buffer h, buffer_len h, 0%nat) in
  let '(st, offset) := absorb_blocks (S (length data)) offset data st in
  let '(buf, len) :=
    if decide (offset < length data)%nat
    then (splice 0 (drop offset data) buf, (length data - offset)%nat)
    else (buf, len) in
  mkHasher st buf len (wrap (8 * Z.of_nat len_size) (total_len h + Z.of_nat (length data))).

Definition finalize (h : Hasher) : list Z :=
  let total_bits := wrap (8 * Z.of_nat len_size) (total_len h * 8) in
  let room := (block_size - len_size)%nat in
  let buf := <[buffer_len h := 0x80]> (buffer h) in
  let len := S (buffer_len h) in
  let '(st, buf, len) :=
    if decide (room < len)%nat then
      let buf := splice len (replicate (block_size - len) 0) buf in
      (compress (state h) buf, buf, 0%nat)
    else (state h, buf, len) in
  let buf := splice len (replicate (room - len) 0) buf in
  let buf := splice room (to_be_bytes len_size total_bits) buf in
  flat_map (to_be_bytes word_size) (compress st buf).

Definition hash (data : list Z) : list Z := finalize (update data hash_new).
End hasher.

Definition sha256_hash := hash Sha256.
Definition sha512_hash := hash Sha512.
Definition sha1_hash := hash Sha1.

(** ** FIPS 180-4 *)

(** The message schedule, [W_0] to [W_(15 + n)]. *)
Section fips.
Context (P : Sha2).

Fixpoint fips_schedule (n : nat) (block : list Z) : list Z :=
  match n with
  | O => parse_words (Z.to_nat (s_w P / 8)) 16 block
  | S n =>
      let W := fips_schedule n block in
      let t := (16 + n)%nat in
      W ++ [wrap (s_w P) (small_sigma P (s_small1 P) W.[t - 2] + W.[t - 7]
                          + small_sigma P (s_small0 P) W.[t - 15] + W.[t - 16])]
  end.

Definition fips_round (W : list Z) (v : Vars) (t : nat) : Vars :=
  let '(a, b, c, d, e, f, g, h) := v in
  let T1 := h + big_sigma P (s_big1 P) e + Z.lxor (Z.land e f) (Z.land (word_not (s_w P) e) g)
            + (s_k P).[t] + W.[t] in
  let T2 := big_sigma P (s_big0 P) a
            + Z.lxor (Z.lxor (Z.land a b) (Z.land a c)) (Z.land b c) in
  (wrap (s_w P) (T1 + T2), a, b, c, wrap (s_w P) (d + T1), e, f, g).

Definition fips_sha2 (H block : list Z) : list Z :=
  let W := fips_schedule (s_rounds P - 16) block in
  let '(a, b, c, d, e, f, g, h) :=
    foldl (fips_round W) (H.[0], H.[1], H.[2], H.[3], H.[4], H.[5], H.[6], H.[7]) (seq 0 (s_rounds P)) in
  zip_with (wadd (s_w P)) [a; b; c; d; e; f; g; h] [H.[0]; H.[1]; H.[2]; H.[3]; H.[4]; H.[5]; H.[6]; H.[7]].
End fips.

(** SHA-1. *)
Fixpoint fips_schedule1 (n : nat) (block : list Z) : list Z :=
  match n with
  | O => parse_words 4 16 block
  | S n =>
      let W := fips_schedule1 n block in
      let t := (16 + n)%nat in
      W ++ [rotate_left 32 1 (Z.lxor (Z.lxor (Z.lxor W.[t - 3] W.[t - 8]) W.[t - 14]) W.[t - 16])]
  end.

Definition fips_f (t : nat) (x y z : Z) : Z :=
  if decide (t < 20)%nat then Z.lxor (Z.land x y) (Z.land (word_not 32 x) z)
  else if decide (40 <= t < 60)%nat then Z.lxor (Z.lxor (Z.land x y) (Z.land x z)) (Z.land y z)
  else Z.lxor (Z.lxor x y) z.
Definition fips_k (t : nat) : Z :=
  if decide (t < 20)%nat then 0x5a827999 else if decide (t < 40)%nat then 0x6ed9eba1
  else if decide (t < 60)%nat then 0x8f1bbcdc else 0xca62c1d6.

Definition fips_round1 (W : list Z) (v : Z * Z * Z * Z * Z) (t : nat) : Z * Z * Z * Z * Z :=
  let '(a, b, c, d, e) := v in
  (wrap 32 (rotate_left 32 5 a + fips_f t b c d + e + fips_k t + W.[t]),
   a, rotate_left 32 30 b, c, d).

Definition fips_sha1 (H block : list Z) : list Z :=
  let W := fips_schedule1 64 block in
  let '(a, b, c, d, e) :=
    foldl (fips_round1 W) (H.[0], H.[1], H.[2], H.[3], H.[4]) (seq 0 80) in
  zip_with (wadd 32) [a; b; c; d; e] [H.[0]; H.[1]; H.[2]; H.[3]; H.[4]].

(** Padding, and the hash of a whole message. *)
Section fips_hash.
Context (bs ls ws : nat) (H : list Z) (comp : list Z → list Z → list Z).

Definition fips_pad (M : list Z) : list Z :=
  M ++ 0x80 :: replicate ((bs - (S (length M) + ls) mod bs) mod bs) 0
    ++ to_be_bytes ls (8 * Z.of_nat (length M)).

Fixpoint split_blocks (k : nat) (M : list Z) : list (list Z) :=
  match k with
  | O => []
  | S k => take bs M :: split_blocks k (drop bs M)
  end.

Definition fips_hash (M : list Z) : list Z :=
  let padded := fips_pad M in
  flat_map (to_be_bytes ws) (foldl comp H (split_blocks (length padded / bs) padded)).
End fips_hash.

(** ** The compression functions are those of the standard *)

Lemma length_parse_words n k : ∀ block, length (parse_words n k block) = k.
Proof. induction k; intros; simpl; auto. Qed.

Lemma length_fips_schedule P n block : length (fips_schedule P n block) = (16 + n)%nat.
Proof.
  induction n as [|n IH]; [apply length_parse_words|]. cbn [fips_schedule].
  rewrite length_app, IH. simpl. lia.
Qed.

Lemma length_fips_schedule1 n block : length (fips_schedule1 n block) = (16 + n)%nat.
Proof.
  induction n as [|n IH]; [apply length_parse_words|]. cbn [fips_schedule1].
  rewrite length_app, IH. simpl. lia.
Qed.

Lemma message_words_spec P block : (16 <= s_rounds P)%nat →
  message_words P block = fips_schedule P (s_rounds P - 16) block.
Proof.
  intros Hr. apply (fill_array 16 _ (λ W, let t := length W in
    wrap (s_w P) (small_sigma P (s_small1 P) W.[t - 2] + W.[t - 7]
                  + small_sigma P (s_small0 P) W.[t - 15] + W.[t - 16]))
    (λ n, fips_schedule P n block)).
  - intros n. apply length_fips_schedule.
  - intros n. cbn [fips_schedule]. by rewrite length_fips_schedule.
  - intros L x HL. unfold extend_at. rewrite !app_nth1 by lia. f_equal.
    wraps.
Qed.

Lemma sha2_round_spec P W v i : round P W v i = fips_round P W v i.
Proof.
  destruct v as [[[[[[[a b] c] d] e] f] g] h]. unfold round, fips_round.
  set (s1 := big_sigma _ _ _). set (ch := Z.lxor (Z.land e f) _).
  set (s0 := big_sigma _ _ _). set (maj := Z.lxor (Z.lxor _ _) _).
  set (k := (s_k P).[i]). set (wi := W.[i]).
  set (temp1 := wadd _ (wadd _ (wadd _ (wadd _ h s1) ch) k) wi).
  assert (temp1 = wrap (s_w P) (h + s1 + ch + k + wi)) as -> by (subst temp1; wraps).
  do 3 (apply (f_equal2 pair); [|done]). apply (f_equal2 pair); [|wraps].
  do 3 (apply (f_equal2 pair); [|done]). wraps.
Qed.

Lemma foldl_ext {A C} (f g : A → C → A) (l : list C) a : (∀ x y, f x y = g x y) → foldl f a l = foldl g a l.
Proof. intros H. revert a. induction l as [|y l IH]; intros a; simpl; [done|]. by rewrite H, IH. Qed.

Lemma sha2_compress_spec P H block : (16 <= s_rounds P)%nat →
  sha2_compress P H block = fips_sha2 P H block.
Proof.
  intros Hr. unfold sha2_compress, fips_sha2. rewrite message_words_spec by done.
  rewrite (foldl_ext _ (fips_round P (fips_schedule P (s_rounds P - 16) block)))
    by (intros; apply sha2_round_spec).
  destruct (foldl _ _ _) as [[[[[[[a b] c] d] e] f] g] h]. unfold wadd. simpl.
  by rewrite !(Z.add_comm (H.[_])).
Qed.

(** SHA-1 writes the choice and majority functions with [|] where the standard has an
    exclusive or; on words they agree. *)
Lemma choice_lor w x y z : 0 ≤ w → is_word w x →
  Z.lor (Z.land x y) (Z.land (word_not w x) z) = Z.lxor (Z.land x y) (Z.land (word_not w x) z).
Proof.
  intros Hw Hx. apply Z.bits_inj'. intros j Hj. unfold word_not.
  rewrite Z.lor_spec, Z.lxor_spec, !Z.land_spec, Z.lxor_spec, Z.testbit_ones_nonneg by lia.
  destruct (Z.ltb_spec j w).
  - by destruct (Z.testbit x j), (Z.testbit y j), (Z.testbit z j).
  - rewrite (proj1 (is_word_testbit w x Hw (proj1 Hx)) Hx) by done. done.
Qed.

Lemma majority_lor x y z :
  Z.lor (Z.lor (Z.land x y) (Z.land x z)) (Z.land y z)
  = Z.lxor (Z.lxor (Z.land x y) (Z.land x z)) (Z.land y z).
Proof.
  apply Z.bits_inj'. intros j Hj. rewrite !Z.lor_spec, !Z.lxor_spec, !Z.land_spec.
  by destruct (Z.testbit x j), (Z.testbit y j), (Z.testbit z j).
Qed.

Definition words5 (v : Z * Z * Z * Z * Z) : Prop :=
  let '(a, b, c, d, e) := v in
  is_word 32 a ∧ is_word 32 b ∧ is_word 32 c ∧ is_word 32 d ∧ is_word 32 e.

Lemma sha1_round_spec W v i : words5 v → sha1_round W v i = fips_round1 W v i ∧ words5 (fips_round1 W v i).
Proof.
  destruct v as [[[[a b] c] d] e]. intros (Ha & Hb & Hc & Hd & He). split.
  - unfold sha1_round, fips_round1.
    assert (sha1_fk i b c d = (fips_f i b c d, fips_k i)) as ->.
    { unfold sha1_fk, fips_f, fips_k. repeat case_decide; try lia;
        rewrite ?choice_lor, ?majority_lor by (done || lia); done. }
    do 4 (apply (f_equal2 pair); [|done]). wraps.
  - split; [by apply wrap_word|]. split; [done|]. split; [by apply rotate_left_word|]. done.
Qed.

Lemma sha1_rounds W l : ∀ v, words5 v → foldl (sha1_round W) v l = foldl (fips_round1 W) v l ∧
  words5 (foldl (fips_round1 W) v l).
Proof.
  induction l as [|i l IH]; intros v Hv; [done|]. simpl.
  destruct (sha1_round_spec W v i Hv) as [-> ?]. by apply IH.
Qed.

Lemma words_nth w H i : 0 ≤ w → Forall (is_word w) H → is_word w H.[i].
Proof.
  intros Hw HH. destruct (Nat.lt_ge_cases i (length H)).
  - eapply Forall_forall; [exact HH|]. apply list_elem_of_In, nth_In. done.
  - rewrite nth_overflow by done. split; [lia|]. apply Z.pow_pos_nonneg; lia.
Qed.

Lemma sha1_compress_spec H block : Forall (is_word 32) H →
  sha1_compress H block = fips_sha1 H block ∧ Forall (is_word 32) (fips_sha1 H block).
Proof.
  intros HH. unfold sha1_compress, fips_sha1.
  assert (sha1_words block = fips_schedule1 64 block) as ->.
  { apply (fill_array 16 _ (λ W, let t := length W in
      rotate_left 32 1 (Z.lxor (Z.lxor (Z.lxor W.[t - 3] W.[t - 8]) W.[t - 14]) W.[t - 16]))
      (λ n, fips_schedule1 n block) 64).
    - intros n. apply length_fips_schedule1.
    - intros n. cbn [fips_schedule1]. by rewrite length_fips_schedule1.
    - intros L x HL. unfold sha1_extend_at. by rewrite !app_nth1 by lia. }
  destruct (sha1_rounds (fips_schedule1 64 block) (seq 0 80) (H.[0], H.[1], H.[2], H.[3], H.[4]))
    as [-> Hv]; [split_and!; by apply words_nth|].
  destruct (foldl _ _ _) as [[[[a b] c] d] e]. split.
  - cbn [zip_with]. unfold wadd. by rewrite !(Z.add_comm (H.[_])).
  - repeat constructor; by apply wadd_word.
Qed.

Lemma sha1_fold bl : ∀ H, Forall (is_word 32) H → foldl sha1_compress H bl = foldl fips_sha1 H bl.
Proof.
  induction bl as [|b bl IH]; intros H HH; [done|]. simpl.
  destruct (sha1_compress_spec H b HH) as [-> HH']. by apply IH.
Qed.

(** ** Streaming *)

Lemma split_blocks_app bs k : ∀ M M', (k * bs ≤ length M)%nat →
  split_blocks bs k (M ++ M') = split_blocks bs k M.
Proof.
  induction k as [|k IH]; intros M M' H; [done|]. cbn [split_blocks].
  rewrite take_app_le, drop_app_le by lia. f_equal. apply IH. rewrite length_drop. lia.
Qed.

Lemma split_blocks_add bs k n : ∀ M,
  split_blocks bs (k + n) M = split_blocks bs k M ++ split_blocks bs n (drop (k * bs) M).
Proof.
  induction k as [|k IH]; intros M; [done|]. cbn [split_blocks Nat.add].
  rewrite IH, drop_drop. cbn [app]. f_equal.
Qed.

Section streaming.
Context (B : BlockHash).

Lemma block_pos : (0 < block_size)%nat.
Proof. pose proof block_room. lia. Qed.

Lemma absorb_blocks_spec data : ∀ fuel offset st, (offset ≤ length data)%nat →
  (length data - offset < fuel)%nat →
  let n := ((length data - offset) / block_size)%nat in
  absorb_blocks B fuel offset data st
  = (foldl compress st (split_blocks block_size n (drop offset data)), (offset + n * block_size)%nat).
Proof.
  pose proof block_pos as Hpos.
  induction fuel as [|fuel IH]; intros offset st Ho Hf; [lia|]. cbn [absorb_blocks].
  case_decide as Hd.
  - rewrite IH by lia.
    assert ((length data - offset) / block_size
            = S ((length data - (offset + block_size)) / block_size))%nat as ->.
    { replace (length data - offset)%nat
        with ((length data - (offset + block_size)) + 1 * block_size)%nat by lia.
      rewrite Nat.div_add by lia. lia. }
    cbn [split_blocks foldl]. rewrite drop_drop. f_equal. lia.
  - rewrite Nat.div_small by lia. simpl. f_equal. lia.
Qed.

(** The hasher has absorbed [M]: [k] full blocks are in the state, the rest in the buffer. *)
Record absorbed (k : nat) (h : Hasher) (M : list Z) : Prop := {
  ab_length : length M = (k * block_size + buffer_len h)%nat;
  ab_room : (buffer_len h < block_size)%nat;
  ab_buffer : length (buffer h) = block_size;
  ab_rest : take (buffer_len h) (buffer h) = drop (k * block_size) M;
  ab_state : state h = foldl compress init_state (split_blocks block_size k M);
  ab_total : total_len h = wrap (8 * Z.of_nat len_size) (Z.of_nat (length M))
}.

Lemma absorbed_new : absorbed 0 (hash_new B) [].
Proof.
  split; cbn [buffer_len buffer state total_len hash_new length];
    [done|apply block_pos|apply length_replicate|done|done|].
  symmetry. apply wrap_small. split; [lia|]. apply Z.pow_pos_nonneg; lia.
Qed.

(** The part of [update] after the buffer has been emptied. *)
Lemma absorb_rest k M buf data offset : length M = (k * block_size)%nat → length buf = block_size →
  (offset ≤ length data)%nat →
  let '(st, offset') := absorb_blocks B (S (length data)) offset data
                          (foldl compress init_state (split_blocks block_size k M)) in
  let '(buf', len) :=
    if decide (offset' < length data)%nat
    then (splice 0 (drop offset' data) buf, (length data - offset')%nat)
    else (buf, 0%nat) in
  ∃ k', absorbed k' (mkHasher st buf' len
          (wrap (8 * Z.of_nat len_size) (Z.of_nat (length (M ++ drop offset data)))))
        (M ++ drop offset data).
Proof.
  intros HM Hbuf Ho. pose proof block_pos as Hpos.
  rewrite absorb_blocks_spec by lia. cbn zeta.
  set (n := ((length data - offset) / block_size)%nat).
  assert (n * block_size ≤ length data - offset < n * block_size + block_size)%nat as Hn.
  { pose proof (Nat.div_mod (length data - offset) block_size ltac:(lia)) as Hdm.
    pose proof (Nat.mod_upper_bound (length data - offset) block_size ltac:(lia)). fold n in Hdm. lia. }
  assert (foldl compress (foldl compress init_state (split_blocks block_size k M))
            (split_blocks block_size n (drop offset data))
          = foldl compress init_state (split_blocks block_size (k + n) (M ++ drop offset data))) as Hst.
  { rewrite split_blocks_add, foldl_app, split_blocks_app, drop_app_length' by lia. done. }
  pose proof (Nat.mul_add_distr_r k n block_size) as Hmul.
  case_decide as Hd; exists (k + n)%nat; split; cbn [state buffer buffer_len total_len];
    rewrite ?length_app, ?length_drop, ?HM; try done; try lia.
  - rewrite length_splice; rewrite ?length_drop; lia.
  - pose proof (take_splice 0 (drop (offset + n * block_size) data) buf ltac:(lia)) as Ht.
    rewrite length_drop in Ht. cbn [Nat.add] in Ht. rewrite Ht, take_0. cbn [app].
    rewrite drop_app_ge by lia. rewrite drop_drop. f_equal. lia.
  - rewrite drop_ge; [done|]. rewrite length_app, length_drop. lia.
Qed.

Lemma update_absorbed k h M data : absorbed k h M → ∃ k', absorbed k' (update B data h) (M ++ data).
Proof.
  intros [Hl Hr Hb Hrest Hst Htot]. pose proof block_pos as Hpos. unfold update.
  assert (wrap (8 * Z.of_nat len_size) (total_len h + Z.of_nat (length data))
    = wrap (8 * Z.of_nat len_size) (Z.of_nat (length (M ++ data)))) as ->.
  { rewrite Htot, wrap_add_l. f_equal. rewrite length_app. lia. }
  case_decide as Hd0.
  - destruct (Nat.lt_ge_cases (buffer_len h + length data) block_size) as [Hlt|Hge].
    + (* everything fits the buffer *)
      rewrite Nat.min_r by lia. rewrite decide_False by lia.
      rewrite absorb_blocks_spec by lia. rewrite Nat.sub_diag, Nat.Div0.div_0_l, Nat.mul_0_l, Nat.add_0_r.
      rewrite decide_False by lia. rewrite take_ge by lia.
      exists k. split; cbn [state buffer buffer_len total_len split_blocks foldl];
        rewrite ?length_app; try done; try lia.
      * rewrite length_splice; lia.
      * rewrite take_splice by lia. rewrite Hrest, drop_app_le by lia. done.
      * rewrite split_blocks_app by lia. done.
    + (* the buffer is completed and compressed *)
      rewrite Nat.min_l by lia. rewrite decide_True by lia.
      set (tc := (block_size - buffer_len h)%nat).
      assert (length (take tc data) = tc) as Htc by (rewrite length_take; lia).
      assert (splice (buffer_len h) (take tc data) (buffer h)
              = drop (k * block_size) M ++ take tc data) as Hbuf.
      { rewrite <-Hrest, <-take_splice by lia. symmetry. apply take_ge. rewrite length_splice; lia. }
      pose proof (absorb_rest (S k) (M ++ take tc data)
        (splice (buffer_len h) (take tc data) (buffer h)) data tc) as Hrest'.
      assert (compress (state h) (splice (buffer_len h) (take tc data) (buffer h))
        = foldl compress init_state (split_blocks block_size (S k) (M ++ take tc data))) as ->.
      { replace (S k) with (k + 1)%nat by lia.
        rewrite split_blocks_add, foldl_app, split_blocks_app, <-Hst by lia. cbn [split_blocks foldl].
        rewrite drop_app_le, <-Hbuf by lia. symmetry. f_equal. apply take_ge. rewrite length_splice; lia. }
      rewrite <-app_assoc, take_drop in Hrest'.
      destruct (absorb_blocks B _ _ _ _) as [st off].
      specialize (Hrest' ltac:(rewrite length_app; lia) ltac:(rewrite length_splice; lia) ltac:(lia)).
      case_decide; apply Hrest'.
  - assert (buffer_len h = 0%nat) as H0 by lia. rewrite H0.
    pose proof (absorb_rest k M (buffer h) data 0 ltac:(lia) Hb ltac:(lia)) as Hrest'.
    rewrite drop_0 in Hrest'. rewrite Hst. destruct (absorb_blocks B _ _ _ _) as [st off].
    case_decide; apply Hrest'.
Qed.

(** The padding of a message of [k] full blocks and [r] bytes. *)
Lemma fips_padding k r n : n = (k * block_size + r)%nat → (r < block_size)%nat →
  let z := ((block_size - (S n + len_size) mod block_size) mod block_size)%nat in
  if decide (block_size - len_size < S r)%nat
  then z = (block_size - S r + (block_size - len_size))%nat
  else z = (block_size - len_size - S r)%nat.
Proof.
  intros -> Hr. pose proof block_room as Hroom. cbn zeta.
  replace (S (k * block_size + r) + len_size)%nat with (S r + len_size + k * block_size)%nat by lia.
  rewrite Nat.Div0.mod_add. case_decide.
  - assert ((S r + len_size) mod block_size = S r + len_size - block_size)%nat as ->.
    { replace (S r + len_size)%nat with (S r + len_size - block_size + 1 * block_size)%nat at 1 by lia.
      rewrite Nat.Div0.mod_add. apply Nat.mod_small. lia. }
    rewrite Nat.mod_small; lia.
  - destruct (decide (S r + len_size = block_size)%nat) as [Heq|].
    + rewrite Heq, Nat.Div0.mod_same, Nat.sub_0_r, Nat.Div0.mod_same. lia.
    + rewrite (Nat.mod_small (S r + len_size)) by lia. rewrite Nat.mod_small; lia.
Qed.

Lemma finalize_absorbed k h M : absorbed k h M →
  finalize B h = fips_hash block_size len_size word_size init_state compress M.
Proof.
  intros [Hl Hr Hb Hrest Hst Htot]. pose proof block_room as Hroom.
  unfold finalize, fips_hash, fips_pad.
  pose proof (fips_padding k (buffer_len h) (length M) Hl Hr) as Hz. cbn zeta in Hz.
  set (z := ((block_size - (S (length M) + len_size) mod block_size) mod block_size)%nat) in *.
  set (room := (block_size - len_size)%nat) in *. rewrite insert_splice by lia.
  set (buf0 := splice (buffer_len h) [0x80] (buffer h)).
  assert (length buf0 = block_size) as Hb0 by (unfold buf0; rewrite length_splice; simpl; lia).
  assert (take (S (buffer_len h)) buf0 = drop (k * block_size) M ++ [0x80]) as Ht0.
  { rewrite <-Hrest, <-take_splice by lia. simpl. by rewrite Nat.add_1_r. }
  assert (to_be_bytes len_size (wrap (8 * Z.of_nat len_size) (total_len h * 8))
          = to_be_bytes len_size (8 * Z.of_nat (length M))) as ->.
  { rewrite to_be_bytes_wrap, Htot, <-(to_be_bytes_wrap len_size (8 * _)), <-to_be_bytes_wrap.
    f_equal. unfold wrap. rewrite Zmult_mod_idemp_l. f_equal. lia. }
  set (lb := to_be_bytes len_size (8 * Z.of_nat (length M))).
  assert (length lb = len_size) as Hlb by apply length_to_be_bytes.
  set (P := M ++ 0x80 :: replicate z 0 ++ lb).
  assert (length P = length M + S (z + len_size))%nat as HP.
  { unfold P. rewrite length_app. simpl. rewrite length_app, length_replicate. lia. }
  assert (∀ buf, length buf = block_size → splice room lb buf = take room buf ++ lb) as Hlast.
  { intros buf Hbuf. rewrite <-take_splice by lia. symmetry. apply take_ge. rewrite length_splice; lia. }
  assert (drop (k * block_size) P = drop (k * block_size) M ++ 0x80 :: replicate z 0 ++ lb) as HdP.
  { unfold P. by rewrite drop_app_le by lia. }
  assert (length (drop (k * block_size) M) = buffer_len h) as HlM by (rewrite length_drop; lia).
  assert (split_blocks block_size k P = split_blocks block_size k M) as HsP
    by (apply split_blocks_app; lia).
  case_decide as Hd.
  - assert (length P = (k + 2) * block_size)%nat as HP2 by lia.
    rewrite HP2, Nat.div_mul by lia. rewrite split_blocks_add, foldl_app, HsP, <-Hst.
    cbn [split_blocks foldl]. rewrite HdP, Hz, replicate_add.
    set (buf1 := splice (S (buffer_len h)) (replicate (block_size - S (buffer_len h)) 0) buf0).
    assert (length buf1 = block_size) as Hb1 by (unfold buf1; rewrite length_splice; rewrite ?length_replicate; lia).
    assert (drop (k * block_size) M ++ 0x80 :: (replicate (block_size - S (buffer_len h)) 0 ++ replicate room 0) ++ lb
      = buf1 ++ replicate room 0 ++ lb) as ->.
    { rewrite <-(take_ge buf1 block_size) by lia.
      pose proof (take_splice (S (buffer_len h)) (replicate (block_size - S (buffer_len h)) 0) buf0 ltac:(lia)) as Ht1.
      rewrite length_replicate in Ht1.
      replace (S (buffer_len h) + (block_size - S (buffer_len h)))%nat with block_size in Ht1 by lia.
      fold buf1 in Ht1. rewrite Ht1, Ht0, <-!app_assoc. done. }
    rewrite take_app_length', drop_app_length' by done.
    rewrite (take_ge (replicate room 0 ++ lb)) by (rewrite length_app, length_replicate; lia).
    rewrite Hlast by (rewrite length_splice; rewrite ?length_replicate; lia). do 3 f_equal.
    rewrite Nat.sub_0_r. pose proof (take_splice 0 (replicate room 0) buf1 ltac:(lia)) as Ht1.
    rewrite length_replicate, take_0 in Ht1. exact Ht1.
  - assert (length P = (k + 1) * block_size)%nat as HP1 by lia.
    rewrite HP1, Nat.div_mul by lia. rewrite split_blocks_add, foldl_app, HsP, <-Hst.
    cbn [split_blocks foldl]. rewrite HdP, Hz. do 2 f_equal.
    rewrite Hlast by (rewrite length_splice; rewrite ?length_replicate; lia).
    rewrite (take_ge (drop _ _ ++ _)) by (rewrite length_app; simpl; rewrite length_app, length_replicate; lia).
    pose proof (take_splice (S (buffer_len h)) (replicate (room - S (buffer_len h)) 0) buf0 ltac:(lia)) as Ht1.
    rewrite length_replicate in Ht1. replace (S (buffer_len h) + (room - S (buffer_len h)))%nat with room in Ht1 by lia.
    rewrite Ht1, Ht0, <-!app_assoc. done.
Qed.

Lemma streaming_hash chunks :
  finalize B (foldl (λ h d, update B d h) (hash_new B) chunks)
  = fips_hash block_size len_size word_size init_state compress (concat chunks).
Proof.
  assert (∀ chunks k h M, absorbed k h M →
    ∃ k', absorbed k' (foldl (λ h d, update B d h) h chunks) (M ++ concat chunks)) as H.
  { clear chunks. induction chunks as [|d chunks IH]; intros k h M Hh.
    - exists k. by rewrite app_nil_r.
    - destruct (update_absorbed k h M d Hh) as [k' Hh']. simpl. rewrite app_assoc. by eapply IH. }
  destruct (H chunks 0%nat _ _ absorbed_new) as [k' Hk']. by eapply finalize_absorbed.
Qed.
End streaming.

(** ** Types *)

Lemma sha2_compress_words P st b : 0 ≤ s_w P → Forall (is_word (s_w P)) (sha2_compress P st b).
Proof.
  intros Hw. unfold sha2_compress. destruct (foldl _ _ _) as [[[[[[[a b'] c] d] e] f] g] h].
  repeat constructor; by apply wadd_word.
Qed.

Lemma sha1_compress_words st b : Forall (is_word 32) (sha1_compress st b).
Proof.
  unfold sha1_compress. destruct (foldl _ _ _) as [[[[a b'] c] d] e]. repeat constructor; by apply wadd_word.
Qed.

Lemma words_checked w l : forallb (λ x, (0 <=? x) && (x <? 2 ^ w)) l = true → Forall (is_word w) l.
Proof.
  intros H. apply Forall_forall. intros x Hx%list_elem_of_In. rewrite forallb_forall in H. apply H in Hx.
  unfold is_word. lia.
Qed.

Lemma splice_bytes off data buf : Forall is_byte data → Forall is_byte buf → Forall is_byte (splice off data buf).
Proof.
  intros Hd Hb. unfold splice. apply Forall_app; split; [by apply Forall_take|].
  apply Forall_app; split; [done|by apply Forall_drop].
Qed.

Section types.
Context (B : BlockHash) (w : Z).
Hypothesis (Hcw : ∀ st b, Forall (is_word w) (compress st b)) (Hiw : Forall (is_word w) init_state).

Lemma update_bytes data h : Forall is_byte data → Forall is_byte (buffer h) → Forall is_byte (buffer (update B data h)).
Proof.
  intros Hd Hb. unfold update.
  assert (∀ st buf (len offset : nat) t, Forall is_byte buf →
    Forall is_byte (buffer (let '(st, offset) := absorb_blocks B (S (length data)) offset data st in
      let '(buf, len) := if decide (offset < length data)%nat
        then (splice 0 (drop offset data) buf, (length data - offset)%nat) else (buf, len) in
      mkHasher st buf len t))) as H.
  { intros st buf len offset t Hbuf. destruct (absorb_blocks _ _ _ _ _) as [st' off'].
    case_decide; cbn [buffer]; [|done]. apply splice_bytes; [by apply Forall_drop|done]. }
  assert (∀ n, Forall is_byte (splice (buffer_len h) (take n data) (buffer h))) as Hs
    by (intros n; apply splice_bytes; [by apply Forall_take|done]).
  case_decide; [case_decide|]; by apply H.
Qed.

Lemma fold_words bl : ∀ st, Forall (is_word w) st → Forall (is_word w) (foldl compress st bl).
Proof using Hcw. induction bl as [|b bl IH]; intros st Hst; [done|]. simpl. apply IH, Hcw. Qed.

Lemma fold_compress_length bl : ∀ st, length st = length init_state → length (foldl compress st bl) = length init_state.
Proof. induction bl as [|b bl IH]; intros st Hst; [done|]. simpl. apply IH, compress_length. Qed.

Lemma typed_hasher chunks : Forall (Forall is_byte) chunks →
  let h := foldl (λ h d, update B d h) (hash_new B) chunks in
  length (buffer h) = block_size ∧ Forall is_byte (buffer h) ∧ (buffer_len h < block_size)%nat ∧
  length (state h) = length init_state ∧ Forall (is_word w) (state h) ∧
  is_word (8 * Z.of_nat len_size) (total_len h) ∧
  length (finalize B h) = (length init_state * word_size)%nat ∧ Forall is_byte (finalize B h).
Proof using Hcw Hiw.
  intros Hc.
  assert (∀ chunks k h M, Forall (Forall is_byte) chunks → absorbed B k h M → Forall is_byte (buffer h) →
    ∃ k' M', absorbed B k' (foldl (λ h d, update B d h) h chunks) M' ∧
      Forall is_byte (buffer (foldl (λ h d, update B d h) h chunks))) as H.
  { clear chunks Hc. induction chunks as [|d chunks IH]; intros k h M Hc Hh Hb; [eauto|].
    apply Forall_cons in Hc as [Hd Hc]. destruct (update_absorbed B k h M d Hh) as [k' Hh']. simpl.
    eapply IH; [done|exact Hh'|]. by apply update_bytes. }
  destruct (H chunks 0%nat (hash_new B) [] Hc (absorbed_new B)) as (k & M & [Hl Hr Hb Hrest Hst Htot] & Hbytes).
  { apply Forall_replicate. unfold is_byte. lia. }
  clear H. set (h := foldl _ _ chunks) in *. cbn zeta.
  assert (∀ st b, length (flat_map (to_be_bytes word_size) (compress st b)) = (length init_state * word_size)%nat ∧
    Forall is_byte (flat_map (to_be_bytes word_size) (compress st b))) as Hout.
  { intros st b. rewrite <-(compress_length st b). induction (compress st b) as [|x l IH]; [split; [done|constructor]|].
    cbn [flat_map length]. rewrite length_app, (proj1 IH), length_to_be_bytes. split; [lia|].
    apply Forall_app; split; [apply to_be_bytes_byte|apply IH]. }
  split; [done|]. split; [done|]. split; [done|]. split; [rewrite Hst; by apply fold_compress_length|].
  split; [rewrite Hst; by apply fold_words|]. split; [rewrite Htot; apply wrap_word; lia|].
  unfold finalize. case_decide; apply Hout.
Qed.
End types.

(** ** XXHash3 *)

Module Xx.
Definition PRIME64_1 : Z := 0x9E3779B185EBCA87.
Definition PRIME64_2 : Z := 0xC2B2AE3D27D4EB4F.
Definition PRIME64_3 : Z := 0x165667B19E3779F9.
Definition PRIME64_4 : Z := 0x85EBCA77C2B2AE63.
Definition PRIME64_5 : Z := 0x27D4EB2F165667C5.

(** [XxHash3]; the accumulators [acc] are written once and never read. *)
Record XxHash3 := mkXx { acc : list Z; xbuffer : list Z; xbuffer_len : nat; xtotal_len : Z; seed : Z }.

Definition with_seed (seed : Z) : XxHash3 :=
  let a := [u64_add PRIME64_1 PRIME64_2; PRIME64_2; 0; u64 (- PRIME64_1)] in
  mkXx (a ++ a) (replicate 256 0) 0 0 seed.

Definition xx_update (data : list Z) (h : XxHash3) : XxHash3 :=
  let to_copy := Nat.min (length (xbuffer h) - xbuffer_len h) (length data) in
  mkXx (acc h) (splice (xbuffer_len h) (take to_copy data) (xbuffer h)) (xbuffer_len h + to_copy)
    (u64_add (xtotal_len h) (Z.of_nat (length data))) (seed h).

Definition avalanche (h : Z) : Z :=
  let h := Z.lxor h (Z.shiftr h 33) in
  let h := u64_mul h PRIME64_2 in
  let h := Z.lxor h (Z.shiftr h 29) in
  let h := u64_mul h PRIME64_3 in
  Z.lxor h (Z.shiftr h 32).

(** The loops over chunks of 8 bytes, at most one chunk of 4, and single bytes; [fuel] is
    the length of the input. *)
Fixpoint mix8 (fuel : nat) (input : list Z) (h : Z) : list Z * Z :=
  match fuel with
  | O => (input, h)
  | S fuel =>
      if decide (8 <= length input)%nat then
        let k := from_le_bytes (take 8 input) in
        let h := Z.lxor h (u64_mul (rotate_left 64 31 (u64_mul k PRIME64_2)) PRIME64_1) in
        let h := u64_add (u64_mul (rotate_left 64 27 h) PRIME64_1) PRIME64_4 in
        mix8 fuel (drop 8 input) h
      else (input, h)
  end.

Definition mix4 (input : list Z) (h : Z) : list Z * Z :=
  if decide (4 <= length input)%nat then
    let k := from_le_bytes (take 4 input) in
    let h := Z.lxor h (u64_mul k PRIME64_1) in
    (drop 4 input, u64_add (u64_mul (rotate_left 64 23 h) PRIME64_2) PRIME64_3)
  else (input, h).

Definition mix1 (h byte : Z) : Z :=
  u64_mul (rotate_left 64 11 (Z.lxor h (u64_mul byte PRIME64_5))) PRIME64_1.

Definition xx_finalize (h : XxHash3) : list Z :=
  let input := take (xbuffer_len h) (xbuffer h) in
  let x := u64_add (u64_add (seed h) PRIME64_5) (xtotal_len h) in
  let '(input, x) := mix8 (S (length input)) input x in
  let '(input, x) := mix4 input x in
  to_le_bytes 8 (avalanche (foldl mix1 x input)).

Definition finalize_u64 (h : XxHash3) : Z := from_le_bytes (xx_finalize h).

Definition hash_with_seed (data : list Z) (seed : Z) : Z :=
  finalize_u64 (xx_update data (with_seed seed)).
End Xx.

(** ** Properties *)

(** The primes up to [n], by trial division, and the first [bits] bits of the fractional
    part of a root: [k] is those bits of [p ^ (1 / e)]. *)
Definition primes (n : nat) : list nat :=
  filter (λ p, forallb (λ d, negb (Nat.eqb (p mod d) 0)) (seq 2 (p - 2)) = true) (seq 2 n).
Definition root_fraction (e bits p k : Z) : bool :=
  existsb (λ q, let c := q * 2 ^ bits + k in
                (c ^ e <=? p * 2 ^ (e * bits)) && (p * 2 ^ (e * bits) <? (c + 1) ^ e))
    (Z.of_nat <$> seq 0 21).
Definition root_table (e bits : Z) (n : nat) (table : list Z) : bool :=
  (length table =? n)%nat &&
  forallb (λ '(p, k), (0 <=? k) && (k <? 2 ^ bits) && root_fraction e bits (Z.of_nat p) k)
    (zip (primes 410) table).

(** The constants are the ones the standard derives: the initial states are the
    first 32 (64) bits of the fractional parts of the square roots of the first 8 primes,
    the round constants those of the cube roots of the first 64 (80). *)
Theorem sha2_constants :
  root_table 2 32 8 sha256_H && root_table 3 32 64 sha256_K &&
  root_table 2 64 8 sha512_H && root_table 3 64 80 sha512_K = true.
Proof. vm_compute. reflexivity. Qed.

(** [C15] Whatever way a message is cut into calls of [update], the hashers return the hash
    FIPS 180-4 defines of the whole message: SHA-256, SHA-512 and SHA-1 with the standard's
    padding, message schedule and rounds. *)
Theorem hash_is_fips (chunks : list (list Z)) :
  let run (B : BlockHash) := finalize B (foldl (λ h d, update B d h) (hash_new B) chunks) in
  run Sha256 = fips_hash 64 8 4 sha256_H (fips_sha2 sha256_params) (concat chunks) ∧
  run Sha512 = fips_hash 128 16 8 sha512_H (fips_sha2 sha512_params) (concat chunks) ∧
  run Sha1 = fips_hash 64 8 4 sha1_H fips_sha1 (concat chunks).
Proof.
  cbv beta zeta. rewrite !streaming_hash. unfold fips_hash. split; [|split].
  - f_equal. apply foldl_ext. intros H b. apply sha2_compress_spec. simpl. lia.
  - f_equal. apply foldl_ext. intros H b. apply sha2_compress_spec. simpl. lia.
  - f_equal. assert (Forall (is_word 32) sha1_H) as HH.
    { repeat constructor; vm_compute; congruence. }
    apply sha1_fold. exact HH.
Qed.

(** XXHash3 looks at the first 256 bytes only: two inputs of the same length that
    agree there have the same hash, for every seed. *)
Theorem xxhash_ignores_tail (seed : Z) (prefix tail1 tail2 : list Z) :
  length prefix = 256%nat → length tail1 = length tail2 →
  Xx.hash_with_seed (prefix ++ tail1) seed = Xx.hash_with_seed (prefix ++ tail2) seed.
Proof.
  intros Hp Ht. unfold Xx.hash_with_seed, Xx.xx_update.
  change (length (Xx.xbuffer (Xx.with_seed seed)) - Xx.xbuffer_len (Xx.with_seed seed))%nat with 256%nat.
  rewrite !length_app, Hp, Ht, !Nat.min_l by lia. by rewrite !take_app_length'.
Qed.

(** The hashers keep the types of their fields over any sequence of updates with
    bytes: the buffer holds a block of bytes and never fills up, the state words have the
    width of the algorithm, the length wraps at its width, and the digest has
    [OUTPUT_SIZE] bytes. *)
Theorem hasher_well_typed (chunks : list (list Z)) :
  Forall (Forall is_byte) chunks →
  let typed (B : BlockHash) (w : Z) (digest : nat) :=
    let h := foldl (λ h d, update B d h) (hash_new B) chunks in
    length (buffer h) = block_size ∧ Forall is_byte (buffer h) ∧ (buffer_len h < block_size)%nat ∧
    length (state h) = length init_state ∧ Forall (is_word w) (state h) ∧
    is_word (8 * Z.of_nat len_size) (total_len h) ∧
    length (finalize B h) = digest ∧ Forall is_byte (finalize B h) in
  typed Sha256 32 32%nat ∧ typed Sha512 64 64%nat ∧ typed Sha1 32 20%nat.
Proof.
  intros Hc typed. unfold typed. split; [|split].
  - apply (typed_hasher Sha256 32); [intros; by apply (sha2_compress_words sha256_params)|apply words_checked; reflexivity|done].
  - apply (typed_hasher Sha512 64); [intros; by apply (sha2_compress_words sha512_params)|apply words_checked; reflexivity|done].
  - apply (typed_hasher Sha1 32); [intros; apply sha1_compress_words|apply words_checked; reflexivity|done].
Qed.

Lemma hasher_well_typed_witness :
  let h := foldl (λ h d, update Sha256 d h) (hash_new Sha256) [[97; 98]; [99]] in
  buffer_len h = 3%nat ∧ length (finalize Sha256 h) = 32%nat.
Proof.
  assert (Forall (Forall is_byte) [[97; 98]; [99]]) as Hb by (repeat constructor; discriminate).
  split; [reflexivity|].
  exact (proj1 (proj2 (proj2 (proj2 (proj2 (proj2 (proj2 (proj1 (hasher_well_typed [[97; 98]; [99]] Hb))))))))).
Defined.
