(* ===== verification/Kdf.v ===== *)
(** * Kdf: HMAC and key derivation ([kernel/src/crypto/mac.rs], [kdf.rs], and
    [constant_time_eq] of [crypto/mod.rs])

    HMAC-SHA256, HMAC-SHA512 and HMAC-SHA1 are one text over the hashers of [Hash];
    HKDF (RFC 5869) and PBKDF2 (RFC 8018) run on top. *)

From Stdlib Require Import ZArith Lia.
From stdpp Require Import list.
From S2P Require Import Prelude.
From S2P Require Import Ids.
From S2P Require Import Bytes.
From S2P Require Import Hash.

Definition constant_time_eq (a b : list Z) : bool :=
  if decide (length a ≠ length b) then false
  else foldl (λ result '(x, y), Z.lor result (Z.lxor x y)) 0 (zip a b) =? 0.

(** ** HMAC *)

Record Hmac := mkHmac { inner : Hasher; outer_key_pad : list Z }.

Section hmac.
Context (B : BlockHash).

Definition key_block (key : list Z) : list Z :=
  if decide (block_size < length key)%nat
  then splice 0 (hash B key) (replicate block_size 0)
  else splice 0 key (replicate block_size 0).

Definition hmac_new (key : list Z) : Hmac :=
  let inner_key_pad := xor_bytes (replicate block_size 0x36) (key_block key) in
  let outer_key_pad := xor_bytes (replicate block_size 0x5c) (key_block key) in
  mkHmac (update B inner_key_pad (hash_new B)) outer_key_pad.

Definition hmac_update (data : list Z) (m : Hmac) : Hmac :=
  mkHmac (update B data (inner m)) (outer_key_pad m).

Definition hmac_finalize (m : Hmac) : list Z :=
  let inner_hash := finalize B (inner m) in
  finalize B (update B inner_hash (update B (outer_key_pad m) (hash_new B))).

Definition mac (key data : list Z) : list Z := hmac_finalize (hmac_update data (hmac_new key)).

Definition verify (key data tag : list Z) : bool := constant_time_eq (mac key data) tag.

(** [HmacSha1::compute]: the inner pad is recovered from the outer one. *)
Definition inner_data (m : Hmac) : list Z :=
  map (λ b, Z.lxor (Z.lxor b 0x36) 0x5c) (outer_key_pad m).

Definition compute (m : Hmac) (data : list Z) : list Z :=
  let inner_hash := finalize B (update B data (update B (inner_data m) (hash_new B))) in
  finalize B (update B inner_hash (update B (outer_key_pad m) (hash_new B))).

(** ** HKDF *)

Inductive HkdfError := OutputTooLong.

(** [Hash::OUTPUT_SIZE]. *)
Definition output_size : nat := (length init_state * word_size)%nat.

Definition extract (salt ikm : list Z) : list Z :=
  let salt := if decide (salt = []) then replicate output_size 0 else salt in
  mac salt ikm.

Definition expand_step (prk info : list Z) (st : list Z * list Z) (i : nat) : list Z * list Z :=
  let '(okm, t) := st in
  let t := hmac_finalize
             (hmac_update [u8 (Z.of_nat i)] (hmac_update info (hmac_update t (hmac_new prk)))) in
  (okm ++ t, t).

Definition expand (prk info : list Z) (len : nat) : Result (list Z) HkdfError :=
  if decide (255 * output_size < len)%nat then Err OutputTooLong
  else
    let n := ((len + (output_size - 1)) / output_size)%nat in
    let '(okm, _) := foldl (expand_step prk info) ([], []) (seq 1 n) in
    Ok (take len okm).

Definition derive (salt ikm info : list Z) (len : nat) : Result (list Z) HkdfError :=
  expand (extract salt ikm) info len.

(** ** PBKDF2 *)

Inductive Pbkdf2Error := InvalidIterations | InvalidKeyLength | KeyTooLong.

(** One iteration of [f]: the last HMAC and the xor so far. *)
Definition pbkdf2_iter (password : list Z) (st : list Z * list Z) : list Z * list Z :=
  let '(u, result) := st in
  let u := mac password u in
  (u, xor_bytes result u).

Definition pbkdf2_f (password salt : list Z) (iterations : nat) (block_num : Z) : list Z :=
  let u := hmac_finalize
             (hmac_update (to_be_bytes 4 block_num) (hmac_update salt (hmac_new password))) in
  (Nat.iter (iterations - 1) (pbkdf2_iter password) (u, u)).2.

(** The loop over the blocks, common to [derive], [derive_sha1] and the SHA-512 variant. *)
Definition pbkdf2_blocks (password salt : list Z) (iterations key_length : nat) : list Z :=
  let block_count := ((key_length + output_size - 1) / output_size)%nat in
  take key_length
    (foldl (λ derived block_num,
              derived ++ pbkdf2_f password salt iterations (u32 (Z.of_nat block_num)))
       [] (seq 1 block_count)).

(** [Pbkdf2::derive] bounds the key length; the other two variants do not. *)
Definition pbkdf2_derive (max_len : option Z) (password salt : list Z) (iterations key_length : nat) :
    Result (list Z) Pbkdf2Error :=
  if decide (iterations = 0)%nat then Err InvalidIterations
  else if decide (key_length = 0)%nat then Err InvalidKeyLength
  else
    match max_len with
    | Some m => if m <? Z.of_nat key_length then Err KeyTooLong
                else Ok (pbkdf2_blocks password salt iterations key_length)
    | None => Ok (pbkdf2_blocks password salt iterations key_length)
    end.
End hmac.

Definition pbkdf2 := pbkdf2_derive Sha256 (Some ((2 ^ 32 - 1) * 32)).
Definition pbkdf2_sha1 := pbkdf2_derive Sha1 None.
Definition pbkdf2_sha512 := pbkdf2_derive Sha512 None.
Definition HmacSha256_mac := mac Sha256.
Definition HmacSha512_mac := mac Sha512.
Definition HmacSha1_mac := mac Sha1.
Definition hkdf_derive := derive Sha256.
Definition hkdf512_derive := derive Sha512.

(** ** The standards *)

Section rfc.
Context (B : BlockHash).

(** The hash of a whole message, as [Hash] shows the hashers compute it. *)
Definition H (M : list Z) : list Z := fips_hash block_size len_size word_size init_state compress M.

(** RFC 2104. *)
Definition K0 (key : list Z) : list Z :=
  let k := if decide (block_size < length key)%nat then H key else key in
  k ++ replicate (block_size - length k) 0.
Definition rfc_hmac (key text : list Z) : list Z :=
  H (map (λ b, Z.lxor 0x5c b) (K0 key) ++ H (map (λ b, Z.lxor 0x36 b) (K0 key) ++ text)).

(** RFC 5869: [T(i)] and the output. *)
Fixpoint rfc_T (prk info : list Z) (i : nat) : list Z :=
  match i with
  | O => []
  | S j => rfc_hmac prk (rfc_T prk info j ++ info ++ [Z.of_nat i])
  end.
Definition rfc_expand (prk info : list Z) (L : nat) : list Z :=
  let N := ((L + output_size B - 1) / output_size B)%nat in
  take L (concat (map (rfc_T prk info) (seq 1 N))).

(** RFC 8018: [U_c] and [F]. *)
Fixpoint rfc_U (P S : list Z) (i : Z) (c : nat) : list Z :=
  match c with
  | O => rfc_hmac P (S ++ to_be_bytes 4 i)
  | Datatypes.S c => rfc_hmac P (rfc_U P S i c)
  end.
Fixpoint rfc_F (P S : list Z) (i : Z) (c : nat) : list Z :=
  match c with
  | O => rfc_U P S i 0
  | Datatypes.S c' => xor_bytes (rfc_F P S i c') (rfc_U P S i c)
  end.
Definition rfc_pbkdf2 (P S : list Z) (c dkLen : nat) : list Z :=
  let l := ((dkLen + output_size B - 1) / output_size B)%nat in
  take dkLen (concat (map (λ i, rfc_F P S (Z.of_nat i) (c - 1)) (seq 1 l))).
End rfc.

(** ** Proofs *)

Section proofs.
Context (B : BlockHash).

Lemma hash_is_H M : hash B M = H B M.
Proof.
  pose proof (streaming_hash B [M]) as E. cbn [foldl concat] in E. rewrite app_nil_r in E. exact E.
Qed.

(** Two, three, any number of updates. *)
Lemma update2 a b : finalize B (update B b (update B a (hash_new B))) = H B (a ++ b).
Proof.
  pose proof (streaming_hash B [a; b]) as E. cbn [foldl concat] in E. rewrite app_nil_r in E. exact E.
Qed.

Lemma length_H M : length (H B M) = output_size B.
Proof.
  unfold H, fips_hash, output_size.
  generalize (split_blocks block_size (length (fips_pad block_size len_size M) / block_size)
       (fips_pad block_size len_size M)). intros bl.
  assert (length (foldl compress init_state bl) = length init_state) as <-.
  { induction bl as [|b bl IH] using rev_ind; [done|]. rewrite foldl_app. apply compress_length. }
  induction (foldl compress init_state bl) as [|x l IH]; simpl; [done|].
  rewrite length_app, IH, length_to_be_bytes. done.
Qed.

Lemma splice_pad k : (length k ≤ block_size)%nat →
  splice 0 k (replicate block_size 0) = k ++ replicate (block_size - length k) 0.
Proof. intros Hk. unfold splice. rewrite take_0. simpl. by rewrite drop_replicate. Qed.

Lemma key_block_spec key : key_block B key = K0 B key ∧ length (K0 B key) = block_size.
Proof.
  pose proof digest_fits as Hfit. unfold key_block, K0. rewrite hash_is_H.
  assert (length (if decide (block_size < length key)%nat then H B key else key) ≤ block_size)%nat as Hle.
  { case_decide; [rewrite length_H; unfold output_size; lia|lia]. }
  split.
  - rewrite <-splice_pad by done. by case_decide.
  - rewrite length_app, length_replicate. lia.
Qed.

Lemma xor_replicate c l : xor_bytes (replicate (length l) c) l = map (Z.lxor c) l.
Proof. induction l as [|x l IH]; simpl; [done|]. by rewrite <-IH. Qed.

Lemma hmac_pad c key : xor_bytes (replicate block_size c) (key_block B key) = map (λ b, Z.lxor c b) (K0 B key).
Proof. destruct (key_block_spec key) as [-> <-]. apply xor_replicate. Qed.

Lemma hmac_stream key chunks :
  hmac_finalize B (foldl (λ m d, hmac_update B d m) (hmac_new B key) chunks) = rfc_hmac B key (concat chunks).
Proof.
  assert (∀ m, foldl (λ m d, hmac_update B d m) m chunks
    = mkHmac (foldl (λ h d, update B d h) (inner m) chunks) (outer_key_pad m)) as ->.
  { induction chunks as [|d chunks IH]; intros [i o]; [done|]. simpl. by rewrite IH. }
  unfold hmac_finalize, hmac_new. cbn [inner outer_key_pad]. rewrite update2, !hmac_pad.
  unfold rfc_hmac. do 2 f_equal. set (pad := map _ (K0 B key)).
  pose proof (streaming_hash B (pad :: chunks)) as E. exact E.
Qed.

Lemma mac_spec key data : mac B key data = rfc_hmac B key data.
Proof. pose proof (hmac_stream key [data]) as E. cbn [concat] in E. by rewrite app_nil_r in E. Qed.

Lemma mac_length key data : length (mac B key data) = output_size B.
Proof. rewrite mac_spec. apply length_H. Qed.

Lemma constant_time_eq_spec a b : constant_time_eq a b = true ↔ a = b.
Proof.
  unfold constant_time_eq. destruct (decide (length a ≠ length b)) as [Hl|Hl]; [naive_solver|]. apply dec_stable in Hl.
  rewrite Z.eqb_eq.
  assert (∀ r, foldl (λ result '(x, y), Z.lor result (Z.lxor x y)) r (zip a b) = 0 ↔ r = 0 ∧ a = b) as E.
  { revert b Hl. induction a as [|x a IH]; intros [|y b] Hl r; simpl in *; try done; [naive_solver|].
    rewrite IH by lia. rewrite Z.lor_eq_0_iff, Z.lxor_eq_0_iff. naive_solver. }
  rewrite E. naive_solver.
Qed.

Lemma inner_data_spec key chunks :
  inner_data (foldl (λ m d, hmac_update B d m) (hmac_new B key) chunks) = map (λ b, Z.lxor 0x36 b) (K0 B key).
Proof.
  assert (∀ m, outer_key_pad (foldl (λ m d, hmac_update B d m) m chunks) = outer_key_pad m) as E.
  { induction chunks as [|d chunks IH]; intros m; [done|]. simpl. by rewrite IH. }
  unfold inner_data. rewrite E. cbn [hmac_new outer_key_pad]. rewrite hmac_pad, map_map.
  apply map_ext. intros b. rewrite (Z.lxor_comm 0x5c), !Z.lxor_assoc.
  change (Z.lxor 92 (Z.lxor 54 92)) with 54. apply Z.lxor_comm.
Qed.

Lemma compute_spec key chunks data :
  compute B (foldl (λ m d, hmac_update B d m) (hmac_new B key) chunks) data = rfc_hmac B key data.
Proof.
  unfold compute. rewrite !update2, inner_data_spec.
  assert (∀ m, outer_key_pad (foldl (λ m d, hmac_update B d m) m chunks) = outer_key_pad m) as E.
  { induction chunks as [|d chunks IH]; intros m; [done|]. simpl. by rewrite IH. }
  rewrite E. cbn [hmac_new outer_key_pad]. by rewrite hmac_pad.
Qed.

(** HKDF. *)
Lemma output_pos : (0 < output_size B)%nat.
Proof. apply digest_fits. Qed.

Lemma expand_steps prk info n : (n ≤ 255)%nat →
  foldl (expand_step B prk info) ([], []) (seq 1 n)
  = (concat (map (rfc_T B prk info) (seq 1 n)), rfc_T B prk info n).
Proof.
  induction n as [|n IH]; intros Hn; [done|].
  rewrite seq_S, foldl_app, IH by lia. cbn [foldl expand_step Nat.add].
  assert (hmac_finalize B (hmac_update B [u8 (Z.of_nat (S n))] (hmac_update B info
    (hmac_update B (rfc_T B prk info n) (hmac_new B prk)))) = rfc_T B prk info (S n)) as ->.
  { pose proof (hmac_stream prk [rfc_T B prk info n; info; [u8 (Z.of_nat (S n))]]) as E.
    cbn [foldl concat] in E. rewrite app_nil_r in E. rewrite E. cbn [rfc_T]. do 3 f_equal.
    unfold u8, wrap. rewrite Z.mod_small by lia. done. }
  rewrite map_app, concat_app. cbn [map concat]. by rewrite app_nil_r.
Qed.

Lemma rfc_T_length prk info i : (0 < i)%nat → length (rfc_T B prk info i) = output_size B.
Proof. destruct i; [lia|]. intros _. apply length_H. Qed.

Lemma concat_length {A} (f : nat → list A) k n m : (∀ i, (0 < i)%nat → length (f i) = k) → (0 < m)%nat →
  length (concat (map f (seq m n))) = (n * k)%nat.
Proof.
  intros Hf. revert m. induction n as [|n IH]; intros m Hm; simpl; [done|].
  rewrite length_app, Hf, IH by lia. done.
Qed.

Lemma ceil_div L k : (0 < k)%nat → (L ≤ (L + k - 1) / k * k)%nat.
Proof.
  intros Hk. pose proof (Nat.div_mod (L + k - 1) k ltac:(lia)).
  pose proof (Nat.mod_upper_bound (L + k - 1) k ltac:(lia)). nia.
Qed.

Lemma expand_spec prk info L : (L ≤ 255 * output_size B)%nat →
  expand B prk info L = Ok (rfc_expand B prk info L) ∧ length (rfc_expand B prk info L) = L.
Proof.
  intros HL. pose proof output_pos as Hpos. unfold expand, rfc_expand. rewrite decide_False by lia.
  rewrite Nat.add_sub_assoc by lia. set (n := ((L + output_size B - 1) / output_size B)%nat).
  assert (n ≤ 255)%nat as Hn.
  { unfold n. apply Nat.lt_succ_r, Nat.Div0.div_lt_upper_bound. lia. }
  rewrite expand_steps by done. split; [done|]. rewrite length_take.
  rewrite (concat_length _ (output_size B)) by (lia || apply rfc_T_length).
  pose proof (ceil_div L _ Hpos) as Hc. fold n in Hc. lia.
Qed.

(** PBKDF2. *)
Lemma pbkdf2_f_spec P Sa c i : pbkdf2_f B P Sa c i = rfc_F B P Sa i (c - 1).
Proof.
  unfold pbkdf2_f.
  assert (hmac_finalize B (hmac_update B (to_be_bytes 4 i) (hmac_update B Sa (hmac_new B P))) = rfc_U B P Sa i 0) as ->.
  { pose proof (hmac_stream P [Sa; to_be_bytes 4 i]) as E. cbn [foldl concat] in E.
    by rewrite app_nil_r in E. }
  generalize (c - 1)%nat. intros n.
  assert (Nat.iter n (pbkdf2_iter B P) (rfc_U B P Sa i 0, rfc_U B P Sa i 0)
    = (rfc_U B P Sa i n, rfc_F B P Sa i n)) as ->; [|done].
  induction n as [|n IH]; [done|].
  rewrite Nat.iter_succ, IH. unfold pbkdf2_iter. by rewrite mac_spec.
Qed.

Lemma pbkdf2_blocks_spec P Sa c L : Z.of_nat L ≤ (2 ^ 32 - 1) * Z.of_nat (output_size B) →
  pbkdf2_blocks B P Sa c L = rfc_pbkdf2 B P Sa c L.
Proof.
  intros HL. unfold pbkdf2_blocks, rfc_pbkdf2. pose proof output_pos as Hpos.
  set (l := ((L + output_size B - 1) / output_size B)%nat).
  assert (Z.of_nat l < 2 ^ 32) as Hl.
  { assert (l * output_size B ≤ L + output_size B - 1)%nat by (rewrite Nat.mul_comm; apply Nat.Div0.mul_div_le).
    nia. }
  f_equal. clearbody l. clear HL.
  assert (∀ n, (n ≤ l)%nat → foldl (λ derived block_num,
      derived ++ pbkdf2_f B P Sa c (u32 (Z.of_nat block_num))) [] (seq 1 n)
    = concat (map (λ i, rfc_F B P Sa (Z.of_nat i) (c - 1)) (seq 1 n))) as E; [|by apply E].
  induction n as [|n IH]; intros Hn; [done|].
  rewrite seq_S, foldl_app, IH, map_app, concat_app by lia. cbn [foldl map concat].
  rewrite app_nil_r, pbkdf2_f_spec. unfold u32, wrap. by rewrite Z.mod_small by lia.
Qed.

Lemma rfc_U_length P Sa i c : length (rfc_U B P Sa i c) = output_size B.
Proof. destruct c; apply length_H. Qed.

Lemma rfc_F_length P Sa i c : length (rfc_F B P Sa i c) = output_size B.
Proof.
  induction c as [|c IH]; cbn [rfc_F]; [apply rfc_U_length|].
  rewrite length_xor_bytes, IH, rfc_U_length. lia.
Qed.

Lemma rfc_pbkdf2_length P Sa c L : length (rfc_pbkdf2 B P Sa c L) = L.
Proof.
  unfold rfc_pbkdf2. rewrite length_take, (concat_length _ (output_size B)); [|intros; apply rfc_F_length|lia].
  pose proof (ceil_div L _ output_pos). lia.
Qed.
End proofs.

(** ** Properties *)

(** HMAC over any of the hashers is RFC 2104 of the whole message, however it is cut
    into updates; a tag verifies exactly when it is that value; the one-shot [compute]
    ignores what was fed before and returns the MAC of its argument alone. *)
Theorem hmac_correct (B : BlockHash) (key data tag : list Z) (chunks : list (list Z)) :
  let m := foldl (λ m d, hmac_update B d m) (hmac_new B key) chunks in
  hmac_finalize B m = rfc_hmac B key (concat chunks) ∧
  (verify B key data tag = true ↔ tag = rfc_hmac B key data) ∧
  compute B m data = rfc_hmac B key data.
Proof.
  intros m. split; [apply hmac_stream|]. split; [|apply compute_spec].
  unfold verify. rewrite constant_time_eq_spec, mac_spec. split; congruence.
Qed.

(** HKDF is RFC 5869 and PBKDF2 is RFC 8018: the output has the length asked for; the
    errors are exactly an output longer than 255 digests, no iterations, an empty key and,
    in the variant that checks it, a key longer than 2^32 - 1 digests. *)
Theorem kdf_correct (B : BlockHash) (secret salt info : list Z) (iterations len : nat) (bound : option Z) :
  Z.of_nat len ≤ default ((2 ^ 32 - 1) * Z.of_nat (output_size B)) bound →
  default 0 bound ≤ (2 ^ 32 - 1) * Z.of_nat (output_size B) →
  derive B salt secret info len =
    (if decide (255 * output_size B < len)%nat then Err OutputTooLong
     else Ok (rfc_expand B (rfc_hmac B (if decide (salt = []) then replicate (output_size B) 0 else salt) secret)
                info len)) ∧
  pbkdf2_derive B bound secret salt iterations len =
    (if decide (iterations = 0)%nat then Err InvalidIterations
     else if decide (len = 0)%nat then Err InvalidKeyLength
     else Ok (rfc_pbkdf2 B secret salt iterations len)) ∧
  ((len ≤ 255 * output_size B)%nat → ∀ prk, length (rfc_expand B prk info len) = len) ∧
  length (rfc_pbkdf2 B secret salt iterations len) = len ∧
  (∀ m, pbkdf2_derive B (Some m) secret salt (S iterations) (S len) = Err KeyTooLong ↔ m < Z.of_nat (S len)).
Proof.
  intros Hlen Hbound. split; [|split; [|split; [|split]]].
  - unfold derive, extract. rewrite mac_spec.
    destruct (decide (255 * output_size B < len)%nat); [unfold expand; by rewrite decide_True|].
    by apply expand_spec; lia.
  - unfold pbkdf2_derive. repeat case_decide; try done. destruct bound as [m|]; simpl in *.
    + rewrite (proj2 (Z.ltb_ge _ _)) by lia. by rewrite pbkdf2_blocks_spec by lia.
    + by rewrite pbkdf2_blocks_spec by lia.
  - intros H prk. by apply expand_spec.
  - apply rfc_pbkdf2_length.
  - intros m. unfold pbkdf2_derive. rewrite !decide_False by lia.
    destruct (Z.ltb_spec m (Z.of_nat (S len))); split; [by intros _|by intros _|done|lia].
Qed.

Lemma kdf_correct_witness :
  Z.of_nat 42 ≤ (2 ^ 32 - 1) * 32 ∧
  length (rfc_pbkdf2 Sha256 [112] [115] 2 42) = 42%nat ∧
  hkdf_derive [1] [2] [3] 42 = Ok (rfc_expand Sha256 (rfc_hmac Sha256 [1] [2]) [3] 42) ∧
  pbkdf2 [2] [1] 2 42 = Ok (rfc_pbkdf2 Sha256 [2] [1] 2 42).
Proof.
  assert (Z.of_nat 42 ≤ default ((2 ^ 32 - 1) * Z.of_nat (output_size Sha256)) (Some ((2 ^ 32 - 1) * 32))) as Hl
    by (simpl; lia).
  assert (default 0 (Some ((2 ^ 32 - 1) * 32)) ≤ (2 ^ 32 - 1) * Z.of_nat (output_size Sha256)) as Hb
    by (change (output_size Sha256) with 32%nat; simpl; lia).
  split; [lia|]. split; [|split].
  - exact (proj1 (proj2 (proj2 (proj2 (kdf_correct Sha256 [112] [115] [] 2 42 _ Hl Hb))))).
  - exact (proj1 (kdf_correct Sha256 [2] [1] [3] 2 42 _ Hl Hb)).
  - exact (proj1 (proj2 (kdf_correct Sha256 [2] [1] [3] 2 42 _ Hl Hb))).
Defined.
