(* ===== verification/Cipher.v ===== *)
(** * Cipher: the AEAD interface and what its two implementations share
    ([kernel/src/crypto/cipher.rs], [trait Cipher])

    [Aead] states what a cipher promises to its clients: sealing and opening with the same
    nonce and associated data gives the text back, and opening accepts nothing but what
    sealing produces. [Chacha] and [AesGcm] provide the instances, [Keystore] is proved
    against the interface. Both ciphers add a key stream block by block. *)

From Stdlib Require Import ZArith Lia.
From stdpp Require Import list.
From S2P Require Import Prelude.
From S2P Require Import Ids.
From S2P Require Import Bytes.

Inductive CipherError := InvalidKeyLength | InvalidNonceLength | AuthenticationFailed | BufferTooSmall.

#[global] Instance CipherError_eq_dec : EqDecision CipherError.
Proof. solve_decision. Defined.

Definition bytes (l : list Z) : Prop := Forall is_byte l.

(** The trait, with its laws. A cipher is valid when [cipher_new] made it; [None] is a
    panic, which does not happen. *)
Class Aead (C : Type) := {
  KEY_SIZE : nat; NONCE_SIZE : nat; TAG_SIZE : nat;
  cipher_new : list Z → option (Result C CipherError);
  encrypt : C → list Z → list Z → list Z → Result (list Z) CipherError;
  decrypt : C → list Z → list Z → list Z → Result (list Z) CipherError;
  valid : C → Prop;
  new_ok : ∀ key, length key = KEY_SIZE → ∃ c, cipher_new key = Some (Ok c) ∧ valid c;
  new_total : ∀ key, ∃ r, cipher_new key = Some r ∧ ∀ c, r = Ok c → valid c;
  (** Sealing succeeds exactly for nonces of the right length, adding a tag. *)
  encrypt_ok : ∀ c nonce pt aad, valid c → length nonce = NONCE_SIZE →
    ∃ ct, encrypt c nonce pt aad = Ok ct ∧ length ct = (length pt + TAG_SIZE)%nat;
  (** What is sealed opens. *)
  decrypt_encrypt : ∀ c nonce pt aad ct, valid c →
    encrypt c nonce pt aad = Ok ct → decrypt c nonce ct aad = Ok pt;
  (** What opens was sealed: the ciphertext is the sealing of the text returned. *)
  encrypt_decrypt : ∀ c nonce pt aad ct, valid c →
    decrypt c nonce ct aad = Ok pt → encrypt c nonce pt aad = Ok ct;
  decrypt_nonce : ∀ c nonce ct aad, length nonce ≠ NONCE_SIZE → decrypt c nonce ct aad = Err InvalidNonceLength
}.

(** The scheme both ciphers follow, encrypt then authenticate: [body] adds the key stream,
    [tag] authenticates. *)
Section seal.
Context (body : list Z → list Z → list Z) (tag : list Z → list Z → list Z → list Z).
Hypothesis (body_length : ∀ nonce t, length nonce = 12%nat → length (body nonce t) = length t)
  (body_twice : ∀ nonce t, length nonce = 12%nat → body nonce (body nonce t) = t)
  (tag_length : ∀ nonce ct aad, length nonce = 12%nat → length (tag nonce ct aad) = 16%nat).

Definition tag_diff (n : nat) (a b : list Z) : Z :=
  foldl (λ diff i, Z.lor diff (Z.lxor (nth i a 0) (nth i b 0))) 0 (seq 0 n).

Definition seal (nonce pt aad : list Z) : Result (list Z) CipherError :=
  if decide (length nonce ≠ 12%nat) then Err InvalidNonceLength
  else let ct := body nonce pt in Ok (ct ++ tag nonce ct aad).

Definition unseal (nonce ciphertext aad : list Z) : Result (list Z) CipherError :=
  if decide (length nonce ≠ 12%nat) then Err InvalidNonceLength
  else if decide (length ciphertext < 16)%nat then Err AuthenticationFailed
  else
    let ct_len := (length ciphertext - 16)%nat in
    let ct := take ct_len ciphertext in
    if tag_diff 16 (tag nonce ct aad) (drop ct_len ciphertext) =? 0
    then Ok (body nonce ct)
    else Err AuthenticationFailed.

(** The constant-time comparison of tags. *)
Lemma tag_diff_spec n a b : length a = n → length b = n → tag_diff n a b = 0 ↔ a = b.
Proof.
  intros Ha Hb. unfold tag_diff.
  assert (∀ m r, foldl (λ diff i, Z.lor diff (Z.lxor (nth i a 0) (nth i b 0))) r (seq 0 m) = 0
    ↔ r = 0 ∧ ∀ i, (i < m)%nat → nth i a 0 = nth i b 0) as H.
  { induction m as [|m IH]; intros r; [simpl; split; [intros ->; split; [done|lia]|tauto]|].
    rewrite seq_S, foldl_app. cbn [foldl]. rewrite Z.lor_eq_0_iff, Z.lxor_eq_0_iff, IH. split.
    - intros [[? H] He]. split; [done|]. intros i Hi.
      destruct (decide (i = m)) as [->|]; [done|apply H; lia].
    - intros [? H]. split; [split; [done|]|apply H; lia]. intros i Hi. apply H. lia. }
  rewrite H. split; [|by intros ->]. intros [_ Hi]. apply (nth_ext a b 0 0); [congruence|].
  intros i Hlt. apply Hi. lia.
Qed.

Lemma seal_ok nonce pt aad : length nonce = 12%nat →
  ∃ ct, seal nonce pt aad = Ok ct ∧ length ct = (length pt + 16)%nat.
Proof.
  intros Hn. unfold seal. rewrite decide_False by (intros H; by apply H). eexists. split; [done|].
  by rewrite length_app, body_length, tag_length.
Qed.

Lemma unseal_seal nonce pt aad ct : seal nonce pt aad = Ok ct → unseal nonce ct aad = Ok pt.
Proof.
  unfold seal, unseal. case_decide as Hn; [done|]. intros [= <-].
  set (b := body nonce pt). pose proof (tag_length nonce b aad Hn) as Ht.
  rewrite decide_False by (rewrite length_app; lia).
  rewrite length_app, Ht, Nat.add_sub, take_app_length', drop_app_length' by done.
  rewrite (proj2 (tag_diff_spec 16 _ _ Ht Ht) eq_refl). subst b. by rewrite body_twice.
Qed.

Lemma seal_unseal nonce pt aad ct : unseal nonce ct aad = Ok pt → seal nonce pt aad = Ok ct.
Proof.
  unfold seal, unseal. case_decide as Hn; [done|]. case_decide as Hl; [done|].
  set (b := take (length ct - 16) ct). set (t := drop (length ct - 16) ct).
  destruct (Z.eqb_spec (tag_diff 16 (tag nonce b aad) t) 0) as [E|]; [|done].
  apply tag_diff_spec in E; [|by apply tag_length|subst t; rewrite length_drop; lia].
  intros [= <-]. rewrite body_twice, E by done. subst b t. by rewrite take_drop.
Qed.

Lemma unseal_nonce nonce ct aad : length nonce ≠ 12%nat → unseal nonce ct aad = Err InvalidNonceLength.
Proof. intros Hn. unfold unseal. by rewrite decide_True. Qed.
End seal.

(** ** Adding a key stream *)

(** [while offset < text.len()]: [fuel] bounds the number of blocks of [n] bytes. *)
Fixpoint add_stream {C} (n : nat) (stream : C → list Z) (next : C → C) (fuel : nat) (counter : C)
    (text : list Z) : list Z :=
  match fuel with
  | O => []
  | S fuel =>
      if decide (0 < length text)%nat
      then xor_bytes (take n text) (stream counter)
           ++ add_stream n stream next fuel (next counter) (drop n text)
      else []
  end.

Section add_stream.
Context {C : Type} (n : nat) (stream : C → list Z) (next : C → C) (I : C → Prop).
Hypothesis (Hn : (0 < n)%nat) (Hstream : ∀ c, I c → length (stream c) = n) (Hnext : ∀ c, I c → I (next c)).

Lemma length_add_stream fuel : ∀ c text, I c → (length text < fuel)%nat →
  length (add_stream n stream next fuel c text) = length text.
Proof.
  induction fuel as [|fuel IH]; intros c text Hc Hf; [lia|]. cbn [add_stream]. case_decide; [|simpl; lia].
  rewrite length_app, length_xor_bytes, Hstream, IH, length_take, length_drop;
    [lia|by apply Hnext|rewrite length_drop; lia|done].
Qed.

Lemma add_stream_twice fuel : ∀ c text, I c → (length text < fuel)%nat →
  add_stream n stream next fuel c (add_stream n stream next fuel c text) = text.
Proof.
  induction fuel as [|fuel IH]; intros c text Hc Hf; [lia|].
  pose proof (length_add_stream (S fuel) c text Hc Hf) as Hlen.
  cbn [add_stream] in Hlen |- *. destruct (decide (0 < length text)%nat) as [Hp|Hp].
  2:{ simpl. destruct text; [done|simpl in Hp; lia]. }
  rewrite decide_True by lia.
  set (b := xor_bytes (take n text) (stream c)) in *.
  set (rest := add_stream n stream next fuel (next c) (drop n text)) in *.
  assert (length rest = length text - n)%nat as Hrest.
  { subst rest. rewrite length_add_stream; [rewrite length_drop; lia|by apply Hnext|rewrite length_drop; lia]. }
  assert (take n (b ++ rest) = b ∧ drop n (b ++ rest) = rest) as [-> ->].
  { assert (length b = Nat.min n (length text)) as Hb.
    { subst b. rewrite length_xor_bytes, Hstream, length_take by done. lia. }
    destruct (Nat.le_gt_cases n (length text)).
    - rewrite take_app_length', drop_app_length' by lia. done.
    - assert (rest = []) as -> by (apply nil_length_inv; lia).
      rewrite app_nil_r, take_ge, drop_ge by lia. done. }
  subst b rest. rewrite xor_bytes_twice by (rewrite Hstream, length_take by done; lia).
  rewrite IH; [apply take_drop|by apply Hnext|rewrite length_drop; lia].
Qed.
End add_stream.
