(* ===== verification/Chacha.v ===== *)
(** * Chacha: ChaCha20-Poly1305 ([kernel/src/crypto/cipher.rs], [ChaCha20Poly1305])

    The key stream, the Poly1305 accumulator in five limbs of 26 bits, and the AEAD. The
    specification of the tag is RFC 8439: arithmetic modulo 2^130 - 5 on integers. *)

From Stdlib Require Import ZArith Lia.
From stdpp Require Import list.
From S2P Require Import Prelude.
From S2P Require Import Ids.
From S2P Require Import Bytes.
From S2P Require Import Cipher.

Notation "l .[ i ]" := (nth i l 0) (at level 1, i at level 200, format "l .[ i ]").

(** ** ChaCha20 *)

Definition CONSTANTS : list Z := [0x61707865; 0x3320646e; 0x79622d32; 0x6b206574].

Definition quarter_round (a b c d : nat) (state : list Z) : list Z :=
  let state := <[a := wadd 32 state.[a] state.[b]]> state in
  let state := <[d := rotate_left 32 16 (Z.lxor state.[d] state.[a])]> state in
  let state := <[c := wadd 32 state.[c] state.[d]]> state in
  let state := <[b := rotate_left 32 12 (Z.lxor state.[b] state.[c])]> state in
  let state := <[a := wadd 32 state.[a] state.[b]]> state in
  let state := <[d := rotate_left 32 8 (Z.lxor state.[d] state.[a])]> state in
  let state := <[c := wadd 32 state.[c] state.[d]]> state in
  <[b := rotate_left 32 7 (Z.lxor state.[b] state.[c])]> state.

Definition double_round (w : list Z) : list Z :=
  let w := quarter_round 0 4 8 12 w in
  let w := quarter_round 1 5 9 13 w in
  let w := quarter_round 2 6 10 14 w in
  let w := quarter_round 3 7 11 15 w in
  let w := quarter_round 0 5 10 15 w in
  let w := quarter_round 1 6 11 12 w in
  let w := quarter_round 2 7 8 13 w in
  quarter_round 3 4 9 14 w.

(** Little-endian words of 4 bytes. *)
Definition le_words (n : nat) (l : list Z) : list Z :=
  map (λ i, from_le_bytes [l.[i * 4]; l.[i * 4 + 1]; l.[i * 4 + 2]; l.[i * 4 + 3]]) (seq 0 n).

Definition initial_state (key : list Z) (counter : Z) (nonce : list Z) : list Z :=
  CONSTANTS ++ le_words 8 key ++ [counter] ++ le_words 3 nonce.

Definition chacha20_block (key : list Z) (counter : Z) (nonce : list Z) : list Z :=
  let state := initial_state key counter nonce in
  let working := Nat.iter 10 double_round state in
  flat_map (λ i, to_le_bytes 4 (wadd 32 working.[i] state.[i])) (seq 0 16).

Definition chacha20_encrypt (key nonce plaintext : list Z) (initial_counter : Z) : list Z :=
  add_stream 64 (λ counter, chacha20_block key counter nonce) (λ counter, wadd 32 counter 1)
    (S (length plaintext)) initial_counter plaintext.

(** ** Poly1305 *)

Definition clamp (r : list Z) : list Z :=
  let r := <[3%nat := Z.land r.[3] 15]> r in
  let r := <[7%nat := Z.land r.[7] 15]> r in
  let r := <[11%nat := Z.land r.[11] 15]> r in
  let r := <[15%nat := Z.land r.[15] 15]> r in
  let r := <[4%nat := Z.land r.[4] 252]> r in
  let r := <[8%nat := Z.land r.[8] 252]> r in
  <[12%nat := Z.land r.[12] 252]> r.

(** Five limbs of 26 bits; [b.[16]], the high bit of a message block, is absent (0) for [r]. *)
Definition limbs (b : list Z) : list Z :=
  [Z.lor (Z.lor (Z.lor b.[0] (Z.shiftl b.[1] 8)) (Z.shiftl b.[2] 16)) (Z.shiftl (Z.land b.[3] 0x03) 24);
   Z.lor (Z.lor (Z.lor (Z.shiftr b.[3] 2) (Z.shiftl b.[4] 6)) (Z.shiftl b.[5] 14)) (Z.shiftl (Z.land b.[6] 0x0f) 22);
   Z.lor (Z.lor (Z.lor (Z.shiftr b.[6] 4) (Z.shiftl b.[7] 4)) (Z.shiftl b.[8] 12)) (Z.shiftl (Z.land b.[9] 0x3f) 20);
   Z.lor (Z.lor (Z.lor (Z.shiftr b.[9] 6) (Z.shiftl b.[10] 2)) (Z.shiftl b.[11] 10)) (Z.shiftl b.[12] 18);
   Z.lor (Z.lor (Z.lor b.[13] (Z.shiftl b.[14] 8)) (Z.shiftl b.[15] 16)) (Z.shiftl b.[16] 24)].

Definition u128 (z : Z) : Z := wrap 128 z.

(** One term of the product, [d[idx] += acc[i] * r[j] * factor]. *)
Definition mul_term (acc r : list Z) (i : nat) (d : list Z) (j : nat) : list Z :=
  let factor := if decide (5 <= i + j)%nat then 5 else 1 in
  let idx := ((i + j) mod 5)%nat in
  <[idx := u128 (d.[idx] + u128 (u128 (acc.[i] * r.[j]) * factor))]> d.

Definition mul_limbs (acc r : list Z) : list Z :=
  foldl (λ d i, foldl (mul_term acc r i) d (seq 0 5)) (replicate 5 0) (seq 0 5).

Definition carry (d : list Z) : list Z :=
  let mask := Z.ones 26 in
  let a0 := Z.land (u64 d.[0]) mask in
  let d1 := u128 (d.[1] + Z.shiftr d.[0] 26) in
  let a1 := Z.land (u64 d1) mask in
  let d2 := u128 (d.[2] + Z.shiftr d1 26) in
  let a2 := Z.land (u64 d2) mask in
  let d3 := u128 (d.[3] + Z.shiftr d2 26) in
  let a3 := Z.land (u64 d3) mask in
  let d4 := u128 (d.[4] + Z.shiftr d3 26) in
  let a4 := Z.land (u64 d4) mask in
  let a0 := u64_add a0 (u64_mul (u64 (Z.shiftr d4 26)) 5) in
  let c := Z.shiftr a0 26 in
  [Z.land a0 mask; u64_add a1 c; a2; a3; a4].

(** One block of at most 16 bytes, with its high bit. *)
Definition poly_block (r acc block : list Z) : list Z :=
  let block := splice 0 (block ++ [1]) (replicate 17 0) in
  let acc := zip_with u64_add acc (limbs block) in
  carry (mul_limbs acc r).

Fixpoint poly_blocks (fuel : nat) (r acc msg : list Z) : list Z :=
  match fuel with
  | O => acc
  | S fuel =>
      if decide (0 < length msg)%nat
      then poly_blocks fuel r (poly_block r acc (take 16 msg)) (drop 16 msg)
      else acc
  end.

Definition poly_acc (key msg : list Z) : list Z :=
  poly_blocks (S (length msg)) (limbs (clamp (take 16 key))) (replicate 5 0) msg.

Definition poly1305_mac (key msg : list Z) : list Z :=
  let h := poly_acc key msg in
  let h_full := Z.lor (Z.lor (Z.lor (Z.lor h.[0] (u128 (Z.shiftl h.[1] 26))) (u128 (Z.shiftl h.[2] 52)))
                  (u128 (Z.shiftl h.[3] 78))) (u128 (Z.shiftl h.[4] 104)) in
  let s_full := from_le_bytes (drop 16 key) in
  to_le_bytes 16 (u128 (h_full + s_full)).

Definition pad16 (data : list Z) : list Z :=
  data ++ replicate ((16 - length data mod 16) mod 16) 0.

(** ** The AEAD *)

Record ChaCha20Poly1305 := mkChacha { key : list Z }.

Definition chacha_new (k : list Z) : Result ChaCha20Poly1305 CipherError :=
  if decide (length k ≠ 32%nat) then Err InvalidKeyLength else Ok (mkChacha k).

Definition chacha_tag (c : ChaCha20Poly1305) (nonce ct aad : list Z) : list Z :=
  let poly_key := take 32 (chacha20_block (key c) 0 nonce) in
  let poly_msg := pad16 aad ++ pad16 ct ++ to_le_bytes 8 (Z.of_nat (length aad))
                  ++ to_le_bytes 8 (Z.of_nat (length ct)) in
  poly1305_mac poly_key poly_msg.

Definition chacha_body (c : ChaCha20Poly1305) (nonce text : list Z) : list Z :=
  chacha20_encrypt (key c) nonce text 1.

Definition chacha_encrypt (c : ChaCha20Poly1305) : list Z → list Z → list Z → Result (list Z) CipherError :=
  seal (chacha_body c) (chacha_tag c).
Definition chacha_decrypt (c : ChaCha20Poly1305) : list Z → list Z → list Z → Result (list Z) CipherError :=
  unseal (chacha_body c) (chacha_tag c).

(** ** RFC 8439: the tag *)

Definition P1305 : Z := 2 ^ 130 - 5.

Definition rfc_block (r a : Z) (block : list Z) : Z := ((a + from_le_bytes (block ++ [1])) * r) mod P1305.

Fixpoint rfc_acc (fuel : nat) (r a : Z) (msg : list Z) : Z :=
  match fuel with
  | O => a
  | S fuel =>
      if decide (0 < length msg)%nat then rfc_acc fuel r (rfc_block r a (take 16 msg)) (drop 16 msg) else a
  end.

(** [r] is the first half of the key with 22 bits cleared. *)
Definition rfc_clamp (r : Z) : Z := Z.land r 0x0ffffffc0ffffffc0ffffffc0fffffff.

Definition rfc_poly1305 (key msg : list Z) : list Z :=
  let r := rfc_clamp (from_le_bytes (take 16 key)) in
  let s := from_le_bytes (drop 16 key) in
  to_le_bytes 16 (rfc_acc (S (length msg)) r 0 msg + s).

(** ** The limbs *)

Definition value (l : list Z) : Z :=
  l.[0] + l.[1] * 2 ^ 26 + l.[2] * 2 ^ 52 + l.[3] * 2 ^ 78 + l.[4] * 2 ^ 104.

Lemma lor_add x y k : 0 ≤ k → 0 ≤ x < 2 ^ k → Z.lor x (Z.shiftl y k) = x + y * 2 ^ k.
Proof.
  intros Hk Hx. rewrite <-Z.shiftl_mul_pow2 by done. rewrite <-Z.add_lor_land.
  enough (Z.land x (Z.shiftl y k) = 0) by lia.
  apply Z.bits_inj'. intros i Hi. rewrite Z.land_spec, Z.bits_0.
  destruct (Z.lt_ge_cases i k).
  - rewrite Z.shiftl_spec_low by done. apply andb_false_r.
  - rewrite (proj1 (is_word_testbit k x Hk (proj1 Hx)) Hx) by done. done.
Qed.

(** Small bit operations as arithmetic. *)
Ltac arith :=
  change 0x03 with (Z.ones 2); change 0x0f with (Z.ones 4); change 0x3f with (Z.ones 6);
  rewrite ?Z.land_ones, ?Z.shiftr_div_pow2 by lia.

(** Disjoint fields, innermost first. *)
Ltac lors :=
  repeat match goal with
  | |- context [Z.lor ?x (Z.shiftl ?y ?k)] =>
      lazymatch x with
      | context [Z.lor] => fail
      | _ => rewrite (lor_add x y k) by lia
      end
  end.

Lemma is_byte_div b k : is_byte b → 0 ≤ k ≤ 8 → 0 ≤ b / 2 ^ k < 2 ^ (8 - k) ∧ b = b / 2 ^ k * 2 ^ k + b mod 2 ^ k
  ∧ 0 ≤ b mod 2 ^ k < 2 ^ k.
Proof.
  intros Hb Hk. assert (0 < 2 ^ k) by (apply Z.pow_pos_nonneg; lia).
  pose proof (Z.mod_pos_bound b (2 ^ k) ltac:(lia)). pose proof (Z.div_mod b (2 ^ k) ltac:(lia)).
  unfold is_byte in Hb. assert (2 ^ k * 2 ^ (8 - k) = 256).
  { rewrite <-Z.pow_add_r by lia. by replace (k + (8 - k)) with 8 by lia. }
  split; [split; [apply Z.div_pos; lia|apply Z.div_lt_upper_bound; lia]|]. lia.
Qed.

Definition small_limbs (l : list Z) : Prop :=
  length l = 5%nat ∧ ∀ i, (i < 5)%nat → 0 ≤ l.[i] < 2 ^ 26.

Lemma nth_byte l i : Forall is_byte l → is_byte l.[i].
Proof.
  intros Hl. destruct (Nat.lt_ge_cases i (length l)).
  - eapply Forall_forall; [exact Hl|]. by apply list_elem_of_In, nth_In.
  - rewrite nth_overflow by done. unfold is_byte. lia.
Qed.

Lemma nth_replicate_0 n : ∀ i, (replicate n 0).[i] = 0.
Proof. induction n as [|n IH]; intros [|i]; simpl; auto. Qed.

(** Bytes past the end count as 0. *)
Lemma le_bytes_nth n : ∀ b, (length b ≤ n)%nat → from_le_bytes b = from_le_bytes (map (λ i, b.[i]) (seq 0 n)).
Proof.
  induction n as [|n IH]; intros [|x b] Hlen; simpl in Hlen; try (done || lia).
  - assert (∀ m k, from_le_bytes (map (λ i, ([] : list Z).[i]) (seq k m)) = 0) as E; [|by rewrite E].
    induction m as [|m IHm]; intros k; [done|]. cbn [seq map from_le_bytes]. rewrite IHm. by destruct k.
  - cbn [seq map from_le_bytes]. rewrite (IH b) by (simpl in Hlen; lia). rewrite <-seq_shift, map_map. done.
Qed.

(** Up to 17 bytes as limbs. *)
Lemma limbs_spec b : (length b ≤ 17)%nat → Forall is_byte b → b.[16] ≤ 1 →
  small_limbs (limbs b) ∧ value (limbs b) = from_le_bytes b.
Proof.
  intros Hlen Hb H16.
  assert (∀ i, is_byte b.[i]) as Hi by (intros i; by apply nth_byte).
  rewrite (le_bytes_nth 17 b Hlen).
  pose proof (Hi 0%nat) as B0. pose proof (Hi 1%nat) as B1. pose proof (Hi 2%nat) as B2.
  pose proof (Hi 4%nat) as B4. pose proof (Hi 5%nat) as B5. pose proof (Hi 7%nat) as B7.
  pose proof (Hi 8%nat) as B8. pose proof (Hi 10%nat) as B10. pose proof (Hi 11%nat) as B11.
  pose proof (Hi 12%nat) as B12. pose proof (Hi 13%nat) as B13. pose proof (Hi 14%nat) as B14.
  pose proof (Hi 15%nat) as B15. pose proof (Hi 16%nat) as B16.
  destruct (is_byte_div b.[3] 2 (Hi _) ltac:(lia)) as (? & ? & ?).
  destruct (is_byte_div b.[6] 4 (Hi _) ltac:(lia)) as (? & ? & ?).
  destruct (is_byte_div b.[9] 6 (Hi _) ltac:(lia)) as (? & ? & ?).
  unfold is_byte in *.
  assert (limbs b = [b.[0] + b.[1] * 2 ^ 8 + b.[2] * 2 ^ 16 + b.[3] mod 2 ^ 2 * 2 ^ 24;
    b.[3] / 2 ^ 2 + b.[4] * 2 ^ 6 + b.[5] * 2 ^ 14 + b.[6] mod 2 ^ 4 * 2 ^ 22;
    b.[6] / 2 ^ 4 + b.[7] * 2 ^ 4 + b.[8] * 2 ^ 12 + b.[9] mod 2 ^ 6 * 2 ^ 20;
    b.[9] / 2 ^ 6 + b.[10] * 2 ^ 2 + b.[11] * 2 ^ 10 + b.[12] * 2 ^ 18;
    b.[13] + b.[14] * 2 ^ 8 + b.[15] * 2 ^ 16 + b.[16] * 2 ^ 24]) as ->.
  { unfold limbs. arith. lors. done. }
  split.
  - split; [done|]. intros [|[|[|[|[|i]]]]] Hlt; cbn [nth]; lia.
  - cbn [map seq nth value]. unfold value. cbn [nth]. cbn [from_le_bytes].
    rewrite !Z.shiftl_mul_pow2 by lia. lia.
Qed.

(** The accumulator between blocks: the second limb may carry a little more. *)
Definition acc_ok (l : list Z) : Prop :=
  length l = 5%nat ∧ ∀ i, (i < 5)%nat → 0 ≤ l.[i] < (if decide (i = 1)%nat then 2 ^ 26 + 2 ^ 12 else 2 ^ 26).

Lemma limbs5 (l : list Z) : length l = 5%nat → l = [l.[0]; l.[1]; l.[2]; l.[3]; l.[4]].
Proof. destruct l as [|? [|? [|? [|? [|? [|]]]]]]; done. Qed.

Definition products (a r : list Z) : list Z :=
  [a.[0] * r.[0] + 5 * (a.[1] * r.[4] + a.[2] * r.[3] + a.[3] * r.[2] + a.[4] * r.[1]);
   a.[0] * r.[1] + a.[1] * r.[0] + 5 * (a.[2] * r.[4] + a.[3] * r.[3] + a.[4] * r.[2]);
   a.[0] * r.[2] + a.[1] * r.[1] + a.[2] * r.[0] + 5 * (a.[3] * r.[4] + a.[4] * r.[3]);
   a.[0] * r.[3] + a.[1] * r.[2] + a.[2] * r.[1] + a.[3] * r.[0] + 5 * (a.[4] * r.[4]);
   a.[0] * r.[4] + a.[1] * r.[3] + a.[2] * r.[2] + a.[3] * r.[1] + a.[4] * r.[0]].

Lemma mul_term_wrap d a r f : u128 (d + u128 (u128 (a * r) * f)) = u128 (d + a * r * f).
Proof. unfold u128, wrap. by rewrite Zplus_mod_idemp_r, <-Zplus_mod_idemp_r, Zmult_mod_idemp_l, Zplus_mod_idemp_r. Qed.

Lemma mul_limbs_wrap a r : length a = 5%nat → length r = 5%nat →
  mul_limbs a r = map u128 (products a r).
Proof.
  intros ->%limbs5 ->%limbs5. generalize a.[0] a.[1] a.[2] a.[3] a.[4]. intros a0 a1 a2 a3 a4.
  generalize r.[0] r.[1] r.[2] r.[3] r.[4]. intros r0 r1 r2 r3 r4.
  cbv -[u128 Z.add Z.mul]. rewrite !mul_term_wrap. unfold u128.
  repeat (apply (f_equal2 cons); [wraps|]). done.
Qed.

Lemma mul_bound x y : 0 ≤ x < 2 ^ 28 → 0 ≤ y < 2 ^ 26 → 0 ≤ x * y < 2 ^ 54.
Proof. intros. nia. Qed.

Definition wide (bits : Z) (l : list Z) : Prop := length l = 5%nat ∧ ∀ i, (i < 5)%nat → 0 ≤ l.[i] < 2 ^ bits.

Lemma mul_limbs_spec a r : wide 28 a → small_limbs r →
  wide 60 (mul_limbs a r) ∧ ∃ q, value (mul_limbs a r) = value a * value r - q * P1305.
Proof.
  intros [La Ha] [Lr Hr]. rewrite mul_limbs_wrap by done.
  assert (∀ i j, (i < 5)%nat → (j < 5)%nat → 0 ≤ a.[i] * r.[j] < 2 ^ 54) as Hm
    by (intros i j ? ?; apply mul_bound; auto).
  assert (∀ i, (i < 5)%nat → 0 ≤ (products a r).[i] < 2 ^ 60) as Hp.
  { intros i Hi.
    destruct i as [|[|[|[|[|i]]]]]; [| | | | |lia]; unfold products; cbn [nth];
    repeat match goal with
    | |- context [a.[?i] * r.[?j]] => pose proof (Hm i j ltac:(lia) ltac:(lia)); generalize dependent (a.[i] * r.[j]); intros
    end; lia. }
  assert (map u128 (products a r) = products a r) as ->.
  { rewrite <-map_id. apply map_ext_in. intros x Hx%list_elem_of_In. apply list_elem_of_lookup in Hx as [i Hi].
    apply wrap_small. pose proof (lookup_lt_Some _ _ _ Hi) as Hlt.
    rewrite <-(nth_lookup_Some _ _ 0 _ Hi). specialize (Hp i Hlt). unfold is_word. lia. }
  split; [by split|].
  exists (a.[1] * r.[4] + a.[2] * r.[3] + a.[3] * r.[2] + a.[4] * r.[1]
    + (a.[2] * r.[4] + a.[3] * r.[3] + a.[4] * r.[2]) * 2 ^ 26
    + (a.[3] * r.[4] + a.[4] * r.[3]) * 2 ^ 52 + (a.[4] * r.[4]) * 2 ^ 78).
  unfold value, products, P1305. cbn [nth]. ring.
Qed.

Lemma carry_spec d : wide 60 d → acc_ok (carry d) ∧ ∃ q, value (carry d) = value d - q * P1305.
Proof.
  intros [Ld Hd]. pose proof (Hd 0%nat ltac:(lia)) as D0. pose proof (Hd 1%nat ltac:(lia)) as D1.
  pose proof (Hd 2%nat ltac:(lia)) as D2. pose proof (Hd 3%nat ltac:(lia)) as D3.
  pose proof (Hd 4%nat ltac:(lia)) as D4.
  assert (∀ x, 0 ≤ x < 2 ^ 61 → x = x / 2 ^ 26 * 2 ^ 26 + x mod 2 ^ 26 ∧ 0 ≤ x mod 2 ^ 26 < 2 ^ 26 ∧
    0 ≤ x / 2 ^ 26 < 2 ^ 35) as Hdm.
  { intros x Hx. pose proof (Z.mod_pos_bound x (2 ^ 26) ltac:(lia)).
    pose proof (Z.div_mod x (2 ^ 26) ltac:(lia)). lia. }
  unfold carry. change (Z.ones 26) with (Z.ones 26). rewrite !Z.land_ones, !Z.shiftr_div_pow2 by lia.
  destruct (Hdm d.[0] ltac:(lia)) as (E0 & M0 & Q0). set (q0 := d.[0] / 2 ^ 26) in *.
  rewrite (u64_small d.[0]) by (unfold is_u64; lia).
  assert (u128 (d.[1] + q0) = d.[1] + q0) as -> by (apply wrap_small; unfold is_word; lia).
  destruct (Hdm (d.[1] + q0) ltac:(lia)) as (E1 & M1 & Q1). set (q1 := (d.[1] + q0) / 2 ^ 26) in *.
  rewrite (u64_small (d.[1] + q0)) by (unfold is_u64; lia).
  assert (u128 (d.[2] + q1) = d.[2] + q1) as -> by (apply wrap_small; unfold is_word; lia).
  destruct (Hdm (d.[2] + q1) ltac:(lia)) as (E2 & M2 & Q2). set (q2 := (d.[2] + q1) / 2 ^ 26) in *.
  rewrite (u64_small (d.[2] + q1)) by (unfold is_u64; lia).
  assert (u128 (d.[3] + q2) = d.[3] + q2) as -> by (apply wrap_small; unfold is_word; lia).
  destruct (Hdm (d.[3] + q2) ltac:(lia)) as (E3 & M3 & Q3). set (q3 := (d.[3] + q2) / 2 ^ 26) in *.
  rewrite (u64_small (d.[3] + q2)) by (unfold is_u64; lia).
  assert (u128 (d.[4] + q3) = d.[4] + q3) as -> by (apply wrap_small; unfold is_word; lia).
  destruct (Hdm (d.[4] + q3) ltac:(lia)) as (E4 & M4 & Q4). set (q4 := (d.[4] + q3) / 2 ^ 26) in *.
  rewrite (u64_small (d.[4] + q3)) by (unfold is_u64; lia).
  rewrite (u64_small q4) by (unfold is_u64; lia).
  unfold u64_mul. rewrite (u64_small (q4 * 5)) by (unfold is_u64; lia).
  rewrite u64_add_small by lia. set (a0 := d.[0] mod 2 ^ 26 + q4 * 5) in *.
  destruct (Hdm a0 ltac:(lia)) as (E5 & M5 & Q5). assert (a0 / 2 ^ 26 < 2 ^ 12) by lia.
  set (c := a0 / 2 ^ 26) in *. rewrite u64_add_small by lia. split.
  - split; [done|]. intros [|[|[|[|[|i]]]]] Hi; cbn [nth]; case_decide; lia.
  - exists q4. unfold value, P1305. cbn [nth]. lia.
Qed.

(** ** The accumulator follows the standard *)

Lemma le_bytes_lor b x : is_byte b → b + Z.shiftl x 8 = Z.lor b (Z.shiftl x 8).
Proof. intros Hb. rewrite lor_add by (unfold is_byte in Hb; lia). by rewrite Z.shiftl_mul_pow2. Qed.

Lemma le_bytes_nonneg l : Forall is_byte l → 0 ≤ from_le_bytes l.
Proof.
  induction 1 as [|b l Hb _ IH]; [done|]. cbn [from_le_bytes]. rewrite Z.shiftl_mul_pow2 by lia.
  unfold is_byte in Hb. lia.
Qed.

Lemma le_bytes_land a m : Forall is_byte a → Forall is_byte m → length a = length m →
  from_le_bytes (zip_with Z.land a m) = Z.land (from_le_bytes a) (from_le_bytes m).
Proof.
  intros Ha. revert m. induction Ha as [|x a Hx _ IH]; intros [|y m] Hm Hl; try done.
  apply Forall_cons in Hm as [Hy Hm]. simpl in Hl. cbn [zip_with from_le_bytes]. rewrite IH by (done || lia).
  assert (is_byte (Z.land x y)) as Hxy.
  { apply (land_word 8); [lia|exact Hx|apply Hy]. }
  rewrite !le_bytes_lor by done. apply Z.bits_inj'. intros i Hi.
  rewrite !Z.lor_spec, !Z.land_spec, !Z.lor_spec. destruct (Z.lt_ge_cases i 8).
  - rewrite !Z.shiftl_spec_low by done. by rewrite !orb_false_r.
  - rewrite !Z.shiftl_spec, Z.land_spec by lia.
    rewrite (proj1 (is_word_testbit 8 x ltac:(lia) (proj1 Hx)) Hx),
      (proj1 (is_word_testbit 8 y ltac:(lia) (proj1 Hy)) Hy) by lia. done.
Qed.

Lemma le_bytes_pad l n : from_le_bytes (l ++ replicate n 0) = from_le_bytes l.
Proof.
  induction l as [|x l IH]; cbn [app from_le_bytes]; [|by rewrite IH].
  induction n as [|n IH]; [done|]. cbn [replicate from_le_bytes]. by rewrite IH.
Qed.

Definition clamp_mask : list Z := [255; 255; 255; 15; 252; 255; 255; 15; 252; 255; 255; 15; 252; 255; 255; 15].

Lemma land_255 x : is_byte x → Z.land x 255 = x.
Proof. intros Hx. change 255 with (Z.ones 8). rewrite Z.land_ones by lia. by apply Z.mod_small. Qed.

Lemma clamp_spec r : length r = 16%nat → Forall is_byte r →
  clamp r = zip_with Z.land r clamp_mask ∧ Forall is_byte (clamp r) ∧ length (clamp r) = 16%nat ∧
  from_le_bytes (clamp r) = rfc_clamp (from_le_bytes r).
Proof.
  intros Hl Hb. assert (clamp r = zip_with Z.land r clamp_mask) as E.
  { do 16 (destruct r as [|? r]; [done|apply Forall_cons in Hb as [? Hb]]). destruct r; [|done].
    unfold clamp_mask. cbn [clamp insert list_insert nth zip_with]. by rewrite !land_255 by done. }
  assert (Forall is_byte clamp_mask) as Hm by (repeat constructor; vm_compute; congruence).
  split; [done|]. rewrite E. split; [|split].
  - clear E. generalize dependent clamp_mask. intros m Hm. clear Hl. revert m Hm.
    induction Hb as [|x r Hx _ IH]; intros m Hm; [constructor|].
    destruct Hm as [|y m Hy Hm]; [constructor|]. constructor; [|by apply IH].
    apply (land_word 8); [lia|exact Hx|apply Hy].
  - rewrite length_zip_with, Hl. done.
  - rewrite le_bytes_land by (done || rewrite Hl; done). done.
Qed.


Lemma poly_block_spec r acc block : small_limbs r → acc_ok acc →
  (length block ≤ 16)%nat → Forall is_byte block →
  acc_ok (poly_block r acc block) ∧
  value (poly_block r acc block) mod P1305 = rfc_block (value r) (value acc mod P1305) block.
Proof.
  intros Hr Hacc Hlen Hb. unfold poly_block. destruct Hacc as [La Ha].
  set (blk := splice 0 (block ++ [1]) (replicate 17 0)).
  assert (blk = (block ++ [1]) ++ replicate (16 - length block) 0) as Eblk.
  { subst blk. unfold splice. rewrite take_0. cbn [app]. rewrite drop_replicate, length_app.
    cbn [length Nat.add]. do 2 f_equal. lia. }
  assert (length blk = 17%nat) as Lb by (rewrite Eblk, !length_app, length_replicate; simpl; lia).
  assert (Forall is_byte blk) as Bb.
  { rewrite Eblk. apply Forall_app. split; [apply Forall_app; split; [done|]|apply Forall_replicate]; 
      [repeat constructor|]; unfold is_byte; lia. }
  assert (blk.[16] ≤ 1) as H16.
  { rewrite Eblk. destruct (decide (length block = 16)%nat) as [E|].
    - rewrite app_nth1 by (rewrite length_app, E; simpl; lia).
      rewrite app_nth2 by lia. rewrite E. done.
    - rewrite app_nth2 by (rewrite length_app; simpl; lia).
      rewrite nth_replicate_0. lia. }
  assert (from_le_bytes blk = from_le_bytes (block ++ [1])) as Ev.
  { rewrite Eblk. apply le_bytes_pad. }
  destruct (limbs_spec blk ltac:(lia) Bb H16) as [[Ll Hl] Hv].
  set (sum := zip_with u64_add acc (limbs blk)).
  assert (∀ i, (i < 5)%nat → sum.[i] = acc.[i] + (limbs blk).[i]) as Hsum.
  { intros i Hi. subst sum. rewrite (limbs5 acc La), (limbs5 (limbs blk) Ll).
    pose proof (Ha i Hi). pose proof (Hl i Hi).
    destruct i as [|[|[|[|[|i]]]]]; [| | | | |lia]; cbn [zip_with nth] in *; case_decide; try lia;
      apply u64_add_small; lia. }
  assert (wide 28 sum) as Hw.
  { split; [subst sum; rewrite length_zip_with, La, Ll; done|]. intros i Hi. rewrite Hsum by done.
    pose proof (Ha i Hi). pose proof (Hl i Hi). case_decide; lia. }
  destruct (mul_limbs_spec sum r Hw Hr) as (Hd & q1 & E1).
  destruct (carry_spec _ Hd) as (Hok & q2 & E2). split; [done|].
  rewrite E2, E1. unfold rfc_block. rewrite <-Ev, <-Hv.
  assert (value sum = value acc + value (limbs blk)) as ->.
  { unfold value. rewrite !Hsum by lia. ring. }
  rewrite <-Zmult_mod_idemp_l, Zplus_mod_idemp_l, Zmult_mod_idemp_l.
  replace ((value acc + value (limbs blk)) * value r - q1 * P1305 - q2 * P1305)
    with ((value acc + value (limbs blk)) * value r + (- q1 - q2) * P1305) by ring.
  by rewrite Z.mod_add.
Qed.

Lemma poly_blocks_spec r fuel : ∀ acc msg, small_limbs r → acc_ok acc → Forall is_byte msg →
  acc_ok (poly_blocks fuel r acc msg) ∧
  value (poly_blocks fuel r acc msg) mod P1305 = rfc_acc fuel (value r) (value acc mod P1305) msg mod P1305.
Proof.
  induction fuel as [|fuel IH]; intros acc msg Hr Hacc Hb; cbn [poly_blocks rfc_acc].
  - split; [done|]. by rewrite Z.mod_mod.
  - case_decide; [|split; [done|by rewrite Z.mod_mod]].
    destruct (poly_block_spec r acc (take 16 msg) Hr Hacc) as [Hok Hv];
      [rewrite length_take; lia|by apply Forall_take|].
    destruct (IH _ (drop 16 msg) Hr Hok) as [Hok' Hv']; [by apply Forall_drop|].
    split; [done|]. by rewrite Hv', Hv.
Qed.

Lemma rfc_acc_range fuel r : ∀ a msg, 0 ≤ a < P1305 → 0 ≤ rfc_acc fuel r a msg < P1305.
Proof.
  induction fuel as [|fuel IH]; intros a msg Ha; cbn [rfc_acc]; [done|]. case_decide; [|done].
  apply IH. apply Z.mod_pos_bound. done.
Qed.

Lemma poly_acc_spec key msg : length key = 32%nat → Forall is_byte key → Forall is_byte msg →
  acc_ok (poly_acc key msg) ∧
  value (poly_acc key msg) mod P1305
  = rfc_acc (S (length msg)) (rfc_clamp (from_le_bytes (take 16 key))) 0 msg.
Proof.
  intros Hl Hk Hm. destruct (clamp_spec (take 16 key)) as (_ & Hb & Hlc & Hv);
    [rewrite length_take; lia|by apply Forall_take|].
  destruct (limbs_spec (clamp (take 16 key)) ltac:(lia) Hb) as [Hs Hval].
  { rewrite nth_overflow by lia. lia. }
  assert (acc_ok (replicate 5 0)) as H0.
  { split; [done|]. intros i Hi. rewrite nth_replicate_0. case_decide; lia. }
  destruct (poly_blocks_spec _ (S (length msg)) (replicate 5 0) msg Hs H0 Hm) as [Hok E].
  split; [exact Hok|]. unfold poly_acc. rewrite E, Hval, Hv.
  change (value (replicate 5 0) mod P1305) with 0.
  apply Z.mod_small. apply rfc_acc_range. done.
Qed.

(** The accumulator as one number, when the second limb does not overlap the third. *)
Lemma h_full_spec h : acc_ok h → h.[1] < 2 ^ 26 →
  ∃ q, Z.lor (Z.lor (Z.lor (Z.lor h.[0] (u128 (Z.shiftl h.[1] 26))) (u128 (Z.shiftl h.[2] 52)))
         (u128 (Z.shiftl h.[3] 78))) (u128 (Z.shiftl h.[4] 104)) = value h - q * 2 ^ 128.
Proof.
  intros [_ Hh] H1. pose proof (Hh 0%nat ltac:(lia)) as B0. pose proof (Hh 1%nat ltac:(lia)) as B1.
  pose proof (Hh 2%nat ltac:(lia)) as B2. pose proof (Hh 3%nat ltac:(lia)) as B3.
  pose proof (Hh 4%nat ltac:(lia)) as B4. repeat case_decide; try lia.
  assert (∀ x k, 0 ≤ x < 2 ^ 26 → 0 ≤ k ≤ 102 → u128 (Z.shiftl x k) = Z.shiftl x k) as Hu.
  { intros x k Hx Hk. apply wrap_small. rewrite Z.shiftl_mul_pow2 by lia. split; [nia|].
    apply Z.lt_le_trans with (2 ^ 26 * 2 ^ k); [nia|]. rewrite <-Z.pow_add_r by lia.
    apply Z.pow_le_mono_r; lia. }
  rewrite !Hu by lia.
  pose proof (Z.mod_pos_bound h.[4] (2 ^ 24) ltac:(lia)). pose proof (Z.div_mod h.[4] (2 ^ 24) ltac:(lia)).
  assert (u128 (Z.shiftl h.[4] 104) = Z.shiftl (h.[4] mod 2 ^ 24) 104) as ->.
  { unfold u128, wrap. rewrite !Z.shiftl_mul_pow2 by lia. change (2 ^ 128) with (2 ^ 24 * 2 ^ 104).
    apply Z.mul_mod_distr_r; lia. }
  exists (h.[4] / 2 ^ 24). lors. unfold value. lia.
Qed.

(** ** The interface *)

Lemma length_chacha20_block k counter nonce : length (chacha20_block k counter nonce) = 64%nat.
Proof.
  unfold chacha20_block. generalize (initial_state k counter nonce). intros st.
  generalize (Nat.iter 10 double_round st). intros w.
  assert (∀ l : list nat, length (flat_map (λ i, to_le_bytes 4 (wadd 32 w.[i] st.[i])) l) = (4 * length l)%nat) as ->;
    [|done].
  induction l as [|x l IH]; [done|]. cbn [flat_map length]. rewrite length_app, IH, length_to_le_bytes. lia.
Qed.

Lemma chacha20_length k nonce text c : length (chacha20_encrypt k nonce text c) = length text.
Proof.
  apply (length_add_stream _ _ _ (λ _, True)); [lia|intros; apply length_chacha20_block|done|done|lia].
Qed.

Lemma chacha20_twice k nonce text c :
  chacha20_encrypt k nonce (chacha20_encrypt k nonce text c) c = text.
Proof.
  unfold chacha20_encrypt at 1. rewrite chacha20_length.
  apply (add_stream_twice _ _ _ (λ _, True)); [lia|intros; apply length_chacha20_block|done|done|lia].
Qed.

Lemma length_chacha_tag c nonce ct aad : length (chacha_tag c nonce ct aad) = 16%nat.
Proof. apply length_to_le_bytes. Qed.

Lemma chacha_new_ok k : length k = 32%nat → ∃ c, Some (chacha_new k) = Some (Ok c) ∧ True.
Proof. intros Hk. unfold chacha_new. rewrite decide_False by (intros H; by apply H). eauto. Qed.

#[export] Instance ChaCha20Poly1305_Aead : Aead ChaCha20Poly1305 := {|
  KEY_SIZE := 32; NONCE_SIZE := 12; TAG_SIZE := 16;
  cipher_new k := Some (chacha_new k); encrypt := chacha_encrypt; decrypt := chacha_decrypt;
  valid _ := True;
  new_ok := chacha_new_ok;
  new_total k := ex_intro _ (chacha_new k) (conj eq_refl (λ _ _, I));
  encrypt_ok c n pt aad _ :=
    seal_ok _ _ (λ n t _, chacha20_length (key c) n t 1) (λ n ct aad _, length_chacha_tag c n ct aad) n pt aad;
  decrypt_encrypt c n pt aad ct _ :=
    unseal_seal _ _ (λ n t _, chacha20_twice (key c) n t 1) (λ n ct aad _, length_chacha_tag c n ct aad) n pt aad ct;
  encrypt_decrypt c n pt aad ct _ :=
    seal_unseal _ _ (λ n t _, chacha20_twice (key c) n t 1) (λ n ct aad _, length_chacha_tag c n ct aad) n pt aad ct;
  decrypt_nonce c := unseal_nonce _ _
|}.

(** ** Properties *)

(** [C22] Poly1305: for every key and message the five limbs of the accumulator stay in
    their bounds, below 2^26 each but the second, which can pass it by at most 2^12, so
    that nothing overflows on the way, and they represent the accumulator of RFC 8439
    modulo 2^130 - 5. The tag is the standard's when the last accumulator is below the prime
    and its second limb below 2^26; the code makes neither sure, and the tag is
    another one on two test vectors of the standard ([poly1305_not_reduced]). *)
Theorem poly1305_correct (k msg : list Z) :
  length k = 32%nat → bytes k → bytes msg →
  (∀ i, (i < 5)%nat → 0 ≤ (poly_acc k msg).[i] < if decide (i = 1)%nat then 2 ^ 26 + 2 ^ 12 else 2 ^ 26) ∧
  value (poly_acc k msg) mod P1305
    = rfc_acc (S (length msg)) (rfc_clamp (from_le_bytes (take 16 k))) 0 msg ∧
  (value (poly_acc k msg) < P1305 → (poly_acc k msg).[1] < 2 ^ 26 →
   poly1305_mac k msg = rfc_poly1305 k msg).
Proof.
  intros Hl Hk Hm. destruct (poly_acc_spec k msg Hl Hk Hm) as [Hok E]. split; [apply Hok|]. split; [done|]. intros Hlt H1.
  unfold poly1305_mac, rfc_poly1305. destruct (h_full_spec _ Hok H1) as [q ->].
  rewrite <-E, Z.mod_small.
  - rewrite <-(to_le_bytes_wrap 16). rewrite <-(to_le_bytes_wrap 16 (value _ + _)). f_equal.
    unfold u128, wrap. change (8 * Z.of_nat 16) with 128. rewrite Z.mod_mod by lia.
    rewrite <-(Z.mod_add (value (poly_acc k msg) - q * 2 ^ 128 + from_le_bytes (drop 16 k)) q) by lia.
    f_equal. ring.
  - split; [|done]. destruct Hok as [_ Hh]. unfold value.
    pose proof (Hh 0%nat ltac:(lia)). pose proof (Hh 1%nat ltac:(lia)).
    pose proof (Hh 2%nat ltac:(lia)). pose proof (Hh 3%nat ltac:(lia)).
    pose proof (Hh 4%nat ltac:(lia)). repeat case_decide; lia.
Qed.

(** The message of RFC 8439 section 2.5.2. *)
Definition rfc_key : list Z :=
  [0x85; 0xd6; 0xbe; 0x78; 0x57; 0x55; 0x6d; 0x33; 0x7f; 0x44; 0x52; 0xfe; 0x42; 0xd5; 0x06; 0xa8;
   0x01; 0x03; 0x80; 0x8a; 0xfb; 0x0d; 0xb2; 0xfd; 0x4a; 0xbf; 0xf6; 0xaf; 0x41; 0x49; 0xf5; 0x1b].
Definition rfc_message : list Z :=
  [67; 114; 121; 112; 116; 111; 103; 114; 97; 112; 104; 105; 99; 32; 70; 111; 114; 117; 109; 32;
   82; 101; 115; 101; 97; 114; 99; 104; 32; 71; 114; 111; 117; 112].

Lemma bytes_dec l : forallb (λ b, (0 <=? b) && (b <? 256)) l = true → bytes l.
Proof.
  intros H. apply Forall_forall. intros b Hb%list_elem_of_In.
  rewrite forallb_forall in H. apply H in Hb. unfold is_byte. lia.
Qed.

Lemma poly1305_correct_witness :
  poly1305_mac rfc_key rfc_message = rfc_poly1305 rfc_key rfc_message ∧
  poly1305_mac rfc_key rfc_message
  = [0xa8; 0x06; 0x1d; 0xc1; 0x30; 0x51; 0x36; 0xc6; 0xc2; 0x2b; 0x8b; 0xaf; 0x0c; 0x01; 0x27; 0xa9].
Proof.
  split; [|vm_compute; reflexivity].
  apply (poly1305_correct rfc_key rfc_message); [reflexivity|apply bytes_dec; vm_compute; reflexivity..| |];
    vm_compute; reflexivity.
Defined.

(** The final reduction is missing: on test vectors 5 and 8 of RFC 8439 appendix A.3
    the tags differ from the standard's, once because the accumulator is at least the
    prime, once because its limbs overlap when they are or-ed together. *)
Theorem poly1305_not_reduced :
  let k5 := 2 :: replicate 31 0 in
  let m5 := replicate 16 255 in
  let k8 := 1 :: replicate 31 0 in
  let m8 := replicate 16 255 ++ [0xfb] ++ replicate 15 0xfe ++ replicate 16 1 in
  rfc_poly1305 k5 m5 = 3 :: replicate 15 0 ∧ poly1305_mac k5 m5 = 254 :: replicate 15 255 ∧
  rfc_poly1305 k8 m8 = replicate 16 0 ∧ poly1305_mac k8 m8 ≠ replicate 16 0.
Proof.
  split; [vm_compute; reflexivity|]. split; [vm_compute; reflexivity|].
  split; [vm_compute; reflexivity|]. vm_compute. congruence.
Qed.
