(* ===== verification/AesGcm.v ===== *)
(** * AesGcm: AES-GCM ([kernel/src/crypto/cipher.rs], [AesGcm])

    The block cipher with its key schedule, the byte-wise multiplication of GHASH, counter
    mode and the AEAD. The specifications are FIPS 197 (the S-box as inversion in GF(2^8)
    and an affine map, MixColumns as a matrix over GF(2^8)) and NIST SP 800-38D (the
    multiplication of 128-bit blocks). *)

From Stdlib Require Import ZArith Lia.
From stdpp Require Import list.
From S2P Require Import Prelude.
From S2P Require Import Ids.
From S2P Require Import Bytes.
From S2P Require Import Cipher.

Notation "l .[ i ]" := (nth i l 0) (at level 1, i at level 200, format "l .[ i ]").

(** ** AES *)

Definition SBOX : list Z := [
  0x63; 0x7c; 0x77; 0x7b; 0xf2; 0x6b; 0x6f; 0xc5; 0x30; 0x01; 0x67; 0x2b; 0xfe; 0xd7; 0xab; 0x76;
  0xca; 0x82; 0xc9; 0x7d; 0xfa; 0x59; 0x47; 0xf0; 0xad; 0xd4; 0xa2; 0xaf; 0x9c; 0xa4; 0x72; 0xc0;
  0xb7; 0xfd; 0x93; 0x26; 0x36; 0x3f; 0xf7; 0xcc; 0x34; 0xa5; 0xe5; 0xf1; 0x71; 0xd8; 0x31; 0x15;
  0x04; 0xc7; 0x23; 0xc3; 0x18; 0x96; 0x05; 0x9a; 0x07; 0x12; 0x80; 0xe2; 0xeb; 0x27; 0xb2; 0x75;
  0x09; 0x83; 0x2c; 0x1a; 0x1b; 0x6e; 0x5a; 0xa0; 0x52; 0x3b; 0xd6; 0xb3; 0x29; 0xe3; 0x2f; 0x84;
  0x53; 0xd1; 0x00; 0xed; 0x20; 0xfc; 0xb1; 0x5b; 0x6a; 0xcb; 0xbe; 0x39; 0x4a; 0x4c; 0x58; 0xcf;
  0xd0; 0xef; 0xaa; 0xfb; 0x43; 0x4d; 0x33; 0x85; 0x45; 0xf9; 0x02; 0x7f; 0x50; 0x3c; 0x9f; 0xa8;
  0x51; 0xa3; 0x40; 0x8f; 0x92; 0x9d; 0x38; 0xf5; 0xbc; 0xb6; 0xda; 0x21; 0x10; 0xff; 0xf3; 0xd2;
  0xcd; 0x0c; 0x13; 0xec; 0x5f; 0x97; 0x44; 0x17; 0xc4; 0xa7; 0x7e; 0x3d; 0x64; 0x5d; 0x19; 0x73;
  0x60; 0x81; 0x4f; 0xdc; 0x22; 0x2a; 0x90; 0x88; 0x46; 0xee; 0xb8; 0x14; 0xde; 0x5e; 0x0b; 0xdb;
  0xe0; 0x32; 0x3a; 0x0a; 0x49; 0x06; 0x24; 0x5c; 0xc2; 0xd3; 0xac; 0x62; 0x91; 0x95; 0xe4; 0x79;
  0xe7; 0xc8; 0x37; 0x6d; 0x8d; 0xd5; 0x4e; 0xa9; 0x6c; 0x56; 0xf4; 0xea; 0x65; 0x7a; 0xae; 0x08;
  0xba; 0x78; 0x25; 0x2e; 0x1c; 0xa6; 0xb4; 0xc6; 0xe8; 0xdd; 0x74; 0x1f; 0x4b; 0xbd; 0x8b; 0x8a;
  0x70; 0x3e; 0xb5; 0x66; 0x48; 0x03; 0xf6; 0x0e; 0x61; 0x35; 0x57; 0xb9; 0x86; 0xc1; 0x1d; 0x9e;
  0xe1; 0xf8; 0x98; 0x11; 0x69; 0xd9; 0x8e; 0x94; 0x9b; 0x1e; 0x87; 0xe9; 0xce; 0x55; 0x28; 0xdf;
  0x8c; 0xa1; 0x89; 0x0d; 0xbf; 0xe6; 0x42; 0x68; 0x41; 0x99; 0x2d; 0x0f; 0xb0; 0x54; 0xbb; 0x16].

Definition RCON : list Z := [0x00; 0x01; 0x02; 0x04; 0x08; 0x10; 0x20; 0x40; 0x80; 0x1b; 0x36].

Definition sub_byte (b : Z) : Z := SBOX.[Z.to_nat b].
Definition sub_bytes (state : list Z) : list Z := map sub_byte state.

Definition shift_rows (state : list Z) : list Z :=
  let tmp := state.[1] in
  let state := <[1%nat := state.[5]]> state in
  let state := <[5%nat := state.[9]]> state in
  let state := <[9%nat := state.[13]]> state in
  let state := <[13%nat := tmp]> state in
  let tmp1 := state.[2] in
  let tmp2 := state.[6] in
  let state := <[2%nat := state.[10]]> state in
  let state := <[6%nat := state.[14]]> state in
  let state := <[10%nat := tmp1]> state in
  let state := <[14%nat := tmp2]> state in
  let tmp := state.[15] in
  let state := <[15%nat := state.[11]]> state in
  let state := <[11%nat := state.[7]]> state in
  let state := <[7%nat := state.[3]]> state in
  <[3%nat := tmp]> state.

Definition xtime (x : Z) : Z :=
  if negb (Z.land x 0x80 =? 0) then Z.lxor (u8 (Z.shiftl x 1)) 0x1b else u8 (Z.shiftl x 1).

Definition mix_column (state : list Z) (col : nat) : list Z :=
  let i := (col * 4)%nat in
  let a := state.[i] in
  let b := state.[i + 1] in
  let c := state.[i + 2] in
  let d := state.[i + 3] in
  let t := Z.lxor (Z.lxor (Z.lxor a b) c) d in
  let state := <[i := Z.lxor (Z.lxor a (xtime (Z.lxor a b))) t]> state in
  let state := <[(i + 1)%nat := Z.lxor (Z.lxor b (xtime (Z.lxor b c))) t]> state in
  let state := <[(i + 2)%nat := Z.lxor (Z.lxor c (xtime (Z.lxor c d))) t]> state in
  <[(i + 3)%nat := Z.lxor (Z.lxor d (xtime (Z.lxor d a))) t]> state.

Definition mix_columns (state : list Z) : list Z := foldl mix_column state (seq 0 4).

(** [zip] stops at the shorter operand; both are 16 bytes. *)
Definition add_round_key (round_key state : list Z) : list Z := xor_bytes state round_key.

(** Each byte of a word through the S-box. *)
Definition sub_word (temp : Z) : Z := from_be_bytes (map sub_byte (to_be_bytes 4 temp)).

Definition expand_word (nk : nat) (w : list Z) (i : nat) : list Z :=
  let temp := w.[i - 1] in
  let temp :=
    if (i mod nk =? 0)%nat
    then Z.lxor (sub_word (rotate_left 32 8 temp)) (Z.shiftl RCON.[i / nk] 24)
    else if (6 <? nk)%nat && (i mod nk =? 4)%nat then sub_word temp
    else temp in
  <[i := Z.lxor w.[i - nk] temp]> w.

(** [key_expansion]; [None] is its panic on an invalid key length. *)
Definition key_expansion (key : list Z) : option (list (list Z) * nat) :=
  let rounds := match length key with 16 => Some 10 | 24 => Some 12 | 32 => Some 14 | _ => None end%nat in
  rounds ← rounds;
  let nk := (length key / 4)%nat in
  let total_words := (4 * (rounds + 1))%nat in
  let w := map (λ i, from_be_bytes [key.[4 * i]; key.[4 * i + 1]; key.[4 * i + 2]; key.[4 * i + 3]]) (seq 0 nk)
           ++ replicate (total_words - nk) 0 in
  let w := foldl (expand_word nk) w (seq nk (total_words - nk)) in
  Some (map (λ r, flat_map (λ i, to_be_bytes 4 w.[r * 4 + i]) (seq 0 4)) (seq 0 (rounds + 1)), rounds).

Record AesGcm := mkAes { round_keys : list (list Z); h : list Z; rounds : nat }.

(** [copy_from_slice] of a 16-byte block; a round key past the end does not occur. *)
Definition round_key (c : AesGcm) (r : nat) : list Z := nth r (round_keys c) [].

Definition aes_round (c : AesGcm) (state : list Z) (round : nat) : list Z :=
  add_round_key (round_key c round) (mix_columns (shift_rows (sub_bytes state))).

Definition aes_encrypt_block (c : AesGcm) (block : list Z) : list Z :=
  let state := add_round_key (round_key c 0) block in
  let state := foldl (aes_round c) state (seq 1 (rounds c - 1)) in
  add_round_key (round_key c (rounds c)) (shift_rows (sub_bytes state)).

(** ** GHASH *)

(** [v >>= 1] over the bytes, most significant first, with the reduction on carry. *)
Definition gf_shift (v : list Z) : list Z :=
  let carry := Z.land v.[15] 1 in
  let v' := foldl (λ v j, <[j := Z.lor (Z.shiftr v.[j] 1) (u8 (Z.shiftl (Z.land v.[j - 1] 1) 7))]> v) v
              (rev (seq 1 15)) in
  let v' := <[0%nat := Z.shiftr v'.[0] 1]> v' in
  if carry =? 1 then <[0%nat := Z.lxor v'.[0] 0xe1]> v' else v'.

Definition gf_step (x : list Z) (zv : list Z * list Z) (i : nat) : list Z * list Z :=
  let '(z, v) := zv in
  let z := if Z.land (Z.shiftr x.[i / 8] (7 - Z.of_nat (i mod 8))) 1 =? 1 then xor_bytes z v else z in
  (z, gf_shift v).

Definition gf_mult (x y : list Z) : list Z :=
  (foldl (gf_step x) (replicate 16 0, y) (seq 0 128)).1.

(** Absorbing data 16 bytes at a time, the last block padded with zeros. *)
Fixpoint ghash_blocks (fuel : nat) (hk y data : list Z) : list Z :=
  match fuel with
  | O => y
  | S fuel =>
      if decide (16 <= length data)%nat
      then ghash_blocks fuel hk (gf_mult (xor_bytes y (take 16 data)) hk) (drop 16 data)
      else if decide (0 < length data)%nat
      then gf_mult (xor_bytes y (splice 0 data (replicate 16 0))) hk
      else y
  end.

Definition ghash (c : AesGcm) (aad ciphertext : list Z) : list Z :=
  let y := ghash_blocks (S (length aad)) (h c) (replicate 16 0) aad in
  let y := ghash_blocks (S (length ciphertext)) (h c) y ciphertext in
  let len_block := to_be_bytes 8 (u64_mul (Z.of_nat (length aad)) 8)
                   ++ to_be_bytes 8 (u64_mul (Z.of_nat (length ciphertext)) 8) in
  gf_mult (xor_bytes y len_block) (h c).

(** The last four bytes count, big endian; the loop stops at the first byte that does not
    wrap. *)
Fixpoint increment_from (n i : nat) (counter : list Z) : list Z :=
  match n with
  | O => counter
  | S n =>
      let counter := <[i := u8 (counter.[i] + 1)]> counter in
      if counter.[i] =? 0 then increment_from n (i - 1) counter else counter
  end.
Definition increment_counter (counter : list Z) : list Z := increment_from 4 15 counter.

(** ** The AEAD *)

Definition aes_new (key : list Z) : option (Result AesGcm CipherError) :=
  if negb (length key =? 16)%nat && negb (length key =? 24)%nat && negb (length key =? 32)%nat
  then Some (Err InvalidKeyLength)
  else
    '(round_keys, rounds) ← key_expansion key;
    let cipher := mkAes round_keys (replicate 16 0) rounds in
    Some (Ok (mkAes round_keys (aes_encrypt_block cipher (replicate 16 0)) rounds)).

Definition j0 (nonce : list Z) : list Z := <[15%nat := 1]> (splice 0 nonce (replicate 16 0)).

Definition ctr (c : AesGcm) (nonce text : list Z) : list Z :=
  add_stream 16 (aes_encrypt_block c) increment_counter (S (length text))
    (increment_counter (j0 nonce)) text.

Definition aes_tag (c : AesGcm) (nonce ciphertext aad : list Z) : list Z :=
  xor_bytes (ghash c aad ciphertext) (aes_encrypt_block c (j0 nonce)).

Definition aes_encrypt (c : AesGcm) : list Z → list Z → list Z → Result (list Z) CipherError :=
  seal (ctr c) (aes_tag c).
Definition aes_decrypt (c : AesGcm) : list Z → list Z → list Z → Result (list Z) CipherError :=
  unseal (ctr c) (aes_tag c).

(** ** Sizes *)

Definition keys_wf (ks : list (list Z)) (rounds : nat) : Prop :=
  length ks = S rounds ∧ Forall (λ k, length k = 16%nat) ks.
Definition aes_wf (c : AesGcm) : Prop := keys_wf (round_keys c) (rounds c) ∧ length (h c) = 16%nat.

Lemma round_key_length c r : keys_wf (round_keys c) (rounds c) → (r ≤ rounds c)%nat →
  length (round_key c r) = 16%nat.
Proof.
  intros [Hl Hk] Hr. unfold round_key.
  apply (proj1 (Forall_forall _ _) Hk). apply list_elem_of_In, nth_In. lia.
Qed.

Lemma sub_bytes_length st : length (sub_bytes st) = length st.
Proof. apply length_map. Qed.

Lemma shift_rows_length st : length (shift_rows st) = length st.
Proof. unfold shift_rows. by rewrite !length_insert. Qed.

Lemma mix_columns_length st : length (mix_columns st) = length st.
Proof.
  unfold mix_columns. revert st. induction (seq 0 4) as [|c l IH]; intros st; cbn [foldl]; [done|].
  rewrite IH. unfold mix_column. by rewrite !length_insert.
Qed.

Lemma add_round_key_length k st : length k = length st → length (add_round_key k st) = length st.
Proof. intros H. unfold add_round_key. rewrite length_xor_bytes. lia. Qed.

Lemma aes_rounds_length c l : keys_wf (round_keys c) (rounds c) → ∀ st, length st = 16%nat →
  (∀ r, r ∈ l → (r ≤ rounds c)%nat) → length (foldl (aes_round c) st l) = 16%nat.
Proof.
  intros Hc. induction l as [|r l IH]; intros st Hst Hl; [done|]. cbn [foldl]. apply IH; [|set_solver].
  unfold aes_round. rewrite add_round_key_length; rewrite mix_columns_length, shift_rows_length, sub_bytes_length; [done|].
  rewrite round_key_length; [done|done|apply Hl; set_solver].
Qed.

Lemma aes_encrypt_block_length c b : keys_wf (round_keys c) (rounds c) → length b = 16%nat →
  length (aes_encrypt_block c b) = 16%nat.
Proof.
  intros Hc Hb. unfold aes_encrypt_block.
  assert (length (foldl (aes_round c) (add_round_key (round_key c 0) b) (seq 1 (rounds c - 1))) = 16%nat) as Hr.
  { apply aes_rounds_length; [done| |].
    - rewrite add_round_key_length; rewrite ?round_key_length by (done || lia); done.
    - intros r Hr%elem_of_seq. lia. }
  rewrite add_round_key_length; rewrite shift_rows_length, sub_bytes_length; [done|].
  by rewrite Hr, round_key_length by (done || lia).
Qed.

Lemma gf_shift_length v : length (gf_shift v) = length v.
Proof.
  unfold gf_shift. assert (∀ l v, length (foldl (λ v j, <[j := Z.lor (Z.shiftr v.[j] 1)
    (u8 (Z.shiftl (Z.land v.[j - 1] 1) 7))]> v) v l) = length v) as H.
  { induction l as [|j l IH]; intros u; cbn [foldl]; [done|]. by rewrite IH, length_insert. }
  case_match; by rewrite !length_insert, H.
Qed.

Lemma gf_mult_length x y : length y = 16%nat → length (gf_mult x y) = 16%nat.
Proof.
  intros Hy. unfold gf_mult.
  assert (∀ l z v, length z = 16%nat → length v = 16%nat → length (foldl (gf_step x) (z, v) l).1 = 16%nat) as H.
  { induction l as [|i l IH]; intros z v Hz Hv; cbn [foldl]; [done|]. apply IH.
    - case_match; [|done]. rewrite length_xor_bytes. lia.
    - by rewrite gf_shift_length. }
  by apply H.
Qed.

Lemma ghash_length c aad ct : length (h c) = 16%nat → length (ghash c aad ct) = 16%nat.
Proof. intros Hh. by apply gf_mult_length. Qed.

Lemma increment_length counter : length (increment_counter counter) = length counter.
Proof.
  unfold increment_counter. generalize 15%nat. generalize 4%nat. intros n i. revert i counter.
  induction n as [|n IH]; intros i counter; cbn [increment_from]; [done|].
  case_match; [rewrite IH|]; by rewrite length_insert.
Qed.

Lemma j0_length nonce : length nonce = 12%nat → length (j0 nonce) = 16%nat.
Proof. intros Hn. unfold j0. rewrite length_insert, length_splice; rewrite ?length_replicate; lia. Qed.

Lemma ctr_spec c nonce t : aes_wf c → length nonce = 12%nat →
  length (ctr c nonce t) = length t ∧ ctr c nonce (ctr c nonce t) = t.
Proof.
  intros [Hc _] Hn. set (I := λ l : list Z, length l = 16%nat).
  assert (I (increment_counter (j0 nonce))) as H0 by (unfold I; by rewrite increment_length, j0_length).
  assert (∀ l, I l → length (aes_encrypt_block c l) = 16%nat) as Hs
    by (intros l Hl; by apply aes_encrypt_block_length).
  assert (∀ l, I l → I (increment_counter l)) as Hnx by (intros l Hl; unfold I; by rewrite increment_length).
  assert (∀ t, length (ctr c nonce t) = length t) as Hlen.
  { intros u. apply (length_add_stream _ _ _ I); (done || lia). }
  split; [apply Hlen|]. unfold ctr at 1. rewrite Hlen.
  apply (add_stream_twice _ _ _ I); (done || lia).
Qed.

Lemma aes_tag_length c nonce ct aad : aes_wf c → length nonce = 12%nat →
  length (aes_tag c nonce ct aad) = 16%nat.
Proof.
  intros [Hc Hh] Hn. unfold aes_tag. rewrite length_xor_bytes, ghash_length by done.
  rewrite aes_encrypt_block_length; [done|done|by apply j0_length].
Qed.

Lemma key_expansion_wf key : length key = 16%nat ∨ length key = 24%nat ∨ length key = 32%nat →
  ∃ ks r, key_expansion key = Some (ks, r) ∧ keys_wf ks r.
Proof.
  intros Hk. unfold key_expansion.
  assert (∀ r (w : list Z), keys_wf (map (λ r, flat_map (λ i, to_be_bytes 4 w.[r * 4 + i]) (seq 0 4)) (seq 0 (r + 1))) r) as H.
  { intros r w. split; [rewrite length_map, length_seq; lia|]. apply Forall_map, Forall_forall. intros x _.
    cbn [seq flat_map]. rewrite !length_app, !length_to_be_bytes. done. }
  destruct Hk as [Hk|[Hk|Hk]]; rewrite Hk; cbn [mbind option_bind]; eexists _, _; (split; [reflexivity|apply H]).
Qed.

Lemma aes_new_total key :
  ∃ r, aes_new key = Some r ∧ (∀ c, r = Ok c → aes_wf c) ∧
       (length key = 16%nat ∨ length key = 24%nat ∨ length key = 32%nat ↔ ∃ c, r = Ok c).
Proof.
  unfold aes_new.
  destruct (decide (length key = 16%nat ∨ length key = 24%nat ∨ length key = 32%nat)) as [Hk|Hk].
  - assert (negb (length key =? 16)%nat && negb (length key =? 24)%nat && negb (length key =? 32)%nat = false) as ->.
    { destruct Hk as [->|[->| ->]]; reflexivity. }
    destruct (key_expansion_wf key Hk) as (ks & r & -> & Hw). cbn [mbind option_bind].
    eexists. split; [reflexivity|]. split; [|split; [eauto|done]]. intros c [= <-].
    split; [done|]. by apply aes_encrypt_block_length.
  - assert (negb (length key =? 16)%nat && negb (length key =? 24)%nat && negb (length key =? 32)%nat = true) as ->.
    { rewrite !andb_true_iff, !negb_true_iff, !Nat.eqb_neq. tauto. }
    eexists. split; [reflexivity|]. split; [done|]. split; [done|]. by intros [? ?].
Qed.

Lemma aes_new_ok key : length key = 32%nat → ∃ c, aes_new key = Some (Ok c) ∧ aes_wf c.
Proof.
  intros Hk. destruct (aes_new_total key) as (r & Hr & Hw & Hl).
  destruct (proj1 Hl) as [c ->]; [tauto|]. eauto.
Qed.

Lemma aes_new_some key : ∃ r, aes_new key = Some r ∧ ∀ c, r = Ok c → aes_wf c.
Proof. destruct (aes_new_total key) as (r & ? & ? & _). eauto. Qed.

#[export] Instance AesGcm_Aead : Aead AesGcm := {|
  KEY_SIZE := 32; NONCE_SIZE := 12; TAG_SIZE := 16;
  cipher_new := aes_new; encrypt := aes_encrypt; decrypt := aes_decrypt; valid := aes_wf;
  new_ok := aes_new_ok; new_total := aes_new_some;
  encrypt_ok c n pt aad Hc :=
    seal_ok _ _ (λ n t Hn, proj1 (ctr_spec c n t Hc Hn)) (λ n ct aad, aes_tag_length c n ct aad Hc) n pt aad;
  decrypt_encrypt c n pt aad ct Hc :=
    unseal_seal _ _ (λ n t Hn, proj2 (ctr_spec c n t Hc Hn)) (λ n ct aad, aes_tag_length c n ct aad Hc) n pt aad ct;
  encrypt_decrypt c n pt aad ct Hc :=
    seal_unseal _ _ (λ n t Hn, proj2 (ctr_spec c n t Hc Hn)) (λ n ct aad, aes_tag_length c n ct aad Hc) n pt aad ct;
  decrypt_nonce c := unseal_nonce _ _
|}.

(** ** FIPS 197 *)

(** Multiplication in GF(2^8): polynomials modulo x^8 + x^4 + x^3 + x + 1. *)
Definition clmul (n : nat) (a b : Z) : Z :=
  foldl (λ acc i, if Z.testbit b (Z.of_nat i) then Z.lxor acc (Z.shiftl a (Z.of_nat i)) else acc) 0 (seq 0 n).
Definition poly_mod (p d : Z) (n : nat) (x : Z) : Z :=
  foldl (λ x i, if Z.testbit x (d + Z.of_nat i) then Z.lxor x (Z.shiftl p (Z.of_nat i)) else x) x (rev (seq 0 n)).
Definition gf8_mul (a b : Z) : Z := poly_mod 0x11b 8 7 (clmul 8 a b).

(** The inverse, 0 for 0: the power 254. *)
Fixpoint gf8_pow (a : Z) (n : positive) : Z :=
  match n with
  | xH => a
  | xO n => let b := gf8_pow a n in gf8_mul b b
  | xI n => let b := gf8_pow a n in gf8_mul a (gf8_mul b b)
  end.
Definition gf8_inv (a : Z) : Z := gf8_pow a 254.

Definition fips_sbox (a : Z) : Z :=
  let b := gf8_inv a in
  Z.lxor (Z.lxor (Z.lxor (Z.lxor (Z.lxor b (rotate_left 8 1 b)) (rotate_left 8 2 b)) (rotate_left 8 3 b))
            (rotate_left 8 4 b)) 0x63.

(** The state, column by column: byte [r + 4 c] is row [r], column [c]. *)
Definition fips_shift_rows (s : list Z) : list Z :=
  map (λ i, let r := (i mod 4)%nat in let c := (i / 4)%nat in s.[r + 4 * ((c + r) mod 4)]) (seq 0 16).

Definition fips_mix_columns (s : list Z) : list Z :=
  flat_map (λ c,
    let s0 := s.[4 * c] in let s1 := s.[4 * c + 1] in let s2 := s.[4 * c + 2] in let s3 := s.[4 * c + 3] in
    [Z.lxor (Z.lxor (Z.lxor (gf8_mul 2 s0) (gf8_mul 3 s1)) s2) s3;
     Z.lxor (Z.lxor (Z.lxor s0 (gf8_mul 2 s1)) (gf8_mul 3 s2)) s3;
     Z.lxor (Z.lxor (Z.lxor s0 s1) (gf8_mul 2 s2)) (gf8_mul 3 s3);
     Z.lxor (Z.lxor (Z.lxor (gf8_mul 3 s0) s1) s2) (gf8_mul 2 s3)]) (seq 0 4).

(** The key schedule: words [w_0], [w_1], ... of a key of [nk] words. *)
Definition fips_sub_word (x : Z) : Z := from_be_bytes (map fips_sbox (to_be_bytes 4 x)).
Definition fips_rcon (i : nat) : Z := Nat.iter (i - 1) (gf8_mul 2) 1.
Fixpoint fips_keys (key : list Z) (nk n : nat) : list Z :=
  match n with
  | O => map (λ i, from_be_bytes (take 4 (drop (4 * i) key))) (seq 0 nk)
  | S n =>
      let w := fips_keys key nk n in
      let i := (nk + n)%nat in
      let temp := w.[i - 1] in
      let temp := if decide (i mod nk = 0)%nat
                  then Z.lxor (fips_sub_word (rotate_left 32 8 temp)) (Z.shiftl (fips_rcon (i / nk)) 24)
                  else if decide (6 < nk ∧ i mod nk = 4)%nat then fips_sub_word temp else temp in
      w ++ [Z.lxor w.[i - nk] temp]
  end.

Definition fips_round_key (w : list Z) (r : nat) : list Z :=
  flat_map (to_be_bytes 4) (take 4 (drop (4 * r) w)).

(** [Cipher(in, Nr, w)]. *)
Definition fips_cipher (w : list Z) (nr : nat) (block : list Z) : list Z :=
  let s := xor_bytes block (fips_round_key w 0) in
  let s := foldl (λ s r, xor_bytes (fips_mix_columns (fips_shift_rows (map fips_sbox s))) (fips_round_key w r))
             s (seq 1 (nr - 1)) in
  xor_bytes (fips_shift_rows (map fips_sbox s)) (fips_round_key w nr).

Definition fips_aes (key block : list Z) : list Z :=
  let nk := (length key / 4)%nat in
  let nr := (nk + 6)%nat in
  fips_cipher (fips_keys key nk (4 * (nr + 1) - nk)) nr block.

(** *** The tables *)

Definition all_bytes (f : Z → bool) : bool := forallb (λ n, f (Z.of_nat n)) (seq 0 256).

Lemma all_bytes_spec f : all_bytes f = true → ∀ b, is_byte b → f b = true.
Proof.
  intros H b Hb. unfold all_bytes in H. rewrite forallb_forall in H.
  rewrite <-(Z2Nat.id b) by apply Hb. apply H, in_seq. unfold is_byte in Hb. lia.
Qed.

Lemma sbox_checked : all_bytes (λ b, (sub_byte b =? fips_sbox b) && (0 <=? sub_byte b) && (sub_byte b <? 256)) = true.
Proof. vm_compute. reflexivity. Qed.

Lemma sbox_spec b : is_byte b → sub_byte b = fips_sbox b ∧ is_byte (sub_byte b).
Proof. intros Hb. pose proof (all_bytes_spec _ sbox_checked b Hb). unfold is_byte. lia. Qed.

(** The inverses are inverses. *)
Lemma inverse_checked : all_bytes (λ b, (b =? 0) || (gf8_mul b (gf8_inv b) =? 1)) = true.
Proof. vm_compute. reflexivity. Qed.

Lemma xtime_checked :
  all_bytes (λ b, (xtime b =? gf8_mul 2 b) && (Z.lxor (xtime b) b =? gf8_mul 3 b) && (0 <=? xtime b) && (xtime b <? 256)) = true.
Proof. vm_compute. reflexivity. Qed.

Lemma xtime_spec b : is_byte b → xtime b = gf8_mul 2 b ∧ Z.lxor (xtime b) b = gf8_mul 3 b ∧ is_byte (xtime b).
Proof. intros Hb. pose proof (all_bytes_spec _ xtime_checked b Hb). unfold is_byte. lia. Qed.

Lemma xtime_xor_checked : all_bytes (λ a, all_bytes (λ b, xtime (Z.lxor a b) =? Z.lxor (xtime a) (xtime b))) = true.
Proof. vm_compute. reflexivity. Qed.

Lemma xtime_xor a b : is_byte a → is_byte b → xtime (Z.lxor a b) = Z.lxor (xtime a) (xtime b).
Proof.
  intros Ha Hb. pose proof (all_bytes_spec _ (all_bytes_spec _ xtime_xor_checked a Ha) b Hb). lia.
Qed.

(** *** The rounds *)

Lemma list16 (l : list Z) : length l = 16%nat → l = map (λ i, l.[i]) (seq 0 16).
Proof. intros H. do 16 (destruct l as [|? l]; [done|]). by destruct l. Qed.

Lemma shift_rows_spec s : length s = 16%nat → shift_rows s = fips_shift_rows s.
Proof. intros H. do 16 (destruct s as [|? s]; [done|]). by destruct s. Qed.

(** Both sides are the same exclusive or of the same terms. *)
Ltac xor_ac :=
  apply Z.bits_inj'; intros ? _; rewrite !Z.lxor_spec;
  repeat match goal with |- context [Z.testbit ?x ?i] => destruct (Z.testbit x i) end; reflexivity.

Definition mixed (a b c d : Z) : list Z :=
  let t := Z.lxor (Z.lxor (Z.lxor a b) c) d in
  [Z.lxor (Z.lxor a (xtime (Z.lxor a b))) t; Z.lxor (Z.lxor b (xtime (Z.lxor b c))) t;
   Z.lxor (Z.lxor c (xtime (Z.lxor c d))) t; Z.lxor (Z.lxor d (xtime (Z.lxor d a))) t].

Lemma mixed_spec a b c d : is_byte a → is_byte b → is_byte c → is_byte d →
  mixed a b c d =
  [Z.lxor (Z.lxor (Z.lxor (gf8_mul 2 a) (gf8_mul 3 b)) c) d;
   Z.lxor (Z.lxor (Z.lxor a (gf8_mul 2 b)) (gf8_mul 3 c)) d;
   Z.lxor (Z.lxor (Z.lxor a b) (gf8_mul 2 c)) (gf8_mul 3 d);
   Z.lxor (Z.lxor (Z.lxor (gf8_mul 3 a) b) c) (gf8_mul 2 d)] ∧ bytes (mixed a b c d).
Proof.
  intros Ha Hb Hc Hd. unfold mixed. rewrite !xtime_xor by done.
  destruct (xtime_spec a Ha) as (<- & <- & Xa). destruct (xtime_spec b Hb) as (<- & <- & Xb).
  destruct (xtime_spec c Hc) as (<- & <- & Xc). destruct (xtime_spec d Hd) as (<- & <- & Xd).
  split; [repeat (apply (f_equal2 cons); [xor_ac|]); done|].
  repeat constructor; repeat (apply (lxor_word 8); [lia| |]); done.
Qed.

Lemma mix_columns_mixed s : length s = 16%nat →
  mix_columns s = flat_map (λ c, mixed s.[4 * c] s.[4 * c + 1] s.[4 * c + 2] s.[4 * c + 3]) (seq 0 4).
Proof. intros H. do 16 (destruct s as [|? s]; [done|]). destruct s; [|done]. cbv -[Z.lxor xtime]. reflexivity. Qed.

Lemma nth_bytes s i : bytes s → is_byte s.[i].
Proof.
  intros Hs. destruct (Nat.lt_ge_cases i (length s)).
  - eapply Forall_forall; [exact Hs|]. by apply list_elem_of_In, nth_In.
  - rewrite nth_overflow by done. unfold is_byte. lia.
Qed.

Lemma mix_columns_spec s : length s = 16%nat → bytes s →
  mix_columns s = fips_mix_columns s ∧ bytes (mix_columns s).
Proof.
  intros H Hs. rewrite mix_columns_mixed by done. unfold fips_mix_columns. cbn [seq flat_map].
  assert (∀ i j k l, mixed s.[i] s.[j] s.[k] s.[l] =
    [Z.lxor (Z.lxor (Z.lxor (gf8_mul 2 s.[i]) (gf8_mul 3 s.[j])) s.[k]) s.[l];
     Z.lxor (Z.lxor (Z.lxor s.[i] (gf8_mul 2 s.[j])) (gf8_mul 3 s.[k])) s.[l];
     Z.lxor (Z.lxor (Z.lxor s.[i] s.[j]) (gf8_mul 2 s.[k])) (gf8_mul 3 s.[l]);
     Z.lxor (Z.lxor (Z.lxor (gf8_mul 3 s.[i]) s.[j]) s.[k]) (gf8_mul 2 s.[l])] ∧
    bytes (mixed s.[i] s.[j] s.[k] s.[l])) as Hm
    by (intros; apply mixed_spec; by apply nth_bytes).
  split.
  - do 3 (apply (f_equal2 app); [apply Hm|]). apply (f_equal2 app); [apply Hm|done].
  - repeat (apply Forall_app; split); (apply Hm || constructor).
Qed.

Definition block_ok (s : list Z) : Prop := length s = 16%nat ∧ bytes s.

Lemma sub_bytes_spec s : block_ok s → sub_bytes s = map fips_sbox s ∧ block_ok (sub_bytes s).
Proof.
  intros [Hl Hs]. split.
  - apply map_ext_in. intros b Hb%list_elem_of_In. apply sbox_spec.
    by apply (proj1 (Forall_forall _ _) Hs).
  - split; [by rewrite sub_bytes_length|]. apply Forall_map. eapply Forall_impl; [exact Hs|].
    intros b Hb. by apply sbox_spec.
Qed.

Lemma shift_rows_ok s : block_ok s → block_ok (shift_rows s).
Proof.
  intros [Hl Hs]. split; [by rewrite shift_rows_length|]. rewrite shift_rows_spec by done.
  apply Forall_map, Forall_forall. intros i _. by apply nth_bytes.
Qed.

Lemma add_round_key_ok k s : block_ok k → block_ok s → block_ok (add_round_key k s).
Proof.
  intros [Hk Bk] [Hs Bs]. split; [by rewrite add_round_key_length by congruence|].
  by apply xor_bytes_byte.
Qed.

Lemma aes_round_spec k s : block_ok k → block_ok s →
  add_round_key k (mix_columns (shift_rows (sub_bytes s)))
  = xor_bytes (fips_mix_columns (fips_shift_rows (map fips_sbox s))) k ∧
  block_ok (add_round_key k (mix_columns (shift_rows (sub_bytes s)))).
Proof.
  intros Hk Hs. destruct (sub_bytes_spec s Hs) as [E1 H1]. pose proof (shift_rows_ok _ H1) as H2.
  destruct (mix_columns_spec _ (proj1 H2) (proj2 H2)) as [E3 H3]. split.
  - unfold add_round_key. rewrite E3, shift_rows_spec by apply H1. by rewrite E1.
  - apply add_round_key_ok; [done|]. split; [by rewrite mix_columns_length, (proj1 H2)|done].
Qed.

(** *** The key schedule *)

Lemma take4 (l : list Z) n : (n + 4 ≤ length l)%nat →
  take 4 (drop n l) = [l.[n]; l.[n + 1]; l.[n + 2]; l.[n + 3]].
Proof.
  revert l. induction n as [|n IH]; intros l Hl.
  - do 4 (destruct l as [|? l]; [simpl in Hl; lia|]). done.
  - destruct l as [|x l]; [simpl in Hl; lia|]. simpl in Hl. cbn [drop Nat.add nth]. apply IH. lia.
Qed.

Lemma sub_word_spec x : sub_word x = fips_sub_word x.
Proof.
  unfold sub_word, fips_sub_word. f_equal. apply map_ext_in. intros b Hb%list_elem_of_In.
  apply sbox_spec. apply (proj1 (Forall_forall _ _) (to_be_bytes_byte 4 x) b Hb).
Qed.

Lemma length_fips_keys key nk n : length (fips_keys key nk n) = (nk + n)%nat.
Proof.
  induction n as [|n IH]; cbn [fips_keys]; [by rewrite length_map, length_seq, Nat.add_0_r|].
  rewrite length_app, IH. simpl. lia.
Qed.

Lemma rcon_spec j : (1 ≤ j ≤ 10)%nat → RCON.[j] = fips_rcon j.
Proof. intros Hj. do 11 (destruct j as [|j]; [first [lia|reflexivity]|]). lia. Qed.

Lemma expand_words_spec key nk r : (0 < nk)%nat → length key = (4 * nk)%nat → ((nk + r - 1) / nk ≤ 10)%nat →
  foldl (expand_word nk)
    (map (λ i, from_be_bytes [key.[4 * i]; key.[4 * i + 1]; key.[4 * i + 2]; key.[4 * i + 3]]) (seq 0 nk)
     ++ replicate r 0) (seq nk r)
  = fips_keys key nk r.
Proof.
  intros Hnk Hkey Hr.
  assert (map (λ i, from_be_bytes [key.[4 * i]; key.[4 * i + 1]; key.[4 * i + 2]; key.[4 * i + 3]]) (seq 0 nk)
    = fips_keys key nk 0) as ->.
  { apply map_ext_in. intros i [_ Hi]%in_seq. f_equal. rewrite take4 by lia. done. }
  apply (fill_array nk _ (λ w, let i := length w in
      let temp := w.[i - 1] in
      let temp := if decide (i mod nk = 0)%nat
                  then Z.lxor (fips_sub_word (rotate_left 32 8 temp)) (Z.shiftl (fips_rcon (i / nk)) 24)
                  else if decide (6 < nk ∧ i mod nk = 4)%nat then fips_sub_word temp else temp in
      Z.lxor w.[i - nk] temp) (fips_keys key nk)).
  - intros n. apply length_fips_keys.
  - intros n. cbn [fips_keys]. by rewrite length_fips_keys.
  - intros L x HL. unfold expand_word. rewrite !app_nth1 by lia. f_equal. f_equal. cbn zeta.
    destruct (Nat.eqb_spec (length L mod nk) 0) as [E|E].
    + rewrite decide_True by done. rewrite sub_word_spec, rcon_spec; [done|].
      split; [apply Nat.div_le_lower_bound; lia|].
      etrans; [apply (Nat.Div0.div_le_mono _ (nk + r - 1)); lia|done].
    + rewrite decide_False by done. destruct (Nat.ltb_spec 6 nk), (Nat.eqb_spec (length L mod nk) 4);
        cbn [andb]; first [rewrite decide_True by lia | rewrite decide_False by lia]; by rewrite ?sub_word_spec.
Qed.

Lemma round_keys_spec (w : list Z) r n : (4 * r + 4 ≤ length w)%nat → (r ≤ n)%nat →
  nth r (map (λ r, flat_map (λ i, to_be_bytes 4 w.[r * 4 + i]) (seq 0 4)) (seq 0 (n + 1))) []
  = fips_round_key w r ∧ block_ok (fips_round_key w r).
Proof.
  intros Hw Hr.
  assert (flat_map (λ i, to_be_bytes 4 w.[r * 4 + i]) (seq 0 4) = fips_round_key w r) as E.
  { unfold fips_round_key. rewrite take4 by lia. cbn [seq flat_map].
    rewrite (Nat.mul_comm r 4), Nat.add_0_r. done. }
  split.
  - set (f := λ r, flat_map (λ i, to_be_bytes 4 w.[r * 4 + i]) (seq 0 4)) in *.
    rewrite (nth_indep _ [] (f 0%nat)) by (rewrite length_map, length_seq; lia).
    rewrite map_nth, seq_nth by lia. exact E.
  - rewrite <-E. cbn [seq flat_map]. split.
    + by rewrite !length_app, !length_to_be_bytes.
    + do 4 (apply Forall_app; split; [apply to_be_bytes_byte|]). constructor.
Qed.

Lemma key_expansion_spec key nk : length key = (4 * nk)%nat → nk = 4%nat ∨ nk = 6%nat ∨ nk = 8%nat →
  ∃ ks, key_expansion key = Some (ks, (nk + 6)%nat) ∧
    ∀ r, (r ≤ nk + 6)%nat →
      nth r ks [] = fips_round_key (fips_keys key nk (4 * (nk + 6 + 1) - nk)) r ∧
      block_ok (fips_round_key (fips_keys key nk (4 * (nk + 6 + 1) - nk)) r).
Proof.
  intros Hkey Hnk.
  pose proof (expand_words_spec key nk (4 * (nk + 6 + 1) - nk) ltac:(lia) Hkey) as E.
  set (w := fips_keys key nk (4 * (nk + 6 + 1) - nk)) in *.
  exists (map (λ r, flat_map (λ i, to_be_bytes 4 w.[r * 4 + i]) (seq 0 4)) (seq 0 (nk + 6 + 1))). split.
  - unfold key_expansion.
    assert ((match length key with 16 => Some 10 | 24 => Some 12 | 32 => Some 14 | _ => None end)%nat
      = Some (nk + 6)%nat) as ->.
    { rewrite Hkey. destruct Hnk as [->|[->| ->]]; reflexivity. }
    cbn [mbind option_bind]. rewrite Hkey, (Nat.mul_comm 4 nk), Nat.div_mul by done.
    rewrite E; [done|]. destruct Hnk as [->|[->| ->]]; vm_compute; lia.
  - intros r Hr. apply round_keys_spec; [|done]. subst w. rewrite length_fips_keys. lia.
Qed.

(** The block cipher is AES: for keys of 16, 24 and 32 bytes, [new] does not panic and
    encryption is the cipher of FIPS 197; the hash subkey is the encryption of the zero
    block. *)
Lemma aes_new_fips (key : list Z) :
  length key = 16%nat ∨ length key = 24%nat ∨ length key = 32%nat →
  ∃ c, aes_new key = Some (Ok c) ∧ h c = fips_aes key (replicate 16 0) ∧
       ∀ b, block_ok b → aes_encrypt_block c b = fips_aes key b ∧ block_ok (fips_aes key b).
Proof.
  intros Hkey.
  assert (∃ nk, length key = (4 * nk)%nat ∧ (nk = 4 ∨ nk = 6 ∨ nk = 8)%nat) as (nk & Hk & Hnk).
  { destruct Hkey as [E|[E|E]]; rewrite E; [exists 4%nat|exists 6%nat|exists 8%nat]; (split; [done|tauto]). }
  destruct (key_expansion_spec key nk Hk Hnk) as (ks & Hks & Hr).
  set (w := fips_keys key nk (4 * (nk + 6 + 1) - nk)) in *.
  assert (∀ h0 b, block_ok b →
    aes_encrypt_block (mkAes ks h0 (nk + 6)) b = fips_aes key b ∧ block_ok (fips_aes key b)) as Henc.
  { intros h0 b Hok. unfold aes_encrypt_block, fips_aes, fips_cipher, round_key. cbn [round_keys rounds].
    rewrite Hk, (Nat.mul_comm 4 nk), Nat.div_mul by done. fold w.
    destruct (Hr 0%nat ltac:(lia)) as [-> Hk0]. destruct (Hr (nk + 6)%nat ltac:(lia)) as [-> Hkn].
    assert (∀ l s, block_ok s → Forall (λ r, r ≤ nk + 6)%nat l →
      foldl (aes_round (mkAes ks h0 (nk + 6))) s l
      = foldl (λ s r, xor_bytes (fips_mix_columns (fips_shift_rows (map fips_sbox s))) (fips_round_key w r)) s l ∧
      block_ok (foldl (aes_round (mkAes ks h0 (nk + 6))) s l)) as Hf.
    { induction l as [|r l IH]; intros s Hs Hin; [done|]. cbn [foldl].
      apply Forall_cons in Hin as [Hin Hl']. destruct (Hr r Hin) as [E Hkr].
      assert (aes_round (mkAes ks h0 (nk + 6)) s r
        = xor_bytes (fips_mix_columns (fips_shift_rows (map fips_sbox s))) (fips_round_key w r) ∧
        block_ok (aes_round (mkAes ks h0 (nk + 6)) s r)) as [<- Hs'].
      { unfold aes_round, round_key. cbn [round_keys]. rewrite E. by apply aes_round_spec. }
      by apply IH. }
    destruct (Hf (seq 1 (nk + 6 - 1)) (add_round_key (fips_round_key w 0) b)) as [E Hs].
    - by apply add_round_key_ok.
    - apply Forall_forall. intros r Hin%elem_of_seq. lia.
    - destruct (sub_bytes_spec _ Hs) as [E1 H1]. pose proof (add_round_key_ok _ _ Hkn (shift_rows_ok _ H1)) as Hout.
      assert (∀ x y : list Z, x = y → block_ok x → x = y ∧ block_ok y) as Hand by (by intros ?? ->).
      apply Hand; [|exact Hout]. unfold add_round_key at 1.
      rewrite shift_rows_spec, E1, E by apply H1. done. }
  unfold aes_new.
  assert (negb (length key =? 16)%nat && negb (length key =? 24)%nat && negb (length key =? 32)%nat = false) as ->.
  { destruct Hkey as [->|[->| ->]]; reflexivity. }
  rewrite Hks. cbn [mbind option_bind]. eexists. split; [reflexivity|]. split; [|by apply Henc].
  cbn [h]. apply Henc. split; [done|]. apply Forall_replicate. unfold is_byte. lia.
Qed.

(** ** SP 800-38D *)

(** Blocks are the integers of their 128 bits, the leftmost bit the most significant. *)
Definition gcm_shift (v : Z) : Z :=
  if Z.odd v then Z.lxor (v / 2) (Z.shiftl 0xe1 120) else v / 2.
Definition gcm_mul (x y : Z) : Z :=
  (foldl (λ zv i, let '(z, v) := zv in
     (if Z.testbit x (127 - Z.of_nat i) then Z.lxor z v else z, gcm_shift v)) (0, y) (seq 0 128)).1.

(** The number of blocks that hold [n] bytes; a last partial block is padded with zeros. *)
Definition block_count (n : nat) : nat := ((n + 15) / 16)%nat.
Definition gcm_blocks (data : list Z) : list Z :=
  map (λ i, let b := take 16 (drop (16 * i) data) in from_be_bytes (b ++ replicate (16 - length b) 0))
    (seq 0 (block_count (length data))).

Definition gcm_ghash (hk : Z) (blocks : list Z) : Z := foldl (λ y b, gcm_mul (Z.lxor y b) hk) 0 blocks.

Definition inc32 (x : Z) : Z := x / 2 ^ 32 * 2 ^ 32 + (x + 1) mod 2 ^ 32.

Definition gctr (ciph : list Z → list Z) (icb : Z) (text : list Z) : list Z :=
  xor_bytes text (flat_map (λ i, ciph (to_be_bytes 16 (Nat.iter i inc32 icb)))
                    (seq 0 (block_count (length text)))).

Definition gcm_ae (ciph : list Z → list Z) (iv text aad : list Z) : list Z * list Z :=
  let hk := from_be_bytes (ciph (replicate 16 0)) in
  let j := from_be_bytes iv * 2 ^ 32 + 1 in
  let c := gctr ciph (inc32 j) text in
  let lens := [8 * Z.of_nat (length aad) * 2 ^ 64 + 8 * Z.of_nat (length c)] in
  let s := gcm_ghash hk (gcm_blocks aad ++ gcm_blocks c ++ lens) in
  (c, gctr ciph j (to_be_bytes 16 s)).

(** *** Bytes and integers *)

Lemma testbit_split m x f k : 0 ≤ m → 0 ≤ f < 2 ^ m → 0 ≤ k →
  Z.testbit (x * 2 ^ m + f) k = if k <? m then Z.testbit f k else Z.testbit x (k - m).
Proof.
  intros Hm Hf Hk. destruct (Z.ltb_spec k m).
  - rewrite <-(Z.mod_pow2_bits_low _ m) by done. by rewrite Z.add_comm, Z_mod_plus_full, Z.mod_small.
  - replace k with (k - m + m) at 1 by lia. rewrite <-Z.div_pow2_bits by lia.
    by rewrite Z.div_add_l, Z.div_small, Z.add_0_r by lia.
Qed.

Lemma from_be_bytes_bit l k : bytes l → 0 ≤ k →
  Z.testbit (from_be_bytes l) k =
  (k <? 8 * Z.of_nat (length l)) && Z.testbit l.[length l - 1 - Z.to_nat (k / 8)] (k mod 8).
Proof.
  intros Hl Hk. induction Hl as [|x l Hx Hl IH].
  - simpl. rewrite (proj2 (Z.ltb_ge _ _)) by lia. apply Z.bits_0.
  - rewrite from_be_bytes_cons, testbit_split by (try apply from_be_bytes_range; done || lia).
    destruct (Z.ltb_spec k (8 * Z.of_nat (length l))) as [Hlt|Hge].
    + rewrite IH. cbn [length]. rewrite (proj2 (Z.ltb_lt k (8 * Z.of_nat (S (length l))))) by lia.
      rewrite andb_true_l. assert (k / 8 < Z.of_nat (length l)) by (apply Z.div_lt_upper_bound; lia).
      assert (0 ≤ k / 8) by (apply Z.div_pos; lia).
      replace (S (length l) - 1 - Z.to_nat (k / 8))%nat with (S (length l - 1 - Z.to_nat (k / 8))) by lia. done.
    + cbn [length]. destruct (Z.ltb_spec k (8 * Z.of_nat (S (length l)))) as [Hlt|Hge'].
      * assert (k / 8 = Z.of_nat (length l)) as E
          by (symmetry; apply (Z.div_unique _ _ _ (k - 8 * Z.of_nat (length l))); lia).
        rewrite E, Nat2Z.id. replace (S (length l) - 1 - length l)%nat with 0%nat by lia.
        rewrite Z.mod_eq, E by done. done.
      * simpl. apply (proj1 (is_word_testbit 8 x ltac:(lia) (proj1 Hx)) Hx). lia.
Qed.

Lemma nth_xor_bytes a b i : length a = length b → (xor_bytes a b).[i] = Z.lxor a.[i] b.[i].
Proof. revert b i. induction a as [|x a IH]; intros [|y b] [|i] H; try done. simpl. apply IH. simpl in H. lia. Qed.

Lemma from_be_bytes_xor a b : length a = length b → bytes a → bytes b →
  from_be_bytes (xor_bytes a b) = Z.lxor (from_be_bytes a) (from_be_bytes b).
Proof.
  intros Hl Ha Hb. apply Z.bits_inj'. intros k Hk. rewrite Z.lxor_spec, !from_be_bytes_bit by (done || by apply xor_bytes_byte).
  rewrite length_xor_bytes, Hl, Nat.min_id, nth_xor_bytes, Z.lxor_spec by done. by destruct (k <? _).
Qed.

(** *** The multiplication *)

(** Shifting a big-endian number right by one, byte by byte; [p] is the byte before. *)
Fixpoint shift_bytes (p : Z) (l : list Z) : list Z :=
  match l with
  | [] => []
  | b :: l => Z.lor (Z.shiftr b 1) (u8 (Z.shiftl (Z.land p 1) 7)) :: shift_bytes b l
  end.

Lemma shift_byte_checked : all_bytes (λ p, all_bytes (λ b,
  Z.lor (Z.shiftr b 1) (u8 (Z.shiftl (Z.land p 1) 7)) =? 128 * (p mod 2) + b / 2)) = true.
Proof. vm_compute. reflexivity. Qed.

Lemma shift_byte p b : is_byte p → is_byte b →
  Z.lor (Z.shiftr b 1) (u8 (Z.shiftl (Z.land p 1) 7)) = 128 * (p mod 2) + b / 2.
Proof. intros Hp Hb. pose proof (all_bytes_spec _ (all_bytes_spec _ shift_byte_checked p Hp) b Hb). lia. Qed.

Lemma shift_bytes_spec l : bytes l → ∀ p, is_byte p →
  from_be_bytes (shift_bytes p l) = ((p mod 2) * 2 ^ (8 * Z.of_nat (length l)) + from_be_bytes l) / 2 ∧
  bytes (shift_bytes p l) ∧ length (shift_bytes p l) = length l.
Proof.
  induction 1 as [|b l Hb Hl IH]; intros p Hp.
  - cbn. rewrite Z.mul_1_r, Z.add_0_r. split; [|split; [constructor|done]].
    symmetry. apply Z.div_small, Z.mod_pos_bound. lia.
  - destruct (IH b Hb) as (E & Hs & Hn). cbn [shift_bytes]. rewrite !from_be_bytes_cons, Hn, E, shift_byte by done.
    cbn [length]. set (n := length l) in *. pose proof (from_be_bytes_range l Hl) as Hf. fold n in Hf.
    set (f := from_be_bytes l) in *. unfold is_byte, is_word in *.
    assert (2 ^ (8 * Z.of_nat (S n)) = 256 * 2 ^ (8 * Z.of_nat n)) as ->.
    { rewrite Nat2Z.inj_succ. replace (8 * Z.succ (Z.of_nat n)) with (8 + 8 * Z.of_nat n) by lia.
      rewrite Z.pow_add_r by lia. done. }
    set (m := 2 ^ (8 * Z.of_nat n)) in *.
    pose proof (Z.div_mod b 2 ltac:(lia)) as D. pose proof (Z.mod_pos_bound p 2 ltac:(lia)).
    pose proof (Z.mod_pos_bound b 2 ltac:(lia)).
    assert (0 ≤ b / 2 < 128) by (split; [apply Z.div_pos; lia|apply Z.div_lt_upper_bound; lia]).
    split; [|split; [constructor; [unfold is_byte; lia|done]|simpl; by rewrite Hn]].
    replace (p mod 2 * (256 * m) + (b * m + f)) with ((128 * (p mod 2) + b / 2) * m * 2 + (b mod 2 * m + f)) by nia.
    by rewrite Z.div_add_l by lia.
Qed.

Lemma gf_shift_bytes v : length v = 16%nat →
  gf_shift v = let s := shift_bytes 0 v in
               if Z.land v.[15] 1 =? 1 then <[0%nat := Z.lxor s.[0] 0xe1]> s else s.
Proof.
  intros H. do 16 (destruct v as [|? v]; [done|]). destruct v; [|done].
  cbv -[Z.lxor Z.lor Z.land Z.shiftr Z.shiftl u8 Z.eqb]. change (u8 (Z.shiftl (Z.land 0 1) 7)) with 0.
  by rewrite Z.lor_0_r.
Qed.

Lemma last_bit v : block_ok v → (Z.land v.[15] 1 =? 1) = Z.odd (from_be_bytes v).
Proof.
  intros [Hl Hv]. rewrite (Z.land_ones _ 1) by lia. change (2 ^ 1) with 2. rewrite <-Z.bit0_odd, from_be_bytes_bit by done.
  rewrite Hl. simpl. rewrite Zmod_odd. by destruct (Z.odd _).
Qed.

Lemma gf_shift_spec v : block_ok v → from_be_bytes (gf_shift v) = gcm_shift (from_be_bytes v) ∧ block_ok (gf_shift v).
Proof.
  intros Hw. pose proof Hw as [Hl Hv]. rewrite gf_shift_bytes by done. cbn zeta. rewrite last_bit by done. unfold gcm_shift.
  destruct (shift_bytes_spec v Hv 0) as (E & Hb & Hn); [unfold is_byte; lia|].
  rewrite Z.mul_0_l, Z.add_0_l in E. rewrite Hl in Hn. set (s := shift_bytes 0 v) in *.
  destruct (Z.odd _); [|done].
  assert (bytes (0xe1 :: replicate 15 0)) as Hr by (constructor; [|apply Forall_replicate]; unfold is_byte; lia).
  assert (<[0%nat := Z.lxor s.[0] 0xe1]> s = xor_bytes s (0xe1 :: replicate 15 0)) as ->.
  { clear -Hn. do 16 (destruct s as [|? s]; [done|]). destruct s; [|done]. cbv -[Z.lxor]. by rewrite !Z.lxor_0_r. }
  split; [|split; [by rewrite length_xor_bytes, Hn|by apply xor_bytes_byte]].
  rewrite from_be_bytes_xor, E by (done || by rewrite Hn). reflexivity.
Qed.

Lemma byte_bit x i : block_ok x → (i < 128)%nat →
  (Z.land (Z.shiftr x.[i / 8] (7 - Z.of_nat (i mod 8))) 1 =? 1) = Z.testbit (from_be_bytes x) (127 - Z.of_nat i).
Proof.
  intros [Hl Hx] Hi. rewrite from_be_bytes_bit, Hl by (done || lia).
  assert ((i = 8 * (i / 8) + i mod 8)%nat ∧ (i mod 8 < 8)%nat ∧ (i / 8 < 16)%nat) as (D & Hm & Hq).
  { split; [by apply Nat.div_mod_eq|split; [by apply Nat.mod_upper_bound|by apply Nat.Div0.div_lt_upper_bound]]. }
  set (q := (i / 8)%nat) in *. set (r := (i mod 8)%nat) in *.
  rewrite (proj2 (Z.ltb_lt (127 - Z.of_nat i) _)), andb_true_l by lia.
  assert ((127 - Z.of_nat i) / 8 = 15 - Z.of_nat q ∧ (127 - Z.of_nat i) mod 8 = 7 - Z.of_nat r) as [-> ->].
  { split; symmetry; [apply (Z.div_unique _ _ _ (7 - Z.of_nat r))|apply (Z.mod_unique _ _ (15 - Z.of_nat q))]; lia. }
  replace (16 - 1 - Z.to_nat (15 - Z.of_nat q))%nat with q by lia.
  rewrite (Z.land_ones _ 1) by lia. change (2 ^ 1) with 2. rewrite Zmod_odd, <-Z.bit0_odd, Z.shiftr_spec by lia.
  rewrite Z.add_0_l. by destruct (Z.testbit _ _).
Qed.

Lemma gf_mult_spec x y : block_ok x → block_ok y →
  from_be_bytes (gf_mult x y) = gcm_mul (from_be_bytes x) (from_be_bytes y) ∧ block_ok (gf_mult x y).
Proof.
  intros Hx Hy. unfold gf_mult, gcm_mul.
  assert (∀ l z v, Forall (λ i, i < 128)%nat l → block_ok z → block_ok v →
    from_be_bytes (foldl (gf_step x) (z, v) l).1
    = (foldl (λ zv i, let '(z, v) := zv in
        (if Z.testbit (from_be_bytes x) (127 - Z.of_nat i) then Z.lxor z v else z, gcm_shift v))
        (from_be_bytes z, from_be_bytes v) l).1 ∧
    block_ok (foldl (gf_step x) (z, v) l).1) as H.
  { induction l as [|i l IH]; intros z v Hi Hz Hv; [done|]. apply Forall_cons in Hi as [Hi Hl].
    cbn [foldl]. unfold gf_step at 2 4. rewrite byte_bit by done.
    destruct (gf_shift_spec v Hv) as [<- Hv'].
    assert (block_ok (xor_bytes z v)) as Hzv.
    { destruct Hz, Hv. split; [rewrite length_xor_bytes; lia|by apply xor_bytes_byte]. }
    destruct (Z.testbit _ _).
    - rewrite <-from_be_bytes_xor by (apply Hz || apply Hv || destruct Hz, Hv; congruence).
      apply (IH _ _ Hl Hzv Hv').
    - apply (IH _ _ Hl Hz Hv'). }
  apply (H (seq 0 128) (replicate 16 0) y); [|split; [done|]|done].
  - apply Forall_forall. intros i Hi%elem_of_seq. lia.
  - apply Forall_replicate. unfold is_byte. lia.
Qed.

(** *** GHASH *)

Lemma zeros_ok : block_ok (replicate 16 0).
Proof. split; [done|]. apply Forall_replicate. unfold is_byte. lia. Qed.

Lemma xor_ok a b : block_ok a → block_ok b → block_ok (xor_bytes a b).
Proof. intros [Ha Ba] [Hb Bb]. split; [rewrite length_xor_bytes; lia|by apply xor_bytes_byte]. Qed.

Lemma block_count_0 n : (0 < n)%nat → (n ≤ 16)%nat → block_count n = 1%nat.
Proof. intros. unfold block_count. symmetry. apply (Nat.div_unique _ _ _ (n - 1)); lia. Qed.

Lemma block_count_S n : (16 ≤ n)%nat → block_count n = S (block_count (n - 16)).
Proof.
  intros. unfold block_count. replace (n + 15)%nat with (1 * 16 + (n - 16 + 15))%nat by lia.
  by rewrite Nat.div_add_l.
Qed.

Lemma gcm_blocks_drop data : (16 ≤ length data)%nat →
  gcm_blocks data = from_be_bytes (take 16 data) :: gcm_blocks (drop 16 data).
Proof.
  intros H. unfold gcm_blocks. rewrite block_count_S by done. cbn [seq map]. f_equal.
  - cbn zeta. rewrite drop_0, length_take, Nat.min_l by lia. cbn [Nat.sub replicate]. by rewrite app_nil_r.
  - rewrite <-seq_shift, map_map, length_drop. apply map_ext. intros i. rewrite drop_drop.
    by replace (16 * S i)%nat with (16 + 16 * i)%nat by lia.
Qed.

Lemma gcm_blocks_last data : (0 < length data)%nat → (length data < 16)%nat →
  gcm_blocks data = [from_be_bytes (splice 0 data (replicate 16 0))].
Proof.
  intros H Hlt. unfold gcm_blocks. rewrite block_count_0 by lia. cbn [seq map]. f_equal. cbn zeta.
  rewrite drop_0, take_ge by lia. unfold splice. rewrite take_0, drop_replicate. done.
Qed.

Lemma splice_ok data : bytes data → (length data ≤ 16)%nat → block_ok (splice 0 data (replicate 16 0)).
Proof.
  intros Hb Hl. split; [rewrite length_splice; rewrite ?length_replicate; simpl; lia|].
  unfold splice. rewrite take_0, drop_replicate. apply Forall_app; split; [constructor|].
  apply Forall_app; split; [done|]. apply Forall_replicate. unfold is_byte. lia.
Qed.

Lemma ghash_blocks_spec hk fuel : ∀ y data, block_ok hk → block_ok y → bytes data → (length data < fuel)%nat →
  from_be_bytes (ghash_blocks fuel hk y data)
  = foldl (λ y b, gcm_mul (Z.lxor y b) (from_be_bytes hk)) (from_be_bytes y) (gcm_blocks data) ∧
  block_ok (ghash_blocks fuel hk y data).
Proof.
  induction fuel as [|fuel IH]; intros y data Hh Hy Hd Hf; [lia|]. cbn [ghash_blocks].
  case_decide as H16; [|case_decide as H0].
  - assert (block_ok (take 16 data)) as Ht by (split; [rewrite length_take; lia|by apply Forall_take]).
    destruct (gf_mult_spec (xor_bytes y (take 16 data)) hk (xor_ok _ _ Hy Ht) Hh) as [E Hw].
    rewrite gcm_blocks_drop by done. cbn [foldl].
    rewrite <-from_be_bytes_xor, <-E by (apply Hy || apply Ht || destruct Hy, Ht; congruence).
    apply IH; [done|done|by apply Forall_drop|rewrite length_drop; lia].
  - pose proof (splice_ok data Hd ltac:(lia)) as Ht. rewrite gcm_blocks_last by lia. cbn [foldl].
    rewrite <-from_be_bytes_xor by (apply Hy || apply Ht || destruct Hy, Ht; congruence).
    apply gf_mult_spec; [by apply xor_ok|done].
  - destruct data; [done|simpl in H0; lia].
Qed.

Lemma be_lengths a c : Z.of_nat a < 2 ^ 61 → Z.of_nat c < 2 ^ 61 →
  let l := to_be_bytes 8 (u64_mul (Z.of_nat a) 8) ++ to_be_bytes 8 (u64_mul (Z.of_nat c) 8) in
  from_be_bytes l = 8 * Z.of_nat a * 2 ^ 64 + 8 * Z.of_nat c ∧ block_ok l.
Proof.
  intros Ha Hc. cbn zeta. unfold u64_mul.
  rewrite !(wrap_small 64) by (unfold is_word; lia). split.
  - rewrite from_be_bytes_app, length_to_be_bytes, !from_to_be_bytes; unfold is_word; simpl Z.of_nat; lia.
  - split; [by rewrite length_app, !length_to_be_bytes|]. apply Forall_app; split; apply to_be_bytes_byte.
Qed.

Lemma ghash_spec c aad ct : block_ok (h c) → bytes aad → bytes ct →
  Z.of_nat (length aad) < 2 ^ 61 → Z.of_nat (length ct) < 2 ^ 61 →
  from_be_bytes (ghash c aad ct)
  = gcm_ghash (from_be_bytes (h c)) (gcm_blocks aad ++ gcm_blocks ct
      ++ [8 * Z.of_nat (length aad) * 2 ^ 64 + 8 * Z.of_nat (length ct)]) ∧
  block_ok (ghash c aad ct).
Proof.
  intros Hh Ha Hc La Lc. unfold ghash, gcm_ghash. rewrite !foldl_app. cbn [foldl].
  destruct (ghash_blocks_spec (h c) (S (length aad)) (replicate 16 0) aad Hh zeros_ok Ha ltac:(lia)) as [Ea Wa].
  change (from_be_bytes (replicate 16 0)) with 0 in Ea. rewrite <-Ea.
  destruct (ghash_blocks_spec (h c) (S (length ct)) _ ct Hh Wa Hc ltac:(lia)) as [Ec Wc]. rewrite <-Ec.
  destruct (be_lengths _ _ La Lc) as [El Wl]. rewrite <-El.
  rewrite <-from_be_bytes_xor by (apply Wc || apply Wl || destruct Wc, Wl; congruence).
  apply gf_mult_spec; [by apply xor_ok|done].
Qed.

(** *** The counter *)

Lemma increment_spec n : ∀ a b c, bytes b → length b = n → (0 < n)%nat →
  ∃ b', increment_from n (length a + n - 1) (a ++ b ++ c) = a ++ b' ++ c ∧
        from_be_bytes b' = (from_be_bytes b + 1) mod 2 ^ (8 * Z.of_nat n) ∧ length b' = n ∧ bytes b'.
Proof.
  induction n as [|n IH]; intros a b c Hb Hl Hn; [lia|].
  destruct (exists_last (l := b)) as (b0 & x & ->); [by intros ->|].
  rewrite length_app in Hl. simpl in Hl. apply Forall_app in Hb as [Hb0 Hx]. apply Forall_cons in Hx as [Hx _].
  assert (length b0 = n) as Hl0 by lia. cbn [increment_from].
  replace (length a + S n - 1)%nat with (length (a ++ b0) + 0)%nat by (rewrite length_app; lia).
  assert (a ++ (b0 ++ [x]) ++ c = (a ++ b0) ++ x :: c) as -> by by rewrite <-!app_assoc.
  rewrite insert_app_r. rewrite !app_nth2_plus. cbn [nth list_insert insert].
  pose proof (from_be_bytes_range b0 Hb0) as R. rewrite Hl0 in R. unfold is_byte, is_word in *.
  set (m := 2 ^ (8 * Z.of_nat n)) in *.
  assert (2 ^ (8 * Z.of_nat (S n)) = 256 * m) as ->.
  { replace (8 * Z.of_nat (S n)) with (8 + 8 * Z.of_nat n) by lia. rewrite Z.pow_add_r by lia. done. }
  rewrite from_be_bytes_app. change (from_be_bytes [x]) with (x + 0). change (2 ^ (8 * Z.of_nat (length [x]))) with 256.
  unfold u8, wrap. change (2 ^ 8) with 256. destruct (Z.eqb_spec ((x + 1) mod 256) 0) as [E|E].
  - assert (x = 255) as -> by (destruct (Z.eq_dec x 255); [done|rewrite Z.mod_small in E; lia]).
    change ((255 + 1) mod 256) with 0. replace (from_be_bytes b0 * 256 + (255 + 0) + 1) with (256 * (from_be_bytes b0 + 1)) by lia.
    rewrite Zmult_mod_distr_l. destruct n as [|n].
    + destruct b0; [|done]. cbn [increment_from]. exists [0]. rewrite app_nil_r. split; [done|].
      split; [|split; [done|]]; [subst m; simpl; by rewrite Z.mod_1_r|]. constructor; [unfold is_byte; lia|constructor].
    + destruct (IH a b0 (0 :: c) Hb0 Hl0 ltac:(lia)) as (b' & Ei & Ef & El & Eb).
      exists (b' ++ [0]). replace (length (a ++ b0) + 0 - 1)%nat with (length a + S n - 1)%nat by (rewrite length_app; lia).
      rewrite <-!app_assoc. rewrite Ei. split; [by rewrite <-?app_assoc|].
      rewrite from_be_bytes_app, Ef. change (from_be_bytes [0]) with 0. change (2 ^ (8 * Z.of_nat (length [0]))) with 256.
      split; [unfold m; lia|]. split; [rewrite length_app, El; simpl; lia|]. apply Forall_app; split; [done|].
      constructor; [unfold is_byte; lia|constructor].
  - assert (x ≠ 255) by (intros ->; done). rewrite (Z.mod_small (x + 1)) by lia.
    exists (b0 ++ [x + 1]). rewrite <-!app_assoc. split; [done|]. rewrite from_be_bytes_app, length_app, Hl0.
    change (from_be_bytes [x + 1]) with (x + 1 + 0). change (2 ^ (8 * Z.of_nat (length [x + 1]))) with 256.
    split; [rewrite Z.mod_small; lia|]. split; [simpl; lia|]. apply Forall_app; split; [done|].
    constructor; [unfold is_byte; lia|constructor].
Qed.

Lemma increment_counter_spec v : block_ok v →
  from_be_bytes (increment_counter v) = inc32 (from_be_bytes v) ∧ block_ok (increment_counter v).
Proof.
  intros [Hl Hv]. rewrite <-(take_drop 12 v) in Hv |- *. apply Forall_app in Hv as [Ha Hb].
  assert (length (take 12 v) = 12%nat) as La by (rewrite length_take; lia).
  assert (length (drop 12 v) = 4%nat) as Lb by (rewrite length_drop; lia).
  destruct (increment_spec 4 (take 12 v) (drop 12 v) [] Hb Lb ltac:(lia)) as (b' & Ei & Ef & El & Eb).
  rewrite !app_nil_r, La in Ei. unfold increment_counter. change (12 + 4 - 1)%nat with 15%nat in Ei. rewrite Ei. split.
  - rewrite !from_be_bytes_app, Ef, El, Lb. change (8 * Z.of_nat 4) with 32. unfold inc32.
    pose proof (from_be_bytes_range _ Hb) as R. rewrite Lb in R. unfold is_word in R. change (8 * Z.of_nat 4) with 32 in R.
    rewrite Z.div_add_l, Z.div_small, Z.add_0_r by lia.
    f_equal. rewrite <-(Z_mod_plus_full _ (from_be_bytes (take 12 v))). f_equal. lia.
  - split; [by rewrite length_app, El, La|by apply Forall_app].
Qed.

Lemma j0_spec nonce : bytes nonce → length nonce = 12%nat →
  from_be_bytes (j0 nonce) = from_be_bytes nonce * 2 ^ 32 + 1 ∧ block_ok (j0 nonce).
Proof.
  intros Hb Hl. assert (j0 nonce = nonce ++ [0; 0; 0; 1]) as ->.
  { clear Hb. do 12 (destruct nonce as [|? nonce]; [done|]). by destruct nonce. }
  split; [by rewrite from_be_bytes_app|]. split; [by rewrite length_app, Hl|].
  apply Forall_app; split; [done|]. repeat constructor; done.
Qed.

(** *** Counter mode *)

Section gctr.
Context (c : AesGcm) (ciph : list Z → list Z).
Hypothesis (Hciph : ∀ b, block_ok b → aes_encrypt_block c b = ciph b ∧ block_ok (ciph b)).

Definition key_stream (icb : Z) (n : nat) : list Z :=
  flat_map (λ i, ciph (to_be_bytes 16 (Nat.iter i inc32 icb))) (seq 0 n).

Lemma key_stream_S icb n : key_stream icb (S n) = ciph (to_be_bytes 16 icb) ++ key_stream (inc32 icb) n.
Proof.
  unfold key_stream. cbn [seq flat_map]. f_equal. rewrite <-seq_shift, !flat_map_concat_map, map_map.
  f_equal. apply map_ext. intros i. by rewrite Nat.iter_succ_r.
Qed.

Lemma xor_bytes_app a b x y : length a = length x → xor_bytes (a ++ b) (x ++ y) = xor_bytes a x ++ xor_bytes b y.
Proof. intros H. by apply zip_with_app. Qed.

Lemma ctr_stream fuel : ∀ v text, block_ok v → (length text < fuel)%nat →
  add_stream 16 (aes_encrypt_block c) increment_counter fuel v text
  = xor_bytes text (key_stream (from_be_bytes v) (block_count (length text))).
Proof using Hciph.
  induction fuel as [|fuel IH]; intros v text Hv Hf; [lia|]. cbn [add_stream].
  case_decide as H0; [|destruct text; [done|simpl in H0; lia]].
  destruct (Hciph v Hv) as [-> Hw]. destruct (increment_counter_spec v Hv) as [Ei Hi].
  rewrite IH by (done || rewrite length_drop; lia). rewrite Ei.
  assert (to_be_bytes 16 (from_be_bytes v) = v) as Ev.
  { destruct Hv as [Hl Hb]. rewrite <-Hl at 1. by apply to_from_be_bytes. }
  destruct (decide (16 ≤ length text)%nat) as [H16|H16].
  - rewrite (block_count_S (length text)), key_stream_S, Ev by done.
    rewrite <-xor_bytes_app by (destruct Hw; rewrite length_take; lia). by rewrite take_drop, length_drop.
  - rewrite drop_ge, take_ge by lia. simpl. rewrite app_nil_r, block_count_0, key_stream_S, Ev by lia.
    unfold key_stream. simpl. by rewrite app_nil_r.
Qed.


Lemma key_stream_bytes icb n : bytes (key_stream icb n).
Proof using Hciph.
  unfold key_stream. generalize (seq 0 n). intros l. induction l as [|i l IH]; [constructor|]. cbn [flat_map].
  apply Forall_app; split; [|exact IH]. apply Hciph. split; [apply length_to_be_bytes|apply to_be_bytes_byte].
Qed.
End gctr.

(** [C11] The cipher is AES-GCM. For keys of 16, 24 and 32 bytes [new] succeeds; the body is
    the text under the key stream of AES in counter mode, AES as in FIPS 197 (the S-box as
    inversion in GF(2^8) and an affine map), and the tag is the GHASH of SP 800-38D over
    128-bit blocks, encrypted; decryption returns a text exactly for that ciphertext and
    tag. *)
Theorem aes_gcm_correct (key nonce aad : list Z) :
  length key = 16%nat ∨ length key = 24%nat ∨ length key = 32%nat → length nonce = 12%nat →
  bytes nonce → bytes aad → Z.of_nat (length aad) < 2 ^ 61 →
  ∃ c, aes_new key = Some (Ok c) ∧
  ∀ text, bytes text → Z.of_nat (length text) < 2 ^ 61 →
    let '(ct, tag) := gcm_ae (fips_aes key) nonce text aad in
    aes_encrypt c nonce text aad = Ok (ct ++ tag) ∧
    ∀ m, aes_decrypt c nonce m aad = Ok text ↔ m = ct ++ tag.
Proof.
  intros Hk Hn Bn Ba La. destruct (aes_new_fips key Hk) as (c & Hc & Hh & Henc).
  exists c. split; [done|]. intros text Bt Lt.
  assert (∀ b, block_ok b → aes_encrypt_block c b = fips_aes key b ∧ block_ok (fips_aes key b)) as He by done.
  destruct (j0_spec nonce Bn Hn) as [Ej Hj]. destruct (increment_counter_spec _ Hj) as [Ei Hi].
  assert (block_ok (h c)) as Wh by (rewrite Hh; apply Henc, zeros_ok).
  assert (valid c) as Hv.
  { destruct (aes_new_total key) as (r & Hr & Hw & _). apply Hw. congruence. }
  unfold gcm_ae. rewrite <-Hh, <-Ej, <-Ei.
  set (ct := gctr (fips_aes key) (from_be_bytes (increment_counter (j0 nonce))) text).
  assert (ctr c nonce text = ct) as Ect by (unfold ctr; apply ctr_stream; (done || lia)).
  assert (length ct = length text) as Lc by (rewrite <-Ect; by apply ctr_spec).
  assert (bytes ct) as Bc by (apply xor_bytes_byte; [done|]; eapply key_stream_bytes; apply Henc).
  destruct (ghash_spec c aad ct Wh Ba Bc La ltac:(by rewrite Lc)) as [Eg Wg]. rewrite <-Eg.
  assert (aes_tag c nonce ct aad
    = gctr (fips_aes key) (from_be_bytes (j0 nonce)) (to_be_bytes 16 (from_be_bytes (ghash c aad ct)))) as Et.
  { unfold aes_tag, gctr. destruct (Henc _ Hj) as [-> _].
    assert (∀ b, block_ok b → to_be_bytes 16 (from_be_bytes b) = b) as Hto
      by (intros b [Hl Hb]; rewrite <-Hl at 1; by apply to_from_be_bytes).
    rewrite length_to_be_bytes. change (block_count 16) with 1%nat. cbn [seq flat_map].
    change (Nat.iter 0 inc32 ?x) with x. by rewrite !Hto, app_nil_r by done. }
  rewrite <-Et. assert (aes_encrypt c nonce text aad = Ok (ct ++ aes_tag c nonce ct aad)) as Hseal.
  { unfold aes_encrypt, seal. rewrite decide_False by (intros H; by apply H). by rewrite Ect. }
  split; [done|]. intros m. split; intros Hm.
  - pose proof (encrypt_decrypt (C := AesGcm) c nonce text aad m Hv Hm) as H. simpl in H. congruence.
  - subst m. exact (decrypt_encrypt (C := AesGcm) c nonce text aad _ Hv Hseal).
Qed.

(** Test case 2 of the GCM specification: a zero key, nonce and block. *)
Lemma aes_gcm_correct_witness :
  gcm_ae (fips_aes (replicate 16 0)) (replicate 12 0) (replicate 16 0) []
  = (to_be_bytes 16 0x0388dace60b6a392f328c2b971b2fe78, to_be_bytes 16 0xab6e47d42cec13bdf53a67b21257bddf) ∧
  ∃ c, aes_new (replicate 16 0) = Some (Ok c) ∧
    aes_encrypt c (replicate 12 0) (replicate 16 0) []
    = Ok (to_be_bytes 16 0x0388dace60b6a392f328c2b971b2fe78 ++ to_be_bytes 16 0xab6e47d42cec13bdf53a67b21257bddf).
Proof.
  assert (∀ n, bytes (replicate n 0)) as Hz by (intros n; apply Forall_replicate; unfold is_byte; lia).
  assert (gcm_ae (fips_aes (replicate 16 0)) (replicate 12 0) (replicate 16 0) []
    = (to_be_bytes 16 0x0388dace60b6a392f328c2b971b2fe78, to_be_bytes 16 0xab6e47d42cec13bdf53a67b21257bddf)) as E
    by (vm_compute; reflexivity).
  split; [exact E|].
  destruct (aes_gcm_correct (replicate 16 0) (replicate 12 0) [] ltac:(by left) eq_refl (Hz 12%nat)
    ltac:(constructor) ltac:(done)) as (c & Hc & H).
  exists c. split; [exact Hc|]. specialize (H (replicate 16 0) (Hz 16%nat) ltac:(done)). rewrite E in H. exact (proj1 H).
Defined.
