(* ===== verification/Random.v ===== *)
(** * Random: random numbers ([kernel/src/crypto/random.rs])

    The trait [CryptoRng] is the class [CryptoRng]; the hardware generator and the ChaCha
    generator are its instances. The hardware is a sequence of outcomes of the RDRAND
    instruction, a parameter; the generator's state is the position in it. *)

From Stdlib Require Import ZArith Lia.
From stdpp Require Import list.
From S2P Require Import Prelude.
From S2P Require Import Ids.
From S2P Require Import Bytes.
From S2P Require Import Hash.
From S2P Require Import Cipher.
From S2P Require Import Chacha.

Inductive CryptoError :=
  | CryptoInvalidKeyLength | CryptoInvalidNonceLength | CryptoAuthenticationFailed
  | CryptoBufferTooSmall | RngFailure | InvalidInput | NotSupported.

(** ** The trait *)

(** [fill_bytes n]: the [n] bytes written, when it succeeds. *)
Class CryptoRng (R : Type) := {
  fill_bytes : nat → R → R * Result (list Z) CryptoError;
  rng_valid : R → Prop;
  fill_bytes_ok : ∀ n r r' res, rng_valid r → fill_bytes n r = (r', res) →
    rng_valid r' ∧ ∀ l, res = Ok l → length l = n ∧ bytes l
}.

Section trait.
Context {R} `{CryptoRng R}.

Definition random_bytes (len : nat) (r : R) : R * Result (list Z) CryptoError := fill_bytes len r.

Definition random_u64 (r : R) : R * Result Z CryptoError :=
  match fill_bytes 8 r with
  | (r, Ok buf) => (r, Ok (from_le_bytes buf))
  | (r, Err e) => (r, Err e)
  end.

Definition random_u32 (r : R) : R * Result Z CryptoError :=
  match fill_bytes 4 r with
  | (r, Ok buf) => (r, Ok (from_le_bytes buf))
  | (r, Err e) => (r, Err e)
  end.

Definition threshold (max : Z) : Z := u64_max - u64_max mod max.

(** The rejection loop; [None] when [fuel] draws are not enough. *)
Fixpoint range_loop (fuel : nat) (max : Z) (r : R) : option (R * Result Z CryptoError) :=
  match fuel with
  | O => None
  | S fuel =>
      match random_u64 r with
      | (r, Ok val) => if val <? threshold max then Some (r, Ok (val mod max)) else range_loop fuel max r
      | (r, Err e) => Some (r, Err e)
      end
  end.

Definition random_range (fuel : nat) (max : Z) (r : R) : option (R * Result Z CryptoError) :=
  if max =? 0 then Some (r, Err InvalidInput) else range_loop fuel max r.
End trait.

(** ** The hardware generator *)

Section system.
(** What the [n]-th execution of RDRAND leaves: the value and the carry flag. *)
Context (rdrand : nat → Z * bool).

Fixpoint rdrand_retry (tries pos : nat) : nat * Result Z CryptoError :=
  match tries with
  | O => (pos, Err RngFailure)
  | S tries =>
      let '(value, success) := rdrand pos in
      if success then (S pos, Ok value) else rdrand_retry tries (S pos)
  end.
Definition rdrand_u64 : nat → nat * Result Z CryptoError := rdrand_retry 10.

(** [while offset < dest.len()], 8 bytes at a time. *)
Fixpoint system_fill (fuel n pos : nat) : nat * Result (list Z) CryptoError :=
  match fuel with
  | O => (pos, Ok [])
  | S fuel =>
      if decide (0 < n)%nat
      then
        match rdrand_u64 pos with
        | (pos, Err e) => (pos, Err e)
        | (pos, Ok random) =>
            let to_copy := Nat.min 8 n in
            match system_fill fuel (n - to_copy) pos with
            | (pos, Ok rest) => (pos, Ok (take to_copy (to_le_bytes 8 random) ++ rest))
            | (pos, Err e) => (pos, Err e)
            end
        end
      else (pos, Ok [])
  end.
Definition system_fill_bytes (n pos : nat) : nat * Result (list Z) CryptoError := system_fill n n pos.

(** [fill_random_bytes]: the hardware when it works, an xorshift generator otherwise. *)
Definition xorshift (state : Z) : Z :=
  let state := Z.lxor state (u64 (Z.shiftl state 13)) in
  let state := Z.lxor state (Z.shiftr state 7) in
  Z.lxor state (u64 (Z.shiftl state 17)).

Fixpoint xorshift_fill (n : nat) (state : Z) : Z * list Z :=
  match n with
  | O => (state, [])
  | S n =>
      let state := xorshift state in
      let '(state', rest) := xorshift_fill n state in (state', u8 state :: rest)
  end.

Definition LFSR_STATE : Z := 0xDEADBEEFCAFEBABE.

(** [available] is the answer of CPUID. *)
Definition fill_random_bytes (available : bool) (n pos : nat) (lfsr : Z) : nat * Z * list Z :=
  match (if available then system_fill_bytes n pos else (pos, Err RngFailure)) with
  | (pos, Ok l) => (pos, lfsr, l)
  | (pos, Err _) => let '(lfsr, l) := xorshift_fill n lfsr in (pos, lfsr, l)
  end.
End system.

(** ** The ChaCha generator *)

Record ChaChaRng := mkRng { rng_state : list Z; rng_buffer : list Z; buffer_pos : nat }.

Definition from_seed (seed : list Z) : ChaChaRng :=
  mkRng (CONSTANTS ++ le_words 8 seed ++ [0; 0; 0; 0]) (replicate 64 0) 64.

Definition generate_block (r : ChaChaRng) : ChaChaRng :=
  let state := rng_state r in
  let working := Nat.iter 10 double_round state in
  let buffer := flat_map (λ i, to_le_bytes 4 (wadd 32 working.[i] state.[i])) (seq 0 16) in
  let state := <[12%nat := wadd 32 state.[12] 1]> state in
  let state := if state.[12] =? 0 then <[13%nat := wadd 32 state.[13] 1]> state else state in
  mkRng state buffer 0.

Fixpoint chacha_fill (fuel n : nat) (r : ChaChaRng) : ChaChaRng * list Z :=
  match fuel with
  | O => (r, [])
  | S fuel =>
      if decide (0 < n)%nat
      then
        let r := if decide (64 ≤ buffer_pos r)%nat then generate_block r else r in
        let to_copy := Nat.min (64 - buffer_pos r) n in
        let out := take to_copy (drop (buffer_pos r) (rng_buffer r)) in
        let '(r, rest) :=
          chacha_fill fuel (n - to_copy) (mkRng (rng_state r) (rng_buffer r) (buffer_pos r + to_copy)) in
        (r, out ++ rest)
      else (r, [])
  end.
Definition chacha_fill_bytes (n : nat) (r : ChaChaRng) : ChaChaRng * list Z := chacha_fill n n r.

(** ** The entropy pool *)

Record EntropyPool := mkPool { pool : list Z; count : Z }.
Definition pool_new : EntropyPool := mkPool (replicate 32 0) 0.

Definition sha256_of (parts : list (list Z)) : list Z :=
  finalize Sha256 (foldl (λ h d, update Sha256 d h) (hash_new Sha256) parts).

Definition add_entropy (data : list Z) (p : EntropyPool) : EntropyPool :=
  mkPool (sha256_of [pool p; data; to_le_bytes 8 (count p)]) (u64_add (count p) 1).

(** The buffer [dest] after the call. *)
Definition extract_entropy (dest : list Z) (p : EntropyPool) : EntropyPool * list Z :=
  let output := sha256_of [pool p; [1]; to_le_bytes 8 (count p)] in
  let to_copy := Nat.min (length dest) 32 in
  let dest := splice 0 (take to_copy output) dest in
  (mkPool (sha256_of [pool p; [2]; to_le_bytes 8 (count p)]) (u64_add (count p) 1), dest).

Definition is_seeded (p : EntropyPool) : bool := 0 <? count p.

(** ** The instances *)

Lemma take_bytes n z : bytes (take n (to_le_bytes 8 z)).
Proof. apply Forall_take, to_le_bytes_byte. Qed.

Lemma system_fill_ok rdrand fuel : ∀ n pos pos' l, (n ≤ fuel)%nat →
  system_fill rdrand fuel n pos = (pos', Ok l) → length l = n ∧ bytes l.
Proof.
  induction fuel as [|fuel IH]; intros n pos pos' l Hf; cbn [system_fill].
  - intros [= _ <-]. split; [simpl; lia|constructor].
  - case_decide as Hn; [|intros [= _ <-]; split; [simpl; lia|constructor]].
    destruct (rdrand_u64 rdrand pos) as [p1 [z|e]]; [|done].
    destruct (system_fill rdrand fuel (n - Nat.min 8 n) p1) as [p2 [rest|e]] eqn:E; [|done].
    intros E1. assert (l = take (Nat.min 8 n) (to_le_bytes 8 z) ++ rest) as -> by congruence. clear E1.
    apply IH in E as [Hl Hb]; [|lia]. split; [|apply Forall_app; split; [apply take_bytes|done]].
    rewrite length_app, length_take, length_to_le_bytes, Hl. lia.
Qed.

(** The hardware generator, whatever RDRAND delivers. *)
Definition SystemRng (rdrand : nat → Z * bool) : Type := nat.

#[export, refine] Instance SystemRng_CryptoRng rdrand : CryptoRng (SystemRng rdrand) := {|
  fill_bytes n pos := system_fill_bytes rdrand n pos;
  rng_valid _ := True; fill_bytes_ok := _
|}.
Proof.
  intros n pos pos' res _ E. split; [done|]. intros l ->. by apply (system_fill_ok rdrand n n pos pos' l).
Defined.

Section stream.
Context (seed : list Z).

(** Block [k] of the key stream: ChaCha20 with the low word of [k] as the counter and the
    high word where the cipher has the first word of the nonce. *)
Definition rng_block (k : nat) : list Z :=
  chacha20_block seed (Z.of_nat k mod 2 ^ 32) (to_le_bytes 4 (Z.of_nat k / 2 ^ 32) ++ replicate 8 0).
Definition rng_byte (i : nat) : Z := nth (i mod 64) (rng_block (i / 64)) 0.

Definition counter_state (k : nat) : list Z :=
  CONSTANTS ++ le_words 8 seed ++ [Z.of_nat k mod 2 ^ 32; (Z.of_nat k / 2 ^ 32) mod 2 ^ 32; 0; 0].

Lemma initial_counter_state k :
  initial_state seed (Z.of_nat k mod 2 ^ 32) (to_le_bytes 4 (Z.of_nat k / 2 ^ 32) ++ replicate 8 0) = counter_state k.
Proof.
  unfold initial_state, counter_state. do 2 f_equal. cbn [app]. f_equal.
  pose proof (length_to_le_bytes 4 (Z.of_nat k / 2 ^ 32)) as Hl.
  pose proof (from_to_le_bytes 4 (Z.of_nat k / 2 ^ 32)) as Hv. set (n := to_le_bytes 4 _) in *.
  do 4 (destruct n as [|? n]; [done|]). destruct n; [|done].
  change (8 * Z.of_nat 4) with 32 in Hv. by rewrite <-Hv.
Qed.

Lemma length_le_words n l : length (le_words n l) = n.
Proof. unfold le_words. by rewrite length_map, length_seq. Qed.

Lemma counter_next k : (Z.of_nat (S k)) mod 2 ^ 32 = wadd 32 (Z.of_nat k mod 2 ^ 32) 1 ∧
  (Z.of_nat (S k) / 2 ^ 32) mod 2 ^ 32
  = if Z.of_nat (S k) mod 2 ^ 32 =? 0 then wadd 32 ((Z.of_nat k / 2 ^ 32) mod 2 ^ 32) 1
    else (Z.of_nat k / 2 ^ 32) mod 2 ^ 32.
Proof.
  unfold wadd, wrap. rewrite !Zplus_mod_idemp_l.
  rewrite Nat2Z.inj_succ. unfold Z.succ. split; [done|]. set (z := Z.of_nat k).
  pose proof (Z.div_mod z (2 ^ 32) ltac:(lia)). pose proof (Z.mod_pos_bound z (2 ^ 32) ltac:(lia)).
  destruct (Z.eqb_spec ((z + 1) mod 2 ^ 32) 0) as [E|E].
  - f_equal. symmetry. apply (Z.div_unique _ _ _ 0); [lia|].
    assert (z mod 2 ^ 32 = 2 ^ 32 - 1); [|lia].
    destruct (Z.eq_dec (z mod 2 ^ 32) (2 ^ 32 - 1)); [done|]. exfalso.
    rewrite <-Zplus_mod_idemp_l, Z.mod_small in E by lia. lia.
  - f_equal. symmetry. apply (Z.div_unique _ _ _ (z mod 2 ^ 32 + 1)); [|lia]. left.
    split; [lia|]. assert (z mod 2 ^ 32 ≠ 2 ^ 32 - 1); [|lia]. intros H1. apply E.
    rewrite <-Zplus_mod_idemp_l, H1. done.
Qed.

(** The counter words come after the constants and the seed. *)
Lemma state_nth T j : (CONSTANTS ++ le_words 8 seed ++ T).[12 + j] = T.[j].
Proof.
  change (12 + j)%nat with (length CONSTANTS + (8 + j))%nat. rewrite app_nth2_plus.
  pose proof (length_le_words 8 seed) as Hl. rewrite app_nth2 by lia. f_equal. lia.
Qed.

Lemma state_insert T j x : <[(12 + j)%nat := x]> (CONSTANTS ++ le_words 8 seed ++ T)
  = CONSTANTS ++ le_words 8 seed ++ <[j := x]> T.
Proof.
  change (12 + j)%nat with (length CONSTANTS + (8 + j))%nat. by rewrite insert_app_r.
Qed.

Lemma generate_block_spec k b p :
  generate_block (mkRng (counter_state k) b p) = mkRng (counter_state (S k)) (rng_block k) 0.
Proof.
  unfold generate_block. cbn [rng_state]. cbv zeta.
  assert (<[12%nat := wadd 32 (counter_state k).[12] 1]> (counter_state k)
    = CONSTANTS ++ le_words 8 seed
      ++ [wadd 32 (Z.of_nat k mod 2 ^ 32) 1; (Z.of_nat k / 2 ^ 32) mod 2 ^ 32; 0; 0]) as ->.
  { unfold counter_state. rewrite (state_nth _ 0). etrans; [apply (state_insert _ 0)|reflexivity]. }
  rewrite (state_nth _ 0), (state_nth _ 1), (state_insert _ 1). cbn [nth].
  destruct (counter_next k) as [E1 E2].
  assert (∀ s s' b b' : list Z, s = s' → b = b' → mkRng s b 0 = mkRng s' b' 0) as Hm by (by intros ???? -> ->).
  apply Hm; clear Hm.
  - unfold counter_state. rewrite E2, E1. clear E1 E2. by destruct (_ =? 0).
  - unfold rng_block, chacha20_block. by rewrite initial_counter_state.
Qed.

#[local] Opaque rng_block.

(** [t] bytes have been delivered. *)
Definition delivered (t : nat) (r : ChaChaRng) : Prop :=
  ∃ k, rng_state r = counter_state k ∧ (buffer_pos r ≤ 64)%nat ∧ (t + 64 = 64 * k + buffer_pos r)%nat ∧
       ((buffer_pos r < 64)%nat → ∃ j, k = S j ∧ rng_buffer r = rng_block j).

Lemma from_seed_delivered : delivered 0 (from_seed seed).
Proof.
  exists 0%nat. split; [reflexivity|]. split; [apply Nat.le_refl|]. split; [reflexivity|].
  unfold from_seed. cbn [buffer_pos]. lia.
Qed.

Lemma length_rng_block k : length (rng_block k) = 64%nat.
Proof. apply length_chacha20_block. Qed.

Lemma rng_bytes_block k p n : (p + n ≤ 64)%nat →
  map rng_byte (seq (64 * k + p) n) = take n (drop p (rng_block k)).
Proof.
  intros H. apply (nth_ext _ _ 0 0).
  - rewrite length_map, length_seq, length_take, length_drop, length_rng_block. lia.
  - intros i Hi. rewrite length_map, length_seq in Hi.
    rewrite (nth_indep _ 0 (rng_byte 0)) by (rewrite length_map, length_seq; lia).
    rewrite map_nth, seq_nth by done. rewrite nth_firstn, nth_skipn.
    destruct (Nat.ltb_spec i n); [|lia]. unfold rng_byte.
    assert ((64 * k + p + i) / 64 = k ∧ (64 * k + p + i) mod 64 = p + i)%nat as [-> ->]; [|done].
    split; symmetry; [apply (Nat.div_unique _ _ _ (p + i))|apply (Nat.mod_unique _ _ k)]; lia.
Qed.

Lemma chacha_fill_spec fuel : ∀ n t r, (n ≤ fuel)%nat → delivered t r →
  ∃ r', chacha_fill fuel n r = (r', map rng_byte (seq t n)) ∧ delivered (t + n) r'.
Proof.
  induction fuel as [|fuel IH]; intros n t r Hf Hr; cbn [chacha_fill].
  - replace n with 0%nat by lia. rewrite Nat.add_0_r. eauto.
  - case_decide as Hn.
    2:{ replace n with 0%nat by lia. rewrite Nat.add_0_r. eauto. }
    set (r1 := if decide (64 ≤ buffer_pos r)%nat then generate_block r else r).
    assert (delivered t r1 ∧ (buffer_pos r1 < 64)%nat) as [(k & Hst & _ & Ht & Hbuf) Hp].
    { subst r1. destruct Hr as (k & Hst & Hle & Ht & Hb). case_decide as Hd.
      - destruct r as [st b p]. simpl in *. subst st. rewrite generate_block_spec. simpl. split; [|lia].
        exists (S k). split_and!; [done|simpl; lia|simpl; lia|]. intros _. eauto.
      - split; [|lia]. exists k. eauto. }
    clearbody r1. destruct (Hbuf Hp) as (j & -> & Hb). set (m := Nat.min (64 - buffer_pos r1) n).
    destruct (IH (n - m)%nat (t + m)%nat (mkRng (rng_state r1) (rng_buffer r1) (buffer_pos r1 + m)))
      as (r' & E & Hr'); [lia| |].
    { exists (S j). split_and!; [done|simpl; lia|simpl; lia|]. simpl. intros _. eauto. }
    rewrite E. exists r'. split; [|by replace (t + n)%nat with (t + m + (n - m))%nat by lia].
    f_equal. replace n with (m + (n - m))%nat at 2 by lia. rewrite seq_app, map_app. f_equal.
    rewrite Hb. replace t with (64 * j + buffer_pos r1)%nat by lia. symmetry. apply rng_bytes_block. lia.
Qed.
End stream.

Definition buffer_ok (r : ChaChaRng) : Prop :=
  length (rng_buffer r) = 64%nat ∧ bytes (rng_buffer r) ∧ (buffer_pos r ≤ 64)%nat.

Lemma generate_block_ok r : buffer_ok (generate_block r) ∧ buffer_pos (generate_block r) = 0%nat.
Proof.
  unfold buffer_ok, generate_block. cbn [rng_buffer buffer_pos].
  generalize (Nat.iter 10 double_round (rng_state r)). intros w.
  assert (∀ l : list nat, length (flat_map (λ i, to_le_bytes 4 (wadd 32 w.[i] (rng_state r).[i])) l) = (4 * length l)%nat ∧
    bytes (flat_map (λ i, to_le_bytes 4 (wadd 32 w.[i] (rng_state r).[i])) l)) as Hw.
  { induction l as [|x l IHl]; [split; [done|constructor]|]. cbn [flat_map length].
    rewrite length_app, (proj1 IHl), length_to_le_bytes. split; [lia|].
    apply Forall_app; split; [apply to_le_bytes_byte|apply IHl]. }
  destruct (Hw (seq 0 16)). split_and!; (done || lia).
Qed.

Lemma chacha_fill_ok fuel : ∀ n r, buffer_ok r → (n ≤ fuel)%nat →
  buffer_ok (chacha_fill fuel n r).1 ∧ length (chacha_fill fuel n r).2 = n ∧ bytes (chacha_fill fuel n r).2.
Proof.
  induction fuel as [|fuel IH]; intros n r Hr Hf; cbn [chacha_fill];
    [split_and!; [done|simpl; lia|constructor]|].
  case_decide as Hn; [|split_and!; [done|simpl; lia|constructor]].
  set (r1 := if decide (64 ≤ buffer_pos r)%nat then generate_block r else r).
  assert (buffer_ok r1 ∧ (buffer_pos r1 < 64)%nat) as [(Hl1 & Hb1 & _) Hp1].
  { subst r1. case_decide; [|split; [done|lia]]. destruct (generate_block_ok r) as [? ->]. split; [done|lia]. }
  clearbody r1. set (m := Nat.min (64 - buffer_pos r1) n).
  destruct (IH (n - m)%nat (mkRng (rng_state r1) (rng_buffer r1) (buffer_pos r1 + m))) as (E0 & E1 & E2);
    [split_and!; [done|done|simpl; lia]|lia|].
  destruct (chacha_fill fuel (n - m) _) as [r' rest]. simpl in *. split_and!; [done| |].
  - rewrite length_app, E1, length_take, length_drop. lia.
  - apply Forall_app; split; [|done]. by apply Forall_take, Forall_drop.
Qed.

#[export, refine] Instance ChaChaRng_CryptoRng : CryptoRng ChaChaRng := {|
  fill_bytes n r := let '(r, l) := chacha_fill_bytes n r in (r, Ok l);
  rng_valid := buffer_ok; fill_bytes_ok := _
|}.
Proof.
  intros n r r' res Hr. destruct (chacha_fill_ok n n r Hr (Nat.le_refl n)) as (H0 & H1).
  unfold chacha_fill_bytes. destruct (chacha_fill n n r) as [r1 l]. intros [= <- <-]. split; [done|].
  by intros ? [= <-].
Defined.

(** ** Properties *)

(** Requests one after the other. *)
Fixpoint requests (ns : list nat) (r : ChaChaRng) : ChaChaRng * list (list Z) :=
  match ns with
  | [] => (r, [])
  | n :: ns =>
      let '(r, l) := chacha_fill_bytes n r in
      let '(r, ls) := requests ns r in (r, l :: ls)
  end.

(** The ChaCha generator delivers one stream: however it is asked, the concatenation
    of the answers is the beginning of the key stream whose block [k] is the ChaCha20 block
    of the cipher with counter [k], over the wrap of the low counter word as well. *)
Theorem chacha_rng_stream (seed : list Z) (ns : list nat) :
  concat (requests ns (from_seed seed)).2 = map (rng_byte seed) (seq 0 (sum_list ns)) ∧
  map length (requests ns (from_seed seed)).2 = ns.
Proof.
  generalize (from_seed_delivered seed). generalize 0%nat, (from_seed seed).
  induction ns as [|n ns IH]; intros t r Hr; [done|]. cbn [requests sum_list]. unfold chacha_fill_bytes.
  destruct (chacha_fill_spec seed n n t r (Nat.le_refl n) Hr) as (r' & -> & Hr').
  specialize (IH _ _ Hr'). destruct (requests ns r') as [r'' ls]. simpl in *. destruct IH as [-> ->].
  split; [by rewrite seq_app, map_app|]. by rewrite length_map, length_seq.
Qed.

Section range.
Context {R} `{CryptoRng R}.

(** The state after [k] draws, and the [k]-th draw. *)
Definition after_draws (k : nat) (r : R) : R := Nat.iter k (λ r, (random_u64 r).1) r.
Definition draw (k : nat) (r : R) : Result Z CryptoError := (random_u64 (after_draws k r)).2.

Lemma range_loop_draw max k v : ∀ r fuel, (k < fuel)%nat →
  (∀ i, (i < k)%nat → ∃ w, draw i r = Ok w ∧ threshold max ≤ w) → draw k r = Ok v → v < threshold max →
  range_loop fuel max r = Some (after_draws (S k) r, Ok (v mod max)).
Proof.
  induction k as [|k IH]; intros r [|fuel] Hf Hi Hv Hlt; [lia| |lia|]; cbn [range_loop].
  - unfold draw, after_draws in *. simpl in *. destruct (random_u64 r) as [r' res]. simpl in *. subst res.
    by rewrite (proj2 (Z.ltb_lt _ _) Hlt).
  - destruct (Hi 0%nat ltac:(lia)) as (w & Hw & Hge). unfold draw, after_draws in Hw. simpl in Hw.
    assert (∀ j, draw (S j) r = draw j (random_u64 r).1) as Hs.
    { intros j. unfold draw, after_draws. by rewrite Nat.iter_succ_r. }
    assert (after_draws (S (S k)) r = after_draws (S k) (random_u64 r).1) as ->.
    { unfold after_draws. by rewrite Nat.iter_succ_r. }
    rewrite Hs in Hv. assert (∀ i, (i < k)%nat → ∃ w, draw i (random_u64 r).1 = Ok w ∧ threshold max ≤ w) as Hi'.
    { intros i Hk. rewrite <-Hs. apply Hi. lia. }
    destruct (random_u64 r) as [r' res]. simpl in *. subst res.
    rewrite (proj2 (Z.ltb_ge _ _) Hge). apply IH; (done || lia).
Qed.

(** [random_range] draws until the first value below the threshold and returns it
    modulo [max]. There is no modulo bias: every residue has exactly [u64::MAX / max]
    accepted values, and fewer than [max] values are rejected. *)
Theorem random_range_correct (r : R) (max : Z) (k : nat) (v : Z) :
  0 < max ≤ u64_max → (∀ i, (i < k)%nat → ∃ w, draw i r = Ok w ∧ threshold max ≤ w) →
  draw k r = Ok v → v < threshold max →
  (∀ fuel, (k < fuel)%nat → random_range fuel max r = Some (after_draws (S k) r, Ok (v mod max))) ∧
  0 ≤ v mod max < max ∧
  (∀ res w, 0 ≤ res < max →
    (0 ≤ w < threshold max ∧ w mod max = res) ↔ ∃ q, 0 ≤ q < u64_max / max ∧ w = q * max + res) ∧
  0 < threshold max ∧ u64_max - threshold max < max.
Proof.
  intros Hm Hi Hv Hlt. split; [|split; [apply Z.mod_pos_bound; lia|]].
  - intros fuel Hf. unfold random_range. destruct (Z.eqb_spec max 0); [lia|].
    apply (range_loop_draw max k v r fuel Hf Hi Hv Hlt).
  - assert (threshold max = u64_max / max * max) as Ht.
    { unfold threshold. pose proof (Z.div_mod u64_max max ltac:(lia)). lia. }
    pose proof (Z.mod_pos_bound u64_max max ltac:(lia)). split.
    + intros res w Hr. rewrite Ht. split.
      * intros [Hw <-]. exists (w / max). pose proof (Z.div_mod w max ltac:(lia)). split; [|lia]. split.
        -- apply Z.div_pos; lia.
        -- apply Z.div_lt_upper_bound; [lia|]. lia.
      * intros (q & Hq & ->). split; [nia|]. symmetry. apply (Z.mod_unique _ _ q); lia.
    + split; [|unfold threshold; lia]. rewrite Ht. apply Z.mul_pos_pos; [|lia].
      apply Z.div_str_pos. lia.
Qed.
End range.

(** Random values 1, 2 and 2^64 - 1 first: with [max] = 10 the first draw is rejected. *)
Lemma random_range_correct_witness :
  let hw := λ n : nat, (nth n [2 ^ 64 - 1; 0; 27] 0, negb (n =? 1)%nat) in
  draw (R := SystemRng hw) 1 0%nat = Ok 27 ∧
  random_range (R := SystemRng hw) 2 10 0%nat = Some (3%nat, Ok 7).
Proof.
  intros hw. split; [vm_compute; reflexivity|].
  pose proof (random_range_correct (R := SystemRng hw) 0%nat 10 1 27 ltac:(unfold u64_max; lia)) as H.
  refine (proj1 (H _ _ _) 2%nat _).
  - intros i Hi. exists (2 ^ 64 - 1). replace i with 0%nat by lia. split; vm_compute; [reflexivity|congruence].
  - vm_compute. reflexivity.
  - vm_compute. reflexivity.
  - lia.
Defined.
