(* ===== verification/Keystore.v ===== *)
(** * Keystore: the key store ([kernel/src/crypto/keystore.rs])

    Keys are kept encrypted under a storage key and handed out to their owners. An
    operation is an [op] on the store: locks make each one atomic, and early returns keep
    what was changed before them (a drawn random word, a used key id). The hardware
    generator and the cycle counter are sequences, with the positions in the state. *)

From Stdlib Require Import ZArith Lia.
From stdpp Require Import list gmap sorting strings.
From S2P Require Import Prelude.
From S2P Require Import Ids.
From S2P Require Import Bytes.
From S2P Require Import Hash.
From S2P Require Import Kdf.
From S2P Require Import Cipher.
From S2P Require Import Chacha.
From S2P Require Import Random.

#[local] Open Scope op_scope.

(** ** Keys *)

Definition KeyId : Type := Z.

Inductive KeyType := Master | Symmetric | PrivateKey | PublicKey | KeyHmac | PasswordDerived | Ephemeral.

Record KeyUsage := mkUsage { usage_bits : Z }.
Definition USAGE_NONE : KeyUsage := mkUsage 0.
Definition ENCRYPT : KeyUsage := mkUsage (Z.shiftl 1 0).
Definition DECRYPT : KeyUsage := mkUsage (Z.shiftl 1 1).
Definition SIGN : KeyUsage := mkUsage (Z.shiftl 1 2).
Definition VERIFY : KeyUsage := mkUsage (Z.shiftl 1 3).
Definition DERIVE : KeyUsage := mkUsage (Z.shiftl 1 4).
Definition EXPORT : KeyUsage := mkUsage (Z.shiftl 1 5).
Definition WRAP : KeyUsage := mkUsage (Z.shiftl 1 6).
Definition USAGE_ALL : KeyUsage := mkUsage 0x7F.

Definition usage_union (a b : KeyUsage) : KeyUsage := mkUsage (Z.lor (usage_bits a) (usage_bits b)).
Definition usage_contains (a b : KeyUsage) : bool := Z.land (usage_bits a) (usage_bits b) =? usage_bits b.

Inductive KeyAlgorithm := Aes128 | Aes256 | ChaCha20 | Ed25519 | X25519 | AlgHmacSha256 | AlgHmacSha512 | Raw.

Definition key_length (a : KeyAlgorithm) : nat :=
  match a with
  | Aes128 => 16
  | Aes256 | ChaCha20 | Ed25519 | X25519 => 32
  | AlgHmacSha256 => 32
  | AlgHmacSha512 => 64
  | Raw => 0
  end.

Record KeyMetadata := mkMeta {
  kid : KeyId; key_type : KeyType; algorithm : KeyAlgorithm; usage : KeyUsage;
  created_at : Z; expires_at : option Z; last_used : Z; use_count : Z;
  label : string; key_parent : option KeyId; extractable : bool
}.

Record KeyEntry := mkEntry {
  metadata : KeyMetadata; encrypted_material : list Z; nonce : list Z; tag : list Z;
  key_owner : ProcessId; capability : option CapabilityToken
}.

Inductive KeyStoreError :=
  | KeyNotFound | AlreadyExists | AccessDenied | InvalidKeyMaterial | BadKeyLength | Expired | UsageNotAllowed
  | StorageFull | EncryptionError | DecryptionError | DerivationError | NotExtractable | KeyRngFailure.

Record KeyStoreConfig := mkConfig { max_keys : Z; encrypt_at_rest : bool; default_expiration : option Z }.
Definition config_default : KeyStoreConfig := mkConfig 1024 true None.

(** The store, with the positions in the hardware's random words and in the readings of the
    cycle counter. The generator is always present after [new]. *)
Record KeyStore := mkStore {
  config : KeyStoreConfig; keys : gmap KeyId KeyEntry; next_id : Z; storage_key : list Z;
  rng_pos : nat; ticks : nat
}.

Definition set_keys (f : gmap KeyId KeyEntry → gmap KeyId KeyEntry) (s : KeyStore) : KeyStore :=
  mkStore (config s) (f (keys s)) (next_id s) (storage_key s) (rng_pos s) (ticks s).
Definition set_rng_pos (p : nat) (s : KeyStore) : KeyStore :=
  mkStore (config s) (keys s) (next_id s) (storage_key s) p (ticks s).

Definition set_use (now : Z) (e : KeyEntry) : KeyEntry :=
  let m := metadata e in
  mkEntry (mkMeta (kid m) (key_type m) (algorithm m) (usage m) (created_at m) (expires_at m) now
             (u64_add (use_count m) 1) (label m) (key_parent m) (extractable m))
    (encrypted_material e) (nonce e) (tag e) (key_owner e) (capability e).
Definition set_parent (p : KeyId) (e : KeyEntry) : KeyEntry :=
  let m := metadata e in
  mkEntry (mkMeta (kid m) (key_type m) (algorithm m) (usage m) (created_at m) (expires_at m) (last_used m)
             (use_count m) (label m) (Some p) (extractable m))
    (encrypted_material e) (nonce e) (tag e) (key_owner e) (capability e).

Section store.
(** The outcomes of RDRAND, and the successive readings of the cycle counter. *)
Context (rdrand : nat → Z * bool) (tsc : nat → Z).

Definition kop : Type → Type := op KeyStore KeyStoreError.

Definition read_cycle_counter : kop Z :=
  λ s, (mkStore (config s) (keys s) (next_id s) (storage_key s) (rng_pos s) (S (ticks s)), Ok (tsc (ticks s))).

Definition store_random_u64 : kop Z := λ s,
  match random_u64 (R := SystemRng rdrand) (rng_pos s) with
  | (p, Ok v) => (set_rng_pos p s, Ok v)
  | (p, Err _) => (set_rng_pos p s, Err KeyRngFailure)
  end.

(** [chunks_mut(8)]: [n] bytes, a word per chunk. *)
Fixpoint fill_random (fuel n : nat) : kop (list Z) :=
  match fuel with
  | O => op_ret []
  | S fuel =>
      if decide (0 < n)%nat
      then
        let! val := store_random_u64 in
        let chunk := take (Nat.min 8 n) (to_le_bytes 8 val) in
        let! rest := fill_random fuel (n - Nat.min 8 n) in
        op_ret (chunk ++ rest)
      else op_ret []
  end.

(** [KeyStore::new]; [available] is the answer of CPUID, [p] and [t] where the hardware is. *)
Definition store_new (available : bool) (cfg : KeyStoreConfig) (p t : nat) : Result KeyStore KeyStoreError :=
  if negb available then Err KeyRngFailure
  else
    let s := mkStore cfg ∅ 1 (replicate 32 0) p t in
    match fill_random 32 32 s with
    | (s, Ok key) => Ok (mkStore cfg ∅ 1 key (rng_pos s) (ticks s))
    | (_, Err e) => Err e
    end.

Definition encrypt_key_material (key : list Z) : kop (list Z * list Z * list Z) :=
  let! s := op_gets (λ s, s) in
  if negb (encrypt_at_rest (config s)) then op_ret (key, replicate 12 0, replicate 16 0)
  else
    let! nonce := fill_random 12 12 in
    match chacha_new (storage_key s) with
    | Err _ => op_err EncryptionError
    | Ok cipher =>
        match chacha_encrypt cipher nonce key [] with
        | Err _ => op_err EncryptionError
        | Ok ct =>
            let tag_start := (length ct - 16)%nat in
            op_ret (take tag_start ct, nonce, drop tag_start ct)
        end
    end.

Definition decrypt_key_material (encrypted nonce tag : list Z) (s : KeyStore) : Result (list Z) KeyStoreError :=
  if negb (encrypt_at_rest (config s)) then Ok encrypted
  else
    match chacha_new (storage_key s) with
    | Err _ => Err DecryptionError
    | Ok cipher =>
        match chacha_decrypt cipher nonce (encrypted ++ tag) [] with
        | Err _ => Err DecryptionError
        | Ok pt => Ok pt
        end
    end.

Definition import (owner : ProcessId) (key_material : list Z) (algorithm : KeyAlgorithm) (key_type : KeyType)
    (usage : KeyUsage) (label : string) (extractable : bool) : kop KeyId :=
  let expected_len := key_length algorithm in
  do! op_guard (negb (expected_len =? 0)%nat && negb (length key_material =? expected_len)%nat) BadKeyLength in
  let! full := op_gets (λ s, max_keys (config s) <=? Z.of_nat (size (keys s))) in
  do! op_guard full StorageFull in
  let! id := op_gets next_id in
  do! op_modify (λ s, mkStore (config s) (keys s) (u64_add (next_id s) 1) (storage_key s) (rng_pos s) (ticks s)) in
  let! enc := encrypt_key_material key_material in
  let '(encrypted, nonce, tag) := enc in
  let! now := read_cycle_counter in
  let! cfg := op_gets config in
  let m := mkMeta id key_type algorithm usage now (option_map (u64_add now) (default_expiration cfg)) now 0
             label None extractable in
  do! op_modify (set_keys <[id := mkEntry m encrypted nonce tag owner None]>) in
  op_ret id.

Definition generate (owner : ProcessId) (algorithm : KeyAlgorithm) (key_type : KeyType) (usage : KeyUsage)
    (label : string) : kop KeyId :=
  let key_len := key_length algorithm in
  do! op_guard (key_len =? 0)%nat BadKeyLength in
  let! key_material := fill_random key_len key_len in
  import owner key_material algorithm key_type usage label true.

(** [keys.get(&id).ok_or(NotFound)?] and the owner check. *)
Definition owned_entry (owner : ProcessId) (id : KeyId) : kop KeyEntry :=
  let! found := op_gets (λ s, keys s !! id) in
  let! e := op_lift (ok_or found KeyNotFound) in
  do! op_guard (negb (bool_decide (key_owner e = owner))) AccessDenied in
  op_ret e.

(** The clock is read only for keys that expire. *)
Definition check_expiration (e : KeyEntry) : kop unit :=
  match expires_at (metadata e) with
  | Some expires =>
      let! now := read_cycle_counter in
      op_guard (expires <? now) Expired
  | None => op_ret tt
  end.

Definition decrypt_entry (e : KeyEntry) : kop (list Z) := λ s,
  (s, decrypt_key_material (encrypted_material e) (nonce e) (tag e) s).

Definition get_key_material (owner : ProcessId) (id : KeyId) (required : KeyUsage) : kop (list Z) :=
  let! e := owned_entry owner id in
  do! op_guard (negb (usage_contains (usage (metadata e)) required)) UsageNotAllowed in
  do! check_expiration e in
  decrypt_entry e.

Definition derive_key (owner : ProcessId) (parent_id : KeyId) (info : list Z) (algorithm : KeyAlgorithm)
    (usage : KeyUsage) (label : string) : kop KeyId :=
  let! parent_material := get_key_material owner parent_id DERIVE in
  let key_len := key_length algorithm in
  do! op_guard (key_len =? 0)%nat BadKeyLength in
  match expand Sha256 parent_material info key_len with
  | Err _ => op_err DerivationError
  | Ok derived =>
      let! id := import owner derived algorithm Symmetric usage label false in
      do! op_modify (set_keys (alter (set_parent parent_id) id)) in
      op_ret id
  end.

Definition get_metadata (owner : ProcessId) (id : KeyId) : kop KeyMetadata :=
  let! e := owned_entry owner id in
  do! check_expiration e in
  op_ret (metadata e).

Definition export (owner : ProcessId) (id : KeyId) : kop (list Z) :=
  let! e := owned_entry owner id in
  do! op_guard (negb (extractable (metadata e))) NotExtractable in
  do! op_guard (negb (usage_contains (usage (metadata e)) EXPORT)) UsageNotAllowed in
  decrypt_entry e.

Definition use_key (owner : ProcessId) (id : KeyId) (required : KeyUsage) : kop (list Z) :=
  let! material := get_key_material owner id required in
  let! found := op_gets (λ s, keys s !! id) in
  do! match found with
      | Some _ => let! now := read_cycle_counter in op_modify (set_keys (alter (set_use now) id))
      | None => op_ret tt
      end in
  op_ret material.

(** The entry is dropped after its bytes are overwritten. *)
Definition delete (owner : ProcessId) (id : KeyId) : kop unit :=
  let! e := owned_entry owner id in
  op_modify (set_keys (base.delete id)).

Definition rotate (owner : ProcessId) (id : KeyId) : kop KeyId :=
  let! m := get_metadata owner id in
  let! new_id := generate owner (algorithm m) (key_type m) (usage m) (label m) in
  do! delete owner id in
  op_ret new_id.

(** In the order of the ids, as the [BTreeMap] is. *)
Definition id_le (a b : KeyId * KeyEntry) : Prop := a.1 ≤ b.1.
#[global] Instance id_le_dec : RelDecision id_le.
Proof. intros a b. unfold id_le. apply _. Defined.

Definition list_keys (owner : ProcessId) (s : KeyStore) : list KeyMetadata :=
  map (λ p, metadata p.2)
    (filter (λ p, key_owner p.2 = owner) (merge_sort id_le (map_to_list (keys s)))).
End store.

(** ** Frames

    Most operations change nothing but the positions of the hardware. *)

Definition keeps (s s' : KeyStore) : Prop :=
  config s' = config s ∧ keys s' = keys s ∧ next_id s' = next_id s ∧ storage_key s' = storage_key s.

#[global] Instance keeps_preorder : PreOrder keeps.
Proof.
  split; [by intros s|]. intros s1 s2 s3 (? & ? & ? & ?) (? & ? & ? & ?). repeat split; congruence.
Qed.

Class ReadOnly {A} (m : kop A) : Prop := read_only : ∀ s, keeps s (m s).1.

#[global] Instance ret_read_only {A} (a : A) : ReadOnly (op_ret a).
Proof. by intros s. Qed.
#[global] Instance err_read_only {A} e : ReadOnly (op_err e : kop A).
Proof. by intros s. Qed.
#[global] Instance lift_read_only {A} (r : Result A KeyStoreError) : ReadOnly (op_lift r).
Proof. by intros s. Qed.
#[global] Instance gets_read_only {A} (f : KeyStore → A) : ReadOnly (op_gets f).
Proof. by intros s. Qed.
#[global] Instance guard_read_only c e : ReadOnly (op_guard c e).
Proof. by intros s. Qed.
#[global] Instance bind_read_only {A B} (m : kop A) (k : A → kop B) :
  ReadOnly m → (∀ a, ReadOnly (k a)) → ReadOnly (op_bind m k).
Proof.
  intros Hm Hk s. unfold op_bind. specialize (Hm s). destruct (m s) as [s' [a|e]]; simpl in *; [|done].
  etrans; [exact Hm|apply Hk].
Qed.
#[global] Instance clock_read_only tsc : ReadOnly (read_cycle_counter tsc).
Proof. by intros s. Qed.
#[global] Instance random_read_only rdrand : ReadOnly (store_random_u64 rdrand).
Proof. intros s. unfold store_random_u64. destruct (random_u64 _) as [p [v|e]]; done. Qed.
#[global] Instance fill_read_only rdrand fuel n : ReadOnly (fill_random rdrand fuel n).
Proof. revert n. induction fuel as [|fuel IH]; intros n; simpl; [apply _|]. case_decide; apply _. Qed.
#[global] Instance encrypt_read_only rdrand key : ReadOnly (encrypt_key_material rdrand key).
Proof.
  apply bind_read_only; [apply _|]. intros s. destruct (negb _); [apply _|].
  apply bind_read_only; [apply _|]. intros n. destruct (chacha_new _); [|apply _].
  destruct (chacha_encrypt _ _ _ _); apply _.
Qed.
#[global] Instance owned_read_only owner id : ReadOnly (owned_entry owner id).
Proof. unfold owned_entry. apply _. Qed.
#[global] Instance expiration_read_only tsc e : ReadOnly (check_expiration tsc e).
Proof. unfold check_expiration. destruct (expires_at _); apply _. Qed.
#[global] Instance decrypt_read_only e : ReadOnly (decrypt_entry e).
Proof. by intros s. Qed.
#[global] Instance material_read_only tsc owner id u : ReadOnly (get_key_material tsc owner id u).
Proof. unfold get_key_material. apply _. Qed.
#[global] Instance metadata_read_only tsc owner id : ReadOnly (get_metadata tsc owner id).
Proof. unfold get_metadata. apply _. Qed.
#[global] Instance export_read_only owner id : ReadOnly (export owner id).
Proof. unfold export. apply _. Qed.

(** Running [op_bind] from a result of its first part. *)
Lemma bind_ok {A B} (m : kop A) (k : A → kop B) s s' a :
  m s = (s', Ok a) → op_bind m k s = k a s'.
Proof. intros E. unfold op_bind. by rewrite E. Qed.

Lemma bind_err {A B} (m : kop A) (k : A → kop B) s s' e :
  m s = (s', Err e) → op_bind m k s = (s', Err e).
Proof. intros E. unfold op_bind. by rewrite E. Qed.

Lemma bind_inv {A B} (m : kop A) (k : A → kop B) s s' r :
  op_bind m k s = (s', r) →
  (∃ s1 a, m s = (s1, Ok a) ∧ k a s1 = (s', r)) ∨ (∃ e, m s = (s', Err e) ∧ r = Err e).
Proof. unfold op_bind. destruct (m s) as [s1 [a|e]]; naive_solver. Qed.

(** ** Encryption at rest *)

Section proofs.
Context (rdrand : nat → Z * bool) (tsc : nat → Z).

Lemma fill_random_length fuel : ∀ n s s' l, (n ≤ fuel)%nat →
  fill_random rdrand fuel n s = (s', Ok l) → length l = n.
Proof.
  induction fuel as [|fuel IH]; intros n s s' l Hn; cbn [fill_random].
  - intros [= _ <-]. simpl. lia.
  - case_decide; [|intros [= _ <-]; simpl; lia].
    intros [(s1 & v & _ & [(s2 & rest & E & E2)|(e & _ & ?)]%bind_inv)|(e & _ & ?)]%bind_inv; [|done|done].
    assert (l = take (Nat.min 8 n) (to_le_bytes 8 v) ++ rest) as -> by (unfold op_ret in E2; congruence).
    apply IH in E; [|lia]. rewrite length_app, length_take, length_to_le_bytes, E. lia.
Qed.

Lemma decrypt_keeps s s' ct n t : config s' = config s → storage_key s' = storage_key s →
  decrypt_key_material ct n t s' = decrypt_key_material ct n t s.
Proof. intros E1 E2. unfold decrypt_key_material. by rewrite E1, E2. Qed.

(** What is put in comes out. *)
Lemma encrypt_decrypt_material key s s' ct n t : length (storage_key s) = 32%nat →
  encrypt_key_material rdrand key s = (s', Ok (ct, n, t)) → decrypt_key_material ct n t s = Ok key.
Proof.
  intros Hk. unfold encrypt_key_material. rewrite (bind_ok _ _ s s s) by done.
  unfold decrypt_key_material. destruct (negb (encrypt_at_rest (config s))).
  - intros E. assert (key = ct) as <- by (unfold op_ret in E; congruence). done.
  - intros [(s1 & n' & E & E2)|(e & _ & ?)]%bind_inv; [|done].
    apply fill_random_length in E; [|done].
    destruct (chacha_new (storage_key s)) as [c|] eqn:Hc; [|done].
    destruct (chacha_encrypt c n' key []) as [m|] eqn:Em; [|done].
    assert (ct = take (length m - 16) m ∧ n = n' ∧ t = drop (length m - 16) m) as (-> & -> & ->).
    { unfold op_ret in E2. injection E2. auto. }
    rewrite take_drop. pose proof (decrypt_encrypt (C := ChaCha20Poly1305) c n' key [] m I Em) as H.
    cbn [decrypt ChaCha20Poly1305_Aead] in H. by rewrite H.
Qed.

(** ** Import *)

(** The entry [import] makes. *)
Record imported (owner : ProcessId) (m : list Z) (alg : KeyAlgorithm) (kt : KeyType) (u : KeyUsage)
    (lbl : string) (ex : bool) (s : KeyStore) (id : KeyId) (e : KeyEntry) : Prop := {
  im_owner : key_owner e = owner; im_kid : kid (metadata e) = id; im_alg : algorithm (metadata e) = alg;
  im_type : key_type (metadata e) = kt; im_usage : usage (metadata e) = u; im_label : label (metadata e) = lbl;
  im_extractable : extractable (metadata e) = ex; im_parent : key_parent (metadata e) = None;
  im_material : decrypt_key_material (encrypted_material e) (nonce e) (tag e) s = Ok m;
  im_expires : expires_at (metadata e) = option_map (u64_add (created_at (metadata e))) (default_expiration (config s));
  im_length : key_length alg = 0%nat ∨ length m = key_length alg;
  im_room : Z.of_nat (size (keys s)) < max_keys (config s)
}.

Lemma import_spec owner m alg kt u lbl ex s s' r : length (storage_key s) = 32%nat →
  import rdrand tsc owner m alg kt u lbl ex s = (s', r) →
  config s' = config s ∧ storage_key s' = storage_key s ∧
  ((∃ e, r = Err e ∧ keys s' = keys s ∧ (next_id s' = next_id s ∨ next_id s' = u64_add (next_id s) 1)) ∨
   (∃ e, r = Ok (next_id s) ∧ keys s' = <[next_id s := e]> (keys s) ∧ next_id s' = u64_add (next_id s) 1 ∧
         imported owner m alg kt u lbl ex s (next_id s) e)).
Proof.
  intros Hk. unfold import. cbv zeta.
  intros [(s1 & [] & E1 & H)|(e & E1 & ->)]%bind_inv.
  2:{ unfold op_guard in E1. injection E1 as <- _. eauto 10. }
  unfold op_guard in E1. injection E1 as <- G1.
  rewrite (bind_ok _ _ s s (max_keys (config s) <=? Z.of_nat (size (keys s)))) in H by done.
  apply bind_inv in H as [(s1 & [] & E2 & H)|(e & E2 & ->)].
  2:{ unfold op_guard in E2. injection E2 as <- _. eauto 10. }
  unfold op_guard in E2. injection E2 as <- G2.
  rewrite (bind_ok _ _ s s (next_id s)) in H by done.
  set (s2 := mkStore (config s) (keys s) (u64_add (next_id s) 1) (storage_key s) (rng_pos s) (ticks s)) in *.
  rewrite (bind_ok _ _ s s2 tt) in H by done.
  apply bind_inv in H as [(s3 & [[ct n] t] & E3 & H)|(e & E3 & ->)].
  2:{ pose proof (read_only (m := encrypt_key_material rdrand m) s2) as (K1 & K2 & K3 & K4). rewrite E3 in *.
      simpl in *. rewrite K1, K2, K3, K4. eauto 10. }
  pose proof (read_only (m := encrypt_key_material rdrand m) s2) as (K1 & K2 & K3 & K4). rewrite E3 in *.
  cbn [fst] in *. apply encrypt_decrypt_material in E3; [|done].
  set (s4 := mkStore (config s3) (keys s3) (next_id s3) (storage_key s3) (rng_pos s3) (S (ticks s3))) in *.
  rewrite (bind_ok _ _ s3 s4 (tsc (ticks s3))) in H by done.
  rewrite (bind_ok _ _ s4 s4 (config s4)) in H by done.
  match type of H with op_bind (op_modify (set_keys ?f)) _ _ = _ => rewrite (bind_ok _ _ s4 (set_keys f s4) tt) in H by done end.
  unfold op_ret in H. injection H as <- <-. cbn [set_keys config storage_key keys next_id s4].
  rewrite K1, K2, K3, K4. split; [done|]. split; [done|]. right. eexists. split; [done|]. split; [done|]. split; [done|].
  constructor; try done.
  - destruct (Nat.eqb_spec (key_length alg) 0); [by left|]. right.
    destruct (Nat.eqb_spec (length m) (key_length alg)); [done|]. done.
  - destruct (Z.leb_spec (max_keys (config s)) (Z.of_nat (size (keys s)))); [done|lia].
Qed.
End proofs.

(** ** Histories *)

Inductive call :=
  | CImport (owner : ProcessId) (m : list Z) (alg : KeyAlgorithm) (kt : KeyType) (u : KeyUsage) (lbl : string) (ex : bool)
  | CGenerate (owner : ProcessId) (alg : KeyAlgorithm) (kt : KeyType) (u : KeyUsage) (lbl : string)
  | CDerive (owner : ProcessId) (parent : KeyId) (info : list Z) (alg : KeyAlgorithm) (u : KeyUsage) (lbl : string)
  | CMetadata (owner : ProcessId) (id : KeyId)
  | CExport (owner : ProcessId) (id : KeyId)
  | CUse (owner : ProcessId) (id : KeyId) (required : KeyUsage)
  | CDelete (owner : ProcessId) (id : KeyId)
  | CRotate (owner : ProcessId) (id : KeyId)
  | CList (owner : ProcessId).

Inductive answer :=
  | Refused (e : KeyStoreError) | AId (id : KeyId) | AMaterial (m : list Z) | AMetadata (m : KeyMetadata) | ADone
  | AList (l : list KeyMetadata).

Definition caller (c : call) : ProcessId :=
  match c with
  | CImport o _ _ _ _ _ _ | CGenerate o _ _ _ _ | CDerive o _ _ _ _ _ | CMetadata o _ | CExport o _ | CUse o _ _
  | CDelete o _ | CRotate o _ | CList o => o
  end.

(** The key a call names. *)
Definition target (c : call) : option KeyId :=
  match c with
  | CDerive _ id _ _ _ _ | CMetadata _ id | CExport _ id | CUse _ id _ | CDelete _ id | CRotate _ id => Some id
  | _ => None
  end.

(** The call deletes the key it names when it succeeds. *)
Definition removes (c : call) : bool := match c with CDelete _ _ | CRotate _ _ => true | _ => false end.

Definition answer_of {A} (f : A → answer) (r : KeyStore * Result A KeyStoreError) : KeyStore * answer :=
  (r.1, match r.2 with Ok a => f a | Err e => Refused e end).

Section histories.
Context (rdrand : nat → Z * bool) (tsc : nat → Z).

Definition run_call (c : call) (s : KeyStore) : KeyStore * answer :=
  match c with
  | CImport o m alg kt u lbl ex => answer_of AId (import rdrand tsc o m alg kt u lbl ex s)
  | CGenerate o alg kt u lbl => answer_of AId (generate rdrand tsc o alg kt u lbl s)
  | CDerive o id info alg u lbl => answer_of AId (derive_key rdrand tsc o id info alg u lbl s)
  | CMetadata o id => answer_of AMetadata (get_metadata tsc o id s)
  | CExport o id => answer_of AMaterial (export o id s)
  | CUse o id u => answer_of AMaterial (use_key tsc o id u s)
  | CDelete o id => answer_of (λ _, ADone) (delete o id s)
  | CRotate o id => answer_of AId (rotate rdrand tsc o id s)
  | CList o => (s, AList (list_keys o s))
  end.
Definition step (c : call) (s : KeyStore) : KeyStore := (run_call c s).1.

(** A key is the same up to its use count and the time of its last use. *)
Definition same_key (e e' : KeyEntry) : Prop :=
  key_owner e' = key_owner e ∧ encrypted_material e' = encrypted_material e ∧ nonce e' = nonce e ∧ tag e' = tag e ∧
  kid (metadata e') = kid (metadata e) ∧ key_type (metadata e') = key_type (metadata e) ∧
  algorithm (metadata e') = algorithm (metadata e) ∧ usage (metadata e') = usage (metadata e) ∧
  created_at (metadata e') = created_at (metadata e) ∧ expires_at (metadata e') = expires_at (metadata e) ∧
  label (metadata e') = label (metadata e) ∧ key_parent (metadata e') = key_parent (metadata e) ∧
  extractable (metadata e') = extractable (metadata e).

#[local] Instance same_key_preorder : PreOrder same_key.
Proof. split; [intros e; by repeat split|]. intros e1 e2 e3 H1 H2. unfold same_key in *. intuition congruence. Qed.

(** Ids are below the next one, entries know their id, and what is stored decrypts. *)
Definition store_ok (s : KeyStore) : Prop :=
  length (storage_key s) = 32%nat ∧ 0 ≤ next_id s ∧
  ∀ id e, keys s !! id = Some e →
    id < next_id s ∧ kid (metadata e) = id ∧
    ∃ m, decrypt_key_material (encrypted_material e) (nonce e) (tag e) s = Ok m.

(** How a call changes the store: the entries there were are unchanged, or the caller's own
    key was used or removed; at most one id is taken. *)
Record evolves (c : call) (s s' : KeyStore) : Prop := {
  ev_config : config s' = config s;
  ev_storage : storage_key s' = storage_key s;
  ev_next : next_id s' = next_id s ∨ next_id s' = next_id s + 1;
  ev_others : ∀ id e, keys s !! id = Some e → key_owner e ≠ caller c → keys s' !! id = Some e;
  ev_own : ∀ id e, keys s !! id = Some e → (removes c && bool_decide (target c = Some id)) = false →
    ∃ e', keys s' !! id = Some e' ∧ same_key e e';
  ev_ok : store_ok s'
}.

Lemma keeps_ok s s' : keeps s s' → store_ok s → store_ok s'.
Proof.
  intros (Ec & Ek & En & Es) (Hl & Hn & H). split; [congruence|]. split; [congruence|].
  intros id e. rewrite Ek, En. intros He. destruct (H id e He) as (? & ? & m & Hm). split; [done|]. split; [done|].
  exists m. by rewrite (decrypt_keeps s s').
Qed.

Lemma keeps_evolves c s s' : store_ok s → keeps s s' → evolves c s s'.
Proof.
  intros Hok Hk. pose proof (keeps_ok s s' Hk Hok) as Hok'. destruct Hk as (Ec & Ek & En & Es).
  constructor; rewrite ?Ek; try done; [by left|]. intros id e He _. exists e. split; [done|reflexivity].
Qed.

(** Access goes through the owner check. *)
Lemma owned_entry_spec o id s :
  owned_entry o id s =
  (s, match keys s !! id with
      | None => Err KeyNotFound
      | Some e => if decide (key_owner e = o) then Ok e else Err AccessDenied
      end).
Proof.
  unfold owned_entry. rewrite (bind_ok _ _ s s (keys s !! id)) by done. destruct (keys s !! id) as [e|]; [|done].
  rewrite (bind_ok _ _ s s e) by done. unfold op_guard, op_bind. simpl.
  case_bool_decide; case_decide; done.
Qed.

(** An operation that begins with the owner check. *)
Lemma owned_bind {A} o id (k : KeyEntry → kop A) s :
  op_bind (owned_entry o id) k s =
  match keys s !! id with
  | None => (s, Err KeyNotFound)
  | Some e => if decide (key_owner e = o) then k e s else (s, Err AccessDenied)
  end.
Proof.
  unfold op_bind. rewrite owned_entry_spec. destruct (keys s !! id); [|done]. by case_decide.
Qed.

Lemma bind_assoc {A B C} (m : kop A) (k : A → kop B) (k' : B → kop C) s :
  op_bind (op_bind m k) k' s = op_bind m (λ a, op_bind (k a) k') s.
Proof. unfold op_bind. by destruct (m s) as [s' [a|e]]. Qed.

Lemma denied c s id e : target c = Some id → keys s !! id = Some e → key_owner e ≠ caller c →
  (run_call c s).2 = Refused AccessDenied.
Proof.
  intros Ht He Ho.
  destruct c; simpl in Ht; try done; injection Ht as ->; simpl in Ho; simpl;
    unfold derive_key, get_metadata, export, use_key, delete, rotate, get_metadata, get_key_material;
    rewrite ?bind_assoc, owned_bind, He; by rewrite decide_False.
Qed.

Lemma add_id s : store_ok s → next_id s < u64_max → u64_add (next_id s) 1 = next_id s + 1.
Proof.
  intros (_ & ? & _) Hn. unfold u64_add, u64. apply wrap_small. unfold is_word, u64_max in *. lia.
Qed.

(** A new entry under the next id. *)
Lemma insert_evolves c s s' e : store_ok s → config s' = config s → storage_key s' = storage_key s →
  keys s' = <[next_id s := e]> (keys s) → next_id s' = next_id s + 1 → kid (metadata e) = next_id s →
  (∃ m, decrypt_key_material (encrypted_material e) (nonce e) (tag e) s = Ok m) → evolves c s s'.
Proof.
  intros (Hl & H0 & H) Ec Es Ek En Hkid Hm.
  assert (∀ id e', keys s !! id = Some e' → keys s' !! id = Some e') as Hold.
  { intros id e' He'. rewrite Ek, lookup_insert_ne; [done|]. destruct (H id e' He'). lia. }
  constructor; try done; [by right|by intros; apply Hold| |].
  - intros id e' He' _. exists e'. split; [by apply Hold|reflexivity].
  - split; [congruence|]. split; [lia|]. intros id e' He'. rewrite Ek in He'.
    assert (∀ ct n t, decrypt_key_material ct n t s' = decrypt_key_material ct n t s) as Hd
      by (intros; by apply decrypt_keeps). rewrite Hd.
    destruct (decide (id = next_id s)) as [->|Hne].
    + rewrite lookup_insert_eq in He'. injection He' as <-. split; [lia|done].
    + rewrite lookup_insert_ne in He' by done. destruct (H id e' He') as (? & ? & ?). split; [lia|done].
Qed.

(** Only an id was taken. *)
Lemma burn_evolves c s s' : store_ok s → config s' = config s → storage_key s' = storage_key s →
  keys s' = keys s → next_id s' = next_id s ∨ next_id s' = next_id s + 1 → evolves c s s'.
Proof.
  intros (Hl & H0 & H) Ec Es Ek En. constructor; rewrite ?Ek; try done.
  - intros id e He _. exists e. split; [done|reflexivity].
  - split; [congruence|]. split; [lia|]. intros id e He. rewrite Ek in He.
    destruct (H id e He) as (? & ? & m & Hm). split; [lia|]. split; [done|]. exists m. by rewrite (decrypt_keeps s s').
Qed.

Lemma keeps_then_evolves c s s1 s2 : keeps s s1 → evolves c s1 s2 → evolves c s s2.
Proof.
  intros (Ec & Ek & En & Es) [E1 E2 E3 E4 E5 E6]. rewrite En in E3. rewrite Ek in E4, E5.
  constructor; (done || congruence).
Qed.

Lemma import_evolves c o m alg kt u lbl ex s : store_ok s → next_id s < u64_max →
  evolves c s (import rdrand tsc o m alg kt u lbl ex s).1.
Proof.
  intros Hok Hn. destruct (import rdrand tsc _ m alg kt u lbl ex s) as [s' r] eqn:E. simpl.
  destruct (import_spec _ _ _ _ _ _ _ _ _ _ _ _ (proj1 Hok) E) as (Ec & Es & H). rewrite (add_id s Hok Hn) in H.
  destruct H as [(e & _ & Ek & En)|(e & _ & Ek & En & Him)]; [by apply burn_evolves|].
  eapply insert_evolves; try done; [apply Him|]. exists m. apply Him.
Qed.

(** A read-only operation, then the rest. *)
Lemma bind_evolves {A B} c (m : kop A) (k : A → kop B) s : ReadOnly m → store_ok s → next_id s < u64_max →
  (∀ s1 a, m s = (s1, Ok a) → store_ok s1 → next_id s1 < u64_max → keys s1 = keys s → evolves c s1 (k a s1).1) →
  evolves c s (op_bind m k s).1.
Proof.
  intros Hm Hok Hn Hk. specialize (Hm s). unfold op_bind. destruct (m s) as [s1 [a|e]] eqn:E; simpl in *.
  - eapply keeps_then_evolves; [exact Hm|]. apply Hk; [done|by eapply keeps_ok|destruct Hm; intuition congruence|apply Hm].
  - by apply keeps_evolves.
Qed.

Lemma generate_evolves c o alg kt u lbl s : store_ok s → next_id s < u64_max →
  evolves c s (generate rdrand tsc o alg kt u lbl s).1.
Proof.
  intros Hok Hn. unfold generate. apply bind_evolves; [apply _|done..|]. intros s1 [] _ Hok1 Hn1 _.
  apply bind_evolves; [apply _|done..|]. intros s2 m _ Hok2 Hn2 _. by apply import_evolves.
Qed.

Lemma derive_evolves c o p info alg u lbl s : store_ok s → next_id s < u64_max →
  evolves c s (derive_key rdrand tsc o p info alg u lbl s).1.
Proof.
  intros Hok Hn. unfold derive_key. apply bind_evolves; [apply _|done..|]. intros s1 pm _ Hok1 Hn1 _.
  apply bind_evolves; [apply _|done..|]. intros s2 [] _ Hok2 Hn2 _.
  destruct (expand _ _ _ _) as [d|]; [|by apply keeps_evolves].
  pose proof (import_evolves c o d alg Symmetric u lbl false s2 Hok2 Hn2) as Hev.
  destruct (import rdrand tsc o d alg Symmetric u lbl false s2) as [s3 r] eqn:E. simpl in Hev.
  destruct r as [id|e]; [|by rewrite (bind_err _ _ _ _ _ E)]. rewrite (bind_ok _ _ _ _ _ E).
  destruct (import_spec _ _ _ _ _ _ _ _ _ _ _ _ (proj1 Hok2) E) as (Ec & Es & [(e & ? & _)|(e & [= ->] & Ek & En & Him)]);
    [done|].
  unfold op_bind, op_modify, op_ret. cbn [fst].
  apply (insert_evolves c s2 _ (set_parent p e)); try done.
  - cbn [set_keys keys]. rewrite Ek. apply map_eq. intros i. destruct (decide (i = next_id s2)) as [->|Hne].
    + by rewrite lookup_alter_eq, !lookup_insert_eq.
    + by rewrite lookup_alter_ne, !lookup_insert_ne.
  - cbn [set_keys next_id]. rewrite En. by apply add_id.
  - apply Him.
  - exists d. apply Him.
Qed.

Lemma use_evolves c id u s : store_ok s → next_id s < u64_max →
  evolves c s (use_key tsc (caller c) id u s).1.
Proof.
  intros Hok Hn. unfold use_key. apply bind_evolves; [apply _|done..|]. intros s1 m Em Hok1 Hn1 Ek1.
  rewrite (bind_ok _ _ s1 s1 (keys s1 !! id)) by done. destruct (keys s1 !! id) as [e|] eqn:He; [|by apply keeps_evolves].
  assert (key_owner e = caller c) as Ho.
  { unfold get_key_material in Em. rewrite owned_bind, <-Ek1, He in Em. by case_decide. }
  unfold op_bind, read_cycle_counter, op_modify, op_ret. cbn [fst].
  set (s' := set_keys _ _). assert (∀ i, keys s' !! i = if decide (i = id) then Some (set_use (tsc (ticks s1)) e) else keys s1 !! i) as Hk.
  { intros i. subst s'. cbn [set_keys keys]. case_decide as Hi; [subst i; by rewrite lookup_alter_eq, He|by rewrite lookup_alter_ne]. }
  constructor; try done; [by left| | |].
  - intros i e' He' Ho'. rewrite Hk. case_decide as Hi; [subst i; congruence|done].
  - intros i e' He' _. rewrite Hk. case_decide as Hi; [|exists e'; split; [done|reflexivity]].
    subst i. eexists. split; [done|]. assert (e' = e) as -> by congruence. by repeat split.
  - destruct Hok1 as (Hl & H0 & H). split; [done|]. split; [done|]. intros i e' He'. rewrite Hk in He'.
    case_decide as Hi; [|apply (H i e' He')]. subst i. injection He' as <-. apply (H id e He).
Qed.

Lemma delete_evolves c id s : removes c = true → target c = Some id → store_ok s →
  evolves c s (delete (caller c) id s).1.
Proof.
  intros Hr Ht Hok. unfold delete. rewrite owned_bind.
  destruct (keys s !! id) as [e|] eqn:He; [|by apply keeps_evolves].
  case_decide as Ho; [|by apply keeps_evolves].
  unfold op_modify. cbn [fst]. constructor; try done; cbn [set_keys keys]; [by left| | |].
  - intros i e' He' Ho'. rewrite lookup_delete_ne; [done|]. intros <-. congruence.
  - intros i e' He' Hn. rewrite Hr, Ht in Hn. simpl in Hn. case_bool_decide as Hi; [done|].
    exists e'. split; [|reflexivity]. rewrite lookup_delete_ne; [done|congruence].
  - destruct Hok as (Hl & H0 & H). split; [done|]. split; [done|]. intros i e' He'. apply (H i e').
    cbn [set_keys keys] in He'. by apply lookup_delete_Some in He' as [_ ?].
Qed.

Lemma evolves_trans c s1 s2 s3 : next_id s2 = next_id s1 + 1 → next_id s3 = next_id s2 →
  evolves c s1 s2 → evolves c s2 s3 → evolves c s1 s3.
Proof.
  intros E12 E23 [A1 A2 A3 A4 A5 A6] [B1 B2 B3 B4 B5 B6]. constructor; [congruence|congruence|right; lia| | |done].
  - intros id e He Ho. apply B4; [by apply A4|done].
  - intros id e He Hn. destruct (A5 id e He Hn) as (e2 & He2 & S2). destruct (B5 id e2 He2 Hn) as (e3 & He3 & S3).
    exists e3. split; [done|]. by etrans.
Qed.

Lemma rotate_evolves c id s : c = CRotate (caller c) id → store_ok s → next_id s < u64_max →
  evolves c s (rotate rdrand tsc (caller c) id s).1.
Proof.
  intros Hc Hok Hn. unfold rotate. apply bind_evolves; [apply _|done..|]. intros s1 md Em Hok1 Hn1 Ek1.
  pose proof (generate_evolves c (caller c) (algorithm md) (key_type md) (usage md) (label md) s1 Hok1 Hn1) as Hev.
  destruct (generate rdrand tsc (caller c) (algorithm md) (key_type md) (usage md) (label md) s1) as [s2 r] eqn:E.
  simpl in Hev. destruct r as [nid|e]; [|by rewrite (bind_err _ _ _ _ _ E)]. rewrite (bind_ok _ _ _ _ _ E).
  assert (removes c = true ∧ target c = Some id) as [Hr Ht] by (rewrite Hc; done).
  pose proof (delete_evolves c id s2 Hr Ht (ev_ok _ _ _ Hev)) as Hdel.
  assert (next_id (delete (caller c) id s2).1 = next_id s2) as Hsame.
  { unfold delete. rewrite owned_bind. destruct (keys s2 !! id); [|done]. by case_decide. }
  assert (next_id s2 = next_id s1 + 1) as Hnew.
  { unfold generate in E. apply bind_inv in E as [(t1 & [] & G1 & E)|(? & _ & ?)]; [|done].
    apply bind_inv in E as [(t2 & m & G2 & E)|(? & _ & ?)]; [|done].
    unfold op_guard in G1. injection G1 as <- _.
    pose proof (read_only (m := fill_random rdrand (key_length (algorithm md)) (key_length (algorithm md))) s1) as K.
    rewrite G2 in K. destruct (keeps_ok _ _ K Hok1) as (Hl2 & _). destruct K as (_ & _ & En & _). cbn [fst] in En.
    destruct (import_spec _ _ _ _ _ _ _ _ _ _ _ _ Hl2 E) as (_ & _ & [(? & ? & _)|(? & _ & _ & En' & _)]); [done|].
    cbn [fst] in En'. rewrite En', En. by apply add_id. }
  unfold op_bind. destruct (delete (caller c) id s2) as [s3 [[]|e]] eqn:Ed; simpl in *; by eapply evolves_trans.
Qed.

Lemma step_evolves c s : store_ok s → next_id s < u64_max → evolves c s (step c s).
Proof.
  intros Hok Hn. unfold step. destruct c; cbn [run_call answer_of fst].
  - by apply import_evolves.
  - by apply generate_evolves.
  - by apply derive_evolves.
  - apply keeps_evolves; [done|apply read_only].
  - apply keeps_evolves; [done|apply read_only].
  - by apply (use_evolves (CUse owner id required)).
  - by apply (delete_evolves (CDelete owner id)).
  - by apply (rotate_evolves (CRotate owner id)).
  - by apply keeps_evolves.
Qed.

(** A history takes at most one id per call. *)
Lemma run_ok calls : ∀ s, store_ok s → next_id s + Z.of_nat (length calls) ≤ u64_max →
  store_ok (run_ops step calls s) ∧ next_id (run_ops step calls s) ≤ next_id s + Z.of_nat (length calls) ∧
  config (run_ops step calls s) = config s ∧ storage_key (run_ops step calls s) = storage_key s.
Proof.
  induction calls as [|c calls IH]; intros s Hok Hn; simpl in *; [split_and!; (done || lia)|].
  pose proof (step_evolves c s Hok ltac:(lia)) as [E1 E2 E3 _ _ E6].
  destruct (IH (step c s) E6) as (? & ? & ? & ?); [lia|]. split_and!; [done|lia|congruence|congruence].
Qed.

(** A key survives every history that does not delete it. *)
Lemma run_keeps_key calls id : ∀ s e, store_ok s → next_id s + Z.of_nat (length calls) ≤ u64_max →
  keys s !! id = Some e →
  Forall (λ c, removes c = true → target c = Some id → caller c ≠ key_owner e) calls →
  ∃ e', keys (run_ops step calls s) !! id = Some e' ∧ same_key e e'.
Proof.
  induction calls as [|c calls IH]; intros s e Hok Hn He Hc; simpl in *; [exists e; split; [done|reflexivity]|].
  apply Forall_cons in Hc as [Hc Hcs]. pose proof (step_evolves c s Hok ltac:(lia)) as [E1 E2 E3 E4 E5 E6].
  assert (∃ e1, keys (step c s) !! id = Some e1 ∧ same_key e e1) as (e1 & He1 & S1).
  { destruct (decide (key_owner e = caller c)) as [Ho|Ho].
    - apply E5; [done|]. destruct (removes c) eqn:Hr; [|done]. simpl. case_bool_decide as Ht; [|done].
      exfalso. by apply (Hc eq_refl Ht).
    - exists e. split; [by apply E4|reflexivity]. }
  destruct (IH (step c s) e1 E6 ltac:(lia) He1) as (e' & He' & S2).
  { eapply Forall_impl; [exact Hcs|]. intros d. destruct S1 as (-> & _). done. }
  exists e'. split; [done|]. by etrans.
Qed.

Lemma store_new_ok available cfg p t s : store_new rdrand available cfg p t = Ok s →
  store_ok s ∧ next_id s = 1 ∧ config s = cfg ∧ keys s = ∅.
Proof.
  unfold store_new. destruct (negb available); [done|].
  destruct (fill_random rdrand 32 32 _) as [s1 [k|e]] eqn:E; [|done]. intros [= <-].
  apply fill_random_length in E; [|done]. split; [|done]. split; [done|]. split; [done|].
  intros id e. cbn [keys]. by rewrite lookup_empty.
Qed.
End histories.

(** ** Properties *)

Lemma use_key_spec tsc o id u s e m : keys s !! id = Some e → key_owner e = o →
  decrypt_key_material (encrypted_material e) (nonce e) (tag e) s = Ok m →
  (use_key tsc o id u s).2 =
    (if negb (usage_contains (usage (metadata e)) u) then Err UsageNotAllowed
     else if from_option (λ x, x <? tsc (ticks s)) false (expires_at (metadata e)) then Err Expired else Ok m).
Proof.
  intros He Ho Hm. unfold use_key, get_key_material. rewrite bind_assoc, owned_bind, He, decide_True by done.
  unfold op_bind at 2. unfold op_guard. destruct (negb _); [done|].
  unfold check_expiration. destruct (expires_at (metadata e)) as [x|]; cbn [from_option].
  - unfold op_bind, read_cycle_counter, op_guard, decrypt_entry, op_gets, op_modify, op_ret.
    destruct (x <? tsc (ticks s)); [done|]. rewrite (decrypt_keeps s) by done. rewrite Hm. cbn [keys]. by rewrite He.
  - unfold op_bind, op_ret, decrypt_entry, op_gets, op_modify. rewrite Hm, He. done.
Qed.

Lemma export_spec o id s e m : keys s !! id = Some e → key_owner e = o →
  decrypt_key_material (encrypted_material e) (nonce e) (tag e) s = Ok m →
  (export o id s).2 =
    (if negb (extractable (metadata e)) then Err NotExtractable
     else if negb (usage_contains (usage (metadata e)) EXPORT) then Err UsageNotAllowed else Ok m).
Proof.
  intros He Ho Hm. unfold export. rewrite owned_bind, He, decide_True by done. unfold op_bind, op_guard, decrypt_entry.
  destruct (negb (extractable _)); [done|]. destruct (negb (usage_contains _ _)); [done|]. simpl. by rewrite Hm.
Qed.

(** [C6] Keys are private to their owner. After any history of calls, no call by another
    process changes a key in any way, any such call on the key is answered with
    [AccessDenied], and [list] shows a process its own keys only. *)
Theorem keystore_isolation rdrand tsc cfg p t s0 (calls : list call) (c : call) :
  store_new rdrand true cfg p t = Ok s0 → Z.of_nat (length calls) < 2 ^ 63 →
  let s := run_ops (step rdrand tsc) calls s0 in
  (∀ id e, keys s !! id = Some e → key_owner e ≠ caller c →
     keys (step rdrand tsc c s) !! id = Some e ∧
     (target c = Some id → (run_call rdrand tsc c s).2 = Refused AccessDenied)) ∧
  (∀ l md, (run_call rdrand tsc c s).2 = AList l → md ∈ l →
     ∃ e, keys s !! kid md = Some e ∧ key_owner e = caller c ∧ metadata e = md).
Proof.
  intros Hnew Hlen s. destruct (store_new_ok _ _ _ _ _ _ Hnew) as (Hok0 & Hn0 & _).
  destruct (run_ok rdrand tsc calls s0 Hok0) as (Hok & Hn & _); [unfold u64_max; lia|]. fold s in Hok, Hn.
  split.
  - intros id e He Ho. split; [|intros Ht; by apply (denied _ _ _ _ _ e Ht He)].
    by apply (ev_others _ _ _ (step_evolves rdrand tsc c s Hok ltac:(unfold u64_max; lia))).
  - intros l md Hl Hmd. destruct c; cbn [run_call] in Hl; try (unfold answer_of in Hl; cbn [snd] in Hl; by case_match).
    injection Hl as <-. unfold list_keys in Hmd. apply list_elem_of_fmap in Hmd as ([id e] & -> & Hin).
    apply list_elem_of_filter in Hin as [Ho Hin]. rewrite merge_sort_Permutation in Hin.
    apply elem_of_map_to_list in Hin. exists e. destruct (proj2 (proj2 Hok) id e Hin) as (_ & <- & _). done.
Qed.

(** What is imported comes back: after [import] succeeds, at any point of any history
    and after any later history that does not delete or rotate the key, the owner gets the
    very bytes from [use_key] and [export], whether or not keys are encrypted at rest,
    exactly when the usage, the expiry (for [use_key]) and the extractable flag (for
    [export]) allow it, and otherwise the error that names the reason. *)
Theorem keystore_roundtrip rdrand tsc cfg p t s0 (before after : list call) o m alg kt u lbl ex s2 id :
  store_new rdrand true cfg p t = Ok s0 →
  Z.of_nat (length before) < 2 ^ 62 → Z.of_nat (length after) < 2 ^ 62 →
  import rdrand tsc o m alg kt u lbl ex (run_ops (step rdrand tsc) before s0) = (s2, Ok id) →
  Forall (λ c, removes c = true → target c = Some id → caller c ≠ o) after →
  let s := run_ops (step rdrand tsc) after s2 in
  ∃ e, keys s !! id = Some e ∧
  (∀ required, (use_key tsc o id required s).2 =
     (if negb (usage_contains u required) then Err UsageNotAllowed
      else if from_option (λ d, u64_add (created_at (metadata e)) d <? tsc (ticks s)) false (default_expiration cfg)
      then Err Expired else Ok m)) ∧
  (export o id s).2 =
    (if negb ex then Err NotExtractable
     else if negb (usage_contains u EXPORT) then Err UsageNotAllowed else Ok m).
Proof.
  intros Hnew Hb Ha Him Hf s. destruct (store_new_ok _ _ _ _ _ _ Hnew) as (Hok0 & Hn0 & Hc0 & _).
  destruct (run_ok rdrand tsc before s0 Hok0) as (Hok1 & Hn1 & Hc1 & _); [unfold u64_max; lia|].
  set (s1 := run_ops (step rdrand tsc) before s0) in *.
  assert (next_id s1 < u64_max) as Hlt by (unfold u64_max; lia).
  pose proof (import_evolves rdrand tsc (CImport o m alg kt u lbl ex) o m alg kt u lbl ex s1 Hok1 Hlt) as Hev.
  rewrite Him in Hev. destruct Hev as [_ _ Hn2 _ _ Hok2]. cbn [fst] in *.
  destruct (import_spec _ _ _ _ _ _ _ _ _ _ _ _ (proj1 Hok1) Him)
    as (Hc2 & Hs2 & [(? & ? & _)|(e & [= ->] & Ek & _ & I)]); [done|].
  assert (keys s2 !! next_id s1 = Some e) as He by (by rewrite Ek, lookup_insert_eq).
  destruct (run_keeps_key rdrand tsc after (next_id s1) s2 e Hok2) as (e' & He' & S);
    [unfold u64_max; lia|done|by rewrite (im_owner _ _ _ _ _ _ _ _ _ _ I)|].
  destruct (run_ok rdrand tsc after s2 Hok2) as (_ & _ & Hc3 & Hs3); [unfold u64_max; lia|]. fold s in He', Hc3, Hs3.
  destruct S as (So & Sm & Sn & St & _ & _ & _ & Su & Sc & Se & _ & _ & Sx).
  assert (key_owner e' = o) as Ho by (rewrite So; apply I).
  assert (decrypt_key_material (encrypted_material e') (nonce e') (tag e') s = Ok m) as Hm.
  { rewrite Sm, Sn, St, (decrypt_keeps s1) by congruence. apply I. }
  exists e'. split; [done|]. split.
  - intros required. rewrite (use_key_spec tsc o _ _ s e' m He' Ho Hm).
    rewrite Su, Se, Sc, (im_usage _ _ _ _ _ _ _ _ _ _ I), (im_expires _ _ _ _ _ _ _ _ _ _ I), Hc1, Hc0.
    by destruct (default_expiration cfg).
  - rewrite (export_spec o _ s e' m He' Ho Hm).
    by rewrite Sx, Su, (im_usage _ _ _ _ _ _ _ _ _ _ I), (im_extractable _ _ _ _ _ _ _ _ _ _ I).
Qed.

Lemma generate_spec rdrand tsc o alg kt u lbl s s' id : store_ok s →
  generate rdrand tsc o alg kt u lbl s = (s', Ok id) →
  ∃ e m, keys s' = <[id := e]> (keys s) ∧ config s' = config s ∧ storage_key s' = storage_key s ∧
    imported o m alg kt u lbl true s id e.
Proof.
  intros Hok E. unfold generate in E. apply bind_inv in E as [(t1 & [] & G1 & E)|(? & _ & ?)]; [|done].
  apply bind_inv in E as [(t2 & m & G2 & E)|(? & _ & ?)]; [|done].
  unfold op_guard in G1. injection G1 as <- _.
  pose proof (read_only (m := fill_random rdrand (key_length alg) (key_length alg)) s) as K.
  rewrite G2 in K. cbn [fst] in K. destruct (keeps_ok _ _ K Hok) as (Hl2 & _). destruct K as (Ec & Ek & En & Es).
  destruct (import_spec _ _ _ _ _ _ _ _ _ _ _ _ Hl2 E) as (Ec' & Es' & [(? & ? & _)|(e & [= ->] & Ek' & _ & I)]); [done|].
  exists e, m. rewrite Ek', Ek, Ec', Ec, Es', Es. split_and!; [done..|].
  destruct I. constructor; try done; [by rewrite <-(decrypt_keeps s t2)|by rewrite <-Ec|by rewrite <-Ek, <-Ec].
Qed.

(** [derive] stores the HKDF expansion (RFC 5869) of the parent's bytes, not
    extractable and linked to its parent; [rotate] replaces the key by a fresh one with its
    algorithm, type, usage and label, and the new key is extractable and without parent
    whatever the old one was. *)
Theorem derive_and_rotate rdrand tsc cfg p t s0 (calls : list call) o id :
  store_new rdrand true cfg p t = Ok s0 → Z.of_nat (length calls) < 2 ^ 63 →
  let s := run_ops (step rdrand tsc) calls s0 in
  (∀ info alg u lbl s' new, derive_key rdrand tsc o id info alg u lbl s = (s', Ok new) →
     ∃ parent e, (get_key_material tsc o id DERIVE s).2 = Ok parent ∧ keys s' !! new = Some e ∧
       decrypt_key_material (encrypted_material e) (nonce e) (tag e) s'
       = Ok (rfc_expand Sha256 parent info (key_length alg)) ∧
       key_owner e = o ∧ usage (metadata e) = u ∧ extractable (metadata e) = false ∧
       key_parent (metadata e) = Some id) ∧
  (∀ s' new, rotate rdrand tsc o id s = (s', Ok new) →
     ∃ old e, keys s !! id = Some old ∧ keys s' !! id = None ∧ keys s' !! new = Some e ∧ id ≠ new ∧
       key_owner e = o ∧ algorithm (metadata e) = algorithm (metadata old) ∧
       usage (metadata e) = usage (metadata old) ∧ label (metadata e) = label (metadata old) ∧
       extractable (metadata e) = true ∧ key_parent (metadata e) = None).
Proof.
  intros Hnew Hlen s. destruct (store_new_ok _ _ _ _ _ _ Hnew) as (Hok0 & Hn0 & _).
  destruct (run_ok rdrand tsc calls s0 Hok0) as (Hok & Hn & _); [unfold u64_max; lia|]. fold s in Hok, Hn. split.
  - intros info alg u lbl s' new E. unfold derive_key in E.
    apply bind_inv in E as [(s1 & parent & Ep & E)|(? & _ & ?)]; [|done].
    pose proof (read_only (m := get_key_material tsc o id DERIVE) s) as K. rewrite Ep in *. cbn [fst snd] in *.
    pose proof (keeps_ok _ _ K Hok) as Hok1.
    apply bind_inv in E as [(s2 & [] & G & E)|(? & _ & ?)]; [|done]. unfold op_guard in G. injection G as <- _.
    destruct (expand_spec Sha256 parent info (key_length alg)) as [Hx _].
    { destruct alg; vm_compute; lia. }
    rewrite Hx in E. apply bind_inv in E as [(s3 & nid & Ei & E)|(? & _ & ?)]; [|done].
    destruct (import_spec _ _ _ _ _ _ _ _ _ _ _ _ (proj1 Hok1) Ei)
      as (Ec & Es & [(? & ? & _)|(e & [= ->] & Ek & _ & I)]); [done|].
    unfold op_bind, op_modify, op_ret in E. injection E as <- <-.
    exists parent, (set_parent id e). split; [done|]. split.
    { cbn [set_keys keys]. rewrite Ek. by rewrite lookup_alter_eq, lookup_insert_eq. }
    split; [|split_and!; try apply I; done].
    cbn [set_parent encrypted_material nonce tag]. rewrite (decrypt_keeps s1) by done. apply I.
  - intros s' new E. unfold rotate, get_metadata in E. rewrite bind_assoc, owned_bind in E.
    destruct (keys s !! id) as [old|] eqn:He; [|done]. case_decide as Ho; [|done].
    rewrite bind_assoc in E. apply bind_inv in E as [(s1 & [] & Ex & E)|(? & _ & ?)]; [|done].
    pose proof (read_only (m := check_expiration tsc old) s) as K. rewrite Ex in K. cbn [fst] in K.
    pose proof (keeps_ok _ _ K Hok) as Hok1. destruct K as (_ & Ek1 & En1 & _).
    rewrite (bind_ok _ _ s1 s1 (metadata old)) in E by done.
    apply bind_inv in E as [(s2 & nid & Eg & E)|(? & _ & ?)]; [|done].
    destruct (generate_spec _ _ _ _ _ _ _ _ _ _ Hok1 Eg) as (e & m & Ek2 & _ & _ & I).
    assert (nid = kid (metadata e) ∧ id ≠ nid) as [_ Hne].
    { split; [symmetry; apply I|]. intros ->.
      unfold generate in Eg. apply bind_inv in Eg as [(t1 & [] & G1 & Eg)|(? & _ & ?)]; [|done].
      apply bind_inv in Eg as [(t2 & m2 & G2 & Eg)|(? & _ & ?)]; [|done]. unfold op_guard in G1. injection G1 as <- _.
      pose proof (read_only (m := fill_random rdrand (key_length (algorithm (metadata old))) (key_length (algorithm (metadata old)))) s1) as K.
      rewrite G2 in K. cbn [fst] in K. destruct (keeps_ok _ _ K Hok1) as (Hl2 & _). destruct K as (_ & _ & En & _).
      destruct (import_spec _ _ _ _ _ _ _ _ _ _ _ _ Hl2 Eg) as (_ & _ & [(? & ? & _)|(? & [= Hid] & _)]); [done|].
      destruct (proj2 (proj2 Hok) _ _ He). lia. }
    unfold delete in E. rewrite bind_assoc, owned_bind, Ek2, lookup_insert_ne, Ek1, He, decide_True in E by done.
    unfold op_bind, op_modify, op_ret in E. injection E as <- <-. cbn [set_keys keys]. rewrite Ek2.
    exists old, e. split_and!; try apply I; try done; [by rewrite lookup_delete_eq|].
    by rewrite lookup_delete_ne, lookup_insert_eq.
Qed.

(** ** Examples *)

Definition ex_rdrand (n : nat) : Z * bool := (Z.of_nat n * 0x0123456789ABCDEF mod 2 ^ 64, negb (n =? 2)%nat).
Definition ex_tsc (n : nat) : Z := 100 + Z.of_nat n.
Definition ex_store (cfg : KeyStoreConfig) : KeyStore :=
  match store_new ex_rdrand true cfg 0 0 with Ok s => s | Err _ => mkStore cfg ∅ 0 [] 0 0 end.
Definition ex_import : call := CImport (mkPid 1) (replicate 16 7) Aes128 Symmetric USAGE_ALL "k" true.

Lemma ex_store_new cfg : store_new ex_rdrand true cfg 0 0 = Ok (ex_store cfg).
Proof. reflexivity. Qed.

Lemma keystore_isolation_witness :
  let s := run_ops (step ex_rdrand ex_tsc) [ex_import] (ex_store config_default) in
  (key_owner <$> keys s !! 1) = Some (mkPid 1) ∧
  (run_call ex_rdrand ex_tsc (CExport (mkPid 2) 1) s).2 = Refused AccessDenied ∧
  (run_call ex_rdrand ex_tsc (CList (mkPid 2)) s).2 = AList [].
Proof.
  intros s. assert ((key_owner <$> keys s !! 1) = Some (mkPid 1)) as Ho by (vm_compute; reflexivity).
  split; [exact Ho|]. split; [|vm_compute; reflexivity].
  destruct (keys s !! 1) as [e|] eqn:He; [|discriminate]. injection Ho as Ho.
  refine (proj2 (proj1 (keystore_isolation ex_rdrand ex_tsc config_default 0 0 _ [ex_import] (CExport (mkPid 2) 1)
    (ex_store_new _) _) 1 e He _) eq_refl).
  - reflexivity.
  - rewrite Ho. discriminate.
Defined.

(** Two keys; the first is used, the second deleted, and the first still comes back. *)
Lemma keystore_roundtrip_witness :
  let after := [CUse (mkPid 1) 1 ENCRYPT; CImport (mkPid 2) [1; 2] Raw Master EXPORT "r" false;
                CDelete (mkPid 2) 2; CDelete (mkPid 2) 1] in
  let '(s2, r) := import ex_rdrand ex_tsc (mkPid 1) (replicate 16 7) Aes128 Symmetric USAGE_ALL "k" true
                    (ex_store config_default) in
  let s := run_ops (step ex_rdrand ex_tsc) after s2 in
  r = Ok 1 ∧ (export (mkPid 1) 1 s).2 = Ok (replicate 16 7) ∧ (use_key ex_tsc (mkPid 1) 1 SIGN s).2 = Ok (replicate 16 7).
Proof.
  intros after.
  destruct (import ex_rdrand ex_tsc (mkPid 1) (replicate 16 7) Aes128 Symmetric USAGE_ALL "k" true
    (ex_store config_default)) as [s2 r] eqn:E.
  assert (r = Ok 1) as -> by (change r with (s2, r).2; rewrite <-E; vm_compute; reflexivity).
  intros s.
  destruct (keystore_roundtrip ex_rdrand ex_tsc config_default 0 0 _ [] after (mkPid 1) (replicate 16 7) Aes128
    Symmetric USAGE_ALL "k" true s2 1 (ex_store_new _) ltac:(reflexivity) ltac:(reflexivity) E) as (e & _ & Hu & Hx).
  - repeat constructor; simpl; congruence.
  - split; [reflexivity|]. split; [exact Hx|]. exact (Hu SIGN).
Defined.

Lemma derive_and_rotate_witness :
  let s := run_ops (step ex_rdrand ex_tsc) [CImport (mkPid 1) (replicate 16 7) Aes128 Master DERIVE "m" false]
             (ex_store config_default) in
  let '(s1, r1) := derive_key ex_rdrand ex_tsc (mkPid 1) 1 [1; 2; 3] Aes256 ENCRYPT "d" s in
  let '(s2, r2) := rotate ex_rdrand ex_tsc (mkPid 1) 1 s in
  r1 = Ok 2 ∧ r2 = Ok 2 ∧
  (extractable ∘ metadata <$> keys s1 !! 2) = Some false ∧ (extractable ∘ metadata <$> keys s !! 1) = Some false ∧
  (extractable ∘ metadata <$> keys s2 !! 2) = Some true.
Proof.
  intros s.
  destruct (derive_key ex_rdrand ex_tsc (mkPid 1) 1 [1; 2; 3] Aes256 ENCRYPT "d" s) as [s1 r1] eqn:E1.
  destruct (rotate ex_rdrand ex_tsc (mkPid 1) 1 s) as [s2 r2] eqn:E2.
  assert (r1 = Ok 2) as -> by (change r1 with (s1, r1).2; rewrite <-E1; vm_compute; reflexivity).
  assert (r2 = Ok 2) as -> by (change r2 with (s2, r2).2; rewrite <-E2; vm_compute; reflexivity).
  destruct (derive_and_rotate ex_rdrand ex_tsc config_default 0 0 _
    [CImport (mkPid 1) (replicate 16 7) Aes128 Master DERIVE "m" false] (mkPid 1) 1 (ex_store_new _) ltac:(reflexivity))
    as [Hd Hr].
  destruct (Hd _ _ _ _ _ _ E1) as (pm & e & _ & He & _ & _ & _ & Hx & _).
  destruct (Hr _ _ E2) as (old & e2 & _ & _ & He2 & _ & _ & _ & _ & _ & Hx2 & _).
  split; [reflexivity|]. split; [reflexivity|].
  split; [exact (eq_trans (f_equal (fmap (extractable ∘ metadata)) He) (f_equal Some Hx))|].
  split; [vm_compute; reflexivity|]. exact (eq_trans (f_equal (fmap (extractable ∘ metadata)) He2) (f_equal Some Hx2)).
Defined.
