(* ===== verification/IoSched.v ===== *)
(** * IoSched: the block I/O schedulers ([kernel/src/block/scheduler.rs])

    Requests, the [IoScheduler] trait as a class with its three implementations
    (first come first served, deadline, completely fair queuing), and their choice
    per device. What a client may rely on is a second class, [PerProcessFifo]: no
    request is lost and each process is served in order. The first and the third
    implementation satisfy it; the deadline scheduler does not. *)

From Stdlib Require Import ZArith Lia.
From stdpp Require Import gmap strings sorting.
From S2P Require Import Prelude.

(** ** Requests *)

Inductive BlockRequestType := Read | Write | Flush | Discard.

Record BlockRequest := mkRequest {
  request_type : BlockRequestType;
  br_sector : Z;
  br_count : Z;
  br_buffer : option (list Z)
}.

Definition SECTOR_SIZE : Z := 512.

Definition br_read (sector count : Z) : BlockRequest := mkRequest Read sector count None.
Definition br_write (sector : Z) (data : list Z) : BlockRequest :=
  mkRequest Write sector
    (u64_sub (u64_add (Z.of_nat (length data)) SECTOR_SIZE) 1 / SECTOR_SIZE) (Some data).
Definition br_flush : BlockRequest := mkRequest Flush 0 0 None.

Inductive Priority := Background | Normal | Realtime | Critical.
Inductive Direction := DRead | DWrite.

#[global] Instance Direction_eq_dec : EqDecision Direction.
Proof. solve_decision. Defined.

Record SchedRequest := mkSched {
  request : BlockRequest;
  priority : Priority;
  submit_time : Z;
  deadline : option Z;
  pid : Z
}.

Definition sched_request_new (r : BlockRequest) (p : Priority) (now : Z) : SchedRequest :=
  mkSched r p now None 0.
Definition with_deadline (r : BlockRequest) (p : Priority) (now dl : Z) : SchedRequest :=
  mkSched r p now (Some dl) 0.

Definition sector (r : SchedRequest) : Z := br_sector (request r).
Definition direction (r : SchedRequest) : Direction :=
  match request_type (request r) with
  | Write | Flush => DWrite
  | _ => DRead
  end.

(** ** The trait *)

Class IoScheduler (S : Type) := {
  add_request : SchedRequest → S → S;
  next_request : S → S * option SchedRequest;
  has_pending : S → bool;
  pending_count : S → nat
}.

(** ** First come, first served *)

Record NoOpScheduler := mkNoOp { noop_queue : list SchedRequest }.

Definition noop_new : NoOpScheduler := mkNoOp [].
Definition noop_add (r : SchedRequest) (s : NoOpScheduler) : NoOpScheduler :=
  mkNoOp (noop_queue s ++ [r]).
Definition noop_next (s : NoOpScheduler) : NoOpScheduler * option SchedRequest :=
  match pop_front (noop_queue s) with
  | Some (r, q) => (mkNoOp q, Some r)
  | None => (s, None)
  end.

#[global] Instance NoOp_scheduler : IoScheduler NoOpScheduler := {
  add_request := noop_add;
  next_request := noop_next;
  has_pending s := negb (length (noop_queue s) =? 0)%nat;
  pending_count s := length (noop_queue s)
}.

(** ** Deadline *)

Record DeadlineScheduler := mkDeadline {
  read_sorted : gmap Z SchedRequest;
  write_sorted : gmap Z SchedRequest;
  read_fifo : list Z;
  write_fifo : list Z;
  head_position : Z;
  serving_reads : bool;
  read_deadline : Z;
  write_deadline : Z;
  writes_starved : Z;
  write_starve_limit : Z
}.

Definition deadline_new : DeadlineScheduler := mkDeadline ∅ ∅ [] [] 0 true 500 5000 0 16.

(** [range(head..).next()], or else the first key. *)
Definition nearest (head : Z) (sorted : gmap Z SchedRequest) : option Z :=
  match filter (λ s, head ≤ s) (btree_keys sorted) with
  | s :: _ => Some s
  | [] => list.head (btree_keys sorted)
  end.

(** Whether the oldest request of a side has expired: its deadline against its own
    submission time. *)
Definition overdue (sorted : gmap Z SchedRequest) (fifo : list Z) : option Z :=
  sec ← list.head fifo;
  req ← sorted !! sec;
  dl ← deadline req;
  if dl <=? submit_time req then Some sec else None.

(** The body that [dispatch_read] and [dispatch_write] share: the side's map, its FIFO
    and the head position after it, with the request taken. *)
Definition dispatch_side (head : Z) (sorted : gmap Z SchedRequest) (fifo : list Z) :
    gmap Z SchedRequest * list Z * Z * option SchedRequest :=
  match overdue sorted fifo with
  | Some sec => (delete sec sorted, tail fifo, head, sorted !! sec)
  | None =>
      match nearest head sorted with
      | Some sec => (delete sec sorted, filter (λ s, s ≠ sec) fifo, sec, sorted !! sec)
      | None => (sorted, fifo, head, None)
      end
  end.

Definition dispatch_read (s : DeadlineScheduler) : DeadlineScheduler * option SchedRequest :=
  let '(sorted, fifo, head, req) := dispatch_side (head_position s) (read_sorted s) (read_fifo s) in
  (mkDeadline sorted (write_sorted s) fifo (write_fifo s) head (serving_reads s)
     (read_deadline s) (write_deadline s) (writes_starved s) (write_starve_limit s), req).

Definition dispatch_write (s : DeadlineScheduler) : DeadlineScheduler * option SchedRequest :=
  let '(sorted, fifo, head, req) := dispatch_side (head_position s) (write_sorted s) (write_fifo s) in
  (mkDeadline (read_sorted s) sorted (read_fifo s) fifo head (serving_reads s)
     (read_deadline s) (write_deadline s) (writes_starved s) (write_starve_limit s), req).

Definition set_serving (serving : bool) (starved : Z) (s : DeadlineScheduler) : DeadlineScheduler :=
  mkDeadline (read_sorted s) (write_sorted s) (read_fifo s) (write_fifo s) (head_position s)
    serving (read_deadline s) (write_deadline s) starved (write_starve_limit s).

Definition deadline_add (r : SchedRequest) (s : DeadlineScheduler) : DeadlineScheduler :=
  match direction r with
  | DRead =>
      mkDeadline (<[sector r := r]> (read_sorted s)) (write_sorted s)
        (read_fifo s ++ [sector r]) (write_fifo s) (head_position s) (serving_reads s)
        (read_deadline s) (write_deadline s) (writes_starved s) (write_starve_limit s)
  | DWrite =>
      mkDeadline (read_sorted s) (<[sector r := r]> (write_sorted s))
        (read_fifo s) (write_fifo s ++ [sector r]) (head_position s) (serving_reads s)
        (read_deadline s) (write_deadline s) (writes_starved s) (write_starve_limit s)
  end.

(** The second half of [next_request], from [if !self.serving_reads]. *)
Definition deadline_serve_writes (s : DeadlineScheduler) : DeadlineScheduler * option SchedRequest :=
  if negb (serving_reads s) then
    if negb (size (write_sorted s) =? 0)%nat then
      let '(s, req) := dispatch_write s in
      ((if (size (write_sorted s) =? 0)%nat then set_serving true (writes_starved s) s else s), req)
    else dispatch_read (set_serving true (writes_starved s) s)
  else (s, None).

Definition deadline_next (s : DeadlineScheduler) : DeadlineScheduler * option SchedRequest :=
  if serving_reads s then
    if negb (size (read_sorted s) =? 0)%nat then
      let starved := u64_add (writes_starved s) 1 in
      if (write_starve_limit s <=? starved) && negb (size (write_sorted s) =? 0)%nat
      then deadline_serve_writes (set_serving false 0 s)
      else dispatch_read (set_serving true starved s)
    else deadline_serve_writes (set_serving false (writes_starved s) s)
  else deadline_serve_writes s.

#[global] Instance Deadline_scheduler : IoScheduler DeadlineScheduler := {
  add_request := deadline_add;
  next_request := deadline_next;
  has_pending s := negb (size (read_sorted s) =? 0)%nat || negb (size (write_sorted s) =? 0)%nat;
  pending_count s := (size (read_sorted s) + size (write_sorted s))%nat
}.

(** ** Completely fair queuing *)

Record CfqQueue := mkQueue { requests : list SchedRequest; time_slice : Z; used_time : Z }.

Definition queue_new : CfqQueue := mkQueue [] 100 0.

Record CfqScheduler := mkCfq {
  queues : gmap Z CfqQueue;
  active_pid : option Z;
  round_robin : list Z;
  idle_queue : list SchedRequest
}.

Definition cfq_new : CfqScheduler := mkCfq ∅ None [] [].

Definition get_or_create_queue (p : Z) (s : CfqScheduler) : CfqScheduler * CfqQueue :=
  match queues s !! p with
  | Some q => (s, q)
  | None => (mkCfq (<[p := queue_new]> (queues s)) (active_pid s) (round_robin s ++ [p]) (idle_queue s),
             queue_new)
  end.

Definition cfq_add (r : SchedRequest) (s : CfqScheduler) : CfqScheduler :=
  if pid r =? 0 then
    mkCfq (queues s) (active_pid s) (round_robin s) (idle_queue s ++ [r])
  else
    let '(s, q) := get_or_create_queue (pid r) s in
    mkCfq (<[pid r := mkQueue (requests q ++ [r]) (time_slice q) (used_time q)]> (queues s))
      (active_pid s) (round_robin s) (idle_queue s).

(** "Try active process first": the request taken, or the state to go on with. *)
Definition cfq_try_active (s : CfqScheduler) : CfqScheduler * option SchedRequest :=
  match active_pid s with
  | None => (s, None)
  | Some p =>
      match queues s !! p with
      | None => (s, None)
      | Some q =>
          match pop_front (requests q) with
          | None => (mkCfq (queues s) None (round_robin s) (idle_queue s), None)
          | Some (r, rest) =>
              let used := u64_add (used_time q) 1 in
              if time_slice q <=? used then
                (mkCfq (<[p := mkQueue rest (time_slice q) 0]> (queues s)) None
                   (round_robin s) (idle_queue s), Some r)
              else
                (mkCfq (<[p := mkQueue rest (time_slice q) used]> (queues s)) (active_pid s)
                   (round_robin s) (idle_queue s), Some r)
          end
      end
  end.

(** "Round-robin to next process": empty queues are removed up to the first process
    with requests, which becomes active. *)
Fixpoint cfq_rotate (rr : list Z) (qs : gmap Z CfqQueue) : option Z * list Z * gmap Z CfqQueue :=
  match rr with
  | [] => (None, [], qs)
  | p :: rr =>
      match qs !! p with
      | Some q => if negb (length (requests q) =? 0)%nat then (Some p, rr ++ [p], qs)
                  else cfq_rotate rr (delete p qs)
      | None => cfq_rotate rr (delete p qs)
      end
  end.

(** [next_request] calls itself once a process is chosen; [None] is out of fuel. *)
Fixpoint cfq_next (fuel : nat) (s : CfqScheduler) : option (CfqScheduler * option SchedRequest) :=
  match fuel with
  | O => None
  | S fuel =>
      match cfq_try_active s with
      | (s, Some r) => Some (s, Some r)
      | (s, None) =>
          match cfq_rotate (round_robin s) (queues s) with
          | (Some p, rr, qs) => cfq_next fuel (mkCfq qs (Some p) rr (idle_queue s))
          | (None, rr, qs) =>
              match pop_front (idle_queue s) with
              | Some (r, idle) => Some (mkCfq qs (active_pid s) rr idle, Some r)
              | None => Some (mkCfq qs (active_pid s) rr (idle_queue s), None)
              end
          end
      end
  end.

Definition cfq_count (s : CfqScheduler) : nat :=
  length (idle_queue s) + sum_list ((λ kq, length (requests kq.2)) <$> btree_iter (queues s)).

(** Two calls are enough ([cfq_next_returns]). *)
#[global] Instance Cfq_scheduler : IoScheduler CfqScheduler := {
  add_request := cfq_add;
  next_request s := default (s, None) (cfq_next 2 s);
  has_pending s := negb (length (idle_queue s) =? 0)%nat ||
                   existsb (λ kq, negb (length (requests kq.2) =? 0)%nat) (btree_iter (queues s));
  pending_count := cfq_count
}.

(** ** Choice of a scheduler *)

Inductive SchedulerType := NoOp | Deadline | Cfq.

(** [Box<dyn IoScheduler>]. *)
Inductive AnyScheduler :=
| ANoOp (s : NoOpScheduler) | ADeadline (s : DeadlineScheduler) | ACfq (s : CfqScheduler).

Definition create (t : SchedulerType) : AnyScheduler :=
  match t with
  | NoOp => ANoOp noop_new
  | Deadline => ADeadline deadline_new
  | Cfq => ACfq cfq_new
  end.

#[global] Instance Any_scheduler : IoScheduler AnyScheduler := {
  add_request r s := match s with
    | ANoOp s => ANoOp (add_request r s)
    | ADeadline s => ADeadline (add_request r s)
    | ACfq s => ACfq (add_request r s)
    end;
  next_request s := match s with
    | ANoOp s => let '(s, r) := next_request s in (ANoOp s, r)
    | ADeadline s => let '(s, r) := next_request s in (ADeadline s, r)
    | ACfq s => let '(s, r) := next_request s in (ACfq s, r)
    end;
  has_pending s := match s with
    | ANoOp s => has_pending s | ADeadline s => has_pending s | ACfq s => has_pending s end;
  pending_count s := match s with
    | ANoOp s => pending_count s | ADeadline s => pending_count s | ACfq s => pending_count s end
}.

Definition set_scheduler (device : string) (s : AnyScheduler) (schedulers : gmap string AnyScheduler) :
    gmap string AnyScheduler := <[device := s]> schedulers.

Definition default_scheduler_for_device (device_type : string) : SchedulerType :=
  if decide (device_type = "nvme" ∨ device_type = "virtio") then NoOp
  else if decide (device_type = "ahci" ∨ device_type = "ide") then Deadline
  else Deadline.

(** ** What a client may rely on *)

(** [if pid r = p then [r] else []]: a request as seen by process [p]. *)
Definition of_pid (p : Z) (r : SchedRequest) : list SchedRequest :=
  if decide (pid r = p) then [r] else [].

(** Each process has a backlog: a request joins the end of its submitter's, what is
    dispatched is the oldest of its submitter's, and nothing is dispatched exactly when
    every backlog is empty. *)
Class PerProcessFifo (S : Type) `{IoScheduler S} := {
  io_inv : S → Prop;
  backlog : S → Z → list SchedRequest;
  add_inv r s : io_inv s → io_inv (add_request r s);
  add_backlog r s p : io_inv s → backlog (add_request r s) p = backlog s p ++ of_pid p r;
  next_inv s : io_inv s → io_inv (next_request s).1;
  next_backlog s : io_inv s →
    match next_request s with
    | (s', Some r) => ∀ p, backlog s p = of_pid p r ++ backlog s' p
    | (s', None) => ∀ p, backlog s p = [] ∧ backlog s' p = []
    end;
  has_pending_spec s : io_inv s → has_pending s = true ↔ ∃ p, backlog s p ≠ [];
  pending_count_spec s : io_inv s → has_pending s = true ↔ (0 < pending_count s)%nat
}.

(** The requests of process [p] among those of a list. *)
Definition pid_filter (p : Z) (l : list SchedRequest) : list SchedRequest :=
  concat (of_pid p <$> l).

Lemma pid_filter_snoc p l r : pid_filter p (l ++ [r]) = pid_filter p l ++ of_pid p r.
Proof. unfold pid_filter. rewrite fmap_app, concat_app. simpl. by rewrite app_nil_r. Qed.

Lemma pid_filter_cons p l r : pid_filter p (r :: l) = of_pid p r ++ pid_filter p l.
Proof. done. Qed.

Inductive io_call := CallAdd (r : SchedRequest) | CallNext.

(** A scheduler with what was submitted to it and dispatched by it. *)
Record io_ledger (S : Type) := mkIo { io_state : S; submitted : list SchedRequest; dispatched : list SchedRequest }.
Arguments mkIo {S}.
Arguments io_state {S}.
Arguments submitted {S}.
Arguments dispatched {S}.

Definition io_step {S} `{IoScheduler S} (c : io_call) (g : io_ledger S) : io_ledger S :=
  match c with
  | CallAdd r => mkIo (add_request r (io_state g)) (submitted g ++ [r]) (dispatched g)
  | CallNext =>
      match next_request (io_state g) with
      | (s, Some r) => mkIo s (submitted g) (dispatched g ++ [r])
      | (s, None) => mkIo s (submitted g) (dispatched g)
      end
  end.

Section fifo.
Context {S} `{PerProcessFifo S}.

Definition ledger_ok (g : io_ledger S) : Prop :=
  io_inv (io_state g) ∧
  ∀ p, pid_filter p (submitted g) = pid_filter p (dispatched g) ++ backlog (io_state g) p.

Lemma io_step_ok c g : ledger_ok g → ledger_ok (io_step c g).
Proof.
  intros [Hi Hg]. destruct c as [r|]; simpl.
  - split; [by apply add_inv|]. intros p. simpl.
    by rewrite pid_filter_snoc, Hg, add_backlog, app_assoc.
  - pose proof (next_inv _ Hi) as Hi'. pose proof (next_backlog _ Hi) as Hb.
    destruct (next_request (io_state g)) as [s [r|]]; split; try done; simpl; intros p.
    + by rewrite Hg, Hb, pid_filter_snoc, <-app_assoc.
    + destruct (Hb p) as [Hb1 Hb2]. by rewrite Hg, Hb1, Hb2.
Qed.

Lemma io_run_ok calls g : ledger_ok g → ledger_ok (run_ops io_step calls g).
Proof. intros Hg. apply run_ops_invariant; [|done]. intros c g' Hg'. by apply io_step_ok. Qed.
End fifo.

(** *** First come first served keeps the promise *)

#[global] Program Instance NoOp_fifo : PerProcessFifo NoOpScheduler := {
  io_inv _ := True;
  backlog s p := pid_filter p (noop_queue s)
}.
Next Obligation. done. Qed.
Next Obligation. intros r s p _. apply pid_filter_snoc. Qed.
Next Obligation. done. Qed.
Next Obligation.
  intros [[|r q]] _; [done|]. intros p. apply pid_filter_cons.
Qed.
Next Obligation.
  intros [[|r q]] _; simpl.
  - split; [done|]. intros [p Hp]. done.
  - split; [|done]. intros _. exists (pid r). unfold pid_filter, of_pid. simpl.
    by rewrite decide_True.
Qed.
Next Obligation. intros [[|r q]] _; simpl; [|lia]. split; [done|lia]. Qed.

(** *** Completely fair queuing keeps the promise *)

Definition queue_of (qs : gmap Z CfqQueue) (p : Z) : list SchedRequest :=
  default [] (requests <$> qs !! p).

Definition cfq_backlog (s : CfqScheduler) (p : Z) : list SchedRequest :=
  if decide (p = 0) then idle_queue s else queue_of (queues s) p.

(** A queue holds the requests of its process and has some of its slice left. *)
Definition queue_ok (p : Z) (q : CfqQueue) : Prop :=
  p ≠ 0 ∧ Forall (λ r, pid r = p) (requests q) ∧ time_slice q = 100 ∧ 0 ≤ used_time q < 100.

(** The processes that have a queue are those in the rotation, once each. *)
Definition rotation_ok (rr : list Z) (qs : gmap Z CfqQueue) : Prop :=
  NoDup rr ∧ ∀ p, p ∈ rr ↔ is_Some (qs !! p).

Definition cfq_inv (s : CfqScheduler) : Prop :=
  map_Forall queue_ok (queues s) ∧ rotation_ok (round_robin s) (queues s) ∧
  Forall (λ r, pid r = 0) (idle_queue s) ∧
  ∀ a, active_pid s = Some a → is_Some (queues s !! a).

Lemma queue_of_insert qs p q p' :
  queue_of (<[p := q]> qs) p' = if decide (p' = p) then requests q else queue_of qs p'.
Proof.
  unfold queue_of. case_decide as Hp; [subst; by rewrite lookup_insert_eq|].
  by rewrite lookup_insert_ne.
Qed.

Lemma rotation_insert rr qs p q :
  is_Some (qs !! p) → rotation_ok rr qs → rotation_ok rr (<[p := q]> qs).
Proof.
  intros Hp [Hnd Hrr]. split; [done|]. intros p'. rewrite Hrr.
  destruct (decide (p' = p)) as [->|Hne]; [rewrite lookup_insert_eq; naive_solver|].
  by rewrite lookup_insert_ne.
Qed.

Lemma rotation_new rr qs p q :
  qs !! p = None → rotation_ok rr qs → rotation_ok (rr ++ [p]) (<[p := q]> qs).
Proof.
  intros Hp [Hnd Hrr]. assert (p ∉ rr) by (rewrite Hrr, Hp; by intros []). split.
  - apply NoDup_app. split; [done|]. split; [|apply NoDup_singleton]. set_solver.
  - intros p'. rewrite elem_of_app, list_elem_of_singleton, Hrr.
    destruct (decide (p' = p)) as [->|Hne]; [rewrite lookup_insert_eq; naive_solver|].
    rewrite lookup_insert_ne by done. naive_solver.
Qed.

Lemma cfq_add_spec r s : cfq_inv s →
  cfq_inv (cfq_add r s) ∧ (∀ p, cfq_backlog (cfq_add r s) p = cfq_backlog s p ++ of_pid p r) ∧
  active_pid (cfq_add r s) = active_pid s ∧
  (∃ new, round_robin (cfq_add r s) = round_robin s ++ new ∧ (length new ≤ 1)%nat) ∧
  ∀ p q, queues s !! p = Some q → ∃ q', queues (cfq_add r s) !! p = Some q' ∧ used_time q' = used_time q.
Proof.
  intros (Hq & Hrr & Hid & Hac). unfold cfq_add. destruct (Z.eqb_spec (pid r) 0) as [H0|H0].
  { split; [split; [done|split; [done|split; [|done]]]|split; [|split; [done|split]]]; simpl.
    - apply Forall_app. split; [done|]. by constructor.
    - intros p. unfold cfq_backlog, of_pid. simpl. rewrite H0.
      destruct (decide (p = 0)); destruct (decide (0 = p)); naive_solver (by rewrite app_nil_r).
    - exists []. rewrite app_nil_r. split; [done|simpl; lia].
    - intros p q ->. eauto. }
  unfold get_or_create_queue. destruct (queues s !! pid r) as [q|] eqn:Hl; simpl.
  - destruct (Hq _ _ Hl) as (_ & Hf & Ht & Hu).
    split; [split; [|split; [by apply rotation_insert|split; [done|]]]|split; [|split; [done|split]]]; simpl.
    + apply map_Forall_insert_2; [|done]. split; [done|]. split; [|done].
      simpl. apply Forall_app. split; [done|]. by constructor.
    + intros a Ha%Hac. by apply lookup_insert_is_Some'; right.
    + intros p. unfold cfq_backlog, of_pid. simpl. rewrite queue_of_insert. simpl.
      unfold queue_of. destruct (decide (p = 0)), (decide (p = pid r)), (decide (pid r = p));
        subst; rewrite ?Hl, ?app_nil_r; done.
    + exists []. rewrite app_nil_r. split; [done|simpl; lia].
    + intros p q0 Hp. destruct (decide (p = pid r)) as [->|Hne].
      * rewrite lookup_insert_eq. simplify_eq. eauto.
      * rewrite lookup_insert_ne by done. eauto.
  - split; [split; [|split; [|split; [done|]]]|split; [|split; [done|split]]]; simpl.
    + rewrite insert_insert_eq. apply map_Forall_insert_2; [|done]. split; [done|]. split; [by constructor|].
      simpl. lia.
    + rewrite insert_insert_eq. by apply rotation_new.
    + intros a Ha%Hac. rewrite insert_insert_eq. by apply lookup_insert_is_Some'; right.
    + intros p. unfold cfq_backlog, of_pid. simpl. rewrite insert_insert_eq, queue_of_insert. simpl.
      unfold queue_of. destruct (decide (p = 0)), (decide (p = pid r)), (decide (pid r = p));
        subst; rewrite ?Hl, ?app_nil_r; done.
    + exists [pid r]. split; [done|]. simpl. lia.
    + intros p q0 Hp. rewrite !lookup_insert_ne by congruence. eauto.
Qed.

(** Turning the rotation drops empty queues only. *)
Lemma cfq_rotate_spec rr : ∀ qs, map_Forall queue_ok qs → rotation_ok rr qs →
  let '(o, rr', qs') := cfq_rotate rr qs in
  qs' ⊆ qs ∧ rotation_ok rr' qs' ∧ (∀ p, queue_of qs' p = queue_of qs p) ∧
  match o with
  | Some p => queue_of qs' p ≠ [] ∧ ∃ gone rest, rr = gone ++ p :: rest ∧ rr' = rest ++ [p] ∧
                ∀ p', p' ∈ gone → queue_of qs p' = []
  | None => ∀ p, queue_of qs p = []
  end.
Proof.
  induction rr as [|p rr IH]; intros qs Hq Hrr; simpl.
  { split; [done|]. split; [done|]. split; [done|]. intros p. unfold queue_of.
    destruct (qs !! p) eqn:Hp; [|done]. destruct Hrr as [_ Hrr].
    assert (p ∈ []) as Hin by (apply Hrr; eauto). by apply elem_of_nil in Hin. }
  destruct Hrr as [[Hnin Hnd]%NoDup_cons Hrr].
  destruct (proj1 (Hrr p) ltac:(by constructor)) as [q Hp]. rewrite Hp.
  destruct (requests q) as [|r rs] eqn:Hr; simpl.
  - assert (Hof : ∀ p', queue_of (delete p qs) p' = queue_of qs p').
    { intros p'. unfold queue_of. destruct (decide (p' = p)) as [->|Hne].
      - rewrite lookup_delete_eq, Hp. simpl. by rewrite Hr.
      - by rewrite lookup_delete_ne. }
    assert (Hrot : rotation_ok rr (delete p qs)).
    { split; [done|]. intros p'. specialize (Hrr p'). rewrite elem_of_cons in Hrr.
      destruct (decide (p' = p)) as [->|Hne].
      - rewrite lookup_delete_eq. split; [done|]. by intros [].
      - rewrite lookup_delete_ne by done. naive_solver. }
    specialize (IH (delete p qs) ltac:(by apply map_Forall_delete) Hrot).
    destruct (cfq_rotate rr (delete p qs)) as [[o rr'] qs']. destruct IH as (Hsub & Hrot' & Heq & Ho).
    split; [etrans; [done|apply delete_subseteq]|]. split; [done|].
    split; [intros; by rewrite Heq|]. destruct o as [p'|]; [|intros; by rewrite <-Hof].
    destruct Ho as [Hne (gone & rest & -> & -> & Hgone)]. split; [done|].
    exists (p :: gone), rest. split; [done|]. split; [done|].
    intros x [->|Hx]%elem_of_cons; [unfold queue_of; rewrite Hp; simpl; by rewrite Hr|].
    rewrite <-Hof. by apply Hgone.
  - split; [done|]. split; [split|split; [done|]].
    + apply NoDup_app. split; [done|]. split; [set_solver|apply NoDup_singleton].
    + intros p'. rewrite <-Hrr. set_solver.
    + split; [unfold queue_of; rewrite Hp; simpl; by rewrite Hr|].
      exists [], rr. split; [done|]. split; [done|]. intros x Hx. by apply elem_of_nil in Hx.
Qed.

(** What is left of the active process' slice. *)
Definition remaining (s : CfqScheduler) : Z :=
  match active_pid s with
  | Some a => match queues s !! a with Some q => 100 - used_time q | None => 0 end
  | None => 0
  end.

(** A request taken from the queue of process [p]. *)
Definition took (p : Z) (r : SchedRequest) (s s' : CfqScheduler) : Prop :=
  pid r = p ∧ p ≠ 0 ∧ queue_of (queues s) p = r :: queue_of (queues s') p ∧
  (∀ p', p' ≠ p → queue_of (queues s') p' = queue_of (queues s) p') ∧
  idle_queue s' = idle_queue s ∧ round_robin s' = round_robin s.

Lemma took_backlog p r s s' :
  took p r s s' → ∀ p', cfq_backlog s p' = of_pid p' r ++ cfq_backlog s' p'.
Proof.
  intros (Hr & H0 & Hq & Hne & Hid & _) p'. unfold cfq_backlog, of_pid. rewrite Hr, Hid.
  destruct (decide (p' = 0)), (decide (p = p')); subst; try done; simpl.
  by rewrite Hne by congruence.
Qed.

Lemma cfq_try_active_spec s : cfq_inv s →
  match cfq_try_active s with
  | (s', Some r) => ∃ p, active_pid s = Some p ∧ took p r s s' ∧ cfq_inv s' ∧
      0 ≤ remaining s' ∧ remaining s' = remaining s - 1
  | (s', None) => active_pid s' = None ∧ s' = mkCfq (queues s) None (round_robin s) (idle_queue s) ∧
      (∀ p, active_pid s = Some p → queue_of (queues s) p = [])
  end.
Proof.
  intros (Hq & Hrr & Hid & Hac). unfold cfq_try_active.
  destruct (active_pid s) as [p|] eqn:Ha; [|split; [done|split; [destruct s; naive_solver|done]]].
  destruct (Hac p eq_refl) as [q Hp]. rewrite Hp.
  destruct (Hq _ _ Hp) as (H0 & Hf & Ht & Hu).
  destruct (requests q) as [|r rest] eqn:Hr; simpl.
  { split; [done|]. split; [done|]. intros ? [= <-]. unfold queue_of. rewrite Hp. simpl. by rewrite Hr. }
  apply Forall_cons in Hf as [Hr1 Hf].
  assert (Htook : ∀ u o, took p r s (mkCfq (<[p := mkQueue rest (time_slice q) u]> (queues s)) o
                                       (round_robin s) (idle_queue s))).
  { intros u o. split; [done|]. split; [done|]. unfold queue_of. simpl. rewrite lookup_insert_eq, Hp.
    simpl. rewrite Hr. split; [done|]. split; [|done]. intros p' Hne. by rewrite lookup_insert_ne. }
  assert (Hinv : ∀ u o, 0 ≤ u < 100 → o = None ∨ o = Some p →
    cfq_inv (mkCfq (<[p := mkQueue rest (time_slice q) u]> (queues s)) o
               (round_robin s) (idle_queue s))).
  { intros u o Hu' Ho. split; [|split; [|split; [done|]]]; simpl.
    - apply map_Forall_insert_2; [|done]. split; [done|]. by split.
    - apply rotation_insert; [eauto|done].
    - destruct Ho as [->| ->]; [done|]. intros a [= <-]. rewrite lookup_insert_eq. eauto. }
  rewrite u64_add_small, Ht by lia.
  assert (Hrem : remaining s = 100 - used_time q) by (unfold remaining; by rewrite Ha, Hp).
  destruct (Z.leb_spec 100 (used_time q + 1)).
  - exists p. split; [done|]. rewrite <-Ht. split; [apply Htook|]. split; [apply Hinv; auto with lia|].
    rewrite Hrem. unfold remaining. simpl. lia.
  - exists p. split; [done|]. rewrite <-Ht. split; [apply Htook|]. split; [apply Hinv; auto with lia|].
    rewrite Hrem. unfold remaining. simpl. rewrite lookup_insert_eq. simpl. lia.
Qed.

(** How one call of [next_request] proceeds. *)
Inductive cfq_outcome (s : CfqScheduler) : CfqScheduler → option SchedRequest → Prop :=
| outcome_active p r s' :
    active_pid s = Some p → took p r s s' → 0 ≤ remaining s' → remaining s' = remaining s - 1 →
    cfq_outcome s s' (Some r)
| outcome_rotate p r s1 s' gone rest :
    (∀ a, active_pid s = Some a → queue_of (queues s) a = []) →
    round_robin s = gone ++ p :: rest → round_robin s1 = rest ++ [p] →
    (∀ p', p' ∈ gone → queue_of (queues s) p' = []) →
    (∀ p', queue_of (queues s1) p' = queue_of (queues s) p') → idle_queue s1 = idle_queue s →
    took p r s1 s' → 0 ≤ remaining s' < 100 →
    cfq_outcome s s' (Some r)
| outcome_idle r s' :
    (∀ p, queue_of (queues s) p = []) → (∀ p, queue_of (queues s') p = []) →
    idle_queue s = r :: idle_queue s' →
    cfq_outcome s s' (Some r)
| outcome_none s' :
    (∀ p, queue_of (queues s) p = []) → (∀ p, queue_of (queues s') p = []) →
    idle_queue s = [] → idle_queue s' = [] →
    cfq_outcome s s' None.

(** Two calls are enough fuel, and more changes nothing. *)
Lemma cfq_next_returns s : cfq_inv s → ∃ s' o,
  (∀ n, cfq_next (2 + n) s = Some (s', o)) ∧ cfq_inv s' ∧ cfq_outcome s s' o.
Proof.
  intros Hinv. pose proof (cfq_try_active_spec s Hinv) as Hact.
  destruct (cfq_try_active s) as [s1 [r|]] eqn:E1.
  { destruct Hact as (p & Ha & Htook & Hinv' & Hr0 & Hr). exists s1, (Some r).
    split; [intros n; simpl; by rewrite E1|]. split; [done|]. by econstructor. }
  destruct Hact as (_ & Hs1 & Hempty). destruct Hinv as (Hq & Hrr & Hid & Hac).
  pose proof (cfq_rotate_spec (round_robin s) (queues s) Hq Hrr) as Hrot.
  destruct (cfq_rotate (round_robin s) (queues s)) as [[o rr'] qs'] eqn:E2.
  destruct Hrot as (Hsub & Hrr' & Hof & Ho).
  assert (Hq' : map_Forall queue_ok qs').
  { intros p q Hp. apply Hq. by eapply lookup_weaken. }
  destruct o as [p|].
  - destruct Ho as [Hne (gone & rest & Hg & -> & Hgone)].
    set (s2 := mkCfq qs' (Some p) (rest ++ [p]) (idle_queue s)).
    assert (Hinv2 : cfq_inv s2).
    { split; [done|]. split; [done|]. split; [done|]. intros a [= <-]. unfold queue_of in Hne.
      simpl. by destruct (qs' !! p). }
    pose proof (cfq_try_active_spec s2 Hinv2) as Hact2.
    destruct (cfq_try_active s2) as [s3 [r|]] eqn:E3.
    + destruct Hact2 as (p' & [= <-] & Htook & Hinv3 & Hrem0 & Hrem). exists s3, (Some r).
      split; [intros n; cbn [Nat.add cfq_next]; rewrite E1, Hs1; cbn [round_robin queues idle_queue]|].
      { rewrite E2. fold s2. by rewrite E3. }
      split; [done|]. eapply outcome_rotate with (s1 := s2); try done.
      assert (remaining s2 ≤ 100); [|lia]. unfold remaining. simpl.
      destruct (qs' !! p) as [q|] eqn:Hp; [|lia]. destruct (Hq' _ _ Hp). lia.
    + destruct Hact2 as (_ & _ & Habs). by destruct Hne; apply Habs.
  - destruct (idle_queue s) as [|r idle] eqn:Hi.
    + exists (mkCfq qs' None rr' []), None.
      split; [intros n; simpl; rewrite E1, Hs1; simpl; by rewrite E2|]. split; [done|].
      constructor; [done| |done|done]. intros p. simpl. by rewrite Hof.
    + exists (mkCfq qs' None rr' idle), (Some r).
      split; [intros n; simpl; rewrite E1, Hs1; simpl; by rewrite E2|].
      apply Forall_cons in Hid as [? Hid]. split; [done|].
      apply outcome_idle; [done| |done]. intros p. simpl. by rewrite Hof.
Qed.

Lemma cfq_outcome_backlog s s' o : cfq_inv s → cfq_outcome s s' o →
  match o with
  | Some r => ∀ p, cfq_backlog s p = of_pid p r ++ cfq_backlog s' p
  | None => ∀ p, cfq_backlog s p = [] ∧ cfq_backlog s' p = []
  end.
Proof.
  intros (_ & _ & Hid & _) [p r s2 _ Htook _ _|p r s1 s2 gone rest _ _ _ _ Hof Hidle Htook _
                       |r s2 He He' Hi|s2 He He' Hi Hi'].
  - by eapply took_backlog.
  - intros p'. rewrite <-(took_backlog _ _ _ _ Htook). unfold cfq_backlog. by rewrite Hof, Hidle.
  - rewrite Hi in Hid. apply Forall_cons in Hid as [Hr _]. intros p. unfold cfq_backlog, of_pid.
    rewrite Hr, He, He', Hi. destruct (decide (p = 0)), (decide (0 = p)); naive_solver.
  - intros p. unfold cfq_backlog. rewrite He, He', Hi, Hi'. by case_decide.
Qed.

Lemma cfq_has_queued s :
  existsb (λ kq, negb (length (requests kq.2) =? 0)%nat) (btree_iter (queues s)) = true ↔
  ∃ p, queue_of (queues s) p ≠ [].
Proof.
  rewrite existsb_exists. unfold queue_of. split.
  - intros [[p q] [Hin Hq]]. apply list_elem_of_In, elem_of_btree_iter in Hin. exists p.
    rewrite Hin. simpl in *. by destruct (requests q).
  - intros [p Hp]. destruct (queues s !! p) as [q|] eqn:Hq; [|done]. simpl in Hp. exists (p, q).
    split; [by apply list_elem_of_In, elem_of_btree_iter|]. simpl. by destruct (requests q).
Qed.

Lemma existsb_sum {A} (f : A → nat) l :
  existsb (λ x, negb (f x =? 0)%nat) l = true ↔ (0 < sum_list (f <$> l))%nat.
Proof.
  induction l as [|x l IH]; simpl; [lia|]. rewrite orb_true_iff, IH. unfold fmap. destruct (f x); simpl; [naive_solver|]. split; [lia|by left].
Qed.

Lemma cfq_has_pending_spec s : cfq_inv s →
  has_pending s = true ↔ ∃ p, cfq_backlog s p ≠ [].
Proof.
  intros (Hq & _ & _). simpl. rewrite orb_true_iff, cfq_has_queued. unfold cfq_backlog. split.
  - intros [Hi|[p Hp]]; [exists 0; simpl; by destruct (idle_queue s)|]. exists p. case_decide; [|done].
    subst. unfold queue_of in Hp. destruct (queues s !! 0) as [q|] eqn:H0; [|done].
    by destruct (Hq _ _ H0).
  - intros [p Hp]. case_decide; [left; by destruct (idle_queue s)|right; eauto].
Qed.

#[global] Program Instance Cfq_fifo : PerProcessFifo CfqScheduler := {
  io_inv := cfq_inv;
  backlog := cfq_backlog
}.
Next Obligation. intros r s Hs. by apply cfq_add_spec. Qed.
Next Obligation. intros r s p Hs. by apply cfq_add_spec. Qed.
Next Obligation.
  intros s Hs. destruct (cfq_next_returns s Hs) as (s' & o & Hn & Hi & _).
  cbn [next_request Cfq_scheduler]. by rewrite (Hn O : cfq_next 2 s = _).
Qed.
Next Obligation.
  intros s Hs. destruct (cfq_next_returns s Hs) as (s' & o & Hn & _ & Ho).
  cbn [next_request Cfq_scheduler]. rewrite (Hn O : cfq_next 2 s = _). cbn [default].
  apply cfq_outcome_backlog in Ho; [|done]. by destruct o.
Qed.
Next Obligation. apply cfq_has_pending_spec. Qed.
Next Obligation.
  intros s _. cbn [has_pending pending_count Cfq_scheduler]. unfold cfq_count.
  rewrite orb_true_iff, (existsb_sum (λ kq, length (requests kq.2))).
  destruct (length (idle_queue s)); simpl; lia.
Qed.

(** *** No process waits for ever *)

(** Requests arriving in batches, one dispatch after each. *)
Fixpoint run_rounds {S} `{IoScheduler S} (arrivals : list (list SchedRequest)) (s : S) :
    list (option SchedRequest) :=
  match arrivals with
  | [] => []
  | batch :: arrivals =>
      let '(s, o) := next_request (foldl (λ s r, add_request r s) s batch) in
      o :: run_rounds arrivals s
  end.

(** Process [p] is served within [n] calls: what is left of the active slice and a slice
    for each process ahead of it in the rotation. *)
Definition within (n : Z) (p : Z) (s : CfqScheduler) : Prop :=
  0 ≤ remaining s ∧ ∃ ahead behind, round_robin s = ahead ++ p :: behind ∧
    remaining s + 100 * Z.of_nat (length ahead) ≤ n.

Lemma split_at_first (p x : Z) gone : ∀ ahead behind rest,
  ahead ++ p :: behind = gone ++ x :: rest → p ∉ gone → x ≠ p →
  ∃ ahead', ahead = gone ++ x :: ahead' ∧ rest = ahead' ++ p :: behind.
Proof.
  induction gone as [|g gone IH]; intros [|a ahead] behind rest; simpl; intros [= -> H]; intros Hp Hx.
  - done.
  - eauto.
  - set_solver.
  - destruct (IH ahead behind rest H) as (ahead' & -> & ->); [set_solver|done|]. eauto.
Qed.

Lemma within_add n p r s : cfq_inv s → within n p s → within n p (cfq_add r s).
Proof.
  intros Hs [Hrem (ahead & behind & Hrr & Hn)].
  destruct (cfq_add_spec r s Hs) as (_ & _ & Hact & (new & Hnew & _) & Hused).
  assert (remaining (cfq_add r s) = remaining s) as Heq.
  { unfold remaining. rewrite Hact. destruct (active_pid s) as [a|] eqn:Hsa; [|done].
    destruct (queues s !! a) as [q|] eqn:Ha.
    - destruct (Hused _ _ Ha) as (q' & -> & ->). done.
    - destruct Hs as (_ & _ & _ & Hac). destruct (Hac a Hsa); congruence. }
  rewrite <-Heq in Hrem, Hn. split; [done|]. exists ahead, (behind ++ new).
  by rewrite Hnew, Hrr, <-app_assoc.
Qed.

Lemma within_adds n p batch : ∀ s, cfq_inv s → within n p s → cfq_backlog s p ≠ [] →
  let s' := foldl (λ s r, add_request r s) s batch in
  cfq_inv s' ∧ within n p s' ∧ cfq_backlog s' p ≠ [].
Proof.
  induction batch as [|r batch IH]; intros s Hs Hw Hb; simpl; [done|].
  destruct (cfq_add_spec r s Hs) as (Hs' & Hb' & _). apply IH; [done|by apply within_add|].
  rewrite Hb'. by destruct (cfq_backlog s p).
Qed.

(** One dispatch serves the process or brings it closer. *)
Lemma within_next n p s s' o : cfq_inv s → cfq_outcome s s' o → p ≠ 0 →
  within n p s → cfq_backlog s p ≠ [] →
  ∃ r, o = Some r ∧ (pid r = p ∨ 0 < n ∧ within (n - 1) p s' ∧ cfq_backlog s' p ≠ []).
Proof.
  intros Hs Ho Hp0 [Hrem (ahead & behind & Hrr & Hn)] Hb.
  pose proof (cfq_outcome_backlog s s' o Hs Ho) as Hbl.
  assert (Hq : queue_of (queues s) p ≠ []) by (unfold cfq_backlog in Hb; by rewrite decide_False in Hb).
  assert (Hkeep : ∀ r, o = Some r → pid r ≠ p → cfq_backlog s' p ≠ []).
  { intros r -> Hr. specialize (Hbl p). unfold of_pid in Hbl.
    rewrite decide_False in Hbl by done. simpl in Hbl. by rewrite <-Hbl. }
  destruct Ho as [a r s' Ha Htook Hr0 Hr|x r s1 s' gone rest Ha Hg Hrr1 Hgone Hof Hid Htook Hr
                 |r s' He _ _|s' He _ _ _]; [| |by destruct (Hq (He p))..].
  - exists r. split; [done|]. destruct (decide (pid r = p)) as [|Hne]; [by left|right].
    split; [lia|]. split; [|by eapply Hkeep]. split; [done|]. exists ahead, behind.
    destruct Htook as (_ & _ & _ & _ & _ & ->). split; [done|]. lia.
  - exists r. split; [done|]. destruct (decide (pid r = p)) as [|Hne]; [by left|right].
    destruct Htook as (Hpid & _ & _ & _ & _ & Hrr'). rewrite Hrr in Hg.
    destruct (split_at_first p x gone ahead behind rest Hg) as (ahead' & -> & ->);
      [by intros Hin%Hgone|congruence|].
    rewrite length_app in Hn. simpl in Hn. split; [lia|]. split; [|by eapply Hkeep].
    split; [lia|]. exists ahead', (behind ++ [x]).
    rewrite Hrr', Hrr1, <-app_assoc. split; [done|]. lia.
Qed.

Lemma cfq_rounds_serve p arrivals : ∀ n s, cfq_inv s → p ≠ 0 → within n p s →
  cfq_backlog s p ≠ [] → n < Z.of_nat (length arrivals) →
  ∃ r, Some r ∈ run_rounds arrivals s ∧ pid r = p.
Proof.
  induction arrivals as [|batch arrivals IH]; intros n s Hs Hp Hw Hb Hn.
  { destruct Hw as [? (? & ? & _ & ?)]. simpl in Hn. lia. }
  destruct (within_adds n p batch s Hs Hw Hb) as (Hs1 & Hw1 & Hb1).
  cbn [run_rounds]. set (s1 := foldl _ s batch) in *.
  destruct (cfq_next_returns s1 Hs1) as (s2 & o & Hnext & Hs2 & Ho).
  cbn [next_request Cfq_scheduler]. rewrite (Hnext O : cfq_next 2 s1 = _). cbn [default].
  destruct (within_next n p s1 s2 o Hs1 Ho Hp Hw1 Hb1) as (r & -> & [Hr|(Hpos & Hw2 & Hb2)]).
  - exists r. split; [by constructor|done].
  - destruct (IH (n - 1) s2) as (r' & Hin & Hr'); try done; [simpl in Hn; lia|].
    exists r'. split; [by constructor|done].
Qed.

Lemma cfq_new_inv : cfq_inv cfq_new.
Proof.
  split; [apply map_Forall_empty|]. split; [|by split].
  split; [constructor|]. intros p. rewrite elem_of_nil. split; [done|]. by intros [].
Qed.

(** A process in the rotation is served within a slice per process of it. *)
Lemma within_all p s : cfq_inv s → p ≠ 0 → cfq_backlog s p ≠ [] →
  within (100 * Z.of_nat (length (round_robin s))) p s.
Proof.
  intros (Hq & Hrr & _ & Hac) Hp Hb. unfold cfq_backlog, queue_of in Hb.
  rewrite decide_False in Hb by done. destruct Hrr as [_ Hrr].
  assert (Hin : p ∈ round_robin s) by (apply Hrr; destruct (queues s !! p); [eauto|done]).
  apply list_elem_of_split in Hin as (ahead & behind & Heq).
  assert (0 ≤ remaining s ≤ 100) as Hrem.
  { unfold remaining. destruct (active_pid s) as [a|]; [|lia].
    destruct (queues s !! a) as [q|] eqn:Ha; [|lia]. destruct (Hq _ _ Ha) as (_ & _ & _ & ?). lia. }
  split; [lia|]. exists ahead, behind. split; [done|]. rewrite Heq, length_app. simpl. lia.
Qed.

(** ** The deadline scheduler *)

Definition side (d : Direction) (s : DeadlineScheduler) : gmap Z SchedRequest :=
  match d with DRead => read_sorted s | DWrite => write_sorted s end.

Definition side_ok (d : Direction) (m : gmap Z SchedRequest) : Prop :=
  map_Forall (λ sec r, sector r = sec ∧ direction r = d) m.

Definition deadline_inv (s : DeadlineScheduler) : Prop :=
  (∀ d, side_ok d (side d s)) ∧ write_starve_limit s = 16.

(** Everything waiting. *)
Definition dl_pending (s : DeadlineScheduler) : list SchedRequest :=
  (map_to_list (read_sorted s)).*2 ++ (map_to_list (write_sorted s)).*2.

(** The sector the elevator goes to: the first at or above the head, or else the
    lowest. *)
Definition elevator (head : Z) (m : gmap Z SchedRequest) (sec : Z) : Prop :=
  is_Some (m !! sec) ∧
  (head ≤ sec ∧ (∀ sec', is_Some (m !! sec') → head ≤ sec' → sec ≤ sec') ∨
   (∀ sec', is_Some (m !! sec') → sec' < head ∧ sec ≤ sec')).

Lemma btree_keys_sorted (m : gmap Z SchedRequest) : StronglySorted Z.le (btree_keys m).
Proof.
  unfold btree_keys. pose proof (btree_iter_sorted m) as Hs.
  induction Hs as [|[k r] l Hs IH Hf]; simpl; constructor; [done|].
  apply Forall_fmap. eapply Forall_impl; [exact Hf|]. by intros [].
Qed.

Lemma sorted_head_le l (x y : Z) : StronglySorted Z.le (x :: l) → y ∈ x :: l → x ≤ y.
Proof.
  intros [_ Hf]%StronglySorted_inv [->|Hy]%elem_of_cons; [lia|].
  by eapply Forall_forall in Hf.
Qed.

Lemma StronglySorted_filter_Z (P : Z → Prop) `{∀ x, Decision (P x)} l :
  StronglySorted Z.le l → StronglySorted Z.le (filter P l).
Proof.
  induction 1 as [|x l Hs IH Hf]; [constructor|]. rewrite filter_cons.
  case_decide; [|done]. constructor; [done|]. apply Forall_forall. intros y Hy.
  apply list_elem_of_filter in Hy as [_ Hy]. by eapply Forall_forall in Hf.
Qed.

Lemma nearest_spec head m :
  match nearest head m with
  | Some sec => elevator head m sec
  | None => m = ∅
  end.
Proof.
  unfold nearest, elevator. pose proof (btree_keys_sorted m) as Hs.
  assert (Hin : ∀ sec, sec ∈ btree_keys m ↔ is_Some (m !! sec)) by apply elem_of_btree_keys.
  pose proof (StronglySorted_filter_Z (λ s, head ≤ s) _ Hs) as Hs'.
  assert (Hin' : ∀ sec, sec ∈ filter (λ s, head ≤ s) (btree_keys m) ↔ head ≤ sec ∧ is_Some (m !! sec)).
  { intros sec. by rewrite list_elem_of_filter, Hin. }
  destruct (filter (λ s, head ≤ s) (btree_keys m)) as [|sec l].
  - assert (Hlow : ∀ sec, is_Some (m !! sec) → sec < head).
    { intros sec Hm. destruct (decide (sec < head)); [done|].
      assert (sec ∈ []) as Hx by (apply Hin'; split; [lia|done]). by apply elem_of_nil in Hx. }
    destruct (btree_keys m) as [|sec l]; simpl.
    + apply map_empty. intros sec. apply eq_None_not_Some. intros Hm%Hin. by apply elem_of_nil in Hm.
    + split; [apply Hin; by constructor|]. right. intros sec' Hm. split; [by apply Hlow|].
      eapply sorted_head_le; [done|]. by apply Hin.
  - destruct (proj1 (Hin' sec)) as [Hle Hm]; [by constructor|]. split; [done|]. left. split; [done|].
    intros sec' Hm' Hle'. eapply sorted_head_le; [done|]. by apply Hin'.
Qed.

(** No request of a side has a deadline that was over when it was submitted. *)
Definition punctual (m : gmap Z SchedRequest) : Prop :=
  ∀ sec r dl, m !! sec = Some r → deadline r = Some dl → submit_time r < dl.

Lemma dispatch_side_spec head m fifo :
  let '(m', fifo', head', o) := dispatch_side head m fifo in
  match o with
  | Some r => ∃ sec, m !! sec = Some r ∧ m' = delete sec m ∧
                     (punctual m → elevator head m sec ∧ head' = sec)
  | None => m = ∅ ∧ m' = m
  end.
Proof.
  unfold dispatch_side. destruct (overdue m fifo) as [sec|] eqn:Ho.
  - unfold overdue in Ho. destruct fifo as [|f fifo]; [done|]. simpl in Ho.
    destruct (m !! f) as [req|] eqn:Hf; [|done]. simpl in Ho.
    destruct (deadline req) as [dl|] eqn:Hd; [|done]. simpl in Ho.
    destruct (Z.leb_spec dl (submit_time req)); [|done]. simplify_eq. rewrite Hf.
    exists sec. split; [done|]. split; [done|]. intros Hp. specialize (Hp _ _ _ Hf Hd). lia.
  - pose proof (nearest_spec head m) as Hn. destruct (nearest head m) as [sec|]; [|done].
    destruct (proj1 Hn) as [r Hr]. rewrite Hr. exists sec. done.
Qed.

(** Request [r] leaves its side, and nothing else does. *)
Definition served (d : Direction) (r : SchedRequest) (s s' : DeadlineScheduler) : Prop :=
  direction r = d ∧ side d s !! sector r = Some r ∧ side d s' = delete (sector r) (side d s) ∧
  (∀ d', d' ≠ d → side d' s' = side d' s) ∧
  write_starve_limit s' = write_starve_limit s ∧
  (punctual (side d s) →
   elevator (head_position s) (side d s) (sector r) ∧ head_position s' = sector r).

Definition dispatch (d : Direction) (s : DeadlineScheduler) : DeadlineScheduler * option SchedRequest :=
  match d with DRead => dispatch_read s | DWrite => dispatch_write s end.

Lemma dispatch_spec d s : deadline_inv s →
  match dispatch d s with
  | (s', Some r) => served d r s s'
  | (s', None) => side d s = ∅ ∧ ∀ d', side d' s' = side d' s
  end ∧ serving_reads (dispatch d s).1 = serving_reads s ∧
  writes_starved (dispatch d s).1 = writes_starved s ∧
  write_starve_limit (dispatch d s).1 = write_starve_limit s.
Proof.
  intros [Hs _]. destruct d; simpl.
  - unfold dispatch_read.
    pose proof (dispatch_side_spec (head_position s) (read_sorted s) (read_fifo s)) as H.
    destruct (dispatch_side _ _ _) as [[[m f] h] [r|]]; simpl in *.
    + destruct H as (sec & Hm & -> & Hp). destruct (Hs DRead _ _ Hm) as [<- Hd].
      split; [|done]. split; [done|]. split; [done|]. split; [done|]. split; [|done].
      by intros [].
    + destruct H as [H ->]. split; [|done]. split; [done|]. by intros [].
  - unfold dispatch_write.
    pose proof (dispatch_side_spec (head_position s) (write_sorted s) (write_fifo s)) as H.
    destruct (dispatch_side _ _ _) as [[[m f] h] [r|]]; simpl in *.
    + destruct H as (sec & Hm & -> & Hp). destruct (Hs DWrite _ _ Hm) as [<- Hd].
      split; [|done]. split; [done|]. split; [done|]. split; [done|]. split; [|done].
      by intros [].
    + destruct H as [H ->]. split; [|done]. split; [done|]. by intros [].
Qed.

Lemma size_zero (m : gmap Z SchedRequest) : (size m =? 0)%nat = true ↔ m = ∅.
Proof. rewrite Nat.eqb_eq. apply map_size_empty_iff. Qed.

(** The two ways [next_request] serves: a write, or a read after which it keeps
    reading only if no write has waited for too long. *)
Definition next_cases (s : DeadlineScheduler) : Prop :=
  match deadline_next s with
  | (s', Some r) => served (direction r) r s s' ∧
      (write_sorted s ≠ ∅ → direction r = DRead →
       serving_reads s = true ∧ serving_reads s' = true ∧
       writes_starved s' = u64_add (writes_starved s) 1 ∧ writes_starved s' < 16)
  | (s', None) => (∀ d, side d s = ∅) ∧ ∀ d, side d s' = ∅
  end.

Lemma serve_writes_spec s : deadline_inv s → serving_reads s = false →
  match deadline_serve_writes s with
  | (s', Some r) => served (direction r) r s s' ∧ (write_sorted s ≠ ∅ → direction r = DWrite)
  | (s', None) => (∀ d, side d s = ∅) ∧ ∀ d, side d s' = ∅
  end.
Proof.
  intros Hs Hserv. unfold deadline_serve_writes. rewrite Hserv. simpl.
  destruct (size (write_sorted s) =? 0)%nat eqn:Hw; simpl.
  - apply size_zero in Hw. change (dispatch_read ?x) with (dispatch DRead x).
    destruct (dispatch_spec DRead (set_serving true (writes_starved s) s) Hs) as [H _].
    destruct (dispatch DRead _) as [s' [r|]].
    + assert (direction r = DRead) as -> by apply H. split; [exact H|done].
    + destruct H as [Hr He]. simpl in Hr. split; [by intros []|]. intros []; rewrite He; done.
  - assert (Hne : write_sorted s ≠ ∅) by (intros H%size_zero; congruence).
    change (dispatch_write s) with (dispatch DWrite s).
    destruct (dispatch_spec DWrite s Hs) as [H _]. destruct (dispatch DWrite s) as [s' [r|]].
    + assert (direction r = DWrite) as -> by apply H. split; [|done]. destruct (size (write_sorted s') =? 0)%nat; exact H.
    + by destruct H.
Qed.

Lemma deadline_next_spec s : deadline_inv s → next_cases s.
Proof.
  intros Hs. unfold next_cases, deadline_next.
  destruct (serving_reads s) eqn:Hserv; [|].
  2:{ pose proof (serve_writes_spec s Hs Hserv) as H.
      destruct (deadline_serve_writes s) as [s' [r|]]; [|done]. destruct H as [H Hd].
      split; [done|]. intros Hw Hr. specialize (Hd Hw). congruence. }
  destruct (size (read_sorted s) =? 0)%nat eqn:Hr; simpl.
  - pose proof (serve_writes_spec (set_serving false (writes_starved s) s) Hs eq_refl) as H.
    destruct (deadline_serve_writes _) as [s' [r|]]; [|done]. destruct H as [H Hd].
    split; [done|]. intros Hw Hrd. specialize (Hd Hw). congruence.
  - assert (Hne : read_sorted s ≠ ∅) by (intros H%size_zero; congruence).
    destruct (_ && _) eqn:Hc.
    + pose proof (serve_writes_spec (set_serving false 0 s) Hs eq_refl) as H.
      destruct (deadline_serve_writes _) as [s' [r|]]; [|done]. destruct H as [H Hd].
      split; [done|]. intros Hw Hrd. specialize (Hd Hw). congruence.
    + change (dispatch_read ?x) with (dispatch DRead x).
      destruct (dispatch_spec DRead (set_serving true (u64_add (writes_starved s) 1) s) Hs) as [H (H1 & H2 & _)].
      destruct (dispatch DRead _) as [s' [r|]]; [|by destruct H].
      assert (direction r = DRead) as -> by apply H. split; [done|]. intros Hw _. simpl in H1, H2.
      split; [done|]. split; [done|]. split; [done|].
      destruct Hs as [_ Hlim]. rewrite Hlim in Hc. rewrite H2.
      destruct (Z.leb_spec 16 (u64_add (writes_starved s) 1)); [|done].
      simpl in Hc. apply negb_false_iff, size_zero in Hc. done.
Qed.

Lemma served_inv d r s s' : deadline_inv s → served d r s s' → deadline_inv s'.
Proof.
  intros [Hs Hl] (_ & _ & Hd & Ho & Hlim & _). split; [|congruence]. intros d'.
  destruct (decide (d' = d)) as [->|Hne]; [rewrite Hd; apply map_Forall_delete, (Hs d)|].
  by rewrite Ho.
Qed.

Lemma dispatch_limit d s : write_starve_limit (dispatch d s).1 = write_starve_limit s.
Proof.
  destruct d; simpl; unfold dispatch_read, dispatch_write;
    by destruct (dispatch_side _ _ _) as [[[? ?] ?] ?].
Qed.

Lemma serve_writes_limit s : write_starve_limit (deadline_serve_writes s).1 = write_starve_limit s.
Proof.
  unfold deadline_serve_writes. destruct (negb (serving_reads s)); [|done].
  destruct (negb _); [|exact (dispatch_limit DRead (set_serving true (writes_starved s) s))].
  pose proof (dispatch_limit DWrite s) as H. simpl in H.
  destruct (dispatch_write s) as [s' o]. simpl in *. by destruct (size (write_sorted s') =? 0)%nat.
Qed.

Lemma deadline_next_inv s : deadline_inv s → deadline_inv (deadline_next s).1.
Proof.
  intros Hs. pose proof (deadline_next_spec s Hs) as H. unfold next_cases in H.
  assert (write_starve_limit (deadline_next s).1 = 16) as Hlim.
  { rewrite <-(proj2 Hs). unfold deadline_next. destruct (serving_reads s); [|apply serve_writes_limit].
    destruct (negb _); [destruct (_ && _)|]; rewrite ?serve_writes_limit; try done.
    exact (dispatch_limit DRead (set_serving true (u64_add (writes_starved s) 1) s)). }
  destruct (deadline_next s) as [s' [r|]] eqn:E; [by eapply served_inv; [|apply H]|].
  split; [|done]. intros d. simpl. rewrite (proj2 H). apply map_Forall_empty.
Qed.

Lemma deadline_add_spec r s : deadline_inv s →
  deadline_inv (deadline_add r s) ∧
  side (direction r) (deadline_add r s) = <[sector r := r]> (side (direction r) s) ∧
  (∀ d, d ≠ direction r → side d (deadline_add r s) = side d s) ∧
  serving_reads (deadline_add r s) = serving_reads s ∧
  writes_starved (deadline_add r s) = writes_starved s.
Proof.
  intros [Hs Hl]. unfold deadline_add. destruct (direction r) eqn:Hd; simpl;
    (split; [split; [|done]|split; [done|split; [by intros []|done]]]).
  - intros []; simpl; [|apply (Hs DWrite)]. apply map_Forall_insert_2; [done|apply (Hs DRead)].
  - intros []; simpl; [apply (Hs DRead)|]. apply map_Forall_insert_2; [done|apply (Hs DWrite)].
Qed.

(** *** Writes are served within sixteen dispatches *)

(** A write will be served within [n] more calls. *)
Definition write_due (n : Z) (s : DeadlineScheduler) : Prop :=
  deadline_inv s ∧ write_sorted s ≠ ∅ ∧ 0 ≤ n ∧
  (serving_reads s = true → 0 ≤ writes_starved s < 2 ^ 64 - 1 ∧ 15 - writes_starved s ≤ n).

Lemma write_due_adds n batch : ∀ s, write_due n s →
  write_due n (foldl (λ s r, add_request r s) s batch).
Proof.
  induction batch as [|r batch IH]; intros s Hw; [done|]. apply IH.
  destruct Hw as (Hs & Hne & Hn & Hst). cbn [add_request Deadline_scheduler].
  destruct (deadline_add_spec r s Hs) as (Hs' & Hadd & Hoth & Hsv & Hst').
  split; [done|]. rewrite Hsv, Hst'. split; [|done].
  change (side DWrite (deadline_add r s) ≠ ∅).
  destruct (direction r); [by rewrite (Hoth DWrite)|]. rewrite Hadd. apply insert_non_empty.
Qed.

Lemma deadline_rounds_serve arrivals : ∀ n s, write_due n s → n < Z.of_nat (length arrivals) →
  ∃ r, Some r ∈ run_rounds arrivals s ∧ direction r = DWrite.
Proof.
  induction arrivals as [|batch arrivals IH]; intros n s Hw Hn.
  { destruct Hw as (_ & _ & ? & _). simpl in Hn. lia. }
  apply (write_due_adds n batch) in Hw. cbn [run_rounds]. set (s1 := foldl _ s batch) in *.
  destruct Hw as (Hs & Hne & Hn0 & Hst). pose proof (deadline_next_inv s1 Hs) as Hs2.
  pose proof (deadline_next_spec s1 Hs) as H. unfold next_cases in H.
  cbn [next_request Deadline_scheduler]. destruct (deadline_next s1) as [s2 [r|]].
  2:{ destruct H as [H _]. by destruct Hne; apply (H DWrite). }
  destruct H as [Hserved Hcase]. destruct (direction r) eqn:Hd.
  - destruct (Hcase Hne eq_refl) as (Hsv & Hsv2 & Hw2 & Hlt). destruct (Hst Hsv) as [Hw1 Hle].
    rewrite u64_add_small in Hw2 by lia.
    destruct (IH (n - 1) s2) as (r' & Hin & Hr'); [|simpl in Hn; lia|].
    + split; [done|]. destruct Hserved as (_ & _ & _ & Ho & _).
      specialize (Ho DWrite ltac:(done)). simpl in Ho. rewrite Ho. split; [done|].
      split; [lia|]. intros _. lia.
    + exists r'. split; [by constructor|done].
  - exists r. split; [by constructor|done].
Qed.

(** *** Accounting *)

Lemma values_insert_new (m : gmap Z SchedRequest) k r :
  m !! k = None → (map_to_list (<[k := r]> m)).*2 ≡ₚ r :: (map_to_list m).*2.
Proof. intros Hk. by rewrite map_to_list_insert. Qed.

Lemma values_insert_old (m : gmap Z SchedRequest) k r r0 :
  m !! k = Some r0 → r0 :: (map_to_list (<[k := r]> m)).*2 ≡ₚ r :: (map_to_list m).*2.
Proof.
  intros Hk. rewrite <-insert_delete_eq, values_insert_new by apply lookup_delete_eq.
  rewrite <-(map_to_list_delete m k r0 Hk). apply perm_swap.
Qed.

Lemma values_delete (m : gmap Z SchedRequest) k r :
  m !! k = Some r → (map_to_list m).*2 ≡ₚ r :: (map_to_list (delete k m)).*2.
Proof. intros Hk. by rewrite <-(map_to_list_delete m k r Hk). Qed.

Definition values (d : Direction) (s : DeadlineScheduler) : list SchedRequest :=
  (map_to_list (side d s)).*2.

Lemma dl_pending_split d s d' : d' ≠ d → dl_pending s ≡ₚ values d s ++ values d' s.
Proof. intros Hne. destruct d, d'; try done. apply Permutation_app_comm. Qed.

Lemma dl_pending_add r s : deadline_inv s →
  match side (direction r) s !! sector r with
  | None => dl_pending (deadline_add r s) ≡ₚ r :: dl_pending s
  | Some r0 => r0 :: dl_pending (deadline_add r s) ≡ₚ r :: dl_pending s
  end.
Proof.
  intros Hs. destruct (deadline_add_spec r s Hs) as (_ & Hadd & Hoth & _).
  set (d' := match direction r with DRead => DWrite | DWrite => DRead end).
  assert (Hd' : d' ≠ direction r) by (unfold d'; by destruct (direction r)).
  assert (Hv : values d' (deadline_add r s) = values d' s) by (unfold values; by rewrite Hoth).
  pose proof (dl_pending_split (direction r) (deadline_add r s) d' Hd') as H1.
  pose proof (dl_pending_split (direction r) s d' Hd') as H2. rewrite Hv in H1.
  destruct (side (direction r) s !! sector r) as [r0|] eqn:Hr; rewrite H1, H2.
  - rewrite !app_comm_cons. unfold values at 1. rewrite Hadd.
    by rewrite (values_insert_old _ _ r r0).
  - rewrite app_comm_cons. unfold values at 1. rewrite Hadd. by rewrite values_insert_new.
Qed.

Lemma dl_pending_served d r s s' : served d r s s' → dl_pending s ≡ₚ r :: dl_pending s'.
Proof.
  intros (_ & Hr & Hdel & Hoth & _).
  set (d' := match d with DRead => DWrite | DWrite => DRead end).
  assert (Hd' : d' ≠ d) by (unfold d'; by destruct d).
  rewrite (dl_pending_split d s d' Hd'), (dl_pending_split d s' d' Hd'), app_comm_cons. unfold values. rewrite Hdel, (Hoth d') by done.
  by rewrite (values_delete _ _ _ Hr).
Qed.

Lemma deadline_run_inv calls g :
  deadline_inv (io_state g) → deadline_inv (io_state (run_ops io_step calls g)).
Proof.
  intros Hg. apply (run_ops_invariant io_step (λ g, deadline_inv (io_state g))); [|done].
  intros [r|] g' Hg'; simpl; [by apply deadline_add_spec|].
  pose proof (deadline_next_inv _ Hg') as H. by destruct (deadline_next (io_state g')) as [s [r|]].
Qed.

Lemma deadline_new_inv : deadline_inv deadline_new.
Proof. split; [|done]. intros []; apply map_Forall_empty. Qed.

(** The counter of starved writes is at most the number of calls. *)
Lemma dispatch_starved d s : writes_starved (dispatch d s).1 = writes_starved s.
Proof.
  destruct d; simpl; unfold dispatch_read, dispatch_write;
    by destruct (dispatch_side _ _ _) as [[[? ?] ?] ?].
Qed.

Lemma serve_writes_starved s : writes_starved (deadline_serve_writes s).1 = writes_starved s.
Proof.
  unfold deadline_serve_writes. destruct (negb (serving_reads s)); [|done].
  destruct (negb _); [|exact (dispatch_starved DRead (set_serving true (writes_starved s) s))].
  pose proof (dispatch_starved DWrite s) as H. simpl in H.
  destruct (dispatch_write s) as [s' o]. simpl in *. by destruct (size (write_sorted s') =? 0)%nat.
Qed.

Lemma deadline_next_starved s :
  0 ≤ writes_starved s → 0 ≤ writes_starved (deadline_next s).1 ≤ writes_starved s + 1.
Proof.
  intros H0. unfold deadline_next. destruct (serving_reads s); [|rewrite serve_writes_starved; lia].
  destruct (negb _); [destruct (_ && _)|]; rewrite ?serve_writes_starved; simpl; try lia.
  pose proof (dispatch_starved DRead (set_serving true (u64_add (writes_starved s) 1) s)) as H.
  simpl in H. rewrite H. unfold u64_add, u64, wrap.
  pose proof (Z.mod_pos_bound (writes_starved s + 1) (2 ^ 64)).
  pose proof (Z.mod_le (writes_starved s + 1) (2 ^ 64)). lia.
Qed.

Lemma deadline_add_starved r s : writes_starved (deadline_add r s) = writes_starved s.
Proof. unfold deadline_add. by destruct (direction r). Qed.

Lemma deadline_run_starved calls : ∀ g, 0 ≤ writes_starved (io_state g) →
  0 ≤ writes_starved (io_state (run_ops io_step calls g))
    ≤ writes_starved (io_state g) + Z.of_nat (length calls).
Proof.
  induction calls as [|c calls IH]; intros g Hg; [simpl; lia|].
  assert (0 ≤ writes_starved (io_state (io_step c g)) ≤ writes_starved (io_state g) + 1) as Hc.
  { destruct c as [r|]; simpl; [rewrite deadline_add_starved; lia|].
    pose proof (deadline_next_starved _ Hg) as H.
    by destruct (deadline_next (io_state g)) as [s [r|]]. }
  specialize (IH (io_step c g) (proj1 Hc)). cbn [run_ops foldl] in *. simpl length. lia.
Qed.

Lemma cfq_run_inv calls :
  cfq_inv (io_state (run_ops io_step calls (mkIo cfq_new [] []))).
Proof.
  assert (Hg : ledger_ok (run_ops io_step calls (mkIo cfq_new [] []))); [|apply Hg].
  apply io_run_ok. split; [apply cfq_new_inv|]. intros p. unfold backlog. simpl.
  unfold cfq_backlog. by case_decide.
Qed.

(** ** Properties *)

(** No request is lost, duplicated or reordered within its process: over every
    history of submissions and dispatches, [NoOpScheduler] dispatches exactly in
    submission order, and under [CfqScheduler] the requests of each process are those
    dispatched so far, in order, followed by its backlog; when CFQ has nothing to
    dispatch every submitted request has been dispatched, and [has_pending] and
    [pending_count] say so. *)
Theorem requests_fifo calls :
  (let g := run_ops io_step calls (mkIo noop_new [] []) in
   submitted g = dispatched g ++ noop_queue (io_state g)) ∧
  (let g := run_ops io_step calls (mkIo cfq_new [] []) in
   (∀ p, pid_filter p (submitted g) = pid_filter p (dispatched g) ++ cfq_backlog (io_state g) p) ∧
   (has_pending (io_state g) = true ↔ ∃ p, cfq_backlog (io_state g) p ≠ []) ∧
   (has_pending (io_state g) = true ↔ (0 < pending_count (io_state g))%nat) ∧
   ((next_request (io_state g)).2 = None →
    ∀ p, pid_filter p (submitted g) = pid_filter p (dispatched g))).
Proof.
  split.
  - apply (run_ops_invariant io_step (λ g, submitted g = dispatched g ++ noop_queue (io_state g))); [|done].
    intros [r|] [[[|x q]] sub dis]; simpl; intros ->; rewrite <-?app_assoc; done.
  - intros g. assert (Hg : ledger_ok g).
    { apply io_run_ok. split; [apply cfq_new_inv|]. intros p. unfold backlog. simpl.
      unfold cfq_backlog. by case_decide. }
    destruct Hg as [Hi Hg]. split; [exact Hg|]. split; [by apply cfq_has_pending_spec|].
    split; [by apply pending_count_spec|]. intros Hnone p. rewrite Hg.
    pose proof (next_backlog _ Hi) as Hb. destruct (next_request (io_state g)) as [s' o].
    simpl in Hnone. rewrite Hnone in Hb. by rewrite (proj1 (Hb p)), app_nil_r.
Qed.

(** [C40] Nobody waits for ever. Under [CfqScheduler] a process with a backlog is served
    within a hundred dispatches per process in the rotation, whatever requests keep
    arriving before each dispatch. Under [DeadlineScheduler] a pending write is not
    held up by reads: one of sixteen consecutive dispatches serves a write. *)
Theorem no_starvation calls arrivals p :
  (let s := io_state (run_ops io_step calls (mkIo cfq_new [] [])) in
   p ≠ 0 → cfq_backlog s p ≠ [] →
   100 * Z.of_nat (length (round_robin s)) < Z.of_nat (length arrivals) →
   ∃ r, Some r ∈ run_rounds arrivals s ∧ pid r = p) ∧
  (Z.of_nat (length calls) < 2 ^ 64 - 1 →
   let s := io_state (run_ops io_step calls (mkIo deadline_new [] [])) in
   write_sorted s ≠ ∅ → (16 ≤ length arrivals)%nat →
   ∃ r, Some r ∈ run_rounds arrivals s ∧ direction r = DWrite).
Proof.
  split.
  - intros s Hp Hb Hlen. pose proof (cfq_run_inv calls) as Hs.
    by eapply cfq_rounds_serve; [exact Hs|exact Hp|by apply within_all|exact Hb|exact Hlen].
  - intros Hc s Hw Hlen.
    pose proof (deadline_run_inv calls (mkIo deadline_new [] []) deadline_new_inv) as Hs.
    pose proof (deadline_run_starved calls (mkIo deadline_new [] []) ltac:(simpl; lia)) as Hst.
    simpl in Hst. apply (deadline_rounds_serve arrivals 15); [|lia].
    split; [exact Hs|]. split; [exact Hw|]. split; [lia|]. intros _. unfold s. lia.
Qed.

Definition w_read (p sec : Z) : SchedRequest := mkSched (br_read sec 1) Normal 0 None p.
Definition w_write (p sec : Z) : SchedRequest := mkSched (br_write sec [1]) Normal 0 None p.

(** Two processes under CFQ; and a write under a stream of reads. *)
Lemma no_starvation_witness :
  (∃ r, Some r ∈ run_rounds (replicate 201 [w_read 1 5])
          (io_state (run_ops io_step [CallAdd (w_read 1 3); CallAdd (w_read 2 4)] (mkIo cfq_new [] [])))
        ∧ pid r = 2) ∧
  (∃ r, Some r ∈ run_rounds (replicate 16 [w_read 1 5])
          (io_state (run_ops io_step [CallAdd (w_write 1 3)] (mkIo deadline_new [] [])))
        ∧ direction r = DWrite).
Proof.
  split.
  - apply (no_starvation [CallAdd (w_read 1 3); CallAdd (w_read 2 4)] (replicate 201 [w_read 1 5]) 2).
    + done.
    + vm_compute. done.
    + vm_compute. done.
  - apply (no_starvation [CallAdd (w_write 1 3)] (replicate 16 [w_read 1 5]) 1).
    + vm_compute. done.
    + intros H. apply (f_equal (λ m : gmap Z SchedRequest, size m)) in H. vm_compute in H. done.
    + vm_compute. lia.
Defined.

(** The deadline scheduler after any history: a submission joins what is pending,
    except that it replaces a pending request of its direction at the same sector,
    which is never dispatched; a dispatch takes exactly one pending request, and
    returns nothing exactly when none is pending. When no deadline lies before its own
    submission, deadlines play no role: the request served is the one at or above the
    head position with the lowest sector, or else the lowest of all (the elevator), and
    the head moves there. And once it serves writes it serves nothing else until none
    is left. *)
Theorem deadline_correct calls :
  let s := io_state (run_ops io_step calls (mkIo deadline_new [] [])) in
  (∀ r, match side (direction r) s !! sector r with
        | None => dl_pending (add_request r s) ≡ₚ r :: dl_pending s
        | Some r0 => r0 :: dl_pending (add_request r s) ≡ₚ r :: dl_pending s
        end) ∧
  match next_request s with
  | (s', Some r) =>
      dl_pending s ≡ₚ r :: dl_pending s' ∧
      (punctual (side (direction r) s) →
       elevator (head_position s) (side (direction r) s) (sector r) ∧ head_position s' = sector r) ∧
      (serving_reads s = false → write_sorted s ≠ ∅ → direction r = DWrite)
  | (s', None) => dl_pending s = [] ∧ dl_pending s' = []
  end ∧
  pending_count s = length (dl_pending s).
Proof.
  intros s. pose proof (deadline_run_inv calls (mkIo deadline_new [] []) deadline_new_inv) as Hs.
  fold s in Hs. split; [intros r; by apply dl_pending_add|]. split.
  - pose proof (deadline_next_spec s Hs) as H. unfold next_cases in H. simpl.
    destruct (deadline_next s) as [s' [r|]].
    + destruct H as [Hserved Hcase]. split; [by eapply dl_pending_served|]. split; [apply Hserved|].
      intros Hsv Hw. destruct (direction r); [|done]. destruct (Hcase Hw eq_refl). congruence.
    + destruct H as [H H']. unfold dl_pending. pose proof (H DRead). pose proof (H DWrite).
      pose proof (H' DRead). pose proof (H' DWrite). simpl in *.
      by repeat match goal with E : _ = ∅ |- _ => rewrite E; clear E end.
  - simpl. unfold dl_pending. by rewrite length_app, !length_fmap, !length_map_to_list.
Qed.
