(* ===== verification/Caps.v ===== *)
(** * Caps: the capability table ([kernel/src/cap/mod.rs])

    Tokens and their generation, operation sets, the table with its owner index
    and audit log, and every operation of [CapabilityTable]. The cycle counter
    and the time-stamp counter are hardware: an operation takes an [Env] with
    the readings it makes, in order. The [crypto] branch of [generate_token] is
    compiled out (the feature is not declared in [kernel/Cargo.toml]), so tokens
    come from the SplitMix64 mixing of the counter. *)

From Stdlib Require Import ZArith Lia.
From stdpp Require Import strings gmap.
From S2P Require Import Prelude.
From S2P Require Import Ids.

(** ** Tokens *)

Definition as_bytes (t : CapabilityToken) : list Z :=
  to_le_bytes 8 (tok0 t) ++ to_le_bytes 8 (tok1 t) ++
  to_le_bytes 8 (tok2 t) ++ to_le_bytes 8 (tok3 t).

(** ** Operation sets: 32-bit masks *)

Record Operations := mkOps { op_bits : Z }.

#[global] Instance Operations_eq_dec : EqDecision Operations.
Proof. solve_decision. Defined.

Definition NONE := mkOps 0.
Definition READ := mkOps (Z.shiftl 1 0).
Definition WRITE := mkOps (Z.shiftl 1 1).
Definition EXECUTE := mkOps (Z.shiftl 1 2).
Definition GRANT := mkOps (Z.shiftl 1 3).
Definition REVOKE := mkOps (Z.shiftl 1 4).
Definition ALL := mkOps 0x1F.

Definition union (a b : Operations) : Operations := mkOps (Z.lor (op_bits a) (op_bits b)).
Definition intersection (a b : Operations) : Operations :=
  mkOps (Z.land (op_bits a) (op_bits b)).
Definition contains (a b : Operations) : bool :=
  Z.land (op_bits a) (op_bits b) =? op_bits b.
Definition is_empty (a : Operations) : bool := op_bits a =? 0.

(** ** Entries, errors, audit log *)

Record ResourceId := mkRes { resource_type : string; res_id : Z }.

#[global] Instance ResourceId_eq_dec : EqDecision ResourceId.
Proof. solve_decision. Defined.

Record CapabilityEntry := mkEntry {
  ce_token : CapabilityToken;
  ce_owner : ProcessId;
  ce_resource : ResourceId;
  ce_operations : Operations;
  ce_parent : option CapabilityToken;
  ce_revoked : bool;
  ce_created_at : Z;
  ce_expires_at : option Z
}.

Inductive CapError :=
| TokenNotFound
| NotOwner
| Revoked
| Expired
| OperationNotAllowed
| TableFull
| InvalidCapability.

Inductive AuditOperation := ACreate | AGrant | ACheck | ARevoke.
Inductive AuditResult := ASuccess | ADenied.

Record AuditEntry := mkAudit {
  ae_operation : AuditOperation;
  ae_token : CapabilityToken;
  ae_actor : ProcessId;
  ae_resource : option ResourceId;
  ae_result : AuditResult;
  ae_timestamp : Z
}.

Record AuditLog := mkLog { log_entries : list AuditEntry; log_max : nat }.

Definition AuditLog_new : AuditLog := mkLog [] (Z.to_nat 10000).

Definition log (l : AuditLog) (e : AuditEntry) : AuditLog :=
  mkLog (push_bounded (log_max l) (log_entries l) e) (log_max l).

(** ** The table *)

Record CapabilityTable := mkTable {
  entries : gmap CapabilityToken CapabilityEntry;
  by_owner : gmap ProcessId (list CapabilityToken);
  audit_log : AuditLog;
  token_counter : Z;
  max_capabilities : nat
}.

Definition new (max_capabilities : nat) : CapabilityTable :=
  mkTable ∅ ∅ AuditLog_new 0 max_capabilities.

Definition set_entries (f : gmap CapabilityToken CapabilityEntry →
    gmap CapabilityToken CapabilityEntry) (s : CapabilityTable) : CapabilityTable :=
  mkTable (f (entries s)) (by_owner s) (audit_log s) (token_counter s) (max_capabilities s).

Definition cap_op := op CapabilityTable CapError.

(** The hardware readings of one call: the time-stamp counter read by
    [generate_token] and the successive values of [read_cycle_counter]. *)
Record Env := mkEnv { rdtsc : Z; cycles : nat → Z }.

(** *** Token generation *)

(** The SplitMix64 finaliser. *)
Definition mix (x : Z) : Z :=
  let x := u64_add x 0x9E3779B97F4A7C15 in
  let x := u64_mul (Z.lxor x (Z.shiftr x 30)) 0xBF58476D1CE4E5B9 in
  let x := u64_mul (Z.lxor x (Z.shiftr x 27)) 0x94D049BB133111EB in
  Z.lxor x (Z.shiftr x 31).

Definition token_of (count ts : Z) : CapabilityToken :=
  mkToken (mix count)
          (mix (Z.lxor count ts))
          (mix (u64_add ts count))
          (mix (u64_add (u64_mul count ts) 0x243F6A8885A308D3)).

Definition generate_token (ts : Z) : cap_op CapabilityToken := λ s,
  let count := u64_add (token_counter s) 1 in
  (mkTable (entries s) (by_owner s) (audit_log s) count (max_capabilities s),
   Ok (token_of count ts)).

(** *** Internal helpers *)

Definition get_entry (token : CapabilityToken) : cap_op CapabilityEntry := λ s,
  (s, ok_or (entries s !! token) TokenNotFound).

Definition insert_entry (entry : CapabilityEntry) : cap_op unit := λ s,
  if decide (max_capabilities s ≤ size (entries s))%nat then (s, Err TableFull)
  else
    let token := ce_token entry in
    let owner := ce_owner entry in
    (mkTable (<[token := entry]> (entries s))
             (<[owner := default [] (by_owner s !! owner) ++ [token]]> (by_owner s))
             (audit_log s) (token_counter s) (max_capabilities s),
     Ok tt).

Definition audit (e : AuditEntry) : cap_op unit :=
  op_modify (λ s, mkTable (entries s) (by_owner s) (log (audit_log s) e)
                          (token_counter s) (max_capabilities s)).

Definition log_failure (token : CapabilityToken) (actor : ProcessId)
    (o : AuditOperation) (now : Z) : cap_op unit :=
  audit (mkAudit o token actor None ADenied now).

Definition set_revoked (e : CapabilityEntry) : CapabilityEntry :=
  mkEntry (ce_token e) (ce_owner e) (ce_resource e) (ce_operations e) (ce_parent e)
          true (ce_created_at e) (ce_expires_at e).

(** [if let Some(e) = entries.get_mut(&t) { e.revoked = true; }] *)
Definition mark_revoked (t : CapabilityToken)
    (es : gmap CapabilityToken CapabilityEntry) : gmap CapabilityToken CapabilityEntry :=
  alter set_revoked t es.

(** The tokens [revoke_derived] collects before recursing, in table order. *)
Definition tokens_to_revoke (parent : CapabilityToken)
    (es : gmap CapabilityToken CapabilityEntry) : list CapabilityToken :=
  (filter (λ kv, ce_parent kv.2 = Some parent ∧ ce_revoked kv.2 = false)
          (btree_iter es)).*1.

(** The recursion marks at least one entry per level, so a fuel above the number
    of unrevoked entries is never exhausted ([revoke_derived_returns]). *)
Fixpoint revoke_derived (fuel : nat) (parent : CapabilityToken)
    (es : gmap CapabilityToken CapabilityEntry) :
    option (gmap CapabilityToken CapabilityEntry) :=
  match fuel with
  | O => None
  | S fuel =>
      foldl (λ acc child,
               match acc with
               | Some es => revoke_derived fuel child (mark_revoked child es)
               | None => None
               end)
            (Some es) (tokens_to_revoke parent es)
  end.

(** *** Public operations *)

Definition create_root (env : Env) (owner : ProcessId) (resource : ResourceId)
    (operations : Operations) : cap_op CapabilityToken := (
  let! token := generate_token (rdtsc env) in
  let entry := mkEntry token owner resource operations None false (cycles env 0) None in
  do! insert_entry entry in
  do! audit (mkAudit ACreate token owner (Some resource) ASuccess (cycles env 1)) in
  op_ret token)%op.

Definition grant (env : Env) (granter : ProcessId) (parent_token : CapabilityToken)
    (grantee : ProcessId) (operations : Operations) : cap_op CapabilityToken := (
  let! parent := get_entry parent_token in
  do! op_guard (bool_decide (ce_owner parent ≠ granter)) NotOwner in
  do! op_guard (negb (contains (ce_operations parent) GRANT)) OperationNotAllowed in
  let new_operations := intersection operations (ce_operations parent) in
  let! token := generate_token (rdtsc env) in
  let entry := mkEntry token grantee (ce_resource parent) new_operations
                       (Some parent_token) false (cycles env 0) (ce_expires_at parent) in
  do! insert_entry entry in
  do! audit (mkAudit AGrant token granter (Some (ce_resource parent)) ASuccess
                     (cycles env 1)) in
  op_ret token)%op.

(** [check] reads the counter for the comparison only when the entry expires;
    a denial reads it (again) for its log entry. *)
Definition check (env : Env) (process : ProcessId) (token : CapabilityToken)
    (operation : Operations) : cap_op unit := (
  let! entry := get_entry token in
  if bool_decide (ce_owner entry ≠ process) then
    do! log_failure token process ACheck (cycles env 0) in op_err NotOwner
  else if ce_revoked entry then
    do! log_failure token process ACheck (cycles env 0) in op_err Revoked
  else
    let expired := match ce_expires_at entry with
                   | Some expires => expires <? cycles env 0
                   | None => false
                   end in
    let reads := match ce_expires_at entry with Some _ => 1%nat | None => 0%nat end in
    if expired then
      do! log_failure token process ACheck (cycles env reads) in op_err Expired
    else if negb (contains (ce_operations entry) operation) then
      do! log_failure token process ACheck (cycles env reads) in op_err OperationNotAllowed
    else op_ret tt)%op.

Definition revoke (env : Env) (revoker : ProcessId) (token : CapabilityToken) :
    cap_op unit := (
  let! entry := get_entry token in
  do! op_guard (bool_decide (ce_owner entry ≠ revoker)) NotOwner in
  do! op_modify (set_entries (mark_revoked token)) in
  do! op_modify (set_entries (λ es,
        default es (revoke_derived (S (size es)) token es))) in
  do! audit (mkAudit ARevoke token revoker (Some (ce_resource entry)) ASuccess
                     (cycles env 0)) in
  op_ret tt)%op.

Definition get_resource (token : CapabilityToken) : cap_op ResourceId := (
  let! entry := get_entry token in
  op_ret (ce_resource entry))%op.

(** *** Calls, for statements about whole histories *)

Inductive cap_call :=
| CallCreate (owner : ProcessId) (resource : ResourceId) (operations : Operations)
| CallGrant (granter : ProcessId) (parent : CapabilityToken) (grantee : ProcessId)
            (operations : Operations)
| CallCheck (process : ProcessId) (token : CapabilityToken) (operation : Operations)
| CallRevoke (revoker : ProcessId) (token : CapabilityToken).

Definition cap_step (c : Env * cap_call) (s : CapabilityTable) : CapabilityTable :=
  match c.2 with
  | CallCreate o r ops => (create_root c.1 o r ops s).1
  | CallGrant g p e ops => (grant c.1 g p e ops s).1
  | CallCheck p t o => (check c.1 p t o s).1
  | CallRevoke r t => (revoke c.1 r t s).1
  end.

(** The tests of the source file. *)
Example test_capability_attenuation :
  let env := mkEnv 7 (λ _, 0) in
  let owner := mkPid 1 in
  let grantee := mkPid 2 in
  let '(s1, r1) := create_root env owner (mkRes "test" 42) ALL (new 100) in
  match r1 with
  | Ok parent =>
      let '(s2, r2) := grant env owner parent grantee READ s1 in
      match r2 with
      | Ok child => (check env grantee child READ s2).2 = Ok tt ∧
                    (check env grantee child WRITE s2).2 = Err OperationNotAllowed
      | Err _ => False
      end
  | Err _ => False
  end.
Proof. vm_compute. done. Qed.

(** ** Token generation never repeats a token *)

Lemma xorshift_inj k x y :
  0 < k → is_u64 x → is_u64 y →
  Z.lxor x (Z.shiftr x k) = Z.lxor y (Z.shiftr y k) → x = y.
Proof.
  intros Hk Hx Hy Heq. apply Z.bits_inj'. intros i Hi.
  assert (Hd : ∀ n j, 0 ≤ j → 64 ≤ j + Z.of_nat n → Z.testbit x j = Z.testbit y j).
  { induction n as [|n IH]; intros j Hj Hn.
    - rewrite (proj1 (is_u64_testbit x (proj1 Hx)) Hx), (proj1 (is_u64_testbit y (proj1 Hy)) Hy)
        by lia. done.
    - pose proof (f_equal (λ z, Z.testbit z j) Heq) as Hb. simpl in Hb.
      rewrite !Z.lxor_spec, !Z.shiftr_spec in Hb by done.
      rewrite (IH (j + k)) in Hb by lia.
      destruct (Z.testbit x j), (Z.testbit y j), (Z.testbit y (j + k)); done. }
  apply (Hd (Z.to_nat 64)); lia.
Qed.

(** Multiplying by an odd constant is invertible modulo [2^64]. *)
Lemma u64_mul_inj m m' x y :
  u64 (m * m') = 1 → is_u64 x → is_u64 y → u64_mul x m = u64_mul y m → x = y.
Proof.
  intros Hinv Hx Hy Heq.
  assert (Hback : ∀ z, is_u64 z → u64 (u64_mul z m * m') = z).
  { intros z Hz. unfold u64_mul, u64, wrap in *.
    rewrite Zmult_mod_idemp_l, <-Z.mul_assoc, <-Zmult_mod_idemp_r, Hinv, Z.mul_1_r.
    by apply Z.mod_small. }
  rewrite <-(Hback x Hx), <-(Hback y Hy). by rewrite Heq.
Qed.

Lemma u64_add_inj c x y :
  is_u64 x → is_u64 y → u64_add x c = u64_add y c → x = y.
Proof.
  intros Hx Hy Heq. unfold u64_add in Heq. apply (f_equal (λ z, u64 (z - c))) in Heq.
  unfold u64, wrap in Heq. rewrite !Zminus_mod_idemp_l in Heq.
  replace (x + c - c) with x in Heq by lia. replace (y + c - c) with y in Heq by lia.
  by rewrite !Z.mod_small in Heq.
Qed.

Lemma xorshift_u64 k x : 0 ≤ k → is_u64 x → is_u64 (Z.lxor x (Z.shiftr x k)).
Proof.
  intros Hk Hx. assert (0 ≤ Z.lxor x (Z.shiftr x k)).
  { apply Z.lxor_nonneg. rewrite Z.shiftr_nonneg. unfold is_u64 in Hx. lia. }
  apply is_u64_testbit; [done|]. intros j Hj. rewrite Z.lxor_spec, Z.shiftr_spec by lia.
  by rewrite !(proj1 (is_u64_testbit x (proj1 Hx)) Hx) by lia.
Qed.

Lemma mix_inj x y : is_u64 x → is_u64 y → mix x = mix y → x = y.
Proof.
  intros Hx Hy H. unfold mix in H.
  apply xorshift_inj in H; [|lia|apply u64_range..].
  apply (u64_mul_inj _ 0x319642b2d24d8ec3) in H;
    [|reflexivity|apply xorshift_u64; [lia|apply u64_range]..].
  apply xorshift_inj in H; [|lia|apply u64_range..].
  apply (u64_mul_inj _ 0x96de1b173f119089) in H;
    [|reflexivity|apply xorshift_u64; [lia|apply u64_range]..].
  apply xorshift_inj in H; [|lia|apply u64_range..].
  by apply u64_add_inj in H.
Qed.

Lemma token_of_inj c c' ts ts' :
  is_u64 c → is_u64 c' → token_of c ts = token_of c' ts' → c = c'.
Proof. intros Hc Hc' [= H _ _ _]. by apply mix_inj. Qed.

(** ** Operation sets *)

Lemma contains_spec a b :
  contains a b = true ↔
  ∀ i, 0 ≤ i → Z.testbit (op_bits b) i = true → Z.testbit (op_bits a) i = true.
Proof.
  unfold contains. rewrite Z.eqb_eq. split.
  - intros H i Hi Hb. rewrite <-H, Z.land_spec in Hb. by apply andb_true_iff in Hb as [? _].
  - intros H. apply Z.bits_inj'. intros i Hi. rewrite Z.land_spec.
    specialize (H i Hi). destruct (Z.testbit (op_bits b) i); [by rewrite H|].
    by rewrite andb_false_r.
Qed.

#[global] Instance contains_refl : Reflexive (λ a b, contains a b = true).
Proof. intros a. by apply contains_spec. Qed.

#[global] Instance contains_trans : Transitive (λ a b, contains a b = true).
Proof. intros a b c. rewrite !contains_spec. naive_solver. Qed.

Lemma intersection_contained a b : contains b (intersection a b) = true.
Proof.
  apply contains_spec. intros i Hi. simpl. rewrite Z.land_spec.
  by intros [_ ?]%andb_true_iff.
Qed.

(** ** Recursive revocation *)

Section revocation.

Abbreviation table := (gmap CapabilityToken CapabilityEntry).

(** The tokens of unrevoked entries: what is left to revoke. *)
Definition live (es : table) : gset CapabilityToken :=
  dom (filter (λ kv, ce_revoked kv.2 = false) es).

(** [es] with the entries of [S] marked. *)
Definition revoke_set (S : gset CapabilityToken) (es : table) : table :=
  map_imap (λ t e, Some (if decide (t ∈ S) then set_revoked e else e)) es.

(** Entries reachable from [p] along unrevoked child edges. *)
Inductive live_descendant (es : table) (p : CapabilityToken) : CapabilityToken → Prop :=
| ld_child t e :
    es !! t = Some e → ce_parent e = Some p → ce_revoked e = false →
    live_descendant es p t
| ld_step q t e :
    live_descendant es p q →
    es !! t = Some e → ce_parent e = Some q → ce_revoked e = false →
    live_descendant es p t.

Lemma elem_of_live es t : t ∈ live es ↔ ∃ e, es !! t = Some e ∧ ce_revoked e = false.
Proof.
  unfold live. rewrite elem_of_dom. split.
  - intros [e [??]%map_lookup_filter_Some]. eauto.
  - intros (e & ? & ?). exists e. by apply map_lookup_filter_Some.
Qed.

Lemma lookup_revoke_set S es t :
  revoke_set S es !! t
  = (λ e, if decide (t ∈ S) then set_revoked e else e) <$> es !! t.
Proof. unfold revoke_set. rewrite map_lookup_imap. by destruct (es !! t). Qed.

Lemma revoke_set_union S1 S2 es : revoke_set S2 (revoke_set S1 es) = revoke_set (S1 ∪ S2) es.
Proof.
  apply map_eq. intros t. rewrite !lookup_revoke_set. destruct (es !! t) as [e|]; [|done].
  simpl. f_equal. repeat case_decide; try done; set_solver.
Qed.

Lemma revoke_set_empty es : revoke_set ∅ es = es.
Proof.
  apply map_eq. intros t. rewrite lookup_revoke_set. destruct (es !! t); [|done].
  simpl. by rewrite decide_False by set_solver.
Qed.

Lemma mark_revoked_set t es : mark_revoked t es = revoke_set {[t]} es.
Proof.
  apply map_eq. intros u. unfold mark_revoked. rewrite lookup_revoke_set.
  destruct (decide (u = t)) as [->|Hne].
  - rewrite lookup_alter_eq. destruct (es !! t); [|done]. simpl. by rewrite decide_True by set_solver.
  - rewrite lookup_alter_ne by done. destruct (es !! u); [|done].
    simpl. by rewrite decide_False by set_solver.
Qed.

Lemma live_revoke_set S es : live (revoke_set S es) = live es ∖ S.
Proof.
  apply set_eq. intros t. rewrite elem_of_difference, !elem_of_live, lookup_revoke_set.
  destruct (es !! t) as [e|]; simpl; [|naive_solver].
  case_decide; naive_solver.
Qed.

Lemma size_revoke_set S es : size (revoke_set S es) = size es.
Proof.
  rewrite <-!size_dom. f_equal. apply set_eq. intros t.
  by rewrite !elem_of_dom, lookup_revoke_set, fmap_is_Some.
Qed.

Lemma elem_of_tokens_to_revoke p es t :
  t ∈ tokens_to_revoke p es ↔
  ∃ e, es !! t = Some e ∧ ce_parent e = Some p ∧ ce_revoked e = false.
Proof.
  unfold tokens_to_revoke. rewrite list_elem_of_fmap. split.
  - intros ([u e] & -> & [[??] ?%elem_of_btree_iter]%list_elem_of_filter). eauto.
  - intros (e & ? & ? & ?). exists (t, e). split; [done|].
    apply list_elem_of_filter. split; [done|]. by apply elem_of_btree_iter.
Qed.

(** [S] is closed: a child of [p] or of a member of [S] is revoked or in [S]. *)
Definition child_closed (es : table) (P : CapabilityToken → Prop)
    (S : gset CapabilityToken) : Prop :=
  ∀ t e q, es !! t = Some e → ce_parent e = Some q → P q → ce_revoked e = true ∨ t ∈ S.

(** The members of [S] are live descendants of [p]. *)
Definition descends (es : table) (p : CapabilityToken) (S : gset CapabilityToken) : Prop :=
  ∀ t, t ∈ S → live_descendant es p t.

Lemma live_descendant_mono S es p t :
  live_descendant (revoke_set S es) p t → live_descendant es p t.
Proof.
  induction 1 as [t e He Hp Hr|q t e _ IH He Hp Hr];
    rewrite lookup_revoke_set in He;
    destruct (es !! t) as [e'|] eqn:E; simplify_eq/=; case_decide; simplify_eq/=.
  - by apply ld_child with e'.
  - by apply ld_step with q e'.
Qed.

Lemma live_descendant_trans es p q t :
  live_descendant es p q → live_descendant es q t → live_descendant es p t.
Proof. intros Hpq. induction 1; eauto using ld_step. Qed.

(** What one run of the recursion computes. *)
Definition revokes (es : table) (p : CapabilityToken) (res : option table) : Prop :=
  ∃ S, res = Some (revoke_set S es) ∧ S ⊆ live es ∧ descends es p S ∧
       child_closed es (λ q, q = p ∨ q ∈ S) S.

(** The loop over the collected children, given the recursive calls. *)
Lemma revoke_loop fuel p es :
  (∀ q es', (size (live es') < fuel)%nat → revokes es' q (revoke_derived fuel q es')) →
  ∀ cs S,
  (size (live (revoke_set S es)) ≤ fuel)%nat →
  Forall (λ c, c ∈ live es ∧ live_descendant es p c) cs →
  (cs ≠ [] → size (live (revoke_set S es)) = fuel →
   ∃ c cs', cs = c :: cs' ∧ c ∈ live (revoke_set S es)) →
  S ⊆ live es → descends es p S → child_closed es (λ q, q ∈ S) S →
  ∃ S', S ⊆ S' ∧ (∀ c, c ∈ cs → c ∈ S') ∧
    foldl (λ acc child,
             match acc with
             | Some es => revoke_derived fuel child (mark_revoked child es)
             | None => None
             end) (Some (revoke_set S es)) cs = Some (revoke_set S' es) ∧
    S' ⊆ live es ∧ descends es p S' ∧ child_closed es (λ q, q ∈ S') S'.
Proof.
  intros IH cs. induction cs as [|c cs IHcs]; intros S Hsz Hcs Hhd HS Hd Hcl; simpl.
  { exists S. split_and!; [done|set_solver|done..]. }
  apply Forall_cons in Hcs as [[Hc Hcd] Hcs].
  rewrite mark_revoked_set, revoke_set_union.
  assert (Hlt : (size (live (revoke_set (S ∪ {[c]}) es)) < fuel)%nat).
  { rewrite live_revoke_set in *.
    assert (size (live es ∖ (S ∪ {[c]})) ≤ size (live es ∖ S))%nat as Hle
      by (apply subseteq_size; set_solver).
    destruct (decide (size (live es ∖ S) = fuel)) as [He|]; [|lia].
    destruct Hhd as (c' & cs' & [= <- <-] & Hc'); [done|lia|].
    assert (size (live es ∖ (S ∪ {[c]})) < size (live es ∖ S))%nat; [|lia].
    apply subset_size. set_solver. }
  destruct (IH c _ Hlt) as (T & -> & HT & HTd & HTc).
  rewrite revoke_set_union.
  destruct (IHcs (S ∪ {[c]} ∪ T)) as (S' & HS' & Hcs' & Hf & ?&?&?); clear IHcs.
  - rewrite live_revoke_set in *.
    assert (size (live es ∖ (S ∪ {[c]} ∪ T)) ≤ size (live es ∖ (S ∪ {[c]})))%nat as Hle
      by (apply subseteq_size; set_solver). lia.
  - done.
  - intros _ He. rewrite live_revoke_set in *.
    assert (size (live es ∖ (S ∪ {[c]} ∪ T)) ≤ size (live es ∖ (S ∪ {[c]})))%nat as Hle
      by (apply subseteq_size; set_solver). lia.
  - rewrite live_revoke_set in HT. set_solver.
  - intros t. rewrite !elem_of_union, elem_of_singleton. intros [[Ht| ->]|Ht]; [by apply Hd|done|].
    eapply live_descendant_trans; [done|]. by eapply live_descendant_mono, HTd.
  - intros t e q He Hp [[Hq|Hq]%elem_of_union|Hq]%elem_of_union.
    + destruct (Hcl t e q He Hp Hq); [by left|right; set_solver].
    + apply elem_of_singleton in Hq as ->.
      destruct (decide (t ∈ S ∪ {[c]})); [right; set_solver|].
      destruct (HTc t e c) as [?|?]; [|done|by left|by left|right; set_solver].
      rewrite lookup_revoke_set, He; simpl. by rewrite decide_False.
    + destruct (decide (t ∈ S ∪ {[c]})); [right; set_solver|].
      destruct (HTc t e q) as [?|?]; [|done|by right|by left|right; set_solver].
      rewrite lookup_revoke_set, He; simpl. by rewrite decide_False.
  - exists S'. split_and!; [set_solver| |done..].
    intros c'. rewrite elem_of_cons. intros [->|?]; [set_solver|auto].
Qed.

(** With fuel above the number of live entries the recursion returns, and it
    marks a child-closed set of live descendants. *)
Lemma revoke_derived_returns fuel : ∀ p es,
  (size (live es) < fuel)%nat → revokes es p (revoke_derived fuel p es).
Proof.
  induction fuel as [|fuel IH]; intros p es Hsz; [lia|]. simpl.
  assert (Hcs : Forall (λ c, c ∈ live es ∧ live_descendant es p c) (tokens_to_revoke p es)).
  { apply Forall_forall. intros c (e & He & Hp & Hr)%elem_of_tokens_to_revoke. split.
    - apply elem_of_live. eauto.
    - by apply ld_child with e. }
  destruct (revoke_loop fuel p es IH (tokens_to_revoke p es) ∅)
    as (S & _ & Hin & Hf & HS & Hd & Hcl).
  - rewrite revoke_set_empty. lia.
  - done.
  - intros Hne _. destruct (tokens_to_revoke p es) as [|c cs]; [done|].
    exists c, cs. split; [done|]. rewrite revoke_set_empty. by apply Forall_cons in Hcs as [[??] _].
  - set_solver.
  - intros t. set_solver.
  - intros t e q _ _. set_solver.
  - rewrite revoke_set_empty in Hf. exists S. split_and!; [done..|].
    intros t e q He Hp [->|Hq]; [|by apply (Hcl t e q)].
    destruct (ce_revoked e) eqn:Hr; [by left|right].
    apply Hin, elem_of_tokens_to_revoke. eauto.
Qed.

(** The marked set is exactly the set of live descendants. *)
Lemma revoke_derived_spec p es :
  ∃ S, revoke_derived (Datatypes.S (size es)) p es = Some (revoke_set S es) ∧
       ∀ t, t ∈ S ↔ live_descendant es p t.
Proof.
  destruct (revoke_derived_returns (Datatypes.S (size es)) p es) as (S & Hf & HS & Hd & Hcl).
  { assert (size (live es) ≤ size es)%nat; [|lia].
    unfold live. rewrite size_dom. apply map_size_filter. }
  exists S. split; [done|]. intros t. split; [apply Hd|].
  induction 1 as [t e He Hp Hr|q t e Hq IH He Hp Hr].
  - destruct (Hcl t e p He Hp) as [?|?]; [by left|congruence|done].
  - destruct (Hcl t e q He Hp) as [?|?]; [by right|congruence|done].
Qed.

End revocation.

(** ** The table invariant *)

(** [t] was generated, by the [c]-th call of [generate_token]. *)
Definition born (c : Z) (t : CapabilityToken) : Prop := ∃ ts, t = token_of c ts.

(** [e] is a legal derivation of the entry [p] of the table: fewer rights, the same
    resource and expiry, and a token generated later. *)
Record derives (s : CapabilityTable) (e : CapabilityEntry) (p : CapabilityToken) : Prop := {
  dv_parent : ∃ ep, entries s !! p = Some ep ∧
    contains (ce_operations ep) (ce_operations e) = true ∧
    ce_resource e = ce_resource ep ∧ ce_expires_at e = ce_expires_at ep;
  dv_later : ∃ c c', 0 ≤ c' < c ∧ c < 2 ^ 64 ∧ born c (ce_token e) ∧ born c' p
}.

Record ct_wf (s : CapabilityTable) : Prop := {
  wf_key : ∀ t e, entries s !! t = Some e → ce_token e = t;
  wf_counter : 0 ≤ token_counter s < 2 ^ 64;
  wf_born : ∀ t e, entries s !! t = Some e → ∃ c, 1 ≤ c ≤ token_counter s ∧ born c t;
  wf_derives : ∀ t e p, entries s !! t = Some e → ce_parent e = Some p → derives s e p;
  wf_owner : ∀ o t, t ∈ default [] (by_owner s !! o) ↔
                    ∃ e, entries s !! t = Some e ∧ ce_owner e = o;
  wf_owner_nodup : ∀ o, NoDup (default [] (by_owner s !! o));
  wf_size : (size (entries s) ≤ max_capabilities s)%nat;
  wf_log : (length (log_entries (audit_log s)) ≤ log_max (audit_log s))%nat ∧
           log_max (audit_log s) = Z.to_nat 10000
}.

Lemma cap_new_wf mx : ct_wf (new mx).
Proof.
  constructor; simpl; try (intros; by simplify_map_eq); try lia.
  - intros o t. rewrite lookup_empty; simpl. split; [by intros ?%elem_of_nil|].
    intros (e & He & _). by rewrite lookup_empty in He.
  - intros o. rewrite lookup_empty. constructor.
  - rewrite map_size_empty. lia.
Qed.

Lemma fresh_token s ts :
  ct_wf s → token_counter s + 1 < 2 ^ 64 →
  entries s !! token_of (token_counter s + 1) ts = None.
Proof.
  intros Hwf Hc. destruct (entries s !! _) as [e|] eqn:He; [|done]. exfalso.
  destruct (wf_born s Hwf _ _ He) as (c & Hc' & ts' & Ht).
  pose proof (wf_counter s Hwf).
  apply token_of_inj in Ht; unfold is_u64; lia.
Qed.

Lemma log_bound l e :
  (length (log_entries l) ≤ log_max l)%nat ∧ log_max l = Z.to_nat 10000 →
  (length (log_entries (log l e)) ≤ log_max (log l e))%nat ∧
  log_max (log l e) = Z.to_nat 10000.
Proof.
  intros [Hl Hm]. split; [|done]. simpl.
  etrans; [by apply length_push_bounded|]. lia.
Qed.

(** Logging alone. *)
Lemma audit_wf s e : ct_wf s → ct_wf (audit e s).1.
Proof.
  intros []. constructor; simpl; try done; [|by apply log_bound].
  intros t en p He Hp. destruct (wf_derives0 t en p He Hp). by constructor.
Qed.

(** A generated token that is then not used. *)
Lemma bump_wf s ts :
  ct_wf s → token_counter s + 1 < 2 ^ 64 → ct_wf (generate_token ts s).1.
Proof.
  intros [] Hc. constructor; simpl; try done.
  - rewrite u64_add_small; lia.
  - intros t e He. destruct (wf_born0 t e He) as (c & ? & ?). exists c.
    rewrite u64_add_small by lia. split; [lia|done].
  - intros t en p He Hp. destruct (wf_derives0 t en p He Hp). by constructor.
Qed.

(** Inserting an entry for the token just generated. *)
Lemma insert_wf s ts e :
  ct_wf s → token_counter s + 1 < 2 ^ 64 →
  ce_token e = token_of (token_counter s + 1) ts →
  (size (entries s) < max_capabilities s)%nat →
  (∀ p, ce_parent e = Some p → ∃ ep, entries s !! p = Some ep ∧
    contains (ce_operations ep) (ce_operations e) = true ∧
    ce_resource e = ce_resource ep ∧ ce_expires_at e = ce_expires_at ep) →
  ct_wf (insert_entry e (generate_token ts s).1).1.
Proof.
  intros Hwf Hc Htok Hsz Hpar.
  assert (Hfresh : entries s !! ce_token e = None).
  { rewrite Htok. by apply fresh_token. }
  destruct Hwf as [Hkey Hcnt Hborn Hder Hown Hnd Hsize Hlog].
  unfold insert_entry, generate_token; simpl. rewrite decide_False by lia. simpl.
  rewrite u64_add_small by lia. constructor; simpl; try done.
  - intros t en [[<- <-]|[Hne ?]]%lookup_insert_Some; eauto.
  - lia.
  - intros t en [[<- <-]|[Hne He]]%lookup_insert_Some.
    + exists (token_counter s + 1). split; [lia|]. by exists ts.
    + destruct (Hborn t en He) as (c & ? & ?). exists c. split; [lia|done].
  - intros t en p He Hp.
    assert (Hold : ∀ q eq, entries s !! q = Some eq → <[ce_token e:=e]> (entries s) !! q = Some eq).
    { intros q eq Hq. rewrite lookup_insert_ne; [done|]. intros <-. by rewrite Hfresh in Hq. }
    apply lookup_insert_Some in He as [[<- <-]|[Hne He]].
    + destruct (Hpar p Hp) as (ep & Hep & ? & ? & ?). constructor; simpl; [eauto 10|].
      destruct (Hborn p ep Hep) as (c' & ? & ?).
      exists (token_counter s + 1), c'. split_and!; [lia..| |done]. by exists ts.
    + destruct (Hder t en p He Hp) as [(ep & ? & ?) ?]. constructor; simpl; eauto.
  - intros o t. destruct (decide (o = ce_owner e)) as [->|Hne].
    + rewrite lookup_insert_eq; simpl. rewrite elem_of_app, Hown, list_elem_of_singleton. split.
      * intros [(en & He & Ho)| ->].
        -- exists en. split; [|done]. rewrite lookup_insert_ne; [done|].
           intros <-. by rewrite Hfresh in He.
        -- exists e. by rewrite lookup_insert_eq.
      * intros (en & [[<- <-]|[??]]%lookup_insert_Some & Ho); [by right|left; eauto].
    + rewrite lookup_insert_ne by done. rewrite Hown. split.
      * intros (en & He & Ho). exists en. split; [|done]. rewrite lookup_insert_ne; [done|].
        intros <-. by rewrite Hfresh in He.
      * intros (en & [[<- <-]|[??]]%lookup_insert_Some & Ho); [done|eauto].
  - intros o. destruct (decide (o = ce_owner e)) as [->|Hne].
    + rewrite lookup_insert_eq; simpl. apply NoDup_app. split_and!; [done| |apply NoDup_singleton].
      intros t Ht ->%list_elem_of_singleton. apply Hown in Ht as (en & He & _).
      by rewrite Hfresh in He.
    + by rewrite lookup_insert_ne.
  - rewrite map_size_insert_None by done. lia.
Qed.

(** Marking entries keeps every clause: revocation only sets a flag. *)
Lemma revoke_set_wf s S : ct_wf s → ct_wf (set_entries (revoke_set S) s).
Proof.
  intros [Hkey Hcnt Hborn Hder Hown Hnd Hsize Hlog].
  assert (Hlk : ∀ t e', revoke_set S (entries s) !! t = Some e' →
    ∃ e, entries s !! t = Some e ∧ (e' = e ∨ e' = set_revoked e)).
  { intros t e'. rewrite lookup_revoke_set. destruct (entries s !! t) as [e|]; [|done].
    simpl. intros [= <-]. exists e. split; [done|]. case_decide; auto. }
  assert (Hlk' : ∀ t e, entries s !! t = Some e → ∃ e',
    revoke_set S (entries s) !! t = Some e' ∧ (e' = e ∨ e' = set_revoked e)).
  { intros t e He. rewrite lookup_revoke_set, He. simpl. eexists. split; [done|].
    case_decide; auto. }
  constructor; simpl; try done.
  - intros t e' (e & He & [-> | ->])%Hlk; simpl; eauto.
  - intros t e' (e & He & _)%Hlk. eauto.
  - intros t e' p (e & He & Hc)%Hlk Hp.
    assert (ce_parent e = Some p) as Hp' by (by destruct Hc as [-> | ->]).
    destruct (Hder t e p He Hp') as [(ep & Hep & Hops & Hres & Hexp) Hlater].
    destruct (Hlk' p ep Hep) as (ep' & Hep' & Hc').
    constructor; [exists ep'|]; destruct Hc as [-> | ->], Hc' as [-> | ->]; simpl; eauto.
  - intros o t. rewrite Hown. split.
    + intros (e & He & Ho). destruct (Hlk' t e He) as (e' & ? & [-> | ->]); eauto.
    + intros (e' & (e & He & [-> | ->])%Hlk & Ho); simpl in Ho; eauto.
  - by rewrite size_revoke_set.
Qed.

(** ** What each operation does *)

Lemma set_entries_ext f g s : f (entries s) = g (entries s) → set_entries f s = set_entries g s.
Proof. unfold set_entries. congruence. Qed.

(** [revoke] in closed form. *)
Lemma revoke_effect env r t s :
  match entries s !! t with
  | None => revoke env r t s = (s, Err TokenNotFound)
  | Some e =>
      if decide (ce_owner e = r) then
        ∃ S, (∀ u, u ∈ S ↔ u = t ∨ live_descendant (mark_revoked t (entries s)) t u) ∧
        revoke env r t s
        = ((audit (mkAudit ARevoke t r (Some (ce_resource e)) ASuccess (cycles env 0))
                  (set_entries (revoke_set S) s)).1, Ok tt)
      else revoke env r t s = (s, Err NotOwner)
  end.
Proof.
  unfold revoke, get_entry, op_bind. destruct (entries s !! t) as [e|] eqn:He; simpl; [|done].
  case_decide as Ho.
  - unfold op_guard. rewrite bool_decide_false by naive_solver.
    destruct (revoke_derived_spec t (mark_revoked t (entries s))) as (S & Hf & HS).
    exists ({[t]} ∪ S). split; [set_solver|].
    assert (Hs : set_entries (λ es : gmap CapabilityToken CapabilityEntry,
                   default es (revoke_derived (Datatypes.S (size es)) t es))
                   (set_entries (mark_revoked t) s)
                 = set_entries (revoke_set ({[t]} ∪ S)) s).
    { unfold set_entries at 1; cbn [set_entries entries by_owner audit_log token_counter max_capabilities].
      unfold set_entries.
      rewrite Hf, mark_revoked_set. cbn [default]. by rewrite revoke_set_union. }
    exact (f_equal (λ x, ((audit (mkAudit ARevoke t r (Some (ce_resource e)) ASuccess
                                         (cycles env 0)) x).1, Ok tt)) Hs).
  - unfold op_guard. by rewrite bool_decide_true by done.
Qed.

Lemma create_root_effect env o r ops s :
  let s1 := (generate_token (rdtsc env) s).1 in
  let t := token_of (u64_add (token_counter s) 1) (rdtsc env) in
  let e := mkEntry t o r ops None false (cycles env 0) None in
  create_root env o r ops s
  = if decide (max_capabilities s ≤ size (entries s))%nat then (s1, Err TableFull)
    else ((audit (mkAudit ACreate t o (Some r) ASuccess (cycles env 1))
                 (insert_entry e s1).1).1, Ok t).
Proof.
  unfold create_root, generate_token, op_bind, insert_entry; simpl. by case_decide.
Qed.

Lemma grant_effect env g p ge ops s :
  grant env g p ge ops s
  = match entries s !! p with
    | None => (s, Err TokenNotFound)
    | Some ep =>
        if decide (ce_owner ep = g) then
          if contains (ce_operations ep) GRANT then
            let s1 := (generate_token (rdtsc env) s).1 in
            let t := token_of (u64_add (token_counter s) 1) (rdtsc env) in
            let e := mkEntry t ge (ce_resource ep)
                             (intersection ops (ce_operations ep)) (Some p) false
                             (cycles env 0) (ce_expires_at ep) in
            if decide (max_capabilities s ≤ size (entries s))%nat then (s1, Err TableFull)
            else ((audit (mkAudit AGrant t g (Some (ce_resource ep)) ASuccess (cycles env 1))
                         (insert_entry e s1).1).1, Ok t)
          else (s, Err OperationNotAllowed)
        else (s, Err NotOwner)
    end.
Proof.
  unfold grant, get_entry, op_bind, op_guard.
  destruct (entries s !! p) as [ep|] eqn:He; simpl; [|done].
  case_decide as Ho.
  - rewrite bool_decide_false by naive_solver.
    destruct (contains (ce_operations ep) GRANT); simpl; [|done].
    unfold insert_entry; simpl. by case_decide.
  - by rewrite bool_decide_true by done.
Qed.

(** A check changes the log at most. *)
Lemma check_effect env p t o s :
  (check env p t o s).1 = s ∨ ∃ e, (check env p t o s).1 = (audit e s).1.
Proof.
  unfold check, get_entry, op_bind, log_failure. destruct (entries s !! t) as [e|]; simpl; [|eauto].
  repeat case_match; simplify_eq/=; eauto.
Qed.

Lemma cap_step_wf c s :
  ct_wf s → token_counter s + 1 < 2 ^ 64 →
  ct_wf (cap_step c s) ∧
  token_counter s ≤ token_counter (cap_step c s) ≤ token_counter s + 1.
Proof.
  intros Hwf Hc. pose proof (wf_counter s Hwf).
  destruct c as [env [o r ops|g p ge ops|p t o|r t]]; unfold cap_step; simpl.
  - rewrite create_root_effect. case_decide; simpl.
    + split; [by apply (bump_wf s (rdtsc env))|]. rewrite u64_add_small; lia.
    + split.
      * apply audit_wf, (insert_wf s (rdtsc env)); simpl; try done; [|lia].
        by rewrite u64_add_small by lia.
      * unfold insert_entry; simpl. rewrite decide_False by lia. simpl.
        rewrite u64_add_small; lia.
  - rewrite grant_effect. destruct (entries s !! p) as [ep|] eqn:Hep; simpl; [|auto with lia].
    case_decide; [|simpl; auto with lia].
    destruct (contains (ce_operations ep) GRANT); [|simpl; auto with lia].
    simpl. case_decide; simpl.
    + split; [by apply (bump_wf s (rdtsc env))|]. rewrite u64_add_small; lia.
    + split.
      * apply audit_wf, (insert_wf s (rdtsc env)); simpl; try done; [|lia|].
        -- by rewrite u64_add_small by lia.
        -- intros q [= <-]. exists ep. split_and!; [done| |done..].
           apply intersection_contained.
      * unfold insert_entry; simpl. rewrite decide_False by lia. simpl.
        rewrite u64_add_small; lia.
  - destruct (check_effect env p t o s) as [->|[e ->]]; [auto with lia|].
    split; [by apply audit_wf|]. simpl. lia.
  - pose proof (revoke_effect env r t s) as He. destruct (entries s !! t) as [e|].
    + case_decide; [|rewrite He; simpl; auto with lia].
      destruct He as (S & _ & ->). simpl. split; [|lia].
      by apply (audit_wf (set_entries (revoke_set S) s)), revoke_set_wf.
    + rewrite He. simpl. auto with lia.
Qed.

(** Histories of fewer than [2^64] calls. *)
Lemma cap_run_wf calls s :
  ct_wf s → token_counter s + Z.of_nat (length calls) < 2 ^ 64 →
  ct_wf (run_ops cap_step calls s).
Proof.
  revert s. induction calls as [|c calls IH]; intros s Hwf Hn; simpl in *; [done|].
  destruct (cap_step_wf c s) as [Hwf' Hc']; [done|lia|]. apply IH; [done|lia].
Qed.

Lemma cap_run_counter calls s :
  ct_wf s → token_counter s + Z.of_nat (length calls) < 2 ^ 64 →
  token_counter s ≤ token_counter (run_ops cap_step calls s)
                  ≤ token_counter s + Z.of_nat (length calls).
Proof.
  revert s. induction calls as [|c calls IH]; intros s Hwf Hn; simpl in *; [lia|].
  destruct (cap_step_wf c s) as [Hwf' Hc']; [done|lia|].
  specialize (IH (cap_step c s) Hwf'). lia.
Qed.

(** ** Reaching the table through histories *)

(** Entries are never removed, and a call that keeps an entry keeps its fields
    except for the revocation flag, which it can only set. *)
Definition entry_kept (s s' : CapabilityTable) : Prop :=
  ∀ t e, entries s !! t = Some e →
  ∃ e', entries s' !! t = Some e' ∧ (e' = e ∨ e' = set_revoked e).

#[global] Instance entry_kept_refl : Reflexive entry_kept.
Proof. intros s t e He. eauto. Qed.

#[global] Instance entry_kept_trans : Transitive entry_kept.
Proof.
  intros s1 s2 s3 H12 H23 t e He.
  destruct (H12 t e He) as (e2 & He2 & Hc2). destruct (H23 t e2 He2) as (e3 & He3 & Hc3).
  exists e3. split; [done|]. destruct Hc2 as [-> | ->], Hc3 as [-> | ->]; auto.
Qed.

(** How a call changes the entries: not at all, by one new entry under a fresh
    token, or by marking a set. *)
Inductive entries_step (c : cap_call) (es : gmap CapabilityToken CapabilityEntry) :
    gmap CapabilityToken CapabilityEntry → Prop :=
| es_same : entries_step c es es
| es_insert t e :
    es !! t = None → ce_revoked e = false →
    (∀ p, ce_parent e = Some p → is_Some (es !! p) ∧ ∃ g ge ops, c = CallGrant g p ge ops) →
    entries_step c es (<[t := e]> es)
| es_revoke r t S :
    c = CallRevoke r t → (∀ u, u ∈ S ↔ u = t ∨ live_descendant (mark_revoked t es) t u) →
    entries_step c es (revoke_set S es).

Lemma cap_step_entries c s :
  ct_wf s → token_counter s + 1 < 2 ^ 64 →
  entries_step c.2 (entries s) (entries (cap_step c s)).
Proof.
  intros Hwf Hc. pose proof (wf_counter s Hwf) as Hcnt.
  pose proof (λ ts, fresh_token s ts Hwf Hc) as Hfresh.
  destruct c as [env [o r ops|g p ge ops|p t o|r t]]; unfold cap_step; simpl.
  - rewrite create_root_effect, u64_add_small by lia. case_decide; [constructor|].
    unfold insert_entry; simpl. rewrite decide_False by done. by constructor.
  - rewrite grant_effect, u64_add_small by lia.
    destruct (entries s !! p) as [ep|] eqn:Hep; [|constructor].
    case_decide; [|constructor]. destruct (contains (ce_operations ep) GRANT); [|constructor].
    simpl. case_decide; [constructor|].
    unfold insert_entry; simpl. rewrite decide_False by done. constructor; [done..|].
    simpl. intros ? [= <-]. eauto 10.
  - destruct (check_effect env p t o s) as [->|[e ->]]; constructor.
  - pose proof (revoke_effect env r t s) as He.
    destruct (entries s !! t) as [e|]; [|rewrite He; constructor].
    case_decide; [|rewrite He; constructor].
    destruct He as (S & HS & ->). by apply (es_revoke _ _ r t).
Qed.

Lemma cap_step_kept c s :
  ct_wf s → token_counter s + 1 < 2 ^ 64 → entry_kept s (cap_step c s).
Proof.
  intros Hwf Hc t e He.
  destruct (cap_step_entries c s Hwf Hc) as [|u eu Hu _ _|r u S _ _].
  - eauto.
  - exists e. split; [|by left]. rewrite lookup_insert_ne; [done|]. intros <-. by rewrite Hu in He.
  - rewrite lookup_revoke_set, He. simpl. eexists. split; [done|]. case_decide; auto.
Qed.

Lemma cap_run_kept calls s :
  ct_wf s → token_counter s + Z.of_nat (length calls) < 2 ^ 64 →
  entry_kept s (run_ops cap_step calls s).
Proof.
  revert s. induction calls as [|c calls IH]; intros s Hwf Hn; simpl in *; [done|].
  destruct (cap_step_wf c s) as [Hwf' Hc']; [done|lia|].
  etrans; [apply cap_step_kept; [done|lia]|]. apply IH; [done|lia].
Qed.

(** What makes a check succeed, on one entry. *)
Definition admits (now : Z) (p : ProcessId) (o : Operations) (e : CapabilityEntry) : Prop :=
  ce_owner e = p ∧ ce_revoked e = false ∧
  (∀ x, ce_expires_at e = Some x → now ≤ x) ∧ contains (ce_operations e) o = true.

Lemma check_ok_iff env p t o s :
  (check env p t o s).2 = Ok tt ↔ ∃ e, entries s !! t = Some e ∧ admits (cycles env 0) p o e.
Proof.
  unfold check, get_entry, op_bind, log_failure, admits.
  destruct (entries s !! t) as [e|]; simpl; [|naive_solver].
  case_bool_decide as Ho; simpl; [split; [done|]; naive_solver|].
  destruct (ce_revoked e) eqn:Hr; simpl; [naive_solver congruence|].
  destruct (ce_expires_at e) as [x|] eqn:Hx.
  - destruct (Z.ltb_spec x (cycles env 0)); simpl.
    + split; [done|]. intros (e' & [= <-] & _ & _ & Hle & _).
      specialize (Hle x Hx). lia.
    + destruct (contains (ce_operations e) o) eqn:Hc; simpl; [|naive_solver congruence].
      split; [|done]. intros _. exists e. split_and!; try done. intros ??. simplify_eq. lia.
  - destruct (contains (ce_operations e) o) eqn:Hc; simpl; [|naive_solver congruence].
    split; [|done]. intros _. exists e. split_and!; try done. intros ??. simplify_eq.
Qed.

Lemma check_revoked env p t o s e :
  entries s !! t = Some e → ce_revoked e = true → (check env p t o s).2 ≠ Ok tt.
Proof.
  intros He Hr (e' & He' & _ & Hr' & _)%check_ok_iff. congruence.
Qed.

(** ** Derivation trees *)

(** [t] derives from [p], through any number of grants. *)
Inductive descendant (es : gmap CapabilityToken CapabilityEntry) (p : CapabilityToken) :
    CapabilityToken → Prop :=
| de_child t e : es !! t = Some e → ce_parent e = Some p → descendant es p t
| de_step q t e : descendant es p q → es !! t = Some e → ce_parent e = Some q → descendant es p t.

(** A child of a revoked entry is revoked. *)
Definition revoked_closed (es : gmap CapabilityToken CapabilityEntry) : Prop :=
  ∀ t e q eq, es !! t = Some e → ce_parent e = Some q → es !! q = Some eq →
  ce_revoked eq = true → ce_revoked e = true.

Lemma born_inj c c' t : is_u64 c → is_u64 c' → born c t → born c' t → c = c'.
Proof. intros ?? [ts ->] [ts' H]. by eapply token_of_inj. Qed.

(** A descendant is generated after its ancestors. *)
Lemma descendant_later s a t :
  ct_wf s → descendant (entries s) a t →
  ∀ c c', is_u64 c → is_u64 c' → born c t → born c' a → c' < c.
Proof.
  intros Hwf Hd.
  assert (Hstep : ∀ t e p, entries s !! t = Some e → ce_parent e = Some p →
    ∀ c c', is_u64 c → is_u64 c' → born c t → born c' p → c' < c).
  { intros u e p He Hp c c' Hc Hc' Hb Hb'.
    destruct (wf_derives s Hwf u e p He Hp) as [_ (d & d' & ? & ? & Hd1 & Hd2)].
    rewrite (wf_key s Hwf u e He) in Hd1.
    rewrite (born_inj c d u), (born_inj c' d' p); unfold is_u64 in *; try done; lia. }
  induction Hd as [t e He Hp|q t e Hd IH He Hp]; [eauto|].
  intros c c' Hc Hc' Hb Hb'.
  destruct (wf_derives s Hwf t e q He Hp) as [(eq & Hq & _) _].
  destruct (wf_born s Hwf q eq Hq) as (k & Hk & Hbk).
  pose proof (wf_counter s Hwf).
  assert (is_u64 k) by (unfold is_u64; lia).
  specialize (Hstep t e q He Hp c k). specialize (IH k c'). intuition lia.
Qed.

Lemma descendant_confined s a t :
  ct_wf s → descendant (entries s) a t →
  ∃ ea et, entries s !! a = Some ea ∧ entries s !! t = Some et ∧
    contains (ce_operations ea) (ce_operations et) = true ∧
    ce_resource et = ce_resource ea ∧ ce_expires_at et = ce_expires_at ea.
Proof.
  intros Hwf. induction 1 as [t e He Hp|q t e Hd IH He Hp];
    destruct (wf_derives s Hwf t e _ He Hp) as [(ep & Hep & Hops & Hres & Hexp) _].
  - eauto 10.
  - destruct IH as (ea & eq & Ha & Hq & Hops' & Hres' & Hexp'). simplify_eq.
    exists ea, e. split_and!; [done..| |congruence|congruence].
    exact (contains_trans _ _ _ Hops' Hops).
Qed.

(** Marking a token and its live descendants leaves no live child of a revoked
    entry, and covers every descendant. *)
Lemma revoke_set_closed es t S :
  revoked_closed es →
  (∀ u, u ∈ S ↔ u = t ∨ live_descendant (mark_revoked t es) t u) →
  revoked_closed (revoke_set S es).
Proof.
  intros Hcl HS u e q eq He Hp Hq Hr.
  rewrite lookup_revoke_set in He, Hq.
  destruct (es !! u) as [e0|] eqn:Hu; [|done]. destruct (es !! q) as [q0|] eqn:Hq0; [|done].
  simplify_eq/=. destruct (decide (u ∈ S)) as [|Hnu]; [done|].
  destruct (ce_revoked e0) eqn:Hr0; [done|]. exfalso. apply Hnu, HS. right.
  assert (u ≠ t) by (intros ->; apply Hnu, HS; by left).
  assert (Hm : mark_revoked t es !! u = Some e0)
    by (unfold mark_revoked; by rewrite lookup_alter_ne).
  destruct (decide (q ∈ S)) as [[->|Hl]%HS|].
  - by apply ld_child with e0.
  - by apply ld_step with q e0.
  - by rewrite (Hcl u e0 q q0 Hu Hp Hq0 Hr) in Hr0.
Qed.

Lemma closed_descendants es t e :
  revoked_closed es → es !! t = Some e → ce_revoked e = true →
  (∀ u eu p, es !! u = Some eu → ce_parent eu = Some p → is_Some (es !! p)) →
  ∀ u, descendant es t u → ∃ eu, es !! u = Some eu ∧ ce_revoked eu = true.
Proof.
  intros Hcl He Hr Hpar u. induction 1 as [u eu Hu Hp|q u eu Hd IH Hu Hp].
  - eauto 10.
  - destruct IH as (eq & Hq & Hqr). eauto 10.
Qed.

Lemma descendant_revoke_set S es a t :
  descendant es a t → descendant (revoke_set S es) a t.
Proof.
  induction 1 as [t e He Hp|q t e Hd IH He Hp].
  - eapply de_child; [rewrite lookup_revoke_set, He; done|]. by case_decide.
  - eapply de_step; [done|rewrite lookup_revoke_set, He; done|]. by case_decide.
Qed.

(** Histories in which no [grant] names a revoked parent. *)
Definition live_parent (c : cap_call) (s : CapabilityTable) : Prop :=
  match c with
  | CallGrant _ p _ _ => ∀ ep, entries s !! p = Some ep → ce_revoked ep = false
  | _ => True
  end.

Fixpoint grants_live (calls : list (Env * cap_call)) (s : CapabilityTable) : Prop :=
  match calls with
  | [] => True
  | c :: calls => live_parent c.2 s ∧ grants_live calls (cap_step c s)
  end.

Lemma cap_step_closed c s :
  ct_wf s → token_counter s + 1 < 2 ^ 64 → live_parent c.2 s →
  revoked_closed (entries s) → revoked_closed (entries (cap_step c s)).
Proof.
  intros Hwf Hc Hlive Hcl.
  destruct (cap_step_entries c s Hwf Hc) as [|t e Ht Hre Hpar|r t S _ HS];
    [done| |by apply (revoke_set_closed _ t)].
  intros u eu q eq Hu Hp Hq Hr.
  apply lookup_insert_Some in Hq as [[<- <-]|[Hne Hq]]; [by rewrite Hre in Hr|].
  apply lookup_insert_Some in Hu as [[<- <-]|[_ Hu]]; [|by eapply Hcl].
  destruct (Hpar q Hp) as (_ & g & ge & ops & Hcall). rewrite Hcall in Hlive.
  by rewrite (Hlive eq Hq) in Hr.
Qed.

Lemma cap_run_closed calls s :
  ct_wf s → token_counter s + Z.of_nat (length calls) < 2 ^ 64 → grants_live calls s →
  revoked_closed (entries s) → revoked_closed (entries (run_ops cap_step calls s)).
Proof.
  revert s. induction calls as [|c calls IH]; intros s Hwf Hn Hl Hcl; simpl in *; [done|].
  destruct Hl as [Hl Hls].
  destruct (cap_step_wf c s) as [Hwf' Hc']; [done|lia|].
  apply IH; [done|lia|done|]. apply cap_step_closed; [done|lia|done..].
Qed.

(** With the derivations revoked-closed, [revoke] marks every descendant. *)
Lemma revoke_reaches env r t s s' :
  ct_wf s → revoked_closed (entries s) → revoke env r t s = (s', Ok tt) →
  ∀ u, u = t ∨ descendant (entries s) t u →
  ∃ eu, entries s' !! u = Some eu ∧ ce_revoked eu = true.
Proof.
  intros Hwf Hcl Hrev u Hu. pose proof (revoke_effect env r t s) as He.
  destruct (entries s !! t) as [e|] eqn:Ht; [|congruence]. case_decide; [|congruence].
  destruct He as (S & HS & He). rewrite Hrev in He. injection He as ->. simpl.
  assert (Htr : revoke_set S (entries s) !! t = Some (set_revoked e)).
  { rewrite lookup_revoke_set, Ht. simpl. rewrite decide_True; [done|]. apply HS. by left. }
  destruct Hu as [->|Hu]; [eauto|].
  refine (closed_descendants _ t _ (revoke_set_closed _ t S Hcl HS) Htr eq_refl _ u
            (descendant_revoke_set _ _ _ _ Hu)).
  intros v ev q Hv Hp.
  destruct (wf_derives _ (revoke_set_wf s S Hwf) v ev q Hv Hp) as [(eq & Hq & _) _].
  simpl in Hq. by rewrite Hq.
Qed.

Lemma contains_NONE a : contains a NONE = true.
Proof. apply contains_spec. intros i Hi. simpl. by rewrite Z.bits_0. Qed.

(** Closes one branch of [check]: the conditions are those the branch tested. *)
Ltac by_check_branch :=
  unfold admits;
  split; [naive_solver|split; [intros ? [= <-]; rewrite ?contains_NONE|split]];
  [|naive_solver|naive_solver];
  split; [|split; [|split]]; (split; [done || intros|done || intros]);
  destruct_and?; try done;
  try match goal with
      | H : ∀ x, ?a = Some x → _, Hx : ?a = Some _ |- _ => specialize (H _ Hx)
      end;
  solve [lia | naive_solver (congruence || lia)].

(** ** Properties *)

(** Over every history of fewer than [2^64] calls from an empty table: each
    entry is filed under its own token, every derived entry has a parent in the
    table with at least its operations and the same resource and expiry, the owner
    index lists exactly the tokens of each owner without repetition, the table
    stays within its capacity and the audit log within 10000 entries. *)
Theorem table_invariant mx calls :
  Z.of_nat (length calls) < 2 ^ 64 → ct_wf (run_ops cap_step calls (new mx)).
Proof. intros Hn. apply cap_run_wf; [apply cap_new_wf|done]. Qed.

Definition w_env : Env := mkEnv 7 (λ n, 100 + Z.of_nat n).
Definition w_calls : list (Env * cap_call) :=
  [(w_env, CallCreate (mkPid 1) (mkRes "disk" 3) ALL);
   (w_env, CallGrant (mkPid 1) (token_of 1 7) (mkPid 2) ALL);
   (w_env, CallGrant (mkPid 2) (token_of 2 7) (mkPid 3) READ)].

Lemma w_descends :
  descendant (entries (run_ops cap_step w_calls (new 10))) (token_of 1 7) (token_of 3 7).
Proof.
  eapply (de_step _ _ (token_of 2 7) _
            (mkEntry (token_of 3 7) (mkPid 3) (mkRes "disk" 3) READ (Some (token_of 2 7))
                     false 100 None));
    [eapply (de_child _ _ _
               (mkEntry (token_of 2 7) (mkPid 2) (mkRes "disk" 3) ALL (Some (token_of 1 7))
                        false 100 None))| |];
    vm_compute; reflexivity.
Qed.

Lemma table_invariant_witness :
  ct_wf (run_ops cap_step w_calls (new 10)) ∧
  size (entries (run_ops cap_step w_calls (new 10))) = 3%nat.
Proof. split; [apply (table_invariant 10 w_calls); simpl; lia|vm_compute; done]. Defined.

(** [C12] [check] accepts exactly when the token is in the table, belongs to the
    caller, is not revoked, has not expired and carries every requested operation;
    the error it returns is the first of these conditions that fails; it changes
    nothing on success or on an unknown token, and a denial appends one entry to
    the audit log and changes nothing else. *)
Theorem check_correct env p t o s :
  ((check env p t o s).2 = Ok tt ↔
     ∃ e, entries s !! t = Some e ∧ admits (cycles env 0) p o e) ∧
  ((check env p t o s).2 = Err TokenNotFound ↔ entries s !! t = None) ∧
  (∀ e, entries s !! t = Some e →
     ((check env p t o s).2 = Err NotOwner ↔ ce_owner e ≠ p) ∧
     ((check env p t o s).2 = Err Revoked ↔ ce_owner e = p ∧ ce_revoked e = true) ∧
     ((check env p t o s).2 = Err Expired ↔
        ce_owner e = p ∧ ce_revoked e = false ∧
        ∃ x, ce_expires_at e = Some x ∧ x < cycles env 0) ∧
     ((check env p t o s).2 = Err OperationNotAllowed ↔
        admits (cycles env 0) p NONE e ∧ contains (ce_operations e) o = false)) ∧
  ((check env p t o s).2 = Ok tt ∨ (check env p t o s).2 = Err TokenNotFound →
     (check env p t o s).1 = s) ∧
  (is_ok (check env p t o s).2 = false → entries s !! t ≠ None →
     ∃ n, (check env p t o s).1 = (audit (mkAudit ACheck t p None ADenied (cycles env n)) s).1).
Proof.
  split; [apply check_ok_iff|]. 
  unfold check, get_entry, op_bind, log_failure.
  destruct (entries s !! t) as [e|]; simpl; [|naive_solver].
  case_bool_decide as Ho; simpl; [by_check_branch|].
  destruct (ce_revoked e) eqn:Hr; simpl; [by_check_branch|].
  destruct (ce_expires_at e) as [x|] eqn:Hx; simpl.
  - destruct (Z.ltb_spec x (cycles env 0)); simpl; [by_check_branch|].
    destruct (contains (ce_operations e) o) eqn:Hc; simpl; by_check_branch.
  - destruct (contains (ce_operations e) o) eqn:Hc; simpl; by_check_branch.
Qed.

Lemma check_correct_witness :
  (check w_env (mkPid 2) (token_of 2 7) READ (run_ops cap_step w_calls (new 10))).2 = Ok tt ∧
  ∃ n, (check w_env (mkPid 3) (token_of 2 7) READ (run_ops cap_step w_calls (new 10))).1
       = (audit (mkAudit ACheck (token_of 2 7) (mkPid 3) None ADenied (cycles w_env n))
                (run_ops cap_step w_calls (new 10))).1.
Proof.
  split; [vm_compute; done|].
  apply (check_correct w_env (mkPid 3) (token_of 2 7) READ); vm_compute; done.
Defined.

(** [create_root] and [grant] on every branch: [create_root] fails only on a
    full table; [grant] fails with [TokenNotFound], [NotOwner],
    [OperationNotAllowed] or [TableFull], in this order, and a failed call changes
    no entry. A success files exactly one new entry, under a token the table does
    not hold, owned by the grantee; a granted entry points to its parent, keeps its
    resource and expiry, and its operations are those asked for and held by the
    parent. *)
Theorem create_grant_correct mx calls env :
  Z.of_nat (length calls) + 1 < 2 ^ 64 →
  let s := run_ops cap_step calls (new mx) in
  let full := (max_capabilities s ≤ size (entries s))%nat in
  (∀ o r ops, match create_root env o r ops s with
   | (s', Ok t) => ¬ full ∧ entries s !! t = None ∧
       entries s' = <[t := mkEntry t o r ops None false (cycles env 0) None]> (entries s)
   | (s', Err err) => full ∧ err = TableFull ∧ entries s' = entries s
   end) ∧
  (∀ g p ge ops, match grant env g p ge ops s with
   | (s', Ok t) => ¬ full ∧ entries s !! t = None ∧
       ∃ ep, entries s !! p = Some ep ∧ ce_owner ep = g ∧
         contains (ce_operations ep) GRANT = true ∧
         entries s' = <[t := mkEntry t ge (ce_resource ep)
                               (intersection ops (ce_operations ep)) (Some p) false
                               (cycles env 0) (ce_expires_at ep)]> (entries s)
   | (s', Err err) => entries s' = entries s ∧
       match entries s !! p with
       | None => err = TokenNotFound
       | Some ep =>
           ce_owner ep ≠ g ∧ err = NotOwner ∨
           ce_owner ep = g ∧ contains (ce_operations ep) GRANT = false ∧
             err = OperationNotAllowed ∨
           ce_owner ep = g ∧ contains (ce_operations ep) GRANT = true ∧ full ∧
             err = TableFull
       end
   end).
Proof.
  intros Hn s full.
  assert (Hwf : ct_wf s) by (apply cap_run_wf; [apply cap_new_wf|simpl; lia]).
  assert (Hcnt : token_counter s + 1 < 2 ^ 64).
  { pose proof (cap_run_counter calls (new mx) (cap_new_wf mx)) as Hc. simpl in Hc. fold s in Hc. lia. }
  pose proof (wf_counter s Hwf) as Hpos. pose proof (λ ts, fresh_token s ts Hwf Hcnt) as Hfr.
  clearbody s. split.
  - intros o r ops. rewrite create_root_effect, u64_add_small by lia.
    case_decide; [done|]. unfold insert_entry; simpl. rewrite decide_False by done. done.
  - intros g p ge ops. rewrite grant_effect, u64_add_small by lia.
    destruct (entries s !! p) as [ep|] eqn:Hep; [|done].
    case_decide; [|split; [done|by left]].
    destruct (contains (ce_operations ep) GRANT) eqn:Hg; [|naive_solver].
    simpl. case_decide; [naive_solver|]. unfold insert_entry; simpl. rewrite decide_False by done.
    split_and!; [done..|]. exists ep. done.
Qed.

Lemma create_grant_correct_witness :
  let s := run_ops cap_step w_calls (new 10) in
  match grant w_env (mkPid 2) (token_of 2 7) (mkPid 5) WRITE s with
  | (s', Ok t) => entries s !! t = None
  | _ => False
  end.
Proof.
  intros s. assert (H : Z.of_nat (length w_calls) + 1 < 2 ^ 64) by (simpl; lia).
  pose proof (proj2 (create_grant_correct 10 w_calls w_env H)
                (mkPid 2) (token_of 2 7) (mkPid 5) WRITE) as Hg.
  fold s in Hg.
  assert (Hok : is_ok (grant w_env (mkPid 2) (token_of 2 7) (mkPid 5) WRITE s).2 = true)
    by (vm_compute; reflexivity).
  destruct (grant w_env (mkPid 2) (token_of 2 7) (mkPid 5) WRITE s) as [s' [t|err]].
  - exact (proj1 (proj2 Hg)).
  - discriminate Hok.
Defined.

(** [revoke] returns on every table (the recursion over derived tokens
    terminates) and is exact: it fails, changing nothing, on an unknown token or
    for a caller who is not the owner; otherwise it sets the revocation flag of the
    token and of those entries it reaches along unrevoked derivations, changes no
    other field of any entry, and logs the revocation. *)
Theorem revoke_exact env r t s :
  match entries s !! t with
  | None => revoke env r t s = (s, Err TokenNotFound)
  | Some e =>
      if decide (ce_owner e = r) then
        (revoke env r t s).2 = Ok tt ∧
        (∀ u eu, entries s !! u = Some eu →
           (u = t ∨ live_descendant (mark_revoked t (entries s)) t u →
            entries (revoke env r t s).1 !! u = Some (set_revoked eu)) ∧
           (¬ (u = t ∨ live_descendant (mark_revoked t (entries s)) t u) →
            entries (revoke env r t s).1 !! u = Some eu)) ∧
        dom (entries (revoke env r t s).1) = dom (entries s) ∧
        by_owner (revoke env r t s).1 = by_owner s ∧
        audit_log (revoke env r t s).1
        = log (audit_log s) (mkAudit ARevoke t r (Some (ce_resource e)) ASuccess (cycles env 0))
      else revoke env r t s = (s, Err NotOwner)
  end.
Proof.
  pose proof (revoke_effect env r t s) as He.
  destruct (entries s !! t) as [e|]; [|done]. case_decide; [|done].
  destruct He as (S & HS & ->). simpl. split_and!; [done| | |done..].
  - intros u eu Hu. rewrite lookup_revoke_set, Hu, <-HS. simpl.
    split; intros; by case_decide.
  - apply set_eq. intros u. by rewrite !elem_of_dom, lookup_revoke_set, fmap_is_Some.
Qed.

(** [C1] Revocation is complete and final: in a history in which no [grant] named a
    revoked parent, once [revoke] has succeeded on a token, no check on it or on any
    token derived from it, directly or through further grants, succeeds, whatever
    calls follow, whoever asks and whenever. *)
Theorem revocation_complete mx calls env r t s' later :
  Z.of_nat (length calls + length later) + 1 < 2 ^ 64 →
  grants_live calls (new mx) →
  revoke env r t (run_ops cap_step calls (new mx)) = (s', Ok tt) →
  ∀ u, u = t ∨ descendant (entries (run_ops cap_step calls (new mx))) t u →
  ∀ env' p o, (check env' p u o (run_ops cap_step later s')).2 ≠ Ok tt.
Proof.
  intros Hn Hlive Hrev u Hu env' p o. set (s := run_ops cap_step calls (new mx)) in *.
  assert (Hwf : ct_wf s) by (apply cap_run_wf; [apply cap_new_wf|simpl; lia]).
  pose proof (cap_run_counter calls (new mx) (cap_new_wf mx)) as Hc. simpl in Hc. fold s in Hc.
  assert (Hcl : revoked_closed (entries s)).
  { apply cap_run_closed; [apply cap_new_wf|simpl; lia|done|].
    intros ? ? ? ? Hx. simpl in Hx. by rewrite lookup_empty in Hx. }
  assert (Hs' : s' = cap_step (env, CallRevoke r t) s) by (unfold cap_step; simpl; by rewrite Hrev).
  assert (Hwf' : ct_wf s' ∧ token_counter s' ≤ token_counter s + 1).
  { rewrite Hs'. destruct (cap_step_wf (env, CallRevoke r t) s) as [??]; [done|lia|]. split; [done|lia]. }
  destruct Hwf' as [Hwf' Hc'].
  destruct (revoke_reaches env r t s s' Hwf Hcl Hrev u Hu) as (eu & Heu & Hr).
  destruct (cap_run_kept later s' Hwf') with u eu as (eu' & Heu' & Hk); [lia|done|].
  apply (check_revoked env' p u o _ eu'); [done|]. by destruct Hk as [-> | ->].
Qed.

Lemma revocation_complete_witness :
  let s := run_ops cap_step w_calls (new 10) in
  (check w_env (mkPid 3) (token_of 3 7) READ s).2 = Ok tt ∧
  (check w_env (mkPid 3) (token_of 3 7) READ
     (revoke w_env (mkPid 1) (token_of 1 7) s).1).2 ≠ Ok tt.
Proof.
  intros s. split; [vm_compute; done|].
  apply (revocation_complete 10 w_calls w_env (mkPid 1) (token_of 1 7)
           (revoke w_env (mkPid 1) (token_of 1 7) s).1 []).
  - simpl. lia.
  - simpl. split_and!; [done| |  |done]; vm_compute; intros ep [= <-]; done.
  - vm_compute. reflexivity.
  - right. exact w_descends.
Defined.

(** [C2] Attenuation along derivations of any length: an entry derived from another
    carries no operation the ancestor lacks, names the same resource, expires with
    it, and is not the ancestor itself; so an operation a holder of the derived
    token may perform is one the ancestor's entry carries. *)
Theorem attenuation mx calls a t env p o :
  Z.of_nat (length calls) < 2 ^ 64 →
  let s := run_ops cap_step calls (new mx) in
  descendant (entries s) a t →
  a ≠ t ∧ ∃ ea et, entries s !! a = Some ea ∧ entries s !! t = Some et ∧
    contains (ce_operations ea) (ce_operations et) = true ∧
    ce_resource et = ce_resource ea ∧ ce_expires_at et = ce_expires_at ea ∧
    ((check env p t o s).2 = Ok tt →
     contains (ce_operations ea) o = true ∧
     ∀ x, ce_expires_at ea = Some x → cycles env 0 ≤ x).
Proof.
  intros Hn s Hd.
  assert (Hwf : ct_wf s) by (apply cap_run_wf; [apply cap_new_wf|simpl; lia]). clearbody s.
  destruct (descendant_confined s a t Hwf Hd) as (ea & et & Ha & Ht & Hops & Hres & Hexp).
  split.
  - intros ->. destruct (wf_born s Hwf t et Ht) as (c & Hc & Hb).
    pose proof (wf_counter s Hwf).
    pose proof (descendant_later s t t Hwf Hd c c) as Hlt. unfold is_u64 in Hlt.
    specialize (Hlt ltac:(lia) ltac:(lia) Hb Hb). lia.
  - exists ea, et. split_and!; [done..|].
    intros (e & He & _ & _ & Hx & Hc)%check_ok_iff. simplify_eq. split.
    + exact (contains_trans _ _ _ Hops Hc).
    + intros x Hea. apply Hx. congruence.
Qed.

Lemma attenuation_witness :
  token_of 1 7 ≠ token_of 3 7 ∧
  descendant (entries (run_ops cap_step w_calls (new 10))) (token_of 1 7) (token_of 3 7).
Proof.
  split; [|exact w_descends].
  apply (attenuation 10 w_calls (token_of 1 7) (token_of 3 7) w_env (mkPid 3) READ); [simpl; lia|].
  exact w_descends.
Defined.

(** [grant] does not look at the parent's revocation flag: the owner of a
    revoked token that carries [GRANT] derives a new token from it whenever the
    table has room, and checks on the new token succeed. *)
Theorem grant_from_revoked_parent mx calls env g p ge ops ep :
  Z.of_nat (length calls) + 1 < 2 ^ 64 →
  let s := run_ops cap_step calls (new mx) in
  entries s !! p = Some ep → ce_revoked ep = true → ce_owner ep = g →
  contains (ce_operations ep) GRANT = true → ce_expires_at ep = None →
  (size (entries s) < max_capabilities s)%nat →
  ∃ s' t, grant env g p ge ops s = (s', Ok t) ∧
    ∀ env' , (check env' ge t (intersection ops (ce_operations ep)) s').2 = Ok tt.
Proof.
  intros Hn s Hep Hr Ho Hg Hx Hsz.
  rewrite grant_effect, Hep, decide_True, Hg, decide_False by (done || lia).
  eexists _, _. split; [done|]. intros env'. apply check_ok_iff.
  unfold insert_entry; simpl. rewrite decide_False by lia. simpl.
  eexists. split; [apply lookup_insert_eq|]. unfold admits; simpl. split_and!; [done..| |].
  - intros x Hx'. by rewrite Hx in Hx'.
  - apply contains_spec. done.
Qed.

Lemma grant_from_revoked_parent_witness :
  let s := (revoke w_env (mkPid 1) (token_of 1 7) (run_ops cap_step w_calls (new 10))).1 in
  ∃ s' t, grant w_env (mkPid 1) (token_of 1 7) (mkPid 9) READ s = (s', Ok t) ∧
    ∀ env', (check env' (mkPid 9) t (intersection READ ALL) s').2 = Ok tt.
Proof.
  intros s.
  apply (grant_from_revoked_parent 10 (w_calls ++ [(w_env, CallRevoke (mkPid 1) (token_of 1 7))])
           w_env (mkPid 1) (token_of 1 7) (mkPid 9) READ
           (mkEntry (token_of 1 7) (mkPid 1) (mkRes "disk" 3) ALL None true 100 None));
    [simpl; lia|vm_compute; reflexivity..|].
  apply Nat.ltb_lt. vm_compute. reflexivity.
Defined.
