(* ===== verification/Sched.v ===== *)
(** * Sched: the deterministic scheduler ([kernel/src/sched/mod.rs])

    The process table, the three ready queues, the current process, and every
    operation of [Scheduler]; the register save and restore of
    [arch/x86_64/context.rs] that [switch_to] ends in. The run loop of
    [Kernel::run] ([kernel/src/lib.rs]) is [dispatch]: [schedule] followed by
    [switch_to]. *)

From Stdlib Require Import ZArith Lia.
From stdpp Require Import gmap.
From S2P Require Import Prelude.
From S2P Require Import Ids.

(** ** Data *)

Inductive SchedulingClass := Realtime | Interactive | Background.

#[global] Instance SchedulingClass_eq_dec : EqDecision SchedulingClass.
Proof. solve_decision. Defined.

Inductive ProcessState := Ready | Running | Blocked | Terminated.

#[global] Instance ProcessState_eq_dec : EqDecision ProcessState.
Proof. solve_decision. Defined.

Record SchedulerConfig := mkConfig {
  interactive_time_slice_us : Z;
  background_time_slice_us : Z;
  max_processes : Z
}.

Definition SchedulerConfig_default : SchedulerConfig := mkConfig 10000 50000 65536.

(** The saved registers of a process. *)
Record Context := mkContext {
  r15 : Z; r14 : Z; r13 : Z; r12 : Z; rbx : Z; rbp : Z;
  rip : Z; rsp : Z; rflags : Z; cr3 : Z
}.

(** The derived [Default]: every register zero, [rflags] included. *)
Definition Context_default : Context := mkContext 0 0 0 0 0 0 0 0 0 0.
Definition Context_new : Context := mkContext 0 0 0 0 0 0 0 0 0x202 0.
Definition new_kernel (entry stack_top cr3 : Z) : Context :=
  mkContext 0 0 0 0 0 0 entry stack_top 0x202 cr3.
Definition new_user (entry stack_top cr3 : Z) : Context :=
  mkContext 0 0 0 0 0 0 entry stack_top 0x202 cr3.

Record ProcessInfo := mkInfo {
  pi_pid : ProcessId;
  pi_class : SchedulingClass;
  pi_priority : Z;
  pi_state : ProcessState;
  pi_cpu_time : Z;
  pi_schedule_count : Z;
  pi_context : Context
}.

Definition set_state (st : ProcessState) (p : ProcessInfo) : ProcessInfo :=
  mkInfo (pi_pid p) (pi_class p) (pi_priority p) st (pi_cpu_time p)
         (pi_schedule_count p) (pi_context p).
Definition set_context (c : Context) (p : ProcessInfo) : ProcessInfo :=
  mkInfo (pi_pid p) (pi_class p) (pi_priority p) (pi_state p) (pi_cpu_time p)
         (pi_schedule_count p) c.
(** [next.state = Running; next.schedule_count += 1]. *)
Definition set_running (p : ProcessInfo) : ProcessInfo :=
  mkInfo (pi_pid p) (pi_class p) (pi_priority p) Running (pi_cpu_time p)
         (u64_add (pi_schedule_count p) 1) (pi_context p).

Record ReadyQueues := mkQueues {
  realtime : list ProcessId;
  interactive : list ProcessId;
  background : list ProcessId
}.

Record Scheduler := mkSched {
  config : SchedulerConfig;
  processes : gmap ProcessId ProcessInfo;
  ready_queues : ReadyQueues;
  current : option ProcessId;
  next_pid : Z
}.

Inductive SchedulerError := ProcessNotFound | TooManyProcesses | InvalidClass.

Definition new (config : SchedulerConfig) : Scheduler :=
  mkSched config ∅ (mkQueues [] [] []) None 1.

Definition set_processes (f : gmap ProcessId ProcessInfo → gmap ProcessId ProcessInfo)
    (s : Scheduler) : Scheduler :=
  mkSched (config s) (f (processes s)) (ready_queues s) (current s) (next_pid s).
Definition set_queues (q : ReadyQueues) (s : Scheduler) : Scheduler :=
  mkSched (config s) (processes s) q (current s) (next_pid s).
Definition set_current (c : option ProcessId) (s : Scheduler) : Scheduler :=
  mkSched (config s) (processes s) (ready_queues s) c (next_pid s).

(** ** Operations *)

Definition enqueue (pid : ProcessId) (class : SchedulingClass) (s : Scheduler) : Scheduler :=
  let q := ready_queues s in
  set_queues
    (match class with
     | Realtime => mkQueues (realtime q ++ [pid]) (interactive q) (background q)
     | Interactive => mkQueues (realtime q) (interactive q ++ [pid]) (background q)
     | Background => mkQueues (realtime q) (interactive q) (background q ++ [pid])
     end) s.

Definition register_process (class : SchedulingClass) (priority : Z) (s : Scheduler) :
    Scheduler * Result ProcessId SchedulerError :=
  let pid := mkPid (next_pid s) in
  let s := mkSched (config s) (processes s) (ready_queues s) (current s)
                   (u64_add (next_pid s) 1) in
  let info := mkInfo pid class priority Ready 0 0 Context_default in
  let s := set_processes <[pid := info]> s in
  (enqueue pid class s, Ok pid).

Definition wake (pid : ProcessId) (s : Scheduler) : Scheduler * Result unit SchedulerError :=
  match processes s !! pid with
  | None => (s, Err ProcessNotFound)
  | Some process =>
      if decide (pi_state process = Blocked) then
        (enqueue pid (pi_class process)
           (set_processes <[pid := set_state Ready process]> s), Ok tt)
      else (s, Ok tt)
  end.

Definition block (pid : ProcessId) (s : Scheduler) : Scheduler * Result unit SchedulerError :=
  match processes s !! pid with
  | None => (s, Err ProcessNotFound)
  | Some process => (set_processes <[pid := set_state Blocked process]> s, Ok tt)
  end.

(** The three [retain]s of [terminate]. *)
Definition remove_queued (pid : ProcessId) (q : ReadyQueues) : ReadyQueues :=
  mkQueues (filter (λ p, p ≠ pid) (realtime q))
           (filter (λ p, p ≠ pid) (interactive q))
           (filter (λ p, p ≠ pid) (background q)).

Definition terminate (pid : ProcessId) (s : Scheduler) : Scheduler * Result unit SchedulerError :=
  match processes s !! pid with
  | None => (s, Err ProcessNotFound)
  | Some process =>
      let s := set_processes <[pid := set_state Terminated process]> s in
      let s := set_queues (remove_queued pid (ready_queues s)) s in
      (if decide (current s = Some pid) then set_current None s else s, Ok tt)
  end.

Definition schedule (s : Scheduler) : Scheduler * option ProcessId :=
  let q := ready_queues s in
  match vec_pop (realtime q) with
  | Some (pid, rest) => (set_queues (mkQueues rest (interactive q) (background q)) s, Some pid)
  | None =>
      match vec_pop (interactive q) with
      | Some (pid, rest) => (set_queues (mkQueues (realtime q) rest (background q)) s, Some pid)
      | None =>
          match vec_pop (background q) with
          | Some (pid, rest) =>
              (set_queues (mkQueues (realtime q) (interactive q) rest) s, Some pid)
          | None => (s, None)
          end
      end
  end.

(** [init_context]: a zero [cr3] leaves the page tables in place. *)
Definition init_context (cpu new : Context) : Context :=
  mkContext (r15 new) (r14 new) (r13 new) (r12 new) (rbx new) (rbp new)
            (rip new) (rsp new) (rflags new)
            (if cr3 new =? 0 then cr3 cpu else cr3 new).

(** "Mark previous process as ready (if any)". *)
Definition requeue_previous (s : Scheduler) : Scheduler :=
  match current s with
  | Some prev_pid =>
      match processes s !! prev_pid with
      | Some prev =>
          if decide (pi_state prev = Running) then
            enqueue prev_pid (pi_class prev)
              (set_processes <[prev_pid := set_state Ready prev]> s)
          else s
      | None => s
      end
  | None => s
  end.

(** [cpu] holds the registers of the caller, [rip] and [rsp] being those it
    resumes with. The result is the state and the registers after the switch:
    [switch_context] stores [cpu] through its pointer into the process table and
    then loads the new context (the [cr3] write it skips is of an equal value). *)
Definition switch_to (pid : ProcessId) (cpu : Context) (s : Scheduler) : Scheduler * Context :=
  let prev_pid_opt := current s in
  let s := requeue_previous s in
  let s := set_processes (alter set_running pid) s in
  let s := set_current (Some pid) s in
  let old := match prev_pid_opt with Some prev => processes s !! prev | None => None end in
  match old, prev_pid_opt, processes s !! pid with
  | Some _, Some prev, Some _ =>
      let s := set_processes (alter (set_context cpu) prev) s in
      (s, match processes s !! pid with
          | Some next => pi_context next
          | None => cpu
          end)
  | _, _, Some next => (s, init_context cpu (pi_context next))
  | _, _, None => (s, cpu)
  end.

Definition current_process (s : Scheduler) : option ProcessId := current s.
Definition get_process_info (pid : ProcessId) (s : Scheduler) : option ProcessInfo :=
  processes s !! pid.
Definition running_process_count (s : Scheduler) : nat :=
  size (filter (λ kv, pi_state kv.2 = Running) (processes s)).
Definition total_process_count (s : Scheduler) : nat := size (processes s).
Definition list_processes (s : Scheduler) : list ProcessInfo := (btree_iter (processes s)).*2.

(** One turn of the run loop; [None] is [arch::halt()]. *)
Definition dispatch (cpu : Context) (s : Scheduler) : Scheduler * option (ProcessId * Context) :=
  match schedule s with
  | (s, Some pid) => let '(s, cpu) := switch_to pid cpu s in (s, Some (pid, cpu))
  | (s, None) => (s, None)
  end.

Inductive sched_call :=
| CallRegister (class : SchedulingClass) (priority : Z)
| CallWake (pid : ProcessId)
| CallBlock (pid : ProcessId)
| CallTerminate (pid : ProcessId)
| CallDispatch (cpu : Context).

Definition sched_step (c : sched_call) (s : Scheduler) : Scheduler :=
  match c with
  | CallRegister class priority => (register_process class priority s).1
  | CallWake pid => (wake pid s).1
  | CallBlock pid => (block pid s).1
  | CallTerminate pid => (terminate pid s).1
  | CallDispatch cpu => (dispatch cpu s).1
  end.

(** ** The queues by class *)

Definition queue (c : SchedulingClass) (q : ReadyQueues) : list ProcessId :=
  match c with
  | Realtime => realtime q
  | Interactive => interactive q
  | Background => background q
  end.

Lemma queue_enqueue c pid class s :
  queue c (ready_queues (enqueue pid class s)) =
  queue c (ready_queues s) ++ (if decide (c = class) then [pid] else []).
Proof. destruct c, class; simpl; by rewrite ?app_nil_r. Qed.

Lemma queue_remove c pid q : queue c (remove_queued pid q) = filter (λ p, p ≠ pid) (queue c q).
Proof. by destruct c. Qed.

(** The class [c1] is served before [c2]. *)
Definition before (c1 c2 : SchedulingClass) : Prop :=
  match c1, c2 with
  | Realtime, (Interactive | Background) | Interactive, Background => True
  | _, _ => False
  end.

#[global] Instance before_dec c1 c2 : Decision (before c1 c2).
Proof. destruct c1, c2; simpl; apply _. Defined.

Lemma schedule_spec s :
  match schedule s with
  | (s', Some pid) =>
      ∃ c, queue c (ready_queues s) = queue c (ready_queues s') ++ [pid] ∧
           (∀ c', before c' c → queue c' (ready_queues s) = []) ∧
           (∀ c', c' ≠ c → queue c' (ready_queues s') = queue c' (ready_queues s)) ∧
           s' = set_queues (ready_queues s') s
  | (s', None) => s' = s ∧ ∀ c, queue c (ready_queues s) = []
  end.
Proof.
  unfold schedule. destruct s as [cf ps [qr qi qb] cur np]; simpl.
  destruct (vec_pop qr) as [[x r]|] eqn:Er.
  { apply vec_pop_Some in Er as ->. exists Realtime. simpl. split_and!; [done| | |done].
    - by intros [].
    - by intros []. }
  apply vec_pop_None in Er as ->. destruct (vec_pop qi) as [[x r]|] eqn:Ei.
  { apply vec_pop_Some in Ei as ->. exists Interactive. simpl. split_and!; [done| | |done].
    - by intros [].
    - by intros []. }
  apply vec_pop_None in Ei as ->. destruct (vec_pop qb) as [[x r]|] eqn:Eb.
  { apply vec_pop_Some in Eb as ->. exists Background. simpl. split_and!; [done| | |done].
    - by intros [].
    - by intros []. }
  apply vec_pop_None in Eb as ->. split; [done|]. by intros [].
Qed.

(** ** The scheduler's invariant *)

(** [x] is a process that was just taken from its queue. *)
Record sched_inv (x : option ProcessId) (s : Scheduler) : Prop := {
  si_pid : ∀ p i, processes s !! p = Some i → pi_pid i = p ∧ 1 ≤ pid_raw p < next_pid s;
  si_next : 1 ≤ next_pid s < 2 ^ 64;
  si_running : ∀ p i, processes s !! p = Some i → pi_state i = Running → current s = Some p;
  si_current : ∀ p, current s = Some p → is_Some (processes s !! p);
  si_queued : ∀ c p, p ∈ queue c (ready_queues s) →
    ∃ i, processes s !! p = Some i ∧ pi_class i = c ∧ pi_state i ≠ Terminated;
  si_ready : ∀ p i, processes s !! p = Some i → pi_state i = Ready → x ≠ Some p →
    p ∈ queue (pi_class i) (ready_queues s)
}.

Lemma sched_new_inv cf : sched_inv None (new cf).
Proof.
  constructor; simpl; try lia; try (intros; by simplify_map_eq).
  intros [] p; simpl; by intros ?%elem_of_nil.
Qed.


(** [insert] on an existing key, by cases on the key looked up. *)
Ltac by_key H := apply lookup_insert_Some in H as [[<- <-]|[? H]].

Lemma queue_set_processes c f s :
  queue c (ready_queues (set_processes f s)) = queue c (ready_queues s).
Proof. done. Qed.

Lemma elem_of_queue_enqueue c p pid class s :
  p ∈ queue c (ready_queues (enqueue pid class s)) ↔
  p ∈ queue c (ready_queues s) ∨ c = class ∧ p = pid.
Proof. rewrite queue_enqueue, elem_of_app. case_decide; set_solver. Qed.

(** A process made ready is put in the queue of its class. *)
Lemma make_ready_inv x s p i :
  sched_inv x s → processes s !! p = Some i →
  sched_inv x (enqueue p (pi_class i) (set_processes <[p := set_state Ready i]> s)).
Proof.
  intros [Hpid Hnext Hrun Hcur Hq Hr] Hp. constructor; try done.
  - intros q j Hj. simpl in Hj. by_key Hj; [by apply (Hpid p i)|eauto].
  - intros q j Hj. simpl in Hj. by_key Hj; [done|eauto].
  - intros q Hqc. simpl in *. destruct (decide (p = q)) as [->|];
      [by rewrite lookup_insert_eq|rewrite lookup_insert_ne by done; auto].
  - intros c q [Hin|[-> ->]]%elem_of_queue_enqueue; simpl.
    + destruct (Hq c q Hin) as (j & Hj & Hc & Ht). destruct (decide (p = q)) as [->|].
      * simplify_eq. rewrite lookup_insert_eq. eauto.
      * rewrite lookup_insert_ne by done. eauto.
    + rewrite lookup_insert_eq. eauto.
  - intros q j Hj Hs Hx. simpl in Hj. apply elem_of_queue_enqueue.
    by_key Hj; [by right|]. left. by apply Hr.
Qed.

Lemma block_inv x s pid : sched_inv x s → sched_inv x (block pid s).1.
Proof.
  intros [Hpid Hnext Hrun Hcur Hq Hr]. unfold block.
  destruct (processes s !! pid) as [i|] eqn:Hp; [|done]. constructor; simpl; try done.
  - intros q j Hj. by_key Hj; [by apply (Hpid pid i)|eauto].
  - intros q j Hj. by_key Hj; [done|eauto].
  - intros q Hqc. destruct (decide (pid = q)) as [->|];
      [by rewrite lookup_insert_eq|rewrite lookup_insert_ne by done; auto].
  - intros c q Hin. destruct (Hq c q Hin) as (j & Hj & Hc & Ht). destruct (decide (pid = q)) as [->|].
    + simplify_eq. rewrite lookup_insert_eq. eauto.
    + rewrite lookup_insert_ne by done. eauto.
  - intros q j Hj Hs Hx. by_key Hj; [done|]. by apply Hr.
Qed.

Lemma terminate_queues pid s i c :
  processes s !! pid = Some i →
  processes (terminate pid s).1 = <[pid := set_state Terminated i]> (processes s) ∧
  queue c (ready_queues (terminate pid s).1) = filter (λ p, p ≠ pid) (queue c (ready_queues s)) ∧
  current (terminate pid s).1 = (if decide (current s = Some pid) then None else current s) ∧
  next_pid (terminate pid s).1 = next_pid s.
Proof.
  intros Hp. unfold terminate. rewrite Hp. simpl. case_decide; simpl; by rewrite queue_remove.
Qed.

Lemma terminate_inv x s pid : sched_inv x s → sched_inv x (terminate pid s).1.
Proof.
  intros Hinv. destruct (processes s !! pid) as [i|] eqn:Hp; [|by unfold terminate; rewrite Hp].
  destruct Hinv as [Hpid Hnext Hrun Hcur Hq Hr].
  destruct (terminate_queues pid s i Realtime Hp) as (Hps & _ & Hc & Hn).
  assert (Hqs : ∀ c, queue c (ready_queues (terminate pid s).1)
                     = filter (λ p, p ≠ pid) (queue c (ready_queues s)))
    by (intros c; by destruct (terminate_queues pid s i c Hp) as (_ & ? & _)).
  constructor; rewrite ?Hps, ?Hc, ?Hn; try done.
  - intros q j Hj. by_key Hj; [by apply (Hpid pid i)|eauto].
  - intros q j Hj. by_key Hj; [done|]. intros Hst. rewrite (Hrun q j Hj Hst).
    rewrite decide_False; [done|]. naive_solver.
  - intros q. case_decide; [done|]. intros Hqc.
    destruct (decide (pid = q)) as [->|];
      [by rewrite lookup_insert_eq|rewrite lookup_insert_ne by done; auto].
  - intros c q. rewrite Hqs, elem_of_retain. intros [Hin Hne].
    destruct (Hq c q Hin) as (j & Hj & Hc' & Ht). rewrite lookup_insert_ne by done. eauto.
  - intros q j Hj Hs Hx. rewrite Hqs, elem_of_retain. by_key Hj; [done|]. split; [by apply Hr|done].
Qed.

Lemma wake_inv x s pid : sched_inv x s → sched_inv x (wake pid s).1.
Proof.
  intros Hinv. unfold wake. destruct (processes s !! pid) as [i|] eqn:Hp; [|done].
  case_decide; [|done]. by apply make_ready_inv.
Qed.

Lemma register_inv s c pr :
  sched_inv None s → next_pid s + 1 < 2 ^ 64 → sched_inv None (register_process c pr s).1.
Proof.
  intros [Hpid Hnext Hrun Hcur Hq Hr] Hn. unfold register_process; cbn [fst].
  assert (Hfresh : processes s !! mkPid (next_pid s) = None).
  { destruct (processes s !! _) as [i|] eqn:Hi; [|done]. destruct (Hpid _ _ Hi) as [_ ?].
    simpl in *. lia. }
  constructor; simpl; rewrite ?u64_add_small by lia; try lia.
  - intros q j Hj. by_key Hj; [simpl; split; [done|lia]|]. destruct (Hpid q j Hj). split; [done|lia].
  - intros q j Hj. by_key Hj; [done|eauto].
  - intros q Hqc. apply lookup_insert_is_Some'. auto.
  - intros c' q [Hin|[-> ->]]%elem_of_queue_enqueue; simpl.
    + destruct (Hq c' q Hin) as (j & Hj & Hc & Ht). exists j.
      rewrite lookup_insert_ne; [done|]. intros <-. by rewrite Hfresh in Hj.
    + rewrite lookup_insert_eq. eexists. by split_and!.
  - intros q j Hj Hs Hx. apply elem_of_queue_enqueue. by_key Hj; [by right|left]. by apply Hr.
Qed.

(** Taking a process from its queue. *)
Lemma schedule_inv s :
  sched_inv None s → sched_inv (schedule s).2 (schedule s).1.
Proof.
  intros Hinv. pose proof (schedule_spec s) as Hs.
  destruct (schedule s) as [s' [pid|]]; [|by destruct Hs as [-> _]]. simpl.
  destruct Hs as (c & Hqc & _ & Hoth & Hs').
  assert (Hsub : ∀ c' p, p ∈ queue c' (ready_queues s') → p ∈ queue c' (ready_queues s)).
  { intros c' p Hin. destruct (decide (c' = c)) as [->|]; [rewrite Hqc; set_solver|].
    by rewrite <-Hoth. }
  destruct Hinv as [Hpid Hnext Hrun Hcur Hq Hr].
  constructor; try (rewrite Hs'; simpl; done).
  - intros c' p Hin. rewrite Hs'. simpl. by apply Hq, Hsub.
  - intros p j Hj Hst Hx. rewrite Hs' in Hj. simpl in Hj.
    specialize (Hr p j Hj Hst). destruct (decide (pi_class j = c)) as [Hc|Hc].
    + rewrite Hc, Hqc in Hr. rewrite Hc. set_solver.
    + rewrite Hoth by done. by apply Hr.
Qed.

Lemma requeue_inv x s :
  sched_inv x s →
  sched_inv x (requeue_previous s) ∧
  (∀ p i, processes (requeue_previous s) !! p = Some i → pi_state i ≠ Running) ∧
  current (requeue_previous s) = current s ∧
  dom (processes (requeue_previous s)) = dom (processes s).
Proof.
  intros Hinv. unfold requeue_previous.
  assert (Hno : (∀ p i, current s = Some p → processes s !! p = Some i → pi_state i ≠ Running) →
                ∀ p i, processes s !! p = Some i → pi_state i ≠ Running).
  { intros H p i Hi Hst. by apply (H p i (si_running x s Hinv p i Hi Hst) Hi). }
  destruct (current s) as [prev|] eqn:Hc; [|split_and!; [done| |done..]; apply Hno; naive_solver].
  destruct (processes s !! prev) as [i|] eqn:Hp; [|split_and!; [done| |done..]; apply Hno; naive_solver].
  case_decide as Hst.
  - split_and!; [by apply make_ready_inv| |done|].
    + simpl. intros q j Hj. by_key Hj; [done|]. intros Hq.
      pose proof (si_running x s Hinv q j Hj Hq). congruence.
    + simpl. rewrite dom_insert_L. apply elem_of_dom_2 in Hp. set_solver.
  - split_and!; [done| |done..]. apply Hno. naive_solver.
Qed.

(** The state part of [switch_to]. *)
Lemma switch_to_state pid cpu s :
  ∃ f, (switch_to pid cpu s).1 =
         set_processes f (set_current (Some pid)
           (set_processes (alter set_running pid) (requeue_previous s))) ∧
       ∀ ps p, ∃ g, f ps !! p = g <$> ps !! p ∧
         ∀ i, pi_pid (g i) = pi_pid i ∧ pi_class (g i) = pi_class i ∧
              pi_state (g i) = pi_state i ∧ pi_schedule_count (g i) = pi_schedule_count i.
Proof.
  assert (Hid : ∀ s, set_processes id s = s) by (by intros []).
  assert (Hid' : ∀ (ps : gmap ProcessId ProcessInfo) p, ∃ g, id ps !! p = g <$> ps !! p ∧
            ∀ i, pi_pid (g i) = pi_pid i ∧ pi_class (g i) = pi_class i ∧
              pi_state (g i) = pi_state i ∧ pi_schedule_count (g i) = pi_schedule_count i).
  { intros ps p. exists id. split; [by rewrite option_fmap_id|done]. }
  unfold switch_to.
  destruct (current s) as [prev|]; [destruct (processes _ !! prev)|];
    destruct (processes _ !! pid); try (exists id; rewrite Hid; by split).
  exists (alter (set_context cpu) prev). split; [done|]. intros ps q.
  destruct (decide (q = prev)) as [->|Hne].
  - exists (set_context cpu). by rewrite lookup_alter_eq.
  - exists id. rewrite lookup_alter_ne by done. split; [by rewrite option_fmap_id|done].
Qed.

Lemma switch_to_inv pid cpu s :
  sched_inv (Some pid) s → is_Some (processes s !! pid) →
  sched_inv None (switch_to pid cpu s).1.
Proof.
  intros Hinv Hin. destruct (switch_to_state pid cpu s) as (f & -> & Hf).
  destruct (requeue_inv _ s Hinv) as ([Hpid Hnext Hrun Hcur Hq Hr] & Hno & Hc & Hdom).
  set (t := requeue_previous s) in *.
  assert (Hlk : ∀ q j, f (alter set_running pid (processes t)) !! q = Some j →
    ∃ i, processes t !! q = Some i ∧ pi_pid j = pi_pid i ∧ pi_class j = pi_class i ∧
         pi_state j = if decide (q = pid) then Running else pi_state i).
  { intros q j Hj. destruct (Hf (alter set_running pid (processes t)) q) as (g & Hg & Hgi).
    rewrite Hg in Hj. destruct (decide (q = pid)) as [->|Hne].
    - rewrite lookup_alter_eq in Hj. destruct (processes t !! pid) as [i|]; simplify_eq/=.
      exists i. destruct (Hgi (set_running i)) as (-> & -> & -> & _). done.
    - rewrite lookup_alter_ne in Hj by done. destruct (processes t !! q) as [i|]; simplify_eq/=.
      exists i. destruct (Hgi i) as (-> & -> & -> & _). done. }
  assert (Hlk' : ∀ q i, processes t !! q = Some i →
    ∃ j, f (alter set_running pid (processes t)) !! q = Some j).
  { intros q i Hi. destruct (Hf (alter set_running pid (processes t)) q) as (g & -> & _).
    destruct (decide (q = pid)) as [->|Hne];
      [rewrite lookup_alter_eq|rewrite lookup_alter_ne by done]; rewrite Hi; simpl; eauto. }
  constructor; simpl; try done.
  - intros q j (i & Hi & -> & _)%Hlk. eauto.
  - intros q j (i & Hi & _ & _ & ->)%Hlk. case_decide; [by subst|]. intros Hst. by destruct (Hno q i).
  - intros q [= <-]. assert (is_Some (processes t !! pid)) as [i Hi].
    { apply elem_of_dom. rewrite Hdom. by apply elem_of_dom. }
    destruct (Hlk' pid i Hi) as [j ->]. done.
  - intros c q Hqin. destruct (Hq c q Hqin) as (i & Hi & Hci & Hti).
    destruct (Hlk' q i Hi) as [j Hj]. exists j. split; [done|].
    destruct (Hlk q j Hj) as (i' & Hi' & _ & -> & ->). simplify_eq. split; [done|].
    by case_decide.
  - intros q j Hj Hst _. destruct (Hlk q j Hj) as (i & Hi & _ & -> & Hst').
    rewrite Hst in Hst'. case_decide; [done|]. apply Hr; [done..|congruence].
Qed.

Lemma dispatch_inv cpu s : sched_inv None s → sched_inv None (dispatch cpu s).1.
Proof.
  intros Hinv. unfold dispatch. pose proof (schedule_inv s Hinv) as Hs.
  pose proof (schedule_spec s) as Hspec.
  destruct (schedule s) as [s' [pid|]]; [|done]. simpl in *.
  assert (His : is_Some (processes s' !! pid)).
  { destruct Hspec as (c & Hqc & _ & _ & ->). simpl.
    destruct (si_queued _ _ Hinv c pid) as (i & -> & _); [|done]. rewrite Hqc. set_solver. }
  pose proof (switch_to_inv pid cpu s' Hs His) as Hsw.
  by destruct (switch_to pid cpu s').
Qed.

Lemma sched_step_inv c s :
  sched_inv None s → next_pid s + 1 < 2 ^ 64 →
  sched_inv None (sched_step c s) ∧ next_pid s ≤ next_pid (sched_step c s) ≤ next_pid s + 1.
Proof.
  intros Hinv Hn. pose proof (si_next _ _ Hinv) as Hpos.
  assert (Hsw : ∀ pid cpu t, next_pid (switch_to pid cpu t).1 = next_pid t).
  { intros pid cpu t. destruct (switch_to_state pid cpu t) as (f & -> & _). simpl.
    unfold requeue_previous. repeat case_match; done. }
  destruct c as [c pr|p|p|p|cpu]; simpl.
  - split; [by apply register_inv|]. simpl. rewrite u64_add_small; lia.
  - split; [by apply wake_inv|]. unfold wake. repeat case_match; simpl; lia.
  - split; [by apply block_inv|]. unfold block. repeat case_match; simpl; lia.
  - split; [by apply terminate_inv|]. unfold terminate. repeat case_match; simpl; lia.
  - split; [by apply dispatch_inv|]. unfold dispatch.
    pose proof (schedule_spec s) as Hs. destruct (schedule s) as [s' [pid|]]; simpl.
    + destruct Hs as (_ & _ & _ & _ & Hs'). specialize (Hsw pid cpu s').
      destruct (switch_to pid cpu s'). simpl in *. rewrite Hsw, Hs'. simpl. lia.
    + destruct Hs as [-> _]. lia.
Qed.

Lemma sched_run_inv calls s :
  sched_inv None s → next_pid s + Z.of_nat (length calls) < 2 ^ 64 →
  sched_inv None (run_ops sched_step calls s).
Proof.
  revert s. induction calls as [|c calls IH]; intros s Hinv Hn; simpl in *; [done|].
  destruct (sched_step_inv c s) as [Hinv' ?]; [done|lia|]. apply IH; [done|lia].
Qed.

(** ** Starvation *)

(** [a] is at the bottom of the class queue that [dispatch] serves, under at least
    one other process, and the running process belongs to that class. *)
Record starving (c : SchedulingClass) (a : ProcessId) (s : Scheduler) : Prop := {
  st_first : ∀ c', before c' c → queue c' (ready_queues s) = [];
  st_queue : ∃ q, queue c (ready_queues s) = a :: q ∧ q ≠ [] ∧ (a ∉ q) ∧
    ∀ p, p ∈ q → ∃ i, processes s !! p = Some i ∧ pi_class i = c;
  st_current : ∃ cur i, current s = Some cur ∧ cur ≠ a ∧ processes s !! cur = Some i ∧
    pi_class i = c ∧ pi_state i = Running
}.

Lemma schedule_top c s l y :
  (∀ c', before c' c → queue c' (ready_queues s) = []) →
  queue c (ready_queues s) = l ++ [y] →
  ∃ q, schedule s = (set_queues q s, Some y) ∧ queue c q = l ∧
       ∀ c', c' ≠ c → queue c' q = queue c' (ready_queues s).
Proof.
  intros Hfirst Hq. pose proof (schedule_spec s) as Hs.
  destruct (schedule s) as [s' [pid|]].
  2: { destruct Hs as [_ Hs]. rewrite Hs in Hq. by destruct l. }
  destruct Hs as (c' & Hqc & Hbef & Hoth & Hs').
  assert (c' = c) as ->.
  { destruct (decide (before c' c)) as [Hb|Hb].
    - rewrite (Hfirst c' Hb) in Hqc. by destruct (queue c' (ready_queues s')).
    - destruct (decide (before c c')) as [Hb'|Hb']; [|by destruct c, c'; simpl in *; try done; exfalso; auto].
      rewrite (Hbef c Hb') in Hq. by destruct l. }
  rewrite Hq in Hqc. apply app_inj_tail in Hqc as [-> ->].
  exists (ready_queues s'). by rewrite <-Hs'.
Qed.

(** [switch_to y] from a running [cur]: [cur] goes to the end of its queue, [y]
    runs, and every process keeps its class. *)
Lemma switch_from_running y cpu s cur i :
  current s = Some cur → processes s !! cur = Some i → pi_state i = Running →
  let s' := (switch_to y cpu s).1 in
  ready_queues s' = ready_queues (enqueue cur (pi_class i) s) ∧ current s' = Some y ∧
  ∀ p, ∃ g, processes s' !! p = g <$> processes s !! p ∧
    ∀ j, processes s !! p = Some j →
      pi_class (g j) = pi_class j ∧
      (p ≠ y → pi_schedule_count (g j) = pi_schedule_count j) ∧
      (p = y → pi_state (g j) = Running).
Proof.
  intros Hc Hi Hst. simpl. destruct (switch_to_state y cpu s) as (f & -> & Hfs).
  assert (requeue_previous s =
          enqueue cur (pi_class i) (set_processes <[cur := set_state Ready i]> s)) as ->.
  { unfold requeue_previous. by rewrite Hc, Hi, decide_True. }
  split; [done|]. split; [done|]. intros p. simpl.
  destruct (Hfs (alter set_running y (<[cur:=set_state Ready i]> (processes s))) p) as (g & -> & Hg).
  exists (λ j, g ((if decide (p = y) then set_running else id)
               ((if decide (p = cur) then set_state Ready else id) j))).
  split.
  - destruct (decide (p = y)) as [Hy|Hy], (decide (p = cur)) as [Hpc|Hpc].
    + subst y p. by rewrite lookup_alter_eq, lookup_insert_eq, Hi.
    + subst y. rewrite lookup_alter_eq, lookup_insert_ne by done. by destruct (processes s !! p).
    + subst p. by rewrite lookup_alter_ne, lookup_insert_eq, Hi by done.
    + rewrite lookup_alter_ne, lookup_insert_ne by done. by destruct (processes s !! p).
  - intros j Hj. destruct (Hg ((if decide (p = y) then set_running else id)
               ((if decide (p = cur) then set_state Ready else id) j))) as (_ & -> & -> & ->).
    repeat case_decide; subst; simpl; done.
Qed.

(** One dispatch from a starving state: the top of the queue runs, and the process
    it replaces goes to the top. *)
Lemma starving_dispatch c a cpu s :
  starving c a s →
  starving c a (dispatch cpu s).1 ∧
  (pi_schedule_count <$> processes (dispatch cpu s).1 !! a)
  = (pi_schedule_count <$> processes s !! a).
Proof.
  intros [Hfirst (q & Hq & Hne & Haq & Hreg) (cur & i & Hc & Hca & Hi & Hci & Hst)].
  destruct q as [|y q _] using rev_ind; [done|]. clear Hne.
  destruct (schedule_top c s (a :: q) y Hfirst Hq) as (qs & Hs & Hqs & Hoth).
  assert (Hay : a ≠ y) by set_solver.
  unfold dispatch. rewrite Hs.
  destruct (switch_from_running y cpu (set_queues qs s) cur i Hc Hi Hst) as (Hrq & Hcur & Hlk).
  destruct (switch_to y cpu (set_queues qs s)) as [t cpu']. cbn [fst] in *.
  change (processes (set_queues qs s)) with (processes s) in Hlk.
  split; [constructor|].
  - intros c' Hb. rewrite Hrq, queue_enqueue. simpl.
    rewrite decide_False, app_nil_r by (intros ->; by rewrite Hci in Hb; destruct c).
    rewrite Hoth by (intros ->; by destruct c). by apply Hfirst.
  - exists (q ++ [cur]). rewrite Hrq, queue_enqueue, decide_True by done. simpl.
    rewrite Hqs. split_and!; [done|by destruct q|set_solver|].
    intros p Hp. destruct (Hlk p) as (g & -> & Hg).
    assert (∃ j, processes s !! p = Some j ∧ pi_class j = c) as (j & Hj & Hjc).
    { apply elem_of_app in Hp as [Hp| ->%list_elem_of_singleton]; [|eauto]. apply Hreg. set_solver. }
    rewrite Hj. simpl. eexists. split; [done|]. by destruct (Hg j Hj) as [-> _].
  - destruct (Hlk y) as (g & Hgy & Hg). destruct (Hreg y) as (j & Hj & Hjc); [set_solver|].
    exists y, (g j). rewrite Hgy, Hj. destruct (Hg j Hj) as (Hg1 & _ & Hg2).
    split_and!; [done|done|done|congruence|auto].
  - destruct (Hlk a) as (g & -> & Hg). destruct (processes s !! a) as [j|]; [|done].
    simpl. f_equal. by apply Hg.
Qed.

(** ** Saved registers *)

(** A series of switches, each with the registers of whoever calls it. *)
Definition switch_step (c : ProcessId * Context) (s : Scheduler) : Scheduler :=
  (switch_to c.1 c.2 s).1.

(** The saved registers of [a] while other processes run. *)
Lemma switch_keeps_context a b cpu s i :
  processes s !! a = Some i → current s ≠ Some a →
  ∃ j, processes (switch_to b cpu s).1 !! a = Some j ∧ pi_context j = pi_context i.
Proof.
  intros Hi Hc. unfold switch_to.
  assert (Hreq : processes (requeue_previous s) !! a = Some i).
  { unfold requeue_previous. destruct (current s) as [p|]; [|done].
    destruct (processes s !! p); [|done]. case_decide; [|done]. simpl.
    by rewrite lookup_insert_ne by naive_solver. }
  set (t := set_current (Some b) (set_processes (alter set_running b) (requeue_previous s))).
  assert (Ht : ∃ j, processes t !! a = Some j ∧ pi_context j = pi_context i).
  { simpl. destruct (decide (a = b)) as [<-|];
      [rewrite lookup_alter_eq|rewrite lookup_alter_ne by done]; rewrite Hreq; simpl; eauto. }
  destruct (current s) as [p|]; [destruct (processes t !! p)|]; destruct (processes t !! b);
    try exact Ht.
  simpl. rewrite lookup_alter_ne by naive_solver. exact Ht.
Qed.

Lemma switch_current b cpu s : current (switch_to b cpu s).1 = Some b.
Proof. by destruct (switch_to_state b cpu s) as (f & -> & _). Qed.

Lemma switch_registered b cpu s q :
  is_Some (processes (switch_to b cpu s).1 !! q) ↔ is_Some (processes s !! q).
Proof.
  destruct (switch_to_state b cpu s) as (f & -> & Hf). simpl.
  destruct (Hf (alter set_running b (processes (requeue_previous s))) q) as (g & -> & _).
  rewrite fmap_is_Some, <-!elem_of_dom, dom_alter.
  unfold requeue_previous. destruct (current s) as [p|]; [|done].
  destruct (processes s !! p) as [i|] eqn:Hp; [|done]. case_decide; [|done].
  simpl. rewrite dom_insert_L. apply elem_of_dom_2 in Hp. set_solver.
Qed.

(** Switching away stores the caller's registers. *)
Lemma switch_saves a b cpu s :
  current s = Some a → is_Some (processes s !! a) → is_Some (processes s !! b) →
  ∃ j, processes (switch_to b cpu s).1 !! a = Some j ∧ pi_context j = cpu.
Proof.
  intros Hc Ha Hb. unfold switch_to. rewrite Hc.
  set (t := set_current (Some b) (set_processes (alter set_running b) (requeue_previous s))).
  assert (Hreg : ∀ q, is_Some (processes s !! q) → is_Some (processes t !! q)).
  { intros q. rewrite <-!elem_of_dom. simpl. rewrite dom_alter_L. unfold requeue_previous.
    rewrite Hc. destruct (processes s !! a) as [i|]; [|done]. case_decide; [|done].
    simpl. rewrite dom_insert_L. set_solver. }
  destruct (Hreg a Ha) as [ia Hia], (Hreg b Hb) as [ib Hib]. rewrite Hia, Hib. simpl.
  rewrite lookup_alter_eq. change (processes t) with (alter set_running b (processes (requeue_previous s))) in Hia.
  rewrite Hia. simpl. eauto.
Qed.

(** Switching to a process whose predecessor is registered loads its registers. *)
Lemma switch_loads a b cpu s j :
  current s = Some b → b ≠ a → is_Some (processes s !! b) → processes s !! a = Some j →
  (switch_to a cpu s).2 = pi_context j.
Proof.
  intros Hc Hba [ib Hb] Ha.
  destruct (switch_keeps_context a a cpu s j Ha) as (k & Hk & Hkc); [congruence|].
  revert Hk. unfold switch_to. rewrite Hc.
  set (t := set_current (Some a) (set_processes (alter set_running a) (requeue_previous s))).
  assert (Hreg : ∀ q, is_Some (processes s !! q) → is_Some (processes t !! q)).
  { intros q. rewrite <-!elem_of_dom. simpl. rewrite dom_alter_L. unfold requeue_previous.
    rewrite Hc, Hb. case_decide; [|done]. simpl. rewrite dom_insert_L. set_solver. }
  destruct (Hreg a ltac:(eauto)) as [ka Hka]. destruct (Hreg b ltac:(eauto)) as [kb Hkb].
  rewrite Hka, Hkb. cbn [fst snd]. intros Hk. by rewrite Hk.
Qed.

(** ** Properties *)

(** [C5] Over every history of registrations, wakes, blocks, terminations and run
    loop turns: at most one process is [Running] and it is the current one; a queue
    holds only registered processes of its class, none of them terminated; and no
    ready process is lost: each is in the queue of its class. *)
Theorem scheduler_invariant cf calls :
  1 + Z.of_nat (length calls) < 2 ^ 64 →
  let s := run_ops sched_step calls (new cf) in
  (∀ p i, processes s !! p = Some i → pi_state i = Running → current s = Some p) ∧
  (∀ p, current s = Some p → is_Some (processes s !! p)) ∧
  (∀ c p, p ∈ queue c (ready_queues s) →
     ∃ i, processes s !! p = Some i ∧ pi_class i = c ∧ pi_state i ≠ Terminated) ∧
  (∀ p i, processes s !! p = Some i → pi_state i = Ready →
     p ∈ queue (pi_class i) (ready_queues s)).
Proof.
  intros Hn s.
  destruct (sched_run_inv calls (new cf) (sched_new_inv cf) Hn) as [_ _ Hrun Hcur Hq Hr].
  split_and!; [done..|]. intros p i Hp Hs. by apply Hr.
Qed.

Definition w_cpu : Context := new_kernel 0x1000 0x8000 0x2000.
Definition w_three : list sched_call :=
  [CallRegister Interactive 9; CallRegister Interactive 5; CallRegister Interactive 7].

Lemma scheduler_invariant_witness :
  let s := run_ops sched_step (w_three ++ [CallDispatch w_cpu]) (new SchedulerConfig_default) in
  current s = Some (mkPid 3) ∧ is_Some (processes s !! mkPid 3).
Proof.
  intros s. split; [vm_compute; done|].
  apply (scheduler_invariant SchedulerConfig_default (w_three ++ [CallDispatch w_cpu]));
    [simpl; lia|vm_compute; done].
Defined.

(** [schedule] serves the classes in order and each class last-in first-out:
    it takes the most recently queued process of the highest non-empty class,
    whatever the priorities within the class, touches nothing else, and returns
    nothing exactly when every queue is empty. *)
Theorem schedule_order s :
  (∀ c l y, (∀ c', before c' c → queue c' (ready_queues s) = []) →
     queue c (ready_queues s) = l ++ [y] →
     ∃ q, schedule s = (set_queues q s, Some y) ∧ queue c q = l ∧
          ∀ c', c' ≠ c → queue c' q = queue c' (ready_queues s)) ∧
  ((schedule s).2 = None ↔ ∀ c, queue c (ready_queues s) = []).
Proof.
  split; [intros; by apply schedule_top|]. pose proof (schedule_spec s) as Hs.
  destruct (schedule s) as [s' [pid|]]; simpl; [|by destruct Hs].
  destruct Hs as (c & Hc & _). split; [done|]. intros Hall.
  rewrite Hall in Hc. by destruct (queue c (ready_queues s')).
Qed.

Lemma others_keep a cx others : ∀ t k b,
  processes t !! a = Some k → pi_context k = cx →
  current t = Some b → b ≠ a → is_Some (processes t !! b) →
  Forall (λ c, c.1 ≠ a ∧ is_Some (processes t !! c.1)) others →
  ∃ k' b', processes (run_ops switch_step others t) !! a = Some k' ∧ pi_context k' = cx ∧
    current (run_ops switch_step others t) = Some b' ∧ b' ≠ a ∧
    is_Some (processes (run_ops switch_step others t) !! b').
Proof.
  induction others as [|[c cpu] others IH]; intros t k b Hk Hcx Hc Hba Hb Ho; simpl; [eauto 10|].
  apply Forall_cons in Ho as [[Hca Hcr] Ho]. simpl in *. unfold switch_step at 2 4 6; simpl.
  destruct (switch_keeps_context a c cpu t k Hk) as (k' & Hk' & Hcx'); [congruence|].
  apply (IH _ k' c); [done|congruence|apply switch_current|done|by apply switch_registered|].
  eapply Forall_impl; [exact Ho|]. intros [d cpu'] [??]. split; [done|]. by apply switch_registered.
Qed.

(** Context switches are transparent to the process switched away from: when
    the run returns to it, after any switches among other registered processes, its
    registers are those it had. *)
Theorem switch_round_trip a b cpu cpu' others s :
  current s = Some a → is_Some (processes s !! a) → is_Some (processes s !! b) → a ≠ b →
  Forall (λ c, c.1 ≠ a ∧ is_Some (processes s !! c.1)) others →
  (switch_to a cpu' (run_ops switch_step others (switch_to b cpu s).1)).2 = cpu.
Proof.
  intros Hc Ha Hb Hab Hoth.
  destruct (switch_saves a b cpu s Hc Ha Hb) as (j & Hj & Hcx).
  destruct (others_keep a cpu others (switch_to b cpu s).1 j b)
    as (k & b' & Hk & <- & Hcb & Hba & Hrb);
    [done|done|apply switch_current|done|by apply switch_registered| |].
  - eapply Forall_impl; [exact Hoth|]. intros [d ?] [??]. split; [done|]. by apply switch_registered.
  - by apply (switch_loads a b').
Qed.

Lemma switch_round_trip_witness :
  let s := run_ops sched_step (w_three ++ [CallDispatch w_cpu]) (new SchedulerConfig_default) in
  (switch_to (mkPid 3) Context_new
     (run_ops switch_step [(mkPid 1, Context_new)] (switch_to (mkPid 2) w_cpu s).1)).2 = w_cpu.
Proof.
  intros s. apply switch_round_trip; [vm_compute; reflexivity|vm_compute; eauto..|done|].
  repeat constructor; vm_compute; [done|eauto].
Defined.

(** Starvation under the run loop, against the fairness the module promises: a
    process at the bottom of the served class' queue, with another process queued
    above it and one of the class running, is never dispatched again, however many
    turns follow, as long as nothing else touches the scheduler. *)
Theorem bottom_process_starves c a cpus s :
  starving c a s →
  let s' := run_ops (λ cpu t, (dispatch cpu t).1) cpus s in
  current s' ≠ Some a ∧ a ∈ queue c (ready_queues s') ∧
  (pi_schedule_count <$> processes s' !! a) = (pi_schedule_count <$> processes s !! a).
Proof.
  intros Hs. simpl.
  assert (Hrun : starving c a (run_ops (λ cpu t, (dispatch cpu t).1) cpus s) ∧
    (pi_schedule_count <$> processes (run_ops (λ cpu t, (dispatch cpu t).1) cpus s) !! a)
    = (pi_schedule_count <$> processes s !! a)).
  { revert s Hs. induction cpus as [|cpu cpus IH]; intros s Hs; simpl; [done|].
    destruct (starving_dispatch c a cpu s Hs) as [Hs' Hcnt].
    destruct (IH _ Hs') as [? ->]. done. }
  destruct Hrun as [[_ (q & Hq & _) (cur & i & Hc & Hca & _)] Hcnt]. split_and!; [|..|done].
  - rewrite Hc. congruence.
  - rewrite Hq. set_solver.
Qed.

Lemma bottom_process_starves_witness :
  let s := run_ops sched_step (w_three ++ [CallDispatch w_cpu]) (new SchedulerConfig_default) in
  current (run_ops (λ cpu t, (dispatch cpu t).1) [w_cpu; w_cpu; w_cpu] s) ≠ Some (mkPid 1).
Proof.
  intros s. apply (bottom_process_starves Interactive (mkPid 1) [w_cpu; w_cpu; w_cpu] s). constructor.
  - by intros [].
  - exists [mkPid 2]. split_and!; [vm_compute; reflexivity|done|set_solver|].
    intros p ->%list_elem_of_singleton.
    exists (mkInfo (mkPid 2) Interactive 5 Ready 0 0 Context_default). vm_compute. done.
  - exists (mkPid 3), (mkInfo (mkPid 3) Interactive 7 Running 0 1 Context_default).
    vm_compute. done.
Defined.

(** [block] and [terminate] against the queues: [block] leaves the process in
    its queue, so if it was next it is still next, and waking it queues it a second
    time; [terminate] takes every copy of the process out of the queues, but a later
    [block] and [wake] of the same process queue it again, ready to run. *)
Theorem blocked_and_terminated_still_run p i s :
  processes s !! p = Some i →
  ((schedule s).2 = Some p → (schedule (block p s).1).2 = Some p) ∧
  queue (pi_class i) (ready_queues (wake p (block p s).1).1)
    = queue (pi_class i) (ready_queues s) ++ [p] ∧
  (∀ c, p ∉ queue c (ready_queues (terminate p s).1)) ∧
  current (terminate p s).1 ≠ Some p ∧
  p ∈ queue (pi_class i) (ready_queues (wake p (block p (terminate p s).1).1).1).
Proof.
  intros Hp.
  assert (Hwake : ∀ t j, processes t !! p = Some j →
    (block p t).1 = set_processes <[p := set_state Blocked j]> t ∧
    queue (pi_class j) (ready_queues (wake p (block p t).1).1)
    = queue (pi_class j) (ready_queues t) ++ [p]).
  { intros t j Hj. unfold block, wake. rewrite Hj. split; [done|].
    assert (Hl : processes (set_processes <[p := set_state Blocked j]> t) !! p
                 = Some (set_state Blocked j)) by apply lookup_insert_eq.
    cbn [fst]. rewrite Hl, decide_True by done. cbn [fst pi_class set_state].
    rewrite queue_enqueue, decide_True by done. done. }
  destruct (Hwake s i Hp) as [Hb Hw]. split_and!; [|done|..].
  - rewrite Hb. unfold schedule. simpl. repeat case_match; simpl; congruence.
  - intros c. destruct (terminate_queues p s i c Hp) as (_ & -> & _). rewrite elem_of_retain. naive_solver.
  - destruct (terminate_queues p s i Realtime Hp) as (_ & _ & -> & _). by case_decide.
  - destruct (terminate_queues p s i Realtime Hp) as (Hps & _).
    destruct (Hwake (terminate p s).1 (set_state Terminated i)) as [_ Hq].
    { by rewrite Hps, lookup_insert_eq. }
    simpl in Hq. rewrite Hq. set_solver.
Qed.

Lemma blocked_and_terminated_still_run_witness :
  let s := run_ops sched_step w_three (new SchedulerConfig_default) in
  (schedule s).2 = Some (mkPid 3) ∧ (schedule (block (mkPid 3) s).1).2 = Some (mkPid 3).
Proof.
  intros s. split; [vm_compute; reflexivity|].
  apply (blocked_and_terminated_still_run (mkPid 3)
           (mkInfo (mkPid 3) Interactive 7 Ready 0 0 Context_default) s); vm_compute; reflexivity.
Defined.
