(* ===== verification/SmpSched.v ===== *)
(** * SmpSched: per-CPU run queues ([kernel/src/sched/smp.rs])

    Affinity masks, the run queue of one CPU, and the SMP scheduler: placement,
    work stealing, periodic balancing and CPU hot-plug. An operation returns
    [None] where the code panics (an index of [run_queues] out of bounds); the
    reschedule interrupts sent by [load_balance] are part of its result. Atomics
    are read and written in program order: one call at a time. *)

From Stdlib Require Import ZArith Lia.
From stdpp Require Import list.
From S2P Require Import Prelude.
From S2P Require Import Ids.
From S2P Require Import Sched.

#[local] Arguments Nat.div : simpl never.
#[local] Arguments Nat.modulo : simpl never.

(** ** CPUs *)

Record CpuId := mkCpu { cpu_raw : Z }.

#[global] Instance CpuId_eq_dec : EqDecision CpuId.
Proof. solve_decision. Defined.

Definition BSP : CpuId := mkCpu 0.
Definition MAX_CPUS : nat := 256.
Definition as_index (c : CpuId) : nat := Z.to_nat (cpu_raw c).

(** ** Affinity masks: four 64-bit words *)

Record CpuMask := mkMask { mask_bits : list Z }.

Definition all : CpuMask := mkMask (replicate 4 (2 ^ 64 - 1)).
Definition none : CpuMask := mkMask (replicate 4 0).

Definition set (cpu : CpuId) (m : CpuMask) : CpuMask :=
  let idx := as_index cpu in
  if (idx <? 256)%nat then
    mkMask (alter (λ w, bit_set w (Z.of_nat (idx mod 64))) (idx / 64)%nat (mask_bits m))
  else m.

Definition single (cpu : CpuId) : CpuMask := set cpu none.

Definition clear (cpu : CpuId) (m : CpuMask) : CpuMask :=
  let idx := as_index cpu in
  if (idx <? 256)%nat then
    mkMask (alter (λ w, bit_clear w (Z.of_nat (idx mod 64))) (idx / 64)%nat (mask_bits m))
  else m.

Definition contains (m : CpuMask) (cpu : CpuId) : bool :=
  let idx := as_index cpu in
  if (idx <? 256)%nat then
    match mask_bits m !! (idx / 64)%nat with
    | Some w => bit_test w (Z.of_nat (idx mod 64))
    | None => false
    end
  else false.

(** [u64::trailing_zeros] and [u64::count_ones]. *)
Definition trailing_zeros (w : Z) : nat :=
  default 64%nat (position (λ i, Z.testbit w (Z.of_nat i)) (seq 0 64)).
Definition count_ones (w : Z) : nat :=
  length (filter (λ i, Z.testbit w (Z.of_nat i) = true) (seq 0 64)).

Definition first (m : CpuMask) : option CpuId :=
  '(word_idx, word) ← list_find (λ w, w ≠ 0) (mask_bits m);
  Some (mkCpu (Z.of_nat (word_idx * 64 + trailing_zeros word))).

Definition count (m : CpuMask) : nat := sum_list (count_ones <$> mask_bits m).

(** ** The run queue of one CPU *)

Record CpuRunQueue := mkRq {
  rq_cpu_id : CpuId;
  nr_running : Z;
  load : Z;
  rq_realtime : list ProcessId;
  rq_interactive : list ProcessId;
  rq_background : list ProcessId
}.

Definition rq_new (cpu_id : CpuId) : CpuRunQueue := mkRq cpu_id 0 0 [] [] [].

(** [VecDeque::insert]. *)
Definition vec_insert {A} (pos : nat) (x : A) (l : list A) : list A :=
  take pos l ++ [x] ++ drop pos l.

Definition rq_enqueue (pid : ProcessId) (class : SchedulingClass) (priority : Z)
    (q : CpuRunQueue) : CpuRunQueue :=
  let nr := u32 (nr_running q + 1) in
  let ld := u64_add (load q) (priority + 1) in
  match class with
  | Realtime => mkRq (rq_cpu_id q) nr ld (rq_realtime q ++ [pid]) (rq_interactive q) (rq_background q)
  | Interactive =>
      let queue := rq_interactive q in
      let pos := default (length queue) (position (λ _, true) queue) in
      mkRq (rq_cpu_id q) nr ld (rq_realtime q) (vec_insert pos pid queue) (rq_background q)
  | Background => mkRq (rq_cpu_id q) nr ld (rq_realtime q) (rq_interactive q) (rq_background q ++ [pid])
  end.

Definition dequeue (q : CpuRunQueue) : CpuRunQueue * option ProcessId :=
  let nr := u32 (nr_running q - 1) in
  match pop_front (rq_realtime q) with
  | Some (pid, l) => (mkRq (rq_cpu_id q) nr (load q) l (rq_interactive q) (rq_background q), Some pid)
  | None =>
      match pop_front (rq_interactive q) with
      | Some (pid, l) => (mkRq (rq_cpu_id q) nr (load q) (rq_realtime q) l (rq_background q), Some pid)
      | None =>
          match pop_front (rq_background q) with
          | Some (pid, l) =>
              (mkRq (rq_cpu_id q) nr (load q) (rq_realtime q) (rq_interactive q) l, Some pid)
          | None => (q, None)
          end
      end
  end.

Definition steal (q : CpuRunQueue) : CpuRunQueue * option (ProcessId * SchedulingClass) :=
  let nr := u32 (nr_running q - 1) in
  match vec_pop (rq_background q) with
  | Some (pid, l) =>
      (mkRq (rq_cpu_id q) nr (load q) (rq_realtime q) (rq_interactive q) l, Some (pid, Background))
  | None =>
      match vec_pop (rq_interactive q) with
      | Some (pid, l) =>
          (mkRq (rq_cpu_id q) nr (load q) (rq_realtime q) l (rq_background q), Some (pid, Interactive))
      | None => (q, None)
      end
  end.

Definition is_empty (q : CpuRunQueue) : bool := nr_running q =? 0.
Definition get_load (q : CpuRunQueue) : Z := load q.

(** ** The SMP scheduler *)

Record SmpScheduler := mkSmp {
  run_queues : list CpuRunQueue;
  nr_cpus : Z;
  balance_tick : Z
}.

Definition smp_new : SmpScheduler := mkSmp (replicate MAX_CPUS (rq_new BSP)) 1 0.

Definition set_rq (i : nat) (q : CpuRunQueue) (s : SmpScheduler) : SmpScheduler :=
  mkSmp (<[i := q]> (run_queues s)) (nr_cpus s) (balance_tick s).

Definition get_run_queue (cpu : CpuId) (s : SmpScheduler) : option CpuRunQueue :=
  run_queues s !! as_index cpu.

Definition cpus (s : SmpScheduler) : nat := Z.to_nat (nr_cpus s).

(** One iteration of the search: [(best_cpu, best_load)]. *)
Definition select_body (s : SmpScheduler) (affinity : CpuMask) (i : nat) (best : CpuId * Z) :
    option (CpuId * Z) :=
  let cpu := mkCpu (u32 (Z.of_nat i)) in
  if contains affinity cpu then
    q ← run_queues s !! i;
    Some (if get_load q <? best.2 then (cpu, get_load q) else best)
  else Some best.

Definition select_cpu (affinity : CpuMask) (last_cpu : option CpuId) (s : SmpScheduler) :
    option CpuId :=
  match last_cpu with
  | Some last => if contains affinity last then Some last else
      fst <$> for_range (cpus s) 0 (select_body s affinity) (BSP, u64_max)
  | None => fst <$> for_range (cpus s) 0 (select_body s affinity) (BSP, u64_max)
  end.

Definition enqueue (pid : ProcessId) (class : SchedulingClass) (priority : Z)
    (affinity : CpuMask) (last_cpu : option CpuId) (s : SmpScheduler) : option SmpScheduler :=
  cpu ← select_cpu affinity last_cpu s;
  q ← run_queues s !! as_index cpu;
  Some (set_rq (as_index cpu) (rq_enqueue pid class priority q) s).

(** One iteration: [(busiest_idx, busiest_load)]. *)
Definition busiest_body (s : SmpScheduler) (idle_idx i : nat) (best : nat * Z) :
    option (nat * Z) :=
  if decide (i ≠ idle_idx) then
    q ← run_queues s !! i;
    Some (if best.2 <? get_load q then (i, get_load q) else best)
  else Some best.

Definition try_steal (idle_cpu : CpuId) (s : SmpScheduler) :
    option (SmpScheduler * option (ProcessId * SchedulingClass)) :=
  best ← for_range (cpus s) 0 (busiest_body s (as_index idle_cpu)) (0%nat, 0);
  if 0 <? best.2 then
    q ← run_queues s !! best.1;
    let '(q', r) := steal q in
    Some (set_rq best.1 q' s, r)
  else Some (s, None).

(** [.map(get_load).sum()] over the online CPUs. *)
Definition total_load (s : SmpScheduler) : option Z :=
  for_range (cpus s) 0 (λ i acc, q ← run_queues s !! i; Some (u64_add acc (get_load q))) 0.

(** One iteration of the balancing loop; the second component collects the CPUs
    sent a reschedule interrupt. *)
Definition balance_body (avg_load : Z) (i : nat) (st : SmpScheduler * list CpuId) :
    option (SmpScheduler * list CpuId) :=
  let '(s, ipis) := st in
  q ← run_queues s !! i;
  if get_load q <? avg_load / 2 then
    '(s', r) ← try_steal (mkCpu (u32 (Z.of_nat i))) s;
    match r with
    | Some (pid, class) =>
        q' ← run_queues s' !! i;
        Some (set_rq i (rq_enqueue pid class 128 q') s', ipis ++ [mkCpu (u32 (Z.of_nat i))])
    | None => Some (s', ipis)
    end
  else Some (s, ipis).

Definition load_balance (s : SmpScheduler) : option (SmpScheduler * list CpuId) :=
  let tick := balance_tick s in
  let s := mkSmp (run_queues s) (nr_cpus s) (u64_add tick 1) in
  if decide (tick mod 100 ≠ 0) then Some (s, [])
  else if nr_cpus s <=? 1 then Some (s, [])
  else
    total ← total_load s;
    for_range (cpus s) 0 (balance_body (total / nr_cpus s)) (s, []).

Definition cpu_online (cpu : CpuId) (s : SmpScheduler) : SmpScheduler :=
  mkSmp (run_queues s) (u32 (nr_cpus s + 1)) (balance_tick s).

(** [while let Some((pid, class)) = rq.steal()]; [fuel] bounds the iterations. *)
Fixpoint drain (fuel : nat) (idx : nat) (s : SmpScheduler) : option SmpScheduler :=
  match fuel with
  | O => None
  | S fuel =>
      q ← run_queues s !! idx;
      let '(q', r) := steal q in
      let s := set_rq idx q' s in
      match r with
      | Some (pid, class) =>
          q0 ← run_queues s !! 0%nat;
          drain fuel idx (set_rq 0 (rq_enqueue pid class 128 q0) s)
      | None => Some s
      end
  end.

Definition cpu_offline (fuel : nat) (cpu : CpuId) (s : SmpScheduler) : option SmpScheduler :=
  drain fuel (as_index cpu) (mkSmp (run_queues s) (u32 (nr_cpus s - 1)) (balance_tick s)).

Record SmpProcessData := mkSmpData {
  sp_affinity : CpuMask;
  sp_last_cpu : option CpuId;
  sp_migrations : Z
}.
Definition SmpProcessData_default : SmpProcessData := mkSmpData all None 0.

(** ** Masks *)

Definition mask_ok (m : CpuMask) : Prop :=
  length (mask_bits m) = 4%nat ∧ Forall is_u64 (mask_bits m).

(** Bit [i] of the mask. *)
Definition mask_bit (m : CpuMask) (i : nat) : bool :=
  match mask_bits m !! (i / 64)%nat with
  | Some w => Z.testbit w (Z.of_nat (i mod 64))
  | None => false
  end.

Lemma contains_bit m c : mask_ok m → contains m c = mask_bit m (as_index c).
Proof.
  intros [Hl _]. unfold contains, mask_bit.
  destruct (Nat.ltb_spec (as_index c) 256).
  - destruct (mask_bits m !! _); [|done]. apply bit_test_spec. lia.
  - rewrite lookup_ge_None_2; [done|]. rewrite Hl.
    apply Nat.div_le_lower_bound; lia.
Qed.

Lemma mask_bit_lt m i : mask_ok m → mask_bit m i = true → (i < 256)%nat.
Proof.
  intros [Hl _]. unfold mask_bit. destruct (mask_bits m !! _) eqn:E; [|done]. intros _.
  apply lookup_lt_Some in E. rewrite Hl in E. 
  pose proof (Nat.div_mod_eq i 64). pose proof (Nat.mod_upper_bound i 64). lia.
Qed.

(** Updating the word of one bit. *)
Lemma mask_update f g m c :
  mask_ok m →
  (∀ w i, is_u64 w → 0 ≤ i < 64 → is_u64 (f w i)) →
  (∀ w i j, is_u64 w → 0 ≤ i < 64 → 0 ≤ j < 64 →
     Z.testbit (f w i) j = g (Z.testbit w j) (j =? i)) →
  (∀ b, g b false = b) → (as_index c < 256)%nat →
  let m' := mkMask (alter (λ w, f w (Z.of_nat (as_index c mod 64)))
                          (as_index c / 64)%nat (mask_bits m)) in
  mask_ok m' ∧
  ∀ i, (i < 256)%nat → mask_bit m' i = g (mask_bit m i) (i =? as_index c)%nat.
Proof.
  intros [Hl Hw] Hf Hfg Hg Hc. simpl. set (k := as_index c) in *.
  pose proof (Nat.mod_upper_bound k 64 ltac:(done)) as Hk.
  assert (Hu : ∀ i w, mask_bits m !! i = Some w → is_u64 w)
    by (intros i w Hi; by eapply (Forall_lookup_1 _ _ i w Hw)).
  split; [split; simpl|].
  - by rewrite length_alter.
  - apply Forall_lookup. intros i w.
    destruct (decide (i = (k / 64)%nat)) as [->|Hne].
    + rewrite list_lookup_alter_eq. intros (w0 & Hw0 & ->)%fmap_Some.
      apply Hf; [eauto|lia].
    + rewrite list_lookup_alter_ne by done. eauto.
  - intros i Hi. unfold mask_bit. cbn [mask_bits].
    pose proof (Nat.mod_upper_bound i 64 ltac:(done)) as Hi64.
    pose proof (Nat.div_mod_eq i 64). pose proof (Nat.div_mod_eq k 64).
    destruct (decide ((i / 64)%nat = (k / 64)%nat)) as [Heq|Hne].
    + rewrite Heq, list_lookup_alter_eq.
      destruct (lookup_lt_is_Some_2 (mask_bits m) (k / 64)%nat) as [w Hkw].
      { rewrite Hl. apply Nat.Div0.div_lt_upper_bound; lia. }
      rewrite Hkw. simpl. rewrite Hfg by (eauto || lia). f_equal. lia.
    + rewrite list_lookup_alter_ne by done. destruct (Nat.eqb_spec i k) as [->|]; [done|].
      by rewrite Hg.
Qed.

Lemma mask_none_ok : mask_ok none.
Proof. split; [done|]. apply Forall_replicate. unfold is_u64. lia. Qed.

Lemma mask_all_ok : mask_ok all.
Proof. split; [done|]. apply Forall_replicate. unfold is_u64. lia. Qed.

Lemma set_spec m c :
  mask_ok m → mask_ok (set c m) ∧
  ∀ d, contains (set c m) d
       = (contains m d || bool_decide (as_index d = as_index c ∧ (as_index c < 256)%nat)).
Proof.
  intros Hm. unfold set. destruct (Nat.ltb_spec (as_index c) 256) as [Hc|Hc].
  - destruct (mask_update bit_set orb m c) as [Hok Hb]; [done|apply bit_set_u64| |by intros []|done|].
    { intros. apply bit_set_spec; lia. }
    split; [done|]. intros d. rewrite !contains_bit by done.
    destruct (decide (as_index d < 256)%nat) as [Hd|Hd].
    + rewrite Hb by done. f_equal. apply eq_true_iff_eq.
      rewrite bool_decide_eq_true, Nat.eqb_eq. naive_solver.
    + rewrite (bool_decide_false (_ ∧ _)) by lia. rewrite orb_false_r.
      transitivity false; [|symmetry]; apply not_true_is_false; intros ?%mask_bit_lt; done.
  - split; [done|]. intros d. rewrite bool_decide_false by lia. by rewrite orb_false_r.
Qed.

Lemma clear_spec m c :
  mask_ok m → mask_ok (clear c m) ∧
  ∀ d, contains (clear c m) d = (contains m d && bool_decide (as_index d ≠ as_index c)).
Proof.
  intros Hm. unfold clear. destruct (Nat.ltb_spec (as_index c) 256) as [Hc|Hc].
  - destruct (mask_update bit_clear (λ b e, b && negb e) m c) as [Hok Hb];
      [done|apply bit_clear_u64| |by intros []|done|].
    { intros. apply bit_clear_spec; lia. }
    split; [done|]. intros d. rewrite !contains_bit by done.
    destruct (decide (as_index d < 256)%nat) as [Hd|Hd].
    + rewrite Hb by done. f_equal. apply eq_true_iff_eq.
      rewrite bool_decide_eq_true, negb_true_iff, Nat.eqb_neq. done.
    + transitivity false; [|symmetry; apply andb_false_iff; left];
        apply not_true_is_false; intros ?%mask_bit_lt; done.
  - split; [done|]. intros d. destruct (contains m d) eqn:E; [|done].
    rewrite contains_bit in E by done. apply mask_bit_lt in E; [|done].
    by rewrite bool_decide_true by lia.
Qed.

Lemma trailing_zeros_spec w :
  is_u64 w → w ≠ 0 →
  (trailing_zeros w < 64)%nat ∧ Z.testbit w (Z.of_nat (trailing_zeros w)) = true ∧
  ∀ j, (j < trailing_zeros w)%nat → Z.testbit w (Z.of_nat j) = false.
Proof.
  intros Hw Hne. unfold trailing_zeros.
  destruct (position _ _) as [k|] eqn:E; simpl.
  - apply position_Some in E as (x & Hx & Hb & Hj). apply lookup_seq in Hx as [-> ?].
    simpl in Hb. split_and!; [lia|done|]. intros j Hlt. apply (Hj j); [done|].
    apply lookup_seq. lia.
  - exfalso. apply Hne. apply Z.bits_inj'. intros i Hi. rewrite Z.bits_0.
    destruct (decide (i < 64)) as [Hlt|Hge].
    + pose proof (proj1 (position_None _ _) E (Z.to_nat i)) as Hp. cbn beta in Hp.
      rewrite Z2Nat.id in Hp by done. apply Hp. apply elem_of_seq. lia.
    + apply (proj1 (is_u64_testbit w (proj1 Hw)) Hw). lia.
Qed.

Lemma first_spec m :
  mask_ok m →
  match first m with
  | Some c => contains m c = true ∧ ∀ d, contains m d = true → (as_index c ≤ as_index d)%nat
  | None => ∀ d, contains m d = false
  end.
Proof.
  intros Hm. pose proof Hm as [Hl Hw]. unfold first.
  destruct (list_find _ _) as [[k w]|] eqn:E; simpl.
  - apply list_find_Some in E as (Hk & Hne & Hbefore).
    destruct (trailing_zeros_spec w) as (Ht & Hb & Hmin); [by eapply (Forall_lookup_1 _ _ k w Hw)|done|].
    set (c := mkCpu (Z.of_nat (k * 64 + trailing_zeros w))).
    assert (Hc : as_index c = (k * 64 + trailing_zeros w)%nat) by apply Nat2Z.id.
    split.
    + rewrite contains_bit, Hc by done. unfold mask_bit.
      rewrite Nat.div_add_l, Nat.div_small, Nat.add_0_r, Hk by lia.
      by rewrite Nat.add_comm, Nat.Div0.mod_add, Nat.mod_small by lia.
    + intros d. rewrite contains_bit, Hc by done. unfold mask_bit.
      destruct (mask_bits m !! (as_index d / 64)%nat) as [w'|] eqn:Ed; [|done]. intros Hd.
      pose proof (Nat.div_mod_eq (as_index d) 64).
      destruct (Nat.lt_trichotomy (as_index d / 64) k) as [Hlt|[Heq|Hgt]]; [..|lia].
      * exfalso. apply (Hbefore _ w' Ed Hlt). intros ->. by rewrite Z.bits_0 in Hd.
      * rewrite Heq in Ed. simplify_eq.
        destruct (decide (as_index d mod 64 < trailing_zeros w)%nat) as [Hlt|]; [|lia].
        by rewrite (Hmin _ Hlt) in Hd.
  - apply list_find_None in E. intros d. rewrite contains_bit by done. unfold mask_bit.
    destruct (mask_bits m !! _) as [w|] eqn:Ed; [|done].
    pose proof (Forall_lookup_1 _ _ _ _ E Ed) as Hz. simpl in Hz. apply dec_stable in Hz as ->.
    apply Z.bits_0.
Qed.

Lemma list_filter_ext_seq n : ∀ a (P Q : nat → bool),
  (∀ i, (a ≤ i < a + n)%nat → P i = Q i) →
  filter (λ i, P i = true) (seq a n) = filter (λ i, Q i = true) (seq a n).
Proof.
  induction n as [|n IH]; intros a P Q H; [done|]. cbn [seq]. rewrite !filter_cons, (H a) by lia.
  rewrite (IH (S a) P Q) by (intros; apply H; lia). done.
Qed.

Lemma length_filter_shift (P : nat → bool) k n : ∀ a,
  length (filter (λ i, P i = true) (seq (k + a) n))
  = length (filter (λ i, P (k + i)%nat = true) (seq a n)).
Proof.
  induction n as [|n IH]; intros a; [done|]. cbn [seq]. rewrite !filter_cons, <-Nat.add_succ_r.
  repeat case_decide; try done; cbn [length]; by rewrite IH.
Qed.

Lemma count_word m k w :
  mask_bits m !! k = Some w →
  length (filter (λ i, mask_bit m i = true) (seq (k * 64) 64)) = count_ones w.
Proof.
  intros Hk. rewrite <-(Nat.add_0_r (k * 64)), length_filter_shift. unfold count_ones.
  f_equal. apply list_filter_ext_seq. intros i Hi. unfold mask_bit.
  rewrite Nat.div_add_l, Nat.div_small, Nat.add_0_r, Hk by lia.
  by rewrite Nat.add_comm, Nat.Div0.mod_add, Nat.mod_small by lia.
Qed.

Lemma length_filter_256 (P : nat → bool) :
  length (filter (λ i, P i = true) (seq 0 256)) =
  (length (filter (λ i, P i = true) (seq (0 * 64) 64)) +
   (length (filter (λ i, P i = true) (seq (1 * 64) 64)) +
    (length (filter (λ i, P i = true) (seq (2 * 64) 64)) +
     length (filter (λ i, P i = true) (seq (3 * 64) 64)))))%nat.
Proof.
  change (seq 0 256) with (seq 0 (64 + (64 + (64 + 64)))).
  by rewrite !seq_app, !filter_app, !length_app.
Qed.

Lemma count_spec m :
  mask_ok m → count m = length (filter (λ i, contains m (mkCpu (Z.of_nat i)) = true) (seq 0 256)).
Proof.
  intros Hm. pose proof Hm as [Hl _].
  rewrite (list_filter_ext_seq 256 0 _ (mask_bit m)).
  2: { intros i _. rewrite contains_bit by done. f_equal. apply Nat2Z.id. }
  unfold count. destruct m as [[|a [|b [|c [|d [|]]]]]]; try discriminate Hl. cbn [mask_bits] in *.
  rewrite length_filter_256.
  rewrite (count_word (mkMask [a; b; c; d]) 0 a eq_refl), (count_word (mkMask [a; b; c; d]) 1 b eq_refl),
    (count_word (mkMask [a; b; c; d]) 2 c eq_refl), (count_word (mkMask [a; b; c; d]) 3 d eq_refl).
  change (sum_list (count_ones <$> [a; b; c; d]))
    with (count_ones a + (count_ones b + (count_ones c + (count_ones d + 0))))%nat.
  lia.
Qed.

(** ** Run queues *)

Definition rq_queue (c : SchedulingClass) (q : CpuRunQueue) : list ProcessId :=
  match c with
  | Realtime => rq_realtime q
  | Interactive => rq_interactive q
  | Background => rq_background q
  end.

Definition rq_tasks (q : CpuRunQueue) : list ProcessId :=
  rq_realtime q ++ rq_interactive q ++ rq_background q.

(** The task counter agrees with the queues. *)
Definition rq_ok (q : CpuRunQueue) : Prop :=
  nr_running q = u32 (Z.of_nat (length (rq_tasks q))).

Lemma length_rq_tasks q :
  length (rq_tasks q)
  = (length (rq_realtime q) + length (rq_interactive q) + length (rq_background q))%nat.
Proof. unfold rq_tasks. rewrite !length_app. lia. Qed.

Lemma u32_step z d : u32 (u32 z + d) = u32 (z + d).
Proof. unfold u32, wrap. by rewrite Zplus_mod_idemp_l. Qed.

Lemma u32_pred z : u32 (u32 z - 1) = u32 (z - 1).
Proof. unfold u32, wrap. by rewrite Zminus_mod_idemp_l. Qed.

Lemma front_insert (p : ProcessId) l :
  vec_insert (default (length l) (position (λ _, true) l)) p l = p :: l.
Proof. destruct l as [|a l]; [done|]. done. Qed.

Lemma rq_enqueue_spec p c pr q :
  (∀ c', rq_queue c' (rq_enqueue p c pr q) =
     if decide (c' = c) then
       (if decide (c = Interactive) then p :: rq_queue c q else rq_queue c q ++ [p])
     else rq_queue c' q) ∧
  load (rq_enqueue p c pr q) = u64_add (load q) (pr + 1) ∧
  (rq_ok q → rq_ok (rq_enqueue p c pr q)).
Proof.
  split_and!.
  - intros c'. destruct c, c'; simpl; try done. apply front_insert.
  - by destruct c.
  - unfold rq_ok. intros Hq. rewrite length_rq_tasks in *.
    destruct c; simpl; rewrite ?front_insert, ?length_app; simpl;
      rewrite Hq, u32_step; f_equal; lia.
Qed.

Lemma dequeue_spec q :
  rq_ok q →
  match dequeue q with
  | (q', Some p) =>
      (∃ c, rq_queue c q = p :: rq_queue c q' ∧ (∀ c', before c' c → rq_queue c' q = []) ∧
            ∀ c', c' ≠ c → rq_queue c' q' = rq_queue c' q) ∧
      rq_ok q' ∧ load q' = load q
  | (q', None) => q' = q ∧ rq_tasks q = []
  end.
Proof.
  unfold rq_ok. intros Hq. unfold dequeue.
  rewrite length_rq_tasks in Hq. destruct q as [id nr ld qr qi qb]; simpl in *.
  destruct qr as [|x qr]; simpl in *.
  2: { split_and!; [|rewrite Hq, length_rq_tasks; simpl; rewrite u32_pred; f_equal; lia|done].
       exists Realtime. split_and!; [done|by intros []|by intros []]. }
  destruct qi as [|x qi]; simpl in *.
  2: { split_and!; [|rewrite Hq, length_rq_tasks; simpl; rewrite u32_pred; f_equal; lia|done].
       exists Interactive. split_and!; [done|by intros []|by intros []]. }
  destruct qb as [|x qb]; simpl in *; [done|].
  split_and!; [|rewrite Hq, length_rq_tasks; simpl; rewrite u32_pred; f_equal; lia|done].
  exists Background. split_and!; [done|by intros []|by intros []].
Qed.

Lemma steal_spec q :
  match steal q with
  | (q', Some (p, c)) =>
      c ≠ Realtime ∧ rq_queue c q = rq_queue c q' ++ [p] ∧
      (c = Interactive → rq_background q = []) ∧
      (∀ c', c' ≠ c → rq_queue c' q' = rq_queue c' q) ∧
      (rq_ok q → rq_ok q') ∧ load q' = load q
  | (q', None) => q' = q ∧ rq_interactive q = [] ∧ rq_background q = []
  end.
Proof.
  unfold steal, rq_ok. rewrite length_rq_tasks. destruct q as [id nr ld qr qi qb]; simpl in *.
  destruct (vec_pop qb) as [[x l]|] eqn:Eb.
  { apply vec_pop_Some in Eb as ->. split_and!; [done..|by intros []| |done].
    intros ->. rewrite length_rq_tasks; simpl. rewrite u32_pred, length_app. f_equal. simpl. lia. }
  apply vec_pop_None in Eb as ->. destruct (vec_pop qi) as [[x l]|] eqn:Ei.
  { apply vec_pop_Some in Ei as ->. split_and!; [done..|by intros []| |done].
    intros ->. rewrite length_rq_tasks; simpl. rewrite u32_pred, length_app. f_equal. simpl. lia. }
  by apply vec_pop_None in Ei as ->.
Qed.

(** ** The scheduler as a whole *)

Record smp_ok (s : SmpScheduler) : Prop := {
  so_len : length (run_queues s) = MAX_CPUS;
  so_cpus : 0 ≤ nr_cpus s ≤ 256;
  so_rq : Forall rq_ok (run_queues s)
}.

(** The tasks of one class over all CPUs. *)
Definition class_tasks (c : SchedulingClass) (s : SmpScheduler) : list ProcessId :=
  concat (rq_queue c <$> run_queues s).

(** [s'] holds the same tasks as [s], class by class, and agrees with it otherwise. *)
Definition same_tasks (s s' : SmpScheduler) : Prop :=
  (∀ c, class_tasks c s' ≡ₚ class_tasks c s) ∧ nr_cpus s' = nr_cpus s ∧
  rq_realtime <$> run_queues s' = rq_realtime <$> run_queues s.

Lemma smp_new_ok : smp_ok smp_new.
Proof.
  constructor; [apply length_replicate|simpl; lia|].
  by apply Forall_replicate.
Qed.

Lemma rq_lookup s i : smp_ok s → (i < 256)%nat → ∃ q, run_queues s !! i = Some q ∧ rq_ok q.
Proof.
  intros [Hl _ Hrq] Hi. destruct (lookup_lt_is_Some_2 (run_queues s) i) as [q Hq];
    [by rewrite Hl|]. exists q. split; [done|]. by eapply (Forall_lookup_1 _ _ i q Hrq).
Qed.

Lemma set_rq_ok s i q : smp_ok s → rq_ok q → smp_ok (set_rq i q s).
Proof.
  intros [] Hq. constructor; simpl; [by rewrite length_insert|done|].
  by apply Forall_insert.
Qed.

Lemma cpus_bound s : smp_ok s → (cpus s ≤ 256)%nat.
Proof. intros []. unfold cpus. lia. Qed.

(** Replacing the queue of one CPU, as seen in the tasks of a class. *)
Lemma class_tasks_set c s i q q' :
  run_queues s !! i = Some q →
  rq_queue c q ++ class_tasks c (set_rq i q' s) ≡ₚ rq_queue c q' ++ class_tasks c s.
Proof. intros Hi. by apply concat_insert. Qed.

Lemma same_tasks_refl s : same_tasks s s.
Proof. by split_and!. Qed.

Lemma same_tasks_trans s1 s2 s3 : same_tasks s1 s2 → same_tasks s2 s3 → same_tasks s1 s3.
Proof.
  intros (H1 & H2 & H3) (H4 & H5 & H6). split_and!; [|congruence..].
  intros c. by rewrite H4.
Qed.

(** Choosing a CPU: the search keeps the least loaded CPU of the mask seen so far. *)
Definition best_so_far (s : SmpScheduler) (m : CpuMask) (n : nat) (b : CpuId * Z) : Prop :=
  (b = (BSP, u64_max) ∧
   (∀ i q, (i < n)%nat → mask_bit m i = true → run_queues s !! i = Some q → u64_max ≤ load q)) ∨
  (∃ i q, b = (mkCpu (Z.of_nat i), load q) ∧ (i < n)%nat ∧ mask_bit m i = true ∧
     run_queues s !! i = Some q ∧ load q < u64_max ∧
     ∀ j r, (j < n)%nat → mask_bit m j = true → run_queues s !! j = Some r →
       load q < load r ∨ load q = load r ∧ (i ≤ j)%nat).

Lemma contains_nat m i : mask_ok m → (i < 256)%nat →
  contains m (mkCpu (u32 (Z.of_nat i))) = mask_bit m i ∧ u32 (Z.of_nat i) = Z.of_nat i.
Proof.
  intros Hm Hi. assert (He : u32 (Z.of_nat i) = Z.of_nat i) by (apply Z.mod_small; lia).
  split; [|done]. rewrite He, contains_bit by done. f_equal. apply Nat2Z.id.
Qed.

Lemma select_step s m i b :
  smp_ok s → mask_ok m → (i < 256)%nat → best_so_far s m i b →
  ∃ b', select_body s m i b = Some b' ∧ best_so_far s m (S i) b'.
Proof.
  intros Hs Hm Hi Hb. destruct (contains_nat m i Hm Hi) as [Hc He].
  unfold select_body. rewrite Hc, He.
  destruct (rq_lookup s i Hs Hi) as (q & Hq & _).
  destruct (mask_bit m i) eqn:Hmi.
  2: { exists b. split; [done|]. destruct Hb as [[-> Hb]|(k & r & -> & ? & ? & ? & ? & Hb)].
       - left. split; [done|]. intros j r Hj Hmj. destruct (decide (j = i)) as [->|]; [congruence|].
         apply Hb; [lia|done].
       - right. exists k, r. split_and!; [done|lia|done..|]. intros j r' Hj Hmj.
         destruct (decide (j = i)) as [->|]; [congruence|]. apply Hb; [lia|done]. }
  rewrite Hq. simpl. unfold get_load.
  destruct Hb as [[-> Hb]|(k & r & -> & Hk & Hmk & Hkr & Hlt & Hb)]; simpl.
  - destruct (Z.ltb_spec (load q) u64_max).
    + eexists. split; [done|]. right. exists i, q. split_and!; [done|lia|done..|].
      intros j r Hj Hmj Hr. destruct (decide (j = i)) as [->|]; [simplify_eq; lia|].
      specialize (Hb j r ltac:(lia) Hmj Hr). lia.
    + eexists. split; [done|]. left. split; [done|]. intros j r Hj Hmj Hr.
      destruct (decide (j = i)) as [->|]; [by simplify_eq|]. apply (Hb j r); [lia|done..].
  - destruct (Z.ltb_spec (load q) (load r)).
    + eexists. split; [done|]. right. exists i, q. split_and!; [done|lia|done|done|lia|].
      intros j r' Hj Hmj Hr. destruct (decide (j = i)) as [->|]; [simplify_eq; lia|].
      specialize (Hb j r' ltac:(lia) Hmj Hr). lia.
    + eexists. split; [done|]. right. exists k, r. split_and!; [done|lia|done..|].
      intros j r' Hj Hmj Hr. destruct (decide (j = i)) as [->|]; [simplify_eq; lia|].
      apply Hb; [lia|done..].
Qed.

Lemma select_search s m :
  smp_ok s → mask_ok m →
  ∃ b, for_range (cpus s) 0 (select_body s m) (BSP, u64_max) = Some b ∧
       best_so_far s m (cpus s) b.
Proof.
  intros Hs Hm. apply (for_range_inv (best_so_far s m)).
  - intros i b Hi. pose proof (cpus_bound s Hs). apply select_step; [done..|lia].
  - left. split; [done|]. intros; lia.
Qed.

(** Stealing moves one interactive or background task out of one queue. *)
Lemma try_steal_spec idle s :
  smp_ok s →
  ∃ s' r, try_steal idle s = Some (s', r) ∧ smp_ok s' ∧ nr_cpus s' = nr_cpus s ∧
    (rq_realtime <$> run_queues s') = (rq_realtime <$> run_queues s) ∧
    match r with
    | Some (p, c) => c ≠ Realtime ∧
        ∀ c', class_tasks c' s ≡ₚ (if decide (c' = c) then [p] else []) ++ class_tasks c' s'
    | None => s' = s
    end.
Proof.
  intros Hs. unfold try_steal. pose proof (cpus_bound s Hs) as Hb.
  destruct (for_range_inv (λ _ b, (b.1 < 256)%nat) (busiest_body s (as_index idle)) (cpus s)
              0 (0%nat, 0)) as ([k ld] & -> & Hk); [|simpl; lia|].
  { intros i b Hi Hb'. unfold busiest_body. case_decide; [|eauto].
    destruct (rq_lookup s i Hs) as (q & -> & _); [lia|]. simpl.
    destruct (_ <? _); eauto. eexists. split; [done|]. simpl. lia. }
  simpl in *. destruct (0 <? ld); [|exists s, None; by split_and!].
  destruct (rq_lookup s k Hs Hk) as (q & Hq & Hqok). rewrite Hq. simpl.
  pose proof (steal_spec q) as Hst. destruct (steal q) as [q' [[p c]|]].
  - destruct Hst as (Hc & Hqc & _ & Hoth & Hok & _).
    exists (set_rq k q' s), (Some (p, c)). split_and!; [done|by apply set_rq_ok; auto|done| |done|].
    + simpl. rewrite list_fmap_insert. apply list_insert_id. rewrite list_lookup_fmap, Hq. simpl.
      f_equal. symmetry. apply (Hoth Realtime). congruence.
    + intros c'. pose proof (class_tasks_set c' s k q q' Hq) as Hp. case_decide as Hcc.
      * subst c'. rewrite Hqc, <-app_assoc in Hp. by apply Permutation_app_inv_l in Hp.
      * rewrite Hoth in Hp by done. by apply Permutation_app_inv_l in Hp.
  - destruct Hst as [-> _]. exists (set_rq k q s), None.
    assert (set_rq k q s = s) as -> by (destruct s; unfold set_rq; simpl in *; by rewrite list_insert_id).
    by split_and!.
Qed.

Lemma set_rq_enqueue_tasks s i q p c pr c' :
  run_queues s !! i = Some q →
  class_tasks c' (set_rq i (rq_enqueue p c pr q) s)
  ≡ₚ (if decide (c' = c) then [p] else []) ++ class_tasks c' s.
Proof.
  intros Hq. pose proof (class_tasks_set c' s i q (rq_enqueue p c pr q) Hq) as Hp.
  destruct (rq_enqueue_spec p c pr q) as (He & _). rewrite He in Hp.
  destruct (decide (c' = c)) as [->|]; [|by apply Permutation_app_inv_l in Hp].
  apply (Permutation_app_inv_l (rq_queue c q)). rewrite Hp.
  case_decide; simpl; [apply Permutation_middle|by rewrite <-app_assoc].
Qed.

Lemma set_rq_enqueue_realtime s i q p c pr :
  run_queues s !! i = Some q → c ≠ Realtime →
  (rq_realtime <$> run_queues (set_rq i (rq_enqueue p c pr q) s))
  = (rq_realtime <$> run_queues s).
Proof.
  intros Hq Hc. simpl. rewrite list_fmap_insert. apply list_insert_id.
  rewrite list_lookup_fmap, Hq. simpl. f_equal. by destruct c.
Qed.

Lemma balance_step avg i s ipis :
  smp_ok s → (i < 256)%nat →
  ∃ s' ipis', balance_body avg i (s, ipis) = Some (s', ipis') ∧ smp_ok s' ∧ same_tasks s s'.
Proof.
  intros Hs Hi. unfold balance_body.
  destruct (rq_lookup s i Hs Hi) as (q & -> & _). simpl.
  destruct (get_load q <? avg / 2); [|exists s, ipis; split_and!; [done..|apply same_tasks_refl]].
  destruct (try_steal_spec (mkCpu (u32 (Z.of_nat i))) s Hs) as (s1 & r & -> & Hs1 & Hn & Hrt & Hr).
  simpl. destruct r as [[p c]|].
  - destruct Hr as [Hc Hr]. destruct (rq_lookup s1 i Hs1 Hi) as (q1 & Hq1 & Hok). rewrite Hq1. simpl.
    eexists _, _. split; [done|]. split; [by apply set_rq_ok, rq_enqueue_spec|].
    split_and!; [|done|].
    + intros c'. by rewrite (set_rq_enqueue_tasks s1 i q1 p c 128 c' Hq1), (Hr c').
    + by rewrite set_rq_enqueue_realtime.
  - subst s1. eexists _, _. split_and!; [done..|apply same_tasks_refl].
Qed.

Lemma total_load_some s : smp_ok s → ∃ t, total_load s = Some t.
Proof.
  intros Hs. unfold total_load. pose proof (cpus_bound s Hs).
  destruct (for_range_inv (λ _ _, True)
    (λ i acc, q ← run_queues s !! i; Some (u64_add acc (get_load q))) (cpus s) 0 0)
    as (t & -> & _); [|done|eauto].
  intros i t Hi _. destruct (rq_lookup s i Hs) as (q & -> & _); [lia|]. simpl. eauto.
Qed.

(** ** Taking a CPU offline *)

(** What the drain of queue [idx] achieves: its interactive and background tasks
    are on CPU 0, its realtime tasks stay behind. *)
Record drained (idx : nat) (s s' : SmpScheduler) : Prop := {
  dr_same : same_tasks s s';
  dr_ok : smp_ok s';
  dr_empty : ∃ q', run_queues s' !! idx = Some q' ∧ rq_interactive q' = [] ∧ rq_background q' = [];
  dr_others : ∀ i, i ≠ idx → i ≠ 0%nat → run_queues s' !! i = run_queues s !! i
}.

Lemma drain_spec idx fuel : ∀ s q,
  smp_ok s → idx ≠ 0%nat → run_queues s !! idx = Some q →
  (length (rq_interactive q) + length (rq_background q) < fuel)%nat →
  ∃ s', drain fuel idx s = Some s' ∧ drained idx s s'.
Proof.
  induction fuel as [|fuel IH]; intros s q Hs Hidx Hq Hf; [lia|]. simpl. rewrite Hq. simpl.
  assert (Hidl : (idx < 256)%nat) by (apply lookup_lt_Some in Hq; by rewrite (so_len s Hs) in Hq).
  pose proof (steal_spec q) as Hst. destruct (steal q) as [q' [[p c]|]].
  2: { destruct Hst as (-> & Hi & Hb).
       assert (set_rq idx q s = s) as -> by (destruct s; unfold set_rq; simpl in *; by rewrite list_insert_id).
       exists s. split; [done|]. constructor; [apply same_tasks_refl|done|eauto|done]. }
  destruct Hst as (Hc & Hqc & _ & Hoth & Hok & _).
  assert (Hqok : rq_ok q) by by eapply (Forall_lookup_1 _ _ _ _ (so_rq s Hs)).
  set (s1 := set_rq idx q' s).
  assert (Hs1 : smp_ok s1) by (apply set_rq_ok; auto).
  destruct (rq_lookup s1 0 Hs1) as (q0 & Hq0 & Hq0ok); [lia|].
  assert (Hq0' := Hq0). simpl in Hq0'. rewrite Hq0'. simpl. clear Hq0'.
  set (s2 := set_rq 0 (rq_enqueue p c 128 q0) s1).
  destruct (IH s2 q') as (s' & -> & [Hsame Hok' Hem Hot]).
  - by apply set_rq_ok, rq_enqueue_spec.
  - done.
  - simpl. rewrite list_lookup_insert_ne by done. apply list_lookup_insert_eq.
    by rewrite (so_len s Hs).
  - destruct c; [done|..]; simpl in *.
    + pose proof (Hoth Background ltac:(done)) as Hb. simpl in Hb. rewrite Hb.
      rewrite Hqc, length_app in Hf. simpl in Hf. lia.
    + pose proof (Hoth Interactive ltac:(done)) as Hb. simpl in Hb. rewrite Hb.
      rewrite Hqc, length_app in Hf. simpl in Hf. lia.
  - exists s'. split; [done|]. constructor; [|done|done|].
    + eapply same_tasks_trans; [|exact Hsame]. split_and!; [|done|].
      * intros c'. unfold s2. rewrite (set_rq_enqueue_tasks s1 0 q0 p c 128 c' Hq0).
        pose proof (class_tasks_set c' s idx q q' Hq) as Hp. fold s1 in Hp. case_decide as Hcc.
        -- subst c'. rewrite Hqc, <-app_assoc in Hp. by apply Permutation_app_inv_l in Hp.
        -- rewrite Hoth in Hp by done. by apply Permutation_app_inv_l in Hp.
      * unfold s2. rewrite set_rq_enqueue_realtime by done. simpl. rewrite list_fmap_insert.
        apply list_insert_id. rewrite list_lookup_fmap, Hq. simpl. f_equal. symmetry.
        apply (Hoth Realtime). congruence.
    + intros i Hi Hi0. rewrite Hot by done. simpl. by rewrite !list_lookup_insert_ne.
Qed.

(** Draining CPU 0 puts each stolen task back where it came from. *)
Lemma drain_bsp_diverges fuel : ∀ s q,
  run_queues s !! 0%nat = Some q → rq_background q ≠ [] ∨ rq_interactive q ≠ [] →
  drain fuel 0 s = None.
Proof.
  induction fuel as [|fuel IH]; intros s q Hq Hne; [done|]. simpl. rewrite Hq. simpl.
  assert (H0 : ∀ x, run_queues (set_rq 0 x s) !! 0%nat = Some x).
  { intros x. simpl. apply list_lookup_insert_eq. by apply lookup_lt_Some in Hq. }
  pose proof (steal_spec q) as Hst. destruct (steal q) as [q' [[p c]|]].
  2: { destruct Hst as (_ & ? & ?). naive_solver. }
  destruct Hst as (Hc & _). specialize (H0 q'). simpl in H0. rewrite H0. simpl.
  eapply (IH _ (rq_enqueue p c 128 q')).
  - simpl. apply list_lookup_insert_eq. rewrite length_insert. by apply lookup_lt_Some in Hq.
  - destruct (rq_enqueue_spec p c 128 q') as (He & _).
    destruct c; [done|right|left]; simpl.
    + by rewrite front_insert.
    + by destruct (rq_background q').
Qed.

(** ** Properties *)

(** Affinity masks are sets of CPUs below 256: after [set], [clear], [single]
    the members are those expected (a CPU of 256 or more is ignored), [first] is the
    least member and [None] exactly for the empty mask, [count] the number of
    members. *)
Theorem mask_correct m c :
  mask_ok m →
  mask_ok (set c m) ∧ mask_ok (clear c m) ∧ mask_ok (single c) ∧ mask_ok all ∧
  (∀ d, contains (set c m) d
        = (contains m d || bool_decide (as_index d = as_index c ∧ (as_index c < 256)%nat))) ∧
  (∀ d, contains (clear c m) d = (contains m d && bool_decide (as_index d ≠ as_index c))) ∧
  (∀ d, contains (single c) d = true ↔ as_index d = as_index c ∧ (as_index c < 256)%nat) ∧
  (∀ d, contains all d = true ↔ (as_index d < 256)%nat) ∧
  match first m with
  | Some f => contains m f = true ∧ ∀ d, contains m d = true → (as_index f ≤ as_index d)%nat
  | None => ∀ d, contains m d = false
  end ∧
  count m = length (filter (λ i, contains m (mkCpu (Z.of_nat i)) = true) (seq 0 256)).
Proof.
  intros Hm.
  pose proof mask_none_ok as Hnone. pose proof mask_all_ok as Hall.
  split_and!; [apply set_spec|apply clear_spec|apply set_spec|..|by apply first_spec|by apply count_spec];
    try done; [by apply set_spec|by apply clear_spec|..]; intros d.
  - unfold single. rewrite (proj2 (set_spec none c Hnone)), contains_bit by done.
    rewrite orb_true_iff, bool_decide_eq_true. unfold mask_bit, none; cbn [mask_bits].
    destruct (replicate 4 0 !! _) as [w|] eqn:E; [|naive_solver].
    apply lookup_replicate in E as [-> _]. rewrite Z.bits_0. naive_solver.
  - split; [rewrite contains_bit by done; by apply mask_bit_lt|]. intros Hd.
    rewrite contains_bit by done. unfold mask_bit, all; cbn [mask_bits].
    rewrite lookup_replicate_2 by (apply Nat.Div0.div_lt_upper_bound; lia).
    pose proof (Nat.mod_upper_bound (as_index d) 64 ltac:(done)).
    apply (Z.ones_spec_low 64). lia.
Qed.

Lemma mask_correct_witness :
  mask_ok (single (mkCpu 3)) ∧ contains (clear (mkCpu 3) (single (mkCpu 3))) (mkCpu 3) = false.
Proof.
  assert (H : mask_ok (single (mkCpu 3))) by (apply set_spec, mask_none_ok).
  split; [exact H|].
  rewrite (proj1 (proj2 (proj2 (proj2 (proj2 (proj2 (mask_correct (single (mkCpu 3)) (mkCpu 3) H)))))) (mkCpu 3)).
  vm_compute. reflexivity.
Defined.

(** The queue of one CPU: the task counter equals the number of queued tasks
    (modulo [2^32]) after every operation; [dequeue] serves realtime tasks first in,
    first out, then interactive tasks last in, first out (the insertion position is
    always the front, whatever the priorities), then background tasks first in,
    first out; [steal] takes the last background task, or the oldest interactive one
    when there is none, never a realtime task; neither lowers the load. *)
Theorem run_queue_correct q :
  rq_ok q →
  (∀ p c pr,
     rq_ok (rq_enqueue p c pr q) ∧ load (rq_enqueue p c pr q) = u64_add (load q) (pr + 1) ∧
     ∀ c', rq_queue c' (rq_enqueue p c pr q) =
       if decide (c' = c) then
         (if decide (c = Interactive) then p :: rq_queue c q else rq_queue c q ++ [p])
       else rq_queue c' q) ∧
  match dequeue q with
  | (q', Some p) =>
      (∃ c, rq_queue c q = p :: rq_queue c q' ∧ (∀ c', before c' c → rq_queue c' q = []) ∧
            ∀ c', c' ≠ c → rq_queue c' q' = rq_queue c' q) ∧
      rq_ok q' ∧ load q' = load q
  | (q', None) => q' = q ∧ rq_tasks q = []
  end ∧
  match steal q with
  | (q', Some (p, c)) =>
      c ≠ Realtime ∧ rq_queue c q = rq_queue c q' ++ [p] ∧
      (c = Interactive → rq_background q = []) ∧
      (∀ c', c' ≠ c → rq_queue c' q' = rq_queue c' q) ∧ rq_ok q' ∧ load q' = load q
  | (q', None) => q' = q ∧ rq_interactive q = [] ∧ rq_background q = []
  end.
Proof.
  intros Hq. split_and!.
  - intros p c pr. destruct (rq_enqueue_spec p c pr q) as (? & ? & ?). auto.
  - by apply dequeue_spec.
  - pose proof (steal_spec q) as Hs. destruct (steal q) as [q' [[p c]|]]; naive_solver.
Qed.

Definition w_rq : CpuRunQueue :=
  rq_enqueue (mkPid 3) Interactive 200 (rq_enqueue (mkPid 2) Interactive 10
    (rq_enqueue (mkPid 1) Background 5 (rq_new BSP))).

Lemma run_queue_correct_witness :
  rq_ok w_rq ∧ rq_queue Interactive (rq_enqueue (mkPid 9) Interactive 0 w_rq)
               = mkPid 9 :: rq_queue Interactive w_rq.
Proof.
  assert (H : rq_ok w_rq) by (vm_compute; reflexivity).
  split; [exact H|].
  exact (proj2 (proj2 (proj1 (run_queue_correct w_rq H) (mkPid 9) Interactive 0)) Interactive).
Defined.

(** Placement never panics with at most 256 CPUs online: a task goes to its last
    CPU when the mask allows it (online or not), else to the least loaded online CPU
    of the mask, the lowest-numbered of equals; when no online CPU is in the mask it
    goes to CPU 0, in the mask or not. It is added to that CPU's queue of its class
    and no other task moves. *)
Theorem placement_correct p class pr m last s :
  smp_ok s → mask_ok m →
  ∃ cpu q, select_cpu m last s = Some cpu ∧ run_queues s !! as_index cpu = Some q ∧
    enqueue p class pr m last s
    = Some (set_rq (as_index cpu) (rq_enqueue p class pr q) s) ∧
    smp_ok (set_rq (as_index cpu) (rq_enqueue p class pr q) s) ∧
    (∀ c, class_tasks c (set_rq (as_index cpu) (rq_enqueue p class pr q) s)
          ≡ₚ (if decide (c = class) then [p] else []) ++ class_tasks c s) ∧
    ((∃ l, last = Some l ∧ contains m l = true ∧ cpu = l) ∨
     best_so_far s m (cpus s) (cpu, load q) ∨
     cpu = BSP ∧ ∀ i r, (i < cpus s)%nat → mask_bit m i = true →
                        run_queues s !! i = Some r → u64_max ≤ load r).
Proof.
  intros Hs Hm.
  assert (Hsel : ∃ cpu q, select_cpu m last s = Some cpu ∧ run_queues s !! as_index cpu = Some q ∧
    ((∃ l, last = Some l ∧ contains m l = true ∧ cpu = l) ∨
     best_so_far s m (cpus s) (cpu, load q) ∨
     cpu = BSP ∧ ∀ i r, (i < cpus s)%nat → mask_bit m i = true →
                        run_queues s !! i = Some r → u64_max ≤ load r)).
  { destruct (select_search s m Hs Hm) as (b & Hb & Hbest).
    assert (Hfall : ∃ cpu q, fst <$> for_range (cpus s) 0 (select_body s m) (BSP, u64_max) = Some cpu ∧
      run_queues s !! as_index cpu = Some q ∧
      (best_so_far s m (cpus s) (cpu, load q) ∨
       cpu = BSP ∧ ∀ i r, (i < cpus s)%nat → mask_bit m i = true →
                          run_queues s !! i = Some r → u64_max ≤ load r)).
    { rewrite Hb. simpl. pose proof Hbest as [[-> Hn]|(i & q & -> & Hi & Hmi & Hq & Hlt & Hmin)].
      - destruct (rq_lookup s 0 Hs) as (q & Hq & _); [lia|]. exists BSP, q. eauto.
      - exists (mkCpu (Z.of_nat i)), q. split_and!; [done| |by left].
        change (as_index (mkCpu (Z.of_nat i))) with (Z.to_nat (Z.of_nat i)). by rewrite Nat2Z.id. }
    destruct last as [l|]; simpl; [|naive_solver].
    destruct (contains m l) eqn:Hl; [|naive_solver].
    pose proof Hl as Hl'. rewrite contains_bit in Hl' by done. apply mask_bit_lt in Hl'; [|done].
    destruct (rq_lookup s (as_index l) Hs Hl') as (q & Hq & _). exists l, q. eauto 10. }
  destruct Hsel as (cpu & q & Hc & Hq & Hwhy). exists cpu, q.
  assert (rq_ok q) by by eapply (Forall_lookup_1 _ _ _ _ (so_rq s Hs)).
  unfold enqueue. rewrite Hc. simpl. rewrite Hq. simpl. split_and!; try done.
  - by apply set_rq_ok, rq_enqueue_spec.
  - intros c. by apply set_rq_enqueue_tasks.
Qed.

Lemma placement_correct_witness :
  ∃ cpu q, select_cpu (single (mkCpu 5)) None smp_new = Some cpu ∧
    run_queues smp_new !! as_index cpu = Some q ∧ cpu = BSP.
Proof.
  destruct (placement_correct (mkPid 1) Background 10 (single (mkCpu 5)) None smp_new smp_new_ok)
    as (cpu & q & H1 & H2 & _); [apply set_spec, mask_none_ok|].
  exists cpu, q. split; [exact H1|]. split; [exact H2|].
  vm_compute in H1. injection H1 as <-. reflexivity.
Defined.

(** [load_balance] never panics with at most 256 CPUs online and neither loses,
    duplicates nor reclassifies a task: per class the tasks over all CPUs are the same
    before and after, realtime queues are untouched, and the counters stay exact. *)
Theorem load_balance_conserves s :
  smp_ok s →
  ∃ s' ipis, load_balance s = Some (s', ipis) ∧ smp_ok s' ∧
    (∀ c, class_tasks c s' ≡ₚ class_tasks c s) ∧ nr_cpus s' = nr_cpus s ∧
    (rq_realtime <$> run_queues s') = (rq_realtime <$> run_queues s) ∧
    (balance_tick s mod 100 ≠ 0 → run_queues s' = run_queues s ∧ ipis = []).
Proof.
  intros Hs. unfold load_balance.
  set (s1 := mkSmp (run_queues s) (nr_cpus s) (u64_add (balance_tick s) 1)).
  assert (Hs1 : smp_ok s1) by (destruct Hs; by constructor).
  case_decide as Ht; [exists s1, []; by split_and!|].
  destruct (nr_cpus s1 <=? 1); [exists s1, []; by split_and!|].
  destruct (total_load_some s1 Hs1) as [t ->]. simpl. pose proof (cpus_bound s1 Hs1).
  destruct (for_range_inv (λ _ st, smp_ok st.1 ∧ same_tasks s1 st.1) (balance_body (t / nr_cpus s1))
              (cpus s1) 0 (s1, [])) as ([s' ipis] & Hf & Hok & Hsame & Hn & Hrt).
  - intros i [s2 l] Hi [Hok Hsame]. simpl in *.
    destruct (balance_step (t / nr_cpus s1) i s2 l Hok) as (s3 & l' & H3 & Hok3 & Hsame3); [lia|].
    exists (s3, l'). split_and!; [done..|]. by eapply same_tasks_trans.
  - split; [done|apply same_tasks_refl].
  - exists s', ipis. split_and!; done.
Qed.

Definition w_smp : SmpScheduler :=
  set_rq 1 (rq_enqueue (mkPid 2) Realtime 9 w_rq) (cpu_online (mkCpu 1) smp_new).

Lemma w_smp_ok : smp_ok w_smp.
Proof.
  apply set_rq_ok; [|by vm_compute]. destruct smp_new_ok as [Hl Hc Hr].
  constructor; [exact Hl|vm_compute; split; done|exact Hr].
Qed.

Lemma load_balance_conserves_witness :
  ∃ s' ipis, load_balance w_smp = Some (s', ipis) ∧ ipis = [mkCpu 0] ∧
    (∀ c, class_tasks c s' ≡ₚ class_tasks c w_smp).
Proof.
  destruct (load_balance_conserves w_smp w_smp_ok) as (s' & ipis & H1 & _ & H2 & _).
  exists s', ipis. split; [exact H1|]. split; [|exact H2].
  assert (He : snd <$> load_balance w_smp = Some [mkCpu 0]) by (vm_compute; reflexivity).
  rewrite H1 in He. by injection He.
Defined.

(** Taking a CPU other than the first offline terminates (in at most as many
    iterations as it has interactive and background tasks, plus one) and moves
    exactly those tasks to CPU 0: no task is lost, but the realtime tasks stay in the
    queue of the CPU that went away. For CPU 0 itself the loop puts back what it takes
    and never ends as long as one such task is queued. *)
Theorem cpu_offline_correct cpu s q :
  smp_ok s → 1 ≤ nr_cpus s → run_queues s !! as_index cpu = Some q →
  (as_index cpu ≠ 0%nat → ∀ fuel,
     (length (rq_interactive q) + length (rq_background q) < fuel)%nat →
     ∃ s' q', cpu_offline fuel cpu s = Some s' ∧ smp_ok s' ∧ nr_cpus s' = nr_cpus s - 1 ∧
       (∀ c, class_tasks c s' ≡ₚ class_tasks c s) ∧
       run_queues s' !! as_index cpu = Some q' ∧
       rq_realtime q' = rq_realtime q ∧ rq_interactive q' = [] ∧ rq_background q' = [] ∧
       (∀ i, i ≠ as_index cpu → i ≠ 0%nat → run_queues s' !! i = run_queues s !! i)) ∧
  (as_index cpu = 0%nat → rq_background q ≠ [] ∨ rq_interactive q ≠ [] →
   ∀ fuel, cpu_offline fuel cpu s = None).
Proof.
  intros Hs Hn Hq. unfold cpu_offline.
  set (s1 := mkSmp (run_queues s) (u32 (nr_cpus s - 1)) (balance_tick s)).
  assert (Hu : u32 (nr_cpus s - 1) = nr_cpus s - 1)
    by (apply Z.mod_small; destruct Hs; lia).
  assert (Hs1 : smp_ok s1) by (destruct Hs; constructor; simpl; [done|lia|done]).
  split.
  - intros Hne fuel Hf.
    destruct (drain_spec (as_index cpu) fuel s1 q Hs1 Hne Hq Hf)
      as (s' & -> & [(Hc & Hn' & Hrt) Hok (q' & Hq' & Hi & Hb) Hoth]).
    exists s', q'. split_and!; try done; [by rewrite Hn'; exact Hu|].
    assert (Hr : (rq_realtime <$> run_queues s') !! as_index cpu
                 = (rq_realtime <$> run_queues s1) !! as_index cpu) by by rewrite Hrt.
    rewrite !list_lookup_fmap, Hq' in Hr. simpl in Hr. rewrite Hq in Hr. by injection Hr.
  - intros H0 Hne fuel. rewrite H0 in *. by apply (drain_bsp_diverges fuel s1 q).
Qed.

Lemma cpu_offline_correct_witness :
  ∃ s' q', cpu_offline 4 (mkCpu 1) w_smp = Some s' ∧ run_queues s' !! 1%nat = Some q' ∧
           rq_realtime q' = [mkPid 2].
Proof.
  destruct (cpu_offline_correct (mkCpu 1) w_smp (rq_enqueue (mkPid 2) Realtime 9 w_rq)) as [H _];
    [exact w_smp_ok|vm_compute; done|vm_compute; reflexivity|].
  destruct (H ltac:(vm_compute; done) 4%nat ltac:(apply Nat.ltb_lt; vm_compute; reflexivity))
    as (s' & q' & H1 & _ & _ & _ & H2 & H3 & _).
  exists s', q'. split; [exact H1|]. split; [exact H2|exact H3].
Defined.
