(* ===== verification/Ipc.v ===== *)
(** * Ipc: channels and asynchronous operations ([kernel/src/ipc/mod.rs])

    The ring-buffer [Channel], the [IpcManager] with its channel table, and the
    [AsyncIpcManager] that queues operations on full and empty channels. The
    manager and the global [ASYNC_IPC] are one state, [Ipc]. The timestamp read
    by [get_timestamp] is an argument. *)

From Stdlib Require Import ZArith Lia.
From stdpp Require Import gmap.
From S2P Require Import Prelude.
From S2P Require Import Ids.

(** ** Data *)

Record ChannelId := mkChan { chan_raw : Z }.

#[global] Instance ChannelId_eq_dec : EqDecision ChannelId.
Proof. solve_decision. Defined.
#[global] Instance ChannelId_countable : Countable ChannelId.
Proof. by refine (inj_countable' chan_raw mkChan _); intros []. Defined.
#[global] Instance ChannelId_order : KeyOrder ChannelId.
Proof. refine (KeyOrder_of chan_raw _). intros [] []; simpl; congruence. Defined.

Record IpcConfig := mkIpcConfig {
  max_message_size : nat;
  max_channels : nat;
  default_buffer_size : nat
}.

Definition IpcConfig_default : IpcConfig :=
  mkIpcConfig (Z.to_nat (64 * 1024)) (Z.to_nat 65536) 16.

Inductive MessageData :=
| Inline (data : list Z)
| SharedRef (addr : Z) (size : Z).

Record Message := mkMsg {
  msg_sender : ProcessId;
  msg_data : MessageData;
  msg_capability : option CapabilityToken;
  msg_sequence : Z
}.

Definition inline (sender : ProcessId) (data : list Z) : Message :=
  mkMsg sender (Inline data) None 0.
Definition shared (sender : ProcessId) (addr size : Z) : Message :=
  mkMsg sender (SharedRef addr size) None 0.
Definition with_capability (cap : CapabilityToken) (m : Message) : Message :=
  mkMsg (msg_sender m) (msg_data m) (Some cap) (msg_sequence m).
(** [message.sequence = n]. *)
Definition stamp (n : Z) (m : Message) : Message :=
  mkMsg (msg_sender m) (msg_data m) (msg_capability m) n.

Inductive EndpointType := Sender | Receiver | Bidirectional.

Inductive IpcError :=
| ChannelNotFound | NotAuthorized | ChannelClosed | BufferFull | BufferEmpty
| MessageTooLarge | TooManyChannels | InvalidCapability | Timeout | WouldBlock
| PendingNotFound | TooManyPending.

#[global] Instance IpcError_eq_dec : EqDecision IpcError.
Proof. solve_decision. Defined.

Record Channel := mkChannel {
  ch_id : ChannelId;
  ch_sender : ProcessId;
  ch_receiver : ProcessId;
  buffer : list (option Message);
  write_pos : nat;
  read_pos : nat;
  message_count : nat;
  next_sequence : Z;
  closed : bool
}.

(** ** Channels *)

Definition channel_new (id : ChannelId) (sender receiver : ProcessId) (buffer_size : nat) :
    Channel :=
  mkChannel id sender receiver (replicate buffer_size None) 0 0 0 0 false.

Definition is_full (c : Channel) : bool := (length (buffer c) <=? message_count c)%nat.
Definition is_empty (c : Channel) : bool := (message_count c =? 0)%nat.

Definition channel_send (message : Message) (c : Channel) : Channel * Result unit IpcError :=
  if closed c then (c, Err ChannelClosed)
  else if is_full c then (c, Err BufferFull)
  else
    let message := stamp (next_sequence c) message in
    (mkChannel (ch_id c) (ch_sender c) (ch_receiver c)
       (<[write_pos c := Some message]> (buffer c))
       ((write_pos c + 1) mod length (buffer c))
       (read_pos c) (message_count c + 1) (u64_add (next_sequence c) 1) (closed c),
     Ok tt).

Definition channel_receive (c : Channel) : Channel * Result Message IpcError :=
  if is_empty c then
    (c, Err (if closed c then ChannelClosed else BufferEmpty))
  else
    match buffer c !! read_pos c with
    | Some (Some message) =>
        (mkChannel (ch_id c) (ch_sender c) (ch_receiver c)
           (<[read_pos c := None]> (buffer c))
           (write_pos c) ((read_pos c + 1) mod length (buffer c))
           (message_count c - 1) (next_sequence c) (closed c),
         Ok message)
    | _ => (c, Err BufferEmpty)
    end.

Definition set_closed (c : Channel) : Channel :=
  mkChannel (ch_id c) (ch_sender c) (ch_receiver c) (buffer c) (write_pos c) (read_pos c)
            (message_count c) (next_sequence c) true.

(** ** Asynchronous operations *)

Record PendingId := mkPending { pending_raw : Z }.

#[global] Instance PendingId_eq_dec : EqDecision PendingId.
Proof. solve_decision. Defined.

Inductive AsyncOpType := AsyncSend | AsyncReceive.

Record PendingOp := mkOp {
  po_id : PendingId;
  po_channel_id : ChannelId;
  po_process : ProcessId;
  po_op_type : AsyncOpType;
  po_message : option Message;
  po_queued_at : Z;
  po_timeout : Z
}.

Record AsyncIpcManager := mkAsync {
  pending_sends : gmap ChannelId (list PendingOp);
  pending_receives : gmap ChannelId (list PendingOp);
  next_pending_id : Z;
  max_pending_per_channel : nat
}.

Definition async_new (max_pending : nat) : AsyncIpcManager := mkAsync ∅ ∅ 1 max_pending.

(** [pending.entry(channel_id).or_insert_with(Vec::new)]. *)
Definition entry_or_new (ch : ChannelId) (m : gmap ChannelId (list PendingOp)) : list PendingOp :=
  default [] (m !! ch).

Definition queue_send (now : Z) (channel_id : ChannelId) (process : ProcessId)
    (message : Message) (timeout : Z) (a : AsyncIpcManager) :
    AsyncIpcManager * Result PendingId IpcError :=
  let queue := entry_or_new channel_id (pending_sends a) in
  if (max_pending_per_channel a <=? length queue)%nat then
    (mkAsync (<[channel_id := queue]> (pending_sends a)) (pending_receives a)
             (next_pending_id a) (max_pending_per_channel a), Err TooManyPending)
  else
    let id := mkPending (next_pending_id a) in
    let op := mkOp id channel_id process AsyncSend (Some message) now timeout in
    (mkAsync (<[channel_id := queue ++ [op]]> (pending_sends a)) (pending_receives a)
             (u64_add (next_pending_id a) 1) (max_pending_per_channel a), Ok id).

Definition queue_receive (now : Z) (channel_id : ChannelId) (process : ProcessId)
    (timeout : Z) (a : AsyncIpcManager) : AsyncIpcManager * Result PendingId IpcError :=
  let queue := entry_or_new channel_id (pending_receives a) in
  if (max_pending_per_channel a <=? length queue)%nat then
    (mkAsync (pending_sends a) (<[channel_id := queue]> (pending_receives a))
             (next_pending_id a) (max_pending_per_channel a), Err TooManyPending)
  else
    let id := mkPending (next_pending_id a) in
    let op := mkOp id channel_id process AsyncReceive None now timeout in
    (mkAsync (pending_sends a) (<[channel_id := queue ++ [op]]> (pending_receives a))
             (u64_add (next_pending_id a) 1) (max_pending_per_channel a), Ok id).

Definition op_position (id : PendingId) (queue : list PendingOp) : option nat :=
  position (λ o, bool_decide (po_id o = id)) queue.

(** The loop over [pending.values_mut()]: the first queue, in channel order, that
    holds the operation, with the operation removed. *)
Definition remove_pending (id : PendingId) (m : gmap ChannelId (list PendingOp)) :
    option (gmap ChannelId (list PendingOp)) :=
  '(ch, queue) ← btree_find (λ _ q, bool_decide (is_Some (op_position id q))) m;
  pos ← op_position id queue;
  Some (<[ch := delete pos queue]> m).

Definition cancel (id : PendingId) (a : AsyncIpcManager) :
    AsyncIpcManager * Result unit IpcError :=
  match remove_pending id (pending_sends a) with
  | Some m => (mkAsync m (pending_receives a) (next_pending_id a) (max_pending_per_channel a), Ok tt)
  | None =>
      match remove_pending id (pending_receives a) with
      | Some m => (mkAsync (pending_sends a) m (next_pending_id a) (max_pending_per_channel a), Ok tt)
      | None => (a, Err PendingNotFound)
      end
  end.

(** [queue[i].message.take()]. *)
Definition take_message (o : PendingOp) : PendingOp :=
  mkOp (po_id o) (po_channel_id o) (po_process o) (po_op_type o) None
       (po_queued_at o) (po_timeout o).

(** The loop of [try_complete_sends] at [i = length kept]: [kept] are the operations
    already passed over, [rest] those from position [i] on. *)
Fixpoint complete_sends (kept rest : list PendingOp) (c : Channel) (completed : list PendingId) :
    list PendingOp * Channel * list PendingId :=
  match rest with
  | [] => (kept, c, completed)
  | o :: rest' =>
      if is_full c then (kept ++ rest, c, completed)
      else
        match po_message o with
        | Some msg =>
            match channel_send msg c with
            | (c', Ok _) => complete_sends kept rest' c' (completed ++ [po_id o])
            | (c', Err _) => complete_sends (kept ++ [take_message o]) rest' c' completed
            end
        | None => complete_sends (kept ++ [o]) rest' c completed
        end
  end.

Definition try_complete_sends (c : Channel) (a : AsyncIpcManager) :
    AsyncIpcManager * Channel * list PendingId :=
  match pending_sends a !! ch_id c with
  | Some queue =>
      let '(queue', c', completed) := complete_sends [] queue c [] in
      (mkAsync (<[ch_id c := queue']> (pending_sends a)) (pending_receives a)
               (next_pending_id a) (max_pending_per_channel a), c', completed)
  | None => (a, c, [])
  end.

Fixpoint complete_receives (queue : list PendingOp) (c : Channel)
    (completed : list (PendingId * Message)) :
    list PendingOp * Channel * list (PendingId * Message) :=
  match queue with
  | [] => (queue, c, completed)
  | o :: queue' =>
      if is_empty c then (queue, c, completed)
      else
        match channel_receive c with
        | (c', Ok msg) => complete_receives queue' c' (completed ++ [(po_id o, msg)])
        | (c', Err _) => (queue, c', completed)
        end
  end.

Definition try_complete_receives (c : Channel) (a : AsyncIpcManager) :
    AsyncIpcManager * Channel * list (PendingId * Message) :=
  match pending_receives a !! ch_id c with
  | Some queue =>
      let '(queue', c', completed) := complete_receives queue c [] in
      (mkAsync (pending_sends a) (<[ch_id c := queue']> (pending_receives a))
               (next_pending_id a) (max_pending_per_channel a), c', completed)
  | None => (a, c, [])
  end.

Definition pending_count (ch : ChannelId) (a : AsyncIpcManager) : nat * nat :=
  (length (entry_or_new ch (pending_sends a)), length (entry_or_new ch (pending_receives a))).

(** ** The manager *)

Record Ipc := mkIpc {
  ipc_config : IpcConfig;
  channels : gmap ChannelId Channel;
  next_channel_id : Z;
  async : AsyncIpcManager
}.

Definition ipc_new (config : IpcConfig) : Ipc := mkIpc config ∅ 1 (async_new 64).

Definition ipc_op := op Ipc IpcError.

Definition set_channel (ch : ChannelId) (c : Channel) (s : Ipc) : Ipc :=
  mkIpc (ipc_config s) (<[ch := c]> (channels s)) (next_channel_id s) (async s).
Definition set_async (a : AsyncIpcManager) (s : Ipc) : Ipc :=
  mkIpc (ipc_config s) (channels s) (next_channel_id s) a.

Definition create_channel (sender receiver : ProcessId) (cap_token : CapabilityToken) :
    ipc_op ChannelId := λ s,
  let id := mkChan (next_channel_id s) in
  let s := mkIpc (ipc_config s) (channels s) (u64_add (next_channel_id s) 1) (async s) in
  let channel := channel_new id sender receiver (default_buffer_size (ipc_config s)) in
  if decide (max_channels (ipc_config s) ≤ size (channels s))%nat then (s, Err TooManyChannels)
  else (set_channel id channel s, Ok id).

Definition send (channel_id : ChannelId) (sender : ProcessId) (message : Message)
    (cap_token : CapabilityToken) : ipc_op unit := λ s,
  match channels s !! channel_id with
  | None => (s, Err ChannelNotFound)
  | Some channel =>
      if bool_decide (ch_sender channel ≠ sender) then (s, Err NotAuthorized)
      else if match msg_data message with
              | Inline data => (max_message_size (ipc_config s) <? length data)%nat
              | SharedRef _ _ => false
              end
      then (s, Err MessageTooLarge)
      else
        let '(channel', r) := channel_send message channel in
        (set_channel channel_id channel' s, r)
  end.

Definition receive (channel_id : ChannelId) (receiver : ProcessId)
    (cap_token : CapabilityToken) : ipc_op Message := λ s,
  match channels s !! channel_id with
  | None => (s, Err ChannelNotFound)
  | Some channel =>
      if bool_decide (ch_receiver channel ≠ receiver) then (s, Err NotAuthorized)
      else
        let '(channel', r) := channel_receive channel in
        (set_channel channel_id channel' s, r)
  end.

Definition close (channel_id : ChannelId) (closer : ProcessId) (cap_token : CapabilityToken) :
    ipc_op unit := λ s,
  match channels s !! channel_id with
  | None => (s, Err ChannelNotFound)
  | Some channel =>
      if bool_decide (ch_sender channel ≠ closer ∧ ch_receiver channel ≠ closer)
      then (s, Err NotAuthorized)
      else (set_channel channel_id (set_closed channel) s, Ok tt)
  end.

Record ChannelStats := mkStats {
  cs_id : ChannelId;
  cs_sender : ProcessId;
  cs_receiver : ProcessId;
  cs_pending_messages : nat;
  cs_buffer_size : nat;
  cs_total_sent : Z;
  cs_closed : bool;
  cs_pending_async_sends : nat;
  cs_pending_async_receives : nat
}.

Definition channel_stats (channel_id : ChannelId) (s : Ipc) : Result ChannelStats IpcError :=
  match channels s !! channel_id with
  | None => Err ChannelNotFound
  | Some c =>
      Ok (mkStats (ch_id c) (ch_sender c) (ch_receiver c) (message_count c)
                  (length (buffer c)) (next_sequence c) (closed c)
                  (pending_count (ch_id c) (async s)).1 (pending_count (ch_id c) (async s)).2)
  end.

Definition send_async (now : Z) (channel_id : ChannelId) (sender : ProcessId)
    (message : Message) (cap_token : CapabilityToken) (timeout : Z) :
    ipc_op (option PendingId) := λ s,
  match send channel_id sender message cap_token s with
  | (s', Ok _) => (s', Ok None)
  | (s', Err BufferFull) =>
      let '(a, r) := queue_send now channel_id sender message timeout (async s') in
      (set_async a s', match r with Ok id => Ok (Some id) | Err e => Err e end)
  | (s', Err e) => (s', Err e)
  end.

(** The inner [Result<Message, PendingId>] is a sum. *)
Definition receive_async (now : Z) (channel_id : ChannelId) (receiver : ProcessId)
    (cap_token : CapabilityToken) (timeout : Z) : ipc_op (Message + PendingId) := λ s,
  match receive channel_id receiver cap_token s with
  | (s', Ok msg) => (s', Ok (inl msg))
  | (s', Err BufferEmpty) =>
      let '(a, r) := queue_receive now channel_id receiver timeout (async s') in
      (set_async a s', match r with Ok id => Ok (inr id) | Err e => Err e end)
  | (s', Err e) => (s', Err e)
  end.

Definition has_pending (id : PendingId) (m : gmap ChannelId (list PendingOp)) : bool :=
  bool_decide (is_Some (btree_find (λ _ q, existsb (λ o, bool_decide (po_id o = id)) q) m)).

Definition poll_pending (id : PendingId) (s : Ipc) : Result (option Message) IpcError :=
  let sends := has_pending id (pending_sends (async s)) in
  let receives := has_pending id (pending_receives (async s)) in
  if sends || receives then Err WouldBlock else Err PendingNotFound.

Definition cancel_pending (id : PendingId) : ipc_op unit := λ s,
  let '(a, r) := cancel id (async s) in (set_async a s, r).

(** One channel of the loop of [process_pending]; both lists of completed
    operations are dropped, as in the code. *)
Definition process_channel (ch : ChannelId) (s : Ipc) : Ipc :=
  match channels s !! ch with
  | None => s
  | Some c =>
      let '(a, c, _completed_sends) := try_complete_sends c (async s) in
      let '(a, c, _completed_receives) := try_complete_receives c a in
      set_channel ch c (set_async a s)
  end.

Definition process_pending (s : Ipc) : Ipc :=
  foldl (λ s ch, process_channel ch s) s (btree_keys (channels s)).

(** The module-level [send]. *)
Definition quick_send (channel_id : ChannelId) (sender : ProcessId) (data : list Z)
    (cap_token : CapabilityToken) : ipc_op unit :=
  send channel_id sender (inline sender data) cap_token.

(** ** A channel represents a bounded queue of messages *)

#[local] Arguments Nat.modulo : simpl never.

Record ch_repr (c : Channel) (l : list Message) : Prop := {
  cr_count : message_count c = length l;
  cr_bound : (length l ≤ length (buffer c))%nat;
  cr_read : length (buffer c) ≠ 0%nat → (read_pos c < length (buffer c))%nat;
  cr_write : length (buffer c) ≠ 0%nat →
    write_pos c = ((read_pos c + length l) mod length (buffer c))%nat;
  cr_slot : ∀ k m, l !! k = Some m →
    buffer c !! ((read_pos c + k) mod length (buffer c))%nat = Some (Some m)
}.

Lemma channel_new_repr id s r n : ch_repr (channel_new id s r n) [].
Proof.
  constructor; simpl; rewrite ?length_replicate; try done; try lia.
  intros. by rewrite Nat.Div0.mod_0_l.
Qed.

Lemma is_full_repr c l : ch_repr c l → is_full c = bool_decide (length l = length (buffer c)).
Proof.
  intros [Hc Hb _ _ _]. unfold is_full. rewrite Hc. apply eq_true_iff_eq.
  rewrite Nat.leb_le, bool_decide_eq_true. lia.
Qed.

Lemma is_empty_repr c l : ch_repr c l → is_empty c = bool_decide (l = []).
Proof. intros [Hc _ _ _ _]. unfold is_empty. rewrite Hc. by destruct l. Qed.

(** The endpoints, capacity and identity of a channel never change. *)
Definition same_channel (c c' : Channel) : Prop :=
  ch_id c' = ch_id c ∧ ch_sender c' = ch_sender c ∧ ch_receiver c' = ch_receiver c ∧
  length (buffer c') = length (buffer c).

#[global] Instance same_channel_refl : Reflexive same_channel.
Proof. by intros c. Qed.
#[global] Instance same_channel_trans : Transitive same_channel.
Proof. intros a b c (?&?&?&?) (?&?&?&?). split_and!; congruence. Qed.

Lemma channel_send_repr m c l :
  ch_repr c l →
  match channel_send m c with
  | (c', Ok _) => closed c = false ∧ (length l < length (buffer c))%nat ∧
      ch_repr c' (l ++ [stamp (next_sequence c) m]) ∧ same_channel c c' ∧
      closed c' = closed c ∧ next_sequence c' = u64_add (next_sequence c) 1
  | (c', Err e) => c' = c ∧
      (closed c = true ∧ e = ChannelClosed ∨
       closed c = false ∧ length l = length (buffer c) ∧ e = BufferFull)
  end.
Proof.
  intros Hr. unfold channel_send. rewrite (is_full_repr c l Hr).
  destruct (closed c) eqn:Hcl; [eauto|]. case_bool_decide as Hf; [eauto|].
  destruct Hr as [Hc Hb Hread Hw Hs].
  assert (Hlt : (length l < length (buffer c))%nat) by lia.
  assert (Hn0 : length (buffer c) ≠ 0%nat) by lia.
  specialize (Hread Hn0). specialize (Hw Hn0).
  split_and!; [done|done| |split_and!; simpl; by rewrite ?length_insert|done|done].
  constructor; simpl; rewrite ?length_insert, ?length_app; simpl.
  - lia.
  - lia.
  - done.
  - intros _. by rewrite Hw, Nat.Div0.add_mod_idemp_l, Nat.add_assoc.
  - intros k m' Hk. rewrite Hw. apply lookup_app_Some in Hk as [Hk|[Hk1 Hk2]].
    + pose proof (lookup_lt_Some _ _ _ Hk) as Hkl.
      rewrite list_lookup_insert_ne by (symmetry; apply ring_slot_ne; lia). by apply Hs.
    + apply list_lookup_singleton_Some in Hk2 as [Hk2 <-].
      replace k with (length l) by lia. apply list_lookup_insert_eq.
      by apply Nat.mod_upper_bound.
Qed.

Lemma channel_receive_repr c l :
  ch_repr c l →
  match channel_receive c with
  | (c', Ok m) => ∃ l', l = m :: l' ∧ ch_repr c' l' ∧ same_channel c c' ∧
      closed c' = closed c ∧ next_sequence c' = next_sequence c
  | (c', Err e) => c' = c ∧ l = [] ∧ e = (if closed c then ChannelClosed else BufferEmpty)
  end.
Proof.
  intros Hr. unfold channel_receive. rewrite (is_empty_repr c l Hr).
  case_bool_decide as He; [done|]. destruct l as [|m l]; [done|].
  destruct Hr as [Hc Hb Hread Hw Hs]. simpl in *.
  assert (Hn0 : length (buffer c) ≠ 0%nat) by lia.
  specialize (Hread Hn0). specialize (Hw Hn0).
  pose proof (Hs 0%nat m eq_refl) as H0. rewrite Nat.add_0_r, Nat.mod_small in H0 by done.
  rewrite H0. exists l. split; [done|].
  split; [|unfold same_channel; simpl; by rewrite length_insert].
  constructor; simpl; rewrite ?length_insert.
  - lia.
  - lia.
  - intros _. by apply Nat.mod_upper_bound.
  - intros _. rewrite Hw, Nat.Div0.add_mod_idemp_l. f_equal. lia.
  - intros k m' Hk. rewrite Nat.Div0.add_mod_idemp_l.
    pose proof (lookup_lt_Some _ _ _ Hk) as Hkl.
    replace (read_pos c + 1 + k)%nat with (read_pos c + S k)%nat by lia.
    rewrite list_lookup_insert_ne; [by apply (Hs (S k))|].
    rewrite <-(Nat.mod_small (read_pos c) (length (buffer c))) at 1 by done.
    rewrite <-(Nat.add_0_r (read_pos c)) at 1. apply ring_slot_ne; lia.
Qed.

Lemma set_closed_repr c l : ch_repr c l → ch_repr (set_closed c) l.
Proof. by intros []. Qed.

(** ** Histories of one channel *)

Inductive chan_call := CSend (m : Message) | CReceive | CClose.

(** A channel with everything it accepted and everything it delivered. *)
Record ledger := mkLedger { lg_chan : Channel; accepted : list Message; delivered : list Message }.

Definition chan_step (o : chan_call) (g : ledger) : ledger :=
  let c := lg_chan g in
  match o with
  | CSend m =>
      let '(c', r) := channel_send m c in
      mkLedger c' (if is_ok r then accepted g ++ [stamp (next_sequence c) m] else accepted g)
               (delivered g)
  | CReceive =>
      let '(c', r) := channel_receive c in
      mkLedger c' (accepted g) (match r with Ok m => delivered g ++ [m] | Err _ => delivered g end)
  | CClose => mkLedger (set_closed c) (accepted g) (delivered g)
  end.

Record ledger_ok (cap : nat) (g : ledger) : Prop := {
  lo_flow : ∃ l, ch_repr (lg_chan g) l ∧ accepted g = delivered g ++ l;
  lo_cap : length (buffer (lg_chan g)) = cap;
  lo_next : next_sequence (lg_chan g) = u64 (Z.of_nat (length (accepted g)));
  lo_seq : ∀ k m, accepted g !! k = Some m → msg_sequence m = u64 (Z.of_nat k)
}.

Lemma chan_step_ok cap o g : ledger_ok cap g → ledger_ok cap (chan_step o g).
Proof.
  intros [(l & Hr & Hfl) Hcap Hnext Hseq]. destruct o as [m| |]; simpl.
  - pose proof (channel_send_repr m _ _ Hr) as Hs.
    destruct (channel_send m (lg_chan g)) as [c' [u|e]]; simpl.
    + destruct Hs as (_ & _ & Hr' & (_ & _ & _ & Hl) & _ & Hn). constructor; simpl.
      * eexists. split; [exact Hr'|]. by rewrite Hfl, app_assoc.
      * congruence.
      * rewrite Hn, Hnext, length_app. unfold u64_add, u64, wrap. rewrite Zplus_mod_idemp_l.
        f_equal. simpl. lia.
      * intros k m' [Hk|[Hk1 Hk2]]%lookup_app_Some; [eauto|].
        apply list_lookup_singleton_Some in Hk2 as [Hk2 <-]. simpl. rewrite Hnext. f_equal. lia.
    + destruct Hs as [-> _]. constructor; simpl; eauto.
  - pose proof (channel_receive_repr _ _ Hr) as Hs.
    destruct (channel_receive (lg_chan g)) as [c' [m|e]]; simpl.
    + destruct Hs as (l' & -> & Hr' & (_ & _ & _ & Hl) & _ & Hn). constructor; simpl; [|congruence..|done].
      exists l'. split; [done|]. by rewrite Hfl, <-app_assoc.
    + destruct Hs as [-> _]. constructor; simpl; eauto.
  - constructor; simpl; [|done..]. exists l. split; [by apply set_closed_repr|done].
Qed.

(** ** Completing queued operations *)

Definition stamped (n : Z) (ms : list Message) : list Message :=
  imap (λ k m, stamp (u64_add n (Z.of_nat k)) m) ms.

Lemma stamped_cons n m ms :
  is_u64 n → stamped n (m :: ms) = stamp n m :: stamped (u64_add n 1) ms.
Proof.
  intros Hn. unfold stamped. simpl. f_equal.
  - f_equal. change (Z.of_nat 0) with 0. unfold u64_add. rewrite Z.add_0_r. by apply u64_small.
  - apply imap_ext. intros k x _. simpl. f_equal. unfold u64_add, u64, wrap.
    rewrite Zplus_mod_idemp_l. f_equal. lia.
Qed.

Lemma complete_sends_open ops ms : ∀ c l done,
  po_message <$> ops = Some <$> ms → ch_repr c l → closed c = false →
  is_u64 (next_sequence c) →
  let n := (length (buffer c) - length l)%nat in
  ∃ c', complete_sends [] ops c done
        = (drop n ops, c', done ++ (po_id <$> take n ops)) ∧
    ch_repr c' (l ++ stamped (next_sequence c) (take n ms)) ∧ same_channel c c' ∧ closed c' = false.
Proof.
  revert ms. induction ops as [|o ops IH]; intros [|m ms] c l done Hms Hr Hcl Hu n;
    try discriminate Hms; simpl.
  - exists c. unfold n. rewrite drop_nil, take_nil. simpl. unfold stamped. rewrite take_nil; simpl.
    rewrite !app_nil_r. done.
  - rewrite (is_full_repr c l Hr). pose proof (cr_bound c l Hr) as Hb. case_bool_decide as Hf.
    + replace n with 0%nat by (unfold n; lia). exists c. simpl. unfold stamped; simpl.
      rewrite !app_nil_r. done.
    + simpl in Hms. injection Hms as Hm Hms. rewrite Hm.
      pose proof (channel_send_repr m c l Hr) as Hs.
      destruct (channel_send m c) as [c1 [u|e]]; [|naive_solver congruence].
      destruct Hs as (_ & Hlt & Hr1 & Hsame & Hcl1 & Hn1).
      destruct (IH ms c1 _ (done ++ [po_id o]) Hms Hr1) as (c' & Hc & Hr' & Hsame' & Hcl').
      { congruence. } { rewrite Hn1. apply u64_range. }
      destruct Hsame as (?&?&?&Hlen). rewrite Hlen, length_app in Hc, Hr'. simpl in Hc, Hr'.
      replace n with (S (length (buffer c) - (length l + 1)))%nat by (unfold n; lia).
      exists c'. simpl. split_and!; [|..|done].
      * rewrite Hc. by rewrite <-app_assoc.
      * rewrite stamped_cons by done. rewrite <-app_assoc, Hn1 in Hr'. exact Hr'.
      * etrans; [|exact Hsame']. by split_and!.
Qed.

(** On a closed channel with room every queued message is taken out of its
    operation and refused. *)
Lemma complete_sends_closed ops : ∀ kept c done,
  is_full c = false → closed c = true →
  complete_sends kept ops c done = (kept ++ (take_message <$> ops), c, done).
Proof.
  induction ops as [|o ops IH]; intros kept c done Hf Hcl; simpl; [by rewrite app_nil_r|].
  rewrite Hf. assert (Hs : ∀ m, channel_send m c = (c, Err ChannelClosed)).
  { intros m. unfold channel_send. by rewrite Hcl. }
  destruct (po_message o) as [m|] eqn:Hm.
  - rewrite Hs, IH by done. by rewrite <-app_assoc.
  - rewrite IH by done. rewrite <-app_assoc. simpl. do 2 f_equal. simpl. repeat f_equal.
    destruct o. simpl in *. by rewrite Hm.
Qed.

Lemma complete_receives_repr ops : ∀ c l done,
  ch_repr c l →
  let n := length l in
  ∃ c', complete_receives ops c done
        = (drop n ops, c', done ++ zip (po_id <$> ops) l) ∧
    ch_repr c' (drop (length ops) l) ∧ same_channel c c' ∧ closed c' = closed c.
Proof.
  induction ops as [|o ops IH]; intros c l done Hr n; simpl.
  - exists c. by rewrite drop_nil, app_nil_r, drop_0.
  - rewrite (is_empty_repr c l Hr). case_bool_decide as He.
    { subst l. exists c. simpl. by rewrite app_nil_r. }
    pose proof (channel_receive_repr c l Hr) as Hs.
    destruct (channel_receive c) as [c1 [m|e]]; [|naive_solver].
    destruct Hs as (l' & -> & Hr1 & Hsame & Hcl & _).
    destruct (IH c1 l' (done ++ [(po_id o, m)]) Hr1) as (c' & Hc & Hr' & Hsame' & Hcl').
    exists c'. rewrite Hc. split_and!; [by rewrite <-app_assoc|done|by etrans|congruence].
Qed.

(** Whatever the operations hold, completing sends only appends to the channel. *)
Lemma complete_sends_wf q : ∀ kept c d l q1 c1 d1,
  ch_repr c l → complete_sends kept q c d = (q1, c1, d1) →
  same_channel c c1 ∧ (∃ l', ch_repr c1 (l ++ l')) ∧ (length q1 ≤ length kept + length q)%nat.
Proof.
  induction q as [|o q IH]; intros kept c d l q1 c1 d1 Hr; simpl.
  { intros [= <- <- <-]. split_and!; [done|exists []; by rewrite app_nil_r|lia]. }
  destruct (is_full c).
  { intros [= <- <- <-]. split_and!; [done|exists []; by rewrite app_nil_r|].
    rewrite length_app. simpl. lia. }
  destruct (po_message o) as [m|].
  - pose proof (channel_send_repr m c l Hr) as Hs. destruct (channel_send m c) as [c2 [u|e]].
    + destruct Hs as (_ & _ & Hr2 & Hsame & _). intros H.
      destruct (IH _ _ _ _ _ _ _ Hr2 H) as (? & (l' & Hl') & ?).
      split_and!; [by etrans|rewrite <-app_assoc in Hl'; eauto|lia].
    + destruct Hs as [-> _]. intros H. destruct (IH _ _ _ _ _ _ _ Hr H) as (? & ? & Hlen).
      rewrite length_app in Hlen. simpl in Hlen. split_and!; [done..|lia].
  - intros H. destruct (IH _ _ _ _ _ _ _ Hr H) as (? & ? & Hlen).
    rewrite length_app in Hlen. simpl in Hlen. split_and!; [done..|lia].
Qed.

(** ** The manager's invariant *)

Definition queues_bounded (n : nat) (m : gmap ChannelId (list PendingOp)) : Prop :=
  ∀ k q, m !! k = Some q → (length q ≤ n)%nat.

(** Every channel sits under its own identifier and represents some queue; no
    channel has more than the allowed number of queued operations. *)
Record ipc_wf (s : Ipc) : Prop := {
  iw_id : ∀ k c, channels s !! k = Some c → ch_id c = k;
  iw_repr : ∀ k c, channels s !! k = Some c → ∃ l, ch_repr c l;
  iw_sends : queues_bounded (max_pending_per_channel (async s)) (pending_sends (async s));
  iw_receives : queues_bounded (max_pending_per_channel (async s)) (pending_receives (async s))
}.

Lemma queues_bounded_insert n m k q :
  queues_bounded n m → (length q ≤ n)%nat → queues_bounded n (<[k := q]> m).
Proof. intros Hm Hq k' q' [[<- <-]|[_ ?]]%lookup_insert_Some; eauto. Qed.

Lemma set_channel_wf ch c c' l s :
  ipc_wf s → channels s !! ch = Some c → same_channel c c' → ch_repr c' l →
  ipc_wf (set_channel ch c' s).
Proof.
  intros [Hid Hrep Hs Hr] Hc (Hi & _) Hl. constructor; simpl; [..|done|done].
  - intros k d [[<- <-]|[_ ?]]%lookup_insert_Some; [rewrite Hi|]; eauto.
  - intros k d [[<- <-]|[_ ?]]%lookup_insert_Some; eauto.
Qed.

(** The effect of [process_channel ch], which looks at nothing but the channel and
    its two queues. *)
Lemma process_channel_spec ch s c :
  ipc_wf s → channels s !! ch = Some c →
  ∃ c1 c2 qs qr ids msgs,
    match pending_sends (async s) !! ch with
    | Some q => complete_sends [] q c [] = (qs, c1, ids)
    | None => c1 = c
    end ∧
    match pending_receives (async s) !! ch with
    | Some q => complete_receives q c1 [] = (qr, c2, msgs)
    | None => c2 = c1
    end ∧
    process_channel ch s =
      set_channel ch c2 (set_async
        (mkAsync (match pending_sends (async s) !! ch with
                  | Some _ => <[ch := qs]> (pending_sends (async s))
                  | None => pending_sends (async s)
                  end)
                 (match pending_receives (async s) !! ch with
                  | Some _ => <[ch := qr]> (pending_receives (async s))
                  | None => pending_receives (async s)
                  end)
                 (next_pending_id (async s)) (max_pending_per_channel (async s))) s) ∧
    same_channel c c1 ∧ same_channel c1 c2 ∧ (∃ l, ch_repr c2 l) ∧
    (∀ q, pending_sends (async s) !! ch = Some q → length qs ≤ length q)%nat ∧
    (∀ q, pending_receives (async s) !! ch = Some q → length qr ≤ length q)%nat.
Proof.
  intros Hwf Hc. pose proof (iw_id s Hwf ch c Hc) as Hid. destruct (iw_repr s Hwf ch c Hc) as [l Hl].
  unfold process_channel. rewrite Hc. unfold try_complete_sends, try_complete_receives. rewrite Hid.
  assert (Hsend : ∃ c1 qs ids l1, match pending_sends (async s) !! ch with
      | Some q => complete_sends [] q c [] = (qs, c1, ids) ∧ (length qs ≤ length q)%nat
      | None => c1 = c end ∧ same_channel c c1 ∧ ch_repr c1 l1).
  { destruct (pending_sends (async s) !! ch) as [q|]; [|by exists c, [], [], l].
    destruct (complete_sends [] q c []) as [[qs c1] ids] eqn:E.
    destruct (complete_sends_wf q [] c [] l _ _ _ Hl E) as (Hsame & [l' Hl'] & Hlen).
    by exists c1, qs, ids, (l ++ l'). }
  destruct Hsend as (c1 & qs & ids & l1 & Hs & Hsame & Hl1).
  assert (Hid1 : ch_id c1 = ch) by (destruct Hsame as [-> _]; done).
  assert (Hrecv : ∃ c2 qr msgs l2, match pending_receives (async s) !! ch with
      | Some q => complete_receives q c1 [] = (qr, c2, msgs) ∧ (length qr ≤ length q)%nat
      | None => c2 = c1 end ∧ same_channel c1 c2 ∧ ch_repr c2 l2).
  { destruct (pending_receives (async s) !! ch) as [q|]; [|by exists c1, [], [], l1].
    destruct (complete_receives_repr q c1 l1 [] Hl1) as (c2 & E & Hr2 & Hsame2 & _).
    eexists c2, _, _, _. split_and!; [exact E| |done|done]. rewrite length_drop. lia. }
  destruct Hrecv as (c2 & qr & msgs & l2 & Hr & Hsame2 & Hl2).
  exists c1, c2, qs, qr, ids, msgs.
  destruct (pending_sends (async s) !! ch) as [q|] eqn:Eq.
  - destruct Hs as [Hs Hqs]. rewrite Hs. cbn [pending_receives]. rewrite Hid1.
    destruct (pending_receives (async s) !! ch) as [r|] eqn:Er.
    + destruct Hr as [Hr Hqr]. rewrite Hr.
      split_and!; [done..|eauto|by intros ? [= <-]|by intros ? [= <-]].
    + subst c2. split_and!; [done..|eauto|by intros ? [= <-]|done].
  - subst c1. rewrite Hid. destruct (pending_receives (async s) !! ch) as [r|] eqn:Er.
    + destruct Hr as [Hr Hqr]. rewrite Hr.
      split_and!; [done..|eauto|done|by intros ? [= <-]].
    + subst c2. split_and!; [done|done| |done|done|eauto|done|done].
      by destruct s as [? ? ? []].
Qed.

Lemma process_channel_wf ch s : ipc_wf s → ipc_wf (process_channel ch s).
Proof.
  intros Hwf. destruct (channels s !! ch) as [c|] eqn:Hc; [|unfold process_channel; by rewrite Hc].
  destruct (process_channel_spec ch s c Hwf Hc)
    as (c1 & c2 & qs & qr & ids & msgs & _ & _ & -> & H1 & H2 & [l Hl] & Hqs & Hqr).
  destruct Hwf as [Hid Hrep Hs Hr].
  apply (set_channel_wf ch c c2 l); [|done|by etrans|done].
  constructor; simpl; [done..| |].
  - destruct (pending_sends (async s) !! ch) as [q|] eqn:E; [|done].
    apply queues_bounded_insert; [done|]. etrans; [by apply Hqs|]. by eapply Hs.
  - destruct (pending_receives (async s) !! ch) as [q|] eqn:E; [|done].
    apply queues_bounded_insert; [done|]. etrans; [by apply Hqr|]. by eapply Hr.
Qed.

(** What one channel's state consists of. *)
Definition view (ch : ChannelId) (s : Ipc) :=
  (channels s !! ch, pending_sends (async s) !! ch, pending_receives (async s) !! ch).

Lemma process_channel_other ch ch' s :
  ipc_wf s → ch' ≠ ch → view ch' (process_channel ch s) = view ch' s.
Proof.
  intros Hwf Hne. destruct (channels s !! ch) as [c|] eqn:Hc; [|unfold process_channel; by rewrite Hc].
  destruct (process_channel_spec ch s c Hwf Hc)
    as (c1 & c2 & qs & qr & ids & msgs & _ & _ & -> & _).
  unfold view. simpl. rewrite lookup_insert_ne by done.
  destruct (pending_sends (async s) !! ch), (pending_receives (async s) !! ch);
    by rewrite ?lookup_insert_ne by done.
Qed.

Lemma process_fold keys : ∀ s,
  ipc_wf s → NoDup keys →
  ipc_wf (foldl (λ s ch, process_channel ch s) s keys) ∧
  (∀ ch, ch ∉ keys → view ch (foldl (λ s ch, process_channel ch s) s keys) = view ch s) ∧
  (∀ ch, ch ∈ keys → ∃ t, ipc_wf t ∧ view ch t = view ch s ∧
     view ch (foldl (λ s ch, process_channel ch s) s keys) = view ch (process_channel ch t)).
Proof.
  induction keys as [|k keys IH]; intros s Hwf Hnd; simpl.
  { split_and!; [done|done|]. intros ch Hch. by apply elem_of_nil in Hch. }
  apply NoDup_cons in Hnd as [Hk Hnd].
  destruct (IH (process_channel k s)) as (Hwf' & Hout & Hin); [by apply process_channel_wf|done|].
  split_and!; [done|..].
  - intros ch [Hne Hch]%not_elem_of_cons. rewrite Hout by done. by apply process_channel_other.
  - intros ch [->|Hch]%elem_of_cons.
    + exists s. split_and!; [done..|]. by rewrite Hout.
    + destruct (Hin ch Hch) as (t & Ht & Hv & ->). exists t. split_and!; [done| |done].
      rewrite Hv. apply process_channel_other; [done|]. by intros ->.
Qed.

Lemma process_pending_wf s : ipc_wf s → ipc_wf (process_pending s).
Proof. intros Hwf. apply process_fold; [done|apply NoDup_btree_keys]. Qed.

Lemma process_pending_view s ch c :
  ipc_wf s → channels s !! ch = Some c →
  ∃ t, ipc_wf t ∧ view ch t = view ch s ∧
    view ch (process_pending s) = view ch (process_channel ch t).
Proof.
  intros Hwf Hc. apply process_fold; [done|apply NoDup_btree_keys|].
  apply elem_of_btree_keys. eauto.
Qed.

(** ** Histories of the manager *)

Inductive ipc_call :=
| CallCreate (sender receiver : ProcessId) (t : CapabilityToken)
| CallSend (ch : ChannelId) (p : ProcessId) (m : Message) (t : CapabilityToken)
| CallReceive (ch : ChannelId) (p : ProcessId) (t : CapabilityToken)
| CallClose (ch : ChannelId) (p : ProcessId) (t : CapabilityToken)
| CallSendAsync (now : Z) (ch : ChannelId) (p : ProcessId) (m : Message)
                (t : CapabilityToken) (timeout : Z)
| CallReceiveAsync (now : Z) (ch : ChannelId) (p : ProcessId)
                   (t : CapabilityToken) (timeout : Z)
| CallCancel (id : PendingId)
| CallProcess.

Definition ipc_step (c : ipc_call) (s : Ipc) : Ipc :=
  match c with
  | CallCreate a b t => (create_channel a b t s).1
  | CallSend ch p m t => (send ch p m t s).1
  | CallReceive ch p t => (receive ch p t s).1
  | CallClose ch p t => (close ch p t s).1
  | CallSendAsync now ch p m t timeout => (send_async now ch p m t timeout s).1
  | CallReceiveAsync now ch p t timeout => (receive_async now ch p t timeout s).1
  | CallCancel id => (cancel_pending id s).1
  | CallProcess => process_pending s
  end.

Lemma send_wf ch p m t s : ipc_wf s → ipc_wf (send ch p m t s).1.
Proof.
  intros Hwf. unfold send. destruct (channels s !! ch) as [c|] eqn:Hc; [|done].
  destruct (iw_repr s Hwf ch c Hc) as [l Hl].
  case_bool_decide; [done|]. destruct (match msg_data m with Inline _ => _ | _ => _ end); [done|].
  pose proof (channel_send_repr m c l Hl) as Hs. destruct (channel_send m c) as [c' [u|e]]; simpl.
  - destruct Hs as (_ & _ & Hr & Hsame & _). by eapply set_channel_wf.
  - destruct Hs as [-> _]. by eapply set_channel_wf.
Qed.

Lemma receive_wf ch p t s : ipc_wf s → ipc_wf (receive ch p t s).1.
Proof.
  intros Hwf. unfold receive. destruct (channels s !! ch) as [c|] eqn:Hc; [|done].
  destruct (iw_repr s Hwf ch c Hc) as [l Hl]. case_bool_decide; [done|].
  pose proof (channel_receive_repr c l Hl) as Hs. destruct (channel_receive c) as [c' [m|e]]; simpl.
  - destruct Hs as (l' & _ & Hr & Hsame & _). by eapply set_channel_wf.
  - destruct Hs as [-> _]. by eapply set_channel_wf.
Qed.

Lemma entry_bounded n ch m : queues_bounded n m → (length (entry_or_new ch m) ≤ n)%nat.
Proof. intros Hm. unfold entry_or_new. destruct (m !! ch) eqn:E; simpl; [eauto|lia]. Qed.

Lemma queue_wf s (m : gmap ChannelId (list PendingOp)) nid :
  ipc_wf s →
  (queues_bounded (max_pending_per_channel (async s)) m →
   ipc_wf (set_async (mkAsync m (pending_receives (async s)) nid
                              (max_pending_per_channel (async s))) s)) ∧
  (queues_bounded (max_pending_per_channel (async s)) m →
   ipc_wf (set_async (mkAsync (pending_sends (async s)) m nid
                              (max_pending_per_channel (async s))) s)).
Proof. intros [? ? ? ?]. split; intros; by constructor. Qed.

Lemma async_send_wf now ch p m t timeout s :
  ipc_wf s → ipc_wf (send_async now ch p m t timeout s).1.
Proof.
  intros Hwf. unfold send_async. pose proof (send_wf ch p m t s Hwf) as Hw.
  destruct (send ch p m t s) as [s' [u|e]]; [done|]. simpl in Hw.
  destruct e; try done. unfold queue_send.
  pose proof (entry_bounded _ ch _ (iw_sends s' Hw)) as Hb.
  destruct (Nat.leb_spec (max_pending_per_channel (async s'))
              (length (entry_or_new ch (pending_sends (async s'))))); simpl;
    (apply queue_wf; [done|]; apply queues_bounded_insert; [apply Hw|]); [done|].
  rewrite length_app. simpl. lia.
Qed.

Lemma async_receive_wf now ch p t timeout s :
  ipc_wf s → ipc_wf (receive_async now ch p t timeout s).1.
Proof.
  intros Hwf. unfold receive_async. pose proof (receive_wf ch p t s Hwf) as Hw.
  destruct (receive ch p t s) as [s' [u|e]]; [done|]. simpl in Hw.
  destruct e; try done. unfold queue_receive.
  pose proof (entry_bounded _ ch _ (iw_receives s' Hw)) as Hb.
  destruct (Nat.leb_spec (max_pending_per_channel (async s'))
              (length (entry_or_new ch (pending_receives (async s'))))); simpl;
    (apply queue_wf; [done|]; apply queues_bounded_insert; [apply Hw|]); [done|].
  rewrite length_app. simpl. lia.
Qed.

Lemma remove_pending_bounded n id m m' :
  queues_bounded n m → remove_pending id m = Some m' → queues_bounded n m'.
Proof.
  intros Hm. unfold remove_pending.
  destruct (btree_find _ m) as [[k q]|] eqn:E; simpl; [|done].
  apply btree_find_Some in E as (Hk & _). destruct (op_position id q) as [i|] eqn:Ei; simpl; [|done].
  intros [= <-]. apply queues_bounded_insert; [done|].
  apply position_Some in Ei as (x & Hx & _). rewrite length_delete by eauto.
  specialize (Hm k q Hk). lia.
Qed.

Lemma ipc_step_wf c s : ipc_wf s → ipc_wf (ipc_step c s).
Proof.
  intros Hwf. destruct c as [a b t|ch p m t|ch p t|ch p t|now ch p m t to|now ch p t to|id|]; simpl.
  - unfold create_channel. case_decide; simpl; destruct Hwf; constructor; simpl; try done.
    + intros k c [[<- <-]|[_ ?]]%lookup_insert_Some; eauto.
    + intros k c [[<- <-]|[_ ?]]%lookup_insert_Some; [|eauto]. eexists. apply channel_new_repr.
  - by apply send_wf.
  - by apply receive_wf.
  - unfold close. destruct (channels s !! ch) as [c|] eqn:Hc; [|done]. case_bool_decide; [done|].
    destruct (iw_repr s Hwf ch c Hc) as [l Hl]. simpl.
    eapply set_channel_wf; [done|done|by split_and!|by apply set_closed_repr].
  - by apply async_send_wf.
  - by apply async_receive_wf.
  - unfold cancel_pending, cancel.
    destruct (remove_pending id (pending_sends (async s))) as [m|] eqn:E1; simpl.
    { apply queue_wf; [done|]. eapply remove_pending_bounded; [|done]. apply Hwf. }
    destruct (remove_pending id (pending_receives (async s))) as [m|] eqn:E2; simpl.
    { apply queue_wf; [done|]. eapply remove_pending_bounded; [|done]. apply Hwf. }
    by destruct s.
  - by apply process_pending_wf.
Qed.

Lemma ipc_run_wf cf calls : ipc_wf (run_ops ipc_step calls (ipc_new cf)).
Proof.
  apply run_ops_invariant; [intros; by apply ipc_step_wf|].
  constructor; simpl; intros ? ? H; by rewrite lookup_empty in H.
Qed.

(** ** Properties *)

(** [C19] A channel is a bounded first-in first-out queue: over every history of
    sends, receives and closes on a new channel, the messages accepted so far are the
    messages delivered so far, in order, followed by those still in the ring buffer,
    at most [cap] of them; and the n-th accepted message carries sequence number n. *)
Theorem channel_fifo id sender receiver cap calls :
  let g := run_ops chan_step calls (mkLedger (channel_new id sender receiver cap) [] []) in
  (∃ l, ch_repr (lg_chan g) l ∧ accepted g = delivered g ++ l ∧ (length l ≤ cap)%nat) ∧
  (∀ n m, accepted g !! n = Some m → msg_sequence m = u64 (Z.of_nat n)).
Proof.
  intros g. assert (Hok : ledger_ok cap g).
  { apply run_ops_invariant; [intros; by apply chan_step_ok|].
    constructor; simpl; [|apply length_replicate|done|done].
    exists []. split; [apply channel_new_repr|done]. }
  destruct Hok as [(l & Hr & Hf) Hcap _ Hseq]. split; [|done].
  exists l. split_and!; [done..|]. rewrite <-Hcap. apply Hr.
Qed.

(** [send], [receive] and [close] after any history, on every branch: an unknown
    channel gives [ChannelNotFound]; only the channel's sender sends, only its receiver
    receives, only they close it; a send appends the stamped message unless the inline
    data is too long, the channel is closed or full; a receive takes the oldest message,
    even from a closed channel, and reports an empty one; no call touches another
    channel or a queued operation, and a refused call changes nothing. *)
Theorem manager_correct cf calls ch p t :
  let s := run_ops ipc_step calls (ipc_new cf) in
  match channels s !! ch with
  | None => (∀ m, send ch p m t s = (s, Err ChannelNotFound)) ∧
            receive ch p t s = (s, Err ChannelNotFound) ∧
            close ch p t s = (s, Err ChannelNotFound)
  | Some c => ∃ l, ch_repr c l ∧
      (∀ m, match send ch p m t s with
       | (s', Ok _) => ch_sender c = p ∧ closed c = false ∧ (length l < length (buffer c))%nat ∧
           ∃ c', s' = set_channel ch c' s ∧ same_channel c c' ∧
                 ch_repr c' (l ++ [stamp (next_sequence c) m])
       | (s', Err e) => s' = s ∧
           (e = NotAuthorized ∧ ch_sender c ≠ p ∨
            e = MessageTooLarge ∧ ch_sender c = p ∧
              (∃ d, msg_data m = Inline d ∧ (max_message_size (ipc_config s) < length d)%nat) ∨
            e = ChannelClosed ∧ ch_sender c = p ∧ closed c = true ∨
            e = BufferFull ∧ ch_sender c = p ∧ closed c = false ∧ length l = length (buffer c))
       end) ∧
      match receive ch p t s with
      | (s', Ok m) => ch_receiver c = p ∧ ∃ l' c', l = m :: l' ∧ s' = set_channel ch c' s ∧
          same_channel c c' ∧ closed c' = closed c ∧ ch_repr c' l'
      | (s', Err e) => s' = s ∧
          (e = NotAuthorized ∧ ch_receiver c ≠ p ∨
           ch_receiver c = p ∧ l = [] ∧ e = (if closed c then ChannelClosed else BufferEmpty))
      end ∧
      match close ch p t s with
      | (s', Ok _) => (ch_sender c = p ∨ ch_receiver c = p) ∧ s' = set_channel ch (set_closed c) s
      | (s', Err e) => s' = s ∧ e = NotAuthorized ∧ ch_sender c ≠ p ∧ ch_receiver c ≠ p
      end
  end.
Proof.
  intros s. pose proof (ipc_run_wf cf calls) as Hwf. fold s in Hwf. clearbody s.
  unfold send, receive, close. destruct (channels s !! ch) as [c|] eqn:Hc; [|done].
  destruct (iw_repr s Hwf ch c Hc) as [l Hl]. exists l. split; [done|].
  assert (Hid : set_channel ch c s = s) by (destruct s; unfold set_channel; simpl in *; by rewrite insert_id).
  split_and!.
  - intros m. case_bool_decide as Hp; [naive_solver|].
    destruct (match msg_data m with Inline _ => _ | _ => _ end) eqn:Hsz.
    { split; [done|]. right. left. split_and!; [done..|]. destruct (msg_data m) as [d|]; [|done].
      exists d. split; [done|]. by apply Nat.ltb_lt. }
    pose proof (channel_send_repr m c l Hl) as Hs. destruct (channel_send m c) as [c' [u|e]].
    + destruct Hs as (? & ? & ? & ? & _). split_and!; [done..|]. eauto.
    + destruct Hs as [-> Hs]. split; [done|]. naive_solver.
  - case_bool_decide as Hp; [naive_solver|].
    pose proof (channel_receive_repr c l Hl) as Hs. destruct (channel_receive c) as [c' [m|e]].
    + destruct Hs as (l' & ? & ? & ? & ? & _). split; [done|]. eauto 10.
    + destruct Hs as (-> & ? & ?). split; [done|]. naive_solver.
  - case_bool_decide as Hp; [naive_solver|]. split; [|done].
    destruct (decide (ch_sender c = p)); [by left|]. right. apply dec_stable. naive_solver.
Qed.

(** Queued sends: on an open channel [try_complete_sends] moves as many queued
    messages as there is room, oldest first, with consecutive sequence numbers, and
    reports their operations; the rest stay queued. On a closed channel with room it
    takes every queued message out of its operation and drops it, while the operations
    stay queued and none is reported. *)
Theorem queued_sends_complete c l ops ms a :
  ch_repr c l → is_u64 (next_sequence c) → pending_sends a !! ch_id c = Some ops →
  po_message <$> ops = Some <$> ms →
  let n := (length (buffer c) - length l)%nat in
  (closed c = false →
   ∃ a' c', try_complete_sends c a = (a', c', po_id <$> take n ops) ∧
     pending_sends a' !! ch_id c = Some (drop n ops) ∧
     ch_repr c' (l ++ stamped (next_sequence c) (take n ms))) ∧
  (closed c = true → (0 < n)%nat →
   ∃ a', try_complete_sends c a = (a', c, []) ∧
     pending_sends a' !! ch_id c = Some (take_message <$> ops)).
Proof.
  intros Hr Hu Hq Hms n. unfold try_complete_sends. rewrite Hq. split.
  - intros Hcl. destruct (complete_sends_open ops ms c l [] Hms Hr Hcl Hu) as (c' & -> & Hr' & _ & _).
    eexists _, c'. split; [done|]. simpl. by rewrite lookup_insert_eq.
  - intros Hcl Hn. rewrite complete_sends_closed; [|..|done].
    + eexists. split; [done|]. simpl. by rewrite lookup_insert_eq.
    + rewrite (is_full_repr c l Hr), bool_decide_false; [done|]. unfold n in Hn. lia.
Qed.

Definition w_msg (n : Z) : Message := inline (mkPid 1) [n].
Definition w_send (n : Z) : chan_call := CSend (w_msg n).
Definition w_op (n : Z) : PendingOp :=
  mkOp (mkPending n) (mkChan 1) (mkPid 1) AsyncSend (Some (w_msg n)) 0 0.
Definition w_async : AsyncIpcManager := mkAsync {[mkChan 1 := [w_op 7; w_op 8; w_op 9]]} ∅ 10 64.

Lemma queued_sends_complete_witness :
  ∃ a' c', try_complete_sends (channel_new (mkChan 1) (mkPid 1) (mkPid 2) 2) w_async
           = (a', c', [mkPending 7; mkPending 8]) ∧
    pending_sends a' !! mkChan 1 = Some [w_op 9].
Proof.
  destruct (queued_sends_complete (channel_new (mkChan 1) (mkPid 1) (mkPid 2) 2) []
              [w_op 7; w_op 8; w_op 9] [w_msg 7; w_msg 8; w_msg 9] w_async) as [H _];
    [apply channel_new_repr|vm_compute; split; done|vm_compute; reflexivity|reflexivity|].
  destruct (H eq_refl) as (a' & c' & H1 & H2 & _). exists a', c'. split; [exact H1|exact H2].
Defined.

(** [process_pending] and waiting receivers: each queued receive on a channel
    removes a message from it, oldest first, and the message goes nowhere: it is in no
    channel and no operation afterwards, and [poll_pending], which answers only
    [WouldBlock] or [PendingNotFound], never returns one. *)
Theorem queued_receives_drop_messages cf calls ch c l ops :
  let s := run_ops ipc_step calls (ipc_new cf) in
  channels s !! ch = Some c → ch_repr c l →
  default [] (pending_sends (async s) !! ch) = [] →
  pending_receives (async s) !! ch = Some ops →
  (∃ c', channels (process_pending s) !! ch = Some c' ∧ ch_repr c' (drop (length ops) l) ∧
     pending_receives (async (process_pending s)) !! ch = Some (drop (length l) ops)) ∧
  (∀ id t m, poll_pending id t ≠ Ok m).
Proof.
  intros s Hc Hl Hps Hpr. split.
  2: { intros id t m. unfold poll_pending. by destruct (_ || _). }
  pose proof (ipc_run_wf cf calls) as Hwf. fold s in Hwf. clearbody s.
  destruct (process_pending_view s ch c Hwf Hc) as (t & Ht & Hv & Hv').
  unfold view in Hv. injection Hv as Htc Hts Htr.
  assert (Htc' : channels t !! ch = Some c) by congruence.
  destruct (process_channel_spec ch t c Ht Htc')
    as (c1 & c2 & qs & qr & ids & msgs & Hs & Hr & Heq & _).
  rewrite Hts in Hs. rewrite Htr, Hpr in Hr.
  assert (c1 = c) as ->.
  { destruct (pending_sends (async s) !! ch) as [q|]; [|done]. simpl in Hps. subst q. by injection Hs. }
  destruct (complete_receives_repr ops c l [] Hl) as (c3 & E & Hr3 & _).
  rewrite Hr in E. injection E as -> <- ->.
  rewrite Heq in Hv'. unfold view in Hv'. simpl in Hv'. rewrite Htr, Hpr, !lookup_insert_eq in Hv'.
  injection Hv' as H1 _ H3. eauto.
Qed.

Lemma queued_receives_drop_messages_witness :
  let tok := mkToken 1 2 3 4 in
  let calls := [CallCreate (mkPid 1) (mkPid 2) tok;
                CallReceiveAsync 0 (mkChan 1) (mkPid 2) tok 0;
                CallSend (mkChan 1) (mkPid 1) (w_msg 5) tok] in
  let s := run_ops ipc_step calls (ipc_new IpcConfig_default) in
  (∃ c', channels (process_pending s) !! mkChan 1 = Some c' ∧ ch_repr c' []).
Proof.
  intros tok calls s.
  assert (Hl : ch_repr (channel_send (w_msg 5) (channel_new (mkChan 1) (mkPid 1) (mkPid 2) 16)).1
                       [w_msg 5]).
  { pose proof (channel_send_repr (w_msg 5) _ _ (channel_new_repr (mkChan 1) (mkPid 1) (mkPid 2) 16)) as H.
    exact (proj1 (proj2 (proj2 H))). }
  destruct (queued_receives_drop_messages IpcConfig_default calls (mkChan 1)
    (channel_send (w_msg 5) (channel_new (mkChan 1) (mkPid 1) (mkPid 2) 16)).1 [w_msg 5]
    [mkOp (mkPending 1) (mkChan 1) (mkPid 2) AsyncReceive None 0 0])
    as [(c' & H1 & H2 & _) _]; [vm_compute; reflexivity|exact Hl|vm_compute; reflexivity..|].
  exists c'. split; [exact H1|exact H2].
Defined.

(** A synchronous send overtakes queued ones: on a full channel with sends
    queued behind it, once the receiver takes a message a new [send] succeeds at once
    and its message is placed before every queued one, although they were accepted
    earlier. *)
Theorem send_overtakes_queued cf calls ch c m0 l ops m t t' :
  let s := run_ops ipc_step calls (ipc_new cf) in
  channels s !! ch = Some c → ch_repr c (m0 :: l) → length (m0 :: l) = length (buffer c) →
  closed c = false → pending_sends (async s) !! ch = Some ops →
  match msg_data m with
  | Inline d => (length d ≤ max_message_size (ipc_config s))%nat
  | _ => True
  end →
  ∃ s1 s2 c2, receive ch (ch_receiver c) t s = (s1, Ok m0) ∧
    send ch (ch_sender c) m t' s1 = (s2, Ok tt) ∧
    channels s2 !! ch = Some c2 ∧ ch_repr c2 (l ++ [stamp (next_sequence c) m]) ∧
    pending_sends (async s2) !! ch = Some ops.
Proof.
  intros s Hc Hl Hfull Hcl Hps Hsz. unfold receive. rewrite Hc, bool_decide_false by naive_solver.
  pose proof (channel_receive_repr c _ Hl) as Hr.
  destruct (channel_receive c) as [c1 [m1|e]]; [|naive_solver].
  destruct Hr as (l' & [= <- <-] & Hl1 & (_ & Hs1 & _ & Hlen) & Hcl1 & Hn1).
  exists (set_channel ch c1 s). unfold send. simpl. rewrite lookup_insert_eq, Hs1.
  rewrite bool_decide_false by naive_solver.
  replace (match msg_data m with Inline _ => _ | _ => _ end) with false.
  2: { destruct (msg_data m); [|done]. symmetry. apply Nat.ltb_ge. done. }
  pose proof (channel_send_repr m c1 l Hl1) as Hs.
  destruct (channel_send m c1) as [c2 [[]|e]].
  - destruct Hs as (_ & _ & Hr2 & _). eexists _, c2. split; [done|]. split; [done|].
    simpl. rewrite lookup_insert_eq. split; [done|]. rewrite <-Hn1. done.
  - exfalso. simpl in Hfull. destruct Hs as [_ [[? _]|(_ & ? & _)]]; [congruence|]. lia.
Qed.

Lemma send_overtakes_queued_witness :
  let tok := mkToken 1 2 3 4 in
  let cf := mkIpcConfig 64 8 1 in
  let calls := [CallCreate (mkPid 1) (mkPid 2) tok;
                CallSend (mkChan 1) (mkPid 1) (w_msg 5) tok;
                CallSendAsync 0 (mkChan 1) (mkPid 1) (w_msg 6) tok 0] in
  let s := run_ops ipc_step calls (ipc_new cf) in
  ∃ s1 s2 c2, receive (mkChan 1) (mkPid 2) tok s = (s1, Ok (w_msg 5)) ∧
    send (mkChan 1) (mkPid 1) (w_msg 7) tok s1 = (s2, Ok tt) ∧
    channels s2 !! mkChan 1 = Some c2 ∧ ch_repr c2 [stamp 1 (w_msg 7)].
Proof.
  intros tok cf calls s.
  assert (Hl : ch_repr (channel_send (w_msg 5) (channel_new (mkChan 1) (mkPid 1) (mkPid 2) 1)).1
                       [w_msg 5]).
  { pose proof (channel_send_repr (w_msg 5) _ _ (channel_new_repr (mkChan 1) (mkPid 1) (mkPid 2) 1)) as H.
    exact (proj1 (proj2 (proj2 H))). }
  destruct (send_overtakes_queued cf calls (mkChan 1)
    (channel_send (w_msg 5) (channel_new (mkChan 1) (mkPid 1) (mkPid 2) 1)).1 (w_msg 5) []
    [mkOp (mkPending 1) (mkChan 1) (mkPid 1) AsyncSend (Some (w_msg 6)) 0 0] (w_msg 7) tok tok)
    as (s1 & s2 & c2 & H1 & H2 & H3 & H4 & _);
    [vm_compute; reflexivity|exact Hl|vm_compute; reflexivity..|apply Nat.leb_le; vm_compute; reflexivity|].
  exists s1, s2, c2. split; [exact H1|]. split; [exact H2|]. split; [exact H3|exact H4].
Defined.
