(* ===== verification/Fastpath.v ===== *)
(** * Fastpath: lock-free message passing ([kernel/src/ipc/fastpath.rs])

    Register-sized messages and their byte view, the single-producer
    single-consumer ring, endpoint pairs over two shared rings, and batches. The
    ring is modelled twice: [try_send] and [try_recv] as they run undisturbed, and
    as programs of single memory accesses, one producer and one consumer
    interleaved in any order ([ring_step]). The interleaving is sequentially
    consistent: each position is written by one side with release and read by the
    other with acquire ordering, which orders the slot accesses the same way. *)

From Stdlib Require Import ZArith Lia.
From stdpp Require Import list relations.
From S2P Require Import Prelude.
From S2P Require Import Ids.
From S2P Require Import Ipc.

(** ** Messages *)

Definition FASTPATH_MAX_SIZE : nat := 64.
Definition RING_BUFFER_SIZE : nat := 256.

Record FastMessage := mkFast {
  tag : Z;
  data0 : Z; data1 : Z; data2 : Z; data3 : Z; data4 : Z; data5 : Z; data6 : Z
}.

Definition fm_empty : FastMessage := mkFast 0 0 0 0 0 0 0 0.
Definition fm_new (tag : Z) : FastMessage := mkFast tag 0 0 0 0 0 0 0.

(** The 56 bytes from [data0] on, as the raw-parts slice sees them. *)
Definition data_bytes (m : FastMessage) : list Z :=
  to_le_bytes 8 (data0 m) ++ to_le_bytes 8 (data1 m) ++ to_le_bytes 8 (data2 m) ++
  to_le_bytes 8 (data3 m) ++ to_le_bytes 8 (data4 m) ++ to_le_bytes 8 (data5 m) ++
  to_le_bytes 8 (data6 m).

Definition word_at (bs : list Z) (i : nat) : Z := from_le_bytes (take 8 (drop (8 * i) bs)).

Definition set_data_bytes (bs : list Z) (m : FastMessage) : FastMessage :=
  mkFast (tag m) (word_at bs 0) (word_at bs 1) (word_at bs 2) (word_at bs 3)
         (word_at bs 4) (word_at bs 5) (word_at bs 6).

Definition from_bytes (tag : Z) (data : list Z) : FastMessage :=
  let msg := fm_new tag in
  let len := Nat.min (length data) 56 in
  set_data_bytes (take len data ++ drop len (data_bytes msg)) msg.

(** The buffer after the call, and the returned length. *)
Definition to_bytes (m : FastMessage) (buf : list Z) : list Z * nat :=
  let len := Nat.min (length buf) 56 in
  (take len (data_bytes m) ++ drop len buf, len).

(** ** The ring *)

Record SpscRing := mkRing {
  ring_write : Z;
  ring_read : Z;
  slots : list FastMessage;
  sequences : list Z
}.

Definition ring_new : SpscRing :=
  mkRing 0 0 (replicate RING_BUFFER_SIZE fm_empty) (replicate RING_BUFFER_SIZE 0).

(** [pos & (RING_BUFFER_SIZE - 1)]. *)
Definition slot_of (pos : Z) : nat := Z.to_nat (Z.land pos (Z.of_nat RING_BUFFER_SIZE - 1)).

Definition store_slot (i : nat) (msg : FastMessage) (r : SpscRing) : SpscRing :=
  mkRing (ring_write r) (ring_read r) (<[i := msg]> (slots r)) (sequences r).
Definition store_write (w : Z) (r : SpscRing) : SpscRing :=
  mkRing w (ring_read r) (slots r) (sequences r).
Definition store_read (p : Z) (r : SpscRing) : SpscRing :=
  mkRing (ring_write r) p (slots r) (sequences r).

Definition full_at (write read : Z) : bool :=
  Z.of_nat RING_BUFFER_SIZE <=? u64_sub write read.

(** [Err(msg)] returns the message. *)
Definition try_send (msg : FastMessage) (r : SpscRing) : SpscRing * Result unit FastMessage :=
  let write := ring_write r in
  let read := ring_read r in
  if full_at write read then (r, Err msg)
  else (store_write (u64_add write 1) (store_slot (slot_of write) msg r), Ok tt).

Definition try_recv (r : SpscRing) : SpscRing * option FastMessage :=
  let read := ring_read r in
  let write := ring_write r in
  if read =? write then (r, None)
  else (store_read (u64_add read 1) r, slots r !! slot_of read).

Definition ring_is_empty (r : SpscRing) : bool := ring_read r =? ring_write r.
Definition ring_is_full (r : SpscRing) : bool := full_at (ring_write r) (ring_read r).
Definition ring_len (r : SpscRing) : Z := u64_sub (ring_write r) (ring_read r).

(** ** Endpoints over a pair of shared rings *)

Inductive RingRef := ClientToServer | ServerToClient.

(** The rings behind the two [Arc]s of [create_pair]. *)
Record Rings := mkRings { c2s : SpscRing; s2c : SpscRing }.

Definition get_ring (ref : RingRef) (st : Rings) : SpscRing :=
  match ref with ClientToServer => c2s st | ServerToClient => s2c st end.
Definition set_ring (ref : RingRef) (r : SpscRing) (st : Rings) : Rings :=
  match ref with
  | ClientToServer => mkRings r (s2c st)
  | ServerToClient => mkRings (c2s st) r
  end.

Record FastEndpoint := mkEp {
  service_id : Z;
  tx : RingRef;
  rx : RingRef;
  owner : ProcessId;
  peer : ProcessId
}.

Definition create_pair (service_id : Z) (client server : ProcessId) :
    FastEndpoint * FastEndpoint * Rings :=
  (mkEp service_id ClientToServer ServerToClient client server,
   mkEp service_id ServerToClient ClientToServer server client,
   mkRings ring_new ring_new).

Definition ep_send (ep : FastEndpoint) (msg : FastMessage) : op Rings IpcError unit := λ st,
  let '(r, res) := try_send msg (get_ring (tx ep) st) in
  (set_ring (tx ep) r st, match res with Ok _ => Ok tt | Err _ => Err BufferFull end).

Definition ep_recv (ep : FastEndpoint) : op Rings IpcError FastMessage := λ st,
  let '(r, res) := try_recv (get_ring (rx ep) st) in
  (set_ring (rx ep) r st, ok_or res BufferEmpty).

(** The polling loop of [call] from [spins] on; [world n] is what the rest of the
    system does to the rings before poll [n]. [fuel] bounds the polls. *)
Fixpoint call_loop (world : nat → Rings → Rings) (fuel : nat) (ep : FastEndpoint) (spins : nat)
    (st : Rings) : option (Rings * Result FastMessage IpcError) :=
  match fuel with
  | O => None
  | S fuel =>
      let st := world spins st in
      let '(r, res) := try_recv (get_ring (rx ep) st) in
      let st := set_ring (rx ep) r st in
      match res with
      | Some reply => Some (st, Ok reply)
      | None =>
          if (1000000 <? Z.of_nat (S spins)) then Some (st, Err Timeout)
          else call_loop world fuel ep (S spins) st
      end
  end.

Definition call (world : nat → Rings → Rings) (fuel : nat) (ep : FastEndpoint)
    (request : FastMessage) (st : Rings) : option (Rings * Result FastMessage IpcError) :=
  match ep_send ep request st with
  | (st, Ok _) => call_loop world fuel ep 0 st
  | (st, Err e) => Some (st, Err e)
  end.

(** ** Batches *)

Record MessageBatch := mkBatch { batch_messages : list FastMessage; batch_max : nat }.

Definition batch_new (max_size : nat) : MessageBatch := mkBatch [] max_size.

Definition batch_push (msg : FastMessage) (b : MessageBatch) : MessageBatch * bool :=
  if (length (batch_messages b) <? batch_max b)%nat
  then (mkBatch (batch_messages b ++ [msg]) (batch_max b), true)
  else (b, false).

Definition batch_is_full (b : MessageBatch) : bool :=
  (batch_max b <=? length (batch_messages b))%nat.
Definition batch_is_empty (b : MessageBatch) : bool := (length (batch_messages b) =? 0)%nat.
Definition batch_clear (b : MessageBatch) : MessageBatch := mkBatch [] (batch_max b).

(** The loop over [drain(..)]. *)
Fixpoint send_messages (ep : FastEndpoint) (msgs : list FastMessage) (sent : nat) (st : Rings) :
    Rings * Result nat IpcError :=
  match msgs with
  | [] => (st, Ok sent)
  | msg :: msgs =>
      match ep_send ep msg st with
      | (st, Ok _) => send_messages ep msgs (S sent) st
      | (st, Err e) => (st, Err e)
      end
  end.

(** Dropping the [Drain] on an early return removes what is left of it: the batch
    is empty either way. *)
Definition send_all (ep : FastEndpoint) (b : MessageBatch) (st : Rings) :
    MessageBatch * Rings * Result nat IpcError :=
  let '(st', res) := send_messages ep (batch_messages b) 0 st in
  (mkBatch [] (batch_max b), st', res).

(** ** Producer and consumer as programs of single accesses *)

(** Where the producer is in [try_send]. *)
Inductive producer :=
| PIdle
| PLoadedWrite (msg : FastMessage) (write : Z)
| PReady (msg : FastMessage) (write : Z)
| PStored (msg : FastMessage) (write : Z).

(** Where the consumer is in [try_recv]. *)
Inductive consumer :=
| CIdle
| CLoadedRead (read : Z)
| CReady (read : Z)
| CGot (read : Z) (msg : FastMessage).

(** A ring with its two users, and what was sent and received so far. *)
Record system := mkSys {
  sys_ring : SpscRing;
  sys_prod : producer;
  sys_cons : consumer;
  sent : list FastMessage;
  received : list FastMessage
}.

Definition sys_new : system := mkSys ring_new PIdle CIdle [] [].

Inductive ring_step : system → system → Prop :=
| p_load_write r c s v msg :
    ring_step (mkSys r PIdle c s v) (mkSys r (PLoadedWrite msg (ring_write r)) c s v)
| p_full r c s v msg w :
    full_at w (ring_read r) = true →
    ring_step (mkSys r (PLoadedWrite msg w) c s v) (mkSys r PIdle c s v)
| p_room r c s v msg w :
    full_at w (ring_read r) = false →
    ring_step (mkSys r (PLoadedWrite msg w) c s v) (mkSys r (PReady msg w) c s v)
| p_store_slot r c s v msg w :
    ring_step (mkSys r (PReady msg w) c s v)
              (mkSys (store_slot (slot_of w) msg r) (PStored msg w) c s v)
| p_store_write r c s v msg w :
    ring_step (mkSys r (PStored msg w) c s v)
              (mkSys (store_write (u64_add w 1) r) PIdle c (s ++ [msg]) v)
| c_load_read r p s v :
    ring_step (mkSys r p CIdle s v) (mkSys r p (CLoadedRead (ring_read r)) s v)
| c_empty r p s v rd :
    (rd =? ring_write r) = true →
    ring_step (mkSys r p (CLoadedRead rd) s v) (mkSys r p CIdle s v)
| c_nonempty r p s v rd :
    (rd =? ring_write r) = false →
    ring_step (mkSys r p (CLoadedRead rd) s v) (mkSys r p (CReady rd) s v)
| c_load_slot r p s v rd msg :
    slots r !! slot_of rd = Some msg →
    ring_step (mkSys r p (CReady rd) s v) (mkSys r p (CGot rd msg) s v)
| c_store_read r p s v rd msg :
    ring_step (mkSys r p (CGot rd msg) s v)
              (mkSys (store_read (u64_add rd 1) r) p CIdle s (v ++ [msg])).

(** ** The ring represents a bounded queue *)

#[local] Arguments Nat.modulo : simpl never.

Lemma slot_of_mod n : slot_of (u64 (Z.of_nat n)) = (n mod 256)%nat.
Proof.
  unfold slot_of, u64, wrap. change (Z.of_nat RING_BUFFER_SIZE - 1) with (Z.ones 8).
  rewrite Z.land_ones by lia. change (2 ^ 64) with (2 ^ 8 * 2 ^ 56).
  rewrite Z.rem_mul_r, Z.mul_comm, Z.mod_add, Z.mod_mod by lia.
  change (2 ^ 8) with (Z.of_nat 256). rewrite <-Nat2Z.inj_mod. apply Nat2Z.id.
Qed.

(** [d] messages were ever taken and [l] are in the ring, whatever has wrapped. *)
Record ring_repr (d : nat) (r : SpscRing) (l : list FastMessage) : Prop := {
  rr_read : ring_read r = u64 (Z.of_nat d);
  rr_write : ring_write r = u64 (Z.of_nat (d + length l));
  rr_bound : (length l ≤ RING_BUFFER_SIZE)%nat;
  rr_slots : length (slots r) = RING_BUFFER_SIZE;
  rr_slot : ∀ k m, l !! k = Some m → slots r !! ((d + k) mod 256)%nat = Some m
}.

Lemma ring_new_repr : ring_repr 0 ring_new [].
Proof. constructor; try done. unfold RING_BUFFER_SIZE. simpl. lia. Qed.

Lemma ring_distance d r l :
  ring_repr d r l → u64_sub (ring_write r) (ring_read r) = Z.of_nat (length l).
Proof.
  intros [Hr Hw Hb _ _]. rewrite Hr, Hw, Nat2Z.inj_add. apply u64_sub_wrapped.
  unfold RING_BUFFER_SIZE in Hb. lia.
Qed.

Lemma full_at_repr d r l :
  ring_repr d r l →
  full_at (ring_write r) (ring_read r) = bool_decide (length l = RING_BUFFER_SIZE).
Proof.
  intros Hr. unfold full_at. rewrite (ring_distance d r l Hr). apply eq_true_iff_eq.
  rewrite Z.leb_le, bool_decide_eq_true. pose proof (rr_bound d r l Hr). lia.
Qed.

Lemma empty_repr d r l :
  ring_repr d r l → (ring_read r =? ring_write r) = bool_decide (l = []).
Proof.
  intros Hr. apply eq_true_iff_eq. rewrite Z.eqb_eq, bool_decide_eq_true.
  pose proof (ring_distance d r l Hr) as Hd. split.
  - intros He. rewrite He in Hd. unfold u64_sub in Hd. rewrite Z.sub_diag in Hd. by destruct l.
  - intros ->. destruct Hr as [-> -> _ _ _]. simpl. by rewrite Nat.add_0_r.
Qed.

Lemma write_slot_free d r l k :
  ring_repr d r l → (length l < RING_BUFFER_SIZE)%nat → (k < length l)%nat →
  slot_of (ring_write r) ≠ ((d + k) mod 256)%nat.
Proof.
  intros [_ -> _ _ _] Hlt Hk. rewrite slot_of_mod. unfold RING_BUFFER_SIZE in Hlt.
  symmetry. apply ring_slot_ne; lia.
Qed.

Lemma slot_of_lt d r l : ring_repr d r l → (slot_of (ring_write r) < length (slots r))%nat.
Proof.
  intros [_ -> _ -> _]. rewrite slot_of_mod. apply Nat.mod_upper_bound. done.
Qed.

(** Storing into the slot the next write goes to. *)
Lemma store_slot_repr d r l msg :
  ring_repr d r l → (length l < RING_BUFFER_SIZE)%nat →
  ring_repr d (store_slot (slot_of (ring_write r)) msg r) l.
Proof.
  intros Hr Hlt. pose proof Hr as [Hrd Hw Hb Hs Hk]. constructor; simpl; try done.
  - by rewrite length_insert.
  - intros k m Hkm. rewrite list_lookup_insert_ne; [by apply Hk|].
    eapply write_slot_free; [done..|by eapply lookup_lt_Some].
Qed.

(** Publishing the stored slot. *)
Lemma store_write_repr d r l msg :
  ring_repr d r l → (length l < RING_BUFFER_SIZE)%nat →
  slots r !! slot_of (ring_write r) = Some msg →
  ring_repr d (store_write (u64_add (ring_write r) 1) r) (l ++ [msg]).
Proof.
  intros [Hrd Hw Hb Hs Hk] Hlt Hslot. rewrite Hw, slot_of_mod in Hslot.
  constructor; simpl; try done; rewrite ?length_app; simpl.
  - rewrite Hw. unfold u64_add, u64, wrap. rewrite Zplus_mod_idemp_l. f_equal. lia.
  - lia.
  - intros k m [Hkm|[Hk1 Hk2]]%lookup_app_Some; [by apply Hk|].
    apply list_lookup_singleton_Some in Hk2 as [Hk2 <-].
    by replace k with (length l) by lia.
Qed.

Lemma store_read_repr d r m l :
  ring_repr d r (m :: l) → ring_repr (S d) (store_read (u64_add (ring_read r) 1) r) l.
Proof.
  intros [Hrd Hw Hb Hs Hk]. simpl in *. constructor; simpl; try done.
  - rewrite Hrd. unfold u64_add, u64, wrap. rewrite Zplus_mod_idemp_l. f_equal. lia.
  - rewrite Hw. do 2 f_equal. lia.
  - lia.
  - intros k m' Hkm. rewrite <-(Hk (S k) m' Hkm). do 2 f_equal. lia.
Qed.

Lemma read_slot d r m l : ring_repr d r (m :: l) → slots r !! slot_of (ring_read r) = Some m.
Proof.
  intros [Hrd _ _ _ Hk]. rewrite Hrd, slot_of_mod, <-(Nat.add_0_r d). by apply Hk.
Qed.

Lemma try_send_repr msg d r l :
  ring_repr d r l →
  match try_send msg r with
  | (r', Ok _) => (length l < RING_BUFFER_SIZE)%nat ∧ ring_repr d r' (l ++ [msg])
  | (r', Err m) => length l = RING_BUFFER_SIZE ∧ r' = r ∧ m = msg
  end.
Proof.
  intros Hr. unfold try_send. rewrite (full_at_repr d r l Hr).
  pose proof (rr_bound d r l Hr). case_bool_decide; [done|].
  assert (Hlt : (length l < RING_BUFFER_SIZE)%nat) by lia. split; [done|].
  apply (store_write_repr d (store_slot (slot_of (ring_write r)) msg r)); [by apply store_slot_repr|done|].
  simpl. apply list_lookup_insert_eq. by eapply slot_of_lt.
Qed.

Lemma try_recv_repr d r l :
  ring_repr d r l →
  match l with
  | [] => try_recv r = (r, None)
  | m :: l' => ∃ r', try_recv r = (r', Some m) ∧ ring_repr (S d) r' l'
  end.
Proof.
  intros Hr. unfold try_recv. rewrite (empty_repr d r l Hr).
  destruct l as [|m l]; [done|]. rewrite bool_decide_false by done.
  rewrite (read_slot d r m l Hr). eexists. split; [done|]. by eapply store_read_repr.
Qed.

(** ** Interleaved producer and consumer *)

Definition prod_ok (p : producer) (r : SpscRing) (l : list FastMessage) : Prop :=
  match p with
  | PIdle => True
  | PLoadedWrite _ w => w = ring_write r
  | PReady _ w => w = ring_write r ∧ (length l < RING_BUFFER_SIZE)%nat
  | PStored msg w => w = ring_write r ∧ (length l < RING_BUFFER_SIZE)%nat ∧
                     slots r !! slot_of w = Some msg
  end.

Definition cons_ok (c : consumer) (r : SpscRing) (l : list FastMessage) : Prop :=
  match c with
  | CIdle => True
  | CLoadedRead rd => rd = ring_read r
  | CReady rd => rd = ring_read r ∧ l ≠ []
  | CGot rd msg => rd = ring_read r ∧ head l = Some msg
  end.

Record sys_inv (s : system) (l : list FastMessage) : Prop := {
  sv_flow : sent s = received s ++ l;
  sv_ring : ring_repr (length (received s)) (sys_ring s) l;
  sv_prod : prod_ok (sys_prod s) (sys_ring s) l;
  sv_cons : cons_ok (sys_cons s) (sys_ring s) l
}.

Lemma sys_new_inv : sys_inv sys_new [].
Proof. constructor; try done. apply ring_new_repr. Qed.

(** Publishing a message keeps what the consumer knows. *)
Lemma cons_ok_app c r w l x : cons_ok c r l → cons_ok c (store_write w r) (l ++ [x]).
Proof.
  destruct c; simpl; try done.
  - intros [-> ?]. split; [done|]. by destruct l.
  - intros [-> Hl]. split; [done|]. by destruct l.
Qed.

(** Taking a message keeps what the producer knows. *)
Lemma prod_ok_tail p r w m l : prod_ok p r (m :: l) → prod_ok p (store_read w r) l.
Proof. destruct p; simpl; try done; intros; destruct_and?; split_and?; try done; lia. Qed.

Lemma ring_step_inv s s' l : sys_inv s l → ring_step s s' → ∃ l', sys_inv s' l'.
Proof.
  intros [Hf Hr Hp Hc] Hstep. destruct Hstep; simpl in *.
  - exists l. by constructor.
  - exists l. by constructor.
  - exists l. constructor; simpl; [done..| |done]. subst w. split; [done|].
    rewrite (full_at_repr _ _ _ Hr) in H. apply bool_decide_eq_false in H.
    pose proof (rr_bound _ _ _ Hr). lia.
  - destruct Hp as [-> Hlt]. exists l. constructor; simpl; [done|by apply store_slot_repr| |].
    + split_and!; [done..|]. apply list_lookup_insert_eq. by eapply slot_of_lt.
    + by destruct c.
  - destruct Hp as (-> & Hlt & Hslot). exists (l ++ [msg]).
    constructor; simpl; [by rewrite Hf, app_assoc|by apply store_write_repr|done|by apply cons_ok_app].
  - exists l. by constructor.
  - exists l. by constructor.
  - exists l. constructor; simpl; [done..|]. subst rd. split; [done|]. intros ->.
    by rewrite (empty_repr _ _ _ Hr) in H.
  - destruct Hc as [-> Hne]. exists l. constructor; simpl; [done..|]. split; [done|].
    destruct l as [|m l]; [done|]. rewrite (read_slot _ _ _ _ Hr) in H. done.
  - destruct Hc as [-> Hhd]. destruct l as [|m l]; [done|]. simplify_eq/=. exists l.
    constructor; simpl; [by rewrite <-app_assoc| |by eapply prod_ok_tail|done].
    rewrite length_app, Nat.add_1_r. by eapply store_read_repr.
Qed.

Lemma ring_steps_inv s s' :
  rtc ring_step s s' → (∃ l, sys_inv s l) → ∃ l, sys_inv s' l.
Proof.
  induction 1 as [|s1 s2 s3 Hstep _ IH]; [done|]. intros [l Hl].
  apply IH. by eapply ring_step_inv.
Qed.

(** ** Byte views *)

Lemma word_at_bytes bs i :
  Forall is_byte bs → (8 * i + 8 ≤ length bs)%nat →
  to_le_bytes 8 (word_at bs i) = take 8 (drop (8 * i) bs).
Proof.
  intros Hb Hl. unfold word_at.
  assert (H8 : length (take 8 (drop (8 * i) bs)) = 8%nat) by (rewrite length_take, length_drop; lia).
  rewrite <-H8 at 1. apply to_from_le_bytes. by apply Forall_take, Forall_drop.
Qed.

Lemma drop_words n (bs : list Z) : take 8 (drop n bs) ++ drop (n + 8) bs = drop n bs.
Proof. by rewrite <-drop_drop, take_drop. Qed.

Lemma data_bytes_set bs m :
  Forall is_byte bs → length bs = 56%nat → data_bytes (set_data_bytes bs m) = bs.
Proof.
  intros Hb Hl. unfold data_bytes. cbn [set_data_bytes data0 data1 data2 data3 data4 data5 data6].
  rewrite !word_at_bytes by (done || lia).
  rewrite <-(app_nil_r (take 8 (drop (8 * 6) bs))), <-(drop_ge bs 56) at 1 by lia.
  rewrite (drop_words (8 * 6)), (drop_words (8 * 5)), (drop_words (8 * 4)), (drop_words (8 * 3)),
    (drop_words (8 * 2)), (drop_words (8 * 1)), (drop_words (8 * 0)). apply drop_0.
Qed.

Lemma length_data_bytes m : length (data_bytes m) = 56%nat.
Proof. unfold data_bytes. by rewrite !length_app, !length_to_le_bytes. Qed.

Lemma data_bytes_new t : data_bytes (fm_new t) = replicate 56 0.
Proof. done. Qed.

Lemma from_bytes_data t data :
  Forall is_byte data → data_bytes (from_bytes t data) = take 56 (data ++ replicate 56 0).
Proof.
  intros Hb. unfold from_bytes. rewrite data_bytes_set, data_bytes_new.
  - destruct (decide (length data ≤ 56)%nat) as [Hle|Hgt].
    + rewrite Nat.min_l, take_ge, drop_replicate, take_app_ge by lia.
      f_equal. by rewrite take_replicate, Nat.min_l by lia.
    + rewrite Nat.min_r, drop_replicate, app_nil_r, take_app_le by lia. done.
  - apply Forall_app. split; [by apply Forall_take|]. apply Forall_drop. rewrite data_bytes_new.
    apply Forall_replicate. split; lia.
  - rewrite length_app, length_take, length_drop, length_data_bytes. lia.
Qed.

(** ** Polling *)

Definition poll (ep : FastEndpoint) (st : Rings) : Rings * option FastMessage :=
  let '(r, res) := try_recv (get_ring (rx ep) st) in (set_ring (rx ep) r st, res).

(** The rings as poll [n] of [call] finds them, after the earlier polls. *)
Fixpoint polled (world : nat → Rings → Rings) (ep : FastEndpoint) (n : nat) (st : Rings) : Rings :=
  match n with
  | O => world O st
  | S n => world (S n) (poll ep (polled world ep n st)).1
  end.

Lemma call_loop_spec world ep st0 fuel : ∀ n st,
  world n st = polled world ep n st0 →
  1000001 ≤ Z.of_nat n + Z.of_nat fuel → Z.of_nat n ≤ 1000000 →
  ∃ st' res, call_loop world fuel ep n st = Some (st', res) ∧
  match res with
  | Ok m => ∃ k, (n ≤ k)%nat ∧ Z.of_nat k ≤ 1000000 ∧
      (poll ep (polled world ep k st0)).2 = Some m ∧
      ∀ j, (n ≤ j < k)%nat → (poll ep (polled world ep j st0)).2 = None
  | Err e => e = Timeout ∧ ∀ j, (n ≤ j)%nat → Z.of_nat j ≤ 1000000 →
      (poll ep (polled world ep j st0)).2 = None
  end.
Proof.
  induction fuel as [|fuel IH]; intros n st Hst Hf Hn; [lia|].
  cbn [call_loop]. rewrite Hst.
  destruct (try_recv (get_ring (rx ep) (polled world ep n st0))) as [r res] eqn:E.
  assert (Hpoll : poll ep (polled world ep n st0) = (set_ring (rx ep) r (polled world ep n st0), res)).
  { unfold poll. by rewrite E. }
  destruct res as [m|].
  { eexists _, _. split; [done|]. exists n. split_and!; [done|done| |lia]. by rewrite Hpoll. }
  destruct (Z.ltb_spec 1000000 (Z.of_nat (S n))).
  - eexists _, _. split; [done|]. split; [done|]. intros j Hj1 Hj2.
    replace j with n by lia. by rewrite Hpoll.
  - destruct (IH (S n) (set_ring (rx ep) r (polled world ep n st0))) as (st' & res & -> & Hres);
      [cbn [polled]; by rewrite Hpoll|lia|lia|].
    exists st', res. split; [done|]. destruct res as [m|e].
    + destruct Hres as (k & ? & ? & Hm & Hbefore). exists k. split_and!; [lia|done|done|].
      intros j Hj. destruct (decide (j = n)) as [->|]; [by rewrite Hpoll|]. apply Hbefore. lia.
    + destruct Hres as [-> Hres]. split; [done|]. intros j Hj1 Hj2.
      destruct (decide (j = n)) as [->|]; [by rewrite Hpoll|]. apply Hres; lia.
Qed.

(** ** Sending a batch *)

Lemma set_get_ring ref st : set_ring ref (get_ring ref st) st = st.
Proof. by destruct st, ref. Qed.

Lemma get_set_ring ref r st : get_ring ref (set_ring ref r st) = r.
Proof. by destruct ref. Qed.

Lemma send_messages_spec ep msgs : ∀ n st d l,
  ring_repr d (get_ring (tx ep) st) l →
  let room := (RING_BUFFER_SIZE - length l)%nat in
  ring_repr d (get_ring (tx ep) (send_messages ep msgs n st).1) (l ++ take room msgs) ∧
  (send_messages ep msgs n st).2
  = (if decide (length msgs ≤ room)%nat then Ok (n + length msgs)%nat else Err BufferFull).
Proof.
  induction msgs as [|m msgs IH]; intros n st d l Hr room; simpl.
  { rewrite take_nil, app_nil_r, Nat.add_0_r. done. }
  unfold ep_send. pose proof (try_send_repr m d _ l Hr) as Hs.
  destruct (try_send m (get_ring (tx ep) st)) as [r' [u|e]].
  - destruct Hs as [Hlt Hr']. assert (Hroom : room = S (RING_BUFFER_SIZE - length (l ++ [m]))).
    { rewrite length_app. simpl. unfold room. lia. }
    destruct (IH (S n) (set_ring (tx ep) r' st) d (l ++ [m])) as [H1 H2]; [by rewrite get_set_ring|].
    rewrite Hroom. simpl. rewrite <-app_assoc in H1. split; [exact H1|]. rewrite H2.
    repeat case_decide; try lia; f_equal; lia.
  - destruct Hs as (Hfull & -> & ->). simpl. unfold room. rewrite Hfull, Nat.sub_diag. simpl.
    by rewrite app_nil_r, set_get_ring.
Qed.

(** ** Properties *)

(** [C3] The lock-free ring under every interleaving of one producer's and one
    consumer's memory accesses: what the consumer has received is a prefix of what the
    producer has sent, in order, with at most 256 messages between; the slot the
    consumer reads always exists; and the producer is never about to write the slot the
    consumer is about to read, so the unsynchronised slot accesses do not race. *)
Theorem ring_concurrent_fifo s :
  rtc ring_step sys_new s →
  (∃ l, sent s = received s ++ l ∧ (length l ≤ RING_BUFFER_SIZE)%nat) ∧
  (∀ rd, sys_cons s = CReady rd → is_Some (slots (sys_ring s) !! slot_of rd)) ∧
  (∀ msg w rd, sys_prod s = PReady msg w → sys_cons s = CReady rd → slot_of w ≠ slot_of rd).
Proof.
  intros Hs. destruct (ring_steps_inv _ _ Hs (ex_intro _ [] sys_new_inv)) as (l & [Hf Hr Hp Hc]). split_and!.
  - exists l. split; [done|]. apply Hr.
  - intros rd Hcr. rewrite Hcr in Hc. destruct Hc as [-> Hne]. destruct l as [|m l]; [done|].
    rewrite (read_slot _ _ _ _ Hr). done.
  - intros msg w rd Hpw Hcr. rewrite Hpw in Hp. rewrite Hcr in Hc.
    destruct Hp as [-> Hlt], Hc as [-> Hne].
    pose proof (rr_read _ _ _ Hr) as ->. rewrite slot_of_mod.
    rewrite <-(Nat.add_0_r (length (received s))).
    eapply write_slot_free; [done..|]. destruct l; [done|simpl; lia].
Qed.

Definition w_fast : FastMessage := from_bytes 0x1234 [1; 2; 3; 4; 5; 6; 7; 8].

Lemma ring_concurrent_fifo_witness :
  let r1 := store_write 1 (store_slot 0 w_fast ring_new) in
  let s := mkSys r1 PIdle (CReady 0) [w_fast] [] in
  rtc ring_step sys_new s ∧ is_Some (slots (sys_ring s) !! slot_of 0).
Proof.
  intros r1 s. assert (Hs : rtc ring_step sys_new s).
  { eapply rtc_l; [apply (p_load_write ring_new CIdle [] [] w_fast)|].
    eapply rtc_l; [apply p_room; vm_compute; reflexivity|].
    eapply rtc_l; [apply c_load_read|].
    eapply rtc_l; [apply p_store_slot|].
    eapply rtc_l; [apply p_store_write|].
    eapply rtc_l; [apply c_nonempty; vm_compute; reflexivity|].
    apply rtc_refl. }
  split; [exact Hs|].
  exact (proj1 (proj2 (ring_concurrent_fifo s Hs)) 0 eq_refl).
Defined.

(** Run without interference, [try_send] and [try_recv] implement a queue of 256
    messages, whatever the number of messages passed so far and even after the position
    counters have wrapped; [len], [is_empty] and [is_full] agree with it. *)
Theorem ring_refines_queue d r l :
  ring_repr d r l →
  (∀ msg, match try_send msg r with
   | (r', Ok _) => (length l < RING_BUFFER_SIZE)%nat ∧ ring_repr d r' (l ++ [msg])
   | (r', Err m) => length l = RING_BUFFER_SIZE ∧ r' = r ∧ m = msg
   end) ∧
  match l with
  | [] => try_recv r = (r, None)
  | m :: l' => ∃ r', try_recv r = (r', Some m) ∧ ring_repr (S d) r' l'
  end ∧
  ring_len r = Z.of_nat (length l) ∧ ring_is_empty r = bool_decide (l = []) ∧
  ring_is_full r = bool_decide (length l = RING_BUFFER_SIZE).
Proof.
  intros Hr. split_and!.
  - intros msg. by apply try_send_repr.
  - by apply try_recv_repr.
  - by eapply ring_distance.
  - by eapply empty_repr.
  - by eapply full_at_repr.
Qed.

Lemma ring_refines_queue_witness :
  ring_repr 0 ring_new [] ∧ try_recv ring_new = (ring_new, None).
Proof.
  split; [exact ring_new_repr|].
  exact (proj1 (proj2 (ring_refines_queue 0 ring_new [] ring_new_repr))).
Defined.

(** Byte round trip: a message built from a byte slice gives back the slice, cut
    at 56 bytes and padded with zeros, in the part of the buffer that [to_bytes] fills,
    and leaves the rest of the buffer alone; the tag is kept. In particular a slice of
    more than 56 bytes is truncated, although [FASTPATH_MAX_SIZE] is 64. *)
Theorem message_bytes_roundtrip t data buf :
  Forall is_byte data →
  tag (from_bytes t data) = t ∧
  to_bytes (from_bytes t data) buf
  = (take (Nat.min (length buf) 56) (data ++ replicate 56 0) ++ drop (Nat.min (length buf) 56) buf,
     Nat.min (length buf) 56).
Proof.
  intros Hb. split; [done|]. unfold to_bytes. rewrite from_bytes_data by done.
  by rewrite take_take, Nat.min_l by lia.
Qed.

Lemma message_bytes_roundtrip_witness :
  to_bytes (from_bytes 0x1234 [1; 2; 3; 4; 5; 6; 7; 8]) (replicate 16 9)
  = ([1; 2; 3; 4; 5; 6; 7; 8] ++ replicate 8 0, 16%nat).
Proof.
  assert (H : Forall is_byte [1; 2; 3; 4; 5; 6; 7; 8])
    by (repeat (apply Forall_cons_2; [split; lia|]); apply Forall_nil_2).
  exact (proj2 (message_bytes_roundtrip 0x1234 [1; 2; 3; 4; 5; 6; 7; 8] (replicate 16 9) H)).
Defined.

(** Endpoints: [send_all] puts the batch into the ring in order and reports its
    size when it fits; otherwise it sends what fits, reports [BufferFull], and the rest
    of the batch is gone. [call] always returns within 1,000,001 polls: with the first
    message the peer has put in the ring by then, or with [Timeout] when every poll
    found it empty. *)
Theorem endpoint_correct ep b st d l world request st1 :
  ring_repr d (get_ring (tx ep) st) l →
  ep_send ep request st = (st1, Ok tt) →
  (let '(b', st', res) := send_all ep b st in
   batch_messages b' = [] ∧
   ring_repr d (get_ring (tx ep) st')
     (l ++ take (RING_BUFFER_SIZE - length l) (batch_messages b)) ∧
   res = (if decide (length (batch_messages b) ≤ RING_BUFFER_SIZE - length l)%nat
          then Ok (length (batch_messages b)) else Err BufferFull)) ∧
  ∃ st' res, call world (Z.to_nat 1000001) ep request st = Some (st', res) ∧
    match res with
    | Ok m => ∃ k, Z.of_nat k ≤ 1000000 ∧ (poll ep (polled world ep k st1)).2 = Some m ∧
        ∀ j, (j < k)%nat → (poll ep (polled world ep j st1)).2 = None
    | Err e => e = Timeout ∧
        ∀ j, Z.of_nat j ≤ 1000000 → (poll ep (polled world ep j st1)).2 = None
    end.
Proof.
  intros Hr Hsend. split.
  - unfold send_all. destruct (send_messages_spec ep (batch_messages b) 0 st d l Hr) as [H1 H2].
    destruct (send_messages ep (batch_messages b) 0 st) as [st' res]. done.
  - unfold call. rewrite Hsend.
    destruct (call_loop_spec world ep st1 (Z.to_nat 1000001) 0 st1) as (st' & res & -> & Hres);
      [done|lia|lia|].
    exists st', res. split; [done|]. destruct res as [m|e].
    + destruct Hres as (k & _ & ? & ? & Hb). exists k. split_and!; [done..|]. intros j Hj. apply Hb. lia.
    + destruct Hres as [-> Hb]. split; [done|]. intros j Hj. apply Hb; [lia|done].
Qed.

Lemma endpoint_correct_witness :
  let '(client, server, st) := create_pair 7 (mkPid 1) (mkPid 2) in
  let '(b', _, res) := send_all client (mkBatch [w_fast; fm_new 9] 4) st in
  batch_messages b' = [] ∧ res = Ok 2%nat.
Proof.
  pose (client := mkEp 7 ClientToServer ServerToClient (mkPid 1) (mkPid 2)).
  pose (st := mkRings ring_new ring_new).
  destruct (endpoint_correct client (mkBatch [w_fast; fm_new 9] 4) st 0 [] (λ _ s, s) w_fast
              (ep_send client w_fast st).1 ring_new_repr) as [H _]; [vm_compute; reflexivity|].
  exact (conj (proj1 H) (proj2 (proj2 H))).
Defined.
