(* ===== verification/SchedIface.v ===== *)
(** * SchedIface: what the scheduler promises its clients

    Signal delivery and process waiting call three operations of the global
    scheduler and ignore their results ([let _ = scheduler().wake(pid)]). The
    class states those operations by their effect on process states; clients are
    proved against it, and [Sched] discharges it. *)

From stdpp Require Import gmap.
From S2P Require Import Prelude.
From S2P Require Import Ids.
From S2P Require Import Sched.

Class SchedIface (S : Type) := {
  sif_state : S → ProcessId → option ProcessState;
  sif_wake : ProcessId → S → S;
  sif_block : ProcessId → S → S;
  sif_terminate : ProcessId → S → S;
  sif_wake_state : ∀ p s q,
    sif_state (sif_wake p s) q =
    if decide (q = p ∧ sif_state s p = Some Blocked) then Some Ready else sif_state s q;
  sif_block_state : ∀ p s q,
    sif_state (sif_block p s) q =
    if decide (q = p ∧ is_Some (sif_state s p)) then Some Blocked else sif_state s q;
  sif_terminate_state : ∀ p s q,
    sif_state (sif_terminate p s) q =
    if decide (q = p ∧ is_Some (sif_state s p)) then Some Terminated else sif_state s q
}.

Definition state_of (s : Scheduler) (p : ProcessId) : option ProcessState :=
  pi_state <$> processes s !! p.

(** Looking up a process' state after one entry changed. *)
Lemma state_of_insert s p q i :
  pi_state <$> (<[p := i]> (processes s) !! q)
  = if decide (q = p) then Some (pi_state i) else state_of s q.
Proof.
  unfold state_of. destruct (decide (q = p)) as [->|].
  - by rewrite lookup_insert_eq.
  - by rewrite lookup_insert_ne.
Qed.

Lemma state_of_Some s p i : processes s !! p = Some i → state_of s p = Some (pi_state i).
Proof. intros Hp. unfold state_of. by rewrite Hp. Qed.

Lemma state_of_None s p : processes s !! p = None → state_of s p = None.
Proof. intros Hp. unfold state_of. by rewrite Hp. Qed.

(** Case analysis on whether the process looked up is the one changed. *)
Ltac by_pid Hs :=
  match goal with
  | |- context [decide (?q = ?p)] =>
      destruct (decide (q = p)) as [->|?];
      [rewrite decide_True; [done|split; [done|rewrite Hs; eauto; by f_equal]]
      |rewrite decide_False; [done|naive_solver]]
  end.

Lemma wake_state p s q :
  state_of (wake p s).1 q =
  if decide (q = p ∧ state_of s p = Some Blocked) then Some Ready else state_of s q.
Proof.
  unfold wake. destruct (processes s !! p) as [i|] eqn:Hp.
  - pose proof (state_of_Some s p i Hp) as Hs. destruct (decide (pi_state i = Blocked)) as [Hb|Hb].
    + change (state_of (enqueue p (pi_class i) (set_processes <[p := set_state Ready i]> s), Ok tt).1 q)
        with (pi_state <$> (<[p := set_state Ready i]> (processes s) !! q)).
      rewrite state_of_insert. by_pid Hs.
    + simpl. rewrite decide_False; [done|]. rewrite Hs. naive_solver congruence.
  - pose proof (state_of_None s p Hp) as Hs. simpl. rewrite decide_False; [done|].
    rewrite Hs. naive_solver.
Qed.

Lemma block_state p s q :
  state_of (block p s).1 q =
  if decide (q = p ∧ is_Some (state_of s p)) then Some Blocked else state_of s q.
Proof.
  unfold block. destruct (processes s !! p) as [i|] eqn:Hp.
  - pose proof (state_of_Some s p i Hp) as Hs.
    change (state_of (set_processes <[p := set_state Blocked i]> s, Ok tt).1 q)
      with (pi_state <$> (<[p := set_state Blocked i]> (processes s) !! q)).
    rewrite state_of_insert. by_pid Hs.
  - pose proof (state_of_None s p Hp) as Hs. simpl. rewrite decide_False; [done|].
    rewrite Hs. intros [_ [? ?]]. done.
Qed.

Lemma terminate_state p s q :
  state_of (terminate p s).1 q =
  if decide (q = p ∧ is_Some (state_of s p)) then Some Terminated else state_of s q.
Proof.
  destruct (processes s !! p) as [i|] eqn:Hp.
  - pose proof (state_of_Some s p i Hp) as Hs.
    destruct (terminate_queues p s i Realtime Hp) as [Hps _].
    unfold state_of at 1. rewrite Hps, state_of_insert. by_pid Hs.
  - pose proof (state_of_None s p Hp) as Hs. unfold terminate. rewrite Hp. simpl.
    rewrite decide_False; [done|]. rewrite Hs. intros [_ [? ?]]. done.
Qed.

#[global] Instance Scheduler_iface : SchedIface Scheduler := {|
  sif_state := state_of;
  sif_wake p s := (wake p s).1;
  sif_block p s := (block p s).1;
  sif_terminate p s := (terminate p s).1;
  sif_wake_state := wake_state;
  sif_block_state := block_state;
  sif_terminate_state := terminate_state
|}.
