(* ===== verification/Signals.v ===== *)
(** * Signals: per-process signals and their manager ([kernel/src/process/signal.rs])

    Signal sets, dispositions, the pending queue and mask of one process, and the
    [SignalManager] that keeps them. Sending a signal wakes its target through the
    scheduler interface, so the manager's operations run on a pair of the manager
    and any scheduler that implements [SchedIface]. *)

From Stdlib Require Import ZArith Lia.
From stdpp Require Import gmap.
From S2P Require Import Prelude.
From S2P Require Import Ids.
From S2P Require Import Sched.
From S2P Require Import SchedIface.

(** ** Signal numbers: [u8] *)

Definition Signal := Z.
Definition SIGHUP : Signal := 1.
Definition SIGINT : Signal := 2.
Definition SIGQUIT : Signal := 3.
Definition SIGILL : Signal := 4.
Definition SIGTRAP : Signal := 5.
Definition SIGABRT : Signal := 6.
Definition SIGBUS : Signal := 7.
Definition SIGFPE : Signal := 8.
Definition SIGKILL : Signal := 9.
Definition SIGUSR1 : Signal := 10.
Definition SIGSEGV : Signal := 11.
Definition SIGUSR2 : Signal := 12.
Definition SIGPIPE : Signal := 13.
Definition SIGALRM : Signal := 14.
Definition SIGTERM : Signal := 15.
Definition SIGCHLD : Signal := 17.
Definition SIGCONT : Signal := 18.
Definition SIGSTOP : Signal := 19.
Definition SIGTSTP : Signal := 20.
Definition SIGTTIN : Signal := 21.
Definition SIGTTOU : Signal := 22.
Definition SIGURG : Signal := 23.
Definition SIGXCPU : Signal := 24.
Definition SIGXFSZ : Signal := 25.
Definition SIGWINCH : Signal := 28.
Definition SIGIO : Signal := 29.
Definition SIGPWR : Signal := 30.
Definition SIGSYS : Signal := 31.
Definition NSIG : nat := 32.
Definition SIGRTMIN : Signal := 32.

Inductive SignalAction := ATerminate | ACoreDump | AStop | AContinue | AIgnore.

Definition default_action (sig : Signal) : SignalAction :=
  if bool_decide (sig ∈ [SIGKILL; SIGTERM; SIGINT; SIGQUIT; SIGHUP;
                         SIGPIPE; SIGALRM; SIGUSR1; SIGUSR2; SIGPWR]) then ATerminate
  else if bool_decide (sig ∈ [SIGSEGV; SIGILL; SIGBUS; SIGFPE;
                              SIGABRT; SIGTRAP; SIGSYS; SIGXCPU; SIGXFSZ]) then ACoreDump
  else if bool_decide (sig ∈ [SIGSTOP; SIGTSTP; SIGTTIN; SIGTTOU]) then AStop
  else if bool_decide (sig = SIGCONT) then AContinue
  else if bool_decide (sig ∈ [SIGCHLD; SIGURG; SIGWINCH; SIGIO]) then AIgnore
  else ATerminate.

(** ** Signal sets: 64-bit masks *)

Record SignalSet := mkSet { set_bits : Z }.

Definition set_empty : SignalSet := mkSet 0.
Definition set_full : SignalSet := mkSet (2 ^ 64 - 1).

Definition set_contains (s : SignalSet) (sig : Signal) : bool :=
  if (sig =? 0) || (64 <? sig) then false else bit_test (set_bits s) (sig - 1).
Definition set_add (sig : Signal) (s : SignalSet) : SignalSet :=
  if (0 <? sig) && (sig <=? 64) then mkSet (bit_set (set_bits s) (sig - 1)) else s.
Definition set_remove (sig : Signal) (s : SignalSet) : SignalSet :=
  if (0 <? sig) && (sig <=? 64) then mkSet (bit_clear (set_bits s) (sig - 1)) else s.
Definition set_union (a b : SignalSet) : SignalSet := mkSet (Z.lor (set_bits a) (set_bits b)).
Definition set_intersection (a b : SignalSet) : SignalSet :=
  mkSet (Z.land (set_bits a) (set_bits b)).
Definition set_is_empty (s : SignalSet) : bool := set_bits s =? 0.
(** [(1..=64).filter(|sig| self.contains(sig))]. *)
Definition set_iter (s : SignalSet) : list Signal :=
  filter (λ sig, set_contains s sig = true) (Z.of_nat <$> seq 1 64).

(** ** Dispositions *)

Inductive SignalHandler := HDefault | HIgnore | Handler (addr : Z).

#[global] Instance SignalHandler_eq_dec : EqDecision SignalHandler.
Proof. solve_decision. Defined.

Inductive SignalError := InvalidSignal | UncatchableSignal | SigProcessNotFound | PermissionDenied.

Record SignalDisposition := mkDisp {
  handlers : list SignalHandler;
  mask_on_handle : list SignalSet;
  sig_flags : list Z
}.

Definition disposition_new : SignalDisposition :=
  mkDisp (replicate NSIG HDefault) (replicate NSIG set_empty) (replicate NSIG 0).

Definition disp_set_handler (sig : Signal) (h : SignalHandler) (d : SignalDisposition) :
    SignalDisposition * Result unit SignalError :=
  if (sig =? 0) || (Z.of_nat NSIG <=? sig) then (d, Err InvalidSignal)
  else if (sig =? SIGKILL) || (sig =? SIGSTOP) then (d, Err UncatchableSignal)
  else (mkDisp (<[Z.to_nat sig := h]> (handlers d)) (mask_on_handle d) (sig_flags d), Ok tt).

(** The index is in range on the second branch: there are [NSIG] handlers. *)
Definition disp_get_handler (sig : Signal) (d : SignalDisposition) : SignalHandler :=
  if Z.of_nat NSIG <=? sig then HDefault
  else default HDefault (handlers d !! Z.to_nat sig).

Definition set_mask_on_handle (sig : Signal) (mask : SignalSet) (d : SignalDisposition) :
    SignalDisposition :=
  if sig <? Z.of_nat NSIG
  then mkDisp (handlers d) (<[Z.to_nat sig := mask]> (mask_on_handle d)) (sig_flags d)
  else d.

(** ** The signals of one process *)

Inductive SignalCode :=
| User | Kernel | Timer | AsyncIO | Queue | FaultMapr | FaultAccerr | FaultSegv
| ChildExited | ChildKilled | ChildStopped | ChildContinued.

Record SignalInfo := mkInfoS {
  signo : Signal;
  errno : Z;
  code : SignalCode;
  sender_pid : option ProcessId;
  sender_uid : Z;
  value : Z;
  fault_addr : option Z
}.

Record PendingSignal := mkPS { ps_signal : Signal; ps_info : SignalInfo }.

Record SignalState := mkSS {
  pending : list PendingSignal;
  blocked : SignalSet;
  disposition : SignalDisposition;
  alt_stack : option (Z * Z * Z)
}.

Definition state_new : SignalState := mkSS [] set_empty disposition_new None.

Definition queue_signal (signal : Signal) (info : SignalInfo) (s : SignalState) : SignalState :=
  if (signal <? SIGRTMIN) && existsb (λ p, ps_signal p =? signal) (pending s) then s
  else mkSS (pending s ++ [mkPS signal info]) (blocked s) (disposition s) (alt_stack s).

Definition dequeue_signal (s : SignalState) : SignalState * option PendingSignal :=
  match position (λ p, negb (set_contains (blocked s) (ps_signal p))) (pending s) with
  | None => (s, None)
  | Some idx => (mkSS (delete idx (pending s)) (blocked s) (disposition s) (alt_stack s),
                 pending s !! idx)
  end.

Definition state_has_pending (s : SignalState) : bool :=
  existsb (λ p, negb (set_contains (blocked s) (ps_signal p))) (pending s).

Definition pending_set (s : SignalState) : SignalSet :=
  foldl (λ set p, set_add (ps_signal p) set) set_empty (pending s).

Definition with_blocked (b : SignalSet) (s : SignalState) : SignalState :=
  mkSS (pending s) b (disposition s) (alt_stack s).

Definition block_signals (set : SignalSet) (s : SignalState) : SignalState :=
  with_blocked (set_remove SIGSTOP (set_remove SIGKILL (set_union (blocked s) set))) s.

Definition unblock_signals (set : SignalSet) (s : SignalState) : SignalState :=
  foldl (λ s sig, with_blocked (set_remove sig (blocked s)) s) s (set_iter set).

Definition set_blocked (set : SignalSet) (s : SignalState) : SignalState :=
  with_blocked (set_remove SIGSTOP (set_remove SIGKILL set)) s.

(** ** The manager *)

Record SignalManager := mkSM { states : gmap ProcessId SignalState; signals_sent : Z }.

Definition manager_new : SignalManager := mkSM ∅ 0.

Inductive SigMaskHow := HowBlock | HowUnblock | HowSetMask.

Section manager.
Context {S : Type} `{SchedIface S}.

(** The manager next to the scheduler it wakes processes of. *)
Record World := mkWorld { mgr : SignalManager; sched : S }.

Definition sig_op := op World SignalError.

Definition set_states (f : gmap ProcessId SignalState → gmap ProcessId SignalState) (w : World) :
    World :=
  mkWorld (mkSM (f (states (mgr w))) (signals_sent (mgr w))) (sched w).

Definition init_process (pid : ProcessId) (w : World) : World :=
  set_states <[pid := state_new]> w.
Definition cleanup_process (pid : ProcessId) (w : World) : World :=
  set_states (delete pid) w.

Definition send (target : ProcessId) (signal : Signal) (info : SignalInfo) : sig_op unit := λ w,
  if (signal =? 0) || (Z.of_nat NSIG <=? signal) then (w, Err InvalidSignal)
  else
    match states (mgr w) !! target with
    | None => (w, Err SigProcessNotFound)
    | Some state =>
        let m := mkSM (<[target := queue_signal signal info state]> (states (mgr w)))
                      (u64_add (signals_sent (mgr w)) 1) in
        (mkWorld m (sif_wake target (sched w)), Ok tt)
    end.

Definition kill (sender target : ProcessId) (signal : Signal) : sig_op unit := λ w,
  if signal =? 0 then
    (w, if decide (is_Some (states (mgr w) !! target)) then Ok tt else Err SigProcessNotFound)
  else
    let info := mkInfoS signal 0 User (Some sender) 0 0 None in
    send target signal info w.

Definition raise (pid : ProcessId) (signal : Signal) : sig_op unit := kill pid pid signal.

Definition has_pending (pid : ProcessId) (w : World) : bool :=
  match states (mgr w) !! pid with Some s => state_has_pending s | None => false end.

Definition dequeue (pid : ProcessId) (w : World) : World * option PendingSignal :=
  match states (mgr w) !! pid with
  | Some s => let '(s', r) := dequeue_signal s in (set_states <[pid := s']> w, r)
  | None => (w, None)
  end.

Definition get_handler (pid : ProcessId) (signal : Signal) (w : World) : SignalHandler :=
  match states (mgr w) !! pid with
  | Some s => disp_get_handler signal (disposition s)
  | None => HDefault
  end.

Definition with_disposition (d : SignalDisposition) (s : SignalState) : SignalState :=
  mkSS (pending s) (blocked s) d (alt_stack s).

Definition set_handler (pid : ProcessId) (signal : Signal) (handler : SignalHandler) :
    sig_op unit := λ w,
  match states (mgr w) !! pid with
  | None => (w, Err SigProcessNotFound)
  | Some s =>
      let '(d, r) := disp_set_handler signal handler (disposition s) in
      (set_states <[pid := with_disposition d s]> w, r)
  end.

Definition sigprocmask (pid : ProcessId) (how : SigMaskHow) (set : SignalSet) :
    sig_op SignalSet := λ w,
  match states (mgr w) !! pid with
  | None => (w, Err SigProcessNotFound)
  | Some s =>
      let s' := match how with
                | HowBlock => block_signals set s
                | HowUnblock => unblock_signals set s
                | HowSetMask => set_blocked set s
                end in
      (set_states <[pid := s']> w, Ok (blocked s))
  end.

Definition total_signals (w : World) : Z := signals_sent (mgr w).

Inductive sig_call :=
| CallInit (pid : ProcessId)
| CallCleanup (pid : ProcessId)
| CallSend (target : ProcessId) (signal : Signal) (info : SignalInfo)
| CallKill (sender target : ProcessId) (signal : Signal)
| CallDequeue (pid : ProcessId)
| CallSetHandler (pid : ProcessId) (signal : Signal) (handler : SignalHandler)
| CallMask (pid : ProcessId) (how : SigMaskHow) (set : SignalSet).

Definition sig_step (c : sig_call) (w : World) : World :=
  match c with
  | CallInit p => init_process p w
  | CallCleanup p => cleanup_process p w
  | CallSend t s i => (send t s i w).1
  | CallKill a t s => (kill a t s w).1
  | CallDequeue p => (dequeue p w).1
  | CallSetHandler p s h => (set_handler p s h w).1
  | CallMask p h s => (sigprocmask p h s w).1
  end.

End manager.
Arguments World : clear implicits.

(** ** Signal sets *)

Lemma set_contains_bit s sig :
  0 ≤ sig → set_contains s sig = ((1 <=? sig) && (sig <=? 64) && Z.testbit (set_bits s) (sig - 1)).
Proof.
  intros Hs. unfold set_contains.
  destruct (Z.eqb_spec sig 0) as [->|]; [done|]. simpl.
  destruct (Z.ltb_spec 64 sig), (Z.leb_spec sig 64), (Z.leb_spec 1 sig); try lia; try done.
  simpl. apply bit_test_spec. lia.
Qed.

Lemma set_remove_contains a b s :
  0 ≤ a → 0 ≤ b →
  set_contains (set_remove a s) b = (set_contains s b && negb (b =? a)).
Proof.
  intros Ha Hb. rewrite !set_contains_bit by done. unfold set_remove.
  destruct (Z.ltb_spec 0 a), (Z.leb_spec a 64); simpl;
    destruct (Z.leb_spec 1 b), (Z.leb_spec b 64); simpl; try done;
    try (destruct (Z.eqb_spec b a); [lia|by rewrite andb_true_r]).
  rewrite bit_clear_spec by lia. do 2 f_equal. lia.
Qed.

Lemma set_add_contains a b s :
  0 ≤ a → 0 ≤ b →
  set_contains (set_add a s) b = (set_contains s b || ((b =? a) && (1 <=? a) && (a <=? 64))).
Proof.
  intros Ha Hb. rewrite !set_contains_bit by done. unfold set_add.
  destruct (Z.ltb_spec 0 a), (Z.leb_spec a 64); simpl;
    destruct (Z.leb_spec 1 b), (Z.leb_spec b 64), (Z.leb_spec 1 a); simpl; try lia;
    rewrite ?bit_set_spec, ?andb_true_r, ?andb_false_r, ?orb_false_r by lia; try done;
    try (destruct (Z.eqb_spec b a); [lia|done]).
  f_equal. lia.
Qed.

Lemma set_union_contains s t b :
  0 ≤ b → set_contains (set_union s t) b = (set_contains s b || set_contains t b).
Proof.
  intros Hb. rewrite !set_contains_bit by done. simpl. rewrite Z.lor_spec.
  by destruct (1 <=? b), (b <=? 64).
Qed.

Lemma set_iter_elem s sig : sig ∈ set_iter s ↔ 1 ≤ sig ≤ 64 ∧ set_contains s sig = true.
Proof.
  unfold set_iter. rewrite list_elem_of_filter, list_elem_of_fmap.
  assert ((∃ y, sig = Z.of_nat y ∧ y ∈ seq 1 64) ↔ 1 ≤ sig ≤ 64) as ->; [|naive_solver].
  split.
  - intros (y & -> & Hy%elem_of_seq). lia.
  - intros Hs. exists (Z.to_nat sig). split; [lia|]. apply elem_of_seq. lia.
Qed.

(** The mask after [unblock]: the members of [set] are gone. *)
Lemma unblock_contains set s b :
  0 ≤ b → set_contains (blocked (unblock_signals set s)) b
          = (set_contains (blocked s) b && negb (set_contains set b)) ∧
  pending (unblock_signals set s) = pending s ∧
  disposition (unblock_signals set s) = disposition s.
Proof.
  intros Hb. unfold unblock_signals.
  assert (Hf : ∀ l s, Forall (λ sig, 0 ≤ sig) l →
    let s' := foldl (λ s sig, with_blocked (set_remove sig (blocked s)) s) s l in
    set_contains (blocked s') b = (set_contains (blocked s) b && negb (bool_decide (b ∈ l))) ∧
    pending s' = pending s ∧ disposition s' = disposition s).
  { induction l as [|a l IH]; intros t Hl; cbn [foldl].
    - rewrite bool_decide_false by apply not_elem_of_nil. by rewrite andb_true_r.
    - apply Forall_cons in Hl as [Ha Hl]. destruct (IH (with_blocked (set_remove a (blocked t)) t) Hl)
        as (-> & -> & ->). split; [|done]. cbn [blocked with_blocked]. rewrite set_remove_contains by done.
      rewrite <-andb_assoc. f_equal. apply eq_true_iff_eq.
      rewrite andb_true_iff, !negb_true_iff, !bool_decide_eq_false, Z.eqb_neq, not_elem_of_cons. done. }
  destruct (Hf (set_iter set) s) as (-> & -> & ->).
  { apply Forall_forall. intros x [? _]%set_iter_elem. lia. }
  split; [|done]. f_equal. f_equal. apply eq_true_iff_eq.
  rewrite bool_decide_eq_true, set_iter_elem. split; [naive_solver|]. intros Hc. split; [|done].
  rewrite set_contains_bit in Hc by done. lia.
Qed.

(** ** The signals of one process *)

Record ss_ok (s : SignalState) : Prop := {
  so_kill : set_contains (blocked s) SIGKILL = false;
  so_stop : set_contains (blocked s) SIGSTOP = false;
  so_nsig : length (handlers (disposition s)) = NSIG;
  so_default : disp_get_handler SIGKILL (disposition s) = HDefault ∧
               disp_get_handler SIGSTOP (disposition s) = HDefault;
  so_once : NoDup (ps_signal <$> pending s);
  so_range : Forall (λ p, 1 ≤ ps_signal p < 32) (pending s)
}.

Lemma state_new_ok : ss_ok state_new.
Proof. constructor; try done. apply NoDup_nil_2. Qed.

(** [queue]: at most one instance of each standard signal, in arrival order. *)
Lemma queue_signal_spec sig info s :
  1 ≤ sig < 32 →
  pending (queue_signal sig info s) =
    (if decide (sig ∈ ps_signal <$> pending s) then pending s
     else pending s ++ [mkPS sig info]) ∧
  blocked (queue_signal sig info s) = blocked s ∧
  disposition (queue_signal sig info s) = disposition s.
Proof.
  intros Hs. unfold queue_signal. unfold SIGRTMIN. destruct (Z.ltb_spec sig 32); [|lia]. simpl.
  assert (He : existsb (λ p, ps_signal p =? sig) (pending s) = true ↔ sig ∈ ps_signal <$> pending s).
  { rewrite existsb_exists, list_elem_of_fmap. setoid_rewrite list_elem_of_In.
    setoid_rewrite Z.eqb_eq. naive_solver. }
  destruct (existsb _ _) eqn:E; simpl.
  - rewrite decide_True by (by apply He). done.
  - rewrite decide_False; [done|]. intros Hin%He. congruence.
Qed.

Lemma queue_signal_ok sig info s : 1 ≤ sig < 32 → ss_ok s → ss_ok (queue_signal sig info s).
Proof.
  intros Hs [Hk Hst Hn Hd Ho Hr]. destruct (queue_signal_spec sig info s Hs) as (Hp & Hb & Hdisp).
  constructor; rewrite ?Hb, ?Hdisp; try done; rewrite Hp; case_decide; try done.
  - rewrite fmap_app. apply NoDup_app. split_and!; [done| |apply NoDup_singleton].
    intros x Hx ->%list_elem_of_singleton. done.
  - apply Forall_app. split; [done|]. by apply Forall_singleton.
Qed.

(** [dequeue]: the oldest unblocked signal. *)
Lemma dequeue_signal_spec s :
  match dequeue_signal s with
  | (s', Some p) => ∃ l1 l2, pending s = l1 ++ p :: l2 ∧ pending s' = l1 ++ l2 ∧
      set_contains (blocked s) (ps_signal p) = false ∧
      Forall (λ q, set_contains (blocked s) (ps_signal q) = true) l1 ∧
      blocked s' = blocked s ∧ disposition s' = disposition s
  | (s', None) => s' = s ∧ Forall (λ q, set_contains (blocked s) (ps_signal q) = true) (pending s)
  end.
Proof.
  unfold dequeue_signal. destruct (position _ _) as [i|] eqn:E.
  - apply position_Some in E as (p & Hp & Hb & Hbefore). rewrite Hp. simpl.
    exists (take i (pending s)), (drop (S i) (pending s)).
    pose proof (lookup_lt_Some _ _ _ Hp) as Hlt. split_and!; try done.
    + by rewrite take_drop_middle.
    + apply delete_take_drop.
    + by apply negb_true_iff.
    + apply Forall_lookup. intros j q Hj. apply lookup_take_Some in Hj as [Hj Hji].
      apply negb_false_iff. by apply (Hbefore j).
  - split; [done|]. apply Forall_forall. intros q Hq. apply negb_false_iff.
    by apply (proj1 (position_None _ _) E).
Qed.

Lemma dequeue_signal_ok s : ss_ok s → ss_ok (dequeue_signal s).1.
Proof.
  intros [Hk Hst Hn Hd Ho Hr]. pose proof (dequeue_signal_spec s) as Hs.
  destruct (dequeue_signal s) as [s' [p|]]; simpl.
  - destruct Hs as (l1 & l2 & Hp & Hp' & _ & _ & Hb & Hdisp).
    constructor; rewrite ?Hb, ?Hdisp; try done; rewrite Hp'; rewrite Hp in *.
    + rewrite fmap_app in *. simpl in Ho. apply NoDup_app in Ho as (H1 & H2 & H3).
      apply NoDup_cons in H3 as [H3 H4]. apply NoDup_app. split_and!; [done| |done].
      intros x Hx Hx'. apply (H2 x Hx). apply elem_of_cons; by right.
    + apply Forall_app in Hr as [? Hr]. apply Forall_cons in Hr as [_ ?]. by apply Forall_app.
  - by destruct Hs as [-> _].
Qed.

Lemma disp_set_handler_ok sig h s d r :
  0 ≤ sig → ss_ok s → disp_set_handler sig h (disposition s) = (d, r) →
  ss_ok (with_disposition d s).
Proof.
  intros H0 [Hk Hst Hn Hd Ho Hr]. unfold disp_set_handler.
  destruct (_ || _) eqn:E1; [intros [= <- <-]; by constructor|].
  destruct ((sig =? SIGKILL) || _) eqn:E2; [intros [= <- <-]; by constructor|].
  intros [= <- <-]. constructor; simpl; try done.
  - by rewrite length_insert.
  - unfold disp_get_handler in *. simpl. unfold SIGKILL, SIGSTOP in *.
    rewrite !list_lookup_insert_ne by lia. done.
Qed.

(** No way to change the mask blocks [SIGKILL] or [SIGSTOP]. *)
Lemma mask_ok s b :
  ss_ok s → set_contains b SIGKILL = false → set_contains b SIGSTOP = false →
  ss_ok (with_blocked b s).
Proof. intros [] ??. by constructor. Qed.

Section manager_proofs.
Context {S : Type} `{SchedIface S}.
Implicit Types w : World S.

Definition all_ok w : Prop := ∀ p s, states (mgr w) !! p = Some s → ss_ok s.

(** Signals are [u8]: never negative. *)
Definition call_ok (c : sig_call) : Prop :=
  match c with
  | CallSend _ s _ | CallKill _ _ s | CallSetHandler _ s _ => 0 ≤ s
  | _ => True
  end.

Lemma set_states_ok w p s : all_ok w → ss_ok s → all_ok (set_states <[p := s]> w).
Proof. intros Hw Hs q t. simpl. intros [[<- <-]|[_ ?]]%lookup_insert_Some; eauto. Qed.

Lemma send_ok t s i w : 0 ≤ s → all_ok w → all_ok (send t s i w).1.
Proof.
  intros Hs Hw. unfold send. destruct (_ || _) eqn:E; [done|].
  destruct (states (mgr w) !! t) as [st|] eqn:Ht; [|done].
  intros q u. simpl. intros [[<- <-]|[_ ?]]%lookup_insert_Some; [|eauto].
  apply queue_signal_ok; [unfold NSIG in E; lia|eauto].
Qed.

Lemma sig_step_ok c w : call_ok c → all_ok w → all_ok (sig_step c w).
Proof.
  intros Hc Hw. destruct c as [p|p|t s i|a t s|p|p s h|p h b]; simpl in *.
  - apply set_states_ok; [done|apply state_new_ok].
  - intros q u. simpl. intros [_ ?]%lookup_delete_Some. eauto.
  - by apply send_ok.
  - unfold kill. destruct (s =? 0); [done|]. by apply send_ok.
  - unfold dequeue. destruct (states (mgr w) !! p) as [st|] eqn:Hp; [|done].
    pose proof (dequeue_signal_ok st (Hw p st Hp)) as Hd.
    destruct (dequeue_signal st). by apply set_states_ok.
  - unfold set_handler. destruct (states (mgr w) !! p) as [st|] eqn:Hp; [|done].
    destruct (disp_set_handler s h (disposition st)) as [d r] eqn:E.
    apply set_states_ok; [done|]. eapply disp_set_handler_ok; eauto.
  - unfold sigprocmask. destruct (states (mgr w) !! p) as [st|] eqn:Hp; [|done].
    pose proof (Hw p st Hp) as Hok. apply set_states_ok; [done|].
    destruct h.
    + apply mask_ok; [done| |]; rewrite !set_remove_contains by done; by rewrite ?andb_false_r.
    + destruct Hok. destruct (unblock_contains b st SIGKILL) as (H1 & Hpe & Hdi); [done|].
      destruct (unblock_contains b st SIGSTOP) as (H2 & _ & _); [done|].
      constructor; rewrite ?H1, ?H2, ?Hpe, ?Hdi; try done; by rewrite ?so_kill0, ?so_stop0.
    + apply mask_ok; [done| |]; rewrite !set_remove_contains by done; by rewrite ?andb_false_r.
Qed.

Lemma sig_run_ok calls s0 :
  Forall call_ok calls → all_ok (run_ops sig_step calls (mkWorld manager_new s0)).
Proof.
  intros Hc. apply (run_ops_invariant_on sig_step all_ok call_ok); [|done|].
  - intros. by apply sig_step_ok.
  - intros p s Hp. simpl in Hp. by rewrite lookup_empty in Hp.
Qed.

(** ** Properties *)

(** Over every history of the manager, for every process: [SIGKILL] and
    [SIGSTOP] are never blocked and keep their default handler, a signal is pending at
    most once, and only signals 1 to 31 are ever pending. So a pending [SIGKILL] is
    always deliverable. *)
Theorem signals_invariant calls s0 p st :
  Forall call_ok calls →
  states (mgr (run_ops sig_step calls (mkWorld manager_new s0))) !! p = Some st →
  set_contains (blocked st) SIGKILL = false ∧ set_contains (blocked st) SIGSTOP = false ∧
  disp_get_handler SIGKILL (disposition st) = HDefault ∧
  disp_get_handler SIGSTOP (disposition st) = HDefault ∧
  NoDup (ps_signal <$> pending st) ∧ Forall (λ q, 1 ≤ ps_signal q < 32) (pending st) ∧
  (SIGKILL ∈ ps_signal <$> pending st →
   state_has_pending st = true ∧ is_Some (dequeue_signal st).2).
Proof.
  intros Hc Hp. destruct (sig_run_ok calls s0 Hc p st Hp) as [Hk Hs Hn [Hd1 Hd2] Ho Hr].
  split_and!; try done. intros (q & Hq & Hin)%list_elem_of_fmap. split.
  - unfold state_has_pending. apply existsb_exists. exists q.
    split; [by apply list_elem_of_In|]. by rewrite <-Hq, Hk.
  - pose proof (dequeue_signal_spec st) as Hd. destruct (dequeue_signal st) as [s' [x|]]; [done|].
    destruct Hd as [_ Hall]. rewrite Forall_forall in Hall. specialize (Hall q Hin).
    rewrite <-Hq, Hk in Hall. done.
Qed.

(** [send] and [kill] on every branch: signal 0 only tests for existence;
    numbers of 32 and above, the real-time signals included, are refused; an unknown
    target is reported; otherwise the signal joins the end of the target's queue unless
    it is pending already, a blocked target becomes ready in the scheduler, no other
    process' signals or state change, and the counter moves by one. *)
Theorem send_kill_correct w sender t sig :
  0 ≤ sig →
  match kill sender t sig w with
  | (w', Ok _) => is_Some (states (mgr w) !! t) ∧
      (sig = 0 → w' = w) ∧
      (sig ≠ 0 → sig < 32 ∧
         signals_sent (mgr w') = u64_add (signals_sent (mgr w)) 1 ∧
         (∀ st, states (mgr w) !! t = Some st →
            ∃ st', states (mgr w') !! t = Some st' ∧ blocked st' = blocked st ∧
              disposition st' = disposition st ∧
              pending st' = (if decide (sig ∈ ps_signal <$> pending st) then pending st
                             else pending st ++ [mkPS sig (mkInfoS sig 0 User (Some sender) 0 0 None)])) ∧
         (∀ q, q ≠ t → states (mgr w') !! q = states (mgr w) !! q ∧
                       sif_state (sched w') q = sif_state (sched w) q) ∧
         sif_state (sched w') t =
           (if decide (sif_state (sched w) t = Some Blocked) then Some Ready
            else sif_state (sched w) t))
  | (w', Err e) => w' = w ∧
      (e = InvalidSignal ∧ 32 ≤ sig ∨
       e = SigProcessNotFound ∧ sig < 32 ∧ states (mgr w) !! t = None)
  end.
Proof.
  intros H0. unfold kill, send. destruct (Z.eqb_spec sig 0) as [->|Hne].
  { case_decide as Ht; [done|]. split; [done|]. right. rewrite eq_None_not_Some. done. }
  simpl. unfold NSIG. destruct (Z.leb_spec (Z.of_nat 32) sig); [split; [done|]; left; split; [done|lia]|].
  destruct (states (mgr w) !! t) as [st|] eqn:Ht; [|split; [done|]; right; split_and!; [done|lia|done]].
  assert (Hsig : 1 ≤ sig < 32) by lia. split_and!; [done|done|]. intros _. simpl.
  split_and!; [lia|done|..].
  - intros ? [= <-]. eexists. rewrite lookup_insert_eq. split; [done|].
    destruct (queue_signal_spec sig (mkInfoS sig 0 User (Some sender) 0 0 None) st Hsig) as (-> & -> & ->).
    done.
  - intros q Hq. rewrite lookup_insert_ne by done. split; [done|].
    rewrite sif_wake_state, decide_False; [done|]. naive_solver.
  - rewrite sif_wake_state. repeat case_decide; naive_solver.
Qed.

(** Delivery and masks: [dequeue] takes the oldest pending signal that is not
    blocked, and none exactly when every pending signal is blocked; [sigprocmask]
    returns the old mask and blocks, unblocks or replaces exactly the signals asked for,
    [SIGKILL] and [SIGSTOP] apart, without touching pending signals or handlers. *)
Theorem delivery_and_masks w p st how set :
  states (mgr w) !! p = Some st →
  match dequeue p w with
  | (w', Some x) => ∃ l1 l2 st', states (mgr w') !! p = Some st' ∧
      pending st = l1 ++ x :: l2 ∧ pending st' = l1 ++ l2 ∧
      set_contains (blocked st) (ps_signal x) = false ∧
      Forall (λ q, set_contains (blocked st) (ps_signal q) = true) l1
  | (w', None) => Forall (λ q, set_contains (blocked st) (ps_signal q) = true) (pending st)
  end ∧
  ∃ st', sigprocmask p how set w = (set_states <[p := st']> w, Ok (blocked st)) ∧
    pending st' = pending st ∧ disposition st' = disposition st ∧
    ∀ sig, 0 ≤ sig →
      set_contains (blocked st') sig =
      match how with
      | HowBlock => (set_contains (blocked st) sig || set_contains set sig) &&
                    negb (sig =? SIGKILL) && negb (sig =? SIGSTOP)
      | HowUnblock => set_contains (blocked st) sig && negb (set_contains set sig)
      | HowSetMask => set_contains set sig && negb (sig =? SIGKILL) && negb (sig =? SIGSTOP)
      end.
Proof.
  intros Hp. split.
  - unfold dequeue. rewrite Hp. pose proof (dequeue_signal_spec st) as Hd.
    destruct (dequeue_signal st) as [st' [x|]].
    + destruct Hd as (l1 & l2 & ? & ? & ? & ? & _). exists l1, l2, st'. simpl.
      rewrite lookup_insert_eq. done.
    + by destruct Hd.
  - unfold sigprocmask. rewrite Hp. eexists. split; [done|]. destruct how.
    + split_and!; [done..|]. intros sig Hs. simpl. rewrite !set_remove_contains by done.
      by rewrite set_union_contains.
    + destruct (unblock_contains set st 1) as (_ & -> & ->); [done|]. split_and!; [done..|].
      intros sig Hs. by apply unblock_contains.
    + split_and!; [done..|]. intros sig Hs. simpl. by rewrite !set_remove_contains.
Qed.

End manager_proofs.

Definition w_sched : Scheduler :=
  (block (mkPid 1) (register_process Interactive 5 (new SchedulerConfig_default)).1).1.
Definition w_sigs : list sig_call :=
  [CallInit (mkPid 1); CallMask (mkPid 1) HowSetMask set_full; CallKill (mkPid 2) (mkPid 1) SIGTERM;
   CallKill (mkPid 2) (mkPid 1) SIGKILL].
Definition w_world : World Scheduler := run_ops sig_step w_sigs (mkWorld manager_new w_sched).

Lemma signals_invariant_witness :
  ∃ st, states (mgr w_world) !! mkPid 1 = Some st ∧ length (pending st) = 2%nat ∧
        state_has_pending st = true.
Proof.
  destruct (states (mgr w_world) !! mkPid 1) as [st|] eqn:E; [|vm_compute in E; discriminate].
  exists st. split; [done|].
  assert (Hp : ps_signal <$> pending st = [SIGTERM; SIGKILL]).
  { assert (He : (λ st, ps_signal <$> pending st) <$> (states (mgr w_world) !! mkPid 1)
                 = Some [SIGTERM; SIGKILL]) by (vm_compute; reflexivity).
    rewrite E in He. by injection He. }
  split; [rewrite <-(length_fmap ps_signal), Hp; reflexivity|].
  apply (signals_invariant w_sigs w_sched (mkPid 1) st); [|exact E|].
  { repeat (apply Forall_cons_2; [first [exact I|vm_compute; discriminate]|]). apply Forall_nil_2. }
  rewrite Hp. set_solver.
Defined.

Lemma send_kill_correct_witness :
  match kill (mkPid 2) (mkPid 1) SIGTERM (run_ops sig_step [CallInit (mkPid 1)]
               (mkWorld manager_new w_sched)) with
  | (w', Ok _) => sif_state (sched w') (mkPid 1) = Some Ready
  | _ => False
  end.
Proof.
  pose (w := run_ops sig_step [CallInit (mkPid 1)] (mkWorld manager_new w_sched)).
  pose proof (send_kill_correct w (mkPid 2) (mkPid 1) SIGTERM ltac:(unfold SIGTERM; lia)) as Hk.
  fold w. assert (Hok : is_ok (kill (mkPid 2) (mkPid 1) SIGTERM w).2 = true) by (vm_compute; reflexivity).
  destruct (kill (mkPid 2) (mkPid 1) SIGTERM w) as [w' [u|e]]; [|discriminate Hok].
  rewrite (proj2 (proj2 (proj2 (proj2 (proj2 (proj2 Hk) ltac:(done)))))).
  vm_compute. reflexivity.
Defined.

Lemma delivery_and_masks_witness :
  ∃ st, states (mgr w_world) !! mkPid 1 = Some st ∧
    (∃ st', sigprocmask (mkPid 1) HowUnblock set_full w_world
            = (set_states <[mkPid 1 := st']> w_world, Ok (blocked st))).
Proof.
  destruct (states (mgr w_world) !! mkPid 1) as [st|] eqn:E; [|vm_compute in E; discriminate].
  exists st. split; [done|].
  destruct (delivery_and_masks w_world (mkPid 1) st HowUnblock set_full E) as [_ (st' & H & _)].
  exists st'. exact H.
Defined.
