(* ===== verification/Wait.v ===== *)
(** * Wait: process exit and reaping ([kernel/src/process/wait.rs])

    Exit statuses, the [WaitManager] (children, zombies, waiters) and the exit and
    wait operations built on it, over the signal manager and any scheduler that
    implements [SchedIface]. *)

From Stdlib Require Import ZArith Lia.
From stdpp Require Import gmap.
From S2P Require Import Prelude.
From S2P Require Import Ids.
From S2P Require Import Sched.
From S2P Require Import SchedIface.
From S2P Require Import Signals.

(** ** Exit statuses: an [i32] *)

Record ExitStatus := mkStatus { raw : Z }.

Definition from_exit_code (code : Z) : ExitStatus := mkStatus (Z.shiftl (Z.land code 0xff) 8).
Definition from_signal (signal : Z) : ExitStatus := mkStatus (Z.land signal 0x7f).
Definition from_signal_core (signal : Z) : ExitStatus :=
  mkStatus (Z.lor (Z.land signal 0x7f) 0x80).
Definition new_stopped (signal : Z) : ExitStatus := mkStatus (Z.lor 0x7f (Z.shiftl signal 8)).
Definition new_continued : ExitStatus := mkStatus 0xffff.

Definition exited (s : ExitStatus) : bool := Z.land (raw s) 0x7f =? 0.
Definition exit_code (s : ExitStatus) : Z := Z.land (Z.shiftr (raw s) 8) 0xff.
Definition stopped (s : ExitStatus) : bool := Z.land (raw s) 0xff =? 0x7f.
Definition continued (s : ExitStatus) : bool := raw s =? 0xffff.
Definition signaled (s : ExitStatus) : bool :=
  (0 <? Z.shiftr (Z.land (raw s) 0x7f + 1) 1) && negb (stopped s) && negb (continued s).
Definition term_signal (s : ExitStatus) : Z := Z.land (raw s) 0x7f.
Definition core_dump (s : ExitStatus) : bool := signaled s && negb (Z.land (raw s) 0x80 =? 0).
Definition stop_signal (s : ExitStatus) : Z := Z.land (Z.shiftr (raw s) 8) 0xff.

(** ** The manager's data *)

Record ResourceUsage := mkRusage {
  utime : Z; stime : Z; maxrss : Z; minflt : Z; majflt : Z; nvcsw : Z; nivcsw : Z
}.
Definition rusage_default : ResourceUsage := mkRusage 0 0 0 0 0 0 0.

Record ZombieInfo := mkZombie {
  z_pid : ProcessId;
  z_parent : ProcessId;
  z_status : ExitStatus;
  z_rusage : ResourceUsage
}.

Record WaitOptions := mkWaitOptions {
  nohang : bool; wuntraced : bool; wcontinued : bool; wnowait : bool
}.
Definition options_new : WaitOptions := mkWaitOptions false false false false.
Definition options_nohang : WaitOptions := mkWaitOptions true false false false.

Inductive WaitTarget :=
| AnyChild
| Pid (pid : ProcessId)
| ProcessGroup (pgid : ProcessId).

Inductive WaitError := NoChildren | WaitWouldBlock | Interrupted | InvalidArgument | ChildNotFound.
Inductive ExitError := ExitProcessNotFound | CannotExit.

Record WaitRequest := mkRequest { wr_target : WaitTarget; wr_options : WaitOptions }.

Record WaitManager := mkWM {
  children : gmap ProcessId (list ProcessId);
  zombies : gmap ProcessId ZombieInfo;
  waiters : gmap ProcessId WaitRequest
}.

Definition wm_new : WaitManager := mkWM ∅ ∅ ∅.
Definition INIT : ProcessId := mkPid 1.

(** ** Parent and child *)

Definition add_child (parent child : ProcessId) (m : WaitManager) : WaitManager :=
  mkWM (<[parent := default [] (children m !! parent) ++ [child]]> (children m))
       (zombies m) (waiters m).

Definition remove_child (parent child : ProcessId) (m : WaitManager) : WaitManager :=
  mkWM (alter (filter (λ c, c ≠ child)) parent (children m)) (zombies m) (waiters m).

Definition get_children (parent : ProcessId) (m : WaitManager) : list ProcessId :=
  default [] (children m !! parent).

Definition get_parent (child : ProcessId) (m : WaitManager) : option ProcessId :=
  fst <$> btree_find (λ _ kids, bool_decide (child ∈ kids)) (children m).

Definition set_parent (p : ProcessId) (z : ZombieInfo) : ZombieInfo :=
  mkZombie (z_pid z) p (z_status z) (z_rusage z).

Definition reparent_children (dying new_parent : ProcessId) (m : WaitManager) : WaitManager :=
  match children m !! dying with
  | None => m
  | Some kids =>
      let rest := delete dying (children m) in
      mkWM (<[new_parent := default [] (rest !! new_parent) ++ kids]> rest)
           (foldl (λ zs kid, alter (set_parent new_parent) kid zs) (zombies m) kids)
           (waiters m)
  end.

Definition cleanup (pid : ProcessId) (m : WaitManager) : WaitManager :=
  mkWM (delete pid (children m)) (delete pid (zombies m)) (delete pid (waiters m)).

Definition zombie_count (m : WaitManager) : nat := size (zombies m).

(** The zombie a wait picks. *)
Definition find_zombie (parent : ProcessId) (target : WaitTarget)
    (zs : gmap ProcessId ZombieInfo) : option ProcessId :=
  match target with
  | AnyChild => fst <$> btree_find (λ _ z, bool_decide (z_parent z = parent)) zs
  | Pid pid | ProcessGroup pid =>
      match zs !! pid with
      | Some z => if decide (z_parent z = parent) then Some pid else None
      | None => None
      end
  end.

Section exits.
Context {S : Type} `{SchedIface S}.

(** The wait manager next to the signal manager and the scheduler. *)
Record Sys := mkSys { wm : WaitManager; sw : World S }.

Definition set_wm (m : WaitManager) (w : Sys) : Sys := mkSys m (sw w).

Definition do_exit (pid parent : ProcessId) (exit_code : Z) (rusage : ResourceUsage) (w : Sys) :
    Sys :=
  let zombie := mkZombie pid parent (from_exit_code exit_code) rusage in
  let m := mkWM (children (wm w)) (<[pid := zombie]> (zombies (wm w))) (waiters (wm w)) in
  let info := mkInfoS SIGCHLD 0 ChildExited (Some pid) 0 (u64 exit_code) None in
  let sw' := (send parent SIGCHLD info (sw w)).1 in
  mkSys m (if decide (is_Some (waiters m !! parent))
           then mkWorld (mgr sw') (sif_wake parent (sched sw')) else sw').

Definition do_signal_exit (pid parent : ProcessId) (signal : Z) (core_dump : bool)
    (rusage : ResourceUsage) (w : Sys) : Sys :=
  let status := if core_dump then from_signal_core signal else from_signal signal in
  let zombie := mkZombie pid parent status rusage in
  let m := mkWM (children (wm w)) (<[pid := zombie]> (zombies (wm w))) (waiters (wm w)) in
  let info := mkInfoS SIGCHLD 0 ChildKilled (Some pid) 0 signal None in
  mkSys m (send parent SIGCHLD info (sw w)).1.

(** [wait] up to the point where it would block: [None] there. *)
Definition wait_try (parent : ProcessId) (target : WaitTarget) (options : WaitOptions) (w : Sys) :
    Sys * option (Result (option ZombieInfo) WaitError) :=
  if bool_decide (get_children parent (wm w) = []) then (w, Some (Err NoChildren))
  else
    match find_zombie parent target (zombies (wm w)) with
    | Some pid =>
        let zombie := zombies (wm w) !! pid in
        if wnowait options then (w, Some (Ok zombie))
        else
          let m := mkWM (children (wm w)) (delete pid (zombies (wm w))) (waiters (wm w)) in
          (set_wm (remove_child parent pid m) w, Some (Ok zombie))
    | None => if nohang options then (w, Some (Ok None)) else (w, None)
    end.

(** [meanwhile] is what the rest of the system does between the parent being marked
    blocked and its second, non-blocking attempt. *)
Definition wait (meanwhile : Sys → Sys) (parent : ProcessId) (target : WaitTarget)
    (options : WaitOptions) (w : Sys) : Sys * Result (option ZombieInfo) WaitError :=
  match wait_try parent target options w with
  | (w, Some r) => (w, r)
  | (w, None) =>
      let m := mkWM (children (wm w)) (zombies (wm w))
                    (<[parent := mkRequest target options]> (waiters (wm w))) in
      let w := mkSys m (mkWorld (mgr (sw w)) (sif_block parent (sched (sw w)))) in
      match wait_try parent target options_nohang (meanwhile w) with
      | (w, Some r) => (w, r)
      | (w, None) => (w, Ok None)
      end
  end.

Definition waitpid (meanwhile : Sys → Sys) (parent pid : ProcessId) (options : WaitOptions) :
    Sys → Sys * Result (option ZombieInfo) WaitError :=
  wait meanwhile parent (if pid_raw pid =? u64_max then AnyChild else Pid pid) options.

Definition cleanup_signals (pid : ProcessId) (w : Sys) : Sys :=
  mkSys (wm w) (cleanup_process pid (sw w)).

Definition exit (pid : ProcessId) (code : Z) : op Sys ExitError unit := λ w,
  if pid_raw pid =? 1 then (w, Err CannotExit)
  else
    let parent := default INIT (get_parent pid (wm w)) in
    let w := do_exit pid parent code rusage_default w in
    let w := set_wm (reparent_children pid INIT (wm w)) w in
    let w := cleanup_signals pid w in
    (mkSys (wm w) (mkWorld (mgr (sw w)) (sif_terminate pid (sched (sw w)))), Ok tt).

Definition exit_signal (pid : ProcessId) (signal : Z) (core_dump : bool) : op Sys ExitError unit := λ w,
  if pid_raw pid =? 1 then (w, Err CannotExit)
  else
    let parent := default INIT (get_parent pid (wm w)) in
    let w := do_signal_exit pid parent signal core_dump rusage_default w in
    let w := set_wm (reparent_children pid INIT (wm w)) w in
    (cleanup_signals pid w, Ok tt).

(** The module-level [wait]: any child, blocking. *)
Definition wait_any (meanwhile : Sys → Sys) (parent : ProcessId) (w : Sys) :
    Sys * Result ZombieInfo WaitError :=
  match wait meanwhile parent AnyChild options_new w with
  | (w, Ok (Some z)) => (w, Ok z)
  | (w, Ok None) => (w, Err WaitWouldBlock)
  | (w, Err e) => (w, Err e)
  end.

End exits.
Arguments Sys : clear implicits.

(** ** Exit statuses *)

(** A decidable property of all bytes, by evaluation. *)
Lemma all_bytes (P : Z → Prop) `{!∀ v, Decision (P v)} :
  forallb (λ v, bool_decide (P v)) (Z.of_nat <$> seq 0 256) = true → ∀ v, 0 ≤ v < 256 → P v.
Proof.
  intros Hf v Hv. rewrite forallb_forall in Hf. eapply bool_decide_eq_true, Hf.
  apply list_elem_of_In, list_elem_of_fmap.
  exists (Z.to_nat v). split; [lia|]. apply elem_of_seq. lia.
Qed.

(** How a status reads: normal exit, signal, stop or continue. *)
Definition reading (s : ExitStatus) : bool * bool * bool * bool :=
  (exited s, signaled s, stopped s, continued s).

Lemma exit_code_byte v : 0 ≤ v < 256 →
  reading (mkStatus (Z.shiftl v 8)) = (true, false, false, false) ∧
  exit_code (mkStatus (Z.shiftl v 8)) = v.
Proof. revert v. refine (all_bytes _ _). vm_compute. reflexivity. Qed.

Lemma signal_byte v : 0 ≤ v < 256 → 1 ≤ v < 127 →
  reading (from_signal v) = (false, true, false, false) ∧ term_signal (from_signal v) = v ∧
  core_dump (from_signal v) = false ∧
  reading (from_signal_core v) = (false, true, false, false) ∧
  term_signal (from_signal_core v) = v ∧ core_dump (from_signal_core v) = true.
Proof. revert v. refine (all_bytes _ _). vm_compute. reflexivity. Qed.

Lemma stop_byte v : 0 ≤ v < 256 →
  reading (new_stopped v) = (false, false, true, false) ∧ stop_signal (new_stopped v) = v.
Proof. revert v. refine (all_bytes _ _). vm_compute. reflexivity. Qed.

(** Exit statuses decode to what they encode: the exit code modulo 256, the
    terminating signal with its core-dump flag (signals 1 to 126), the stop signal, and
    "continued", and each status reads as exactly one of the four. *)
Theorem exit_status_roundtrip :
  (∀ code, reading (from_exit_code code) = (true, false, false, false) ∧
           exit_code (from_exit_code code) = code mod 256) ∧
  (∀ sig, 1 ≤ sig < 127 →
     reading (from_signal sig) = (false, true, false, false) ∧
     term_signal (from_signal sig) = sig ∧ core_dump (from_signal sig) = false ∧
     reading (from_signal_core sig) = (false, true, false, false) ∧
     term_signal (from_signal_core sig) = sig ∧ core_dump (from_signal_core sig) = true) ∧
  (∀ sig, 0 ≤ sig < 256 →
     reading (new_stopped sig) = (false, false, true, false) ∧ stop_signal (new_stopped sig) = sig) ∧
  reading new_continued = (false, false, false, true).
Proof.
  split_and!; [|intros sig ?; apply signal_byte; [lia|done]|apply stop_byte|done].
  intros code. unfold from_exit_code. change 0xff with (Z.ones 8). rewrite Z.land_ones by lia.
  apply exit_code_byte. apply Z.mod_pos_bound. lia.
Qed.

(** ** Zombies *)

Lemma find_zombie_Some parent target zs pid :
  find_zombie parent target zs = Some pid →
  ∃ z, zs !! pid = Some z ∧ z_parent z = parent ∧
       match target with Pid q | ProcessGroup q => pid = q | AnyChild => True end.
Proof.
  destruct target as [|q|q]; simpl.
  - intros ([k z] & Hk & ->)%fmap_Some. apply btree_find_Some in Hk as (Hk & Hp & _).
    exists z. split_and!; [done| |done]. by apply bool_decide_eq_true in Hp.
  - destruct (zs !! q) as [z|] eqn:E; [|done]. case_decide; [|done]. intros [= <-]. eauto.
  - destruct (zs !! q) as [z|] eqn:E; [|done]. case_decide; [|done]. intros [= <-]. eauto.
Qed.

Lemma find_zombie_pid parent q zs z :
  zs !! q = Some z → z_parent z = parent → find_zombie parent (Pid q) zs = Some q.
Proof. intros Hz Hp. simpl. by rewrite Hz, decide_True. Qed.

(** Reparenting moves the children of [dying] and the zombies among them. *)
Lemma reparent_zombie dying np m q :
  q ∉ get_children dying m →
  zombies (reparent_children dying np m) !! q = zombies m !! q.
Proof.
  unfold reparent_children, get_children. destruct (children m !! dying) as [kids|]; [|done]. simpl.
  generalize (zombies m). induction kids as [|k kids IH]; intros zs Hq; [done|]. simpl.
  apply not_elem_of_cons in Hq as [Hne Hq]. rewrite IH by done. by rewrite lookup_alter_ne.
Qed.

Lemma reparent_children_of dying np m q k :
  dying ≠ np →
  k ∈ get_children q (reparent_children dying np m) ↔
  (q = np ∧ k ∈ get_children dying m) ∨ (q ≠ dying ∧ k ∈ get_children q m).
Proof.
  intros Hne. unfold reparent_children, get_children.
  destruct (children m !! dying) as [kids|] eqn:Hd; simpl.
  - destruct (decide (q = np)) as [->|Hq].
    + rewrite lookup_insert_eq, lookup_delete_ne by done. simpl. rewrite elem_of_app. naive_solver.
    + rewrite lookup_insert_ne by done. destruct (decide (q = dying)) as [->|].
      * rewrite lookup_delete_eq. simpl. split; [by intros ?%elem_of_nil|naive_solver].
      * rewrite lookup_delete_ne by done. naive_solver.
  - split; [|intros [[_ []%elem_of_nil]|[??]]; done]. intros Hk. right. split; [|done].
    intros ->. rewrite Hd in Hk. by apply elem_of_nil in Hk.
Qed.

Section exit_proofs.
Context {S : Type} `{SchedIface S}.
Implicit Types w : Sys S.

(** What [send parent SIGCHLD] does to the signals of another process. *)
Lemma send_chld_states parent info (s : World S) :
  (∀ q, q ≠ parent → states (mgr (send parent SIGCHLD info s).1) !! q = states (mgr s) !! q) ∧
  (∀ st, states (mgr s) !! parent = Some st →
     states (mgr (send parent SIGCHLD info s).1) !! parent = Some (queue_signal SIGCHLD info st)).
Proof.
  unfold send. simpl. destruct (states (mgr s) !! parent) as [st|] eqn:E; simpl.
  - split; [intros q Hq; by rewrite lookup_insert_ne|].
    intros ? [= <-]. by rewrite lookup_insert_eq.
  - by split.
Qed.

Lemma chld_pending info st : SIGCHLD ∈ ps_signal <$> pending (queue_signal SIGCHLD info st).
Proof.
  destruct (queue_signal_spec SIGCHLD info st) as (-> & _); [unfold SIGCHLD; lia|].
  case_decide; [done|]. rewrite fmap_app. set_solver.
Qed.

(** The pieces of the state after [exit]. *)
Lemma exit_effect pid code w :
  pid_raw pid ≠ 1 →
  let parent := default INIT (get_parent pid (wm w)) in
  let w' := (exit pid code w).1 in
  (exit pid code w).2 = Ok tt ∧
  wm w' = reparent_children pid INIT
            (mkWM (children (wm w))
                  (<[pid := mkZombie pid parent (from_exit_code code) rusage_default]> (zombies (wm w)))
                  (waiters (wm w))) ∧
  states (mgr (sw w'))
  = delete pid (states (mgr (send parent SIGCHLD
      (mkInfoS SIGCHLD 0 ChildExited (Some pid) 0 (u64 code) None) (sw w)).1)) ∧
  ∃ s0, sched (sw w') = sif_terminate pid s0 ∧
    (∀ q, is_Some (sif_state s0 q) ↔ is_Some (sif_state (sched (sw w)) q)).
Proof.
  intros Hne. simpl. unfold exit. destruct (Z.eqb_spec (pid_raw pid) 1) as [|_]; [done|].
  cbn [fst snd]. split; [done|]. split; [done|].
  set (parent := default INIT (get_parent pid (wm w))).
  set (info := mkInfoS SIGCHLD 0 ChildExited (Some pid) 0 (u64 code) None).
  assert (Hwk : ∀ p (s : S) q, is_Some (sif_state (sif_wake p s) q) ↔ is_Some (sif_state s q)).
  { intros p s q. rewrite sif_wake_state. case_decide as Hd; [|done].
    destruct Hd as [-> Hd]. rewrite Hd. split; eauto. }
  assert (Hs : ∀ q, is_Some (sif_state (sched (send parent SIGCHLD info (sw w)).1) q)
                    ↔ is_Some (sif_state (sched (sw w)) q)).
  { intros q. unfold send. simpl. destruct (states (mgr (sw w)) !! parent); [apply Hwk|done]. }
  split.
  - unfold do_exit; simpl. fold parent info. by case_decide.
  - eexists. split; [reflexivity|]. intros q. simpl. unfold do_exit; simpl. fold parent info.
    case_decide; simpl; [rewrite Hwk|]; apply Hs.
Qed.

(** A child's exit reaches its parent exactly once: after [exit] the child is a
    zombie with its exit status, terminated in the scheduler if it was registered there,
    its signal state is gone, its parent has [SIGCHLD] pending, and its own children
    belong to init; the parent's [waitpid] for it then returns the zombie and forgets the
    child, and a second [waitpid] does not return it again. *)
Theorem exit_then_wait w p c code meanwhile :
  pid_raw c ≠ 1 → get_parent c (wm w) = Some p → p ≠ c → c ∉ get_children c (wm w) →
  pid_raw c ≠ u64_max → is_Some (sif_state (sched (sw w)) c) →
  let w1 := (exit c code w).1 in
  let z := mkZombie c p (from_exit_code code) rusage_default in
  (exit c code w).2 = Ok tt ∧ zombies (wm w1) !! c = Some z ∧
  sif_state (sched (sw w1)) c = Some Terminated ∧
  states (mgr (sw w1)) !! c = None ∧
  (∀ st, states (mgr (sw w)) !! p = Some st →
     ∃ st', states (mgr (sw w1)) !! p = Some st' ∧ SIGCHLD ∈ ps_signal <$> pending st') ∧
  (∀ k, k ∈ get_children c (wm w) → k ∈ get_children INIT (wm w1)) ∧
  ∃ w2, waitpid meanwhile p c options_new w1 = (w2, Ok (Some z)) ∧
    zombies (wm w2) !! c = None ∧ (c ∉ get_children p (wm w2)) ∧
    ∀ options, nohang options = true →
      (waitpid meanwhile p c options w2).2 = Err NoChildren ∨
      (waitpid meanwhile p c options w2).2 = Ok None.
Proof.
  intros Hc1 Hpar Hpc Hself Hmax Hreg w1 z.
  destruct (exit_effect c code w Hc1) as (Hok & Hwm & Hst & s0 & Hs0 & Hreg0).
  rewrite Hpar in Hwm, Hst. simpl in Hwm, Hst. fold w1 in Hwm, Hst, Hs0.
  set (m1 := mkWM (children (wm w)) (<[c := z]> (zombies (wm w))) (waiters (wm w))) in *.
  assert (Hci : c ≠ INIT) by (intros ->; done).
  assert (Hz : zombies (wm w1) !! c = Some z).
  { rewrite Hwm, reparent_zombie by done. simpl. apply lookup_insert_eq. }
  assert (Hkid : c ∈ get_children p (wm w1)).
  { rewrite Hwm, reparent_children_of by done. right. split; [done|].
    unfold get_parent in Hpar. apply fmap_Some in Hpar as ([k kids] & Hf & ->).
    apply btree_find_Some in Hf as (Hk & Hin & _). apply bool_decide_eq_true in Hin.
    unfold get_children; simpl. by rewrite Hk. }
  assert (Hfind : find_zombie p (Pid c) (zombies (wm w1)) = Some c) by (by apply (find_zombie_pid _ _ _ z)).
  split_and!; [done|done|..].
  - rewrite Hs0, sif_terminate_state, decide_True; [done|]. split; [done|]. by apply Hreg0.
  - rewrite Hst. apply lookup_delete_eq.
  - intros st Hp. rewrite Hst, lookup_delete_ne by done.
    destruct (send_chld_states p (mkInfoS SIGCHLD 0 ChildExited (Some c) 0 (u64 code) None) (sw w)) as [_ Hs].
    rewrite (Hs st Hp). eexists. split; [done|]. apply chld_pending.
  - intros k Hk. rewrite Hwm, reparent_children_of by done. by left.
  - unfold waitpid, wait. destruct (Z.eqb_spec (pid_raw c) u64_max) as [|_]; [done|].
    unfold wait_try at 1. rewrite bool_decide_false by (intros Hn; rewrite Hn in Hkid; by apply elem_of_nil in Hkid).
    rewrite Hfind. simpl. eexists. split; [by rewrite Hz|]. simpl.
    rewrite lookup_delete_eq. split_and!; [done| |].
    + unfold get_children; simpl. rewrite lookup_alter_eq.
      destruct (children (wm w1) !! p); simpl; [rewrite elem_of_retain; naive_solver|by intros ?%elem_of_nil].
    + intros options Hn. unfold wait_try; simpl. rewrite lookup_delete_eq, Hn.
      case_bool_decide; [by left|by right].
Qed.

(** A blocking wait does not wait: with children but no matching zombie, [wait]
    records the parent as waiting, marks it blocked in the scheduler, and returns without
    a child at once, unless another CPU produced a zombie in between; the module-level
    [wait] then reports [WouldBlock] to a caller whose process is marked blocked. *)
Theorem blocking_wait_returns w parent :
  get_children parent (wm w) ≠ [] →
  find_zombie parent AnyChild (zombies (wm w)) = None →
  is_Some (sif_state (sched (sw w)) parent) →
  ∃ w', wait_any (λ w, w) parent w = (w', Err WaitWouldBlock) ∧
    sif_state (sched (sw w')) parent = Some Blocked ∧
    waiters (wm w') !! parent = Some (mkRequest AnyChild options_new) ∧
    zombies (wm w') = zombies (wm w).
Proof.
  intros Hk Hf Hreg. unfold wait_any, wait, wait_try at 1.
  rewrite bool_decide_false, Hf by done. simpl.
  unfold wait_try; simpl. rewrite (bool_decide_false (get_children _ _ = [])) by done.
  simpl in Hf. rewrite Hf. simpl. eexists. split; [done|]. simpl.
  rewrite sif_block_state, decide_True, lookup_insert_eq by done. done.
Qed.

(** [exit_signal] does not stop the process: the zombie is recorded with its
    signal status, but the scheduler is never told; in it the process keeps its state
    (or becomes ready), so one that was not terminated before is not afterwards. *)
Theorem exit_signal_not_terminated w pid sig core :
  pid_raw pid ≠ 1 → pid ∉ get_children pid (wm w) →
  sif_state (sched (sw w)) pid ≠ Some Terminated →
  (exit_signal pid sig core w).2 = Ok tt ∧
  (∃ parent, zombies (wm (exit_signal pid sig core w).1) !! pid
     = Some (mkZombie pid parent (if core then from_signal_core sig else from_signal sig)
                      rusage_default)) ∧
  sif_state (sched (sw (exit_signal pid sig core w).1)) pid ≠ Some Terminated.
Proof.
  intros Hne Hself Hst. unfold exit_signal. destruct (Z.eqb_spec (pid_raw pid) 1) as [|_]; [done|].
  cbn [fst snd]. split_and!; [done|..].
  - eexists. simpl. rewrite reparent_zombie by done. simpl. apply lookup_insert_eq.
  - simpl. unfold send; simpl. destruct (states (mgr (sw w)) !! _); simpl; [|done].
    rewrite sif_wake_state. by case_decide.
Qed.

End exit_proofs.

Definition w_sys : Sys Scheduler :=
  mkSys (add_child (mkPid 2) (mkPid 3) (add_child (mkPid 1) (mkPid 2) wm_new))
        (run_ops sig_step [CallInit (mkPid 2); CallInit (mkPid 3)]
           (mkWorld manager_new
              (run_ops sched_step [CallRegister Interactive 1; CallRegister Interactive 2;
                                   CallRegister Interactive 3] (new SchedulerConfig_default)))).

Lemma exit_status_roundtrip_witness : exit_code (from_exit_code (-1)) = 255.
Proof. exact (proj2 (proj1 exit_status_roundtrip (-1))). Defined.

Lemma exit_then_wait_witness :
  let w1 := (exit (mkPid 3) 7 w_sys).1 in
  ∃ w2, waitpid (λ w, w) (mkPid 2) (mkPid 3) options_new w1
        = (w2, Ok (Some (mkZombie (mkPid 3) (mkPid 2) (from_exit_code 7) rusage_default))).
Proof.
  destruct (exit_then_wait w_sys (mkPid 2) (mkPid 3) 7 (λ w, w))
    as (_ & _ & _ & _ & _ & _ & w2 & Hw & _);
    [done|vm_compute; reflexivity|done|vm_compute; by intros ?%elem_of_nil|done|vm_compute; eauto|].
  exists w2. exact Hw.
Defined.

Lemma blocking_wait_returns_witness :
  ∃ w', wait_any (λ w, w) (mkPid 2) w_sys = (w', Err WaitWouldBlock) ∧
        sif_state (sched (sw w')) (mkPid 2) = Some Blocked.
Proof.
  destruct (blocking_wait_returns w_sys (mkPid 2)) as (w' & H1 & H2 & _);
    [vm_compute; done|vm_compute; reflexivity|vm_compute; eauto|].
  exists w'. split; [exact H1|exact H2].
Defined.

Lemma exit_signal_not_terminated_witness :
  (exit_signal (mkPid 3) SIGKILL false w_sys).2 = Ok tt ∧
  sif_state (sched (sw (exit_signal (mkPid 3) SIGKILL false w_sys).1)) (mkPid 3) ≠ Some Terminated.
Proof.
  destruct (exit_signal_not_terminated w_sys (mkPid 3) SIGKILL false) as (H1 & _ & H3);
    [done|vm_compute; by intros ?%elem_of_nil|vm_compute; done|].
  split; [exact H1|exact H3].
Defined.
