(* ===== verification/Revocation.v ===== *)
(** * Revocation: the revocation engine ([kernel/src/cap/revocation.rs])

    Durations, delegation chains, the Bloom filter, and the [RevocationEngine] with
    its revoked set, children map, history and timed tokens. The cycle counter is
    read once per recorded event: operations take the stream of its readings and
    thread how many were used. The recursion of [revoke] over children takes fuel;
    [None] is a recursion that does not end (the children map has a cycle). *)

From Stdlib Require Import ZArith Lia.
From stdpp Require Import gmap.
From S2P Require Import Prelude.
From S2P Require Import Ids.
From S2P Require Import Caps.

(** ** Durations *)

Inductive Duration :=
| Cycles (c : Z) | Milliseconds (ms : Z) | Seconds (s : Z) | Minutes (m : Z) | Hours (h : Z).

Definition CYCLES_PER_MS : Z := 2000000.

Definition to_cycles (d : Duration) : Z :=
  match d with
  | Cycles c => c
  | Milliseconds ms => u64_mul ms CYCLES_PER_MS
  | Seconds s => u64_mul (u64_mul s 1000) CYCLES_PER_MS
  | Minutes m => u64_mul (u64_mul (u64_mul m 60) 1000) CYCLES_PER_MS
  | Hours h => u64_mul (u64_mul (u64_mul (u64_mul h 60) 60) 1000) CYCLES_PER_MS
  end.

Record TimeLimitedConfig := mkTimeLimit {
  duration : Duration;
  renewable : bool;
  max_renewals : Z;
  cascade_on_expire : bool
}.

Definition TimeLimitedConfig_default : TimeLimitedConfig := mkTimeLimit (Hours 1) false 0 false.

(** ** Delegation chains *)

Record DelegationConstraints := mkConstraints {
  max_depth : option Z;
  current_depth : Z;
  time_limit : option TimeLimitedConfig;
  delegable_ops : Operations;
  allowed_grantees : option (list ProcessId)
}.

Definition constraints_default : DelegationConstraints := mkConstraints None 0 None NONE None.

Record DelegationNode := mkNode {
  dn_token : CapabilityToken;
  dn_granter : ProcessId;
  dn_grantee : ProcessId;
  dn_operations : Operations;
  dn_granted_at : Z;
  dn_constraints : DelegationConstraints
}.

Record DelegationChain := mkChain {
  chain_root : CapabilityToken;
  chain_nodes : list DelegationNode;
  chain_depth : Z
}.

Inductive ChainError :=
| DepthExceeded | AttenuationViolation | UnauthorizedGrantee | BrokenChain | ValidationFailed.

Definition chain_new (root : CapabilityToken) : DelegationChain := mkChain root [] 0.

Definition chain_push (node : DelegationNode) (c : DelegationChain) : DelegationChain :=
  mkChain (chain_root c) (chain_nodes c ++ [node]) (u32 (chain_depth c + 1)).

Definition chain_current (c : DelegationChain) : CapabilityToken :=
  match list.last (chain_nodes c) with Some n => dn_token n | None => chain_root c end.

(** The loop of [validate] at index [i], with the node before it. *)
Fixpoint validate_from (i : nat) (prev : option DelegationNode) (nodes : list DelegationNode) :
    Result unit ChainError :=
  match nodes with
  | [] => Ok tt
  | node :: nodes =>
      if match max_depth (dn_constraints node) with
         | Some d => d <=? u32 (Z.of_nat i)
         | None => false
         end
      then Err DepthExceeded
      else if match prev with
              | Some p => negb (contains (dn_operations p) (dn_operations node))
              | None => false
              end
      then Err AttenuationViolation
      else validate_from (S i) (Some node) nodes
  end.

Definition validate (c : DelegationChain) : Result unit ChainError :=
  validate_from 0 None (chain_nodes c).

(** ** The Bloom filter *)

Record RevocationBloomFilter := mkBloom { bloom_bits : list Z; hash_count : nat }.

Definition bloom_new : RevocationBloomFilter := mkBloom (replicate 256 0) 4.

(** FNV-1a with the seed mixed in first. *)
Definition hash (data : list Z) (seed : Z) : Z :=
  let h := u64_add (u64_mul 0xcbf29ce484222325 0x100000001b3) seed in
  foldl (λ h b, u64_mul (Z.lxor h b) 0x100000001b3) h data.

Definition bloom_index (token : CapabilityToken) (i : nat) : nat * Z :=
  let h := hash (as_bytes token) (Z.of_nat i) in
  (Z.to_nat (h / 64 mod 256), h mod 64).

Definition bloom_insert (token : CapabilityToken) (b : RevocationBloomFilter) :
    RevocationBloomFilter :=
  mkBloom (foldl (λ bits i, let '(idx, bit) := bloom_index token i in
                            alter (λ w, bit_set w bit) idx bits)
                 (bloom_bits b) (seq 0 (hash_count b)))
          (hash_count b).

Definition may_contain (token : CapabilityToken) (b : RevocationBloomFilter) : bool :=
  forallb (λ i, let '(idx, bit) := bloom_index token i in
                match bloom_bits b !! idx with
                | Some w => bit_test w bit
                | None => false
                end)
          (seq 0 (hash_count b)).

(** ** The engine *)

Inductive RevocationReason :=
| ExplicitRevoke | ParentRevoked | ExpiredReason | SecurityViolation | ProcessTerminated
| ResourceDeleted | Administrative.

Record RevocationEntry := mkRevEntry {
  re_token : CapabilityToken;
  re_revoker : ProcessId;
  re_revoked_at : Z;
  re_reason : RevocationReason;
  re_cascaded : bool;
  re_children_revoked : Z
}.

Record RevocationConfig := mkRevConfig {
  max_revocations : nat;
  use_bloom_filter : bool;
  default_cascade : bool;
  keep_history : bool;
  history_limit : nat
}.

Definition RevocationConfig_default : RevocationConfig :=
  mkRevConfig (Z.to_nat 100000) true true true (Z.to_nat 10000).

Record RevocationEngine := mkEngine {
  rev_config : RevocationConfig;
  revoked : gset CapabilityToken;
  chains : gmap CapabilityToken DelegationChain;
  children : gmap CapabilityToken (list CapabilityToken);
  bloom : RevocationBloomFilter;
  history : list RevocationEntry;
  timed_tokens : gmap Z (list CapabilityToken)
}.

Definition engine_new (config : RevocationConfig) : RevocationEngine :=
  mkEngine config ∅ ∅ ∅ bloom_new [] ∅.

(** [entry(k).or_default().push(x)]. *)
Definition push_at {K} `{Countable K} (k : K) (x : CapabilityToken)
    (m : gmap K (list CapabilityToken)) : gmap K (list CapabilityToken) :=
  <[k := default [] (m !! k) ++ [x]]> m.

(** [now0] and [now1] are the readings for [granted_at] and for the expiry. *)
Definition register (now0 now1 : Z) (token : CapabilityToken) (parent : option CapabilityToken)
    (granter grantee : ProcessId) (operations : Operations)
    (constraints : DelegationConstraints) (e : RevocationEngine) : RevocationEngine :=
  let chain :=
    match parent with
    | Some parent_token =>
        chain_push (mkNode token granter grantee operations now0 constraints)
                   (default (chain_new parent_token) (chains e !! parent_token))
    | None => chain_new token
    end in
  mkEngine (rev_config e) (revoked e) (<[token := chain]> (chains e))
    (match parent with
     | Some parent_token => push_at parent_token token (children e)
     | None => children e
     end)
    (bloom e) (history e)
    (match time_limit constraints with
     | Some tc => push_at (u64_add now1 (to_cycles (duration tc))) token (timed_tokens e)
     | None => timed_tokens e
     end).

(** "Add to revocation set" and "Update bloom filter". *)
Definition mark_revoked (token : CapabilityToken) (e : RevocationEngine) : RevocationEngine :=
  mkEngine (rev_config e) ({[token]} ∪ revoked e) (chains e) (children e)
    (if use_bloom_filter (rev_config e) then bloom_insert token (bloom e) else bloom e)
    (history e) (timed_tokens e).

(** "Record in history". *)
Definition record (entry : RevocationEntry) (e : RevocationEngine) : RevocationEngine :=
  mkEngine (rev_config e) (revoked e) (chains e) (children e) (bloom e)
    (push_bounded (history_limit (rev_config e)) (history e) entry) (timed_tokens e).

(** [revoke] with [revoke_children] inlined. [reads] counter readings were used
    before; the result has the engine, the readings used, and the number revoked. *)
Fixpoint revoke (now : nat → Z) (fuel : nat) (token : CapabilityToken) (revoker : ProcessId)
    (reason : RevocationReason) (cascade : bool) (reads : nat) (e : RevocationEngine) :
    option (RevocationEngine * nat * Z) :=
  match fuel with
  | O => None
  | S fuel =>
      let e := mark_revoked token e in
      let after_children :=
        if cascade || default_cascade (rev_config e) then
          foldl (λ acc child,
                   '(e, reads, total) ← acc;
                   '(e', reads', n) ← revoke now fuel child revoker ParentRevoked true reads e;
                   Some (e', reads', u32 (total + n)))
                (Some (e, reads, 0)) (default [] (children e !! token))
        else Some (e, reads, 0) in
      '(e, reads, children_revoked) ← after_children;
      if keep_history (rev_config e) then
        Some (record (mkRevEntry token revoker (now reads) reason cascade children_revoked) e,
              S reads, u32 (1 + children_revoked))
      else Some (e, reads, u32 (1 + children_revoked))
  end.

Definition is_revoked (token : CapabilityToken) (e : RevocationEngine) : bool :=
  if use_bloom_filter (rev_config e) && negb (may_contain token (bloom e)) then false
  else bool_decide (token ∈ revoked e).

Definition check_expirations (now : Z) (e : RevocationEngine) :
    RevocationEngine * list CapabilityToken :=
  let expired_times := filter (λ t, t ≤ now) (btree_keys (timed_tokens e)) in
  let tokens := concat ((λ t, default [] (timed_tokens e !! t)) <$> expired_times) in
  (mkEngine (rev_config e) (revoked e) (chains e) (children e) (bloom e) (history e)
            (foldl (λ m t, delete t m) (timed_tokens e) expired_times),
   filter (λ tok, is_revoked tok e = false) tokens).

Definition renew (now : Z) (token : CapabilityToken) (owner : ProcessId) (new_duration : Duration) :
    op RevocationEngine CapError Z := λ e,
  match chains e !! token with
  | None => (e, Err TokenNotFound)
  | Some chain =>
      match list.last (chain_nodes chain) with
      | None => (e, Err TokenNotFound)
      | Some node =>
          match time_limit (dn_constraints node) with
          | None => (e, Err OperationNotAllowed)
          | Some tc =>
              if negb (renewable tc) then (e, Err OperationNotAllowed)
              else
                let new_expires := u64_add now (to_cycles new_duration) in
                (mkEngine (rev_config e) (revoked e) (chains e) (children e) (bloom e) (history e)
                          (push_at new_expires token (timed_tokens e)), Ok new_expires)
          end
      end
  end.

Definition get_chain (token : CapabilityToken) (e : RevocationEngine) : option DelegationChain :=
  chains e !! token.
Definition get_history (limit : nat) (e : RevocationEngine) : list RevocationEntry :=
  take limit (rev (history e)).

(** The [while let] loop drops the entries at the front that are too old. *)
Fixpoint drop_old (cutoff : Z) (h : list RevocationEntry) : list RevocationEntry :=
  match h with
  | front :: h' => if re_revoked_at front <? cutoff then drop_old cutoff h' else h
  | [] => []
  end.

Definition cleanup (now retention_cycles : Z) (e : RevocationEngine) : RevocationEngine :=
  mkEngine (rev_config e) (revoked e) (chains e) (children e) (bloom e)
    (drop_old (sat_sub now retention_cycles) (history e)) (timed_tokens e).

(** The test of the source file. *)
Example test_cascade_revocation :
  let parent := mkToken 1 0 0 0 in
  let child := mkToken 2 0 0 0 in
  let e := register 0 0 child (Some parent) (mkPid 1) (mkPid 2) READ constraints_default
             (register 0 0 parent None (mkPid 1) (mkPid 1) ALL constraints_default
                (engine_new RevocationConfig_default)) in
  match revoke (λ _, 0) 2 parent (mkPid 1) ExplicitRevoke true 0 e with
  | Some (e', _, n) => n = 2 ∧ is_revoked parent e' = true ∧ is_revoked child e' = true
  | None => False
  end.
Proof. vm_compute. done. Qed.

(** ** The Bloom filter has no false negatives *)

Definition bloom_size (b : RevocationBloomFilter) : Prop := length (bloom_bits b) = 256%nat.

(** The bits of one filter are all set in the other. *)
Definition bloom_le (b b' : list Z) : Prop :=
  length b = length b' ∧
  ∀ idx w, b !! idx = Some w → ∃ w', b' !! idx = Some w' ∧
    ∀ bit, 0 ≤ bit → Z.testbit w bit = true → Z.testbit w' bit = true.

#[global] Instance bloom_le_refl : Reflexive bloom_le.
Proof. intros b. split; [done|]. eauto. Qed.

#[global] Instance bloom_le_trans : Transitive bloom_le.
Proof.
  intros a b c [Hl H1] [Hl' H2]. split; [congruence|]. intros idx w Hw.
  destruct (H1 _ _ Hw) as (w' & Hw' & ?). destruct (H2 _ _ Hw') as (w'' & ? & ?).
  exists w''. auto.
Qed.

Lemma bloom_le_set bits idx bit :
  0 ≤ bit → bloom_le bits (alter (λ w, bit_set w bit) idx bits).
Proof.
  intros Hbit. split; [by rewrite length_alter|]. intros i w Hw.
  destruct (decide (i = idx)) as [->|Hne].
  - exists (bit_set w bit). rewrite list_lookup_alter_eq, Hw. split; [done|].
    intros j Hj Hw'. rewrite bit_set_spec by lia. by rewrite Hw'.
  - exists w. rewrite list_lookup_alter_ne by done. auto.
Qed.

Lemma bloom_index_range token i :
  ((bloom_index token i).1 < 256)%nat ∧ 0 ≤ (bloom_index token i).2.
Proof.
  unfold bloom_index. cbn [fst snd]. generalize (hash (as_bytes token) (Z.of_nat i)). intros h.
  pose proof (Z.mod_pos_bound (h / 64) 256). pose proof (Z.mod_pos_bound h 64). lia.
Qed.

#[local] Arguments bloom_index : simpl never.
#[local] Arguments bloom_insert : simpl never.

Definition index_set (bits : list Z) (p : nat * Z) : Prop :=
  ∃ w, bits !! p.1 = Some w ∧ Z.testbit w p.2 = true.

Lemma index_set_le bits bits' p :
  bloom_le bits bits' → 0 ≤ p.2 → index_set bits p → index_set bits' p.
Proof. intros [_ H] Hp (w & Hw & Ht). destruct (H _ _ Hw) as (w' & ? & ?). exists w'. auto. Qed.

Lemma may_contain_spec token b :
  may_contain token b = true ↔
  ∀ i, (i < hash_count b)%nat → index_set (bloom_bits b) (bloom_index token i).
Proof.
  unfold may_contain. rewrite forallb_forall. setoid_rewrite in_seq.
  split; intros H i; intros; specialize (H i ltac:(lia));
    pose proof (bloom_index_range token i) as [_ Hr];
    destruct (bloom_index token i) as [idx bit]; unfold index_set in *; simpl in *.
  - destruct (_ !! idx) as [w|]; [|done]. exists w. by rewrite <-bit_test_spec.
  - destruct H as (w & -> & Ht). by rewrite bit_test_spec.
Qed.

Lemma bloom_fold_spec token l : ∀ bits, length bits = 256%nat →
  let bits' := foldl (λ bits i, let '(idx, bit) := bloom_index token i in
                                alter (λ w, bit_set w bit) idx bits) bits l in
  bloom_le bits bits' ∧ ∀ i, i ∈ l → index_set bits' (bloom_index token i).
Proof.
  induction l as [|i l IH]; intros bits Hlen; cbn [foldl].
  { split; [done|]. intros i Hi. by apply elem_of_nil in Hi. }
  pose proof (bloom_index_range token i) as [Hidx Hbit].
  destruct (bloom_index token i) as [idx bit] eqn:Hi. cbn [fst snd] in *.
  destruct (IH (alter (λ w, bit_set w bit) idx bits)) as [Hle Hset]; [by rewrite length_alter|].
  split; [etrans; [by apply bloom_le_set|done]|].
  intros j [->|Hj]%elem_of_cons; [|by apply Hset].
  eapply index_set_le; [exact Hle|by rewrite Hi|]. rewrite Hi.
  destruct (lookup_lt_is_Some_2 bits idx) as [w Hw]; [lia|].
  exists (bit_set w bit). simpl. rewrite list_lookup_alter_eq, Hw. split; [done|].
  rewrite bit_set_spec by lia. rewrite Z.eqb_refl. by rewrite orb_true_r.
Qed.

Lemma may_contain_insert token b : bloom_size b → may_contain token (bloom_insert token b) = true.
Proof.
  intros Hs. apply may_contain_spec. intros i Hi.
  destruct (bloom_fold_spec token (seq 0 (hash_count b)) (bloom_bits b) Hs) as [_ H].
  apply H. apply elem_of_seq. unfold bloom_insert in Hi. cbn [hash_count] in Hi. lia.
Qed.

Lemma may_contain_mono token t b :
  bloom_size b → may_contain t b = true → may_contain t (bloom_insert token b) = true.
Proof.
  intros Hs. rewrite !may_contain_spec. intros H i Hi.
  destruct (bloom_fold_spec token (seq 0 (hash_count b)) (bloom_bits b) Hs) as [Hle _].
  eapply index_set_le; [exact Hle|apply bloom_index_range|]. by apply H.
Qed.

Lemma bloom_insert_size token b : bloom_size b → bloom_size (bloom_insert token b).
Proof.
  intros Hs. destruct (bloom_fold_spec token (seq 0 (hash_count b)) (bloom_bits b) Hs) as [[Hl _] _].
  unfold bloom_size, bloom_insert in *. cbn [bloom_bits]. congruence.
Qed.

(** Every revoked token is in the filter. *)
Definition bloom_ok (e : RevocationEngine) : Prop :=
  bloom_size (bloom e) ∧
  (use_bloom_filter (rev_config e) = true → ∀ t, t ∈ revoked e → may_contain t (bloom e) = true).

Lemma mark_revoked_bloom_ok token e : bloom_ok e → bloom_ok (mark_revoked token e).
Proof.
  intros [Hs H]. unfold bloom_ok, mark_revoked. simpl.
  destruct (use_bloom_filter _); split; auto using bloom_insert_size; [|done].
  intros _ t [->%elem_of_singleton|Ht]%elem_of_union;
    auto using may_contain_insert, may_contain_mono.
Qed.

Lemma is_revoked_spec token e : bloom_ok e → is_revoked token e = bool_decide (token ∈ revoked e).
Proof.
  intros [_ H]. unfold is_revoked. destruct (use_bloom_filter _); [|done]. simpl.
  destruct (may_contain token (bloom e)) eqn:Hm; [done|]. simpl.
  symmetry. apply bool_decide_eq_false. intros Ht. apply H in Ht; congruence.
Qed.

(** ** Cascading over the children map *)

Definition child_of (ch : gmap CapabilityToken (list CapabilityToken)) (p c : CapabilityToken) : Prop :=
  c ∈ default [] (ch !! p).

#[global] Instance child_of_dec ch p c : Decision (child_of ch p c).
Proof. unfold child_of. apply _. Defined.

(** The tokens delegated from [p], directly or not, and [p] itself. *)
Definition derived (ch : gmap CapabilityToken (list CapabilityToken)) : relation CapabilityToken :=
  rtc (child_of ch).

(** A rank that decreases from parent to child: the children map has no cycle. *)
Definition ranked (ch : gmap CapabilityToken (list CapabilityToken)) (h : CapabilityToken → nat) : Prop :=
  ∀ p c, child_of ch p c → (h c < h p)%nat.

Lemma ranked_register ch h token parent :
  ranked ch h → ch !! token = None → parent ≠ token →
  ranked (push_at parent token ch) (λ x, if decide (x = token) then O else S (h x)).
Proof.
  intros Hr Hnone Hne p c. unfold child_of, push_at.
  destruct (decide (p = parent)) as [->|Hp].
  - rewrite lookup_insert_eq. simpl. intros [Hc| ->%list_elem_of_singleton]%elem_of_app.
    + rewrite (decide_False (P := parent = token)) by done. specialize (Hr parent c Hc).
      case_decide; lia.
    + rewrite decide_True, decide_False by done. lia.
  - rewrite lookup_insert_ne by done. intros Hc. specialize (Hr p c Hc).
    rewrite (decide_False (P := p = token)); [case_decide; lia|].
    intros ->. rewrite Hnone in Hc. by apply elem_of_nil in Hc.
Qed.

(** What a revocation leaves alone. *)
Definition same_frame (e e' : RevocationEngine) : Prop :=
  rev_config e' = rev_config e ∧ chains e' = chains e ∧ children e' = children e ∧
  timed_tokens e' = timed_tokens e.

#[global] Instance same_frame_equiv : Equivalence same_frame.
Proof. unfold same_frame. split; repeat intro; naive_solver congruence. Qed.

Definition history_ok (e : RevocationEngine) : Prop :=
  (length (history e) ≤ Nat.max 1 (history_limit (rev_config e)))%nat.

(** What holds of every engine: the filter covers the revoked set, the history is
    bounded. *)
Definition engine_ok (e : RevocationEngine) : Prop := bloom_ok e ∧ history_ok e.

Lemma mark_revoked_ok token e :
  engine_ok e → engine_ok (mark_revoked token e) ∧ same_frame e (mark_revoked token e).
Proof. intros [Hb Hh]. split; [|done]. split; [by apply mark_revoked_bloom_ok|done]. Qed.

Lemma record_ok entry e : engine_ok e → engine_ok (record entry e) ∧ same_frame e (record entry e).
Proof.
  intros [Hb Hh]. split; [|done]. split; [done|]. unfold history_ok, record in *. simpl.
  unfold push_bounded. rewrite length_app. simpl.
  destruct (decide _); [destruct (history e); simpl in *; lia|lia].
Qed.

(** The loop of [revoke_children], for a body that revokes [R c] for child [c]. *)
Lemma revoke_children_loop (F : CapabilityToken → nat → RevocationEngine → option (RevocationEngine * nat * Z))
    (P : RevocationEngine → Prop) (R : CapabilityToken → CapabilityToken → Prop) l :
  (∀ c reads e, c ∈ l → P e → ∃ e' reads' n, F c reads e = Some (e', reads', n) ∧ P e' ∧
     ∀ x, x ∈ revoked e' ↔ x ∈ revoked e ∨ R c x) →
  ∀ e reads total, P e → ∃ e' reads' n,
    foldl (λ acc c, '(e, reads, total) ← acc;
                    '(e', reads', n) ← F c reads e;
                    Some (e', reads', u32 (total + n))) (Some (e, reads, total)) l =
      Some (e', reads', n) ∧ P e' ∧
    ∀ x, x ∈ revoked e' ↔ x ∈ revoked e ∨ ∃ c, c ∈ l ∧ R c x.
Proof.
  induction l as [|c l IH]; intros HF e reads total He; cbn [foldl].
  { exists e, reads, total. split; [done|]. split; [done|]. set_solver. }
  destruct (HF c reads e) as (e1 & r1 & n1 & H1 & He1 & Hx1); [by constructor|done|].
  simpl. rewrite H1. simpl.
  destruct (IH ltac:(intros; apply HF; [by constructor|done]) e1 r1 (u32 (total + n1)) He1)
    as (e2 & r2 & n2 & H2 & He2 & Hx2).
  exists e2, r2, n2. split; [done|]. split; [done|].
  intros x. rewrite Hx2, Hx1. set_solver.
Qed.

Lemma derived_split ch p x : derived ch p x ↔ x = p ∨ ∃ c, child_of ch p c ∧ derived ch c x.
Proof.
  split.
  - intros H. inversion H; subst; eauto.
  - intros [->|(c & Hc & H)]; [reflexivity|]. by eapply rtc_l.
Qed.

(** The tokens a call of [revoke] reaches. *)
Definition revokes (cascade : bool) (e : RevocationEngine) (token x : CapabilityToken) : Prop :=
  if cascade || default_cascade (rev_config e) then derived (children e) token x else x = token.

Lemma revoke_spec now h fuel : ∀ token revoker reason cascade reads e,
  ranked (children e) h → (h token < fuel)%nat → engine_ok e →
  ∃ e' reads' n,
    revoke now fuel token revoker reason cascade reads e = Some (e', reads', n) ∧
    engine_ok e' ∧ same_frame e e' ∧
    ∀ x, x ∈ revoked e' ↔ x ∈ revoked e ∨ revokes cascade e token x.
Proof.
  induction fuel as [|fuel IH]; intros token revoker reason cascade reads e Hr Hf He; [lia|].
  destruct (mark_revoked_ok token e He) as [He1 Hs1].
  cbn [revoke]. set (e1 := mark_revoked token e) in *.
  assert (∃ e2 reads2 n, (if cascade || default_cascade (rev_config e1) then
      foldl (λ acc child, '(e, reads, total) ← acc;
               '(e', reads', n) ← revoke now fuel child revoker ParentRevoked true reads e;
               Some (e', reads', u32 (total + n)))
            (Some (e1, reads, 0)) (default [] (children e1 !! token))
      else Some (e1, reads, 0)) = Some (e2, reads2, n) ∧ engine_ok e2 ∧ same_frame e e2 ∧
      ∀ x, x ∈ revoked e2 ↔ x ∈ revoked e ∨ revokes cascade e token x)
    as (e2 & reads2 & n & -> & He2 & Hs2 & Hx2).
  { change (rev_config e1) with (rev_config e). unfold revokes.
    destruct (cascade || default_cascade (rev_config e)) eqn:Hc.
    - edestruct (revoke_children_loop (λ c reads e, revoke now fuel c revoker ParentRevoked true reads e)
        (λ e', engine_ok e' ∧ same_frame e e') (derived (children e))) as (e2 & r2 & n & H2 & [He2 Hs2] & Hx);
        [|split; [exact He1|exact Hs1]|].
      + intros c r e' Hin [He' Hs']. destruct Hs' as (Hcfg & Hch & Hchild & Ht).
        destruct (IH c revoker ParentRevoked true r e') as (e3 & r3 & n3 & H3 & He3 & Hs3 & Hx3).
        { by rewrite Hchild. }
        { specialize (Hr token c Hin). lia. }
        { done. }
        exists e3, r3, n3. split; [done|]. split; [split; [done|]|].
        { etrans; [|exact Hs3]. done. }
        intros x. rewrite Hx3. unfold revokes. simpl. by rewrite Hchild.
      + exists e2, r2, n. split; [exact H2|]. split; [done|]. split; [done|].
        intros x. rewrite Hx, derived_split. simpl. set_solver.
    - exists e1, reads, 0. split; [done|]. split; [done|]. split; [done|].
      intros x. simpl. set_solver. }
  simpl. destruct (keep_history (rev_config e2)).
  - eexists _, _, _. split; [reflexivity|].
    destruct (record_ok (mkRevEntry token revoker (now reads2) reason cascade n) e2 He2) as [? Hs3].
    split; [done|]. split; [by etrans|done].
  - eexists _, _, _. by split_and!.
Qed.

(** ** More fuel does not change a result *)

Lemma foldl_revoke_None F l :
  foldl (λ acc c, '(e, reads, total) ← acc;
                  '(e', reads', n) ← F c reads e;
                  Some (e', reads', u32 (total + n)))
        (@None (RevocationEngine * nat * Z)) (l : list CapabilityToken) = None.
Proof. induction l; done. Qed.

Lemma foldl_revoke_mono F G l :
  (∀ c reads e r, F c reads e = Some r → G c reads e = Some r) → ∀ acc r,
  foldl (λ acc c, '(e, reads, total) ← acc;
                  '(e', reads', n) ← F c reads e;
                  Some (e', reads', u32 (total + n))) acc l = Some r →
  foldl (λ acc c, '(e, reads, total) ← acc;
                  '(e', reads', n) ← G c reads e;
                  Some (e', reads', u32 (total + n)))
        (acc : option (RevocationEngine * nat * Z)) (l : list CapabilityToken) = Some r.
Proof.
  intros HFG. induction l as [|c l IH]; intros acc r; [done|]. cbn [foldl].
  destruct acc as [[[e reads] total]|]; simpl; [|by rewrite foldl_revoke_None].
  destruct (F c reads e) as [[[e' reads'] n]|] eqn:HF; simpl; [|by rewrite foldl_revoke_None].
  rewrite (HFG _ _ _ _ HF). apply IH.
Qed.

Lemma revoke_mono now fuel : ∀ fuel' token revoker reason cascade reads e r,
  (fuel ≤ fuel')%nat → revoke now fuel token revoker reason cascade reads e = Some r →
  revoke now fuel' token revoker reason cascade reads e = Some r.
Proof.
  induction fuel as [|fuel IH]; intros [|fuel'] token revoker reason cascade reads e r Hle;
    [done|done|lia|]. cbn [revoke].
  destruct (cascade || _); [|done].
  destruct (foldl _ _ _) as [[[e2 reads2] n]|] eqn:Hf; [|done].
  erewrite foldl_revoke_mono; [| |exact Hf]; [done|].
  intros c rd e' r'. apply IH. lia.
Qed.

(** ** The engine's life *)

(** The operations on the engine. A registered token is new: it has no children yet
    and is not its own parent. *)
Inductive engine_step : RevocationEngine → RevocationEngine → Prop :=
| step_register e now0 now1 token parent granter grantee operations constraints :
    children e !! token = None → parent ≠ Some token →
    engine_step e (register now0 now1 token parent granter grantee operations constraints e)
| step_revoke e e' now fuel token revoker reason cascade reads reads' n :
    revoke now fuel token revoker reason cascade reads e = Some (e', reads', n) →
    engine_step e e'
| step_check_expirations e now :
    engine_step e (check_expirations now e).1
| step_renew e now token owner new_duration :
    engine_step e (renew now token owner new_duration e).1
| step_cleanup e now retention_cycles :
    engine_step e (cleanup now retention_cycles e).

Definition engine_inv (e : RevocationEngine) : Prop :=
  engine_ok e ∧ ∃ h, ranked (children e) h.

Lemma engine_new_inv config : engine_inv (engine_new config).
Proof.
  split.
  - split; [split; [done|set_solver]|]. unfold history_ok. simpl. lia.
  - exists (λ _, O). intros p c. unfold child_of. simpl. rewrite lookup_empty. set_solver.
Qed.

Lemma drop_old_length cutoff h : (length (drop_old cutoff h) ≤ length h)%nat.
Proof. induction h as [|x h IH]; simpl; [done|]. destruct (_ <? _); simpl; lia. Qed.

Lemma engine_step_inv e e' : engine_step e e' → engine_inv e → engine_inv e'.
Proof.
  intros Hstep [He [h Hh]]. destruct Hstep as
    [e now0 now1 token parent ???? Hnone Hne
    |e e' now fuel token revoker reason cascade reads reads' n Hrev|e now|e now token owner d|e now ret].
  - split; [done|]. destruct parent as [p|]; [|by exists h]. simpl.
    eexists. apply ranked_register; [done|done|congruence].
  - destruct (revoke_spec now h (Nat.max fuel (S (h token))) token revoker reason cascade reads e)
      as (e2 & r2 & n2 & H2 & He2 & (_ & _ & Hc & _) & _); [done|lia|done|].
    rewrite (revoke_mono _ _ _ _ _ _ _ _ _ _ (Nat.le_max_l _ _) Hrev) in H2. simplify_eq.
    split; [done|]. exists h. by rewrite Hc.
  - split; [done|by exists h].
  - assert (engine_ok (renew now token owner d e).1 ∧ children (renew now token owner d e).1 = children e)
      as [? Hc]; [unfold renew; repeat step_match; done|].
    split; [done|]. exists h. by rewrite Hc.
  - split; [|by exists h]. destruct He as [Hb Hl]. split; [done|].
    unfold history_ok in *. simpl. pose proof (drop_old_length (sat_sub now ret) (history e)). lia.
Qed.

Lemma engine_reachable_inv config e : rtc engine_step (engine_new config) e → engine_inv e.
Proof.
  revert e. apply rtc_ind_r; [apply engine_new_inv|]. eauto using engine_step_inv.
Qed.

(** [C13] Revocation is complete, exact and terminates: in every engine reached by its
    operations, where each token, when it is registered, has no children yet and is not its
    own parent ([engine_step]; with a cycle of delegations the recursion is endless,
    [revoke_cycle_diverges]), [revoke] returns, and afterwards [is_revoked] (Bloom filter
    included) holds of exactly the tokens revoked before, the token, and, when the call or
    the configuration cascades, every token delegated from it, directly or not. The
    chains, the children map and the timed tokens are unchanged. *)
Theorem revoke_cascades config e now token revoker reason cascade reads :
  rtc engine_step (engine_new config) e →
  ∃ e' reads' n fuel0,
    (∀ fuel, (fuel0 ≤ fuel)%nat →
       revoke now fuel token revoker reason cascade reads e = Some (e', reads', n)) ∧
    same_frame e e' ∧
    ∀ x, is_revoked x e' = true ↔ is_revoked x e = true ∨ revokes cascade e token x.
Proof.
  intros [He [h Hh]]%engine_reachable_inv.
  destruct (revoke_spec now h (S (h token)) token revoker reason cascade reads e)
    as (e' & r' & n & H & He' & Hs & Hx); [done|lia|done|].
  exists e', r', n, (S (h token)). split; [intros; by eapply revoke_mono|]. split; [done|].
  intros x. rewrite !is_revoked_spec by (apply He || apply He').
  rewrite !bool_decide_eq_true. apply Hx.
Qed.

(** A token registered under a delegated one is reached by revoking the root. *)
Lemma revoke_cascades_witness :
  let root := mkToken 1 0 0 0 in
  let mid := mkToken 2 0 0 0 in
  let leaf := mkToken 3 0 0 0 in
  let e := register 0 0 leaf (Some mid) (mkPid 2) (mkPid 3) READ constraints_default
            (register 0 0 mid (Some root) (mkPid 1) (mkPid 2) READ constraints_default
             (register 0 0 root None (mkPid 1) (mkPid 1) ALL constraints_default
               (engine_new RevocationConfig_default))) in
  ∃ e' reads' n fuel0,
    (∀ fuel, (fuel0 ≤ fuel)%nat →
       revoke (λ _, 0) fuel root (mkPid 1) ExplicitRevoke false 0 e = Some (e', reads', n)) ∧
    is_revoked leaf e' = true.
Proof.
  intros root mid leaf e.
  destruct (revoke_cascades RevocationConfig_default e (λ _, 0) root (mkPid 1) ExplicitRevoke false 0)
    as (e' & r' & n & f & H & _ & Hx).
  { eapply rtc_l; [by apply step_register with (token := root) (parent := None)|].
    eapply rtc_l; [by apply step_register with (token := mid) (parent := Some root)|].
    eapply rtc_l; [by apply step_register with (token := leaf) (parent := Some mid)|].
    apply rtc_refl. }
  exists e', r', n, f. split; [done|]. apply Hx. right.
  apply rtc_l with mid; [|apply rtc_once]; apply (bool_decide_unpack _); vm_compute; done.
Defined.

(** A token registered as its own parent makes the recursion endless. *)
Lemma revoke_cycle_diverges now fuel token revoker reason reads e :
  children e !! token = Some [token] →
  revoke now fuel token revoker reason true reads e = None.
Proof.
  revert reason reads e. induction fuel as [|fuel IH]; intros reason reads e Hc; [done|].
  cbn [revoke orb]. change (children (mark_revoked token e)) with (children e).
  rewrite Hc. cbn [default foldl]. simpl. by rewrite IH.
Qed.

(** ** Expiry *)

Lemma lookup_foldl_delete {A} (ts : list Z) : ∀ (m : gmap Z A) t,
  foldl (λ m t, delete t m) m ts !! t = if decide (t ∈ ts) then None else m !! t.
Proof.
  induction ts as [|s ts IH]; intros m t; simpl; [done|]. rewrite IH.
  destruct (decide (t = s)) as [->|Hne].
  - rewrite lookup_delete_eq. rewrite (decide_True (P := s ∈ s :: ts)) by constructor. by case_decide.
  - rewrite lookup_delete_ne by done.
    destruct (decide (t ∈ ts)), (decide (t ∈ s :: ts)); set_solver.
Qed.

(** The tokens due at [now]: listed under an expiry that is not later. *)
Definition due (now : Z) (e : RevocationEngine) (tok : CapabilityToken) : Prop :=
  ∃ t l, t ≤ now ∧ timed_tokens e !! t = Some l ∧ tok ∈ l.

Lemma check_expirations_tokens now e tok :
  tok ∈ (check_expirations now e).2 ↔ due now e tok ∧ is_revoked tok e = false.
Proof.
  unfold check_expirations, due. cbn [snd].
  rewrite list_elem_of_filter, elem_of_concat.
  setoid_rewrite list_elem_of_fmap. setoid_rewrite list_elem_of_filter.
  setoid_rewrite elem_of_btree_keys. split.
  - intros [Hr (l & (t & -> & Ht & [l' Hl']) & Hin)]. rewrite Hl' in Hin. eauto 6.
  - intros [(t & l & Ht & Hl & Hin) Hr]. split; [done|]. exists l. split; [|done].
    exists t. rewrite Hl. eauto.
Qed.

(** [check_expirations] reports exactly the tokens that are due and not revoked;
    it forgets every expiry up to [now], keeps the later ones, and revokes nothing:
    the revoked set is the same, so an expired token still passes [is_revoked]. *)
Theorem check_expirations_exact now e :
  let '(e', expired) := check_expirations now e in
  (∀ tok, tok ∈ expired ↔ due now e tok ∧ is_revoked tok e = false) ∧
  (∀ t, timed_tokens e' !! t = if decide (t ≤ now) then None else timed_tokens e !! t) ∧
  (∀ tok, is_revoked tok e' = is_revoked tok e).
Proof.
  split; [intros; apply check_expirations_tokens|]. split; [|done].
  intros t. cbn [check_expirations fst timed_tokens]. rewrite lookup_foldl_delete.
  case_decide as Hin; rewrite list_elem_of_filter, elem_of_btree_keys in Hin.
  - by rewrite decide_True by naive_solver.
  - case_decide; [|done]. apply eq_None_not_Some. naive_solver.
Qed.

(** [renew] does not extend a lease: after a successful renewal the token is still
    listed under its previous expiry, so it is reported as expired at the old time,
    whatever the new duration. The caller and [max_renewals] play no role: the result
    is the same for every [owner], and renewing again succeeds again. *)
Theorem renew_keeps_old_expiry now now' token owner d e e' x t l :
  renew now token owner d e = (e', Ok x) →
  timed_tokens e !! t = Some l → token ∈ l → is_revoked token e = false →
  t ≤ now' →
  token ∈ (check_expirations now' e').2 ∧
  (∀ owner', renew now token owner' d e = (e', Ok x)) ∧
  (∀ owner' d' now'', is_ok (renew now'' token owner' d' e').2 = true).
Proof.
  unfold renew at 1. intros Hr Hl Hin Hrev Ht.
  destruct (chains e !! token) as [chain|] eqn:Hc; [|done].
  destruct (list.last (chain_nodes chain)) as [node|] eqn:Hn; [|done].
  destruct (time_limit (dn_constraints node)) as [tc|] eqn:Htc; [|done].
  destruct (renewable tc) eqn:Hren; [|done]. simplify_eq/=. split; [|split].
  - apply check_expirations_tokens. split; [|done].
    unfold due. simpl. unfold push_at.
    destruct (decide (t = u64_add now (to_cycles d))) as [->|Hne].
    + eexists _, _. rewrite lookup_insert_eq, Hl. split; [done|]. split; [done|]. simpl. set_solver.
    + exists t, l. by rewrite lookup_insert_ne.
  - intros. unfold renew. by rewrite Hc, Hn, Htc, Hren.
  - intros. unfold renew. simpl. by rewrite Hc, Hn, Htc, Hren.
Qed.

(** A ten-cycle lease renewed at time 5 for a hundred cycles still expires at 10. *)
Lemma renew_keeps_old_expiry_witness :
  let parent := mkToken 1 0 0 0 in
  let child := mkToken 2 0 0 0 in
  let cs := mkConstraints None 0 (Some (mkTimeLimit (Cycles 10) true 1 false)) READ None in
  let e := register 0 0 child (Some parent) (mkPid 1) (mkPid 2) READ cs
             (engine_new (mkRevConfig 8 true true true 8)) in
  child ∈ (check_expirations 10 (renew 5 child (mkPid 9) (Cycles 100) e).1).2.
Proof.
  intros parent child cs e.
  refine (proj1 (renew_keeps_old_expiry 5 10 child (mkPid 9) (Cycles 100) e
           (renew 5 child (mkPid 9) (Cycles 100) e).1 105 10 [child] _ _ _ _ _));
    [vm_compute; reflexivity|vm_compute; reflexivity|by apply list_elem_of_singleton
    |vm_compute; reflexivity|lia].
Defined.

(** ** Delegation chains *)

Definition depths_ok (i : nat) (nodes : list DelegationNode) : Prop :=
  ∀ j n d, nodes !! j = Some n → max_depth (dn_constraints n) = Some d → Z.of_nat (i + j) < d.

(** Each node's operations are within those of the node before. *)
Definition attenuated (nodes : list DelegationNode) : Prop :=
  ∀ i a b, nodes !! i = Some a → nodes !! S i = Some b →
    contains (dn_operations a) (dn_operations b) = true.

Definition linked (prev : option DelegationNode) (nodes : list DelegationNode) : Prop :=
  ∀ p n, prev = Some p → head nodes = Some n →
    contains (dn_operations p) (dn_operations n) = true.

Lemma attenuated_cons n nodes : attenuated (n :: nodes) ↔ linked (Some n) nodes ∧ attenuated nodes.
Proof.
  split.
  - intros H. split; [|by intros i; apply (H (S i))].
    intros p x [= ->] Hx. apply (H O); [done|]. by destruct nodes.
  - intros [Hl H] [|i] a b; [|by apply H]. intros [= ->] Hb. apply Hl; [done|]. by destruct nodes.
Qed.

Lemma depths_ok_cons i n nodes :
  depths_ok i (n :: nodes) ↔
  (∀ d, max_depth (dn_constraints n) = Some d → Z.of_nat i < d) ∧ depths_ok (S i) nodes.
Proof.
  unfold depths_ok. split.
  - intros H. split; [intros d; specialize (H O n d eq_refl); by rewrite Nat.add_0_r in H|].
    intros j x d Hx Hd. specialize (H (S j) x d Hx Hd). lia.
  - intros [Hn H] [|j] x d; [intros [= ->] ?; rewrite Nat.add_0_r; by apply Hn|].
    intros Hx Hd. specialize (H j x d Hx Hd). lia.
Qed.

Lemma validate_from_ok nodes : ∀ i prev,
  Z.of_nat (i + length nodes) ≤ 2 ^ 32 →
  validate_from i prev nodes = Ok tt ↔ depths_ok i nodes ∧ linked prev nodes ∧ attenuated nodes.
Proof.
  induction nodes as [|n nodes IH]; intros i prev Hlen; cbn [validate_from].
  { split; [|done]. intros _. by split; [|split]. }
  rewrite depths_ok_cons, attenuated_cons. simpl length in Hlen.
  assert (u32 (Z.of_nat i) = Z.of_nat i) as -> by (apply Z.mod_small; lia).
  assert (linked prev (n :: nodes) ↔
          match prev with
          | Some p => contains (dn_operations p) (dn_operations n) = true
          | None => True
          end) as -> by (unfold linked; simpl; destruct prev; naive_solver).
  destruct (max_depth (dn_constraints n)) as [d|] eqn:Hd;
    [destruct (Z.leb_spec d (Z.of_nat i)) as [Hle|Hlt]|].
  - split; [done|]. intros [[H _] _]. specialize (H d eq_refl). lia.
  - destruct prev as [p|]; [destruct (contains _ _)|]; simpl; rewrite ?IH by lia; naive_solver lia.
  - destruct prev as [p|]; [destruct (contains _ _)|]; simpl; rewrite ?IH by lia; naive_solver.
Qed.

Lemma attenuated_trans nodes i j a b :
  attenuated nodes → (i ≤ j)%nat → nodes !! i = Some a → nodes !! j = Some b →
  contains (dn_operations a) (dn_operations b) = true.
Proof.
  intros Hat Hij Ha. revert b. induction Hij as [|j Hij IH]; intros b Hb.
  { simplify_eq. by apply contains_refl. }
  destruct (lookup_lt_is_Some_2 nodes j) as [c Hc].
  { apply lookup_lt_Some in Hb. lia. }
  eapply contains_trans; [by apply IH|]. by eapply Hat.
Qed.

(** [DelegationChain::validate] accepts a chain exactly when every node is within
    its own depth limit and no delegation, however far down the chain, carries an
    operation its ancestors lack; otherwise the error is one of these two. *)
Theorem validate_attenuates c :
  Z.of_nat (length (chain_nodes c)) ≤ 2 ^ 32 →
  (validate c = Ok tt ↔
     (∀ i n d, chain_nodes c !! i = Some n → max_depth (dn_constraints n) = Some d → Z.of_nat i < d) ∧
     (∀ i j a b, (i ≤ j)%nat → chain_nodes c !! i = Some a → chain_nodes c !! j = Some b →
        contains (dn_operations a) (dn_operations b) = true)) ∧
  (validate c = Ok tt ∨ validate c = Err DepthExceeded ∨ validate c = Err AttenuationViolation).
Proof.
  intros Hlen. unfold validate. split.
  - rewrite validate_from_ok by (simpl; lia). split.
    + intros (Hd & _ & Hat). split; [done|]. intros. by eapply attenuated_trans.
    + intros [Hd Hat]. split; [done|]. split; [done|].
      intros i a b Ha Hb. apply (Hat i (S i)); [lia|done|done].
  - generalize 0%nat (@None DelegationNode). induction (chain_nodes c) as [|n l IH]; [auto|].
    intros i prev. simpl in Hlen. cbn [validate_from].
    repeat (case_match; auto); apply IH; lia.
Qed.

(** A chain that widens at its third link is refused. *)
Lemma validate_attenuates_witness :
  let node o := mkNode (mkToken 2 0 0 0) (mkPid 1) (mkPid 2) o 0 constraints_default in
  let c := mkChain (mkToken 1 0 0 0) [node ALL; node READ; node WRITE] 3 in
  validate c = Err AttenuationViolation ∧
  (validate c = Ok tt ∨ validate c = Err DepthExceeded ∨ validate c = Err AttenuationViolation).
Proof.
  intros node c. split; [vm_compute; reflexivity|].
  apply (validate_attenuates c). vm_compute. done.
Defined.
