(* ===== verification/Loop.v ===== *)
(** * Loop: iteration with a binary bound

    A loop whose number of rounds is bounded by a machine integer: [iter_pos p f] runs
    [f] at most [p] times, stopping at the first result. The bound is read in binary, so
    a loop of a thousand million rounds still evaluates. *)

From Stdlib Require Import ZArith Lia.
From S2P Require Import Prelude.

Section loop.
Context {S R : Type} (f : S → S + R).

Fixpoint iter_nat (n : nat) (s : S) : S + R :=
  match n with
  | O => inl s
  | Datatypes.S n => match f s with inl s' => iter_nat n s' | inr r => inr r end
  end.

Fixpoint iter_pos (p : positive) (s : S) : S + R :=
  match p with
  | xH => f s
  | xO p => match iter_pos p s with inl s' => iter_pos p s' | inr r => inr r end
  | xI p => match f s with
            | inl s1 => match iter_pos p s1 with inl s2 => iter_pos p s2 | inr r => inr r end
            | inr r => inr r
            end
  end.

Lemma iter_nat_add n : ∀ m s,
  iter_nat (n + m) s = match iter_nat n s with inl s' => iter_nat m s' | inr r => inr r end.
Proof. induction n as [|n IH]; intros m s; simpl; [done|]. by destruct (f s). Qed.

Lemma iter_pos_nat p : ∀ s, iter_pos p s = iter_nat (Pos.to_nat p) s.
Proof.
  induction p as [p IH|p IH|]; intros s; simpl iter_pos.
  - rewrite Pos2Nat.inj_xI. replace (Datatypes.S (2 * Pos.to_nat p)) with
      (1 + (Pos.to_nat p + Pos.to_nat p))%nat by lia. simpl.
    destruct (f s) as [s1|]; [|done]. rewrite iter_nat_add, IH.
    by destruct (iter_nat (Pos.to_nat p) s1).
  - rewrite Pos2Nat.inj_xO. replace (2 * Pos.to_nat p)%nat with
      (Pos.to_nat p + Pos.to_nat p)%nat by lia. rewrite iter_nat_add, IH.
    by destruct (iter_nat (Pos.to_nat p) s).
  - simpl. by destruct (f s).
Qed.

(** A result reached within the bound is the result. *)
Lemma iter_pos_done p n s r :
  iter_nat n s = inr r → (n ≤ Pos.to_nat p)%nat → iter_pos p s = inr r.
Proof.
  intros Hn Hp. rewrite iter_pos_nat. replace (Pos.to_nat p) with (n + (Pos.to_nat p - n))%nat by lia.
  by rewrite iter_nat_add, Hn.
Qed.

(** A loop that climbs towards a bound at which it stops ends, in an invariant state. *)
Lemma iter_pos_bounded (I : S → Prop) (J : R → Prop) (rank : S → Z) (top : Z) p s :
  (∀ s s', I s → f s = inl s' → I s' ∧ rank s < rank s') →
  (∀ s r, I s → f s = inr r → J r) →
  (∀ s s', I s → top ≤ rank s → f s ≠ inl s') →
  I s → top - rank s < Z.pos p → ∃ r, iter_pos p s = inr r ∧ J r.
Proof.
  intros Hstep Hend Htop HI Hp. rewrite iter_pos_nat.
  assert (top - rank s < Z.of_nat (Pos.to_nat p)) as Hn by lia.
  pose proof (Pos2Nat.is_pos p) as H0. clear Hp. revert s HI Hn H0.
  generalize (Pos.to_nat p). intros n. induction n as [|n IH]; intros s HI Hn H0; [lia|]. simpl.
  destruct (f s) as [s'|r] eqn:E; [|eauto]. destruct (Hstep _ _ HI E).
  assert (rank s < top).
  { destruct (Z.lt_ge_cases (rank s) top); [done|]. by destruct (Htop s s'). }
  apply IH; [done|lia..].
Qed.
End loop.
