(* ===== verification/WaveValue.v ===== *)
(** * WaveValue: the values of the WASM runtime ([runtime/wave/src/lib.rs])

    Value types, 128-bit vectors and [WasmValue] with its coercions. An [i32] or [i64]
    is a signed [Z] in range; an [f32] or [f64] is its IEEE 754 bit pattern, read with
    the specification floats of the Standard Library. The bits of a NaN that arithmetic
    produces are left open by the language: they are a field of [Platform]. *)

From Stdlib Require Import ZArith Lia SpecFloat.
From stdpp Require Import list.
From S2P Require Import Prelude.
From S2P Require Import Ids.
From S2P Require Import Bytes.

(** ** Signed machine integers *)

(** The signed reading of the low [w] bits ([as i32], [as i64]). *)
Definition signed (w z : Z) : Z :=
  if wrap w z <? 2 ^ (w - 1) then wrap w z else wrap w z - 2 ^ w.
Definition i32 (z : Z) : Z := signed 32 z.
Definition i64 (z : Z) : Z := signed 64 z.

Definition is_signed (w z : Z) : Prop := - 2 ^ (w - 1) ≤ z < 2 ^ (w - 1).

(** [wrapping_shl], [<<] of the release profile: the amount is taken modulo the width. *)
Definition shl_signed (w a b : Z) : Z := signed w (Z.shiftl a (wrap w b mod w)).
Definition shr_signed (w a b : Z) : Z := Z.shiftr a (wrap w b mod w).

(** [wrapping_div] and [wrapping_rem]: truncating, and [MIN / -1] wraps. *)
Definition div_signed (w a b : Z) : Z := signed w (Z.quot a b).
Definition rem_signed (w a b : Z) : Z := signed w (Z.rem a b).

(** ** IEEE 754 bit patterns

    [prec] and [emax] as in [SpecFloat]: 24 and 128 for [f32], 53 and 1024 for [f64]. *)

Record float_format := mkFormat { prec : Z; emax : Z }.
Definition binary32 : float_format := mkFormat 24 128.
Definition binary64 : float_format := mkFormat 53 1024.

Definition frac_bits (f : float_format) : Z := prec f - 1.
Definition exp_max (f : float_format) : Z := 2 * emax f - 1.
Definition sign_bit (f : float_format) (s : bool) : Z :=
  if s then 2 * emax f * 2 ^ frac_bits f else 0.

Definition float_of_bits (f : float_format) (b : Z) : spec_float :=
  let m := b mod 2 ^ frac_bits f in
  let e := Z.shiftr b (frac_bits f) mod (2 * emax f) in
  let s := Z.shiftr b (frac_bits f) / (2 * emax f) =? 1 in
  let e0 := 3 - emax f - prec f in
  if e =? exp_max f then if m =? 0 then S754_infinity s else S754_nan
  else if e =? 0 then if m =? 0 then S754_zero s else S754_finite s (Z.to_pos m) e0
  else S754_finite s (Z.to_pos (2 ^ frac_bits f + m)) (e0 + e - 1).

(** [nan] are the bits of a NaN result. *)
Definition bits_of_float (f : float_format) (nan : Z) (x : spec_float) : Z :=
  match x with
  | S754_zero s => sign_bit f s
  | S754_infinity s => sign_bit f s + exp_max f * 2 ^ frac_bits f
  | S754_nan => nan
  | S754_finite s m e =>
      if Z.pos m <? 2 ^ frac_bits f then sign_bit f s + Z.pos m
      else sign_bit f s + (e - (3 - emax f - prec f) + 1) * 2 ^ frac_bits f
           + (Z.pos m - 2 ^ frac_bits f)
  end.

(** [x as i32], [x as i64] on floats: truncate, saturate, NaN gives 0. *)
Definition float_to_int (f : float_format) (w b : Z) : Z :=
  let lo := - 2 ^ (w - 1) in
  let hi := 2 ^ (w - 1) - 1 in
  match float_of_bits f b with
  | S754_zero _ | S754_nan => 0
  | S754_infinity s => if s then lo else hi
  | S754_finite s m e =>
      let t := Z.shiftl (Z.pos m) e in
      if s then Z.max lo (- t) else Z.min hi t
  end.

(** [%] on floats: the exact remainder of the truncated quotient. *)
Definition SFrem (f : float_format) (x y : spec_float) : spec_float :=
  match x, y with
  | S754_nan, _ | _, S754_nan | S754_infinity _, _ | _, S754_zero _ => S754_nan
  | S754_zero _, _ | _, S754_infinity _ => x
  | S754_finite sx mx ex, S754_finite _ my ey =>
      let e := Z.min ex ey in
      let r := Z.shiftl (Z.pos mx) (ex - e) mod Z.shiftl (Z.pos my) (ey - e) in
      binary_normalize (prec f) (emax f) (if sx then - r else r) e sx
  end.

Example one_plus_one_f32 :
  bits_of_float binary32 0
    (SFadd 24 128 (float_of_bits binary32 1065353216) (float_of_bits binary32 1065353216))
  = 1073741824.
Proof. reflexivity. Qed.

Example rem_f64 : (* 7.5 % -2.0 = 1.5 *)
  bits_of_float binary64 0
    (SFrem binary64 (float_of_bits binary64 4620130267728707584)
                    (float_of_bits binary64 13835058055282163712))
  = 4609434218613702656.
Proof. reflexivity. Qed.

Example to_int_f32 : (* -2.5 as i32 *)
  float_to_int binary32 32 3223322624 = -2.
Proof. reflexivity. Qed.

(** ** Types *)

Inductive WaveError :=
| InvalidModule | ModuleNotFound | InstanceNotFound | TooManyModules | TooManyInstances
| MemoryAccessOutOfBounds | InvalidState | ExportNotFound | TypeMismatch | ExecutionLimit
| InvalidCapability | MissingImport | OutOfMemory | DivisionByZero.

#[global] Instance WaveError_eq_dec : EqDecision WaveError.
Proof. solve_decision. Defined.

Module SectionId.
Inductive SectionId :=
| Custom | Type_ | Import | Function | Table | Memory | Global | Export | Start | Element
| Code | Data.

Definition from_u8 (v : Z) : option SectionId :=
  match v with
  | 0 => Some Custom | 1 => Some Type_ | 2 => Some Import | 3 => Some Function
  | 4 => Some Table | 5 => Some Memory | 6 => Some Global | 7 => Some Export
  | 8 => Some Start | 9 => Some Element | 10 => Some Code | 11 => Some Data
  | _ => None
  end.
End SectionId.

Module Ty.
Inductive WasmType := I32 | I64 | F32 | F64 | V128 | FuncRef | ExternRef.

Definition from_byte (b : Z) : option WasmType :=
  match b with
  | 0x7F => Some I32 | 0x7E => Some I64 | 0x7D => Some F32 | 0x7C => Some F64
  | 0x7B => Some V128 | 0x70 => Some FuncRef | 0x6F => Some ExternRef
  | _ => None
  end.
End Ty.
Abbreviation WasmType := Ty.WasmType.

#[global] Instance WasmType_eq_dec : EqDecision WasmType.
Proof. solve_decision. Defined.

(** ** Vectors: sixteen bytes, lanes of [n] bytes, little endian *)

Module V128.
Record V128 := mk { bytes : list Z }.

Definition zero : V128 := mk (replicate 16 0).

(** The loops of the [from_*] constructors write the bytes of each lane in turn. *)
Definition of_lanes (n : nat) (vals : list Z) : V128 := mk (concat (to_le_bytes n <$> vals)).
Definition lane (n i : nat) (v : V128) : Z := from_le_bytes (take n (drop (i * n) (bytes v))).
Definition lanes (n : nat) (v : V128) : list Z := (λ i, lane n i v) <$> seq 0 (16 / n).

Definition from_i8x16 (vals : list Z) : V128 := of_lanes 1 vals.
Definition from_i16x8 (vals : list Z) : V128 := of_lanes 2 vals.
Definition from_i32x4 (vals : list Z) : V128 := of_lanes 4 vals.
Definition from_i64x2 (vals : list Z) : V128 := of_lanes 8 vals.
Definition from_f32x4 (vals : list Z) : V128 := of_lanes 4 vals.
Definition from_f64x2 (vals : list Z) : V128 := of_lanes 8 vals.

Definition as_i8x16 (v : V128) : list Z := signed 8 <$> lanes 1 v.
Definition as_i16x8 (v : V128) : list Z := signed 16 <$> lanes 2 v.
Definition as_i32x4 (v : V128) : list Z := signed 32 <$> lanes 4 v.
Definition as_i64x2 (v : V128) : list Z := signed 64 <$> lanes 8 v.
Definition as_f32x4 (v : V128) : list Z := lanes 4 v.
Definition as_f64x2 (v : V128) : list Z := lanes 8 v.

(** An array of sixteen bytes. *)
Definition ok (v : V128) : Prop := length (bytes v) = 16%nat ∧ Forall is_byte (bytes v).
End V128.

(** ** Values *)

Inductive WasmValue :=
| I32 (v : Z)
| I64 (v : Z)
| F32 (bits : Z)
| F64 (bits : Z)
| V128 (v : V128.V128)
| FuncRef (v : option Z)
| ExternRef (v : option Z).

Definition value_type (v : WasmValue) : WasmType :=
  match v with
  | I32 _ => Ty.I32 | I64 _ => Ty.I64 | F32 _ => Ty.F32 | F64 _ => Ty.F64
  | V128 _ => Ty.V128 | FuncRef _ => Ty.FuncRef | ExternRef _ => Ty.ExternRef
  end.

Definition as_i32 (v : WasmValue) : option Z := match v with I32 v => Some v | _ => None end.
Definition as_i64 (v : WasmValue) : option Z := match v with I64 v => Some v | _ => None end.
Definition as_f32 (v : WasmValue) : option Z := match v with F32 v => Some v | _ => None end.
Definition as_f64 (v : WasmValue) : option Z := match v with F64 v => Some v | _ => None end.

Definition to_i32 (v : WasmValue) : Z :=
  match v with
  | I32 v => v
  | I64 v => i32 v
  | F32 v => float_to_int binary32 32 v
  | F64 v => float_to_int binary64 32 v
  | V128 v => signed 32 (V128.lane 4 0 v)
  | FuncRef v | ExternRef v => default 0 (i32 <$> v)
  end.

Definition to_i64 (v : WasmValue) : Z :=
  match v with
  | I32 v => v
  | I64 v => v
  | F32 v => float_to_int binary32 64 v
  | F64 v => float_to_int binary64 64 v
  | V128 v => signed 64 (V128.lane 8 0 v)
  | FuncRef v | ExternRef v => default 0 (i64 <$> v)
  end.

Definition to_v128 (v : WasmValue) : V128.V128 :=
  match v with
  | V128 v => v
  | I32 v => V128.from_i32x4 [v; 0; 0; 0]
  | I64 v => V128.from_i64x2 [v; 0]
  | F32 v => V128.from_f32x4 [v; 0; 0; 0]
  | F64 v => V128.from_f64x2 [v; 0]
  | FuncRef _ | ExternRef _ => V128.zero
  end.

(** What Rust's types promise of a value. *)
Definition value_ok (v : WasmValue) : Prop :=
  match v with
  | I32 v => is_signed 32 v
  | I64 v => is_signed 64 v
  | F32 b => is_word 32 b
  | F64 b => is_word 64 b
  | V128 v => V128.ok v
  | FuncRef v => from_option (is_word 32) True v
  | ExternRef v => from_option (is_word 64) True v
  end.

(** ** Lemmas *)

Lemma signed_range w z : 0 < w → is_signed w (signed w z).
Proof.
  intros Hw. pose proof (Z.mod_pos_bound z (2 ^ w) ltac:(lia)) as H.
  unfold is_signed, signed, wrap.
  assert (2 ^ w = 2 * 2 ^ (w - 1)) as E by (rewrite <-Z.pow_succ_r by lia; f_equal; lia).
  destruct (Z.ltb_spec (z mod 2 ^ w) (2 ^ (w - 1))); lia.
Qed.

Lemma signed_small w z : 0 < w → is_signed w z → signed w z = z.
Proof.
  intros Hw [Hl Hu]. unfold signed, wrap.
  assert (2 ^ w = 2 * 2 ^ (w - 1)) as E by (rewrite <-Z.pow_succ_r by lia; f_equal; lia).
  destruct (Z.le_gt_cases 0 z).
  - rewrite Z.mod_small by lia. destruct (Z.ltb_spec z (2 ^ (w - 1))); lia.
  - replace (z mod 2 ^ w) with (z + 2 ^ w).
    + destruct (Z.ltb_spec (z + 2 ^ w) (2 ^ (w - 1))); lia.
    + symmetry. rewrite <-(Z.mod_add z 1) by lia. rewrite Z.mul_1_l. apply Z.mod_small. lia.
Qed.

Lemma wrap_signed w z : 0 < w → wrap w (signed w z) = wrap w z.
Proof.
  intros Hw. unfold signed. destruct (_ <? _); unfold wrap.
  - apply Z.mod_mod. lia.
  - replace (z mod 2 ^ w - 2 ^ w) with (z mod 2 ^ w + (-1) * 2 ^ w) by lia.
    rewrite Z.mod_add by lia. apply Z.mod_mod. lia.
Qed.

Lemma signed_wrap w z : 0 < w → signed w (wrap w z) = signed w z.
Proof. intros Hw. unfold signed, wrap. by rewrite Z.mod_mod by lia. Qed.

(** Numbers that agree modulo [2 ^ w] are the same signed integer. *)
Lemma signed_ext w a b : wrap w a = wrap w b → signed w a = signed w b.
Proof. unfold signed. by intros ->. Qed.

Lemma i32_range z : is_signed 32 (i32 z).
Proof. by apply signed_range. Qed.
Lemma i64_range z : is_signed 64 (i64 z).
Proof. by apply signed_range. Qed.

Lemma is_signed_32_64 z : is_signed 32 z → is_signed 64 z.
Proof. unfold is_signed. simpl. lia. Qed.

Lemma is_signed_word z : is_word 32 z → is_signed 64 z.
Proof. unfold is_signed, is_word. simpl. lia. Qed.

Lemma float_to_int_range f w b : 0 < w → is_signed w (float_to_int f w b).
Proof.
  intros Hw. assert (0 < 2 ^ (w - 1)) by (apply Z.pow_pos_nonneg; lia).
  unfold is_signed, float_to_int. destruct (float_of_bits f b) as [s|[]| |s m e]; try lia.
  assert (0 ≤ Z.shiftl (Z.pos m) e) by (by apply Z.shiftl_nonneg). destruct s; lia.
Qed.

Lemma shr_signed_range w a b : 0 < w → is_signed w a → is_signed w (shr_signed w a b).
Proof.
  intros Hw [Ha Hb]. unfold is_signed, shr_signed.
  set (k := wrap w b mod w). assert (0 ≤ k) by (by apply Z.mod_pos_bound).
  rewrite Z.shiftr_div_pow2 by lia. assert (0 < 2 ^ k) by (apply Z.pow_pos_nonneg; lia).
  split; [apply Z.div_le_lower_bound|apply Z.div_lt_upper_bound]; nia.
Qed.

#[export] Hint Resolve i32_range i64_range is_signed_32_64 float_to_int_range
  signed_range shr_signed_range : kernel.

Lemma to_i32_range v : value_ok v → is_signed 32 (to_i32 v).
Proof.
  destruct v as [| | | | |[]|[]]; simpl; auto with kernel; intros _;
    first [apply i32_range | by apply float_to_int_range | by apply signed_range | done].
Qed.

Lemma to_i64_range v : value_ok v → is_signed 64 (to_i64 v).
Proof.
  destruct v as [| | | | |[]|[]]; simpl; auto with kernel; intros _;
    first [apply i64_range | by apply float_to_int_range | by apply signed_range | done].
Qed.
#[export] Hint Resolve to_i32_range to_i64_range : kernel.

(** Reading the lanes written gives them back, whatever the lane width. *)
Lemma take_drop_lanes n vals : ∀ i x, vals !! i = Some x →
  take n (drop (i * n) (concat (to_le_bytes n <$> vals))) = to_le_bytes n x.
Proof.
  induction vals as [|y vals IH]; intros [|i] x Hx; simplify_eq/=.
  - rewrite drop_0, take_app_length'; [done|]. by rewrite length_to_le_bytes.
  - rewrite drop_app_ge by (rewrite length_to_le_bytes; lia).
    rewrite length_to_le_bytes, Nat.add_comm, Nat.add_sub. by apply IH.
Qed.

Lemma lanes_of_lanes n vals : (n * length vals = 16)%nat →
  V128.lanes n (V128.of_lanes n vals) = wrap (8 * Z.of_nat n) <$> vals.
Proof.
  intros Hn. assert (n ≠ 0%nat) by lia. unfold V128.lanes.
  replace (16 / n)%nat with (length vals) by (rewrite <-Hn, Nat.mul_comm; by rewrite Nat.div_mul).
  apply list_eq. intros i. rewrite !list_lookup_fmap.
  destruct (vals !! i) as [x|] eqn:E.
  - rewrite lookup_seq_lt by (by eapply lookup_lt_Some). simpl. f_equal.
    unfold V128.lane. simpl. rewrite (take_drop_lanes _ _ _ _ E). apply from_to_le_bytes.
  - rewrite lookup_seq_ge by (by apply lookup_ge_None). done.
Qed.

Lemma of_lanes_ok n vals : (n * length vals = 16)%nat → V128.ok (V128.of_lanes n vals).
Proof.
  intros Hn. split; simpl.
  - rewrite <-Hn. clear. induction vals; simpl; [lia|].
    rewrite length_app, length_to_le_bytes. unfold fmap in *. lia.
  - clear. induction vals; simpl; [constructor|].
    apply Forall_app. split; [apply to_le_bytes_byte|done].
Qed.

Lemma to_v128_ok v : value_ok v → V128.ok (to_v128 v).
Proof.
  destruct v; simpl; intros; try done; try (by apply of_lanes_ok);
    (split; [done|]; simpl; repeat constructor; lia).
Qed.

(** The coercions through a vector agree with the direct ones. *)
Lemma to_v128_to_i32 z : is_signed 32 z → to_i32 (V128 (to_v128 (I32 z))) = z.
Proof.
  intros Hz. unfold to_i32, to_v128, V128.from_i32x4, V128.of_lanes, V128.lane, V128.bytes.
  rewrite (take_drop_lanes 4 [z; 0; 0; 0] 0 z eq_refl), from_to_le_bytes.
  change (z mod 2 ^ (8 * Z.of_nat 4)) with (wrap 32 z).
  rewrite signed_wrap by done. by apply signed_small.
Qed.
