(* ===== verification/WaveHost.v ===== *)
(** * WaveHost: the host functions of the WASM runtime ([runtime/wave/src/lib.rs])

    [HostFunction] with its tables: the import names it answers to, its canonical name,
    the capability it requires and its signature. A [&str] is a [string] of bytes. *)

From Stdlib Require Import ZArith Lia String.
From stdpp Require Import list strings.
From S2P Require Import Prelude.
From S2P Require Import Ids.
From S2P Require Import WaveValue.

#[local] Open Scope string_scope.

(** ** The functions *)

Inductive HostFunction :=
| SLinkSend | SLinkReceive | SStorageRead | SStorageWrite | SLog | STimeNow | SSleep
| SPrint | SRead | SExit | SGetEnv | SRandom | SFileOpen | SFileRead | SFileWrite
| SFileClose | SFileSize | SNetConnect | SNetSend | SNetRecv | SNetClose | SProcessSpawn
| SProcessWait | SProcessKill | SProcessGetPid | SProcessGetPpid | SProcessFork | SMemAlloc
| SMemFree | SMemGrow | SMemSize | SFsMkdir | SFsRmdir | SFsUnlink | SFsRename | SFsStat
| SFsReadDir | SFsSeek | SFsSync | SFsTruncate | SFsGetCwd | SFsChdir | SNetSocket
| SNetBind | SNetListen | SNetAccept | SNetSetsockopt | SNetGetpeername | SNetResolve
| SNetSendto | SNetRecvfrom | SThreadCreate | SThreadJoin | SThreadExit | SThreadYield
| SThreadGetId | SThreadSleep | SSyncMutexCreate | SSyncMutexLock | SSyncMutexUnlock
| SSyncMutexDestroy | SSyncFutexWait | SSyncFutexWake | SCapCheck | SCapRequest
| SCapRevoke | SCapDelegate | SServiceRegister | SServiceDiscover | SServiceUnregister
| STimeMonotonic | STimeReal | STimerCreate | STimerCancel | SSysInfo | SSysCpuCount
| SSysMemFree | SSysUptime | SDebugPrint | SDebugBreak | SProfileStart | SProfileStop.

(** Every function once, in the order of the declaration. *)
Definition all_host_functions : list HostFunction :=
  [ SLinkSend; SLinkReceive; SStorageRead; SStorageWrite; SLog; STimeNow; SSleep; SPrint;
    SRead; SExit; SGetEnv; SRandom; SFileOpen; SFileRead; SFileWrite; SFileClose;
    SFileSize; SNetConnect; SNetSend; SNetRecv; SNetClose; SProcessSpawn; SProcessWait;
    SProcessKill; SProcessGetPid; SProcessGetPpid; SProcessFork; SMemAlloc; SMemFree;
    SMemGrow; SMemSize; SFsMkdir; SFsRmdir; SFsUnlink; SFsRename; SFsStat; SFsReadDir;
    SFsSeek; SFsSync; SFsTruncate; SFsGetCwd; SFsChdir; SNetSocket; SNetBind; SNetListen;
    SNetAccept; SNetSetsockopt; SNetGetpeername; SNetResolve; SNetSendto; SNetRecvfrom;
    SThreadCreate; SThreadJoin; SThreadExit; SThreadYield; SThreadGetId; SThreadSleep;
    SSyncMutexCreate; SSyncMutexLock; SSyncMutexUnlock; SSyncMutexDestroy; SSyncFutexWait;
    SSyncFutexWake; SCapCheck; SCapRequest; SCapRevoke; SCapDelegate; SServiceRegister;
    SServiceDiscover; SServiceUnregister; STimeMonotonic; STimeReal; STimerCreate;
    STimerCancel; SSysInfo; SSysCpuCount; SSysMemFree; SSysUptime; SDebugPrint;
    SDebugBreak; SProfileStart; SProfileStop ].

(** The discriminants Rust assigns. *)
Definition discriminant (f : HostFunction) : nat :=
  match f with
  | SLinkSend => 0 | SLinkReceive => 1 | SStorageRead => 2 | SStorageWrite => 3 | SLog => 4
  | STimeNow => 5 | SSleep => 6 | SPrint => 7 | SRead => 8 | SExit => 9 | SGetEnv => 10
  | SRandom => 11 | SFileOpen => 12 | SFileRead => 13 | SFileWrite => 14 | SFileClose => 15
  | SFileSize => 16 | SNetConnect => 17 | SNetSend => 18 | SNetRecv => 19 | SNetClose => 20
  | SProcessSpawn => 21 | SProcessWait => 22 | SProcessKill => 23 | SProcessGetPid => 24
  | SProcessGetPpid => 25 | SProcessFork => 26 | SMemAlloc => 27 | SMemFree => 28
  | SMemGrow => 29 | SMemSize => 30 | SFsMkdir => 31 | SFsRmdir => 32 | SFsUnlink => 33
  | SFsRename => 34 | SFsStat => 35 | SFsReadDir => 36 | SFsSeek => 37 | SFsSync => 38
  | SFsTruncate => 39 | SFsGetCwd => 40 | SFsChdir => 41 | SNetSocket => 42
  | SNetBind => 43 | SNetListen => 44 | SNetAccept => 45 | SNetSetsockopt => 46
  | SNetGetpeername => 47 | SNetResolve => 48 | SNetSendto => 49 | SNetRecvfrom => 50
  | SThreadCreate => 51 | SThreadJoin => 52 | SThreadExit => 53 | SThreadYield => 54
  | SThreadGetId => 55 | SThreadSleep => 56 | SSyncMutexCreate => 57 | SSyncMutexLock => 58
  | SSyncMutexUnlock => 59 | SSyncMutexDestroy => 60 | SSyncFutexWait => 61
  | SSyncFutexWake => 62 | SCapCheck => 63 | SCapRequest => 64 | SCapRevoke => 65
  | SCapDelegate => 66 | SServiceRegister => 67 | SServiceDiscover => 68
  | SServiceUnregister => 69 | STimeMonotonic => 70 | STimeReal => 71 | STimerCreate => 72
  | STimerCancel => 73 | SSysInfo => 74 | SSysCpuCount => 75 | SSysMemFree => 76
  | SSysUptime => 77 | SDebugPrint => 78 | SDebugBreak => 79 | SProfileStart => 80
  | SProfileStop => 81
  end.

Lemma discriminant_lookup f : all_host_functions !! discriminant f = Some f.
Proof. by destruct f. Qed.

#[global] Instance HostFunction_eq_dec : EqDecision HostFunction.
Proof.
  refine (λ f g, cast_if (decide (discriminant f = discriminant g))); [|congruence].
  pose proof (discriminant_lookup f). pose proof (discriminant_lookup g). congruence.
Defined.

Lemma elem_of_all_host_functions f : f ∈ all_host_functions.
Proof. eapply list_elem_of_lookup_2, discriminant_lookup. Qed.

(** ** Names *)

(** The arms of the [match] of [from_name]. *)
Definition import_names : list (string * HostFunction) :=
  [ ("s_link_send", SLinkSend); ("s_link_receive", SLinkReceive);
    ("s_storage_read", SStorageRead); ("s_storage_write", SStorageWrite); ("s_log", SLog);
    ("s_time_now", STimeNow); ("clock_time_get", STimeNow); ("s_sleep", SSleep);
    ("poll_oneoff", SSleep); ("s_print", SPrint); ("fd_write", SPrint); ("s_read", SRead);
    ("fd_read", SRead); ("s_exit", SExit); ("proc_exit", SExit); ("s_getenv", SGetEnv);
    ("environ_get", SGetEnv); ("s_random", SRandom); ("random_get", SRandom);
    ("s_file_open", SFileOpen); ("path_open", SFileOpen); ("s_file_read", SFileRead);
    ("s_file_write", SFileWrite); ("s_file_close", SFileClose); ("fd_close", SFileClose);
    ("s_file_size", SFileSize); ("fd_filestat_get", SFileSize);
    ("s_net_connect", SNetConnect); ("sock_connect", SNetConnect);
    ("s_net_send", SNetSend); ("sock_send", SNetSend); ("s_net_recv", SNetRecv);
    ("sock_recv", SNetRecv); ("s_net_close", SNetClose); ("sock_close", SNetClose);
    ("s_process_spawn", SProcessSpawn); ("s_process_wait", SProcessWait);
    ("s_process_kill", SProcessKill); ("s_process_getpid", SProcessGetPid);
    ("getpid", SProcessGetPid); ("s_process_getppid", SProcessGetPpid);
    ("getppid", SProcessGetPpid); ("s_process_fork", SProcessFork);
    ("s_mem_alloc", SMemAlloc); ("s_mem_free", SMemFree); ("s_mem_grow", SMemGrow);
    ("s_mem_size", SMemSize); ("s_fs_mkdir", SFsMkdir);
    ("path_create_directory", SFsMkdir); ("s_fs_rmdir", SFsRmdir);
    ("path_remove_directory", SFsRmdir); ("s_fs_unlink", SFsUnlink);
    ("path_unlink_file", SFsUnlink); ("s_fs_rename", SFsRename);
    ("path_rename", SFsRename); ("s_fs_stat", SFsStat); ("path_filestat_get", SFsStat);
    ("s_fs_readdir", SFsReadDir); ("fd_readdir", SFsReadDir); ("s_fs_seek", SFsSeek);
    ("fd_seek", SFsSeek); ("s_fs_sync", SFsSync); ("fd_sync", SFsSync);
    ("s_fs_truncate", SFsTruncate); ("fd_filestat_set_size", SFsTruncate);
    ("s_fs_getcwd", SFsGetCwd); ("s_fs_chdir", SFsChdir); ("s_net_socket", SNetSocket);
    ("sock_open", SNetSocket); ("s_net_bind", SNetBind); ("sock_bind", SNetBind);
    ("s_net_listen", SNetListen); ("sock_listen", SNetListen);
    ("s_net_accept", SNetAccept); ("sock_accept", SNetAccept);
    ("s_net_setsockopt", SNetSetsockopt); ("sock_set_opt", SNetSetsockopt);
    ("s_net_getpeername", SNetGetpeername); ("sock_getpeer", SNetGetpeername);
    ("s_net_resolve", SNetResolve); ("s_net_sendto", SNetSendto);
    ("sock_sendto", SNetSendto); ("s_net_recvfrom", SNetRecvfrom);
    ("sock_recvfrom", SNetRecvfrom); ("s_thread_create", SThreadCreate);
    ("s_thread_join", SThreadJoin); ("s_thread_exit", SThreadExit);
    ("s_thread_yield", SThreadYield); ("sched_yield", SThreadYield);
    ("s_thread_getid", SThreadGetId); ("s_thread_sleep", SThreadSleep);
    ("s_sync_mutex_create", SSyncMutexCreate); ("s_sync_mutex_lock", SSyncMutexLock);
    ("s_sync_mutex_unlock", SSyncMutexUnlock); ("s_sync_mutex_destroy", SSyncMutexDestroy);
    ("s_sync_futex_wait", SSyncFutexWait); ("s_sync_futex_wake", SSyncFutexWake);
    ("s_cap_check", SCapCheck); ("s_cap_request", SCapRequest);
    ("s_cap_revoke", SCapRevoke); ("s_cap_delegate", SCapDelegate);
    ("s_service_register", SServiceRegister); ("s_service_discover", SServiceDiscover);
    ("s_service_unregister", SServiceUnregister); ("s_time_monotonic", STimeMonotonic);
    ("clock_res_get", STimeMonotonic); ("s_time_real", STimeReal);
    ("s_timer_create", STimerCreate); ("s_timer_cancel", STimerCancel);
    ("s_sys_info", SSysInfo); ("s_sys_cpu_count", SSysCpuCount);
    ("s_sys_mem_free", SSysMemFree); ("s_sys_uptime", SSysUptime);
    ("s_debug_print", SDebugPrint); ("s_debug_break", SDebugBreak);
    ("s_profile_start", SProfileStart); ("s_profile_stop", SProfileStop) ].

Definition host_modules : list string := ["splax"; "env"; "wasi_snapshot_preview1"].

Definition from_name (module name : string) : option HostFunction :=
  if negb (String.eqb module "splax") && negb (String.eqb module "env")
     && negb (String.eqb module "wasi_snapshot_preview1") then None
  else snd <$> find (λ e, String.eqb e.1 name) import_names.

Definition from_function_name (name : string) : option HostFunction :=
  match from_name "splax" name with
  | Some f => Some f
  | None => match from_name "env" name with
            | Some f => Some f
            | None => from_name "wasi_snapshot_preview1" name
            end
  end.

(** [HostFunction::name]. *)
Definition host_name (f : HostFunction) : string :=
  match f with
  | SLinkSend => "s_link_send" | SLinkReceive => "s_link_receive"
  | SStorageRead => "s_storage_read" | SStorageWrite => "s_storage_write" | SLog => "s_log"
  | STimeNow => "s_time_now" | SSleep => "s_sleep" | SPrint => "s_print"
  | SRead => "s_read" | SExit => "s_exit" | SGetEnv => "s_getenv" | SRandom => "s_random"
  | SFileOpen => "s_file_open" | SFileRead => "s_file_read" | SFileWrite => "s_file_write"
  | SFileClose => "s_file_close" | SFileSize => "s_file_size"
  | SNetConnect => "s_net_connect" | SNetSend => "s_net_send" | SNetRecv => "s_net_recv"
  | SNetClose => "s_net_close" | SProcessSpawn => "s_process_spawn"
  | SProcessWait => "s_process_wait" | SProcessKill => "s_process_kill"
  | SProcessGetPid => "s_process_getpid" | SProcessGetPpid => "s_process_getppid"
  | SProcessFork => "s_process_fork" | SMemAlloc => "s_mem_alloc"
  | SMemFree => "s_mem_free" | SMemGrow => "s_mem_grow" | SMemSize => "s_mem_size"
  | SFsMkdir => "s_fs_mkdir" | SFsRmdir => "s_fs_rmdir" | SFsUnlink => "s_fs_unlink"
  | SFsRename => "s_fs_rename" | SFsStat => "s_fs_stat" | SFsReadDir => "s_fs_readdir"
  | SFsSeek => "s_fs_seek" | SFsSync => "s_fs_sync" | SFsTruncate => "s_fs_truncate"
  | SFsGetCwd => "s_fs_getcwd" | SFsChdir => "s_fs_chdir" | SNetSocket => "s_net_socket"
  | SNetBind => "s_net_bind" | SNetListen => "s_net_listen" | SNetAccept => "s_net_accept"
  | SNetSetsockopt => "s_net_setsockopt" | SNetGetpeername => "s_net_getpeername"
  | SNetResolve => "s_net_resolve" | SNetSendto => "s_net_sendto"
  | SNetRecvfrom => "s_net_recvfrom" | SThreadCreate => "s_thread_create"
  | SThreadJoin => "s_thread_join" | SThreadExit => "s_thread_exit"
  | SThreadYield => "s_thread_yield" | SThreadGetId => "s_thread_getid"
  | SThreadSleep => "s_thread_sleep" | SSyncMutexCreate => "s_sync_mutex_create"
  | SSyncMutexLock => "s_sync_mutex_lock" | SSyncMutexUnlock => "s_sync_mutex_unlock"
  | SSyncMutexDestroy => "s_sync_mutex_destroy" | SSyncFutexWait => "s_sync_futex_wait"
  | SSyncFutexWake => "s_sync_futex_wake" | SCapCheck => "s_cap_check"
  | SCapRequest => "s_cap_request" | SCapRevoke => "s_cap_revoke"
  | SCapDelegate => "s_cap_delegate" | SServiceRegister => "s_service_register"
  | SServiceDiscover => "s_service_discover" | SServiceUnregister => "s_service_unregister"
  | STimeMonotonic => "s_time_monotonic" | STimeReal => "s_time_real"
  | STimerCreate => "s_timer_create" | STimerCancel => "s_timer_cancel"
  | SSysInfo => "s_sys_info" | SSysCpuCount => "s_sys_cpu_count"
  | SSysMemFree => "s_sys_mem_free" | SSysUptime => "s_sys_uptime"
  | SDebugPrint => "s_debug_print" | SDebugBreak => "s_debug_break"
  | SProfileStart => "s_profile_start" | SProfileStop => "s_profile_stop"
  end.

(** ** Capabilities and signatures *)

Definition required_capability (f : HostFunction) : string :=
  match f with
  | SLinkSend => "channel:write"
  | SLinkReceive => "channel:read"
  | SStorageRead => "storage:read"
  | SStorageWrite => "storage:write"
  | SLog => "log:write"
  | STimeNow | STimeMonotonic | STimeReal => "time:read"
  | SSleep | SThreadSleep => "time:sleep"
  | SPrint | SDebugPrint => "console:write"
  | SRead => "console:read"
  | SExit | SThreadExit => "process:exit"
  | SGetEnv => "env:read"
  | SRandom => "random:read"
  | SFileOpen | SFileRead | SFileSize | SFsStat | SFsReadDir | SFsSeek | SFsGetCwd => "fs:read"
  | SFileWrite | SFsMkdir | SFsRmdir | SFsUnlink | SFsRename | SFsSync | SFsTruncate
  | SFsChdir => "fs:write"
  | SFileClose => "fs:read"
  | SNetConnect | SNetSend | SNetRecv | SNetClose | SNetSendto | SNetRecvfrom | SNetResolve => "net:connect"
  | SNetSocket | SNetBind | SNetListen | SNetAccept | SNetSetsockopt | SNetGetpeername => "net:listen"
  | SProcessSpawn | SProcessFork => "process:spawn"
  | SProcessWait => "process:wait"
  | SProcessKill => "process:signal"
  | SProcessGetPid | SProcessGetPpid => "process:info"
  | SMemAlloc | SMemFree | SMemGrow | SMemSize => "mem:manage"
  | SThreadCreate | SThreadJoin | SThreadGetId | SThreadYield => "thread:manage"
  | SSyncMutexCreate | SSyncMutexLock | SSyncMutexUnlock | SSyncMutexDestroy
  | SSyncFutexWait | SSyncFutexWake => "sync:mutex"
  | SCapCheck => "cap:check"
  | SCapRequest => "cap:request"
  | SCapRevoke | SCapDelegate => "cap:admin"
  | SServiceRegister | SServiceUnregister => "service:register"
  | SServiceDiscover => "service:discover"
  | STimerCreate | STimerCancel => "timer:manage"
  | SSysInfo | SSysCpuCount | SSysMemFree | SSysUptime => "sys:info"
  | SDebugBreak | SProfileStart | SProfileStop => "debug:trace"
  end.

Record FunctionSignature := mkSig { params : list WasmType; results : list WasmType }.

Definition signature (f : HostFunction) : FunctionSignature :=
  match f with
  | SLinkSend => mkSig [Ty.I32; Ty.I32; Ty.I32] [Ty.I32]
  | SLinkReceive => mkSig [Ty.I32; Ty.I32; Ty.I32] [Ty.I32]
  | SStorageRead => mkSig [Ty.I64; Ty.I32; Ty.I32; Ty.I32] [Ty.I32]
  | SStorageWrite => mkSig [Ty.I32; Ty.I32] [Ty.I64]
  | SLog => mkSig [Ty.I32; Ty.I32; Ty.I32] []
  | STimeNow | STimeMonotonic | STimeReal => mkSig [] [Ty.I64]
  | SSleep => mkSig [Ty.I64] []
  | SPrint | SDebugPrint => mkSig [Ty.I32; Ty.I32] [Ty.I32]
  | SRead => mkSig [Ty.I32; Ty.I32] [Ty.I32]
  | SExit | SThreadExit => mkSig [Ty.I32] []
  | SGetEnv => mkSig [Ty.I32; Ty.I32; Ty.I32; Ty.I32] [Ty.I32]
  | SRandom => mkSig [Ty.I32; Ty.I32] [Ty.I32]
  | SFileOpen => mkSig [Ty.I32; Ty.I32; Ty.I32] [Ty.I32]
  | SFileRead | SFileWrite => mkSig [Ty.I32; Ty.I32; Ty.I32] [Ty.I32]
  | SFileClose => mkSig [Ty.I32] [Ty.I32]
  | SFileSize => mkSig [Ty.I32] [Ty.I64]
  | SNetConnect => mkSig [Ty.I32; Ty.I32; Ty.I32] [Ty.I32]
  | SNetSend | SNetRecv => mkSig [Ty.I32; Ty.I32; Ty.I32] [Ty.I32]
  | SNetClose => mkSig [Ty.I32] [Ty.I32]
  | SProcessSpawn => mkSig [Ty.I32; Ty.I32; Ty.I32] [Ty.I64]
  | SProcessWait => mkSig [Ty.I64] [Ty.I32]
  | SProcessKill => mkSig [Ty.I64; Ty.I32] [Ty.I32]
  | SProcessGetPid | SProcessGetPpid => mkSig [] [Ty.I64]
  | SProcessFork => mkSig [] [Ty.I64]
  | SMemAlloc => mkSig [Ty.I32] [Ty.I32]
  | SMemFree => mkSig [Ty.I32; Ty.I32] [Ty.I32]
  | SMemGrow => mkSig [Ty.I32] [Ty.I32]
  | SMemSize => mkSig [] [Ty.I32]
  | SFsMkdir | SFsRmdir | SFsUnlink => mkSig [Ty.I32; Ty.I32] [Ty.I32]
  | SFsRename => mkSig [Ty.I32; Ty.I32; Ty.I32; Ty.I32] [Ty.I32]
  | SFsStat => mkSig [Ty.I32; Ty.I32; Ty.I32] [Ty.I32]
  | SFsReadDir => mkSig [Ty.I32; Ty.I32] [Ty.I32]
  | SFsSeek => mkSig [Ty.I32; Ty.I64; Ty.I32] [Ty.I64]
  | SFsSync => mkSig [Ty.I32] [Ty.I32]
  | SFsTruncate => mkSig [Ty.I32; Ty.I64] [Ty.I32]
  | SFsGetCwd => mkSig [Ty.I32; Ty.I32] [Ty.I32]
  | SFsChdir => mkSig [Ty.I32; Ty.I32] [Ty.I32]
  | SNetSocket => mkSig [Ty.I32; Ty.I32; Ty.I32] [Ty.I32]
  | SNetBind | SNetAccept | SNetGetpeername => mkSig [Ty.I32; Ty.I32; Ty.I32] [Ty.I32]
  | SNetListen => mkSig [Ty.I32; Ty.I32] [Ty.I32]
  | SNetSetsockopt => mkSig [Ty.I32; Ty.I32; Ty.I32; Ty.I32] [Ty.I32]
  | SNetResolve => mkSig [Ty.I32; Ty.I32; Ty.I32] [Ty.I32]
  | SNetSendto | SNetRecvfrom => mkSig [Ty.I32; Ty.I32; Ty.I32; Ty.I32] [Ty.I32]
  | SThreadCreate => mkSig [Ty.I32; Ty.I32] [Ty.I32]
  | SThreadJoin => mkSig [Ty.I32] [Ty.I32]
  | SThreadYield | SDebugBreak => mkSig [] []
  | SThreadGetId => mkSig [] [Ty.I32]
  | SThreadSleep => mkSig [Ty.I64] [Ty.I32]
  | SSyncMutexCreate => mkSig [] [Ty.I32]
  | SSyncMutexLock | SSyncMutexUnlock | SSyncMutexDestroy => mkSig [Ty.I32] [Ty.I32]
  | SSyncFutexWait => mkSig [Ty.I32; Ty.I32; Ty.I64] [Ty.I32]
  | SSyncFutexWake => mkSig [Ty.I32; Ty.I32] [Ty.I32]
  | SCapCheck => mkSig [Ty.I32; Ty.I32] [Ty.I32]
  | SCapRequest => mkSig [Ty.I32; Ty.I32] [Ty.I64]
  | SCapRevoke => mkSig [Ty.I64] [Ty.I32]
  | SCapDelegate => mkSig [Ty.I64; Ty.I64] [Ty.I64]
  | SServiceRegister => mkSig [Ty.I32; Ty.I32; Ty.I32] [Ty.I32]
  | SServiceDiscover => mkSig [Ty.I32; Ty.I32; Ty.I32] [Ty.I32]
  | SServiceUnregister => mkSig [Ty.I32] [Ty.I32]
  | STimerCreate => mkSig [Ty.I64; Ty.I32] [Ty.I32]
  | STimerCancel => mkSig [Ty.I32] [Ty.I32]
  | SSysInfo => mkSig [Ty.I32; Ty.I32; Ty.I32] [Ty.I32]
  | SSysCpuCount => mkSig [] [Ty.I32]
  | SSysMemFree => mkSig [] [Ty.I64]
  | SSysUptime => mkSig [] [Ty.I64]
  | SProfileStart => mkSig [Ty.I32; Ty.I32] [Ty.I32]
  | SProfileStop => mkSig [Ty.I32] [Ty.I64]
  end.

(** ** What the tables promise *)

Lemma host_modules_spec m :
  m ∈ host_modules ↔
  (negb (String.eqb m "splax") && negb (String.eqb m "env")
   && negb (String.eqb m "wasi_snapshot_preview1")) = false.
Proof.
  unfold host_modules. rewrite !list_elem_of_In. simpl.
  destruct (String.eqb_spec m "splax"), (String.eqb_spec m "env"),
    (String.eqb_spec m "wasi_snapshot_preview1"); simpl; naive_solver.
Qed.

Lemma from_name_module m n :
  m ∈ host_modules → from_name m n = snd <$> find (λ e, String.eqb e.1 n) import_names.
Proof. intros H%host_modules_spec. unfold from_name. by rewrite H. Qed.

Lemma from_name_foreign m n : m ∉ host_modules → from_name m n = None.
Proof.
  intros H. unfold from_name. destruct (negb _ && _ && _) eqn:E; [done|].
  destruct H. by apply host_modules_spec.
Qed.

Lemma from_function_name_env n : from_function_name n = from_name "env" n.
Proof.
  unfold from_function_name. rewrite !from_name_module by (by apply host_modules_spec).
  by destruct (snd <$> _).
Qed.

(** A name answers to one function only: the arms of the [match] are disjoint. *)
Lemma import_names_NoDup : NoDup import_names.*1.
Proof. apply (bool_decide_unpack _). by vm_compute. Qed.

Lemma host_name_import f : (host_name f, f) ∈ import_names.
Proof.
  apply (Forall_forall (λ f, (host_name f, f) ∈ import_names) all_host_functions);
    [|apply elem_of_all_host_functions].
  apply (bool_decide_unpack _). by vm_compute.
Qed.

Lemma find_import n f :
  (n, f) ∈ import_names → snd <$> find (λ e, String.eqb e.1 n) import_names = Some f.
Proof.
  pose proof import_names_NoDup as Hnd. revert Hnd. generalize import_names as l.
  induction l as [|[n' f'] l IH]; intros Hnd Hin; [by apply elem_of_nil in Hin|]. simpl in *.
  apply NoDup_cons in Hnd as [Hn' Hnd]. apply elem_of_cons in Hin as [[= <- <-]|Hin].
  - by rewrite String.eqb_refl.
  - destruct (String.eqb_spec n' n) as [->|]; [|by apply IH].
    destruct Hn'. apply list_elem_of_fmap. by exists (n, f).
Qed.

Lemma find_import_inv n f :
  snd <$> find (λ e, String.eqb e.1 n) import_names = Some f → (n, f) ∈ import_names.
Proof.
  generalize import_names as l. induction l as [|[n' f'] l IH]; simpl; [done|].
  destruct (String.eqb_spec n' n) as [->|]; simpl; intros H;
    [simplify_eq; by left|right; auto].
Qed.

(** Import names and host functions: a function is found under its canonical name
    in exactly the three host modules, an import resolves to a function precisely
    when the name is one of its listed aliases there, and the canonical names of
    two functions differ. *)
Theorem host_names_correct :
  (∀ m n f, from_name m n = Some f ↔ m ∈ host_modules ∧ (n, f) ∈ import_names) ∧
  (∀ m f, m ∈ host_modules → from_name m (host_name f) = Some f) ∧
  (∀ f, from_function_name (host_name f) = Some f) ∧
  (∀ f g, host_name f = host_name g → f = g).
Proof.
  assert (∀ m n f, from_name m n = Some f ↔ m ∈ host_modules ∧ (n, f) ∈ import_names) as H1.
  { intros m n f. destruct (decide (m ∈ host_modules)) as [Hm|Hm].
    - rewrite from_name_module by done. split; [eauto using find_import_inv|].
      intros [_ ?]. by apply find_import.
    - rewrite from_name_foreign by done. split; [done|]. by intros [??]. }
  assert (∀ f, from_name "env" (host_name f) = Some f) as H2.
  { intros f. apply H1. split; [by apply host_modules_spec|apply host_name_import]. }
  split_and!; [done| | |].
  - intros m f Hm. apply H1. split; [done|apply host_name_import].
  - intros f. by rewrite from_function_name_env.
  - intros f g E. pose proof (H2 f) as Hf. rewrite E, H2 in Hf. congruence.
Qed.
