(* ===== verification/Leb128.v ===== *)
(** * Leb128: the variable-length integers of WASM ([runtime/wave/src/lib.rs])

    The readers of [Instance], of [Wave] and of [JitState]. They differ in the width, in
    the sign extension and in the bound on the length: [JitState]'s have none. The
    encoders, which the runtime does not need, are the specification. *)

From Stdlib Require Import ZArith Lia.
From stdpp Require Import list.
From S2P Require Import Prelude.
From S2P Require Import Ids.
From S2P Require Import Bytes.
From S2P Require Import WaveValue.

(** ** Readers

    A reader returns the value and the number of bytes it consumed. [limit] is the shift
    from which on a continued number is refused. *)

Definition over (limit : option Z) (shift : Z) : bool :=
  match limit with Some l => l <=? shift | None => false end.

Fixpoint read_signed (w : Z) (limit : option Z) (bytes : list Z) (result shift : Z) (pos : nat) :
    Result (Z * nat) WaveError :=
  match bytes with
  | [] => Err InvalidModule
  | byte :: rest =>
      let result := Z.lor result (shl_signed w (Z.land byte 0x7F) shift) in
      let shift := u32 (shift + 7) in
      if Z.land byte 0x80 =? 0 then
        Ok (if (shift <? w) && negb (Z.land byte 0x40 =? 0)
            then Z.lor result (shl_signed w (-1) shift) else result, S pos)
      else if over limit shift then Err InvalidModule
      else read_signed w limit rest result shift (S pos)
  end.

Fixpoint read_unsigned (limit : option Z) (bytes : list Z) (result shift : Z) (pos : nat) :
    Result (Z * nat) WaveError :=
  match bytes with
  | [] => Err InvalidModule
  | byte :: rest =>
      let result := Z.lor result (u32 (Z.shiftl (Z.land byte 0x7F) (shift mod 32))) in
      if Z.land byte 0x80 =? 0 then Ok (result, S pos)
      else let shift := u32 (shift + 7) in
           if over limit shift then Err InvalidModule
           else read_unsigned limit rest result shift (S pos)
  end.

Definition read_leb128_i32 (bytes : list Z) := read_signed 32 (Some 35) bytes 0 0 0.
Definition read_leb128_i64 (bytes : list Z) := read_signed 64 (Some 70) bytes 0 0 0.
Definition read_leb128_u32 (bytes : list Z) := read_unsigned (Some 35) bytes 0 0 0.

(** [JitState::read_leb128_i32] and [JitState::read_leb128_u32]. *)
Definition jit_read_leb128_i32 (bytes : list Z) := read_signed 32 None bytes 0 0 0.
Definition jit_read_leb128_u32 (bytes : list Z) := read_unsigned None bytes 0 0 0.

(** ** The encodings, by the WASM specification *)

Fixpoint leb_u (n : nat) (z : Z) : list Z :=
  match n with
  | O => []
  | S n => if z <? 128 then [z] else (z mod 128 + 128) :: leb_u n (z / 128)
  end.

Fixpoint leb_s (n : nat) (z : Z) : list Z :=
  match n with
  | O => []
  | S n => if (-64 <=? z) && (z <? 64) then [z mod 128]
           else (z mod 128 + 128) :: leb_s n (z / 128)
  end.

Definition encode_u32 (z : Z) : list Z := leb_u 5 z.
Definition encode_i32 (z : Z) : list Z := leb_s 5 z.
Definition encode_i64 (z : Z) : list Z := leb_s 10 z.

Example leb_624485 : encode_u32 624485 = [0xE5; 0x8E; 0x26].
Proof. reflexivity. Qed.
Example leb_minus_123456 : encode_i32 (-123456) = [0xC0; 0xBB; 0x78].
Proof. reflexivity. Qed.
Example read_624485 : read_leb128_u32 [0xE5; 0x8E; 0x26; 0xFF] = Ok (624485, 3%nat).
Proof. reflexivity. Qed.
Example read_minus_123456 : read_leb128_i32 [0xC0; 0xBB; 0x78] = Ok (-123456, 3%nat).
Proof. reflexivity. Qed.

(** ** Bit arithmetic of one byte *)

Lemma lor_shiftl r a s : 0 ≤ s → 0 ≤ r < 2 ^ s → Z.lor r (Z.shiftl a s) = r + a * 2 ^ s.
Proof.
  intros Hs Hr. rewrite <-Z.shiftl_mul_pow2 by done. symmetry.
  rewrite <-Z.lxor_lor; [apply Z.add_nocarry_lxor|]; apply Z.bits_inj'; intros j Hj;
    rewrite Z.land_spec, Z.bits_0, Z.shiftl_spec by done;
    (destruct (Z.le_gt_cases s j);
      [|by rewrite (Z.testbit_neg_r a), andb_false_r by lia]);
    rewrite (proj1 (is_word_testbit s r Hs (proj1 Hr))); done.
Qed.

Lemma low_byte z : Z.land (z mod 128) 0x7F = z mod 128.
Proof.
  change 0x7F with (Z.ones 7). rewrite Z.land_ones by done. by apply Z.mod_mod.
Qed.

Lemma land_pow2_zero r k : 0 ≤ k → 0 ≤ r < 2 ^ k → Z.land r (2 ^ k) = 0.
Proof.
  intros Hk Hr. apply Z.bits_inj'. intros j Hj.
  rewrite Z.land_spec, Z.bits_0, Z.pow2_bits_eqb by done.
  destruct (Z.eqb_spec k j) as [->|]; [|apply andb_false_r].
  by rewrite (proj1 (is_word_testbit j r Hk (proj1 Hr))).
Qed.

Lemma byte_last m : 0 ≤ m < 128 → Z.land m 0x7F = m ∧ (Z.land m 0x80 =? 0) = true.
Proof.
  intros Hm. rewrite <-(Z.mod_small m 128) by done. split; [apply low_byte|].
  apply Z.eqb_eq, (land_pow2_zero _ 7); [done|]. rewrite Z.mod_small; lia.
Qed.

Lemma byte_more m : 0 ≤ m < 128 →
  Z.land (m + 128) 0x7F = m ∧ (Z.land (m + 128) 0x80 =? 0) = false.
Proof.
  intros Hm. assert (m + 128 = Z.lor m (Z.shiftl 1 7)) as ->.
  { rewrite lor_shiftl; lia. }
  rewrite !Z.land_lor_distr_l. destruct (byte_last m Hm) as [-> H0%Z.eqb_eq].
  rewrite H0. split; [|done]. apply Z.lor_0_r.
Qed.

Lemma byte_sign m : 0 ≤ m < 128 → (Z.land m 0x40 =? 0) = (m <? 64).
Proof.
  intros Hm. destruct (Z.ltb_spec m 64).
  - apply Z.eqb_eq, (land_pow2_zero _ 6); lia.
  - apply Z.eqb_neq. assert (m = Z.lor (m - 64) (Z.shiftl 1 6)) as ->.
    { rewrite lor_shiftl; lia. }
    change 0x40 with (2 ^ 6). rewrite Z.land_lor_distr_l, land_pow2_zero by lia. done.
Qed.

Lemma over_small limit shift :
  match limit with Some l => shift < l | None => True end → over limit shift = false.
Proof. destruct limit; simpl; [|done]. intros. lia. Qed.

(** ** Unsigned *)

Lemma read_unsigned_leb limit rest n : ∀ z r shift pos,
  (0 < n)%nat → 0 ≤ shift < 32 → 0 ≤ r < 2 ^ shift → 0 ≤ z → z < 2 ^ (7 * Z.of_nat n) →
  z * 2 ^ shift < 2 ^ 32 →
  match limit with Some l => 32 ≤ l | None => True end →
  read_unsigned limit (leb_u n z ++ rest) r shift pos =
    Ok (r + z * 2 ^ shift, (pos + length (leb_u n z))%nat).
Proof.
  induction n as [|n IH]; intros z r shift pos Hn Hs Hr Hz0 Hz Hzs Hl; [lia|].
  assert (0 < 2 ^ shift) by (apply Z.pow_pos_nonneg; lia).
  simpl leb_u. destruct (Z.ltb_spec z 128) as [Hlt|Hge]; cbn -[Z.land Z.mul Z.pow].
  - destruct (byte_last z) as [-> ->]; [lia|].
    rewrite (Z.mod_small shift 32), Nat.add_1_r by lia. repeat f_equal.
    unfold u32. rewrite wrap_small; [apply lor_shiftl; lia|].
    rewrite Z.shiftl_mul_pow2 by lia. split; lia.
  - pose proof (Z.mod_pos_bound z 128 ltac:(lia)).
    destruct (byte_more (z mod 128)) as [-> ->]; [done|].
    pose proof (Z.div_mod z 128 ltac:(lia)) as Hdm.
    assert (0 < z / 128) by (apply Z.div_str_pos; lia).
    assert (shift + 7 < 32).
    { destruct (Z.lt_ge_cases (shift + 7) 32); [done|].
      assert (2 ^ 25 ≤ 2 ^ shift) by (apply Z.pow_le_mono_r; lia). nia. }
    assert (2 ^ (shift + 7) = 2 ^ shift * 128) as Hp by (rewrite Z.pow_add_r by lia; done).
    assert (u32 (shift + 7) = shift + 7) as -> by (apply wrap_small; split; lia).
    assert (2 ^ (shift + 7) ≤ 2 ^ 32) by (apply Z.pow_le_mono_r; lia).
    assert (u32 (Z.shiftl (z mod 128) (shift mod 32)) = Z.shiftl (z mod 128) shift) as ->.
    { rewrite (Z.mod_small shift 32) by lia. apply wrap_small.
      rewrite Z.shiftl_mul_pow2 by lia. split; nia. }
    rewrite over_small by (destruct limit; lia). rewrite lor_shiftl by lia.
    rewrite IH; rewrite ?Hp; [| |lia| |lia| |nia|done].
    + f_equal. f_equal; [nia|simpl; lia].
    + destruct n; [simpl in Hz; lia|lia].
    + split; [nia|]. assert (z mod 128 * 2 ^ shift ≤ 127 * 2 ^ shift) by nia. lia.
    + apply Z.div_lt_upper_bound; [lia|].
      replace (7 * Z.of_nat (S n)) with (7 + 7 * Z.of_nat n) in Hz by lia.
      rewrite Z.pow_add_r in Hz by lia. lia.
Qed.

(** ** Signed *)

Lemma shl_signed_small w a s : 0 ≤ s < w → is_signed w (a * 2 ^ s) → shl_signed w a s = Z.shiftl a s.
Proof.
  intros Hs Ha. unfold shl_signed. rewrite wrap_small.
  - rewrite (Z.mod_small s w), Z.shiftl_mul_pow2 by lia. apply signed_small; [lia|done].
  - split; [lia|]. pose proof (Z.pow_gt_lin_r 2 w). lia.
Qed.

(** Bits of the last byte above the width fall off. *)
Lemma shl_signed_top w z s : 0 ≤ s < w → w ≤ s + 7 → is_signed w (z * 2 ^ s) →
  shl_signed w (z mod 128) s = Z.shiftl z s.
Proof.
  intros Hs Hw Hz. rewrite Z.shiftl_mul_pow2 by lia.
  rewrite <-(signed_small w (z * 2 ^ s)) by (try done; lia).
  unfold shl_signed. rewrite (wrap_small w s), (Z.mod_small s w), Z.shiftl_mul_pow2 by
    first [lia | split; [lia|]; pose proof (Z.pow_gt_lin_r 2 w); lia].
  apply signed_ext. unfold wrap. rewrite (Z.mod_eq z 128) by lia.
  replace ((z - 128 * (z / 128)) * 2 ^ s) with (z * 2 ^ s + (- (z / 128) * 2 ^ (s + 7 - w)) * 2 ^ w).
  - apply Z.mod_add. lia.
  - rewrite <-Z.mul_assoc, <-Z.pow_add_r by lia.
    replace (s + 7 - w + w) with (s + 7) by lia. rewrite Z.pow_add_r by lia. lia.
Qed.

Lemma read_signed_last w limit rest z r s pos : 0 ≤ s < w → w < 2 ^ 31 → 0 ≤ r < 2 ^ s →
  -64 ≤ z < 64 → is_signed w (z * 2 ^ s) →
  read_signed w limit (z mod 128 :: rest) r s pos = Ok (r + z * 2 ^ s, S pos).
Proof.
  intros Hs Hw Hr Hz Hzs. pose proof (Z.mod_pos_bound z 128 ltac:(lia)) as Hm.
  pose proof (Z.div_mod z 128 ltac:(lia)).
  cbn -[Z.land Z.mul Z.pow Z.modulo].
  destruct (byte_last (z mod 128)) as [-> ->]; [done|].
  assert (u32 (s + 7) = s + 7) as -> by (apply wrap_small; split; lia).
  rewrite byte_sign by done. do 2 f_equal.
  destruct (Z.ltb_spec (s + 7) w) as [Hlt|Hge]; cbn -[Z.mul Z.pow Z.modulo].
  - assert (2 ^ (s + 7) = 2 ^ s * 128) as Hp by (rewrite Z.pow_add_r by lia; done).
    assert (2 ^ (s + 7) ≤ 2 ^ (w - 1)) by (apply Z.pow_le_mono_r; lia).
    rewrite (shl_signed_small w (z mod 128)) by (try lia; unfold is_signed; nia).
    rewrite (lor_shiftl r) by lia.
    destruct (Z.ltb_spec (z mod 128) 64); simpl negb; cbv iota.
    + replace (z mod 128) with z by lia. done.
    + rewrite shl_signed_small by (try lia; unfold is_signed; lia).
      assert (z mod 128 * 2 ^ s ≤ 127 * 2 ^ s) by (apply Z.mul_le_mono_nonneg_r; lia).
      rewrite lor_shiftl by (rewrite ?Hp; nia).
      replace (z mod 128) with (z + 128) by lia. lia.
  - rewrite (shl_signed_top w z) by done. by apply lor_shiftl; lia.
Qed.

Lemma read_signed_leb w limit rest n : ∀ z r s pos,
  (0 < n)%nat → 0 ≤ s < w → w < 2 ^ 31 → 0 ≤ r < 2 ^ s →
  is_signed (7 * Z.of_nat n) z → is_signed w (z * 2 ^ s) →
  match limit with Some l => w ≤ l | None => True end →
  read_signed w limit (leb_s n z ++ rest) r s pos =
    Ok (r + z * 2 ^ s, (pos + length (leb_s n z))%nat).
Proof.
  induction n as [|n IH]; intros z r s pos Hn Hs Hw Hr Hz Hzs Hl; [lia|].
  assert (0 < 2 ^ s) by (apply Z.pow_pos_nonneg; lia).
  simpl leb_s. destruct ((-64 <=? z) && (z <? 64)) eqn:Hb.
  { rewrite Nat.add_1_r. apply read_signed_last; try done; lia. }
  assert (s + 7 < w) as Hsw.
  { destruct (Z.lt_ge_cases (s + 7) w); [done|]. exfalso.
    assert (2 ^ (w - 1) ≤ 2 ^ (s + 6)) by (apply Z.pow_le_mono_r; lia).
    rewrite Z.pow_add_r in * by lia. unfold is_signed in Hzs. nia. }
  pose proof (Z.mod_pos_bound z 128 ltac:(lia)) as Hm. pose proof (Z.div_mod z 128 ltac:(lia)).
  assert (2 ^ (s + 7) = 2 ^ s * 128) as Hp by (rewrite Z.pow_add_r by lia; done).
  assert (2 ^ (s + 7) ≤ 2 ^ (w - 1)) by (apply Z.pow_le_mono_r; lia).
  rewrite <-app_comm_cons. cbn -[Z.land Z.mul Z.pow Z.modulo].
  destruct (byte_more (z mod 128)) as [-> ->]; [done|].
  assert (u32 (s + 7) = s + 7) as -> by (apply wrap_small; split; lia).
  rewrite over_small by (destruct limit; lia).
  rewrite (shl_signed_small w (z mod 128)) by (try lia; unfold is_signed; nia).
  rewrite lor_shiftl by lia.
  replace (7 * Z.of_nat (S n)) with (7 + 7 * Z.of_nat n) in Hz by lia.
  unfold is_signed in Hz, Hzs. destruct n as [|n]; [simpl in Hz; lia|].
  replace (7 + 7 * Z.of_nat (S n) - 1) with (7 + (7 * Z.of_nat (S n) - 1)) in Hz by lia.
  rewrite (Z.pow_add_r 2 7) in Hz by lia.
  assert (z mod 128 * 2 ^ s ≤ 127 * 2 ^ s) by (apply Z.mul_le_mono_nonneg_r; lia).
  rewrite IH; rewrite ?Hp; [|lia|lia|lia|split; nia| | |done]; unfold is_signed.
  - f_equal. f_equal; [nia|simpl; lia].
  - lia.
  - assert (2 ^ (w - 1) = 2 ^ (w - 8 - s) * (2 ^ s * 128)) as E.
    { change 128 with (2 ^ 7). rewrite <-!Z.pow_add_r by lia. f_equal. lia. }
    rewrite E in *. set (K := 2 ^ (w - 8 - s)) in *. clearbody K.
    set (p := 2 ^ s) in *. clearbody p.
    assert (- (128 * K) ≤ z) by (apply (Z.mul_le_mono_pos_r _ _ p); lia).
    assert (z < 128 * K) by (apply (Z.mul_lt_mono_pos_r p); lia).
    rewrite <-Z.mul_opp_l. split.
    + apply Z.mul_le_mono_nonneg_r; lia.
    + apply Z.mul_lt_mono_pos_r; lia.
Qed.

(** ** What a reader returns *)

Lemma is_signed_shiftr w z : 0 < w → is_signed w z ↔ Z.shiftr z (w - 1) = 0 ∨ Z.shiftr z (w - 1) = -1.
Proof.
  intros Hw. rewrite Z.shiftr_div_pow2 by lia. unfold is_signed.
  assert (0 < 2 ^ (w - 1)) by (apply Z.pow_pos_nonneg; lia). set (p := 2 ^ (w - 1)) in *.
  pose proof (Z.div_mod z p ltac:(lia)). pose proof (Z.mod_pos_bound z p ltac:(lia)).
  split; [|intros [E|E]; rewrite E in *; lia].
  intros [Hl Hu]. assert (- 1 ≤ z / p) by (apply Z.div_le_lower_bound; lia).
  assert (z / p < 1) by (apply Z.div_lt_upper_bound; lia). lia.
Qed.

Lemma lor_signed w a b : 0 < w → is_signed w a → is_signed w b → is_signed w (Z.lor a b).
Proof.
  intros Hw. rewrite !is_signed_shiftr, Z.shiftr_lor by done.
  intros [-> | ->] [-> | ->]; auto.
Qed.

Lemma land_signed w a b : 0 < w → is_signed w a → is_signed w b → is_signed w (Z.land a b).
Proof.
  intros Hw. rewrite !is_signed_shiftr, Z.shiftr_land by done.
  intros [-> | ->] [-> | ->]; auto.
Qed.

Lemma lxor_signed w a b : 0 < w → is_signed w a → is_signed w b → is_signed w (Z.lxor a b).
Proof.
  intros Hw. rewrite !is_signed_shiftr, Z.shiftr_lxor by done.
  intros [-> | ->] [-> | ->]; auto.
Qed.
#[export] Hint Resolve lor_signed land_signed lxor_signed : kernel.

Lemma shl_signed_range w a b : 0 < w → is_signed w (shl_signed w a b).
Proof. apply signed_range. Qed.
#[export] Hint Resolve shl_signed_range : kernel.

(** Where the first byte without the continuation bit stands. *)
Definition last_byte (bytes : list Z) : option nat :=
  position (λ b, Z.land b 0x80 =? 0) bytes.

Lemma last_byte_cons b bytes :
  last_byte (b :: bytes) = if Z.land b 0x80 =? 0 then Some 0%nat else S <$> last_byte bytes.
Proof.
  unfold last_byte, position. simpl. destruct (Z.land b 0x80 =? 0); simpl; [done|].
  by destruct (list_find _ bytes) as [[]|].
Qed.

(** The budget of bytes the limit leaves from a shift on. *)
Lemma read_signed_outcome w l bytes : ∀ r s pos, 0 < w → l < 2 ^ 31 → 0 ≤ s < l → is_signed w r →
  match last_byte bytes with
  | Some i => if s + 7 * Z.of_nat i <? l
              then ∃ v, read_signed w (Some l) bytes r s pos = Ok (v, pos + S i)%nat ∧ is_signed w v
              else read_signed w (Some l) bytes r s pos = Err InvalidModule
  | None => read_signed w (Some l) bytes r s pos = Err InvalidModule
  end.
Proof.
  induction bytes as [|b bytes IH]; intros r s pos Hw Hl Hs Hr; [done|].
  rewrite last_byte_cons. cbn -[Z.land Z.mul Z.pow].
  assert (u32 (s + 7) = s + 7) as -> by (apply wrap_small; split; lia).
  destruct (Z.land b 0x80 =? 0); cbn -[Z.mul].
  - destruct (Z.ltb_spec (s + 7 * Z.of_nat 0) l); [|lia]. rewrite Nat.add_1_r.
    eexists. split; [done|]. destruct (_ && _); auto with kernel.
  - destruct (Z.leb_spec l (s + 7)) as [Hle|Hgt].
    + destruct (last_byte bytes); simpl; [|done].
      destruct (Z.ltb_spec (s + 7 * Z.of_nat (S n)) l); [lia|done].
    + specialize (IH (Z.lor r (shl_signed w (Z.land b 127) s)) (s + 7) (S pos) Hw Hl
        ltac:(lia) ltac:(auto with kernel)).
      destruct (last_byte bytes) as [i|]; simpl; [|done].
      replace (s + 7 * Z.of_nat (S i)) with (s + 7 + 7 * Z.of_nat i) by lia.
      replace (pos + S (S i))%nat with (S pos + S i)%nat by lia. done.
Qed.

Lemma read_unsigned_outcome l bytes : ∀ r s pos, l < 2 ^ 31 → 0 ≤ s < l → is_word 32 r →
  match last_byte bytes with
  | Some i => if s + 7 * Z.of_nat i <? l
              then ∃ v, read_unsigned (Some l) bytes r s pos = Ok (v, pos + S i)%nat ∧ is_word 32 v
              else read_unsigned (Some l) bytes r s pos = Err InvalidModule
  | None => read_unsigned (Some l) bytes r s pos = Err InvalidModule
  end.
Proof.
  induction bytes as [|b bytes IH]; intros r s pos Hl Hs Hr; [done|].
  rewrite last_byte_cons. cbn -[Z.land Z.mul Z.pow].
  assert (u32 (s + 7) = s + 7) as -> by (apply wrap_small; split; lia).
  assert (is_word 32 (Z.lor r (u32 (Z.shiftl (Z.land b 127) (s mod 32))))) as Hr'.
  { apply lor_word; [done..|]. by apply wrap_word. }
  destruct (Z.land b 0x80 =? 0); cbn -[Z.mul].
  - destruct (Z.ltb_spec (s + 7 * Z.of_nat 0) l); [|lia]. rewrite Nat.add_1_r. eauto.
  - destruct (Z.leb_spec l (s + 7)) as [Hle|Hgt].
    + destruct (last_byte bytes); simpl; [|done].
      destruct (Z.ltb_spec (s + 7 * Z.of_nat (S n)) l); [lia|done].
    + specialize (IH _ (s + 7) (S pos) Hl ltac:(lia) Hr').
      destruct (last_byte bytes) as [i|]; simpl; [|done].
      replace (s + 7 * Z.of_nat (S i)) with (s + 7 + 7 * Z.of_nat i) by lia.
      replace (pos + S (S i))%nat with (S pos + S i)%nat by lia. done.
Qed.

(** A reader takes the bytes up to the first one without the continuation bit, if
    that is among the first [k], and fails otherwise. *)
Definition reads_up_to (k : nat) (range : Z → Prop) (bytes : list Z)
    (r : Result (Z * nat) WaveError) : Prop :=
  match last_byte bytes with
  | Some i => if decide (i < k)%nat then ∃ v, r = Ok (v, S i) ∧ range v else r = Err InvalidModule
  | None => r = Err InvalidModule
  end.

Lemma read_leb128_i32_outcome bytes : reads_up_to 5 (is_signed 32) bytes (read_leb128_i32 bytes).
Proof.
  pose proof (read_signed_outcome 32 35 bytes 0 0 0) as H. unfold reads_up_to.
  specialize (H eq_refl eq_refl ltac:(lia) ltac:(done)).
  destruct (last_byte bytes) as [i|]; [|done].
  destruct (Z.ltb_spec (0 + 7 * Z.of_nat i) 35); case_decide; try lia; done.
Qed.

Lemma read_leb128_i64_outcome bytes : reads_up_to 10 (is_signed 64) bytes (read_leb128_i64 bytes).
Proof.
  pose proof (read_signed_outcome 64 70 bytes 0 0 0) as H. unfold reads_up_to.
  specialize (H eq_refl eq_refl ltac:(lia) ltac:(done)).
  destruct (last_byte bytes) as [i|]; [|done].
  destruct (Z.ltb_spec (0 + 7 * Z.of_nat i) 70); case_decide; try lia; done.
Qed.

Lemma read_leb128_u32_outcome bytes : reads_up_to 5 (is_word 32) bytes (read_leb128_u32 bytes).
Proof.
  pose proof (read_unsigned_outcome 35 bytes 0 0 0) as H. unfold reads_up_to.
  specialize (H eq_refl ltac:(lia) ltac:(done)).
  destruct (last_byte bytes) as [i|]; [|done].
  destruct (Z.ltb_spec (0 + 7 * Z.of_nat i) 35); case_decide; try lia; done.
Qed.

Lemma reads_up_to_Ok k range bytes v n :
  reads_up_to k range bytes (Ok (v, n)) → range v ∧ (0 < n ≤ k)%nat ∧ (n ≤ length bytes)%nat.
Proof.
  unfold reads_up_to, last_byte. destruct (position _ bytes) as [i|] eqn:E; [|done].
  case_decide; [|done]. intros (v' & [= -> ->] & Hv).
  apply position_Some in E as (b & Hb%lookup_lt_Some & _). split_and!; [done|lia..].
Qed.

Lemma reads_up_to_Err k range bytes e : reads_up_to k range bytes (Err e) → e = InvalidModule.
Proof.
  unfold reads_up_to. destruct (last_byte bytes); [case_decide|]; naive_solver.
Qed.

(** ** Theorems *)

Lemma length_leb_u n : ∀ z, (length (leb_u n z) ≤ n)%nat.
Proof. induction n as [|n IH]; intros z; simpl; [lia|]. destruct (_ <? _); simpl; [lia|]. specialize (IH (z / 128)). lia. Qed.

Lemma length_encode_u32 z : (length (encode_u32 z) ≤ 5)%nat.
Proof. apply length_leb_u. Qed.

Lemma read_encode_u32 v rest : is_word 32 v →
  read_leb128_u32 (encode_u32 v ++ rest) = Ok (v, length (encode_u32 v)).
Proof.
  intros [??]. unfold read_leb128_u32, encode_u32.
  rewrite read_unsigned_leb by (try lia; simpl; lia). do 2 f_equal. lia.
Qed.

Lemma read_encode_i32 v rest : is_signed 32 v →
  read_leb128_i32 (encode_i32 v ++ rest) = Ok (v, length (encode_i32 v)).
Proof.
  intros Hv. unfold read_leb128_i32, encode_i32.
  rewrite read_signed_leb; rewrite ?Z.mul_1_r; try done; try lia.
  unfold is_signed in *. simpl in *. lia.
Qed.

Lemma read_encode_i64 v rest : is_signed 64 v →
  read_leb128_i64 (encode_i64 v ++ rest) = Ok (v, length (encode_i64 v)).
Proof.
  intros Hv. unfold read_leb128_i64, encode_i64.
  rewrite read_signed_leb; rewrite ?Z.mul_1_r; try done; try lia.
  unfold is_signed in *. simpl in *. lia.
Qed.

Lemma jit_read_encode_i32 v rest : is_signed 32 v →
  jit_read_leb128_i32 (encode_i32 v ++ rest) = Ok (v, length (encode_i32 v)).
Proof.
  intros Hv. unfold jit_read_leb128_i32, encode_i32.
  rewrite read_signed_leb; rewrite ?Z.mul_1_r; try done; try lia.
  unfold is_signed in *. simpl in *. lia.
Qed.

Lemma jit_read_encode_u32 v rest : is_word 32 v →
  jit_read_leb128_u32 (encode_u32 v ++ rest) = Ok (v, length (encode_u32 v)).
Proof.
  intros [??]. unfold jit_read_leb128_u32, encode_u32.
  rewrite read_unsigned_leb by (try lia; simpl; lia). do 2 f_equal. lia.
Qed.

(** The LEB128 readers invert the encoding of the WASM specification: every
    value of the type, followed by anything, is read back with exactly its own bytes
    consumed; the baseline compiler's readers agree. And a reader is total: it takes
    the bytes up to the first one without the continuation bit if that is among the
    first five (ten for 64 bits), returning a value of the type, and rejects the
    module otherwise. *)
Theorem leb128_roundtrip :
  (∀ v rest, is_word 32 v →
     read_leb128_u32 (encode_u32 v ++ rest) = Ok (v, length (encode_u32 v)) ∧
     jit_read_leb128_u32 (encode_u32 v ++ rest) = Ok (v, length (encode_u32 v))) ∧
  (∀ v rest, is_signed 32 v →
     read_leb128_i32 (encode_i32 v ++ rest) = Ok (v, length (encode_i32 v)) ∧
     jit_read_leb128_i32 (encode_i32 v ++ rest) = Ok (v, length (encode_i32 v))) ∧
  (∀ v rest, is_signed 64 v →
     read_leb128_i64 (encode_i64 v ++ rest) = Ok (v, length (encode_i64 v))) ∧
  (∀ bytes, reads_up_to 5 (is_word 32) bytes (read_leb128_u32 bytes) ∧
            reads_up_to 5 (is_signed 32) bytes (read_leb128_i32 bytes) ∧
            reads_up_to 10 (is_signed 64) bytes (read_leb128_i64 bytes)).
Proof.
  split_and!; intros; auto using read_encode_u32, read_encode_i32, read_encode_i64,
    jit_read_encode_u32, jit_read_encode_i32, read_leb128_u32_outcome,
    read_leb128_i32_outcome, read_leb128_i64_outcome.
Qed.

Lemma leb128_roundtrip_witness :
  is_word 32 300 ∧ read_leb128_u32 (encode_u32 300 ++ [7]) = Ok (300, 2%nat) ∧
  is_signed 64 (-129) ∧ read_leb128_i64 (encode_i64 (-129) ++ []) = Ok (-129, 2%nat).
Proof.
  split_and!.
  - by split.
  - apply (proj1 leb128_roundtrip). by split.
  - by split.
  - apply (proj1 (proj2 (proj2 leb128_roundtrip))). by split.
Defined.

(** Bits of the fifth byte above bit 31 are dropped, where the specification asks for
    them to be zero. *)
Lemma leb128_excess_bits : read_leb128_u32 [0x80; 0x80; 0x80; 0x80; 0x70] = Ok (0, 5%nat).
Proof. reflexivity. Qed.

(** The compiler's readers take encodings of any length, where the interpreter's
    refuse the module: a sixth byte is shifted by 35 modulo 32. *)
Lemma leb128_jit_overlong :
  jit_read_leb128_u32 [0x80; 0x80; 0x80; 0x80; 0x80; 0x01] = Ok (8, 6%nat) ∧
  read_leb128_u32 [0x80; 0x80; 0x80; 0x80; 0x80; 0x01] = Err InvalidModule.
Proof. split; reflexivity. Qed.
