(* ===== verification/WaveInst.v ===== *)
(** * WaveInst: instances of the WASM runtime and their host calls
    ([runtime/wave/src/lib.rs])

    [Instance] with its linear memory, and [invoke_host_function]: the only way a module
    reaches the outside. What leaves the sandbox is a trace of [OsEvent]s; what the
    kernel and the hardware answer (system calls, the time-stamp counter) is a function
    of the trace, a field of [Platform]. The busy wait for the serial port is left out.

    An operation returns a value or stops: with an error, by a panic, or because the
    code reaches undefined behaviour. *)

From Stdlib Require Import ZArith Lia String Ascii.
From stdpp Require Import list strings gmap.
From S2P Require Import Prelude.
From S2P Require Import Ids.
From S2P Require Import Bytes.
From S2P Require Import Utf8.
From S2P Require Import WaveValue.
From S2P Require Import WaveHost.

(** ** The outside *)

Inductive OsEvent :=
| Timestamp
| Serial (b : Z)
| Spawn (path : list Z)
| WaitPid (pid : Z)
| Kill (pid signal : Z)
| GetPid.

(** Answers of the kernel to an event after a trace (newest first), and the bits of the
    NaN that arithmetic on two operands may give. *)
Class Platform := {
  os_reply : list OsEvent → OsEvent → Z;
  nan32 : Z → Z → Z;
  nan64 : Z → Z → Z
}.

(** ** Instances *)

(** [splax_cap]'s token is four words, like the kernel's. *)
Record BoundImport := mkImport { import_name : string; import_capability : CapabilityToken }.

Record BoundHostFunction := mkBound { function : HostFunction; capability : CapabilityToken }.

Definition is_null (t : CapabilityToken) : bool :=
  (tok0 t =? 0) && (tok1 t =? 0) && (tok2 t =? 0) && (tok3 t =? 0).

Inductive LabelKind := Block | Loop | If.
#[global] Instance LabelKind_eq_dec : EqDecision LabelKind.
Proof. solve_decision. Defined.

Record Label := mkLabel { kind : LabelKind; target : nat; arity : Z; stack_height : nat }.

Record CallFrame := mkFrame {
  function_index : Z; return_ip : nat; locals : list WasmValue; labels : list Label
}.

Inductive InstanceState := Ready | Running | Suspended | Terminated.
#[global] Instance InstanceState_eq_dec : EqDecision InstanceState.
Proof. solve_decision. Defined.

(** [jit]: whether the compiler exists; the instance never runs it. *)
Record Instance_ := mkInst {
  inst_id : Z;
  module_id : Z;
  imports : list BoundImport;
  host_functions : list BoundHostFunction;
  memory : list Z;
  globals : list WasmValue;
  call_stack : list CallFrame;
  value_stack : list WasmValue;
  state : InstanceState;
  steps_executed : Z;
  max_steps : Z;
  jit : bool;
  execution_counts : gmap Z Z;
  jit_enabled : bool
}.

Definition with_memory m i := mkInst (inst_id i) (module_id i) (imports i) (host_functions i) m
  (globals i) (call_stack i) (value_stack i) (state i) (steps_executed i) (max_steps i) (jit i)
  (execution_counts i) (jit_enabled i).
Definition with_globals g i := mkInst (inst_id i) (module_id i) (imports i) (host_functions i)
  (memory i) g (call_stack i) (value_stack i) (state i) (steps_executed i) (max_steps i) (jit i)
  (execution_counts i) (jit_enabled i).
Definition with_calls c i := mkInst (inst_id i) (module_id i) (imports i) (host_functions i)
  (memory i) (globals i) c (value_stack i) (state i) (steps_executed i) (max_steps i) (jit i)
  (execution_counts i) (jit_enabled i).
Definition with_stack v i := mkInst (inst_id i) (module_id i) (imports i) (host_functions i)
  (memory i) (globals i) (call_stack i) v (state i) (steps_executed i) (max_steps i) (jit i)
  (execution_counts i) (jit_enabled i).
Definition with_state s i := mkInst (inst_id i) (module_id i) (imports i) (host_functions i)
  (memory i) (globals i) (call_stack i) (value_stack i) s (steps_executed i) (max_steps i) (jit i)
  (execution_counts i) (jit_enabled i).
Definition with_steps n i := mkInst (inst_id i) (module_id i) (imports i) (host_functions i)
  (memory i) (globals i) (call_stack i) (value_stack i) (state i) n (max_steps i) (jit i)
  (execution_counts i) (jit_enabled i).
Definition with_counts c i := mkInst (inst_id i) (module_id i) (imports i) (host_functions i)
  (memory i) (globals i) (call_stack i) (value_stack i) (state i) (steps_executed i) (max_steps i)
  (jit i) c (jit_enabled i).
Definition with_jit j e i := mkInst (inst_id i) (module_id i) (imports i) (host_functions i)
  (memory i) (globals i) (call_stack i) (value_stack i) (state i) (steps_executed i) (max_steps i)
  j (execution_counts i) e.

Definition reset_execution (i : Instance_) : Instance_ :=
  with_state Ready (with_steps 0 (with_stack [] (with_calls [] i))).

Definition set_jit_enabled (enabled : bool) (i : Instance_) : Instance_ :=
  with_jit (if enabled then true else jit i) enabled i.

(** ** The monad *)

Record World := mkWorld { inst : Instance_; trace : list OsEvent }.

(** [Diverges] is what the bounded loop of the interpreter would return if it ran out;
    it never does. *)
Inductive Stop := Fail (e : WaveError) | Panics | Undefined | Diverges.

Definition M (A : Type) : Type := op World Stop A.

Definition ret {A} (a : A) : M A := op_ret a.
Definition fail {A} (e : WaveError) : M A := op_err (Fail e).
Definition panic {A} : M A := op_err Panics.
Definition gets {A} (f : Instance_ → A) : M A := λ w, (w, Ok (f (inst w))).
Definition modify (f : Instance_ → Instance_) : M unit :=
  λ w, (mkWorld (f (inst w)) (trace w), Ok tt).

(** [opt.ok_or(e)?]. *)
Definition some_or {A} (o : option A) (e : WaveError) : M A :=
  match o with Some a => ret a | None => fail e end.
(** Indexing and slicing: out of range panics. *)
Definition some_or_panic {A} (o : option A) : M A :=
  match o with Some a => ret a | None => panic end.

Definition slice (l : list Z) (lo hi : Z) : option (list Z) :=
  if (0 <=? lo) && (lo <=? hi) && (hi <=? Z.of_nat (length l))
  then Some (take (Z.to_nat (hi - lo)) (drop (Z.to_nat lo) l)) else None.

(** Handing an event to the outside. *)
Definition emit `{Platform} (e : OsEvent) : M Z :=
  λ w, (mkWorld (inst w) (e :: trace w), Ok (os_reply (trace w) e)).

Fixpoint emit_all `{Platform} (es : list OsEvent) : M unit :=
  match es with
  | [] => ret tt
  | e :: es => (do! emit e in emit_all es)%op
  end.

(** ** Linear memory *)

Definition memory_len (i : Instance_) : Z := Z.of_nat (length (memory i)).

Definition read_memory (offset length : Z) : M (list Z) :=
  (let! m := gets memory in
   let! n := gets memory_len in
   if n <? u64_add offset length then fail MemoryAccessOutOfBounds
   else some_or_panic (slice m offset (u64_add offset length)))%op.

(** [copy_from_slice] into [memory[offset..offset + data.len()]]. *)
Definition copy_to_memory (offset : Z) (data : list Z) : M unit :=
  (let! m := gets memory in
   let! _ := some_or_panic (slice m offset (u64_add offset (Z.of_nat (length data)))) in
   modify (with_memory (splice (Z.to_nat offset) data m)))%op.

Definition write_memory (offset : Z) (data : list Z) : M unit :=
  (let! n := gets memory_len in
   if n <? u64_add offset (Z.of_nat (length data)) then fail MemoryAccessOutOfBounds
   else copy_to_memory offset data)%op.

Definition memory_pages (i : Instance_) : Z := u32 (memory_len i / 65536).

(** [pages] is a [u32]; [old_pages + pages] wraps. [Vec::resize] panics beyond
    [isize::MAX] bytes; below, allocation is taken to succeed. *)
Definition grow_memory (pages : Z) : M Z :=
  (let! old_pages := gets memory_pages in
   let! n := gets memory_len in
   let! m := gets memory in
   let new_size := u64_add n (u64_mul pages 65536) in
   if 65536 <? u32 (old_pages + pages) then fail OutOfMemory
   else if 2 ^ 63 <=? new_size then panic
   else do! modify (with_memory (resize (Z.to_nat new_size) 0 m)) in
        ret old_pages)%op.

(** ** The value stack *)

Definition push (v : WasmValue) : M unit :=
  modify (λ i, with_stack (value_stack i ++ [v]) i).

(** [value_stack.pop().ok_or(TypeMismatch)?]. *)
Definition pop : M WasmValue :=
  (let! vs := gets value_stack in
   match vec_pop vs with
   | Some (v, vs') => do! modify (with_stack vs') in ret v
   | None => fail TypeMismatch
   end)%op.

Fixpoint push_all (vs : list WasmValue) : M unit :=
  match vs with
  | [] => ret tt
  | v :: vs => (do! push v in push_all vs)%op
  end.

(** [n] values popped and reversed: arguments in the order they were pushed. *)
Fixpoint pop_args (n : nat) (args : list WasmValue) : M (list WasmValue) :=
  match n with
  | O => ret args
  | S n => (let! v := pop in pop_args n (v :: args))%op
  end.

Definition count_step : M unit :=
  modify (λ i, with_steps (u64_add (steps_executed i) 1) i).

(** ** Host functions *)

Section host.
Context `{Platform}.

(** [args[k].as_i32().unwrap_or(d)], the index checked before. *)
Definition arg_i32 (args : list WasmValue) (k : nat) (d : Z) : Z :=
  default d (args !! k ≫= as_i32).
Definition arg_i64 (args : list WasmValue) (k : nat) (d : Z) : Z :=
  default d (args !! k ≫= as_i64).
(** [args.get(k).map(|v| v.to_i32()).unwrap_or(0)]. *)
Definition arg_to_i32 (args : list WasmValue) (k : nat) : Z :=
  default 0 (to_i32 <$> args !! k).

Definition get_timestamp : M Z := (let! r := emit Timestamp in ret (u64 r))%op.
Definition syscall_spawn (path : list Z) : M Z := (let! r := emit (Spawn path) in ret (i64 r))%op.
Definition syscall_waitpid (pid : Z) : M Z := (let! r := emit (WaitPid pid) in ret (i32 (i64 r)))%op.
Definition syscall_kill (pid signal : Z) : M Z :=
  (let! r := emit (Kill pid signal) in ret (i32 (i64 r)))%op.
Definition syscall_getpid : M Z := (let! r := emit GetPid in ret (i64 r))%op.

Definition level_str (level : Z) : string :=
  match level with 0 => "ERROR" | 1 => "WARN" | 2 => "INFO" | 3 => "DEBUG" | _ => "TRACE" end.

(** [s_log], on x86_64: to the serial port. *)
Definition host_log (args : list WasmValue) : M (list WasmValue) :=
  (if decide (3 ≤ length args)%nat then
     let level := arg_i32 args 0 0 in
     let ptr := u64 (arg_i32 args 1 0) in
     let len := u64 (arg_i32 args 2 0) in
     let! m := gets memory in
     if u64_add ptr len <=? Z.of_nat (length m) then
       let! msg_bytes := some_or_panic (slice m ptr (u64_add ptr len)) in
       let prefix := ("[WASM " ++ level_str level ++ "] ")%string in
       do! emit_all (Serial <$> bytes_of_string prefix) in
       do! emit_all (Serial <$> msg_bytes) in
       do! emit (Serial 10) in
       ret []
     else ret []
   else ret [])%op.

Definition host_spawn (args : list WasmValue) : M (list WasmValue) :=
  (if decide (2 ≤ length args)%nat then
     let path_ptr := u64 (arg_i32 args 0 0) in
     let path_len := u64 (arg_i32 args 1 0) in
     let! m := gets memory in
     if u64_add path_ptr path_len <=? Z.of_nat (length m) then
       let! path := some_or_panic (slice m path_ptr (u64_add path_ptr path_len)) in
       let! pid := syscall_spawn path in
       ret [I64 pid]
     else ret [I64 (-1)]
   else ret [I64 (-1)])%op.

Definition host_wait (args : list WasmValue) : M (list WasmValue) :=
  (match args !! 0%nat ≫= as_i64 with
   | Some pid => let! status := syscall_waitpid pid in ret [I32 status]
   | None => ret [I32 (-1)]
   end)%op.

Definition host_kill (args : list WasmValue) : M (list WasmValue) :=
  (if decide (2 ≤ length args)%nat then
     let pid := arg_i64 args 0 (-1) in
     let signal := arg_i32 args 1 9 in
     let! result := syscall_kill pid signal in
     ret [I32 result]
   else ret [I32 (-1)])%op.

(** Does a bound function's capability match the name asked for, exactly or as a prefix
    up to a colon, in either direction? *)
Definition cap_matches (cap_type : string) (bf : BoundHostFunction) : bool :=
  let required := required_capability (function bf) in
  String.eqb required cap_type
  || String.prefix (cap_type ++ ":")%string required
  || String.prefix (required ++ ":")%string cap_type.

Definition host_cap_check (args : list WasmValue) : M (list WasmValue) :=
  (if decide (2 ≤ length args)%nat then
     let ptr := arg_i32 args 0 (-1) in
     let len := arg_i32 args 1 (-1) in
     if (ptr <? 0) || (len <? 0) then ret [I32 (-1)]
     else
       let! m := gets memory in
       if (Z.of_nat (length m) <? u64_add ptr len) || (256 <? len) then ret [I32 (-1)]
       else
         let! cap_type_bytes := some_or_panic (slice m ptr (u64_add ptr len)) in
         let cap_type := default ""%string (from_utf8 cap_type_bytes) in
         let! hs := gets host_functions in
         ret [I32 (if existsb (cap_matches cap_type) hs then 1 else 0)]
   else ret [I32 (-1)])%op.

Definition host_cap_request (args : list WasmValue) : M (list WasmValue) :=
  (if decide (2 ≤ length args)%nat then
     let ptr := arg_i32 args 0 (-1) in
     let len := arg_i32 args 1 (-1) in
     if (ptr <? 0) || (len <? 0) || (256 <? len) then ret [I64 0]
     else
       let! m := gets memory in
       if Z.of_nat (length m) <? u64_add ptr len then ret [I64 0]
       else
         do! some_or_panic (slice m ptr (u64_add ptr len)) in
         ret [I64 0]
   else ret [I64 0])%op.

Definition host_cap_delegate (args : list WasmValue) : M (list WasmValue) :=
  (if decide (2 ≤ length args)%nat then
     let cap_id := u64 (arg_i64 args 0 0) in
     let! hs := gets host_functions in
     match find (λ bf, tok0 (capability bf) =? cap_id) hs with
     | Some bf => if negb (is_null (capability bf)) then ret [I64 0] else ret [I64 0]
     | None => ret [I64 0]
     end
   else ret [I64 0])%op.

Definition host_mem_free : M (list WasmValue) :=
  (let! current_bytes := gets memory_len in
   let current_pages := current_bytes / 65536 in
   let available_pages := sat_sub 65536 current_pages in
   ret [I64 (i64 (u64_mul available_pages 65536))])%op.

Definition host_time : M (list WasmValue) :=
  (let! timestamp := get_timestamp in ret [I64 (i64 timestamp)])%op.

Definition host_uptime : M (list WasmValue) :=
  (let! timestamp := get_timestamp in ret [I64 (i64 (timestamp / 1000000000))])%op.

(** The [match] of [invoke_host_function]. *)
Definition host_dispatch (func : HostFunction) (args : list WasmValue) : M (list WasmValue) :=
  (let arity n r := if decide (n ≤ length args)%nat then ret r else fail TypeMismatch in
   match func with
   | SLinkSend | SLinkReceive => arity 3%nat [I32 0]
   | SStorageRead => arity 4%nat [I32 (-1)]
   | SStorageWrite => arity 4%nat [I32 0]
   | SLog => host_log args
   | STimeNow | STimeMonotonic | STimeReal => host_time
   | SSleep => do! modify (with_state Suspended) in ret []
   | SPrint | SRandom => ret [I32 (arg_to_i32 args 1)]
   | SRead => ret [I32 0]
   | SExit => do! modify (with_state Terminated) in ret []
   | SGetEnv | SFileOpen | SFileRead | SFileWrite => ret [I32 (-1)]
   | SFileClose => ret [I32 0]
   | SFileSize => ret [I64 (-1)]
   | SNetConnect | SNetSend | SNetRecv => ret [I32 (-1)]
   | SNetClose => ret [I32 0]
   | SProcessSpawn => host_spawn args
   | SProcessWait => host_wait args
   | SProcessKill => host_kill args
   | SProcessGetPid => let! pid := syscall_getpid in ret [I64 pid]
   | SProcessGetPpid => ret [I64 1]
   | SProcessFork => ret [I64 (-1)]
   | SMemAlloc | SMemFree => ret [I32 0]
   | SMemGrow => ret [I32 (-1)]
   | SMemSize => let! n := gets memory_len in ret [I32 (i32 (n / 65536))]
   | SFsMkdir | SFsRmdir | SFsUnlink | SFsRename | SFsStat | SFsReadDir | SFsSync
   | SFsTruncate | SFsChdir => ret [I32 (-1)]
   | SFsSeek => ret [I64 (-1)]
   | SFsGetCwd => ret [I32 (-1)]
   | SNetSocket | SNetBind | SNetListen | SNetAccept | SNetSetsockopt | SNetGetpeername
   | SNetResolve | SNetSendto | SNetRecvfrom => ret [I32 (-1)]
   | SThreadCreate | SThreadJoin => ret [I32 (-1)]
   | SThreadExit | SThreadYield => ret []
   | SThreadGetId | SThreadSleep => ret [I32 0]
   | SSyncMutexCreate | SSyncMutexLock | SSyncMutexUnlock | SSyncMutexDestroy
   | SSyncFutexWait => ret [I32 (-1)]
   | SSyncFutexWake => ret [I32 0]
   | SCapCheck => host_cap_check args
   | SCapRequest => host_cap_request args
   | SCapRevoke => ret [I32 (-1)]
   | SCapDelegate => host_cap_delegate args
   | SServiceRegister | SServiceDiscover | SServiceUnregister => ret [I32 (-1)]
   | STimerCreate | STimerCancel | SSysInfo => ret [I32 (-1)]
   | SSysCpuCount => ret [I32 1]
   | SSysMemFree => host_mem_free
   | SSysUptime => host_uptime
   | SDebugPrint => ret [I32 0]
   | SDebugBreak => ret []
   | SProfileStart => ret [I32 0]
   | SProfileStop => ret [I64 0]
   end)%op.

Definition invoke_host_function (func : HostFunction) (args : list WasmValue) :
    M (list WasmValue) :=
  (let! hs := gets host_functions in
   if negb (existsb (λ bf, bool_decide (function bf = func)) hs) then fail InvalidCapability
   else
     let! steps := gets steps_executed in
     let! limit := gets max_steps in
     if limit <=? steps then fail ExecutionLimit
     else do! count_step in host_dispatch func args)%op.

(** Popping a function's arguments and invoking it: [call] and host functions by name. *)
Definition call_host (func : HostFunction) : M (list WasmValue) :=
  (let! args := pop_args (length (params (signature func))) [] in
   let! results := invoke_host_function func args in
   do! push_all results in
   ret results)%op.
End host.

(** ** What every operation keeps

    [instance_ok] is what Rust's types promise; [inv base t0 n] relates an instance to
    the one it started as: what was bound stays bound and nothing is added, memory only
    grows by whole pages, at least [n] steps are counted, and everything that left the
    sandbox is authorised by a binding. *)

Definition frame_ok (f : CallFrame) : Prop := Forall value_ok (locals f).

Record instance_ok (i : Instance_) : Prop := {
  ok_memory : Forall is_byte (memory i);
  ok_memory_len : memory_len i < 2 ^ 63;
  ok_globals : Forall value_ok (globals i);
  ok_stack : Forall value_ok (value_stack i);
  ok_calls : Forall frame_ok (call_stack i);
  ok_max_steps : is_u64 (max_steps i)
}.

(** The host functions that may cause an event. *)
Definition event_sources (e : OsEvent) : list HostFunction :=
  match e with
  | Timestamp => [STimeNow; STimeMonotonic; STimeReal; SSysUptime]
  | Serial _ => [SLog]
  | Spawn _ => [SProcessSpawn]
  | WaitPid _ => [SProcessWait]
  | Kill _ _ => [SProcessKill]
  | GetPid => [SProcessGetPid]
  end.

Definition authorised (hs : list BoundHostFunction) (e : OsEvent) : Prop :=
  ∃ bf, bf ∈ hs ∧ function bf ∈ event_sources e.

Record inv (base : Instance_) (t0 : list OsEvent) (n : Z) (w : World) : Prop := {
  inv_ok : instance_ok (inst w);
  inv_id : inst_id (inst w) = inst_id base ∧ module_id (inst w) = module_id base;
  inv_imports : imports (inst w) = imports base;
  inv_host : host_functions (inst w) = host_functions base;
  inv_max : max_steps (inst w) = max_steps base;
  inv_steps : n ≤ steps_executed (inst w);
  inv_limit : steps_executed (inst w) ≤ Z.max (steps_executed base) (max_steps base);
  inv_memory : ∃ k, 0 ≤ k ∧ memory_len (inst w) = memory_len base + 65536 * k;
  inv_trace : ∃ t, trace w = t ++ t0 ∧ Forall (authorised (host_functions base)) t
}.

(** Whether the code holds what the language leaves undefined: a parameter of the judgment. *)
Class Undefinable := undefinable : Prop.

Section keeps.
Context `{!Undefinable} (base : Instance_) (t0 : list OsEvent) (n : Z).

(** [m] keeps the invariant whatever it returns, never diverges, runs into undefined
    behaviour only where the code holds it, and a value it returns satisfies [post]. *)
Definition stops_well (e : Stop) : Prop := e ≠ Diverges ∧ (e = Undefined → undefinable).

Definition keeps {A} (m : M A) (post : A → Prop) : Prop :=
  ∀ w, inv base t0 n w →
    inv base t0 n (m w).1 ∧ match (m w).2 with Ok a => post a | Err e => stops_well e end.

Lemma keeps_ret {A} (a : A) (post : A → Prop) : post a → keeps (ret a) post.
Proof. intros Ha w Hw. done. Qed.

Lemma keeps_fail {A} e (post : A → Prop) : keeps (fail e) post.
Proof. by intros w Hw. Qed.

Lemma keeps_panic {A} (post : A → Prop) : keeps panic post.
Proof. intros w Hw. done. Qed.

Lemma keeps_err {A} e (post : A → Prop) : stops_well e → keeps (op_err e) post.
Proof. intros He w Hw. done. Qed.

Lemma keeps_bind {A B} (m : M A) (k : A → M B) mid post :
  keeps m mid → (∀ a, mid a → keeps (k a) post) → keeps (op_bind m k) post.
Proof.
  intros Hm Hk w Hw. unfold op_bind. specialize (Hm w Hw).
  destruct (m w) as [w' [a|e]]; simpl in *; [|naive_solver].
  destruct Hm as [Hw' Ha]. by apply (Hk a Ha).
Qed.

Lemma keeps_weaken {A} (m : M A) (post post' : A → Prop) :
  keeps m post → (∀ a, post a → post' a) → keeps m post'.
Proof.
  intros Hm Hp w Hw. destruct (Hm w Hw) as [? Ha]. split; [done|].
  destruct (m w).2; auto.
Qed.

Lemma keeps_if {A} (b : bool) (m1 m2 : M A) post :
  keeps m1 post → keeps m2 post → keeps (if b then m1 else m2) post.
Proof. by destruct b. Qed.

Lemma keeps_decide {A} (P : Prop) `{Decision P} (m1 m2 : M A) post :
  keeps m1 post → keeps m2 post → keeps (if decide P then m1 else m2) post.
Proof. by case_decide. Qed.

Lemma keeps_gets {A} (f : Instance_ → A) (post : A → Prop) :
  (∀ i, instance_ok i → post (f i)) → keeps (gets f) post.
Proof. intros Hf w Hw. split; [done|]. simpl. apply Hf, Hw. Qed.

Lemma keeps_gets_any {A} (f : Instance_ → A) : keeps (gets f) (λ _, True).
Proof. by apply keeps_gets. Qed.

Lemma keeps_some_or {A} (o : option A) e post :
  from_option post True o → keeps (some_or o e) post.
Proof. destruct o; simpl; intros; [by apply keeps_ret|apply keeps_fail]. Qed.

Lemma keeps_some_or_panic {A} (o : option A) post :
  from_option post True o → keeps (some_or_panic o) post.
Proof. destruct o; simpl; intros; [by apply keeps_ret|apply keeps_panic]. Qed.

(** Replacing a part of the instance. *)
Lemma keeps_modify f :
  (∀ i, instance_ok i → instance_ok (f i) ∧ inst_id (f i) = inst_id i ∧
        module_id (f i) = module_id i ∧ imports (f i) = imports i ∧
        host_functions (f i) = host_functions i ∧ max_steps (f i) = max_steps i ∧
        steps_executed (f i) = steps_executed i ∧
        ∃ k, 0 ≤ k ∧ memory_len (f i) = memory_len i + 65536 * k) →
  keeps (modify f) (λ _, True).
Proof.
  intros Hf w Hw. split; [|done]. simpl. destruct Hw as [Hok [Hid Hmod] Him Hho Hmax Hst Hli [k [Hk Hm]] Ht].
  destruct (Hf _ Hok) as (? & ? & ? & ? & ? & ? & Hs & k' & ? & Hm').
  split; simpl; rewrite ?Hs; try congruence; auto; [split; congruence|].
  exists (k + k'). lia.
Qed.

(** Changes of the execution state only. *)
Lemma keeps_stack vs : Forall value_ok vs → keeps (modify (with_stack vs)) (λ _, True).
Proof.
  intros Hv. apply keeps_modify. intros i []. split_and!; try done. exists 0. unfold memory_len. simpl. lia.
Qed.

Lemma keeps_push v : value_ok v → keeps (push v) (λ _, True).
Proof.
  intros Hv. apply keeps_modify. intros i [Hm Hg Hs Hc]. split_and!; try done.
  - constructor; try done. apply Forall_app. split; [done|]. by constructor.
  - exists 0. unfold memory_len. simpl. lia.
Qed.

Lemma keeps_pop : keeps pop value_ok.
Proof.
  apply keeps_bind with (mid := Forall value_ok).
  { apply keeps_gets. by intros i []. }
  intros vs Hvs. destruct (vec_pop vs) as [[v vs']|] eqn:E; [|apply keeps_fail].
  apply vec_pop_Some in E as ->. apply Forall_app in Hvs as [Hvs' Hv].
  rewrite Forall_singleton in Hv.
  eapply keeps_bind; [by apply keeps_stack|]. intros _ _. by apply keeps_ret.
Qed.

Lemma keeps_push_all vs : Forall value_ok vs → keeps (push_all vs) (λ _, True).
Proof.
  induction 1; simpl; [by apply keeps_ret|]. eapply keeps_bind; [by apply keeps_push|auto].
Qed.

Lemma keeps_pop_args k : ∀ args, Forall value_ok args →
  keeps (pop_args k args) (λ l, Forall value_ok l ∧ length l = (k + length args)%nat).
Proof.
  induction k as [|k IH]; intros args Ha; simpl; [by apply keeps_ret|].
  eapply keeps_bind; [apply keeps_pop|]. intros v Hv. simpl.
  eapply keeps_weaken; [by apply IH; constructor|]. simpl. intros l [? ->]. split; [done|lia].
Qed.

Lemma keeps_emit `{Platform} e :
  authorised (host_functions base) e → keeps (emit e) (λ _, True).
Proof.
  intros He w [? ? ? ? ? ? ? ? (t & Ht & Hall)]. split; [|done]. split; try done. simpl.
  exists (e :: t). rewrite Ht. split; [done|]. by constructor.
Qed.

Lemma keeps_emit_all `{Platform} es :
  Forall (authorised (host_functions base)) es → keeps (emit_all es) (λ _, True).
Proof.
  induction 1; simpl; [by apply keeps_ret|]. eapply keeps_bind; [by apply keeps_emit|auto].
Qed.

Lemma gets_bind {A B} (f : Instance_ → A) (k : A → M B) w :
  op_bind (gets f) k w = k (f (inst w)) w.
Proof. done. Qed.

(** A step below the limit is counted without wrapping. *)
Lemma inv_count w : inv base t0 n w → 0 ≤ n → steps_executed (inst w) < max_steps (inst w) →
  inv base t0 (steps_executed (inst w) + 1) (count_step w).1.
Proof.
  intros [Hok [Hid Hmod] Him Hho Hmax Hst Hli [k [Hk Hmem]] Ht] Hn Hs.
  assert (u64_add (steps_executed (inst w)) 1 = steps_executed (inst w) + 1) as E.
  { destruct (ok_max_steps _ Hok). apply u64_small. unfold is_u64. lia. }
  split; simpl; rewrite ?E; try done; try lia; [by destruct Hok|by exists k].
Qed.

Lemma inv_weaken m w : m ≤ n → inv base t0 n w → inv base t0 m w.
Proof. intros Hm [????????]. split; try done. lia. Qed.

(** Slices are bytes. *)
Lemma slice_bytes m lo hi : Forall is_byte m → from_option (Forall is_byte) True (slice m lo hi).
Proof.
  intros Hm. unfold slice. case_match; simpl; [|done]. by apply Forall_take, Forall_drop.
Qed.

Lemma keeps_slice m lo hi : Forall is_byte m →
  keeps (some_or_panic (slice m lo hi)) (Forall is_byte).
Proof. intros. by apply keeps_some_or_panic, slice_bytes. Qed.

Lemma keeps_gets_memory : keeps (gets memory) (Forall is_byte).
Proof. apply keeps_gets. by intros i []. Qed.

Lemma keeps_gets_stack : keeps (gets value_stack) (Forall value_ok).
Proof. apply keeps_gets. by intros i []. Qed.

Lemma keeps_gets_globals : keeps (gets globals) (Forall value_ok).
Proof. apply keeps_gets. by intros i []. Qed.

Lemma slice_Some (m : list Z) lo hi l : slice m lo hi = Some l →
  0 ≤ lo ≤ hi ∧ hi ≤ Z.of_nat (length m) ∧ Z.of_nat (length l) = hi - lo.
Proof.
  unfold slice. case_match eqn:E; [|done]. intros [= <-].
  rewrite length_take, length_drop. lia.
Qed.

Lemma Forall_splice off data m : Forall is_byte data → Forall is_byte m →
  Forall is_byte (splice off data m).
Proof.
  intros. unfold splice. rewrite !Forall_app. auto using Forall_take, Forall_drop.
Qed.

Lemma keeps_copy_to_memory offset data : Forall is_byte data →
  Z.of_nat (length data) < 2 ^ 64 →
  keeps (copy_to_memory offset data) (λ _, True).
Proof.
  intros Hd Hlen w Hw. unfold copy_to_memory. rewrite gets_bind.
  destruct (slice (memory (inst w)) offset _) as [l|] eqn:E; [|by apply keeps_panic].
  unfold some_or_panic, op_bind, ret, op_ret.
  assert (Z.of_nat (length (splice (Z.to_nat offset) data (memory (inst w)))) = memory_len (inst w)) as Hl.
  { apply slice_Some in E as (Ho & Hhi & _). unfold memory_len. f_equal.
    apply length_splice. unfold u64_add in *.
    pose proof (ok_memory_len _ (inv_ok _ _ _ _ Hw)) as Hm. unfold memory_len in Hm.
    (* the end of the slice did not wrap: a [Vec] is shorter than half the address space *)
    destruct (decide (offset + Z.of_nat (length data) < 2 ^ 64)).
    - rewrite u64_small in Hhi by (unfold is_u64; lia). lia.
    - exfalso. assert (u64 (offset + Z.of_nat (length data)) =
                       offset + Z.of_nat (length data) - 2 ^ 64) as E.
      { symmetry. apply (Z.mod_unique _ _ 1); [|lia]. left.
        pose proof (u64_range (offset + Z.of_nat (length data))). lia. }
      rewrite E in *. lia. }
  split; [|done]. destruct Hw as [[] ? ? ? ? ? ? [k Hk] ?]. split; try done.
  - split; try done; simpl; [by apply Forall_splice|]. unfold memory_len at 1. simpl. lia.
  - exists k. unfold memory_len at 1. simpl. lia.
Qed.

Lemma keeps_grow_memory pages : is_word 32 pages → keeps (grow_memory pages) is_u64.
Proof.
  intros [Hp0 Hp] w Hw. unfold grow_memory. rewrite !gets_bind. cbv zeta.
  case_match; [by apply keeps_fail|]. case_match eqn:Hn; [by apply keeps_panic|].
  split; [|simpl; pose proof (Z.mod_pos_bound (memory_len (inst w) / 65536) (2 ^ 32) ltac:(lia));
    unfold memory_pages, u32, wrap, is_u64; lia].
  simpl. pose proof (ok_memory_len _ (inv_ok _ _ _ _ Hw)) as Hl.
  assert (0 ≤ memory_len (inst w)) by (unfold memory_len; lia).
  assert (u64_add (memory_len (inst w)) (u64_mul pages 65536) =
          memory_len (inst w) + pages * 65536) as Hs.
  { unfold u64_add, u64_mul. rewrite (u64_small (pages * 65536)) by (unfold is_u64; lia).
    apply u64_small. unfold is_u64. lia. }
  rewrite Hs in *.
  assert (Z.of_nat (length (resize (Z.to_nat (memory_len (inst w) + pages * 65536)) 0
            (memory (inst w)))) = memory_len (inst w) + pages * 65536) as Hlen.
  { rewrite length_resize. lia. }
  destruct Hw as [[] ? ? ? ? ? ? [k [Hk Hm]] ?]. split; try done.
  - split; try done; simpl; [|unfold memory_len at 1; simpl; rewrite Hlen; lia].
    apply Forall_resize; [unfold is_byte; lia|done].
  - exists (k + pages). unfold memory_len at 1. simpl. rewrite Hlen. lia.
Qed.
End keeps.

Lemma keeps_limited_step `{!Undefinable} {A} base t0 n (m : M A) post : 0 ≤ n → keeps base t0 n m post →
  keeps base t0 n (let! steps := gets steps_executed in
         let! limit := gets max_steps in
         if limit <=? steps then fail ExecutionLimit else do! count_step in m)%op post.
Proof.
  intros Hn Hm w Hw. rewrite !gets_bind. case_match; [by apply keeps_fail|].
  apply (Hm (count_step w).1). eapply inv_weaken; [|apply (inv_count _ _ n); [done..|lia]].
  pose proof (inv_steps _ _ _ _ Hw). lia.
Qed.

Create HintDb wave discriminated.
#[export] Hint Resolve keeps_ret keeps_fail keeps_panic keeps_err keeps_push keeps_pop
  keeps_push_all keeps_copy_to_memory keeps_grow_memory keeps_emit keeps_emit_all keeps_slice keeps_gets_memory keeps_gets_stack
  keeps_gets_globals keeps_stack : wave.
#[export] Hint Resolve keeps_gets_any | 10 : wave.

(** Walks through a monadic program; side conditions about values are left. *)
Ltac keeps_walk :=
  repeat match goal with
    | |- ∀ _, _ => intro
    | _ => progress cbv beta zeta
    | |- keeps _ _ _ (if _ then _ else _) _ => first [apply keeps_if | apply keeps_decide]
    | |- keeps _ _ _ (fail _) _ => apply keeps_fail
    | |- keeps _ _ _ panic _ => apply keeps_panic
    | |- keeps _ _ _ (ret _) _ => apply keeps_ret
    | |- keeps _ _ _ (op_bind _ _) _ => eapply keeps_bind; [solve [eauto with wave]|]
    end.

(** ** Host functions keep the invariant and answer with their declared types *)

Definition one_i32 (vs : list WasmValue) : Prop := ∃ z, vs = [I32 z] ∧ is_signed 32 z.
Definition one_i64 (vs : list WasmValue) : Prop := ∃ z, vs = [I64 z] ∧ is_signed 64 z.

Lemma one_i32_intro z : is_signed 32 z → one_i32 [I32 z].
Proof. by exists z. Qed.
Lemma one_i64_intro z : is_signed 64 z → one_i64 [I64 z].
Proof. by exists z. Qed.
#[export] Hint Resolve one_i32_intro one_i64_intro : wave.

Definition host_post (func : HostFunction) (args vs : list WasmValue) : Prop :=
  Forall value_ok vs ∧
  (length args = length (params (signature func)) → value_type <$> vs = results (signature func)).

Section host_keeps.
Context `{Platform} `{!Undefinable} (base : Instance_) (t0 : list OsEvent) (n : Z) (Hn : 0 ≤ n).
Abbreviation keeps := (keeps base t0 n).

Lemma authorised_by func e :
  (∃ bf, bf ∈ host_functions base ∧ function bf = func) → func ∈ event_sources e →
  authorised (host_functions base) e.
Proof. intros (bf & ? & <-) ?. by exists bf. Qed.

Lemma value_ok_arg args k : Forall value_ok args → is_signed 32 (arg_to_i32 args k).
Proof.
  intros Ha. unfold arg_to_i32. destruct (args !! k) as [v|] eqn:E; simpl; [|by split].
  apply to_i32_range. by eapply Forall_lookup_1.
Qed.

Lemma keeps_get_timestamp : authorised (host_functions base) Timestamp →
  keeps get_timestamp is_u64.
Proof.
  intros. eapply keeps_bind; [by apply keeps_emit|]. intros. apply keeps_ret, u64_range.
Qed.

Lemma keeps_syscall_spawn path : authorised (host_functions base) (Spawn path) →
  keeps (syscall_spawn path) (is_signed 64).
Proof.
  intros. eapply keeps_bind; [by apply keeps_emit|]. intros. apply keeps_ret, i64_range.
Qed.

Lemma keeps_syscall_waitpid pid : authorised (host_functions base) (WaitPid pid) →
  keeps (syscall_waitpid pid) (is_signed 32).
Proof.
  intros. eapply keeps_bind; [by apply keeps_emit|]. intros. apply keeps_ret, i32_range.
Qed.

Lemma keeps_syscall_kill pid signal : authorised (host_functions base) (Kill pid signal) →
  keeps (syscall_kill pid signal) (is_signed 32).
Proof.
  intros. eapply keeps_bind; [by apply keeps_emit|]. intros. apply keeps_ret, i32_range.
Qed.

Lemma keeps_syscall_getpid : authorised (host_functions base) GetPid →
  keeps syscall_getpid (is_signed 64).
Proof.
  intros. eapply keeps_bind; [by apply keeps_emit|]. intros. apply keeps_ret, i64_range.
Qed.
#[local] Hint Resolve keeps_get_timestamp keeps_syscall_spawn keeps_syscall_waitpid
  keeps_syscall_kill keeps_syscall_getpid : wave.

Lemma keeps_host_log args : (∀ b, authorised (host_functions base) (Serial b)) →
  keeps (host_log args) (λ vs, vs = []).
Proof.
  intros Ha. assert (∀ l, Forall (authorised (host_functions base)) (Serial <$> l)) as Hall.
  { intros l. induction l; simpl; by constructor. }
  unfold host_log. keeps_walk; done.
Qed.

Lemma keeps_host_spawn args : (∀ p, authorised (host_functions base) (Spawn p)) →
  keeps (host_spawn args) one_i64.
Proof. intros Ha. unfold host_spawn. keeps_walk; eauto with wave; by apply one_i64_intro. Qed.

Lemma keeps_host_wait args : (∀ p, authorised (host_functions base) (WaitPid p)) →
  keeps (host_wait args) one_i32.
Proof.
  intros Ha. unfold host_wait. destruct (_ ≫= _); keeps_walk; eauto with wave.
  by apply one_i32_intro.
Qed.

Lemma keeps_host_kill args : (∀ p s, authorised (host_functions base) (Kill p s)) →
  keeps (host_kill args) one_i32.
Proof. intros Ha. unfold host_kill. keeps_walk; eauto with wave; by apply one_i32_intro. Qed.

Lemma keeps_host_cap_check args : keeps (host_cap_check args) one_i32.
Proof.
  unfold host_cap_check. keeps_walk; eauto with wave; try by apply one_i32_intro.
  destruct (existsb _ _); by apply one_i32_intro.
Qed.

Lemma keeps_host_cap_request args : keeps (host_cap_request args) one_i64.
Proof. unfold host_cap_request. keeps_walk; eauto with wave; by apply one_i64_intro. Qed.

Lemma keeps_host_cap_delegate args : keeps (host_cap_delegate args) one_i64.
Proof.
  unfold host_cap_delegate. keeps_walk; [|by apply one_i64_intro].
  destruct (find _ _); keeps_walk; by apply one_i64_intro.
Qed.

Lemma keeps_host_mem_free : keeps host_mem_free one_i64.
Proof. unfold host_mem_free. keeps_walk; apply one_i64_intro, i64_range. Qed.

Lemma keeps_host_time : authorised (host_functions base) Timestamp → keeps host_time one_i64.
Proof. intros. unfold host_time. keeps_walk; apply one_i64_intro, i64_range. Qed.

Lemma keeps_host_uptime : authorised (host_functions base) Timestamp → keeps host_uptime one_i64.
Proof. intros. unfold host_uptime. keeps_walk; apply one_i64_intro, i64_range. Qed.

Lemma keeps_with_state s : keeps (modify (with_state s)) (λ _, True).
Proof.
  apply keeps_modify. intros i []. split_and!; try done. exists 0. unfold memory_len. simpl. lia.
Qed.

(** A result of the right shape has the declared type. *)
Lemma host_post_i32 func args vs : one_i32 vs →
  results (signature func) = [Ty.I32] → host_post func args vs.
Proof. unfold host_post. intros (z & -> & Hz) ->. split; [by apply Forall_singleton|done]. Qed.

Lemma host_post_i64 func args vs : one_i64 vs →
  results (signature func) = [Ty.I64] → host_post func args vs.
Proof. unfold host_post. intros (z & -> & Hz) ->. split; [by apply Forall_singleton|done]. Qed.

Lemma host_post_nil func args : results (signature func) = [] → host_post func args [].
Proof. unfold host_post. intros ->. split; [constructor|done]. Qed.

Ltac host_value :=
  first [ apply host_post_nil; reflexivity
        | apply host_post_i32; [apply one_i32_intro|reflexivity]
        | apply host_post_i64; [apply one_i64_intro|reflexivity] ].

Ltac answers_i32 H := eapply keeps_weaken; [apply H|]; intros ??; by apply host_post_i32.
Ltac answers_i64 H := eapply keeps_weaken; [apply H|]; intros ??; by apply host_post_i64.

Lemma keeps_host_dispatch func args :
  (∃ bf, bf ∈ host_functions base ∧ function bf = func) → Forall value_ok args →
  keeps (host_dispatch func args) (host_post func args).
Proof.
  intros Hf Ha.
  assert (∀ e, func ∈ event_sources e → authorised (host_functions base) e) as Hauth
    by eauto using authorised_by.
  destruct func; unfold host_dispatch;
    try (keeps_walk; host_value; first [by split | by apply value_ok_arg | by apply i32_range]).
  - case_decide; [|apply keeps_fail]. apply keeps_ret. split; [by repeat constructor|].
    simpl. lia.
  - eapply keeps_weaken; [apply keeps_host_log; intros; apply Hauth; by left|].
    intros ? ->. by apply host_post_nil.
  - answers_i64 (keeps_host_time (Hauth Timestamp ltac:(set_solver))).
  - eapply keeps_bind; [apply keeps_with_state|]. intros. by apply keeps_ret, host_post_nil.
  - eapply keeps_bind; [apply keeps_with_state|]. intros. by apply keeps_ret, host_post_nil.
  - answers_i64 (keeps_host_spawn args (λ p, Hauth (Spawn p) ltac:(by left))).
  - answers_i32 (keeps_host_wait args (λ p, Hauth (WaitPid p) ltac:(by left))).
  - answers_i32 (keeps_host_kill args (λ p s, Hauth (Kill p s) ltac:(by left))).
  - eapply keeps_bind; [by apply keeps_syscall_getpid, Hauth; left|]. intros.
    by apply keeps_ret, host_post_i64, eq_refl; apply one_i64_intro.
  - answers_i32 (keeps_host_cap_check args).
  - answers_i64 (keeps_host_cap_request args).
  - answers_i64 (keeps_host_cap_delegate args).
  - answers_i64 (keeps_host_time (Hauth Timestamp ltac:(set_solver))).
  - answers_i64 (keeps_host_time (Hauth Timestamp ltac:(set_solver))).
  - answers_i64 keeps_host_mem_free.
  - answers_i64 (keeps_host_uptime (Hauth Timestamp ltac:(set_solver))).
Qed.

Lemma existsb_bound func hs :
  existsb (λ bf, bool_decide (function bf = func)) hs = true ↔
  ∃ bf, bf ∈ hs ∧ function bf = func.
Proof.
  rewrite existsb_exists. setoid_rewrite bool_decide_eq_true.
  by setoid_rewrite list_elem_of_In.
Qed.

Lemma keeps_invoke func args : Forall value_ok args →
  keeps (invoke_host_function func args) (host_post func args).
Proof.
  intros Ha w Hw. unfold invoke_host_function. rewrite gets_bind.
  destruct (existsb _ _) eqn:E; cbn [negb]; [|by apply keeps_fail].
  apply existsb_bound in E. rewrite (inv_host _ _ _ _ Hw) in E.
  by apply (keeps_limited_step base t0 n (host_dispatch func args)), Hw;
    [|apply keeps_host_dispatch].
Qed.

Lemma keeps_call_host func :
  keeps (call_host func)
    (λ vs, Forall value_ok vs ∧ value_type <$> vs = results (signature func)).
Proof.
  eapply keeps_bind; [by apply keeps_pop_args|]. intros args [Ha Hl].
  eapply keeps_bind; [by apply keeps_invoke|]. intros vs [Hv Ht].
  eapply keeps_bind; [by apply keeps_push_all|]. intros _ _. apply keeps_ret.
  split; [done|]. apply Ht. rewrite Hl. simpl. lia.
Qed.
End host_keeps.
