(* ===== verification/WaveInterp.v ===== *)
(** * WaveInterp: the bytecode interpreter of the WASM runtime
    ([runtime/wave/src/lib.rs], [Instance::execute_bytecode])

    The interpreter works on the bytes of a function body: every round counts a step,
    decodes one opcode and runs it. Branches skip bytes, not instructions. An opcode the
    interpreter does not implement does nothing, and its operands are then read as
    opcodes. [Opcode::from_byte] transmutes: a byte in its range that is no discriminant
    is undefined behaviour ([None]). *)

From Stdlib Require Import ZArith Lia.
From stdpp Require Import list.
From S2P Require Import Prelude.
From S2P Require Import Ids.
From S2P Require Import Bytes.
From S2P Require Import Utf8.
From S2P Require Import Loop.
From S2P Require Import WaveValue.
From S2P Require Import WaveHost.
From S2P Require Import Leb128.
From S2P Require Import WaveInst.

(** ** Opcodes *)

Module Op.
Inductive Opcode :=
| Unreachable | Nop | Block | Loop | If | Else | End | Br | BrIf | BrTable | Return | Call
| CallIndirect | Drop | Select | LocalGet | LocalSet | LocalTee | GlobalGet | GlobalSet
| I32Load | I64Load | F32Load | F64Load | I32Load8S | I32Load8U | I32Load16S | I32Load16U
| I64Load8S | I64Load8U | I64Load16S | I64Load16U | I64Load32S | I64Load32U | I32Store
| I64Store | F32Store | F64Store | I32Store8 | I32Store16 | I64Store8 | I64Store16
| I64Store32 | MemorySize | MemoryGrow | I32Const | I64Const | F32Const | F64Const | I32Eqz
| I32Eq | I32Ne | I32LtS | I32LtU | I32GtS | I32GtU | I32LeS | I32LeU | I32GeS | I32GeU
| I64Eqz | I64Eq | I64Ne | I64LtS | I64LtU | I64GtS | I64GtU | I64LeS | I64LeU | I64GeS
| I64GeU | F32Eq | F32Ne | F32Lt | F32Gt | F32Le | F32Ge | F64Eq | F64Ne | F64Lt | F64Gt
| F64Le | F64Ge | I32Clz | I32Ctz | I32Popcnt | I32Add | I32Sub | I32Mul | I32DivS
| I32DivU | I32RemS | I32RemU | I32And | I32Or | I32Xor | I32Shl | I32ShrS | I32ShrU
| I32Rotl | I32Rotr | I64Clz | I64Ctz | I64Popcnt | I64Add | I64Sub | I64Mul | I64DivS
| I64DivU | I64RemS | I64RemU | I64And | I64Or | I64Xor | I64Shl | I64ShrS | I64ShrU
| I64Rotl | I64Rotr | F32Abs | F32Neg | F32Ceil | F32Floor | F32Trunc | F32Nearest
| F32Sqrt | F32Add | F32Sub | F32Mul | F32Div | F32Min | F32Max | F32Copysign | F64Abs
| F64Neg | F64Ceil | F64Floor | F64Trunc | F64Nearest | F64Sqrt | F64Add | F64Sub | F64Mul
| F64Div | F64Min | F64Max | F64Copysign | I32WrapI64 | I32TruncF32S | I32TruncF32U
| I32TruncF64S | I32TruncF64U | I64ExtendI32S | I64ExtendI32U | I64TruncF32S | I64TruncF32U
| I64TruncF64S | I64TruncF64U | F32ConvertI32S | F32ConvertI32U | F32ConvertI64S
| F32ConvertI64U | F32DemoteF64 | F64ConvertI32S | F64ConvertI32U | F64ConvertI64S
| F64ConvertI64U | F64PromoteF32 | I32ReinterpretF32 | I64ReinterpretF64
| F32ReinterpretI32 | F64ReinterpretI64 | I32Extend8S | I32Extend16S | I64Extend8S
| I64Extend16S | I64Extend32S | RefNull | RefIsNull | RefFunc | SimdPrefix | AtomicPrefix.
End Op.
Abbreviation Opcode := Op.Opcode.

(** The discriminants. *)
Definition opcode_byte (op : Opcode) : Z :=
  match op with
  | Op.Unreachable => 0x00 | Op.Nop => 0x01 | Op.Block => 0x02 | Op.Loop => 0x03
  | Op.If => 0x04 | Op.Else => 0x05 | Op.End => 0x0B | Op.Br => 0x0C | Op.BrIf => 0x0D
  | Op.BrTable => 0x0E | Op.Return => 0x0F | Op.Call => 0x10 | Op.CallIndirect => 0x11
  | Op.Drop => 0x1A | Op.Select => 0x1B | Op.LocalGet => 0x20 | Op.LocalSet => 0x21
  | Op.LocalTee => 0x22 | Op.GlobalGet => 0x23 | Op.GlobalSet => 0x24 | Op.I32Load => 0x28
  | Op.I64Load => 0x29 | Op.F32Load => 0x2A | Op.F64Load => 0x2B | Op.I32Load8S => 0x2C
  | Op.I32Load8U => 0x2D | Op.I32Load16S => 0x2E | Op.I32Load16U => 0x2F
  | Op.I64Load8S => 0x30 | Op.I64Load8U => 0x31 | Op.I64Load16S => 0x32
  | Op.I64Load16U => 0x33 | Op.I64Load32S => 0x34 | Op.I64Load32U => 0x35
  | Op.I32Store => 0x36 | Op.I64Store => 0x37 | Op.F32Store => 0x38 | Op.F64Store => 0x39
  | Op.I32Store8 => 0x3A | Op.I32Store16 => 0x3B | Op.I64Store8 => 0x3C
  | Op.I64Store16 => 0x3D | Op.I64Store32 => 0x3E | Op.MemorySize => 0x3F
  | Op.MemoryGrow => 0x40 | Op.I32Const => 0x41 | Op.I64Const => 0x42 | Op.F32Const => 0x43
  | Op.F64Const => 0x44 | Op.I32Eqz => 0x45 | Op.I32Eq => 0x46 | Op.I32Ne => 0x47
  | Op.I32LtS => 0x48 | Op.I32LtU => 0x49 | Op.I32GtS => 0x4A | Op.I32GtU => 0x4B
  | Op.I32LeS => 0x4C | Op.I32LeU => 0x4D | Op.I32GeS => 0x4E | Op.I32GeU => 0x4F
  | Op.I64Eqz => 0x50 | Op.I64Eq => 0x51 | Op.I64Ne => 0x52 | Op.I64LtS => 0x53
  | Op.I64LtU => 0x54 | Op.I64GtS => 0x55 | Op.I64GtU => 0x56 | Op.I64LeS => 0x57
  | Op.I64LeU => 0x58 | Op.I64GeS => 0x59 | Op.I64GeU => 0x5A | Op.F32Eq => 0x5B
  | Op.F32Ne => 0x5C | Op.F32Lt => 0x5D | Op.F32Gt => 0x5E | Op.F32Le => 0x5F
  | Op.F32Ge => 0x60 | Op.F64Eq => 0x61 | Op.F64Ne => 0x62 | Op.F64Lt => 0x63
  | Op.F64Gt => 0x64 | Op.F64Le => 0x65 | Op.F64Ge => 0x66 | Op.I32Clz => 0x67
  | Op.I32Ctz => 0x68 | Op.I32Popcnt => 0x69 | Op.I32Add => 0x6A | Op.I32Sub => 0x6B
  | Op.I32Mul => 0x6C | Op.I32DivS => 0x6D | Op.I32DivU => 0x6E | Op.I32RemS => 0x6F
  | Op.I32RemU => 0x70 | Op.I32And => 0x71 | Op.I32Or => 0x72 | Op.I32Xor => 0x73
  | Op.I32Shl => 0x74 | Op.I32ShrS => 0x75 | Op.I32ShrU => 0x76 | Op.I32Rotl => 0x77
  | Op.I32Rotr => 0x78 | Op.I64Clz => 0x79 | Op.I64Ctz => 0x7A | Op.I64Popcnt => 0x7B
  | Op.I64Add => 0x7C | Op.I64Sub => 0x7D | Op.I64Mul => 0x7E | Op.I64DivS => 0x7F
  | Op.I64DivU => 0x80 | Op.I64RemS => 0x81 | Op.I64RemU => 0x82 | Op.I64And => 0x83
  | Op.I64Or => 0x84 | Op.I64Xor => 0x85 | Op.I64Shl => 0x86 | Op.I64ShrS => 0x87
  | Op.I64ShrU => 0x88 | Op.I64Rotl => 0x89 | Op.I64Rotr => 0x8A | Op.F32Abs => 0x8B
  | Op.F32Neg => 0x8C | Op.F32Ceil => 0x8D | Op.F32Floor => 0x8E | Op.F32Trunc => 0x8F
  | Op.F32Nearest => 0x90 | Op.F32Sqrt => 0x91 | Op.F32Add => 0x92 | Op.F32Sub => 0x93
  | Op.F32Mul => 0x94 | Op.F32Div => 0x95 | Op.F32Min => 0x96 | Op.F32Max => 0x97
  | Op.F32Copysign => 0x98 | Op.F64Abs => 0x99 | Op.F64Neg => 0x9A | Op.F64Ceil => 0x9B
  | Op.F64Floor => 0x9C | Op.F64Trunc => 0x9D | Op.F64Nearest => 0x9E | Op.F64Sqrt => 0x9F
  | Op.F64Add => 0xA0 | Op.F64Sub => 0xA1 | Op.F64Mul => 0xA2 | Op.F64Div => 0xA3
  | Op.F64Min => 0xA4 | Op.F64Max => 0xA5 | Op.F64Copysign => 0xA6 | Op.I32WrapI64 => 0xA7
  | Op.I32TruncF32S => 0xA8 | Op.I32TruncF32U => 0xA9 | Op.I32TruncF64S => 0xAA
  | Op.I32TruncF64U => 0xAB | Op.I64ExtendI32S => 0xAC | Op.I64ExtendI32U => 0xAD
  | Op.I64TruncF32S => 0xAE | Op.I64TruncF32U => 0xAF | Op.I64TruncF64S => 0xB0
  | Op.I64TruncF64U => 0xB1 | Op.F32ConvertI32S => 0xB2 | Op.F32ConvertI32U => 0xB3
  | Op.F32ConvertI64S => 0xB4 | Op.F32ConvertI64U => 0xB5 | Op.F32DemoteF64 => 0xB6
  | Op.F64ConvertI32S => 0xB7 | Op.F64ConvertI32U => 0xB8 | Op.F64ConvertI64S => 0xB9
  | Op.F64ConvertI64U => 0xBA | Op.F64PromoteF32 => 0xBB | Op.I32ReinterpretF32 => 0xBC
  | Op.I64ReinterpretF64 => 0xBD | Op.F32ReinterpretI32 => 0xBE
  | Op.F64ReinterpretI64 => 0xBF | Op.I32Extend8S => 0xC0 | Op.I32Extend16S => 0xC1
  | Op.I64Extend8S => 0xC2 | Op.I64Extend16S => 0xC3 | Op.I64Extend32S => 0xC4
  | Op.RefNull => 0xD0 | Op.RefIsNull => 0xD1 | Op.RefFunc => 0xD2 | Op.SimdPrefix => 0xFD
  | Op.AtomicPrefix => 0xFE
  end.

Definition all_opcodes : list Opcode :=
  [ Op.Unreachable; Op.Nop; Op.Block; Op.Loop; Op.If; Op.Else; Op.End; Op.Br; Op.BrIf;
    Op.BrTable; Op.Return; Op.Call; Op.CallIndirect; Op.Drop; Op.Select; Op.LocalGet;
    Op.LocalSet; Op.LocalTee; Op.GlobalGet; Op.GlobalSet; Op.I32Load; Op.I64Load;
    Op.F32Load; Op.F64Load; Op.I32Load8S; Op.I32Load8U; Op.I32Load16S; Op.I32Load16U;
    Op.I64Load8S; Op.I64Load8U; Op.I64Load16S; Op.I64Load16U; Op.I64Load32S; Op.I64Load32U;
    Op.I32Store; Op.I64Store; Op.F32Store; Op.F64Store; Op.I32Store8; Op.I32Store16;
    Op.I64Store8; Op.I64Store16; Op.I64Store32; Op.MemorySize; Op.MemoryGrow; Op.I32Const;
    Op.I64Const; Op.F32Const; Op.F64Const; Op.I32Eqz; Op.I32Eq; Op.I32Ne; Op.I32LtS;
    Op.I32LtU; Op.I32GtS; Op.I32GtU; Op.I32LeS; Op.I32LeU; Op.I32GeS; Op.I32GeU; Op.I64Eqz;
    Op.I64Eq; Op.I64Ne; Op.I64LtS; Op.I64LtU; Op.I64GtS; Op.I64GtU; Op.I64LeS; Op.I64LeU;
    Op.I64GeS; Op.I64GeU; Op.F32Eq; Op.F32Ne; Op.F32Lt; Op.F32Gt; Op.F32Le; Op.F32Ge;
    Op.F64Eq; Op.F64Ne; Op.F64Lt; Op.F64Gt; Op.F64Le; Op.F64Ge; Op.I32Clz; Op.I32Ctz;
    Op.I32Popcnt; Op.I32Add; Op.I32Sub; Op.I32Mul; Op.I32DivS; Op.I32DivU; Op.I32RemS;
    Op.I32RemU; Op.I32And; Op.I32Or; Op.I32Xor; Op.I32Shl; Op.I32ShrS; Op.I32ShrU;
    Op.I32Rotl; Op.I32Rotr; Op.I64Clz; Op.I64Ctz; Op.I64Popcnt; Op.I64Add; Op.I64Sub;
    Op.I64Mul; Op.I64DivS; Op.I64DivU; Op.I64RemS; Op.I64RemU; Op.I64And; Op.I64Or;
    Op.I64Xor; Op.I64Shl; Op.I64ShrS; Op.I64ShrU; Op.I64Rotl; Op.I64Rotr; Op.F32Abs;
    Op.F32Neg; Op.F32Ceil; Op.F32Floor; Op.F32Trunc; Op.F32Nearest; Op.F32Sqrt; Op.F32Add;
    Op.F32Sub; Op.F32Mul; Op.F32Div; Op.F32Min; Op.F32Max; Op.F32Copysign; Op.F64Abs;
    Op.F64Neg; Op.F64Ceil; Op.F64Floor; Op.F64Trunc; Op.F64Nearest; Op.F64Sqrt; Op.F64Add;
    Op.F64Sub; Op.F64Mul; Op.F64Div; Op.F64Min; Op.F64Max; Op.F64Copysign; Op.I32WrapI64;
    Op.I32TruncF32S; Op.I32TruncF32U; Op.I32TruncF64S; Op.I32TruncF64U; Op.I64ExtendI32S;
    Op.I64ExtendI32U; Op.I64TruncF32S; Op.I64TruncF32U; Op.I64TruncF64S; Op.I64TruncF64U;
    Op.F32ConvertI32S; Op.F32ConvertI32U; Op.F32ConvertI64S; Op.F32ConvertI64U;
    Op.F32DemoteF64; Op.F64ConvertI32S; Op.F64ConvertI32U; Op.F64ConvertI64S;
    Op.F64ConvertI64U; Op.F64PromoteF32; Op.I32ReinterpretF32; Op.I64ReinterpretF64;
    Op.F32ReinterpretI32; Op.F64ReinterpretI64; Op.I32Extend8S; Op.I32Extend16S;
    Op.I64Extend8S; Op.I64Extend16S; Op.I64Extend32S; Op.RefNull; Op.RefIsNull; Op.RefFunc;
    Op.SimdPrefix; Op.AtomicPrefix ].

(** [mem::transmute]. *)
Definition transmute (b : Z) : option Opcode := find (λ op, opcode_byte op =? b) all_opcodes.

(** [Opcode::from_byte]: [None] is undefined behaviour, [Some None] an unknown opcode. *)
Definition from_byte (b : Z) : option (option Opcode) :=
  if within 0x00 0xC4 b || within 0xD0 0xD2 b then Some <$> transmute b
  else if b =? 0xFD then Some (Some Op.SimdPrefix)
  else if b =? 0xFE then Some (Some Op.AtomicPrefix)
  else Some None.

Definition is_prefix (op : Opcode) : bool :=
  match op with Op.SimdPrefix | Op.AtomicPrefix => true | _ => false end.

(** ** Skipping *)

(** The loops that look for the matching [end] (and for [else] at the same level) count
    the bytes of [block], [loop] and [if]. They return how many bytes they skip. *)
Definition opens (b : Z) : bool := (b =? 0x02) || (b =? 0x03) || (b =? 0x04).

Fixpoint skip_to_end (rest : list Z) (depth : Z) : nat :=
  match rest with
  | [] => 0
  | b :: rest =>
      if 0 <? depth then
        S (skip_to_end rest (if opens b then i32 (depth + 1)
                             else if b =? 0x0B then i32 (depth - 1) else depth))
      else 0
  end.

Fixpoint skip_to_else (rest : list Z) (depth : Z) : nat :=
  match rest with
  | [] => 0
  | b :: rest =>
      if 0 <? depth then
        if (b =? 0x05) && (depth =? 1) then 1%nat
        else S (skip_to_else rest (if opens b then i32 (depth + 1)
                                   else if b =? 0x0B then i32 (depth - 1) else depth))
      else 0
  end.

(** ** Arithmetic *)

Definition leading_zeros (a : Z) : Z := if a =? 0 then 32 else 31 - Z.log2 a.
Definition trailing_zeros (a : Z) : Z := if a =? 0 then 32 else Z.log2 (Z.land a (- a)).
Definition count_ones (a : Z) : Z :=
  Z.of_nat (length (filter (λ k, Z.testbit a (Z.of_nat k) = true) (seq 0 32))).

Definition i32_unary (op : Opcode) : option (Z → Z) :=
  match op with
  | Op.I32Eqz => Some (λ a, if a =? 0 then 1 else 0)
  | Op.I32Clz => Some (λ a, leading_zeros (u32 a))
  | Op.I32Ctz => Some (λ a, trailing_zeros (u32 a))
  | Op.I32Popcnt => Some (λ a, count_ones (u32 a))
  | _ => None
  end.

Definition i32_compare (op : Opcode) : option (Z → Z → bool) :=
  match op with
  | Op.I32Eq => Some Z.eqb
  | Op.I32Ne => Some (λ a b, negb (a =? b))
  | Op.I32LtS => Some Z.ltb
  | Op.I32LtU => Some (λ a b, u32 a <? u32 b)
  | Op.I32GtS => Some (λ a b, b <? a)
  | Op.I32GtU => Some (λ a b, u32 b <? u32 a)
  | Op.I32LeS => Some Z.leb
  | Op.I32LeU => Some (λ a b, u32 a <=? u32 b)
  | Op.I32GeS => Some (λ a b, b <=? a)
  | Op.I32GeU => Some (λ a b, u32 b <=? u32 a)
  | _ => None
  end.

Definition i32_binary (op : Opcode) : option (Z → Z → Z) :=
  match op with
  | Op.I32Add => Some (λ a b, i32 (a + b))
  | Op.I32Sub => Some (λ a b, i32 (a - b))
  | Op.I32Mul => Some (λ a b, i32 (a * b))
  | Op.I32And => Some Z.land
  | Op.I32Or => Some Z.lor
  | Op.I32Xor => Some Z.lxor
  | Op.I32Shl => Some (λ a b, shl_signed 32 a (u32 b))
  | Op.I32ShrS => Some (λ a b, shr_signed 32 a (u32 b))
  | Op.I32ShrU => Some (λ a b, i32 (Z.shiftr (u32 a) (u32 b mod 32)))
  | Op.I32Rotl => Some (λ a b, i32 (rotate_left 32 (u32 b mod 32) (u32 a)))
  | Op.I32Rotr => Some (λ a b, i32 (rotate_right 32 (u32 b mod 32) (u32 a)))
  | _ => None
  end.

(** The operations that refuse a zero divisor. *)
Definition i32_divide (op : Opcode) : option (Z → Z → Z) :=
  match op with
  | Op.I32DivS => Some (div_signed 32)
  | Op.I32DivU => Some (λ a b, i32 (u32 a / u32 b))
  | Op.I32RemS => Some (rem_signed 32)
  | Op.I32RemU => Some (λ a b, i32 (u32 a mod u32 b))
  | _ => None
  end.

Definition i64_binary (op : Opcode) : option (Z → Z → Z) :=
  match op with
  | Op.I64Add => Some (λ a b, i64 (a + b))
  | Op.I64Sub => Some (λ a b, i64 (a - b))
  | Op.I64Mul => Some (λ a b, i64 (a * b))
  | _ => None
  end.

Definition pop_i32 : M Z := (let! v := pop in ret (to_i32 v))%op.
Definition pop_i64 : M Z := (let! v := pop in ret (to_i64 v))%op.

(** [None]: not an operation of this table. *)
Definition exec_numeric (op : Opcode) : option (M unit) :=
  (match i32_unary op, i32_compare op, i32_binary op, i32_divide op, i64_binary op with
   | Some f, _, _, _, _ => Some (let! a := pop_i32 in push (I32 (f a)))
   | _, Some f, _, _, _ =>
       Some (let! b := pop_i32 in let! a := pop_i32 in push (I32 (if f a b then 1 else 0)))
   | _, _, Some f, _, _ =>
       Some (let! b := pop_i32 in let! a := pop_i32 in push (I32 (f a b)))
   | _, _, _, Some f, _ =>
       Some (let! b := pop_i32 in let! a := pop_i32 in
             if b =? 0 then fail InvalidState else push (I32 (f a b)))
   | _, _, _, _, Some f =>
       Some (let! b := pop_i64 in let! a := pop_i64 in push (I64 (f a b)))
   | _, _, _, _, _ =>
       match op with
       | Op.I32WrapI64 => Some (let! a := pop_i64 in push (I32 (i32 a)))
       | Op.I64ExtendI32S => Some (let! a := pop_i32 in push (I64 a))
       | Op.I64ExtendI32U => Some (let! a := pop_i32 in push (I64 (u32 a)))
       | _ => None
       end
   end)%op.

(** ** Instructions *)

(** Where execution goes on: at an instruction pointer, or out of the loop. *)
Inductive Flow := Next (ip : nat) | Break.

Section interpreter.
Context `{Platform} (code : list Z).

(** [read_leb128_*(&code[ip..])?] and the pointer after it. *)
Definition leb_at (read : list Z → Result (Z * nat) WaveError) (ip : nat) : M (Z * nat) :=
  if decide (length code < ip)%nat then panic
  else match read (drop ip code) with
       | Ok (v, bytes_read) => ret (v, (ip + bytes_read)%nat)
       | Err e => fail e
       end.

(** [code[ip]] and the pointer after it. *)
Definition byte_at (ip : nat) : M nat := (do! some_or_panic (code !! ip) in ret (S ip))%op.

(** [call_stack.last_mut().ok_or(InvalidState)?] and a write through it. *)
Definition top_frame : M CallFrame :=
  (let! frames := gets call_stack in some_or (last frames) InvalidState)%op.
Definition set_top_frame (f : CallFrame) : M unit :=
  modify (λ i, with_calls (removelast (call_stack i) ++ [f]) i).

Definition with_labels (ls : list Label) (f : CallFrame) : CallFrame :=
  mkFrame (function_index f) (return_ip f) (locals f) ls.
Definition with_locals (vs : list WasmValue) (f : CallFrame) : CallFrame :=
  mkFrame (function_index f) (return_ip f) vs (labels f).
Definition with_return_ip (ip : nat) (f : CallFrame) : CallFrame :=
  mkFrame (function_index f) ip (locals f) (labels f).

Definition push_label (k : LabelKind) (ip : nat) : M unit :=
  (let! frame := top_frame in
   let! vs := gets value_stack in
   set_top_frame (with_labels (labels frame ++ [mkLabel k ip 0 (length vs)]) frame))%op.

Definition exec_block (k : LabelKind) (ip : nat) : M Flow :=
  (let! ip := byte_at ip in do! push_label k ip in ret (Next ip))%op.

Definition exec_if (ip : nat) : M Flow :=
  (let! ip := byte_at ip in
   let! cond_val := pop_i32 in
   do! push_label If ip in
   if cond_val =? 0 then ret (Next (ip + skip_to_else (drop ip code) 1)%nat)
   else ret (Next ip))%op.

Definition exec_else (ip : nat) : M Flow := ret (Next (ip + skip_to_end (drop ip code) 1)%nat).

Definition exec_end (ip : nat) : M Flow :=
  (let! frame := top_frame in
   match vec_pop (labels frame) with
   | None => ret Break
   | Some (_, ls) => do! set_top_frame (with_labels ls frame) in ret (Next ip)
   end)%op.

(** [frame.labels[frame.labels.len() - 1 - label_idx]]. *)
Definition label_at (frame : CallFrame) (label_idx : Z) : option Label :=
  if label_idx <? Z.of_nat (length (labels frame))
  then labels frame !! (length (labels frame) - 1 - Z.to_nat label_idx)%nat else None.

Definition exec_br (ip : nat) : M Flow :=
  (let! r := leb_at read_leb128_u32 ip in
   let! frame := top_frame in
   let! label := some_or (label_at frame r.1) InvalidState in
   let ip := target label in
   if decide (kind label = Loop) then ret (Next ip)
   else ret (Next (ip + skip_to_end (drop ip code) (i32 (i32 r.1 + 1)))%nat))%op.

Definition exec_br_if (ip : nat) : M Flow :=
  (let! r := leb_at read_leb128_u32 ip in
   let! condition := pop_i32 in
   if negb (condition =? 0) then
     let! frame := top_frame in
     match label_at frame r.1 with
     | Some label => ret (Next (target label))
     | None => ret (Next r.2)
     end
   else ret (Next r.2))%op.

Definition exec_call (ip : nat) : M Flow :=
  (let! r := leb_at read_leb128_u32 ip in
   let func_idx := r.1 in
   let ip := r.2 in
   let! hs := gets host_functions in
   if func_idx <? Z.of_nat (length hs) then
     let! bf := some_or_panic (hs !! Z.to_nat func_idx) in
     do! call_host (function bf) in
     ret (Next ip)
   else
     let adjusted_idx := u32 (func_idx - u32 (Z.of_nat (length hs))) in
     let! frame := top_frame in
     do! set_top_frame (with_return_ip ip frame) in
     do! modify (λ i, with_calls (call_stack i ++ [mkFrame adjusted_idx ip [] []]) i) in
     ret (Next ip))%op.

Definition exec_drop (ip : nat) : M Flow :=
  (let! vs := gets value_stack in
   match vec_pop vs with
   | Some (_, vs') => do! modify (with_stack vs') in ret (Next ip)
   | None => ret (Next ip)
   end)%op.

Definition exec_select (ip : nat) : M Flow :=
  (let! cond := pop in
   let! val2 := pop in
   let! val1 := pop in
   do! (if negb (to_i32 cond =? 0) then push val1 else push val2) in
   ret (Next ip))%op.

(** [resize] with zeros up to the index, then the assignment. *)
Definition set_grow (idx : Z) (v : WasmValue) (l : list WasmValue) : list WasmValue :=
  let k := Z.to_nat idx in
  <[k := v]> (if decide (length l ≤ k)%nat then resize (S k) (I32 0) l else l).

Definition exec_local_get (ip : nat) : M Flow :=
  (let! r := leb_at read_leb128_u32 ip in
   let! frame := top_frame in
   do! push (default (I32 0) (locals frame !! Z.to_nat r.1)) in
   ret (Next r.2))%op.

Definition exec_local_set (ip : nat) : M Flow :=
  (let! r := leb_at read_leb128_u32 ip in
   let! val := pop in
   let! frame := top_frame in
   do! set_top_frame (with_locals (set_grow r.1 val (locals frame)) frame) in
   ret (Next r.2))%op.

Definition exec_local_tee (ip : nat) : M Flow :=
  (let! r := leb_at read_leb128_u32 ip in
   let! vs := gets value_stack in
   let! val := some_or (last vs) TypeMismatch in
   let! frame := top_frame in
   do! set_top_frame (with_locals (set_grow r.1 val (locals frame)) frame) in
   ret (Next r.2))%op.

Definition exec_global_get (ip : nat) : M Flow :=
  (let! r := leb_at read_leb128_u32 ip in
   let! gs := gets globals in
   do! push (default (I32 0) (gs !! Z.to_nat r.1)) in
   ret (Next r.2))%op.

Definition exec_global_set (ip : nat) : M Flow :=
  (let! r := leb_at read_leb128_u32 ip in
   let! val := pop in
   do! modify (λ i, with_globals (set_grow r.1 val (globals i)) i) in
   ret (Next r.2))%op.

(** The alignment and the offset of a memory instruction. *)
Definition memarg (ip : nat) : M (Z * nat) :=
  (let! r := leb_at read_leb128_u32 ip in leb_at read_leb128_u32 r.2)%op.

Definition exec_load (n : Z) (value : Z → WasmValue) (ip : nat) : M Flow :=
  (let! r := memarg ip in
   let! a := pop_i32 in
   let effective_addr := u64_add (u64 a) r.1 in
   let! m := gets memory in
   if Z.of_nat (length m) <? u64_add effective_addr n then fail MemoryAccessOutOfBounds
   else
     let! bytes := some_or_panic (slice m effective_addr (u64_add effective_addr n)) in
     do! push (value (from_le_bytes bytes)) in
     ret (Next r.2))%op.

Definition exec_store (n : nat) (to_value : WasmValue → Z) (ip : nat) : M Flow :=
  (let! r := memarg ip in
   let! v := pop in
   let! a := pop_i32 in
   let effective_addr := u64_add (u64 a) r.1 in
   let! m := gets memory in
   if Z.of_nat (length m) <? u64_add effective_addr (Z.of_nat n) then fail MemoryAccessOutOfBounds
   else
     do! copy_to_memory effective_addr (to_le_bytes n (to_value v)) in
     ret (Next r.2))%op.

Definition exec_memory_size (ip : nat) : M Flow :=
  (let! ip := byte_at ip in
   let! pages := gets memory_pages in
   do! push (I32 (i32 pages)) in
   ret (Next ip))%op.

(** [match self.grow_memory(pages as u32) { Ok(old) => .., Err(_) => -1 }]. *)
Definition try_grow (pages : Z) : M Z :=
  λ w, match grow_memory pages w with
       | (w', Ok old) => (w', Ok (i32 old))
       | (w', Err (Fail _)) => (w', Ok (-1))
       | (w', Err s) => (w', Err s)
       end.

Definition exec_memory_grow (ip : nat) : M Flow :=
  (let! ip := byte_at ip in
   let! pages := pop_i32 in
   let! r := try_grow (u32 pages) in
   do! push (I32 r) in
   ret (Next ip))%op.

Definition exec_i32_const (ip : nat) : M Flow :=
  (let! r := leb_at read_leb128_i32 ip in do! push (I32 r.1) in ret (Next r.2))%op.
Definition exec_i64_const (ip : nat) : M Flow :=
  (let! r := leb_at read_leb128_i64 ip in do! push (I64 r.1) in ret (Next r.2))%op.

Definition exec_float_const (n : nat) (value : Z → WasmValue) (ip : nat) : M Flow :=
  (if decide (length code < ip + n)%nat then fail InvalidModule
   else do! push (value (from_le_bytes (take n (drop ip code)))) in ret (Next (ip + n)%nat))%op.

(** The [match] on the opcode. *)
Definition exec_opcode (op : Opcode) (ip : nat) : M Flow :=
  (match op with
   | Op.Unreachable => fail InvalidState
   | Op.Nop => ret (Next ip)
   | Op.Block => exec_block Block ip
   | Op.Loop => exec_block Loop ip
   | Op.If => exec_if ip
   | Op.Else => exec_else ip
   | Op.End => exec_end ip
   | Op.Br => exec_br ip
   | Op.BrIf => exec_br_if ip
   | Op.Return => ret Break
   | Op.Call => exec_call ip
   | Op.Drop => exec_drop ip
   | Op.Select => exec_select ip
   | Op.LocalGet => exec_local_get ip
   | Op.LocalSet => exec_local_set ip
   | Op.LocalTee => exec_local_tee ip
   | Op.GlobalGet => exec_global_get ip
   | Op.GlobalSet => exec_global_set ip
   | Op.I32Load => exec_load 4 (λ z, I32 (i32 z)) ip
   | Op.I64Load => exec_load 8 (λ z, I64 (i64 z)) ip
   | Op.I32Store => exec_store 4 to_i32 ip
   | Op.I64Store => exec_store 8 to_i64 ip
   | Op.MemorySize => exec_memory_size ip
   | Op.MemoryGrow => exec_memory_grow ip
   | Op.I32Const => exec_i32_const ip
   | Op.I64Const => exec_i64_const ip
   | Op.F32Const => exec_float_const 4 F32 ip
   | Op.F64Const => exec_float_const 8 F64 ip
   | op => match exec_numeric op with
           | Some m => do! m in ret (Next ip)
           | None => ret (Next ip)
           end
   end)%op.

(** One round of the loop after the limit check and the count. *)
Definition exec_byte (ip : nat) : M Flow :=
  (let! opcode_byte := some_or_panic (code !! ip) in
   match from_byte opcode_byte with
   | None => op_err Undefined
   | Some None => fail InvalidModule
   | Some (Some op) => exec_opcode op (S ip)
   end)%op.

Definition step (ip : nat) : M Flow :=
  (let! steps := gets steps_executed in
   let! limit := gets max_steps in
   if limit <=? steps then fail ExecutionLimit
   else do! count_step in exec_byte ip)%op.

(** [while ip < code.len()]. *)
Definition round (s : World * nat) : (World * nat) + (World * Result unit Stop) :=
  let '(w, ip) := s in
  if decide (ip < length code)%nat then
    match step ip w with
    | (w', Ok (Next ip')) => inl (w', ip')
    | (w', Ok Break) => inr (w', Ok tt)
    | (w', Err e) => inr (w', Err e)
    end
  else inr (w, Ok tt).

(** Every round but the last counts a step, so the limit bounds the rounds. *)
Definition run_loop : M unit := λ w,
  match iter_pos round (Z.to_pos (max_steps (inst w) + 1)) (w, 0%nat) with
  | inr r => r
  | inl (w', _) => (w', Err Diverges)
  end.

Definition execute_bytecode (locals : list WasmValue) : M (list WasmValue) :=
  (do! modify (λ i, with_calls (call_stack i ++ [mkFrame 0 0 locals []]) i) in
   do! run_loop in
   do! modify (λ i, with_calls (removelast (call_stack i)) i) in
   let! results := gets value_stack in
   do! modify (with_stack []) in
   ret results)%op.
End interpreter.

(** ** Opcodes decode to themselves *)

Lemma from_byte_opcode op : from_byte (opcode_byte op) = Some (Some op).
Proof. by destruct op. Qed.

(** ** Every instruction keeps the invariant *)

Section interpreter_keeps.
Context `{Platform} `{!Undefinable} (code : list Z) (base : Instance_) (t0 : list OsEvent) (n : Z) (Hn : 0 ≤ n).
Abbreviation keeps := (keeps base t0 n).

Lemma keeps_leb_at read range k ip : (∀ bytes, reads_up_to k range bytes (read bytes)) →
  keeps (leb_at code read ip) (λ r, range r.1).
Proof.
  intros Hr. unfold leb_at. case_decide; [apply keeps_panic|].
  specialize (Hr (drop ip code)). destruct (read (drop ip code)) as [[v m]|e]; [|apply keeps_fail].
  apply keeps_ret. by apply reads_up_to_Ok in Hr as [? _].
Qed.

Lemma keeps_leb_u32 ip : keeps (leb_at code read_leb128_u32 ip) (λ r, is_word 32 r.1).
Proof. apply (keeps_leb_at _ _ 5), read_leb128_u32_outcome. Qed.
Lemma keeps_leb_i32 ip : keeps (leb_at code read_leb128_i32 ip) (λ r, is_signed 32 r.1).
Proof. apply (keeps_leb_at _ _ 5), read_leb128_i32_outcome. Qed.
Lemma keeps_leb_i64 ip : keeps (leb_at code read_leb128_i64 ip) (λ r, is_signed 64 r.1).
Proof. apply (keeps_leb_at _ _ 10), read_leb128_i64_outcome. Qed.

Lemma keeps_byte_at ip : keeps (byte_at code ip) (λ _, True).
Proof.
  unfold byte_at. eapply keeps_bind; [by apply (keeps_some_or_panic _ _ _ _ (λ _, True)); destruct (code !! ip)|].
  intros. by apply keeps_ret.
Qed.

Lemma keeps_pop_i32 : keeps pop_i32 (is_signed 32).
Proof.
  eapply keeps_bind; [apply keeps_pop|]. intros v Hv. by apply keeps_ret, to_i32_range.
Qed.
Lemma keeps_pop_i64 : keeps pop_i64 (is_signed 64).
Proof.
  eapply keeps_bind; [apply keeps_pop|]. intros v Hv. by apply keeps_ret, to_i64_range.
Qed.

(** Changing the call stack. *)
Lemma keeps_calls f : (∀ i, Forall frame_ok (call_stack i) → Forall frame_ok (f i)) →
  keeps (modify (λ i, with_calls (f i) i)) (λ _, True).
Proof.
  intros Hf. apply keeps_modify. intros i []. split_and!; try done.
  - constructor; simpl; auto.
  - exists 0. unfold memory_len. simpl. lia.
Qed.

Lemma Forall_removelast {A} (P : A → Prop) l : Forall P l → Forall P (removelast l).
Proof.
  destruct l as [|x l _] using rev_ind; [done|]. rewrite removelast_last, Forall_app. naive_solver.
Qed.

Lemma keeps_top_frame : keeps top_frame frame_ok.
Proof.
  eapply keeps_bind; [apply (keeps_gets _ _ _ _ (Forall frame_ok)); by intros i []|].
  intros fs Hfs. apply keeps_some_or. destruct (list.last fs) eqn:E; simpl; [|done].
  rewrite Forall_forall in Hfs. by apply Hfs, last_Some_elem_of.
Qed.

Lemma keeps_set_top_frame f : frame_ok f → keeps (set_top_frame f) (λ _, True).
Proof.
  intros Hf. apply keeps_calls. intros i Hi. apply Forall_app. split; [by apply Forall_removelast|].
  by apply Forall_singleton.
Qed.

Lemma keeps_push_label k ip : keeps (push_label k ip) (λ _, True).
Proof.
  eapply keeps_bind; [apply keeps_top_frame|]. intros f Hf.
  eapply keeps_bind; [apply keeps_gets_any|]. intros. by apply keeps_set_top_frame.
Qed.

Lemma set_grow_ok idx v l : value_ok v → Forall value_ok l → Forall value_ok (set_grow idx v l).
Proof.
  intros Hv Hl. unfold set_grow. apply Forall_insert; [|done]. case_decide; [|done].
  apply Forall_resize; [|done]. by split.
Qed.

Lemma lookup_default_ok (l : list WasmValue) k : Forall value_ok l → value_ok (default (I32 0) (l !! k)).
Proof.
  intros Hl. destruct (l !! k) eqn:E; simpl; [|by split]. by eapply Forall_lookup_1.
Qed.

#[local] Hint Resolve keeps_leb_u32 keeps_leb_i32 keeps_leb_i64 keeps_byte_at keeps_pop_i32
  keeps_pop_i64 keeps_top_frame keeps_set_top_frame keeps_push_label set_grow_ok
  lookup_default_ok : wave.
#[local] Hint Resolve i32_range i64_range : wave.

(** An instruction made of these returns no value of interest. *)
Definition any (f : Flow) : Prop := True.

Lemma keeps_exec_if ip : keeps (exec_if code ip) any.
Proof. unfold exec_if. by keeps_walk. Qed.

Lemma keeps_exec_block k ip : keeps (exec_block code k ip) any.
Proof. unfold exec_block. by keeps_walk. Qed.

Lemma keeps_exec_end ip : keeps (exec_end ip) any.
Proof.
  unfold exec_end. keeps_walk. destruct (vec_pop _) as [[l ls]|]; keeps_walk; done.
Qed.

Lemma keeps_exec_br ip : keeps (exec_br code ip) any.
Proof.
  unfold exec_br. keeps_walk. eapply (keeps_bind _ _ _ _ _ (λ _, True)).
  - apply keeps_some_or. by destruct (label_at _ _).
  - keeps_walk; done.
Qed.

Lemma keeps_exec_br_if ip : keeps (exec_br_if code ip) any.
Proof. unfold exec_br_if. keeps_walk; try done. by destruct (label_at _ _); keeps_walk. Qed.

Lemma keeps_exec_call ip : keeps (exec_call code ip) any.
Proof.
  unfold exec_call. keeps_walk; try done.
  - eapply (keeps_bind _ _ _ _ _ (λ _, True)).
    + apply keeps_some_or_panic. by destruct (_ !! _).
    + intros. eapply keeps_bind; [by apply keeps_call_host|]. intros. by apply keeps_ret.
  - eapply keeps_bind; [|intros; by apply keeps_ret].
    apply keeps_calls. intros. apply Forall_app. split; [done|]. by repeat constructor.
Qed.

Lemma keeps_exec_drop ip : keeps (exec_drop ip) any.
Proof.
  eapply keeps_bind; [apply keeps_gets_stack|]. intros vs Hvs. destruct (vec_pop vs) as [[v vs']|] eqn:E; [|by apply keeps_ret].
  apply vec_pop_Some in E as ->. apply Forall_app in Hvs as [??].
  eapply keeps_bind; [by apply keeps_stack|]. intros. by apply keeps_ret.
Qed.

Lemma keeps_exec_select ip : keeps (exec_select ip) any.
Proof.
  unfold exec_select. keeps_walk. eapply (keeps_bind _ _ _ _ _ (λ _, True)); [|by keeps_walk].
  apply keeps_if; eauto with wave.
Qed.

Lemma keeps_exec_local_get ip : keeps (exec_local_get code ip) any.
Proof. unfold exec_local_get. keeps_walk. done. Qed.

Lemma keeps_exec_local_set ip : keeps (exec_local_set code ip) any.
Proof.
  unfold exec_local_set. keeps_walk.
  eapply keeps_bind; [apply keeps_set_top_frame; by apply set_grow_ok|]. by keeps_walk.
Qed.

Lemma keeps_exec_local_tee ip : keeps (exec_local_tee code ip) any.
Proof.
  unfold exec_local_tee. eapply keeps_bind; [apply keeps_leb_u32|]. intros r Hr.
  eapply keeps_bind; [apply keeps_gets_stack|]. intros vs Hvs.
  eapply (keeps_bind _ _ _ _ _ value_ok).
  { apply keeps_some_or. destruct (list.last vs) eqn:E; simpl; [|done].
    rewrite Forall_forall in Hvs. by apply Hvs, last_Some_elem_of. }
  keeps_walk. eapply keeps_bind; [apply keeps_set_top_frame; by apply set_grow_ok|]. by keeps_walk.
Qed.

Lemma keeps_exec_global_get ip : keeps (exec_global_get code ip) any.
Proof.
  unfold exec_global_get. by keeps_walk.
Qed.

Lemma keeps_exec_global_set ip : keeps (exec_global_set code ip) any.
Proof.
  unfold exec_global_set. keeps_walk. eapply keeps_bind; [|by keeps_walk].
  apply keeps_modify. intros i []. split_and!; try done.
  - constructor; simpl; auto. by apply set_grow_ok.
  - exists 0. unfold memory_len. simpl. lia.
Qed.

Lemma keeps_memarg ip : keeps (memarg code ip) (λ r, is_word 32 r.1).
Proof. unfold memarg. keeps_walk. apply keeps_leb_u32. Qed.

Lemma keeps_exec_load k value ip : (∀ z, value_ok (value z)) →
  keeps (exec_load code k value ip) any.
Proof.
  intros Hv. unfold exec_load. eapply keeps_bind; [apply keeps_memarg|]. by keeps_walk.
Qed.

Lemma keeps_exec_store k to_value ip : (k ≤ 8)%nat → keeps (exec_store code k to_value ip) any.
Proof.
  intros Hk. unfold exec_store. eapply keeps_bind; [apply keeps_memarg|]. keeps_walk.
  eapply keeps_bind; [|by keeps_walk]. apply keeps_copy_to_memory; [apply to_le_bytes_byte|].
  rewrite length_to_le_bytes. lia.
Qed.

Lemma keeps_exec_memory_size ip : keeps (exec_memory_size code ip) any.
Proof.
  unfold exec_memory_size. eapply keeps_bind; [apply keeps_byte_at|]. intros.
  eapply keeps_bind; [apply keeps_gets_any|]. intros.
  eapply keeps_bind; [apply keeps_push, i32_range|]. by keeps_walk.
Qed.

Lemma keeps_try_grow pages : is_word 32 pages → keeps (try_grow pages) (is_signed 32).
Proof.
  intros Hp w Hw. unfold try_grow. destruct (keeps_grow_memory _ _ _ pages Hp w Hw) as [Hw' Hr].
  destruct (grow_memory pages w) as [w' [old|[]]]; (split; [done|]); simpl; try done.
  apply i32_range.
Qed.

Lemma keeps_exec_memory_grow ip : keeps (exec_memory_grow code ip) any.
Proof.
  unfold exec_memory_grow. eapply keeps_bind; [apply keeps_byte_at|]. keeps_walk.
  eapply keeps_bind; [by apply keeps_try_grow, wrap_word|]. by keeps_walk.
Qed.

Lemma keeps_exec_i32_const ip : keeps (exec_i32_const code ip) any.
Proof. unfold exec_i32_const. by keeps_walk. Qed.
Lemma keeps_exec_i64_const ip : keeps (exec_i64_const code ip) any.
Proof. unfold exec_i64_const. by keeps_walk. Qed.

Lemma keeps_exec_float_const k value ip : Forall is_byte code →
  (∀ bs, Forall is_byte bs → (length bs ≤ k)%nat → value_ok (value (from_le_bytes bs))) →
  keeps (exec_float_const code k value ip) any.
Proof.
  intros Hc Hv. unfold exec_float_const. case_decide; [apply keeps_fail|].
  eapply keeps_bind; [|by keeps_walk]. apply keeps_push, Hv; [by apply Forall_take, Forall_drop|].
  rewrite length_take. lia.
Qed.

Lemma from_le_bytes_word k bs : Forall is_byte bs → (length bs ≤ k)%nat →
  is_word (8 * Z.of_nat k) (from_le_bytes bs).
Proof.
  intros Hb Hl. destruct (from_le_bytes_range bs Hb) as [? Hu]. split; [done|].
  eapply Z.lt_le_trans; [exact Hu|]. apply Z.pow_le_mono_r; lia.
Qed.

(** ** Numeric instructions *)

Lemma bool_range (b : bool) : is_signed 32 (if b then 1 else 0).
Proof. by destruct b. Qed.

Lemma leading_zeros_range a : is_word 32 a → 0 ≤ leading_zeros a ≤ 32.
Proof.
  intros [Ha Ha']. unfold leading_zeros. destruct (Z.eqb_spec a 0); [lia|].
  pose proof (Z.log2_nonneg a). assert (Z.log2 a < 32) by (apply Z.log2_lt_pow2; lia). lia.
Qed.

Lemma trailing_zeros_range a : is_word 32 a → 0 ≤ trailing_zeros a ≤ 32.
Proof.
  intros Ha. unfold trailing_zeros. destruct (Z.eqb_spec a 0); [lia|].
  pose proof (Z.log2_nonneg (Z.land a (- a))). split; [done|].
  assert (0 ≤ Z.land a (- a)) as Hnn by (apply Z.land_nonneg; left; apply Ha).
  assert (is_word 32 (Z.land a (- a))) as [_ Hl].
  { apply is_word_testbit; [done..|]. intros j Hj. rewrite Z.land_spec.
    by rewrite (proj1 (is_word_testbit 32 a ltac:(done) (proj1 Ha)) Ha j Hj). }
  destruct (decide (Z.land a (- a) = 0)) as [->|]; [done|].
  assert (Z.log2 (Z.land a (- a)) < 32) by (apply Z.log2_lt_pow2; lia). lia.
Qed.

Lemma count_ones_range a : 0 ≤ count_ones a ≤ 32.
Proof.
  unfold count_ones. pose proof (length_filter (λ k, Z.testbit a (Z.of_nat k) = true) (seq 0 32)) as Hf.
  rewrite length_seq in Hf. lia.
Qed.

Lemma small_signed z : 0 ≤ z ≤ 32 → is_signed 32 z.
Proof. unfold is_signed. lia. Qed.

Lemma i32_unary_range op f a : i32_unary op = Some f → is_signed 32 (f a).
Proof.
  destruct op; try done; intros [= <-].
  - destruct (_ =? _); by split.
  - apply small_signed, leading_zeros_range. by apply wrap_word.
  - apply small_signed, trailing_zeros_range. by apply wrap_word.
  - apply small_signed, count_ones_range.
Qed.

Lemma i32_binary_range op f a b : i32_binary op = Some f →
  is_signed 32 a → is_signed 32 b → is_signed 32 (f a b).
Proof.
  destruct op; try done; intros [= <-] Ha Hb;
    first [apply i32_range | by apply land_signed | by apply lor_signed | by apply lxor_signed
          | by apply shl_signed_range | by apply shr_signed_range].
Qed.

Lemma i32_divide_range op f a b : i32_divide op = Some f → is_signed 32 (f a b).
Proof. destruct op; try done; intros [= <-]; try apply i32_range; by apply signed_range. Qed.

Lemma i64_binary_range op f a b : i64_binary op = Some f → is_signed 64 (f a b).
Proof. destruct op; try done; intros [= <-]; apply i64_range. Qed.

Lemma keeps_exec_numeric op m : exec_numeric op = Some m → keeps m (λ _, True).
Proof.
  unfold exec_numeric.
  destruct (i32_unary op) as [f|] eqn:E1.
  { intros [= <-]. keeps_walk. apply keeps_push. by eapply i32_unary_range. }
  destruct (i32_compare op) as [f|].
  { intros [= <-]. keeps_walk. apply keeps_push, bool_range. }
  destruct (i32_binary op) as [f|] eqn:E2.
  { intros [= <-]. keeps_walk. apply keeps_push. by eapply i32_binary_range. }
  destruct (i32_divide op) as [f|] eqn:E3.
  { intros [= <-]. keeps_walk. apply keeps_push. by eapply i32_divide_range. }
  destruct (i64_binary op) as [f|] eqn:E4.
  { intros [= <-]. keeps_walk. apply keeps_push. by eapply i64_binary_range. }
  destruct op; try done; intros [= <-]; keeps_walk; apply keeps_push.
  - apply i32_range.
  - by apply is_signed_32_64.
  - apply is_signed_word. by apply wrap_word.
Qed.

Lemma keeps_exec_opcode op ip : Forall is_byte code → keeps (exec_opcode code op ip) any.
Proof.
  intros Hc. assert (match exec_numeric op with
    | Some m => keeps (do! m in ret (Next ip))%op any
    | None => True end) as Hnum.
  { destruct (exec_numeric op) eqn:E; [|done].
    eapply keeps_bind; [by eapply keeps_exec_numeric|]. by keeps_walk. }
  destruct op; unfold exec_opcode;
    try (by keeps_walk); try exact Hnum;
    auto using keeps_exec_block, keeps_exec_if, keeps_exec_end, keeps_exec_br, keeps_exec_br_if,
      keeps_exec_call, keeps_exec_drop, keeps_exec_select, keeps_exec_local_get,
      keeps_exec_local_set, keeps_exec_local_tee, keeps_exec_global_get, keeps_exec_global_set,
      keeps_exec_memory_size, keeps_exec_memory_grow, keeps_exec_i32_const, keeps_exec_i64_const.
  - apply keeps_exec_load. intros. apply i32_range.
  - apply keeps_exec_load. intros. apply i64_range.
  - apply keeps_exec_store. lia.
  - apply keeps_exec_store. lia.
  - apply keeps_exec_float_const; [done|]. intros bs Hb Hl. by apply (from_le_bytes_word 4).
  - apply keeps_exec_float_const; [done|]. intros bs Hb Hl. by apply (from_le_bytes_word 8).
Qed.

Lemma keeps_exec_byte ip : Forall is_byte code → (∀ b, b ∈ code → from_byte b = None → undefinable) →
  keeps (exec_byte code ip) any.
Proof.
  intros Hc Hu. unfold exec_byte. eapply (keeps_bind _ _ _ _ _ (λ b, b ∈ code)).
  - apply keeps_some_or_panic. destruct (code !! ip) eqn:E; [by eapply list_elem_of_lookup_2|done].
  - intros b Hb. destruct (from_byte b) as [[op|]|] eqn:E;
      [by apply keeps_exec_opcode|apply keeps_fail|apply keeps_err; split; eauto].
Qed.
End interpreter_keeps.

(** ** The loop *)

(** A byte of the code in the gaps of the opcode table, whose transmute is undefined. *)
Definition holds_undefined (code : list Z) : Prop := ∃ b, b ∈ code ∧ from_byte b = None.

Section loop_keeps.
Context `{Platform} (code : list Z) (Hc : Forall is_byte code).
#[local] Instance code_undefinable : Undefinable := holds_undefined code.
Context (base : Instance_) (t0 : list OsEvent).

Lemma step_counts ip w : inv base t0 0 w →
  inv base t0 0 (step code ip w).1 ∧
  match (step code ip w).2 with
  | Ok _ => steps_executed (inst w) < max_steps (inst w) ∧
            steps_executed (inst w) < steps_executed (inst (step code ip w).1)
  | Err e => stops_well e
  end.
Proof.
  intros Hw. unfold step. rewrite !gets_bind. case_match; [by apply keeps_fail|].
  pose proof (inv_count _ _ 0 w Hw ltac:(done) ltac:(lia)) as Hw1.
  change ((do! count_step in exec_byte code ip)%op w) with (exec_byte code ip (count_step w).1).
  pose proof (inv_steps _ _ _ _ Hw).
  destruct (keeps_exec_byte code base t0 (steps_executed (inst w) + 1) ltac:(lia) ip Hc (λ b Hb Hn, ex_intro _ b (conj Hb Hn)) _ Hw1) as [Hw2 Hr].
  split; [eapply inv_weaken; [|exact Hw2]; lia|].
  pose proof (inv_steps _ _ _ _ Hw2). destruct (_.2); [lia|done].
Qed.

Lemma round_keeps s : inv base t0 0 s.1 →
  match round code s with
  | inl s' => inv base t0 0 s'.1 ∧ steps_executed (inst s.1) < max_steps (inst s.1) ∧
              steps_executed (inst s.1) < steps_executed (inst s'.1)
  | inr r => inv base t0 0 r.1 ∧ ∀ e, r.2 = Err e → stops_well e
  end.
Proof.
  destruct s as [w ip]. simpl. intros Hw. case_decide; [|done].
  destruct (step_counts ip w Hw) as [Hw' Hr].
  destruct (step code ip w) as [w' [[ip'|]|e]]; simpl in *; naive_solver.
Qed.

Lemma keeps_run_loop : keeps base t0 0 (run_loop code) (λ _, True).
Proof.
  intros w Hw. unfold run_loop.
  assert (max_steps (inst w) = max_steps base) as Hm by (by destruct Hw).
  destruct (iter_pos_bounded (round code) (λ s, inv base t0 0 s.1)
    (λ r, inv base t0 0 r.1 ∧ ∀ e, r.2 = Err e → stops_well e) (λ s, steps_executed (inst s.1))
    (max_steps base) (Z.to_pos (max_steps (inst w) + 1)) (w, 0%nat)) as (r & -> & Hr & Hd).
  - intros s s' Hs E. pose proof (round_keeps s Hs) as Hk. rewrite E in Hk. tauto.
  - intros s r Hs E. pose proof (round_keeps s Hs) as Hk. rewrite E in Hk. tauto.
  - intros s s' Hs Ht E. pose proof (round_keeps s Hs) as Hk. rewrite E in Hk.
    rewrite (inv_max _ _ _ _ Hs) in Hk. lia.
  - done.
  - simpl. rewrite Hm. destruct (ok_max_steps _ (inv_ok _ _ _ _ Hw)).
    pose proof (inv_steps _ _ _ _ Hw). rewrite Z2Pos.id by lia. lia.
  - split; [done|]. destruct r as [w' [|e]]; simpl in *; [done|by apply Hd].
Qed.

Lemma keeps_execute_bytecode ls : Forall value_ok ls →
  keeps base t0 0 (execute_bytecode code ls) (Forall value_ok).
Proof.
  intros Hl. unfold execute_bytecode.
  eapply keeps_bind.
  { apply (keeps_calls _ _ _ (λ i, call_stack i ++ [mkFrame 0 0 ls []])). intros i Hi.
    apply Forall_app. split; [done|]. by apply Forall_singleton. }
  intros _ _. eapply keeps_bind; [apply keeps_run_loop|]. intros _ _. eapply keeps_bind.
  { apply (keeps_calls _ _ _ (λ i, removelast (call_stack i))). intros i. apply Forall_removelast. }
  intros _ _. eapply keeps_bind; [apply keeps_gets_stack|]. intros vs Hvs.
  eapply keeps_bind; [by apply keeps_stack|]. intros _ _. by apply keeps_ret.
Qed.
End loop_keeps.

Lemma inv_start w n : instance_ok (inst w) → n ≤ steps_executed (inst w) →
  inv (inst w) (trace w) n w.
Proof.
  intros Hok Hn. split; try done; [lia|exists 0; lia|exists []; by split].
Qed.

(** ** Theorems *)

(** [C9] A module cannot leave its sandbox, whatever its bytes: running any code on any
    well-formed instance leaves the instance well-formed (its memory bytes, its values in
    the range of their types), leaves the bindings, the imports and the limit as they
    were, only lets memory grow by whole pages, and everything that reached the outside
    (system calls, serial output, clock readings) was authorised by a host function bound
    to this instance. This holds however the run stops; a run that stops as [Undefined] has
    reached a byte in a gap of the opcode table, whose transmute is undefined behaviour
    in Rust, and such a byte is in the code: what follows it is outside the model. *)
Theorem sandbox_confined `{Platform} code ls w w' r :
  Forall is_byte code → Forall value_ok ls → instance_ok (inst w) →
  is_u64 (steps_executed (inst w)) →
  execute_bytecode code ls w = (w', r) →
  instance_ok (inst w') ∧
  host_functions (inst w') = host_functions (inst w) ∧
  imports (inst w') = imports (inst w) ∧
  max_steps (inst w') = max_steps (inst w) ∧
  inst_id (inst w') = inst_id (inst w) ∧ module_id (inst w') = module_id (inst w) ∧
  (∃ k, 0 ≤ k ∧ memory_len (inst w') = memory_len (inst w) + 65536 * k) ∧
  (∃ t, trace w' = t ++ trace w ∧ Forall (authorised (host_functions (inst w))) t) ∧
  (r = Err Undefined → holds_undefined code).
Proof.
  intros Hc Hl Hok [Hs _] E.
  destruct (keeps_execute_bytecode code Hc (inst w) (trace w) ls Hl w (inv_start w 0 Hok Hs))
    as [[? [??] ? ? ? ? ? ? ?] Hr].
  rewrite E in *. split_and!; try done. intros ->. by apply Hr.
Qed.

(** [C21] The interpreter always stops, within the step limit of the instance: on every
    code and well-formed instance its loop never runs for ever, no more than [max_steps]
    instructions are counted (unless the counter already stood above), and it stops in one
    of four ways: with values of the range of their types, with an error of the code,
    with a panic of the code, or, only where the code holds a byte in a gap of the opcode
    table, in undefined behaviour. The instance is well-formed whichever it is. *)
Theorem execute_bytecode_total `{Platform} code ls w w' r :
  Forall is_byte code → Forall value_ok ls → instance_ok (inst w) →
  is_u64 (steps_executed (inst w)) →
  execute_bytecode code ls w = (w', r) →
  steps_executed (inst w') ≤ Z.max (steps_executed (inst w)) (max_steps (inst w)) ∧
  instance_ok (inst w') ∧
  match r with
  | Ok vs => Forall value_ok vs
  | Err (Fail _) | Err Panics => True
  | Err Undefined => holds_undefined code
  | Err Diverges => False
  end.
Proof.
  intros Hc Hl Hok [Hs _] E.
  destruct (keeps_execute_bytecode code Hc (inst w) (trace w) ls Hl w (inv_start w 0 Hok Hs))
    as [[? [??] ? ? ? ? ? ? ?] Hr].
  rewrite E in *. simpl in *. split_and!; [done..|]. destruct r as [|[]]; simpl in *; try done; by apply Hr.
Qed.

(** [C39] Host functions keep to their signatures: any of the functions of the runtime, invoked
    on any values (as many as its signature has parameters, of whatever types) on a
    well-formed instance, answers with values of exactly the types its signature declares as
    results, each in the range of its type, and leaves the instance well-formed; or it
    stops with an error or a panic, never in undefined behaviour or an endless loop. *)
Theorem host_functions_typed `{Platform} func args w w' r :
  instance_ok (inst w) → is_u64 (steps_executed (inst w)) → Forall value_ok args →
  length args = length (params (signature func)) →
  invoke_host_function func args w = (w', r) →
  instance_ok (inst w') ∧
  match r with
  | Ok vs => Forall value_ok vs ∧ value_type <$> vs = results (signature func)
  | Err e => e ≠ Diverges ∧ e ≠ Undefined
  end.
Proof.
  intros Hok [Hs _] Ha Hl E. pose (Hu := False : Undefinable).
  destruct (keeps_invoke (inst w) (trace w) 0 ltac:(done) func args Ha w (inv_start w 0 Hok Hs)) as [Hi Hr].
  rewrite E in *. split; [apply Hi|]. destruct r as [vs|e]; simpl in Hr.
  - destruct Hr as [Hv Ht]. split; [done|by apply Ht].
  - destruct Hr as [Hd Hn]. split; [done|]. by intros ->; apply Hn.
Qed.

(** ** A concrete instance *)

#[local] Instance quiet : Platform := {| os_reply := λ _ _, 7; nan32 := λ _ _, 0; nan64 := λ _ _, 0 |}.

(** A small memory, [s_log] and [s_process_getpid] bound. *)
Definition sample_instance : Instance_ :=
  mkInst 1 1 [] [mkBound SLog (mkToken 1 0 0 0); mkBound SProcessGetPid (mkToken 2 0 0 0)]
    (replicate 64 0) [] [] [] Ready 0 1000 false ∅ false.
Definition sample : World := mkWorld sample_instance [].

Definition run (code : list Z) (ls : list WasmValue) : Result (list WasmValue) Stop :=
  (execute_bytecode code ls sample).2.

(** [local.get 0; i32.const 5; i32.add; end] *)
Example run_add : run [0x20; 0; 0x41; 5; 0x6A; 0x0B] [I32 37] = Ok [I32 42].
Proof. by vm_compute. Qed.

(** [call 1]: the process identifier, from the system call. *)
Example run_getpid :
  execute_bytecode [0x10; 1; 0x0B] [] sample =
  (mkWorld (with_steps 3 sample_instance) [GetPid], Ok [I64 7]).
Proof. by vm_compute. Qed.

(** [i32.const 8; i32.const 513; i32.store; i32.const 9; i32.load; end]: memory is
    little endian. *)
Example run_store_load :
  run [0x41; 8; 0x41; 0x81; 0x04; 0x36; 2; 0; 0x41; 9; 0x28; 2; 0; 0x0B] [] = Ok [I32 2].
Proof. by vm_compute. Qed.

(** [i32.const 1; if; i32.const 7; else; i32.const 9; end; end] *)
Example run_if : run [0x41; 1; 0x04; 0x7F; 0x41; 7; 0x05; 0x41; 9; 0x0B; 0x0B] [] = Ok [I32 7].
Proof. by vm_compute. Qed.

Ltac small_bytes := repeat (apply Forall_cons; split; [by split|]); by apply Forall_nil.

Lemma sample_ok : instance_ok sample_instance.
Proof.
  split; simpl; [small_bytes|done|constructor..|by split].
Qed.

Lemma sandbox_confined_witness :
  Forall is_byte [0x10; 1; 0x0B] ∧ instance_ok (inst sample) ∧
  host_functions (inst (execute_bytecode [0x10; 1; 0x0B] [] sample).1) = host_functions (inst sample).
Proof.
  assert (Forall is_byte [0x10; 1; 0x0B]) as Hc by small_bytes.
  split; [done|]. split; [apply sample_ok|].
  apply (sandbox_confined [0x10; 1; 0x0B] [] sample _ (execute_bytecode [0x10; 1; 0x0B] [] sample).2);
    [done|constructor|apply sample_ok|by split|apply surjective_pairing].
Defined.

Lemma host_functions_typed_witness :
  (invoke_host_function SProcessGetPid [] sample).2 = Ok [I64 7] ∧
  value_type <$> [I64 7] = results (signature SProcessGetPid).
Proof.
  assert (invoke_host_function SProcessGetPid [] sample =
    ((invoke_host_function SProcessGetPid [] sample).1, Ok [I64 7])) as E by (by vm_compute).
  split; [by rewrite E|].
  apply (host_functions_typed SProcessGetPid [] sample _ (Ok [I64 7]) sample_ok ltac:(by split) (Forall_nil_2 _) eq_refl E).
Defined.

Lemma execute_bytecode_total_witness :
  Forall is_byte [0x03; 0x40; 0x0C; 0; 0x0B] ∧ instance_ok (inst sample) ∧
  (execute_bytecode [0x03; 0x40; 0x0C; 0; 0x0B] [] sample).2 = Err (Fail ExecutionLimit) ∧
  (execute_bytecode [0x03; 0x40; 0x0C; 0; 0x0B] [] sample).2 ≠ Err Diverges.
Proof.
  assert (Forall is_byte [0x03; 0x40; 0x0C; 0; 0x0B]) as Hc by small_bytes.
  split; [done|]. split; [apply sample_ok|]. split; [by vm_compute|].
  intros E. pose proof (execute_bytecode_total [0x03; 0x40; 0x0C; 0; 0x0B] [] sample _ _ Hc (Forall_nil_2 _)
    sample_ok ltac:(by split) (surjective_pairing _)) as (_ & _ & Hr). rewrite E in Hr. exact Hr.
Defined.

(** ** Where the interpreter departs from WASM *)

(** What module bytes can provoke, by running them: a load at a negative address
    slips through the wrapped bounds check and panics; so does a block without a
    type byte; a byte that is no opcode is undefined behaviour; [br_if] out of a block
    goes back to its start and runs into the limit; skipping takes an immediate 11 for
    the [end] of the untaken branch; calling a function of the module loses the locals
    and goes on after the call; and [i64.div_s] does nothing. *)
Theorem interpreter_departures :
  run [0x41; 0x7E; 0x28; 2; 0; 0x0B] [] = Err Panics ∧
  run [0x02] [] = Err Panics ∧
  run [0x06] [] = Err Undefined ∧
  run [0x02; 0x40; 0x41; 1; 0x0D; 0; 0x0B; 0x41; 3; 0x0B] [] = Err (Fail ExecutionLimit) ∧
  run [0x41; 0; 0x04; 0x7F; 0x41; 11; 0x1A; 0x05; 0x41; 9; 0x0B; 0x0B] [] = Ok [] ∧
  run [0x20; 0; 0x10; 2; 0x20; 0; 0x0B] [I32 3] = Ok [I32 3; I32 0] ∧
  run [0x42; 6; 0x42; 2; 0x7F; 0x0B] [] = Ok [I64 6; I64 2].
Proof. split_and!; by vm_compute. Qed.

(** ** Growing memory *)

(** [grow_memory] on an instance of [p] pages: up to 65536 pages in all, memory gets
    that many zero pages more and the old size is returned; beyond, it is refused and
    nothing changes; but a request so large that the page count wraps at 32 bits
    passes the check, and memory outgrows the four gigabytes the limit stands for. *)
Theorem grow_memory_bounds w pages p :
  instance_ok (inst w) → is_word 32 pages → 0 ≤ p ≤ 65536 → memory_len (inst w) = 65536 * p →
  (p + pages ≤ 65536 →
   ∃ m, grow_memory pages w = (mkWorld (with_memory m (inst w)) (trace w), Ok p) ∧
        m = memory (inst w) ++ replicate (Z.to_nat (65536 * pages)) 0) ∧
  (65536 < p + pages < 2 ^ 32 → grow_memory pages w = (w, Err (Fail OutOfMemory))) ∧
  (2 ^ 32 ≤ p + pages →
   ∃ m, grow_memory pages w = (mkWorld (with_memory m (inst w)) (trace w), Ok p) ∧
        Z.of_nat (length m) = 65536 * (p + pages)).
Proof.
  intros Hok [Hg0 Hg] Hp Hm.
  assert (memory_pages (inst w) = p) as Hpages.
  { unfold memory_pages. rewrite Hm, Z.mul_comm, Z.div_mul by done. apply wrap_small. split; lia. }
  assert (u64_add (memory_len (inst w)) (u64_mul pages 65536) = 65536 * (p + pages)) as Hs.
  { unfold u64_add, u64_mul. rewrite (u64_small (pages * 65536)) by (unfold is_u64; lia).
    rewrite u64_small by (unfold is_u64; lia). lia. }
  unfold grow_memory. rewrite !gets_bind, Hpages, Hs. cbv zeta.
  destruct (Z.leb_spec (2 ^ 63) (65536 * (p + pages))); [lia|].
  assert (∀ k, 0 ≤ k → resize (Z.to_nat (65536 * (p + k))) 0 (memory (inst w)) =
    memory (inst w) ++ replicate (Z.to_nat (65536 * k)) 0) as Hr.
  { intros k Hk. unfold memory_len in Hm. rewrite resize_ge by lia. do 2 f_equal. lia. }
  split_and!.
  - intros Hle. destruct (Z.ltb_spec 65536 (u32 (p + pages))) as [Hl|_].
    { unfold u32 in Hl. rewrite wrap_small in Hl; [lia|split; lia]. }
    eexists. split; [done|]. by apply Hr.
  - intros [Hlo Hhi]. destruct (Z.ltb_spec 65536 (u32 (p + pages))) as [_|Hl]; [by destruct w|].
    unfold u32 in Hl. rewrite wrap_small in Hl; [lia|split; lia].
  - intros Hge. destruct (Z.ltb_spec 65536 (u32 (p + pages))) as [Hl|_].
    { unfold u32, wrap in Hl. rewrite <-(Z.mod_unique (p + pages) (2 ^ 32) 1 (p + pages - 2 ^ 32)) in Hl; lia. }
    eexists. split; [done|]. rewrite length_resize. lia.
Qed.

Lemma grow_memory_bounds_witness :
  let w := mkWorld (with_memory [] sample_instance) [] in
  memory_len (inst w) = 65536 * 0 ∧
  ∃ m, grow_memory 3 w = (mkWorld (with_memory m (inst w)) (trace w), Ok 0) ∧
       m = [] ++ replicate (Z.to_nat (65536 * 3)) 0.
Proof.
  split; [reflexivity|].
  refine (proj1 (grow_memory_bounds (mkWorld (with_memory [] sample_instance) []) 3 0 _ _ _ _) _).
  - split; simpl; [constructor|done|constructor..|by split].
  - by split.
  - by split.
  - reflexivity.
  - done.
Defined.
