(* ===== verification/WaveStraight.v ===== *)
(** * WaveStraight: straight-line code, encoded, interpreted and specified

    A typed machine over 32-bit integers (a stack and local variables) for the
    instructions without control flow and memory, their binary encoding, and the proof
    that the byte-level interpreter of [WaveInterp] refines the machine: the same result
    or the same error, and nothing else of the instance touched. The baseline
    compiler of [WaveJit] is measured against the same machine. *)

From Stdlib Require Import ZArith Lia.
From stdpp Require Import list.
From S2P Require Import Prelude.
From S2P Require Import Ids.
From S2P Require Import Bytes.
From S2P Require Import Loop.
From S2P Require Import WaveValue.
From S2P Require Import Leb128.
From S2P Require Import WaveInst.
From S2P Require Import WaveInterp.

(** ** The machine *)

Inductive instr :=
| Const (z : Z)
| LGet (i : Z)
| LSet (i : Z)
| LTee (i : Z)
| Pop
| Sel
| Num (op : Opcode).

(** The stack, top first, and the local variables. *)
Definition config : Type := list Z * list Z.

Definition set_local (i v : Z) (l : list Z) : list Z :=
  let k := Z.to_nat i in
  <[k := v]> (if decide (length l ≤ k)%nat then resize (S k) 0 l else l).

Definition num_step (op : Opcode) (st : list Z) : Result (list Z) WaveError :=
  match i32_unary op, i32_compare op, i32_binary op, i32_divide op with
  | Some f, _, _, _ => match st with a :: st => Ok (f a :: st) | _ => Err TypeMismatch end
  | _, Some f, _, _ =>
      match st with
      | b :: a :: st => Ok ((if f a b then 1 else 0) :: st) | _ => Err TypeMismatch end
  | _, _, Some f, _ =>
      match st with b :: a :: st => Ok (f a b :: st) | _ => Err TypeMismatch end
  | _, _, _, Some f =>
      match st with
      | b :: a :: st => if b =? 0 then Err InvalidState else Ok (f a b :: st)
      | _ => Err TypeMismatch
      end
  | _, _, _, _ => Err TypeMismatch
  end.

Definition instr_step (i : instr) (c : config) : Result config WaveError :=
  let '(st, ls) := c in
  match i with
  | Const z => Ok (z :: st, ls)
  | LGet k => Ok (default 0 (ls !! Z.to_nat k) :: st, ls)
  | LSet k => match st with v :: st => Ok (st, set_local k v ls) | [] => Err TypeMismatch end
  | LTee k => match st with v :: _ => Ok (st, set_local k v ls) | [] => Err TypeMismatch end
  | Pop => Ok (tail st, ls)
  | Sel => match st with
           | c :: b :: a :: st => Ok ((if negb (c =? 0) then a else b) :: st, ls)
           | _ => Err TypeMismatch
           end
  | Num op => match num_step op st with Ok st => Ok (st, ls) | Err e => Err e end
  end.

Fixpoint instrs_step (p : list instr) (c : config) : Result config WaveError :=
  match p with
  | [] => Ok c
  | i :: p => match instr_step i c with Ok c => instrs_step p c | Err e => Err e end
  end.

(** ** The encoding *)

(** An integer instruction of the tables of the interpreter. *)
Definition is_num (op : Opcode) : bool :=
  match i32_unary op, i32_compare op, i32_binary op, i32_divide op with
  | None, None, None, None => false
  | _, _, _, _ => true
  end.

Definition instr_ok (i : instr) : Prop :=
  match i with
  | Const z => is_signed 32 z
  | LGet k | LSet k | LTee k => is_word 32 k
  | Pop | Sel => True
  | Num op => is_num op = true
  end.

Definition opcode_of (i : instr) : Opcode :=
  match i with
  | Const _ => Op.I32Const
  | LGet _ => Op.LocalGet
  | LSet _ => Op.LocalSet
  | LTee _ => Op.LocalTee
  | Pop => Op.Drop
  | Sel => Op.Select
  | Num op => op
  end.

Definition immediate (i : instr) : list Z :=
  match i with
  | Const z => encode_i32 z
  | LGet k | LSet k | LTee k => encode_u32 k
  | _ => []
  end.

Definition encode (i : instr) : list Z := opcode_byte (opcode_of i) :: immediate i.

Definition body (p : list instr) : list Z := concat (encode <$> p) ++ [opcode_byte Op.End].

(** ** Configurations of the interpreter *)

Definition stk (st : list Z) : list WasmValue := I32 <$> rev st.
#[global] Arguments stk : simpl never.

Lemma stk_cons x st : stk (x :: st) = stk st ++ [I32 x].
Proof. unfold stk. simpl. by rewrite fmap_app. Qed.

Section refine.
Context `{Platform} (i0 : Instance_) (t : list OsEvent) (cs : list CallFrame).

Definition at_config (c : config) (n : Z) : World :=
  mkWorld (with_steps n (with_stack (stk c.1)
            (with_calls (cs ++ [mkFrame 0 0 (I32 <$> c.2) []]) i0))) t.

Lemma pop_cons x st ls n : pop (at_config (x :: st, ls) n) = (at_config (st, ls) n, Ok (I32 x)).
Proof.
  unfold pop. rewrite gets_bind. simpl. by rewrite stk_cons, vec_pop_snoc.
Qed.

Lemma pop_nil ls n : pop (at_config ([], ls) n) = (at_config ([], ls) n, Err (Fail TypeMismatch)).
Proof. done. Qed.

Lemma pop_i32_cons x st ls n :
  pop_i32 (at_config (x :: st, ls) n) = (at_config (st, ls) n, Ok x).
Proof. unfold pop_i32, op_bind. by rewrite pop_cons. Qed.

Lemma pop_i32_nil ls n :
  pop_i32 (at_config ([], ls) n) = (at_config ([], ls) n, Err (Fail TypeMismatch)).
Proof. done. Qed.

Lemma push_config x st ls n : push (I32 x) (at_config (st, ls) n) = (at_config (x :: st, ls) n, Ok tt).
Proof. unfold push, modify, at_config. simpl. by rewrite stk_cons. Qed.

Lemma top_frame_config c n :
  top_frame (at_config c n) = (at_config c n, Ok (mkFrame 0 0 (I32 <$> c.2) [])).
Proof. unfold top_frame. rewrite gets_bind. simpl. by rewrite last_snoc. Qed.

Lemma set_top_frame_config st ls ls' n :
  set_top_frame (mkFrame 0 0 (I32 <$> ls') []) (at_config (st, ls) n) = (at_config (st, ls') n, Ok tt).
Proof. unfold set_top_frame, modify, at_config. simpl. by rewrite removelast_last. Qed.

Lemma set_grow_config k v ls : set_grow k (I32 v) (I32 <$> ls) = I32 <$> set_local k v ls.
Proof.
  unfold set_grow, set_local. rewrite list_fmap_insert, length_fmap.
  case_decide; [|done]. by rewrite fmap_resize.
Qed.

(** ** One instruction *)

Context (pre post : list Z).

Definition outcome (i : instr) (n : Z) (r : Result config WaveError) (w : World * Result Flow Stop) : Prop :=
  match r with
  | Ok c => w = (at_config c n, Ok (Next (length pre + length (encode i))%nat))
  | Err e => w.2 = Err (Fail e)
  end.

Lemma leb_at_post read i v w :
  read (immediate i ++ post) = Ok (v, length (immediate i)) →
  leb_at (pre ++ encode i ++ post) read (S (length pre)) w =
    (w, Ok (v, (length pre + length (encode i))%nat)).
Proof.
  intros Hr. unfold leb_at. case_decide as Hd.
  { rewrite length_app in Hd. simpl in Hd. lia. }
  replace (drop (S (length pre)) (pre ++ encode i ++ post)) with (immediate i ++ post).
  - rewrite Hr. unfold ret, op_ret. do 3 f_equal. simpl. lia.
  - change (pre ++ encode i ++ post) with (pre ++ [opcode_byte (opcode_of i)] ++ (immediate i ++ post)).
    rewrite app_assoc, drop_app_length'; [done|]. rewrite length_app. simpl. lia.
Qed.

Lemma ip_one i : immediate i = [] → S (length pre) = (length pre + length (encode i))%nat.
Proof. intros Hi. unfold encode. rewrite Hi. simpl. lia. Qed.

Lemma step_ok {A B} (m : M A) (k : A → M B) w w' a : m w = (w', Ok a) → op_bind m k w = k a w'.
Proof. unfold op_bind. by intros ->. Qed.
Lemma step_err {A B} (m : M A) (k : A → M B) w w' e : m w = (w', Err e) → op_bind m k w = (w', Err e).
Proof. unfold op_bind. by intros ->. Qed.

Ltac config_step :=
  first [ erewrite step_ok by first [apply pop_cons | apply pop_i32_cons | apply push_config
                                    | apply top_frame_config | apply set_top_frame_config]
        | erewrite step_err by first [apply pop_nil | apply pop_i32_nil]
        | rewrite gets_bind ]; cbv beta.

Lemma num_refines op st ls n : is_num op = true →
  match num_step op st with
  | Ok st' => ∃ m, exec_numeric op = Some m ∧ m (at_config (st, ls) n) = (at_config (st', ls) n, Ok tt)
  | Err e => ∃ m, exec_numeric op = Some m ∧ (m (at_config (st, ls) n)).2 = Err (Fail e)
  end.
Proof.
  unfold is_num, num_step, exec_numeric. intros Hn.
  destruct (i32_unary op) as [f|].
  { destruct st as [|a st]; eexists; (split; [done|]); config_step; [done|apply push_config]. }
  destruct (i32_compare op) as [f|].
  { destruct st as [|b [|a st]]; eexists; (split; [done|]); repeat config_step; try done.
    apply push_config. }
  destruct (i32_binary op) as [f|].
  { destruct st as [|b [|a st]]; eexists; (split; [done|]); repeat config_step; try done.
    apply push_config. }
  destruct (i32_divide op) as [f|]; [|done].
  destruct st as [|b [|a st]]; [eexists; (split; [done|]); repeat config_step; done..|].
  destruct (b =? 0) eqn:E; eexists; (split; [done|]); repeat config_step; rewrite E; [done|].
  apply push_config.
Qed.

Let code i := pre ++ encode i ++ post.

Lemma instr_refines i c n : instr_ok i →
  outcome i n (instr_step i c) (exec_byte (code i) (length pre) (at_config c n)).
Proof.
  intros Hi. unfold exec_byte, code.
  rewrite lookup_app_r, Nat.sub_diag by lia. change ((encode i ++ post) !! 0%nat) with
    (Some (opcode_byte (opcode_of i))).
  erewrite step_ok by reflexivity. cbv beta. rewrite from_byte_opcode. cbv iota.
  destruct c as [st ls].
  destruct i as [z|k|k|k| | |op]; cbn [opcode_of exec_opcode instr_step].
  - unfold exec_i32_const. erewrite step_ok by (by apply leb_at_post, read_encode_i32). cbn [fst snd]. by config_step.
  - unfold exec_local_get. erewrite step_ok by (by apply leb_at_post, read_encode_u32). cbn [fst snd]. config_step. cbn [locals snd].
    rewrite list_lookup_fmap.
    replace (default (I32 0) (I32 <$> ls !! Z.to_nat k)) with (I32 (default 0 (ls !! Z.to_nat k)))
      by (by destruct (ls !! _)).
    by config_step.
  - unfold exec_local_set. erewrite step_ok by (by apply leb_at_post, read_encode_u32). cbn [fst snd].
    destruct st as [|v st]; config_step; [done|]. config_step. unfold with_locals. cbn [locals snd].
    rewrite set_grow_config. by config_step.
  - unfold exec_local_tee. erewrite step_ok by (by apply leb_at_post, read_encode_u32). cbn [fst snd].
    destruct st as [|v st]; [done|]. config_step.
    assert (list.last (value_stack (inst (at_config (v :: st, ls) n))) = Some (I32 v)) as ->.
    { simpl. by rewrite stk_cons, last_snoc. }
    erewrite step_ok by reflexivity. cbv beta. config_step. unfold with_locals. cbn [locals snd].
    rewrite set_grow_config. by config_step.
  - unfold exec_drop. config_step. rewrite (ip_one Pop) by done.
    destruct st as [|v st]; [done|].
    replace (value_stack (inst (at_config (v :: st, ls) n))) with (stk st ++ [I32 v])
      by (simpl; by rewrite stk_cons).
    by rewrite vec_pop_snoc.
  - unfold exec_select. rewrite (ip_one Sel) by done.
    destruct st as [|c [|b [|a st]]]; repeat config_step; try done.
    cbn [to_i32]. by destruct (negb _); erewrite step_ok by apply push_config.
  - pose proof (num_refines op st ls n Hi) as Hn.
    assert (exec_opcode (pre ++ encode (Num op) ++ post) op (S (length pre)) =
      match exec_numeric op with
      | Some m => (do! m in ret (Next (S (length pre))))%op
      | None => ret (Next (S (length pre)))
      end) as -> by (destruct op; done || by inversion Hi).
    destruct (num_step op st) as [st'|e]; destruct Hn as (m & -> & Hm); unfold outcome.
    + erewrite step_ok by exact Hm. by rewrite (ip_one (Num op)).
    + unfold op_bind. destruct (m _) as [w' [|]]; simpl in *; congruence.
Qed.
End refine.

(** ** Whole bodies *)

Section bodies.
Context `{Platform} (i0 : Instance_) (t : list OsEvent) (cs : list CallFrame).
Context (Hmax : is_u64 (max_steps i0)).

Abbreviation at_config := (at_config i0 t cs).

Lemma step_config code ip c n : 0 ≤ n < max_steps i0 →
  step code ip (at_config c n) = exec_byte code ip (at_config c (n + 1)).
Proof.
  intros Hn. unfold step. rewrite !gets_bind. simpl.
  destruct (Z.leb_spec (max_steps i0) n); [lia|].
  erewrite step_ok; [done|]. unfold count_step, modify. simpl.
  unfold u64_add. rewrite u64_small by (unfold is_u64 in *; lia). done.
Qed.

Lemma round_instr pre post i c n : instr_ok i → 0 ≤ n < max_steps i0 →
  match instr_step i c with
  | Ok c' => round (pre ++ encode i ++ post) (at_config c n, length pre) =
             inl (at_config c' (n + 1), length (pre ++ encode i))
  | Err e => ∃ w, round (pre ++ encode i ++ post) (at_config c n, length pre) = inr (w, Err (Fail e))
  end.
Proof.
  intros Hi Hn. unfold round. rewrite decide_True.
  2:{ rewrite !length_app. simpl. lia. }
  rewrite step_config by done.
  pose proof (instr_refines i0 t cs pre post i c (n + 1) Hi) as Ho.
  destruct (instr_step i c) as [c'|e]; unfold outcome in Ho.
  - by rewrite Ho, length_app.
  - destruct (exec_byte _ _ _) as [w r]. simpl in Ho. subst r. by exists w.
Qed.

Lemma round_end pre c n : 0 ≤ n < max_steps i0 →
  round (pre ++ [opcode_byte Op.End]) (at_config c n, length pre) = inr (at_config c (n + 1), Ok tt).
Proof.
  intros Hn. unfold round. rewrite decide_True by (rewrite length_app; simpl; lia).
  rewrite step_config by done. unfold exec_byte. rewrite lookup_app_r, Nat.sub_diag by lia.
  erewrite step_ok by reflexivity. cbv beta. change ([opcode_byte Op.End] !! 0%nat) with (Some 0x0B).
  simpl. unfold exec_end. erewrite step_ok by apply top_frame_config. done.
Qed.

Lemma instrs_refine p : ∀ pre c n, Forall instr_ok p → 0 ≤ n →
  n + Z.of_nat (length p) + 1 ≤ max_steps i0 →
  match instrs_step p c with
  | Ok c' => iter_nat (round (pre ++ body p)) (S (length p)) (at_config c n, length pre) =
             inr (at_config c' (n + Z.of_nat (length p) + 1), Ok tt)
  | Err e => ∃ k w, (k ≤ length p)%nat ∧
             iter_nat (round (pre ++ body p)) k (at_config c n, length pre) = inr (w, Err (Fail e))
  end.
Proof.
  induction p as [|i p IH]; intros pre c n Hp Hn Hs.
  - simpl instrs_step. cbn [length iter_nat]. unfold body. simpl concat. rewrite app_nil_l.
    rewrite round_end by (simpl in Hs; lia). do 3 f_equal. lia.
  - apply Forall_cons in Hp as [Hi Hp]. simpl length in *.
    assert (pre ++ body (i :: p) = pre ++ encode i ++ body p) as E.
    { unfold body. simpl. by rewrite <-!app_assoc. }
    pose proof (round_instr pre (body p) i c n Hi ltac:(lia)) as Hr. rewrite <-E in Hr.
    simpl instrs_step. destruct (instr_step i c) as [c'|e].
    + specialize (IH (pre ++ encode i) c' (n + 1) Hp ltac:(lia) ltac:(lia)).
      rewrite <-app_assoc, <-E in IH. destruct (instrs_step p c') as [c''|e].
      * change (iter_nat ?f (S (S ?k)) ?s) with
          (match f s with inl s' => iter_nat f (S k) s' | inr r => inr r end).
        rewrite Hr, IH. do 3 f_equal. lia.
      * destruct IH as (k & w & Hk & IH). exists (S k), w. split; [lia|]. cbn [iter_nat]. by rewrite Hr.
    + destruct Hr as [w Hr]. exists 1%nat, w. split; [lia|]. cbn [iter_nat]. by rewrite Hr.
Qed.
End bodies.

(** The interpreter on the encoding of a program. *)
Lemma execute_bytecode_straight `{Platform} p ls w :
  Forall instr_ok p → value_stack (inst w) = [] → is_u64 (max_steps (inst w)) →
  0 ≤ steps_executed (inst w) →
  steps_executed (inst w) + Z.of_nat (length p) + 1 ≤ max_steps (inst w) →
  match instrs_step p ([], ls) with
  | Ok (st, _) =>
      execute_bytecode (body p) (I32 <$> ls) w =
      (mkWorld (with_steps (steps_executed (inst w) + Z.of_nat (length p) + 1) (inst w)) (trace w),
       Ok (stk st))
  | Err e => (execute_bytecode (body p) (I32 <$> ls) w).2 = Err (Fail e)
  end.
Proof.
  intros Hp Hv Hm Hs0 Hs. destruct w as [i0 t]. simpl in *.
  pose proof (instrs_refine i0 t (call_stack i0) Hm p [] ([], ls) (steps_executed i0) Hp Hs0 Hs) as Hr.
  rewrite app_nil_l in Hr.
  assert (mkWorld (with_calls (call_stack i0 ++ [mkFrame 0 0 (I32 <$> ls) []]) i0) t =
    at_config i0 t (call_stack i0) ([], ls) (steps_executed i0)) as E0.
  { unfold at_config. destruct i0. simpl in *. by subst. }
  unfold execute_bytecode.
  rewrite (step_ok _ _ _ (at_config i0 t (call_stack i0) ([], ls) (steps_executed i0)) tt)
    by (by rewrite <-E0).
  assert (∀ k r, iter_nat (round (body p)) k (at_config i0 t (call_stack i0) ([], ls) (steps_executed i0), 0%nat) = inr r →
    (k ≤ S (length p))%nat →
    run_loop (body p) (at_config i0 t (call_stack i0) ([], ls) (steps_executed i0)) = r) as Hloop.
  { intros k r Hk Hkp. unfold run_loop. erewrite iter_pos_done; [done|exact Hk|].
    unfold is_u64 in Hm. simpl.
    assert (Z.of_nat (Pos.to_nat (Z.to_pos (max_steps i0 + 1))) = max_steps i0 + 1) by
      (rewrite positive_nat_Z, Z2Pos.id; lia). lia. }
  destruct (instrs_step p ([], ls)) as [[st ls']|e].
  - erewrite step_ok by (apply (Hloop _ _ Hr); lia).
    erewrite step_ok by reflexivity. rewrite gets_bind. erewrite step_ok by reflexivity.
    unfold ret, op_ret, at_config. simpl. rewrite removelast_last. destruct i0. simpl in *. by subst.
  - destruct Hr as (k & w & Hk & Hr). erewrite step_err by (apply (Hloop _ _ Hr); lia). done.
Qed.

(** [C10] The byte-level interpreter refines the machine: the encoding of any straight-line
    program, run on any instance with an empty stack and enough steps left, decodes
    and computes exactly what the machine does, counting one step per instruction and
    one for the end and leaving the rest of the instance and the outside alone;
    where the machine stops with an error (an empty stack, a zero divisor) so does the
    interpreter. *)
Theorem interpreter_refines `{Platform} p ls w :
  Forall instr_ok p → value_stack (inst w) = [] → is_u64 (max_steps (inst w)) →
  0 ≤ steps_executed (inst w) →
  steps_executed (inst w) + Z.of_nat (length p) + 1 ≤ max_steps (inst w) →
  match instrs_step p ([], ls) with
  | Ok (st, _) =>
      execute_bytecode (body p) (I32 <$> ls) w =
      (mkWorld (with_steps (steps_executed (inst w) + Z.of_nat (length p) + 1) (inst w)) (trace w),
       Ok (stk st))
  | Err e => (execute_bytecode (body p) (I32 <$> ls) w).2 = Err (Fail e)
  end.
Proof. apply execute_bytecode_straight. Qed.

(** [local.get 0; local.get 1; i32.sub; local.tee 2; i32.const 100; i32.mul] on 7 and 9. *)
Lemma interpreter_refines_witness :
  let p := [LGet 0; LGet 1; Num Op.I32Sub; LTee 2; Const 100; Num Op.I32Mul] in
  instrs_step p ([], [7; 9]) = Ok ([-200], [7; 9; -2]) ∧
  (execute_bytecode (H := quiet) (body p) (I32 <$> [7; 9]) sample).2 = Ok [I32 (-200)].
Proof.
  intros p. assert (Forall instr_ok p) as Hp.
  { unfold p. clear. repeat (apply Forall_cons; split; [by split|]). by apply Forall_nil. }
  assert (instrs_step p ([], [7; 9]) = Ok ([-200], [7; 9; -2])) as E by reflexivity.
  split; [exact E|].
  assert (0 ≤ steps_executed (inst sample)) as Hs by by vm_compute.
  assert (steps_executed (inst sample) + Z.of_nat (length p) + 1 ≤ max_steps (inst sample)) as Hl
    by by vm_compute.
  assert (is_u64 (max_steps (inst sample))) as Hm by by split.
  pose proof (interpreter_refines (H := quiet) p [7; 9] sample Hp eq_refl Hm Hs Hl) as Hr.
  rewrite E in Hr. cbv beta iota in Hr. apply (f_equal snd) in Hr. exact Hr.
Defined.
