(* ===== verification/WaveCalls.v ===== *)
(** * WaveCalls: calling functions by name ([runtime/wave/src/lib.rs], [Instance::call])

    [call] does not run a module's bytecode: it invokes a bound host function of that
    name, or one of a table of built-in operations on the value stack, or returns the
    top of the stack. Compiled code is never entered, so the compiler has no part here. *)

From Stdlib Require Import ZArith Lia String Ascii SpecFloat.
From stdpp Require Import list strings gmap.
From S2P Require Import Prelude.
From S2P Require Import Ids.
From S2P Require Import Bytes.
From S2P Require Import Utf8.
From S2P Require Import WaveValue.
From S2P Require Import WaveHost.
From S2P Require Import WaveInst.
From S2P Require Import WaveInterp.
From S2P Require Import WaveStraight.

(** ** Operators *)

Section operators.
Context `{Platform}.

(** Rust's float operators, and comparisons, on bits. *)
Definition f32_op (op : spec_float → spec_float → spec_float) (a b : Z) : Z :=
  bits_of_float binary32 (nan32 a b) (op (float_of_bits binary32 a) (float_of_bits binary32 b)).
Definition f64_op (op : spec_float → spec_float → spec_float) (a b : Z) : Z :=
  bits_of_float binary64 (nan64 a b) (op (float_of_bits binary64 a) (float_of_bits binary64 b)).
Definition f32_cmp (op : spec_float → spec_float → bool) (a b : Z) : bool :=
  op (float_of_bits binary32 a) (float_of_bits binary32 b).
Definition f64_cmp (op : spec_float → spec_float → bool) (a b : Z) : bool :=
  op (float_of_bits binary64 a) (float_of_bits binary64 b).

(** Two operands from the stack, or [TypeMismatch] with the stack as it is. *)
Definition pop_two : M (WasmValue * WasmValue) :=
  (let! vs := gets value_stack in
   if decide (length vs < 2)%nat then fail TypeMismatch
   else let! b := pop in let! a := pop in ret (a, b))%op.

Definition finish (result : WasmValue) : M (list WasmValue) :=
  (do! count_step in do! push result in ret [result])%op.

Definition execute_binary_op (i32_op i64_op f32_op f64_op : Z → Z → Z) : M (list WasmValue) :=
  (let! p := pop_two in
   match p with
   | (I32 x, I32 y) => finish (I32 (i32_op x y))
   | (I64 x, I64 y) => finish (I64 (i64_op x y))
   | (F32 x, F32 y) => finish (F32 (f32_op x y))
   | (F64 x, F64 y) => finish (F64 (f64_op x y))
   | _ => fail TypeMismatch
   end)%op.

Definition execute_binary_op_checked (i32_op i64_op f32_op f64_op : Z → Z → option Z) :
    M (list WasmValue) :=
  (let! p := pop_two in
   match p with
   | (I32 x, I32 y) => let! z := some_or (i32_op x y) DivisionByZero in finish (I32 z)
   | (I64 x, I64 y) => let! z := some_or (i64_op x y) DivisionByZero in finish (I64 z)
   | (F32 x, F32 y) => let! z := some_or (f32_op x y) DivisionByZero in finish (F32 z)
   | (F64 x, F64 y) => let! z := some_or (f64_op x y) DivisionByZero in finish (F64 z)
   | _ => fail TypeMismatch
   end)%op.

Definition execute_comparison_op (i32_op i64_op f32_op f64_op : Z → Z → bool) :
    M (list WasmValue) :=
  (let! p := pop_two in
   let answer (c : bool) := finish (I32 (if c then 1 else 0)) in
   match p with
   | (I32 x, I32 y) => answer (i32_op x y)
   | (I64 x, I64 y) => answer (i64_op x y)
   | (F32 x, F32 y) => answer (f32_op x y)
   | (F64 x, F64 y) => answer (f64_op x y)
   | _ => fail TypeMismatch
   end)%op.

(** ** The built-in functions *)

Inductive Builtin :=
| BStart | BMain | BAdd | BSub | BMul | BDiv | BRem | BAnd | BOr | BXor | BShl | BShr | BEqz
| BEq | BNe | BLt | BGt | BLe | BGe | BNop | BDrop | BSelect.

Definition builtins : list (string * Builtin) :=
  [ ("_start", BStart); ("main", BMain); ("add", BAdd); ("sum", BAdd); ("i32.add", BAdd);
    ("sub", BSub); ("i32.sub", BSub); ("mul", BMul); ("i32.mul", BMul); ("div", BDiv);
    ("i32.div_s", BDiv); ("rem", BRem); ("i32.rem_s", BRem); ("and", BAnd); ("i32.and", BAnd);
    ("or", BOr); ("i32.or", BOr); ("xor", BXor); ("i32.xor", BXor); ("shl", BShl);
    ("i32.shl", BShl); ("shr", BShr); ("i32.shr_s", BShr); ("eqz", BEqz); ("i32.eqz", BEqz);
    ("eq", BEq); ("i32.eq", BEq); ("ne", BNe); ("i32.ne", BNe); ("lt", BLt); ("i32.lt_s", BLt);
    ("gt", BGt); ("i32.gt_s", BGt); ("le", BLe); ("i32.le_s", BLe); ("ge", BGe);
    ("i32.ge_s", BGe); ("nop", BNop); ("drop", BDrop); ("select", BSelect) ]%string.

Definition builtin_of (name : string) : option Builtin :=
  snd <$> find (λ e, String.eqb e.1 name) builtins.

(** [|_, _| 0.0]. *)
Definition zero_float (_ _ : Z) : Z := 0.

Definition checked (f : Z → Z → Z) (a b : Z) : option Z :=
  if b =? 0 then None else Some (f a b).

(** The arms of the [match] of [execute_function]. *)
Definition execute_builtin (b : Builtin) : M (list WasmValue) :=
  (match b with
   | BStart => do! count_step in do! modify (with_stack []) in ret []
   | BMain => do! count_step in
              do! modify (with_stack []) in
              do! push (I32 0) in
              ret [I32 0]
   | BAdd => execute_binary_op (λ a b, i32 (a + b)) (λ a b, i64 (a + b))
               (f32_op (SFadd 24 128)) (f64_op (SFadd 53 1024))
   | BSub => execute_binary_op (λ a b, i32 (a - b)) (λ a b, i64 (a - b))
               (f32_op (SFsub 24 128)) (f64_op (SFsub 53 1024))
   | BMul => execute_binary_op (λ a b, i32 (a * b)) (λ a b, i64 (a * b))
               (f32_op (SFmul 24 128)) (f64_op (SFmul 53 1024))
   | BDiv => execute_binary_op_checked (checked (div_signed 32)) (checked (div_signed 64))
               (λ a b, Some (f32_op (SFdiv 24 128) a b)) (λ a b, Some (f64_op (SFdiv 53 1024) a b))
   | BRem => execute_binary_op_checked (checked (rem_signed 32)) (checked (rem_signed 64))
               (λ a b, Some (f32_op (SFrem binary32) a b)) (λ a b, Some (f64_op (SFrem binary64) a b))
   | BAnd => execute_binary_op Z.land Z.land zero_float zero_float
   | BOr => execute_binary_op Z.lor Z.lor zero_float zero_float
   | BXor => execute_binary_op Z.lxor Z.lxor zero_float zero_float
   | BShl => execute_binary_op (λ a b, shl_signed 32 a (u32 b)) (λ a b, shl_signed 64 a (u32 b))
               zero_float zero_float
   | BShr => execute_binary_op (λ a b, shr_signed 32 a (u32 b)) (λ a b, shr_signed 64 a (u32 b))
               zero_float zero_float
   | BEqz =>
       let! val := pop in
       match val with
       | I32 v => finish (I32 (if v =? 0 then 1 else 0))
       | I64 v => finish (I32 (if v =? 0 then 1 else 0))
       | _ => fail TypeMismatch
       end
   | BEq => execute_comparison_op Z.eqb Z.eqb (f32_cmp SFeqb) (f64_cmp SFeqb)
   | BNe => execute_comparison_op (λ a b, negb (a =? b)) (λ a b, negb (a =? b))
              (λ a b, negb (f32_cmp SFeqb a b)) (λ a b, negb (f64_cmp SFeqb a b))
   | BLt => execute_comparison_op Z.ltb Z.ltb (f32_cmp SFltb) (f64_cmp SFltb)
   | BGt => execute_comparison_op (λ a b, b <? a) (λ a b, b <? a)
              (λ a b, f32_cmp SFltb b a) (λ a b, f64_cmp SFltb b a)
   | BLe => execute_comparison_op Z.leb Z.leb (f32_cmp SFleb) (f64_cmp SFleb)
   | BGe => execute_comparison_op (λ a b, b <=? a) (λ a b, b <=? a)
              (λ a b, f32_cmp SFleb b a) (λ a b, f64_cmp SFleb b a)
   | BNop => do! count_step in ret []
   | BDrop =>
       let! vs := gets value_stack in
       do! modify (with_stack (default [] (snd <$> vec_pop vs))) in
       do! count_step in
       ret []
   | BSelect =>
       let! vs := gets value_stack in
       if decide (3 ≤ length vs)%nat then
         let! cond := pop in
         let! val2 := pop in
         let! val1 := pop in
         finish (if negb (to_i32 cond =? 0) then val1 else val2)
       else fail TypeMismatch
   end)%op.

(** ** Calls *)

(** [name_to_func_idx]: a hash of the name. *)
Definition name_to_func_idx (name : string) : Z :=
  foldl (λ hash byte, u32 (u32 (hash * 31) + byte)) 0 (bytes_of_string name) mod 65536.

Definition count_execution (name : string) : M unit :=
  modify (λ i, with_counts
    (<[name_to_func_idx name :=
         u64_add (default 0 (execution_counts i !! name_to_func_idx name)) 1]> (execution_counts i)) i).

Definition lookup_host_function (i : Instance_) (name : string) : option HostFunction :=
  match find (λ bf, String.eqb (host_name (function bf)) name) (host_functions i) with
  | Some bf => Some (function bf)
  | None => if existsb (λ im, String.eqb (import_name im) name) (imports i)
            then from_function_name name else None
  end.

Definition execute_function (name : string) : M (list WasmValue) :=
  (do! count_execution name in
   let! host := gets (λ i, lookup_host_function i name) in
   match host with
   | Some host_func => call_host host_func
   | None =>
       match builtin_of name with
       | Some b => execute_builtin b
       | None =>
           do! count_step in
           let! vs := gets value_stack in
           ret (from_option (λ v, [v]) [] (last vs))
       end
   end)%op.

(** [Instance::call]. The state is [Ready] again after any result; a panic does not
    get that far. *)
Definition set_ready {A} (m : M A) : M A := λ w,
  match m w with
  | (w', Ok a) => (mkWorld (with_state Ready (inst w')) (trace w'), Ok a)
  | (w', Err (Fail e)) => (mkWorld (with_state Ready (inst w')) (trace w'), Err (Fail e))
  | r => r
  end.

Definition call (name : string) (args : list WasmValue) : M (list WasmValue) :=
  (let! s := gets state in
   if decide (s = Ready) then
     do! modify (with_state Running) in
     do! modify (with_steps 0) in
     do! push_all args in
     set_ready (execute_function name)
   else fail InvalidState)%op.
End operators.

(** ** Examples *)

#[local] Instance fixed : Platform := {| os_reply := λ _ _, 7; nan32 := λ _ _, 0x7FC00000; nan64 := λ _ _, 0 |}.

Definition idle : Instance_ :=
  mkInst 1 1 [] [mkBound SExit (mkToken 1 0 0 0)] [] [] [] [] Ready 0 100 false ∅ false.

Example call_add : (call "add" [I32 2147483647; I32 1] (mkWorld idle [])).2 = Ok [I32 (-2147483648)].
Proof. reflexivity. Qed.
Example call_div_float : (* 1.0 / 3.0 *)
  (call "div" [F32 0x3F800000; F32 0x40400000] (mkWorld idle [])).2 = Ok [F32 0x3EAAAAAB].
Proof. reflexivity. Qed.
Example call_div_zero : (call "div" [I32 1; I32 0] (mkWorld idle [])).2 = Err (Fail DivisionByZero).
Proof. reflexivity. Qed.
Example call_lt_nan : (call "lt" [F32 0x7FC00000; F32 0] (mkWorld idle [])).2 = Ok [I32 0].
Proof. reflexivity. Qed.
Example call_unknown : (call "fibonacci" [I32 10] (mkWorld idle [])).2 = Ok [I32 10].
Proof. reflexivity. Qed.

(** ** What a call leaves alone *)

Section preserves.
Context {B : Type} (f : World → B).

Definition preserves {A} (m : M A) : Prop := ∀ w, f (m w).1 = f w.

Lemma pres_ret {A} (a : A) : preserves (ret a).
Proof. done. Qed.
Lemma pres_fail {A} e : preserves (A := A) (fail e).
Proof. done. Qed.
Lemma pres_panic {A} : preserves (A := A) panic.
Proof. done. Qed.
Lemma pres_gets {A} (g : Instance_ → A) : preserves (gets g).
Proof. done. Qed.
Lemma pres_bind {A C} (m : M A) (k : A → M C) :
  preserves m → (∀ a, preserves (k a)) → preserves (op_bind m k).
Proof.
  intros Hm Hk w. unfold op_bind. specialize (Hm w). destruct (m w) as [w' [a|e]]; simpl in *; [|done].
  by rewrite Hk.
Qed.
Lemma pres_some_or {A} (o : option A) e : preserves (some_or o e).
Proof. by destruct o. Qed.
Lemma pres_some_or_panic {A} (o : option A) : preserves (some_or_panic o).
Proof. by destruct o. Qed.
Lemma pres_if {A} (b : bool) (m1 m2 : M A) :
  preserves m1 → preserves m2 → preserves (if b then m1 else m2).
Proof. by destruct b. Qed.
Lemma pres_decide {A} P `{Decision P} (m1 m2 : M A) :
  preserves m1 → preserves m2 → preserves (if decide P then m1 else m2).
Proof. by case_decide. Qed.
Lemma pres_modify g : (∀ w, f (mkWorld (g (inst w)) (trace w)) = f w) → preserves (modify g).
Proof. intros Hg w. apply Hg. Qed.

Lemma pres_pop : (∀ w vs, f (mkWorld (with_stack vs (inst w)) (trace w)) = f w) → preserves pop.
Proof.
  intros Hs. apply pres_bind; [done|]. intros vs. destruct (vec_pop vs) as [[v vs']|]; [|done].
  apply pres_bind; [by apply pres_modify|done].
Qed.
Lemma pres_push v : (∀ w vs, f (mkWorld (with_stack vs (inst w)) (trace w)) = f w) → preserves (push v).
Proof. intros Hs. apply pres_modify. intros w. apply Hs. Qed.
Lemma pres_push_all vs :
  (∀ w vs, f (mkWorld (with_stack vs (inst w)) (trace w)) = f w) → preserves (push_all vs).
Proof. intros Hs. induction vs; [done|]. apply pres_bind; [by apply pres_push|done]. Qed.
Lemma pres_pop_args n args :
  (∀ w vs, f (mkWorld (with_stack vs (inst w)) (trace w)) = f w) → preserves (pop_args n args).
Proof.
  intros Hs. revert args. induction n as [|n IH]; intros args; [done|].
  apply pres_bind; [by apply pres_pop|]. intros. apply IH.
Qed.
Lemma pres_emit `{Platform} e :
  (∀ w e, f (mkWorld (inst w) (e :: trace w)) = f w) → preserves (emit e).
Proof. intros He w. apply He. Qed.
Lemma pres_emit_all `{Platform} es :
  (∀ w e, f (mkWorld (inst w) (e :: trace w)) = f w) → preserves (emit_all es).
Proof. intros He. induction es; [done|]. apply pres_bind; [by apply pres_emit|done]. Qed.
End preserves.

Ltac pres :=
  repeat match goal with
    | |- ∀ _, _ => intro
    | _ => progress cbv beta zeta
    | |- preserves _ (if _ then _ else _) => first [apply pres_if | apply pres_decide]
    | |- preserves _ (ret _) => apply pres_ret
    | |- preserves _ (fail _) => apply pres_fail
    | |- preserves _ panic => apply pres_panic
    | |- preserves _ (gets _) => apply pres_gets
    | |- preserves _ (some_or _ _) => apply pres_some_or
    | |- preserves _ (some_or_panic _) => apply pres_some_or_panic
    | |- preserves _ (modify _) => apply pres_modify; done
    | |- preserves _ count_step => apply pres_modify; done
    | |- preserves _ pop => apply pres_pop; done
    | |- preserves _ (push _) => apply pres_push; done
    | |- preserves _ (push_all _) => apply pres_push_all; done
    | |- preserves _ (pop_args _ _) => apply pres_pop_args; done
    | |- preserves _ (emit _) => apply pres_emit; done
    | |- preserves _ (emit_all _) => apply pres_emit_all; done
    | |- preserves _ (op_bind _ _) => apply pres_bind
    | |- preserves _ (match ?x with _ => _ end) => destruct x
    end.

(** ** What a call lets out *)

Section emits.
Context `{Platform} (hs : list BoundHostFunction).

Definition emits {A} (m : M A) : Prop :=
  ∀ w, ∃ t, trace (m w).1 = t ++ trace w ∧ Forall (authorised hs) t.

Lemma emits_silent {A} (m : M A) : preserves trace m → emits m.
Proof. intros Hm w. exists []. by rewrite Hm. Qed.

Lemma emits_bind {A B} (m : M A) (k : A → M B) : emits m → (∀ a, emits (k a)) → emits (op_bind m k).
Proof.
  intros Hm Hk w. unfold op_bind. destruct (Hm w) as (t & Ht & Ha).
  destruct (m w) as [w' [a|e]]; simpl in *; [|eauto].
  destruct (Hk a w') as (t' & -> & ?). exists (t' ++ t). rewrite Ht, app_assoc. split; [done|].
  by apply Forall_app.
Qed.

Lemma emits_if {A} (b : bool) (m1 m2 : M A) : emits m1 → emits m2 → emits (if b then m1 else m2).
Proof. by destruct b. Qed.
Lemma emits_decide {A} P `{Decision P} (m1 m2 : M A) :
  emits m1 → emits m2 → emits (if decide P then m1 else m2).
Proof. by case_decide. Qed.
Lemma emits_emit e : authorised hs e → emits (emit e).
Proof. intros He w. exists [e]. split; [done|]. by apply Forall_singleton. Qed.
Lemma emits_emit_all es : Forall (authorised hs) es → emits (emit_all es).
Proof.
  induction 1; [by apply emits_silent|]. apply emits_bind; [by apply emits_emit|done].
Qed.
End emits.

Ltac emits :=
  repeat match goal with
    | |- ∀ _, _ => intro
    | _ => progress cbv beta zeta
    | |- emits _ (if _ then _ else _) => first [apply emits_if | apply emits_decide]
    | |- emits _ (emit _) => apply emits_emit; eauto
    | |- emits _ (emit_all _) => apply emits_emit_all; eauto
    | |- emits _ (op_bind _ _) => apply emits_bind
    | |- emits _ (match ?x with _ => _ end) => destruct x
    | |- emits _ _ => apply emits_silent; solve [pres]
    end.

(** The parts no call changes. *)
Definition static (w : World) :=
  (memory (inst w), globals (inst w), call_stack (inst w), host_functions (inst w),
   imports (inst w), max_steps (inst w), inst_id (inst w), module_id (inst w)).

Section calls_preserve.
Context `{Platform}.

Lemma host_dispatch_static func args : preserves static (host_dispatch func args).
Proof.
  destruct func; unfold host_dispatch, host_log, host_spawn, host_wait, host_kill, host_cap_check,
    host_cap_request, host_cap_delegate, host_mem_free, host_time, host_uptime, get_timestamp,
    syscall_spawn, syscall_waitpid, syscall_kill, syscall_getpid; pres.
Qed.

Lemma invoke_static func args : preserves static (invoke_host_function func args).
Proof. unfold invoke_host_function. pres. apply host_dispatch_static. Qed.

Lemma call_host_static func : preserves static (call_host func).
Proof.
  unfold call_host. apply pres_bind; [pres|]. intros args.
  apply pres_bind; [apply invoke_static|]. pres.
Qed.

Lemma builtin_preserves {B} (f : World → B) b :
  (∀ w vs, f (mkWorld (with_stack vs (inst w)) (trace w)) = f w) →
  (∀ w n, f (mkWorld (with_steps n (inst w)) (trace w)) = f w) →
  preserves f (execute_builtin b).
Proof.
  intros Hs Hn.
  assert (preserves f count_step) as Hc by (apply pres_modify; intros; apply Hn).
  assert (∀ v, preserves f (finish v)) as Hf.
  { intros v. unfold finish. apply pres_bind; [done|]. intros. apply pres_bind; [by apply pres_push|done]. }
  assert (preserves f pop_two) as Ht.
  { unfold pop_two. pres; by apply pres_pop. }
  destruct b; unfold execute_builtin, execute_binary_op, execute_binary_op_checked,
    execute_comparison_op; pres; auto using pres_pop, pres_push.
Qed.
End calls_preserve.

(** ** Theorems *)

Section theorems.
Context `{Platform}.

(** What [call] runs once the instance is ready. *)
Definition enter (args : list WasmValue) (w : World) : World :=
  mkWorld (with_stack (value_stack (inst w) ++ args) (with_steps 0 (with_state Running (inst w))))
    (trace w).

Lemma push_all_stack args : ∀ w,
  push_all args w = (mkWorld (with_stack (value_stack (inst w) ++ args) (inst w)) (trace w), Ok tt).
Proof.
  induction args as [|v args IH]; intros w; simpl.
  - rewrite app_nil_r. by destruct w as [[]].
  - unfold op_bind, push, modify. rewrite IH. simpl. by rewrite <-app_assoc.
Qed.

Lemma call_ready name args w : state (inst w) = Ready →
  call name args w = set_ready (execute_function name) (enter args w).
Proof.
  intros Hs. unfold call. rewrite gets_bind, Hs. rewrite decide_True by done.
  erewrite step_ok by reflexivity. erewrite step_ok by reflexivity.
  erewrite step_ok by apply push_all_stack. done.
Qed.

Lemma call_not_ready name args w : state (inst w) ≠ Ready →
  call name args w = (w, Err (Fail InvalidState)).
Proof. intros Hs. unfold call. rewrite gets_bind. by rewrite decide_False. Qed.

Lemma execute_function_static name : preserves static (execute_function name).
Proof.
  unfold execute_function. apply pres_bind; [by apply pres_modify|]. intros _.
  apply pres_bind; [done|]. intros [func|]; [apply call_host_static|].
  destruct (builtin_of name) as [b|]; [by apply builtin_preserves|]. by pres.
Qed.

Lemma host_dispatch_emits hs func args : (∃ bf, bf ∈ hs ∧ function bf = func) →
  emits hs (host_dispatch func args).
Proof.
  intros (bf & Hbf & Hf).
  assert (∀ e, func ∈ event_sources e → authorised hs e) as Ha by (intros; exists bf; by subst).
  assert (func = SLog → ∀ l, Forall (authorised hs) (Serial <$> l)) as Hl.
  { intros -> l. induction l; simpl; constructor; [apply Ha; by left|done]. }
  destruct func; unfold host_dispatch, host_log, host_spawn, host_wait, host_kill, host_cap_check,
    host_cap_request, host_cap_delegate, host_mem_free, host_time, host_uptime, get_timestamp,
    syscall_spawn, syscall_waitpid, syscall_kill, syscall_getpid; emits;
    apply Ha; simpl; rewrite list_elem_of_In; simpl; tauto.
Qed.

Lemma invoke_emits func args w :
  ∃ t, trace (invoke_host_function func args w).1 = t ++ trace w ∧
       Forall (authorised (host_functions (inst w))) t.
Proof.
  unfold invoke_host_function. rewrite gets_bind.
  destruct (existsb _ _) eqn:E; cbn [negb]; [|by exists []].
  apply existsb_bound in E. rewrite !gets_bind. case_match; [by exists []|].
  erewrite step_ok by reflexivity.
  apply (host_dispatch_emits _ func args E
    (mkWorld (with_steps (u64_add (steps_executed (inst w)) 1) (inst w)) (trace w))).
Qed.

Lemma execute_function_trace name w :
  ∃ t, trace (execute_function name w).1 = t ++ trace w ∧
       Forall (authorised (host_functions (inst w))) t.
Proof.
  unfold execute_function. erewrite step_ok by reflexivity. rewrite gets_bind.
  set (w1 := mkWorld _ _). change (trace w) with (trace w1).
  change (host_functions (inst w)) with (host_functions (inst w1)). clearbody w1.
  destruct (lookup_host_function _ _) as [func|].
  - assert (preserves (λ w, (trace w, host_functions (inst w)))
      (pop_args (length (params (signature func))) [])) as Hp by (by apply pres_pop_args).
    unfold call_host, op_bind at 1. specialize (Hp w1).
    destruct (pop_args _ _ w1) as [w2 [args|e]]; injection Hp as Ht2 Hh2;
      rewrite <-Ht2, <-Hh2; [|by exists []].
    unfold op_bind at 1. destruct (invoke_emits func args w2) as (t & Ht & Ha).
    destruct (invoke_host_function func args w2) as [w3 [vs|e]]; [|by exists t].
    exists t. split; [|done]. erewrite step_ok by apply push_all_stack. exact Ht.
  - exists []. split; [|done]. destruct (builtin_of name) as [b|]; [|done].
    etrans; [by apply (builtin_preserves trace)|done].
Qed.

(** A call by name is confined: whatever the name and the arguments, it changes
    neither memory nor globals, bindings, imports or the limit, and what reaches the
    outside is authorised by a binding of the instance. So no host function fills
    the buffer it is given. *)
Theorem call_confined name args w w' r :
  call name args w = (w', r) →
  static w' = static w ∧
  ∃ t, trace w' = t ++ trace w ∧ Forall (authorised (host_functions (inst w))) t.
Proof.
  intros E. destruct (decide (state (inst w) = Ready)) as [Hr|Hr].
  2:{ rewrite call_not_ready in E by done. injection E as <- _. split; [done|]. by exists []. }
  rewrite call_ready in E by done.
  pose proof (execute_function_static name (enter args w)) as Hstatic.
  pose proof (execute_function_trace name (enter args w)) as Htrace.
  assert (static w' = static (execute_function name (enter args w)).1 ∧
          trace w' = trace (execute_function name (enter args w)).1) as [-> ->].
  { unfold set_ready in E. destruct (execute_function name (enter args w)) as [w1 [a|[]]];
      by injection E as <- _. }
  split; [by rewrite Hstatic|done].
Qed.

(** The life of an instance under [call]: unless it is ready it refuses and nothing
    changes; and after any call that returns it is ready again, also when the call was
    [s_exit] or [s_sleep], so a module that exited can be called. *)
Theorem call_state name args w :
  (state (inst w) ≠ Ready → call name args w = (w, Err (Fail InvalidState))) ∧
  (state (inst w) = Ready →
   match call name args w with
   | (w', Ok _) | (w', Err (Fail _)) => state (inst w') = Ready
   | _ => True
   end).
Proof.
  split; [apply call_not_ready|]. intros Hr. rewrite call_ready by done.
  unfold set_ready. by destruct (execute_function name (enter args w)) as [w' [a|[]]].
Qed.

(** The opcode a built-in stands for, on 32-bit operands. *)
Definition builtin_opcode (b : Builtin) : option Opcode :=
  match b with
  | BAdd => Some Op.I32Add | BSub => Some Op.I32Sub | BMul => Some Op.I32Mul
  | BDiv => Some Op.I32DivS | BRem => Some Op.I32RemS | BAnd => Some Op.I32And
  | BOr => Some Op.I32Or | BXor => Some Op.I32Xor | BShl => Some Op.I32Shl
  | BShr => Some Op.I32ShrS | BEq => Some Op.I32Eq | BNe => Some Op.I32Ne
  | BLt => Some Op.I32LtS | BGt => Some Op.I32GtS | BLe => Some Op.I32LeS
  | BGe => Some Op.I32GeS
  | _ => None
  end.

Lemma pop_two_stack vs a b w : value_stack (inst w) = vs ++ [a; b] →
  pop_two w = (mkWorld (with_stack vs (inst w)) (trace w), Ok (a, b)).
Proof.
  intros Hv. unfold pop_two. rewrite gets_bind, Hv, decide_False by (rewrite length_app; simpl; lia).
  unfold pop. change (vs ++ [a; b]) with (vs ++ [a] ++ [b]) in Hv. rewrite app_assoc in Hv.
  erewrite step_ok; [|rewrite gets_bind, Hv, vec_pop_snoc; reflexivity].
  erewrite step_ok; [|rewrite gets_bind; simpl; rewrite vec_pop_snoc; reflexivity]. done.
Qed.

Lemma finish_stack v w :
  finish v w = (mkWorld (with_stack (value_stack (inst w) ++ [v])
    (with_steps (u64_add (steps_executed (inst w)) 1) (inst w))) (trace w), Ok [v]).
Proof. done. Qed.

(** Calling a built-in by name on two 32-bit integers gives what the interpreter's
    instruction gives, with one difference: where the interpreter reports an invalid
    state for a zero divisor, the call reports a division by zero. The result also
    stays on the value stack, for the next call to find. *)
Theorem call_builtin_correct name b op x y w :
  state (inst w) = Ready → lookup_host_function (inst w) name = None →
  builtin_of name = Some b → builtin_opcode b = Some op →
  match num_step op [y; x] with
  | Ok st => (call name [I32 x; I32 y] w).2 = Ok (stk st) ∧
             value_stack (inst (call name [I32 x; I32 y] w).1) = value_stack (inst w) ++ stk st
  | Err e => e = InvalidState ∧ y = 0 ∧
             (call name [I32 x; I32 y] w).2 = Err (Fail DivisionByZero) ∧
             value_stack (inst (call name [I32 x; I32 y] w).1) = value_stack (inst w)
  end.
Proof.
  intros Hr Hl Hb Hop. rewrite call_ready by done.
  unfold execute_function, set_ready. erewrite step_ok by reflexivity. rewrite gets_bind.
  set (w1 := mkWorld _ _). change (lookup_host_function (inst w1) name) with
    (lookup_host_function (inst w) name). rewrite Hl, Hb.
  assert (pop_two w1 = (mkWorld (with_stack (value_stack (inst w)) (inst w1)) (trace w1), Ok (I32 x, I32 y)))
    as Hp by (by apply pop_two_stack).
  destruct b; try done; injection Hop as <-; unfold execute_builtin, execute_binary_op,
    execute_binary_op_checked, execute_comparison_op, num_step, checked;
    rewrite (step_ok _ _ _ _ _ Hp); cbv beta iota zeta delta [i32_unary i32_compare i32_binary i32_divide];
    try (split; [done|]; done).
  all: destruct (Z.eqb_spec y 0); [by split_and!|]; by split.
Qed.
End theorems.

Lemma call_confined_witness :
  static (call "s_exit" [I32 0] (mkWorld idle [])).1 = static (mkWorld idle []).
Proof.
  apply (call_confined "s_exit" [I32 0] (mkWorld idle []) _ (call "s_exit" [I32 0] (mkWorld idle [])).2).
  apply surjective_pairing.
Defined.

Lemma call_state_witness :
  state (inst (mkWorld idle [])) = Ready ∧
  match call "s_exit" [I32 0] (mkWorld idle []) with
  | (w', Ok _) | (w', Err (Fail _)) => state (inst w') = Ready
  | _ => True
  end.
Proof.
  split; [reflexivity|]. apply (proj2 (call_state "s_exit" [I32 0] (mkWorld idle []))). reflexivity.
Defined.

Lemma call_builtin_correct_witness :
  state idle = Ready ∧ lookup_host_function idle "sub" = None ∧
  (call "sub" [I32 3; I32 5] (mkWorld idle [])).2 = Ok [I32 (-2)].
Proof.
  split; [reflexivity|]. split; [reflexivity|].
  apply (call_builtin_correct "sub" BSub Op.I32Sub 3 5 (mkWorld idle [])); reflexivity.
Defined.

(** A later call finds what an earlier one left. *)
Lemma call_stale_operand :
  let w := (call "add" [I32 2; I32 3] (mkWorld idle [])).1 in
  (call "eqz" [] w).2 = Ok [I32 0] ∧ (call "eqz" [] (mkWorld idle [])).2 = Err (Fail TypeMismatch).
Proof. by split. Qed.

(** [s_random] answers with the length of the buffer it has not touched ([call_confined]):
    the caller takes what was in memory for random bytes. *)
Lemma random_unfilled `{Platform} ptr len w :
  (host_dispatch SRandom [I32 ptr; I32 len] w) = (w, Ok [I32 len]).
Proof. done. Qed.
