(* ===== verification/WaveModule.v ===== *)
(** * WaveModule: loading and instantiating modules ([runtime/wave/src/lib.rs], [Wave])

    The module parser, the table of modules and instances, and binding host imports to
    capabilities. Parsing reads the byte vector at positions; reading past its end
    panics. [Wave]'s four locks make each method one step; a history is a list of
    [Request]s. *)

From Stdlib Require Import ZArith Lia String Ascii.
From stdpp Require Import list strings gmap.
From S2P Require Import Prelude.
From S2P Require Import Ids.
From S2P Require Import Bytes.
From S2P Require Import Utf8.
From S2P Require Import WaveValue.
From S2P Require Import WaveHost.
From S2P Require Import Leb128.
From S2P Require Import WaveInst.
From S2P Require Import WaveInterp.
From S2P Require Import WaveStraight.
From S2P Require Import WaveCalls.

(** ** Modules *)

Record Import_ := mkImp { im_module : string; im_name : string; im_signature : FunctionSignature }.

Inductive ExportType :=
| ExFunction (s : FunctionSignature)
| ExMemory (min_pages : Z) (max_pages : option Z)
| ExGlobal (value_type : WasmType) (mutable : bool)
| ExTable (element_type : string) (min : Z) (max : option Z).

Record Export_ := mkExp { ex_name : string; export_type : ExportType }.

Record Parsed := mkParsed {
  p_imports : list Import_;
  p_exports : list Export_;
  p_host_imports : list (string * HostFunction);
  p_memory : option (Z * option Z)
}.

Record Module_ := mkModule {
  m_id : Z;
  m_name : option string;
  m_bytes : list Z;
  m_parsed : Parsed;
  m_validated : bool
}.

Definition has_export (m : Module_) (name : string) : bool :=
  existsb (λ e, String.eqb (ex_name e) name) (p_exports (m_parsed m)).

(** ** Reading *)

#[local] Open Scope res_scope.

Section parser.
Context (bytes : list Z).

(** [self.read_leb128_u32(&bytes[pos..])?] and the position after it. *)
Definition u32_at (pos : nat) : Result (Z * nat) Stop :=
  if decide (length bytes < pos)%nat then Err Panics
  else match read_leb128_u32 (drop pos bytes) with
       | Ok (v, br) => Ok (v, (pos + br)%nat)
       | Err e => Err (Fail e)
       end.

Definition u8_at (pos : nat) : Result (Z * nat) Stop :=
  match bytes !! pos with Some b => Ok (b, S pos) | None => Err Panics end.

(** A length and that many bytes of UTF-8. *)
Definition name_at (pos : nat) : Result (string * nat) Stop :=
  let? r := u32_at pos in
  let len := Z.to_nat r.1 in
  if decide (length bytes < r.2 + len)%nat then Err Panics
  else match from_utf8 (take len (drop r.2 bytes)) with
       | Some s => Ok (s, (r.2 + len)%nat)
       | None => Err (Fail InvalidModule)
       end.

Definition no_signature : FunctionSignature := mkSig [] [].

Fixpoint parse_imports (count : nat) (pos : nat) (imports : list Import_)
    (host_imports : list (string * HostFunction)) :
    Result (list Import_ * list (string * HostFunction)) Stop :=
  match count with
  | O => Ok (imports, host_imports)
  | S count =>
      let? m := name_at pos in
      let? f := name_at m.2 in
      let? kind := u8_at f.2 in
      let? index := u32_at kind.2 in
      if kind.1 =? 0 then
        parse_imports count index.2 (imports ++ [mkImp m.1 f.1 no_signature])
          (match from_name m.1 f.1 with
           | Some hf => host_imports ++ [(f.1, hf)]
           | None => host_imports
           end)
      else parse_imports count index.2 imports host_imports
  end.

Fixpoint parse_exports (count : nat) (pos : nat) (exports : list Export_) :
    Result (list Export_) Stop :=
  match count with
  | O => Ok exports
  | S count =>
      let? n := name_at pos in
      let? kind := u8_at n.2 in
      let? index := u32_at kind.2 in
      parse_exports count index.2
        (if kind.1 =? 0 then exports ++ [mkExp n.1 (ExFunction no_signature)] else exports)
  end.

(** The limits of the first memory, if there is one. *)
Definition parse_memory (pos : nat) (memory : option (Z * option Z)) :
    Result (option (Z * option Z)) Stop :=
  let? count := u32_at pos in
  if 0 <? count.1 then
    let? flags := u8_at count.2 in
    let? min := u32_at flags.2 in
    if negb (Z.land flags.1 1 =? 0) then
      let? max := u32_at min.2 in Ok (Some (min.1, Some max.1))
    else Ok (Some (min.1, None))
  else Ok memory.

Definition parse_section (id : Z) (pos : nat) (p : Parsed) : Result Parsed Stop :=
  match SectionId.from_u8 id with
  | Some SectionId.Import =>
      let? count := u32_at pos in
      let? r := parse_imports (Z.to_nat count.1) count.2 (p_imports p) (p_host_imports p) in
      Ok (mkParsed r.1 (p_exports p) r.2 (p_memory p))
  | Some SectionId.Export =>
      let? count := u32_at pos in
      let? exports := parse_exports (Z.to_nat count.1) count.2 (p_exports p) in
      Ok (mkParsed (p_imports p) exports (p_host_imports p) (p_memory p))
  | Some SectionId.Memory =>
      let? memory := parse_memory pos (p_memory p) in
      Ok (mkParsed (p_imports p) (p_exports p) (p_host_imports p) memory)
  | _ => Ok p
  end.

(** [while pos < bytes.len()]: a section takes at least two bytes. *)
Fixpoint parse_loop (fuel : nat) (pos : nat) (p : Parsed) : Result Parsed Stop :=
  match fuel with
  | O => Err Diverges
  | S fuel =>
      if decide (pos < length bytes)%nat then
        let? id := u8_at pos in
        let? size := u32_at id.2 in
        let section_end := (size.2 + Z.to_nat size.1)%nat in
        if decide (length bytes < section_end)%nat then Err (Fail InvalidModule)
        else let? p := parse_section id.1 size.2 p in parse_loop fuel section_end p
      else Ok p
  end.

Definition parse_sections : Result Parsed Stop :=
  parse_loop (S (length bytes)) 8 (mkParsed [] [] [] None).
End parser.

(** ** The runtime *)

Record WaveConfig := mkConfig {
  max_modules : Z; max_instances : Z; max_memory : Z; config_max_steps : Z;
  enable_jit : bool; jit_threshold : Z
}.

Definition default_config : WaveConfig :=
  mkConfig 1024 4096 (256 * 1024 * 1024) 1000000000 true 1000.

Record Wave := mkWave {
  config : WaveConfig;
  modules : gmap Z Module_;
  instances : gmap Z Instance_;
  next_module_id : Z;
  next_instance_id : Z;
  os_trace : list OsEvent
}.

Definition new (c : WaveConfig) : Wave := mkWave c ∅ ∅ 1 1 [].

Definition with_modules m w :=
  mkWave (config w) m (instances w) (next_module_id w) (next_instance_id w) (os_trace w).
Definition with_instances i w :=
  mkWave (config w) (modules w) i (next_module_id w) (next_instance_id w) (os_trace w).
Definition with_next_module n w :=
  mkWave (config w) (modules w) (instances w) n (next_instance_id w) (os_trace w).
Definition with_next_instance n w :=
  mkWave (config w) (modules w) (instances w) (next_module_id w) n (os_trace w).
Definition with_trace t w :=
  mkWave (config w) (modules w) (instances w) (next_module_id w) (next_instance_id w) t.

Definition W (A : Type) : Type := op Wave Stop A.

Definition count_of {V} (m : gmap Z V) : Z := Z.of_nat (size m).

Definition magic : list Z := [0x00; 0x61; 0x73; 0x6D].
Definition version : list Z := [0x01; 0x00; 0x00; 0x00].

Definition load (wasm_bytes : list Z) (name : option string) : W Z :=
  (do! op_guard (bool_decide (length wasm_bytes < 8)%nat) (Fail InvalidModule) in
   do! op_guard (negb (bool_decide (take 4 wasm_bytes = magic))) (Fail InvalidModule) in
   do! op_guard (negb (bool_decide (take 4 (drop 4 wasm_bytes) = version))) (Fail InvalidModule) in
   let! full := op_gets (λ w, max_modules (config w) <=? count_of (modules w)) in
   do! op_guard full (Fail TooManyModules) in
   let! id := op_gets next_module_id in
   do! op_modify (with_next_module (u64_add id 1)) in
   let! p := op_lift (parse_sections wasm_bytes) in
   do! op_modify (λ w, with_modules (<[id := mkModule id name wasm_bytes p true]> (modules w)) w) in
   op_ret id)%op.

(** The loop over the host imports. *)
Fixpoint bind_imports (host_imports : list (string * HostFunction)) (imports : list BoundImport)
    (bindings : list (HostFunction * CapabilityToken)) : Result (list BoundHostFunction) Stop :=
  match host_imports with
  | [] => Ok []
  | (import_name', host_func) :: rest =>
      match find (λ b, bool_decide (b.1 = host_func)) bindings with
      | Some (_, cap) =>
          let? bs := bind_imports rest imports bindings in Ok (mkBound host_func cap :: bs)
      | None =>
          if existsb (λ i, String.eqb (import_name i) import_name') imports
          then bind_imports rest imports bindings
          else Err (Fail MissingImport)
      end
  end.

(** [vec![0; n]] panics beyond [isize::MAX] bytes. *)
Definition instantiate (module_id : Z) (imports : list BoundImport)
    (capability_bindings : list (HostFunction * CapabilityToken)) : W Z :=
  (let! found := op_gets (λ w, modules w !! module_id) in
   let! m := op_lift (ok_or found (Fail ModuleNotFound)) in
   let! bound := op_lift (bind_imports (p_host_imports (m_parsed m)) imports capability_bindings) in
   let initial_memory := from_option fst 1 (p_memory (m_parsed m)) * 65536 in
   let! c := op_gets config in
   do! op_guard (max_memory c <? initial_memory) (Fail MemoryAccessOutOfBounds) in
   let! full := op_gets (λ w, max_instances c <=? count_of (instances w)) in
   do! op_guard full (Fail TooManyInstances) in
   let! id := op_gets next_instance_id in
   do! op_modify (with_next_instance (u64_add id 1)) in
   do! op_guard (2 ^ 63 <=? initial_memory) Panics in
   let instance := mkInst id module_id imports bound (replicate (Z.to_nat initial_memory) 0)
     [] [] [] Ready 0 (config_max_steps c) (enable_jit c) ∅ (enable_jit c) in
   do! op_modify (λ w, with_instances (<[id := instance]> (instances w)) w) in
   op_ret id)%op.

Definition instantiate_simple (module_id : Z) : W Z := instantiate module_id [] [].

Definition get_module (id : Z) (w : Wave) : option Z :=
  if bool_decide (is_Some (modules w !! id)) then Some id else None.

Definition unload (id : Z) : W unit :=
  (let! found := op_gets (λ w, modules w !! id) in
   do! op_lift (ok_or found (Fail ModuleNotFound)) in
   op_modify (λ w, with_modules (delete id (modules w)) w))%op.

(** [instances.get_mut(&id).ok_or(InstanceNotFound)?]. *)
Definition get_instance (id : Z) : W Instance_ :=
  (let! found := op_gets (λ w, instances w !! id) in
   op_lift (ok_or found (Fail InstanceNotFound)))%op.
Definition put_instance (id : Z) (i : Instance_) : W unit :=
  op_modify (λ w, with_instances (<[id := i]> (instances w)) w).

Definition terminate (id : Z) : W unit :=
  (let! i := get_instance id in put_instance id (with_state Terminated i))%op.

Definition reset_instance (id : Z) : W unit :=
  (let! i := get_instance id in put_instance id (reset_execution i))%op.

Definition list_modules (w : Wave) : list Z := btree_keys (modules w).
Definition list_instances (w : Wave) : list Z := btree_keys (instances w).

(** An operation of an instance, through the table. *)
Definition on_instance {A} (id : Z) (m : M A) : W A :=
  (let! i := get_instance id in
   λ w, match m (mkWorld i (os_trace w)) with
        | (w', r) => (with_trace (trace w') (with_instances (<[id := inst w']> (instances w)) w), r)
        end)%op.

Definition wave_call `{Platform} (id : Z) (func_name : string) (args : list WasmValue) :
  W (list WasmValue) := on_instance id (call func_name args).

Definition instance_state (id : Z) : W InstanceState :=
  (let! i := get_instance id in op_ret (state i))%op.
Definition wave_steps_executed (id : Z) : W Z :=
  (let! i := get_instance id in op_ret (steps_executed i))%op.
Definition wave_read_memory (id offset length : Z) : W (list Z) :=
  on_instance id (read_memory offset length).
Definition wave_write_memory (id offset : Z) (data : list Z) : W unit :=
  on_instance id (write_memory offset data).

(** ** The binary format *)

Definition enc_name (s : string) : list Z :=
  encode_u32 (Z.of_nat (length (bytes_of_string s))) ++ bytes_of_string s.
(** A function import, of kind 0, and an export of any kind, with their indices. *)
Definition enc_import (i : string * string * Z) : list Z :=
  enc_name i.1.1 ++ enc_name i.1.2 ++ [0] ++ encode_u32 i.2.
Definition enc_export (e : string * Z * Z) : list Z := enc_name e.1.1 ++ [e.1.2] ++ encode_u32 e.2.
Definition enc_limits (l : Z * option Z) : list Z :=
  match l.2 with
  | Some max => [1] ++ encode_u32 l.1 ++ encode_u32 max
  | None => [0] ++ encode_u32 l.1
  end.
Definition enc_vec {A} (enc : A → list Z) (l : list A) : list Z :=
  encode_u32 (Z.of_nat (length l)) ++ concat (enc <$> l).
Definition enc_section (id : Z) (payload : list Z) : list Z :=
  id :: encode_u32 (Z.of_nat (length payload)) ++ payload.

(** A section: function imports, memories, exports, or one of another id, which the parser
    skips. *)
Inductive section :=
  | SImports (l : list (string * string * Z)) | SMemories (l : list (Z * option Z))
  | SExports (l : list (string * Z * Z)) | SOther (id : Z) (payload : list Z).

Definition section_id (s : section) : Z :=
  match s with SImports _ => 2 | SMemories _ => 5 | SExports _ => 7 | SOther id _ => id end.
Definition section_payload (s : section) : list Z :=
  match s with
  | SImports l => enc_vec enc_import l
  | SMemories l => enc_vec enc_limits l
  | SExports l => enc_vec enc_export l
  | SOther _ payload => payload
  end.
Definition encode_sections (secs : list section) : list Z :=
  concat ((λ s, enc_section (section_id s) (section_payload s)) <$> secs).
Definition encode_module (secs : list section) : list Z := magic ++ version ++ encode_sections secs.

Definition name_ok (s : string) : Prop :=
  utf8_valid (bytes_of_string s) = true ∧ Z.of_nat (length (bytes_of_string s)) < 2 ^ 32.
Definition import_ok (i : string * string * Z) : Prop :=
  name_ok i.1.1 ∧ name_ok i.1.2 ∧ is_word 32 i.2.
Definition export_ok (e : string * Z * Z) : Prop := name_ok e.1.1 ∧ is_word 32 e.2.
Definition limits_ok (l : Z * option Z) : Prop :=
  is_word 32 l.1 ∧ from_option (is_word 32) True l.2.
Definition vec_ok {A} (ok : A → Prop) (enc : A → list Z) (l : list A) : Prop :=
  Forall ok l ∧ Z.of_nat (length l) < 2 ^ 32 ∧ Z.of_nat (length (enc_vec enc l)) < 2 ^ 32.
Definition section_ok (s : section) : Prop :=
  match s with
  | SImports l => vec_ok import_ok enc_import l
  | SMemories l => vec_ok limits_ok enc_limits l
  | SExports l => vec_ok export_ok enc_export l
  | SOther id payload => (id ∉ [2; 5; 7]) ∧ Z.of_nat (length payload) < 2 ^ 32
  end.

(** [l] stands in [bytes] at position [pos]. *)
Definition occurs (bytes : list Z) (pos : nat) (l : list Z) : Prop :=
  ∃ pre post, bytes = pre ++ l ++ post ∧ pos = length pre.

Section occurs.
Context (bytes : list Z).
Abbreviation occurs := (occurs bytes).

Lemma occurs_app pos l1 l2 :
  occurs pos (l1 ++ l2) → occurs pos l1 ∧ occurs (pos + length l1) l2.
Proof.
  intros (pre & post & E & ->). split.
  - exists pre, (l2 ++ post). by rewrite E, <-!app_assoc.
  - exists (pre ++ l1), post. rewrite E, length_app, <-!app_assoc. done.
Qed.

Lemma occurs_le pos l : occurs pos l → (pos + length l ≤ length bytes)%nat.
Proof. intros (pre & post & -> & ->). rewrite !length_app. lia. Qed.

Lemma u32_at_occurs pos v : is_word 32 v → occurs pos (encode_u32 v) →
  u32_at bytes pos = Ok (v, (pos + length (encode_u32 v))%nat).
Proof.
  intros Hv Ho. pose proof (occurs_le _ _ Ho). destruct Ho as (pre & post & -> & ->).
  unfold u32_at. rewrite decide_False by lia. rewrite drop_app_length, read_encode_u32 by done. done.
Qed.

Lemma u8_at_occurs pos b : occurs pos [b] → u8_at bytes pos = Ok (b, (pos + length [b])%nat).
Proof.
  intros (pre & post & -> & ->). unfold u8_at.
  rewrite lookup_app_r, Nat.sub_diag by lia. simpl. do 2 f_equal. lia.
Qed.

Lemma name_at_occurs pos s : name_ok s → occurs pos (enc_name s) →
  name_at bytes pos = Ok (s, (pos + length (enc_name s))%nat).
Proof.
  intros [Hu Hl] Ho. pose proof (occurs_le _ _ Ho) as Hle. unfold enc_name in *.
  apply occurs_app in Ho as [Ho1 Ho2]. unfold name_at.
  assert (is_word 32 (Z.of_nat (length (bytes_of_string s)))) as Hw by (split; lia).
  rewrite (u32_at_occurs _ _ Hw Ho1). cbn [res_bind fst snd]. cbv zeta.
  rewrite Nat2Z.id. rewrite length_app in Hle |- *. rewrite decide_False by lia.
  destruct Ho2 as (pre & post & E & Hp). rewrite Hp, E, drop_app_length, take_app_length.
  unfold from_utf8. rewrite Hu, string_bytes. do 2 f_equal. lia.
Qed.

Ltac occurs_split :=
  repeat match goal with
    | H : WaveModule.occurs _ _ (_ ++ _) |- _ => apply occurs_app in H as [? ?]
    end.

(** Functions among the imports that the runtime provides, in order. *)
Definition resolve (imports : list (string * string * Z)) : list (string * HostFunction) :=
  omap (λ i, (λ f, (i.1.2, f)) <$> from_name i.1.1 i.1.2) imports.
Definition as_imports (imports : list (string * string * Z)) : list Import_ :=
  (λ i, mkImp i.1.1 i.1.2 no_signature) <$> imports.
Definition as_exports (exports : list (string * Z * Z)) : list Export_ :=
  (λ e, mkExp e.1.1 (ExFunction no_signature)) <$> filter (λ e, e.1.2 = 0) exports.

(** What a section adds to what is known: the first memory of the last memory section counts. *)
Definition add_section (p : Parsed) (s : section) : Parsed :=
  match s with
  | SImports l => mkParsed (p_imports p ++ as_imports l) (p_exports p) (p_host_imports p ++ resolve l) (p_memory p)
  | SMemories l => mkParsed (p_imports p) (p_exports p) (p_host_imports p)
      (match l with [] => p_memory p | m :: _ => Some m end)
  | SExports l => mkParsed (p_imports p) (p_exports p ++ as_exports l) (p_host_imports p) (p_memory p)
  | SOther _ _ => p
  end.

Lemma parse_imports_occurs l : ∀ pos imports hosts, Forall import_ok l →
  occurs pos (concat (enc_import <$> l)) →
  parse_imports bytes (length l) pos imports hosts =
    Ok (imports ++ as_imports l, hosts ++ resolve l).
Proof.
  induction l as [|[[m f] i] l IH]; intros pos imports hosts Hl Ho; cbn [length parse_imports].
  - unfold as_imports. simpl. by rewrite !app_nil_r.
  - apply Forall_cons in Hl as [(Hm & Hf & Hi) Hl]. simpl in Hm, Hf, Hi.
    cbn [fmap list_fmap concat] in Ho. unfold enc_import at 1 in Ho. cbn [fst snd] in Ho.
    rewrite <-!app_assoc in Ho.
    apply occurs_app in Ho as [Ho1 Ho]. apply occurs_app in Ho as [Ho2 Ho].
    apply occurs_app in Ho as [Ho3 Ho]. apply occurs_app in Ho as [Ho4 Ho].
    rewrite (name_at_occurs _ _ Hm Ho1). cbn [res_bind fst snd].
    rewrite (name_at_occurs _ _ Hf Ho2). cbn [res_bind fst snd].
    rewrite (u8_at_occurs _ _ Ho3). cbn [res_bind fst snd].
    rewrite (u32_at_occurs _ _ Hi Ho4). cbn [res_bind fst snd]. change (0 =? 0) with true. cbv iota.
    rewrite IH by done. unfold as_imports, resolve. simpl. rewrite <-app_assoc.
    destruct (from_name m f); simpl; by rewrite <-?app_assoc.
Qed.

Lemma parse_exports_occurs l : ∀ pos exports, Forall export_ok l →
  occurs pos (concat (enc_export <$> l)) →
  parse_exports bytes (length l) pos exports = Ok (exports ++ as_exports l).
Proof.
  induction l as [|[[n kd] i] l IH]; intros pos exports Hl Ho; cbn [length parse_exports].
  - unfold as_exports. simpl. by rewrite !app_nil_r.
  - apply Forall_cons in Hl as [(Hn & Hi) Hl]. simpl in Hn, Hi.
    cbn [fmap list_fmap concat] in Ho. unfold enc_export at 1 in Ho. cbn [fst snd] in Ho.
    rewrite <-!app_assoc in Ho.
    apply occurs_app in Ho as [Ho1 Ho]. apply occurs_app in Ho as [Ho2 Ho].
    apply occurs_app in Ho as [Ho3 Ho].
    rewrite (name_at_occurs _ _ Hn Ho1). cbn [res_bind fst snd].
    rewrite (u8_at_occurs _ _ Ho2). cbn [res_bind fst snd].
    rewrite (u32_at_occurs _ _ Hi Ho3). cbn [res_bind fst snd]. rewrite IH by done. unfold as_exports.
    destruct (Z.eqb_spec kd 0) as [->|Hk]; [|by rewrite filter_cons_False].
    rewrite filter_cons_True by done. simpl. by rewrite <-app_assoc.
Qed.

Lemma parse_memory_occurs pos ls memory : vec_ok limits_ok enc_limits ls → occurs pos (enc_vec enc_limits ls) →
  parse_memory bytes pos memory = Ok (match ls with [] => memory | l :: _ => Some l end).
Proof.
  intros (Hls & Hlen & _) Ho. unfold enc_vec in Ho. apply occurs_app in Ho as [Ho1 Ho]. unfold parse_memory.
  assert (is_word 32 (Z.of_nat (length ls))) as Hw by (split; lia).
  rewrite (u32_at_occurs _ _ Hw Ho1). cbn [res_bind fst snd]. destruct ls as [|[min max] ls]; [done|].
  apply Forall_cons in Hls as [[Hmin Hmax] _]. simpl in Hmin, Hmax.
  rewrite (proj2 (Z.ltb_lt 0 _)) by (simpl; lia).
  cbn [fmap list_fmap concat] in Ho. apply occurs_app in Ho as [Ho _]. unfold enc_limits in Ho. cbn [fst snd] in Ho.
  destruct max as [max|].
  - apply occurs_app in Ho as [Ho2 Ho]. apply occurs_app in Ho as [Ho3 Ho4].
    rewrite (u8_at_occurs _ _ Ho2). cbn [res_bind fst snd].
    rewrite (u32_at_occurs _ _ Hmin Ho3). cbn [res_bind fst snd]. simpl negb. cbv iota.
    rewrite (u32_at_occurs _ _ Hmax Ho4). done.
  - apply occurs_app in Ho as [Ho2 Ho3].
    rewrite (u8_at_occurs _ _ Ho2). cbn [res_bind fst snd].
    rewrite (u32_at_occurs _ _ Hmin Ho3). done.
Qed.

(** The parser of a well-formed section. *)
Lemma parse_section_occurs s pos p : section_ok s → occurs pos (section_payload s) →
  parse_section bytes (section_id s) pos p = Ok (add_section p s).
Proof.
  unfold parse_section. destruct s as [l|l|l|id payload]; intros Hok Ho; cbn [section_id section_payload add_section] in *.
  - change (SectionId.from_u8 2) with (Some SectionId.Import). cbv iota. destruct Hok as (Hl & Hlen & _).
    unfold enc_vec in Ho. apply occurs_app in Ho as [Ho1 Ho2]. assert (is_word 32 (Z.of_nat (length l))) as Hw by (split; lia).
    rewrite (u32_at_occurs _ _ Hw Ho1). cbn [res_bind fst snd]. by rewrite Nat2Z.id, (parse_imports_occurs _ _ _ _ Hl Ho2).
  - change (SectionId.from_u8 5) with (Some SectionId.Memory). cbv iota. by rewrite (parse_memory_occurs _ _ _ Hok Ho).
  - change (SectionId.from_u8 7) with (Some SectionId.Export). cbv iota. destruct Hok as (Hl & Hlen & _).
    unfold enc_vec in Ho. apply occurs_app in Ho as [Ho1 Ho2]. assert (is_word 32 (Z.of_nat (length l))) as Hw by (split; lia).
    rewrite (u32_at_occurs _ _ Hw Ho1). cbn [res_bind fst snd]. by rewrite Nat2Z.id, (parse_exports_occurs _ _ _ Hl Ho2).
  - destruct Hok as [Hid _]. rewrite !not_elem_of_cons in Hid. destruct Hid as (H2 & H5 & H7 & _).
    unfold SectionId.from_u8. repeat case_match; naive_solver.
Qed.

Lemma section_payload_length s : section_ok s → Z.of_nat (length (section_payload s)) < 2 ^ 32.
Proof. destruct s; [intros (_ & _ & ?)..|intros [_ ?]]; done. Qed.

(** One round of the loop over a well-formed section. *)
Lemma parse_loop_section fuel pos id payload p p' :
  Z.of_nat (length payload) < 2 ^ 32 → occurs pos (enc_section id payload) →
  (∀ pos', occurs pos' payload → parse_section bytes id pos' p = Ok p') →
  parse_loop bytes (S fuel) pos p = parse_loop bytes fuel (pos + length (enc_section id payload)) p'.
Proof.
  intros Hl Ho Hs. pose proof (occurs_le _ _ Ho) as Hle.
  change (enc_section id payload) with ([id] ++ encode_u32 (Z.of_nat (length payload)) ++ payload) in *.
  rewrite !length_app in Hle |- *.
  apply occurs_app in Ho as [Ho1 Ho]. apply occurs_app in Ho as [Ho2 Ho3].
  assert (length [id] = 1%nat) as H1 by done.
  cbn [parse_loop]. rewrite decide_True by lia.
  rewrite (u8_at_occurs _ _ Ho1). cbn [res_bind fst snd].
  assert (is_word 32 (Z.of_nat (length payload))) as Hw by (split; lia).
  rewrite (u32_at_occurs _ _ Hw Ho2). cbn [res_bind fst snd]. cbv zeta.
  rewrite Nat2Z.id. rewrite decide_False by lia.
  rewrite (Hs _ Ho3). cbn [res_bind]. f_equal. lia.
Qed.
End occurs.

(** The loop over well-formed sections to the end of the bytes. *)
Lemma parse_loop_sections bytes secs : ∀ fuel pos p, Forall section_ok secs →
  occurs bytes pos (encode_sections secs) → (pos + length (encode_sections secs) = length bytes)%nat → (length secs < fuel)%nat →
  parse_loop bytes fuel pos p = Ok (foldl add_section p secs).
Proof.
  induction secs as [|s secs IH]; intros [|fuel] pos p Hok Ho Hpos Hf; cbn [length] in Hf; [lia| |lia|].
  - unfold encode_sections in Hpos. simpl in Hpos. cbn [parse_loop]. by rewrite decide_False by lia.
  - apply Forall_cons in Hok as [Hs Hok]. unfold encode_sections in Ho, Hpos. cbn [fmap list_fmap concat] in Ho, Hpos.
    fold (encode_sections secs) in Ho, Hpos. rewrite length_app in Hpos. apply occurs_app in Ho as [Ho1 Ho2].
    rewrite (parse_loop_section _ _ _ _ _ _ (add_section p s) (section_payload_length s Hs) Ho1)
      by (intros pos' Hp; by apply parse_section_occurs).
    cbn [foldl]. apply IH; [done|done|lia|lia].
Qed.

Lemma sections_length secs : (length secs ≤ length (encode_sections secs))%nat.
Proof.
  induction secs as [|s secs IH]; [done|]. unfold encode_sections. cbn [fmap list_fmap concat]. fold (encode_sections secs).
  rewrite length_app. unfold enc_section. cbn [length]. lia.
Qed.

(** [C20] Parsing inverts the binary format for modules whose imports are functions: for the
    header and any sequence of well-formed sections, in any order and number, written with
    the shortest LEB128 numbers, parsing gives back exactly the imports in order, the
    functions among the exports, the first memory of the last memory section that has one, and
    the host functions among the imports in order; sections of other ids (types, code,
    custom and unknown ones) are skipped whatever they hold. Imports of other kinds are
    outside: the parser misreads some of them ([memory_import_misread]). *)
Theorem parse_roundtrip secs : Forall section_ok secs →
  parse_sections (encode_module secs) = Ok (foldl add_section (mkParsed [] [] [] None) secs).
Proof.
  intros Hok. unfold parse_sections, encode_module. apply parse_loop_sections; [done| | |].
  - exists (magic ++ version), []. by rewrite app_nil_r, <- app_assoc.
  - rewrite !length_app. simpl length at 2 3. lia.
  - pose proof (sections_length secs). rewrite !length_app. lia.
Qed.

(** ** Binding *)

Lemma bind_imports_Ok hosts imports bindings bs :
  bind_imports hosts imports bindings = Ok bs →
  (∀ bf, bf ∈ bs → (function bf, capability bf) ∈ bindings ∧ function bf ∈ hosts.*2) ∧
  (∀ n f, (n, f) ∈ hosts →
     (∃ bf, bf ∈ bs ∧ function bf = f) ∨ ∃ i, i ∈ imports ∧ import_name i = n).
Proof.
  revert bs. induction hosts as [|[n f] hosts IH]; intros bs; simpl.
  - intros [= <-]. split; intros *; by intros ?%elem_of_nil.
  - destruct (find _ bindings) as [[f' cap]|] eqn:Hf.
    + apply find_some in Hf as [Hin Heq%bool_decide_eq_true]. simpl in Heq. subst f'.
      destruct (bind_imports hosts imports bindings) as [bs'|e]; simpl; [|done].
      intros [= <-]. destruct (IH bs' eq_refl) as [H1 H2]. split.
      * intros bf [-> | Hbf]%elem_of_cons; simpl.
        -- split; [by apply list_elem_of_In|by left].
        -- destruct (H1 bf Hbf). split; [done|by right].
      * intros n' f'' [[= -> ->] | Hin']%elem_of_cons.
        -- left. exists (mkBound f cap). split; [by left|done].
        -- destruct (H2 _ _ Hin') as [(bf & ? & ?)|?]; [left|by right].
           exists bf. split; [by right|done].
    + destruct (existsb _ imports) eqn:He; [|done]. intros Hb.
      destruct (IH bs Hb) as [H1 H2]. split.
      * intros bf Hbf. destruct (H1 bf Hbf). split; [done|by right].
      * intros n' f' [[= -> ->] | Hin']%elem_of_cons; [|by apply H2].
        right. apply existsb_exists in He as (i & Hi & En%String.eqb_eq).
        exists i. split; [by apply list_elem_of_In|done].
Qed.

Lemma bind_imports_Err hosts imports bindings e :
  bind_imports hosts imports bindings = Err e → e = Fail MissingImport ∧
  ∃ n f, (n, f) ∈ hosts ∧ (∀ cap, (f, cap) ∉ bindings) ∧ ∀ i, i ∈ imports → import_name i ≠ n.
Proof.
  induction hosts as [|[n f] hosts IH]; simpl; [done|].
  destruct (find _ bindings) as [[f' cap]|] eqn:Hf.
  - destruct (bind_imports hosts imports bindings) as [bs'|e']; simpl; [done|].
    intros [= ->]. destruct (IH eq_refl) as [-> (n' & f'' & ? & ? & ?)]. split; [done|].
    exists n', f''. split; [by right|done].
  - destruct (existsb _ imports) eqn:He.
    + intros [-> (n' & f'' & ? & ? & ?)]%IH. split; [done|]. exists n', f''. split; [by right|done].
    + intros [= <-]. split; [done|]. exists n, f. split; [by left|]. split.
      * intros cap Hin. apply list_elem_of_In in Hin. pose proof (find_none _ _ Hf _ Hin) as Hn.
        by apply bool_decide_eq_false in Hn.
      * intros i Hi Hn. assert (existsb (λ i, String.eqb (import_name i) n) imports = true) as Ht.
        { apply existsb_exists. exists i. split; [by apply list_elem_of_In|by apply String.eqb_eq]. }
        congruence.
Qed.

(** Instantiation. It succeeds only if every host function the module imports is
    given a capability or named by a legacy import, and then: the instance is new in
    the table and nothing else changes, it holds exactly zeroed pages up to the
    configured maximum, it is ready, and each of its bindings is one of the given
    capabilities for a function the module imports. A missing binding is reported
    as such and changes nothing. *)
Theorem instantiate_correct mid imports bindings w w' r :
  is_u64 (max_memory (config w)) →
  instantiate mid imports bindings w = (w', r) →
  match r with
  | Ok id =>
      ∃ m i, modules w !! mid = Some m ∧ id = next_instance_id w ∧
        w' = with_instances (<[id := i]> (instances w)) (with_next_instance (u64_add id 1) w) ∧
        state i = Ready ∧ max_steps i = config_max_steps (config w) ∧
        memory_len i ≤ max_memory (config w) ∧ Forall (λ b, b = 0) (memory i) ∧
        (∀ bf, bf ∈ host_functions i → (function bf, capability bf) ∈ bindings ∧
                                       function bf ∈ (p_host_imports (m_parsed m)).*2) ∧
        (∀ n f, (n, f) ∈ p_host_imports (m_parsed m) →
           (∃ bf, bf ∈ host_functions i ∧ function bf = f) ∨ ∃ im, im ∈ imports ∧ import_name im = n)
  | Err (Fail e) => w' = w
  | Err _ => True
  end.
Proof.
  intros [Hmax _]. unfold instantiate, op_bind, op_gets, op_lift, op_guard, op_modify, op_ret.
  destruct (modules w !! mid) as [m|] eqn:Hm; simpl; [|by intros [= <- <-]].
  destruct (bind_imports _ imports bindings) as [bound|e] eqn:Hb.
  2:{ apply bind_imports_Err in Hb as [-> _]. by intros [= <- <-]. }
  destruct (Z.ltb_spec (max_memory (config w)) (from_option fst 1 (p_memory (m_parsed m)) * 65536));
    [by intros [= <- <-]|].
  destruct (_ <=? count_of _); [by intros [= <- <-]|].
  destruct (_ <=? _); [by intros [= _ <-]|]. intros [= <- <-].
  apply bind_imports_Ok in Hb as [H1 H2].
  eexists m, _. split_and!; try done.
  - unfold memory_len. simpl. rewrite length_replicate. lia.
  - simpl. apply Forall_replicate. done.
Qed.

(** ** Histories *)

Inductive Request :=
| RLoad (bytes : list Z) (name : option string)
| RInstantiate (mid : Z) (imports : list BoundImport)
    (bindings : list (HostFunction * CapabilityToken))
| RUnload (id : Z)
| RTerminate (id : Z)
| RReset (id : Z)
| RCall (id : Z) (name : string) (args : list WasmValue)
| RRead (id offset length : Z)
| RWrite (id offset : Z) (data : list Z).

Definition serve `{Platform} (r : Request) (w : Wave) : Wave :=
  match r with
  | RLoad bytes name => (load bytes name w).1
  | RInstantiate mid imports bindings => (instantiate mid imports bindings w).1
  | RUnload id => (unload id w).1
  | RTerminate id => (terminate id w).1
  | RReset id => (reset_instance id w).1
  | RCall id name args => (wave_call id name args w).1
  | RRead id offset length => (wave_read_memory id offset length w).1
  | RWrite id offset data => (wave_write_memory id offset data w).1
  end.

(** The capabilities a request hands out. *)
Definition granted (r : Request) : list (HostFunction * CapabilityToken) :=
  match r with RInstantiate _ _ bindings => bindings | _ => [] end.

(** Every binding and every event goes back to a capability handed out. *)
Record wave_inv (G : list (HostFunction * CapabilityToken)) (w : Wave) : Prop := {
  wi_bound : ∀ id i bf, instances w !! id = Some i → bf ∈ host_functions i →
    (function bf, capability bf) ∈ G;
  wi_trace : ∀ e, e ∈ os_trace w → ∃ f cap, (f, cap) ∈ G ∧ f ∈ event_sources e
}.

Lemma wave_inv_mono G G' w : (∀ g, g ∈ G → g ∈ G') → wave_inv G w → wave_inv G' w.
Proof. intros HG [H1 H2]. split; [naive_solver|]. intros e (f & c & ? & ?)%H2. eauto. Qed.

Lemma wave_inv_frame G w w' : wave_inv G w → os_trace w' = os_trace w →
  (∀ id i', instances w' !! id = Some i' →
     ∃ id0 i, instances w !! id0 = Some i ∧ host_functions i' = host_functions i) →
  wave_inv G w'.
Proof.
  intros [H1 H2] Ht Hi. split; [|by rewrite Ht].
  intros id i' bf Hid Hbf. destruct (Hi _ _ Hid) as (id0 & i & ? & E). rewrite E in Hbf. eauto.
Qed.

(** Operations on one instance that keep its bindings. *)
Lemma on_instance_inv {A} G id (m : M A) w :
  (∀ v, host_functions (inst (m v).1) = host_functions (inst v) ∧
        ∃ t, trace (m v).1 = t ++ trace v ∧ Forall (authorised (host_functions (inst v))) t) →
  wave_inv G w → wave_inv G (on_instance id m w).1.
Proof.
  intros Hm Hw. unfold on_instance, get_instance, op_bind, op_gets, op_lift.
  destruct (instances w !! id) as [i|] eqn:Hi; simpl; [|done].
  destruct (Hm (mkWorld i (os_trace w))) as (Hh & t & Ht & Ha).
  destruct (m _) as [v r]. simpl in *. destruct Hw as [H1 H2]. split; simpl.
  - intros id' i' bf Hid' Hbf. apply lookup_insert_Some in Hid' as [[-> <-]|[_ ?]]; [|eauto].
    rewrite Hh in Hbf. eauto.
  - intros e. rewrite Ht. intros [He|He]%elem_of_app; [|eauto].
    rewrite Forall_forall in Ha. destruct (Ha e He) as (bf & Hbf & Hs). eauto.
Qed.

Lemma put_instance_inv G id f w : (∀ i, host_functions (f i) = host_functions i) →
  wave_inv G w → wave_inv G ((let! i := get_instance id in put_instance id (f i))%op w).1.
Proof.
  intros Hf Hw. unfold get_instance, put_instance, op_bind, op_gets, op_lift, op_modify.
  destruct (instances w !! id) as [i|] eqn:Hi; simpl; [|done].
  eapply wave_inv_frame; [exact Hw|done|]. simpl. intros id' i' Hid'.
  apply lookup_insert_Some in Hid' as [[-> <-]|[_ ?]]; eauto.
Qed.

Lemma load_keeps bytes name w :
  instances (load bytes name w).1 = instances w ∧ os_trace (load bytes name w).1 = os_trace w.
Proof.
  unfold load, op_bind, op_guard, op_gets, op_modify, op_lift, op_ret.
  repeat case_match; simplify_eq/=; done.
Qed.

Lemma serve_inv `{Platform} r G w : wave_inv G w → wave_inv (G ++ granted r) (serve r w).
Proof.
  intros Hw. assert (wave_inv (G ++ granted r) w) as Hw'.
  { eapply wave_inv_mono; [|exact Hw]. intros g ?. apply elem_of_app. by left. }
  destruct r as [bytes name|mid imports bindings|id|id|id|id name args|id off len|id off data]; simpl serve.
  - destruct (load_keeps bytes name w) as [Hi Ht]. eapply wave_inv_frame; [exact Hw'|done|].
    rewrite Hi. eauto.
  - unfold instantiate, op_bind, op_gets, op_lift, op_guard, op_modify, op_ret.
    destruct (modules w !! mid) as [m|]; simpl; [|done].
    destruct (bind_imports _ imports bindings) as [bound|e] eqn:Hb; [|done]. simpl.
    destruct (_ <? _); [done|]. destruct (_ <=? count_of _); [done|]. simpl.
    destruct (_ <=? _); simpl; [by eapply wave_inv_frame; eauto|].
    destruct Hw' as [H1 H2]. split; [|done]. simpl. intros id i bf Hid Hbf.
    apply lookup_insert_Some in Hid as [[_ <-]|[_ ?]]; [|eauto].
    apply bind_imports_Ok in Hb as [Hb _]. apply elem_of_app. right. by apply Hb.
  - unfold unload, op_bind, op_gets, op_lift, op_modify. destruct (modules w !! id); simpl; [|done].
    by eapply wave_inv_frame; eauto.
  - by apply (put_instance_inv _ id (with_state Terminated)).
  - by apply (put_instance_inv _ id reset_execution).
  - apply on_instance_inv; [|done]. intros v.
    destruct (call name args v) as [v' r] eqn:E. destruct (call_confined _ _ _ _ _ E) as [Hs Ht].
    split; [by injection Hs|done].
  - apply on_instance_inv; [|done]. intros v. unfold read_memory. split.
    + assert (preserves (λ v, host_functions (inst v)) (read_memory off len)) as Hp
        by (unfold read_memory; pres). apply Hp.
    + apply emits_silent. pres.
  - apply on_instance_inv; [|done]. intros v. split.
    + assert (preserves (λ v, host_functions (inst v)) (write_memory off data)) as Hp
        by (unfold write_memory, copy_to_memory; pres). apply Hp.
    + apply emits_silent. unfold write_memory, copy_to_memory. pres.
Qed.

(** [C7] No ambient authority, over any history of the runtime: whatever modules are
    loaded and however they are called, every system call, serial byte and clock
    reading there ever was goes back to a capability that some request handed out at
    instantiation, for a host function that may cause it; and every binding of every
    instance is such a capability. *)
Theorem no_ambient_authority `{Platform} c rs :
  let w := run_ops serve rs (new c) in
  let G := concat (granted <$> rs) in
  (∀ e, e ∈ os_trace w → ∃ f cap, (f, cap) ∈ G ∧ f ∈ event_sources e) ∧
  (∀ id i bf, instances w !! id = Some i → bf ∈ host_functions i →
     (function bf, capability bf) ∈ G).
Proof.
  assert (∀ rs G w, wave_inv G w →
    wave_inv (G ++ concat (granted <$> rs)) (run_ops serve rs w)) as Hrun.
  { clear rs. intros rs. induction rs as [|r rs IH]; intros G w Hw; simpl; [by rewrite app_nil_r|].
    rewrite app_assoc. by apply IH, serve_inv. }
  destruct (Hrun rs [] (new c)) as [H1 H2].
  { split; simpl; [intros ??? ?%lookup_empty_Some; done|intros ? ?%elem_of_nil; done]. }
  split; [exact H2|exact H1].
Qed.

(** ** Parsing ends *)

Definition ends {A} (r : Result A Stop) : Prop := r ≠ Err Diverges.

Lemma ends_bind {A B} (r : Result A Stop) (k : A → Result B Stop) :
  ends r → (∀ a, ends (k a)) → ends (res_bind r k).
Proof. unfold ends. destruct r; simpl; [auto|congruence]. Qed.

Lemma ends_err {A B} (e : Stop) : ends (Err e : Result A Stop) → ends (Err e : Result B Stop).
Proof. unfold ends. congruence. Qed.

Section ends.
Context (bytes : list Z).

Lemma u32_at_ends pos : ends (u32_at bytes pos).
Proof. unfold u32_at, ends. case_decide; [done|]. by destruct (read_leb128_u32 _) as [[]|]. Qed.
Lemma u8_at_ends pos : ends (u8_at bytes pos).
Proof. unfold u8_at, ends. by destruct (bytes !! pos). Qed.
Lemma name_at_ends pos : ends (name_at bytes pos).
Proof.
  apply ends_bind; [apply u32_at_ends|]. intros r. cbv beta zeta. case_decide; [done|]. by destruct (from_utf8 _).
Qed.

Lemma parse_imports_ends n : ∀ pos ims hs, ends (parse_imports bytes n pos ims hs).
Proof.
  induction n as [|n IH]; intros pos ims hs; [done|]. cbn [parse_imports].
  apply ends_bind; [apply name_at_ends|]. intros m. apply ends_bind; [apply name_at_ends|]. intros f.
  apply ends_bind; [apply u8_at_ends|]. intros kind. apply ends_bind; [apply u32_at_ends|].
  intros index. by destruct (_ =? _).
Qed.

Lemma parse_exports_ends n : ∀ pos es, ends (parse_exports bytes n pos es).
Proof.
  induction n as [|n IH]; intros pos es; [done|]. cbn [parse_exports].
  apply ends_bind; [apply name_at_ends|]. intros m. apply ends_bind; [apply u8_at_ends|].
  intros kind. apply ends_bind; [apply u32_at_ends|]. done.
Qed.

Lemma parse_memory_ends pos m : ends (parse_memory bytes pos m).
Proof.
  apply ends_bind; [apply u32_at_ends|]. intros count. case_match; [|done].
  apply ends_bind; [apply u8_at_ends|]. intros flags. apply ends_bind; [apply u32_at_ends|].
  intros min. case_match; [|done]. by apply ends_bind; [apply u32_at_ends|].
Qed.

Lemma parse_section_ends id pos p : ends (parse_section bytes id pos p).
Proof.
  unfold parse_section. destruct (SectionId.from_u8 id) as [[]|]; try done.
  - apply ends_bind; [apply u32_at_ends|]. intros count.
    by apply ends_bind; [apply parse_imports_ends|].
  - by apply ends_bind; [apply parse_memory_ends|].
  - apply ends_bind; [apply u32_at_ends|]. intros count.
    by apply ends_bind; [apply parse_exports_ends|].
Qed.

Lemma u32_at_forward pos v pos' : u32_at bytes pos = Ok (v, pos') → (pos < pos')%nat.
Proof.
  unfold u32_at. case_decide; [done|].
  pose proof (read_leb128_u32_outcome (drop pos bytes)) as Ho.
  destruct (read_leb128_u32 (drop pos bytes)) as [[v' br]|]; [|done].
  apply reads_up_to_Ok in Ho. intros [= _ <-]. lia.
Qed.

Lemma parse_loop_ends fuel : ∀ pos p, (0 < fuel)%nat → (length bytes < fuel + pos)%nat →
  ends (parse_loop bytes fuel pos p).
Proof.
  induction fuel as [|fuel IH]; intros pos p H0 Hf; [lia|]. cbn [parse_loop].
  case_decide as Hp; [|done].
  destruct (u8_at bytes pos) as [[id pos1]|e] eqn:E1; simpl;
    [|by apply (@ends_err (Z * nat)); rewrite <-E1; apply u8_at_ends].
  destruct (u32_at bytes pos1) as [[size pos2]|e] eqn:E2; simpl;
    [|by apply (@ends_err (Z * nat)); rewrite <-E2; apply u32_at_ends].
  case_decide as Hend; [done|]. apply ends_bind; [apply parse_section_ends|]. intros p'.
  apply u32_at_forward in E2. assert (pos1 = S pos) as ->.
  { unfold u8_at in E1. destruct (bytes !! pos); naive_solver. }
  apply IH; lia.
Qed.

(** Parsing terminates: whatever bytes are loaded, the section walk ends after at
    most one round per byte, in a parsed module, in [WaveError::InvalidModule] or in a
    panic; it never runs for ever. *)
Theorem parse_ends :
  parse_sections bytes ≠ Err Diverges.
Proof. apply parse_loop_ends; lia. Qed.
End ends.

(** ** A sample *)

Definition sample_module : list Z :=
  encode_module [SOther 1 [1; 0x60; 0; 0]; SImports [("splax", "s_log", 0); ("env", "foo", 3)]%string;
    SMemories [(1, Some 2)]; SExports [("main", 0, 1); ("memory", 2, 0)]%string; SOther 0 [7]].

Lemma parse_roundtrip_witness :
  parse_sections sample_module =
    Ok (mkParsed [mkImp "splax" "s_log" no_signature; mkImp "env" "foo" no_signature]
         [mkExp "main" (ExFunction no_signature)] [("s_log"%string, SLog)] (Some (1, Some 2))).
Proof.
  apply parse_roundtrip. repeat (apply Forall_cons; split); try (by apply Forall_nil).
  - split; [apply (bool_decide_unpack _); by vm_compute|done].
  - split; [|by split]. repeat (apply Forall_cons; split; [by split_and!|]). by apply Forall_nil.
  - split; [|by split]. repeat (apply Forall_cons; split; [by split|]). by apply Forall_nil.
  - split; [|by split]. repeat (apply Forall_cons; split; [by split_and!|]). by apply Forall_nil.
  - split; [apply (bool_decide_unpack _); by vm_compute|done].
Defined.

(** The runtime with one module importing [env.foo], unknown to the runtime, and
    [splax.s_log]. *)
Definition sample_wave : Wave :=
  (load (encode_module [SImports [("env", "foo", 0); ("splax", "s_log", 0)]%string; SMemories [(0, None)]; SExports []]) None
    (new default_config)).1.

Lemma instantiate_correct_witness :
  let r := instantiate 1 [] [(SLog, mkToken 5 0 0 0)] sample_wave in
  is_u64 (max_memory (config sample_wave)) ∧ r.2 = Ok 1 ∧
  ∃ i, instances r.1 !! 1 = Some i ∧ state i = Ready.
Proof.
  intros r. assert (is_u64 (max_memory (config sample_wave))) as Hm by by split.
  split; [exact Hm|]. assert (r.2 = Ok 1) as Hr by by vm_compute. split; [exact Hr|].
  pose proof (instantiate_correct 1 [] [(SLog, mkToken 5 0 0 0)] sample_wave r.1 r.2 Hm
    (surjective_pairing r)) as H.
  rewrite Hr in H. destruct H as (m & i & _ & Hid & Hw & Hs & _). exists i. split; [|exact Hs].
  rewrite Hw. apply lookup_insert_eq.
Defined.

(** Function indices count every import of a module, but [host_functions] holds only the
    bound ones: here import 0 is [foo] and import 1 is [s_log], and [call 0] runs
    [s_log] while [call 1] is taken for a function of the module. *)
Lemma import_indices_shift :
  (load (encode_module [SImports [("env", "foo", 0); ("splax", "s_log", 0)]%string; SMemories [(0, None)]; SExports []]) None
    (new default_config)).2 = Ok 1 ∧
  host_functions <$> (instances (instantiate 1 [] [(SLog, mkToken 5 0 0 0)] sample_wave).1 !! 1) =
    Some [mkBound SLog (mkToken 5 0 0 0)].
Proof. split; by vm_compute. Qed.

(** A memory import carries limits, of which the parser skips one number: the second is
    read as the length of the next import's module name, here running past the end. *)
Lemma memory_import_misread :
  parse_sections (magic ++ version ++ enc_section 2
    (encode_u32 2 ++ enc_name "env" ++ enc_name "mem" ++ [2; 0; 1]
      ++ enc_import ("splax", "s_log", 0))) = Err Panics.
Proof. by vm_compute. Qed.

(** An import section cut short panics instead of being rejected. *)
Lemma truncated_import_panics :
  parse_sections (magic ++ version ++ enc_section 2 [1; 5]) = Err Panics.
Proof. by vm_compute. Qed.

(** Nothing keeps a section's parser inside the section: the names of this import section,
    one byte long, are read from the two custom sections after it, which are then read
    again as sections. *)
Lemma section_overrun :
  (p_imports <$> match parse_sections (magic ++ version ++ [2; 1; 1] ++ [0; 1; 0] ++ [0; 0]) with
                 | Ok p => Some p | Err _ => None end) =
  Some [mkImp "" (string_of_bytes [0]) no_signature].
Proof. by vm_compute. Qed.
