(* ===== verification/WaveJit.v ===== *)
(** * WaveJit: the baseline compiler of the WASM runtime ([runtime/wave/src/lib.rs])

    [JitState]: the tiering decision and the template compiler [compile_baseline], which
    emits x86-64 bytes. The bytes are given meaning by a machine for the instructions
    they encode (the architecture's own semantics: the fetched code is a list, the
    stack is byte-addressed memory, flags are left out since nothing reads them). The
    compiled code of a straight-line body leaves in [eax] what the byte-level
    interpreter computes, restores the stack and the frame pointer and touches nothing
    above its own frame; outside that subset it does not. *)

From Stdlib Require Import ZArith Lia.
From stdpp Require Import gmap list.
From S2P Require Import Prelude.
From S2P Require Import Ids.
From S2P Require Import Mem.
From S2P Require Import Bytes.
From S2P Require Import Loop.
From S2P Require Import WaveValue.
From S2P Require Import Leb128.
From S2P Require Import WaveInst.
From S2P Require Import WaveInterp.
From S2P Require Import WaveStraight.

(** ** State *)

Inductive JitTier := Interpreter | Baseline | Optimized.

Record CompiledFunction := mkCompiled {
  func_idx : Z; tier : JitTier; code : list Z; entry_offset : Z; execution_count : Z
}.

Record JitState := mkJit {
  functions : gmap Z CompiledFunction;
  baseline_threshold : Z;
  optimize_threshold : Z
}.

Definition jit_new : JitState := mkJit ∅ 100 10000.

Definition should_compile (idx exec_count : Z) (js : JitState) : option JitTier :=
  match functions js !! idx with
  | Some compiled =>
      match tier compiled with
      | Interpreter => if baseline_threshold js <=? exec_count then Some Baseline else None
      | Baseline => if optimize_threshold js <=? exec_count then Some Optimized else None
      | Optimized => None
      end
  | None => if baseline_threshold js <=? exec_count then Some Baseline else None
  end.

Definition get_compiled (idx : Z) (js : JitState) : option CompiledFunction :=
  functions js !! idx.

(** ** Templates *)

Definition prologue : list Z := [0x55; 0x48; 0x89; 0xE5; 0x48; 0x83; 0xEC; 0x40].
Definition epilogue : list Z := [0x48; 0x89; 0xEC; 0x5D; 0xC3].

(** [-((idx as i32 + 1) * 8)] as a byte. *)
Definition local_offset (idx : Z) : Z := wrap 8 (i32 (- i32 (i32 (i32 idx + 1) * 8))).

(** One opcode, with the bytes after it: the code it appends and the bytes left. *)
Definition compile_op (opcode : Z) (rest : list Z) : Result (list Z * list Z) WaveError :=
  match opcode with
  | 0x41 =>
      match jit_read_leb128_i32 rest with
      | Ok (val, bytes_read) =>
          Ok (0xB8 :: to_le_bytes 4 (u32 val) ++ [0x50], drop bytes_read rest)
      | Err e => Err e
      end
  | 0x6A => Ok ([0x59; 0x58; 0x01; 0xC8; 0x50], rest)
  | 0x6B => Ok ([0x59; 0x58; 0x29; 0xC8; 0x50], rest)
  | 0x6C => Ok ([0x59; 0x58; 0x0F; 0xAF; 0xC1; 0x50], rest)
  | 0x20 =>
      match jit_read_leb128_u32 rest with
      | Ok (idx, bytes_read) =>
          Ok ([0x48; 0x8B; 0x45; local_offset idx; 0x50], drop bytes_read rest)
      | Err e => Err e
      end
  | 0x21 =>
      match jit_read_leb128_u32 rest with
      | Ok (idx, bytes_read) =>
          Ok ([0x58; 0x48; 0x89; 0x45; local_offset idx], drop bytes_read rest)
      | Err e => Err e
      end
  | 0x0F | 0x0B => Ok ([0x58; 0x48; 0x89; 0xEC; 0x5D; 0xC3], rest)
  | _ => Ok ([], rest)
  end.

(** The walk over the bytes; every round consumes one. *)
Fixpoint compile_loop (fuel : nat) (wasm out : list Z) : Result (list Z) Stop :=
  match fuel with
  | O => Err Diverges
  | S fuel =>
      match wasm with
      | [] => Ok out
      | opcode :: rest =>
          match compile_op opcode rest with
          | Ok (emitted, rest) => compile_loop fuel rest (out ++ emitted)
          | Err e => Err (Fail e)
          end
      end
  end.

Definition compile_body (wasm : list Z) : Result (list Z) Stop :=
  match compile_loop (S (length wasm)) wasm prologue with
  | Ok out => Ok (out ++ epilogue)
  | Err e => Err e
  end.

Definition compile_baseline (idx : Z) (wasm : list Z) (js : JitState) : JitState * Result unit Stop :=
  match compile_body wasm with
  | Ok out =>
      (mkJit (<[idx := mkCompiled idx Baseline out 0 0]> (functions js))
         (baseline_threshold js) (optimize_threshold js), Ok tt)
  | Err e => (js, Err e)
  end.

(** ** The x86-64 instructions of the templates *)

Module X86.
Record cpu := mkCpu { rax : Z; rcx : Z; rsp : Z; rbp : Z; rip : nat; mem : Mem.memory }.

(** The result of an instruction: the next one, a return to an address, or an encoding
    outside the templates. *)
Inductive next := Next (c : cpu) | Returned (c : cpu) (target : Z) | Stuck.

Definition set_rax v c := mkCpu v (rcx c) (rsp c) (rbp c) (rip c) (mem c).
Definition set_rcx v c := mkCpu (rax c) v (rsp c) (rbp c) (rip c) (mem c).
Definition set_rsp v c := mkCpu (rax c) (rcx c) v (rbp c) (rip c) (mem c).
Definition set_rbp v c := mkCpu (rax c) (rcx c) (rsp c) v (rip c) (mem c).
Definition set_mem m c := mkCpu (rax c) (rcx c) (rsp c) (rbp c) (rip c) m.
Definition skip (n : nat) c := mkCpu (rax c) (rcx c) (rsp c) (rbp c) (rip c + n) (mem c).

Definition push (v : Z) (c : cpu) : cpu :=
  let sp := u64 (rsp c - 8) in set_mem (store64 sp v (mem c)) (set_rsp sp c).
Definition top (c : cpu) : Z := load64 (mem c) (rsp c).
Definition drop_top (c : cpu) : cpu := set_rsp (u64 (rsp c + 8)) c.

(** The instruction the bytes start with. A 32-bit result clears the upper half. *)
Definition exec (bytes : list Z) (c : cpu) : next :=
  match bytes with
  | 0x50 :: _ => Next (skip 1 (push (rax c) c))
  | 0x55 :: _ => Next (skip 1 (push (rbp c) c))
  | 0x58 :: _ => Next (skip 1 (set_rax (top c) (drop_top c)))
  | 0x59 :: _ => Next (skip 1 (set_rcx (top c) (drop_top c)))
  | 0x5D :: _ => Next (skip 1 (set_rbp (top c) (drop_top c)))
  | 0x01 :: 0xC8 :: _ => Next (skip 2 (set_rax (u32 (rax c + rcx c)) c))
  | 0x29 :: 0xC8 :: _ => Next (skip 2 (set_rax (u32 (rax c - rcx c)) c))
  | 0x0F :: 0xAF :: 0xC1 :: _ => Next (skip 3 (set_rax (u32 (rax c * rcx c)) c))
  | 0x48 :: 0x89 :: 0xE5 :: _ => Next (skip 3 (set_rbp (rsp c) c))
  | 0x48 :: 0x89 :: 0xEC :: _ => Next (skip 3 (set_rsp (rbp c) c))
  | 0x48 :: 0x83 :: 0xEC :: d :: _ => Next (skip 4 (set_rsp (u64 (rsp c - signed 8 d)) c))
  | 0x48 :: 0x8B :: 0x45 :: d :: _ =>
      Next (skip 4 (set_rax (load64 (mem c) (u64 (rbp c + signed 8 d))) c))
  | 0x48 :: 0x89 :: 0x45 :: d :: _ =>
      Next (skip 4 (set_mem (store64 (u64 (rbp c + signed 8 d)) (rax c) (mem c)) c))
  | 0xB8 :: b0 :: b1 :: b2 :: b3 :: _ =>
      Next (skip 5 (set_rax (from_le_bytes [b0; b1; b2; b3]) c))
  | 0xC3 :: _ => Returned (drop_top c) (top c)
  | _ => Stuck
  end.

(** One round over the code, for [iter_nat]: [None] is a stuck machine. *)
Definition round (code : list Z) (c : cpu) : cpu + option (cpu * Z) :=
  match exec (drop (rip c) code) c with
  | Next c' => inl c'
  | Returned c' a => inr (Some (c', a))
  | Stuck => inr None
  end.

(** A call: the stack pointer at the return address, the frame pointer the caller's. *)
Definition entry (s bp : Z) (m : Mem.memory) : cpu := mkCpu 0 0 s bp 0 m.
End X86.

(** ** Running templates *)

Section runs.
Context (code : list Z).
Import X86.

Lemma drop_more {A} n (l x r : list A) : drop n l = x ++ r → drop (n + length x) l = r.
Proof. intros H. rewrite <-drop_drop, H. apply drop_app_length. Qed.

(** [k] more rounds lead from one state to the other. *)
Definition runs (k : nat) (c c' : cpu) : Prop :=
  ∀ n, iter_nat (round code) (k + n) c = iter_nat (round code) n c'.

Lemma runs_refl c : runs 0 c c.
Proof. done. Qed.

Lemma runs_trans k1 k2 c1 c2 c3 : runs k1 c1 c2 → runs k2 c2 c3 → runs (k1 + k2) c1 c3.
Proof. intros H1 H2 n. rewrite <-Nat.add_assoc. rewrite (H1 (k2 + n)%nat). apply H2. Qed.

Lemma runs_step c c' bytes : drop (rip c) code = bytes → exec bytes c = Next c' → runs 1 c c'.
Proof. intros Hb He n. simpl. unfold round. by rewrite Hb, He. Qed.

(** The next instruction, of which [b] is the encoding. *)
Lemma runs_cons k c c' c'' b post :
  drop (rip c) code = b ++ post → exec (b ++ post) c = Next c' → rip c' = (rip c + length b)%nat →
  (drop (rip c') code = post → runs k c' c'') → runs (S k) c c''.
Proof.
  intros Hb He Hr Hk. change (S k) with (1 + k)%nat. eapply runs_trans; [by eapply runs_step|].
  apply Hk. rewrite Hr. by apply drop_more.
Qed.
End runs.

(** ** The machine in a frame *)

Section frame.
Context (s bp : Z) (m0 : Mem.memory).
Import X86.

(** The stack [st] (top first) and the eight locals [ls] in the frame of a call entered
    with the stack pointer at [s]: 32-bit values in 64-bit slots, the locals below the
    saved frame pointer, the value stack below the locals. *)
Record in_frame (st ls : list Z) (c : cpu) : Prop := mkInFrame {
  fr_rbp : rbp c = s - 8;
  fr_rsp : rsp c = s - 72 - 8 * Z.of_nat (length st);
  fr_stack : ∀ j v, st !! j = Some v → i32 (load64 (mem c) (rsp c + 8 * Z.of_nat j)) = v;
  fr_locals : ∀ k v, ls !! k = Some v → i32 (load64 (mem c) (s - 16 - 8 * Z.of_nat k)) = v;
  fr_count : length ls = 8%nat;
  fr_saved : load64 (mem c) (s - 8) = bp;
  fr_above : ∀ a, s ≤ a → load8 (mem c) a = load8 m0 a
}.

(** What the frame says does not depend on [rax], [rcx] and the instruction pointer. *)
Lemma in_frame_regs st ls c c' :
  rbp c' = rbp c → rsp c' = rsp c → mem c' = mem c → in_frame st ls c → in_frame st ls c'.
Proof. intros E1 E2 E3 [????]. split; rewrite ?E1, ?E2, ?E3; done. Qed.

Lemma load64_store64_wrap m a v : load64 (store64 a v m) a = u64 v.
Proof.
  unfold load64, store64. rewrite <-(length_to_le_bytes 8 v) at 1.
  by rewrite load_bytes_store, from_to_le_bytes.
Qed.

Lemma i32_u64 v : i32 (u64 v) = i32 v.
Proof.
  apply signed_ext. unfold u64, wrap. apply Z.mod_mod_divide.
  by exists (2 ^ 32).
Qed.

Context (Hs : s + 8 ≤ 2 ^ 64).

Lemma in_frame_push st ls c v :
  72 + 8 * (Z.of_nat (length st) + 1) ≤ s → in_frame st ls c →
  in_frame (i32 v :: st) ls (push v c).
Proof.
  intros Hd [H1 H2 H3 H4 H5 H6 H7]. assert (u64 (rsp c - 8) = rsp c - 8) as E
    by (apply u64_small; unfold is_u64; lia).
  unfold push. rewrite E. split; simpl; [done|lia|..].
  - intros [|j] x; simpl.
    + intros [= <-]. rewrite Z.add_0_r, load64_store64_wrap. apply i32_u64.
    + intros Hj. rewrite load64_store64_ne by lia. rewrite <-(H3 _ _ Hj). do 2 f_equal. lia.
  - intros k x Hk. pose proof (lookup_lt_Some _ _ _ Hk). rewrite load64_store64_ne by lia. eauto.
  - done.
  - rewrite load64_store64_ne by lia. done.
  - intros a Ha. rewrite load8_store64_ne by lia. eauto.
Qed.

Lemma in_frame_pop st ls c v :
  72 + 8 * (Z.of_nat (length st) + 1) ≤ s → in_frame (v :: st) ls c →
  i32 (top c) = v ∧ in_frame st ls (drop_top c).
Proof.
  intros Hd [H1 H2 H3 H4 H5 H6 H7]. simpl length in H2. assert (u64 (rsp c + 8) = rsp c + 8) as E
    by (apply u64_small; unfold is_u64; lia).
  split; [unfold top; rewrite <-(H3 0%nat v eq_refl); do 2 f_equal; lia|].
  unfold drop_top. rewrite E. split; simpl; try done; [lia|].
  intros j x Hj. rewrite <-(H3 (S j) x Hj). do 2 f_equal. lia.
Qed.

(** The displacement of a local variable of the frame. *)
Lemma local_offset_small k : 0 ≤ k < 8 → signed 8 (local_offset k) = - (8 * (k + 1)).
Proof.
  intros Hk. assert (Forall (λ k, signed 8 (local_offset k) = - (8 * (k + 1))) (seqZ 0 8)) as Hall.
  { repeat (apply Forall_cons; split; [done|]). by apply Forall_nil. }
  rewrite Forall_forall in Hall. apply Hall, elem_of_seqZ. lia.
Qed.

Lemma local_address st ls c k : in_frame st ls c → 0 ≤ k < 8 → 72 ≤ s →
  u64 (rbp c + signed 8 (local_offset k)) = s - 16 - 8 * k.
Proof.
  intros [-> ? ? ? ? ? ?] Hk H72. rewrite local_offset_small by done.
  replace (s - 8 + - (8 * (k + 1))) with (s - 16 - 8 * k) by lia.
  apply u64_small. unfold is_u64. lia.
Qed.

Lemma in_frame_store st ls c k v :
  0 ≤ k < 8 → 72 + 8 * Z.of_nat (length st) ≤ s → in_frame st ls c →
  in_frame st (<[Z.to_nat k := i32 v]> ls) (set_mem (store64 (s - 16 - 8 * k) v (mem c)) c).
Proof.
  intros Hk Hd [H1 H2 H3 H4 H5 H6 H7]. split; simpl; try done.
  - intros j x Hj. pose proof (lookup_lt_Some _ _ _ Hj). rewrite load64_store64_ne by lia. eauto.
  - intros j x [(<- & <- & Hj)|[Hne Hj]]%list_lookup_insert_Some.
    + rewrite Z2Nat.id by lia. rewrite load64_store64_wrap. apply i32_u64.
    + rewrite load64_store64_ne by lia. eauto.
  - by rewrite length_insert.
  - rewrite load64_store64_ne by lia. done.
  - intros a Ha. rewrite load8_store64_ne by lia. eauto.
Qed.
End frame.

(** ** The subset the templates cover *)

Definition jit_instr (i : instr) : Prop :=
  match i with
  | Const z => is_signed 32 z
  | LGet k | LSet k => 0 ≤ k < 8
  | Num Op.I32Add | Num Op.I32Sub | Num Op.I32Mul => True
  | _ => False
  end.

Definition template (i : instr) : list Z :=
  match i with
  | Const z => 0xB8 :: to_le_bytes 4 (u32 z) ++ [0x50]
  | LGet k => [0x48; 0x8B; 0x45; local_offset k; 0x50]
  | LSet k => [0x58; 0x48; 0x89; 0x45; local_offset k]
  | Num Op.I32Add => [0x59; 0x58; 0x01; 0xC8; 0x50]
  | Num Op.I32Sub => [0x59; 0x58; 0x29; 0xC8; 0x50]
  | Num Op.I32Mul => [0x59; 0x58; 0x0F; 0xAF; 0xC1; 0x50]
  | _ => []
  end.

Lemma jit_instr_ok i : jit_instr i → instr_ok i.
Proof.
  destruct i as [z|k|k|k| | |op]; simpl; try done; try (unfold is_word; lia).
  by destruct op.
Qed.

Lemma compile_op_encode i post : jit_instr i →
  compile_op (opcode_byte (opcode_of i)) (immediate i ++ post) = Ok (template i, post).
Proof.
  intros Hi. destruct i as [z|k|k|k| | |op]; try done; simpl in Hi.
  - change (compile_op _ _) with (compile_op 0x41 (encode_i32 z ++ post)). unfold compile_op.
    rewrite jit_read_encode_i32 by done. by rewrite drop_app_length.
  - change (compile_op _ _) with (compile_op 0x20 (encode_u32 k ++ post)). unfold compile_op.
    rewrite jit_read_encode_u32 by (unfold is_word; lia). by rewrite drop_app_length.
  - change (compile_op _ _) with (compile_op 0x21 (encode_u32 k ++ post)). unfold compile_op.
    rewrite jit_read_encode_u32 by (unfold is_word; lia). by rewrite drop_app_length.
  - by destruct op.
Qed.

Lemma length_encode i : length (encode i) = S (length (immediate i)).
Proof. done. Qed.

Lemma compile_loop_instrs p : ∀ fuel post out, Forall jit_instr p →
  compile_loop (length p + fuel) (concat (encode <$> p) ++ post) out =
  compile_loop fuel post (out ++ concat (template <$> p)).
Proof.
  induction p as [|i p IH]; intros fuel post out Hp; simpl; [by rewrite app_nil_r|].
  apply Forall_cons in Hp as [Hi Hp]. rewrite <-app_assoc, compile_op_encode by done.
  rewrite IH by done. by rewrite <-app_assoc.
Qed.

Lemma compile_op_outcome op rest :
  match compile_op op rest with
  | Ok (_, rest') => (length rest' ≤ length rest)%nat
  | Err e => e = InvalidModule
  end.
Proof.
  assert (∀ w l bytes r s pos, match read_signed w l bytes r s pos with Err e => e = InvalidModule | _ => True end) as Hs.
  { clear. intros w l. induction bytes as [|b bytes IH]; intros; cbn [read_signed]; [done|].
    cbv zeta. destruct (_ =? 0); [done|]. destruct (over _ _); [done|]. apply IH. }
  assert (∀ l bytes r s pos, match read_unsigned l bytes r s pos with Err e => e = InvalidModule | _ => True end) as Hu.
  { clear. intros l. induction bytes as [|b bytes IH]; intros; cbn [read_unsigned]; [done|].
    cbv zeta. destruct (_ =? 0); [done|]. destruct (over _ _); [done|]. apply IH. }
  pose proof (Hs 32 None rest 0 0 0%nat) as H1. pose proof (Hu None rest 0 0 0%nat) as H2.
  unfold compile_op, jit_read_leb128_i32, jit_read_leb128_u32.
  repeat case_match; simplify_eq; rewrite ?length_drop; lia || done.
Qed.

Lemma compile_loop_fuel n : ∀ wasm out k, (length wasm < n)%nat →
  compile_loop (n + k) wasm out = compile_loop n wasm out ∧
  compile_loop n wasm out ≠ Err Diverges.
Proof.
  induction n as [|n IH]; intros wasm out k Hn; [lia|]. simpl.
  destruct wasm as [|op rest]; [done|]. simpl in Hn.
  pose proof (compile_op_outcome op rest) as Ho.
  destruct (compile_op op rest) as [[emitted rest']|e]; [|done]. apply IH. lia.
Qed.

Lemma compile_body_instrs p : Forall jit_instr p →
  compile_body (body p) =
  Ok (prologue ++ concat (template <$> p) ++ [0x58; 0x48; 0x89; 0xEC; 0x5D; 0xC3] ++ epilogue).
Proof.
  intros Hp. unfold compile_body.
  destruct (compile_loop_fuel (S (length (body p))) (body p) prologue (length p)) as [<- _]; [lia|].
  rewrite Nat.add_comm. unfold body at 2. rewrite compile_loop_instrs by done.
  assert (length (body p) = S (length (concat (encode <$> p)))) as ->
    by (unfold body; rewrite length_app; simpl; lia).
  simpl. by rewrite <-!app_assoc.
Qed.

(** ** Each template does its instruction *)

Lemma i32_mod a b f :
  (∀ x y, f (wrap 32 x) (wrap 32 y) mod 2 ^ 32 = f x y mod 2 ^ 32) →
  i32 (u32 (f a b)) = i32 (f (i32 a) (i32 b)).
Proof.
  intros Hf. unfold i32, u32. rewrite signed_wrap by lia. apply signed_ext. unfold wrap at 1 2.
  by rewrite <-(Hf a b), <-(Hf (signed 32 a) (signed 32 b)), !wrap_signed by lia.
Qed.

Lemma i32_add a b : i32 (u32 (a + b)) = i32 (i32 a + i32 b).
Proof. apply (i32_mod a b Z.add). intros. unfold wrap. by rewrite <-Zplus_mod. Qed.
Lemma i32_sub a b : i32 (u32 (a - b)) = i32 (i32 a - i32 b).
Proof. apply (i32_mod a b Z.sub). intros. unfold wrap. by rewrite <-Zminus_mod. Qed.
Lemma i32_mul a b : i32 (u32 (a * b)) = i32 (i32 a * i32 b).
Proof. apply (i32_mod a b Z.mul). intros. unfold wrap. by rewrite <-Zmult_mod. Qed.

Ltac x86_step b :=
  eapply (runs_cons _ _ _ _ _ b); [solve [match goal with H : drop _ _ = _ |- _ => exact H end]|reflexivity|reflexivity|];
  let H := fresh "Hat" in intros H; cbn [X86.rip X86.skip X86.push X86.set_rax X86.set_rcx
    X86.set_rsp X86.set_rbp X86.set_mem X86.drop_top] in H.

Section templates.
Context (code : list Z) (s bp : Z) (m0 : Mem.memory) (Hs : s + 8 ≤ 2 ^ 64).
Import X86.

(** Two operands into the registers. *)
Lemma runs_operands a b st ls c post :
  drop (rip c) code = [0x59; 0x58] ++ post → in_frame s bp m0 (b :: a :: st) ls c →
  72 + 8 * (Z.of_nat (length st) + 2) ≤ s →
  ∃ c', runs code 2 c c' ∧ in_frame s bp m0 st ls c' ∧ rip c' = (rip c + 2)%nat ∧
        drop (rip c') code = post ∧ i32 (rax c') = a ∧ i32 (rcx c') = b.
Proof.
  intros Hc Hf Hd.
  destruct (in_frame_pop s bp m0 Hs (a :: st) ls c b) as [Hb Hf1]; [simpl; lia|done|].
  set (c1 := skip 1 (set_rcx (top c) (drop_top c))).
  assert (in_frame s bp m0 (a :: st) ls c1) as Hf1' by by eapply in_frame_regs; [..|exact Hf1].
  destruct (in_frame_pop s bp m0 Hs st ls c1 a) as [Ha Hf2]; [lia|done|].
  exists (skip 1 (set_rax (top c1) (drop_top c1))). split.
  { x86_step [0x59]. x86_step [0x58]. apply runs_refl. }
  split; [by eapply in_frame_regs; [..|exact Hf2]|]. split; [simpl; lia|].
  split; [|done]. apply drop_more in Hc. simpl. rewrite <-Hc. f_equal. simpl. lia.
Qed.

(** The result register pushed. *)
Lemma runs_push st ls c v post :
  drop (rip c) code = 0x50 :: post → in_frame s bp m0 st ls c → i32 (rax c) = v →
  72 + 8 * (Z.of_nat (length st) + 1) ≤ s →
  ∃ c', runs code 1 c c' ∧ in_frame s bp m0 (v :: st) ls c' ∧ rip c' = (rip c + 1)%nat.
Proof.
  intros Hc Hf <- Hd. exists (skip 1 (push (rax c) c)). split.
  { x86_step [0x50]. apply runs_refl. }
  split; [|done]. eapply in_frame_regs; [..|by apply (in_frame_push s bp m0 Hs st ls c (rax c))]; done.
Qed.

(** An arithmetic template: the operands, one instruction, the result. *)
Lemma runs_arith (f : Z → Z → Z) b a st ls c enc post :
  drop (rip c) code = [0x59; 0x58] ++ enc ++ 0x50 :: post →
  in_frame s bp m0 (b :: a :: st) ls c → 72 + 8 * (Z.of_nat (length st) + 2) ≤ s →
  (∀ c tl, exec (enc ++ tl) c = Next (skip (length enc) (set_rax (u32 (f (rax c) (rcx c))) c))) →
  (∀ x y, i32 (u32 (f x y)) = i32 (f (i32 x) (i32 y))) →
  ∃ c', runs code 4 c c' ∧ in_frame s bp m0 (i32 (f a b) :: st) ls c' ∧
        rip c' = (rip c + (3 + length enc))%nat.
Proof.
  intros Hc Hf Hd He Hmod.
  destruct (runs_operands a b st ls c (enc ++ 0x50 :: post)) as (c1 & R1 & Hf1 & Hr1 & Hc1 & Ha & Hb);
    [done..|].
  set (c2 := skip (length enc) (set_rax (u32 (f (rax c1) (rcx c1))) c1)).
  assert (drop (rip c2) code = 0x50 :: post) as Hc2 by (unfold c2; simpl; by apply drop_more).
  destruct (runs_push st ls c2 (i32 (f a b)) post) as (c3 & R3 & Hf3 & Hr3); [done|..|lia|].
  { by eapply in_frame_regs; [..|exact Hf1]. }
  { unfold c2. simpl. by rewrite Hmod, Ha, Hb. }
  exists c3. split; [|split; [done|rewrite Hr3; unfold c2; simpl; lia]].
  apply (runs_trans _ 2 2 _ c1); [done|]. apply (runs_trans _ 1 1 _ c2); [|done].
  by eapply runs_step; [exact Hc1|apply He].
Qed.

Lemma runs_template i st ls st' ls' c post : jit_instr i →
  drop (rip c) code = template i ++ post → in_frame s bp m0 st ls c →
  72 + 8 * (Z.of_nat (length st) + 1) ≤ s → instr_step i (st, ls) = Ok (st', ls') →
  ∃ k c', runs code k c c' ∧ in_frame s bp m0 st' ls' c' ∧
          rip c' = (rip c + length (template i))%nat.
Proof.
  intros Hi Hc Hf Hd Hstep. destruct i as [z|k|k|k| | |op]; try done; simpl in Hi.
  - injection Hstep as <- <-.
    change (template (Const z)) with (0xB8 :: to_le_bytes 4 (u32 z) ++ [0x50]) in Hc.
    set (c1 := skip 5 (set_rax (from_le_bytes (to_le_bytes 4 (u32 z))) c)).
    assert (drop (rip c1) code = 0x50 :: post) as Hc1.
    { unfold c1. simpl rip. apply (drop_more _ _ (0xB8 :: to_le_bytes 4 (u32 z))). done. }
    destruct (runs_push st ls c1 z post) as (c2 & R & Hf2 & Hr2); [done|..|lia|].
    { by eapply in_frame_regs; [..|exact Hf]. }
    { change (rax c1) with (from_le_bytes (to_le_bytes 4 (u32 z))). rewrite from_to_le_bytes.
      change (2 ^ (8 * Z.of_nat 4)) with (2 ^ 32). unfold i32, u32. rewrite signed_ext with (b := z).
      - by apply signed_small.
      - unfold wrap. by rewrite !Z.mod_mod. }
    exists 2%nat, c2. split; [|split; [done|rewrite Hr2; simpl; lia]].
    apply (runs_trans _ 1 1 _ c1); [|done]. by eapply runs_step; [exact Hc|].
  - injection Hstep as <- <-. simpl in Hc.
    set (c1 := skip 4 (set_rax (load64 (mem c) (s - 16 - 8 * k)) c)).
    assert (drop (rip c1) code = 0x50 :: post) as Hc1
      by (apply (drop_more _ _ [0x48; 0x8B; 0x45; local_offset k]); done).
    pose proof (lookup_lt_is_Some_2 ls (Z.to_nat k)) as [v Hv]; [rewrite (fr_count _ _ _ _ _ _ Hf); lia|].
    destruct (runs_push st ls c1 v post) as (c2 & R & Hf2 & Hr2); [done|..|lia|].
    { by eapply in_frame_regs; [..|exact Hf]. }
    { change (rax c1) with (load64 (mem c) (s - 16 - 8 * k)). rewrite <-(fr_locals _ _ _ _ _ _ Hf _ _ Hv). do 2 f_equal. lia. }
    rewrite Hv. exists 2%nat, c2. split; [|split; [done|rewrite Hr2; simpl; lia]].
    apply (runs_trans _ 1 1 _ c1); [|done]. eapply runs_step; [exact Hc|]. unfold c1.
    cbn [exec]. by erewrite (local_address s bp m0 Hs) by (done || lia).
  - destruct st as [|v st]; [done|]. injection Hstep as <- <-. simpl in Hc, Hd.
    destruct (in_frame_pop s bp m0 Hs st ls c v) as [Ht Hf1]; [lia|done|].
    set (c1 := skip 1 (set_rax (top c) (drop_top c))).
    assert (in_frame s bp m0 st ls c1) as Hf1' by by eapply in_frame_regs; [..|exact Hf1].
    assert (drop (rip c1) code = [0x48; 0x89; 0x45; local_offset k] ++ post) as Hc1
      by (apply (drop_more _ _ [0x58]); done).
    exists 2%nat, (skip 4 (set_mem (store64 (s - 16 - 8 * k) (rax c1) (mem c1)) c1)).
    split; [|split].
    + apply (runs_trans _ 1 1 _ c1); [by eapply runs_step; [exact Hc|]|].
      eapply runs_step; [exact Hc1|]. cbn [exec app].
      by erewrite (local_address s bp m0 Hs) by (done || lia).
    + unfold set_local. rewrite decide_False by (rewrite (fr_count _ _ _ _ _ _ Hf); lia).
      rewrite <-Ht.
      by eapply in_frame_regs; [..|apply (in_frame_store s bp m0 st ls c1 k (top c)); [done|lia|done]].
    + simpl. lia.
  - destruct st as [|b [|a st]]; try by destruct op.
    assert (72 + 8 * (Z.of_nat (length st) + 2) ≤ s) as Hd' by (simpl in Hd; lia).
    assert (∃ f enc, template (Num op) = [0x59; 0x58] ++ enc ++ [0x50] ∧
      st' = i32 (f a b) :: st ∧ ls' = ls ∧
      (∀ c tl, exec (enc ++ tl) c = Next (skip (length enc) (set_rax (u32 (f (rax c) (rcx c))) c))) ∧
      (∀ x y, i32 (u32 (f x y)) = i32 (f (i32 x) (i32 y)))) as (f & enc & Et & -> & -> & He & Hm).
    { destruct op; try done; injection Hstep as <- <-.
      - by exists Z.add, [0x01; 0xC8]; auto using i32_add.
      - by exists Z.sub, [0x29; 0xC8]; auto using i32_sub.
      - by exists Z.mul, [0x0F; 0xAF; 0xC1]; auto using i32_mul. }
    rewrite Et in Hc |- *. rewrite <-!app_assoc in Hc.
    destruct (runs_arith f b a st ls c enc post) as (c' & R & Hf' & Hr); [done..|].
    exists 4%nat, c'. split; [done|]. split; [done|]. rewrite Hr, !length_app. simpl. lia.
Qed.
End templates.

(** ** Whole bodies *)

(** What the eight local slots of a frame hold when the function is entered. *)
Definition frame_locals (m : Mem.memory) (s : Z) : list Z :=
  (λ k, i32 (load64 m (s - 16 - 8 * k))) <$> seqZ 0 8.

Section bodies.
Context (code : list Z) (s bp : Z) (m0 : Mem.memory) (Hs : s + 8 < 2 ^ 64) (Hbp : is_u64 bp).
Import X86.

Lemma num_step_length op st st' : num_step op st = Ok st' → (length st' ≤ length st)%nat.
Proof.
  unfold num_step. intros H. repeat case_match; simplify_eq/=; lia.
Qed.

Lemma instr_step_length i st ls st' ls' : instr_step i (st, ls) = Ok (st', ls') →
  (length st' ≤ length st + 1)%nat.
Proof.
  destruct i as [z|k|k|k| | |op]; simpl.
  - intros [= <- <-]. simpl. lia.
  - intros [= <- <-]. simpl. lia.
  - destruct st; [done|]. intros [= <- <-]. simpl. lia.
  - destruct st; [done|]. intros [= <- <-]. simpl. lia.
  - intros [= <- <-]. destruct st; simpl; lia.
  - destruct st as [|? [|? [|]]]; try done. intros [= <- <-]. simpl. lia.
  - destruct (num_step op st) eqn:E; [|done]. intros [= <- <-].
    apply num_step_length in E. lia.
Qed.

Lemma runs_instrs p : ∀ st ls st' ls' c post, Forall jit_instr p →
  drop (rip c) code = concat (template <$> p) ++ post → in_frame s bp m0 st ls c →
  72 + 8 * Z.of_nat (length st + length p) ≤ s → instrs_step p (st, ls) = Ok (st', ls') →
  ∃ k c', runs code k c c' ∧ in_frame s bp m0 st' ls' c' ∧ drop (rip c') code = post ∧
          (length st' ≤ length st + length p)%nat.
Proof.
  induction p as [|i p IH]; intros st ls st' ls' c post Hp Hc Hf Hd Hstep; cbn [instrs_step] in Hstep.
  { injection Hstep as <- <-. exists 0%nat, c. split_and!; [apply runs_refl|done|done|lia]. }
  apply Forall_cons in Hp as [Hi Hp]. destruct (instr_step i (st, ls)) as [[st1 ls1]|] eqn:E; [|done].
  change (concat (template <$> i :: p)) with (template i ++ concat (template <$> p)) in Hc.
  rewrite <-app_assoc in Hc. simpl length in Hd. pose proof (instr_step_length _ _ _ _ _ E).
  destruct (runs_template code s bp m0 ltac:(lia) i st ls st1 ls1 c (concat (template <$> p) ++ post))
    as (k1 & c1 & R1 & Hf1 & Hr1); [done..|lia|done|].
  destruct (IH st1 ls1 st' ls' c1 post Hp) as (k2 & c2 & R2 & Hf2 & Hr2 & Hl); [|done|lia|done|].
  { rewrite Hr1. by apply drop_more. }
  exists (k1 + k2)%nat, c2. split_and!; [by eapply runs_trans|done|done|simpl; lia].
Qed.

Lemma runs_prologue post : 72 ≤ s → code = prologue ++ post →
  ∃ c, runs code 3 (entry s bp m0) c ∧ in_frame s bp m0 [] (frame_locals m0 s) c ∧
       drop (rip c) code = post.
Proof.
  intros H72 Hc. assert (u64 (s - 8) = s - 8) as E1 by (apply u64_small; unfold is_u64; lia).
  assert (u64 (s - 8 - 64) = s - 72) as E2 by (rewrite u64_small; unfold is_u64; lia).
  exists (mkCpu 0 0 (s - 72) (s - 8) 8 (store64 (s - 8) bp m0)). split.
  { assert (drop (rip (entry s bp m0)) code = prologue ++ post) as Hd by done.
    x86_step [0x55]. x86_step [0x48; 0x89; 0xE5]. x86_step [0x48; 0x83; 0xEC; 0x40].
    match goal with |- runs _ _ ?a ?b => replace a with b; [apply runs_refl|] end.
    unfold skip, set_rsp, set_rbp, push, set_mem. simpl. rewrite E1.
    change (signed 8 64) with 64. by rewrite E2. }
  split; [|rewrite Hc; reflexivity]. split; simpl mem; simpl rsp; simpl rbp.
  - done.
  - simpl. lia.
  - done.
  - intros k v Hk. unfold frame_locals in Hk. rewrite list_lookup_fmap in Hk.
    destruct (seqZ 0 8 !! k) as [z|] eqn:Ez; [|done]. injection Hk as <-.
    apply lookup_seqZ in Ez as [-> ?]. rewrite load64_store64_ne by lia. done.
  - done.
  - by apply load64_store64.
  - intros a Ha. by rewrite load8_store64_ne by lia.
Qed.

Lemma runs_end v st ls c post :
  drop (rip c) code = [0x58; 0x48; 0x89; 0xEC; 0x5D; 0xC3] ++ post →
  72 + 8 * (Z.of_nat (length st) + 1) ≤ s → in_frame s bp m0 (v :: st) ls c →
  ∃ c', iter_nat (round code) 4 c = inr (Some (c', load64 m0 s)) ∧
        i32 (rax c') = v ∧ rsp c' = s + 8 ∧ rbp c' = bp ∧
        ∀ a, s ≤ a → load8 (mem c') a = load8 m0 a.
Proof.
  intros Hc Hd Hf. destruct (in_frame_pop s bp m0 ltac:(lia) st ls c v Hd Hf) as [Ht _].
  destruct Hf as [H1 H2 H3 H4 H5 H6 H7].
  assert (load64 (mem c) s = load64 m0 s) as Es by (apply load64_ext; intros x Hx; apply H7; lia).
  assert (u64 (s - 8 + 8) = s) as E1 by (rewrite u64_small; unfold is_u64; lia).
  assert (u64 (s + 8) = s + 8) as E2 by (apply u64_small; unfold is_u64; lia).
  set (c1 := skip 1 (set_rax (top c) (drop_top c))).
  set (c2 := skip 3 (set_rsp (rbp c1) c1)). set (c3 := skip 1 (set_rbp (top c2) (drop_top c2))).
  assert (rsp c3 = s) as E3 by (unfold c3, c2, c1; simpl; by rewrite H1, E1).
  assert (runs code 3 c c3) as Hr.
  { x86_step [0x58]. x86_step [0x48; 0x89; 0xEC]. x86_step [0x5D]. apply runs_refl. }
  apply (drop_more _ _ [0x58; 0x48; 0x89; 0xEC; 0x5D]) in Hc.
  exists (drop_top c3). split.
  - change 4%nat with (3 + 1)%nat. rewrite Hr. simpl. unfold round.
    replace (rip c3) with (rip c + 5)%nat by (simpl; lia). simpl length in Hc. rewrite Hc.
    cbn [exec app]. do 3 f_equal. unfold top. rewrite E3. done.
  - split; [done|]. unfold drop_top. rewrite E3. simpl. rewrite E2. split; [done|].
    split; [unfold top; simpl; by rewrite H1|done].
Qed.
End bodies.

(** ** The compiler against the interpreter *)

(** The interpreter on straight-line code, from the lemmas of [WaveStraight]. *)
Lemma execute_straight `{Platform} p ls st ls' w :
  Forall instr_ok p → value_stack (inst w) = [] → is_u64 (max_steps (inst w)) →
  0 ≤ steps_executed (inst w) →
  steps_executed (inst w) + Z.of_nat (length p) + 1 ≤ max_steps (inst w) →
  instrs_step p ([], ls) = Ok (st, ls') →
  (execute_bytecode (WaveStraight.body p) (I32 <$> ls) w).2 = Ok (stk st).
Proof.
  intros Hp Hv Hm Hs0 Hs Hst. pose proof (execute_bytecode_straight p ls w Hp Hv Hm Hs0 Hs) as Hr.
  rewrite Hst in Hr. by rewrite Hr.
Qed.

(** *** Locals

    The compiled code never sets its locals up: they hold what the frame held. A body that
    writes every local before it reads it does not see them. *)
Fixpoint writes_first (D : list Z) (p : list instr) : Prop :=
  match p with
  | [] => True
  | LGet k :: p => k ∈ D ∧ writes_first D p
  | LSet k :: p => writes_first (k :: D) p
  | _ :: p => writes_first D p
  end.

Definition local_value (ls : list Z) (k : Z) : Z := default 0 (ls !! Z.to_nat k).

Lemma local_value_set k v ls j : 0 ≤ k → 0 ≤ j →
  local_value (set_local k v ls) j = if decide (j = k) then v else local_value ls j.
Proof.
  intros Hk Hj. unfold local_value, set_local. set (l := if decide _ then _ else _).
  assert (Hl : (Z.to_nat k < length l)%nat) by (unfold l; case_decide; rewrite ?length_resize; lia).
  case_decide as E; [subst j; by rewrite list_lookup_insert_eq|]. rewrite list_lookup_insert_ne by lia. unfold l.
  case_decide as Hlen; [|done]. destruct (decide (Z.to_nat j < length ls)%nat).
  - by rewrite lookup_resize by lia.
  - rewrite (lookup_ge_None_2 ls) by lia. destruct (decide (Z.to_nat j < S (Z.to_nat k))%nat).
    + by rewrite lookup_resize_new by lia.
    + by rewrite lookup_resize_old by lia.
Qed.

Lemma instrs_step_agree p : ∀ D st ls1 ls2 st' l1, Forall jit_instr p → writes_first D p → Forall (λ k, 0 ≤ k) D →
  (∀ k, k ∈ D → local_value ls1 k = local_value ls2 k) →
  instrs_step p (st, ls1) = Ok (st', l1) → ∃ l2, instrs_step p (st, ls2) = Ok (st', l2).
Proof.
  induction p as [|i p IH]; intros D st ls1 ls2 st' l1 Hp Hw HD Hag Hs; [injection Hs as <- _; by exists ls2|].
  apply Forall_cons in Hp as [Hi Hp]. destruct i as [z|k|k|k| | |op]; try done; cbn [instrs_step instr_step] in Hs |- *.
  - by eapply IH.
  - destruct Hw as [Hk Hw]. unfold local_value in Hag. rewrite <- (Hag k Hk). by eapply IH.
  - destruct st as [|v st]; [done|]. simpl in Hi. apply (IH (k :: D) st (set_local k v ls1) _ _ l1); [done..| | |done].
    + constructor; [lia|done].
    + intros j Hj. assert (0 ≤ j) by (apply elem_of_cons in Hj as [->|Hj]; [lia|by apply (proj1 (Forall_forall _ _) HD)]).
      rewrite !local_value_set by lia. case_decide; [done|]. apply Hag. by apply elem_of_cons in Hj as [?|?].
  - destruct (num_step op st); [by eapply IH|done].
Qed.

(** [C8] The baseline compiler is correct on the code its templates cover: for any body of
    constants, [i32.add]/[sub]/[mul] and locals below 8 that does not underflow, the
    compilation succeeds and is found again by [get_compiled], and calling the code with
    any stack deep enough returns to the caller with the stack and frame pointers restored
    and the caller's memory untouched, leaving in [eax] exactly the value the interpreter
    leaves on top of its stack: when the interpreter's locals are what the frame held,
    since the code never sets its locals up; and with any locals when the body writes a
    local before it reads it. *)
Theorem jit_matches_interpreter `{Platform} js idx p v st ls' s bp m w :
  Forall jit_instr p →
  instrs_step p ([], frame_locals m s) = Ok (v :: st, ls') →
  72 + 8 * Z.of_nat (length p) ≤ s → s + 8 < 2 ^ 64 → is_u64 bp →
  value_stack (inst w) = [] → is_u64 (max_steps (inst w)) → 0 ≤ steps_executed (inst w) →
  steps_executed (inst w) + Z.of_nat (length p) + 1 ≤ max_steps (inst w) →
  ∃ js' f n c,
    compile_baseline idx (WaveStraight.body p) js = (js', Ok tt) ∧
    get_compiled idx js' = Some f ∧
    iter_nat (X86.round (code f)) n (X86.entry s bp m) = inr (Some (c, load64 m s)) ∧
    i32 (X86.rax c) = v ∧ X86.rsp c = s + 8 ∧ X86.rbp c = bp ∧
    (∀ a, s ≤ a → load8 (X86.mem c) a = load8 m a) ∧
    (∀ ls, ls = frame_locals m s ∨ writes_first [] p →
       (execute_bytecode (WaveStraight.body p) (I32 <$> ls) w).2 = Ok (stk st ++ [I32 v])).
Proof.
  intros Hp Hst Hd Hs Hbp Hv Hm H0 Hn.
  assert (Forall instr_ok p) as Hok by (eapply Forall_impl; [exact Hp|apply jit_instr_ok]).
  assert (∀ ls, ls = frame_locals m s ∨ writes_first [] p →
    (execute_bytecode (WaveStraight.body p) (I32 <$> ls) w).2 = Ok (stk st ++ [I32 v])) as Hi.
  { intros ls Hls. assert (∃ l2, instrs_step p ([], ls) = Ok (v :: st, l2)) as [l2 Hl2].
    { destruct Hls as [->|Hw]; [by exists ls'|]. apply (instrs_step_agree p [] [] (frame_locals m s) ls (v :: st) ls'); try done.
      by intros k ?%elem_of_nil. }
    by rewrite (execute_straight _ _ _ _ _ Hok Hv Hm H0 Hn Hl2), stk_cons. }
  unfold compile_baseline. rewrite compile_body_instrs by done.
  set (code := prologue ++ _).
  destruct (runs_prologue code s bp m Hs Hbp
    (concat (template <$> p) ++ [0x58; 0x48; 0x89; 0xEC; 0x5D; 0xC3] ++ epilogue))
    as (c0 & R0 & Hf0 & Hc0); [lia|done|].
  destruct (runs_instrs code s bp m Hs p _ _ _ _ _ _ Hp Hc0 Hf0 ltac:(simpl; lia) Hst)
    as (k & c1 & R1 & Hf1 & Hc1 & Hl). simpl in Hl.
  destruct (runs_end code s bp m Hs v st ls' c1 epilogue Hc1 ltac:(lia) Hf1)
    as (c2 & R2 & Hrax & Hrsp & Hrbp & Hmem).
  eexists _, _, ((3 + k) + 4)%nat, c2. split; [done|].
  split; [apply lookup_insert_eq|]. simpl WaveJit.code. split; [|done].
  rewrite (runs_trans _ _ _ _ _ _ R0 R1). exact R2.
Qed.

Lemma compile_body_outcome wasm :
  match compile_body wasm with
  | Ok out => ∃ mid, out = prologue ++ mid ++ epilogue
  | Err e => e = Fail InvalidModule
  end.
Proof.
  unfold compile_body.
  assert (∀ n wasm out, (length wasm < n)%nat →
    match compile_loop n wasm out with
    | Ok out' => ∃ mid, out' = out ++ mid
    | Err e => e = Fail InvalidModule
    end) as Hloop.
  { clear. induction n as [|n IH]; intros wasm out Hn; [lia|]. cbn [compile_loop].
    destruct wasm as [|op rest]; [by exists []; rewrite app_nil_r|]. simpl in Hn.
    pose proof (compile_op_outcome op rest) as Ho.
    destruct (compile_op op rest) as [[emitted rest']|e]; [|by subst].
    specialize (IH rest' (out ++ emitted) ltac:(lia)).
    destruct (compile_loop _ _ _) as [out'|]; [|done]. destruct IH as [mid ->].
    exists (emitted ++ mid). by rewrite <-app_assoc. }
  specialize (Hloop (S (length wasm)) wasm prologue ltac:(lia)).
  destruct (compile_loop _ _ _) as [out|]; [|done]. destruct Hloop as [mid ->]. exists mid.
  by rewrite <-app_assoc.
Qed.

(** The compiler always ends, on any bytes: either the function is recorded under its
    index at the baseline tier, framed by the prologue and the epilogue, and no other
    function changes; or the bytes are rejected as [InvalidModule] and the state is as
    before. Once recorded the function is not proposed for the baseline tier again, and
    for the optimising tier exactly from its threshold on. *)
Theorem compile_baseline_total idx wasm js :
  let '(js', r) := compile_baseline idx wasm js in
  match r with
  | Ok _ =>
      (∃ mid, get_compiled idx js' =
         Some (mkCompiled idx Baseline (prologue ++ mid ++ epilogue) 0 0)) ∧
      (∀ idx', idx' ≠ idx → get_compiled idx' js' = get_compiled idx' js) ∧
      (∀ n, should_compile idx n js' =
         if optimize_threshold js <=? n then Some Optimized else None)
  | Err e => e = Fail InvalidModule ∧ js' = js
  end.
Proof.
  unfold compile_baseline. pose proof (compile_body_outcome wasm) as Ho.
  destruct (compile_body wasm) as [out|e]; [|done]. destruct Ho as [mid ->].
  unfold get_compiled, should_compile. simpl. split; [exists mid; apply lookup_insert_eq|].
  split; [intros idx' ?; by rewrite lookup_insert_ne|]. intros n. by rewrite lookup_insert_eq.
Qed.

(** ** A sample, and outside the subset *)

Definition run_jit (wasm : list Z) (s bp : Z) : option (Z * Z) :=
  match compile_body wasm with
  | Ok out => match iter_nat (X86.round out) 100 (X86.entry s bp ∅) with
              | inr (Some (c, target)) => Some (i32 (X86.rax c), target)
              | _ => None
              end
  | Err _ => None
  end.

(** [7 - 9], kept in local 3, times [100]. *)
Lemma jit_matches_interpreter_witness :
  let p := [Const 7; Const 9; Num Op.I32Sub; LSet 3; LGet 3; Const 100; Num Op.I32Mul] in
  Forall jit_instr p ∧
  ∃ js' f n c,
    compile_baseline 0 (WaveStraight.body p) jit_new = (js', Ok tt) ∧
    get_compiled 0 js' = Some f ∧
    iter_nat (X86.round (code f)) n (X86.entry 4096 0 ∅) = inr (Some (c, 0)) ∧
    i32 (X86.rax c) = -200.
Proof.
  intros p. assert (Forall jit_instr p) as Hp.
  { unfold p. clear. repeat (apply Forall_cons; split; [by split|]). by apply Forall_nil. }
  split; [exact Hp|].
  assert (instrs_step p ([], frame_locals ∅ 4096) = Ok ([-200], [0; 0; 0; -2; 0; 0; 0; 0])) as E
    by reflexivity.
  assert (steps_executed (inst sample) + Z.of_nat (length p) + 1 ≤ max_steps (inst sample)) as Hl
    by by vm_compute.
  assert (0 ≤ steps_executed (inst sample)) as Hs by by vm_compute.
  assert (is_u64 (max_steps (inst sample))) as Hm by by split.
  destruct (jit_matches_interpreter (H := quiet) jit_new 0 p (-200) [] _ 4096 0 ∅ sample Hp E
    ltac:(by vm_compute) ltac:(by vm_compute) ltac:(by split) eq_refl Hm Hs Hl)
    as (js' & f & n & c & H1 & H2 & H3 & H4 & _).
  exists js', f, n, c. split; [exact H1|]. split; [exact H2|]. split; [exact H3|exact H4].
Defined.

(** The offset of a local is cut to a byte, and nothing bounds the index: local 30 is the
    slot of the return address. [i32.const 0x41414141; local.set 30; i32.const 1] returns
    to the address the module chose. *)
Lemma jit_local_overwrites_return_address :
  run_jit (WaveStraight.body [Const 0x41414141; LSet 30; Const 1]) 4096 0 = Some (1, 0x41414141).
Proof. by vm_compute. Qed.

(** An opcode without a template emits nothing, where the comment promises a call of the
    interpreter: [i32.eqz] leaves its operand. *)
Lemma jit_skips_unknown_opcodes :
  run_jit (WaveStraight.body [Const 5; Num Op.I32Eqz]) 4096 0 = Some (5, 0) ∧
  instrs_step [Const 5; Num Op.I32Eqz] ([], []) = Ok ([0], []).
Proof. split; by vm_compute. Qed.

(** And its immediates are compiled as opcodes: the index of [local.tee 11] is an [end]. *)
Lemma jit_compiles_immediates :
  run_jit (WaveStraight.body [Const 5; LTee 11; Const 7]) 4096 0 = Some (5, 0) ∧
  instrs_step [Const 5; LTee 11; Const 7] ([], replicate 12 0) =
    Ok ([7; 5], replicate 11 0 ++ [5]).
Proof. split; by vm_compute. Qed.

(** A body that pops more than it pushed reads the frame: the bare [end] returns a local
    slot where the interpreter has no result. *)
Lemma jit_underflow : run_jit (WaveStraight.body []) 4096 0 = Some (0, 0).
Proof. by vm_compute. Qed.
