(* ===== verification/WaveShared.v ===== *)
(** * WaveShared: memory shared by WASM threads ([runtime/wave/src/lib.rs])

    [SharedMemory]: the atomic accesses, [notify] and [wait_i32]/[wait_i64]. A wait is
    split where it takes or leaves the lock of the wait queue, reads the memory or the
    clock, so that other threads come in between: the system is a step relation over
    any number of waits, stores and notifications. *)

From Stdlib Require Import ZArith Lia.
From stdpp Require Import gmap list relations.
From S2P Require Import Prelude.
From S2P Require Import Ids.
From S2P Require Import Bytes.
From S2P Require Import WaveValue.

Record Waiter := mkWaiter {
  address : Z; expected : Z; thread_id : Z; is_64bit : bool
}.

Record SharedMemory := mkShared {
  data : list Z;
  limits : Z * option Z;
  waiters : list Waiter
}.

Definition with_data d s := mkShared d (limits s) (waiters s).
Definition with_waiters ws s := mkShared (data s) (limits s) ws.

Definition shared_new (min_pages : Z) (max_pages : option Z) : SharedMemory :=
  mkShared (replicate (Z.to_nat (min_pages * 65536)) 0) (min_pages, max_pages) [].

(** ** Atomic accesses

    [n] bytes at [addr], little endian: 4 for the [i32] and 8 for the [i64] versions.
    [addr] is a [u32], so [addr + n] does not wrap in a [usize]. *)

Definition atomic_load (n : nat) (addr : Z) (s : SharedMemory) : Result Z WaveError :=
  if Z.of_nat (length (data s)) <? addr + Z.of_nat n then Err MemoryAccessOutOfBounds
  else Ok (signed (8 * Z.of_nat n) (from_le_bytes (take n (drop (Z.to_nat addr) (data s))))).

Definition atomic_store (n : nat) (addr val : Z) (s : SharedMemory) :
    SharedMemory * Result unit WaveError :=
  if Z.of_nat (length (data s)) <? addr + Z.of_nat n then (s, Err MemoryAccessOutOfBounds)
  else (with_data (splice (Z.to_nat addr) (to_le_bytes n val) (data s)) s, Ok tt).

Definition atomic_load_i32 := atomic_load 4.
Definition atomic_store_i32 := atomic_store 4.
Definition atomic_load_i64 := atomic_load 8.
Definition atomic_store_i64 := atomic_store 8.

Definition atomic_rmw_add_i32 (addr val : Z) (s : SharedMemory) :
    SharedMemory * Result Z WaveError :=
  match atomic_load_i32 addr s with
  | Err e => (s, Err e)
  | Ok old =>
      match atomic_store_i32 addr (i32 (old + val)) s with
      | (s, Ok _) => (s, Ok old)
      | (s, Err e) => (s, Err e)
      end
  end.

Definition atomic_cmpxchg_i32 (addr expected replacement : Z) (s : SharedMemory) :
    SharedMemory * Result Z WaveError :=
  match atomic_load_i32 addr s with
  | Err e => (s, Err e)
  | Ok old =>
      if old =? expected then
        match atomic_store_i32 addr replacement s with
        | (s, Ok _) => (s, Ok old)
        | (s, Err e) => (s, Err e)
        end
      else (s, Ok old)
  end.

(** ** The wait queue *)

(** [retain] with the counter of the closure: the waiters kept, and [notified]. *)
Fixpoint notify_retain (addr count notified : Z) (ws : list Waiter) : list Waiter * Z :=
  match ws with
  | [] => ([], notified)
  | w :: ws =>
      if (address w =? addr) && (notified <? count)
      then notify_retain addr count (notified + 1) ws
      else let '(ws, n) := notify_retain addr count notified ws in (w :: ws, n)
  end.

Definition notify (addr count : Z) (s : SharedMemory) : SharedMemory * Z :=
  let '(ws, n) := notify_retain addr count 0 (waiters s) in (with_waiters ws s, n).

(** A call of [wait_i32] or [wait_i64]. *)
Record Wait := mkWait { w_64 : bool; w_addr : Z; w_expected : Z; w_timeout_ns : Z }.

Definition w_width (w : Wait) : nat := if w_64 w then 8 else 4.

(** Where a wait is, between two accesses to something shared. *)
Inductive phase :=
| Checking
| Stamping
| Enqueuing (tid : Z)
| Starting (tid : Z)
| PollQueue (tid start : Z)
| PollValue (tid start : Z)
| PollTime (tid start : Z)
| Leaving (tid : Z) (answer : Z)
| Returned (r : Result Z WaveError).

Definition timeout_cycles (w : Wait) : Z :=
  if w_timeout_ns w <? 0 then u64_max else Z.min u64_max (w_timeout_ns w * 2).

Definition is_own (w : Wait) (tid : Z) (x : Waiter) : bool :=
  (address x =? w_addr w) && (thread_id x =? tid).

(** The next access of the wait, at a clock reading of [now]. *)
Definition wait_step (now : Z) (w : Wait) (p : phase) (s : SharedMemory) : SharedMemory * phase :=
  match p with
  | Checking =>
      match atomic_load (w_width w) (w_addr w) s with
      | Err e => (s, Returned (Err e))
      | Ok current =>
          if negb (current =? w_expected w) then (s, Returned (Ok 1)) else (s, Stamping)
      end
  | Stamping => (s, Enqueuing now)
  | Enqueuing tid =>
      (with_waiters (waiters s ++ [mkWaiter (w_addr w) (u64 (w_expected w)) tid (w_64 w)]) s,
       Starting tid)
  | Starting tid => (s, PollQueue tid now)
  | PollQueue tid start =>
      if existsb (is_own w tid) (waiters s) then (s, PollValue tid start)
      else (s, Returned (Ok 0))
  | PollValue tid start =>
      match atomic_load (w_width w) (w_addr w) s with
      | Err e => (s, Returned (Err e))
      | Ok current =>
          if negb (current =? w_expected w) then (s, Leaving tid 0) else (s, PollTime tid start)
      end
  | PollTime tid start =>
      if timeout_cycles w <=? sat_sub now start then (s, Leaving tid 2) else (s, PollQueue tid start)
  | Leaving tid answer =>
      (with_waiters (filter (λ x, negb (is_own w tid x)) (waiters s)) s, Returned (Ok answer))
  | Returned r => (s, Returned r)
  end.

(** ** Atomic accesses are correct *)

Definition in_bounds (n : nat) (addr : Z) (s : SharedMemory) : Prop :=
  0 ≤ addr ∧ addr + Z.of_nat n ≤ Z.of_nat (length (data s)).

Lemma atomic_load_in n addr s : in_bounds n addr s →
  atomic_load n addr s =
    Ok (signed (8 * Z.of_nat n) (from_le_bytes (take n (drop (Z.to_nat addr) (data s))))).
Proof. intros [??]. unfold atomic_load. by rewrite (proj2 (Z.ltb_ge _ _)) by lia. Qed.

Lemma atomic_store_in n addr v s : in_bounds n addr s →
  atomic_store n addr v s = (with_data (splice (Z.to_nat addr) (to_le_bytes n v) (data s)) s, Ok tt).
Proof. intros [??]. unfold atomic_store. by rewrite (proj2 (Z.ltb_ge _ _)) by lia. Qed.

Lemma atomic_store_length n addr v s : 0 ≤ addr →
  length (data (atomic_store n addr v s).1) = length (data s).
Proof.
  intros Ha. unfold atomic_store. case_match eqn:E; [done|]. apply Z.ltb_ge in E. simpl.
  apply length_splice. rewrite length_to_le_bytes. lia.
Qed.

Lemma drop_splice off d buf : (off + length d ≤ length buf)%nat →
  drop off (splice off d buf) = d ++ drop (off + length d) buf.
Proof.
  intros H. unfold splice. rewrite drop_app_length' by (rewrite length_take; lia). done.
Qed.

Lemma slice_splice_ne off d buf n o : (off + length d ≤ length buf)%nat →
  (o + n ≤ off ∨ off + length d ≤ o)%nat →
  take n (drop o (splice off d buf)) = take n (drop o buf).
Proof.
  intros Hl Ho. apply list_eq. intros i. destruct (decide (i < n)%nat) as [Hi|Hi].
  2:{ by rewrite !lookup_take_ge by lia. }
  rewrite !lookup_take_lt, !lookup_drop by done. unfold splice.
  destruct Ho as [Ho|Ho].
  - rewrite lookup_app_l by (rewrite length_take; lia). by rewrite lookup_take_lt by lia.
  - rewrite lookup_app_r by (rewrite length_take; lia). rewrite length_take.
    rewrite lookup_app_r by lia. rewrite lookup_drop. f_equal. lia.
Qed.

Lemma load_store n addr v s : (0 < n)%nat → in_bounds n addr s → is_signed (8 * Z.of_nat n) v →
  atomic_load n addr (atomic_store n addr v s).1 = Ok v.
Proof.
  intros Hn Hb Hv. rewrite atomic_store_in by done. simpl. destruct Hb as [H1 H2].
  rewrite atomic_load_in.
  2:{ split; [done|]. simpl. rewrite length_splice; rewrite ?length_to_le_bytes; lia. }
  simpl. rewrite drop_splice by (rewrite length_to_le_bytes; lia).
  rewrite take_app_length' by by rewrite length_to_le_bytes.
  rewrite from_to_le_bytes. f_equal. etrans; [by apply signed_wrap; lia|].
  by apply signed_small; [lia|].
Qed.

Lemma load_store_ne n m addr b v s : 0 ≤ addr → 0 ≤ b →
  b + Z.of_nat m ≤ addr ∨ addr + Z.of_nat n ≤ b →
  atomic_load m b (atomic_store n addr v s).1 = atomic_load m b s.
Proof.
  intros Ha Hb Hd. unfold atomic_load. rewrite atomic_store_length by done.
  case_match eqn:E; [done|]. apply Z.ltb_ge in E. unfold atomic_store.
  case_match eqn:E'; [done|]. apply Z.ltb_ge in E'. simpl.
  by rewrite slice_splice_ne by (rewrite length_to_le_bytes; lia).
Qed.

(** The atomic accesses of shared memory are a memory: out of bounds they change
    nothing and answer [MemoryAccessOutOfBounds], a store is read back, leaves every
    disjoint location and the wait queue alone, and compare-exchange replaces the value
    exactly when it is the expected one, returning the old one. *)
Theorem atomics_correct n addr v s :
  n = 4%nat ∨ n = 8%nat → 0 ≤ addr → is_signed (8 * Z.of_nat n) v →
  (¬ in_bounds n addr s → atomic_load n addr s = Err MemoryAccessOutOfBounds ∧
     atomic_store n addr v s = (s, Err MemoryAccessOutOfBounds)) ∧
  (in_bounds n addr s →
     atomic_load n addr (atomic_store n addr v s).1 = Ok v ∧
     (∀ m b, 0 ≤ b → b + Z.of_nat m ≤ addr ∨ addr + Z.of_nat n ≤ b →
        atomic_load m b (atomic_store n addr v s).1 = atomic_load m b s) ∧
     waiters (atomic_store n addr v s).1 = waiters s ∧
     length (data (atomic_store n addr v s).1) = length (data s)) ∧
  (∀ old e, in_bounds 4 addr s → atomic_load_i32 addr s = Ok old → is_signed 32 v →
     (atomic_cmpxchg_i32 addr e v s).2 = Ok old ∧
     atomic_load_i32 addr (atomic_cmpxchg_i32 addr e v s).1 = Ok (if old =? e then v else old)).
Proof.
  intros Hn Ha Hv. split_and!.
  - intros Hb. unfold atomic_load, atomic_store, in_bounds in *.
    by rewrite (proj2 (Z.ltb_lt _ _)) by lia.
  - intros Hb. split_and!; [by apply load_store; [lia|..]| |by rewrite atomic_store_in
      |by apply atomic_store_length]. intros m b Hb0 Hd. by apply load_store_ne.
  - intros old e Hb Hl Hv4. unfold atomic_cmpxchg_i32. rewrite Hl. destruct (old =? e) eqn:E; [|done].
    pose proof (load_store 4 addr v s ltac:(lia) Hb Hv4) as Hls. unfold atomic_store_i32, atomic_load_i32.
    rewrite atomic_store_in in Hls |- * by done. done.
Qed.

Lemma rmw_add_spec addr v s old : in_bounds 4 addr s → atomic_load_i32 addr s = Ok old →
  (atomic_rmw_add_i32 addr v s).2 = Ok old ∧
  in_bounds 4 addr (atomic_rmw_add_i32 addr v s).1 ∧
  atomic_load_i32 addr (atomic_rmw_add_i32 addr v s).1 = Ok (i32 (old + v)).
Proof.
  intros Hb Hl. unfold atomic_rmw_add_i32. rewrite Hl.
  pose proof (load_store 4 addr (i32 (old + v)) s ltac:(lia) Hb (i32_range _)) as Hls.
  pose proof (atomic_store_length 4 addr (i32 (old + v)) s ltac:(by destruct Hb)) as Hlen.
  unfold atomic_store_i32, atomic_load_i32. rewrite atomic_store_in in Hls, Hlen |- * by done.
  split_and!; [done| |done]. destruct Hb. split; [done|]. simpl in *. by rewrite Hlen.
Qed.

Lemma foldr_add_acc v vs : foldr Z.add v vs = foldr Z.add 0 vs + v.
Proof. induction vs; simpl; lia. Qed.

(** Concurrent additions to a counter in shared memory: in whatever order the threads'
    [atomic_rmw_add_i32] come, none is lost, each returns the sum before it, and the
    counter ends at the sum of all, modulo [2^32]. *)
Theorem rmw_adds_sum addr v0 vs s :
  in_bounds 4 addr s → atomic_load_i32 addr s = Ok v0 →
  atomic_load_i32 addr (foldl (λ s v, (atomic_rmw_add_i32 addr v s).1) s vs) =
    Ok (i32 (v0 + foldr Z.add 0 vs)) ∧
  (∀ vs1 v vs2, vs = vs1 ++ v :: vs2 →
     (atomic_rmw_add_i32 addr v (foldl (λ s v, (atomic_rmw_add_i32 addr v s).1) s vs1)).2 =
       Ok (i32 (v0 + foldr Z.add 0 vs1))).
Proof.
  intros Hb Hl.
  assert (∀ vs, in_bounds 4 addr (foldl (λ s v, (atomic_rmw_add_i32 addr v s).1) s vs) ∧
    atomic_load_i32 addr (foldl (λ s v, (atomic_rmw_add_i32 addr v s).1) s vs) =
      Ok (i32 (v0 + foldr Z.add 0 vs))) as Hall.
  { clear vs. intros vs. induction vs as [|v vs IH] using rev_ind; simpl.
    - split; [done|]. rewrite Hl, Z.add_0_r. f_equal. unfold atomic_load_i32 in Hl.
      rewrite atomic_load_in in Hl by done. injection Hl as <-. symmetry.
      apply signed_small; [lia|]. by apply signed_range.
    - rewrite foldl_app. destruct IH as [IHb IHl]. destruct (rmw_add_spec addr v _ _ IHb IHl) as (_ & H1 & H2).
      split; [done|]. simpl. rewrite H2. f_equal. rewrite foldr_app. simpl. rewrite Z.add_0_r.
      rewrite (foldr_add_acc v vs). apply signed_ext. unfold i32.
      rewrite <-wrap_add_l, wrap_signed, wrap_add_l by lia. f_equal. lia. }
  split; [apply Hall|]. intros vs1 v vs2 ->. destruct (Hall vs1) as [H1 H2].
  by destruct (rmw_add_spec addr v _ _ H1 H2).
Qed.

(** ** Notifying *)

Definition at_addr (addr : Z) (x : Waiter) : bool := address x =? addr.

(** The waiters a [notify] removes: the first [count] at the address. *)
Fixpoint notified_of (addr count : Z) (ws : list Waiter) : list Waiter :=
  match ws with
  | [] => []
  | w :: ws =>
      if (address w =? addr) && (0 <? count) then w :: notified_of addr (count - 1) ws
      else notified_of addr count ws
  end.

Lemma notify_retain_spec addr ws : ∀ count k,
  let r := notify_retain addr count k ws in
  r.1 ++ notified_of addr (count - k) ws ≡ₚ ws ∧ r.1 `sublist_of` ws ∧
  filter (at_addr addr) r.1 = drop (Z.to_nat (count - k)) (filter (at_addr addr) ws) ∧
  notified_of addr (count - k) ws = take (Z.to_nat (count - k)) (filter (at_addr addr) ws) ∧
  r.2 = k + Z.of_nat (length (notified_of addr (count - k) ws)).
Proof.
  induction ws as [|w ws IH]; intros count k; simpl.
  { rewrite filter_nil, drop_nil, take_nil. split_and!; done || lia. }
  destruct (address w =? addr) eqn:Ea; simpl.
  - destruct (Z.ltb_spec k count) as [Hk|Hk].
    + rewrite (proj2 (Z.ltb_lt 0 _)) by lia. specialize (IH count (k + 1)).
      replace (count - (k + 1)) with (count - k - 1) in IH by lia.
      destruct IH as (H1 & H2 & H3 & H4 & H5). split_and!.
      * by rewrite <-Permutation_middle, H1.
      * by constructor.
      * rewrite H3, filter_cons_True by (unfold at_addr; by rewrite Ea).
        by replace (Z.to_nat (count - k)) with (S (Z.to_nat (count - k - 1))) by lia.
      * rewrite H4, filter_cons_True by (unfold at_addr; by rewrite Ea).
        by replace (Z.to_nat (count - k)) with (S (Z.to_nat (count - k - 1))) by lia.
      * rewrite H5. simpl. lia.
    + rewrite (proj2 (Z.ltb_ge 0 _)) by lia. specialize (IH count k).
      destruct (notify_retain addr count k ws) as [ws' n]. simpl in *.
      destruct IH as (H1 & H2 & H3 & H4 & H5). split_and!.
      * by rewrite H1.
      * by constructor.
      * rewrite !filter_cons_True by (unfold at_addr; by rewrite Ea).
        rewrite H3. by replace (Z.to_nat (count - k)) with 0%nat by lia.
      * rewrite H4. by replace (Z.to_nat (count - k)) with 0%nat by lia.
      * done.
  - specialize (IH count k). destruct (notify_retain addr count k ws) as [ws' n]. simpl in *.
    destruct IH as (H1 & H2 & H3 & H4 & H5). split_and!; [by rewrite H1|by constructor| | |done].
    + by rewrite !filter_cons_False by (unfold at_addr; rewrite Ea; intros []).
    + by rewrite filter_cons_False by (unfold at_addr; rewrite Ea; intros []).
Qed.

Lemma notify_retain_others addr ws : ∀ count k,
  filter (λ x, negb (at_addr addr x)) (notify_retain addr count k ws).1 =
  filter (λ x, negb (at_addr addr x)) ws.
Proof.
  induction ws as [|w ws IH]; intros count k; simpl; [done|].
  destruct (address w =? addr) eqn:Ea; simpl.
  - rewrite (filter_cons_False _ w) by (unfold at_addr; rewrite Ea; intros []).
    destruct (k <? count); [apply IH|]. specialize (IH count k).
    destruct (notify_retain addr count k ws) as [ws' n]. simpl in *.
    by rewrite (filter_cons_False _ w) by (unfold at_addr; rewrite Ea; intros []).
  - specialize (IH count k). destruct (notify_retain addr count k ws) as [ws' n]. simpl in *.
    rewrite !filter_cons_True by (unfold at_addr; by rewrite Ea). by rewrite IH.
Qed.

(** [notify] wakes the right threads: it removes exactly the [count] oldest waiters at
    the address (all of them if there are fewer), returns how many, and keeps every
    other waiter, in order; the memory is untouched. *)
Theorem notify_correct addr count s : 0 ≤ count →
  let '(s', n) := notify addr count s in
  let mine := filter (at_addr addr) (waiters s) in
  n = Z.min count (Z.of_nat (length mine)) ∧
  filter (at_addr addr) (waiters s') = drop (Z.to_nat count) mine ∧
  filter (λ x, negb (at_addr addr x)) (waiters s') =
    filter (λ x, negb (at_addr addr x)) (waiters s) ∧
  waiters s' `sublist_of` waiters s ∧ data s' = data s.
Proof.
  intros Hc. unfold notify. pose proof (notify_retain_spec addr (waiters s) count 0) as Hs.
  rewrite Z.sub_0_r in Hs. pose proof (notify_retain_others addr (waiters s) count 0) as Ho.
  destruct (notify_retain addr count 0 (waiters s)) as [ws n]. cbn [fst snd] in *.
  destruct Hs as (_ & H2 & H3 & H4 & H5). rewrite H4, length_take in H5.
  split_and!; [lia|done..].
Qed.

(** ** A wait and the rest of the machine *)

(** The wait steps of one thread alone, at a fixed clock. *)
Fixpoint wait_run (k : nat) (now : Z) (w : Wait) (p : phase) (s : SharedMemory) :
    SharedMemory * phase :=
  match k with
  | O => (s, p)
  | S k => let '(s, p) := wait_step now w p s in wait_run k now w p s
  end.

(** What ends a wait: its waiter is gone, the value is another one, or time is up. *)
Definition queued (w : Wait) (tid : Z) (s : SharedMemory) : bool :=
  existsb (is_own w tid) (waiters s).
Definition value_differs (w : Wait) (s : SharedMemory) : bool :=
  match atomic_load (w_width w) (w_addr w) s with
  | Ok current => negb (current =? w_expected w) | Err _ => false end.
Definition timed_out (now : Z) (w : Wait) (start : Z) : bool :=
  timeout_cycles w <=? sat_sub now start.

(** One turn of the wait loop, whatever the state: a wait whose waiter was removed
    returns 0 at once; otherwise one whose value changed leaves the queue and returns 0;
    otherwise one whose time is up leaves the queue and returns 2; and otherwise it is
    back where it was and nothing shared has changed. So each of the three conditions ends
    it within four steps, and an infinite timeout never counts as up. *)
Theorem wait_turn now w tid start s : in_bounds (w_width w) (w_addr w) s →
  let s' := with_waiters (filter (λ x, negb (is_own w tid x)) (waiters s)) s in
  wait_run 4 now w (PollQueue tid start) s =
    (if negb (queued w tid s) then (s, Returned (Ok 0))
     else if value_differs w s then (s', Returned (Ok 0))
     else if timed_out now w start then (s', Returned (Ok 2))
     else (s, PollValue tid start)) ∧
  (queued w tid s = true → value_differs w s = false → timed_out now w start = false →
     wait_run 3 now w (PollQueue tid start) s = (s, PollQueue tid start)) ∧
  (w_timeout_ns w < 0 → 0 < start → now < 2 ^ 64 → timed_out now w start = false).
Proof.
  intros Hb. unfold value_differs. rewrite atomic_load_in by done. split_and!.
  - cbn [wait_run wait_step]. fold (queued w tid s). destruct (queued w tid s) eqn:Eq; [|done].
    cbn [wait_run wait_step negb]. rewrite atomic_load_in by done.
    destruct (negb (_ =? _)); [done|]. cbn [wait_run wait_step]. fold (timed_out now w start).
    destruct (timed_out now w start); [done|]. cbn [wait_run wait_step].
    fold (queued w tid s). by rewrite Eq.
  - intros Hq Hv Ht. cbn [wait_run wait_step]. fold (queued w tid s). rewrite Hq.
    cbn [wait_run wait_step]. rewrite atomic_load_in by done. rewrite Hv.
    cbn [wait_run wait_step]. fold (timed_out now w start). by rewrite Ht.
  - intros Hn H0 Hnow. unfold timed_out, timeout_cycles, u64_max, sat_sub.
    rewrite (proj2 (Z.ltb_lt _ _)) by done. apply Z.leb_gt. lia.
Qed.

Record system := mkSys {
  mem : SharedMemory;
  waits : gmap Z (Wait * phase);
  clock : Z;
  (** ghost: the timestamps read as thread ids, and those [notify] removed *)
  issued : list Z;
  woken : gset Z
}.

Definition ids (ws : list Waiter) : list Z := thread_id <$> ws.

(** A timestamp read as thread id is remembered. *)
Definition issue (p : phase) (now : Z) (l : list Z) : list Z :=
  match p with Stamping => now :: l | _ => l end.

(** The threads: waits begin and run, memory is stored to, waiters are notified and time
    passes, in any order. *)
Inductive sys_step : system → system → Prop :=
| sys_begin σ t w : waits σ !! t = None → 0 ≤ w_addr w →
    sys_step σ (mkSys (mem σ) (<[t := (w, Checking)]> (waits σ)) (clock σ) (issued σ) (woken σ))
| sys_tick σ now : clock σ ≤ now →
    sys_step σ (mkSys (mem σ) (waits σ) now (issued σ) (woken σ))
| sys_run σ t w p : waits σ !! t = Some (w, p) →
    let r := wait_step (clock σ) w p (mem σ) in
    sys_step σ (mkSys r.1 (<[t := (w, r.2)]> (waits σ)) (clock σ)
      (issue p (clock σ) (issued σ)) (woken σ))
| sys_store σ n addr v : 0 ≤ addr →
    sys_step σ (mkSys (atomic_store n addr v (mem σ)).1 (waits σ) (clock σ) (issued σ) (woken σ))
| sys_notify σ addr count : 0 ≤ count →
    sys_step σ (mkSys (notify addr count (mem σ)).1 (waits σ) (clock σ) (issued σ)
      (list_to_set (ids (notified_of addr count (waiters (mem σ)))) ∪ woken σ)).

Definition sys_new (s : SharedMemory) (now : Z) : system := mkSys (with_waiters [] s) ∅ now [] ∅.

(** The thread id of a wait that has joined the queue, and of one that has an id at all. *)
Definition tid_of (p : phase) : option Z :=
  match p with
  | Starting tid | PollQueue tid _ | PollValue tid _ | PollTime tid _ | Leaving tid _ => Some tid
  | _ => None
  end.
Definition id_of (p : phase) : option Z :=
  match p with Enqueuing tid => Some tid | _ => tid_of p end.

(** A wait past its first look at the memory. *)
Definition checked (p : phase) : bool :=
  match p with Checking | Returned _ => false | _ => true end.

Lemma tid_id p tid : tid_of p = Some tid → id_of p = Some tid.
Proof. by destruct p. Qed.

Record sys_ok (σ : system) : Prop := mkSysOk {
  so_owner : ∀ x, x ∈ waiters (mem σ) → ∃ t w p, waits σ !! t = Some (w, p) ∧
    tid_of p = Some (thread_id x) ∧ address x = w_addr w;
  so_nodup : NoDup (ids (waiters (mem σ)));
  so_unique : ∀ t t' w w' p p' tid, waits σ !! t = Some (w, p) → waits σ !! t' = Some (w', p') →
    id_of p = Some tid → id_of p' = Some tid → t = t';
  so_issued : ∀ t w p tid, waits σ !! t = Some (w, p) → id_of p = Some tid → tid ∈ issued σ;
  so_tid : ∀ t w p tid, waits σ !! t = Some (w, p) → tid_of p = Some tid →
    (tid ∈ ids (waiters (mem σ)) ↔ tid ∉ woken σ);
  so_fresh : ∀ t w tid, waits σ !! t = Some (w, Enqueuing tid) → tid ∉ woken σ;
  so_bounds : ∀ t w p, waits σ !! t = Some (w, p) → checked p = true →
    in_bounds (w_width w) (w_addr w) (mem σ);
  so_addr : ∀ t w p, waits σ !! t = Some (w, p) → 0 ≤ w_addr w;
  so_woken : ∀ tid, tid ∈ woken σ → tid ∈ issued σ
}.

(** *** The invariant is kept *)

Lemma in_bounds_length n addr s s' : length (data s') = length (data s) →
  in_bounds n addr s → in_bounds n addr s'.
Proof. unfold in_bounds. by intros ->. Qed.

Lemma existsb_own w tid ws :
  existsb (is_own w tid) ws = true ↔ ∃ x, x ∈ ws ∧ address x = w_addr w ∧ thread_id x = tid.
Proof.
  rewrite existsb_exists. split; intros (x & Hx & H); exists x; (split; [by apply list_elem_of_In|]).
  - unfold is_own in H. apply andb_true_iff in H as [?%Z.eqb_eq ?%Z.eqb_eq]. done.
  - unfold is_own. apply andb_true_iff. by rewrite !Z.eqb_eq.
Qed.

Lemma elem_of_ids tid ws : tid ∈ ids ws ↔ ∃ x, x ∈ ws ∧ thread_id x = tid.
Proof. unfold ids. rewrite list_elem_of_fmap. naive_solver. Qed.

Section kept.
Context (σ : system) (Hok : sys_ok σ).

(** In a reachable state the address test of [is_own] is redundant. *)
Lemma queued_iff t w p tid : waits σ !! t = Some (w, p) → tid_of p = Some tid →
  queued w tid (mem σ) = true ↔ tid ∈ ids (waiters (mem σ)).
Proof.
  intros Ht Hp. unfold queued. rewrite existsb_own, elem_of_ids. split; [naive_solver|].
  intros (x & Hx & E). exists x. split; [done|]. split; [|done].
  destruct (so_owner _ Hok x Hx) as (t' & w' & p' & Ht' & Hp' & Ha).
  assert (t' = t) as -> by (eapply (so_unique _ Hok); eauto using tid_id; rewrite E; by apply tid_id). congruence.
Qed.

(** A phase change that keeps the thread id, or drops an id that is not queued. *)
Lemma sys_ok_move t w p p' : waits σ !! t = Some (w, p) → (∀ tid, p' ≠ Enqueuing tid) →
  (tid_of p' = tid_of p ∧ id_of p' = id_of p) ∨
    (id_of p' = None ∧ ∀ tid, tid_of p = Some tid → tid ∉ ids (waiters (mem σ))) →
  (checked p' = true → in_bounds (w_width w) (w_addr w) (mem σ)) →
  sys_ok (mkSys (mem σ) (<[t := (w, p')]> (waits σ)) (clock σ) (issued σ) (woken σ)).
Proof.
  intros Ht He Hp Hc. destruct Hok as [H1 H2 H3 H4 H5 H6 H7 H8 H9].
  assert (∀ tid, id_of p' = Some tid → id_of p = Some tid) as Hpp by (destruct Hp as [[_ ->]|[-> _]]; done).
  assert (∀ tid, tid_of p' = Some tid → tid_of p = Some tid) as Hpt
    by (destruct Hp as [[-> _]|[Hn _]]; [done|intros tid Htid; by rewrite (tid_id _ _ Htid) in Hn]).
  split; simpl; [|done|..|done].
  - intros x Hx. destruct (H1 x Hx) as (t' & w' & p0 & Ht' & Hp0 & Ha).
    destruct (decide (t' = t)) as [->|Hne].
    + rewrite Ht in Ht'. simplify_eq. exists t, w', p'. rewrite lookup_insert_eq.
      split; [done|]. split; [|done]. destruct Hp as [[-> _]|[_ Hp]]; [done|].
      destruct (Hp _ Hp0). rewrite elem_of_ids. eauto.
    + exists t', w', p0. by rewrite lookup_insert_ne.
  - intros a b w1 w2 p1 p2 tid [[-> [= <- <-]]|[? Ha]]%lookup_insert_Some
      [[-> [= <- <-]]|[? Hb]]%lookup_insert_Some E1 E2; eauto.
  - intros a w1 p1 tid [[-> [= <- <-]]|[? Ha]]%lookup_insert_Some E; eauto.
  - intros a w1 p1 tid [[-> [= <- <-]]|[? Ha]]%lookup_insert_Some E; eauto.
  - intros a w1 tid [[-> [= <- ->]]|[? Ha]]%lookup_insert_Some; [by destruct (He tid)|eauto].
  - intros a w1 p1 [[-> [= <- <-]]|[? Ha]]%lookup_insert_Some; eauto.
  - intros a w1 p1 [[-> [= <- <-]]|[? Ha]]%lookup_insert_Some; eauto.
Qed.

(** The memory under the queue may change as long as its size does not. *)
Lemma sys_ok_mem m now : waiters m = waiters (mem σ) → length (data m) = length (data (mem σ)) →
  sys_ok (mkSys m (waits σ) now (issued σ) (woken σ)).
Proof.
  intros Hw Hl. destruct Hok. split; simpl; rewrite ?Hw; try done.
  intros t w p Ht Hc. eapply in_bounds_length; eauto.
Qed.

Lemma sys_ok_begin t w : waits σ !! t = None → 0 ≤ w_addr w →
  sys_ok (mkSys (mem σ) (<[t := (w, Checking)]> (waits σ)) (clock σ) (issued σ) (woken σ)).
Proof.
  intros Ht Ha. destruct Hok as [H1 H2 H3 H4 H5 H6 H7 H8 H9]. split; simpl; [|done|..|done].
  - intros x Hx. destruct (H1 x Hx) as (t' & w' & p0 & Ht' & ?). exists t', w', p0.
    rewrite lookup_insert_ne by congruence. done.
  - intros a b w1 w2 p1 p2 tid [[-> [= <- <-]]|[? Hx]]%lookup_insert_Some
      [[-> [= <- <-]]|[? Hb]]%lookup_insert_Some E1 E2; simplify_eq/=; eauto.
  - intros a w1 p1 tid [[-> [= <- <-]]|[? Hx]]%lookup_insert_Some E; simplify_eq/=; eauto.
  - intros a w1 p1 tid [[-> [= <- <-]]|[? Hx]]%lookup_insert_Some E; simplify_eq/=; eauto.
  - intros a w1 tid [[-> [=]]|[? Hx]]%lookup_insert_Some; eauto.
  - intros a w1 p1 [[-> [= <- <-]]|[? Hx]]%lookup_insert_Some; [done|eauto].
  - intros a w1 p1 [[-> [= <- <-]]|[? Hx]]%lookup_insert_Some; eauto.
Qed.

Lemma queued_issued tid : tid ∈ ids (waiters (mem σ)) → tid ∈ issued σ.
Proof.
  intros (x & Hx & <-)%elem_of_ids. destruct (so_owner _ Hok x Hx) as (t & w & p & Ht & Hp & _).
  eapply (so_issued _ Hok); eauto using tid_id.
Qed.

Lemma sys_ok_notify addr count : 0 ≤ count →
  sys_ok (mkSys (notify addr count (mem σ)).1 (waits σ) (clock σ) (issued σ)
    (list_to_set (ids (notified_of addr count (waiters (mem σ)))) ∪ woken σ)).
Proof.
  intros Hc. pose proof queued_issued as Hqi. destruct Hok as [H1 H2 H3 H4 H5 H6 H7 H8 H9]. unfold notify.
  pose proof (notify_retain_spec addr (waiters (mem σ)) count 0) as (Hperm & Hsub & _).
  rewrite Z.sub_0_r in Hperm. destruct (notify_retain addr count 0 (waiters (mem σ))) as [ws n].
  cbn [fst snd] in *. set (out := notified_of addr count (waiters (mem σ))) in *.
  assert (∀ tid, tid ∈ ids (waiters (mem σ)) ↔ tid ∈ ids ws ∨ tid ∈ ids out) as Hids.
  { intros tid. unfold ids. rewrite <-Hperm, fmap_app. apply elem_of_app. }
  pose proof H2 as Hnd. unfold ids in Hnd. rewrite <-Hperm, fmap_app in Hnd.
  apply NoDup_app in Hnd as (Hnd & Hdisj & _). split; simpl; [|done|done|done|..|done|done|].
  - intros x Hx. apply H1. by apply (sublist_subseteq _ _ Hsub).
  - intros t w p tid Ht Hp. pose proof (H5 _ _ _ _ Ht Hp) as Hw.
    rewrite not_elem_of_union, elem_of_list_to_set. specialize (Hids tid). specialize (Hdisj tid).
    unfold ids in *. tauto.
  - intros t w tid Ht [Hin%elem_of_list_to_set|Hw]%elem_of_union; [|by eapply H6].
    assert (tid ∈ ids (waiters (mem σ))) as (x & Hx & E)%elem_of_ids by (apply Hids; by right).
    destruct (H1 x Hx) as (t' & w' & p & Ht' & Hp & _). subst tid.
    assert (t' = t) as -> by (eapply H3; eauto using tid_id). by simplify_eq.
  - intros tid [Hin%elem_of_list_to_set|Hw]%elem_of_union; [|by apply H9]. apply Hqi, Hids. by right.
Qed.

(** A timestamp that was not read before becomes the id of a wait. *)
Lemma sys_ok_stamp t w : waits σ !! t = Some (w, Stamping) → clock σ ∉ issued σ →
  sys_ok (mkSys (mem σ) (<[t := (w, Enqueuing (clock σ))]> (waits σ)) (clock σ) (clock σ :: issued σ) (woken σ)).
Proof.
  intros Ht Hf. destruct Hok as [H1 H2 H3 H4 H5 H6 H7 H8 H9].
  assert (∀ t w p tid, waits σ !! t = Some (w, p) → id_of p = Some tid → tid ≠ clock σ) as Hne.
  { intros t0 w0 p0 tid H0 E ->. by apply Hf, (H4 _ _ _ _ H0 E). }
  split; simpl; [|done|..].
  - intros x Hx. destruct (H1 x Hx) as (t' & w' & p0 & Ht' & Hp & ?). exists t', w', p0.
    rewrite lookup_insert_ne; [done|]. intros ->. rewrite Ht in Ht'. by simplify_eq.
  - intros a b w1 w2 p1 p2 tid [[-> [= <- <-]]|[? Ha]]%lookup_insert_Some
      [[-> [= <- <-]]|[? Hb]]%lookup_insert_Some E1 E2; simplify_eq/=; [done|..|eauto].
    + by destruct (Hne _ _ _ _ Hb E2).
    + by destruct (Hne _ _ _ _ Ha E1).
  - intros a w1 p1 tid [[-> [= <- <-]]|[? Ha]]%lookup_insert_Some E; simplify_eq/=; [by left|right; eauto].
  - intros a w1 p1 tid [[-> [= <- <-]]|[? Ha]]%lookup_insert_Some E; [done|eauto].
  - intros a w1 tid [[-> [= <- <-]]|[? Ha]]%lookup_insert_Some; [|eauto]. intros Hw. by apply Hf, H9.
  - intros a w1 p1 [[-> [= <- <-]]|[? Ha]]%lookup_insert_Some; eauto.
  - intros a w1 p1 [[-> [= <- <-]]|[? Ha]]%lookup_insert_Some; eauto.
  - intros tid Hw. right. by apply H9.
Qed.

Lemma sys_ok_enqueue t w tid0 : waits σ !! t = Some (w, Enqueuing tid0) →
  sys_ok (mkSys
    (with_waiters (waiters (mem σ) ++ [mkWaiter (w_addr w) (u64 (w_expected w)) tid0 (w_64 w)]) (mem σ))
    (<[t := (w, Starting tid0)]> (waits σ)) (clock σ) (issued σ) (woken σ)).
Proof.
  intros Ht. destruct Hok as [H1 H2 H3 H4 H5 H6 H7 H8 H9].
  assert (∀ t' w p, waits σ !! t' = Some (w, p) → id_of p = Some tid0 → t' = t) as Hne.
  { intros t' w' p' Ht' E. by eapply (H3 t' t). }
  assert (tid0 ∉ ids (waiters (mem σ))) as Hq.
  { intros (x & Hx & E)%elem_of_ids. destruct (H1 x Hx) as (t0 & w0 & p0 & H0 & Hp & _).
    assert (t0 = t) as -> by (eapply Hne; [done|]; rewrite <- E; by apply tid_id). by simplify_eq. }
  assert (∀ tid, tid ∈ ids (waiters (mem σ) ++
     [mkWaiter (w_addr w) (u64 (w_expected w)) tid0 (w_64 w)]) ↔ tid ∈ ids (waiters (mem σ)) ∨ tid = tid0) as Hids.
  { intros tid. unfold ids. rewrite fmap_app, elem_of_app. simpl. by rewrite list_elem_of_singleton. }
  split; simpl; [..|done].
  - intros x [Hx| ->%list_elem_of_singleton]%elem_of_app.
    + destruct (H1 x Hx) as (t' & w' & p0 & Ht' & Hp & ?). exists t', w', p0.
      rewrite lookup_insert_ne; [done|]. intros ->. rewrite Ht in Ht'. by simplify_eq.
    + exists t, w, (Starting tid0). by rewrite lookup_insert_eq.
  - unfold ids in *. rewrite fmap_app. apply NoDup_app. split_and!; [done| |apply NoDup_singleton].
    intros tid Htid ->%list_elem_of_singleton. by apply Hq.
  - intros a b w1 w2 p1 p2 tid [[-> [= <- <-]]|[? Ha]]%lookup_insert_Some
      [[-> [= <- <-]]|[? Hb]]%lookup_insert_Some E1 E2; simplify_eq/=; [done|..|eauto].
    + symmetry. by eapply Hne.
    + by eapply Hne.
  - intros a w1 p1 tid [[-> [= <- <-]]|[? Ha]]%lookup_insert_Some E; simplify_eq/=; eauto.
  - intros a w1 p1 tid [[-> [= <- <-]]|[? Ha]]%lookup_insert_Some E; simplify_eq/=; rewrite Hids.
    + split; [intros _; by eapply H6|by right].
    + rewrite <- (H5 _ _ _ _ Ha E). split; [|by left]. intros [?| ->]; [done|].
      by destruct (Hne _ _ _ Ha (tid_id _ _ E)).
  - intros a w1 tid [[-> [=]]|[? Hx]]%lookup_insert_Some; eauto.
  - intros a w1 p1 [[-> [= <- <-]]|[? Hx]]%lookup_insert_Some Hc;
      (apply (in_bounds_length _ _ (mem σ)); [done|]); eauto.
  - intros a w1 p1 [[-> [= <- <-]]|[? Hx]]%lookup_insert_Some; eauto.
Qed.

Lemma sys_ok_leave t w tid r : waits σ !! t = Some (w, Leaving tid r) →
  sys_ok (mkSys
    (with_waiters (filter (λ x, negb (is_own w tid x)) (waiters (mem σ))) (mem σ))
    (<[t := (w, Returned (Ok r))]> (waits σ)) (clock σ) (issued σ) (woken σ)).
Proof.
  intros Ht. destruct Hok as [H1 H2 H3 H4 H5 H6 H7 H8 H9].
  assert (∀ x, x ∈ filter (λ x, negb (is_own w tid x)) (waiters (mem σ)) ↔
    x ∈ waiters (mem σ) ∧ thread_id x ≠ tid) as Hf.
  { intros x. rewrite list_elem_of_filter. split.
    - intros [Hn Hx]. split; [done|]. intros E.
      destruct (H1 x Hx) as (t' & w' & p' & Ht' & Hp' & Ha).
      assert (t' = t) as -> by (eapply H3; eauto using tid_id; simpl; congruence).
      rewrite Ht in Ht'. simplify_eq. unfold is_own in Hn. by rewrite Ha, !Z.eqb_refl in Hn.
    - intros [Hx Hne]. split; [|done]. unfold is_own.
      by rewrite (proj2 (Z.eqb_neq _ _) Hne), andb_false_r. }
  split; simpl; [..|done].
  - intros x [Hx Hne]%Hf. destruct (H1 x Hx) as (t' & w' & p0 & Ht' & Hp & ?). exists t', w', p0.
    rewrite lookup_insert_ne; [done|]. intros ->. rewrite Ht in Ht'. by simplify_eq/=.
  - unfold ids in *. eapply sublist_NoDup; [exact H2|]. apply fmap_sublist, sublist_filter.
  - intros a b w1 w2 p1 p2 tid' [[-> [= <- <-]]|[? Ha]]%lookup_insert_Some
      [[-> [= <- <-]]|[? Hb]]%lookup_insert_Some E1 E2; simplify_eq/=; eauto.
  - intros a w1 p1 tid' [[-> [= <- <-]]|[? Ha]]%lookup_insert_Some E; simplify_eq/=; eauto.
  - intros a w1 p1 tid' [[-> [= <- <-]]|[? Ha]]%lookup_insert_Some E; simplify_eq/=.
    assert (tid' ≠ tid) as Hne.
    { intros ->. assert (a = t) as -> by (eapply H3; eauto using tid_id). done. }
    rewrite <-(H5 _ _ _ _ Ha E), !elem_of_ids. split.
    + intros (x & [??]%Hf & <-). eauto.
    + intros (x & Hx & <-). exists x. by rewrite Hf.
  - intros a w1 tid' [[-> [=]]|[? Hx]]%lookup_insert_Some; eauto.
  - intros a w1 p1 [[-> [= <- <-]]|[? Hx]]%lookup_insert_Some; [done|]. intros Hc.
    apply (in_bounds_length _ _ (mem σ)); eauto.
  - intros a w1 p1 [[-> [= <- <-]]|[? Hx]]%lookup_insert_Some; eauto.
Qed.
End kept.

Lemma sys_ok_run σ t w p : sys_ok σ → waits σ !! t = Some (w, p) → (p = Stamping → clock σ ∉ issued σ) →
  let r := wait_step (clock σ) w p (mem σ) in
  sys_ok (mkSys r.1 (<[t := (w, r.2)]> (waits σ)) (clock σ) (issue p (clock σ) (issued σ)) (woken σ)).
Proof.
  intros Hok Ht Hf. pose proof (so_addr _ Hok _ _ _ Ht) as Ha. pose proof (so_bounds _ Hok _ _ _ Ht) as Hb.
  assert (∀ p', (∀ tid, p' ≠ Enqueuing tid) → tid_of p' = tid_of p → id_of p' = id_of p →
    (checked p' = true → checked p = true) →
    sys_ok (mkSys (mem σ) (<[t := (w, p')]> (waits σ)) (clock σ) (issued σ) (woken σ))) as Hmove.
  { intros p' He E E' Hc. eapply sys_ok_move; [done|exact Ht|done|by left|auto]. }
  destruct p as [| |tid|tid|tid start|tid start|tid start|tid answer|r]; cbn [wait_step issue].
  - unfold atomic_load. destruct (Z.ltb_spec (Z.of_nat (length (data (mem σ)))) (w_addr w + Z.of_nat (w_width w)));
      [by simpl; apply Hmove|]. destruct (negb _); [by simpl; apply Hmove|]. simpl.
    eapply sys_ok_move; [done|exact Ht|done|by left|]. intros _. by split.
  - apply sys_ok_stamp; auto.
  - by apply sys_ok_enqueue.
  - by simpl; apply Hmove.
  - destruct (existsb _ _) eqn:E; [by simpl; apply Hmove|]. eapply sys_ok_move; [done|exact Ht|done| |done].
    right. split; [done|]. intros tid' [= <-]. rewrite <-(queued_iff σ Hok t w _ tid Ht) by done.
    unfold queued. by rewrite E.
  - rewrite atomic_load_in by auto. destruct (negb _); by simpl; apply Hmove.
  - destruct (_ <=? _); by simpl; apply Hmove.
  - by apply sys_ok_leave.
  - by simpl; apply Hmove.
Qed.

(** The timestamps read are only added to. *)
Lemma sys_step_issued σ σ' : sys_step σ σ' → issued σ `sublist_of` issued σ'.
Proof. intros []; simpl; try done. unfold issue. destruct p; [done|by apply sublist_cons|done..]. Qed.

Lemma sys_step_ok σ σ' : sys_ok σ → sys_step σ σ' → NoDup (issued σ') → sys_ok σ'.
Proof.
  intros Hok Hs. revert Hok. destruct Hs; intros Hok Hnd.
  - by apply sys_ok_begin.
  - by apply (sys_ok_mem _ Hok).
  - apply sys_ok_run; [done..|]. intros ->. by apply NoDup_cons in Hnd as [? _].
  - apply (sys_ok_mem _ Hok); [|by apply atomic_store_length].
    unfold atomic_store. by case_match.
  - by apply sys_ok_notify.
Qed.

Lemma sys_steps_issued σ σ' : rtc sys_step σ σ' → issued σ `sublist_of` issued σ'.
Proof. induction 1 as [|σ σ1 σ2 Hs _ IH]; [done|]. by etrans; [apply sys_step_issued|]. Qed.

Lemma reachable_ok s now σ : rtc sys_step (sys_new s now) σ → NoDup (issued σ) → sys_ok σ.
Proof.
  intros Hr. assert (sys_ok (sys_new s now)) as H0.
  { split; simpl; try (intros *; set_solver). constructor. }
  induction Hr as [|σ σ1 σ2 Hs Hr IH]; intros Hnd; [done|]. apply IH; [|done]. eapply sys_step_ok; [done..|].
  eapply sublist_NoDup; [exact Hnd|by apply sys_steps_issued].
Qed.

(** [C14] Waiting and notifying, in any interleaving of any number of waits, stores and
    notifications in which no two waits read the same timestamp as their id: the queue
    holds no duplicates; its ids are exactly those of the waits that have joined it, have not
    returned and were not counted by a [notify] (so nothing is left behind by a wait that
    returned, and only a [notify] takes a wait out early), each at the address of the one
    wait it belongs to; no wait in its loop fails; and its look at the queue answers 0
    exactly when a [notify] counted it, so no wakeup is invented, and one that came before
    the look is seen. *)
Theorem wait_queue_sound s now σ : rtc sys_step (sys_new s now) σ → NoDup (issued σ) →
  NoDup (ids (waiters (mem σ))) ∧
  (∀ tid, tid ∈ ids (waiters (mem σ)) ↔
     (∃ t w p, waits σ !! t = Some (w, p) ∧ tid_of p = Some tid) ∧ (tid ∉ woken σ)) ∧
  (∀ x, x ∈ waiters (mem σ) → ∃ t w p, waits σ !! t = Some (w, p) ∧
     tid_of p = Some (thread_id x) ∧ address x = w_addr w ∧
     ∀ t' w' p', waits σ !! t' = Some (w', p') → tid_of p' = Some (thread_id x) → t' = t) ∧
  (∀ t w p tid, waits σ !! t = Some (w, p) → tid_of p = Some tid →
     ∀ e, (wait_step (clock σ) w p (mem σ)).2 ≠ Returned (Err e)) ∧
  (∀ t w tid start, waits σ !! t = Some (w, PollQueue tid start) →
     (wait_step (clock σ) w (PollQueue tid start) (mem σ)).2 = Returned (Ok 0) ↔ tid ∈ woken σ).
Proof.
  intros Hr Hnd. pose proof (reachable_ok s now σ Hr Hnd) as Hok. split; [apply Hok|]. split_and!.
  - intros tid. split; [|intros [(t & w & p & Ht & Hp) Hw]; by apply (so_tid _ Hok _ _ _ _ Ht Hp)].
    intros Hin. pose proof Hin as (x & Hx & <-)%elem_of_ids.
    destruct (so_owner _ Hok x Hx) as (t & w & p & Ht & Hp & _). split; [by exists t, w, p|].
    by apply (so_tid _ Hok _ _ _ _ Ht Hp).
  - intros x Hx. destruct (so_owner _ Hok x Hx) as (t & w & p & Ht & Hp & Ha). exists t, w, p.
    split_and!; [done..|]. intros t' w' p' Ht' Hp'. eapply (so_unique _ Hok); eauto using tid_id.
  - intros t w p tid Ht Hp e. assert (Hb : in_bounds (w_width w) (w_addr w) (mem σ))
      by (apply (so_bounds _ Hok _ _ _ Ht); by destruct p).
    destruct p; try done; cbn [wait_step]; rewrite ?atomic_load_in by done; by case_match.
  - intros t w tid start Ht. cbn [wait_step]. fold (queued w tid (mem σ)).
    pose proof (queued_iff _ Hok _ _ _ _ Ht eq_refl) as Hq.
    pose proof (so_tid _ Hok _ _ _ _ Ht eq_refl) as Hw.
    destruct (queued w tid (mem σ)); split; try done.
    + intros Hwk. by apply Hw in Hwk; [|apply Hq].
    + intros _. destruct (decide (tid ∈ woken σ)) as [|Hn]; [done|]. apply Hw, Hq in Hn. done.
Qed.

(** ** Runs *)

(** Schedules, executed. *)
Inductive action := Begin (t : Z) (w : Wait) | Tick (now : Z) | Run (t : Z) | Notify (addr count : Z).

Definition act (a : action) (σ : system) : option system :=
  match a with
  | Begin t w =>
      match waits σ !! t with
      | None => if 0 <=? w_addr w then Some
          (mkSys (mem σ) (<[t := (w, Checking)]> (waits σ)) (clock σ) (issued σ) (woken σ)) else None
      | Some _ => None
      end
  | Tick now =>
      if clock σ <=? now then Some (mkSys (mem σ) (waits σ) now (issued σ) (woken σ)) else None
  | Run t =>
      match waits σ !! t with
      | Some (w, p) =>
          let r := wait_step (clock σ) w p (mem σ) in
          Some (mkSys r.1 (<[t := (w, r.2)]> (waits σ)) (clock σ) (issue p (clock σ) (issued σ)) (woken σ))
      | None => None
      end
  | Notify addr count =>
      if 0 <=? count then Some
        (mkSys (notify addr count (mem σ)).1 (waits σ) (clock σ) (issued σ)
          (list_to_set (ids (notified_of addr count (waiters (mem σ)))) ∪ woken σ)) else None
  end.

Lemma act_step a σ σ' : act a σ = Some σ' → sys_step σ σ'.
Proof.
  destruct a as [t w|now|t|addr count]; simpl.
  - destruct (waits σ !! t) eqn:E; [done|]. destruct (Z.leb_spec 0 (w_addr w)); [|done].
    intros [= <-]. by apply sys_begin.
  - destruct (Z.leb_spec (clock σ) now); [|done]. intros [= <-]. by apply sys_tick.
  - destruct (waits σ !! t) as [[w p]|] eqn:E; [|done]. intros [= <-]. by apply sys_run.
  - destruct (Z.leb_spec 0 count); [|done]. intros [= <-]. by apply sys_notify.
Qed.

Fixpoint acts (l : list action) (σ : system) : option system :=
  match l with [] => Some σ | a :: l => match act a σ with Some σ => acts l σ | None => None end end.

Lemma acts_steps l : ∀ σ σ', acts l σ = Some σ' → rtc sys_step σ σ'.
Proof.
  induction l as [|a l IH]; intros σ σ'; simpl; [by intros [= ->]|].
  destruct (act a σ) as [σ1|] eqn:E; [|done]. intros. eapply rtc_l; [by eapply act_step|by apply IH].
Qed.

(** One wait at address 0 for the value 0, with a timeout of 10 ns (20 cycles). *)
Definition sample_wait : Wait := mkWait false 0 0 10.
Definition sample_shared : SharedMemory := mkShared (replicate 16 0) (1, None) [].

(** The wait enqueued at cycle 100, notified once. *)
Definition notified_state : system :=
  mkSys sample_shared {[1 := (sample_wait, PollQueue 100 100)]} 100 [100] {[100]}.

Lemma notified_reachable : rtc sys_step (sys_new sample_shared 100) notified_state.
Proof.
  apply (acts_steps [Begin 1 sample_wait; Run 1; Run 1; Run 1; Run 1; Notify 0 1]). by vm_compute.
Qed.

Lemma wait_queue_sound_witness :
  rtc sys_step (sys_new sample_shared 100) notified_state ∧
  (wait_step 100 sample_wait (PollQueue 100 100) sample_shared).2 = Returned (Ok 0).
Proof.
  split; [exact notified_reachable|].
  apply (proj2 (proj2 (proj2 (proj2 (wait_queue_sound _ _ _ notified_reachable (NoDup_singleton 100))))) 1 sample_wait 100 100);
    [by vm_compute|]. change (woken notified_state) with ({[100]} : gset Z).
  by apply (proj2 (elem_of_singleton (C := gset Z) 100 100)).
Defined.

(** A notification that comes between the look at the queue and the look at the clock is
    counted by [notify] and yet reported as a timeout: the woken wait answers 2. *)
Lemma timeout_swallows_wakeup :
  let σ := mkSys sample_shared {[1 := (sample_wait, Returned (Ok 2))]} 200 [100] {[100]} in
  rtc sys_step (sys_new sample_shared 100) σ ∧ 100 ∈ woken σ.
Proof.
  split; [|by apply (proj2 (elem_of_singleton (C := gset Z) 100 100))].
  apply (acts_steps ([Begin 1 sample_wait] ++ replicate 5 (Run 1) ++ [Notify 0 1; Tick 200]
    ++ replicate 3 (Run 1))). by vm_compute.
Qed.

(** Two waits that read the same timestamp before either joins the queue (on two cores, or
    on a target without a counter) have the same id: [notify] counts one of them and
    neither is woken. *)
Lemma same_timestamp_loses_wakeup : ∃ σ, rtc sys_step (sys_new sample_shared 100) σ ∧
  woken σ = {[100]} ∧
  ∀ t, t = 1 ∨ t = 2 → waits σ !! t = Some (sample_wait, PollQueue 100 100) ∧
    (wait_step (clock σ) sample_wait (PollQueue 100 100) (mem σ)).2 = PollValue 100 100.
Proof.
  eexists. split.
  - apply (acts_steps ([Begin 1 sample_wait; Begin 2 sample_wait; Run 1; Run 2; Run 1; Run 2; Run 1; Run 2;
      Run 1; Run 2; Notify 0 1])). vm_compute. reflexivity.
  - split; [by vm_compute|]. intros t [-> | ->]; by vm_compute.
Qed.

(** A turn of a wait that nothing ends yet, and of one whose value changed. *)
Lemma wait_turn_witness :
  in_bounds 4 0 sample_shared ∧
  (wait_run 4 110 sample_wait (PollQueue 100 100)
     (with_waiters [mkWaiter 0 0 100 false] sample_shared)).2 = PollValue 100 100.
Proof.
  assert (in_bounds 4 0 sample_shared) as Hb by (split; by vm_compute). split; [exact Hb|].
  pose proof (proj1 (wait_turn 110 sample_wait 100 100
    (with_waiters [mkWaiter 0 0 100 false] sample_shared) Hb)) as H.
  apply (f_equal snd) in H. exact H.
Defined.

Lemma atomics_correct_witness :
  in_bounds 4 4 sample_shared ∧
  atomic_load 4 4 (atomic_store 4 4 (-2) sample_shared).1 = Ok (-2).
Proof.
  assert (in_bounds 4 4 sample_shared) as Hb by (split; by vm_compute). split; [exact Hb|].
  destruct (atomics_correct 4 4 (-2) sample_shared) as (_ & H & _);
    [by left|done|by split|by apply H].
Defined.

Lemma rmw_adds_sum_witness :
  atomic_load_i32 4 (foldl (λ s v, (atomic_rmw_add_i32 4 v s).1) sample_shared [3; -5; 2147483647; 4])
  = Ok (i32 2147483649).
Proof.
  apply (rmw_adds_sum 4 0 [3; -5; 2147483647; 4] sample_shared); [split; by vm_compute|by vm_compute].
Defined.

Lemma notify_correct_witness :
  0 ≤ 1 ∧ (notify 0 1 (with_waiters [mkWaiter 8 0 1 false; mkWaiter 0 0 2 false; mkWaiter 0 0 3 false]
             sample_shared)).2 = 1.
Proof.
  assert (0 ≤ 1) as H0 by lia. split; [exact H0|].
  exact (proj1 (notify_correct 0 1 (with_waiters
    [mkWaiter 8 0 1 false; mkWaiter 0 0 2 false; mkWaiter 0 0 3 false] sample_shared) H0)).
Defined.
