(* ===== verification/Elf.v ===== *)
(** * Elf: the ELF parser ([kernel/src/process/elf.rs])

    The parser casts a pointer into the file to a packed header, so a field is the
    little-endian number at its offset. What a crafted file can make the parser do, apart
    from rejecting it, is part of the result: a panic, or a read outside the file. *)

From Stdlib Require Import ZArith Lia String.
From stdpp Require Import list.
From S2P Require Import Prelude.
From S2P Require Import Ids.
From S2P Require Import Bytes.
From S2P Require Import Utf8.

#[local] Open Scope res_scope.

(** ** Data *)

Definition ELF_MAGIC : list Z := [0x7f; 0x45; 0x4c; 0x46].
Definition ELFCLASS64 : Z := 2.
Definition ELFDATA2LSB : Z := 1.
Definition EV_CURRENT : Z := 1.
Definition ELFOSABI_NONE : Z := 0.
Definition ET_EXEC : Z := 2.
Definition ET_DYN : Z := 3.
Definition EM_X86_64 : Z := 62.
Definition PT_LOAD : Z := 1.
Definition PT_INTERP : Z := 3.
Definition PT_PHDR : Z := 6.
Definition PF_X : Z := 1.
Definition PF_W : Z := 2.
Definition PF_R : Z := 4.

Record Elf64Header := mkHeader {
  e_ident : list Z;
  e_type : Z; e_machine : Z; e_version : Z;
  e_entry : Z; e_phoff : Z; e_shoff : Z;
  e_flags : Z; e_ehsize : Z;
  e_phentsize : Z; e_phnum : Z;
  e_shentsize : Z; e_shnum : Z; e_shstrndx : Z
}.

Record Elf64Phdr := mkPhdr {
  p_type : Z; p_flags : Z;
  p_offset : Z; p_vaddr : Z; p_paddr : Z;
  p_filesz : Z; p_memsz : Z; p_align : Z
}.

Inductive ElfError :=
| TooSmall | InvalidMagic | UnsupportedClass | UnsupportedEndian | UnsupportedVersion
| UnsupportedType | UnsupportedMachine | InvalidPhdr | NoLoadableSegments
| SegmentOutOfBounds | OverlappingSegments | InvalidEntryPoint.

(** How code stops short of a result: an error, a panic, or a read through a raw pointer
    beyond the file. *)
Inductive Stop (E : Type) := Fails (e : E) | Panics | OutOfFile.
Arguments Fails {_}.
Arguments Panics {_}.
Arguments OutOfFile {_}.
Abbreviation Halt := (Stop ElfError).

Record MemoryProtection := mkProt { read : bool; write : bool; execute : bool }.

Definition from_flags (flags : Z) : MemoryProtection :=
  mkProt (negb (Z.land flags PF_R =? 0)) (negb (Z.land flags PF_W =? 0))
         (negb (Z.land flags PF_X =? 0)).

Record LoadableSegment := mkSegment {
  vaddr : Z; paddr : Z; file_size : Z; mem_size : Z; file_offset : Z;
  prot : MemoryProtection; align : Z
}.

Record ElfInfo := mkElf {
  entry : Z;
  segments : list LoadableSegment;
  is_pie : bool;
  base_addr : Z;
  top_addr : Z;
  phdr_vaddr : option Z;
  interp : option string
}.

(** ** Parsing *)

(** [n] bytes at an offset, and the number they hold. *)
Definition bytes_at (data : list Z) (off n : nat) : list Z := take n (drop off data).
Definition field (data : list Z) (off n : nat) : Z := from_le_bytes (bytes_at data off n).

Definition read_header (data : list Z) : Elf64Header :=
  mkHeader (bytes_at data 0 16) (field data 16 2) (field data 18 2) (field data 20 4)
    (field data 24 8) (field data 32 8) (field data 40 8) (field data 48 4) (field data 52 2)
    (field data 54 2) (field data 56 2) (field data 58 2) (field data 60 2) (field data 62 2).

Definition read_phdr (data : list Z) (o : nat) : Elf64Phdr :=
  mkPhdr (field data o 4) (field data (o + 4) 4) (field data (o + 8) 8) (field data (o + 16) 8)
    (field data (o + 24) 8) (field data (o + 32) 8) (field data (o + 40) 8) (field data (o + 48) 8).

Definition parse_header (data : list Z) : Result Elf64Header Halt :=
  if decide (length data < 64)%nat then Err (Fails TooSmall)
  else
    let header := read_header data in
    let ident := λ i, nth i (e_ident header) 0 in
    if negb (bool_decide (take 4 (e_ident header) = ELF_MAGIC)) then Err (Fails InvalidMagic)
    else if negb (ident 4%nat =? ELFCLASS64) then Err (Fails UnsupportedClass)
    else if negb (ident 5%nat =? ELFDATA2LSB) then Err (Fails UnsupportedEndian)
    else if negb (ident 6%nat =? EV_CURRENT) then Err (Fails UnsupportedVersion)
    else if negb (e_type header =? ET_EXEC) && negb (e_type header =? ET_DYN)
    then Err (Fails UnsupportedType)
    else if negb (e_machine header =? EM_X86_64) then Err (Fails UnsupportedMachine)
    else Ok header.

(** [&*(data.as_ptr().add(offset) as *const Elf64Phdr)]. *)
Definition phdr_at (data : list Z) (offset : Z) : Result Elf64Phdr Halt :=
  if Z.of_nat (length data) <? offset + 56 then Err OutOfFile
  else Ok (read_phdr data (Z.to_nat offset)).

Fixpoint read_phdrs (data : list Z) (phoff phentsize : Z) (n : nat) (i : Z) :
    Result (list Elf64Phdr) Halt :=
  match n with
  | O => Ok []
  | S n =>
      let? phdr := phdr_at data (u64_add phoff (i * phentsize)) in
      let? phdrs := read_phdrs data phoff phentsize n (i + 1) in
      Ok (phdr :: phdrs)
  end.

Definition parse_program_headers (data : list Z) (header : Elf64Header) :
    Result (list Elf64Phdr) Halt :=
  let phoff := e_phoff header in
  let phentsize := e_phentsize header in
  let phnum := e_phnum header in
  if phentsize <? 56 then Err (Fails InvalidPhdr)
  else
    let phdrs_end := u64_add phoff (phnum * phentsize) in
    if Z.of_nat (length data) <? phdrs_end then Err (Fails InvalidPhdr)
    else read_phdrs data phoff phentsize (Z.to_nat phnum) 0.

Definition sat_add (a b : Z) : Z := Z.min u64_max (a + b).

Definition segment_of (phdr : Elf64Phdr) : LoadableSegment :=
  mkSegment (p_vaddr phdr) (p_paddr phdr) (p_filesz phdr) (p_memsz phdr) (p_offset phdr)
    (from_flags (p_flags phdr)) (p_align phdr).

(** The path in a [PT_INTERP] segment, up to a NUL: [None] leaves [interp] alone. *)
Definition interp_of (data : list Z) (phdr : Elf64Phdr) : Result (option string) Halt :=
  let start := p_offset phdr in
  let end_ := u64_add start (p_filesz phdr) in
  if end_ <=? Z.of_nat (length data) then
    if end_ <? start then Err Panics
    else
      let path_bytes := bytes_at data (Z.to_nat start) (Z.to_nat (end_ - start)) in
      let path_len := default (length path_bytes) (position (Z.eqb 0) path_bytes) in
      Ok (from_utf8 (take path_len path_bytes))
  else Ok None.

(** One program header, on the fields of the result so far. *)
Definition parse_phdr (data : list Z) (phdr : Elf64Phdr) (info : ElfInfo) : Result ElfInfo Halt :=
  if p_type phdr =? PT_LOAD then
    let file_end := sat_add (p_offset phdr) (p_filesz phdr) in
    if Z.of_nat (length data) <? file_end then Err (Fails SegmentOutOfBounds)
    else
      let segment := segment_of phdr in
      let base := if vaddr segment <? base_addr info then vaddr segment else base_addr info in
      let seg_end := sat_add (vaddr segment) (mem_size segment) in
      let top := if top_addr info <? seg_end then seg_end else top_addr info in
      Ok (mkElf (entry info) (segments info ++ [segment]) (is_pie info) base top
            (phdr_vaddr info) (interp info))
  else if p_type phdr =? PT_PHDR then
    Ok (mkElf (entry info) (segments info) (is_pie info) (base_addr info) (top_addr info)
          (Some (p_vaddr phdr)) (interp info))
  else if p_type phdr =? PT_INTERP then
    let? path := interp_of data phdr in
    Ok (mkElf (entry info) (segments info) (is_pie info) (base_addr info) (top_addr info)
          (phdr_vaddr info) (match path with Some p => Some p | None => interp info end))
  else Ok info.

Fixpoint parse_phdrs (data : list Z) (phdrs : list Elf64Phdr) (info : ElfInfo) :
    Result ElfInfo Halt :=
  match phdrs with
  | [] => Ok info
  | phdr :: phdrs => let? info := parse_phdr data phdr info in parse_phdrs data phdrs info
  end.

(** [entry >= seg.vaddr && entry < seg.vaddr.saturating_add(seg.mem_size)]. *)
Definition covers (a : Z) (seg : LoadableSegment) : bool :=
  (vaddr seg <=? a) && (a <? sat_add (vaddr seg) (mem_size seg)).

Definition parse (data : list Z) : Result ElfInfo Halt :=
  let? header := parse_header data in
  let? phdrs := parse_program_headers data header in
  let is_pie := e_type header =? ET_DYN in
  let? info := parse_phdrs data phdrs (mkElf (e_entry header) [] is_pie u64_max 0 None None) in
  if bool_decide (segments info = []) then Err (Fails NoLoadableSegments)
  else if negb (existsb (covers (entry info)) (segments info)) && negb is_pie
  then Err (Fails InvalidEntryPoint)
  else Ok info.

(** [&data[start..end]]: [None] is the panic of the slice. *)
Definition segment_data (data : list Z) (seg : LoadableSegment) : option (list Z) :=
  let start := file_offset seg in
  let end_ := u64_add start (file_size seg) in
  if (start <=? end_) && (end_ <=? Z.of_nat (length data))
  then Some (bytes_at data (Z.to_nat start) (Z.to_nat (end_ - start))) else None.

Definition memory_needed (info : ElfInfo) : Z := u64_sub (top_addr info) (base_addr info).

Definition overlap (seg1 seg2 : LoadableSegment) : bool :=
  let s1_end := u64_add (vaddr seg1) (mem_size seg1) in
  let s2_end := u64_add (vaddr seg2) (mem_size seg2) in
  negb ((s1_end <=? vaddr seg2) || (s2_end <=? vaddr seg1)).

Fixpoint overlapping (segs : list LoadableSegment) : bool :=
  match segs with
  | [] => false
  | seg1 :: segs => existsb (overlap seg1) segs || overlapping segs
  end.

Definition validate_for_exec (info : ElfInfo) : Result unit Halt :=
  if overlapping (segments info) then Err (Fails OverlappingSegments) else Ok tt.

(** ** What the result means *)

Definition loads (phdrs : list Elf64Phdr) : list Elf64Phdr := filter (λ p, p_type p = PT_LOAD) phdrs.
Definition in_file (data : list Z) (p : Elf64Phdr) : bool :=
  sat_add (p_offset p) (p_filesz p) <=? Z.of_nat (length data).
Definition seg_end (s : LoadableSegment) : Z := sat_add (vaddr s) (mem_size s).

(** The last value a header of some type gives. *)
Definition last_of {A} (f : Elf64Phdr → option A) (phdrs : list Elf64Phdr) (d : option A) : option A :=
  foldl (λ acc p, match f p with Some a => Some a | None => acc end) d phdrs.
Definition phdr_vaddr_of (p : Elf64Phdr) : option Z :=
  if p_type p =? PT_PHDR then Some (p_vaddr p) else None.
Definition path_of (data : list Z) (p : Elf64Phdr) : option string :=
  if p_type p =? PT_INTERP then match interp_of data p with Ok r => r | Err _ => None end else None.

(** The fields of the result, one by one. *)
Definition elf_info (data : list Z) (h : Elf64Header) (phdrs : list Elf64Phdr) : ElfInfo :=
  mkElf (e_entry h) (segment_of <$> loads phdrs) (e_type h =? ET_DYN)
    (foldr Z.min u64_max (p_vaddr <$> loads phdrs))
    (foldr Z.max 0 (seg_end <$> (segment_of <$> loads phdrs)))
    (last_of phdr_vaddr_of phdrs None) (last_of (path_of data) phdrs None).

Lemma last_of_cons {A} (f : Elf64Phdr → option A) p phdrs d :
  last_of f (p :: phdrs) d = last_of f phdrs (match f p with Some a => Some a | None => d end).
Proof. done. Qed.

(** No interpreter path with an offset and a size whose sum wraps. *)
Definition interps_ok (phdrs : list Elf64Phdr) : Prop :=
  ∀ p, p ∈ phdrs → p_type p = PT_INTERP → 0 ≤ p_offset p ∧ 0 ≤ p_filesz p ∧
    p_offset p + p_filesz p < 2 ^ 64.

Lemma interp_of_ok data p : 0 ≤ p_offset p → 0 ≤ p_filesz p → p_offset p + p_filesz p < 2 ^ 64 →
  ∃ r, interp_of data p = Ok r.
Proof.
  intros H1 H2 H3. unfold interp_of. rewrite u64_add_small by lia.
  destruct (_ <=? _); [|eauto]. rewrite (proj2 (Z.ltb_ge _ _)) by lia. eauto.
Qed.

Lemma foldr_min_init l : ∀ a b, foldr Z.min (Z.min a b) l = Z.min a (foldr Z.min b l).
Proof. induction l as [|x l IH]; intros a b; simpl; [done|]. rewrite IH. lia. Qed.
Lemma foldr_max_init l : ∀ a b, foldr Z.max (Z.max a b) l = Z.max a (foldr Z.max b l).
Proof. induction l as [|x l IH]; intros a b; simpl; [done|]. rewrite IH. lia. Qed.

Lemma parse_phdrs_spec data phdrs : ∀ e segs pie base top pv ip, interps_ok phdrs →
  parse_phdrs data phdrs (mkElf e segs pie base top pv ip) =
  if forallb (in_file data) (loads phdrs) then
    Ok (mkElf e (segs ++ (segment_of <$> loads phdrs)) pie
         (foldr Z.min base (p_vaddr <$> loads phdrs))
         (foldr Z.max top (seg_end <$> (segment_of <$> loads phdrs)))
         (last_of phdr_vaddr_of phdrs pv) (last_of (path_of data) phdrs ip))
  else Err (Fails SegmentOutOfBounds).
Proof.
  induction phdrs as [|p phdrs IH]; intros e segs pie base top pv ip Hi;
    [simpl; by rewrite app_nil_r|cbn [parse_phdrs]].
  assert (interps_ok phdrs) as Hi' by (intros q Hq; apply Hi; set_solver).
  unfold parse_phdr, loads. rewrite filter_cons, !last_of_cons.
  pose proof (eq_refl (phdr_vaddr_of p)) as Ev. unfold phdr_vaddr_of at 2 in Ev.
  pose proof (eq_refl (path_of data p)) as Ep. unfold path_of at 2 in Ep.
  destruct (Z.eqb_spec (p_type p) PT_LOAD) as [E|E].
  - rewrite decide_True by done. rewrite E in Ev, Ep. cbn in Ev, Ep. rewrite Ev, Ep.
    simpl. unfold in_file at 1.
    rewrite Z.ltb_antisym. destruct (_ <=? _); [|done]. simpl. rewrite IH by done.
    fold (loads phdrs). destruct (forallb _ _); [|done]. rewrite <-app_assoc. simpl.
    do 2 f_equal.
    + rewrite <-foldr_min_init. f_equal. destruct (Z.ltb_spec (p_vaddr p) base); lia.
    + rewrite <-foldr_max_init. f_equal. unfold seg_end. simpl.
      match goal with |- context [?a <? ?b] => destruct (Z.ltb_spec a b) end; lia.
  - rewrite decide_False by done. destruct (Z.eqb_spec (p_type p) PT_PHDR) as [E2|E2].
    + rewrite E2 in Ep. cbn in Ep. rewrite Ev, Ep. simpl. by rewrite IH.
    + rewrite Ev. destruct (Z.eqb_spec (p_type p) PT_INTERP) as [E3|E3];
        [|rewrite Ep; simpl; by rewrite IH].
      destruct (Hi p ltac:(set_solver) E3) as (H1 & H2 & H3).
      destruct (interp_of_ok data p H1 H2 H3) as [r Er]. rewrite Er in Ep |- *. rewrite Ep.
      simpl. by rewrite IH.
Qed.

(** *** Reading the program headers *)

Lemma read_phdrs_spec data phoff phentsize n : ∀ i, 0 ≤ phoff → 0 ≤ phentsize → 0 ≤ i →
  56 ≤ phentsize → phoff + (i + Z.of_nat n) * phentsize ≤ Z.of_nat (length data) →
  Z.of_nat (length data) < 2 ^ 64 →
  read_phdrs data phoff phentsize n i =
    Ok ((λ k, read_phdr data (Z.to_nat (phoff + k * phentsize))) <$> seqZ i (Z.of_nat n)).
Proof.
  induction n as [|n IH]; intros i H1 H2 H3 H4 H5 H6; [done|]. cbn [read_phdrs].
  unfold phdr_at. rewrite u64_add_small by nia. rewrite (proj2 (Z.ltb_ge _ _)) by nia.
  cbn [res_bind]. rewrite IH by nia. cbn [res_bind]. rewrite (seqZ_cons i) by lia.
  rewrite fmap_cons. do 3 f_equal. f_equal. lia.
Qed.

(** Program headers whose table does not wrap are read inside the file. *)
Lemma parse_program_headers_spec data h : Z.of_nat (length data) < 2 ^ 64 →
  0 ≤ e_phoff h → 0 ≤ e_phnum h → 0 ≤ e_phentsize h →
  e_phoff h + e_phnum h * e_phentsize h < 2 ^ 64 →
  parse_program_headers data h =
    if (56 <=? e_phentsize h) && (e_phoff h + e_phnum h * e_phentsize h <=? Z.of_nat (length data))
    then Ok ((λ k, read_phdr data (Z.to_nat (e_phoff h + k * e_phentsize h))) <$> seqZ 0 (e_phnum h))
    else Err (Fails InvalidPhdr).
Proof.
  intros Hl H1 H2 H3 H4. unfold parse_program_headers. rewrite u64_add_small by nia.
  destruct (Z.ltb_spec (e_phentsize h) 56); [by rewrite (proj2 (Z.leb_gt _ _)) by lia|].
  rewrite (proj2 (Z.leb_le 56 _)) by lia. simpl.
  destruct (Z.ltb_spec (Z.of_nat (length data)) (e_phoff h + e_phnum h * e_phentsize h));
    [by rewrite (proj2 (Z.leb_gt _ _)) by lia|].
  rewrite (proj2 (Z.leb_le _ (Z.of_nat (length data)))) by lia.
  rewrite read_phdrs_spec by lia. by rewrite Z2Nat.id.
Qed.

Lemma field_range data off n : Forall is_byte data → is_word (8 * Z.of_nat n) (field data off n).
Proof.
  intros Hb. unfold field, bytes_at. assert (Forall is_byte (take n (drop off data))) as Hb'
    by by apply Forall_take, Forall_drop.
  pose proof (from_le_bytes_range _ Hb') as [H1 H2]. split; [done|].
  eapply Z.lt_le_trans; [exact H2|]. apply Z.pow_le_mono_r; [lia|].
  rewrite length_take. lia.
Qed.

Lemma header_nonneg data h : Forall is_byte data → parse_header data = Ok h →
  0 ≤ e_phoff h ∧ 0 ≤ e_phnum h ∧ 0 ≤ e_phentsize h.
Proof.
  intros Hb. unfold parse_header. repeat case_match; intros; simplify_eq.
  split_and!; by apply field_range.
Qed.

(** The part of [parse] after the headers. *)
Definition check_info (data : list Z) (h : Elf64Header) (phdrs : list Elf64Phdr) : Result ElfInfo Halt :=
  let info := elf_info data h phdrs in
  if negb (forallb (in_file data) (loads phdrs)) then Err (Fails SegmentOutOfBounds)
  else if bool_decide (segments info = []) then Err (Fails NoLoadableSegments)
  else if negb (existsb (covers (entry info)) (segments info)) && negb (is_pie info)
  then Err (Fails InvalidEntryPoint)
  else Ok info.

Lemma parse_spec data h phdrs :
  parse_header data = Ok h → parse_program_headers data h = Ok phdrs → interps_ok phdrs →
  parse data = check_info data h phdrs.
Proof.
  intros Hh Hp Hi. unfold parse. rewrite Hh. cbn [res_bind]. rewrite Hp. cbn [res_bind].
  rewrite parse_phdrs_spec by done. unfold check_info, elf_info.
  destruct (forallb _ _); [|done]. done.
Qed.

(** Parsing an ELF file. When neither the program header table nor an interpreter path
    has an offset and a size whose sum wraps, [parse] never panics or reads outside the
    file, and its answer is: the headers' own error; else [SegmentOutOfBounds] if some
    loadable segment is not inside the file; else [NoLoadableSegments]; else
    [InvalidEntryPoint] unless the entry lies in a segment or the file is position
    independent; else the loadable segments in order, the lowest address, the highest end,
    and the last program header address and interpreter path given. *)
Theorem parse_correct data :
  Z.of_nat (length data) < 2 ^ 64 →
  (∀ h, parse_header data = Ok h → e_phoff h + e_phnum h * e_phentsize h < 2 ^ 64 ∧
     ∀ phdrs, parse_program_headers data h = Ok phdrs → interps_ok phdrs) →
  Forall is_byte data →
  match parse_header data with
  | Err e => (∃ x, e = Fails x) ∧ parse data = Err e
  | Ok h =>
      if (56 <=? e_phentsize h) && (e_phoff h + e_phnum h * e_phentsize h <=? Z.of_nat (length data))
      then parse data = check_info data h
        ((λ k, read_phdr data (Z.to_nat (e_phoff h + k * e_phentsize h))) <$> seqZ 0 (e_phnum h))
      else parse data = Err (Fails InvalidPhdr)
  end.
Proof.
  intros Hl Hw Hb. destruct (parse_header data) as [h|e] eqn:Hh.
  - destruct (Hw h eq_refl) as [Hw1 Hw2]. destruct (header_nonneg data h Hb Hh) as (H1 & H2 & H3).
    pose proof (parse_program_headers_spec data h Hl H1 H2 H3 Hw1) as Hp.
    destruct (_ && _); [by apply parse_spec; [..|apply Hw2]|].
    unfold parse. by rewrite Hh; cbn [res_bind]; rewrite Hp.
  - unfold parse. rewrite Hh. split; [|done]. revert Hh. unfold parse_header.
    repeat case_match; intros; simplify_eq; eauto.
Qed.

(** ** What the loader may rely on *)

Lemma parse_phdrs_Ok data phdrs : ∀ info info', parse_phdrs data phdrs info = Ok info' →
  segments info' = segments info ++ (segment_of <$> loads phdrs) ∧
  (∀ p, p ∈ loads phdrs → in_file data p = true) ∧
  base_addr info' = foldr Z.min (base_addr info) (p_vaddr <$> loads phdrs) ∧
  top_addr info' = foldr Z.max (top_addr info) (seg_end <$> (segment_of <$> loads phdrs)).
Proof.
  induction phdrs as [|p phdrs IH]; intros info info'; cbn [parse_phdrs].
  { intros [= ->]. rewrite app_nil_r. split_and!; [done|intros ? ?%elem_of_nil; done|done..]. }
  unfold loads. rewrite filter_cons. fold (loads phdrs). unfold parse_phdr.
  destruct (Z.eqb_spec (p_type p) PT_LOAD) as [E|E].
  - rewrite decide_True by done.
    destruct (Z.ltb_spec (Z.of_nat (length data)) (sat_add (p_offset p) (p_filesz p))) as [|Hin];
      [done|]. cbn [res_bind].
    intros (H1 & H2 & H3 & H4)%IH. simpl in *. rewrite H1, H3, H4, <-app_assoc. split_and!; [done| | |].
    + intros q [->|Hq]%elem_of_cons; [|eauto]. unfold in_file. by apply Z.leb_le.
    + rewrite <-foldr_min_init. f_equal. destruct (Z.ltb_spec (p_vaddr p) (base_addr info)); lia.
    + rewrite <-foldr_max_init. f_equal. unfold seg_end. simpl.
      match goal with |- context [?a <? ?b] => destruct (Z.ltb_spec a b) end; lia.
  - rewrite decide_False by done. destruct (_ =? _); [cbn [res_bind]; intros H%IH; exact H|].
    destruct (_ =? _); [|cbn [res_bind]; intros H%IH; exact H].
    destruct (interp_of data p) as [r|]; [|done]. cbn [res_bind]. intros H%IH; exact H.
Qed.

Lemma parse_phdrs_entry data phdrs : ∀ info info', parse_phdrs data phdrs info = Ok info' →
  entry info' = entry info ∧ is_pie info' = is_pie info.
Proof.
  induction phdrs as [|p phdrs IH]; intros info info'; cbn [parse_phdrs]; [by intros [= ->]|].
  destruct (parse_phdr data p info) as [info1|] eqn:E; [|done]. cbn [res_bind].
  intros [-> ->]%IH. revert E. unfold parse_phdr, res_bind.
  repeat case_match; intros; simplify_eq; done.
Qed.

Lemma read_phdrs_elem data phoff phentsize n : ∀ i phdrs, read_phdrs data phoff phentsize n i = Ok phdrs →
  ∀ p, p ∈ phdrs → ∃ o, p = read_phdr data o.
Proof.
  induction n as [|n IH]; intros i phdrs; cbn [read_phdrs]; [by intros [= <-] p ?%elem_of_nil|].
  unfold phdr_at. destruct (_ <? _); [done|]. cbn [res_bind].
  destruct (read_phdrs _ _ _ _ _) as [l|] eqn:E; [|done]. intros [= <-] p [->|Hp]%elem_of_cons; eauto.
Qed.

Lemma phdrs_nonneg data h phdrs p : Forall is_byte data → parse_program_headers data h = Ok phdrs →
  p ∈ phdrs → 0 ≤ p_offset p ∧ 0 ≤ p_filesz p ∧ 0 ≤ p_vaddr p ∧ 0 ≤ p_memsz p.
Proof.
  intros Hb. unfold parse_program_headers. destruct (_ <? _); [done|]. destruct (_ <? _); [done|].
  intros Hr Hp. destruct (read_phdrs_elem _ _ _ _ _ _ Hr p Hp) as [o ->].
  split_and!; by apply field_range.
Qed.

Lemma foldr_min_le l x d : x ∈ l → foldr Z.min d l ≤ x.
Proof. induction l as [|y l IH]; simpl; [by intros ?%elem_of_nil|]. intros [->|?%IH]%elem_of_cons; lia. Qed.
Lemma foldr_max_le l x d : x ∈ l → x ≤ foldr Z.max d l.
Proof. induction l as [|y l IH]; simpl; [by intros ?%elem_of_nil|]. intros [->|?%IH]%elem_of_cons; lia. Qed.

Lemma overlapping_false segs : overlapping segs = false →
  ∀ i j s1 s2, (i < j)%nat → segs !! i = Some s1 → segs !! j = Some s2 → overlap s1 s2 = false.
Proof.
  induction segs as [|s segs IH]; intros Ho i j s1 s2 Hij H1 H2; [done|]. simpl in Ho.
  apply orb_false_iff in Ho as [Ho1 Ho2]. destruct i as [|i], j as [|j]; try lia.
  - injection H1 as <-. simpl in H2. destruct (overlap s s2) eqn:E; [|done].
    assert (existsb (overlap s) segs = true) as Hx; [|congruence].
    apply existsb_exists. exists s2. split; [|done].
    apply list_elem_of_In. by eapply list_elem_of_lookup_2.
  - simpl in *. apply (IH Ho2 i j); [lia|done..].
Qed.

Lemma parsed_segments data info :
  Forall is_byte data → Z.of_nat (length data) < u64_max → parse data = Ok info →
  segments info ≠ [] ∧
  (∀ s, s ∈ segments info →
     (∃ bytes, segment_data data s = Some bytes ∧ Z.of_nat (length bytes) = file_size s) ∧
     base_addr info ≤ vaddr s ∧ sat_add (vaddr s) (mem_size s) ≤ top_addr info) ∧
  ((∃ s, s ∈ segments info ∧ vaddr s ≤ entry info < sat_add (vaddr s) (mem_size s)) ∨ is_pie info = true) ∧
  (validate_for_exec info = Ok tt →
     (∀ s, s ∈ segments info → vaddr s + mem_size s < 2 ^ 64) →
     ∀ i j s1 s2 a, segments info !! i = Some s1 → segments info !! j = Some s2 →
       vaddr s1 ≤ a < vaddr s1 + mem_size s1 → vaddr s2 ≤ a < vaddr s2 + mem_size s2 → i = j).
Proof.
  intros Hb Hl. unfold parse. destruct (parse_header data) as [h|] eqn:Hh; [|done]. cbn [res_bind].
  destruct (parse_program_headers data h) as [phdrs|] eqn:Hp; [|done]. cbn [res_bind].
  destruct (parse_phdrs _ _ _) as [info'|] eqn:Hi; [|done]. cbn [res_bind].
  case_bool_decide as Hn; [done|].
  destruct (negb (existsb (covers (entry info')) (segments info')) && _) eqn:Hentry; [done|].
  intros [= <-].
  pose proof (parse_phdrs_entry _ _ _ _ Hi) as [He Hpie]. simpl in He, Hpie.
  apply parse_phdrs_Ok in Hi as (Hsegs & Hin & Hbase & Htop). simpl in Hsegs, Hbase, Htop.
  assert (∀ p, p ∈ phdrs → 0 ≤ p_offset p ∧ 0 ≤ p_filesz p ∧ 0 ≤ p_vaddr p ∧ 0 ≤ p_memsz p) as Hnn
    by (intros p Hpp; by eapply phdrs_nonneg).
  assert (∀ s, s ∈ segments info' → ∃ p, p ∈ loads phdrs ∧ s = segment_of p ∧ p ∈ phdrs) as Hseg.
  { intros s. rewrite Hsegs, list_elem_of_fmap. intros (p & -> & Hpl). exists p. split; [done|].
    split; [done|]. by apply list_elem_of_filter in Hpl as [_ ?]. }
  split; [done|]. split; [|split].
  - intros s Hs. destruct (Hseg s Hs) as (p & Hpl & -> & Hpp).
    destruct (Hnn p Hpp) as (H1 & H2 & H3 & H4). pose proof (Hin p Hpl) as Hf.
    unfold in_file, sat_add in Hf. apply Z.leb_le in Hf. unfold u64_max in *. split.
    + unfold segment_data. simpl. rewrite u64_add_small by lia.
      rewrite (proj2 (Z.leb_le _ (_ + _))), (proj2 (Z.leb_le (_ + _) _)) by lia. simpl.
      eexists. split; [done|]. unfold bytes_at. rewrite length_take, length_drop. lia.
    + rewrite Hbase, Htop. split.
      * apply foldr_min_le. apply list_elem_of_fmap. eauto.
      * apply foldr_max_le. rewrite <-Hsegs. apply list_elem_of_fmap. eauto.
  - rewrite Hpie. destruct (e_type h =? ET_DYN); [by right|left]. rewrite andb_true_r in Hentry.
    apply negb_false_iff, existsb_exists in Hentry as (s & Hs%list_elem_of_In & Hc).
    exists s. split; [done|]. unfold covers in Hc. lia.
  - intros Hv Hw. unfold validate_for_exec in Hv. destruct (overlapping _) eqn:Ho; [done|].
    assert (∀ i j s1 s2 a, (i < j)%nat → segments info' !! i = Some s1 → segments info' !! j = Some s2 →
       vaddr s1 ≤ a < vaddr s1 + mem_size s1 → vaddr s2 ≤ a < vaddr s2 + mem_size s2 → False) as Hlt.
    { intros i j s1 s2 a Hij H1 H2 Ha1 Ha2. pose proof (overlapping_false _ Ho i j s1 s2 Hij H1 H2) as Hno.
      apply list_elem_of_lookup_2 in H1, H2.
      pose proof (Hw _ H1). pose proof (Hw _ H2).
      destruct (Hseg _ H1) as (p1 & _ & -> & [? [? [? ?]]]%Hnn).
      destruct (Hseg _ H2) as (p2 & _ & -> & [? [? [? ?]]]%Hnn). simpl in *.
      unfold overlap in Hno. simpl in Hno. rewrite !u64_add_small in Hno by lia. lia. }
    intros i j s1 s2 a H1 H2 Ha1 Ha2. destruct (Nat.lt_trichotomy i j) as [?|[?|?]]; [|done|];
      exfalso; eauto.
Qed.

(** [C24] What a loader gets from an accepted file (of less than [2^64 - 1] bytes): every
    segment's bytes are inside the file, exactly as many as it says, and its addresses
    lie between the base and the top address; the entry point is in a segment unless the
    file is position independent; and if [validate_for_exec] accepts it too, no address
    belongs to two segments, as long as their ends do not wrap. *)
Theorem parsed_segments_loadable data info :
  Forall is_byte data → Z.of_nat (length data) < u64_max → parse data = Ok info →
  segments info ≠ [] ∧
  (∀ s, s ∈ segments info →
     (∃ bytes, segment_data data s = Some bytes ∧ Z.of_nat (length bytes) = file_size s) ∧
     base_addr info ≤ vaddr s ∧ sat_add (vaddr s) (mem_size s) ≤ top_addr info) ∧
  ((∃ s, s ∈ segments info ∧ vaddr s ≤ entry info < vaddr s + mem_size s) ∨ is_pie info = true) ∧
  (validate_for_exec info = Ok tt →
     (∀ s, s ∈ segments info → vaddr s + mem_size s < 2 ^ 64) →
     ∀ i j s1 s2 a, segments info !! i = Some s1 → segments info !! j = Some s2 →
       vaddr s1 ≤ a < vaddr s1 + mem_size s1 → vaddr s2 ≤ a < vaddr s2 + mem_size s2 → i = j).
Proof.
  intros Hb Hl Hp. destruct (parsed_segments data info Hb Hl Hp) as (H1 & H2 & H3 & H4).
  split_and!; [done..| |done]. destruct H3 as [(s & Hs & Hc)|?]; [left|by right].
  exists s. split; [done|]. unfold sat_add in Hc. lia.
Qed.

(** ** The file format, written *)

Definition enc_header (h : Elf64Header) : list Z :=
  e_ident h ++ to_le_bytes 2 (e_type h) ++ to_le_bytes 2 (e_machine h) ++ to_le_bytes 4 (e_version h)
  ++ to_le_bytes 8 (e_entry h) ++ to_le_bytes 8 (e_phoff h) ++ to_le_bytes 8 (e_shoff h)
  ++ to_le_bytes 4 (e_flags h) ++ to_le_bytes 2 (e_ehsize h) ++ to_le_bytes 2 (e_phentsize h)
  ++ to_le_bytes 2 (e_phnum h) ++ to_le_bytes 2 (e_shentsize h) ++ to_le_bytes 2 (e_shnum h)
  ++ to_le_bytes 2 (e_shstrndx h).

Definition enc_phdr (p : Elf64Phdr) : list Z :=
  to_le_bytes 4 (p_type p) ++ to_le_bytes 4 (p_flags p) ++ to_le_bytes 8 (p_offset p)
  ++ to_le_bytes 8 (p_vaddr p) ++ to_le_bytes 8 (p_paddr p) ++ to_le_bytes 8 (p_filesz p)
  ++ to_le_bytes 8 (p_memsz p) ++ to_le_bytes 8 (p_align p).

(** A file: the header, the program headers right after it, the rest. *)
Definition elf_file (h : Elf64Header) (phdrs : list Elf64Phdr) (rest : list Z) : list Z :=
  enc_header h ++ concat (enc_phdr <$> phdrs) ++ rest.

Definition header_ok (h : Elf64Header) (n : Z) : Prop :=
  (∃ osabi pad, e_ident h = ELF_MAGIC ++ [ELFCLASS64; ELFDATA2LSB; EV_CURRENT; osabi] ++ pad ∧
     length pad = 8%nat) ∧
  (e_type h = ET_EXEC ∨ e_type h = ET_DYN) ∧ e_machine h = EM_X86_64 ∧
  is_word 32 (e_version h) ∧ is_word 64 (e_entry h) ∧ e_phoff h = 64 ∧ is_word 64 (e_shoff h) ∧
  is_word 32 (e_flags h) ∧ is_word 16 (e_ehsize h) ∧ e_phentsize h = 56 ∧ e_phnum h = n ∧
  is_word 16 (e_shentsize h) ∧ is_word 16 (e_shnum h) ∧ is_word 16 (e_shstrndx h).

Definition phdr_ok (p : Elf64Phdr) : Prop :=
  is_word 32 (p_type p) ∧ is_word 32 (p_flags p) ∧ is_word 64 (p_offset p) ∧
  is_word 64 (p_vaddr p) ∧ is_word 64 (p_paddr p) ∧ is_word 64 (p_filesz p) ∧
  is_word 64 (p_memsz p) ∧ is_word 64 (p_align p).

Lemma bytes_at_skip x rest off n : (length x ≤ off)%nat →
  bytes_at (x ++ rest) off n = bytes_at rest (off - length x) n.
Proof. intros H. unfold bytes_at. by rewrite drop_app_ge by lia. Qed.

Lemma bytes_at_here x rest n : length x = n → bytes_at (x ++ rest) 0 n = x.
Proof. intros H. unfold bytes_at. rewrite drop_0. by apply take_app_length'. Qed.

Lemma field_here n v rest : is_word (8 * Z.of_nat n) v →
  field (to_le_bytes n v ++ rest) 0 n = v.
Proof.
  intros Hv. unfold field. rewrite bytes_at_here by apply length_to_le_bytes.
  rewrite from_to_le_bytes. by apply wrap_small.
Qed.

Lemma field_skip n v rest off m : (n ≤ off)%nat →
  field (to_le_bytes n v ++ rest) off m = field rest (off - n) m.
Proof.
  intros H. unfold field. rewrite bytes_at_skip by (by rewrite length_to_le_bytes).
  by rewrite length_to_le_bytes.
Qed.

Lemma field_last n v : is_word (8 * Z.of_nat n) v → field (to_le_bytes n v) 0 n = v.
Proof. intros Hv. rewrite <-(app_nil_r (to_le_bytes n v)). by apply field_here. Qed.

Ltac fields :=
  rewrite ?field_skip by lia; cbn [Nat.sub];
  first [ by apply field_here | by apply field_last ].

Lemma length_enc_phdr p : length (enc_phdr p) = 56%nat.
Proof. unfold enc_phdr. rewrite !length_app, !length_to_le_bytes. done. Qed.

Lemma read_enc_phdr p rest : phdr_ok p → read_phdr (enc_phdr p ++ rest) 0 = p.
Proof.
  intros (H1 & H2 & H3 & H4 & H5 & H6 & H7 & H8). unfold read_phdr, enc_phdr. rewrite <-!app_assoc.
  destruct p as [a b c d e f g h].
  cbn [p_type p_flags p_offset p_vaddr p_paddr p_filesz p_memsz p_align Nat.add] in *. f_equal; fields.
Qed.

Lemma read_phdr_skip x rest o : (length x ≤ o)%nat →
  read_phdr (x ++ rest) o = read_phdr rest (o - length x).
Proof.
  intros H. unfold read_phdr, field. rewrite !bytes_at_skip by lia.
  f_equal; do 2 f_equal; lia.
Qed.

Lemma read_enc_phdrs phdrs : ∀ rest k p, Forall phdr_ok phdrs → phdrs !! k = Some p →
  read_phdr (concat (enc_phdr <$> phdrs) ++ rest) (k * 56) = p.
Proof.
  induction phdrs as [|q phdrs IH]; intros rest k p Hok Hk; [done|].
  apply Forall_cons in Hok as [Hq Hok]. rewrite fmap_cons. cbn [concat]. rewrite <-app_assoc.
  destruct k as [|k]; [injection Hk as <-; by apply read_enc_phdr|].
  rewrite read_phdr_skip by (rewrite length_enc_phdr; lia). rewrite length_enc_phdr.
  replace (S k * 56 - 56)%nat with (k * 56)%nat by lia. by apply IH.
Qed.

Lemma length_enc_header h : length (e_ident h) = 16%nat → length (enc_header h) = 64%nat.
Proof. intros H. unfold enc_header. rewrite !length_app, !length_to_le_bytes, H. done. Qed.

Lemma read_enc_header h n rest : header_ok h n → is_word 16 n → read_header (enc_header h ++ rest) = h.
Proof.
  intros ((osabi & pad & Hid & Hpad) & Hty & Hm & H1 & H2 & H3 & H4 & H5 & H6 & H7 & H8 & H9 & H10 & H11) Hn.
  assert (length (e_ident h) = 16%nat) as Hl by (rewrite Hid, !length_app, Hpad; done).
  assert (is_word 16 (e_type h)) as Hty' by (destruct Hty as [-> | ->]; by split).
  assert (is_word 16 (e_machine h)) as Hm' by (rewrite Hm; by split).
  assert (is_word 64 (e_phoff h)) as H3' by (rewrite H3; by split).
  assert (is_word 16 (e_phentsize h)) as H7' by (rewrite H7; by split).
  assert (is_word 16 (e_phnum h)) as H8' by by rewrite H8.
  unfold read_header, enc_header. rewrite <-!app_assoc. rewrite (bytes_at_here (e_ident h)) by done.
  unfold field. rewrite !(bytes_at_skip (e_ident h)) by lia. rewrite Hl. cbn [Nat.sub].
  repeat match goal with |- context [from_le_bytes (bytes_at ?d ?o ?n)] =>
    change (from_le_bytes (bytes_at d o n)) with (field d o n) end.
  destruct h as [i a b c d e f g j k l m o q].
  cbn [e_ident e_type e_machine e_version e_entry e_phoff e_shoff e_flags e_ehsize e_phentsize
       e_phnum e_shentsize e_shnum e_shstrndx] in *.
  f_equal; fields.
Qed.

(** Parsing inverts the format: of any file made of a well-formed header for this
    machine, its program headers and anything else, [parse_header] returns the header
    and [parse_program_headers] the program headers, every field as written. *)
Theorem elf_roundtrip h phdrs rest :
  header_ok h (Z.of_nat (length phdrs)) → Z.of_nat (length phdrs) < 2 ^ 16 →
  Forall phdr_ok phdrs → Z.of_nat (length (elf_file h phdrs rest)) < 2 ^ 64 →
  parse_header (elf_file h phdrs rest) = Ok h ∧
  parse_program_headers (elf_file h phdrs rest) h = Ok phdrs.
Proof.
  intros Hh Hn Hp Hl. pose proof Hh as ((osabi & pad & Hid & Hpad) & Hty & Hm & _ & _ & Hoff & _ & _ & _ & Hes & Hnum & _).
  assert (length (e_ident h) = 16%nat) as Hl16 by (rewrite Hid, !length_app, Hpad; done).
  pose proof (length_enc_header h Hl16) as Hlh.
  assert (length (concat (enc_phdr <$> phdrs)) = (length phdrs * 56)%nat) as Hlp.
  { clear. induction phdrs as [|p phdrs IH]; [done|]. rewrite fmap_cons. cbn [concat]. rewrite length_app, IH.
    rewrite length_enc_phdr. simpl. lia. }
  assert (length (elf_file h phdrs rest) = (64 + length phdrs * 56 + length rest)%nat) as Hlf.
  { unfold elf_file. rewrite !length_app. lia. }
  split.
  - unfold parse_header. rewrite decide_False by lia.
    assert (read_header (elf_file h phdrs rest) = h) as ->.
    { apply (read_enc_header h _ _ Hh). split; lia. }
    rewrite Hid. rewrite bool_decide_eq_true_2 by done. cbn [negb app nth ELF_MAGIC]. rewrite !Z.eqb_refl.
    cbn [negb]. rewrite Hm, Z.eqb_refl. by destruct Hty as [-> | ->].
  - rewrite parse_program_headers_spec; rewrite ?Hoff, ?Hes, ?Hnum; try lia.
    rewrite (proj2 (Z.leb_le _ _)) by lia. rewrite Hlf.
    rewrite (proj2 (Z.leb_le _ (Z.of_nat (64 + _ + _)))) by lia. simpl andb. cbv iota. f_equal.
    apply list_eq. intros k. rewrite list_lookup_fmap.
    destruct (phdrs !! k) as [p|] eqn:Hk.
    + pose proof (lookup_lt_Some _ _ _ Hk). rewrite lookup_seqZ_lt by lia. simpl. f_equal.
      unfold elf_file. rewrite read_phdr_skip by lia. rewrite Hlh.
      replace (Z.to_nat (64 + (0 + Z.of_nat k) * 56) - 64)%nat with (k * 56)%nat by lia.
      by apply read_enc_phdrs.
    + apply lookup_ge_None in Hk. by rewrite lookup_seqZ_ge by lia.
Qed.

(** *** Concrete files *)

(** A header for [n] program headers, and an executable segment of [n] bytes of the file
    loaded at [0x400000]. *)
Definition sample_header (ty entry phoff n : Z) : Elf64Header :=
  mkHeader (ELF_MAGIC ++ [2; 1; 1; 0; 0; 0; 0; 0; 0; 0; 0; 0]) ty EM_X86_64 1 entry phoff 0 0 64 56 n 0 0 0.
Definition sample_phdr (ty off va filesz memsz : Z) : Elf64Phdr :=
  mkPhdr ty 5 off va va filesz memsz 4096.
Definition sample_phdrs : list Elf64Phdr :=
  [sample_phdr PT_LOAD 176 0x400000 4 16; sample_phdr PT_INTERP 176 0 4 4].
Definition sample_file : list Z :=
  elf_file (sample_header ET_EXEC 0x400004 64 2) sample_phdrs [47; 97; 0; 98].

#[export] Instance is_byte_dec b : Decision (is_byte b).
Proof. unfold is_byte. apply _. Defined.

Lemma bytes_decided l : bool_decide (Forall is_byte l) = true → Forall is_byte l.
Proof. apply bool_decide_eq_true_1. Qed.

Lemma parse_correct_witness :
  parse sample_file = Ok (mkElf 0x400004 [mkSegment 0x400000 0x400000 4 16 176 (mkProt true false true) 4096]
    false 0x400000 0x400010 None (Some "/a"%string)).
Proof.
  assert (∀ h, parse_header sample_file = Ok h → e_phoff h + e_phnum h * e_phentsize h < 2 ^ 64 ∧
     ∀ phdrs, parse_program_headers sample_file h = Ok phdrs → interps_ok phdrs) as Hw.
  { intros h Hh. vm_compute in Hh. injection Hh as <-. split; [done|].
    intros phdrs Hp. vm_compute in Hp. injection Hp as <-.
    intros p Hp Ht. repeat (apply elem_of_cons in Hp as [->|Hp]; [vm_compute in Ht |- *; repeat split; congruence|]).
    by apply elem_of_nil in Hp. }
  pose proof (parse_correct sample_file ltac:(by vm_compute) Hw
    (bytes_decided sample_file eq_refl)) as H.
  vm_compute in H |- *. exact H.
Defined.

Lemma elf_roundtrip_witness :
  parse_header sample_file = Ok (sample_header ET_EXEC 0x400004 64 2) ∧
  parse_program_headers sample_file (sample_header ET_EXEC 0x400004 64 2) = Ok sample_phdrs.
Proof.
  apply (elf_roundtrip (sample_header ET_EXEC 0x400004 64 2) sample_phdrs [47; 97; 0; 98]).
  - split_and!; [|by left|done|by split|by split|done|by split|by split|by split|done|done|by split..].
    exists 0, [0; 0; 0; 0; 0; 0; 0; 0]. done.
  - done.
  - repeat constructor; done.
  - by vm_compute.
Defined.

Lemma parsed_segments_loadable_witness :
  ∃ info s, parse sample_file = Ok info ∧ s ∈ segments info ∧
    segment_data sample_file s = Some [47; 97; 0; 98] ∧ vaddr s ≤ entry info < vaddr s + mem_size s.
Proof.
  destruct (parse sample_file) as [info|] eqn:E; [|by vm_compute in E].
  destruct (parsed_segments_loadable sample_file info (bytes_decided sample_file eq_refl)
    ltac:(by vm_compute) E) as (_ & _ & [(s & Hs & Hc)|Hp] & _);
    vm_compute in E; injection E as <-; [|done].
  eexists _, s. split; [done|]. split; [done|]. split; [|done].
  apply elem_of_cons in Hs as [->|Hs]; [done|by apply elem_of_nil in Hs].
Defined.

(** ** What a crafted file can do *)

(** Program headers at [2^64 - 56], one of them: the end of the table wraps to 0, which is
    inside any file, and the header is read where no file is. *)
Lemma parse_reads_outside_file :
  parse (enc_header (sample_header ET_EXEC 0 (2 ^ 64 - 56) 1)) = Err OutOfFile.
Proof. by vm_compute. Qed.

(** An interpreter path whose offset and size wrap makes the slice panic. *)
Lemma parse_interp_panics :
  parse (elf_file (sample_header ET_EXEC 0 64 1) [sample_phdr PT_INTERP (2 ^ 64 - 1) 0 2 0] [])
    = Err Panics.
Proof. by vm_compute. Qed.

(** Two segments over the same addresses, the end of one wrapping to 0, are no overlap
    for [validate_for_exec]. *)
Lemma validate_misses_overlap : ∃ data info s1 s2,
  parse data = Ok info ∧ validate_for_exec info = Ok tt ∧ segments info = [s1; s2] ∧
  vaddr s1 ≤ vaddr s2 < vaddr s1 + mem_size s1 ∧ mem_size s2 = 16.
Proof.
  exists (elf_file (sample_header ET_EXEC 0x400000 64 2)
    [sample_phdr PT_LOAD 176 0x400000 0 (2 ^ 64 - 0x400000); sample_phdr PT_LOAD 176 0x500000 0 16] []).
  eexists _, _, _. split; [by vm_compute|]. by vm_compute.
Qed.

(** Nothing compares a segment's two sizes: a segment of 16 bytes of the file for 4 bytes
    of memory is accepted. *)
Lemma parse_accepts_oversized_segment : ∃ data info s,
  parse data = Ok info ∧ validate_for_exec info = Ok tt ∧ segments info = [s] ∧
  mem_size s = 4 ∧ file_size s = 16.
Proof.
  exists (elf_file (sample_header ET_EXEC 0x400000 64 1) [sample_phdr PT_LOAD 0 0x400000 16 4] []).
  eexists _, _. split; [by vm_compute|]. by vm_compute.
Qed.
