(* ===== verification/Exec.v ===== *)
(** * Exec: from an ELF file to a process image ([kernel/src/process/exec.rs])

    The initial user stack, the page table, the segment copy, and the jump to ring 3.
    Memory is that of [Mem]; a file the parser gives up on stops [prepare_exec] the way
    it stopped [Elf.parse]. *)

From Stdlib Require Import ZArith Lia String.
From stdpp Require Import list gmap strings.
From S2P Require Import Prelude.
From S2P Require Import Ids.
From S2P Require Import Mem.
From S2P Require Import Frames.
From S2P Require Import Bytes.
From S2P Require Import Utf8.
From S2P Require Import Elf.

#[local] Open Scope res_scope.

Definition DEFAULT_STACK_SIZE : Z := 1024 * 1024.
Definition DEFAULT_STACK_TOP : Z := 0x00007FFFFFFFF000.
Definition PIE_BASE_ADDR : Z := 0x0000000000400000.

Inductive ExecError :=
| ElfErr (e : ElfError) | ExecOutOfMemory | ProcessCreationFailed | PageTableError
| ExecInvalidArgument | FileNotFound | ExecPermissionDenied | NotExecutable | InvalidFormat.

Record ExecContext := mkExec {
  ctx_entry : Z; stack_ptr : Z; ctx_base_addr : Z; ctx_brk : Z; argc : Z; envc : Z
}.

Record MemoryLayout := mkLayout {
  text_start : Z; text_end : Z; data_start : Z; data_end : Z;
  layout_brk : Z; stack_bottom : Z; stack_top : Z
}.

(** ** The initial user stack *)

Record UserStack := mkStack { stk_data : list Z; stk_sp : Z }.

Definition UserStack_new (top : Z) : UserStack := mkStack [] top.

Definition push_bytes (bytes : list Z) (st : UserStack) : UserStack :=
  mkStack (bytes ++ stk_data st) (u64_sub (stk_sp st) (Z.of_nat (length bytes))).

Definition push_u64 (value : Z) (st : UserStack) : UserStack :=
  push_bytes (to_le_bytes 8 value) st.

Definition push_string (s : string) (st : UserStack) : UserStack * Z :=
  let st := push_bytes [0] st in
  let st := push_bytes (bytes_of_string s) st in
  (st, stk_sp st).

Definition stack_align (alignment : Z) (st : UserStack) : UserStack :=
  let misalign := stk_sp st mod alignment in
  if negb (misalign =? 0) then push_bytes (replicate (Z.to_nat misalign) 0) st else st.

(** [strings.iter().map(|s| stack.push_string(s)).collect()]. *)
Fixpoint push_strings (ss : list string) (st : UserStack) : UserStack * list Z :=
  match ss with
  | [] => (st, [])
  | s :: ss =>
      let '(st, addr) := push_string s st in
      let '(st, addrs) := push_strings ss st in
      (st, addr :: addrs)
  end.

Definition push_u64s (vs : list Z) (st : UserStack) : UserStack :=
  foldl (λ st v, push_u64 v st) st vs.

Definition AT_NULL : Z := 0.
Definition AT_PHDR : Z := 3.
Definition AT_PHENT : Z := 4.
Definition AT_PHNUM : Z := 5.
Definition AT_PAGESZ : Z := 6.
Definition AT_BASE : Z := 7.
Definition AT_ENTRY : Z := 9.

Definition build_user_stack (top : Z) (args env : list string) (info : ElfInfo) : Z * list Z :=
  let st := UserStack_new top in
  let '(st, env_addrs) := push_strings env st in
  let '(st, arg_addrs) := push_strings args st in
  let st := stack_align 16 st in
  let st := push_u64 AT_NULL (push_u64 0 st) in
  let st := push_u64 AT_ENTRY (push_u64 (entry info) st) in
  let st := push_u64 AT_PAGESZ (push_u64 4096 st) in
  let st := push_u64 AT_PHNUM (push_u64 (Z.of_nat (length (segments info))) st) in
  let st := push_u64 AT_PHENT (push_u64 56 st) in
  let st := match phdr_vaddr info with Some a => push_u64 AT_PHDR (push_u64 a st) | None => st end in
  let st := match interp info with Some _ => push_u64 AT_BASE (push_u64 0 st) | None => st end in
  let st := push_u64 0 st in
  let st := push_u64s (reverse env_addrs) st in
  let st := push_u64 0 st in
  let st := push_u64s (reverse arg_addrs) st in
  let st := push_u64 (Z.of_nat (length args)) st in
  (stk_sp st, stk_data st).

(** ** Loading *)

(** [elf::parse(elf_data)?], the error converted. *)
Definition lift_elf {A} (r : Result A Halt) : Result A (Stop ExecError) :=
  match r with
  | Ok a => Ok a
  | Err (Fails e) => Err (Fails (ElfErr e))
  | Err Panics => Err Panics
  | Err OutOfFile => Err OutOfFile
  end.

Definition prepare_exec (elf_data : list Z) (args env : list string) :
    Result (ElfInfo * ExecContext * list Z) (Stop ExecError) :=
  let? info := lift_elf (parse elf_data) in
  let? _ := lift_elf (validate_for_exec info) in
  let base := if is_pie info then PIE_BASE_ADDR else base_addr info in
  let ent := if is_pie info then u64_add PIE_BASE_ADDR (entry info) else entry info in
  let brk := if is_pie info then u64_add PIE_BASE_ADDR (top_addr info) else top_addr info in
  let '(ptr, stack_data) := build_user_stack DEFAULT_STACK_TOP args env info in
  Ok (info, mkExec ent ptr base brk (Z.of_nat (length args)) (Z.of_nat (length env)), stack_data).

(** One segment on the four bounds [(text_start, text_end, data_start, data_end)]. *)
Definition layout_segment (base_offset : Z) (b : Z * Z * Z * Z) (seg : LoadableSegment) :
    Z * Z * Z * Z :=
  let '(ts, te, ds, de) := b in
  let start := u64_add (vaddr seg) base_offset in
  let end_ := u64_add start (mem_size seg) in
  if execute (prot seg)
  then (if start <? ts then start else ts, if te <? end_ then end_ else te, ds, de)
  else (ts, te, if start <? ds then start else ds, if de <? end_ then end_ else de).

Definition calculate_layout (info : ElfInfo) (base_offset : Z) : MemoryLayout :=
  let '(ts, te, ds, de) := foldl (layout_segment base_offset) (u64_max, 0, u64_max, 0) (segments info) in
  mkLayout ts te ds de de (DEFAULT_STACK_TOP - DEFAULT_STACK_SIZE) DEFAULT_STACK_TOP.

(** [core::ptr::write_bytes(a, 0, n)]. *)
Definition zero_bytes (a : Z) (n : nat) (m : memory) : memory := store_bytes a (replicate n 0) m.

(** [None] is the panic of [segment_data]. *)
Definition copy_segment (elf_data : list Z) (seg : LoadableSegment) (dest : Z) (m : memory) :
    option memory :=
  src ← segment_data elf_data seg;
  let m := store_bytes dest src m in
  Some (if file_size seg <? mem_size seg
        then zero_bytes (u64_add dest (file_size seg)) (Z.to_nat (mem_size seg - file_size seg)) m
        else m).

(** ** The page table of a new process *)

(** [for i in 256..512]: [n] entries left, from entry [i]. *)
Fixpoint copy_entries (n : nat) (i kernel_pml4 user_pml4 : Z) (m : memory) : memory :=
  match n with
  | O => m
  | S n =>
      copy_entries n (i + 1) kernel_pml4 user_pml4
        (store64 (user_pml4 + 8 * i) (load64 m (kernel_pml4 + 8 * i)) m)
  end.

Definition allocate_user_page_table (kernel_cr3 : Z) :
    op (FrameAllocator * memory) ExecError Z := λ '(fa, m),
  match allocate fa with
  | (fa, Err _) => ((fa, m), Err ExecOutOfMemory)
  | (fa, Ok pml4_frame) =>
      let pml4_addr := address pml4_frame in
      let m := zero_bytes pml4_addr (Z.to_nat PAGE_SIZE) m in
      let kernel_pml4 := Z.land kernel_cr3 (u64_not 0xFFF) in
      ((fa, copy_entries 256 256 kernel_pml4 pml4_addr m), Ok pml4_addr)
  end.

(** ** A test binary *)

Definition create_test_elf : list Z :=
  let code := [0xeb; 0xfe] in
  let filesz := 64 + 56 + Z.of_nat (length code) in
  ELF_MAGIC ++ [ELFCLASS64] ++ [ELFDATA2LSB] ++ [EV_CURRENT] ++ [ELFOSABI_NONE] ++ replicate 8 0
  ++ to_le_bytes 2 ET_EXEC ++ to_le_bytes 2 EM_X86_64 ++ to_le_bytes 4 1
  ++ to_le_bytes 8 (0x400000 + 64 + 56) ++ to_le_bytes 8 64 ++ to_le_bytes 8 0 ++ to_le_bytes 4 0
  ++ to_le_bytes 2 64 ++ to_le_bytes 2 56 ++ to_le_bytes 2 1 ++ to_le_bytes 2 64 ++ to_le_bytes 2 0
  ++ to_le_bytes 2 0
  ++ to_le_bytes 4 PT_LOAD ++ to_le_bytes 4 (Z.lor PF_R PF_X) ++ to_le_bytes 8 0
  ++ to_le_bytes 8 0x400000 ++ to_le_bytes 8 0x400000 ++ to_le_bytes 8 filesz
  ++ to_le_bytes 8 filesz ++ to_le_bytes 8 0x1000
  ++ code.

(** ** What the stack is *)

(** A stack built below [top], with nothing wrapped. *)
Definition stack_ok (top : Z) (st : UserStack) : Prop :=
  stk_sp st + Z.of_nat (length (stk_data st)) = top ∧ 0 ≤ stk_sp st ∧ top < 2 ^ 64.

(** Bytes [bs] at address [a]. *)
Definition holds (st : UserStack) (a : Z) (bs : list Z) : Prop :=
  ∃ pre post, stk_data st = pre ++ bs ++ post ∧ a = stk_sp st + Z.of_nat (length pre).

(** A NUL-terminated string. *)
Definition cstring (s : string) : list Z := bytes_of_string s ++ [0].

Lemma push_bytes_ok top bs st : stack_ok top st → Z.of_nat (length bs) ≤ stk_sp st →
  stack_ok top (push_bytes bs st) ∧ stk_sp (push_bytes bs st) = stk_sp st - Z.of_nat (length bs).
Proof.
  intros (H1 & H2 & H3) Hl. unfold stack_ok, push_bytes. simpl. rewrite u64_sub_small by lia.
  rewrite length_app. lia.
Qed.

Lemma push_bytes_holds top bs st a x : stack_ok top st → Z.of_nat (length bs) ≤ stk_sp st →
  holds st a x → holds (push_bytes bs st) a x.
Proof.
  intros Hok Hl (pre & post & Hd & Ha). destruct (push_bytes_ok top bs st Hok Hl) as [_ Hsp].
  exists (bs ++ pre), post. rewrite Hsp, length_app. split; [|lia].
  cbn [push_bytes stk_data]. by rewrite Hd, <-app_assoc.
Qed.

Lemma push_bytes_here bs st : holds (push_bytes bs st) (stk_sp (push_bytes bs st)) bs.
Proof. exists [], (stk_data st). split; [done|]. simpl. lia. Qed.

(** [st'] is [st] with [n] more bytes. *)
Definition grown (top n : Z) (st st' : UserStack) : Prop :=
  stack_ok top st' ∧ stk_sp st' = stk_sp st - n ∧ ∀ a x, holds st a x → holds st' a x.

Lemma grown_push top bs st : stack_ok top st → Z.of_nat (length bs) ≤ stk_sp st →
  grown top (Z.of_nat (length bs)) st (push_bytes bs st).
Proof.
  intros Hok Hl. destruct (push_bytes_ok top bs st Hok Hl) as [H1 H2].
  split_and!; [done..|]. intros a x. by eapply push_bytes_holds.
Qed.

Lemma grown_trans top n1 n2 st st1 st2 :
  grown top n1 st st1 → grown top n2 st1 st2 → grown top (n1 + n2) st st2.
Proof. intros (H1 & H2 & H3) (H4 & H5 & H6). split_and!; [done|lia|eauto]. Qed.

Lemma length_bytes_of_string s : length (bytes_of_string s) = String.length s.
Proof.
  unfold bytes_of_string. rewrite length_fmap. induction s as [|c s IH]; [done|].
  simpl. by rewrite IH.
Qed.

Definition str_size (s : string) : Z := Z.of_nat (String.length s) + 1.

Lemma push_string_ok top s st : stack_ok top st → str_size s ≤ stk_sp st →
  grown top (str_size s) st (push_string s st).1 ∧
  holds (push_string s st).1 (push_string s st).2 (cstring s).
Proof.
  intros Hok Hl. unfold push_string, str_size in *. cbn [fst snd].
  pose proof (grown_push top [0] st Hok ltac:(simpl; lia)) as Hg. pose proof Hg as (Hok1 & Hsp & _).
  cbn [length] in Hsp, Hg.
  pose proof (grown_push top (bytes_of_string s) _ Hok1) as Hg2. rewrite length_bytes_of_string in Hg2.
  specialize (Hg2 ltac:(lia)). split.
  - pose proof (grown_trans _ _ _ _ _ _ Hg Hg2) as Ht. by rewrite Z.add_comm.
  - exists [], (stk_data st). split; [|simpl; lia]. cbn [push_bytes stk_data app]. unfold cstring.
    by rewrite <-app_assoc.
Qed.

Definition strs_size (ss : list string) : Z := foldr (λ s n, str_size s + n) 0 ss.

Lemma strs_size_nonneg ss : 0 ≤ strs_size ss.
Proof. induction ss as [|s ss IH]; simpl; unfold str_size in *; lia. Qed.

Lemma push_strings_ok top ss : ∀ st st' addrs, stack_ok top st → strs_size ss ≤ stk_sp st →
  push_strings ss st = (st', addrs) →
  grown top (strs_size ss) st st' ∧ length addrs = length ss ∧ Forall is_u64 addrs ∧
  ∀ i s a, ss !! i = Some s → addrs !! i = Some a → holds st' a (cstring s).
Proof.
  induction ss as [|s ss IH]; intros st st' addrs Hok Hl; cbn [push_strings].
  { intros [= <- <-]. split_and!; [|done|done|done]. split_and!; [done|simpl; lia|done]. }
  pose proof (strs_size_nonneg ss). simpl strs_size in Hl |- *.
  destruct (push_string_ok top s st Hok ltac:(lia)) as [Hg Hh].
  destruct (push_string s st) as [st1 addr] eqn:E1. cbn [fst snd] in *.
  destruct (push_strings ss st1) as [st2 addrs2] eqn:E2. intros [= <- <-].
  pose proof Hg as (Hok1 & Hsp & _).
  destruct (IH st1 st2 addrs2 Hok1 ltac:(lia) E2) as (Hg2 & Hlen & Hu & Hall).
  split_and!; [by eapply grown_trans|simpl; by rewrite Hlen| |].
  - constructor; [|done]. destruct Hh as (pre & post & Hd & ->). destruct Hok1 as (Hs1 & Hs2 & Hs3).
    rewrite Hd, !length_app in Hs1. unfold is_u64. lia.
  - intros [|i] s' a Hs Ha; simplify_eq/=; [|by eapply Hall]. destruct Hg2 as (_ & _ & Hk). by apply Hk.
Qed.

Lemma stack_align_ok top st : stack_ok top st → ∃ n, 0 ≤ n < 16 ∧ grown top n st (stack_align 16 st) ∧
  stk_sp (stack_align 16 st) mod 16 = 0.
Proof.
  intros Hok. pose proof Hok as (H1 & H2 & H3). unfold stack_align.
  pose proof (Z.mod_pos_bound (stk_sp st) 16 ltac:(lia)) as Hm.
  destruct (Z.eqb_spec (stk_sp st mod 16) 0) as [E|E]; simpl negb; cbv iota.
  - exists 0. split; [lia|]. split; [|done]. split_and!; [done|lia|done].
  - assert (stk_sp st mod 16 ≤ stk_sp st) by (apply Z.mod_le; lia).
    pose proof (grown_push top (replicate (Z.to_nat (stk_sp st mod 16)) 0) st Hok) as Hg.
    rewrite length_replicate, Z2Nat.id in Hg by lia. specialize (Hg ltac:(lia)).
    exists (stk_sp st mod 16). split; [lia|]. split; [done|]. destruct Hg as (_ & -> & _).
    rewrite Zminus_mod_idemp_r, Z.sub_diag. done.
Qed.

Definition words (vs : list Z) : list Z := concat (to_le_bytes 8 <$> vs).

Lemma words_app l1 l2 : words (l1 ++ l2) = words l1 ++ words l2.
Proof. unfold words. by rewrite fmap_app, concat_app. Qed.

Lemma length_words vs : length (words vs) = (8 * length vs)%nat.
Proof.
  unfold words. induction vs as [|v vs IH]; [done|]. rewrite fmap_cons. cbn [concat].
  rewrite length_app, length_to_le_bytes, IH. simpl. lia.
Qed.

(** Pushing words lays them out in reverse. *)
Lemma push_u64s_ok top vs : ∀ st, stack_ok top st → 8 * Z.of_nat (length vs) ≤ stk_sp st →
  grown top (8 * Z.of_nat (length vs)) st (push_u64s vs st) ∧
  stk_data (push_u64s vs st) = words (reverse vs) ++ stk_data st.
Proof.
  induction vs as [|v vs IH]; intros st Hok Hl.
  { split; [|done]. split_and!; [done|simpl; lia|done]. }
  simpl length in *. change (push_u64s (v :: vs) st) with (push_u64s vs (push_u64 v st)).
  pose proof (grown_push top (to_le_bytes 8 v) st Hok) as Hg. rewrite length_to_le_bytes in Hg.
  specialize (Hg ltac:(lia)). pose proof Hg as (Hok1 & Hsp & _).
  destruct (IH (push_u64 v st) Hok1) as [Hg2 Hd]; [unfold push_u64; lia|]. split.
  - pose proof (grown_trans _ _ _ _ _ _ Hg Hg2) as Ht.
    by replace (8 * Z.of_nat (S (length vs))) with (Z.of_nat 8 + 8 * Z.of_nat (length vs)) by lia.
  - rewrite Hd, reverse_cons, words_app, <-app_assoc. f_equal.
Qed.

Lemma push_u64s_app l1 l2 st : push_u64s (l1 ++ l2) st = push_u64s l2 (push_u64s l1 st).
Proof. apply foldl_app. Qed.

(** ** The stack a program starts with *)

(** The auxiliary vector. *)
Definition auxv (info : ElfInfo) : list (Z * Z) :=
  (match interp info with Some _ => [(AT_BASE, 0)] | None => [] end)
  ++ (match phdr_vaddr info with Some a => [(AT_PHDR, a)] | None => [] end)
  ++ [(AT_PHENT, 56); (AT_PHNUM, Z.of_nat (length (segments info))); (AT_PAGESZ, 4096);
      (AT_ENTRY, entry info); (AT_NULL, 0)].

Definition aux_words (info : ElfInfo) : list Z := '(k, v) ← auxv info; [k; v].

(** The words from the stack pointer up. *)
Definition start_words (argv envp : list Z) (info : ElfInfo) : list Z :=
  [Z.of_nat (length argv)] ++ argv ++ [0] ++ envp ++ [0] ++ aux_words info.

(** Room for everything the stack holds, padding included. *)
Definition stack_size (args env : list string) : Z :=
  strs_size args + strs_size env + 16 + 8 * (17 + Z.of_nat (length args) + Z.of_nat (length env)).

Lemma build_user_stack_spec top args env info : 0 ≤ top < 2 ^ 64 → stack_size args env ≤ top →
  ∃ st argv envp, build_user_stack top args env info = (stk_sp st, stk_data st) ∧
    stack_ok top st ∧ top - stack_size args env ≤ stk_sp st ∧
    stk_sp st mod 16 = (8 * (Z.of_nat (length args) + Z.of_nat (length env) + 1)) mod 16 ∧
    (∃ rest, stk_data st = words (start_words argv envp info) ++ rest) ∧
    length argv = length args ∧ length envp = length env ∧ Forall is_u64 argv ∧ Forall is_u64 envp ∧
    (∀ i s a, args !! i = Some s → argv !! i = Some a → holds st a (cstring s)) ∧
    (∀ i s a, env !! i = Some s → envp !! i = Some a → holds st a (cstring s)).
Proof.
  intros Ht Hs. unfold stack_size in *. pose proof (strs_size_nonneg args). pose proof (strs_size_nonneg env).
  assert (stack_ok top (UserStack_new top)) as Hok0 by (split_and!; simpl; lia).
  unfold build_user_stack. destruct (push_strings env _) as [st1 envp] eqn:E1.
  destruct (push_strings_ok top env _ _ _ Hok0 ltac:(simpl; lia) E1) as (Hg1 & Hl1 & Hu1 & Hh1).
  pose proof Hg1 as (Hok1 & Hsp1 & _). simpl in Hsp1.
  destruct (push_strings args st1) as [st2 argv] eqn:E2.
  destruct (push_strings_ok top args _ _ _ Hok1 ltac:(lia) E2) as (Hg2 & Hl2 & Hu2 & Hh2).
  pose proof Hg2 as (Hok2 & Hsp2 & _).
  destruct (stack_align_ok top st2 Hok2) as (n & Hn & Hg3 & Hal). pose proof Hg3 as (Hok3 & Hsp3 & _).
  set (st3 := stack_align 16 st2) in *.
  set (ws := start_words argv envp info).
  assert (8 * Z.of_nat (length ws) ≤ stk_sp st3 ∧ (8 * Z.of_nat (length ws)) mod 16
    = (8 * (Z.of_nat (length args) + Z.of_nat (length env) + 1)) mod 16 ∧
    Z.of_nat (length ws) ≤ 17 + Z.of_nat (length args) + Z.of_nat (length env)) as (Hw1 & Hw2 & Hw3).
  { assert (∃ k, (k < 3)%nat ∧ length (aux_words info) = (10 + 2 * k)%nat) as (k & Hk & Hlk).
    { unfold aux_words, auxv. destruct (interp info), (phdr_vaddr info); simpl;
        [exists 2%nat|exists 1%nat|exists 1%nat|exists 0%nat]; split; lia. }
    unfold ws, start_words. rewrite !length_app, Hlk. simpl length. split; [lia|]. split; [|lia].
    rewrite Hl1, Hl2.
    replace (8 * Z.of_nat (1 + (length args + (1 + (length env + (1 + (10 + 2 * k)))))))
      with (8 * (Z.of_nat (length args) + Z.of_nat (length env) + 1) + (6 + Z.of_nat k) * 16) by lia.
    apply Z_mod_plus_full. }
  destruct (push_u64s_ok top (reverse ws) st3 Hok3) as [Hg4 Hd]; [rewrite length_reverse; lia|].
  rewrite reverse_involutive in Hd. rewrite length_reverse in Hg4. pose proof Hg4 as (Hok4 & Hsp4 & Hk4).
  exists (push_u64s (reverse ws) st3), argv, envp. split_and!; try done.
  - unfold ws, start_words, aux_words, auxv. rewrite !reverse_app, !push_u64s_app, <-Hl2.
    destruct (interp info), (phdr_vaddr info); reflexivity.
  - lia.
  - rewrite Hsp4, Zminus_mod, Hal, Hw2. rewrite Z.sub_0_l.
    pose proof (Z.mod_pos_bound (8 * (Z.of_nat (length args) + Z.of_nat (length env) + 1)) 16).
    set (j := Z.of_nat (length args) + Z.of_nat (length env) + 1) in *.
    destruct (Z.Even_or_Odd j) as [[q ->]|[q ->]].
    + replace (8 * (2 * q)) with (q * 16) by lia. by rewrite Z_mod_mult.
    + replace (8 * (2 * q + 1)) with (8 + q * 16) by lia. by rewrite Z_mod_plus_full.
  - eauto.
  - intros i s a Ha Hi. apply Hk4. destruct Hg3 as (_ & _ & Hk3). apply Hk3. by eapply Hh2.
  - intros i s a Ha Hi. apply Hk4. destruct Hg3 as (_ & _ & Hk3). apply Hk3.
    destruct Hg2 as (_ & _ & Hk2). apply Hk2. by eapply Hh1.
Qed.

Lemma load_bytes_mid a pre mid post m :
  load_bytes (length mid) (store_bytes a (pre ++ mid ++ post) m) (a + Z.of_nat (length pre)) = mid.
Proof.
  etrans; [|exact (load_bytes_store mid (a + Z.of_nat (length pre)) m)].
  apply load_bytes_ext. intros x Hx. rewrite !load8_store_bytes, !length_app.
  rewrite !decide_True by lia. rewrite app_nth2 by lia. rewrite app_nth1 by lia. f_equal. lia.
Qed.

Lemma load64_words vs i v a rest m : vs !! i = Some v → is_u64 v →
  load64 (store_bytes a (words vs ++ rest) m) (a + 8 * Z.of_nat i) = v.
Proof.
  intros Hi Hv. rewrite <-(take_drop_middle vs i v Hi). change (v :: ?l) with ([v] ++ l).
  pose proof (lookup_lt_Some _ _ _ Hi).
  rewrite !words_app, <-!app_assoc. change (words [v]) with (to_le_bytes 8 v ++ []).
  rewrite app_nil_r. pose proof (load_bytes_mid a (words (take i vs)) (to_le_bytes 8 v)
    (words (drop (S i) vs) ++ rest) m) as H1.
  rewrite length_words, length_take, length_to_le_bytes in H1.
  replace (Z.of_nat (8 * (i `min` length vs))) with (8 * Z.of_nat i) in H1 by lia.
  unfold load64. rewrite H1, from_to_le_bytes. by apply Z.mod_small.
Qed.

(** [C18] The initial stack of a program. Below a top address with room for it,
    [build_user_stack] returns a stack pointer and bytes that reach exactly to the top;
    loaded there, memory at the stack pointer reads the argument count, one pointer per
    argument, a NULL, one pointer per environment string, a NULL and the auxiliary
    vector; and every pointer points to its string, NUL-terminated. The stack pointer is
    a multiple of 16 exactly when the arguments and environment strings are odd in
    number, and a multiple of 8 always. *)
Theorem user_stack_correct top args env info m sp data :
  0 ≤ top < 2 ^ 64 → stack_size args env ≤ top → is_u64 (entry info) →
  (∀ a, phdr_vaddr info = Some a → is_u64 a) → Z.of_nat (length (segments info)) < 2 ^ 64 →
  build_user_stack top args env info = (sp, data) →
  let m' := store_bytes sp data m in
  0 ≤ sp ∧ sp + Z.of_nat (length data) = top ∧
  (∃ argv envp, length argv = length args ∧ length envp = length env ∧
    (∀ i w, start_words argv envp info !! i = Some w → load64 m' (sp + 8 * Z.of_nat i) = w) ∧
    (∀ i s a, args !! i = Some s → argv !! i = Some a →
       load_bytes (S (String.length s)) m' a = cstring s ∧ sp ≤ a < top) ∧
    (∀ i s a, env !! i = Some s → envp !! i = Some a →
       load_bytes (S (String.length s)) m' a = cstring s ∧ sp ≤ a < top)) ∧
  sp mod 16 = (if Nat.odd (length args + length env) then 0 else 8).
Proof.
  intros Ht Hs He Hp Hn Hb m'.
  destruct (build_user_stack_spec top args env info Ht Hs)
    as (st & argv & envp & Hb' & (Hok1 & Hok2 & Hok3) & Hsp & Hal & (rest & Hd) & Hla & Hle & Hua & Hue & Hha & Hhe).
  rewrite Hb in Hb'. injection Hb' as -> ->.
  assert (∀ a s, holds st a (cstring s) →
    load_bytes (S (String.length s)) m' a = cstring s ∧ stk_sp st ≤ a < top) as Hstr.
  { intros a s (pre & post & Hdat & ->). assert (S (String.length s) = length (cstring s)) as Hl.
    { unfold cstring. rewrite length_app, length_bytes_of_string. simpl. lia. }
    unfold m'. rewrite Hl, Hdat, load_bytes_mid. rewrite Hdat, !length_app in Hok1. split; [done|lia]. }
  split; [done|]. split; [done|]. split.
  - exists argv, envp. split_and!; [done|done| |eauto..].
    intros i w Hi. unfold m'. rewrite Hd. apply load64_words; [done|].
    assert (Forall is_u64 (start_words argv envp info)) as Hall; [|by eapply Forall_lookup_1].
    pose proof (strs_size_nonneg args). pose proof (strs_size_nonneg env).
    unfold stack_size in Hs.
    unfold start_words, aux_words, auxv. repeat (apply Forall_app; split); try done.
    + constructor; [|done]. unfold is_u64. lia.
    + by constructor.
    + by constructor.
    + destruct (interp info), (phdr_vaddr info) as [v|] eqn:Ev; simpl;
        repeat (constructor; try done); unfold is_u64 in *; try lia; by apply Hp.
  - rewrite Hal, <-Nat.negb_even.
    set (j := (length args + length env)%nat).
    replace (Z.of_nat (length args) + Z.of_nat (length env) + 1) with (Z.of_nat (S j)) by lia.
    destruct (Nat.even j) eqn:E; simpl.
    + apply Nat.even_spec in E as [q Hq]. replace (8 * Z.of_nat (S j)) with (8 + Z.of_nat q * 16) by lia.
      by rewrite Z_mod_plus_full.
    + assert (Nat.odd j = true) as Ho by (rewrite <-Nat.negb_even, E; done).
      apply Nat.odd_spec in Ho as [q Hq].
      replace (8 * Z.of_nat (S j)) with ((Z.of_nat q + 1) * 16) by lia. by rewrite Z_mod_mult.
Qed.

Definition sample_info : ElfInfo := mkElf 0x400004 [] false 0x400000 0x400010 None None.

Lemma user_stack_correct_witness : ∃ (sp : Z) (data argv envp : list Z),
  build_user_stack DEFAULT_STACK_TOP ["ls"%string; "-l"%string] ["A=b"%string] sample_info = (sp, data) ∧
  length argv = 2%nat ∧ length envp = 1%nat ∧ sp mod 16 = 0 ∧
  load64 (store_bytes sp data ∅) sp = 2.
Proof.
  pose proof (λ sp data, user_stack_correct DEFAULT_STACK_TOP ["ls"%string; "-l"%string] ["A=b"%string]
    sample_info ∅ sp data ltac:(by split) ltac:(by vm_compute) ltac:(by split)
    ltac:(discriminate) ltac:(reflexivity)) as H.
  revert H. generalize (build_user_stack DEFAULT_STACK_TOP ["ls"%string; "-l"%string] ["A=b"%string] sample_info).
  intros [sp data] H. destruct (H sp data eq_refl) as (_ & _ & (argv & envp & Hla & Hle & Hw & _) & Hal).
  exists sp, data, argv, envp. split; [reflexivity|]. split; [exact Hla|]. split; [exact Hle|].
  split; [exact Hal|].
  pose proof (Hw O _ eq_refl) as H0. rewrite Hla, Z.add_0_r in H0. exact H0.
Defined.

(** ** Copying a segment *)

Lemma nth_zeros n k : nth k (replicate n 0) 0 = 0.
Proof. revert k. induction n as [|n IH]; intros [|k]; simpl; auto. Qed.

Lemma load8_zero_bytes a n m x :
  load8 (zero_bytes a n m) x = if decide (a ≤ x < a + Z.of_nat n) then 0 else load8 m x.
Proof.
  unfold zero_bytes. rewrite load8_store_bytes, length_replicate. case_decide; [|done].
  apply nth_zeros.
Qed.

(** Loading a segment: for one that lies inside the file and whose memory size is at
    least its file size, the destination holds the segment's bytes of the file, then
    zeros up to the memory size, and nothing outside those [mem_size] bytes changed. *)
Theorem copy_segment_correct elf_data seg dest m :
  0 ≤ file_offset seg → 0 ≤ file_size seg ≤ mem_size seg →
  file_offset seg + file_size seg ≤ Z.of_nat (length elf_data) < 2 ^ 64 →
  0 ≤ dest → dest + mem_size seg < 2 ^ 64 →
  ∃ m', copy_segment elf_data seg dest m = Some m' ∧
    load_bytes (Z.to_nat (file_size seg)) m' dest
      = bytes_at elf_data (Z.to_nat (file_offset seg)) (Z.to_nat (file_size seg)) ∧
    (∀ x, dest + file_size seg ≤ x < dest + mem_size seg → load8 m' x = 0) ∧
    (∀ x, x < dest ∨ dest + mem_size seg ≤ x → load8 m' x = load8 m x).
Proof.
  intros H1 H2 H3 H4 H5. unfold copy_segment, segment_data. cbv zeta. rewrite (u64_add_small (file_offset seg)) by lia.
  rewrite (proj2 (Z.leb_le _ (_ + _))), (proj2 (Z.leb_le (_ + _) _)) by lia. simpl andb. cbv iota.
  replace (file_offset seg + file_size seg - file_offset seg) with (file_size seg) by lia.
  set (src := bytes_at elf_data _ _).
  assert (Z.of_nat (length src) = file_size seg) as Hl.
  { unfold src, bytes_at. rewrite length_take, length_drop. lia. }
  eexists. split; [reflexivity|].
  assert (∀ x, load8 (if file_size seg <? mem_size seg
      then zero_bytes (u64_add dest (file_size seg)) (Z.to_nat (mem_size seg - file_size seg))
             (store_bytes dest src m) else store_bytes dest src m) x =
    if decide (dest + file_size seg ≤ x < dest + mem_size seg) then 0
    else load8 (store_bytes dest src m) x) as Hx.
  { intros x. destruct (Z.ltb_spec (file_size seg) (mem_size seg)).
    - rewrite u64_add_small by lia. rewrite load8_zero_bytes. rewrite Z2Nat.id by lia.
      repeat case_decide; done || lia.
    - by rewrite decide_False by lia. }
  split_and!.
  - etrans; [|exact (load_bytes_store src dest m)]. replace (length src) with (Z.to_nat (file_size seg)) by lia.
    apply load_bytes_ext. intros x Hin. rewrite Hx. by rewrite decide_False by lia.
  - intros x Hin. rewrite Hx. by rewrite decide_True.
  - intros x Hin. rewrite Hx, decide_False by lia. rewrite load8_store_bytes. by rewrite decide_False by lia.
Qed.

Lemma copy_segment_correct_witness : ∃ m',
  copy_segment sample_file (mkSegment 0x400000 0x400000 4 16 176 (mkProt true false true) 4096) 0x5000
    (store8 0x5008 7 ∅) = Some m' ∧ load_bytes 4 m' 0x5000 = [47; 97; 0; 98] ∧ load8 m' 0x5008 = 0.
Proof.
  destruct (copy_segment_correct sample_file (mkSegment 0x400000 0x400000 4 16 176 (mkProt true false true) 4096)
    0x5000 (store8 0x5008 7 ∅) ltac:(by vm_compute) ltac:(by split) ltac:(by vm_compute) ltac:(done) ltac:(done))
    as (m' & Hm & Hb & Hz & _).
  exists m'. split; [exact Hm|]. split; [exact Hb|]. apply Hz. by split.
Defined.

(** A segment larger in the file than in memory is copied whole: bytes beyond the
    [mem_size] the caller has to provide are overwritten. *)
Lemma copy_segment_overruns : ∃ m',
  copy_segment [1; 2; 3; 4] (mkSegment 0x400000 0 4 2 0 (mkProt true false false) 1) 0x5000 ∅ = Some m' ∧
  load8 m' 0x5003 = 4.
Proof. eexists. split; [by vm_compute|]. by vm_compute. Qed.

(** ** The page table *)

Lemma load8_copy_entries n : ∀ i k u m x, x < u + 8 * i ∨ u + 8 * (i + Z.of_nat n) ≤ x →
  load8 (copy_entries n i k u m) x = load8 m x.
Proof.
  induction n as [|n IH]; intros i k u m x Hx; [done|]. cbn [copy_entries].
  rewrite IH by lia. apply load8_store64_ne. lia.
Qed.

Lemma load64_is_u64 m a : (∀ x, is_byte (load8 m x)) → is_u64 (load64 m a).
Proof.
  intros Hb. apply (from_le_bytes_range (load_bytes 8 m a)).
  cbn [load_bytes]. do 8 (apply Forall_cons; split; [apply Hb|]). by apply Forall_nil.
Qed.

Lemma store_bytes_byte bs : ∀ a m, Forall is_byte bs → (∀ x, is_byte (load8 m x)) →
  ∀ x, is_byte (load8 (store_bytes a bs m) x).
Proof.
  intros a m Hb Hm x. rewrite load8_store_bytes. case_decide; [|done].
  assert (Z.to_nat (x - a) < length bs)%nat as Hl by lia.
  apply lookup_lt_is_Some in Hl as [b Hbx]. rewrite (nth_lookup_Some _ _ _ _ Hbx).
  by eapply Forall_lookup_1.
Qed.

(** Entries [i] to [i + n] of the table at [u] become those of the table at [k], the two
    tables being apart. *)
Lemma load64_copy_entries n : ∀ i k u m j, 0 ≤ i → i + Z.of_nat n ≤ 512 →
  k + 4096 ≤ u ∨ u + 4096 ≤ k → (∀ x, is_byte (load8 m x)) → i ≤ j < i + Z.of_nat n →
  load64 (copy_entries n i k u m) (u + 8 * j) = load64 m (k + 8 * j).
Proof.
  induction n as [|n IH]; intros i k u m j Hi Hn Hd Hb Hj; [lia|]. cbn [copy_entries].
  destruct (decide (j = i)) as [->|Hne].
  - etrans; [apply load64_ext; intros x Hx; apply load8_copy_entries; lia|].
    apply load64_store64. by apply load64_is_u64.
  - rewrite IH by (lia || by apply store_bytes_byte, Hb; apply to_le_bytes_byte).
    rewrite load64_store64_ne by lia. done.
Qed.

Lemma page_address f : 0 ≤ f < MAX_FRAMES → address (mkFrame f) = f * 4096.
Proof.
  intros Hf. pose proof MAX_FRAMES_val. unfold address, u64_mul, PAGE_SIZE. apply u64_small.
  simpl. unfold is_u64. lia.
Qed.

Lemma page_align a : 0 ≤ a < 2 ^ 64 → Z.land a (u64_not 0xFFF) = a / 4096 * 4096.
Proof.
  intros Ha. change (u64_not 0xFFF) with (Z.shiftl (Z.ones 52) 12).
  assert (Z.land a (Z.shiftl (Z.ones 52) 12) = Z.shiftl (Z.land (Z.shiftr a 12) (Z.ones 52)) 12) as ->.
  { apply Z.bits_inj'. intros n Hn. rewrite Z.land_spec, !Z.shiftl_spec by lia.
    destruct (decide (n < 12)).
    - rewrite !(Z.testbit_neg_r _ (n - 12)) by lia. by rewrite andb_false_r.
    - rewrite Z.land_spec, Z.shiftr_spec by lia. by replace (n - 12 + 12) with n by lia. }
  rewrite Z.land_ones, Z.shiftr_div_pow2, Z.shiftl_mul_pow2 by lia.
  rewrite Z.mod_small; [done|]. change (2 ^ 12) with 4096. change (2 ^ 52) with (2 ^ 64 / 4096).
  split; [apply Z.div_pos; lia|]. apply Z.div_lt_upper_bound; [lia|]. apply Ha.
Qed.

(** The page table of a new process. With memory for it, [allocate_user_page_table]
    takes one free frame from the allocator and makes it a table whose user half (entries
    0 to 255) is empty and whose kernel half (256 to 511) is the running kernel's,
    changing no other byte of memory, provided the frame of the kernel's own table is in
    use; without memory it changes nothing. *)
Lemma user_page_table_spec kernel_cr3 fa m :
  fa_wf fa → (∀ x, is_byte (load8 m x)) →
  0 ≤ kernel_cr3 < MAX_FRAMES * PAGE_SIZE → bm_get (bitmap fa) (kernel_cr3 / PAGE_SIZE) = false →
  match allocate_user_page_table kernel_cr3 (fa, m) with
  | ((fa', m'), Ok pml4) =>
      (∃ f, pml4 = f * PAGE_SIZE ∧ run_free (bitmap fa) f 1 ∧ fa' = take_run fa f 1) ∧
      (∀ i, 0 ≤ i < 256 → load64 m' (pml4 + 8 * i) = 0) ∧
      (∀ i, 256 ≤ i < 512 →
         load64 m' (pml4 + 8 * i) = load64 m (kernel_cr3 / PAGE_SIZE * PAGE_SIZE + 8 * i)) ∧
      (∀ x, x < pml4 ∨ pml4 + PAGE_SIZE ≤ x → load8 m' x = load8 m x)
  | ((fa', m'), Err e) => fa' = fa ∧ m' = m ∧ e = ExecOutOfMemory ∧ ∀ f, ¬ run_free (bitmap fa) f 1
  end.
Proof.
  intros Hwf Hb Hk Hused. unfold allocate_user_page_table.
  pose proof (allocate_contiguous_spec fa 1 Hwf ltac:(lia)) as Ha. unfold allocate.
  destruct (allocate_contiguous 1 fa) as [fa' [[f]|e]].
  2:{ destruct Ha as (-> & _ & Hno1 & Hno2). split_and!; [done..|]. intros f Hf.
      destruct (decide (next_hint fa ≤ f)); [by eapply Hno1|eapply Hno2; [|done]; lia]. }
  destruct Ha as (Hrun & -> & _). pose proof Hrun as (Hf0 & Hfm & Hfree).
  rewrite page_address by lia. rewrite page_align by (rewrite MAX_FRAMES_val in Hk; unfold PAGE_SIZE in Hk; lia).
  unfold PAGE_SIZE in *. change (Z.to_nat 4096) with 4096%nat.
  set (k := kernel_cr3 / 4096) in *.
  assert (k ≠ f) as Hne. { intros ->. rewrite Hfree in Hused by lia. done. }
  assert (k * 4096 + 4096 ≤ f * 4096 ∨ f * 4096 + 4096 ≤ k * 4096) as Hd by lia.
  assert (∀ x, is_byte (load8 (zero_bytes (f * 4096) 4096 m) x)) as Hb'.
  { intros x. rewrite load8_zero_bytes. case_decide; [by split|done]. }
  split_and!.
  - by exists f.
  - intros i Hi. etrans; [apply load64_ext; intros x Hx; apply load8_copy_entries; lia|].
    assert (∀ x, f * 4096 + 8 * i ≤ x < f * 4096 + 8 * i + 8 → load8 (zero_bytes (f * 4096) 4096 m) x = load8 ∅ x)
      as Hz by (intros x Hx; rewrite load8_zero_bytes, decide_True by lia; done).
    rewrite (load64_ext _ _ _ Hz). unfold load64. cbn [load_bytes]. unfold load8. rewrite !lookup_empty. done.
  - intros i Hi. rewrite load64_copy_entries by (done || lia). apply load64_ext.
    intros x Hx. rewrite load8_zero_bytes. by rewrite decide_False by lia.
  - intros x Hx. rewrite load8_copy_entries by lia. rewrite load8_zero_bytes. by rewrite decide_False by lia.
Qed.

Lemma user_page_table_sample : ∃ fa' m' pml4,
  allocate_user_page_table 0x5000 (add_region (0 * PAGE_SIZE) (4 * PAGE_SIZE) new, store64 0x5FF8 0x1003 ∅)
    = ((fa', m'), Ok pml4) ∧
  load64 m' (pml4 + 8 * 511) = 0x1003 ∧ load64 m' (pml4 + 8 * 0) = 0.
Proof.
  assert (∀ x, is_byte (load8 (store64 0x5FF8 0x1003 ∅) x)) as Hb.
  { apply store_bytes_byte; [apply to_le_bytes_byte|]. intros x. unfold load8. rewrite lookup_empty. by split. }
  pose proof MAX_FRAMES_val as Hv.
  pose proof (user_page_table_spec 0x5000 (add_region (0 * PAGE_SIZE) (4 * PAGE_SIZE) new) _ region4_wf Hb) as H.
  specialize (H ltac:(rewrite Hv; by split)).
  specialize (H ltac:(change (0x5000 / PAGE_SIZE) with 5; rewrite region4_get; [done|unfold in_range; lia])).
  destruct (allocate_user_page_table _ _) as [[fa' m'] [pml4|e]].
  - exists fa', m', pml4. destruct H as (_ & H1 & H2 & _). split; [done|]. split.
    + rewrite H2 by lia. apply (load64_store64 ∅ 0x5FF8). by split.
    + apply H1. lia.
  - destruct H as (_ & _ & _ & H). exfalso. apply (H 0). destruct region4_run2 as (H1 & H2 & H3).
    split_and!; [lia|lia|]. intros f Hf. apply H3. lia.
Defined.

(** ** The jump to ring 3

    [jump_to_userspace] is inline assembly. Its operands are [in(reg)]: the compiler
    places each in a register of its choice before the first instruction, and the
    instructions then use that register, whatever has been written to it since. *)

Inductive reg :=
| RAX | RBX | RCX | RDX | RSI | RDI | RBP
| R8 | R9 | R10 | R11 | R12 | R13 | R14 | R15.

#[export] Instance reg_eq_dec : EqDecision reg.
Proof. solve_decision. Defined.

(** Where each operand is. *)
Record Operands := mkOperands {
  in_user_data : reg; in_user_rsp : reg; in_rflags : reg; in_user_code : reg;
  in_entry : reg; in_argc : reg; in_argv : reg; in_user_data_val : reg
}.

Definition operands (o : Operands) : list reg :=
  [in_user_data o; in_user_rsp o; in_rflags o; in_user_code o; in_entry o; in_argc o; in_argv o;
   in_user_data_val o].

Definition USER_DATA : Z := Z.lor 0x18 3.
Definition USER_CODE : Z := Z.lor 0x20 3.
Definition RFLAGS_IF : Z := Z.shiftl 1 9.

(** The state after [iretq]: what it popped, the data segment registers, and the
    general registers. *)
Record UserCpu := mkCpu {
  cpu_rip : Z; cpu_cs : Z; cpu_rflags : Z; cpu_rsp : Z; cpu_ss : Z;
  cpu_ds : Z; cpu_regs : reg → Z
}.

Definition regs_set (r : reg) (v : Z) (f : reg → Z) : reg → Z :=
  λ r', if decide (r' = r) then v else f r'.

(** [mov ax, r]: the low 16 bits. *)
Definition set_ax (v : Z) (f : reg → Z) : reg → Z :=
  regs_set RAX (Z.lor (Z.land (f RAX) (u64_not 0xFFFF)) (Z.land v 0xFFFF)) f.

Definition cleared : list reg :=
  [RDX; RCX; R8; R9; R10; R11; RBX; RBP; R12; R13; R14; R15].

(** What the compiler does before the first instruction. *)
Definition load_operands (o : Operands) (entry_point user_stack argc argv : Z) (f : reg → Z) : reg → Z :=
  let f := regs_set (in_user_data o) USER_DATA f in
  let f := regs_set (in_user_rsp o) user_stack f in
  let f := regs_set (in_rflags o) RFLAGS_IF f in
  let f := regs_set (in_user_code o) USER_CODE f in
  let f := regs_set (in_entry o) entry_point f in
  let f := regs_set (in_argc o) argc f in
  let f := regs_set (in_argv o) argv f in
  regs_set (in_user_data_val o) USER_DATA f.

Definition jump_to_userspace (o : Operands) (entry_point user_stack argc argv : Z) (f0 : reg → Z) :
    UserCpu :=
  let f := load_operands o entry_point user_stack argc argv f0 in
  let frame := [f (in_entry o); f (in_user_code o); f (in_rflags o); f (in_user_rsp o); f (in_user_data o)] in
  let f := regs_set RDI (f (in_argc o)) f in
  let f := regs_set RSI (f (in_argv o)) f in
  let f := foldl (λ f r, regs_set r 0 f) f cleared in
  let f := set_ax (f (in_user_data_val o)) f in
  let ds := Z.land (f RAX) 0xFFFF in
  let f := regs_set RAX 0 f in
  mkCpu (nth 0 frame 0) (nth 1 frame 0) (nth 2 frame 0) (nth 3 frame 0) (nth 4 frame 0) ds f.

Definition exec_user_process (o : Operands) (ctx : ExecContext) (f0 : reg → Z) : UserCpu :=
  let argv_ptr := u64_add (stack_ptr ctx) 8 in
  jump_to_userspace o (ctx_entry ctx) (stack_ptr ctx) (argc ctx) argv_ptr f0.

Lemma regs_set_eq r v f : regs_set r v f r = v.
Proof. unfold regs_set. by rewrite decide_True. Qed.
Lemma regs_set_ne r r' v f : r' ≠ r → regs_set r v f r' = f r'.
Proof. intros. unfold regs_set. by rewrite decide_False. Qed.

Lemma clear_regs rs : ∀ f r,
  foldl (λ f r, regs_set r 0 f) f rs r = if decide (r ∈ rs) then 0 else f r.
Proof.
  induction rs as [|r' rs IH]; intros f r; cbn [foldl].
  { by rewrite decide_False by apply not_elem_of_nil. }
  rewrite IH. destruct (decide (r ∈ rs)) as [H|H]; [by rewrite decide_True by by right|].
  unfold regs_set. destruct (decide (r = r')) as [->|Hne]; [by rewrite decide_True by by left|].
  rewrite decide_False; [done|]. by rewrite not_elem_of_cons.
Qed.

Lemma load_operands_spec o e u n v f : NoDup (operands o) →
  let f' := load_operands o e u n v f in
  f' (in_user_data o) = USER_DATA ∧ f' (in_user_rsp o) = u ∧ f' (in_rflags o) = RFLAGS_IF ∧
  f' (in_user_code o) = USER_CODE ∧ f' (in_entry o) = e ∧ f' (in_argc o) = n ∧ f' (in_argv o) = v ∧
  f' (in_user_data_val o) = USER_DATA.
Proof.
  intros Hnd. destruct o as [a b c d g h i j]. unfold operands in Hnd. cbn in Hnd.
  repeat (apply NoDup_cons in Hnd as [? Hnd]). rewrite !not_elem_of_cons in *. destruct_and!.
  unfold load_operands. cbn.
  split_and!; repeat first [by rewrite regs_set_eq | rewrite regs_set_ne by done].
Qed.

(** Entering user mode. Wherever the compiler puts the eight operands (in distinct
    registers), [exec_user_process] starts the program at its entry point, with its stack
    pointer, interrupts enabled and nothing else in the flags, in ring 3 with the user
    code and stack selectors, the argument count in [rdi], and no kernel value in any
    register but [rsi]; [rsi] points to the argument vector, unless the compiler put that
    operand in [rdi]; and the data segment registers hold the user data selector if its
    operand is in [rax], the low bits of a user value or 0 if not. *)
Theorem user_entry_state o ctx f0 : NoDup (operands o) →
  let cpu := exec_user_process o ctx f0 in
  cpu_rip cpu = ctx_entry ctx ∧ cpu_rsp cpu = stack_ptr ctx ∧ cpu_rflags cpu = 512 ∧
  cpu_cs cpu = 0x23 ∧ cpu_ss cpu = 0x1B ∧ cpu_regs cpu RDI = argc ctx ∧
  cpu_regs cpu RSI = (if decide (in_argv o = RDI) then argc ctx else u64_add (stack_ptr ctx) 8) ∧
  (∀ r, r ≠ RDI → r ≠ RSI → cpu_regs cpu r = 0) ∧
  cpu_ds cpu = match in_user_data_val o with
               | RAX => USER_DATA
               | RDI => Z.land (argc ctx) 0xFFFF
               | RSI => Z.land (cpu_regs cpu RSI) 0xFFFF
               | _ => 0
               end.
Proof.
  intros Hnd. unfold exec_user_process, jump_to_userspace.
  destruct (load_operands_spec o (ctx_entry ctx) (stack_ptr ctx) (argc ctx) (u64_add (stack_ptr ctx) 8) f0 Hnd)
    as (H1 & H2 & H3 & H4 & H5 & H6 & H7 & H8).
  cbv zeta. set (f := load_operands _ _ _ _ _ _) in *.
  cbn [cpu_rip cpu_rsp cpu_rflags cpu_cs cpu_ss cpu_regs cpu_ds nth]. rewrite H1, H2, H3, H4, H5, H6.
  set (f1 := regs_set RDI (argc ctx) f).
  assert (f1 (in_argv o) = if decide (in_argv o = RDI) then argc ctx else u64_add (stack_ptr ctx) 8) as Hv.
  { unfold f1, regs_set. by rewrite H7. }
  rewrite Hv. set (v := if decide _ then _ else _) in *.
  set (f2 := regs_set RSI v f1).
  assert (∀ r, foldl (λ f r, regs_set r 0 f) f2 cleared r = if decide (r ∈ cleared) then 0 else f2 r) as Hc
    by (intros; apply clear_regs).
  set (f3 := foldl _ _ _) in *.
  assert (∀ r, r ≠ RAX → ∀ x, regs_set RAX 0 (set_ax x f3) r = f3 r) as Hset.
  { intros r Hr x. unfold set_ax. by rewrite !regs_set_ne. }
  split_and!; try reflexivity.
  - intros r Hr1 Hr2. destruct (decide (r = RAX)) as [->|Hr3]; [apply regs_set_eq|].
    rewrite Hset, Hc by done. by destruct r.
  - unfold set_ax. rewrite regs_set_eq. rewrite Z.land_lor_distr_l.
    assert (∀ x, Z.land (Z.land x (u64_not 0xFFFF)) 0xFFFF = 0) as Hz.
    { intros x. rewrite <-Z.land_assoc. change (Z.land (u64_not 0xFFFF) 0xFFFF) with 0. apply Z.land_0_r. }
    rewrite Hz, Z.lor_0_l, <-Z.land_assoc. change (Z.land 0xFFFF 0xFFFF) with 0xFFFF. rewrite !Hc.
    destruct (in_user_data_val o) eqn:Ed; try reflexivity.
    + rewrite decide_False by (vm_compute; intros X; repeat (apply elem_of_cons in X as [X|X]; [done|]); by apply elem_of_nil in X).
      unfold f2, f1. rewrite !regs_set_ne by done. by rewrite H8.
Qed.

Definition some_operands : Operands := mkOperands RCX RDX R8 R9 R10 R11 RSI RAX.

Lemma operands_distinct o : bool_decide (NoDup (operands o)) = true → NoDup (operands o).
Proof. apply bool_decide_eq_true_1. Qed.

Lemma user_entry_state_witness :
  let cpu := exec_user_process some_operands (mkExec 0x400078 0x7FFFFFFFEF00 0x400000 0x401000 1 0) (λ _, 7) in
  cpu_rip cpu = 0x400078 ∧ cpu_regs cpu RDI = 1 ∧ cpu_regs cpu RSI = 0x7FFFFFFFEF08 ∧ cpu_ds cpu = 0x1B.
Proof.
  assert (NoDup (operands some_operands)) as Hnd by by apply operands_distinct.
  destruct (user_entry_state some_operands (mkExec 0x400078 0x7FFFFFFFEF00 0x400000 0x401000 1 0) (λ _, 7) Hnd)
    as (H1 & _ & _ & _ & _ & H2 & H3 & _ & H4).
  split; [exact H1|]. split; [exact H2|]. split; [exact H3|exact H4].
Defined.

(** With the argument vector's operand in [rdi], which nothing rules out, the first [mov]
    overwrites it: the program gets its argument count as its argument vector. *)
Lemma argv_operand_clobbered : ∃ o ctx, NoDup (operands o) ∧
  cpu_regs (exec_user_process o ctx (λ _, 0)) RSI = argc ctx ∧
  argc ctx ≠ u64_add (stack_ptr ctx) 8.
Proof.
  exists (mkOperands RCX RDX R8 R9 R10 R11 RDI RAX), (mkExec 0x400078 0x7FFFFFFFEF00 0x400000 0x401000 1 0).
  split; [by apply operands_distinct|]. by vm_compute.
Qed.

(** ** Preparing *)

(** Preparing a program to run. [prepare_exec] fails exactly as the parser or the
    overlap check fails; otherwise the entry point, the base and the break are those of
    the file, moved by [PIE_BASE_ADDR] for a position-independent one whose addresses do
    not wrap, the stack is [build_user_stack]'s below [DEFAULT_STACK_TOP], and the entry
    point lies between the base and the break unless the file is position independent. *)
Theorem prepare_exec_correct elf_data args env :
  Forall is_byte elf_data → Z.of_nat (length elf_data) < u64_max →
  match parse elf_data, prepare_exec elf_data args env with
  | Err e, r => r = lift_elf (Err e)
  | Ok info, Err e => validate_for_exec info = Err (Fails OverlappingSegments) ∧
                      e = Fails (ElfErr OverlappingSegments)
  | Ok info, Ok (info', ctx, data) =>
      info' = info ∧ validate_for_exec info = Ok tt ∧
      (stack_ptr ctx, data) = build_user_stack DEFAULT_STACK_TOP args env info ∧
      argc ctx = Z.of_nat (length args) ∧ envc ctx = Z.of_nat (length env) ∧
      (if is_pie info
       then ctx_base_addr ctx = PIE_BASE_ADDR ∧
            (0 ≤ entry info < 2 ^ 63 → ctx_entry ctx = PIE_BASE_ADDR + entry info) ∧
            (0 ≤ top_addr info < 2 ^ 63 → ctx_brk ctx = PIE_BASE_ADDR + top_addr info)
       else ctx_base_addr ctx ≤ ctx_entry ctx ≤ ctx_brk ctx ∧
            ctx_entry ctx = entry info ∧ ctx_base_addr ctx = base_addr info ∧
            ctx_brk ctx = top_addr info)
  end.
Proof.
  intros Hb Hl. unfold prepare_exec. destruct (parse elf_data) as [info|e] eqn:E; [|by destruct e].
  pose proof (parsed_segments elf_data info Hb Hl E) as (_ & Hs & Hent & _).
  cbn [lift_elf res_bind]. unfold validate_for_exec in *.
  destruct (overlapping (segments info)); [by cbn|]. cbn [lift_elf res_bind].
  destruct (build_user_stack _ _ _ _) as [p d]. cbn [ctx_base_addr ctx_entry ctx_brk stack_ptr argc envc].
  split_and!; [done..|]. destruct (is_pie info) eqn:Ep.
  - split; [done|]. unfold PIE_BASE_ADDR. split; intros; apply u64_add_small; lia.
  - split_and!; try done; destruct Hent as [(s & Hin & H1)|]; [|done| |done];
      destruct (Hs s Hin) as (_ & H2 & H3); lia.
Qed.

Lemma prepare_exec_correct_witness : ∃ info ctx data,
  prepare_exec sample_file ["a"%string] [] = Ok (info, ctx, data) ∧
  ctx_base_addr ctx = 0x400000 ∧ ctx_entry ctx = 0x400004 ∧ ctx_brk ctx = 0x400010 ∧ argc ctx = 1.
Proof.
  pose proof (prepare_exec_correct sample_file ["a"%string] [] (bytes_decided sample_file eq_refl)
    ltac:(by vm_compute)) as H.
  destruct (parse sample_file) as [info|] eqn:E; [|by vm_compute in E].
  destruct (prepare_exec _ _ _) as [[[info' ctx] data]|e].
  - exists info', ctx, data. destruct H as (-> & _ & _ & Ha & _ & H).
    vm_compute in E. injection E as <-. cbn in H. destruct H as (_ & He & Hb & Hk). done.
  - exfalso. destruct H as [H _]. vm_compute in E. injection E as <-. by vm_compute in H.
Defined.

(** A position-independent file's addresses may wrap when the base is added: the entry
    point then lies below the base the file was loaded at. *)
Lemma pie_addresses_wrap : ∃ data info ctx stk, prepare_exec data [] [] = Ok (info, ctx, stk) ∧
  ctx_entry ctx < ctx_base_addr ctx.
Proof.
  exists (elf_file (sample_header ET_DYN (2 ^ 64 - 1) 64 1) [sample_phdr PT_LOAD 0 0 4 4] []).
  eexists _, _, _. split; [by vm_compute|]. by vm_compute.
Qed.

(** A program with one argument and one environment string starts with a stack pointer
    that is not a multiple of 16. *)
Lemma stack_pointer_misaligned : ∃ info ctx stk,
  prepare_exec sample_file ["a"%string] ["A=b"%string] = Ok (info, ctx, stk) ∧ stack_ptr ctx mod 16 = 8.
Proof. eexists _, _, _. split; [by vm_compute|]. by vm_compute. Qed.

(** [AT_PHNUM] counts the loadable segments, not the program headers. *)
Lemma phnum_counts_segments : ∃ h phdrs info,
  parse_header sample_file = Ok h ∧ parse_program_headers sample_file h = Ok phdrs ∧
  parse sample_file = Ok info ∧ (AT_PHNUM, 1) ∈ auxv info ∧ e_phnum h = 2.
Proof.
  eexists _, _, _. split; [by vm_compute|]. split; [by vm_compute|]. split; [by vm_compute|].
  split; [|by vm_compute]. unfold auxv. cbn. do 2 right. left.
Qed.

(** *** The test binary *)

(** [create_test_elf] is accepted, and its two bytes of code are at the entry point. *)
Lemma test_elf_loads : ∃ info ctx stk s m,
  prepare_exec create_test_elf [] [] = Ok (info, ctx, stk) ∧ segments info = [s] ∧
  copy_segment create_test_elf s (vaddr s) ∅ = Some m ∧
  load_bytes 2 m (ctx_entry ctx) = [0xeb; 0xfe] ∧ prot s = mkProt true false true.
Proof.
  eexists _, _, _, _, _. split; [by vm_compute|]. split; [by vm_compute|]. split; [by vm_compute|].
  split; by vm_compute.
Qed.

(** *** The layout *)

Lemma layout_bounds base_offset segs : ∀ ts te ds de b,
  foldl (layout_segment base_offset) (ts, te, ds, de) segs = b →
  b.1.1.1 ≤ ts ∧ te ≤ b.1.1.2 ∧ b.1.2 ≤ ds ∧ de ≤ b.2 ∧
  ∀ s, s ∈ segs →
    let start := u64_add (vaddr s) base_offset in
    let end_ := u64_add start (mem_size s) in
    if execute (prot s) then b.1.1.1 ≤ start ∧ end_ ≤ b.1.1.2 else b.1.2 ≤ start ∧ end_ ≤ b.2.
Proof.
  induction segs as [|s segs IH]; intros ts te ds de b; cbn [foldl].
  { intros <-. simpl. split_and!; [lia..|]. by intros s ?%elem_of_nil. }
  unfold layout_segment at 2. cbv zeta.
  destruct (execute (prot s)) eqn:Ex; intros Hb; apply IH in Hb as (H1 & H2 & H3 & H4 & Hall);
    repeat match goal with H : context [if ?a <? ?c then _ else _] |- _ =>
      destruct (Z.ltb_spec a c) end;
    (split_and!; [lia..|]); intros x [->|Hx]%elem_of_cons; try (by apply Hall); cbv zeta; rewrite Ex; lia.
Qed.

(** The memory layout of a program: every executable segment lies between
    [text_start] and [text_end], every other one between [data_start] and [data_end], and
    the heap starts where the data ends; the stack is the megabyte below
    [DEFAULT_STACK_TOP]. (Addresses are those the loader computes, modulo [2^64].) *)
Lemma layout_correct info base_offset :
  let l := calculate_layout info base_offset in
  (∀ s, s ∈ segments info →
     let start := u64_add (vaddr s) base_offset in
     let end_ := u64_add start (mem_size s) in
     if execute (prot s) then text_start l ≤ start ∧ end_ ≤ text_end l
     else data_start l ≤ start ∧ end_ ≤ layout_brk l) ∧
  layout_brk l = data_end l ∧ stack_top l - stack_bottom l = DEFAULT_STACK_SIZE.
Proof.
  unfold calculate_layout. destruct (foldl _ _ _) as [[[ts te] ds] de] eqn:E.
  apply layout_bounds in E as (_ & _ & _ & _ & H). done.
Qed.

(** A file whose code follows its data: the heap would start below the code's end. *)
Lemma layout_brk_below_text : ∃ info, layout_brk (calculate_layout info 0) < text_end (calculate_layout info 0).
Proof.
  exists (mkElf 0x402000 [mkSegment 0x401000 0 0 16 0 (mkProt true true false) 1;
                           mkSegment 0x402000 0 0 16 0 (mkProt true false true) 1] false 0x401000 0x402010 None None).
  by vm_compute.
Qed.
