(* ===== verification/Process.v ===== *)
(** * Process: the process manager ([kernel/src/process/mod.rs])

    [ProcessManager] and the [Process] record, and [exec_from_memory] of
    [kernel/src/process/exec.rs], which builds a process with it. A [Machine] is what they
    change: the process table, the frame allocator, memory, the registers of the CPU, and
    the wait and signal managers over any scheduler that implements [SchedIface]. *)

From Stdlib Require Import ZArith Lia String.
From stdpp Require Import gmap list strings.
From S2P Require Import Prelude.
From S2P Require Import Ids.
From S2P Require Import Mem.
From S2P Require Import Frames.
From S2P Require Import Sched.
From S2P Require Import SchedIface.
From S2P Require Import Signals.
From S2P Require Import Wait.
From S2P Require Import Elf.
From S2P Require Import Exec.

Definition KERNEL_STACK_SIZE : Z := 64 * 1024.
Definition USER_STACK_SIZE : Z := 1024 * 1024.
Definition USER_STACK_TOP : Z := 0x00007FFFFFFF0000.
Definition USER_CODE_START : Z := 0x0000000000400000.

(** [KERNEL_STACK_SIZE / PAGE_SIZE]. *)
Definition stack_frames : Z := KERNEL_STACK_SIZE / PAGE_SIZE.

Inductive ProcessError :=
| ProcNotFound | ProcOutOfMemory | ProcPermissionDenied | ProcInvalidState | LimitReached | InvalidElf.

Record Process := mkProcess {
  p_pid : ProcessId;
  p_name : string;
  p_parent : ProcessId;
  p_state : ProcessState;
  p_class : SchedulingClass;
  p_priority : Z;
  p_context : Context;
  p_page_table : Z;
  p_kernel_stack : Z;
  p_kernel_stack_size : Z;
  p_user_stack : option Z;
  p_cap_token : CapabilityToken;
  p_exit_code : option Z;
  p_children : list ProcessId;
  p_cpu_time : Z;
  p_created_at : Z;
  p_brk : Z;
  p_cwd : string
}.

(** [cr3] is the running page table, as [read_cr3] gives it. *)
Definition Process_new_kernel (cr3 : Z) (pid : ProcessId) (name : string) (parent : ProcessId)
    (entry kernel_stack : Z) (cap_token : CapabilityToken) : Process :=
  let context := new_kernel entry (u64_add kernel_stack KERNEL_STACK_SIZE) cr3 in
  mkProcess pid name parent Ready Interactive 128 context 0 kernel_stack KERNEL_STACK_SIZE None
    cap_token None [] 0 0 0 "/".

Definition Process_new_user (pid : ProcessId) (name : string) (parent : ProcessId)
    (entry page_table kernel_stack user_stack : Z) (cap_token : CapabilityToken) : Process :=
  let context := new_user entry user_stack page_table in
  mkProcess pid name parent Ready Interactive 128 context page_table kernel_stack KERNEL_STACK_SIZE
    (Some user_stack) cap_token None [] 0 0 0 "/".

Definition from_elf (pid : ProcessId) (name : string) (parent : ProcessId) (elf_data : list Z)
    (page_table kernel_stack : Z) (cap_token : CapabilityToken) : Result Process (Stop ExecError) :=
  match prepare_exec elf_data [name] [] with
  | Err e => Err e
  | Ok (_, ctx, _) =>
      let context := new_user (ctx_entry ctx) (stack_ptr ctx) page_table in
      Ok (mkProcess pid name parent Ready Interactive 128 context page_table kernel_stack
            KERNEL_STACK_SIZE (Some (stack_ptr ctx)) cap_token None [] 0 0 (ctx_brk ctx) "/")
  end.

Definition with_state (st : ProcessState) (p : Process) : Process :=
  mkProcess (p_pid p) (p_name p) (p_parent p) st (p_class p) (p_priority p) (p_context p)
    (p_page_table p) (p_kernel_stack p) (p_kernel_stack_size p) (p_user_stack p) (p_cap_token p)
    (p_exit_code p) (p_children p) (p_cpu_time p) (p_created_at p) (p_brk p) (p_cwd p).
Definition with_brk (brk : Z) (p : Process) : Process :=
  mkProcess (p_pid p) (p_name p) (p_parent p) (p_state p) (p_class p) (p_priority p) (p_context p)
    (p_page_table p) (p_kernel_stack p) (p_kernel_stack_size p) (p_user_stack p) (p_cap_token p)
    (p_exit_code p) (p_children p) (p_cpu_time p) (p_created_at p) brk (p_cwd p).
Definition with_exit (code : Z) (p : Process) : Process :=
  mkProcess (p_pid p) (p_name p) (p_parent p) Terminated (p_class p) (p_priority p) (p_context p)
    (p_page_table p) (p_kernel_stack p) (p_kernel_stack_size p) (p_user_stack p) (p_cap_token p)
    (Some code) (p_children p) (p_cpu_time p) (p_created_at p) (p_brk p) (p_cwd p).
Definition with_context (c : Context) (p : Process) : Process :=
  mkProcess (p_pid p) (p_name p) (p_parent p) (p_state p) (p_class p) (p_priority p) c
    (p_page_table p) (p_kernel_stack p) (p_kernel_stack_size p) (p_user_stack p) (p_cap_token p)
    (p_exit_code p) (p_children p) (p_cpu_time p) (p_created_at p) (p_brk p) (p_cwd p).

Record ProcessManager := mkPM {
  pm_processes : gmap ProcessId Process;
  pm_current : option ProcessId;
  pm_next_pid : Z
}.

Definition pm_new : ProcessManager := mkPM ∅ None 1.

Section manager.
Context {S : Type} `{SchedIface S}.

Record Machine := mkMachine {
  pm : ProcessManager;
  frames : FrameAllocator;
  ram : memory;
  cpu : Context;
  sys : Sys S
}.

Definition set_pm (f : ProcessManager → ProcessManager) (w : Machine) : Machine :=
  mkMachine (f (pm w)) (frames w) (ram w) (cpu w) (sys w).
Definition set_table (f : gmap ProcessId Process → gmap ProcessId Process) (w : Machine) : Machine :=
  set_pm (λ m, mkPM (f (pm_processes m)) (pm_current m) (pm_next_pid m)) w.
Definition set_frames (fa : FrameAllocator) (w : Machine) : Machine :=
  mkMachine (pm w) fa (ram w) (cpu w) (sys w).
Definition set_cpu (c : Context) (w : Machine) : Machine :=
  mkMachine (pm w) (frames w) (ram w) c (sys w).

Abbreviation pm_op := (op Machine ProcessError).

Definition alloc_pid (w : Machine) : Machine * ProcessId :=
  (set_pm (λ m, mkPM (pm_processes m) (pm_current m) (u64_add (pm_next_pid m) 1)) w,
   mkPid (pm_next_pid (pm w))).

Definition current_pid (w : Machine) : option ProcessId := pm_current (pm w).
Definition set_current (pid : ProcessId) : Machine → Machine :=
  set_pm (λ m, mkPM (pm_processes m) (Some pid) (pm_next_pid m)).

(** The allocation in [spawn_kernel] and [spawn_user]: the top of the new stack. *)
Definition alloc_kernel_stack : pm_op Z := λ w,
  match allocate_contiguous stack_frames (frames w) with
  | (fa, Ok frame) => (set_frames fa w, Ok (u64_add (address frame) KERNEL_STACK_SIZE))
  | (fa, Err _) => (set_frames fa w, Err ProcOutOfMemory)
  end.

Definition spawn_kernel (name : string) (entry : Z) (cap_token : CapabilityToken) : pm_op ProcessId := λ w,
  let '(w, pid) := alloc_pid w in
  let parent := default KERNEL (current_pid w) in
  match alloc_kernel_stack w with
  | (w, Err e) => (w, Err e)
  | (w, Ok kernel_stack) =>
      let process := Process_new_kernel (cr3 (cpu w)) pid name parent entry kernel_stack cap_token in
      (set_table <[pid := process]> w, Ok pid)
  end.

Definition spawn_user (name : string) (entry page_table : Z) (cap_token : CapabilityToken) :
    pm_op ProcessId := λ w,
  let '(w, pid) := alloc_pid w in
  let parent := default KERNEL (current_pid w) in
  match alloc_kernel_stack w with
  | (w, Err e) => (w, Err e)
  | (w, Ok kernel_stack) =>
      let user_stack := USER_STACK_TOP in
      let process := Process_new_user pid name parent entry page_table kernel_stack user_stack cap_token in
      (set_table <[pid := process]> w, Ok pid)
  end.

(** A file that makes the parser panic or read outside it does so here. *)
Definition spawn_elf (name : string) (elf_data : list Z) (page_table : Z) (cap_token : CapabilityToken) :
    op Machine (Stop ProcessError) ProcessId := λ w,
  let '(w, pid) := alloc_pid w in
  let parent := default KERNEL (current_pid w) in
  let kernel_stack := u64_add 0x0000000100000000 (u64_mul (pid_raw pid) KERNEL_STACK_SIZE) in
  match from_elf pid name parent elf_data page_table kernel_stack cap_token with
  | Err (Fails _) => (w, Err (Fails InvalidElf))
  | Err Panics => (w, Err Panics)
  | Err OutOfFile => (w, Err OutOfFile)
  | Ok process => (set_table <[pid := process]> w, Ok pid)
  end.

Definition get (pid : ProcessId) (w : Machine) : option Process := pm_processes (pm w) !! pid.

Definition set_state (pid : ProcessId) (st : ProcessState) : pm_op unit := λ w,
  match get pid w with
  | None => (w, Err ProcNotFound)
  | Some p => (set_table <[pid := with_state st p]> w, Ok tt)
  end.

Definition set_brk (pid : ProcessId) (brk : Z) : pm_op Z := λ w,
  match get pid w with
  | None => (w, Err ProcNotFound)
  | Some p => (set_table <[pid := with_brk brk p]> w, Ok (p_brk p))
  end.

Definition get_brk (pid : ProcessId) (w : Machine) : Result Z ProcessError :=
  match get pid w with None => Err ProcNotFound | Some p => Ok (p_brk p) end.

Definition terminate (pid : ProcessId) (exit_code : Z) : pm_op unit := λ w,
  match get pid w with
  | None => (w, Err ProcNotFound)
  | Some process =>
      let w := set_table <[pid := with_exit exit_code process]> w in
      let parent := p_parent process in
      let kernel_stack_base := sat_sub (p_kernel_stack process) KERNEL_STACK_SIZE in
      let fa := if 0 <? kernel_stack_base
                then free_contiguous (from_address kernel_stack_base) stack_frames (frames w)
                else frames w in
      (mkMachine (pm w) fa (ram w) (cpu w) (do_exit pid parent exit_code rusage_default (sys w)), Ok tt)
  end.

(** As in [Sched]: the registers are those of the caller, and switching stores them
    through the pointer into the table, then loads the target's. *)
Definition switch_to (target_pid : ProcessId) : pm_op unit := λ w,
  match get target_pid w with
  | None => (w, Err ProcNotFound)
  | Some target =>
      match current_pid w with
      | Some current_pid =>
          if decide (current_pid = target_pid) then (w, Ok tt)
          else
            match get current_pid w with
            | None => (w, Err ProcNotFound)
            | Some current =>
                let w' := set_current target_pid w in
                let w' := set_table <[current_pid := with_context (cpu w) current]> w' in
                (set_cpu (p_context target) w', Ok tt)
            end
      | None => (set_cpu (init_context (cpu w) (p_context target)) (set_current target_pid w), Ok tt)
      end
  end.

Definition process_count (w : Machine) : nat := size (pm_processes (pm w)).
Definition list_all (w : Machine) : list (ProcessId * string * ProcessState) :=
  (λ kv, (kv.1, p_name kv.2, p_state kv.2)) <$> btree_iter (pm_processes (pm w)).

(** ** Executing a file from memory *)

Definition exec_from_memory (elf_data : list Z) (args env : list string) (name : string) :
    op Machine (Stop ExecError) Z := λ w,
  match prepare_exec elf_data args env with
  | Err e => (w, Err e)
  | Ok (info, ctx, _) =>
      let entry_point := ctx_entry ctx in
      match allocate_user_page_table (cr3 (cpu w)) (frames w, ram w) with
      | ((fa, m), Err e) => (mkMachine (pm w) fa m (cpu w) (sys w), Err (Fails e))
      | ((fa, m), Ok page_table) =>
          let w := mkMachine (pm w) fa m (cpu w) (sys w) in
          match spawn_user name entry_point page_table (mkToken 0 0 0 0) w with
          | (w, Ok pid) => (w, Ok (pid_raw pid))
          | (w, Err _) => (w, Err (Fails ProcessCreationFailed))
          end
      end
  end.

End manager.
Arguments Machine : clear implicits.

(** ** Who holds which frames

    Over any set of owners: what each holds is in use and disjoint from what every
    other one holds. *)

Section owners.
Context {K : Type} `{EqDecision K}.
Implicit Types held : K → option (Z * Z).

Record owners (fa : FrameAllocator) (held : K → option (Z * Z)) : Prop := {
  ow_wf : fa_wf fa;
  ow_used : ∀ k r, held k = Some r → range_used fa r;
  ow_disj : ∀ k k' r r', k ≠ k' → held k = Some r → held k' = Some r' → range_disjoint r r'
}.

Lemma owners_ext fa held held' : (∀ k, held' k = held k) → owners fa held → owners fa held'.
Proof.
  intros He [H1 H2 H3]. split; [done|intros k r; rewrite He; eauto|].
  intros k k' r r' Hne. rewrite !He. eauto.
Qed.

(** Forgetting an owner, with or without giving the frames back. *)
Lemma owners_drop fa held held' k0 : owners fa held → held' k0 = None →
  (∀ k, k ≠ k0 → held' k = held k) → owners fa held'.
Proof.
  intros [H1 H2 H3] H0 He. split; [done| |].
  - intros k r Hk. destruct (decide (k = k0)) as [->|Hne]; [congruence|]. rewrite He in Hk by done. eauto.
  - intros k k' r r' Hne Hk Hk'. destruct (decide (k = k0)) as [->|Hk0]; [congruence|].
    destruct (decide (k' = k0)) as [->|Hk0']; [congruence|]. rewrite He in Hk, Hk' by done. eauto.
Qed.

Lemma owners_take fa held held' k0 f c : owners fa held → 1 ≤ c → run_free (bitmap fa) f c →
  held' k0 = Some (f, c) → (∀ k, k ≠ k0 → held' k = held k) → held k0 = None →
  owners (take_run fa f c) held'.
Proof.
  intros [H1 H2 H3] Hc Hr H0 He Hn. pose proof Hr as (Hf & Hm & Hfree).
  destruct (take_run_spec fa f c H1 Hc Hr) as (Hwf & _ & Hget).
  assert (∀ k r, held k = Some r → range_disjoint (f, c) r) as Hd.
  { intros k r Hk. destruct (H2 k r Hk) as (? & ? & ? & Hu). unfold range_disjoint. simpl.
    destruct (decide (f + c ≤ r.1)); [by left|]. destruct (decide (r.1 + r.2 ≤ f)); [by right|].
    specialize (Hu (Z.max f r.1) ltac:(lia)). rewrite Hfree in Hu by lia. done. }
  split; [done| |].
  - intros k r Hk. destruct (decide (k = k0)) as [->|Hne].
    + rewrite H0 in Hk. injection Hk as <-. unfold range_used. simpl. split_and!; [lia..|].
      intros g Hg. rewrite Hget by (unfold in_range; lia). lia.
    + rewrite He in Hk by done. destruct (H2 k r Hk) as (? & ? & ? & Hu). split_and!; [lia..|].
      intros g Hg. rewrite Hget by (unfold in_range; lia). by rewrite Hu.
  - intros k k' r r' Hne Hk Hk'. destruct (decide (k = k0)) as [->|Hk0].
    + rewrite H0 in Hk. injection Hk as <-. rewrite He in Hk' by done. eauto.
    + rewrite He in Hk by done. destruct (decide (k' = k0)) as [->|Hk0'].
      * rewrite H0 in Hk'. injection Hk' as <-. destruct (Hd k r Hk); [by right|by left].
      * rewrite He in Hk' by done. eauto.
Qed.

Lemma owners_give fa held held' k0 f c : owners fa held → held k0 = Some (f, c) → held' k0 = None →
  (∀ k, k ≠ k0 → held' k = held k) → owners (free_contiguous (mkFrame f) c fa) held'.
Proof.
  intros Ho H0 Hn He. pose proof (owners_drop _ _ _ _ Ho Hn He) as [_ H2' H3'].
  destruct Ho as [H1 H2 H3]. destruct (H2 _ _ H0) as (Hf & Hc & Hm & Hu). simpl in *.
  destruct (free_contiguous_wf fa f c H1) as [Hwf _]; [lia..|done|].
  destruct (free_contiguous_spec fa f c) as [_ Hget]; [apply H1|lia..|].
  split; [done| |done]. intros k r Hk. destruct (decide (k = k0)) as [->|Hne]; [congruence|].
  destruct (H2' k r Hk) as (? & ? & ? & Hur). split_and!; [lia..|].
  intros g Hg. rewrite Hget by (unfold in_range; lia). rewrite Hur by done.
  rewrite He in Hk by done. destruct (H3 _ _ _ _ Hne Hk H0); simpl in *; lia.
Qed.

(** Frames nobody is recorded to hold. *)
Lemma owners_take_none fa held f c : owners fa held → 1 ≤ c → run_free (bitmap fa) f c →
  owners (take_run fa f c) held.
Proof.
  intros [H1 H2 H3] Hc Hr. destruct (take_run_spec fa f c H1 Hc Hr) as (Hwf & _ & Hget).
  split; [done| |done]. intros k r Hk. destruct (H2 k r Hk) as (? & ? & ? & Hu). split_and!; [lia..|].
  intros g Hg. rewrite Hget by (unfold in_range; lia). by rewrite Hu.
Qed.

End owners.

(** ** Kernel stacks over a history *)

Definition live (p : Process) : bool := bool_decide (p_exit_code p = None).

(** The frames of a process' kernel stack: the 16 below its top. *)
Definition stack_range (p : Process) : Z * Z :=
  ((p_kernel_stack p - KERNEL_STACK_SIZE) / PAGE_SIZE, stack_frames).

Section histories.
Context {S : Type} `{SchedIface S}.

(** What the rest of the kernel holds, by name. *)
Abbreviation others := (gmap nat (Z * Z)).
Implicit Types (w : Machine S) (oth : others).

Inductive proc_call :=
| SpawnKernel (name : string) (entry : Z) (cap : CapabilityToken)
| SpawnUser (name : string) (entry page_table : Z) (cap : CapabilityToken)
| ExecMemory (elf_data : list Z) (args env : list string) (name : string)
| SetState (pid : ProcessId) (st : ProcessState)
| SetBrk (pid : ProcessId) (brk : Z)
| Terminate (pid : ProcessId) (code : Z)
| SwitchTo (pid : ProcessId)
| Acquire (k : nat) (count : Z)
| Release (k : nat).

Definition proc_step (c : proc_call) (st : Machine S * others) : Machine S * others :=
  let '(w, oth) := st in
  match c with
  | SpawnKernel name entry cap => ((spawn_kernel name entry cap w).1, oth)
  | SpawnUser name entry page_table cap => ((spawn_user name entry page_table cap w).1, oth)
  | ExecMemory data args env name => ((exec_from_memory data args env name w).1, oth)
  | SetState pid s => ((set_state pid s w).1, oth)
  | SetBrk pid brk => ((set_brk pid brk w).1, oth)
  | Terminate pid code => ((terminate pid code w).1, oth)
  | SwitchTo pid => ((switch_to pid w).1, oth)
  | Acquire k count =>
      match oth !! k, allocate_contiguous count (frames w) with
      | None, (fa, Ok f) => (set_frames fa w, <[k := (frame_raw f, count)]> oth)
      | _, _ => (w, oth)
      end
  | Release k =>
      match oth !! k with
      | Some (f, count) => (set_frames (free_contiguous (mkFrame f) count (frames w)) w, delete k oth)
      | None => (w, oth)
      end
  end.

(** A process is terminated once; the rest of the kernel takes at least a frame at a time. *)
Definition call_ok (c : proc_call) (st : Machine S * others) : bool :=
  match c with
  | Terminate pid _ => match get pid st.1 with Some p => live p | None => true end
  | Acquire _ count => 1 <=? count
  | _ => true
  end.

Definition held (st : Machine S * others) (k : ProcessId + nat) : option (Z * Z) :=
  match k with
  | inl pid =>
      match get pid st.1 with
      | Some p => if live p then Some (stack_range p) else None
      | None => None
      end
  | inr k => st.2 !! k
  end.

Record procs_inv (st : Machine S * others) : Prop := {
  pi_owners : owners (frames st.1) (held st);
  pi_next : 1 ≤ pm_next_pid (pm st.1) < 2 ^ 64;
  pi_pids : ∀ pid p, get pid st.1 = Some p → p_pid p = pid ∧ pid_raw pid < pm_next_pid (pm st.1);
  pi_stacks : ∀ pid p, get pid st.1 = Some p → live p = true →
    p_kernel_stack p = (stack_range p).1 * PAGE_SIZE + KERNEL_STACK_SIZE
}.

(** The histories: any sequence of calls that are allowed when they are made. *)
Fixpoint history_ok (cs : list proc_call) (st : Machine S * others) : bool :=
  match cs with
  | [] => true
  | c :: cs => call_ok c st && history_ok cs (proc_step c st)
  end.

(** *** Steps *)

Lemma stack_frames_val : stack_frames = 16.
Proof. reflexivity. Qed.

Lemma alloc_kernel_stack_spec w : fa_wf (frames w) →
  match alloc_kernel_stack w with
  | (w', Ok top) => ∃ f, run_free (bitmap (frames w)) f stack_frames ∧
      w' = set_frames (take_run (frames w) f stack_frames) w ∧ top = f * PAGE_SIZE + KERNEL_STACK_SIZE
  | (w', Err e) => w' = w ∧ e = ProcOutOfMemory
  end.
Proof.
  intros Hwf. unfold alloc_kernel_stack.
  pose proof (allocate_contiguous_spec (frames w) stack_frames Hwf ltac:(rewrite stack_frames_val; lia)) as Ha.
  destruct (allocate_contiguous _ _) as [fa [[f]|e]].
  - destruct Ha as (Hr & -> & _). exists f. pose proof Hr as (H1 & H2 & _). split_and!; [done..|].
    rewrite stack_frames_val, MAX_FRAMES_val in H2. rewrite page_address by (rewrite MAX_FRAMES_val; lia).
    unfold PAGE_SIZE, KERNEL_STACK_SIZE. apply u64_add_small; lia.
  - destruct Ha as (-> & _). split; [by destruct w|done].
Qed.

(** Any way of making a process from a fresh pid and a fresh stack. *)
Lemma spawn_inv w oth f p : procs_inv (w, oth) → pm_next_pid (pm w) + 1 < 2 ^ 64 →
  run_free (bitmap (frames w)) f stack_frames →
  p_pid p = mkPid (pm_next_pid (pm w)) → p_exit_code p = None →
  p_kernel_stack p = f * PAGE_SIZE + KERNEL_STACK_SIZE →
  procs_inv (set_table <[p_pid p := p]> (set_frames (take_run (frames w) f stack_frames) (alloc_pid w).1), oth).
Proof.
  intros [Ho Hn Hp Hs] Hlt Hr Hpid Hex Hks. cbn [fst] in *.
  assert (get (p_pid p) w = None) as Hfresh.
  { destruct (get (p_pid p) w) as [q|] eqn:E; [|done]. destruct (Hp _ _ E) as [_ Hq]. rewrite Hpid in Hq. simpl in Hq. lia. }
  assert (stack_range p = (f, stack_frames)) as Hrange.
  { unfold stack_range. rewrite Hks. f_equal. rewrite Z.add_simpl_r. by apply Z.div_mul. }
  assert (live p = true) as Hl by by apply bool_decide_eq_true_2.
  assert (∀ q, get q (set_table <[p_pid p := p]> (set_frames (take_run (frames w) f stack_frames) (alloc_pid w).1))
    = if decide (q = p_pid p) then Some p else get q w) as Hget.
  { intros q. unfold get. simpl. case_decide as Hq; [subst; apply lookup_insert_eq|by apply lookup_insert_ne]. }
  split; cbn [fst snd].
  - apply (owners_take (frames w) (held (w, oth)) _ (inl (p_pid p)) f stack_frames); [done| |done| | |].
    + rewrite stack_frames_val. lia.
    + cbn [held fst snd]. rewrite Hget, decide_True by done. by rewrite Hl, Hrange.
    + intros [q|k] Hne; cbn [held fst snd]; [|done]. rewrite Hget, decide_False by congruence. done.
    + cbn [held fst]. by rewrite Hfresh.
  - simpl. rewrite u64_add_small by lia. lia.
  - intros q x. rewrite Hget. simpl. rewrite u64_add_small by lia. case_decide as Hq.
    + intros [= <-]. subst. rewrite Hpid. simpl. split; [done|lia].
    + intros Hx. destruct (Hp _ _ Hx). split; [done|lia].
  - intros q x. rewrite Hget. case_decide as Hq; [|apply Hs]. intros [= <-] _. by rewrite Hrange, Hks.
Qed.

(** A pid burnt by a spawn that failed. *)
Lemma alloc_pid_inv w oth : procs_inv (w, oth) → pm_next_pid (pm w) + 1 < 2 ^ 64 →
  procs_inv ((alloc_pid w).1, oth).
Proof.
  intros [Ho Hn Hp Hs] Hlt. split; cbn [fst snd] in *.
  - eapply owners_ext; [|exact Ho]. by intros [q|k].
  - simpl. rewrite u64_add_small by lia. lia.
  - intros q x Hx. simpl. rewrite u64_add_small by lia. destruct (Hp q x Hx). split; [done|lia].
  - exact Hs.
Qed.

(** The machine after a spawn that made [p] on the stack frames from [f]. *)
Definition spawned w (f : Z) (p : Process) : Machine S :=
  set_table <[p_pid p := p]> (set_frames (take_run (frames w) f stack_frames) (alloc_pid w).1).

Definition spawn_result w (r : Machine S * Result ProcessId ProcessError) (mk : ProcessId → Z → Process) : Prop :=
  match r with
  | (w', Ok pid) =>
      pid = mkPid (pm_next_pid (pm w)) ∧
      ∃ f, run_free (bitmap (frames w)) f stack_frames ∧
        w' = spawned w f (mk pid (f * PAGE_SIZE + KERNEL_STACK_SIZE))
  | (w', Err e) => w' = (alloc_pid w).1 ∧ e = ProcOutOfMemory
  end.

Definition parent_of w : ProcessId := default KERNEL (current_pid w).

Lemma spawn_kernel_spec name entry cap w : fa_wf (frames w) →
  spawn_result w (spawn_kernel name entry cap w)
    (λ pid top, Process_new_kernel (cr3 (cpu w)) pid name (parent_of w) entry top cap).
Proof.
  intros Hwf. unfold spawn_kernel. rewrite (surjective_pairing (alloc_pid w)).
  pose proof (alloc_kernel_stack_spec (alloc_pid w).1 Hwf) as Ha.
  destruct (alloc_kernel_stack (alloc_pid w).1) as [w' [top|e]]; [|done].
  destruct Ha as (f & Hr & -> & ->). split; [done|]. by exists f.
Qed.

Lemma spawn_user_spec name entry pt cap w : fa_wf (frames w) →
  spawn_result w (spawn_user name entry pt cap w)
    (λ pid top, Process_new_user pid name (parent_of w) entry pt top USER_STACK_TOP cap).
Proof.
  intros Hwf. unfold spawn_user. rewrite (surjective_pairing (alloc_pid w)).
  pose proof (alloc_kernel_stack_spec (alloc_pid w).1 Hwf) as Ha.
  destruct (alloc_kernel_stack (alloc_pid w).1) as [w' [top|e]]; [|done].
  destruct Ha as (f & Hr & -> & ->). split; [done|]. by exists f.
Qed.

Lemma spawn_result_inv w oth r mk : procs_inv (w, oth) → pm_next_pid (pm w) + 1 < 2 ^ 64 →
  spawn_result w r mk →
  (∀ pid top, p_pid (mk pid top) = pid ∧ p_exit_code (mk pid top) = None ∧ p_kernel_stack (mk pid top) = top) →
  procs_inv (r.1, oth).
Proof.
  intros Hi Hlt Hr Hmk. destruct r as [w' [pid|e]]; cbn [spawn_result fst] in *.
  - destruct Hr as (-> & f & Hrun & ->).
    destruct (Hmk (mkPid (pm_next_pid (pm w))) (f * PAGE_SIZE + KERNEL_STACK_SIZE)) as (H1 & H2 & H3).
    by apply spawn_inv.
  - destruct Hr as [-> _]. by apply alloc_pid_inv.
Qed.

(** Entries rewritten without touching what the invariant reads. *)
Lemma update_inv w w' oth : procs_inv (w, oth) →
  frames w' = frames w → pm_next_pid (pm w') = pm_next_pid (pm w) →
  (∀ q p', get q w' = Some p' → ∃ p, get q w = Some p ∧ p_pid p' = p_pid p ∧
     p_kernel_stack p' = p_kernel_stack p ∧ p_exit_code p' = p_exit_code p) →
  (∀ q, is_Some (get q w) → is_Some (get q w')) →
  procs_inv (w', oth).
Proof.
  intros [Ho Hn Hp Hs] Hf Hnp Hg Hg'. split; cbn [fst snd] in *.
  - rewrite Hf. eapply owners_ext; [|exact Ho]. intros [q|k]; [|done]. cbn [held fst].
    destruct (get q w') as [p'|] eqn:E'.
    + destruct (Hg q p' E') as (p & -> & _ & Hk & He). unfold live, stack_range. by rewrite He, Hk.
    + destruct (get q w) eqn:E; [|done]. destruct (Hg' q ltac:(by eexists)) as [? ?]. congruence.
  - by rewrite Hnp.
  - intros q p' Hq. destruct (Hg q p' Hq) as (p & Hqp & -> & _). rewrite Hnp. by apply Hp.
  - intros q p' Hq. destruct (Hg q p' Hq) as (p & Hqp & _ & Hk & He). unfold live, stack_range.
    rewrite He, Hk. by apply (Hs q).
Qed.

Lemma get_set_table q pid p w : get q (set_table <[pid := p]> w) = if decide (q = pid) then Some p else get q w.
Proof. unfold get. simpl. case_decide as Hq; [subst; apply lookup_insert_eq|by apply lookup_insert_ne]. Qed.

(** One entry replaced by one with the same pid, stack and exit code. *)
Lemma update_entry_inv w w' oth pid p p' : procs_inv (w, oth) → get pid w = Some p →
  frames w' = frames w → pm_next_pid (pm w') = pm_next_pid (pm w) →
  (∀ q, get q w' = if decide (q = pid) then Some p' else get q w) →
  p_pid p' = p_pid p → p_kernel_stack p' = p_kernel_stack p → p_exit_code p' = p_exit_code p →
  procs_inv (w', oth).
Proof.
  intros Hi Hp Hf Hn Hg H1 H2 H3. apply (update_inv w); [done..| |].
  - intros q x. rewrite Hg. case_decide as Hq; [|eauto]. intros [= <-]. subst. eauto.
  - intros q. rewrite Hg. case_decide; eauto.
Qed.

Lemma switch_to_frames pid w : frames (switch_to pid w).1 = frames w ∧ sys (switch_to pid w).1 = sys w ∧
  pm_next_pid (pm (switch_to pid w).1) = pm_next_pid (pm w).
Proof. unfold switch_to. by repeat case_match. Qed.

Lemma pm_switch_inv pid w oth : procs_inv (w, oth) → procs_inv ((switch_to pid w).1, oth).
Proof.
  intros Hi. unfold switch_to. destruct (get pid w) as [t|] eqn:Et; [|done].
  destruct (current_pid w) as [cur|] eqn:Ec.
  - case_decide; [done|]. destruct (get cur w) as [c|] eqn:Egc; [|done].
    apply (update_entry_inv w _ oth cur c (with_context (cpu w) c)); try done.
    intros q. unfold get. simpl. case_decide as Hq; [subst; apply lookup_insert_eq|by apply lookup_insert_ne].
  - apply (update_inv w); try done; eauto.
Qed.

Lemma terminate_spec pid code w p : get pid w = Some p →
  terminate pid code w =
  (mkMachine (pm (set_table <[pid := with_exit code p]> w))
     (if 0 <? sat_sub (p_kernel_stack p) KERNEL_STACK_SIZE
      then free_contiguous (from_address (sat_sub (p_kernel_stack p) KERNEL_STACK_SIZE)) stack_frames (frames w)
      else frames w)
     (ram w) (cpu w) (do_exit pid (p_parent p) code rusage_default (sys w)), Ok tt).
Proof. intros Hp. unfold terminate. by rewrite Hp. Qed.

(** The frames [terminate] gives back are those of the stack. *)
Lemma stack_base_frame p f : 0 ≤ f → p_kernel_stack p = f * PAGE_SIZE + KERNEL_STACK_SIZE →
  sat_sub (p_kernel_stack p) KERNEL_STACK_SIZE = f * PAGE_SIZE ∧ stack_range p = (f, stack_frames) ∧
  from_address (f * PAGE_SIZE) = mkFrame f.
Proof.
  intros Hf Hp. unfold sat_sub, stack_range, from_address. rewrite Hp, Z.add_simpl_r.
  rewrite Z.div_mul by done. split; [|done]. apply Z.max_r. unfold PAGE_SIZE. lia.
Qed.

Lemma pm_terminate_inv pid code w oth : procs_inv (w, oth) → call_ok (Terminate pid code) (w, oth) = true →
  procs_inv ((terminate pid code w).1, oth).
Proof.
  intros Hi Hok. cbn [call_ok fst] in Hok.
  destruct (get pid w) as [p|] eqn:Ep; [|unfold terminate; by rewrite Ep].
  rewrite (terminate_spec _ _ _ _ Ep). cbn [fst]. destruct Hi as [Ho Hn Hp Hs]; cbn [fst snd] in *.
  set (w' := mkMachine _ _ _ _ _).
  assert (∀ q, get q w' = if decide (q = pid) then Some (with_exit code p) else get q w) as Hg.
  { intros q. unfold get. simpl. case_decide as Hq; [subst; apply lookup_insert_eq|by apply lookup_insert_ne]. }
  assert (held (w, oth) (inl pid) = Some (stack_range p)) as Hh by (cbn [held fst]; by rewrite Ep, Hok).
  assert (held (w', oth) (inl pid) = None) as Hh' by (cbn [held fst]; by rewrite Hg, decide_True).
  assert (∀ k, k ≠ inl pid → held (w', oth) k = held (w, oth) k) as Hhe.
  { intros [q|k] Hne; [|done]. cbn [held fst]. rewrite Hg, decide_False by congruence. done. }
  pose proof (Hs _ _ Ep Hok) as Hks. destruct (ow_used _ _ Ho _ _ Hh) as (Hf & _).
  destruct (stack_base_frame p (stack_range p).1 Hf Hks) as (Hb & Hr & Hfa).
  split; cbn [fst snd].
  - assert (frames w' = if 0 <? (stack_range p).1 * PAGE_SIZE
      then free_contiguous (mkFrame (stack_range p).1) stack_frames (frames w) else frames w) as ->
      by (unfold w'; cbn [frames]; by rewrite Hb, Hfa).
    destruct (0 <? (stack_range p).1 * PAGE_SIZE).
    + by apply (owners_give _ (held (w, oth)) _ (inl pid)).
    + by apply (owners_drop _ (held (w, oth)) _ (inl pid)).
  - done.
  - intros q x. rewrite Hg. case_decide as Hq; [|apply Hp]. intros [= <-]. subst. by apply (Hp pid p).
  - intros q x. rewrite Hg. case_decide as Hq; [|apply Hs]. by intros [= <-].
Qed.

Lemma exec_frames data args env name w : fa_wf (frames w) →
  match prepare_exec data args env with
  | Err e => exec_from_memory data args env name w = (w, Err e)
  | Ok (_, ctx, _) =>
      match allocate_user_page_table (cr3 (cpu w)) (frames w, ram w) with
      | ((_, _), Err _) => exec_from_memory data args env name w = (w, Err (Fails ExecOutOfMemory))
      | ((fa, m), Ok page_table) => ∃ f,
          run_free (bitmap (frames w)) f 1 ∧ fa = take_run (frames w) f 1 ∧
          page_table = f * PAGE_SIZE ∧
          let w1 := mkMachine (pm w) fa m (cpu w) (sys w) in
          let r := spawn_user name (ctx_entry ctx) page_table (mkToken 0 0 0 0) w1 in
          exec_from_memory data args env name w
          = (r.1, match r.2 with Ok pid => Ok (pid_raw pid) | Err _ => Err (Fails ProcessCreationFailed) end)
      end
  end.
Proof.
  intros Hwf. unfold exec_from_memory. destruct (prepare_exec data args env) as [[[info ctx] stk]|e]; [|done].
  unfold allocate_user_page_table. pose proof (allocate_contiguous_spec (frames w) 1 Hwf ltac:(lia)) as Ha.
  unfold allocate. destruct (allocate_contiguous 1 (frames w)) as [fa [[f]|e]].
  - destruct Ha as (Hr & -> & _). pose proof Hr as (H1 & H2 & _). exists f.
    rewrite page_address by lia. split_and!; try done. cbv zeta.
    by destruct (spawn_user _ _ _ _ _) as [w2 [pid|e]].
  - destruct Ha as (-> & _). by destruct w.
Qed.

Lemma exec_from_memory_inv data args env name w oth :
  procs_inv (w, oth) → pm_next_pid (pm w) + 1 < 2 ^ 64 →
  procs_inv ((exec_from_memory data args env name w).1, oth).
Proof.
  intros Hi Hlt. pose proof (exec_frames data args env name w (ow_wf _ _ (pi_owners _ Hi))) as He.
  destruct (prepare_exec data args env) as [[[info ctx] stk]|e]; [|by rewrite He].
  destruct (allocate_user_page_table _ _) as [[fa m] [pt|e]]; [|by rewrite He].
  destruct He as (f & Hr & -> & -> & He). rewrite He. cbn [fst].
  assert (procs_inv (mkMachine (pm w) (take_run (frames w) f 1) m (cpu w) (sys w), oth)) as Hi'.
  { destruct Hi as [Ho Hn Hp Hs]. split; cbn [fst snd] in *; try done.
    apply owners_take_none; [|lia|done]. eapply owners_ext; [|exact Ho]. by intros [q|k]. }
  eapply spawn_result_inv; [exact Hi'|done| |].
  - apply spawn_user_spec. apply Hi'.
  - done.
Qed.

Lemma proc_step_inv c w oth : procs_inv (w, oth) → call_ok c (w, oth) = true →
  pm_next_pid (pm w) + 1 < 2 ^ 64 → procs_inv (proc_step c (w, oth)).
Proof.
  intros Hi Hok Hlt. pose proof (ow_wf _ _ (pi_owners _ Hi)) as Hwf. cbn [fst] in Hwf.
  destruct c as [name entry cap|name entry pt cap|data args env name|pid st|pid brk|pid code|pid|k count|k];
    cbn [proc_step].
  - eapply spawn_result_inv; [done|done|by apply spawn_kernel_spec|done].
  - eapply spawn_result_inv; [done|done|by apply spawn_user_spec|done].
  - by apply exec_from_memory_inv.
  - unfold set_state. destruct (get pid w) as [p|] eqn:Ep; [|done].
    apply (update_entry_inv w _ oth pid p (with_state st p)); try done. intros q. apply get_set_table.
  - unfold set_brk. destruct (get pid w) as [p|] eqn:Ep; [|done].
    apply (update_entry_inv w _ oth pid p (with_brk brk p)); try done. intros q. apply get_set_table.
  - by apply pm_terminate_inv.
  - by apply pm_switch_inv.
  - destruct (oth !! k) as [r|] eqn:Ek; [done|]. cbn [call_ok] in Hok. apply Z.leb_le in Hok.
    pose proof (allocate_contiguous_spec (frames w) count Hwf Hok) as Ha.
    destruct (allocate_contiguous count (frames w)) as [fa [[f]|e]]; [|done].
    destruct Ha as (Hr & -> & _). destruct Hi as [Ho Hn Hp Hs]. split; cbn [fst snd] in *; try done.
    apply (owners_take _ (held (w, oth)) _ (inr k)); try done; cbn [held fst snd].
    + apply lookup_insert_eq.
    + intros [q|j] Hne; [done|]. cbn [held fst snd]. apply lookup_insert_ne. congruence.
  - destruct (oth !! k) as [[f count]|] eqn:Ek; [|done].
    destruct Hi as [Ho Hn Hp Hs]. split; cbn [fst snd] in *; try done.
    apply (owners_give _ (held (w, oth)) _ (inr k)); try done; cbn [held fst snd].
    + apply lookup_delete_eq.
    + intros [q|j] Hne; [done|]. cbn [held fst snd]. apply lookup_delete_ne. congruence.
Qed.

Lemma alloc_pid_next w : pm_next_pid (pm (alloc_pid w).1) = u64_add (pm_next_pid (pm w)) 1.
Proof. done. Qed.

Lemma spawn_result_next w r mk : spawn_result w r mk →
  pm_next_pid (pm r.1) = u64_add (pm_next_pid (pm w)) 1.
Proof.
  destruct r as [w' [pid|e]]; cbn [spawn_result fst]; [intros (_ & f & _ & ->); done|by intros [-> _]].
Qed.

(** A step uses at most one pid. *)
Lemma proc_step_next c w oth : procs_inv (w, oth) → pm_next_pid (pm w) + 1 < 2 ^ 64 →
  pm_next_pid (pm (proc_step c (w, oth)).1) ≤ pm_next_pid (pm w) + 1.
Proof.
  intros Hi Hlt. pose proof (ow_wf _ _ (pi_owners _ Hi)) as Hwf. cbn [fst] in Hwf.
  destruct (pi_next _ Hi) as [Hn _]. cbn [fst] in Hn.
  assert (u64_add (pm_next_pid (pm w)) 1 = pm_next_pid (pm w) + 1) as Hu by (apply u64_add_small; lia).
  destruct c as [name entry cap|name entry pt cap|data args env name|pid st|pid brk|pid code|pid|k count|k];
    cbn [proc_step].
  - pose proof (spawn_kernel_spec name entry cap w Hwf) as Hs. cbn [fst].
    rewrite (spawn_result_next _ _ _ Hs). lia.
  - pose proof (spawn_user_spec name entry pt cap w Hwf) as Hs. cbn [fst].
    rewrite (spawn_result_next _ _ _ Hs). lia.
  - pose proof (exec_frames data args env name w Hwf) as He. cbn [fst].
    destruct (prepare_exec data args env) as [[[info ctx] stk]|e]; [|rewrite He; simpl; lia].
    destruct (allocate_user_page_table _ _) as [[fa m] [pt|e]]; [|rewrite He; simpl; lia].
    destruct He as (f & Hr & -> & -> & He). rewrite He. cbn [fst].
    set (w1 := mkMachine _ _ _ _ _).
    destruct (take_run_spec (frames w) f 1 Hwf ltac:(lia) Hr) as (Hwf1 & _).
    pose proof (spawn_user_spec name (ctx_entry ctx) (f * PAGE_SIZE) (mkToken 0 0 0 0) w1 Hwf1) as Hs.
    rewrite (spawn_result_next _ _ _ Hs). unfold w1. simpl. lia.
  - unfold set_state. destruct (get pid w); simpl; lia.
  - unfold set_brk. destruct (get pid w); simpl; lia.
  - unfold terminate. destruct (get pid w); simpl; lia.
  - cbn [fst]. destruct (switch_to_frames pid w) as (_ & _ & ->). lia.
  - repeat case_match; simpl; lia.
  - repeat case_match; simpl; lia.
Qed.

Lemma history_inv cs : ∀ w oth, procs_inv (w, oth) → history_ok cs (w, oth) = true →
  pm_next_pid (pm w) + Z.of_nat (length cs) < 2 ^ 64 → procs_inv (run_ops proc_step cs (w, oth)).
Proof.
  induction cs as [|c cs IH]; intros w oth Hi Hok Hlt; [done|]. cbn [history_ok] in Hok.
  apply andb_true_iff in Hok as [Hc Hok]. simpl length in Hlt.
  pose proof (proc_step_inv c w oth Hi Hc ltac:(lia)) as Hi'.
  pose proof (proc_step_next c w oth Hi ltac:(lia)) as Hn.
  change (run_ops proc_step (c :: cs) (w, oth)) with (run_ops proc_step cs (proc_step c (w, oth))).
  destruct (proc_step c (w, oth)) as [w' oth']. cbn [fst] in Hn. apply IH; [done|done|lia].
Qed.

Lemma procs_inv_init fa m c s : fa_wf fa → procs_inv (mkMachine pm_new fa m c s, ∅).
Proof.
  intros Hwf. split; cbn [fst snd]; simpl; try done. split; [done| |].
  - intros [q|k] r; cbn [held fst snd get]; unfold get; simpl; by rewrite lookup_empty.
  - intros [q|k] k' r r' _; cbn [held fst snd get]; unfold get; simpl; by rewrite lookup_empty.
Qed.

(** [C17] No two processes share a kernel stack. After any history of spawns of kernel and
    user threads ([spawn_elf] apart, whose stack is never allocated:
    [spawn_elf_stack_not_allocated]) and executions of files, state changes, terminations
    (of each process once: a second one would free its frames again,
    [terminate_again_frees]), context switches, and allocations and releases of frames by
    the rest of the kernel: every process in the table is under its own pid, and the kernel
    stack of every live process is 16 frames that are allocated, that end at its
    [kernel_stack], that no other live process' stack overlaps and that overlap nothing the
    rest of the kernel holds. *)
Theorem kernel_stacks_disjoint fa m c s cs (st := run_ops proc_step cs (mkMachine pm_new fa m c s, ∅)) :
  fa_wf fa → history_ok cs (mkMachine pm_new fa m c s, ∅) = true → Z.of_nat (length cs) + 1 < 2 ^ 64 →
  (∀ pid p, get pid st.1 = Some p → p_pid p = pid) ∧
  (∀ pid p, get pid st.1 = Some p → live p = true →
     p_kernel_stack p = (stack_range p).1 * PAGE_SIZE + KERNEL_STACK_SIZE ∧
     range_used (frames st.1) (stack_range p) ∧
     (∀ pid' p', pid ≠ pid' → get pid' st.1 = Some p' → live p' = true →
        range_disjoint (stack_range p) (stack_range p')) ∧
     (∀ k r, st.2 !! k = Some r → range_disjoint (stack_range p) r)).
Proof.
  intros Hwf Hok Hlt. assert (procs_inv st) as [[_ Hu Hd] _ Hp Hs].
  { apply history_inv; [by apply procs_inv_init|done|simpl; lia]. }
  assert (∀ pid p, get pid st.1 = Some p → live p = true → held st (inl pid) = Some (stack_range p)) as Hh.
  { intros pid p Hg Hl. cbn [held]. by rewrite Hg, Hl. }
  split; [by intros pid p []%Hp|]. intros pid p Hg Hl.
  split; [by apply (Hs pid)|]. split; [by eapply Hu, Hh|]. split.
  - intros pid' p' Hne Hg' Hl'. apply (Hd (inl pid) (inl pid')); [congruence|by apply Hh..].
  - intros k r Hk. by apply (Hd (inl pid) (inr k)); [done|apply Hh|].
Qed.

(** Switching away from a process and back. With [a] running and [b] another process
    of the table, [switch_to b] loads [b]'s saved registers and makes it current; and
    however the machine then changes, if [b] is still current and [a]'s entry is as it
    was left, [switch_to a] restores every register [a] had (with the page table and the
    flags), makes it current, and saves [b]'s registers. *)
Theorem switch_away_and_back a b pa pb w w2 :
  a ≠ b → current_pid w = Some a → get a w = Some pa → get b w = Some pb →
  let '(w1, r1) := switch_to b w in
  r1 = Ok tt ∧ cpu w1 = p_context pb ∧ current_pid w1 = Some b ∧
  (current_pid w2 = Some b → get a w2 = get a w1 → ∀ pb', get b w2 = Some pb' →
   let '(w3, r3) := switch_to a w2 in
   r3 = Ok tt ∧ cpu w3 = cpu w ∧ current_pid w3 = Some a ∧
   get b w3 = Some (with_context (cpu w2) pb') ∧
   ∀ q, q ≠ b → get q w3 = get q w2).
Proof.
  intros Hab Hc Ha Hb. unfold switch_to at 1. rewrite Hb, Hc, decide_False, Ha by done.
  split_and!; [done..|]. intros Hc2 Ha2 pb' Hb2.
  assert (get a w2 = Some (with_context (cpu w) pa)) as Hga.
  { rewrite Ha2. unfold get. simpl. apply lookup_insert_eq. }
  unfold switch_to. rewrite Hga, Hc2, decide_False, Hb2 by done.
  split_and!; try done; [apply lookup_insert_eq|]. intros q Hq. by apply lookup_insert_ne.
Qed.

(** Terminating a process. [terminate] of an unknown pid fails and changes nothing.
    Of a process whose kernel stack is 16 allocated frames (other than frames 0 to 15), it
    marks the entry terminated with the exit code and touches no other entry, gives back
    exactly the stack's frames, keeps the allocator well formed, leaves a zombie with the
    exit status for the parent, and, if the parent has signal state, leaves [SIGCHLD]
    pending there and no other process' signals changed. *)
Theorem terminate_correct pid code w :
  match get pid w with
  | None => terminate pid code w = (w, Err ProcNotFound)
  | Some p =>
      fa_wf (frames w) → 0 < (stack_range p).1 → range_used (frames w) (stack_range p) →
      p_kernel_stack p = (stack_range p).1 * PAGE_SIZE + KERNEL_STACK_SIZE →
      let '(w', r) := terminate pid code w in
      r = Ok tt ∧ (∀ q, get q w' = if decide (q = pid) then Some (with_exit code p) else get q w) ∧
      fa_wf (frames w') ∧ free_count (frames w') = free_count (frames w) + 16 ∧
      (∀ g, in_range g → bm_get (bitmap (frames w')) g
         = bm_get (bitmap (frames w)) g
           || ((stack_range p).1 <=? g) && (g <? (stack_range p).1 + 16)) ∧
      zombies (wm (sys w')) !! pid
        = Some (mkZombie pid (p_parent p) (from_exit_code code) rusage_default) ∧
      (∀ q, q ≠ p_parent p → states (mgr (sw (sys w'))) !! q = states (mgr (sw (sys w))) !! q) ∧
      (∀ s, states (mgr (sw (sys w))) !! p_parent p = Some s →
         ∃ s', states (mgr (sw (sys w'))) !! p_parent p = Some s' ∧ SIGCHLD ∈ ps_signal <$> pending s')
  end.
Proof.
  destruct (get pid w) as [p|] eqn:Ep; [|unfold terminate; by rewrite Ep].
  intros Hwf Hf Hu Hks. rewrite (terminate_spec _ _ _ _ Ep).
  destruct (stack_base_frame p (stack_range p).1 ltac:(lia) Hks) as (Hb & Hr & Hfa).
  rewrite Hb, Hfa. rewrite (proj2 (Z.ltb_lt 0 _)) by (unfold PAGE_SIZE; lia).
  destruct Hu as (Hu0 & Hu1 & Hu2 & Hu3). rewrite Hr in Hu1, Hu2, Hu3. cbn [fst snd] in *.
  destruct (free_contiguous_wf (frames w) (stack_range p).1 stack_frames Hwf) as [Hwf' Hfree];
    [lia|lia|lia|done|].
  destruct (free_contiguous_spec (frames w) (stack_range p).1 stack_frames) as [_ Hget]; [apply Hwf|lia|lia|].
  pose proof (send_chld_states (p_parent p) (mkInfoS SIGCHLD 0 ChildExited (Some pid) 0 (u64 code) None)
    (sw (sys w))) as [Hst1 Hst2].
  split_and!; [done| |done|done|done| | |].
  - intros q. unfold get. simpl. case_decide as Hq; [subst; apply lookup_insert_eq|by apply lookup_insert_ne].
  - apply lookup_insert_eq.
  - intros q Hq. cbn [sys]. unfold do_exit. cbn [sw]. case_decide; cbn [mgr]; by apply Hst1.
  - intros s Hs. eexists. split; [|apply chld_pending]. cbn [sys]. unfold do_exit. cbn [sw].
    case_decide; cbn [mgr]; by apply Hst2.
Qed.

(** Executing a file from memory. If the parser or the overlap check rejects the file,
    nothing changes. Otherwise, with a frame for a page table (the kernel's own table
    being in use), a new process under a fresh pid starts at the file's entry point, on a
    fresh page table whose kernel half is the kernel's; no memory outside that table
    changes, the table's user half is empty, and the stack pointer is [USER_STACK_TOP]:
    no segment of the file is mapped or copied, and the stack [prepare_exec] built is
    dropped. *)
Theorem exec_from_memory_correct data args env name w :
  fa_wf (frames w) → (∀ x, is_byte (load8 (ram w) x)) →
  0 ≤ cr3 (cpu w) < MAX_FRAMES * PAGE_SIZE → bm_get (bitmap (frames w)) (cr3 (cpu w) / PAGE_SIZE) = false →
  match prepare_exec data args env, exec_from_memory data args env name w with
  | Err e, r => r = (w, Err e)
  | Ok (_, ctx, _), (w', Ok pid) =>
      pid = pm_next_pid (pm w) ∧
      ∃ f top, run_free (bitmap (frames w)) f 1 ∧
        get (mkPid pid) w' = Some (Process_new_user (mkPid pid) name (parent_of w) (ctx_entry ctx)
          (f * PAGE_SIZE) top USER_STACK_TOP (mkToken 0 0 0 0)) ∧
        (∀ q, q ≠ mkPid pid → get q w' = get q w) ∧
        (∀ i, 0 ≤ i < 256 → load64 (ram w') (f * PAGE_SIZE + 8 * i) = 0) ∧
        (∀ i, 256 ≤ i < 512 → load64 (ram w') (f * PAGE_SIZE + 8 * i)
           = load64 (ram w) (cr3 (cpu w) / PAGE_SIZE * PAGE_SIZE + 8 * i)) ∧
        (∀ x, x < f * PAGE_SIZE ∨ f * PAGE_SIZE + PAGE_SIZE ≤ x → load8 (ram w') x = load8 (ram w) x)
  | Ok _, (w', Err e) =>
      (∀ q, get q w' = get q w) ∧
      (e = Fails ExecOutOfMemory ∧ w' = w ∨ e = Fails ProcessCreationFailed)
  end.
Proof.
  intros Hwf Hb Hc Hu. pose proof (exec_frames data args env name w Hwf) as He.
  destruct (prepare_exec data args env) as [[[info ctx] stk]|e]; [|done].
  pose proof (user_page_table_spec (cr3 (cpu w)) (frames w) (ram w) Hwf Hb Hc Hu) as Hpt.
  destruct (allocate_user_page_table _ _) as [[fa m] [pt|e]].
  2:{ rewrite He. split; [done|]. by left. }
  destruct He as (f & Hr & -> & -> & He). rewrite He. destruct Hpt as (_ & Hz & Hk & Hm).
  set (w1 := mkMachine _ _ _ _ _).
  destruct (take_run_spec (frames w) f 1 Hwf ltac:(lia) Hr) as (Hwf1 & _).
  pose proof (spawn_user_spec name (ctx_entry ctx) (f * PAGE_SIZE) (mkToken 0 0 0 0) w1 Hwf1) as Hs.
  destruct (spawn_user _ _ _ _ _) as [w2 [pid|e]]; cbn [spawn_result fst snd] in *.
  - destruct Hs as (-> & f2 & Hr2 & ->). split; [done|].
    exists f, (f2 * PAGE_SIZE + KERNEL_STACK_SIZE). split_and!; [done| | |done..].
    + unfold spawned. rewrite get_set_table. by rewrite decide_True.
    + intros q Hq. unfold spawned. rewrite get_set_table. by rewrite decide_False.
  - destruct Hs as [-> ->]. split; [done|]. by right.
Qed.

(** *** What the process manager does not do *)

(** [spawn_kernel] passes [new_kernel] the top of the stack, which adds the stack's size
    again: the thread starts with its stack pointer 64 KiB above its own stack. *)
Lemma kernel_thread_above_its_stack name entry cap w w' pid :
  fa_wf (frames w) → spawn_kernel name entry cap w = (w', Ok pid) →
  ∃ p, get pid w' = Some p ∧ rsp (p_context p) = p_kernel_stack p + KERNEL_STACK_SIZE ∧
    (stack_range p).1 * PAGE_SIZE + 2 * KERNEL_STACK_SIZE = rsp (p_context p).
Proof.
  intros Hwf Hs. pose proof (spawn_kernel_spec name entry cap w Hwf) as Hr. rewrite Hs in Hr.
  destruct Hr as (-> & f & (H1 & H2 & _) & ->). rewrite stack_frames_val, MAX_FRAMES_val in H2.
  eexists. split; [unfold spawned; by rewrite get_set_table, decide_True|].
  cbn [p_context Process_new_kernel p_kernel_stack new_kernel rsp].
  destruct (stack_base_frame (Process_new_kernel (cr3 (cpu w)) (mkPid (pm_next_pid (pm w))) name (parent_of w)
    entry (f * PAGE_SIZE + KERNEL_STACK_SIZE) cap) f H1 eq_refl) as (_ & -> & _). cbn [fst].
  unfold PAGE_SIZE, KERNEL_STACK_SIZE. rewrite u64_add_small by lia. lia.
Qed.

(** [terminate] does not look at the state: a second one frees the frames again, whoever
    holds them by then. *)
Lemma terminate_again_frees pid code w p g :
  get pid w = Some p → fa_wf (frames w) → 0 < (stack_range p).1 →
  p_kernel_stack p = (stack_range p).1 * PAGE_SIZE + KERNEL_STACK_SIZE →
  (stack_range p).1 <= g < (stack_range p).1 + 16 → g < MAX_FRAMES →
  bm_get (bitmap (frames (terminate pid code w).1)) g = true.
Proof.
  intros Hp Hwf Hf Hks Hg Hm. rewrite (terminate_spec _ _ _ _ Hp). cbn [fst frames].
  destruct (stack_base_frame p (stack_range p).1 ltac:(lia) Hks) as (Hb & _ & Hfa).
  rewrite Hb, Hfa. rewrite (proj2 (Z.ltb_lt 0 _)) by (unfold PAGE_SIZE; lia).
  destruct (free_contiguous_spec (frames w) (stack_range p).1 stack_frames) as [_ Hget];
    [apply Hwf|lia|by rewrite stack_frames_val|].
  rewrite Hget by (unfold in_range; lia). rewrite stack_frames_val. lia.
Qed.

(** [spawn_elf] allocates nothing for the kernel stack: terminating such a process frees 16
    frames above the first 4 GiB that it never had. *)
Lemma spawn_elf_stack_not_allocated name data pt cap code w w' pid :
  fa_wf (frames w) → 1 ≤ pm_next_pid (pm w) < 1000 →
  spawn_elf name data pt cap w = (w', Ok pid) →
  frames w' = frames w ∧ ∀ g, 0x100000 + 16 * (pid_raw pid - 1) ≤ g < 0x100000 + 16 * (pid_raw pid - 1) + 16 →
    bm_get (bitmap (frames (terminate pid code w').1)) g = true.
Proof.
  intros Hwf Hn. unfold spawn_elf. rewrite (surjective_pairing (alloc_pid w)).
  destruct (from_elf _ _ _ _ _ _ _) as [p|[e| |]] eqn:E; try done. intros [= <- <-].
  split; [done|]. intros g Hg. cbn [pid_raw] in Hg.
  assert (p_kernel_stack p = 0x100000000 + pm_next_pid (pm w) * KERNEL_STACK_SIZE) as Hks.
  { unfold from_elf in E. destruct (prepare_exec _ _ _) as [[[i x] d]|]; [|done]. injection E as <-.
    cbn [p_kernel_stack alloc_pid fst snd pid_raw]. unfold u64_mul, KERNEL_STACK_SIZE.
    rewrite (u64_small (_ * _)) by (unfold is_u64; lia). apply u64_add_small; lia. }
  assert (p_kernel_stack p = (0x100000 + 16 * (pm_next_pid (pm w) - 1)) * PAGE_SIZE + KERNEL_STACK_SIZE) as Hks'.
  { rewrite Hks. unfold PAGE_SIZE, KERNEL_STACK_SIZE. lia. }
  destruct (stack_base_frame p (0x100000 + 16 * (pm_next_pid (pm w) - 1)) ltac:(lia) Hks') as (_ & Hr & _).
  pose proof (f_equal fst Hr) as Hr1. cbn [fst] in Hr1.
  apply (terminate_again_frees _ _ _ p).
  - cbn [snd alloc_pid]. rewrite get_set_table. by rewrite decide_True.
  - exact Hwf.
  - rewrite Hr1. lia.
  - by rewrite Hr1.
  - rewrite Hr1. exact Hg.
  - rewrite MAX_FRAMES_val. lia.
Qed.

Lemma do_exit_sched pid parent code ru (s : Sys S) q :
  is_Some (sif_state (sched (sw (do_exit pid parent code ru s))) q) ↔ is_Some (sif_state (sched (sw s)) q).
Proof.
  assert (∀ p (x : S) q, is_Some (sif_state (sif_wake p x) q) ↔ is_Some (sif_state x q)) as Hwk.
  { intros p x y. rewrite sif_wake_state. case_decide as Hd; [|done]. destruct Hd as [-> ->].
    split; eauto. }
  unfold do_exit, send. cbn [sw]. repeat case_match; cbn [fst sched mgr]; rewrite ?Hwk; done.
Qed.

(** Nothing the process manager does makes a process known to the wait manager as a child
    or to the scheduler, as [exec_from_memory] says it is. *)
Lemma process_manager_alone c w oth w' oth' : proc_step c (w, oth) = (w', oth') →
  children (wm (sys w')) = children (wm (sys w)) ∧
  (∀ q, is_Some (sif_state (sched (sw (sys w'))) q) ↔ is_Some (sif_state (sched (sw (sys w))) q)).
Proof.
  assert (∀ w w', sys w' = sys w → children (wm (sys w')) = children (wm (sys w)) ∧
    (∀ q, is_Some (sif_state (sched (sw (sys w'))) q) ↔ is_Some (sif_state (sched (sw (sys w))) q))) as Hsame
    by (intros ? ? ->; done).
  assert (∀ n e p cap (v : Machine S), sys (spawn_user n e p cap v).1 = sys v) as Hsu.
  { intros. unfold spawn_user, alloc_kernel_stack. rewrite (surjective_pairing (alloc_pid v)).
    destruct (allocate_contiguous _ _) as [? [?|?]]; done. }
  destruct c as [name entry cap|name entry pt cap|data args env name|pid st|pid brk|pid code|pid|k count|k];
    cbn [proc_step]; intros Heq.
  - injection Heq as <- <-. apply Hsame. unfold spawn_kernel, alloc_kernel_stack.
    rewrite (surjective_pairing (alloc_pid w)). destruct (allocate_contiguous _ _) as [? [?|?]]; done.
  - injection Heq as <- <-. by apply Hsame, Hsu.
  - injection Heq as <- <-. apply Hsame. unfold exec_from_memory.
    destruct (prepare_exec _ _ _) as [[[i x] d]|]; [|done].
    destruct (allocate_user_page_table _ _) as [[fa m] [pt|]]; [|done].
    pose proof (Hsu name (ctx_entry x) pt (mkToken 0 0 0 0) (mkMachine (pm w) fa m (cpu w) (sys w))) as Hx.
    destruct (spawn_user _ _ _ _ _) as [w2 [pid|]]; exact Hx.
  - injection Heq as <- <-. apply Hsame. unfold set_state. by destruct (get pid w).
  - injection Heq as <- <-. apply Hsame. unfold set_brk. by destruct (get pid w).
  - injection Heq as <- <-. unfold terminate. destruct (get pid w); [|done].
    cbn [fst sys]. split; [reflexivity|]. intros q. apply do_exit_sched.
  - injection Heq as <- <-. apply Hsame. apply switch_to_frames.
  - apply Hsame. repeat case_match; simplify_eq; done.
  - apply Hsame. repeat case_match; simplify_eq; done.
Qed.

(** A parent with no children of its own cannot wait for a process it spawned. *)
Lemma spawned_not_waitable meanwhile parent pid options c w oth w' oth' :
  get_children parent (wm (sys w)) = [] → proc_step c (w, oth) = (w', oth') →
  waitpid meanwhile parent pid options (sys w') = (sys w', Err NoChildren).
Proof.
  intros Hn Hs. destruct (process_manager_alone c w oth w' oth' Hs) as [Hc _].
  unfold waitpid, wait, wait_try, get_children in *. rewrite Hc. by rewrite bool_decide_eq_true_2.
Qed.

End histories.

(** ** Concrete machines *)

(** A machine with [n] free frames from frame 32 up (the first 32 in use). *)
Definition small_frames (n : Z) : FrameAllocator := add_region (32 * PAGE_SIZE) (n * PAGE_SIZE) Frames.new.
Definition small_machine (n : Z) : Machine Scheduler :=
  mkMachine pm_new (small_frames n) ∅ (new_kernel 0x1000 0x8000 0x5000) w_sys.

Lemma small_frames_spec n : 1 ≤ n ≤ 1024 →
  fa_wf (small_frames n) ∧ ∀ g, in_range g → bm_get (bitmap (small_frames n)) g = ((32 <=? g) && (g <? 32 + n)).
Proof.
  intros Hn. pose proof MAX_FRAMES_val.
  destruct (add_region_spec Frames.new 32 n new_wf) as (Hwf & _ & Hget); [lia|lia|lia| |].
  - intros g Hg. apply new_get. unfold in_range. lia.
  - split; [exact Hwf|]. intros g Hg. unfold small_frames. rewrite Hget, new_get by done. done.
Qed.

(** The first run at or above the hint is taken. *)
Lemma first_fit fa f c : fa_wf fa → 1 ≤ c → next_hint fa ≤ f → run_free (bitmap fa) f c →
  (∀ g, next_hint fa ≤ g < f → bm_get (bitmap fa) g = false) →
  allocate_contiguous c fa = (take_run fa f c, Ok (mkFrame f)).
Proof.
  intros Hwf Hc Hh Hr Hbelow. pose proof (allocate_contiguous_spec fa c Hwf Hc) as Ha.
  destruct (allocate_contiguous c fa) as [fa' [[f']|e]].
  - destruct Ha as ((H1 & H2 & H3) & -> & [[H4 H5]|[H4 _]]); [|by destruct (H4 f)].
    assert (f' = f) as ->; [|done].
    destruct (Z.lt_trichotomy f' f) as [Hlt|[?|Hlt]]; [|done|by destruct (H5 f ltac:(lia))].
    specialize (H3 f' ltac:(lia)). rewrite Hbelow in H3 by lia. done.
  - destruct Ha as (_ & _ & Hno & _). by destruct (Hno f).
Qed.

Lemma small_run n c : 1 ≤ c ≤ n → n ≤ 1024 →
  allocate_contiguous c (small_frames n) = (take_run (small_frames n) 32 c, Ok (mkFrame 32)) ∧
  run_free (bitmap (small_frames n)) 32 c.
Proof.
  intros Hc Hn. pose proof MAX_FRAMES_val. destruct (small_frames_spec n ltac:(lia)) as [Hwf Hget].
  assert (next_hint (small_frames n) = 0) as Hh
    by (unfold small_frames, add_region; by destruct (_ <=? _)).
  assert (run_free (bitmap (small_frames n)) 32 c) as Hr.
  { split_and!; [lia|lia|]. intros g Hg. rewrite Hget by (unfold in_range; lia). lia. }
  split; [|done]. apply first_fit; [done|lia|lia|done|]. intros g Hg.
  rewrite Hget by (unfold in_range; lia). lia.
Qed.

Definition one_spawn : list proc_call := [SpawnKernel "idle" 0x1000 (mkToken 0 0 0 0)].

(** The machine after one spawn. *)
Lemma one_spawn_state : ∃ f w', run_ops proc_step one_spawn (small_machine 16, ∅) = (w', ∅) ∧
  get (mkPid 1) w' = Some (Process_new_kernel 0x5000 (mkPid 1) "idle" KERNEL 0x1000
    (f * PAGE_SIZE + KERNEL_STACK_SIZE) (mkToken 0 0 0 0)) ∧ 32 ≤ f ∧ sys w' = w_sys ∧ procs_inv (w', ∅).
Proof.
  destruct (small_run 16 stack_frames) as [Ha Hr]; [rewrite stack_frames_val; lia|lia|].
  assert (spawn_kernel "idle" 0x1000 (mkToken 0 0 0 0) (small_machine 16) =
    (spawned (small_machine 16) 32 (Process_new_kernel 0x5000 (mkPid 1) "idle" KERNEL 0x1000
       (32 * PAGE_SIZE + KERNEL_STACK_SIZE) (mkToken 0 0 0 0)), Ok (mkPid 1))) as E.
  { unfold spawn_kernel, alloc_kernel_stack. rewrite (surjective_pairing (alloc_pid _)).
    change (frames (alloc_pid (small_machine 16)).1) with (small_frames 16). by rewrite Ha. }
  exists 32, (spawned (small_machine 16) 32 (Process_new_kernel 0x5000 (mkPid 1) "idle" KERNEL 0x1000
       (32 * PAGE_SIZE + KERNEL_STACK_SIZE) (mkToken 0 0 0 0))).
  set (w' := spawned _ _ _) in *. assert (run_ops proc_step one_spawn (small_machine 16, ∅) = (w', ∅)) as Hst.
  { unfold one_spawn. cbn [run_ops foldl proc_step]. by rewrite E. }
  split; [done|]. split; [unfold w', spawned; by rewrite get_set_table, decide_True|].
  split; [lia|]. split; [done|].
  rewrite <-Hst. destruct (small_frames_spec 16 ltac:(lia)) as [Hwf _].
  apply history_inv; [by apply procs_inv_init|reflexivity|reflexivity].
Qed.

Lemma kernel_stacks_disjoint_witness :
  let st := run_ops proc_step one_spawn (small_machine 16, ∅) in
  ∃ p, get (mkPid 1) st.1 = Some p ∧ range_used (frames st.1) (stack_range p).
Proof.
  intros st. destruct (small_frames_spec 16 ltac:(lia)) as [Hwf _].
  destruct (kernel_stacks_disjoint (small_frames 16) ∅ (new_kernel 0x1000 0x8000 0x5000) w_sys one_spawn Hwf)
    as (_ & Hlive); [reflexivity|reflexivity|].
  change (mkMachine pm_new (small_frames 16) ∅ (new_kernel 0x1000 0x8000 0x5000) w_sys)
    with (small_machine 16) in Hlive. fold st in Hlive.
  destruct one_spawn_state as (f & w' & Hst & Hg & _). fold st in Hst. rewrite Hst in Hlive |- *.
  eexists. split; [exact Hg|]. by destruct (Hlive _ _ Hg eq_refl) as (_ & Hu & _).
Defined.

Lemma terminate_correct_witness : ∃ w w',
  terminate (mkPid 1) 7 w = (w', Ok tt) ∧ p_exit_code <$> get (mkPid 1) w' = Some (Some 7) ∧
  zombies (wm (sys w')) !! mkPid 1 = Some (mkZombie (mkPid 1) KERNEL (from_exit_code 7) rusage_default).
Proof.
  destruct one_spawn_state as (f & w & _ & Hg & Hf & _ & [[Hwf Hu _] _ _ Hs]). cbn [fst snd] in *.
  set (p := Process_new_kernel _ _ _ _ _ _ _) in *.
  destruct (stack_base_frame p f ltac:(lia) eq_refl) as (_ & Hr & _).
  pose proof (terminate_correct (mkPid 1) 7 w) as Ht. rewrite Hg in Ht.
  specialize (Ht Hwf ltac:(rewrite Hr; simpl; lia)).
  specialize (Ht ltac:(apply (Hu (inl (mkPid 1))); cbn [held fst]; by rewrite Hg) (Hs _ _ Hg eq_refl)).
  exists w. destruct (terminate (mkPid 1) 7 w) as [w' r]. destruct Ht as (-> & Hget & _ & _ & _ & Hz & _).
  exists w'. split; [done|]. split; [by rewrite Hget|exact Hz].
Defined.

Lemma switch_away_and_back_witness : ∃ w : Machine Scheduler,
  let '(w1, r1) := switch_to (mkPid 2) w in
  let '(w3, r3) := switch_to (mkPid 1) (set_cpu (new_user 5 6 7) w1) in
  r1 = Ok tt ∧ r3 = Ok tt ∧ cpu w3 = cpu w ∧ cpu w = new_kernel 0x1000 0x8000 0x5000.
Proof.
  set (pk := λ n, Process_new_kernel 0x5000 (mkPid n) "k" KERNEL 0x1000 0x9000 (mkToken 0 0 0 0)).
  set (w := mkMachine (mkPM (<[mkPid 1 := pk 1]> (<[mkPid 2 := pk 2]> ∅)) (Some (mkPid 1)) 3)
    (small_frames 16) ∅ (new_kernel 0x1000 0x8000 0x5000) w_sys).
  exists w.
  pose proof (switch_away_and_back (mkPid 1) (mkPid 2) (pk 1) (pk 2) w
    (set_cpu (new_user 5 6 7) (switch_to (mkPid 2) w).1) ltac:(done) eq_refl eq_refl eq_refl) as Hsw.
  destruct (switch_to (mkPid 2) w) as [w1 r1] eqn:E1. destruct Hsw as (-> & _ & Hc & Hback).
  cbn [fst] in Hback.
  assert (get (mkPid 2) w1 = Some (pk 2)) as Hb.
  { replace w1 with (switch_to (mkPid 2) w).1 by by rewrite E1. reflexivity. }
  specialize (Hback Hc eq_refl (pk 2) Hb).
  destruct (switch_to (mkPid 1) _) as [w3 r3]. destruct Hback as (-> & Hcpu & _). done.
Defined.

Lemma sample_prepared : ∃ info ctx stk,
  prepare_exec sample_file ["a"%string] [] = Ok (info, ctx, stk) ∧ ctx_entry ctx = 0x400004.
Proof. eexists _, _, _. split; [by vm_compute|]. by vm_compute. Qed.

(** The same, executing a file on 17 free frames. *)
Lemma one_exec_state : ∃ w' pid,
  exec_from_memory sample_file ["a"%string] [] "a" (small_machine 17) = (w', Ok pid).
Proof.
  destruct (small_frames_spec 17 ltac:(lia)) as [Hwf Hget]. pose proof MAX_FRAMES_val as Hmax.
  pose proof (exec_frames sample_file ["a"%string] [] "a" (small_machine 17) Hwf) as Hx.
  destruct sample_prepared as (info & ctx & stk & Ep & _). rewrite Ep in Hx.
  destruct (small_run 17 1) as [Ha Hr]; [lia|lia|].
  unfold allocate_user_page_table, allocate in Hx. cbn [frames small_machine] in Hx. rewrite Ha in Hx.
  destruct Hx as (f & _ & Hfa & _ & Hx). rewrite Hx. clear Hx.
  destruct (take_run_spec (small_frames 17) 32 1 Hwf ltac:(lia) Hr) as (Hwf1 & _ & Hget1).
  assert (run_free (bitmap (take_run (small_frames 17) 32 1)) 33 stack_frames) as Hr2.
  { rewrite stack_frames_val. split_and!; [lia|lia|]. intros g Hg. rewrite Hget1, Hget by (unfold in_range; lia). lia. }
  set (w1 := mkMachine _ _ _ _ _).
  assert (∀ e w2, spawn_user "a" (ctx_entry ctx) (f * PAGE_SIZE) (mkToken 0 0 0 0) w1 = (w2, Err e) → False) as Hno.
  { intros e w2. unfold spawn_user, alloc_kernel_stack. rewrite (surjective_pairing (alloc_pid _)).
    change (frames (alloc_pid w1).1) with (take_run (small_frames 17) 32 1).
    assert (next_hint (take_run (small_frames 17) 32 1) = 33) as Hh by reflexivity.
    rewrite (first_fit _ 33 stack_frames Hwf1); [|rewrite stack_frames_val; lia|lia|exact Hr2|intros; lia].
    intros Hx%(f_equal snd). cbn [snd] in Hx. discriminate Hx. }
  destruct (spawn_user _ _ _ _ _) as [w2 [pid|e]]; [by eexists _, _|by destruct (Hno e w2)].
Qed.

Lemma exec_from_memory_correct_witness : ∃ w' pid,
  exec_from_memory sample_file ["a"%string] [] "a" (small_machine 17) = (w', Ok pid) ∧ pid = 1 ∧
  rip ∘ p_context <$> get (mkPid pid) w' = Some 0x400004.
Proof.
  destruct (small_frames_spec 17 ltac:(lia)) as [Hwf Hget]. pose proof MAX_FRAMES_val as Hmax.
  pose proof (exec_from_memory_correct sample_file ["a"%string] [] "a" (small_machine 17) Hwf) as He.
  specialize (He ltac:(intros x; unfold load8; cbn [ram small_machine]; rewrite lookup_empty; by split)).
  specialize (He ltac:(rewrite Hmax; by split)).
  specialize (He ltac:(change (cr3 (cpu (small_machine 17)) / PAGE_SIZE) with 5; cbn [frames small_machine];
    rewrite Hget; [done|unfold in_range; lia])).
  destruct one_exec_state as (w' & pid & Hok). rewrite Hok in He. exists w', pid. split; [done|].
  destruct sample_prepared as (info & ctx & stk & Ep & Hent). rewrite Ep in He.
  destruct He as (-> & f & top & _ & Hg & _). split; [done|]. rewrite Hg. cbn. by rewrite Hent.
Defined.
