(* ===== verification/Packets.v ===== *)
(** * Packets: Ethernet, ARP, IPv4 and ICMP
    ([kernel/src/net/ethernet.rs], [arp.rs], [ip.rs], [icmp.rs])

    Parsers and serialisers of packets as functions on bytes, the Internet checksum, and
    the ARP cache. Addresses are their bytes in network order. *)

From Stdlib Require Import ZArith Lia.
From stdpp Require Import list gmap.
From S2P Require Import Prelude.
From S2P Require Import Ids.
From S2P Require Import Bytes.

Abbreviation MacAddress := (list Z).
Abbreviation Ipv4Address := (list Z).

(** [data[off..off + n]] and the big-endian numbers of two and four bytes. *)
Definition sub (data : list Z) (off n : nat) : list Z := take n (drop off data).
Definition u16_at (data : list Z) (off : nat) : Z := from_be_bytes (sub data off 2).
Definition u32_at (data : list Z) (off : nat) : Z := from_be_bytes (sub data off 4).
Definition u8_at (data : list Z) (off : nat) : Z := nth off data 0.

(** A parser returns a packet, [None], or panics on an index out of range. *)
Inductive Parsed (A : Type) := NotParsed | ParsePanics | ParsedAs (a : A).
Arguments NotParsed {A}.
Arguments ParsePanics {A}.
Arguments ParsedAs {A} a.

(** ** The Internet checksum *)

(** [while (sum >> 16) != 0]: twice is enough for 32 bits, see [fold_done]. *)
Fixpoint fold_sum (fuel : nat) (sum : Z) : Z :=
  match fuel with
  | O => sum
  | S fuel => if Z.shiftr sum 16 =? 0 then sum
              else fold_sum fuel (u32 (Z.land sum 0xFFFF + Z.shiftr sum 16))
  end.

(** [!(sum as u16)] after the loop. *)
Definition finish_sum (sum : Z) : Z := word_not 16 (wrap 16 (fold_sum 3 sum)).

Definition internet_checksum (data : list Z) : Z :=
  finish_sum (foldl (λ sum word, u32 (sum + word)) 0 data).

(** The words of the loop of [checksum_bytes]: pairs, then the odd byte. *)
Fixpoint words_of (data : list Z) : list Z :=
  match data with
  | a :: b :: data => from_be_bytes [a; b] :: words_of data
  | [a] => [Z.shiftl a 8]
  | [] => []
  end.

Definition checksum_bytes (data : list Z) : Z :=
  finish_sum (foldl (λ sum word, u32 (sum + word)) 0 (words_of data)).

(** ** Ethernet *)

Definition ETHERTYPE_IPV4 : Z := 0x0800.
Definition ETHERTYPE_ARP : Z := 0x0806.
Definition ETHERTYPE_IPV6 : Z := 0x86DD.
Definition MAC_ZERO : MacAddress := [0; 0; 0; 0; 0; 0].
Definition MAC_BROADCAST : MacAddress := [0xFF; 0xFF; 0xFF; 0xFF; 0xFF; 0xFF].

Definition mac_from_bytes (bytes : list Z) : option MacAddress :=
  if decide (6 ≤ length bytes)%nat then Some (take 6 bytes) else None.
Definition mac_is_broadcast (a : MacAddress) : bool := bool_decide (a = MAC_BROADCAST).
Definition mac_is_multicast (a : MacAddress) : bool := negb (Z.land (nth 0 a 0) 0x01 =? 0).

Record EthernetFrame := mkFrame {
  dest_mac : MacAddress; src_mac : MacAddress; ethertype : Z; eth_payload : list Z
}.

Definition ETH_HEADER_SIZE : nat := 14.

Definition eth_parse (data : list Z) : option EthernetFrame :=
  if decide (length data < ETH_HEADER_SIZE)%nat then None
  else
    dest ← mac_from_bytes (sub data 0 6);
    src ← mac_from_bytes (sub data 6 6);
    Some (mkFrame dest src (u16_at data 12) (drop ETH_HEADER_SIZE data)).

(** [while bytes.len() < 60 { bytes.push(0) }]. *)
Definition pad_to (n : nat) (bytes : list Z) : list Z := bytes ++ replicate (n - length bytes) 0.

Definition eth_to_bytes (f : EthernetFrame) : list Z :=
  pad_to 60 (dest_mac f ++ src_mac f ++ to_be_bytes 2 (ethertype f) ++ eth_payload f).

(** ** IPv4 addresses *)

Definition ipv4_from_bytes (bytes : list Z) : option Ipv4Address :=
  if decide (4 ≤ length bytes)%nat then Some (take 4 bytes) else None.
Definition IPV4_ANY : Ipv4Address := [0; 0; 0; 0].
Definition IPV4_BROADCAST : Ipv4Address := [255; 255; 255; 255].
Definition LOCALHOST : Ipv4Address := [127; 0; 0; 1].
Definition is_loopback (a : Ipv4Address) : bool := nth 0 a 0 =? 127.
Definition is_broadcast (a : Ipv4Address) : bool := bool_decide (a = IPV4_BROADCAST).
Definition is_multicast (a : Ipv4Address) : bool := (224 <=? nth 0 a 0) && (nth 0 a 0 <=? 239).

(** ** ARP *)

Definition ARP_REQUEST : Z := 1.
Definition ARP_REPLY : Z := 2.
Definition HARDWARE_ETHERNET : Z := 1.
Definition PROTOCOL_IPV4 : Z := 0x0800.
Definition ARP_SIZE : nat := 28.

Record ArpPacket := mkArp {
  hardware_type : Z; protocol_type : Z; hw_addr_len : Z; proto_addr_len : Z; operation : Z;
  sender_mac : MacAddress; sender_ip : Ipv4Address; target_mac : MacAddress; target_ip : Ipv4Address
}.

Definition arp_request (mac : MacAddress) (ip target : Ipv4Address) : ArpPacket :=
  mkArp HARDWARE_ETHERNET PROTOCOL_IPV4 6 4 ARP_REQUEST mac ip MAC_ZERO target.
Definition arp_reply (mac : MacAddress) (ip : Ipv4Address) (tmac : MacAddress) (target : Ipv4Address) : ArpPacket :=
  mkArp HARDWARE_ETHERNET PROTOCOL_IPV4 6 4 ARP_REPLY mac ip tmac target.

Definition arp_parse (data : list Z) : option ArpPacket :=
  if decide (length data < ARP_SIZE)%nat then None
  else
    let hw := u16_at data 0 in
    let pr := u16_at data 2 in
    let hl := u8_at data 4 in
    let pl := u8_at data 5 in
    if negb (hw =? HARDWARE_ETHERNET) || negb (pr =? PROTOCOL_IPV4) || negb (hl =? 6) || negb (pl =? 4)
    then None
    else
      smac ← mac_from_bytes (sub data 8 6);
      sip ← ipv4_from_bytes (sub data 14 4);
      tmac ← mac_from_bytes (sub data 18 6);
      tip ← ipv4_from_bytes (sub data 24 4);
      Some (mkArp hw pr hl pl (u16_at data 6) smac sip tmac tip).

Definition arp_to_bytes (p : ArpPacket) : list Z :=
  to_be_bytes 2 (hardware_type p) ++ to_be_bytes 2 (protocol_type p) ++ [hw_addr_len p] ++ [proto_addr_len p]
  ++ to_be_bytes 2 (operation p) ++ sender_mac p ++ sender_ip p ++ target_mac p ++ target_ip p.

Record ArpEntry := mkArpEntry { arp_mac : MacAddress; arp_timestamp : Z }.
Record ArpCache := mkArpCache { arp_entries : gmap Ipv4Address ArpEntry; arp_timeout : Z }.

Definition ARP_DEFAULT_TIMEOUT : Z := 5 * 60 * 1000000000.
Definition arp_cache_new : ArpCache := mkArpCache ∅ ARP_DEFAULT_TIMEOUT.
(** [now] is [get_ticks()]. *)
Definition arp_insert (now : Z) (ip : Ipv4Address) (mac : MacAddress) (c : ArpCache) : ArpCache :=
  mkArpCache (<[ip := mkArpEntry mac now]> (arp_entries c)) (arp_timeout c).
Definition arp_lookup (ip : Ipv4Address) (c : ArpCache) : option MacAddress := arp_mac <$> arp_entries c !! ip.
Definition arp_len (c : ArpCache) : nat := size (arp_entries c).
Definition arp_expire (now : Z) (c : ArpCache) : ArpCache :=
  mkArpCache (filter (λ kv, sat_sub now (arp_timestamp kv.2) < arp_timeout c) (arp_entries c)) (arp_timeout c).
Definition arp_clear (c : ArpCache) : ArpCache := mkArpCache ∅ (arp_timeout c).

(** ** IPv4 packets *)

Definition PROTOCOL_ICMP : Z := 1.
Definition PROTOCOL_TCP : Z := 6.
Definition PROTOCOL_UDP : Z := 17.
Definition MIN_HEADER_SIZE : nat := 20.
Definition DEFAULT_TTL : Z := 64.

Record Ipv4Packet := mkIp {
  version : Z; ihl : Z; dscp : Z; ecn : Z; total_length : Z; identification : Z;
  ip_flags : Z; fragment_offset : Z; ttl : Z; ip_protocol : Z; header_checksum : Z;
  ip_src : Ipv4Address; ip_dest : Ipv4Address; ip_options : list Z; ip_payload : list Z
}.

(** The three fields packed by the code. *)
Definition version_ihl (p : Ipv4Packet) : Z := Z.lor (u8 (Z.shiftl (version p) 4)) (ihl p).
Definition tos (p : Ipv4Packet) : Z := Z.lor (u8 (Z.shiftl (dscp p) 2)) (Z.land (ecn p) 0x03).
Definition flags_fragment (p : Ipv4Packet) : Z :=
  Z.lor (wrap 16 (Z.shiftl (ip_flags p) 13)) (Z.land (fragment_offset p) 0x1FFF).

(** The loop over the options. *)
Definition option_words (options : list Z) : list Z := words_of options.

Definition ip_compute_checksum (p : Ipv4Packet) : Z :=
  let header :=
    [ Z.lor (Z.shiftl (version_ihl p) 8) (tos p); total_length p; identification p; flags_fragment p;
      Z.lor (Z.shiftl (ttl p) 8) (ip_protocol p); 0;
      from_be_bytes (sub (ip_src p) 0 2); from_be_bytes (sub (ip_src p) 2 2);
      from_be_bytes (sub (ip_dest p) 0 2); from_be_bytes (sub (ip_dest p) 2 2) ] in
  internet_checksum (header ++ option_words (ip_options p)).

Definition with_checksum (c : Z) (p : Ipv4Packet) : Ipv4Packet :=
  mkIp (version p) (ihl p) (dscp p) (ecn p) (total_length p) (identification p) (ip_flags p)
    (fragment_offset p) (ttl p) (ip_protocol p) c (ip_src p) (ip_dest p) (ip_options p) (ip_payload p).

Definition ip_new (src dest : Ipv4Address) (protocol : Z) (payload : list Z) : Ipv4Packet :=
  let p := mkIp 4 5 0 0 (wrap 16 (20 + Z.of_nat (length payload))) 0 0x02 0 DEFAULT_TTL protocol 0 src dest [] payload in
  with_checksum (ip_compute_checksum p) p.

Definition ip_parse (data : list Z) : option Ipv4Packet :=
  if decide (length data < MIN_HEADER_SIZE)%nat then None
  else
    let v := u8_at data 0 in
    let version := Z.shiftr v 4 in
    let ihl := Z.land v 0x0F in
    let header_len := Z.to_nat (ihl * 4) in
    if negb (version =? 4) || bool_decide (header_len < MIN_HEADER_SIZE)%nat then None
    else
      let total := u16_at data 2 in
      if bool_decide (Z.of_nat (length data) < total) || bool_decide (total < Z.of_nat header_len) then None
      else
        let t := u8_at data 1 in
        let ff := u16_at data 6 in
        src ← ipv4_from_bytes (sub data 12 4);
        dest ← ipv4_from_bytes (sub data 16 4);
        let options := if decide (MIN_HEADER_SIZE < header_len)%nat
                       then sub data MIN_HEADER_SIZE (header_len - MIN_HEADER_SIZE) else [] in
        Some (mkIp version ihl (Z.shiftr t 2) (Z.land t 0x03) total (u16_at data 4)
                (u8 (Z.land (Z.shiftr ff 13) 0x07)) (Z.land ff 0x1FFF) (u8_at data 8) (u8_at data 9)
                (u16_at data 10) src dest options (sub data header_len (Z.to_nat total - header_len))).

Definition ip_to_bytes (p : Ipv4Packet) : list Z :=
  [version_ihl p] ++ [tos p] ++ to_be_bytes 2 (total_length p) ++ to_be_bytes 2 (identification p)
  ++ to_be_bytes 2 (flags_fragment p) ++ [ttl p] ++ [ip_protocol p] ++ to_be_bytes 2 (header_checksum p)
  ++ ip_src p ++ ip_dest p ++ ip_options p ++ ip_payload p.

Definition ip_verify_checksum (p : Ipv4Packet) : bool := ip_compute_checksum p =? header_checksum p.

(** ** ICMP *)

Definition ICMP_ECHO_REPLY : Z := 0.
Definition ICMP_DEST_UNREACHABLE : Z := 3.
Definition ICMP_ECHO_REQUEST : Z := 8.
Definition ICMP_TIME_EXCEEDED : Z := 11.
Definition ICMP_HEADER_SIZE : nat := 8.

Record IcmpPacket := mkIcmpPkt {
  icmp_type : Z; icmp_code : Z; icmp_checksum : Z; icmp_identifier : Z; icmp_sequence : Z; icmp_data : list Z
}.

Definition icmp_bytes (checksum : Z) (p : IcmpPacket) : list Z :=
  [icmp_type p] ++ [icmp_code p] ++ to_be_bytes 2 checksum ++ to_be_bytes 2 (icmp_identifier p)
  ++ to_be_bytes 2 (icmp_sequence p) ++ icmp_data p.

Definition icmp_compute_checksum (p : IcmpPacket) : Z := checksum_bytes (icmp_bytes 0 p).

Definition icmp_with_checksum (p : IcmpPacket) : IcmpPacket :=
  mkIcmpPkt (icmp_type p) (icmp_code p) (icmp_compute_checksum p) (icmp_identifier p) (icmp_sequence p) (icmp_data p).

Definition icmp_echo_request (identifier sequence : Z) (data : list Z) : IcmpPacket :=
  icmp_with_checksum (mkIcmpPkt ICMP_ECHO_REQUEST 0 0 identifier sequence data).
Definition icmp_echo_reply (identifier sequence : Z) (data : list Z) : IcmpPacket :=
  icmp_with_checksum (mkIcmpPkt ICMP_ECHO_REPLY 0 0 identifier sequence data).
Definition destination_unreachable (code : Z) (original_header : list Z) : IcmpPacket :=
  icmp_with_checksum (mkIcmpPkt ICMP_DEST_UNREACHABLE code 0 0 0 original_header).

Definition icmp_parse (data : list Z) : option IcmpPacket :=
  if decide (length data < ICMP_HEADER_SIZE)%nat then None
  else Some (mkIcmpPkt (u8_at data 0) (u8_at data 1) (u16_at data 2) (u16_at data 4) (u16_at data 6)
               (drop ICMP_HEADER_SIZE data)).

Definition icmp_to_bytes (p : IcmpPacket) : list Z := icmp_bytes (icmp_checksum p) p.

Definition icmp_verify_checksum (p : IcmpPacket) : bool := icmp_compute_checksum p =? icmp_checksum p.

(** ** The checksum of RFC 1071 *)

(** The 16-bit one's complement sum of words with total [t]: zero only for zero. *)
Definition ones_sum (t : Z) : Z := if t =? 0 then 0 else (t - 1) mod 65535 + 1.
Definition total (ws : list Z) : Z := foldr Z.add 0 ws.

Lemma ones_sum_small t : 0 ≤ t < 65536 → ones_sum t = t.
Proof.
  intros Ht. unfold ones_sum. destruct (Z.eqb_spec t 0); [done|]. rewrite Z.mod_small; lia.
Qed.

Lemma ones_sum_range t : 0 ≤ t → 0 ≤ ones_sum t < 65536.
Proof.
  intros Ht. unfold ones_sum. destruct (Z.eqb_spec t 0); [lia|].
  pose proof (Z.mod_pos_bound (t - 1) 65535 ltac:(lia)). lia.
Qed.

Lemma ones_sum_congr a b : 0 < a → 0 < b → a mod 65535 = b mod 65535 → ones_sum a = ones_sum b.
Proof.
  intros Ha Hb He. unfold ones_sum. rewrite !(proj2 (Z.eqb_neq _ 0)) by lia. f_equal.
  rewrite <-(Zminus_mod_idemp_l a), <-(Zminus_mod_idemp_l b). by rewrite He.
Qed.

(** A number is congruent to its one's complement sum. *)
Lemma ones_sum_mod t : 0 ≤ t → ones_sum t mod 65535 = t mod 65535.
Proof.
  intros Ht. unfold ones_sum. destruct (Z.eqb_spec t 0) as [->|]; [done|].
  rewrite Zplus_mod_idemp_l. f_equal. lia.
Qed.

(** One folding step. *)
Lemma fold_step t : 0 ≤ t < 2 ^ 32 → let t' := u32 (Z.land t 0xFFFF + Z.shiftr t 16) in
  ones_sum t' = ones_sum t ∧ 0 ≤ t' ∧ t' = t mod 65536 + t / 65536.
Proof.
  intros Ht. change 0xFFFF with (Z.ones 16). rewrite Z.land_ones, Z.shiftr_div_pow2 by lia.
  change (2 ^ 16) with 65536. pose proof (Z.div_mod t 65536 ltac:(lia)) as Hd.
  pose proof (Z.mod_pos_bound t 65536 ltac:(lia)) as Hm.
  assert (0 ≤ t / 65536 < 65536) as Hq.
  { split; [apply Z.div_pos; lia|]. apply Z.div_lt_upper_bound; lia. }
  cbv zeta. unfold u32. rewrite wrap_small by (split; lia). split; [|split; [lia|done]].
  destruct (decide (t = 0)) as [->|Hne]; [done|].
  apply ones_sum_congr; [lia|lia|]. rewrite Hd at 3.
  replace (65536 * (t / 65536) + t mod 65536) with (t mod 65536 + t / 65536 + t / 65536 * 65535) by lia.
  symmetry. apply Z_mod_plus_full.
Qed.

(** Folding ends within three tests and computes the one's complement sum. *)
Lemma fold_done t : 0 ≤ t < 2 ^ 32 → fold_sum 3 t = ones_sum t ∧ Z.shiftr (fold_sum 3 t) 16 = 0.
Proof.
  intros Ht.
  assert (∀ n s, 0 ≤ s < 65536 → fold_sum n s = s) as Hend.
  { intros [|n] s Hs; [done|]. cbn [fold_sum]. by rewrite Z.shiftr_div_pow2, Z.div_small by lia. }
  assert (∀ s, 0 ≤ s < 65536 → s = ones_sum t → fold_sum 3 t = s →
    fold_sum 3 t = ones_sum t ∧ Z.shiftr (fold_sum 3 t) 16 = 0) as Hfin.
  { intros s Hs He ->. split; [done|]. by rewrite Z.shiftr_div_pow2, Z.div_small by lia. }
  destruct (fold_step t Ht) as (E1 & P1 & V1). cbv zeta in *. cbn [fold_sum].
  destruct (Z.eqb_spec (Z.shiftr t 16) 0) as [H0|H0].
  { rewrite H0. rewrite Z.shiftr_div_pow2 in H0 by lia. change (2 ^ 16) with 65536 in H0.
    apply Z.div_small_iff in H0; [|lia]. split; [|done]. rewrite ones_sum_small; lia. }
  set (t1 := u32 (Z.land t 0xFFFF + Z.shiftr t 16)) in *.
  assert (t / 65536 < 65536) by (apply Z.div_lt_upper_bound; lia).
  pose proof (Z.mod_pos_bound t 65536 ltac:(lia)) as Hm.
  destruct (fold_step t1 ltac:(lia)) as (E2 & P2 & V2). cbv zeta in *.
  destruct (Z.eqb_spec (Z.shiftr t1 16) 0) as [Hz|Hz].
  { rewrite Hz. rewrite Z.shiftr_div_pow2 in Hz by lia. change (2 ^ 16) with 65536 in Hz.
    apply Z.div_small_iff in Hz; [|lia]. split; [|done]. rewrite <-E1, ones_sum_small; lia. }
  set (t2 := u32 (Z.land t1 0xFFFF + Z.shiftr t1 16)) in *.
  assert (t2 < 65536).
  { pose proof (Z.div_mod t1 65536 ltac:(lia)) as Hd. pose proof (Z.mod_pos_bound t1 65536 ltac:(lia)).
    assert (t1 / 65536 < 2) by (apply Z.div_lt_upper_bound; lia). lia. }
  assert (Z.shiftr t2 16 = 0) as Hz2 by (rewrite Z.shiftr_div_pow2, Z.div_small; lia).
  rewrite Hz2. split; [|done]. cbn. rewrite <-E1, <-E2. symmetry. apply ones_sum_small. lia.
Qed.

Lemma total_cons x l : total (x :: l) = x + total l.
Proof. done. Qed.

Lemma total_app a b : total (a ++ b) = total a + total b.
Proof. unfold total. induction a as [|x a IH]; simpl; [done|]. rewrite IH. lia. Qed.

Lemma total_range ws : Forall (is_word 16) ws → 0 ≤ total ws ≤ 65535 * Z.of_nat (length ws).
Proof. unfold total. induction 1 as [|w ws [H1 H2] _ IH]; simpl; [done|]. change (2 ^ 16) with 65536 in H2. lia. Qed.

Lemma sum_words ws : ∀ s, 0 ≤ s → Forall (is_word 16) ws → s + total ws < 2 ^ 32 →
  foldl (λ sum word, u32 (sum + word)) s ws = s + total ws.
Proof.
  induction ws as [|w ws IH]; intros s Hs Hw Hlt; [cbn; lia|]. apply Forall_cons in Hw as [[Hw1 Hw2] Hw].
  pose proof (total_range ws Hw) as [Ht _]. unfold total in *. cbn [foldl foldr] in *. fold (total ws) in *.
  unfold u32 at 2. rewrite wrap_small by (split; lia). rewrite IH; [lia|lia|done|lia].
Qed.

Lemma words_of_word data : Forall is_byte data → Forall (is_word 16) (words_of data).
Proof.
  induction data as [data IH] using (well_founded_induction (Wf_nat.well_founded_ltof _ (@length Z))).
  destruct data as [|a [|b data]]; intros Hb; cbn [words_of]; [done| |].
  - apply Forall_cons in Hb as [[Ha1 Ha2] _]. constructor; [|done]. rewrite Z.shiftl_mul_pow2 by lia.
    change (2 ^ 8) with 256. split; [lia|]. change (2 ^ 16) with 65536. lia.
  - apply Forall_cons in Hb as [Ha Hb]. apply Forall_cons in Hb as [Hb Hd]. constructor.
    + apply (from_be_bytes_range [a; b]). by repeat (apply Forall_cons; split; [done|]).
    + apply IH; [|done]. unfold Wf_nat.ltof. simpl. lia.
Qed.

Lemma length_words_of data : (2 * length (words_of data) ≤ length data + 1)%nat.
Proof.
  induction data as [data IH] using (well_founded_induction (Wf_nat.well_founded_ltof _ (@length Z))).
  destruct data as [|a [|b data]]; cbn [words_of length]; [lia|lia|].
  specialize (IH data). unfold Wf_nat.ltof in IH. simpl in IH. lia.
Qed.

Lemma finish_ones_sum t : 0 ≤ t < 2 ^ 32 → finish_sum t = 65535 - ones_sum t.
Proof.
  intros Ht. unfold finish_sum. destruct (fold_done t Ht) as [-> _].
  pose proof (ones_sum_range t ltac:(lia)) as Hr. rewrite wrap_small by (split; [lia|]; apply Hr).
  unfold word_not. rewrite Z.lxor_comm. change (Z.ones 16) with 65535.
  assert (Z.lxor 65535 (ones_sum t) = Z.ldiff 65535 (ones_sum t)) as ->.
  { apply Z.bits_inj'. intros n Hn. rewrite Z.lxor_spec, Z.ldiff_spec. change 65535 with (Z.ones 16).
    rewrite Z.testbit_ones_nonneg by lia. destruct (Z.ltb_spec n 16); [done|].
    by rewrite (proj1 (is_word_testbit 16 (ones_sum t) ltac:(lia) ltac:(lia)) ltac:(split; [lia|apply Hr])) by lia. }
  rewrite <-Z.sub_nocarry_ldiff; [done|]. apply Z.bits_inj'. intros n Hn. rewrite Z.ldiff_spec, Z.bits_0.
  change 65535 with (Z.ones 16). rewrite Z.testbit_ones_nonneg by lia. destruct (Z.ltb_spec n 16); [by rewrite andb_false_r|].
  by rewrite (proj1 (is_word_testbit 16 (ones_sum t) ltac:(lia) ltac:(lia)) ltac:(split; [lia|apply Hr])) by lia.
Qed.

Lemma internet_checksum_spec ws : Forall (is_word 16) ws → Z.of_nat (length ws) ≤ 65536 →
  internet_checksum ws = 65535 - ones_sum (total ws).
Proof.
  intros Hw Hl. pose proof (total_range ws Hw). unfold internet_checksum.
  rewrite sum_words by (done || lia). apply finish_ones_sum. lia.
Qed.

Lemma checksum_bytes_spec data : Forall is_byte data → Z.of_nat (length data) ≤ 131071 →
  checksum_bytes data = 65535 - ones_sum (total (words_of data)).
Proof.
  intros Hb Hl. pose proof (words_of_word data Hb) as Hw. pose proof (length_words_of data).
  change (checksum_bytes data) with (internet_checksum (words_of data)).
  apply internet_checksum_spec; [done|lia].
Qed.

Lemma complement_sum t : 0 ≤ t → ones_sum (t + (65535 - ones_sum t)) = 65535.
Proof.
  intros Ht. pose proof (ones_sum_range t Ht) as Hr. rewrite (ones_sum_congr _ 65535); [done| |lia|].
  - unfold ones_sum in *. destruct (Z.eqb_spec t 0); lia.
  - pose proof (ones_sum_mod t Ht) as Hm.
    replace (t + (65535 - ones_sum t)) with (t - ones_sum t + 1 * 65535) by lia.
    rewrite Z_mod_plus_full, Zminus_mod, Hm, Z.sub_diag. done.
Qed.

(** The checksum is that of RFC 1071: of at most 131071 bytes, [checksum_bytes] is the
    complement of the one's complement sum of their 16-bit words (the last one padded
    with a zero byte), so that the words with the checksum added to them sum to 0xFFFF;
    and it tells two such messages apart unless the totals of their words agree
    modulo 65535. *)
Theorem checksum_correct data : Forall is_byte data → Z.of_nat (length data) ≤ 131071 →
  checksum_bytes data = 65535 - ones_sum (total (words_of data)) ∧
  ones_sum (total (words_of data) + checksum_bytes data) = 65535 ∧
  ∀ data', Forall is_byte data' → Z.of_nat (length data') ≤ 131071 → checksum_bytes data' = checksum_bytes data →
    total (words_of data') mod 65535 = total (words_of data) mod 65535.
Proof.
  intros Hb Hl. pose proof (checksum_bytes_spec data Hb Hl) as Hc.
  pose proof (total_range _ (words_of_word data Hb)) as [Ht _]. pose proof (ones_sum_range _ Ht) as Hr.
  split; [done|]. split.
  - rewrite Hc. by apply complement_sum.
  - intros data' Hb' Hl' He. rewrite checksum_bytes_spec, Hc in He by done.
    pose proof (total_range _ (words_of_word data' Hb')) as [Ht' _].
    rewrite <-(ones_sum_mod _ Ht), <-(ones_sum_mod _ Ht'). f_equal. lia.
Qed.

Lemma checksum_correct_witness : checksum_bytes [0x45; 0x00; 0x00; 0x73] = 0xBA8C.
Proof.
  destruct (checksum_correct [0x45; 0x00; 0x00; 0x73]
    ltac:(repeat (apply Forall_cons; split; [by split|]); by apply Forall_nil)) as [H _];
    [done|]. rewrite H. by vm_compute.
Defined.

(** ** Reading what was written *)

Lemma sub_here x rest n : length x = n → sub (x ++ rest) 0 n = x.
Proof. intros H. unfold sub. rewrite drop_0. by apply take_app_length'. Qed.

Lemma sub_skip x rest off n : (length x ≤ off)%nat → sub (x ++ rest) off n = sub rest (off - length x) n.
Proof. intros H. unfold sub. by rewrite drop_app_ge by lia. Qed.

Lemma sub_last x n : length x = n → sub x 0 n = x.
Proof. intros H. unfold sub. rewrite drop_0. apply take_ge. lia. Qed.

Lemma u8_skip x rest off : (length x ≤ off)%nat → u8_at (x ++ rest) off = u8_at rest (off - length x).
Proof. intros H. unfold u8_at. apply app_nth2. lia. Qed.

Lemma be16_back v : is_word 16 v → from_be_bytes (to_be_bytes 2 v) = v.
Proof. intros Hv. by apply from_to_be_bytes. Qed.

(** Steps over the parts in front of an offset. *)
Ltac skip_parts :=
  repeat first
    [ rewrite sub_skip by (rewrite ?length_to_be_bytes; simpl length; lia)
    | rewrite u8_skip by (rewrite ?length_to_be_bytes; simpl length; lia)
    | rewrite drop_app_ge by (rewrite ?length_to_be_bytes; simpl length; lia) ];
  rewrite ?length_to_be_bytes; simpl length; cbn [Nat.sub].

(** Consecutive slices are one slice. *)
Lemma sub_app data off n m : sub data off n ++ sub data (off + n) m = sub data off (n + m).
Proof. unfold sub. rewrite <-drop_drop. by rewrite take_take_drop. Qed.

Lemma sub_then data off n off' m : off' = (off + n)%nat → sub data off n ++ sub data off' m = sub data off (n + m).
Proof. intros ->. apply sub_app. Qed.

(** Joins the slices of a serialised header. *)
Ltac join_slices := rewrite !app_assoc; repeat (rewrite sub_then by reflexivity; cbn [Nat.add]).

Lemma sub_drop data off n : (length data ≤ off + n)%nat → sub data off n = drop off data.
Proof. intros H. unfold sub. apply take_ge. rewrite length_drop. lia. Qed.

Lemma length_sub data off n : (off + n ≤ length data)%nat → length (sub data off n) = n.
Proof. intros H. unfold sub. rewrite length_take, length_drop. lia. Qed.

Lemma u8_sub data off : (off < length data)%nat → [u8_at data off] = sub data off 1.
Proof.
  intros H. unfold u8_at, sub. destruct (lookup_lt_is_Some_2 data off H) as [b Hb].
  rewrite (nth_lookup_Some _ _ _ _ Hb). by rewrite (drop_S _ _ _ Hb).
Qed.

Lemma u16_sub data off : Forall is_byte data → (off + 2 ≤ length data)%nat →
  to_be_bytes 2 (u16_at data off) = sub data off 2.
Proof.
  intros Hb Hl. unfold u16_at. rewrite <-(length_sub data off 2 Hl) at 1.
  apply to_from_be_bytes. unfold sub. by apply Forall_take, Forall_drop.
Qed.

Lemma u16_at_word data off : Forall is_byte data → is_word 16 (u16_at data off).
Proof.
  intros Hb. unfold u16_at, sub.
  pose proof (from_be_bytes_range (take 2 (drop off data)) ltac:(by apply Forall_take, Forall_drop)) as [H1 H2].
  split; [done|]. eapply Z.lt_le_trans; [exact H2|]. apply Z.pow_le_mono_r; [lia|]. rewrite length_take. lia.
Qed.

Lemma u8_at_byte data off : Forall is_byte data → is_byte (u8_at data off).
Proof.
  intros Hb. unfold u8_at. destruct (data !! off) as [b|] eqn:E.
  - rewrite (nth_lookup_Some _ _ _ _ E). by eapply Forall_lookup_1.
  - apply lookup_ge_None in E. rewrite nth_overflow by done. by split.
Qed.

Lemma mac_from_sub data off : (off + 6 ≤ length data)%nat → mac_from_bytes (sub data off 6) = Some (sub data off 6).
Proof.
  intros H. unfold mac_from_bytes. rewrite decide_True by (rewrite length_sub; lia).
  by rewrite take_ge by (rewrite length_sub; lia).
Qed.

Lemma ipv4_from_sub data off : (off + 4 ≤ length data)%nat → ipv4_from_bytes (sub data off 4) = Some (sub data off 4).
Proof.
  intros H. unfold ipv4_from_bytes. rewrite decide_True by (rewrite length_sub; lia).
  by rewrite take_ge by (rewrite length_sub; lia).
Qed.

(** ** Round trips *)

Definition is_mac (a : MacAddress) : Prop := Forall is_byte a ∧ length a = 6%nat.
Definition is_ipv4 (a : Ipv4Address) : Prop := Forall is_byte a ∧ length a = 4%nat.

(** An Ethernet frame comes back with its payload padded to the minimum of 46 bytes. *)
Theorem ethernet_roundtrip f : is_mac (dest_mac f) → is_mac (src_mac f) → is_word 16 (ethertype f) →
  eth_parse (eth_to_bytes f) = Some (mkFrame (dest_mac f) (src_mac f) (ethertype f) (pad_to 46 (eth_payload f))).
Proof.
  intros [_ H1] [_ H2] H3. unfold eth_parse, eth_to_bytes, pad_to.
  rewrite decide_False by (rewrite !length_app, length_replicate, length_to_be_bytes; unfold ETH_HEADER_SIZE; lia).
  rewrite !mac_from_sub by (rewrite !length_app, length_replicate, length_to_be_bytes; lia).
  cbn [mbind option_bind]. rewrite !length_app, length_to_be_bytes, H1, H2, <-!app_assoc.
  set (pad := replicate _ _). f_equal. f_equal.
  - by apply sub_here.
  - rewrite sub_skip by lia. rewrite H1. by apply sub_here.
  - unfold u16_at. rewrite !(sub_skip (dest_mac f)), (sub_skip (src_mac f)) by lia. rewrite H1, H2. cbn [Nat.sub].
    rewrite sub_here by apply length_to_be_bytes. by apply be16_back.
  - unfold ETH_HEADER_SIZE. rewrite (drop_app_ge (dest_mac f)), (drop_app_ge (src_mac f)) by lia.
    rewrite H1, H2. cbn [Nat.sub]. rewrite drop_app_ge by (rewrite length_to_be_bytes; lia).
    rewrite length_to_be_bytes. cbn [Nat.sub]. rewrite drop_0. done.
Qed.

Definition arp_ok (p : ArpPacket) : Prop :=
  hardware_type p = HARDWARE_ETHERNET ∧ protocol_type p = PROTOCOL_IPV4 ∧ hw_addr_len p = 6 ∧
  proto_addr_len p = 4 ∧ is_word 16 (operation p) ∧ is_mac (sender_mac p) ∧ is_ipv4 (sender_ip p) ∧
  is_mac (target_mac p) ∧ is_ipv4 (target_ip p).

Lemma list6 (l : list Z) : length l = 6%nat → ∃ a b c d e f, l = [a; b; c; d; e; f].
Proof. destruct l as [|a [|b [|c [|d [|e [|f [|]]]]]]]; try done. eauto 10. Qed.
Lemma list4 (l : list Z) : length l = 4%nat → ∃ a b c d, l = [a; b; c; d].
Proof. destruct l as [|a [|b [|c [|d [|]]]]]; try done. eauto 10. Qed.

(** ARP packets, followed by anything, come back as written; and what parses is written
    back as it was. *)
Theorem arp_roundtrip :
  (∀ p rest, arp_ok p → arp_parse (arp_to_bytes p ++ rest) = Some p) ∧
  (∀ data p, Forall is_byte data → arp_parse data = Some p →
     arp_ok p ∧ arp_to_bytes p = take ARP_SIZE data).
Proof.
  split.
  - intros p rest (H1 & H2 & H3 & H4 & H5 & [_ H6] & [_ H7] & [_ H8] & [_ H9]).
    unfold arp_parse. assert (length (arp_to_bytes p) = ARP_SIZE) as Hl.
    { unfold arp_to_bytes. rewrite !length_app, !length_to_be_bytes, H6, H7, H8, H9. done. }
    unfold ARP_SIZE in *. rewrite decide_False by (rewrite length_app; lia).
    rewrite !mac_from_sub, !ipv4_from_sub by (rewrite length_app; lia). cbn [mbind option_bind].
    destruct p as [hw pr hl pl o sm si tm ti]. cbn in H1, H2, H3, H4, H5, H6, H7, H8, H9. clear Hl.
    destruct (list6 sm H6) as (a1 & a2 & a3 & a4 & a5 & a6 & ->).
    destruct (list4 si H7) as (b1 & b2 & b3 & b4 & ->).
    destruct (list6 tm H8) as (c1 & c2 & c3 & c4 & c5 & c6 & ->).
    destruct (list4 ti H9) as (d1 & d2 & d3 & d4 & ->). subst.
    unfold arp_to_bytes. cbn [hardware_type protocol_type hw_addr_len proto_addr_len operation sender_mac sender_ip target_mac target_ip].
    change (u16_at _ 6) with (from_be_bytes (to_be_bytes 2 o)). rewrite be16_back by done. done.
  - intros data p Hb. unfold arp_parse. case_decide as Hl; [done|]. unfold ARP_SIZE in *.
    destruct (_ || _ || _ || _) eqn:E; [done|]. rewrite !mac_from_sub, !ipv4_from_sub by lia.
    cbn [mbind option_bind]. intros [= <-].
    repeat (apply orb_false_iff in E as [E ?]). rewrite !negb_false_iff, !Z.eqb_eq in *. split.
    + unfold arp_ok, is_mac, is_ipv4. cbn. split_and!; try done; try (by apply length_sub; lia);
        try (by apply u16_at_word); unfold sub; by apply Forall_take, Forall_drop.
    + unfold arp_to_bytes. cbn [hardware_type protocol_type hw_addr_len proto_addr_len operation sender_mac sender_ip target_mac target_ip].
      rewrite !u16_sub by (done || lia). rewrite !u8_sub by lia.
      join_slices. unfold sub. by rewrite drop_0.
Qed.


(** ** Fields packed in one number *)

Lemma pack w k a b : 0 ≤ k ≤ w → is_word (w - k) a → is_word k b →
  Z.lor (wrap w (Z.shiftl a k)) b = a * 2 ^ k + b ∧ is_word w (a * 2 ^ k + b).
Proof.
  intros Hk [Ha1 Ha2] Hb. assert (2 ^ w = 2 ^ (w - k) * 2 ^ k) as Hw by (rewrite <-Z.pow_add_r by lia; f_equal; lia).
  assert (0 < 2 ^ k) by lia. destruct Hb as [Hb1 Hb2].
  assert (is_word w (Z.shiftl a k)) by (rewrite Z.shiftl_mul_pow2 by lia; split; nia).
  split; [|split; nia]. rewrite wrap_small by done. rewrite <-Z.shiftl_mul_pow2 by lia.
  rewrite <-Z.lxor_lor; [symmetry; apply Z.add_nocarry_lxor|];
    (apply Z.bits_inj'; intros i Hi; rewrite Z.land_spec, Z.bits_0;
     destruct (Z.ltb_spec i k); [by rewrite Z.shiftl_spec_low|];
     rewrite andb_false_iff; right; apply (is_word_testbit k b); [lia|lia|split; lia|lia]).
Qed.

Lemma unpack_high k a b : 0 ≤ k → is_word k b → Z.shiftr (a * 2 ^ k + b) k = a.
Proof.
  intros Hk [Hb1 Hb2]. rewrite Z.shiftr_div_pow2 by lia. rewrite Z.div_add_l by lia. rewrite Z.div_small; lia.
Qed.

Lemma unpack_low k a b : 0 ≤ k → is_word k b → Z.land (a * 2 ^ k + b) (Z.ones k) = b.
Proof.
  intros Hk Hb. rewrite Z.land_ones by lia. rewrite Z.add_comm, Z_mod_plus_full. by apply Z.mod_small.
Qed.

Lemma land_mask k b : 0 ≤ k → is_word k b → Z.land b (Z.ones k) = b.
Proof. intros Hk Hb. rewrite Z.land_ones by lia. by apply Z.mod_small. Qed.

(** The parts of a number are in range and packing them gives it back. *)
Lemma repack w k v : 0 ≤ k ≤ w → is_word w v →
  is_word (w - k) (Z.shiftr v k) ∧ is_word k (Z.land v (Z.ones k)) ∧
  Z.shiftr v k * 2 ^ k + Z.land v (Z.ones k) = v.
Proof.
  intros Hk [Hv1 Hv2]. rewrite Z.shiftr_div_pow2, Z.land_ones by lia.
  assert (2 ^ w = 2 ^ k * 2 ^ (w - k)) as Hw by (rewrite <-Z.pow_add_r by lia; f_equal; lia).
  pose proof (Z.div_mod v (2 ^ k) ltac:(lia)) as Hd. pose proof (Z.mod_pos_bound v (2 ^ k) ltac:(lia)).
  split; [split; [apply Z.div_pos; lia|apply Z.div_lt_upper_bound; lia]|]. split; [split; lia|lia].
Qed.

(** ** IPv4 round trip *)

(** A well-formed packet: every field fits its bits, and the two lengths agree with the
    options and the payload. *)
Definition ip_ok (p : Ipv4Packet) : Prop :=
  version p = 4 ∧ 5 ≤ ihl p < 16 ∧ is_word 6 (dscp p) ∧ is_word 2 (ecn p) ∧ is_word 16 (total_length p) ∧
  is_word 16 (identification p) ∧ is_word 3 (ip_flags p) ∧ is_word 13 (fragment_offset p) ∧ is_byte (ttl p) ∧
  is_byte (ip_protocol p) ∧ is_word 16 (header_checksum p) ∧ is_ipv4 (ip_src p) ∧ is_ipv4 (ip_dest p) ∧
  Forall is_byte (ip_options p) ∧ Z.of_nat (length (ip_options p)) = ihl p * 4 - 20 ∧
  Forall is_byte (ip_payload p) ∧ total_length p = ihl p * 4 + Z.of_nat (length (ip_payload p)).

Lemma version_ihl_value p : ip_ok p → version_ihl p = version p * 2 ^ 4 + ihl p ∧ is_byte (version_ihl p).
Proof.
  intros (H1 & H2 & _). unfold version_ihl, u8.
  destruct (pack 8 4 (version p) (ihl p)) as [-> [? ?]]; [lia| | |]; [rewrite H1; by split|split; lia|].
  split; [done|]. by split.
Qed.

Lemma tos_value p : ip_ok p → tos p = dscp p * 2 ^ 2 + ecn p ∧ is_byte (tos p).
Proof.
  intros (_ & _ & H1 & H2 & _). unfold tos, u8. change 0x03 with (Z.ones 2). rewrite land_mask by (done || lia).
  destruct (pack 8 2 (dscp p) (ecn p)) as [-> [? ?]]; [lia|done|done|]. split; [done|]. by split.
Qed.

Lemma flags_fragment_value p : ip_ok p → flags_fragment p = ip_flags p * 2 ^ 13 + fragment_offset p ∧ is_word 16 (flags_fragment p).
Proof.
  intros (_ & _ & _ & _ & _ & _ & H1 & H2 & _). unfold flags_fragment. change 0x1FFF with (Z.ones 13).
  rewrite land_mask by (done || lia).
  destruct (pack 16 13 (ip_flags p) (fragment_offset p)) as [-> [? ?]]; [lia|done|done|]. split; [done|]. by split.
Qed.

(** The header, as [to_bytes] writes it. *)
Definition ip_header (p : Ipv4Packet) : list Z :=
  [version_ihl p] ++ [tos p] ++ to_be_bytes 2 (total_length p) ++ to_be_bytes 2 (identification p)
  ++ to_be_bytes 2 (flags_fragment p) ++ [ttl p] ++ [ip_protocol p] ++ to_be_bytes 2 (header_checksum p)
  ++ ip_src p ++ ip_dest p.

Lemma ip_to_bytes_header p : ip_to_bytes p = ip_header p ++ ip_options p ++ ip_payload p.
Proof. unfold ip_to_bytes, ip_header. by rewrite <-!app_assoc. Qed.

Lemma length_ip_header p : length (ip_src p) = 4%nat → length (ip_dest p) = 4%nat → length (ip_header p) = 20%nat.
Proof. intros H1 H2. unfold ip_header. rewrite !length_app, !length_to_be_bytes, H1, H2. done. Qed.

(** Reading the fields of a header. *)
Lemma ip_header_fields p rest : length (ip_src p) = 4%nat → length (ip_dest p) = 4%nat →
  let d := ip_header p ++ rest in
  u8_at d 0 = version_ihl p ∧ u8_at d 1 = tos p ∧ sub d 2 2 = to_be_bytes 2 (total_length p) ∧
  sub d 4 2 = to_be_bytes 2 (identification p) ∧ sub d 6 2 = to_be_bytes 2 (flags_fragment p) ∧
  u8_at d 8 = ttl p ∧ u8_at d 9 = ip_protocol p ∧ sub d 10 2 = to_be_bytes 2 (header_checksum p) ∧
  sub d 12 4 = ip_src p ∧ sub d 16 4 = ip_dest p.
Proof.
  intros H1 H2. cbv zeta. unfold ip_header.
  destruct (list4 _ H1) as (b1 & b2 & b3 & b4 & ->). destruct (list4 _ H2) as (d1 & d2 & d3 & d4 & ->).
  split_and!; reflexivity.
Qed.

Lemma ip_parse_written p rest : ip_ok p → ip_parse (ip_to_bytes p ++ rest) = Some p.
Proof.
  intros Hok. pose proof Hok as (H1 & H2 & H3 & H4 & H5 & H6 & H7 & H8 & H9 & H10 & H11 & [_ H12] & [_ H13] & _ & Ho & _ & Hp).
  destruct (version_ihl_value p Hok) as [Ev _]. destruct (tos_value p Hok) as [Et _].
  destruct (flags_fragment_value p Hok) as [Ef Wf].
  rewrite ip_to_bytes_header, <-!app_assoc. pose proof (length_ip_header p H12 H13) as Hh.
  pose proof (ip_header_fields p (ip_options p ++ ip_payload p ++ rest) H12 H13) as
    (F0 & F1 & F2 & F4 & F6 & F8 & F9 & F10 & F12 & F16). cbv zeta in *.
  set (d := ip_header p ++ _) in *.
  assert (length d = 20 + length (ip_options p) + length (ip_payload p) + length rest)%nat as Hl
    by (unfold d; rewrite !length_app; lia).
  unfold ip_parse. rewrite decide_False by (unfold MIN_HEADER_SIZE; lia).
  unfold u16_at. rewrite F0, F1, F2, F4, F6, F8, F9, F10, !be16_back by done.
  rewrite Ev, Et, Ef. change 0x0F with (Z.ones 4). change (Z.land _ 0x03) with (Z.land (dscp p * 2 ^ 2 + ecn p) (Z.ones 2)).
  change 0x1FFF with (Z.ones 13).
  rewrite (unpack_high 4), (unpack_low 4), (unpack_high 2), (unpack_low 2), (unpack_high 13), (unpack_low 13)
    by (done || lia || (split; lia)).
  assert (Z.to_nat (ihl p * 4) = 20 + length (ip_options p))%nat as Hhl by lia.
  rewrite Hhl, H1. cbn [Z.eqb negb orb Pos.eqb].
  rewrite bool_decide_eq_false_2 by (unfold MIN_HEADER_SIZE; lia).
  rewrite (bool_decide_eq_false_2 (Z.of_nat (length d) < _)), (bool_decide_eq_false_2 (total_length p < _)) by lia. cbn [orb].
  rewrite !ipv4_from_sub by lia. cbn [mbind option_bind]. rewrite F12, F16.
  change 0x07 with (Z.ones 3). rewrite land_mask by (done || lia).
  unfold u8. rewrite (wrap_small 8 (ip_flags p)) by (destruct H7; split; lia).
  assert ((if decide (MIN_HEADER_SIZE < 20 + length (ip_options p))%nat
           then sub d MIN_HEADER_SIZE (20 + length (ip_options p) - MIN_HEADER_SIZE) else []) = ip_options p) as ->.
  { unfold MIN_HEADER_SIZE. case_decide.
    - unfold d. rewrite sub_skip by lia. rewrite Hh. replace (20 - 20)%nat with 0%nat by lia.
      replace (20 + length (ip_options p) - 20)%nat with (length (ip_options p)) by lia. by apply sub_here.
    - symmetry. apply nil_length_inv. lia. }
  assert (sub d (20 + length (ip_options p)) (Z.to_nat (total_length p) - (20 + length (ip_options p))) = ip_payload p) as ->.
  { unfold d. rewrite sub_skip by lia. rewrite sub_skip by lia. rewrite Hh.
    replace (20 + length (ip_options p) - 20 - length (ip_options p))%nat with 0%nat by lia. apply sub_here. lia. }
  rewrite <-H1. by destruct p.
Qed.

(** What [ip_parse] accepts, and the fields it reads. *)
Lemma ip_parse_inv data p : ip_parse data = Some p →
  let hl := Z.to_nat (Z.land (u8_at data 0) (Z.ones 4) * 4) in
  (20 ≤ hl)%nat ∧ Z.of_nat hl ≤ u16_at data 2 ≤ Z.of_nat (length data) ∧ Z.shiftr (u8_at data 0) 4 = 4 ∧
  p = mkIp (Z.shiftr (u8_at data 0) 4) (Z.land (u8_at data 0) (Z.ones 4)) (Z.shiftr (u8_at data 1) 2)
        (Z.land (u8_at data 1) (Z.ones 2)) (u16_at data 2) (u16_at data 4)
        (u8 (Z.land (Z.shiftr (u16_at data 6) 13) (Z.ones 3))) (Z.land (u16_at data 6) (Z.ones 13))
        (u8_at data 8) (u8_at data 9) (u16_at data 10) (sub data 12 4) (sub data 16 4)
        (sub data 20 (hl - 20)) (sub data hl (Z.to_nat (u16_at data 2) - hl)).
Proof.
  cbv zeta. unfold ip_parse, MIN_HEADER_SIZE. case_decide as Hl; [done|].
  change 0x0F with (Z.ones 4). change 0x03 with (Z.ones 2). change 0x07 with (Z.ones 3). change 0x1FFF with (Z.ones 13).
  set (hl := Z.to_nat _). destruct (_ || _) eqn:E1; [done|]. destruct (bool_decide _ || _) eqn:E2; [done|].
  apply orb_false_iff in E1 as [E1 E1']. apply orb_false_iff in E2 as [E2 E2'].
  apply negb_false_iff, Z.eqb_eq in E1. apply bool_decide_eq_false in E1', E2, E2'.
  rewrite !ipv4_from_sub by lia. cbn [mbind option_bind]. intros [= <-].
  split; [lia|]. split; [lia|]. split; [done|]. f_equal. case_decide as Hd; [done|].
  replace (hl - 20)%nat with 0%nat by lia. done.
Qed.

Lemma ip_parse_ok data p : Forall is_byte data → ip_parse data = Some p →
  ip_ok p ∧ ip_to_bytes p = take (Z.to_nat (total_length p)) data.
Proof.
  intros Hb Hp. pose proof (ip_parse_inv data p Hp) as (Hh & Ht & Hv & Hpeq). cbv zeta in *.
  set (hl := Z.to_nat _) in *.
  pose proof (proj1 (is_byte_word _) (u8_at_byte data 0 Hb)) as B0.
  pose proof (proj1 (is_byte_word _) (u8_at_byte data 1 Hb)) as B1.
  pose proof (u16_at_word data 6 Hb) as B6.
  destruct (repack 8 4 _ ltac:(lia) B0) as (R1 & R2 & R3). destruct (repack 8 2 _ ltac:(lia) B1) as (R4 & R5 & R6).
  destruct (repack 16 13 _ ltac:(lia) B6) as (R7 & R8 & R9).
  change (8 - 4) with 4 in R1. change (8 - 2) with 6 in R4. change (16 - 13) with 3 in R7.
  rewrite (land_mask 3 (Z.shiftr (u16_at data 6) 13)) in Hpeq by (done || lia). unfold u8 in Hpeq.
  rewrite (wrap_small 8 (Z.shiftr (u16_at data 6) 13)) in Hpeq by (destruct R7; split; lia).
  assert (∀ off n, Forall is_byte (sub data off n)) as Hsub by (intros; unfold sub; by apply Forall_take, Forall_drop).
  pose proof (u16_at_word data 2 Hb) as B2.
  assert (ip_ok p) as Hok.
  { rewrite Hpeq. unfold ip_ok, is_ipv4. cbn.
    assert (length (sub data 20 (hl - 20)) = (hl - 20)%nat) as Lo by (apply length_sub; lia).
    assert (length (sub data hl (Z.to_nat (u16_at data 2) - hl)) = (Z.to_nat (u16_at data 2) - hl)%nat) as Lp by (apply length_sub; lia).
    rewrite Lo, Lp. destruct R2.
    split_and!; try done; try lia; try (by apply u8_at_byte); try (by apply u16_at_word); try (by apply length_sub; lia). }
  split; [done|].
  destruct (version_ihl_value p Hok) as [Ev _]. destruct (tos_value p Hok) as [Et _].
  destruct (flags_fragment_value p Hok) as [Ef _].
  unfold ip_to_bytes. rewrite Ev, Et, Ef. rewrite Hpeq. cbn [version ihl dscp ecn total_length identification ip_flags
    fragment_offset ttl ip_protocol header_checksum ip_src ip_dest ip_options ip_payload].
  rewrite R3, R6, R9, !u16_sub by (done || lia). rewrite !u8_sub by lia. join_slices.
  rewrite sub_then by lia. unfold sub. rewrite drop_0. f_equal. lia.
Qed.

(** IPv4 packets, followed by anything (the padding of an Ethernet frame), come back as
    written; and what [ip_parse] accepts is well formed and is written back byte for byte. *)
Theorem ipv4_roundtrip :
  (∀ p rest, ip_ok p → ip_parse (ip_to_bytes p ++ rest) = Some p) ∧
  (∀ data p, Forall is_byte data → ip_parse data = Some p →
     ip_ok p ∧ ip_to_bytes p = take (Z.to_nat (total_length p)) data).
Proof. split; [apply ip_parse_written|apply ip_parse_ok]. Qed.

(** ** The header checksum *)

Lemma words_of_app2 a b : Nat.Even (length a) → words_of (a ++ b) = words_of a ++ words_of b.
Proof.
  intros [k Hk]. revert a Hk. induction k as [|k IH]; intros a Hk.
  - by apply nil_length_inv in Hk as ->.
  - destruct a as [|x [|y a]]; [done|simpl in Hk; lia|]. cbn [words_of app]. rewrite IH; [done|]. simpl in Hk. lia.
Qed.

Lemma words_of_word16 v : is_word 16 v → words_of (to_be_bytes 2 v) = [v].
Proof.
  intros Hv. destruct (to_be_bytes 2 v) as [|a [|b [|c l]]] eqn:E;
    pose proof (length_to_be_bytes 2 v) as Hl; rewrite E in Hl; try done.
  cbn [words_of]. rewrite <-E. by rewrite be16_back.
Qed.

Lemma words_of_pair a b : is_byte a → is_byte b → words_of [a; b] = [Z.lor (Z.shiftl a 8) b].
Proof.
  intros Ha Hb. cbn [words_of]. f_equal. rewrite <-(wrap_small 16 (Z.shiftl a 8)).
  - destruct (pack 16 8 a b) as [-> _]; [lia|by apply is_byte_word|by apply is_byte_word|].
    rewrite from_be_bytes_cons. change (from_be_bytes [b]) with (b + 0). cbn. lia.
  - rewrite Z.shiftl_mul_pow2 by lia. destruct Ha. split; lia.
Qed.

(** Filling in a word at an even offset moves the total by its value. *)
Lemma total_words_patch pre c post : Nat.Even (length pre) → is_word 16 c →
  total (words_of (pre ++ to_be_bytes 2 c ++ post)) = total (words_of (pre ++ to_be_bytes 2 0 ++ post)) + c.
Proof.
  intros Hp Hc. assert (∀ v, Nat.Even (length (to_be_bytes 2 v))) as He by (intros v; rewrite length_to_be_bytes; by exists 1%nat).
  rewrite !(words_of_app2 pre) by done. rewrite !(words_of_app2 (to_be_bytes 2 _)) by done.
  rewrite !words_of_word16 by (done || by split). rewrite !total_app. unfold total. cbn [foldr]. lia.
Qed.

(** The words of a header. *)
Definition header_words (p : Ipv4Packet) : list Z :=
  [ Z.lor (Z.shiftl (version_ihl p) 8) (tos p); total_length p; identification p; flags_fragment p;
    Z.lor (Z.shiftl (ttl p) 8) (ip_protocol p); header_checksum p;
    from_be_bytes (sub (ip_src p) 0 2); from_be_bytes (sub (ip_src p) 2 2);
    from_be_bytes (sub (ip_dest p) 0 2); from_be_bytes (sub (ip_dest p) 2 2) ].

Lemma words_of_header p : ip_ok p → words_of (ip_header p ++ ip_options p) = header_words p ++ words_of (ip_options p).
Proof.
  intros Hok. pose proof Hok as (_ & _ & _ & _ & H5 & H6 & _ & _ & H9 & H10 & H11 & [_ H12] & [_ H13] & _).
  destruct (version_ihl_value p Hok) as [_ Ev]. destruct (tos_value p Hok) as [_ Et].
  destruct (flags_fragment_value p Hok) as [_ Ef].
  rewrite words_of_app2 by (exists 10%nat; by rewrite length_ip_header). f_equal.
  unfold ip_header. rewrite (app_assoc [_] [_]). rewrite (app_assoc [ttl p] [_]).
  assert (∀ v, Nat.Even (length (to_be_bytes 2 v))) as He by (intros v; rewrite length_to_be_bytes; by exists 1%nat).
  rewrite words_of_app2 by by exists 1%nat. rewrite !(words_of_app2 (to_be_bytes 2 _)) by done.
  rewrite (words_of_app2 ([ttl p] ++ _)) by by exists 1%nat.
  rewrite (words_of_app2 (to_be_bytes 2 _)) by done.
  rewrite (words_of_app2 (ip_src p)) by (rewrite H12; by exists 2%nat).
  cbn [app]. rewrite !words_of_pair by done. rewrite !words_of_word16 by done. unfold header_words.
  destruct (list4 _ H12) as (b1 & b2 & b3 & b4 & ->). destruct (list4 _ H13) as (d1 & d2 & d3 & d4 & ->).
  reflexivity.
Qed.

Lemma with_checksum_ok c p : is_word 16 c → ip_ok p → ip_ok (with_checksum c p).
Proof.
  intros Hc (?&?&?&?&?&?&?&?&?&?&?&?&?&?&?&?&?). unfold ip_ok, with_checksum. cbn [version ihl dscp ecn total_length identification
    ip_flags fragment_offset ttl ip_protocol header_checksum ip_src ip_dest ip_options ip_payload].
  tauto.
Qed.

(** [compute_checksum] is the checksum of the bytes of the header with its checksum field
    cleared. *)
Lemma ip_checksum_header p : ip_ok p →
  ip_compute_checksum p = checksum_bytes (ip_header (with_checksum 0 p) ++ ip_options p).
Proof.
  intros Hok. unfold checksum_bytes. change (ip_options p) with (ip_options (with_checksum 0 p)).
  rewrite words_of_header by (by apply with_checksum_ok). reflexivity.
Qed.

Lemma header_bytes p : ip_ok p → Forall is_byte (ip_header p ++ ip_options p) ∧
  (length (ip_header p ++ ip_options p) ≤ 60)%nat.
Proof.
  intros Hok. pose proof Hok as (_ & H2 & _ & _ & _ & _ & _ & _ & H9 & H10 & _ & [Hs H12] & [Hd H13] & Ho & Hl & _).
  split; [|rewrite length_app, length_ip_header by done; lia].
  pose proof (proj2 (version_ihl_value p Hok)). pose proof (proj2 (tos_value p Hok)).
  unfold ip_header. rewrite !Forall_app, !Forall_singleton. split_and!; try done; apply to_be_bytes_byte.
Qed.

(** The field moves the total of the words by its value. *)
Lemma total_header c p : ip_ok p → is_word 16 c →
  total (words_of (ip_header (with_checksum c p) ++ ip_options p)) =
  total (words_of (ip_header (with_checksum 0 p) ++ ip_options p)) + c ∧
  0 < total (words_of (ip_header (with_checksum 0 p) ++ ip_options p)).
Proof.
  intros Hok Hc.   pose proof (words_of_word _ (proj1 (header_bytes _ (with_checksum_ok 0 p ltac:(by split) Hok)))) as Hw.
  pose proof (words_of_header _ (with_checksum_ok 0 p ltac:(by split) Hok)) as E0.
  pose proof (words_of_header _ (with_checksum_ok c p Hc Hok)) as Ec.
  change (ip_options (with_checksum _ p)) with (ip_options p) in *. rewrite E0 in Hw. rewrite E0, Ec, !total_app.
  assert (∀ c, total (header_words (with_checksum c p)) =
    total (take 5 (header_words p)) + (c + total (drop 6 (header_words p)))) as Et.
  { intros c'. change (header_words (with_checksum c' p)) with (take 5 (header_words p) ++ c' :: drop 6 (header_words p)).
    by rewrite total_app. }
  split; [rewrite !Et; lia|]. rewrite <-total_app. unfold header_words in Hw |- *.
  rewrite <-!app_comm_cons in Hw |- *. apply Forall_cons in Hw as [[Hw1 _] Hw]. apply Forall_cons in Hw as [_ Hw].
  pose proof (total_range _ Hw) as Hr. destruct Hok as (_ & H2 & _ & _ & _ & _ & _ & _ & _ & _ & _ & _ & _ & _ & _ & _ & Htl).
  rewrite total_cons, total_cons. change (total_length (with_checksum 0 p)) with (total_length p).
  match type of Hr with _ ≤ ?t ≤ _ => set (tot := t) in * end. lia.
Qed.

Lemma ones_sum_full x : 0 ≤ x → ones_sum x = 65535 ↔ 0 < x ∧ x mod 65535 = 0.
Proof.
  intros Hx. pose proof (ones_sum_mod x Hx) as Hm. unfold ones_sum in *.
  destruct (Z.eqb_spec x 0) as [->|Hne]; [lia|]. split.
  - intros E. split; [lia|]. rewrite <-Hm, E. done.
  - intros [_ H0]. rewrite H0 in Hm. pose proof (Z.mod_pos_bound (x - 1) 65535 ltac:(lia)).
    destruct (decide ((x - 1) mod 65535 + 1 = 65535)) as [|Hn]; [done|]. rewrite Z.mod_small in Hm by lia. lia.
Qed.

(** A word added to a positive total fills the sum exactly when it is the complement. *)
Lemma complement_fills t c : 0 < t → 0 ≤ c < 65535 → 65535 - ones_sum t = c ↔ ones_sum (t + c) = 65535.
Proof.
  intros Ht Hc. rewrite ones_sum_full by lia. pose proof (ones_sum_mod t ltac:(lia)) as Hm.
  pose proof (ones_sum_range t ltac:(lia)) as Hr. assert (ones_sum t ≠ 0) as Hn.
  { unfold ones_sum. destruct (Z.eqb_spec t 0); [lia|]. pose proof (Z.mod_pos_bound (t - 1) 65535 ltac:(lia)). lia. }
  rewrite <-Zplus_mod_idemp_l, <-Hm, Zplus_mod_idemp_l. split.
  - intros <-. split; [lia|]. replace (ones_sum t + (65535 - ones_sum t)) with 65535 by lia. done.
  - intros [_ H0]. apply Z.mod_divide in H0 as [k Hk]; [|lia]. assert (k = 1) as -> by nia. lia.
Qed.

Lemma ip_checksum_value p : ip_ok p →
  ip_compute_checksum p = 65535 - ones_sum (total (words_of (ip_header (with_checksum 0 p) ++ ip_options p))).
Proof.
  intros Hok. rewrite ip_checksum_header by done.
  destruct (header_bytes _ (with_checksum_ok 0 p ltac:(by split) Hok)) as [Hb Hl].
  change (ip_options (with_checksum 0 p)) with (ip_options p) in *.
  apply checksum_bytes_spec; [done|lia].
Qed.

(** The computation does not read the field, so a packet given its checksum verifies. *)
Lemma own_checksum_verifies p : ip_verify_checksum (with_checksum (ip_compute_checksum p) p) = true.
Proof.
  unfold ip_verify_checksum. assert (∀ c, ip_compute_checksum (with_checksum c p) = ip_compute_checksum p) as -> by (intros; reflexivity).
  apply Z.eqb_refl.
Qed.

Lemma with_own_checksum p : with_checksum (header_checksum p) p = p.
Proof. by destruct p. Qed.

(** A header verifies exactly when the one's complement sum of all its words, the checksum
    included, is 0xFFFF, as RFC 791 asks, except that a field of 0xFFFF never verifies
    (RFC 1071 takes it for zero); and a packet given its computed checksum verifies. *)
Theorem header_checksum_correct p : ip_ok p →
  (ip_verify_checksum p = true ↔
     header_checksum p ≠ 65535 ∧ ones_sum (total (words_of (ip_header p ++ ip_options p))) = 65535) ∧
  ip_verify_checksum (with_checksum (ip_compute_checksum p) p) = true ∧
  ip_ok (with_checksum (ip_compute_checksum p) p).
Proof.
  intros Hok. pose proof Hok as (_ & _ & _ & _ & _ & _ & _ & _ & _ & _ & [Hc1 Hc2] & _).
  destruct (total_header (header_checksum p) p Hok ltac:(by split)) as [Ht Hpos]. rewrite with_own_checksum in Ht.
  pose proof (ip_checksum_value p Hok) as Hv. set (t := total (words_of (ip_header (with_checksum 0 p) ++ _))) in *.
  pose proof (ones_sum_range t ltac:(lia)) as Hr. split; [|split].
  - unfold ip_verify_checksum. rewrite Z.eqb_eq, Hv, Ht. change (2 ^ 16) with 65536 in Hc2.
    destruct (decide (header_checksum p = 65535)) as [E|Hn].
    + rewrite E. assert (ones_sum t ≠ 0); [|lia]. unfold ones_sum. destruct (Z.eqb_spec t 0); [lia|].
      pose proof (Z.mod_pos_bound (t - 1) 65535 ltac:(lia)). lia.
    + rewrite complement_fills by lia. tauto.
  - apply own_checksum_verifies.
  - apply with_checksum_ok; [|done]. rewrite Hv. split; lia.
Qed.

(** A packet built by [new] with a payload that fits is well formed and verifies. *)
Lemma ip_new_ok src dest protocol payload : is_ipv4 src → is_ipv4 dest → is_byte protocol →
  Forall is_byte payload → Z.of_nat (length payload) ≤ 65515 →
  ip_ok (ip_new src dest protocol payload) ∧ ip_verify_checksum (ip_new src dest protocol payload) = true.
Proof.
  intros Hs Hd Hp Hb Hl. unfold ip_new. set (p := mkIp _ _ _ _ _ _ _ _ _ _ _ _ _ _ _).
  assert (wrap 16 (20 + Z.of_nat (length payload)) = 20 + Z.of_nat (length payload)) as Hw
    by (apply wrap_small; split; lia).
  assert (ip_ok p) as Hok.
  { unfold p, ip_ok, is_word. rewrite Hw. cbn [version ihl dscp ecn total_length identification ip_flags
      fragment_offset ttl ip_protocol header_checksum ip_src ip_dest ip_options ip_payload].
    split_and!; try done; try lia. }
  cbv zeta. split; [|apply own_checksum_verifies]. apply with_checksum_ok; [|done]. rewrite ip_checksum_value by done.
  pose proof (ones_sum_range (total (words_of (ip_header (with_checksum 0 p) ++ ip_options p)))) as Hr.
  destruct (total_header 0 p Hok ltac:(by split)) as [_ Hpos]. split; lia.
Qed.

(** A payload of 65516 bytes wraps the length: the packet says it is empty-handed, and its
    own parser refuses it. *)
Lemma ip_new_wraps src dest protocol payload : Z.of_nat (length payload) = 65516 → length src = 4%nat → length dest = 4%nat →
  total_length (ip_new src dest protocol payload) = 0.
Proof. intros Hl _ _. unfold ip_new, with_checksum. cbn [total_length]. by rewrite Hl. Qed.

Lemma header_checksum_correct_witness :
  let p := ip_new [10; 0; 2; 15] [10; 0; 2; 2] PROTOCOL_UDP [1; 2; 3] in
  ip_verify_checksum (with_checksum (ip_compute_checksum p) p) = true.
Proof.
  intros p. apply (header_checksum_correct p).
  unfold p, ip_new, ip_ok, is_ipv4, is_byte, is_word. split_and!; try (by vm_compute);
    cbn; repeat (apply Forall_cons; split; [by split|]); by apply Forall_nil.
Defined.

(** ** ICMP round trip *)

Definition icmp_ok (p : IcmpPacket) : Prop :=
  is_byte (icmp_type p) ∧ is_byte (icmp_code p) ∧ is_word 16 (icmp_checksum p) ∧ is_word 16 (icmp_identifier p) ∧
  is_word 16 (icmp_sequence p) ∧ Forall is_byte (icmp_data p).

Lemma icmp_roundtrip :
  (∀ p, icmp_ok p → icmp_parse (icmp_to_bytes p) = Some p) ∧
  (∀ data p, Forall is_byte data → icmp_parse data = Some p → icmp_ok p ∧ icmp_to_bytes p = data).
Proof.
  split.
  - intros p (_ & _ & H3 & H4 & H5 & _). unfold icmp_parse, icmp_to_bytes, icmp_bytes.
    rewrite decide_False by (rewrite !length_app, !length_to_be_bytes; simpl; unfold ICMP_HEADER_SIZE; lia).
    change (u16_at _ 2) with (from_be_bytes (to_be_bytes 2 (icmp_checksum p))).
    change (u16_at _ 4) with (from_be_bytes (to_be_bytes 2 (icmp_identifier p))).
    change (u16_at _ 6) with (from_be_bytes (to_be_bytes 2 (icmp_sequence p))).
    rewrite !be16_back by done. by destruct p.
  - intros data p Hb. unfold icmp_parse, ICMP_HEADER_SIZE. case_decide as Hl; [done|]. intros [= <-]. split.
    + unfold icmp_ok. cbn. split_and!; try (by apply u8_at_byte); try (by apply u16_at_word). by apply Forall_drop.
    + unfold icmp_to_bytes, icmp_bytes. cbn [icmp_type icmp_code icmp_checksum icmp_identifier icmp_sequence icmp_data].
      rewrite !u16_sub by (done || lia). rewrite !u8_sub by lia.
      rewrite <-(sub_drop data 8 (length data - 8)) by lia. join_slices. unfold sub. rewrite drop_0.
      apply take_ge. lia.
Qed.

(** An echo built by either constructor verifies after its trip. *)
Lemma icmp_echo_verifies identifier sequence data :
  icmp_verify_checksum (icmp_echo_request identifier sequence data) = true ∧
  icmp_verify_checksum (icmp_echo_reply identifier sequence data) = true.
Proof. split; apply Z.eqb_refl. Qed.

(** ** The ARP cache *)

(** An inserted binding is found until an expiry runs [timeout] units of the timestamp
    clock later, and other bindings are left alone. *)
Lemma arp_cache_correct now later ip mac c : 0 ≤ now ≤ later →
  arp_lookup ip (arp_insert now ip mac c) = Some mac ∧
  (∀ ip', ip' ≠ ip → arp_lookup ip' (arp_insert now ip mac c) = arp_lookup ip' c) ∧
  arp_lookup ip (arp_expire later (arp_insert now ip mac c)) = if decide (later - now < arp_timeout c) then Some mac else None.
Proof.
  intros Hn. unfold arp_lookup, arp_insert, arp_expire. cbn [arp_entries arp_timeout].
  split; [by rewrite lookup_insert_eq|]. split; [intros ip' Hne; by rewrite lookup_insert_ne|].
  case_decide as Hd.
  - rewrite (map_lookup_filter_Some_2 _ _ _ (mkArpEntry mac now)); [done|by rewrite lookup_insert_eq|].
    cbn. unfold sat_sub. lia.
  - rewrite map_lookup_filter_None_2; [done|]. right. intros e. rewrite lookup_insert_eq. intros [= <-]. cbn. unfold sat_sub. lia.
Qed.
