(* ===== verification/Firewall.v ===== *)
(** * Firewall: packet filtering ([kernel/src/net/firewall.rs])

    Rules, chains, connection tracking and the decision on a packet. Addresses are their
    bytes, in network order; [None] is a panic (a slice beyond the 16 bytes of an IPv6
    address). *)

From Stdlib Require Import ZArith Lia String.
From stdpp Require Import gmap list sorting strings.
From S2P Require Import Prelude.
From S2P Require Import Ids.
From S2P Require Import Bytes.
From S2P Require Import Packets.

(** ** Data *)

Inductive Action := Accept | Drop | Reject | Log | Jump | Return.
#[global] Instance Action_eq_dec : EqDecision Action.
Proof. solve_decision. Defined.

Inductive Protocol := ProtoAny | Icmp | Icmpv6 | Tcp | Udp | Number (n : Z).

Definition Protocol_matches (p : Protocol) (proto : Z) : bool :=
  match p with
  | ProtoAny => true
  | Icmp => proto =? 1
  | Icmpv6 => proto =? 58
  | Tcp => proto =? 6
  | Udp => proto =? 17
  | Number n => proto =? n
  end.

Abbreviation Ipv6Address := (list Z).

(** [u32::from(addr)]. *)
Definition u32_from (addr : Ipv4Address) : Z := from_be_bytes addr.

Inductive IpMatch :=
| IpAny
| Ipv4 (a : Ipv4Address)
| Ipv4Subnet (base : Ipv4Address) (prefix : Z)
| Ipv6 (a : Ipv6Address)
| Ipv6Subnet (base : Ipv6Address) (prefix : Z).

(** [1u32 << n] without overflow checks: the shift amount counts modulo 32. *)
Definition u32_shl1 (n : Z) : Z := u32 (Z.shiftl 1 (n mod 32)).

Definition v4_mask (prefix : Z) : Z :=
  if 32 <=? prefix then 0xFFFFFFFF
  else word_not 32 (u32 (u32_shl1 (32 - prefix) - 1)).

Definition matches_v4 (m : IpMatch) (addr : Ipv4Address) : bool :=
  match m with
  | IpAny => true
  | Ipv4 a => bool_decide (a = addr)
  | Ipv4Subnet base prefix =>
      let mask := v4_mask prefix in
      Z.land (u32_from base) mask =? Z.land (u32_from addr) mask
  | _ => false
  end.

Definition v6_mask (remaining_bits : Z) : Z :=
  word_not 8 (u8 (u8 (Z.shiftl 1 (8 - remaining_bits)) - 1)).

Definition matches_v6 (m : IpMatch) (addr : Ipv6Address) : option bool :=
  match m with
  | IpAny => Some true
  | Ipv6 a => Some (bool_decide (a = addr))
  | Ipv6Subnet base prefix =>
      let full_bytes := Z.to_nat (prefix / 8) in
      let remaining_bits := prefix mod 8 in
      if decide (16 < full_bytes)%nat then None
      else if negb (bool_decide (take full_bytes base = take full_bytes addr)) then Some false
      else if (0 <? remaining_bits) && bool_decide (full_bytes < 16)%nat then
        let mask := v6_mask remaining_bits in
        Some (Z.land (nth full_bytes base 0) mask =? Z.land (nth full_bytes addr 0) mask)
      else Some true
  | _ => Some false
  end.

Record PortMatch := mkPort { port_start : Z; port_end : Z }.
Definition PORT_ANY : PortMatch := mkPort 0 65535.
Definition port_single (port : Z) : PortMatch := mkPort port port.
Definition port_range (start end_ : Z) : PortMatch := mkPort start end_.
Definition port_matches (m : PortMatch) (port : Z) : bool :=
  (port_start m <=? port) && (port <=? port_end m).

Record TcpFlags := mkFlags {
  syn : option bool; ack : option bool; fin : option bool;
  rst : option bool; psh : option bool; urg : option bool
}.
Definition syn_only : TcpFlags := mkFlags (Some true) (Some false) None None None None.
Definition flags_established : TcpFlags := mkFlags None (Some true) None None None None.

Inductive ConnState := New | Established | Related | Invalid.

#[export] Instance ConnState_eq_dec : EqDecision ConnState.
Proof. solve_decision. Defined.

Record IcmpMatch := mkIcmp { icmp_type : option Z; icmp_code : option Z }.
Definition ICMP_ANY : IcmpMatch := mkIcmp None None.
Definition of_type (t : Z) : IcmpMatch := mkIcmp (Some t) None.
Definition echo_request : IcmpMatch := mkIcmp (Some 8) (Some 0).
Definition echo_reply : IcmpMatch := mkIcmp (Some 0) (Some 0).

Record RateLimit := mkRate { max_packets : Z; interval_ms : Z; rate_current : Z; last_reset : Z }.

Definition rate_new (max_packets interval_ms : Z) : RateLimit := mkRate max_packets interval_ms 0 0.

Definition rate_check (now_ms : Z) (r : RateLimit) : RateLimit * bool :=
  let r := if interval_ms r <=? u64_sub now_ms (last_reset r)
           then mkRate (max_packets r) (interval_ms r) 0 now_ms else r in
  if rate_current r <? max_packets r
  then (mkRate (max_packets r) (interval_ms r) (u32 (rate_current r + 1)) (last_reset r), true)
  else (r, false).

Record Rule := mkRule {
  rule_id : Z; priority : Z; rule_enabled : bool;
  rule_protocol : Protocol;
  src_addr : IpMatch; dst_addr : IpMatch;
  rule_src_port : PortMatch; rule_dst_port : PortMatch;
  tcp_flags : option TcpFlags; rule_icmp : option IcmpMatch;
  rule_state : option ConnState; rate_limit : option RateLimit;
  action : Action;
  jump_target : option string; log_prefix : option string; rule_comment : option string;
  rule_packets : Z; rule_bytes : Z
}.

Definition Rule_new (id : Z) (a : Action) : Rule :=
  mkRule id 100 true ProtoAny IpAny IpAny PORT_ANY PORT_ANY None None None None a None None None 0 0.

(** The builders. *)
Definition protocol (proto : Protocol) (r : Rule) : Rule :=
  mkRule (rule_id r) (priority r) (rule_enabled r) proto (src_addr r) (dst_addr r) (rule_src_port r)
    (rule_dst_port r) (tcp_flags r) (rule_icmp r) (rule_state r) (rate_limit r) (action r) (jump_target r)
    (log_prefix r) (rule_comment r) (rule_packets r) (rule_bytes r).
Definition src (addr : IpMatch) (r : Rule) : Rule :=
  mkRule (rule_id r) (priority r) (rule_enabled r) (rule_protocol r) addr (dst_addr r) (rule_src_port r)
    (rule_dst_port r) (tcp_flags r) (rule_icmp r) (rule_state r) (rate_limit r) (action r) (jump_target r)
    (log_prefix r) (rule_comment r) (rule_packets r) (rule_bytes r).
Definition dst (addr : IpMatch) (r : Rule) : Rule :=
  mkRule (rule_id r) (priority r) (rule_enabled r) (rule_protocol r) (src_addr r) addr (rule_src_port r)
    (rule_dst_port r) (tcp_flags r) (rule_icmp r) (rule_state r) (rate_limit r) (action r) (jump_target r)
    (log_prefix r) (rule_comment r) (rule_packets r) (rule_bytes r).
Definition src_port (p : PortMatch) (r : Rule) : Rule :=
  mkRule (rule_id r) (priority r) (rule_enabled r) (rule_protocol r) (src_addr r) (dst_addr r) p
    (rule_dst_port r) (tcp_flags r) (rule_icmp r) (rule_state r) (rate_limit r) (action r) (jump_target r)
    (log_prefix r) (rule_comment r) (rule_packets r) (rule_bytes r).
Definition dst_port (p : PortMatch) (r : Rule) : Rule :=
  mkRule (rule_id r) (priority r) (rule_enabled r) (rule_protocol r) (src_addr r) (dst_addr r)
    (rule_src_port r) p (tcp_flags r) (rule_icmp r) (rule_state r) (rate_limit r) (action r) (jump_target r)
    (log_prefix r) (rule_comment r) (rule_packets r) (rule_bytes r).
Definition comment (text : string) (r : Rule) : Rule :=
  mkRule (rule_id r) (priority r) (rule_enabled r) (rule_protocol r) (src_addr r) (dst_addr r)
    (rule_src_port r) (rule_dst_port r) (tcp_flags r) (rule_icmp r) (rule_state r) (rate_limit r) (action r)
    (jump_target r) (log_prefix r) (Some text) (rule_packets r) (rule_bytes r).
Definition state (s : ConnState) (r : Rule) : Rule :=
  mkRule (rule_id r) (priority r) (rule_enabled r) (rule_protocol r) (src_addr r) (dst_addr r)
    (rule_src_port r) (rule_dst_port r) (tcp_flags r) (rule_icmp r) (Some s) (rate_limit r) (action r)
    (jump_target r) (log_prefix r) (rule_comment r) (rule_packets r) (rule_bytes r).

(** ** Chains *)

Record Chain := mkChain { chain_name : string; policy : Action; rules : list Rule }.

Definition Chain_new (name : string) (policy : Action) : Chain := mkChain name policy [].

(** [sort_by_key(|r| r.priority)], a stable sort, as insertion from the right. *)
Fixpoint insert_rule (r : Rule) (l : list Rule) : list Rule :=
  match l with
  | [] => [r]
  | r' :: l' => if priority r <=? priority r' then r :: l else r' :: insert_rule r l'
  end.
Definition sort_rules (l : list Rule) : list Rule := foldr insert_rule [] l.

Definition with_rules (rs : list Rule) (c : Chain) : Chain := mkChain (chain_name c) (policy c) rs.
Definition add_rule (r : Rule) (c : Chain) : Chain := with_rules (sort_rules (rules c ++ [r])) c.

Definition remove_rule (id : Z) (c : Chain) : Chain * bool :=
  match position (λ r, rule_id r =? id) (rules c) with
  | Some pos => (with_rules (delete pos (rules c)) c, true)
  | None => (c, false)
  end.

Definition get_rule (id : Z) (c : Chain) : option Rule := find (λ r, rule_id r =? id) (rules c).

(** ** Connection tracking *)

Record ConnTrackEntry := mkConn {
  ct_protocol : Z;
  ct_src_v4 : option Ipv4Address; ct_dst_v4 : option Ipv4Address;
  ct_src_v6 : option Ipv6Address; ct_dst_v6 : option Ipv6Address;
  ct_src_port : Z; ct_dst_port : Z;
  ct_state : ConnState;
  ct_created : Z; ct_last_seen : Z; ct_timeout_ms : Z;
  ct_packets : Z; ct_bytes : Z
}.

Definition new_v4 (proto : Z) (s d : Ipv4Address) (sport dport : Z) : ConnTrackEntry :=
  mkConn proto (Some s) (Some d) None None sport dport New 0 0 30000 0 0.
Definition new_v6 (proto : Z) (s d : Ipv6Address) (sport dport : Z) : ConnTrackEntry :=
  mkConn proto None None (Some s) (Some d) sport dport New 0 0 30000 0 0.

Definition is_expired (now : Z) (e : ConnTrackEntry) : bool :=
  ct_timeout_ms e <? u64_sub now (ct_last_seen e).

Definition conn_update (now bytes : Z) (e : ConnTrackEntry) : ConnTrackEntry :=
  let is_new := bool_decide (ct_state e = New) in
  mkConn (ct_protocol e) (ct_src_v4 e) (ct_dst_v4 e) (ct_src_v6 e) (ct_dst_v6 e) (ct_src_port e)
    (ct_dst_port e) (if is_new then Established else ct_state e) (ct_created e) now
    (if is_new then 300000 else ct_timeout_ms e) (u64_add (ct_packets e) 1) (u64_add (ct_bytes e) bytes).

Record ConnTrack := mkTrack { conns : gmap Z ConnTrackEntry; max_entries : nat }.

Definition make_key_v4 (proto : Z) (s d : Ipv4Address) (sport dport : Z) : Z :=
  Z.lxor (Z.lxor (Z.lxor (Z.lxor proto (u64 (Z.shiftl (u32_from s) 8))) (u64 (Z.shiftl (u32_from d) 16)))
    (u64 (Z.shiftl sport 24))) (u64 (Z.shiftl dport 32)).

Definition lookup_v4 (proto : Z) (s d : Ipv4Address) (sport dport : Z) (t : ConnTrack) : option ConnTrackEntry :=
  conns t !! make_key_v4 proto s d sport dport.

Definition update_v4 (proto : Z) (s d : Ipv4Address) (sport dport now bytes : Z) (t : ConnTrack) : ConnTrack :=
  let key := make_key_v4 proto s d sport dport in
  match conns t !! key with
  | Some entry => mkTrack (<[key := conn_update now bytes entry]> (conns t)) (max_entries t)
  | None =>
      if decide (size (conns t) < max_entries t)%nat then
        mkTrack (<[key := mkConn proto (Some s) (Some d) None None sport dport New now now 30000 1 bytes]>
                   (conns t)) (max_entries t)
      else t
  end.

Definition conn_gc (now : Z) (t : ConnTrack) : ConnTrack :=
  mkTrack (filter (λ kv, is_expired now kv.2 = false) (conns t)) (max_entries t).

Definition conn_count (t : ConnTrack) : nat := size (conns t).

(** ** The firewall *)

Inductive NatType := Snat | Dnat.

Record NatRule := mkNat {
  nat_id : Z; nat_type : NatType; src_match : IpMatch; dst_match : IpMatch;
  nat_dst_port : PortMatch; nat_protocol : Protocol; nat_addr : Ipv4Address; nat_port : Z
}.

Record FirewallStats := mkStats {
  packets_processed : Z; packets_accepted : Z; packets_dropped : Z; packets_rejected : Z;
  bytes_processed : Z
}.
Definition stats_default : FirewallStats := mkStats 0 0 0 0 0.

Record Firewall := mkFw {
  input : Chain; output : Chain; forward : Chain;
  chains : gmap string Chain;
  conntrack : ConnTrack;
  nat_rules : list NatRule;
  fw_next_rule_id : Z;
  enabled : bool;
  stats : FirewallStats
}.

Definition fw_new : Firewall :=
  mkFw (Chain_new "INPUT" Accept) (Chain_new "OUTPUT" Accept) (Chain_new "FORWARD" Drop) ∅
    (mkTrack ∅ (Z.to_nat 65536)) [] 1 false stats_default.

Definition set_input (f : Chain → Chain) (w : Firewall) : Firewall :=
  mkFw (f (input w)) (output w) (forward w) (chains w) (conntrack w) (nat_rules w) (fw_next_rule_id w) (enabled w) (stats w).
Definition set_output (f : Chain → Chain) (w : Firewall) : Firewall :=
  mkFw (input w) (f (output w)) (forward w) (chains w) (conntrack w) (nat_rules w) (fw_next_rule_id w) (enabled w) (stats w).
Definition set_forward (f : Chain → Chain) (w : Firewall) : Firewall :=
  mkFw (input w) (output w) (f (forward w)) (chains w) (conntrack w) (nat_rules w) (fw_next_rule_id w) (enabled w) (stats w).
Definition set_chains (f : gmap string Chain → gmap string Chain) (w : Firewall) : Firewall :=
  mkFw (input w) (output w) (forward w) (f (chains w)) (conntrack w) (nat_rules w) (fw_next_rule_id w) (enabled w) (stats w).
Definition set_conntrack (f : ConnTrack → ConnTrack) (w : Firewall) : Firewall :=
  mkFw (input w) (output w) (forward w) (chains w) (f (conntrack w)) (nat_rules w) (fw_next_rule_id w) (enabled w) (stats w).
Definition set_enabled (b : bool) (w : Firewall) : Firewall :=
  mkFw (input w) (output w) (forward w) (chains w) (conntrack w) (nat_rules w) (fw_next_rule_id w) b (stats w).
Definition set_stats (f : FirewallStats → FirewallStats) (w : Firewall) : Firewall :=
  mkFw (input w) (output w) (forward w) (chains w) (conntrack w) (nat_rules w) (fw_next_rule_id w) (enabled w) (f (stats w)).

Definition enable : Firewall → Firewall := set_enabled true.
Definition disable : Firewall → Firewall := set_enabled false.

Definition next_rule_id (w : Firewall) : Firewall * Z :=
  (mkFw (input w) (output w) (forward w) (chains w) (conntrack w) (nat_rules w)
     (u32 (fw_next_rule_id w + 1)) (enabled w) (stats w), fw_next_rule_id w).

Definition add_input_rule (r : Rule) : Firewall → Firewall := set_input (add_rule r).
Definition add_output_rule (r : Rule) : Firewall → Firewall := set_output (add_rule r).
Definition add_forward_rule (r : Rule) : Firewall → Firewall := set_forward (add_rule r).

Definition create_chain (name : string) (w : Firewall) : Firewall * bool :=
  match chains w !! name with
  | Some _ => (w, false)
  | None => (set_chains <[name := Chain_new name Return]> w, true)
  end.

Definition delete_chain (name : string) (w : Firewall) : Firewall * bool :=
  (set_chains (delete name) w, bool_decide (is_Some (chains w !! name))).

(** The three built-in chains by name. *)
Definition builtin (name : string) (w : Firewall) : option Chain :=
  if decide (name = "INPUT"%string) then Some (input w)
  else if decide (name = "OUTPUT"%string) then Some (output w)
  else if decide (name = "FORWARD"%string) then Some (forward w)
  else None.

Definition set_builtin (name : string) (f : Chain → Chain) (w : Firewall) : Firewall :=
  if decide (name = "INPUT"%string) then set_input f w
  else if decide (name = "OUTPUT"%string) then set_output f w
  else if decide (name = "FORWARD"%string) then set_forward f w
  else w.

Definition set_policy (name : string) (p : Action) : Firewall → Firewall :=
  set_builtin name (λ c, mkChain (chain_name c) p (rules c)).

Definition list_rules (name : string) (w : Firewall) : list Rule :=
  match builtin name w with
  | Some c => rules c
  | None => match chains w !! name with Some c => rules c | None => [] end
  end.

Definition flush (name : string) (w : Firewall) : Firewall :=
  match builtin name w with
  | Some _ => set_builtin name (with_rules []) w
  | None => set_chains (alter (with_rules []) name) w
  end.

(** The tests of the loop of [process_ipv4], in its order. *)
Definition rule_matches (proto : Z) (s d : Ipv4Address) (sport dport : Z) (r : Rule) : bool :=
  if negb (rule_enabled r) then false
  else if negb (Protocol_matches (rule_protocol r) proto) then false
  else if negb (matches_v4 (src_addr r) s) || negb (matches_v4 (dst_addr r) d) then false
  else if (proto =? 6) || (proto =? 17) then
    negb (negb (port_matches (rule_src_port r) sport) || negb (port_matches (rule_dst_port r) dport))
  else true.

(** The loop: the statistics and the action returned, if a rule decides. *)
Fixpoint check_rules (proto : Z) (s d : Ipv4Address) (sport dport : Z) (rs : list Rule) (st : FirewallStats) :
    FirewallStats * option Action :=
  match rs with
  | [] => (st, None)
  | r :: rs =>
      if rule_matches proto s d sport dport r then
        match action r with
        | Accept => (mkStats (packets_processed st) (u64_add (packets_accepted st) 1) (packets_dropped st)
                       (packets_rejected st) (bytes_processed st), Some Accept)
        | Drop => (mkStats (packets_processed st) (packets_accepted st) (u64_add (packets_dropped st) 1)
                     (packets_rejected st) (bytes_processed st), Some Drop)
        | Reject => (mkStats (packets_processed st) (packets_accepted st) (packets_dropped st)
                       (u64_add (packets_rejected st) 1) (bytes_processed st), Some Reject)
        | Return => (st, Some Return)
        | Log | Jump => check_rules proto s d sport dport rs st
        end
      else check_rules proto s d sport dport rs st
  end.

Definition process_ipv4 (name : string) (proto : Z) (s d : Ipv4Address) (sport dport packet_len : Z)
    (w : Firewall) : Firewall * Action :=
  if negb (enabled w) then (w, Accept)
  else
    let w := set_stats (λ st, mkStats (u64_add (packets_processed st) 1) (packets_accepted st)
      (packets_dropped st) (packets_rejected st) (u64_add (bytes_processed st) packet_len)) w in
    let w := set_conntrack (update_v4 proto s d sport dport 0 packet_len) w in
    match builtin name w with
    | None => (w, match chains w !! name with Some _ => Return | None => Accept end)
    | Some chain =>
        let '(st, a) := check_rules proto s d sport dport (rules chain) (stats w) in
        (set_stats (λ _, st) w, match a with Some a => a | None => policy chain end)
    end.

Definition get_stats (w : Firewall) : FirewallStats := stats w.
Definition reset_stats : Firewall → Firewall := set_stats (λ _, stats_default).
Definition gc (now : Z) : Firewall → Firewall := set_conntrack (conn_gc now).

(** The default rules. *)
Definition init (w : Firewall) : Firewall :=
  let '(w, id) := next_rule_id w in
  let w := add_input_rule (comment "Allow loopback input" (src (Ipv4 LOCALHOST) (Rule_new id Accept))) w in
  let '(w, id) := next_rule_id w in
  let w := add_output_rule (comment "Allow loopback output" (dst (Ipv4 LOCALHOST) (Rule_new id Accept))) w in
  let '(w, id) := next_rule_id w in
  let w := add_input_rule (comment "Allow ICMP" (protocol Icmp (Rule_new id Accept))) w in
  let '(w, id) := next_rule_id w in
  let w := add_input_rule (comment "Allow established connections" (state Established (Rule_new id Accept))) w in
  let '(w, id) := next_rule_id w in
  add_input_rule (comment "Allow related connections" (state Related (Rule_new id Accept))) w.

(** ** The order of the rules *)

Definition prio_le (r1 r2 : Rule) : Prop := priority r1 ≤ priority r2.
(** The rules of one priority, in order. *)
Definition at_priority (k : Z) (l : list Rule) : list Rule := filter (λ r, priority r = k) l.

(** [l] is [rs] sorted by priority, rules of one priority in the order of [rs]. *)
Definition stably_sorted (rs l : list Rule) : Prop :=
  StronglySorted prio_le l ∧ l ≡ₚ rs ∧ ∀ k, at_priority k l = at_priority k rs.

Lemma at_priority_app k l1 l2 : at_priority k (l1 ++ l2) = at_priority k l1 ++ at_priority k l2.
Proof. apply filter_app. Qed.

Lemma insert_rule_perm r l : insert_rule r l ≡ₚ r :: l.
Proof.
  induction l as [|r' l IH]; simpl; [done|]. destruct (_ <=? _); [done|].
  rewrite IH. apply Permutation_swap.
Qed.

Lemma insert_rule_sorted r l : StronglySorted prio_le l → StronglySorted prio_le (insert_rule r l).
Proof.
  induction 1 as [|r' l Hl IH Hr']; simpl; [by repeat constructor|].
  destruct (Z.leb_spec (priority r) (priority r')) as [Hle|Hlt].
  - constructor; [by constructor|]. constructor; [done|]. eapply Forall_impl; [exact Hr'|].
    unfold prio_le. intros. lia.
  - constructor; [done|]. rewrite insert_rule_perm. constructor; [unfold prio_le; lia|done].
Qed.

(** Before the rules of its own priority. *)
Lemma insert_rule_stable r l k : StronglySorted prio_le l →
  at_priority k (insert_rule r l) = at_priority k (r :: l).
Proof.
  unfold at_priority. induction 1 as [|r' l Hl IH Hr']; cbn [insert_rule]; [done|].
  destruct (Z.leb_spec (priority r) (priority r')) as [Hle|Hlt]; [done|].
  rewrite filter_cons, IH, !filter_cons. repeat case_decide; try done. lia.
Qed.

Lemma sort_rules_spec l : stably_sorted l (sort_rules l).
Proof.
  induction l as [|r l (H1 & H2 & H3)]; [by repeat constructor|]. cbn [sort_rules foldr].
  fold (sort_rules l). split_and!.
  - by apply insert_rule_sorted.
  - by rewrite insert_rule_perm, H2.
  - intros k. rewrite insert_rule_stable by done. unfold at_priority in *. by rewrite !filter_cons, H3.
Qed.

Lemma add_rule_stable rs r c : stably_sorted rs (rules c) → stably_sorted (rs ++ [r]) (rules (add_rule r c)).
Proof.
  intros (H1 & H2 & H3). destruct (sort_rules_spec (rules c ++ [r])) as (H4 & H5 & H6).
  cbn [rules add_rule with_rules]. split; [done|]. split; [by rewrite H5, H2|].
  intros k. by rewrite H6, !at_priority_app, H3.
Qed.

Lemma add_rules_stable rs' : ∀ rs c, stably_sorted rs (rules c) →
  stably_sorted (rs ++ rs') (rules (foldl (λ c r, add_rule r c) c rs')).
Proof.
  induction rs' as [|r rs' IH]; intros rs c Hs; [by rewrite app_nil_r|].
  rewrite cons_middle, app_assoc. by apply IH, add_rule_stable.
Qed.

(** ** The decision *)

Definition decides (a : Action) : bool := match a with Log | Jump => false | _ => true end.

(** The rule says what happens to this packet. *)
Definition decisive (proto : Z) (s d : Ipv4Address) (sport dport : Z) (r : Rule) : bool :=
  rule_matches proto s d sport dport r && decides (action r).

Section packet.
Context (proto : Z) (s d : Ipv4Address) (sport dport : Z).
Let dec := decisive proto s d sport dport.

Lemma check_rules_find rs : ∀ st,
  (check_rules proto s d sport dport rs st).2 = action <$> find dec rs.
Proof.
  induction rs as [|r rs IH]; intros st; [done|]. cbn [check_rules find]. unfold dec at 1, decisive.
  destruct (rule_matches _ _ _ _ _ _); [|apply IH]. destruct (action r) eqn:Ea; cbn [decides andb];
    rewrite ?IH; try done; cbn; by rewrite Ea.
Qed.

(** The counter of an action, and the statistics after a rule decided it. *)
Definition counter (a : Action) (st : FirewallStats) : Z :=
  match a with Accept => packets_accepted st | Drop => packets_dropped st | Reject => packets_rejected st | _ => 0 end.
Definition counted (a : Action) (st : FirewallStats) : FirewallStats :=
  let one b n := if decide (a = b) then u64_add n 1 else n in
  mkStats (packets_processed st) (one Accept (packets_accepted st)) (one Drop (packets_dropped st))
    (one Reject (packets_rejected st)) (bytes_processed st).

Lemma check_rules_stats rs : ∀ st, (check_rules proto s d sport dport rs st).1 =
  match find dec rs with Some r => counted (action r) st | None => st end.
Proof.
  induction rs as [|r rs IH]; intros st; [done|]. cbn [check_rules find]. unfold dec at 1, decisive.
  destruct (rule_matches _ _ _ _ _ _); [|apply IH]. destruct (action r) eqn:Ea; cbn [decides andb];
    try apply IH; rewrite Ea; by destruct st.
Qed.

(** The first decisive rule of a sorted list is the first one of its priority. *)
Lemma find_at_priority l r : StronglySorted prio_le l → find dec l = Some r →
  find dec (at_priority (priority r) l) = Some r ∧ ∀ x, x ∈ l → dec x = true → priority r ≤ priority x.
Proof.
  unfold at_priority. induction 1 as [|y l Hl IH Hy]; [done|]. cbn [find]. destruct (dec y) eqn:Ey.
  - intros [= ->]. split.
    + rewrite filter_cons, decide_True by done. cbn [find]. by rewrite Ey.
    + intros x [->|Hx]%elem_of_cons _; [done|]. rewrite Forall_forall in Hy. by apply Hy.
  - intros Hf. destruct (IH Hf) as [H1 H2]. split.
    + rewrite filter_cons. case_decide; [|done]. cbn [find]. by rewrite Ey.
    + intros x [->|Hx]%elem_of_cons Hd; [congruence|]. by apply H2.
Qed.

Lemma find_none_iff (l : list Rule) : find dec l = None ↔ ∀ x, x ∈ l → dec x = false.
Proof.
  split.
  - intros Hf x Hx. apply (find_none dec l Hf). by apply list_elem_of_In.
  - intros Hf. destruct (find dec l) as [r|] eqn:E; [|done]. apply find_some in E as [E1 E2].
    rewrite Hf in E2; [done|]. by apply list_elem_of_In.
Qed.

(** The decision, from the rules in the order they were added. *)
Lemma find_stable rs l r : stably_sorted rs l → find dec l = Some r →
  find dec (at_priority (priority r) rs) = Some r ∧ (∀ x, x ∈ rs → dec x = true → priority r ≤ priority x).
Proof.
  intros (H1 & H2 & H3) Hf. destruct (find_at_priority l r H1 Hf) as [H4 H5].
  split; [by rewrite <-H3|]. intros x Hx. apply H5. by rewrite H2.
Qed.

Lemma find_app_none l1 l2 : (∀ x, x ∈ l1 → dec x = false) → find dec (l1 ++ l2) = find dec l2.
Proof.
  induction l1 as [|y l1 IH]; intros Hn; [done|]. cbn [find app]. rewrite Hn by by left.
  apply IH. intros x Hx. apply Hn. by right.
Qed.

Lemma decision_first pre r post l : stably_sorted (pre ++ r :: post) l → dec r = true →
  (∀ x, x ∈ pre → dec x = true → priority r < priority x) →
  (∀ x, x ∈ post → dec x = true → priority r ≤ priority x) →
  find dec l = Some r.
Proof.
  intros Hs Hr Hpre Hpost. destruct (find dec l) as [r'|] eqn:E.
  - destruct (find_stable _ _ _ Hs E) as [H1 H2].
    assert (dec r' = true) as Hd' by by apply find_some in E as [_ ?].
    assert (r' ∈ pre ++ r :: post) as Hin.
    { destruct Hs as (_ & Hp & _). rewrite <-Hp. apply list_elem_of_In. by apply find_some in E as [? _]. }
    assert (priority r' = priority r) as Hk.
    { apply Z.le_antisymm; [apply H2; [set_solver|done]|].
      apply elem_of_app in Hin as [Hin|[->|Hin]%elem_of_cons]; [|done|by apply Hpost].
      apply Z.lt_le_incl. by apply Hpre. }
    rewrite Hk, at_priority_app, find_app_none in H1.
    + unfold at_priority in H1. rewrite filter_cons, decide_True in H1 by done. cbn [find] in H1.
      rewrite Hr in H1. congruence.
    + intros x [Hx1 Hx2]%list_elem_of_filter. destruct (dec x) eqn:Ex; [|done].
      specialize (Hpre x Hx2 Ex). lia.
  - rewrite find_none_iff in E. destruct Hs as (_ & Hp & _). specialize (E r).
    rewrite Hp in E. rewrite E in Hr; [done|set_solver].
Qed.

End packet.

Lemma process_ipv4_action name proto s d sport dport len w c :
  enabled w = true → builtin name w = Some c →
  (process_ipv4 name proto s d sport dport len w).2
  = match find (decisive proto s d sport dport) (rules c) with Some r => action r | None => policy c end.
Proof.
  intros He Hb. unfold process_ipv4. rewrite He. cbn [negb].
  assert (∀ f g, builtin name (set_conntrack f (set_stats g w)) = builtin name w) as Hbb
    by (intros; unfold builtin; by repeat case_decide).
  rewrite Hbb, Hb.
  pose proof (check_rules_find proto s d sport dport (rules c)
    (stats (set_conntrack (update_v4 proto s d sport dport 0 len) (set_stats (λ st, mkStats
       (u64_add (packets_processed st) 1) (packets_accepted st) (packets_dropped st) (packets_rejected st)
       (u64_add (bytes_processed st) len)) w)))) as Hc.
  destruct (check_rules _ _ _ _ _ _ _) as [st a]. cbn [snd] in *. rewrite Hc. by destruct (find _ _).
Qed.

Lemma add_rules_policy rs : ∀ c, policy (foldl (λ c r, add_rule r c) c rs) = policy c.
Proof. induction rs as [|r rs IH]; intros c; [done|]. cbn [foldl]. by rewrite IH. Qed.

Lemma process_ipv4_stats name proto s d sport dport len w c :
  enabled w = true → builtin name w = Some c →
  let w' := (process_ipv4 name proto s d sport dport len w).1 in
  let seen := mkStats (u64_add (packets_processed (stats w)) 1) (packets_accepted (stats w)) (packets_dropped (stats w))
    (packets_rejected (stats w)) (u64_add (bytes_processed (stats w)) len) in
  conntrack w' = update_v4 proto s d sport dport 0 len (conntrack w) ∧
  stats w' = match find (decisive proto s d sport dport) (rules c) with Some r => counted (action r) seen | None => seen end.
Proof.
  intros He Hb w' seen. unfold w', process_ipv4. rewrite He. cbn [negb].
  assert (∀ f g, builtin name (set_conntrack f (set_stats g w)) = builtin name w) as Hbb
    by (intros; unfold builtin; by repeat case_decide).
  rewrite Hbb, Hb. pose proof (check_rules_stats proto s d sport dport (rules c) seen) as Hc. unfold seen in *.
  cbn [stats set_conntrack set_stats]. destruct (check_rules _ _ _ _ _ _ _) as [st a]. cbn [fst] in *. by rewrite Hc.
Qed.

(** [C32] The decision on a packet. For rules added one after the other to an empty
    built-in chain of an enabled firewall, the answer is the action of the decisive rule
    (enabled, matching in protocol, addresses and, for TCP and UDP, ports, and neither
    [Log] nor [Jump]) of the lowest priority number, the one added first among equals;
    with no decisive rule it is the chain's policy. The packet and its bytes are counted,
    the counter of the answer goes up by one when a rule decided and none does when the
    policy did, and the packet is recorded in the connection table once. A disabled
    firewall accepts and changes nothing. *)
Theorem firewall_decision name proto s d sport dport len rs p w :
  builtin name w = Some (foldl (λ c r, add_rule r c) (Chain_new name p) rs) →
  let dec := decisive proto s d sport dport in
  let answer := (process_ipv4 name proto s d sport dport len w).2 in
  let w' := (process_ipv4 name proto s d sport dport len w).1 in
  (enabled w = false → answer = Accept ∧ w' = w) ∧
  (enabled w = true →
    ((∀ r, r ∈ rs → dec r = false) → answer = p) ∧
    (∀ pre r post, rs = pre ++ r :: post → dec r = true →
       (∀ x, x ∈ pre → dec x = true → priority r < priority x) →
       (∀ x, x ∈ post → dec x = true → priority r ≤ priority x) → answer = action r) ∧
    packets_processed (stats w') = u64_add (packets_processed (stats w)) 1 ∧
    bytes_processed (stats w') = u64_add (bytes_processed (stats w)) len ∧
    (∀ a, a = Accept ∨ a = Drop ∨ a = Reject → counter a (stats w') =
       if existsb dec rs && bool_decide (answer = a) then u64_add (counter a (stats w)) 1 else counter a (stats w)) ∧
    conntrack w' = update_v4 proto s d sport dport 0 len (conntrack w)).
Proof.
  intros Hb dec answer w'. set (c := foldl _ _ _) in *.
  assert (stably_sorted rs (rules c)) as Hs.
  { apply (add_rules_stable rs []). by repeat constructor. }
  assert (policy c = p) as Hp by apply add_rules_policy.
  split; [by intros He; unfold answer, w', process_ipv4; rewrite He|]. intros He.
  destruct (process_ipv4_stats name proto s d sport dport len w c He Hb) as [Hct Hst]. fold w' in Hct, Hst.
  pose proof (process_ipv4_action name proto s d sport dport len w c He Hb) as Ha. fold answer dec in Ha, Hst.
  assert (Hex : existsb dec rs = match find dec (rules c) with Some _ => true | None => false end).
  { destruct Hs as (_ & Hperm & _). apply eq_bool_prop_intro. rewrite !Is_true_true, existsb_exists. split.
    - intros (x & Hx%list_elem_of_In & Hd). destruct (find dec (rules c)) eqn:E; [done|].
      pose proof (proj1 (find_none_iff proto s d sport dport (rules c)) E x) as Hx'. unfold dec in Hd. rewrite Hx' in Hd; [done|by rewrite Hperm].
    - destruct (find dec (rules c)) as [r|] eqn:E; [|done]. intros _. apply find_some in E as [Hr Hd]. exists r.
      split; [|done]. apply list_elem_of_In. rewrite <- Hperm. by apply list_elem_of_In. }
  split_and!; [| |by rewrite Hst; destruct (find dec (rules c))..| |done].
  - intros Hn. rewrite Ha; unfold dec; rewrite (proj2 (find_none_iff proto s d sport dport (rules c))); [done|].
    intros x Hx. apply Hn. destruct Hs as (_ & Hperm & _). by rewrite <-Hperm.
  - intros pre r post Hrs Hr Hpre Hpost. rewrite Hrs in Hs. rewrite Ha.
    unfold dec. by rewrite (decision_first proto s d sport dport pre r post).
  - intros a Ha'. rewrite Hst, Hex, Ha. destruct (find dec (rules c)) as [r|]; cbn [andb]; [|by destruct Ha' as [->|[->| ->]]].
    destruct Ha' as [->|[->| ->]]; cbn; case_bool_decide; by case_decide.
Qed.

Definition sample_rules : list Rule :=
  [ mkRule 1 100 true Tcp IpAny IpAny PORT_ANY (port_single 22) None None None None Accept None None None 0 0;
    mkRule 2 50 true ProtoAny (Ipv4Subnet [10; 0; 0; 0] 8) IpAny PORT_ANY PORT_ANY None None None None Log None None None 0 0;
    mkRule 3 100 true ProtoAny (Ipv4Subnet [10; 0; 0; 0] 8) IpAny PORT_ANY PORT_ANY None None None None Reject None None None 0 0 ].

Definition sample_fw : Firewall :=
  enable (set_input (λ _, foldl (λ c r, add_rule r c) (Chain_new "INPUT" Drop) sample_rules) fw_new).

Lemma firewall_decision_witness :
  (process_ipv4 "INPUT" 6 [10; 1; 2; 3] [10; 0; 0; 1] 40000 22 60 sample_fw).2 = Accept ∧
  (process_ipv4 "INPUT" 17 [10; 1; 2; 3] [10; 0; 0; 1] 40000 53 60 sample_fw).2 = Reject ∧
  (process_ipv4 "INPUT" 17 [192; 168; 1; 1] [10; 0; 0; 1] 40000 53 60 sample_fw).2 = Drop.
Proof.
  split; [|split].
  - destruct (firewall_decision "INPUT" 6 [10; 1; 2; 3] [10; 0; 0; 1] 40000 22 60 sample_rules Drop sample_fw
      eq_refl) as [_ H]. destruct (H eq_refl) as (_ & Hd & _).
    apply (Hd [] _ (drop 1 sample_rules) eq_refl eq_refl); [by intros x ?%elem_of_nil|].
    intros x Hx Hdec. repeat (apply elem_of_cons in Hx as [->|Hx]; [by vm_compute in Hdec |- *|]).
    by apply elem_of_nil in Hx.
  - destruct (firewall_decision "INPUT" 17 [10; 1; 2; 3] [10; 0; 0; 1] 40000 53 60 sample_rules Drop sample_fw
      eq_refl) as [_ H]. destruct (H eq_refl) as (_ & Hd & _).
    apply (Hd (take 2 sample_rules) _ [] eq_refl eq_refl); [|by intros x ?%elem_of_nil].
    intros x Hx Hdec. repeat (apply elem_of_cons in Hx as [->|Hx]; [by vm_compute in Hdec|]).
    by apply elem_of_nil in Hx.
  - destruct (firewall_decision "INPUT" 17 [192; 168; 1; 1] [10; 0; 0; 1] 40000 53 60 sample_rules Drop sample_fw
      eq_refl) as [_ H]. destruct (H eq_refl) as [Hn _].
    apply Hn. intros x Hx. repeat (apply elem_of_cons in Hx as [->|Hx]; [reflexivity|]). by apply elem_of_nil in Hx.
Defined.

(** ** The default rules *)

(** The rules [init] adds to the input chain. *)
Definition default_input : list Rule :=
  [ comment "Allow loopback input" (src (Ipv4 LOCALHOST) (Rule_new 1 Accept));
    comment "Allow ICMP" (protocol Icmp (Rule_new 3 Accept));
    comment "Allow established connections" (state Established (Rule_new 4 Accept));
    comment "Allow related connections" (state Related (Rule_new 5 Accept)) ].

Definition is_u16 (x : Z) : Prop := 0 ≤ x < 65536.

(** A rule with no condition but a connection state matches every packet. *)
Lemma state_rule_matches proto s d sport dport : is_u16 sport → is_u16 dport →
  decisive proto s d sport dport (comment "Allow established connections" (state Established (Rule_new 4 Accept))) = true.
Proof.
  intros [H1 H2] [H3 H4]. unfold decisive, rule_matches. cbn. unfold port_matches. cbn.
  rewrite (proj2 (Z.leb_le 0 sport)), (proj2 (Z.leb_le 0 dport)) by lia.
  rewrite (proj2 (Z.leb_le sport 65535)), (proj2 (Z.leb_le dport 65535)) by lia.
  by destruct (_ || _).
Qed.

(** The default rules leave the input chain open. [init] adds a rule that accepts packets
    of established connections, but no condition on the connection state is ever tested:
    after [init], whatever the chain's policy and whatever rules of the default priority
    or a larger number are added later, every IPv4 packet to the input chain is accepted. *)
Theorem default_rules_accept_all rs p proto s d sport dport len w :
  Forall (λ r, 100 ≤ priority r) rs → is_u16 sport → is_u16 dport →
  input w = foldl (λ c r, add_rule r c) (input (set_policy "INPUT" p (init fw_new))) rs →
  (process_ipv4 "INPUT" proto s d sport dport len w).2 = Accept.
Proof.
  intros Hrs Hs Hd Hi. destruct (enabled w) eqn:He; [|unfold process_ipv4; by rewrite He].
  rewrite (process_ipv4_action _ _ _ _ _ _ _ _ (input w)) by done.
  set (c0 := input (set_policy "INPUT" p (init fw_new))) in *.
  assert (stably_sorted (default_input ++ rs) (rules (input w))) as Hst.
  { rewrite Hi. apply add_rules_stable. change (rules c0) with default_input.
    split; [|done]. repeat constructor; unfold prio_le; simpl; lia. }
  pose proof (state_rule_matches proto s d sport dport Hs Hd) as Hest.
  destruct (find (decisive proto s d sport dport) (rules (input w))) as [r|] eqn:Ef.
  - destruct (find_stable _ _ _ _ _ _ _ _ Hst Ef) as [Hfind Hmin].
    assert (priority r = 100) as Hk.
    { apply Z.le_antisymm.
      - apply (Hmin (comment "Allow established connections" (state Established (Rule_new 4 Accept)))); [|done].
        apply elem_of_app. left. unfold default_input. do 2 right. left.
      - apply find_some in Ef as [Hin _]. apply list_elem_of_In in Hin.
        destruct Hst as (_ & Hperm & _). rewrite Hperm in Hin.
        apply elem_of_app in Hin as [Hin|Hin]; [|rewrite Forall_forall in Hrs; by apply Hrs].
        repeat (apply elem_of_cons in Hin as [->|Hin]; [simpl; lia|]). by apply elem_of_nil in Hin. }
    rewrite Hk, at_priority_app in Hfind. change (at_priority 100 default_input) with default_input in Hfind.
    assert (find (decisive proto s d sport dport) (default_input ++ at_priority 100 rs) =
            find (decisive proto s d sport dport) default_input) as Hd0.
    { unfold default_input. cbn [find app]. rewrite Hest. by repeat case_match. }
    rewrite Hd0 in Hfind. apply find_some in Hfind as [Hin _]. apply list_elem_of_In in Hin.
    repeat (apply elem_of_cons in Hin as [->|Hin]; [done|]). by apply elem_of_nil in Hin.
  - rewrite find_none_iff in Ef. destruct Hst as (_ & Hperm & _).
    rewrite (Ef (comment "Allow established connections" (state Established (Rule_new 4 Accept)))) in Hest; [done|].
    rewrite Hperm. apply elem_of_app. left. unfold default_input. do 2 right. left.
Qed.

Lemma default_rules_accept_all_witness :
  let deny := mkRule 9 100 true Tcp IpAny IpAny PORT_ANY PORT_ANY None None None None Drop None None None 0 0 in
  (process_ipv4 "INPUT" 6 [203; 0; 113; 9] [10; 0; 0; 1] 40000 22 60
     (enable (add_input_rule deny (set_policy "INPUT" Drop (init fw_new))))).2 = Accept.
Proof.
  intros deny. apply (default_rules_accept_all [deny] Drop); [|by split|by split|reflexivity].
  constructor; [done|constructor].
Defined.

(** ** Subnets *)

Lemma land_v4_mask_eqb w k x y : 0 ≤ k ≤ w → is_word w x → is_word w y →
  (Z.land x (word_not w (2 ^ k - 1)) =? Z.land y (word_not w (2 ^ k - 1))) = bool_decide (x / 2 ^ k = y / 2 ^ k).
Proof.
  intros Hk Hx Hy. rewrite !land_word_not by done. pose proof (Z.pow_pos_nonneg 2 k).
  case_bool_decide as E; [by rewrite E, Z.eqb_refl|]. apply Z.eqb_neq. intros Hm.
  apply Z.mul_cancel_r in Hm; [done|lia].
Qed.

Definition is_ipv6 (a : Ipv6Address) : Prop := Forall is_byte a ∧ length a = 16%nat.

(** The first [f] bytes and the top [r] bits of the next, as the top of the number. *)
Lemma top_bits l f r : Forall is_byte l → (f < length l)%nat → 0 ≤ r ≤ 8 →
  from_be_bytes l / 2 ^ (8 * Z.of_nat (length l) - (8 * Z.of_nat f + r))
  = from_be_bytes (take f l) * 2 ^ r + nth f l 0 / 2 ^ (8 - r) ∧ 0 ≤ nth f l 0 / 2 ^ (8 - r) < 2 ^ r.
Proof.
  intros Hb Hf Hr. destruct (lookup_lt_is_Some_2 l f Hf) as [b Hbf].
  rewrite (nth_lookup_Some _ _ _ _ Hbf). pose proof (Forall_lookup_1 _ _ _ _ Hb Hbf) as Hbb. unfold is_byte in Hbb.
  pose proof (Z.pow_pos_nonneg 2 (8 - r) ltac:(lia) ltac:(lia)). split.
  - rewrite <-(take_drop_middle l f b Hbf) at 1. change (b :: ?t) with ([b] ++ t).
    rewrite app_assoc, from_be_bytes_app. set (rest := drop (S f) l).
    assert (length rest = (length l - S f)%nat) as Hlr by apply length_drop.
    pose proof (from_be_bytes_range rest ltac:(by apply Forall_drop)) as [Hw1 Hw2].
    replace (8 * Z.of_nat (length l) - (8 * Z.of_nat f + r)) with (8 * Z.of_nat (length rest) + (8 - r)) by lia.
    rewrite Z.pow_add_r by lia. rewrite <-Z.div_div by lia.
    rewrite Z.div_add_l by lia. rewrite (Z.div_small (from_be_bytes rest)) by done. rewrite Z.add_0_r.
    rewrite from_be_bytes_app. change (from_be_bytes [b]) with (b + Z.shiftl 0 8). rewrite Z.shiftl_0_l, Z.add_0_r.
    change (2 ^ (8 * Z.of_nat (length [b]))) with (2 ^ 8).
    replace (2 ^ 8) with (2 ^ r * 2 ^ (8 - r)) by (rewrite <-Z.pow_add_r by lia; f_equal; lia).
    rewrite Z.mul_assoc, Z.div_add_l by lia. done.
  - split; [apply Z.div_pos; lia|]. apply Z.div_lt_upper_bound; [lia|].
    rewrite <-Z.pow_add_r by lia. replace (8 - r + r) with 8 by lia. lia.
Qed.

Lemma v4_mask_small p : 1 ≤ p < 32 → v4_mask p = word_not 32 (2 ^ (32 - p) - 1).
Proof.
  intros Hp. unfold v4_mask. rewrite (proj2 (Z.leb_gt _ _)) by lia. unfold u32_shl1.
  rewrite (Z.mod_small (32 - p)) by lia. rewrite Z.shiftl_mul_pow2, Z.mul_1_l by lia.
  pose proof (Z.pow_pos_nonneg 2 (32 - p) ltac:(lia) ltac:(lia)).
  assert (2 ^ (32 - p) < 2 ^ 32) by (apply Z.pow_lt_mono_r; lia).
  f_equal. unfold u32. rewrite !wrap_small; [done|split; lia|]. rewrite wrap_small by (split; lia). split; lia.
Qed.

Lemma v6_mask_small r : 0 < r < 8 → v6_mask r = word_not 8 (2 ^ (8 - r) - 1).
Proof.
  intros Hr. unfold v6_mask. rewrite Z.shiftl_mul_pow2, Z.mul_1_l by lia.
  pose proof (Z.pow_pos_nonneg 2 (8 - r) ltac:(lia) ltac:(lia)).
  assert (2 ^ (8 - r) < 2 ^ 8) by (apply Z.pow_lt_mono_r; lia).
  f_equal. unfold u8. rewrite (wrap_small 8 (2 ^ (8 - r))) by (split; lia). apply wrap_small. split; lia.
Qed.

Lemma nth_is_byte l n : Forall is_byte l → is_byte (nth n l 0).
Proof.
  intros Hl. destruct (l !! n) as [b|] eqn:E.
  - rewrite (nth_lookup_Some _ _ _ _ E). by eapply Forall_lookup_1.
  - apply lookup_ge_None in E. rewrite nth_overflow by done. by split.
Qed.

(** Subnet matching. An IPv4 address matches a subnet of prefix length 1 to 31 exactly
    when the two agree in their first [prefix] bits, and one of length 32 or more exactly
    when it is the base; an IPv6 address matches a subnet of length up to 128 exactly
    when the two agree in their first [prefix] bits. A prefix length of 0 does not match
    every IPv4 address but only the base, and an IPv6 length of 136 or more panics. *)
Theorem subnet_match_correct prefix :
  0 ≤ prefix < 256 →
  (∀ base addr, is_ipv4 base → is_ipv4 addr →
     matches_v4 (Ipv4Subnet base prefix) addr =
     if decide (1 ≤ prefix < 32)
     then bool_decide (u32_from base / 2 ^ (32 - prefix) = u32_from addr / 2 ^ (32 - prefix))
     else bool_decide (base = addr)) ∧
  (∀ base addr, is_ipv6 base → is_ipv6 addr →
     (prefix ≤ 128 → matches_v6 (Ipv6Subnet base prefix) addr =
        Some (bool_decide (from_be_bytes base / 2 ^ (128 - prefix) = from_be_bytes addr / 2 ^ (128 - prefix)))) ∧
     (136 ≤ prefix → matches_v6 (Ipv6Subnet base prefix) addr = None)).
Proof.
  intros Hp. split.
  - intros base addr [Hb1 Hl1] [Hb2 Hl2]. cbn [matches_v4]. unfold u32_from.
    pose proof (from_be_bytes_range base Hb1) as Hw1. pose proof (from_be_bytes_range addr Hb2) as Hw2.
    rewrite Hl1 in Hw1. rewrite Hl2 in Hw2. change (8 * Z.of_nat 4) with 32 in *.
    case_decide as Hd.
    + rewrite v4_mask_small by done. by apply land_v4_mask_eqb; [lia|..].
    + assert (v4_mask prefix = word_not 32 (2 ^ 0 - 1)) as ->.
      { unfold v4_mask. destruct (Z.leb_spec 32 prefix); [done|]. replace prefix with 0 by lia. done. }
      rewrite land_v4_mask_eqb by (done || lia). rewrite !Z.div_1_r.
      apply bool_decide_ext. split; [|by intros ->]. apply from_be_bytes_inj; [done..|congruence].
  - intros base addr [Hb1 Hl1] [Hb2 Hl2]. cbn [matches_v6].
    pose proof (Z.div_mod prefix 8 ltac:(lia)) as Hdm. pose proof (Z.mod_pos_bound prefix 8 ltac:(lia)) as Hm.
    set (q := prefix / 8) in *. set (r := prefix mod 8) in *. split; intros Hpp.
    + rewrite decide_False by lia.
      assert (Forall is_byte (take (Z.to_nat q) base) ∧ Forall is_byte (take (Z.to_nat q) addr)) as [Ht1 Ht2]
        by (split; by apply Forall_take).
      destruct (decide (q = 16)) as [Hq|Hq].
      { assert (prefix = 128) as -> by lia. rewrite Hq. change (Z.to_nat 16) with 16%nat.
        rewrite (bool_decide_eq_false_2 (16 < 16)%nat) by lia. rewrite andb_false_r, Z.sub_diag, !Z.div_1_r.
        rewrite !take_ge by lia. rewrite (bool_decide_ext (from_be_bytes base = _) (base = addr));
          [by case_bool_decide|]. split; [|by intros ->]. apply from_be_bytes_inj; [done..|congruence]. }
      destruct (top_bits base (Z.to_nat q) r Hb1) as [E1 B1]; [lia|lia|].
      destruct (top_bits addr (Z.to_nat q) r Hb2) as [E2 B2]; [lia|lia|].
      rewrite Hl1, Z2Nat.id in E1 by lia. rewrite Hl2, Z2Nat.id in E2 by lia.
      change (8 * Z.of_nat 16) with 128 in E1, E2. rewrite <-Hdm in E1, E2. rewrite E1, E2.
      set (T1 := take (Z.to_nat q) base) in *. set (T2 := take (Z.to_nat q) addr) in *.
      assert (length T1 = length T2) as HlT by (unfold T1, T2; rewrite !length_take; lia).
      case_bool_decide as ET; simpl negb; cbv iota.
      * rewrite ET. destruct (Z.ltb_spec 0 r) as [Hr|Hr].
        -- rewrite bool_decide_eq_true_2 by lia. simpl andb. cbv iota. f_equal.
           rewrite v6_mask_small by lia. rewrite land_v4_mask_eqb; [|lia|by apply nth_is_byte|by apply nth_is_byte].
           apply bool_decide_ext. split; lia.
        -- simpl andb. cbv iota. f_equal. symmetry. apply bool_decide_eq_true_2.
           assert (r = 0) as Hr0 by lia. rewrite Hr0 in *. lia.
      * f_equal. symmetry. apply bool_decide_eq_false_2. intros He. apply ET.
        apply from_be_bytes_inj; [done..|]. pose proof (Z.pow_pos_nonneg 2 r). nia.
    + rewrite decide_True by lia. done.
Qed.

Lemma subnet_match_correct_witness :
  matches_v4 (Ipv4Subnet [10; 0; 0; 0] 8) [10; 255; 3; 4] = true ∧
  matches_v4 (Ipv4Subnet [10; 0; 0; 0] 8) [11; 0; 0; 0] = false.
Proof.
  destruct (subnet_match_correct 8 ltac:(lia)) as [H4 _].
  assert (∀ a b c d, is_byte a → is_byte b → is_byte c → is_byte d → is_ipv4 [a; b; c; d]) as Hip
    by (intros; split; [repeat (apply Forall_cons; split; [done|]); by apply Forall_nil|done]).
  split; (rewrite H4; [reflexivity|apply Hip; by split..]).
Defined.

(** A subnet of length 0, which every address is in, does not match another address: the
    shift by 32 of [1u32] is a shift by 0. *)
Lemma subnet_zero_matches_base_only :
  matches_v4 (Ipv4Subnet [0; 0; 0; 0] 0) [10; 0; 0; 1] = false ∧ v4_mask 0 = 0xFFFFFFFF.
Proof. by vm_compute. Qed.

(** ** Conditions that are never tested *)

(** A rule without its TCP flags, ICMP type, connection state, rate limit, jump target. *)
Definition stripped (r : Rule) : Rule :=
  mkRule (rule_id r) (priority r) (rule_enabled r) (rule_protocol r) (src_addr r) (dst_addr r)
    (rule_src_port r) (rule_dst_port r) None None None None (action r) None None (rule_comment r)
    (rule_packets r) (rule_bytes r).

(** No answer and no statistic depends on them. *)
Lemma conditions_ignored proto s d sport dport rs : ∀ st,
  check_rules proto s d sport dport (stripped <$> rs) st = check_rules proto s d sport dport rs st.
Proof.
  induction rs as [|r rs IH]; intros st; [done|]. rewrite fmap_cons. cbn [check_rules].
  change (rule_matches proto s d sport dport (stripped r)) with (rule_matches proto s d sport dport r).
  change (action (stripped r)) with (action r).
  destruct (rule_matches _ _ _ _ _ _); [|apply IH]. by destruct (action r); rewrite ?IH.
Qed.

(** The rules of a custom chain, or of a jump target, are never looked at. *)
Lemma custom_chain_ignored name proto s d sport dport len w c : enabled w = true →
  builtin name w = None → chains w !! name = Some c →
  (process_ipv4 name proto s d sport dport len w).2 = Return.
Proof.
  intros He Hb Hc. unfold process_ipv4. rewrite He. cbn [negb].
  assert (∀ f g, builtin name (set_conntrack f (set_stats g w)) = None) as ->
    by (intros; unfold builtin in *; by repeat case_decide).
  cbn [snd chains set_conntrack set_stats]. by rewrite Hc.
Qed.

(** ** Connection tracking *)

Inductive fw_call :=
| Process (name : string) (proto : Z) (s d : Ipv4Address) (sport dport len : Z)
| Gc (now : Z)
| AddInput (r : Rule) | AddOutput (r : Rule) | AddForward (r : Rule)
| SetPolicy (name : string) (p : Action) | Flush (name : string)
| CreateChain (name : string) | DeleteChain (name : string)
| Enable | Disable | ResetStats.

Definition fw_step (c : fw_call) (w : Firewall) : Firewall :=
  match c with
  | Process name proto s d sport dport len => (process_ipv4 name proto s d sport dport len w).1
  | Gc now => gc now w
  | AddInput r => add_input_rule r w
  | AddOutput r => add_output_rule r w
  | AddForward r => add_forward_rule r w
  | SetPolicy name p => set_policy name p w
  | Flush name => flush name w
  | CreateChain name => (create_chain name w).1
  | DeleteChain name => (delete_chain name w).1
  | Enable => enable w
  | Disable => disable w
  | ResetStats => reset_stats w
  end.

(** The table is bounded, and no entry has ever been seen after time 0. *)
Definition track_inv (t : ConnTrack) : Prop :=
  (size (conns t) ≤ max_entries t)%nat ∧
  map_Forall (λ _ e, ct_last_seen e = 0 ∧ (ct_state e = New ∧ ct_timeout_ms e = 30000 ∨
                                           ct_state e = Established ∧ ct_timeout_ms e = 300000)) (conns t).

Lemma update_v4_inv proto s d sport dport len t : track_inv t →
  track_inv (update_v4 proto s d sport dport 0 len t) ∧
  max_entries (update_v4 proto s d sport dport 0 len t) = max_entries t.
Proof.
  intros [Hs Hf]. unfold update_v4. set (key := make_key_v4 _ _ _ _ _).
  destruct (conns t !! key) as [e|] eqn:Ek.
  - split; [|done]. split; cbn [conns max_entries].
    + rewrite map_size_insert_Some; eauto.
    + apply map_Forall_insert_2; [|done]. split; [done|]. right. unfold conn_update. cbn.
      destruct (Hf _ _ Ek) as [_ [[H1 H2]|[H1 H2]]]; rewrite H1; done.
  - case_decide; [|done]. split; [|done]. split; cbn [conns max_entries].
    + rewrite map_size_insert_None by done. lia.
    + apply map_Forall_insert_2; [|done]. split; [done|]. by left.
Qed.

Lemma conntrack_step c w : track_inv (conntrack w) →
  track_inv (conntrack (fw_step c w)) ∧ max_entries (conntrack (fw_step c w)) = max_entries (conntrack w).
Proof.
  intros Hi. assert (∀ n f, conntrack (set_builtin n f w) = conntrack w) as Hsb
    by (intros; unfold set_builtin; by repeat case_decide).
  destruct c as [name proto s d sport dport len|now|r|r|r|name p|name|name|name| | |]; cbn [fw_step]; try done.
  - unfold process_ipv4. destruct (negb (enabled w)); [done|].
    destruct (update_v4_inv proto s d sport dport len _ Hi) as [H1 H2].
    destruct (builtin _ _); [|done]. destruct (check_rules _ _ _ _ _ _ _). done.
  - destruct Hi as [Hs Hf]. split; [|done]. unfold gc, conn_gc, track_inv. cbn [conntrack set_conntrack conns max_entries].
    split; [etrans; [apply map_subseteq_size, map_filter_subseteq|exact Hs]|].
    intros k e [Hk _]%map_lookup_filter_Some. by apply (Hf k e).
  - unfold set_policy. by rewrite Hsb.
  - unfold flush. destruct (builtin _ _); [by rewrite Hsb|done].
  - unfold create_chain. by destruct (chains w !! name).
Qed.

(** The connection table over any history of packets and operations: it never exceeds
    its 65536 entries, a connection is [New] with a timeout of 30 seconds or, once a
    second packet gave its key, [Established] with one of 5 minutes, and, since every
    packet is recorded at time 0, a collection at any time after 5 minutes empties the
    table, however recent its connections. *)
Theorem conntrack_history cs now : let t := conntrack (run_ops fw_step cs fw_new) in
  Z.of_nat (conn_count t) ≤ 65536 ∧
  (∀ k e, conns t !! k = Some e →
     ct_state e = New ∧ ct_timeout_ms e = 30000 ∨ ct_state e = Established ∧ ct_timeout_ms e = 300000) ∧
  (300000 < now < 2 ^ 64 → conns (conn_gc now t) = ∅).
Proof.
  intros t. assert (∀ w, track_inv (conntrack w) → track_inv (conntrack (run_ops fw_step cs w)) ∧
    max_entries (conntrack (run_ops fw_step cs w)) = max_entries (conntrack w)) as Hrun.
  { clear t. induction cs as [|c cs IH]; intros w Hi; [done|].
    destruct (conntrack_step c w Hi) as [H1 H2]. destruct (IH _ H1) as [H3 H4]. split; [exact H3|].
    etrans; [exact H4|exact H2]. }
  destruct (Hrun fw_new) as [[Hs Hf] Hm].
  { split; cbn [conntrack fw_new conns max_entries]; [rewrite map_size_empty; lia|apply map_Forall_empty]. }
  fold t in Hs, Hf, Hm. split_and!.
  - unfold conn_count. rewrite Hm in Hs. cbn [conntrack fw_new max_entries] in Hs. lia.
  - intros k e Hk. apply (Hf k e Hk).
  - intros Hnow. cbn [conn_gc conns]. apply map_empty. intros k. apply map_lookup_filter_None. right. intros e Hk.
    destruct (Hf k e Hk) as [H0 Ht]. cbn [snd]. unfold is_expired. rewrite H0, u64_sub_small by lia.
    rewrite Z.sub_0_r. destruct Ht as [[_ ->]|[_ ->]]; rewrite (proj2 (Z.ltb_lt _ _)); (done || lia).
Qed.

(** Two unrelated connections with one key: the second packet's connection is reported
    established as soon as it starts. *)
Lemma conntrack_key_collision : ∃ s1 d1 s2 d2,
  make_key_v4 6 s1 d1 40000 22 = make_key_v4 6 s2 d2 40000 22 ∧ s1 ≠ s2 ∧
  ct_state <$> conns (update_v4 6 s2 d2 40000 22 0 60 (update_v4 6 s1 d1 40000 22 0 60 (mkTrack ∅ 9)))
    !! make_key_v4 6 s2 d2 40000 22 = Some Established.
Proof. exists [10; 0; 0; 0], [0; 0; 0; 0], [10; 0; 1; 0], [0; 0; 0; 1]. split; [by vm_compute|]. split; [done|]. by vm_compute. Qed.

(** The reply of a connection has another key: it is a connection of its own. *)
Lemma reply_is_another_connection :
  make_key_v4 6 [10; 0; 0; 1] [10; 0; 0; 2] 40000 22 ≠ make_key_v4 6 [10; 0; 0; 2] [10; 0; 0; 1] 22 40000.
Proof. by vm_compute. Qed.
