(* ===== verification/Udp.v ===== *)
(** * Udp: datagrams, sockets and multicast ([kernel/src/net/udp.rs])

    Parsing and building of datagrams with their checksum over the pseudo-header, the
    table of bound sockets with their bounded receive queues, and the multicast
    memberships. The mutexes are taken and released within each operation. *)

From Stdlib Require Import ZArith Lia.
From stdpp Require Import list gmap.
From S2P Require Import Prelude.
From S2P Require Import Ids.
From S2P Require Import Bytes.
From S2P Require Import Packets.

(** The errors of [device.rs] the transport layers return. *)
Inductive NetworkError :=
  | AddressInUse | InvalidSocket | NotConnected | ConnectionClosed | NoInterface | NoRoute | ArpTimeout | TxFailed.

(** ** Datagrams *)

Record UdpHeader := mkUdpHeader { udp_src_port : Z; udp_dest_port : Z; udp_length : Z; udp_checksum_field : Z }.

Definition UDP_HEADER_SIZE : nat := 8.

Definition udp_header_parse (data : list Z) : option UdpHeader :=
  if decide (length data < UDP_HEADER_SIZE)%nat then None
  else Some (mkUdpHeader (u16_at data 0) (u16_at data 2) (u16_at data 4) (u16_at data 6)).

Definition udp_header_to_bytes (h : UdpHeader) : list Z :=
  to_be_bytes 2 (udp_src_port h) ++ to_be_bytes 2 (udp_dest_port h) ++ to_be_bytes 2 (udp_length h)
  ++ to_be_bytes 2 (udp_checksum_field h).

Definition udp_header_new (src_port dest_port : Z) (data_len : nat) : UdpHeader :=
  mkUdpHeader src_port dest_port (wrap 16 (Z.of_nat (UDP_HEADER_SIZE + data_len))) 0.

Record UdpDatagram := mkDatagram { udp_header : UdpHeader; udp_data : list Z }.

(** [data[8..length]] panics when the length field is below 8. *)
Definition udp_parse (data : list Z) : Parsed UdpDatagram :=
  match udp_header_parse data with
  | None => NotParsed
  | Some header =>
      let payload_end := Z.to_nat (udp_length header) in
      if decide (length data < payload_end)%nat then NotParsed
      else if decide (payload_end < UDP_HEADER_SIZE)%nat then ParsePanics
      else ParsedAs (mkDatagram header (sub data UDP_HEADER_SIZE (payload_end - UDP_HEADER_SIZE)))
  end.

Definition pseudo_header (src dest : Ipv4Address) (protocol : Z) (data : list Z) : list Z :=
  src ++ dest ++ [0] ++ [protocol] ++ to_be_bytes 2 (wrap 16 (Z.of_nat (length data))).

Definition udp_checksum (src dest : Ipv4Address) (data : list Z) : Z :=
  checksum_bytes (pseudo_header src dest PROTOCOL_UDP data ++ data).

Definition with_udp_checksum (c : Z) (h : UdpHeader) : UdpHeader :=
  mkUdpHeader (udp_src_port h) (udp_dest_port h) (udp_length h) c.

Definition udp_to_bytes (src dest : Ipv4Address) (d : UdpDatagram) : list Z :=
  let bytes := udp_header_to_bytes (with_udp_checksum 0 (udp_header d)) ++ udp_data d in
  udp_header_to_bytes (with_udp_checksum (udp_checksum src dest bytes) (udp_header d)) ++ udp_data d.

Definition udp_new (src_port dest_port : Z) (data : list Z) : UdpDatagram :=
  mkDatagram (udp_header_new src_port dest_port (length data)) data.

(** ** Sockets *)

Record UdpEndpoint := mkUdpEndpoint { udp_addr : Ipv4Address; udp_port : Z }.
Record UdpMessage := mkUdpMessage { msg_remote : UdpEndpoint; msg_data : list Z }.
Record UdpSocket := mkUdpSocket { udp_local : UdpEndpoint; udp_recv_buffer : list UdpMessage; max_buffer : nat }.

Definition DEFAULT_BUFFER_SIZE : nat := 64.
Definition udp_socket_new (local : UdpEndpoint) : UdpSocket := mkUdpSocket local [] DEFAULT_BUFFER_SIZE.

Definition queue_message (remote : UdpEndpoint) (data : list Z) (s : UdpSocket) : UdpSocket :=
  if decide (length (udp_recv_buffer s) < max_buffer s)%nat
  then mkUdpSocket (udp_local s) (udp_recv_buffer s ++ [mkUdpMessage remote data]) (max_buffer s)
  else s.

Definition udp_recv (s : UdpSocket) : UdpSocket * option UdpMessage :=
  match udp_recv_buffer s with
  | [] => (s, None)
  | m :: ms => (mkUdpSocket (udp_local s) ms (max_buffer s), Some m)
  end.

Definition send_to (s : UdpSocket) (remote : UdpEndpoint) (data : list Z) : UdpDatagram :=
  udp_new (udp_port (udp_local s)) (udp_port remote) data.

Record UdpState := mkUdpState { udp_sockets : gmap Z UdpSocket; udp_next_ephemeral : Z }.

Definition EPHEMERAL_START : Z := 49152.
Definition EPHEMERAL_END : Z := 65535.

Definition udp_state_new : UdpState := mkUdpState ∅ EPHEMERAL_START.

(** Shared with [TcpState::allocate_port]: the next port and the port after it. *)
Definition next_port (p : Z) : Z := if EPHEMERAL_END <=? p then EPHEMERAL_START else p + 1.

Definition udp_allocate_port (s : UdpState) : UdpState * Z :=
  (mkUdpState (udp_sockets s) (next_port (udp_next_ephemeral s)), udp_next_ephemeral s).

Definition udp_bind (port : Z) (local_addr : Ipv4Address) (s : UdpState) : UdpState * (NetworkError + ()) :=
  match udp_sockets s !! port with
  | Some _ => (s, inl AddressInUse)
  | None => (mkUdpState (<[port := udp_socket_new (mkUdpEndpoint local_addr port)]> (udp_sockets s)) (udp_next_ephemeral s), inr ())
  end.

Definition udp_unbind (port : Z) (s : UdpState) : UdpState :=
  mkUdpState (delete port (udp_sockets s)) (udp_next_ephemeral s).

Definition udp_deliver (remote : UdpEndpoint) (local_port : Z) (data : list Z) (s : UdpState) : UdpState :=
  mkUdpState (alter (queue_message remote data) local_port (udp_sockets s)) (udp_next_ephemeral s).

(** [None] is a panic of the kernel. *)
Definition udp_handle_packet (p : Ipv4Packet) (s : UdpState) : option UdpState :=
  match udp_parse (ip_payload p) with
  | NotParsed => Some s
  | ParsePanics => None
  | ParsedAs d =>
      Some (udp_deliver (mkUdpEndpoint (ip_src p) (udp_src_port (udp_header d))) (udp_dest_port (udp_header d)) (udp_data d) s)
  end.

(** ** Multicast *)

Definition MulticastGroup_new (addr : Ipv4Address) : option Ipv4Address := if is_multicast addr then Some addr else None.

Definition mac_address (g : Ipv4Address) : MacAddress :=
  [0x01; 0x00; 0x5E; Z.land (nth 1 g 0) 0x7F; nth 2 g 0; nth 3 g 0].

Definition MEMBERSHIP_REPORT_V2 : Z := 0x16.
Definition LEAVE_GROUP : Z := 0x17.

Record IgmpMessage := mkIgmp { igmp_type : Z; max_resp_time : Z; igmp_checksum : Z; group_addr : Ipv4Address }.

Definition igmp_parse (data : list Z) : option IgmpMessage :=
  if decide (length data < 8)%nat then None
  else Some (mkIgmp (u8_at data 0) (u8_at data 1) (u16_at data 2) (sub data 4 4)).

Definition igmp_to_bytes (m : IgmpMessage) : list Z :=
  [igmp_type m] ++ [max_resp_time m] ++ to_be_bytes 2 (igmp_checksum m) ++ group_addr m.

(** [!sum as u16], on the 32-bit sum. *)
Definition igmp_compute_checksum (m : IgmpMessage) : Z :=
  let a := group_addr m in
  let sum := u32 (Z.lor (Z.shiftl (igmp_type m) 8) (max_resp_time m)
                  + Z.lor (Z.shiftl (nth 0 a 0) 8) (nth 1 a 0) + Z.lor (Z.shiftl (nth 2 a 0) 8) (nth 3 a 0)) in
  wrap 16 (word_not 32 (fold_sum 3 sum)).

Definition igmp_new (type : Z) (group : Ipv4Address) : IgmpMessage :=
  let m := mkIgmp type 0 0 group in mkIgmp type 0 (igmp_compute_checksum m) group.
Definition membership_report (group : Ipv4Address) : IgmpMessage := igmp_new MEMBERSHIP_REPORT_V2 group.
Definition igmp_leave_group (group : Ipv4Address) : IgmpMessage := igmp_new LEAVE_GROUP group.

Inductive SourceFilterMode := Include | Exclude.

Record MulticastMembership := mkMembership {
  mb_group : Ipv4Address; mb_interface : Z; mb_local_addr : Ipv4Address; filter_mode : SourceFilterMode;
  mb_sources : list Ipv4Address; last_report : Z
}.

Record MulticastSocket := mkMulticastSocket {
  ms_socket : UdpSocket; memberships : list MulticastMembership; loopback : bool; multicast_ttl : Z;
  multicast_interface : option Ipv4Address
}.

Definition multicast_socket_new (local : UdpEndpoint) : MulticastSocket :=
  mkMulticastSocket (udp_socket_new local) [] true 1 None.

Definition with_memberships (ms : list MulticastMembership) (s : MulticastSocket) : MulticastSocket :=
  mkMulticastSocket (ms_socket s) ms (loopback s) (multicast_ttl s) (multicast_interface s).

Definition is_membership (group interface : Ipv4Address) (m : MulticastMembership) : Prop :=
  mb_group m = group ∧ mb_local_addr m = interface.
#[export] Instance is_membership_dec group interface m : Decision (is_membership group interface m).
Proof. unfold is_membership. apply _. Defined.

Definition join_group (group interface : Ipv4Address) (s : MulticastSocket) : MulticastSocket * (NetworkError + ()) :=
  if decide (Exists (is_membership group interface) (memberships s)) then (s, inl AddressInUse)
  else (with_memberships (memberships s ++ [mkMembership group 0 interface Exclude [] 0]) s, inr ()).

Definition leave_group (group interface : Ipv4Address) (s : MulticastSocket) : MulticastSocket * (NetworkError + ()) :=
  match list_find (is_membership group interface) (memberships s) with
  | None => (s, inl NotConnected)
  | Some (i, _) => (with_memberships (delete i (memberships s)) s, inr ())
  end.

Definition set_source_filter (group : Ipv4Address) (mode : SourceFilterMode) (sources : list Ipv4Address)
    (s : MulticastSocket) : MulticastSocket * (NetworkError + ()) :=
  match list_find (λ m, mb_group m = group) (memberships s) with
  | None => (s, inl NotConnected)
  | Some (i, m) =>
      (with_memberships (<[i := mkMembership (mb_group m) (mb_interface m) (mb_local_addr m) mode sources (last_report m)]>
         (memberships s)) s, inr ())
  end.

(** The first membership of the group decides. *)
Definition should_receive (group source : Ipv4Address) (s : MulticastSocket) : bool :=
  match list_find (λ m, mb_group m = group) (memberships s) with
  | None => false
  | Some (_, m) =>
      match filter_mode m with
      | Include => bool_decide (mb_sources m = []) || bool_decide (source ∈ mb_sources m)
      | Exclude => negb (bool_decide (source ∈ mb_sources m))
      end
  end.

Definition set_multicast_ttl (ttl : Z) (s : MulticastSocket) : MulticastSocket :=
  mkMulticastSocket (ms_socket s) (memberships s) (loopback s) ttl (multicast_interface s).
Definition set_loopback (enabled : bool) (s : MulticastSocket) : MulticastSocket :=
  mkMulticastSocket (ms_socket s) (memberships s) enabled (multicast_ttl s) (multicast_interface s).
Definition set_multicast_interface (addr : Ipv4Address) (s : MulticastSocket) : MulticastSocket :=
  mkMulticastSocket (ms_socket s) (memberships s) (loopback s) (multicast_ttl s) (Some addr).

Definition send_multicast (data : list Z) (s : MulticastSocket) : UdpDatagram :=
  udp_new (udp_port (udp_local (ms_socket s))) 0 data.

Record MulticastState := mkMulticastState { mc_sockets : gmap Z MulticastSocket; mc_groups : gmap Ipv4Address (list Z) }.

Definition multicast_state_new : MulticastState := mkMulticastState ∅ ∅.

(** [entry(group).or_insert_with(Vec::new).push(port)]. *)
Definition push_group (port : Z) (gs : gmap Ipv4Address (list Z)) (m : MulticastMembership) : gmap Ipv4Address (list Z) :=
  <[mb_group m := default [] (gs !! mb_group m) ++ [port]]> gs.

Definition register (port : Z) (socket : MulticastSocket) (s : MulticastState) : MulticastState :=
  mkMulticastState (<[port := socket]> (mc_sockets s)) (foldl (push_group port) (mc_groups s) (memberships socket)).

Definition with_socket (u : UdpSocket) (s : MulticastSocket) : MulticastSocket :=
  mkMulticastSocket u (memberships s) (loopback s) (multicast_ttl s) (multicast_interface s).

Definition offer (group source : Ipv4Address) (data : list Z) (s : MulticastSocket) : MulticastSocket :=
  if should_receive group source s
  then with_socket (queue_message (mkUdpEndpoint source 0) data (ms_socket s)) s else s.

Definition multicast_deliver (group source : Ipv4Address) (data : list Z) (s : MulticastState) : MulticastState :=
  match mc_groups s !! group with
  | None => s
  | Some ports =>
      mkMulticastState (foldl (λ socks port, alter (offer group source data) port socks) (mc_sockets s) ports) (mc_groups s)
  end.

Definition handle_multicast_packet (src dest : Ipv4Address) (data : list Z) (s : MulticastState) : MulticastState :=
  match MulticastGroup_new dest with
  | Some group => multicast_deliver group src data s
  | None => s
  end.

(** ** Parsing what was built *)

Definition udp_header_ok (h : UdpHeader) : Prop :=
  is_word 16 (udp_src_port h) ∧ is_word 16 (udp_dest_port h) ∧ is_word 16 (udp_length h) ∧ is_word 16 (udp_checksum_field h).

Lemma length_udp_header h : length (udp_header_to_bytes h) = 8%nat.
Proof. unfold udp_header_to_bytes. by rewrite !length_app, !length_to_be_bytes. Qed.

Lemma udp_header_back h rest : udp_header_ok h → udp_header_parse (udp_header_to_bytes h ++ rest) = Some h.
Proof.
  intros (H1 & H2 & H3 & H4). unfold udp_header_parse, UDP_HEADER_SIZE.
  rewrite decide_False by (rewrite length_app, length_udp_header; lia). unfold udp_header_to_bytes.
  change (u16_at _ 0) with (from_be_bytes (to_be_bytes 2 (udp_src_port h))).
  change (u16_at _ 2) with (from_be_bytes (to_be_bytes 2 (udp_dest_port h))).
  change (u16_at _ 4) with (from_be_bytes (to_be_bytes 2 (udp_length h))).
  change (u16_at _ 6) with (from_be_bytes (to_be_bytes 2 (udp_checksum_field h))).
  rewrite !be16_back by done. by destruct h.
Qed.

Lemma udp_parse_back h data rest : udp_header_ok h → udp_length h = 8 + Z.of_nat (length data) →
  udp_parse (udp_header_to_bytes h ++ data ++ rest) = ParsedAs (mkDatagram h data).
Proof.
  intros Hok Hl. unfold udp_parse. rewrite udp_header_back by done. unfold UDP_HEADER_SIZE.
  assert (Z.to_nat (udp_length h) = 8 + length data)%nat as -> by lia.
  rewrite decide_False by (rewrite !length_app, length_udp_header; lia). rewrite decide_False by lia.
  do 2 f_equal. rewrite sub_skip by (rewrite length_udp_header; lia). rewrite length_udp_header.
  replace (8 - 8)%nat with 0%nat by lia. apply sub_here. lia.
Qed.

(** A datagram panics the parser exactly when its length field is below 8. *)
Lemma udp_parse_panics data : Forall is_byte data →
  udp_parse data = ParsePanics ↔ (8 ≤ length data)%nat ∧ u16_at data 4 < 8.
Proof.
  intros Hb. pose proof (u16_at_word data 4 Hb) as [H0 _]. unfold udp_parse, udp_header_parse, UDP_HEADER_SIZE.
  case_decide as Hl; [split; [done|lia]|]. cbn [udp_length]. case_decide as H1.
  - split; [done|]. lia.
  - case_decide as H2; split; try done; lia.
Qed.

(** ** The checksum over the pseudo-header *)

Lemma length_pseudo_header src dest protocol data : length src = 4%nat → length dest = 4%nat →
  length (pseudo_header src dest protocol data) = 12%nat.
Proof. intros H1 H2. unfold pseudo_header. rewrite !length_app, length_to_be_bytes, H1, H2. done. Qed.

Lemma pseudo_header_byte src dest protocol data : Forall is_byte src → Forall is_byte dest → is_byte protocol →
  Forall is_byte (pseudo_header src dest protocol data).
Proof.
  intros H1 H2 H3. unfold pseudo_header. rewrite !Forall_app, !Forall_singleton. split_and!; try done. apply to_be_bytes_byte.
Qed.

(** Writing the checksum of [pre ++ 0 0 ++ post] in the place of the zeros makes the sum
    of the words 0xFFFF. *)
Lemma checksum_in_place pre post : Nat.Even (length pre) → Forall is_byte pre → Forall is_byte post →
  Z.of_nat (length pre + 2 + length post) ≤ 131071 →
  let c := checksum_bytes (pre ++ to_be_bytes 2 0 ++ post) in
  is_word 16 c ∧ ones_sum (total (words_of (pre ++ to_be_bytes 2 c ++ post))) = 65535.
Proof.
  intros He Hb Hp Hl c.
  assert (Forall is_byte (pre ++ to_be_bytes 2 0 ++ post)) as Hbs by (rewrite !Forall_app; split_and!; [done|apply to_be_bytes_byte|done]).
  assert (Z.of_nat (length (pre ++ to_be_bytes 2 0 ++ post)) ≤ 131071) as Hls
    by (rewrite !length_app, length_to_be_bytes; lia).
  pose proof (checksum_bytes_spec _ Hbs Hls) as Hc. fold c in Hc.
  pose proof (total_range _ (words_of_word _ Hbs)) as [Ht _].
  pose proof (ones_sum_range _ Ht) as Hr. assert (is_word 16 c) as Hw by (rewrite Hc; split; lia).
  split; [done|]. rewrite total_words_patch by done. rewrite Hc.
  set (t := total _) in *. apply complement_sum. lia.
Qed.

Lemma udp_to_bytes_parts src dest d : let c := udp_checksum src dest (udp_header_to_bytes (with_udp_checksum 0 (udp_header d)) ++ udp_data d) in
  udp_to_bytes src dest d = udp_header_to_bytes (with_udp_checksum c (udp_header d)) ++ udp_data d.
Proof. done. Qed.

Lemma udp_header_byte h : Forall is_byte (udp_header_to_bytes h).
Proof. unfold udp_header_to_bytes. rewrite !Forall_app. split_and!; apply to_be_bytes_byte. Qed.

(** The checksum of a datagram makes it verify at the receiver. *)
Lemma udp_checksum_valid src dest d : is_ipv4 src → is_ipv4 dest → Forall is_byte (udp_data d) →
  Z.of_nat (length (udp_data d)) ≤ 65527 →
  let bytes := udp_to_bytes src dest d in
  is_word 16 (udp_checksum src dest (udp_header_to_bytes (with_udp_checksum 0 (udp_header d)) ++ udp_data d)) ∧
  ones_sum (total (words_of (pseudo_header src dest PROTOCOL_UDP bytes ++ bytes))) = 65535.
Proof.
  intros [Hs Hs4] [Hd Hd4] Hb Hl. cbv zeta. rewrite udp_to_bytes_parts. cbv zeta.
  set (h := udp_header d). set (data := udp_data d) in *.
  assert (∀ c, pseudo_header src dest PROTOCOL_UDP (udp_header_to_bytes (with_udp_checksum c h) ++ data) =
    pseudo_header src dest PROTOCOL_UDP (udp_header_to_bytes (with_udp_checksum 0 h) ++ data)) as Hps.
  { intros c. unfold pseudo_header. by rewrite !length_app, !length_udp_header. }
  rewrite Hps. set (ps := pseudo_header src dest PROTOCOL_UDP _) in *.
  set (pre := ps ++ to_be_bytes 2 (udp_src_port h) ++ to_be_bytes 2 (udp_dest_port h) ++ to_be_bytes 2 (udp_length h)).
  assert (∀ c, ps ++ udp_header_to_bytes (with_udp_checksum c h) ++ data = pre ++ to_be_bytes 2 c ++ data) as Hpre.
  { intros c. unfold pre, udp_header_to_bytes, with_udp_checksum. cbn [udp_src_port udp_dest_port udp_length udp_checksum_field].
    by rewrite <-!app_assoc. }
  assert (udp_checksum src dest (udp_header_to_bytes (with_udp_checksum 0 h) ++ data) = checksum_bytes (pre ++ to_be_bytes 2 0 ++ data)) as Hc.
  { unfold udp_checksum. fold ps. by rewrite Hpre. }
  rewrite Hpre, Hc.
  assert (length pre = 18%nat) as Hlp.
  { unfold pre, ps. rewrite !length_app, length_pseudo_header, !length_to_be_bytes by done. done. }
  apply checksum_in_place; [rewrite Hlp; by exists 9%nat| |done|rewrite Hlp; lia].
  unfold pre, ps. rewrite !Forall_app. split_and!; try apply to_be_bytes_byte. by apply pseudo_header_byte.
Qed.

(** ** Delivery *)

Lemma udp_to_bytes_shape src dest d : Forall is_byte (udp_data d) →
  Forall is_byte (udp_to_bytes src dest d) ∧ length (udp_to_bytes src dest d) = (8 + length (udp_data d))%nat.
Proof.
  intros Hb. rewrite udp_to_bytes_parts. split; [|by rewrite length_app, length_udp_header].
  rewrite Forall_app. split; [apply udp_header_byte|done].
Qed.

Lemma udp_roundtrip src dest sp dp data rest : is_ipv4 src → is_ipv4 dest → is_word 16 sp → is_word 16 dp →
  Forall is_byte data → Z.of_nat (length data) ≤ 65527 →
  ∃ c, udp_parse (udp_to_bytes src dest (udp_new sp dp data) ++ rest) =
    ParsedAs (mkDatagram (with_udp_checksum c (udp_header_new sp dp (length data))) data).
Proof.
  intros Hs Hd Hsp Hdp Hb Hl. rewrite udp_to_bytes_parts. cbv zeta. cbn [udp_new udp_header udp_data].
  destruct (udp_checksum_valid src dest (udp_new sp dp data)) as [Hw _]; [done..|].
  cbn [udp_new udp_header udp_data] in Hw. set (c := udp_checksum _ _ _) in *. exists c.
  assert (udp_length (udp_header_new sp dp (length data)) = 8 + Z.of_nat (length data)) as HL.
  { cbn. unfold UDP_HEADER_SIZE. rewrite wrap_small by (split; lia). lia. }
  rewrite <-app_assoc. apply udp_parse_back; [|exact HL].
  unfold udp_header_ok, with_udp_checksum. cbn [udp_src_port udp_dest_port udp_length udp_checksum_field].
  rewrite HL. split_and!; try done. split; lia.
Qed.

(** [C31] A datagram sent from one socket to another arrives: built by [send_to], put in
    bytes with its checksum, wrapped in an IPv4 packet and followed by whatever padding the
    link adds, it is parsed back and verifies, its datagram checksum verifies, and the
    handler appends the sender's endpoint and exactly the data to the queue of the bound
    socket (or drops it when 64 messages wait), leaving every other socket alone. *)
Theorem udp_delivery src dest sock remote_port data padding st rsock :
  is_ipv4 src → is_ipv4 dest → is_word 16 (udp_port (udp_local sock)) → is_word 16 remote_port →
  Forall is_byte data → Z.of_nat (length data) ≤ 65507 → udp_sockets st !! remote_port = Some rsock →
  let d := send_to sock (mkUdpEndpoint dest remote_port) data in
  let bytes := udp_to_bytes src dest d in
  let p := ip_new src dest PROTOCOL_UDP bytes in
  ip_parse (ip_to_bytes p ++ padding) = Some p ∧ ip_verify_checksum p = true ∧
  ones_sum (total (words_of (pseudo_header src dest PROTOCOL_UDP bytes ++ bytes))) = 65535 ∧
  udp_handle_packet p st = Some (mkUdpState
    (<[remote_port := if decide (length (udp_recv_buffer rsock) < max_buffer rsock)%nat
                      then mkUdpSocket (udp_local rsock)
                             (udp_recv_buffer rsock ++ [mkUdpMessage (mkUdpEndpoint src (udp_port (udp_local sock))) data])
                             (max_buffer rsock)
                      else rsock]> (udp_sockets st)) (udp_next_ephemeral st)).
Proof.
  intros Hs Hd Hsp Hdp Hb Hl Hr d bytes p.
  destruct (udp_to_bytes_shape src dest d Hb) as [Hbb Hbl].
  destruct (ip_new_ok src dest PROTOCOL_UDP bytes) as [Hok Hv]; [done|done|by split|done|unfold bytes; rewrite Hbl; cbn [udp_data send_to udp_new d] in *; lia|].
  split; [by apply ip_parse_written|]. split; [done|]. split.
  { apply udp_checksum_valid; [done..|]. cbn. lia. }
  unfold udp_handle_packet. change (ip_payload p) with bytes.
  destruct (udp_roundtrip src dest (udp_port (udp_local sock)) remote_port data []) as [c Hc]; [done..|lia|].
  rewrite app_nil_r in Hc. change (udp_to_bytes src dest _) with bytes in Hc. rewrite Hc.
  unfold udp_deliver. cbn [udp_header udp_data with_udp_checksum udp_header_new udp_src_port udp_dest_port].
  change (ip_src p) with src. do 2 f_equal. apply map_eq. intros i.
  destruct (decide (i = remote_port)) as [->|Hne].
  - rewrite lookup_alter_eq, lookup_insert_eq, Hr. done.
  - by rewrite lookup_alter_ne, lookup_insert_ne.
Qed.

(** A list of concrete bytes. *)
Ltac bytes_list := repeat (apply Forall_cons; split; [by split|]); by apply Forall_nil.

Lemma udp_delivery_witness :
  let st := (udp_bind 53 [10; 0; 2; 3] udp_state_new).1 in
  let sock := udp_socket_new (mkUdpEndpoint [10; 0; 2; 15] 50000) in
  let bytes := udp_to_bytes [10; 0; 2; 15] [10; 0; 2; 3] (send_to sock (mkUdpEndpoint [10; 0; 2; 3] 53) [7; 8; 9]) in
  ones_sum (total (words_of (pseudo_header [10; 0; 2; 15] [10; 0; 2; 3] PROTOCOL_UDP bytes ++ bytes))) = 65535.
Proof.
  intros st sock bytes.
  apply (udp_delivery [10; 0; 2; 15] [10; 0; 2; 3] sock 53 [7; 8; 9] [0; 0] st (udp_socket_new (mkUdpEndpoint [10; 0; 2; 3] 53)));
    [split; [bytes_list|done]|split; [bytes_list|done]|by split|by split|bytes_list|by vm_compute|by vm_compute].
Defined.

(** ** Queues and ports *)

Definition udp_socket_ok (s : UdpSocket) : Prop := (length (udp_recv_buffer s) ≤ max_buffer s)%nat.
Definition udp_ok (s : UdpState) : Prop :=
  map_Forall (λ port sock, udp_socket_ok sock ∧ udp_port (udp_local sock) = port) (udp_sockets s) ∧
  EPHEMERAL_START ≤ udp_next_ephemeral s ≤ EPHEMERAL_END.

Lemma next_port_range p : EPHEMERAL_START ≤ p ≤ EPHEMERAL_END → EPHEMERAL_START ≤ next_port p ≤ EPHEMERAL_END.
Proof. unfold next_port, EPHEMERAL_START, EPHEMERAL_END. intros H. destruct (Z.leb_spec 65535 p); lia. Qed.

Lemma queue_message_ok remote data s : udp_socket_ok s → udp_socket_ok (queue_message remote data s).
Proof.
  unfold udp_socket_ok, queue_message. intros H. case_decide as Hd; [|done]. cbn. rewrite length_app. simpl. lia.
Qed.

Lemma udp_ok_init : udp_ok udp_state_new.
Proof. split; [apply map_Forall_empty|]. by vm_compute. Qed.

(** Every operation keeps the queues within their bounds, the sockets under their own
    port and the ephemeral port in its range. *)
Lemma udp_ops_ok s : udp_ok s →
  udp_ok (udp_allocate_port s).1 ∧ (∀ port addr, udp_ok (udp_bind port addr s).1) ∧
  (∀ port, udp_ok (udp_unbind port s)) ∧ (∀ remote port data, udp_ok (udp_deliver remote port data s)) ∧
  (∀ p s', udp_handle_packet p s = Some s' → udp_ok s').
Proof.
  intros [Hs Hp].
  assert (∀ remote port data, udp_ok (udp_deliver remote port data s)) as Hd.
  { intros remote port data. split; [|done]. cbn. intros i sock. rewrite lookup_alter_Some.
    intros [(-> & sock' & Hl & ->)|[_ Hl]]; [|by apply Hs]. destruct (Hs _ _ Hl) as [H1 H2].
    split; [by apply queue_message_ok|]. unfold queue_message. by case_decide. }
  split; [split; [done|by apply next_port_range]|]. split.
  { intros port addr. unfold udp_bind. destruct (udp_sockets s !! port) eqn:E; [done|]. split; [|done]. cbn.
    apply map_Forall_insert_2; [|done]. split; [|done]. unfold udp_socket_ok. cbn. lia. }
  split; [|split; [done|]].
  - intros port. split; [|done]. by apply map_Forall_delete.
  - intros p s'. unfold udp_handle_packet. destruct (udp_parse _); intros [= <-]; [done|apply Hd].
Qed.

(** The [n]-th port handed out: 16384 distinct ports come before one is repeated. *)
Lemma ephemeral_cycle n : Nat.iter n next_port EPHEMERAL_START = EPHEMERAL_START + Z.of_nat n mod 16384.
Proof.
  induction n as [|n IH]; [done|]. rewrite Nat.iter_succ, IH. unfold next_port, EPHEMERAL_START, EPHEMERAL_END.
  pose proof (Z.mod_pos_bound (Z.of_nat n) 16384 ltac:(lia)) as Hb.
  rewrite Nat2Z.inj_succ. unfold Z.succ. rewrite <-Zplus_mod_idemp_l.
  destruct (Z.leb_spec 65535 (49152 + Z.of_nat n mod 16384)) as [H|H].
  - replace (Z.of_nat n mod 16384) with 16383 by lia. done.
  - rewrite (Z.mod_small (Z.of_nat n mod 16384 + 1)) by lia. lia.
Qed.

(** The allocation does not look at the sockets: it hands out a port that is bound, and
    binding it then fails. *)
Lemma allocate_bound_port addr :
  let s := (udp_bind EPHEMERAL_START addr udp_state_new).1 in
  (udp_allocate_port s).2 = EPHEMERAL_START ∧
  (udp_bind (udp_allocate_port s).2 addr (udp_allocate_port s).1).2 = inl AddressInUse.
Proof. split; reflexivity. Qed.

(** A queue hands its messages out in the order of their arrival. *)
Lemma udp_fifo s ms rest : udp_recv_buffer s = ms ++ rest →
  Nat.iter (length ms) (λ st, (st.1 ++ option_list (udp_recv st.2).2, (udp_recv st.2).1)) ([], s) =
  (ms, mkUdpSocket (udp_local s) rest (max_buffer s)).
Proof.
  revert rest. induction ms as [|m ms IH] using rev_ind; intros rest Hb.
  - cbn. f_equal. destruct s. cbn in *. by subst.
  - rewrite length_app, Nat.add_1_r, Nat.iter_succ. rewrite (IH (m :: rest)) by (by rewrite Hb, <-app_assoc). done.
Qed.

(** ** Multicast *)

(** How often a port is listed for a group. *)
Definition copies (port : Z) (group : Ipv4Address) (s : MulticastState) : nat :=
  length (filter (λ q, q = port) (default [] (mc_groups s !! group))).

Lemma deliver_ports group source data port ports (socks : gmap Z MulticastSocket) :
  foldl (λ socks q, alter (offer group source data) q socks) socks ports !! port =
  Nat.iter (length (filter (λ q, q = port) ports)) (offer group source data) <$> socks !! port.
Proof.
  revert socks. induction ports as [|q ports IH]; intros socks.
  - cbn. by destruct (socks !! port).
  - cbn [foldl]. rewrite IH. destruct (decide (q = port)) as [->|Hne].
    + rewrite filter_cons_True by done. cbn [length]. rewrite lookup_alter_eq.
      destruct (socks !! port); [|done]. cbn [fmap option_fmap option_map]. f_equal. by rewrite Nat.iter_succ_r.
    + rewrite filter_cons_False by done. by rewrite lookup_alter_ne.
Qed.

Lemma push_groups (port : Z) (gs : gmap Ipv4Address (list Z)) (ms : list MulticastMembership) (group : Ipv4Address) (q : Z) :
  length (filter (λ r, r = q) (default [] (foldl (push_group port) gs ms !! group))) =
  (length (filter (λ r, r = q) (default [] (gs !! group))) +
   (if decide (q = port) then length (filter (λ m, mb_group m = group) ms) else 0))%nat.
Proof.
  revert gs. induction ms as [|m ms IH]; intros gs.
  - cbn. case_decide; lia.
  - cbn [foldl]. rewrite IH. unfold push_group at 1. destruct (decide (mb_group m = group)) as [<-|Hne].
    + rewrite lookup_insert_eq. cbn [from_option id]. rewrite filter_app, length_app. rewrite (filter_cons_True _ m) by done.
      case_decide as Hq.
      * subst. rewrite filter_cons_True by done. simpl. lia.
      * rewrite (filter_cons_False _ port) by congruence. simpl. lia.
    + rewrite lookup_insert_ne by done. rewrite (filter_cons_False _ m) by done. done.
Qed.

(** A multicast datagram is offered to a registered socket once for every membership of the
    group among the sockets ever registered under its port; so a socket in the group on two
    interfaces gets two copies, and so does one registered again after an update. *)
Lemma multicast_fanout port socket s group source data :
  (∀ q, mc_sockets (multicast_deliver group source data s) !! q =
        Nat.iter (copies q group s) (offer group source data) <$> mc_sockets s !! q) ∧
  mc_sockets (register port socket s) = <[port := socket]> (mc_sockets s) ∧
  (∀ q, copies q group (register port socket s) =
        (copies q group s + if decide (q = port) then length (filter (λ m, mb_group m = group) (memberships socket)) else 0)%nat).
Proof.
  split; [|split; [done|intros q; unfold copies; cbn [register mc_groups]; apply push_groups]].
  intros q. unfold multicast_deliver, copies. destruct (mc_groups s !! group) as [ports|] eqn:E.
  - cbn [from_option id mc_sockets]. apply deliver_ports.
  - cbn. by destruct (mc_sockets s !! q).
Qed.

(** Registering the same socket again, as an update must, doubles what it receives. *)
Lemma registered_twice :
  let group := [224; 0; 0; 251] in
  let sock := (join_group group IPV4_ANY (multicast_socket_new (mkUdpEndpoint IPV4_ANY 5353))).1 in
  let s := multicast_deliver group [10; 0; 2; 2] [1] (register 5353 sock (register 5353 sock multicast_state_new)) in
  (λ s, length (udp_recv_buffer (ms_socket s))) <$> mc_sockets s !! 5353 = Some 2%nat.
Proof. by vm_compute. Qed.

(** Joining and leaving: a membership is there once, and leaving takes one out. *)
Lemma join_then_leave group interface s : ¬ Exists (is_membership group interface) (memberships s) →
  (join_group group interface s).2 = inr () ∧
  (join_group group interface (join_group group interface s).1).2 = inl AddressInUse ∧
  leave_group group interface (join_group group interface s).1 = (s, inr ()).
Proof.
  intros Hn. unfold join_group at 1 3 4. rewrite decide_False by done. cbn [fst snd]. split; [done|]. split.
  - unfold join_group. rewrite decide_True; [done|]. cbn [with_memberships memberships]. apply Exists_app. right.
    constructor. by split.
  - unfold leave_group. cbn [with_memberships memberships].
    assert (list_find (is_membership group interface) (memberships s ++ [mkMembership group 0 interface Exclude [] 0]) =
      Some (length (memberships s), mkMembership group 0 interface Exclude [] 0)) as ->.
    { apply list_find_Some. split; [by apply list_lookup_middle|]. split; [by split|].
      intros j y Hj Hlt Hy. apply Hn. apply Exists_exists. exists y. split; [|done].
      rewrite lookup_app_l in Hj by done. by eapply list_elem_of_lookup_2. }
    destruct s. unfold with_memberships. cbn. by rewrite delete_middle, app_nil_r.
Qed.

(** ** IGMP *)

Lemma igmp_roundtrip m : is_byte (igmp_type m) → is_byte (max_resp_time m) → is_word 16 (igmp_checksum m) →
  is_ipv4 (group_addr m) → igmp_parse (igmp_to_bytes m) = Some m.
Proof.
  intros H1 H2 H3 [_ H4]. unfold igmp_parse, igmp_to_bytes. destruct m as [t r c g]. cbn [igmp_type max_resp_time igmp_checksum group_addr] in *.
  rewrite decide_False by (rewrite !length_app, length_to_be_bytes, H4; simpl; lia).
  destruct (list4 _ H4) as (b1 & b2 & b3 & b4 & ->).
  change (u16_at _ 2) with (from_be_bytes (to_be_bytes 2 c)). by rewrite be16_back.
Qed.
