(* ===== verification/Tcp.v ===== *)
(** * Tcp: segments, connections and the connection tables ([kernel/src/net/tcp.rs])

    Headers and segments as bytes, the connection state machine, listeners, the global
    tables and the handler of incoming packets. The handler discards the segments it is
    meant to answer with, as the code does. Sequence numbers are 32 bits and wrap. *)

From Stdlib Require Import ZArith Lia.
From stdpp Require Import list gmap.
From S2P Require Import Prelude.
From S2P Require Import Ids.
From S2P Require Import Bytes.
From S2P Require Import Packets.
From S2P Require Import Udp.

(** ** Headers and segments *)

Definition FIN : Z := 0x01.
Definition SYN : Z := 0x02.
Definition RST : Z := 0x04.
Definition PSH : Z := 0x08.
Definition ACK : Z := 0x10.
Definition URG : Z := 0x20.

Inductive TcpConnectionState :=
  | Closed | Listen | SynSent | SynReceived | Established | FinWait1 | FinWait2 | CloseWait | Closing | LastAck | TimeWait.
#[export] Instance TcpConnectionState_eq_dec : EqDecision TcpConnectionState.
Proof. solve_decision. Defined.

Record TcpEndpoint := mkTcpEndpoint { ep_addr : Ipv4Address; ep_port : Z }.
#[export] Instance TcpEndpoint_eq_dec : EqDecision TcpEndpoint.
Proof. solve_decision. Defined.
#[export] Instance TcpEndpoint_countable : Countable TcpEndpoint :=
  inj_countable' (λ e, (ep_addr e, ep_port e)) (λ p, mkTcpEndpoint p.1 p.2) (λ e, match e with mkTcpEndpoint _ _ => eq_refl end).

Record TcpConnectionKey := mkTcpKey { key_local : TcpEndpoint; key_remote : TcpEndpoint }.
#[export] Instance TcpConnectionKey_eq_dec : EqDecision TcpConnectionKey.
Proof. solve_decision. Defined.
#[export] Instance TcpConnectionKey_countable : Countable TcpConnectionKey :=
  inj_countable' (λ k, (key_local k, key_remote k)) (λ p, mkTcpKey p.1 p.2) (λ k, match k with mkTcpKey _ _ => eq_refl end).

Record TcpHeader := mkTcpHeader {
  tcp_src_port : Z; tcp_dest_port : Z; seq_num : Z; ack_num : Z; data_offset : Z; tcp_flags : Z; window : Z;
  tcp_checksum_field : Z; urgent_ptr : Z; tcp_options : list Z
}.

Definition TCP_MIN_SIZE : nat := 20.

(** The options are [data[20..data_offset]], which panics beyond the data. *)
Definition tcp_header_parse (data : list Z) : Parsed TcpHeader :=
  if decide (length data < TCP_MIN_SIZE)%nat then NotParsed
  else
    let offset := Z.shiftr (u8_at data 12) 4 * 4 in
    let header options := ParsedAs (mkTcpHeader (u16_at data 0) (u16_at data 2) (u32_at data 4) (u32_at data 8) offset
      (u8_at data 13) (u16_at data 14) (u16_at data 16) (u16_at data 18) options) in
    if decide (TCP_MIN_SIZE < Z.to_nat offset)%nat then
      if decide (length data < Z.to_nat offset)%nat then ParsePanics
      else header (sub data TCP_MIN_SIZE (Z.to_nat offset - TCP_MIN_SIZE))
    else header [].

(** [while bytes.len() % 4 != 0 { bytes.push(0) }]. *)
Definition pad4 (bytes : list Z) : list Z := bytes ++ replicate ((4 - length bytes mod 4) mod 4) 0.

Definition tcp_header_to_bytes (h : TcpHeader) : list Z :=
  let offset := u8 (Z.of_nat ((TCP_MIN_SIZE + length (tcp_options h) + 3) / 4)) in
  pad4 (to_be_bytes 2 (tcp_src_port h) ++ to_be_bytes 2 (tcp_dest_port h) ++ to_be_bytes 4 (seq_num h)
        ++ to_be_bytes 4 (ack_num h) ++ [u8 (Z.shiftl offset 4)] ++ [tcp_flags h] ++ to_be_bytes 2 (window h)
        ++ to_be_bytes 2 (tcp_checksum_field h) ++ to_be_bytes 2 (urgent_ptr h) ++ tcp_options h).

Definition tcp_header_new (src_port dest_port seq ack flags : Z) : TcpHeader :=
  mkTcpHeader src_port dest_port seq ack 20 flags 65535 0 0 [].

Record TcpSegment := mkTcpSegment { tcp_header : TcpHeader; tcp_data : list Z }.

Definition tcp_parse (data : list Z) : Parsed TcpSegment :=
  match tcp_header_parse data with
  | NotParsed => NotParsed
  | ParsePanics => ParsePanics
  | ParsedAs header =>
      let payload_start := Z.to_nat (data_offset header) in
      if decide (length data < payload_start)%nat then NotParsed
      else ParsedAs (mkTcpSegment header (drop payload_start data))
  end.

Definition tcp_checksum (src dest : Ipv4Address) (data : list Z) : Z :=
  checksum_bytes (pseudo_header src dest PROTOCOL_TCP data ++ data).

Definition with_tcp_checksum (c : Z) (h : TcpHeader) : TcpHeader :=
  mkTcpHeader (tcp_src_port h) (tcp_dest_port h) (seq_num h) (ack_num h) (data_offset h) (tcp_flags h) (window h)
    c (urgent_ptr h) (tcp_options h).

Definition tcp_to_bytes (src dest : Ipv4Address) (s : TcpSegment) : list Z :=
  let bytes := tcp_header_to_bytes (with_tcp_checksum 0 (tcp_header s)) ++ tcp_data s in
  tcp_header_to_bytes (with_tcp_checksum (tcp_checksum src dest bytes) (tcp_header s)) ++ tcp_data s.

Definition tcp_segment_new (src_port dest_port seq ack flags : Z) (data : list Z) : TcpSegment :=
  mkTcpSegment (tcp_header_new src_port dest_port seq ack flags) data.

(** ** Connections *)

Record TcpConnection := mkConnection {
  key : TcpConnectionKey; state : TcpConnectionState; send_next : Z; send_unack : Z; send_window : Z;
  recv_next : Z; recv_window : Z; recv_buffer : list Z; send_buffer : list Z; initial_seq : Z
}.

Definition connection_new (k : TcpConnectionKey) : TcpConnection :=
  mkConnection k Closed 1000 1000 65535 0 65535 [] [] 1000.

(** Assignments to single fields. *)
Definition set_state (st : TcpConnectionState) (c : TcpConnection) : TcpConnection :=
  mkConnection (key c) st (send_next c) (send_unack c) (send_window c) (recv_next c) (recv_window c) (recv_buffer c)
    (send_buffer c) (initial_seq c).
Definition set_send_next (n : Z) (c : TcpConnection) : TcpConnection :=
  mkConnection (key c) (state c) n (send_unack c) (send_window c) (recv_next c) (recv_window c) (recv_buffer c)
    (send_buffer c) (initial_seq c).
Definition set_send_unack (n : Z) (c : TcpConnection) : TcpConnection :=
  mkConnection (key c) (state c) (send_next c) n (send_window c) (recv_next c) (recv_window c) (recv_buffer c)
    (send_buffer c) (initial_seq c).
Definition set_recv_next (n : Z) (c : TcpConnection) : TcpConnection :=
  mkConnection (key c) (state c) (send_next c) (send_unack c) (send_window c) n (recv_window c) (recv_buffer c)
    (send_buffer c) (initial_seq c).
Definition set_recv_buffer (b : list Z) (c : TcpConnection) : TcpConnection :=
  mkConnection (key c) (state c) (send_next c) (send_unack c) (send_window c) (recv_next c) (recv_window c) b
    (send_buffer c) (initial_seq c).
Definition set_send_buffer (b : list Z) (c : TcpConnection) : TcpConnection :=
  mkConnection (key c) (state c) (send_next c) (send_unack c) (send_window c) (recv_next c) (recv_window c) (recv_buffer c)
    b (initial_seq c).

(** The segment every branch builds: from this end to the other, with the connection's
    send position. *)
Definition segment_of (c : TcpConnection) (ack flags : Z) (data : list Z) : TcpSegment :=
  tcp_segment_new (ep_port (key_local (key c))) (ep_port (key_remote (key c))) (send_next c) ack flags data.

Definition connect (c : TcpConnection) : TcpConnection * TcpSegment :=
  let c := set_state SynSent c in (c, segment_of c 0 SYN []).

Definition listen (c : TcpConnection) : TcpConnection := set_state Listen c.

Definition has_flag (f : Z) (s : TcpSegment) : bool := negb (Z.land (tcp_flags (tcp_header s)) f =? 0).

(** [recv_next = seq_num.wrapping_add(1)], the new state, and an acknowledgement. *)
Definition ack_peer (st : TcpConnectionState) (flags : Z) (s : TcpSegment) (c : TcpConnection) : TcpConnection * option TcpSegment :=
  let c := set_state st (set_recv_next (u32 (seq_num (tcp_header s) + 1)) c) in
  (c, Some (segment_of c (recv_next c) flags [])).

Definition process (s : TcpSegment) (c : TcpConnection) : TcpConnection * option TcpSegment :=
  match state c with
  | Listen => if has_flag SYN s then ack_peer SynReceived (Z.lor SYN ACK) s c else (c, None)
  | SynSent =>
      if Z.land (tcp_flags (tcp_header s)) (Z.lor SYN ACK) =? Z.lor SYN ACK
      then ack_peer Established ACK s (set_send_unack (ack_num (tcp_header s)) c) else (c, None)
  | SynReceived =>
      if has_flag ACK s then (set_state Established (set_send_unack (ack_num (tcp_header s)) c), None) else (c, None)
  | Established =>
      if has_flag FIN s then ack_peer CloseWait ACK s c
      else if decide (tcp_data s ≠ [] ∧ seq_num (tcp_header s) = recv_next c) then
        let c := set_recv_next (u32 (recv_next c + Z.of_nat (length (tcp_data s)))) (set_recv_buffer (recv_buffer c ++ tcp_data s) c) in
        (c, Some (segment_of c (recv_next c) ACK []))
      else (c, None)
  | FinWait1 => if has_flag ACK s then (set_state FinWait2 c, None) else (c, None)
  | FinWait2 => if has_flag FIN s then ack_peer TimeWait ACK s c else (c, None)
  | _ => (c, None)
  end.

Definition send (data : list Z) (c : TcpConnection) : TcpConnection * option TcpSegment :=
  if decide (state c = Established) then
    (set_send_next (u32 (send_next c + Z.of_nat (length data))) c, Some (segment_of c (recv_next c) (Z.lor ACK PSH) data))
  else (c, None).

Definition close (c : TcpConnection) : TcpConnection * option TcpSegment :=
  match state c with
  | Established => let c := set_state FinWait1 c in (c, Some (segment_of c (recv_next c) (Z.lor FIN ACK) []))
  | CloseWait => let c := set_state LastAck c in (c, Some (segment_of c (recv_next c) (Z.lor FIN ACK) []))
  | _ => (c, None)
  end.

(** [read] into a buffer of [n] bytes: the bytes written to it; their number is the
    result. *)
Definition read (n : nat) (c : TcpConnection) : TcpConnection * list Z :=
  (set_recv_buffer (drop n (recv_buffer c)) c, take n (recv_buffer c)).

(** ** Listeners and the tables *)

Record TcpListener := mkListener { listener_local : TcpEndpoint; backlog : list TcpConnection; max_backlog : nat }.

Definition listener_new (local : TcpEndpoint) (max_backlog : nat) : TcpListener := mkListener local [] max_backlog.

Definition set_backlog (b : list TcpConnection) (l : TcpListener) : TcpListener := mkListener (listener_local l) b (max_backlog l).

(** The first established connection is removed and returned. *)
Definition listener_accept (l : TcpListener) : TcpListener * option TcpConnection :=
  match list_find (λ c, state c = Established) (backlog l) with
  | Some (i, c) => (set_backlog (delete i (backlog l)) l, Some c)
  | None => (l, None)
  end.

Record TcpState := mkTcpState {
  connections : gmap TcpConnectionKey TcpConnection; listeners : gmap Z TcpListener; tcp_next_ephemeral : Z
}.

Definition tcp_state_new : TcpState := mkTcpState ∅ ∅ EPHEMERAL_START.

Definition set_connections (m : gmap TcpConnectionKey TcpConnection) (s : TcpState) : TcpState :=
  mkTcpState m (listeners s) (tcp_next_ephemeral s).
Definition set_listeners (m : gmap Z TcpListener) (s : TcpState) : TcpState :=
  mkTcpState (connections s) m (tcp_next_ephemeral s).

Definition tcp_allocate_port (s : TcpState) : TcpState * Z :=
  (mkTcpState (connections s) (listeners s) (next_port (tcp_next_ephemeral s)), tcp_next_ephemeral s).

Definition tcp_state_bind (port : Z) (local_addr : Ipv4Address) (s : TcpState) : TcpState * Result () NetworkError :=
  match listeners s !! port with
  | Some _ => (s, Err AddressInUse)
  | None => (set_listeners (<[port := listener_new (mkTcpEndpoint local_addr port) 128]> (listeners s)) s, Ok ())
  end.

Definition tcp_state_accept (port : Z) (s : TcpState) : TcpState * option TcpConnection :=
  match listeners s !! port with
  | None => (s, None)
  | Some l => let '(l', r) := listener_accept l in (set_listeners (<[port := l']> (listeners s)) s, r)
  end.

(** The SYN that [connect] returns is dropped. *)
Definition tcp_state_connect (local_addr : Ipv4Address) (remote : TcpEndpoint) (s : TcpState) : TcpState * TcpConnectionKey :=
  let '(s, local_port) := tcp_allocate_port s in
  let k := mkTcpKey (mkTcpEndpoint local_addr local_port) remote in
  (set_connections (<[k := (connect (connection_new k)).1]> (connections s)) s, k).

(** The key of the connection a segment belongs to. *)
Definition segment_key (p : Ipv4Packet) (seg : TcpSegment) : TcpConnectionKey :=
  mkTcpKey (mkTcpEndpoint (ip_dest p) (tcp_dest_port (tcp_header seg))) (mkTcpEndpoint (ip_src p) (tcp_src_port (tcp_header seg))).

(** [None] is a panic of the kernel. The responses are dropped. *)
Definition tcp_handle_packet (p : Ipv4Packet) (s : TcpState) : option TcpState :=
  match tcp_parse (ip_payload p) with
  | NotParsed => Some s
  | ParsePanics => None
  | ParsedAs seg =>
      let k := segment_key p seg in
      match connections s !! k with
      | Some conn => Some (set_connections (<[k := (process seg conn).1]> (connections s)) s)
      | None =>
          match listeners s !! tcp_dest_port (tcp_header seg) with
          | Some l =>
              if has_flag SYN seg then
                let conn := (process seg (listen (connection_new k))).1 in
                Some (set_listeners (<[tcp_dest_port (tcp_header seg) := set_backlog (backlog l ++ [conn]) l]> (listeners s)) s)
              else Some s
          | None => Some s
          end
      end
  end.

(** ** Round trip of segments *)

Definition tcp_header_ok (h : TcpHeader) : Prop :=
  is_word 16 (tcp_src_port h) ∧ is_word 16 (tcp_dest_port h) ∧ is_word 32 (seq_num h) ∧ is_word 32 (ack_num h) ∧
  is_byte (tcp_flags h) ∧ is_word 16 (window h) ∧ is_word 16 (tcp_checksum_field h) ∧ is_word 16 (urgent_ptr h) ∧
  Forall is_byte (tcp_options h) ∧ (length (tcp_options h) ≤ 40)%nat.

(** What comes back: the options padded, the offset that of the padded header. *)
Definition padded_header (h : TcpHeader) : TcpHeader :=
  mkTcpHeader (tcp_src_port h) (tcp_dest_port h) (seq_num h) (ack_num h) (20 + Z.of_nat (length (pad4 (tcp_options h))))
    (tcp_flags h) (window h) (tcp_checksum_field h) (urgent_ptr h) (pad4 (tcp_options h)).

(** The first twenty bytes. *)
Definition fixed_part (h : TcpHeader) : list Z :=
  to_be_bytes 2 (tcp_src_port h) ++ to_be_bytes 2 (tcp_dest_port h) ++ to_be_bytes 4 (seq_num h)
  ++ to_be_bytes 4 (ack_num h)
  ++ [u8 (Z.shiftl (u8 (Z.of_nat ((TCP_MIN_SIZE + length (tcp_options h) + 3) / 4))) 4)] ++ [tcp_flags h]
  ++ to_be_bytes 2 (window h) ++ to_be_bytes 2 (tcp_checksum_field h) ++ to_be_bytes 2 (urgent_ptr h).

Lemma length_fixed_part h : length (fixed_part h) = 20%nat.
Proof. unfold fixed_part. by rewrite !length_app, !length_to_be_bytes. Qed.

Lemma length_pad4 bytes : length (pad4 bytes) = ((length bytes + 3) / 4 * 4)%nat.
Proof.
  unfold pad4. rewrite length_app, length_replicate.
  pose proof (Nat.div_mod_eq (length bytes) 4). pose proof (Nat.mod_upper_bound (length bytes) 4 ltac:(lia)).
  pose proof (Nat.div_mod_eq (length bytes + 3) 4). pose proof (Nat.mod_upper_bound (length bytes + 3) 4 ltac:(lia)).
  pose proof (Nat.div_mod_eq (4 - length bytes mod 4) 4). pose proof (Nat.mod_upper_bound (4 - length bytes mod 4) 4 ltac:(lia)).
  lia.
Qed.

Lemma tcp_header_bytes h : tcp_header_to_bytes h = fixed_part h ++ pad4 (tcp_options h).
Proof.
  assert (∀ n, (n + 20) mod 4 = n mod 4)%nat as Hmod by (intros n; apply (Nat.Div0.mod_add n 5 4)).
  assert (tcp_header_to_bytes h = pad4 (fixed_part h ++ tcp_options h)) as ->
    by (unfold tcp_header_to_bytes, fixed_part; by rewrite <-!app_assoc).
  unfold pad4. rewrite <-app_assoc. do 2 f_equal. rewrite length_app, length_fixed_part.
  by rewrite Nat.add_comm, Hmod.
Qed.

Lemma tcp_offset_value h : tcp_header_ok h →
  Z.shiftr (u8 (Z.shiftl (u8 (Z.of_nat ((TCP_MIN_SIZE + length (tcp_options h) + 3) / 4))) 4)) 4 * 4 =
  20 + Z.of_nat (length (pad4 (tcp_options h))).
Proof.
  intros (_ & _ & _ & _ & _ & _ & _ & _ & _ & Hl). rewrite length_pad4. unfold TCP_MIN_SIZE.
  assert ((20 + length (tcp_options h) + 3) / 4 = 5 + (length (tcp_options h) + 3) / 4)%nat as ->.
  { replace (20 + length (tcp_options h) + 3)%nat with ((length (tcp_options h) + 3) + 5 * 4)%nat by lia.
    rewrite Nat.div_add by done. lia. }
  set (q := ((length (tcp_options h) + 3) / 4)%nat).
  assert (q ≤ 10)%nat by (subst q; transitivity (43 / 4)%nat; [apply Nat.Div0.div_le_mono; lia|done]).
  unfold u8. rewrite (wrap_small 8 (Z.of_nat _)) by (split; lia).
  rewrite Z.shiftl_mul_pow2 by lia. rewrite wrap_small by (change (2 ^ 4) with 16; split; lia).
  rewrite Z.shiftr_div_pow2, Z.div_mul by lia. lia.
Qed.

Lemma tcp_header_fields h rest : tcp_header_ok h → let d := fixed_part h ++ rest in
  u16_at d 0 = tcp_src_port h ∧ u16_at d 2 = tcp_dest_port h ∧ u32_at d 4 = seq_num h ∧ u32_at d 8 = ack_num h ∧
  u8_at d 12 = u8 (Z.shiftl (u8 (Z.of_nat ((TCP_MIN_SIZE + length (tcp_options h) + 3) / 4))) 4) ∧
  u8_at d 13 = tcp_flags h ∧ u16_at d 14 = window h ∧ u16_at d 16 = tcp_checksum_field h ∧ u16_at d 18 = urgent_ptr h.
Proof.
  intros (H1 & H2 & H3 & H4 & H5 & H6 & H7 & H8 & _). cbv zeta. unfold fixed_part.
  set (off := u8 (Z.shiftl _ 4)).
  split_and!; try reflexivity.
  - change (from_be_bytes (to_be_bytes 2 (tcp_src_port h)) = tcp_src_port h). by apply be16_back.
  - change (from_be_bytes (to_be_bytes 2 (tcp_dest_port h)) = tcp_dest_port h). by apply be16_back.
  - change (from_be_bytes (to_be_bytes 4 (seq_num h)) = seq_num h). by apply from_to_be_bytes.
  - change (from_be_bytes (to_be_bytes 4 (ack_num h)) = ack_num h). by apply from_to_be_bytes.
  - change (from_be_bytes (to_be_bytes 2 (window h)) = window h). by apply be16_back.
  - change (from_be_bytes (to_be_bytes 2 (tcp_checksum_field h)) = tcp_checksum_field h). by apply be16_back.
  - change (from_be_bytes (to_be_bytes 2 (urgent_ptr h)) = urgent_ptr h). by apply be16_back.
Qed.

Lemma tcp_parse_back h data : tcp_header_ok h →
  tcp_parse (tcp_header_to_bytes h ++ data) = ParsedAs (mkTcpSegment (padded_header h) data).
Proof.
  intros Hok. rewrite tcp_header_bytes, <-app_assoc. set (o := pad4 (tcp_options h)) in *.
  destruct (tcp_header_fields h (o ++ data) Hok) as (F0 & F2 & F4 & F8 & F12 & F13 & F14 & F16 & F18). cbv zeta in *.
  pose proof (tcp_offset_value h Hok) as Ho. fold o in Ho. set (d := fixed_part h ++ o ++ data) in *.
  assert (length d = 20 + length o + length data)%nat as Hl by (unfold d; rewrite !length_app, length_fixed_part; lia).
  assert (tcp_header_parse d = ParsedAs (padded_header h)) as Hh.
  { unfold tcp_header_parse, TCP_MIN_SIZE. rewrite decide_False by lia.
    unfold TCP_MIN_SIZE in F12. rewrite F0, F2, F4, F8, F12, F13, F14, F16, F18. unfold TCP_MIN_SIZE in Ho. rewrite Ho.
    unfold padded_header. fold o. case_decide as H1.
    - rewrite decide_False by lia. do 2 f_equal. unfold d. rewrite sub_skip by (rewrite length_fixed_part; lia).
      rewrite length_fixed_part. replace (20 - 20)%nat with 0%nat by lia. apply sub_here. lia.
    - assert (o = []) as -> by (apply nil_length_inv; lia). done. }
  unfold tcp_parse. rewrite Hh. cbn [data_offset padded_header]. fold o. rewrite decide_False by lia.
  do 2 f_equal. unfold d. rewrite drop_app_ge by (rewrite length_fixed_part; lia). rewrite length_fixed_part.
  rewrite drop_app_ge by lia. replace (Z.to_nat (20 + Z.of_nat (length o)) - 20 - length o)%nat with 0%nat by lia. done.
Qed.

(** The checksum of a segment makes it verify at the receiver. *)
Lemma tcp_checksum_valid src dest s : is_ipv4 src → is_ipv4 dest → tcp_header_ok (tcp_header s) → Forall is_byte (tcp_data s) →
  Z.of_nat (length (tcp_data s)) ≤ 65000 →
  let bytes := tcp_to_bytes src dest s in
  ∃ c, is_word 16 c ∧ bytes = tcp_header_to_bytes (with_tcp_checksum c (tcp_header s)) ++ tcp_data s ∧
  ones_sum (total (words_of (pseudo_header src dest PROTOCOL_TCP bytes ++ bytes))) = 65535.
Proof.
  intros [Hs Hs4] [Hd Hd4] Hok Hb Hl. cbv zeta. unfold tcp_to_bytes. set (h := tcp_header s) in *. set (data := tcp_data s) in *.
  set (o := pad4 (tcp_options h)). destruct Hok as (_ & _ & _ & _ & Hf & _ & _ & _ & Ho & Hol).
  assert (length o ≤ 40)%nat as Hlo.
  { unfold o. rewrite length_pad4. transitivity (43 / 4 * 4)%nat; [|done]. apply Nat.mul_le_mono_r, Nat.Div0.div_le_mono. lia. }
  assert (∀ c, tcp_header_to_bytes (with_tcp_checksum c h) = fixed_part (with_tcp_checksum c h) ++ o) as Hbytes
    by (intros c; apply tcp_header_bytes).
  assert (∀ c, pseudo_header src dest PROTOCOL_TCP (tcp_header_to_bytes (with_tcp_checksum c h) ++ data) =
    pseudo_header src dest PROTOCOL_TCP (tcp_header_to_bytes (with_tcp_checksum 0 h) ++ data)) as Hps.
  { intros c. unfold pseudo_header. by rewrite !Hbytes, !length_app, !length_fixed_part. }
  rewrite Hps. set (ps := pseudo_header src dest PROTOCOL_TCP _) in *.
  set (pre := ps ++ take 16 (fixed_part h)). set (post := to_be_bytes 2 (urgent_ptr h) ++ o ++ data).
  assert (∀ c, ps ++ tcp_header_to_bytes (with_tcp_checksum c h) ++ data = pre ++ to_be_bytes 2 c ++ post) as Hpre.
  { intros c. rewrite Hbytes. unfold pre, post. by rewrite <-!app_assoc. }
  assert (tcp_checksum src dest (tcp_header_to_bytes (with_tcp_checksum 0 h) ++ data) = checksum_bytes (pre ++ to_be_bytes 2 0 ++ post)) as Hc.
  { unfold tcp_checksum. fold ps. by rewrite Hpre. }
  assert (length pre = 28%nat) as Hlp.
  { unfold pre, ps. rewrite length_app, length_pseudo_header, length_take, length_fixed_part by done. done. }
  destruct (checksum_in_place pre post) as [Hw Hsum].
  - rewrite Hlp. by exists 14%nat.
  - unfold pre, ps. rewrite Forall_app. split; [by apply pseudo_header_byte|]. apply Forall_take. unfold fixed_part.
    rewrite !Forall_app, !Forall_singleton. split_and!; try apply to_be_bytes_byte; try done. apply Z.mod_pos_bound. lia.
  - unfold post. rewrite !Forall_app. split_and!; [apply to_be_bytes_byte| |done]. unfold o, pad4. rewrite Forall_app.
    split; [done|]. apply Forall_replicate. by split.
  - rewrite Hlp. unfold post. rewrite !length_app, length_to_be_bytes. lia.
  - exists (checksum_bytes (pre ++ to_be_bytes 2 0 ++ post)). split; [done|]. rewrite Hc. split; [done|].
    by rewrite Hpre.
Qed.

(** ** The stream *)

(** What reaches a receiver, and what its program does. *)
Inductive rx_event := Arrive (s : TcpSegment) | Read (n : nat).

Definition rx_step (e : rx_event) (p : TcpConnection * list Z) : TcpConnection * list Z :=
  match e with
  | Arrive s => ((process s p.1).1, p.2)
  | Read n => let '(c, b) := read n p.1 in (c, p.2 ++ b)
  end.

Definition arrivals (es : list rx_event) : list TcpSegment :=
  omap (λ e, match e with Arrive s => Some s | Read _ => None end) es.

(** The segments of successive calls of [send]. *)
Fixpoint sends (chunks : list (list Z)) (c : TcpConnection) : list TcpSegment :=
  match chunks with
  | [] => []
  | d :: chunks => let '(c, s) := send d c in option_list s ++ sends chunks c
  end.

Definition stream_length (chunks : list (list Z)) : Z := Z.of_nat (length (concat chunks)).

(** The [i]-th segment. *)
Definition chunk_segment (c : TcpConnection) (chunks : list (list Z)) (i : nat) (d : list Z) : TcpSegment :=
  tcp_segment_new (ep_port (key_local (key c))) (ep_port (key_remote (key c)))
    (u32 (send_next c + stream_length (take i chunks))) (recv_next c) (Z.lor ACK PSH) d.

Lemma stream_length_nonneg chunks : 0 ≤ stream_length chunks.
Proof. unfold stream_length. lia. Qed.

Lemma stream_length_app a b : stream_length (a ++ b) = stream_length a + stream_length b.
Proof. unfold stream_length. rewrite concat_app, length_app. lia. Qed.

Lemma stream_length_take_S chunks i d : chunks !! i = Some d →
  stream_length (take (S i) chunks) = stream_length (take i chunks) + Z.of_nat (length d).
Proof.
  intros H. rewrite (take_S_r _ _ _ H), stream_length_app. unfold stream_length at 2. cbn. rewrite app_nil_r. done.
Qed.

Lemma sends_spec chunks : ∀ c, state c = Established → is_word 32 (send_next c) →
  sends chunks c = imap (chunk_segment c chunks) chunks.
Proof.
  induction chunks as [|d chunks IH]; intros c Hst Hw; [done|]. cbn [sends]. unfold send at 1. rewrite decide_True by done.
  rewrite IH; [|done|apply wrap_word; lia]. rewrite imap_cons.
  match goal with |- option_list (Some ?x) ++ ?l = _ => change (option_list (Some x) ++ l) with (x :: l) end.
  f_equal.
  - unfold chunk_segment, segment_of. cbn [take]. unfold stream_length. cbn [concat length]. rewrite Z.add_0_r.
    unfold u32. by rewrite wrap_small.
  - apply imap_ext. intros i d' Hi. unfold chunk_segment, compose. cbn [take set_send_next key send_next recv_next].
    unfold stream_length, u32. cbn [concat]. rewrite length_app, wrap_add_l, Nat2Z.inj_add. by rewrite Z.add_assoc.
Qed.

Lemma stream_length_mono chunks i j : (i ≤ j)%nat → stream_length (take i chunks) ≤ stream_length (take j chunks).
Proof.
  intros H. replace j with (i + (j - i))%nat by lia. rewrite <-take_take_drop, stream_length_app.
  pose proof (stream_length_nonneg (take (j - i) (drop i chunks))). lia.
Qed.

Lemma stream_length_le chunks i : 0 ≤ stream_length (take i chunks) ≤ stream_length chunks.
Proof.
  split; [unfold stream_length; lia|]. destruct (decide (i ≤ length chunks)%nat).
  - rewrite <-(take_ge chunks (length chunks)) at 2 by done. by apply stream_length_mono.
  - by rewrite take_ge by lia.
Qed.

(** Non-empty chunks start at different places. *)
Lemma stream_length_inj chunks i j d : Forall (λ d, d ≠ []) chunks → chunks !! i = Some d → (j ≤ length chunks)%nat →
  stream_length (take i chunks) = stream_length (take j chunks) → i = j.
Proof.
  intros Hne Hi Hj He. assert (∀ a b e, (a < b)%nat → chunks !! a = Some e →
    stream_length (take a chunks) < stream_length (take b chunks)) as Hlt.
  { intros a b e Hab Ha. pose proof (stream_length_mono chunks (S a) b ltac:(lia)) as Hm.
    rewrite (stream_length_take_S _ _ _ Ha) in Hm.
    assert (e ≠ []) as Hn by (by eapply (proj1 (Forall_lookup _ _)) in Hne). destruct e; [done|]. simpl in Hm. lia. }
  destruct (Nat.lt_trichotomy i j) as [H|[H|H]]; [|done|].
  - pose proof (Hlt _ _ _ H Hi). lia.
  - destruct (lookup_lt_is_Some_2 chunks j) as [e Hje]; [apply lookup_lt_Some in Hi; lia|].
    pose proof (Hlt _ _ _ H Hje). lia.
Qed.

(** Wrapped positions less than 2^32 apart are equal only if they are. *)
Lemma u32_add_inj r a b : 0 ≤ a < 2 ^ 32 → 0 ≤ b < 2 ^ 32 → u32 (r + a) = u32 (r + b) → a = b.
Proof.
  intros Ha Hb He. unfold u32, wrap in He.
  assert ((r + a - (r + b)) mod 2 ^ 32 = 0) as H0 by (rewrite Zminus_mod, He, Z.sub_diag; done).
  apply Z.mod_divide in H0 as [k Hk]; [|lia]. nia.
Qed.

(** The receiver has taken exactly the first [j] chunks. *)
Definition received (r : Z) (chunks : list (list Z)) (j : nat) (p : TcpConnection * list Z) : Prop :=
  (j ≤ length chunks)%nat ∧ state p.1 = Established ∧
  recv_next p.1 = u32 (r + stream_length (take j chunks)) ∧ p.2 ++ recv_buffer p.1 = concat (take j chunks).

Lemma received_read r chunks j p n : received r chunks j p → received r chunks j (rx_step (Read n) p).
Proof.
  intros (H1 & H2 & H3 & H4). split; [done|]. split; [done|]. split; [done|]. cbn. rewrite <-app_assoc, take_drop. done.
Qed.

Lemma received_arrive c chunks i d j p : Forall (λ d, d ≠ []) chunks → stream_length chunks < 2 ^ 32 →
  chunks !! i = Some d → received (send_next c) chunks j p →
  received (send_next c) chunks (if decide (i = j) then S j else j) (rx_step (Arrive (chunk_segment c chunks i d)) p).
Proof.
  intros Hne Hlen Hi (H1 & H2 & H3 & H4). pose proof (stream_length_le chunks i). pose proof (stream_length_le chunks j).
  assert (d ≠ []) as Hd by (by eapply (proj1 (Forall_lookup _ _)) in Hne).
  unfold rx_step, process. rewrite H2. change (has_flag FIN (chunk_segment c chunks i d)) with false. cbn [tcp_data tcp_header
    seq_num chunk_segment tcp_segment_new tcp_header_new]. destruct (decide (i = j)) as [->|Hij].
  - rewrite decide_True by (split; [done|by rewrite H3]). split; [apply lookup_lt_Some in Hi; lia|]. cbn [fst snd].
    split; [done|]. split.
    + cbn. rewrite H3. rewrite (stream_length_take_S _ _ _ Hi). unfold u32. rewrite wrap_add_l. f_equal. lia.
    + cbn. rewrite app_assoc, H4. rewrite (take_S_r _ _ _ Hi), concat_app. cbn. by rewrite app_nil_r.
  - rewrite decide_False; [done|]. intros [_ He]. rewrite H3 in He. apply u32_add_inj in He; [|lia|lia].
    apply Hij. by eapply stream_length_inj.
Qed.

(** The counter of chunks taken, over the numbers of the segments that arrive. *)
Definition taken (idx : list nat) (j : nat) : nat := foldl (λ j i, if decide (i = j) then S j else j) j idx.

Lemma received_run c chunks es : Forall (λ d, d ≠ []) chunks → stream_length chunks < 2 ^ 32 → ∀ p j idx,
  received (send_next c) chunks j p →
  Forall2 (λ s i, ∃ d, chunks !! i = Some d ∧ s = chunk_segment c chunks i d) (arrivals es) idx →
  received (send_next c) chunks (taken idx j) (run_ops rx_step es p).
Proof.
  intros Hne Hlen. induction es as [|[s|n] es IH]; intros p j idx Hr Hs.
  - inversion Hs; subst. done.
  - inversion Hs as [|? i ? idx' (d & Hd & ->) Hs']; subst. cbn [run_ops]. apply (IH _ _ idx'); [|done]. by apply received_arrive.
  - cbn [run_ops]. apply IH; [|done]. by apply received_read.
Qed.

Lemma taken_all idx j n : seq j n `sublist_of` idx → (j + n ≤ taken idx j)%nat.
Proof.
  revert j n; induction idx as [|i idx IH]; intros j n Hs.
  - apply sublist_nil_r in Hs. destruct n; [|done]. cbn. lia.
  - cbn. case_decide as Hij.
    + subst. destruct n as [|n].
      * transitivity (S j + 0)%nat; [lia|]. apply IH. apply sublist_nil_l.
      * replace (j + S n)%nat with (S j + n)%nat by lia. apply IH. cbn [seq] in Hs.
        inversion Hs as [|? ? ? Hs'|? ? ? Hs']; subst; [done|]. etrans; [|exact Hs']. by apply sublist_cons.
    + apply IH. destruct n as [|n]; [apply sublist_nil_l|]. cbn [seq] in Hs |- *.
      inversion Hs as [|? ? ? Hs'|? ? ? Hs']; subst; [done|done].
Qed.

Lemma sublist_Forall2 {A B} (R : A → B → Prop) l1 l2 k1 k2 :
  (∀ x y y', R x y → R x y' → y = y') → l1 `sublist_of` l2 → Forall2 R l1 k1 → Forall2 R l2 k2 → k1 `sublist_of` k2.
Proof.
  intros HR Hs. revert k1 k2. induction Hs as [|x l1 l2 Hs IH|x l1 l2 Hs IH]; intros k1 k2 H1 H2.
  - inversion H1; subst. apply sublist_nil_l.
  - inversion H1 as [|? y ? k1' Hy H1']; subst. inversion H2 as [|? y' ? k2' Hy' H2']; subst.
    rewrite (HR _ _ _ Hy Hy'). apply sublist_skip. by apply IH.
  - inversion H2; subst. apply sublist_cons. by apply IH.
Qed.

(** Segment [s] is the [i]-th one. *)
Definition is_chunk (c : TcpConnection) (chunks : list (list Z)) (s : TcpSegment) (i : nat) : Prop :=
  ∃ d, chunks !! i = Some d ∧ s = chunk_segment c chunks i d.

Lemma is_chunk_inj c chunks s i i' : Forall (λ d, d ≠ []) chunks → stream_length chunks < 2 ^ 32 →
  is_chunk c chunks s i → is_chunk c chunks s i' → i = i'.
Proof.
  intros Hne Hlen (d & Hd & ->) (d' & Hd' & He). pose proof (stream_length_le chunks i). pose proof (stream_length_le chunks i').
  apply (f_equal (λ s, seq_num (tcp_header s))) in He. cbn in He. apply u32_add_inj in He; [|lia|lia].
  eapply stream_length_inj; [done|done| |done]. apply lookup_lt_Some in Hd'. lia.
Qed.

Lemma imap_chunks c chunks : Forall2 (is_chunk c chunks) (imap (chunk_segment c chunks) chunks) (seq 0 (length chunks)).
Proof.
  apply Forall2_same_length_lookup. split; [by rewrite length_imap, length_seq|].
  intros i s n. rewrite list_lookup_imap, lookup_seq. intros Hs [-> Hi]. destruct (chunks !! i) as [d|] eqn:E; [|done].
  cbn in Hs. injection Hs as <-. by exists d.
Qed.

(** [C29] The byte stream: whatever reaches an established receiver of the segments a sender
    made by successive calls of [send], lost, repeated and reordered at will and with reads
    of any sizes between them, the bytes the program has read followed by those still
    buffered are a prefix of the bytes sent; and they are all of them once the segments
    have arrived in order, others (repetitions, say) between them or not. The receiver
    expects the sender's first byte, which the two ends of a handshake of this code do not
    ([handshake_loses_data]); the stream is shorter than 2^32 bytes. *)
Theorem tcp_stream c d chunks es :
  state c = Established → is_word 32 (send_next c) → state d = Established → recv_next d = send_next c →
  recv_buffer d = [] → Forall (λ ch, ch ≠ []) chunks → stream_length chunks < 2 ^ 32 →
  (∀ s, s ∈ arrivals es → s ∈ sends chunks c) →
  let p := run_ops rx_step es (d, []) in
  state p.1 = Established ∧ p.2 ++ recv_buffer p.1 `prefix_of` concat chunks ∧
  (sends chunks c `sublist_of` arrivals es → p.2 ++ recv_buffer p.1 = concat chunks).
Proof.
  intros Hc Hw Hd Hn Hb Hne Hlen Hin p. rewrite (sends_spec chunks c Hc Hw) in *.
  assert (∃ idx, Forall2 (is_chunk c chunks) (arrivals es) idx) as [idx Hidx].
  { generalize dependent (arrivals es). clear p. induction l as [|s l IH]; intros Hin; [by exists []|].
    destruct IH as [idx Hidx]; [intros; apply Hin; by constructor|].
    destruct (proj1 (elem_of_lookup_imap _ _ _) (Hin s ltac:(constructor))) as (i & e & -> & He).
    exists (i :: idx). constructor; [by exists e|done]. }
  assert (received (send_next c) chunks 0 (d, [])) as H0.
  { split; [lia|]. split; [done|]. split; [|done]. cbn. rewrite Hn. unfold stream_length, u32. cbn. rewrite Z.add_0_r.
    by rewrite wrap_small. }
  pose proof (received_run c chunks es Hne Hlen (d, []) 0%nat idx H0 Hidx) as (H1 & H2 & _ & H4). fold p in H2, H4.
  split; [done|]. rewrite H4. split.
  - exists (concat (drop (taken idx 0) chunks)). by rewrite <-concat_app, take_drop.
  - intros Hs. pose proof (sublist_Forall2 (is_chunk c chunks) _ _ _ _ (λ s i i', is_chunk_inj c chunks s i i' Hne Hlen)
      Hs (imap_chunks c chunks) Hidx) as Hq.
    apply taken_all in Hq. by rewrite take_ge by lia.
Qed.

Definition sample_key : TcpConnectionKey := mkTcpKey (mkTcpEndpoint [10; 0; 2; 15] 50000) (mkTcpEndpoint [10; 0; 2; 2] 80).
Definition sample_sender : TcpConnection := set_state Established (connection_new sample_key).
Definition sample_receiver : TcpConnection := set_recv_next 1000 (set_state Established (connection_new (mkTcpKey (key_remote sample_key) (key_local sample_key)))).

Lemma tcp_stream_witness :
  let p := run_ops rx_step [Arrive (chunk_segment sample_sender [[1; 2]; [3]] 1 [3]);
    Arrive (chunk_segment sample_sender [[1; 2]; [3]] 0 [1; 2]); Read 1;
    Arrive (chunk_segment sample_sender [[1; 2]; [3]] 0 [1; 2]); Arrive (chunk_segment sample_sender [[1; 2]; [3]] 1 [3])]
    (sample_receiver, []) in
  p.2 ++ recv_buffer p.1 = [1; 2; 3].
Proof.
  intros p. apply (tcp_stream sample_sender sample_receiver [[1; 2]; [3]] _);
    [done|by split|done|done|done|repeat constructor; done|by vm_compute| |].
  - intros s. cbn [arrivals omap list_omap]. rewrite !elem_of_cons. intros [->|[->|[->|[->|Hs]]]]; [..|by apply elem_of_nil in Hs];
      vm_compute; repeat constructor.
  - change (sends [[1; 2]; [3]] sample_sender) with [chunk_segment sample_sender [[1; 2]; [3]] 0 [1; 2]; chunk_segment sample_sender [[1; 2]; [3]] 1 [3]].
    cbn [arrivals omap list_omap]. apply sublist_cons, sublist_skip, sublist_cons, sublist_skip, sublist_nil_l.
Defined.

(** ** The handshake *)

Definition flip_key (k : TcpConnectionKey) : TcpConnectionKey := mkTcpKey (key_remote k) (key_local k).

(** The three segments of an open, each processed by the other side. *)
Definition handshake (k : TcpConnectionKey) : option (TcpConnection * TcpConnection) :=
  let '(client, syn) := connect (connection_new k) in
  let '(server, r) := process syn (listen (connection_new (flip_key k))) in
  syn_ack ← r;
  let '(client, r) := process syn_ack client in
  ack ← r;
  let '(server, _) := process ack server in
  Some (client, server).

(** Both ends are established after a handshake, but the SYN is not counted in either send
    position, while the other end counts it in what it expects: the first data segment of
    either side, and every segment until 2^32 - 1 more bytes are sent or exactly one byte
    has been lost, is dropped without an answer. *)
Lemma handshake_loses_data k : ∃ client server, handshake k = Some (client, server) ∧
  state client = Established ∧ state server = Established ∧
  send_next client = 1000 ∧ recv_next server = 1001 ∧ send_next server = 1000 ∧ recv_next client = 1001 ∧
  (∀ data client' seg, send data client = (client', Some seg) → process seg server = (server, None)) ∧
  (∀ data server' seg, send data server = (server', Some seg) → process seg client = (client, None)).
Proof.
  eexists _, _. split; [reflexivity|]. split_and!; try reflexivity.
  - intros data client' seg [= <- <-]. unfold process. cbn. by rewrite decide_False by (intros [_ H]; vm_compute in H; done).
  - intros data server' seg [= <- <-]. unfold process. cbn. by rewrite decide_False by (intros [_ H]; vm_compute in H; done).
Qed.

(** After a first chunk of one byte the next one is taken for it. *)
Lemma first_byte_lost k : ∃ client server, handshake k = Some (client, server) ∧
  ∃ server', process (chunk_segment client [[1]; [2; 3]] 1 [2; 3]) (process (chunk_segment client [[1]; [2; 3]] 0 [1]) server).1 = server' ∧
  recv_buffer server'.1 = [2; 3].
Proof. eexists _, _. split; [reflexivity|]. eexists. split; reflexivity. Qed.

(** ** What the state machine does not do *)

(** No segment moves a connection out of these states: a connection that closes in answer to
    its peer waits in [LastAck] for ever, and [TimeWait] has no end. *)
Lemma dead_ends s c : state c ∈ [Closed; CloseWait; Closing; LastAck; TimeWait] → process s c = (c, None).
Proof. rewrite !elem_of_cons, elem_of_nil. unfold process. by intros [->|[->|[->|[->|[->|[]]]]]]. Qed.

(** A reset changes nothing, and one that carries the next byte is data. *)
Lemma reset_is_data c data : state c = Established → data ≠ [] →
  recv_buffer (process (tcp_segment_new (ep_port (key_remote (key c))) (ep_port (key_local (key c))) (recv_next c) 0 RST data) c).1 =
  recv_buffer c ++ data.
Proof.
  intros Hc Hd. unfold process. rewrite Hc. change (has_flag FIN (tcp_segment_new _ _ _ _ RST _)) with false.
  cbn. by rewrite decide_True.
Qed.

(** A FIN is taken at any sequence number, and the data it carries is lost. *)
Lemma fin_anywhere c n data : state c = Established →
  let p := process (tcp_segment_new (ep_port (key_remote (key c))) (ep_port (key_local (key c))) n 0 (Z.lor FIN ACK) data) c in
  state p.1 = CloseWait ∧ recv_buffer p.1 = recv_buffer c ∧ recv_next p.1 = u32 (n + 1).
Proof. intros Hc. unfold process. by rewrite Hc. Qed.

(** A FIN that acknowledges ours is read as the acknowledgement only: the connection waits
    in [FinWait2] for a FIN that has come. *)
Lemma fin_with_ack c n : state c = FinWait1 →
  process (tcp_segment_new (ep_port (key_remote (key c))) (ep_port (key_local (key c))) n 0 (Z.lor FIN ACK) []) c =
  (set_state FinWait2 c, None).
Proof. intros Hc. unfold process. by rewrite Hc. Qed.

(** A header that announces more options than the segment has bytes stops the kernel, and
    one shorter than twenty bytes gives its own header as data. *)
Lemma tcp_parse_panics data : Forall is_byte data →
  tcp_parse data = ParsePanics ↔
  (20 ≤ length data)%nat ∧ 20 < Z.shiftr (u8_at data 12) 4 * 4 ∧ Z.of_nat (length data) < Z.shiftr (u8_at data 12) 4 * 4.
Proof.
  intros Hb. unfold tcp_parse, tcp_header_parse, TCP_MIN_SIZE. set (off := Z.shiftr (u8_at data 12) 4 * 4).
  case_decide as H1; [split; [done|lia]|]. case_decide as H2.
  - case_decide as H3; [split; [|done]; intros _; lia|]. cbn [data_offset]. fold off.
    case_decide; split; try done; lia.
  - cbn [data_offset]. fold off. case_decide; split; try done; lia.
Qed.

Lemma short_header_is_data : ∃ h, tcp_parse (replicate 20 0) = ParsedAs (mkTcpSegment h (replicate 20 0)).
Proof. eexists. reflexivity. Qed.

(** ** Histories of the tables *)

(** What the rest of the kernel does to the tables: the methods of [TcpState], the handler,
    and the methods of a connection found in the table. *)
Inductive tcp_call :=
  | Bind (port : Z) (addr : Ipv4Address)
  | Accept (port : Z)
  | Connect (addr : Ipv4Address) (remote : TcpEndpoint)
  | Packet (p : Ipv4Packet)
  | OnConnection (k : TcpConnectionKey) (f : TcpConnection → TcpConnection)
  | RemoveListener (port : Z).

Definition tcp_step (call : tcp_call) (s : TcpState) : TcpState :=
  match call with
  | Bind port addr => (tcp_state_bind port addr s).1
  | Accept port => (tcp_state_accept port s).1
  | Connect addr remote => (tcp_state_connect addr remote s).1
  | Packet p => default s (tcp_handle_packet p s)
  | OnConnection k f => set_connections (alter f k (connections s)) s
  | RemoveListener port => set_listeners (delete port (listeners s)) s
  end.

(** What is in a backlog has only seen the segment it was made for. *)
Definition fresh (l : TcpListener) : Prop := Forall (λ c, state c ≠ Established) (backlog l).
Definition tcp_ok (s : TcpState) : Prop :=
  map_Forall (λ _ l, fresh l) (listeners s) ∧ EPHEMERAL_START ≤ tcp_next_ephemeral s ≤ EPHEMERAL_END.

Lemma accept_none l : fresh l → listener_accept l = (l, None).
Proof.
  unfold fresh, listener_accept. intros Hf.
  destruct (list_find (λ c, state c = Established) (backlog l)) as [[i c]|] eqn:E; [|done].
  apply list_find_Some in E as (Hl & He & _). by eapply (proj1 (Forall_lookup _ _)) in Hf.
Qed.

Lemma backlog_fresh seg k : state (process seg (listen (connection_new k))).1 ≠ Established.
Proof. unfold process. cbn. by destruct (has_flag SYN seg). Qed.

Lemma tcp_step_ok call s : tcp_ok s → tcp_ok (tcp_step call s).
Proof.
  intros [Hl Hp]. destruct call as [port addr|port|addr remote|p|k f|port]; cbn [tcp_step].
  - unfold tcp_state_bind. destruct (listeners s !! port); [done|]. split; [|done]. apply map_Forall_insert_2; [|done]. by constructor.
  - unfold tcp_state_accept. destruct (listeners s !! port) as [l|] eqn:E; [|done].
    rewrite accept_none by (by eapply Hl). split; [|done]. cbn. by rewrite insert_id.
  - split; [done|]. by apply next_port_range.
  - unfold tcp_handle_packet. destruct (tcp_parse (ip_payload p)) as [| |seg]; [done..|].
    destruct (connections s !! segment_key p seg); [done|].
    destruct (listeners s !! tcp_dest_port (tcp_header seg)) as [l|] eqn:E; [|done].
    destruct (has_flag SYN seg); [|done]. split; [|done]. cbn [default from_option id listeners set_listeners].
    apply map_Forall_insert_2; [|done]. unfold fresh. cbn. apply Forall_app. split; [by eapply Hl|].
    apply Forall_singleton, backlog_fresh.
  - done.
  - split; [|done]. by apply map_Forall_delete.
Qed.

(** No connection is ever accepted: over any history of binds, accepts, connects,
    incoming packets, calls on connections and removals, from the initial tables, [accept]
    on any port returns [None] and changes nothing: the connections of a backlog are never
    given another segment, so none of them is established. *)
Theorem accept_never calls port :
  let s := run_ops tcp_step calls tcp_state_new in
  (tcp_state_accept port s).2 = None ∧ tcp_step (Accept port) s = s.
Proof.
  intros s. assert (tcp_ok s) as [Hl _].
  { apply run_ops_invariant; [apply tcp_step_ok|]. split; [apply map_Forall_empty|by vm_compute]. }
  cbn [tcp_step]. unfold tcp_state_accept. destruct (listeners s !! port) as [l|] eqn:E; [|done].
  rewrite accept_none by (by eapply Hl). split; [done|]. cbn. unfold set_listeners. rewrite insert_id by done. by destruct s.
Qed.

(** Every SYN adds to the backlog: [max_backlog] is never read, and a repeated SYN is
    another entry. *)
Lemma backlog_unbounded p s seg l n : tcp_parse (ip_payload p) = ParsedAs seg → connections s !! segment_key p seg = None →
  listeners s !! tcp_dest_port (tcp_header seg) = Some l → has_flag SYN seg = true →
  (λ l, length (backlog l)) <$> listeners (Nat.iter n (tcp_step (Packet p)) s) !! tcp_dest_port (tcp_header seg) = Some (length (backlog l) + n)%nat.
Proof.
  intros Hp Hc Hl Hf.
  assert (∃ l', listeners (Nat.iter n (tcp_step (Packet p)) s) !! tcp_dest_port (tcp_header seg) = Some l' ∧
    length (backlog l') = (length (backlog l) + n)%nat ∧ connections (Nat.iter n (tcp_step (Packet p)) s) = connections s)
    as (l' & -> & Hn & _); [|by rewrite <-Hn].
  induction n as [|n (l' & Hl' & Hn & Hk)]; [exists l; rewrite Nat.add_0_r; done|]. rewrite Nat.iter_succ.
  set (s' := Nat.iter n _ s) in *. cbn [tcp_step]. unfold tcp_handle_packet. rewrite Hp, Hk, Hc, Hl', Hf.
  eexists. cbn [default from_option id listeners set_listeners connections]. rewrite lookup_insert_eq. split; [done|].
  split; [|done]. cbn. rewrite length_app, Hn. cbn. lia.
Qed.

(** A connection stays where it is until a packet with its own four addresses comes: one
    made for the local address 0.0.0.0, as [tcp_connect] does, gets none. *)
Lemma other_key_untouched k p s : ip_dest p ≠ ep_addr (key_local k) →
  connections (tcp_step (Packet p) s) !! k = connections s !! k.
Proof.
  intros Hne. cbn [tcp_step]. unfold tcp_handle_packet. destruct (tcp_parse (ip_payload p)) as [| |seg]; [done..|].
  destruct (connections s !! segment_key p seg).
  - cbn. rewrite lookup_insert_ne; [done|]. intros <-. by apply Hne.
  - destruct (listeners s !! _); [|done]. by destruct (has_flag SYN seg).
Qed.
