(* ===== verification/TcpFlow.v ===== *)
(** * TcpFlow: options, congestion control, selective acknowledgement and Nagle's
    algorithm ([kernel/src/net/tcp.rs], the part after "TCP Optimizations")

    32-bit arithmetic wraps, as in the release build. Nothing in the connections of [Tcp]
    uses these yet. *)

From Stdlib Require Import ZArith Lia.
From stdpp Require Import list sorting.
From S2P Require Import Prelude.
From S2P Require Import Ids.
From S2P Require Import Bytes.
From S2P Require Import Packets.

(** ** Configuration *)

Record TcpConfig := mkTcpConfig {
  nagle_enabled : bool; window_scaling : bool; cfg_window_scale : Z; sack_enabled : bool; timestamps_enabled : bool;
  cfg_mss : Z; initial_cwnd : Z; cfg_ssthresh : Z; fast_retransmit : bool; rto_min_ms : Z; rto_max_ms : Z
}.

Definition tcp_config_default : TcpConfig := mkTcpConfig true true 7 true true 1460 10 65535 true 200 120000.

(** ** Congestion control *)

Inductive CongestionState := SlowStart | CongestionAvoidance | FastRecovery.
#[export] Instance CongestionState_eq_dec : EqDecision CongestionState.
Proof. solve_decision. Defined.

Record CongestionControl := mkCongestion {
  cwnd : Z; ssthresh : Z; cc_state : CongestionState; dup_ack_count : Z; bytes_in_flight : Z; rtt_ms : Z;
  srtt_ms : Z; rttvar_ms : Z; rto_ms : Z
}.

Definition congestion_new (c : TcpConfig) : CongestionControl :=
  mkCongestion (u32 (initial_cwnd c * cfg_mss c)) (cfg_ssthresh c) SlowStart 0 0 0 0 0 1000.

(** The window, the threshold, the state and the count of duplicates. *)
Definition set_window (w t : Z) (st : CongestionState) (dups : Z) (c : CongestionControl) : CongestionControl :=
  mkCongestion w t st dups (bytes_in_flight c) (rtt_ms c) (srtt_ms c) (rttvar_ms c) (rto_ms c).

Definition on_ack (bytes_acked mss : Z) (c : CongestionControl) : CongestionControl :=
  let c := mkCongestion (cwnd c) (ssthresh c) (cc_state c) 0 (sat_sub (bytes_in_flight c) bytes_acked) (rtt_ms c)
             (srtt_ms c) (rttvar_ms c) (rto_ms c) in
  match cc_state c with
  | SlowStart =>
      let w := u32 (cwnd c + mss) in
      set_window w (ssthresh c) (if ssthresh c <=? w then CongestionAvoidance else SlowStart) 0 c
  | CongestionAvoidance => set_window (u32 (cwnd c + u32 (mss * mss) / Z.max (cwnd c) 1)) (ssthresh c) CongestionAvoidance 0 c
  | FastRecovery => set_window (ssthresh c) (ssthresh c) CongestionAvoidance 0 c
  end.

Definition on_duplicate_ack (mss : Z) (c : CongestionControl) : CongestionControl * bool :=
  let dups := u8 (dup_ack_count c + 1) in
  if decide (dups = 3 ∧ cc_state c ≠ FastRecovery) then
    let t := Z.max (cwnd c / 2) (u32 (2 * mss)) in
    (set_window (u32 (t + u32 (3 * mss))) t FastRecovery dups c, true)
  else if decide (cc_state c = FastRecovery) then (set_window (u32 (cwnd c + mss)) (ssthresh c) FastRecovery dups c, false)
  else (set_window (cwnd c) (ssthresh c) (cc_state c) dups c, false).

Definition on_timeout (mss : Z) (c : CongestionControl) : CongestionControl :=
  set_window mss (Z.max (cwnd c / 2) (u32 (2 * mss))) SlowStart 0 c.

(** [clamp] panics when its bounds are the wrong way round. *)
Definition clamp (x lo hi : Z) : option Z := if hi <? lo then None else Some (Z.min (Z.max x lo) hi).

Definition update_rtt (measured : Z) (cfg : TcpConfig) (c : CongestionControl) : option CongestionControl :=
  let '(srtt, rttvar) :=
    if srtt_ms c =? 0 then (measured, measured / 2)
    else
      let delta := if srtt_ms c <? measured then measured - srtt_ms c else srtt_ms c - measured in
      (u32 (u32 (7 * srtt_ms c) + measured) / 8, u32 (u32 (3 * rttvar_ms c) + delta) / 4) in
  rto ← clamp (u32 (srtt + Z.max (u32 (4 * rttvar)) 1)) (rto_min_ms cfg) (rto_max_ms cfg);
  Some (mkCongestion (cwnd c) (ssthresh c) (cc_state c) (dup_ack_count c) (bytes_in_flight c) measured srtt rttvar rto).

Definition can_send (bytes : Z) (c : CongestionControl) : bool := u32 (bytes_in_flight c + bytes) <=? cwnd c.

(** ** Selective acknowledgement *)

Record SackBlock := mkSack { sack_left : Z; sack_right : Z }.
Record SackState := mkSackState { blocks : list SackBlock; max_blocks : nat }.

Definition sack_new (max : nat) : SackState := mkSackState [] max.

(** [sort_by_key(|b| b.left)], which is stable. *)
Fixpoint insert_block (b : SackBlock) (l : list SackBlock) : list SackBlock :=
  match l with
  | [] => [b]
  | b' :: l' => if sack_left b <=? sack_left b' then b :: l else b' :: insert_block b l'
  end.
Definition sort_blocks (l : list SackBlock) : list SackBlock := foldr insert_block [] l.

Definition inside (left right : Z) (b : SackBlock) : bool := (left <=? sack_left b) && (sack_right b <=? right).

Definition add_block (left right : Z) (s : SackState) : SackState :=
  let l := filter (λ b, inside left right b = false) (blocks s) ++ [mkSack left right] in
  let l := if decide (max_blocks s < length l)%nat then tail l else l in
  mkSackState (sort_blocks l) (max_blocks s).

Definition is_sacked (seq : Z) (s : SackState) : bool := existsb (λ b, (sack_left b <=? seq) && (seq <? sack_right b)) (blocks s).

Definition OPT_END : Z := 0.
Definition OPT_NOP : Z := 1.
Definition OPT_MSS : Z := 2.
Definition OPT_WINDOW_SCALE : Z := 3.
Definition OPT_SACK_PERMITTED : Z := 4.
Definition OPT_SACK : Z := 5.
Definition OPT_TIMESTAMP : Z := 8.

Definition sack_bytes (b : SackBlock) : list Z := to_be_bytes 4 (sack_left b) ++ to_be_bytes 4 (sack_right b).

Definition sack_encode (s : SackState) : list Z :=
  match blocks s with
  | [] => []
  | bs => [OPT_SACK] ++ [u8 (Z.of_nat (2 + length bs * 8))] ++ concat (sack_bytes <$> bs)
  end.

(** ** Nagle's algorithm *)

Record NagleBuffer := mkNagle { nagle_data : list Z; nagle_mss : Z; has_unacked : bool }.

Definition nagle_new (mss : Z) : NagleBuffer := mkNagle [] mss false.
Definition nagle_push (data : list Z) (b : NagleBuffer) : NagleBuffer := mkNagle (nagle_data b ++ data) (nagle_mss b) (has_unacked b).
Definition should_send (b : NagleBuffer) : bool := (nagle_mss b <=? Z.of_nat (length (nagle_data b))) || negb (has_unacked b).
Definition nagle_take (b : NagleBuffer) : NagleBuffer * list Z :=
  let len := Z.to_nat (nagle_mss b) in
  (mkNagle (drop len (nagle_data b)) (nagle_mss b) true, take len (nagle_data b)).
Definition nagle_on_ack (b : NagleBuffer) : NagleBuffer := mkNagle (nagle_data b) (nagle_mss b) false.
Definition pending (b : NagleBuffer) : nat := length (nagle_data b).

(** ** Options *)

Record TcpOptions := mkOptions {
  opt_mss : option Z; opt_window_scale : option Z; sack_permitted : bool; sack_blocks : list SackBlock;
  timestamp : option Z; timestamp_echo : option Z
}.

Definition options_default : TcpOptions := mkOptions None None false [] None None.

(** [while j + 8 <= i + len]: the blocks of the next [n] bytes from [j]. *)
Fixpoint read_blocks (fuel : nat) (data : list Z) (j stop : nat) : list SackBlock :=
  match fuel with
  | O => []
  | S fuel =>
      if decide (j + 8 ≤ stop)%nat then mkSack (u32_at data j) (u32_at data (j + 4)) :: read_blocks fuel data (j + 8) stop
      else []
  end.

(** One round of the loop at [i]: the next [i], or the end. *)
Definition option_step (data : list Z) (i : nat) (o : TcpOptions) : option (nat * TcpOptions) :=
  let n := length data in
  let kind := u8_at data i in
  if kind =? OPT_END then None
  else if kind =? OPT_NOP then Some (S i, o)
  else if (kind =? OPT_MSS) && bool_decide (i + 4 ≤ n)%nat then
    Some (i + 4, mkOptions (Some (u16_at data (i + 2))) (opt_window_scale o) (sack_permitted o) (sack_blocks o) (timestamp o) (timestamp_echo o))%nat
  else if (kind =? OPT_WINDOW_SCALE) && bool_decide (i + 3 ≤ n)%nat then
    Some (i + 3, mkOptions (opt_mss o) (Some (u8_at data (i + 2))) (sack_permitted o) (sack_blocks o) (timestamp o) (timestamp_echo o))%nat
  else if (kind =? OPT_SACK_PERMITTED) && bool_decide (i + 2 ≤ n)%nat then
    Some (i + 2, mkOptions (opt_mss o) (opt_window_scale o) true (sack_blocks o) (timestamp o) (timestamp_echo o))%nat
  else if (kind =? OPT_SACK) && bool_decide (i + 2 ≤ n)%nat then
    let len := Z.to_nat (u8_at data (i + 1)) in
    Some (i + len,
          if decide (i + len ≤ n)%nat
          then mkOptions (opt_mss o) (opt_window_scale o) (sack_permitted o) (read_blocks len data (i + 2) (i + len)) (timestamp o) (timestamp_echo o)
          else o)%nat
  else if (kind =? OPT_TIMESTAMP) && bool_decide (i + 10 ≤ n)%nat then
    Some (i + 10, mkOptions (opt_mss o) (opt_window_scale o) (sack_permitted o) (sack_blocks o)
                    (Some (u32_at data (i + 2))) (Some (u32_at data (i + 6))))%nat
  else if decide (i + 1 < n)%nat then
    if 0 <? u8_at data (i + 1) then Some (i + Z.to_nat (u8_at data (i + 1)), o)%nat else None
  else None.

(** [while i < data.len()]; [None] when [fuel] rounds do not finish it. *)
Fixpoint options_loop (fuel : nat) (data : list Z) (i : nat) (o : TcpOptions) : option TcpOptions :=
  match fuel with
  | O => None
  | S fuel =>
      if decide (i < length data)%nat then
        match option_step data i o with
        | None => Some o
        | Some (i', o') => options_loop fuel data i' o'
        end
      else Some o
  end.

Definition parse_tcp_options (data : list Z) : option TcpOptions := options_loop (S (length data)) data 0 options_default.

(** [while opts.len() % 4 != 0 { opts.push(NOP) }]. *)
Definition pad_nops (opts : list Z) : list Z := opts ++ replicate ((4 - length opts mod 4) mod 4) OPT_NOP.

Definition build_syn_options (c : TcpConfig) : list Z :=
  pad_nops ([OPT_MSS; 4] ++ to_be_bytes 2 (cfg_mss c)
    ++ (if window_scaling c then [OPT_NOP; OPT_WINDOW_SCALE; 3; cfg_window_scale c] else [])
    ++ (if sack_enabled c then [OPT_NOP; OPT_NOP; OPT_SACK_PERMITTED; 2] else [])).

(** ** The loop over the options *)

(** A round moves on, except over a SACK option of length zero. *)
Lemma option_step_moves data i o i' o' : Forall is_byte data → option_step data i o = Some (i', o') →
  (i < i')%nat ∨ (i' = i ∧ o' = o ∧ u8_at data i = OPT_SACK ∧ u8_at data (i + 1) = 0 ∧ (i + 2 ≤ length data)%nat) ∨
  (i' = i ∧ u8_at data i = OPT_SACK ∧ u8_at data (i + 1) = 0).
Proof.
  intros Hb. unfold option_step. pose proof (u8_at_byte data (i + 1) Hb) as [Hlo Hhi].
  repeat case_match; try discriminate; intros [= <- <-]; try (left; lia).
  all: match goal with H : _ && _ = true |- _ => apply andb_true_iff in H as [Hk%Z.eqb_eq Hn%bool_decide_eq_true] end.
  all: destruct (decide (u8_at data (i + 1) = 0)) as [E|E]; [|left; lia].
  all: right; right; split; [rewrite E; lia|done].
Qed.

(** Over such an option a round is a step in place, whatever was read so far. *)
Lemma option_step_stuck data i o : u8_at data i = OPT_SACK → u8_at data (i + 1) = 0 → (i + 2 ≤ length data)%nat →
  ∃ o', option_step data i o = Some (i, o').
Proof.
  intros Hk H0 Hn. unfold option_step. rewrite Hk, H0. cbn [Z.eqb OPT_SACK OPT_END OPT_NOP OPT_MSS OPT_WINDOW_SCALE OPT_SACK_PERMITTED Pos.eqb andb].
  rewrite bool_decide_eq_true_2 by done. rewrite Nat.add_0_r. by eexists.
Qed.

Lemma stuck_forever data i : u8_at data i = OPT_SACK → u8_at data (i + 1) = 0 → (i + 2 ≤ length data)%nat →
  ∀ fuel o, options_loop fuel data i o = None.
Proof.
  intros Hk H0 Hn fuel. induction fuel as [|fuel IH]; intros o; [done|]. cbn [options_loop].
  rewrite decide_True by lia. destruct (option_step_stuck data i o Hk H0 Hn) as [o' ->]. apply IH.
Qed.

(** A place the loop may reach where it stays. *)
Definition zero_sack (data : list Z) (i : nat) : Prop :=
  u8_at data i = OPT_SACK ∧ u8_at data (i + 1) = 0 ∧ (i + 2 ≤ length data)%nat.

Lemma step_in_place data i o o' : option_step data i o = Some (i, o') → Forall is_byte data → zero_sack data i.
Proof.
  unfold option_step, zero_sack. intros Hs Hb. pose proof (u8_at_byte data (i + 1) Hb) as [Hlo Hhi]. revert Hs.
  repeat case_match; try discriminate; intros [= He]; try lia.
  all: match goal with H : _ && _ = true |- _ => apply andb_true_iff in H as [Hk%Z.eqb_eq Hn%bool_decide_eq_true] end.
  all: split_and!; [done|lia|done].
Qed.

(** The option parser returns within one round per byte, whatever the bytes, unless it
    comes to a SACK option of length zero: there it stays for ever, and that is the only
    way it does not return. *)
Theorem options_return data : Forall is_byte data →
  (∃ o, parse_tcp_options data = Some o) ∨
  (∃ i, zero_sack data i ∧ ∀ fuel, options_loop fuel data 0 options_default = None).
Proof.
  intros Hb. unfold parse_tcp_options.
  assert (∀ fuel i o, (length data - i < fuel)%nat →
    (∃ r, options_loop fuel data i o = Some r) ∨ (∃ j, zero_sack data j ∧ ∀ fuel', options_loop fuel' data i o = None)) as Hall.
  { induction fuel as [|fuel IH]; intros i o Hf; [lia|]. cbn [options_loop].
    destruct (decide (i < length data)%nat) as [Hi|]; [|left; by eexists].
    destruct (option_step data i o) as [[i' o']|] eqn:E; [|left; by eexists].
    destruct (decide (i' = i)) as [->|Hne].
    - right. exists i. pose proof (step_in_place data i o o' E Hb) as Hz. split; [done|]. intros fuel'.
      by apply stuck_forever; destruct Hz as (? & ? & ?).
    - assert (i < i')%nat by (destruct (option_step_moves data i o i' o' Hb E) as [?|[(? & _)|(? & _)]]; [done|congruence..]).
      destruct (IH i' o') as [[r Hr]|(j & Hz & Hn)]; [lia|left; by exists r|]. right. exists j. split; [done|].
      intros [|fuel']; [done|]. cbn [options_loop]. rewrite decide_True by done. rewrite E. apply Hn. }
  by apply Hall; lia.
Qed.

Lemma options_return_witness : (∃ o, parse_tcp_options [2; 4; 5; 180; 1; 0] = Some o) ∨
  (∃ i, zero_sack [2; 4; 5; 180; 1; 0] i ∧ ∀ fuel, options_loop fuel [2; 4; 5; 180; 1; 0] 0 options_default = None).
Proof. apply options_return. repeat (apply Forall_cons; split; [by split|]); by apply Forall_nil. Defined.

Lemma zero_sack_hangs fuel : options_loop fuel [5; 0] 0 options_default = None.
Proof. apply stuck_forever; [done|done|simpl; lia]. Qed.

(** ** Round trips *)

(** The options of a SYN are read back as configured. *)
Lemma syn_options_roundtrip c : is_word 16 (cfg_mss c) →
  parse_tcp_options (build_syn_options c) =
    Some (mkOptions (Some (cfg_mss c)) (if window_scaling c then Some (cfg_window_scale c) else None) (sack_enabled c) [] None None) ∧
  (length (build_syn_options c) mod 4 = 0)%nat.
Proof.
  intros Hm. destruct c as [ne ws sc se te mss ic st fr rmin rmax]. cbn [cfg_mss window_scaling cfg_window_scale sack_enabled] in *.
  assert (∀ o, Some (mkOptions (Some (from_be_bytes (to_be_bytes 2 mss))) (if ws then Some sc else None) se [] None None) = o →
    Some (mkOptions (Some mss) (if ws then Some sc else None) se [] None None) = o) as Hback by (intros o; by rewrite be16_back).
  split; [symmetry; apply Hback; destruct ws, se; reflexivity|destruct ws, se; reflexivity].
Qed.

Definition block_ok (b : SackBlock) : Prop := is_word 32 (sack_left b) ∧ is_word 32 (sack_right b).

Lemma length_sack_bytes b : length (sack_bytes b) = 8%nat.
Proof. unfold sack_bytes. by rewrite length_app, !length_to_be_bytes. Qed.

Lemma length_sack_concat bs : length (concat (sack_bytes <$> bs)) = (length bs * 8)%nat.
Proof. induction bs as [|b bs IH]; [done|]. rewrite fmap_cons. cbn [concat]. rewrite length_app, length_sack_bytes, IH. simpl. lia. Qed.

Lemma u32_at_skip x rest off : (length x ≤ off)%nat → u32_at (x ++ rest) off = u32_at rest (off - length x).
Proof. intros H. unfold u32_at. by rewrite sub_skip. Qed.

Lemma read_blocks_back bs : ∀ pre fuel, Forall block_ok bs → (length bs < fuel)%nat →
  read_blocks fuel (pre ++ concat (sack_bytes <$> bs)) (length pre) (length pre + length bs * 8) = bs.
Proof.
  induction bs as [|b bs IH]; intros pre fuel Hok Hf; (destruct fuel as [|fuel]; [simpl in Hf; lia|]); cbn [read_blocks].
  - by rewrite decide_False by (simpl; lia).
  - apply Forall_cons in Hok as [[Hl Hr] Hok]. rewrite decide_True by (simpl; lia). rewrite fmap_cons. cbn [concat].
    f_equal.
    + destruct b as [l r]. cbn [sack_left sack_right] in *. rewrite !(u32_at_skip pre) by lia.
      rewrite Nat.sub_diag. replace (length pre + 4 - length pre)%nat with 4%nat by lia. unfold sack_bytes. cbn [sack_left sack_right].
      rewrite <-app_assoc. f_equal.
      * unfold u32_at. rewrite sub_here by apply length_to_be_bytes. by apply from_to_be_bytes.
      * rewrite (u32_at_skip (to_be_bytes 4 l)) by (rewrite length_to_be_bytes; lia). rewrite length_to_be_bytes.
        unfold u32_at. rewrite sub_here by apply length_to_be_bytes. by apply from_to_be_bytes.
    + specialize (IH (pre ++ sack_bytes b) fuel Hok ltac:(simpl in Hf; lia)).
      rewrite length_app, length_sack_bytes, <-app_assoc in IH. cbn [length].
      replace (length pre + S (length bs) * 8)%nat with (length pre + 8 + length bs * 8)%nat by lia. done.
Qed.

(** SACK blocks (at most 31, so that the length fits its byte) come back in order. *)
Lemma sack_roundtrip s : Forall block_ok (blocks s) → blocks s ≠ [] → (length (blocks s) ≤ 31)%nat →
  parse_tcp_options (sack_encode s) = Some (mkOptions None None false (blocks s) None None).
Proof.
  intros Hok Hne Hl. unfold sack_encode. destruct (blocks s) as [|b bs] eqn:E; [done|]. rewrite <-E in *. clear E.
  set (l := blocks s) in *. set (data := [OPT_SACK] ++ [u8 (Z.of_nat (2 + length l * 8))] ++ concat (sack_bytes <$> l)).
  assert (length data = 2 + length l * 8)%nat as Hd by (unfold data; cbn [app length]; by rewrite length_sack_concat).
  assert (0 < length l)%nat by (destruct l; [done|simpl; lia]).
  assert (u8_at data 1 = Z.of_nat (2 + length l * 8)) as H1.
  { unfold data. change (u8_at _ 1) with (u8 (Z.of_nat (2 + length l * 8))). unfold u8. apply wrap_small. split; lia. }
  unfold parse_tcp_options. rewrite Hd. cbn [options_loop]. rewrite decide_True by lia.
  assert (option_step data 0 options_default = Some (length data, mkOptions None None false l None None)) as ->.
  { unfold option_step. change (u8_at data 0) with OPT_SACK.
    cbn [Z.eqb OPT_SACK OPT_END OPT_NOP OPT_MSS OPT_WINDOW_SCALE OPT_SACK_PERMITTED Pos.eqb andb].
    rewrite bool_decide_eq_true_2 by lia. cbn [Nat.add]. rewrite H1, Nat2Z.id. rewrite decide_True by lia. rewrite Hd.
    pose proof (read_blocks_back l [OPT_SACK; u8 (Z.of_nat (2 + length l * 8))] (2 + length l * 8) Hok ltac:(lia)) as Hr.
    cbn [length app Nat.add] in Hr. unfold data. cbn [app]. do 2 f_equal. cbn [Nat.add].
    by rewrite Hr. }
  assert (∃ f, (length l * 8 = S f)%nat) as [f Hf] by (exists (length l * 8 - 1)%nat; lia). rewrite Hf. cbn [Nat.add options_loop].
  by rewrite decide_False by lia.
Qed.

(** ** Histories of blocks *)

Definition left_le (a b : SackBlock) : Prop := sack_left a ≤ sack_left b.

Lemma insert_block_perm b l : insert_block b l ≡ₚ b :: l.
Proof.
  induction l as [|b' l IH]; [done|]. cbn [insert_block]. destruct (_ <=? _); [done|]. rewrite IH. apply Permutation_swap.
Qed.

Lemma sort_blocks_perm l : sort_blocks l ≡ₚ l.
Proof. induction l as [|b l IH]; [done|]. cbn [sort_blocks foldr]. rewrite insert_block_perm. by constructor. Qed.

Lemma insert_block_sorted b l : StronglySorted left_le l → StronglySorted left_le (insert_block b l).
Proof.
  induction 1 as [|b' l Hs IH Hf]; cbn [insert_block]; [by repeat constructor|].
  destruct (Z.leb_spec (sack_left b) (sack_left b')) as [H|H].
  - constructor; [by constructor|]. constructor; [done|]. eapply Forall_impl; [exact Hf|]. unfold left_le. lia.
  - constructor; [done|]. rewrite insert_block_perm. constructor; [unfold left_le; lia|done].
Qed.

Lemma sort_blocks_sorted l : StronglySorted left_le (sort_blocks l).
Proof. induction l as [|b l IH]; [constructor|]. by apply insert_block_sorted. Qed.

Lemma is_sacked_true seq s : is_sacked seq s = true ↔ ∃ b, b ∈ blocks s ∧ sack_left b ≤ seq < sack_right b.
Proof.
  unfold is_sacked. rewrite existsb_exists. split; intros (b & Hb & H); exists b.
  - apply list_elem_of_In in Hb. split; [done|lia].
  - apply list_elem_of_In in Hb. split; [done|lia].
Qed.

Definition add_all (adds : list (Z * Z)) (s : SackState) : SackState := foldl (λ s p, add_block p.1 p.2 s) s adds.

(** Over any history of blocks added to an empty state of at least one slot: the blocks are
    sorted by their left edge and fit; what is reported as received lies in a block that was
    added; and the block added last is reported whole. (Nothing more: a block that does not
    fit pushes out the one with the lowest left edge, whatever its age.) *)
Lemma sack_history adds max : (0 < max)%nat →
  let s := add_all adds (sack_new max) in
  StronglySorted left_le (blocks s) ∧ (length (blocks s) ≤ max)%nat ∧
  (∀ seq, is_sacked seq s = true → ∃ l r, (l, r) ∈ adds ∧ l ≤ seq < r) ∧
  (∀ l r seq, last adds = Some (l, r) → l ≤ seq < r → is_sacked seq s = true).
Proof.
  intros Hm. cbv zeta. induction adds as [|[l r] adds IH] using rev_ind.
  { cbn. split; [constructor|]. split; [lia|]. split; [done|]. done. }
  unfold add_all. rewrite foldl_app. cbn [foldl fst snd]. fold (add_all adds (sack_new max)).
  set (s := add_all adds (sack_new max)) in *. destruct IH as (_ & Hlen & Hsound & _).
  assert (max_blocks s = max) as Hmax.
  { clear. subst s. unfold add_all. assert (∀ s, max_blocks (foldl (λ s p, add_block p.1 p.2 s) s adds) = max_blocks s) as Hk; [|apply Hk].
    induction adds as [|p adds IH]; intros s; [done|]. cbn [foldl]. by rewrite IH. }
  set (kept := filter (λ b, inside l r b = false) (blocks s)).
  assert (length kept ≤ max)%nat as Hkept by (transitivity (length (blocks s)); [apply length_filter|done]).
  assert (∃ front, blocks (add_block l r s) ≡ₚ front ++ [mkSack l r] ∧ (length front < max)%nat ∧ ∀ b, b ∈ front → b ∈ blocks s)
    as (front & Hp & Hfl & Hfront).
  { unfold add_block. cbn [blocks]. fold kept. rewrite Hmax. case_decide as Hd.
    - exists (tail kept). rewrite sort_blocks_perm. destruct kept as [|b kept'] eqn:E; [cbn in Hd; lia|].
      split; [done|]. split; [cbn in *; lia|]. intros b' Hb'. assert (b' ∈ kept) as Hin by (rewrite E; by constructor).
      apply list_elem_of_filter in Hin. tauto.
    - exists kept. rewrite sort_blocks_perm. split; [done|]. rewrite length_app in Hd. split; [cbn in Hd; lia|].
      intros b' Hin. apply list_elem_of_filter in Hin. tauto. }
  split; [apply sort_blocks_sorted|]. split; [rewrite Hp, length_app; cbn; lia|]. split.
  - intros seq. rewrite is_sacked_true. intros (b & Hb & Hr). rewrite Hp, elem_of_app, list_elem_of_singleton in Hb.
    destruct Hb as [Hb| ->].
    + destruct (Hsound seq) as (l' & r' & Hin & Hr'); [apply is_sacked_true; exists b; split; [by apply Hfront|done]|].
      exists l', r'. split; [apply elem_of_app; by left|done].
    + exists l, r. split; [apply elem_of_app; right; by constructor|done].
  - intros l' r' seq. rewrite last_snoc. intros [= <- <-] Hr. apply is_sacked_true. exists (mkSack l r).
    split; [|done]. rewrite Hp, elem_of_app. right. by constructor.
Qed.

(** Overlapping blocks are not merged, and a full state forgets the oldest edge, not the
    oldest block. *)
Lemma overlap_not_merged : blocks (add_all [(0, 10); (5, 15)] (sack_new 4)) = [mkSack 0 10; mkSack 5 15].
Proof. reflexivity. Qed.
Lemma newest_forgotten : blocks (add_all [(20, 30); (40, 50); (0, 10); (60, 70)] (sack_new 3)) = [mkSack 20 30; mkSack 40 50; mkSack 60 70].
Proof. reflexivity. Qed.

(** ** Nagle's buffer keeps the stream *)

Inductive nagle_call := NPush (data : list Z) | NTake | NAck.

Definition nagle_step (c : nagle_call) (p : NagleBuffer * (list Z * list (list Z))) : NagleBuffer * (list Z * list (list Z)) :=
  let '(b, (pushed, out)) := p in
  match c with
  | NPush d => (nagle_push d b, (pushed ++ d, out))
  | NTake => let '(b, s) := nagle_take b in (b, (pushed, out ++ [s]))
  | NAck => (nagle_on_ack b, (pushed, out))
  end.

(** Over any history the segments taken, in order, followed by what is pending are the bytes
    pushed, and no segment is longer than the maximum. *)
Lemma nagle_stream calls mss : 0 ≤ mss →
  let '(b, (pushed, out)) := run_ops nagle_step calls (nagle_new mss, ([], [])) in
  concat out ++ nagle_data b = pushed ∧ Forall (λ s, Z.of_nat (length s) ≤ mss) out.
Proof.
  intros Hm.
  pose proof (run_ops_invariant nagle_step (λ p, nagle_mss p.1 = mss ∧ concat p.2.2 ++ nagle_data p.1 = p.2.1 ∧
    Forall (λ s, Z.of_nat (length s) ≤ mss) p.2.2)) as Hinv.
  assert (∀ p, nagle_mss p.1 = mss ∧ concat p.2.2 ++ nagle_data p.1 = p.2.1 ∧ Forall (λ s, Z.of_nat (length s) ≤ mss) p.2.2 →
    let '(b, (pushed, out)) := p in concat out ++ nagle_data b = pushed ∧ Forall (λ s, Z.of_nat (length s) ≤ mss) out) as Hout
    by (intros [b [pushed out]] (_ & ? & ?); done).
  apply Hout, Hinv; [|by split_and!].
  - intros c [b [pushed out]] (H1 & H2 & H3). destruct c as [d| |]; cbn in *; split_and!; try done.
    + by rewrite app_assoc, H2.
    + rewrite concat_app. cbn. by rewrite app_nil_r, <-app_assoc, take_drop.
    + apply Forall_app. split; [done|]. apply Forall_singleton. rewrite length_take. lia.
Qed.

(** An empty buffer with nothing unacknowledged is to be sent. *)
Lemma sends_nothing mss : should_send (nagle_new mss) = true ∧ (nagle_take (nagle_new mss)).2 = [].
Proof. unfold should_send, nagle_new. cbn. rewrite orb_true_r. split; [done|]. by rewrite take_nil. Qed.

(** ** Congestion *)

(** The third duplicate acknowledgement, and no other up to the 255th, asks for a
    retransmission: it halves the window and enters fast recovery. *)
Lemma fast_retransmit_third k mss c : (0 < k < 256)%nat → dup_ack_count c = 0 → cc_state c ≠ FastRecovery →
  (on_duplicate_ack mss (Nat.iter (k - 1) (λ c, (on_duplicate_ack mss c).1) c)).2 = bool_decide (k = 3%nat).
Proof.
  intros Hk H0 Hs.
  assert (∀ j, (j < 256)%nat → let c' := Nat.iter j (λ c, (on_duplicate_ack mss c).1) c in
    dup_ack_count c' = Z.of_nat j ∧ (cc_state c' = FastRecovery ↔ (3 ≤ j)%nat)) as Hall.
  { induction j as [|j IH]; intros Hj; cbv zeta; [cbn; split; [done|]; split; [done|lia]|]. rewrite Nat.iter_succ.
    destruct IH as [Hc Hst]; [lia|]. set (c' := Nat.iter j _ c) in *. unfold on_duplicate_ack. rewrite Hc.
    assert (u8 (Z.of_nat j + 1) = Z.of_nat (S j)) as -> by (unfold u8; rewrite wrap_small; [lia|split; lia]).
    case_decide as H1; [cbn; split; [done|]; split; [lia|done]|]. case_decide as H2; cbn; (split; [done|]).
    - split; [|done]. intros _. apply Hst in H2. lia.
    - split; [done|]. intros H3. exfalso. destruct (decide (j = 2)%nat) as [->|]; [apply H1; split; [done|tauto]|].
      apply H2, Hst. lia. }
  destruct (Hall (k - 1)%nat ltac:(lia)) as [Hc Hst]. set (c' := Nat.iter (k - 1) _ c) in *. unfold on_duplicate_ack. rewrite Hc.
  assert (u8 (Z.of_nat (k - 1) + 1) = Z.of_nat k) as -> by (unfold u8; rewrite wrap_small; [lia|split; lia]).
  case_decide as H1.
  - destruct H1 as [H1 _]. by rewrite bool_decide_eq_true_2 by lia.
  - rewrite bool_decide_eq_false_2; [by case_decide|]. intros ->. apply H1. split; [done|]. rewrite Hst. lia.
Qed.

(** The retransmission timeout stays in the configured range; a range the wrong way round
    panics. *)
Lemma rto_bounds measured cfg c : rto_min_ms cfg ≤ rto_max_ms cfg →
  ∃ c', update_rtt measured cfg c = Some c' ∧ rto_min_ms cfg ≤ rto_ms c' ≤ rto_max_ms cfg ∧ rtt_ms c' = measured.
Proof.
  intros Hr. unfold update_rtt. destruct (if srtt_ms c =? 0 then _ else _) as [srtt rttvar]. unfold clamp.
  destruct (Z.ltb_spec (rto_max_ms cfg) (rto_min_ms cfg)); [lia|]. eexists. split; [reflexivity|]. cbn. lia.
Qed.

(** A timeout always leaves a threshold of at least two segments and a window of one. *)
Lemma timeout_restarts mss c : 0 ≤ mss < 65536 →
  let c' := on_timeout mss c in cwnd c' = mss ∧ 2 * mss ≤ ssthresh c' ∧ cc_state c' = SlowStart ∧ dup_ack_count c' = 0.
Proof.
  intros Hm. cbn. split; [done|]. split; [|done]. unfold u32. rewrite (wrap_small 32) by (split; lia). lia.
Qed.

(** In slow start an acknowledgement adds a segment to the window, until the threshold. *)
Lemma slow_start_grows acked mss c : cc_state c = SlowStart → 0 ≤ cwnd c → 0 ≤ mss → cwnd c + mss < 2 ^ 32 →
  let c' := on_ack acked mss c in
  cwnd c' = cwnd c + mss ∧ (cc_state c' = SlowStart ↔ cwnd c' < ssthresh c) ∧ bytes_in_flight c' = sat_sub (bytes_in_flight c) acked.
Proof.
  intros Hs H1 H2 H3. unfold on_ack. cbn [cc_state]. rewrite Hs. cbn [cwnd ssthresh].
  unfold u32. rewrite wrap_small by (split; lia). split; [done|]. cbn. split; [|done].
  destruct (Z.leb_spec (ssthresh c) (cwnd c + mss)); split; (lia || done).
Qed.
