(* ===== verification/NetStack.v ===== *)
(** * NetStack: interfaces, dispatch and the TCP calls
    ([kernel/src/net/mod.rs], [LoopbackDevice] of [device.rs], the public functions of
    [tcp.rs])

    An interface sends and receives frames through a device, answers ARP and ping, and
    hands datagrams and segments to the transport layers. The device is an interface of its
    own (a class); what the model knows of it is that only finitely many frames are still
    to come ([DeviceLaws]). Resolving an address polls for its answer, and what is polled
    may be a ping whose answer resolves another address: the recursion is that of the code,
    with a bound on its depth. *)

From Stdlib Require Import ZArith Lia.
From stdpp Require Import list gmap.
From S2P Require Import Prelude.
From S2P Require Import Ids.
From S2P Require Import Bytes.
From S2P Require Import Packets.
From S2P Require Import Udp.
From S2P Require Import Tcp.

Local Open Scope res_scope.

(** ** Devices *)

(** [None] of [dev_receive] is any error. [dev_left] bounds the frames still to come. *)
Class NetworkDevice (D : Type) := {
  dev_send : list Z → D → D * Result () NetworkError;
  dev_receive : D → D * option (list Z);
  dev_left : D → nat
}.

Class DeviceLaws (D : Type) `{NetworkDevice D} := {
  send_left bytes d : (dev_left (dev_send bytes d).1 ≤ dev_left d)%nat;
  receive_left d d' : dev_receive d = (d', None) → (dev_left d' ≤ dev_left d)%nat;
  receive_less d d' data : dev_receive d = (d', Some data) → (dev_left d' < dev_left d)%nat
}.

(** A device that delivers given batches of frames, one batch per poll, and keeps what is
    sent. *)
Record Script := mkScript { batches : list (list (list Z)); sent : list (list Z) }.

#[export] Instance script_device : NetworkDevice Script := {
  dev_send bytes d := (mkScript (batches d) (sent d ++ [bytes]), Ok ());
  dev_receive d :=
    match batches d with
    | [] => (d, None)
    | [] :: bs => (mkScript bs (sent d), None)
    | (data :: b) :: bs => (mkScript (b :: bs) (sent d), Some data)
    end;
  dev_left d := length (concat (batches d))
}.

#[export] Instance script_laws : DeviceLaws Script.
Proof.
  split.
  - done.
  - intros [[|[|data b] bs] out] d'; cbn; intros [= <-]; cbn; lia.
  - intros [[|[|data' b] bs] out] d' data; cbn; intros [= <- <-]. cbn. lia.
Qed.

(** [LoopbackDevice]: what is sent is received. It keeps no bound on what is to come. *)
Record LoopbackDevice := mkLoopback { lo_queue : list (list Z) }.
Definition loopback_new : LoopbackDevice := mkLoopback [].
#[export] Instance loopback_device : NetworkDevice LoopbackDevice := {
  dev_send data d := (mkLoopback (lo_queue d ++ [data]), Ok ());
  dev_receive d := match lo_queue d with [] => (d, None) | data :: q => (mkLoopback q, Some data) end;
  dev_left d := length (lo_queue d)
}.

(** ** Interfaces *)

Record InterfaceConfig := mkConfig {
  cfg_mac : MacAddress; ipv4_addr : Ipv4Address; subnet_mask : Ipv4Address; gateway : option Ipv4Address; mtu : Z
}.

Definition config_default : InterfaceConfig :=
  mkConfig MAC_ZERO [10; 0; 2; 15] [255; 255; 255; 0] (Some [10; 0; 2; 2]) 1500.

(** Why a poll does not return. *)
Inductive Stopped := Panicked | TooDeep.
Abbreviation R A := (Result A Stopped).

(** An iteration whose body may stop. *)
Definition fold_r {A W} (f : A → W → R W) (l : list A) (w : W) : R W :=
  foldl (λ r a, res_bind r (f a)) (Ok w) l.

Section interface.
Context {D : Type} `{NetworkDevice D}.

(** The value of the [n]-th reading of [get_ticks]. *)
Variable get_ticks : nat → Z.

(** One interface and the global tables its frames reach. *)
Record World := mkWorld {
  config : InterfaceConfig; device : D; arp_cache : ArpCache; udp : UdpState; tcp : TcpState; tick_reads : nat
}.

Definition set_device (d : D) (w : World) : World := mkWorld (config w) d (arp_cache w) (udp w) (tcp w) (tick_reads w).
Definition set_udp (u : UdpState) (w : World) : World := mkWorld (config w) (device w) (arp_cache w) u (tcp w) (tick_reads w).
Definition set_tcp (t : TcpState) (w : World) : World := mkWorld (config w) (device w) (arp_cache w) (udp w) t (tick_reads w).

Definition send_ethernet (f : EthernetFrame) (w : World) : World * Result () NetworkError :=
  let '(d, r) := dev_send (eth_to_bytes f) (device w) in (set_device d w, r).

(** [while let Ok(data) = device.receive()]; frames that do not parse are dropped. *)
Fixpoint receive_loop (fuel : nat) (d : D) : D * list EthernetFrame :=
  match fuel with
  | O => (d, [])
  | S fuel =>
      match dev_receive d with
      | (d, None) => (d, [])
      | (d, Some data) => let '(d, fs) := receive_loop fuel d in (d, option_list (eth_parse data) ++ fs)
      end
  end.

Definition receive_ethernet (w : World) : World * list EthernetFrame :=
  let '(d, fs) := receive_loop (S (dev_left (device w))) (device w) in (set_device d w, fs).

Definition is_local (w : World) (ip : Ipv4Address) : bool :=
  let mask := from_be_bytes (subnet_mask (config w)) in
  Z.land (from_be_bytes (ipv4_addr (config w))) mask =? Z.land (from_be_bytes ip) mask.

(** [arp_cache.insert], which reads the clock. *)
Definition learn (ip : Ipv4Address) (mac : MacAddress) (w : World) : World :=
  mkWorld (config w) (device w) (arp_insert (get_ticks (tick_reads w)) ip mac (arp_cache w)) (udp w) (tcp w) (S (tick_reads w)).

Definition handle_arp (p : ArpPacket) (w : World) : World :=
  let w := learn (sender_ip p) (sender_mac p) w in
  if (operation p =? ARP_REQUEST) && bool_decide (target_ip p = ipv4_addr (config w)) then
    let reply := arp_reply (cfg_mac (config w)) (ipv4_addr (config w)) (sender_mac p) (sender_ip p) in
    (send_ethernet (mkFrame (sender_mac p) (cfg_mac (config w)) ETHERTYPE_ARP (arp_to_bytes reply)) w).1
  else w.

(** The functions below poll again through [poll]. *)
Section polling.
Variable poll : World → R World.

(** [for _attempt in 0..n]: poll, then look. *)
Fixpoint await_arp (n : nat) (ip : Ipv4Address) (w : World) : R (World * Result MacAddress NetworkError) :=
  match n with
  | O => Ok (w, Err ArpTimeout)
  | S n =>
      (let? w := poll w in
       match arp_lookup ip (arp_cache w) with
       | Some mac => Ok (w, Ok mac)
       | None => await_arp n ip w
       end)
  end.

Definition resolve_arp (ip : Ipv4Address) (w : World) : R (World * Result MacAddress NetworkError) :=
  match arp_lookup ip (arp_cache w) with
  | Some mac => Ok (w, Ok mac)
  | None =>
      let request := arp_request (cfg_mac (config w)) (ipv4_addr (config w)) ip in
      match send_ethernet (mkFrame MAC_BROADCAST (cfg_mac (config w)) ETHERTYPE_ARP (arp_to_bytes request)) w with
      | (w, Err e) => Ok (w, Err e)
      | (w, Ok _) => await_arp 200 ip w
      end
  end.

Definition send_ipv4 (p : Ipv4Packet) (w : World) : R (World * Result () NetworkError) :=
  let next_hop := if is_local w (ip_dest p) then Some (ip_dest p) else gateway (config w) in
  match next_hop with
  | None => Ok (w, Err NoRoute)
  | Some hop =>
      (let? r := resolve_arp hop w in
       match r with
       | (w, Err e) => Ok (w, Err e)
       | (w, Ok dest) => Ok (send_ethernet (mkFrame dest (cfg_mac (config w)) ETHERTYPE_IPV4 (ip_to_bytes p)) w)
       end)
  end.

Definition handle_icmp (p : Ipv4Packet) (m : IcmpPacket) (w : World) : R World :=
  if icmp_type m =? ICMP_ECHO_REQUEST then
    let reply := icmp_echo_reply (icmp_identifier m) (icmp_sequence m) (icmp_data m) in
    (let? r := send_ipv4 (ip_new (ipv4_addr (config w)) (ip_src p) PROTOCOL_ICMP (icmp_to_bytes reply)) w in Ok r.1)
  else Ok w.

Definition handle_ipv4 (p : Ipv4Packet) (w : World) : R World :=
  if decide (ip_dest p ≠ ipv4_addr (config w)) then Ok w
  else if ip_protocol p =? PROTOCOL_ICMP then
    match icmp_parse (ip_payload p) with Some m => handle_icmp p m w | None => Ok w end
  else if ip_protocol p =? PROTOCOL_TCP then
    match tcp_handle_packet p (tcp w) with Some t => Ok (set_tcp t w) | None => Err Panicked end
  else if ip_protocol p =? PROTOCOL_UDP then
    match udp_handle_packet p (udp w) with Some u => Ok (set_udp u w) | None => Err Panicked end
  else Ok w.

Definition handle_frame (f : EthernetFrame) (w : World) : R World :=
  if ethertype f =? ETHERTYPE_ARP then
    match arp_parse (eth_payload f) with Some p => Ok (handle_arp p w) | None => Ok w end
  else if ethertype f =? ETHERTYPE_IPV4 then
    match ip_parse (eth_payload f) with Some p => handle_ipv4 p w | None => Ok w end
  else Ok w.

Definition poll_body (w : World) : R World :=
  let '(w, frames) := receive_ethernet w in fold_r handle_frame frames w.
End polling.

(** [poll], at most [depth] calls deep. *)
Fixpoint poll (depth : nat) (w : World) : R World :=
  match depth with
  | O => Err TooDeep
  | S depth => poll_body (poll depth) w
  end.
End interface.

Arguments World D : clear implicits.

(** ** The stack and the TCP calls *)

Section stack.
Context {D : Type} `{HD : NetworkDevice D}.
Variables (get_ticks : nat → Z) (depth : nat).

(** What one interface owns. *)
Record Interface := mkInterface { if_config : InterfaceConfig; if_device : D; if_arp : ArpCache }.

(** [NETWORK_STACK], [UDP_STATE], [TCP_STATE], [SOCKET_CONNECTIONS] and [NEXT_SOCKET_ID]. *)
Record NetworkStack := mkStack {
  interfaces : gmap Z Interface; next_id : Z; udp_state : UdpState; tcp_state : TcpState; reads : nat;
  socket_connections : gmap Z TcpConnectionKey; next_socket_id : Z
}.

Definition stack_new : NetworkStack := mkStack ∅ 0 udp_state_new tcp_state_new 0 ∅ 1.

Definition with_tcp (t : TcpState) (s : NetworkStack) : NetworkStack :=
  mkStack (interfaces s) (next_id s) (udp_state s) t (reads s) (socket_connections s) (next_socket_id s).
Definition with_sockets (m : gmap Z TcpConnectionKey) (s : NetworkStack) : NetworkStack :=
  mkStack (interfaces s) (next_id s) (udp_state s) (tcp_state s) (reads s) m (next_socket_id s).

Definition register_interface (c : InterfaceConfig) (d : D) (s : NetworkStack) : NetworkStack * Z :=
  (mkStack (<[next_id s := mkInterface c d arp_cache_new]> (interfaces s)) (u32 (next_id s + 1)) (udp_state s) (tcp_state s)
     (reads s) (socket_connections s) (next_socket_id s), next_id s).

Definition get_interface (id : Z) (s : NetworkStack) : option Interface := interfaces s !! id.
Definition primary_interface (s : NetworkStack) : option Z := head (btree_keys (interfaces s)).

(** Works on the interface [id] with the tables of the stack. *)
Definition focus (i : Interface) (s : NetworkStack) : World D :=
  mkWorld (if_config i) (if_device i) (if_arp i) (udp_state s) (tcp_state s) (reads s).
Definition unfocus (id : Z) (w : World D) (s : NetworkStack) : NetworkStack :=
  mkStack (<[id := mkInterface (config w) (device w) (arp_cache w)]> (interfaces s)) (next_id s) (udp w) (tcp w)
    (tick_reads w) (socket_connections s) (next_socket_id s).

Definition poll_interface (id : Z) (s : NetworkStack) : R NetworkStack :=
  match interfaces s !! id with
  | None => Ok s
  | Some i => let? w := poll get_ticks depth (focus i s) in Ok (unfocus id w s)
  end.
Definition stack_poll (s : NetworkStack) : R NetworkStack := fold_r poll_interface (btree_keys (interfaces s)) s.

(** The packet is put together field by field, its header checksum left zero. *)
Definition tcp_packet (k : TcpConnectionKey) (seg : TcpSegment) : Ipv4Packet :=
  let tcp_data := tcp_to_bytes (ep_addr (key_local k)) (ep_addr (key_remote k)) seg in
  mkIp 4 5 0 0 (wrap 16 (20 + Z.of_nat (length tcp_data))) 0 0 0 64 PROTOCOL_TCP 0 (ep_addr (key_local k))
    (ep_addr (key_remote k)) [] tcp_data.

Definition transmit_tcp_segment (k : TcpConnectionKey) (seg : TcpSegment) (s : NetworkStack) :
    R (NetworkStack * Result () NetworkError) :=
  match primary_interface s with
  | None => Ok (s, Err NoInterface)
  | Some id =>
      match interfaces s !! id with
      | None => Ok (s, Err NoInterface)
      | Some i => let? r := send_ipv4 (poll get_ticks depth) (tcp_packet k seg) (focus i s) in Ok (unfocus id r.1 s, r.2)
      end
  end.

Definition allocate_socket_handle (s : NetworkStack) : NetworkStack * Z :=
  (mkStack (interfaces s) (next_id s) (udp_state s) (tcp_state s) (reads s) (socket_connections s) (u64_add (next_socket_id s) 1),
   next_socket_id s).

Definition tcp_bind (addr : TcpEndpoint) (s : NetworkStack) : NetworkStack * Result Z NetworkError :=
  match tcp_state_bind (ep_port addr) (ep_addr addr) (tcp_state s) with
  | (t, Err e) => (with_tcp t s, Err e)
  | (t, Ok _) =>
      let '(s, handle) := allocate_socket_handle (with_tcp t s) in
      (with_sockets (<[handle := mkTcpKey addr (mkTcpEndpoint IPV4_ANY 0)]> (socket_connections s)) s, Ok handle)
  end.

Definition tcp_connect (addr : TcpEndpoint) (s : NetworkStack) : NetworkStack * Result Z NetworkError :=
  let '(t, k) := tcp_state_connect [0; 0; 0; 0] addr (tcp_state s) in
  let '(s, handle) := allocate_socket_handle (with_tcp t s) in
  (with_sockets (<[handle := k]> (socket_connections s)) s, Ok handle).

Definition update_connection (k : TcpConnectionKey) (c : TcpConnection) (s : NetworkStack) : NetworkStack :=
  with_tcp (set_connections (<[k := c]> (connections (tcp_state s))) (tcp_state s)) s.

Definition tcp_send (handle : Z) (data : list Z) (s : NetworkStack) : R (NetworkStack * Result Z NetworkError) :=
  match socket_connections s !! handle with
  | None => Ok (s, Err InvalidSocket)
  | Some k =>
      match connections (tcp_state s) !! k with
      | None => Ok (s, Err NotConnected)
      | Some conn =>
          if decide (state conn ≠ Established) then Ok (s, Err NotConnected)
          else
            let conn := set_send_buffer (send_buffer conn ++ data) conn in
            match send data conn with
            | (conn, None) => Ok (update_connection k conn s, Ok (Z.of_nat (length data)))
            | (conn, Some seg) =>
                let? r := transmit_tcp_segment k seg (update_connection k conn s) in
                Ok (r.1, match r.2 with Err e => Err e | Ok _ => Ok (Z.of_nat (length data)) end)
            end
      end
  end.

(** The bytes received go to the caller's buffer of [n] bytes. *)
Definition tcp_recv (handle : Z) (n : nat) (s : NetworkStack) : NetworkStack * Result (list Z) NetworkError :=
  match socket_connections s !! handle with
  | None => (s, Err InvalidSocket)
  | Some k =>
      match connections (tcp_state s) !! k with
      | None => (s, Err NotConnected)
      | Some conn =>
          if decide (state conn = Closed) then (s, Err NotConnected)
          else
            let '(conn, bytes) := read n conn in
            (update_connection k conn s,
             if decide (bytes = [] ∧ state conn = CloseWait) then Err ConnectionClosed else Ok bytes)
      end
  end.

Definition tcp_close (handle : Z) (s : NetworkStack) : R (NetworkStack * Result () NetworkError) :=
  match socket_connections s !! handle with
  | None => Ok (s, Err InvalidSocket)
  | Some k =>
      let s := with_sockets (delete handle (socket_connections s)) s in
      if ep_port (key_remote k) =? 0 then
        Ok (with_tcp (set_listeners (delete (ep_port (key_local k)) (listeners (tcp_state s))) (tcp_state s)) s, Ok ())
      else
        match connections (tcp_state s) !! k with
        | None => Ok (s, Ok ())
        | Some conn =>
            match close conn with
            | (conn, None) => Ok (update_connection k conn s, Ok ())
            | (conn, Some fin) => transmit_tcp_segment k fin (update_connection k conn s)
            end
        end
  end.
End stack.

Arguments Interface D : clear implicits.
Arguments NetworkStack D : clear implicits.

(** ** Invariants of polling *)

(** A run that ends in [P], or stops: in a panic, or too deep if [deep] allows it. *)
Definition ends {A} (deep : Prop) (P : A → Prop) (r : R A) : Prop :=
  match r with Ok a => P a | Err Panicked => True | Err TooDeep => deep end.

Lemma stopped_bind {A B} deep (P : A → Prop) (Q : B → Prop) (r : R A) (k : A → R B) :
  ends deep P r → (∀ a, P a → ends deep Q (k a)) → ends deep Q (res_bind r k).
Proof. destruct r as [a|[]]; simpl; auto. Qed.

Section invariant.
Context {D : Type} `{HD : NetworkDevice D}.
Variables (get_ticks : nat → Z) (poll : World D → R (World D)) (deep : Prop) (I : World D → Prop).

(** What frames do to a world: each keeps the invariant, and so does polling again. *)
Hypothesis I_poll : ∀ w, I w → ends deep I (poll w).
Hypothesis I_send : ∀ f w, I w → I (send_ethernet f w).1.
Hypothesis I_learn : ∀ ip mac w, I w → I (learn get_ticks ip mac w).
Hypothesis I_tcp : ∀ p t w, I w → ip_dest p = ipv4_addr (config w) → tcp_handle_packet p (tcp w) = Some t → I (set_tcp t w).
Hypothesis I_udp : ∀ u w, I w → I (set_udp u w).

Lemma await_arp_ends k ip w : I w → ends deep (λ r, I r.1) (await_arp poll k ip w).
Proof.
  revert w. induction k as [|k IH]; intros w Hw; [done|]. cbn [await_arp].
  eapply stopped_bind; [by apply I_poll|]. intros w' Hw'. destruct (arp_lookup ip (arp_cache w')); [done|auto].
Qed.

Lemma resolve_arp_ends ip w : I w → ends deep (λ r, I r.1) (resolve_arp poll ip w).
Proof.
  intros Hw. unfold resolve_arp. destruct (arp_lookup ip (arp_cache w)); [done|].
  match goal with |- context [send_ethernet ?f w] => pose proof (I_send f w Hw) as Hs; destruct (send_ethernet f w) as [w' []] end;
    [by apply await_arp_ends|done].
Qed.

Lemma send_ipv4_ends p w : I w → ends deep (λ r, I r.1) (send_ipv4 poll p w).
Proof.
  intros Hw. unfold send_ipv4. destruct (if is_local w (ip_dest p) then _ else _) as [hop|]; [|done].
  eapply stopped_bind; [by apply resolve_arp_ends|]. intros [w' []] Hw'; [by apply I_send|done].
Qed.

Lemma handle_frame_ends f w : I w → ends deep I (handle_frame get_ticks poll f w).
Proof.
  intros Hw. unfold handle_frame. destruct (_ =? _).
  { destruct (arp_parse _); [|done]. unfold handle_arp. destruct (_ && _); [by apply I_send, I_learn|by apply I_learn]. }
  destruct (_ =? _); [|done]. destruct (ip_parse _) as [p|]; [|done]. unfold handle_ipv4. case_decide as Hd; [done|].
  destruct (_ =? PROTOCOL_ICMP).
  { destruct (icmp_parse _) as [m|]; [|done]. unfold handle_icmp. destruct (_ =? _); [|done].
    eapply stopped_bind; [by apply send_ipv4_ends|done]. }
  destruct (_ =? PROTOCOL_TCP); [destruct (tcp_handle_packet _ _) eqn:E; [by eapply I_tcp|done]|].
  destruct (_ =? PROTOCOL_UDP); [destruct (udp_handle_packet _ _); [by apply I_udp|done]|done].
Qed.

Lemma fold_frames_ends fs w : I w → ends deep I (fold_r (handle_frame get_ticks poll) fs w).
Proof.
  unfold fold_r. assert (∀ r, ends deep I r →
    ends deep I (foldl (λ r a, res_bind r (handle_frame get_ticks poll a)) r fs)) as Hf; [|by apply (Hf (Ok w))].
  induction fs as [|f fs IH]; intros r Hr; [done|]. cbn [foldl]. apply IH.
  eapply stopped_bind; [exact Hr|]. intros. by apply handle_frame_ends.
Qed.
End invariant.

(** ** Polling returns *)

Section total.
Context {D : Type} `{HD : NetworkDevice D} `{!DeviceLaws D}.
Variable get_ticks : nat → Z.

(** At most [n] frames are still to come. *)
Definition left_le (n : nat) (w : World D) : Prop := (dev_left (device w) ≤ n)%nat.

Lemma receive_loop_left fuel d :
  (dev_left (receive_loop fuel d).1 + length (receive_loop fuel d).2 ≤ dev_left d)%nat.
Proof.
  revert d. induction fuel as [|fuel IH]; intros d; cbn [receive_loop]; [cbn; lia|].
  destruct (dev_receive d) as [d' [data|]] eqn:E.
  - apply receive_less in E. specialize (IH d'). destruct (receive_loop fuel d') as [d'' fs]. cbn in IH |- *.
    rewrite length_app. destruct (eth_parse data); cbn; lia.
  - apply receive_left in E. cbn. lia.
Qed.

(** Every frame the device has is taken. *)
Lemma receive_loop_drains fuel d : (dev_left d < fuel)%nat →
  ∃ d0, dev_receive d0 = ((receive_loop fuel d).1, None).
Proof.
  revert d. induction fuel as [|fuel IH]; intros d Hf; [lia|]. cbn [receive_loop].
  destruct (dev_receive d) as [d' [data|]] eqn:E; [|by exists d].
  apply receive_less in E. destruct (IH d') as [d0 Hd0]; [lia|]. destruct (receive_loop fuel d'). by exists d0.
Qed.

Lemma send_ethernet_left n f w : left_le n w → left_le n (send_ethernet f w).1.
Proof.
  unfold send_ethernet, left_le. intros Hn. pose proof (send_left (eth_to_bytes f) (device w)).
  destruct (dev_send _ _). cbn in *. lia.
Qed.

(** The frames taken off the device are not to come again. *)
Lemma receive_ethernet_left n w : left_le n w →
  left_le (n - length (receive_ethernet w).2) (receive_ethernet w).1 ∧ (length (receive_ethernet w).2 ≤ n)%nat.
Proof.
  unfold receive_ethernet, left_le. intros Hw. pose proof (receive_loop_left (S (dev_left (device w))) (device w)) as Hl.
  destruct (receive_loop _ _) as [d fs]. cbn in *. lia.
Qed.

Lemma poll_ends n w : left_le n w → ends False (left_le n) (poll get_ticks (S n) w).
Proof.
  revert w. induction n as [|n IH]; intros w Hw; cbn [poll]; unfold poll_body;
    destruct (receive_ethernet_left _ w Hw) as [Hl Hn]; destruct (receive_ethernet w) as [w' [|f fs]]; cbn [fst snd length] in *;
    try lia; [exact Hl|unfold left_le in *; cbn; lia|].
  assert (∀ r, ends False (left_le n) r → ends False (left_le (S n)) r) as Hm
    by (intros [w''|[]]; unfold left_le; simpl; auto).
  apply Hm, fold_frames_ends; try done; [intros; by apply send_ethernet_left|unfold left_le in *; lia].
Qed.

(** Polling returns: if at most [n] frames are still to come from the device, a poll
    nests at most [n + 1] deep (each level below the first is entered on a frame that was
    taken off the device by the level above it) and ends, unless a packet panics the
    kernel, having first taken frames until the device had none; so resolving addresses
    for pings that arrive while addresses are being resolved does not recurse for ever. *)
Theorem poll_returns n w : left_le n w →
  match poll get_ticks (S n) w with
  | Ok w' => left_le n w' ∧ ∃ d, dev_receive d = (device (receive_ethernet w).1, None)
  | Err Panicked => True
  | Err TooDeep => False
  end.
Proof.
  intros Hw. pose proof (poll_ends n w Hw) as He. destruct (poll get_ticks (S n) w) as [w'|[]]; [|done..]. split; [done|].
  unfold receive_ethernet. destruct (receive_loop_drains (S (dev_left (device w))) (device w)) as [d Hd]; [lia|].
  destruct (receive_loop _ _) as [d' fs]. by exists d.
Qed.
End total.

(** ** Answering *)

Section answers.
Context {D : Type} `{HD : NetworkDevice D}.
Variables (get_ticks : nat → Z) (poll : World D → R (World D)).

(** The address a packet for [ip] is handed to. *)
Definition next_hop (w : World D) (ip : Ipv4Address) : option Ipv4Address :=
  if is_local w ip then Some ip else gateway (config w).

Lemma send_ipv4_known p w hop mac : next_hop w (ip_dest p) = Some hop → arp_lookup hop (arp_cache w) = Some mac →
  send_ipv4 poll p w = Ok (send_ethernet (mkFrame mac (cfg_mac (config w)) ETHERTYPE_IPV4 (ip_to_bytes p)) w).
Proof.
  unfold next_hop, send_ipv4. intros -> Hm. unfold resolve_arp. by rewrite Hm.
Qed.

Lemma icmp_reply_ok identifier sequence data : is_word 16 identifier → is_word 16 sequence → Forall is_byte data →
  Z.of_nat (length data) ≤ 65507 → icmp_ok (icmp_echo_reply identifier sequence data).
Proof.
  intros Hi Hs Hd Hl. unfold icmp_echo_reply, icmp_with_checksum. set (m := mkIcmpPkt _ _ _ _ _ _).
  assert (Forall is_byte (icmp_bytes 0 m)) as Hb.
  { unfold icmp_bytes. rewrite !Forall_app, !Forall_singleton. split_and!; try done; try apply to_be_bytes_byte; by split. }
  assert (is_word 16 (icmp_compute_checksum m)).
  { unfold icmp_compute_checksum. rewrite checksum_bytes_spec; [|done|].
    - pose proof (total_range _ (words_of_word _ Hb)) as [Ht _]. pose proof (ones_sum_range _ Ht). split; lia.
    - unfold icmp_bytes. rewrite !length_app, !length_to_be_bytes. cbn. lia. }
  unfold icmp_ok, m. cbn [icmp_type icmp_code icmp_checksum icmp_identifier icmp_sequence icmp_data].
  split_and!; try done.
Qed.

Lemma length_icmp_to_bytes m : length (icmp_to_bytes m) = (8 + length (icmp_data m))%nat.
Proof. unfold icmp_to_bytes, icmp_bytes. by rewrite !length_app, !length_to_be_bytes. Qed.

Lemma icmp_to_bytes_byte m : icmp_ok m → Forall is_byte (icmp_to_bytes m).
Proof.
  intros (H1 & H2 & _ & _ & _ & H6). unfold icmp_to_bytes, icmp_bytes. rewrite !Forall_app, !Forall_singleton.
  split_and!; try done; apply to_be_bytes_byte.
Qed.

(** [C30] A ping is answered: a frame with an echo request for our address, whose sender's
    next hop is in the ARP cache, is answered by exactly one frame, sent through the
    device to that hop from our address; its bytes parse back, through Ethernet, IPv4 and
    ICMP, with both checksums right, as an echo reply to the sender with the identifier,
    the sequence number and the data of the request; nothing else of the world changes. *)
Theorem ping_answered f p m padding w hop mac :
  ethertype f = ETHERTYPE_IPV4 → eth_payload f = ip_to_bytes p ++ padding → ip_ok p →
  ip_dest p = ipv4_addr (config w) → ip_protocol p = PROTOCOL_ICMP → ip_payload p = icmp_to_bytes m →
  icmp_ok m → icmp_type m = ICMP_ECHO_REQUEST → is_mac (cfg_mac (config w)) → is_mac mac →
  next_hop w (ip_src p) = Some hop → arp_lookup hop (arp_cache w) = Some mac →
  ∃ bytes, handle_frame get_ticks poll f w = Ok (set_device (dev_send bytes (device w)).1 w) ∧
  ∃ reply q r, eth_parse bytes = Some reply ∧ dest_mac reply = mac ∧ src_mac reply = cfg_mac (config w) ∧
    ethertype reply = ETHERTYPE_IPV4 ∧
    ip_parse (eth_payload reply) = Some q ∧ ip_verify_checksum q = true ∧
    ip_src q = ipv4_addr (config w) ∧ ip_dest q = ip_src p ∧ ip_protocol q = PROTOCOL_ICMP ∧
    icmp_parse (ip_payload q) = Some r ∧ icmp_verify_checksum r = true ∧
    icmp_type r = ICMP_ECHO_REPLY ∧ icmp_identifier r = icmp_identifier m ∧ icmp_sequence r = icmp_sequence m ∧ icmp_data r = icmp_data m.
Proof.
  intros Hf Hpl Hp Hdst Hpr Hip Hm Hty Hmac Hmac' Hhop Harp.
  pose proof Hp as (_ & Hih & _ & _ & [_ Htl] & _ & _ & _ & _ & _ & _ & Hsrc & Hdest & _ & _ & _ & Htot).
  pose proof Hm as (_ & _ & _ & Hid & Hseq & Hdata).
  rewrite Hip, length_icmp_to_bytes in Htot. change (2 ^ 16) with 65536 in Htl.
  set (rep := icmp_echo_reply (icmp_identifier m) (icmp_sequence m) (icmp_data m)).
  assert (icmp_ok rep) as Hrep by (apply icmp_reply_ok; [done..|lia]).
  set (q := ip_new (ipv4_addr (config w)) (ip_src p) PROTOCOL_ICMP (icmp_to_bytes rep)).
  destruct (ip_new_ok (ipv4_addr (config w)) (ip_src p) PROTOCOL_ICMP (icmp_to_bytes rep)) as [Hq Hqv];
    [by rewrite <-Hdst|done|by split|by apply icmp_to_bytes_byte|rewrite length_icmp_to_bytes; cbn [icmp_data rep icmp_echo_reply icmp_with_checksum]; lia|].
  set (frame := mkFrame mac (cfg_mac (config w)) ETHERTYPE_IPV4 (ip_to_bytes q)).
  exists (eth_to_bytes frame). split.
  - unfold handle_frame. rewrite Hf, Hpl. cbn [Z.eqb]. rewrite ip_parse_written by done. unfold handle_ipv4.
    rewrite decide_False by (intros Hn; by apply Hn). rewrite Hpr. cbn [Z.eqb]. rewrite Hip.
    rewrite (proj1 icmp_roundtrip) by done. unfold handle_icmp. rewrite Hty. cbn [Z.eqb]. fold rep q.
    rewrite (send_ipv4_known q w hop mac) by done. fold frame. unfold send_ethernet.
    destruct (dev_send (eth_to_bytes frame) (device w)) as [d' r']. done.
  - eexists _, q, rep. rewrite ethernet_roundtrip by (done || by split).
    split; [reflexivity|]. cbn [dest_mac src_mac ethertype eth_payload frame].
    split_and!; try done.
    + unfold pad_to. by apply ip_parse_written.
    + change (ip_payload q) with (icmp_to_bytes rep). by apply (proj1 icmp_roundtrip).
    + apply icmp_echo_verifies.
Qed.
End answers.

(** ** What TCP can do *)

Section silent.
Context {D : Type} `{HD : NetworkDevice D}.
Variables (get_ticks : nat → Z) (depth : nat).

(** Connections are those of [tcp_connect], waiting for an answer to a SYN that was not
    sent. *)
Definition unanswered (t : TcpState) : Prop :=
  map_Forall (λ k c, ep_addr (key_local k) = [0; 0; 0; 0] ∧ state c = SynSent) (connections t).
Definition waiting (w : World D) : Prop := ipv4_addr (config w) ≠ [0; 0; 0; 0] ∧ unanswered (tcp w).
Definition silent (s : NetworkStack D) : Prop :=
  map_Forall (λ _ i, ipv4_addr (if_config i) ≠ [0; 0; 0; 0]) (interfaces s) ∧ unanswered (tcp_state s).

Lemma send_ethernet_waiting f w : waiting w → waiting (send_ethernet f w).1.
Proof. unfold send_ethernet. by destruct (dev_send _ _). Qed.

Lemma handle_packet_waiting p t w : waiting w → ip_dest p = ipv4_addr (config w) → tcp_handle_packet p (tcp w) = Some t →
  waiting (set_tcp t w).
Proof.
  intros [Ha Hu] Hd Ht. split; [done|]. cbn. intros k c Hk.
  pose proof (other_key_untouched k p (tcp w)) as Ho. cbn [tcp_step] in Ho. rewrite Ht in Ho. cbn [default from_option id] in Ho.
  destruct (decide (ep_addr (key_local k) = ip_dest p)) as [He|Hne].
  - exfalso. destruct (connections (tcp w) !! k) as [c'|] eqn:E.
    + destruct (Hu _ _ E) as [Hz _]. congruence.
    + unfold tcp_handle_packet in Ht. destruct (tcp_parse (ip_payload p)) as [| |seg]; [congruence|done|].
      destruct (connections (tcp w) !! segment_key p seg) as [c0|] eqn:E0.
      * destruct (Hu _ _ E0) as [Hz _]. apply Ha. by rewrite <-Hd, <-Hz.
      * destruct (listeners (tcp w) !! _); [destruct (has_flag SYN seg)|]; injection Ht as <-; cbn in Hk; congruence.
  - apply (Hu k). rewrite <-Ho by congruence. done.
Qed.

Lemma poll_waiting n w : waiting w → ends True waiting (poll get_ticks n w).
Proof.
  revert w. induction n as [|n IH]; intros w Hw; [done|]. cbn [poll]. unfold poll_body, receive_ethernet.
  destruct (receive_loop _ _) as [d fs].
  apply fold_frames_ends; try done; [by apply send_ethernet_waiting|by apply handle_packet_waiting].
Qed.

Lemma unfocus_silent id w s : silent s → waiting w → silent (unfocus id w s).
Proof. intros [Hi Hu] [Ha Hw]. split; [|done]. by apply map_Forall_insert_2. Qed.

Lemma poll_interface_silent id s : silent s → ends True silent (poll_interface get_ticks depth id s).
Proof.
  intros Hs. unfold poll_interface. destruct (interfaces s !! id) as [i|] eqn:E; [|done].
  eapply stopped_bind; [apply poll_waiting; split; [by eapply (proj1 Hs)|apply Hs]|]. intros w Hw. by apply unfocus_silent.
Qed.

Lemma stack_poll_silent s : silent s → ends True silent (stack_poll get_ticks depth s).
Proof.
  intros Hs. unfold stack_poll, fold_r. generalize (btree_keys (interfaces s)) as ids. intros ids.
  assert (∀ r, ends True silent r → ends True silent (foldl (λ r a, res_bind r (poll_interface get_ticks depth a)) r ids)) as Hf;
    [|by apply (Hf (Ok s))].
  induction ids as [|id ids IH]; intros r Hr; [done|]. cbn [foldl]. apply IH.
  eapply stopped_bind; [exact Hr|]. intros. by apply poll_interface_silent.
Qed.

Lemma tcp_connect_silent addr s : silent s → silent (tcp_connect addr s).1.
Proof.
  intros [Hi Hu]. unfold tcp_connect, tcp_state_connect. cbn. split; [done|]. cbn. by apply map_Forall_insert_2.
Qed.

(** In such a stack nothing is sent, received or changed by the data calls. *)
Lemma tcp_send_silent handle data s : silent s →
  tcp_send get_ticks depth handle data s = Ok (s, Err InvalidSocket) ∨ tcp_send get_ticks depth handle data s = Ok (s, Err NotConnected).
Proof.
  intros [_ Hu]. unfold tcp_send. destruct (socket_connections s !! handle) as [k|]; [|by left]. right.
  destruct (connections (tcp_state s) !! k) as [c|] eqn:E; [|done]. destruct (Hu _ _ E) as [_ Hc].
  by rewrite decide_True by (by rewrite Hc).
Qed.

Lemma tcp_recv_silent handle n s : silent s → silent (tcp_recv handle n s).1.
Proof.
  intros [Hi Hu]. unfold tcp_recv. destruct (socket_connections s !! handle) as [k|]; [|done].
  destruct (connections (tcp_state s) !! k) as [c|] eqn:E; [|done]. case_decide; [done|].
  split; [done|]. cbn. apply map_Forall_insert_2; [|done]. cbn. by apply (Hu k).
Qed.

Lemma tcp_close_silent handle s : silent s → ends True (λ r, silent r.1) (tcp_close get_ticks depth handle s).
Proof.
  intros [Hi Hu]. unfold tcp_close. destruct (socket_connections s !! handle) as [k|]; [|done].
  destruct (_ =? 0); [done|]. cbn [with_sockets tcp_state].
  destruct (connections (tcp_state s) !! k) as [c|] eqn:E; [|done]. destruct (Hu _ _ E) as [Hz Hc].
  unfold close. rewrite Hc. cbn. split; [done|]. cbn. by apply map_Forall_insert_2.
Qed.

(** The calls of the kernel's TCP interface, and polling. *)
Inductive net_call :=
  | CBind (addr : TcpEndpoint) | CConnect (addr : TcpEndpoint) | CSend (handle : Z) (data : list Z)
  | CRecv (handle : Z) (n : nat) | CClose (handle : Z) | CPoll.

Definition net_step (c : net_call) (s : NetworkStack D) : R (NetworkStack D) :=
  match c with
  | CBind addr => Ok (tcp_bind addr s).1
  | CConnect addr => Ok (tcp_connect addr s).1
  | CSend handle data => let? r := tcp_send get_ticks depth handle data s in Ok r.1
  | CRecv handle n => Ok (tcp_recv handle n s).1
  | CClose handle => let? r := tcp_close get_ticks depth handle s in Ok r.1
  | CPoll => stack_poll get_ticks depth s
  end.

Lemma net_step_silent c s : silent s → ends True silent (net_step c s).
Proof.
  intros Hs. destruct c as [addr|addr|handle data|handle n|handle|]; cbn [net_step].
  - unfold tcp_bind, tcp_state_bind. by destruct (listeners (tcp_state s) !! ep_port addr).
  - by apply tcp_connect_silent.
  - by destruct (tcp_send_silent handle data s Hs) as [->| ->].
  - by apply tcp_recv_silent.
  - eapply stopped_bind; [by apply tcp_close_silent|done].
  - by apply stack_poll_silent.
Qed.

(** No byte is ever sent over a connection of the kernel's own TCP calls: [tcp_connect]
    drops the SYN and keys the connection under the local address 0.0.0.0, which no packet
    the interface lets through has; so over any history of calls and of frames from the
    network every [tcp_send] fails and changes nothing. *)
Theorem tcp_never_sends calls s s' handle data :
  map_Forall (λ _ i, ipv4_addr (if_config i) ≠ [0; 0; 0; 0]) (interfaces s) → connections (tcp_state s) = ∅ →
  fold_r net_step calls s = Ok s' →
  tcp_send get_ticks depth handle data s' = Ok (s', Err InvalidSocket) ∨
  tcp_send get_ticks depth handle data s' = Ok (s', Err NotConnected).
Proof.
  intros Hi He Hr. apply tcp_send_silent. assert (silent s) as Hs.
  { split; [done|]. unfold unanswered. rewrite He. apply map_Forall_empty. }
  assert (∀ r, ends True silent r → ends True silent (foldl (λ r a, res_bind r (net_step a)) r calls)) as Hf.
  { clear Hr. induction calls as [|c calls IH]; intros r Hr; [done|]. cbn [foldl]. apply IH.
    eapply stopped_bind; [exact Hr|]. intros. by apply net_step_silent. }
  specialize (Hf (Ok s) Hs). unfold fold_r in Hr. by rewrite Hr in Hf.
Qed.
End silent.

(** The packets of TCP carry no header checksum: their receiver must drop them. *)
Lemma tcp_packet_unchecked : let k := mkTcpKey (mkTcpEndpoint [10; 0; 2; 15] 50000) (mkTcpEndpoint [10; 0; 2; 2] 80) in
  ip_verify_checksum (tcp_packet k (segment_of (connection_new k) 0 SYN [])) = false.
Proof. by vm_compute. Qed.

(** ** Examples *)

Definition sample_config : InterfaceConfig :=
  mkConfig [2; 0; 0; 0; 0; 1] [10; 0; 2; 15] [255; 255; 255; 0] (Some [10; 0; 2; 2]) 1500.
Definition sample_mac : MacAddress := [2; 0; 0; 0; 0; 2].
Definition sample_world (frames : list (list (list Z))) : World Script :=
  mkWorld sample_config (mkScript frames []) arp_cache_new udp_state_new tcp_state_new 0.
Definition sample_ping : IcmpPacket := icmp_echo_request 7 1 [65; 66; 67].
Definition sample_ping_packet : Ipv4Packet := ip_new [10; 0; 2; 3] [10; 0; 2; 15] PROTOCOL_ICMP (icmp_to_bytes sample_ping).
Definition sample_ping_frame : EthernetFrame := mkFrame [2; 0; 0; 0; 0; 1] sample_mac ETHERTYPE_IPV4 (ip_to_bytes sample_ping_packet).
Definition sample_arp_frame : EthernetFrame :=
  mkFrame [2; 0; 0; 0; 0; 1] sample_mac ETHERTYPE_ARP (arp_to_bytes (arp_reply sample_mac [10; 0; 2; 3] [2; 0; 0; 0; 0; 1] [10; 0; 2; 15])).

(** A ping from a stranger: the reply waits for an ARP exchange, polled for inside the poll;
    two frames go out. *)
Lemma ping_resolves : match poll (λ _, 0) 3 (sample_world [[eth_to_bytes sample_ping_frame]; []; [eth_to_bytes sample_arp_frame]]) with
  | Ok w => length (sent (device w)) = 2%nat ∧ arp_lookup [10; 0; 2; 3] (arp_cache w) = Some sample_mac
  | Err _ => False
  end.
Proof. by vm_compute. Qed.

Lemma poll_returns_witness :
  match poll (λ _, 0) 3 (sample_world [[eth_to_bytes sample_ping_frame]; []; [eth_to_bytes sample_arp_frame]]) with
  | Ok w' => left_le 2 w' ∧ ∃ d, dev_receive d = (device (receive_ethernet (sample_world [[eth_to_bytes sample_ping_frame]; []; [eth_to_bytes sample_arp_frame]])).1, None)
  | Err Panicked => True
  | Err TooDeep => False
  end.
Proof.
  apply (poll_returns (λ _, 0) 2 (sample_world [[eth_to_bytes sample_ping_frame]; []; [eth_to_bytes sample_arp_frame]])).
  unfold left_le. cbn. lia.
Defined.

Definition sample_resolved : World Script :=
  learn (λ _, 0) [10; 0; 2; 3] sample_mac (sample_world []).

Lemma ping_answered_witness :
  ∃ bytes, handle_frame (λ _, 0) (λ w, Ok w) sample_ping_frame sample_resolved =
    Ok (set_device (dev_send bytes (device sample_resolved)).1 sample_resolved).
Proof.
  destruct (ping_answered (λ _, 0) (λ w, Ok w) sample_ping_frame sample_ping_packet sample_ping [] sample_resolved
    [10; 0; 2; 3] sample_mac) as (bytes & Hb & _); try done; [| | | |by exists bytes].
  - unfold ip_ok, is_ipv4, is_byte, is_word. split_and!; try (by vm_compute); cbn; bytes_list.
  - unfold icmp_ok, is_byte, is_word. split_and!; try (by vm_compute); cbn; bytes_list.
  - split; [cbn; bytes_list|done].
  - split; [cbn; bytes_list|done].
Defined.
