(* ===== verification/Sums.v ===== *)
(** * Sums: the total of a measure over a finite map

    What the file systems count: how the total moves when an entry is added, replaced
    or removed. *)

From Stdlib Require Import ZArith Lia.
From stdpp Require Import fin_maps gmap.
From S2P Require Import Prelude.

Section sums.
Context {K V : Type} `{Countable K} (f : V → Z).
Implicit Type m : gmap K V.

Definition map_sum m : Z := map_fold (λ _ v n, f v + n) 0 m.

Lemma map_sum_empty : map_sum ∅ = 0.
Proof. done. Qed.

Lemma map_sum_insert m k v : m !! k = None → map_sum (<[k := v]> m) = f v + map_sum m.
Proof. intros Hk. unfold map_sum. rewrite map_fold_insert_L; [done|intros; lia|done]. Qed.

Lemma map_sum_delete m k v : m !! k = Some v → map_sum m = f v + map_sum (delete k m).
Proof. intros Hk. rewrite <- (map_sum_insert _ k) by apply lookup_delete_eq. by rewrite insert_delete_id. Qed.

Lemma map_sum_replace m k v v' : m !! k = Some v → map_sum (<[k := v']> m) = map_sum m - f v + f v'.
Proof.
  intros Hk. rewrite <- insert_delete_eq, map_sum_insert by apply lookup_delete_eq.
  rewrite (map_sum_delete m k v) by done. lia.
Qed.

Section nonneg.
Context (Hpos : ∀ v, 0 ≤ f v).

Lemma map_sum_nonneg m : 0 ≤ map_sum m.
Proof.
  induction m as [|k v m Hk IH] using map_ind; [done|].
  rewrite map_sum_insert by done. pose proof (Hpos v). lia.
Qed.

Lemma map_sum_ge m k v : m !! k = Some v → f v ≤ map_sum m.
Proof. intros Hk. rewrite (map_sum_delete m k v) by done. pose proof (map_sum_nonneg (delete k m)). lia. Qed.

(** Overwriting an entry that may or may not be there. *)
Lemma map_sum_insert_le m k v : map_sum (<[k := v]> m) ≤ f v + map_sum m.
Proof.
  destruct (m !! k) as [v'|] eqn:Hk; [|by rewrite map_sum_insert].
  rewrite (map_sum_replace m k v') by done. pose proof (Hpos v'). lia.
Qed.
End nonneg.
End sums.
