(* ===== verification/Qos.v ===== *)
(** * Qos: traffic control ([kernel/src/net/qos.rs])

    The queuing disciplines behind one trait: first come first served, priority bands, a
    token bucket and the hierarchical token bucket. The trait is a class of operations;
    the class [QdiscLaws] says what a discipline owes its packets, and each of the four
    discharges it. The cycle counter a token bucket reads is an argument. *)

From Stdlib Require Import ZArith Lia String.
From stdpp Require Import list gmap strings.
From S2P Require Import Prelude Sums.

(** ** Packets *)

Inductive PacketPriority :=
  | Background | BestEffort | ExcellentEffort | Critical | Video | Voice | InternetControl | NetworkControl.
#[global] Instance PacketPriority_eq_dec : EqDecision PacketPriority.
Proof. solve_decision. Defined.

(** [From<u8>]. *)
Definition priority_from (val : Z) : PacketPriority :=
  match val with
  | 0 => Background
  | 1 => BestEffort
  | 2 => ExcellentEffort
  | 3 => Critical
  | 4 => Video
  | 5 => Voice
  | 6 => InternetControl
  | 7 => NetworkControl
  | _ => BestEffort
  end.

Record PacketInfo := mkInfo {
  priority : PacketPriority;
  plength : Z;
  src_port : Z;
  dst_port : Z;
  protocol : Z;
  dscp : Z;
  timestamp : Z;
  mark : Z;
}.

Definition PacketInfo_new (length : Z) : PacketInfo := mkInfo BestEffort length 0 0 0 0 0 0.

Definition dscp_priority (d : Z) : PacketPriority :=
  match Z.shiftr d 3 with
  | 0 => BestEffort
  | 1 => Background
  | 2 | 3 => ExcellentEffort
  | 4 => Video
  | 5 => Voice
  | 6 => InternetControl
  | 7 => NetworkControl
  | _ => BestEffort
  end.

Definition set_dscp (d : Z) (i : PacketInfo) : PacketInfo :=
  mkInfo (dscp_priority d) (plength i) (src_port i) (dst_port i) (protocol i) d (timestamp i) (mark i).

Record QueuedPacket := mkPacket { pdata : list Z; info : PacketInfo }.

Definition len_of (p : QueuedPacket) : Z := plength (info p).

Inductive QdiscError := QueueFull | PacketTooLarge | RateLimited | InvalidConfig.
#[global] Instance QdiscError_eq_dec : EqDecision QdiscError.
Proof. solve_decision. Defined.

Record QdiscStats := mkStats {
  packets_enqueued : Z;
  packets_dequeued : Z;
  packets_dropped : Z;
  bytes_enqueued : Z;
  bytes_dequeued : Z;
  queue_depth : Z;
  queue_bytes : Z;
  overlimits : Z;
}.
Definition QdiscStats_default : QdiscStats := mkStats 0 0 0 0 0 0 0 0.

(** What every discipline counts when it takes, refuses and hands out a packet. *)
Definition count_in (len : Z) (depth : Z) (s : QdiscStats) : QdiscStats :=
  mkStats (u64_add (packets_enqueued s) 1) (packets_dequeued s) (packets_dropped s)
          (u64_add (bytes_enqueued s) len) (bytes_dequeued s) depth (u64_add (queue_bytes s) len) (overlimits s).
Definition count_drop (s : QdiscStats) : QdiscStats :=
  mkStats (packets_enqueued s) (packets_dequeued s) (u64_add (packets_dropped s) 1)
          (bytes_enqueued s) (bytes_dequeued s) (queue_depth s) (queue_bytes s) (overlimits s).
Definition count_out (len : Z) (depth : Z) (s : QdiscStats) : QdiscStats :=
  mkStats (packets_enqueued s) (u64_add (packets_dequeued s) 1) (packets_dropped s)
          (bytes_enqueued s) (u64_add (bytes_dequeued s) len) depth (sat_sub (queue_bytes s) len) (overlimits s).
Definition count_overlimit (s : QdiscStats) : QdiscStats :=
  mkStats (packets_enqueued s) (packets_dequeued s) (packets_dropped s)
          (bytes_enqueued s) (bytes_dequeued s) (queue_depth s) (queue_bytes s) (u64_add (overlimits s) 1).

(** [trait Qdisc]: [None] of [enqueue] is a panic. *)
Class Qdisc (Q : Type) := {
  enqueue (p : QueuedPacket) : Q → option (Q * Result unit QdiscError);
  dequeue (now : Z) : Q → Q * option QueuedPacket;
  peek : Q → option QueuedPacket;
  qlen : Q → Z;
  stats : Q → QdiscStats;
  reset : Q → Q;
}.

Definition is_empty {Q} `{Qdisc Q} (q : Q) : bool := qlen q =? 0.

Abbreviation Queue := (list QueuedPacket).
Definition depth (q : Queue) : Z := Z.of_nat (length q).

(** ** First come, first served *)

Record FifoQdisc := mkFifo { f_queue : Queue; f_max : Z; f_stats : QdiscStats }.

Definition fifo_new (max_packets : Z) : FifoQdisc := mkFifo [] max_packets QdiscStats_default.
Definition fifo_default : FifoQdisc := fifo_new 1000.

Definition fifo_enqueue (p : QueuedPacket) (q : FifoQdisc) : option (FifoQdisc * Result unit QdiscError) :=
  if decide (f_max q ≤ depth (f_queue q)) then Some (mkFifo (f_queue q) (f_max q) (count_drop (f_stats q)), Err QueueFull)
  else
    let queue := f_queue q ++ [p] in
    Some (mkFifo queue (f_max q) (count_in (len_of p) (depth queue) (f_stats q)), Ok tt).

Definition fifo_dequeue (now : Z) (q : FifoQdisc) : FifoQdisc * option QueuedPacket :=
  match pop_front (f_queue q) with
  | None => (q, None)
  | Some (p, queue) => (mkFifo queue (f_max q) (count_out (len_of p) (depth queue) (f_stats q)), Some p)
  end.

#[global] Instance Fifo_qdisc : Qdisc FifoQdisc := {
  enqueue := fifo_enqueue; dequeue := fifo_dequeue; peek q := head (f_queue q); qlen q := depth (f_queue q);
  stats := f_stats; reset q := mkFifo [] (f_max q) QdiscStats_default;
}.

(** ** Priority bands *)

Record PrioQdisc := mkPrio { bands : list Queue; max_per_band : Z; p_stats : QdiscStats }.

Definition prio_new (num_bands : nat) (max_per_band : Z) : PrioQdisc :=
  mkPrio (replicate num_bands []) max_per_band QdiscStats_default.
Definition prio_default : PrioQdisc := prio_new 5 200.

(** Without bands [self.bands.len() - 1] wraps, and the index is out of bounds. *)
Definition priority_to_band (pr : PacketPriority) (n : nat) : nat :=
  let band := match pr with
              | NetworkControl | InternetControl => 0%nat
              | Voice | Video => 1%nat
              | Critical | ExcellentEffort => 2%nat
              | BestEffort => 3%nat
              | Background => 4%nat
              end in
  if decide (n = O) then band else Nat.min band (n - 1).

Definition sum_depth (qs : list Queue) : Z := depth (concat qs).

Definition prio_enqueue (p : QueuedPacket) (q : PrioQdisc) : option (PrioQdisc * Result unit QdiscError) :=
  let band := priority_to_band (priority (info p)) (length (bands q)) in
  b ← bands q !! band;
  if decide (max_per_band q ≤ depth b) then Some (mkPrio (bands q) (max_per_band q) (count_drop (p_stats q)), Err QueueFull)
  else
    let bs := <[band := b ++ [p]]> (bands q) in
    Some (mkPrio bs (max_per_band q) (count_in (len_of p) (sum_depth bs) (p_stats q)), Ok tt).

(** The first band with a packet, with the bands after taking it. *)
Fixpoint take_first (bs : list Queue) : option (QueuedPacket * list Queue) :=
  match bs with
  | [] => None
  | b :: bs' =>
      match pop_front b with
      | Some (p, b') => Some (p, b' :: bs')
      | None => '(p, bs'') ← take_first bs'; Some (p, b :: bs'')
      end
  end.

Definition prio_dequeue (now : Z) (q : PrioQdisc) : PrioQdisc * option QueuedPacket :=
  match take_first (bands q) with
  | None => (q, None)
  | Some (p, bs) => (mkPrio bs (max_per_band q) (count_out (len_of p) (sum_depth bs) (p_stats q)), Some p)
  end.

#[global] Instance Prio_qdisc : Qdisc PrioQdisc := {
  enqueue := prio_enqueue; dequeue := prio_dequeue;
  peek q := fst <$> take_first (bands q); qlen q := sum_depth (bands q); stats := p_stats;
  reset q := mkPrio ((λ _, []) <$> bands q) (max_per_band q) QdiscStats_default;
}.

(** ** Token bucket *)

Record TbfQdisc := mkTbf {
  t_queue : Queue;
  rate : Z;
  bucket_size : Z;
  tokens : Z;
  last_update : Z;
  max_queue : Z;
  t_stats : QdiscStats;
}.

Definition tbf_new (rate bucket_size max_queue : Z) : TbfQdisc :=
  mkTbf [] rate bucket_size bucket_size 0 max_queue QdiscStats_default.

Definition update_tokens (now : Z) (q : TbfQdisc) : TbfQdisc :=
  if decide (last_update q < now) then
    let elapsed := now - last_update q in
    let new_tokens := u64_mul (rate q) elapsed / 1000000 in
    mkTbf (t_queue q) (rate q) (bucket_size q) (Z.min (u64_add (tokens q) new_tokens) (bucket_size q)) now
          (max_queue q) (t_stats q)
  else q.

Definition can_transmit (packet_len : Z) (q : TbfQdisc) : bool := packet_len <=? tokens q.

Definition tbf_enqueue (p : QueuedPacket) (q : TbfQdisc) : option (TbfQdisc * Result unit QdiscError) :=
  let with_queue queue st := mkTbf queue (rate q) (bucket_size q) (tokens q) (last_update q) (max_queue q) st in
  if decide (max_queue q ≤ depth (t_queue q)) then Some (with_queue (t_queue q) (count_drop (t_stats q)), Err QueueFull)
  else
    let queue := t_queue q ++ [p] in
    Some (with_queue queue (count_in (len_of p) (depth queue) (t_stats q)), Ok tt).

Definition tbf_dequeue (now : Z) (q : TbfQdisc) : TbfQdisc * option QueuedPacket :=
  let q := update_tokens now q in
  let leave queue tok st := mkTbf queue (rate q) (bucket_size q) tok (last_update q) (max_queue q) st in
  match pop_front (t_queue q) with
  | None => (q, None)
  | Some (p, queue) =>
      if can_transmit (len_of p) q
      then (leave queue (tokens q - len_of p) (count_out (len_of p) (depth queue) (t_stats q)), Some p)
      else (leave (t_queue q) (tokens q) (count_overlimit (t_stats q)), None)
  end.

#[global] Instance Tbf_qdisc : Qdisc TbfQdisc := {
  enqueue := tbf_enqueue; dequeue := tbf_dequeue; peek q := head (t_queue q); qlen q := depth (t_queue q);
  stats := t_stats;
  reset q := mkTbf [] (rate q) (bucket_size q) (bucket_size q) (last_update q) (max_queue q) QdiscStats_default;
}.

(** ** Hierarchical token bucket *)

Record HtbClass := mkClass {
  c_id : Z;
  c_parent : Z;
  c_rate : Z;
  c_ceil : Z;
  c_priority : Z;
  c_quantum : Z;
  c_tokens : Z;
  c_ctokens : Z;
  c_queue : Queue;
}.

Definition HtbClass_new (id parent rate ceil : Z) : HtbClass := mkClass id parent rate ceil 0 10000 ceil ceil [].

Definition with_queue (queue : Queue) (c : HtbClass) : HtbClass :=
  mkClass (c_id c) (c_parent c) (c_rate c) (c_ceil c) (c_priority c) (c_quantum c) (c_tokens c) (c_ctokens c) queue.

Record HtbQdisc := mkHtb { classes : gmap Z HtbClass; default_class : Z; h_stats : QdiscStats }.

Definition htb_new : HtbQdisc := mkHtb ∅ 0 QdiscStats_default.

Definition add_class (c : HtbClass) (q : HtbQdisc) : HtbQdisc :=
  mkHtb (<[c_id c := c]> (classes q)) (if decide (default_class q = 0) then c_id c else default_class q) (h_stats q).

Definition set_default (class_id : Z) (q : HtbQdisc) : HtbQdisc := mkHtb (classes q) class_id (h_stats q).

Definition class_for_priority (pr : PacketPriority) : Z :=
  match pr with
  | NetworkControl | InternetControl => 1
  | Voice => 2
  | Video => 3
  | Critical => 4
  | ExcellentEffort => 5
  | BestEffort | Background => 0
  end.

Definition find_class_for_packet (p : QueuedPacket) (q : HtbQdisc) : Z :=
  let c := class_for_priority (priority (info p)) in
  if decide (0 < c) then if decide (is_Some (classes q !! c)) then c else default_class q
  else default_class q.

(** The queues of the classes, in the order of their ids. *)
Definition class_queues (m : gmap Z HtbClass) : list Queue := c_queue ∘ snd <$> btree_iter m.

Definition htb_enqueue (p : QueuedPacket) (q : HtbQdisc) : option (HtbQdisc * Result unit QdiscError) :=
  let id := find_class_for_packet p q in
  match classes q !! id with
  | Some c =>
      let m := <[id := with_queue (c_queue c ++ [p]) c]> (classes q) in
      Some (mkHtb m (default_class q) (count_in (len_of p) (sum_depth (class_queues m)) (h_stats q)), Ok tt)
  | None => Some (mkHtb (classes q) (default_class q) (count_drop (h_stats q)), Err InvalidConfig)
  end.

(** The first class, in the order of ids, with a packet. *)
Definition first_class (m : gmap Z HtbClass) : option (Z * HtbClass) :=
  btree_find (λ _ c, negb (bool_decide (c_queue c = []))) m.

Definition htb_dequeue (now : Z) (q : HtbQdisc) : HtbQdisc * option QueuedPacket :=
  match first_class (classes q) with
  | None => (q, None)
  | Some (id, c) =>
      match pop_front (c_queue c) with
      | None => (q, None)
      | Some (p, queue) =>
          let m := <[id := with_queue queue c]> (classes q) in
          (mkHtb m (default_class q) (count_out (len_of p) (sum_depth (class_queues m)) (h_stats q)), Some p)
      end
  end.

Definition class_reset (c : HtbClass) : HtbClass :=
  mkClass (c_id c) (c_parent c) (c_rate c) (c_ceil c) (c_priority c) (c_quantum c) (c_ceil c) (c_ceil c) [].

#[global] Instance Htb_qdisc : Qdisc HtbQdisc := {
  enqueue := htb_enqueue; dequeue := htb_dequeue;
  peek q := '(_, c) ← first_class (classes q); head (c_queue c);
  qlen q := sum_depth (class_queues (classes q)); stats := h_stats;
  reset q := mkHtb (class_reset <$> classes q) (default_class q) QdiscStats_default;
}.

(** ** Any discipline: [Box<dyn Qdisc>] *)

Inductive AnyQdisc :=
  | AnyFifo (q : FifoQdisc)
  | AnyPrio (q : PrioQdisc)
  | AnyTbf (q : TbfQdisc)
  | AnyHtb (q : HtbQdisc).

Definition lift_enqueue {Q} `{Qdisc Q} (wrap : Q → AnyQdisc) (p : QueuedPacket) (q : Q) :
    option (AnyQdisc * Result unit QdiscError) := '(q, r) ← enqueue p q; Some (wrap q, r).
Definition lift_dequeue {Q} `{Qdisc Q} (wrap : Q → AnyQdisc) (now : Z) (q : Q) : AnyQdisc * option QueuedPacket :=
  let '(q, r) := dequeue now q in (wrap q, r).

#[global] Instance Any_qdisc : Qdisc AnyQdisc := {
  enqueue p q := match q with
                 | AnyFifo q => lift_enqueue AnyFifo p q | AnyPrio q => lift_enqueue AnyPrio p q
                 | AnyTbf q => lift_enqueue AnyTbf p q | AnyHtb q => lift_enqueue AnyHtb p q
                 end;
  dequeue now q := match q with
                   | AnyFifo q => lift_dequeue AnyFifo now q | AnyPrio q => lift_dequeue AnyPrio now q
                   | AnyTbf q => lift_dequeue AnyTbf now q | AnyHtb q => lift_dequeue AnyHtb now q
                   end;
  peek q := match q with AnyFifo q => peek q | AnyPrio q => peek q | AnyTbf q => peek q | AnyHtb q => peek q end;
  qlen q := match q with AnyFifo q => qlen q | AnyPrio q => qlen q | AnyTbf q => qlen q | AnyHtb q => qlen q end;
  stats q := match q with AnyFifo q => stats q | AnyPrio q => stats q | AnyTbf q => stats q | AnyHtb q => stats q end;
  reset q := match q with
             | AnyFifo q => AnyFifo (reset q) | AnyPrio q => AnyPrio (reset q)
             | AnyTbf q => AnyTbf (reset q) | AnyHtb q => AnyHtb (reset q)
             end;
}.

(** ** Traffic control of an interface *)

Record TrafficControl := mkTC { tc_interface : string; tc_qdisc : AnyQdisc; tc_enabled : bool }.

Definition TrafficControl_new (interface : string) : TrafficControl := mkTC interface (AnyFifo fifo_default) true.

Definition tc_set_qdisc (q : AnyQdisc) (t : TrafficControl) : TrafficControl := mkTC (tc_interface t) q (tc_enabled t).

Definition tc_enqueue (data : list Z) (i : PacketInfo) (t : TrafficControl) : option (TrafficControl * Result unit QdiscError) :=
  if negb (tc_enabled t) then Some (t, Ok tt)
  else '(q, r) ← enqueue (mkPacket data i) (tc_qdisc t); Some (tc_set_qdisc q t, r).

Definition tc_dequeue (now : Z) (t : TrafficControl) : TrafficControl * option QueuedPacket :=
  let '(q, r) := dequeue now (tc_qdisc t) in (tc_set_qdisc q t, r).

Definition tc_stats (t : TrafficControl) : QdiscStats := stats (tc_qdisc t).

Definition set_enabled (e : bool) (t : TrafficControl) : TrafficControl := mkTC (tc_interface t) (tc_qdisc t) e.

(** The global table of interfaces. *)
Definition get_tc (interface : string) (m : gmap string TrafficControl) : gmap string TrafficControl * Result unit QdiscError :=
  (if decide (is_Some (m !! interface)) then m else <[interface := TrafficControl_new interface]> m, Ok tt).

Definition qdisc_of_type (ty : string) : option AnyQdisc :=
  if decide (ty = "pfifo"%string) then Some (AnyFifo fifo_default)
  else if decide (ty = "prio"%string) then Some (AnyPrio prio_default)
  else if decide (ty = "tbf"%string) then Some (AnyTbf (tbf_new 1000000 10000 1000))
  else if decide (ty = "htb"%string) then Some (AnyHtb htb_new)
  else None.

Definition set_qdisc (interface ty : string) (m : gmap string TrafficControl) : gmap string TrafficControl * Result unit QdiscError :=
  match m !! interface with
  | None => (m, Err InvalidConfig)
  | Some tc =>
      match qdisc_of_type ty with
      | None => (m, Err InvalidConfig)
      | Some q => (<[interface := tc_set_qdisc q tc]> m, Ok tt)
      end
  end.

(** ** What a discipline owes its packets *)

(** A discipline sorts packets into flows. It appends an accepted packet to the queue
    of its flow, hands out only the oldest packet of some flow, and otherwise leaves
    the queues alone; it never panics. *)
Class QdiscLaws (Q : Type) `{Qdisc Q} := {
  good : Q → Prop;
  flow : Q → QueuedPacket → Z;
  queued : Q → Z → Queue;
  law_enqueue p q : good q → ∃ q' r, enqueue p q = Some (q', r) ∧ good q' ∧ (∀ x, flow q' x = flow q x) ∧
    ∀ b, queued q' b = queued q b ++ (if is_ok r && bool_decide (flow q p = b) then [p] else []);
  law_dequeue now q q' r : good q → dequeue now q = (q', r) → good q' ∧ (∀ x, flow q' x = flow q x) ∧
    match r with
    | Some p => queued q (flow q p) = p :: queued q' (flow q p) ∧ ∀ b, b ≠ flow q p → queued q' b = queued q b
    | None => ∀ b, queued q' b = queued q b
    end;
  law_count q : good q → u64 (packets_dequeued (stats q) + qlen q) = u64 (packets_enqueued (stats q));
}.

Inductive Op := Enq (p : QueuedPacket) | Deq (now : Z).

Section histories.
Context {Q : Type} `{QdiscLaws Q}.

(** The packets accepted and the packets sent, each in order. *)
Fixpoint run (ops : list Op) (q : Q) : option (Q * (Queue * Queue)) :=
  match ops with
  | [] => Some (q, ([], []))
  | Enq p :: ops' =>
      '(q, r) ← enqueue p q;
      '(q, (accepted, sent)) ← run ops' q;
      Some (q, (if is_ok r then p :: accepted else accepted, sent))
  | Deq now :: ops' =>
      let '(q, r) := dequeue now q in
      '(q, (accepted, sent)) ← run ops' q;
      Some (q, (accepted, match r with Some p => p :: sent | None => sent end))
  end.

(** The packets of one flow. *)
Definition of_flow (q : Q) (b : Z) (l : Queue) : Queue := filter (λ p, flow q p = b) l.

Lemma of_flow_cons q b p l : of_flow q b (p :: l) = (if bool_decide (flow q p = b) then [p] else []) ++ of_flow q b l.
Proof. unfold of_flow. rewrite filter_cons. by case_decide; [rewrite bool_decide_eq_true_2|rewrite bool_decide_eq_false_2]. Qed.

Lemma of_flow_ext q q' b l : (∀ x, flow q' x = flow q x) → of_flow q' b l = of_flow q b l.
Proof. intros Hf. induction l as [|p l IH]; [done|]. by rewrite !of_flow_cons, Hf, IH. Qed.

Lemma run_flows ops : ∀ q, good q → ∃ q' accepted sent, run ops q = Some (q', (accepted, sent)) ∧ good q' ∧
  (∀ x, flow q' x = flow q x) ∧ ∀ b, queued q b ++ of_flow q b accepted = of_flow q b sent ++ queued q' b.
Proof.
  induction ops as [|[p|now] ops IH]; intros q Hg; cbn [run].
  - exists q, [], []. split_and!; [done..|]. intros b. by rewrite app_nil_r.
  - destruct (law_enqueue p q Hg) as (q1 & r & -> & Hg1 & Hf1 & Hq1). cbn [mbind option_bind].
    destruct (IH q1 Hg1) as (q' & accepted & sent & -> & Hg' & Hf' & Hq'). cbn [mbind option_bind].
    eexists _, _, _. split_and!; [done..| |]; [intros x; by rewrite Hf', Hf1|].
    intros b. specialize (Hq' b). rewrite !(of_flow_ext q q1), Hq1, <- app_assoc in Hq' by done. rewrite <- Hq'. f_equal.
    destruct (is_ok r); [|done]. by rewrite of_flow_cons.
  - destruct (dequeue now q) as [q1 r] eqn:Hd.
    destruct (law_dequeue now q q1 r Hg Hd) as (Hg1 & Hf1 & Hq1).
    destruct (IH q1 Hg1) as (q' & accepted & sent & -> & Hg' & Hf' & Hq'). cbn [mbind option_bind].
    eexists _, _, _. split_and!; [done..| |]; [intros x; by rewrite Hf', Hf1|].
    intros b. specialize (Hq' b). rewrite !(of_flow_ext q q1) in Hq' by done.
    destruct r as [p|]; [|by rewrite <- Hq1]. destruct Hq1 as [Hp Hq1]. rewrite of_flow_cons.
    case_bool_decide as Hb; [subst b; rewrite Hp; simpl; by rewrite Hq'|].
    rewrite <- Hq1 by congruence. done.
Qed.

(** [C35] Every discipline in a sound state ([good]: at least one band or any classes, queues
    and counters in agreement; a priority discipline without bands panics,
    [prio_no_bands]) with empty queues keeps its flows in order and loses nothing it has
    accepted: over any history no call panics, in each flow the packets accepted are, in
    order, those sent followed by those still queued, and the statistics count them
    modulo 2^64. *)
Theorem flows_in_order ops q : good q → (∀ b, queued q b = []) →
  ∃ q' accepted sent, run ops q = Some (q', (accepted, sent)) ∧
    (∀ b, of_flow q b accepted = of_flow q b sent ++ queued q' b) ∧
    u64 (packets_dequeued (stats q') + qlen q') = u64 (packets_enqueued (stats q')).
Proof.
  intros Hg He. destruct (run_flows ops q Hg) as (q' & accepted & sent & Hr & Hg' & _ & Hq).
  exists q', accepted, sent. split_and!; [done| |by apply law_count]. intros b. by rewrite <- Hq, He.
Qed.
End histories.

(** ** Each discipline keeps the laws *)

Definition counted (st : QdiscStats) (n : Z) : Prop := u64 (packets_dequeued st + n) = u64 (packets_enqueued st).

Lemma counted_in len d st n : counted st n → counted (count_in len d st) (n + 1).
Proof.
  unfold counted, u64_add, u64, wrap. simpl. unfold u64_add, u64, wrap. intros Hc.
  by rewrite Zmod_mod, Z.add_assoc, <- Zplus_mod_idemp_l, Hc, Zplus_mod_idemp_l.
Qed.

Lemma counted_out len d st n : counted st (n + 1) → counted (count_out len d st) n.
Proof. unfold counted, u64, wrap. simpl. unfold u64_add, u64, wrap. intros Hc. by rewrite Zplus_mod_idemp_l, <- Hc, <- Z.add_assoc, (Z.add_comm 1). Qed.

Lemma depth_snoc l p : depth (l ++ [p]) = depth l + 1.
Proof. unfold depth. rewrite length_app. simpl. lia. Qed.
Lemma counted_snoc len d st l p : counted st (depth l) → counted (count_in len d st) (depth (l ++ [p])).
Proof. rewrite depth_snoc. apply counted_in. Qed.
Lemma depth_cons p l : depth (p :: l) = depth l + 1.
Proof. unfold depth. simpl. lia. Qed.
Lemma sum_depth_cons b bs : sum_depth (b :: bs) = depth b + sum_depth bs.
Proof. unfold sum_depth, depth. simpl. rewrite length_app. lia. Qed.
Lemma sum_depth_insert bs i b b' : bs !! i = Some b → sum_depth (<[i := b']> bs) = sum_depth bs - depth b + depth b'.
Proof.
  revert i. induction bs as [|x bs IH]; intros [|i] Hi; simplify_eq/=; rewrite !sum_depth_cons; [lia|].
  rewrite (IH i) by done. lia.
Qed.

#[global] Program Instance Fifo_laws : QdiscLaws FifoQdisc := {
  good q := counted (f_stats q) (depth (f_queue q));
  flow _ _ := 0;
  queued q b := if decide (b = 0) then f_queue q else [];
}.
Next Obligation.
  intros p q Hg. cbn [enqueue Fifo_qdisc] in *. unfold fifo_enqueue. case_decide.
  - eexists _, _. split_and!; [done..|]. intros b. by rewrite app_nil_r.
  - eexists _, _. split_and!; [done|by apply counted_snoc|done|].
    intros b. simpl. case_decide as Hb; [subst b|rewrite bool_decide_eq_false_2 by congruence]; done.
Qed.
Next Obligation.
  intros now q q' r Hg. cbn [dequeue Fifo_qdisc]. unfold fifo_dequeue.
  destruct (pop_front (f_queue q)) as [[p l]|] eqn:Hp; intros [= <- <-]; [|done].
  apply pop_front_Some in Hp. cbn beta in Hg. rewrite Hp, depth_cons in Hg. split_and!; [by apply counted_out|done|done|].
  intros b Hb. simpl. by rewrite !decide_False by done.
Qed.
Next Obligation. done. Qed.

#[global] Program Instance Tbf_laws : QdiscLaws TbfQdisc := {
  good q := counted (t_stats q) (depth (t_queue q));
  flow _ _ := 0;
  queued q b := if decide (b = 0) then t_queue q else [];
}.
Next Obligation.
  intros p q Hg. cbn [enqueue Tbf_qdisc] in *. unfold tbf_enqueue. case_decide.
  - eexists _, _. split_and!; [done..|]. intros b. by rewrite app_nil_r.
  - eexists _, _. split_and!; [done|by apply counted_snoc|done|].
    intros b. simpl. case_decide as Hb; [subst b|rewrite bool_decide_eq_false_2 by congruence]; done.
Qed.
Next Obligation.
  intros now q q' r Hg. cbn [dequeue Tbf_qdisc]. unfold tbf_dequeue.
  assert (Hu : t_queue (update_tokens now q) = t_queue q ∧ t_stats (update_tokens now q) = t_stats q)
    by (unfold update_tokens; by case_decide). destruct Hu as [Hq Hs]. rewrite Hq.
  destruct (pop_front (t_queue q)) as [[p l]|] eqn:Hp; [destruct (can_transmit _ _)|]; intros [= <- <-]; simpl; rewrite ?Hq, ?Hs; [|done..].
  apply pop_front_Some in Hp. cbn beta in Hg. rewrite Hp, depth_cons in Hg. split_and!; [by apply counted_out|done|done|].
  intros b Hb. by rewrite !decide_False by done.
Qed.
Next Obligation. done. Qed.

(** The bands: each holds only packets of its own. *)
Definition band_of (q : PrioQdisc) (p : QueuedPacket) : nat := priority_to_band (priority (info p)) (length (bands q)).

Lemma band_lt pr n : (0 < n → priority_to_band pr n < n)%nat.
Proof. intros Hn. unfold priority_to_band. rewrite decide_False by lia. lia. Qed.

Record prio_good (q : PrioQdisc) : Prop := {
  pg_some : (0 < length (bands q))%nat;
  pg_band i b : bands q !! i = Some b → Forall (λ p, band_of q p = i) b;
  pg_count : counted (p_stats q) (sum_depth (bands q));
}.

Lemma take_first_Some bs p bs' : take_first bs = Some (p, bs') →
  ∃ i b, bs !! i = Some (p :: b) ∧ bs' = <[i := b]> bs ∧ ∀ j c, (j < i)%nat → bs !! j = Some c → c = [].
Proof.
  revert bs'. induction bs as [|b bs IH]; intros bs'; simpl; [done|]. destruct b as [|x b]; simpl.
  - destruct (take_first bs) as [[x l]|]; [|done]. intros [= -> <-]. destruct (IH l eq_refl) as (i & b & Hi & -> & Hj).
    exists (S i), b. split_and!; [done..|]. intros [|j] c Hlt Hc; simplify_eq/=; [done|]. apply (Hj j); [lia|done].
  - intros [= -> <-]. exists O, b. split_and!; [done..|]. intros; lia.
Qed.

Lemma take_first_None bs : take_first bs = None → ∀ i b, bs !! i = Some b → b = [].
Proof.
  induction bs as [|[|x b] bs IH]; simpl; [done| |done].
  destruct (take_first bs) as [[x l]|]; [done|]. intros _ [|i] b Hi; simplify_eq/=; [done|by eapply IH].
Qed.

Definition prio_queued (q : PrioQdisc) (b : Z) : Queue :=
  if decide (0 ≤ b) then default [] (bands q !! Z.to_nat b) else [].

Lemma prio_queued_at q i b : bands q !! i = Some b → prio_queued q (Z.of_nat i) = b.
Proof. intros Hi. unfold prio_queued. by rewrite decide_True, Nat2Z.id, Hi by lia. Qed.

Lemma prio_queued_other q i b m st c : c ≠ Z.of_nat i → prio_queued (mkPrio (<[i := b]> (bands q)) m st) c = prio_queued q c.
Proof.
  intros Hc. unfold prio_queued. simpl. case_decide; [|done]. by rewrite list_lookup_insert_ne by lia.
Qed.

#[global] Program Instance Prio_laws : QdiscLaws PrioQdisc := {
  good := prio_good; flow q p := Z.of_nat (band_of q p); queued := prio_queued;
}.
Next Obligation.
  intros p q [Hn Hb Hc]. cbn [enqueue Prio_qdisc]. unfold prio_enqueue. fold (band_of q p).
  destruct (lookup_lt_is_Some_2 (bands q) (band_of q p)) as [b Hl]; [by apply band_lt|]. rewrite Hl. cbn [mbind option_bind].
  case_decide; eexists _, _; (split; [done|]); [split_and!; [by constructor|done|intros; by rewrite app_nil_r]|].
  split_and!; [constructor|intros x|intros c]; simpl; unfold band_of in *; simpl; rewrite ?length_insert; [done| | |done|].
  - intros i b' Hi. destruct (decide (i = priority_to_band (priority (info p)) (length (bands q)))) as [->|Hne].
    + rewrite list_lookup_insert_eq in Hi by by apply band_lt. simplify_eq. rewrite Forall_app. split; [by apply Hb|by constructor].
    + rewrite list_lookup_insert_ne in Hi by done. by apply Hb.
  - erewrite sum_depth_insert by done. rewrite depth_snoc. rewrite Z.add_assoc, Z.sub_add. by apply counted_in.
  - case_bool_decide as He; [subst c|by rewrite prio_queued_other, app_nil_r].
    erewrite !prio_queued_at; [done|done|]. simpl. apply list_lookup_insert_eq. by apply band_lt.
Qed.
Next Obligation.
  intros now q q' r [Hn Hb Hc]. cbn [dequeue Prio_qdisc]. unfold prio_dequeue.
  destruct (take_first (bands q)) as [[p bs]|] eqn:Ht; intros [= <- <-]; [|done].
  apply take_first_Some in Ht as (i & b & Hi & -> & _). pose proof (Hb _ _ Hi) as [Hp Hrest]%Forall_cons.
  split_and!; [constructor|intros x|..]; unfold band_of in *; simpl; rewrite ?length_insert; [done| | |done|..].
  - intros j b' Hj. destruct (decide (j = i)) as [->|Hne].
    + rewrite list_lookup_insert_eq in Hj by by eapply lookup_lt_Some. by simplify_eq.
    + rewrite list_lookup_insert_ne in Hj by done. by apply Hb.
  - apply counted_out. erewrite sum_depth_insert by done. rewrite depth_cons. by replace (_ + 1) with (sum_depth (bands q)) by lia.
  - rewrite Hp. erewrite !prio_queued_at; [done| |done]. simpl. apply list_lookup_insert_eq. by eapply lookup_lt_Some.
  - rewrite Hp. intros c Hne. by rewrite prio_queued_other.
Qed.
Next Obligation. by intros q [_ _ Hc]. Qed.

(** The classes: each holds only packets of its own, and the classes do not change. *)
#[global] Instance sum_depth_perm : Proper ((≡ₚ) ==> eq) sum_depth.
Proof. intros l l' Hp. induction Hp; rewrite ?sum_depth_cons in *; lia. Qed.

Lemma class_depth m : sum_depth (class_queues m) = map_sum (λ c, depth (c_queue c)) m.
Proof.
  unfold class_queues, map_sum. rewrite map_fold_foldr.
  transitivity (sum_depth (c_queue ∘ snd <$> map_to_list m)); [by rewrite (btree_iter_perm m)|]. induction (map_to_list m) as [|[id c] l IH]; [done|].
  rewrite fmap_cons, sum_depth_cons, IH. done.
Qed.

Lemma first_class_Some m id c : first_class m = Some (id, c) →
  m !! id = Some c ∧ c_queue c ≠ [] ∧ ∀ id' c', m !! id' = Some c' → c_queue c' ≠ [] → id ≤ id'.
Proof.
  intros (Hc & Hne & Hmin)%btree_find_Some. split_and!; [done| |].
  - by apply negb_true_iff, bool_decide_eq_false in Hne.
  - intros id' c' Hc' Hne'. apply (Hmin id' c' Hc'). by apply negb_true_iff, bool_decide_eq_false.
Qed.

Lemma first_class_None m : first_class m = None ↔ ∀ id c, m !! id = Some c → c_queue c = [].
Proof.
  unfold first_class. rewrite btree_find_None. split; intros Hall id c Hc; specialize (Hall id c Hc).
  - by apply negb_false_iff, bool_decide_eq_true in Hall.
  - by apply negb_false_iff, bool_decide_eq_true.
Qed.

Lemma find_class_replace p q id c c' d st : classes q !! id = Some c →
  find_class_for_packet p (mkHtb (<[id := c']> (classes q)) (default_class q) st) =
  find_class_for_packet p (mkHtb (classes q) (default_class q) d).
Proof.
  intros Hc. unfold find_class_for_packet. simpl. case_decide; [|done]. apply decide_ext.
  rewrite lookup_insert_is_Some. destruct (decide (class_for_priority (priority (info p)) = id)) as [<-|]; naive_solver.
Qed.

Record htb_good (q : HtbQdisc) : Prop := {
  hg_class id c : classes q !! id = Some c → Forall (λ p, find_class_for_packet p q = id) (c_queue c);
  hg_count : counted (h_stats q) (sum_depth (class_queues (classes q)));
}.

Definition htb_queued (q : HtbQdisc) (b : Z) : Queue := default [] (c_queue <$> classes q !! b).

(** The queue of one class is replaced by packets of the class. *)
Lemma htb_good_replace q id c queue st : htb_good q → classes q !! id = Some c →
  Forall (λ p, find_class_for_packet p q = id) queue →
  counted st (sum_depth (class_queues (<[id := with_queue queue c]> (classes q)))) →
  htb_good (mkHtb (<[id := with_queue queue c]> (classes q)) (default_class q) st).
Proof.
  intros [Hcl _] Hc Hq Hn. constructor; [|done]. intros id' c'.
  assert (Hf : ∀ p, find_class_for_packet p (mkHtb (<[id := with_queue queue c]> (classes q)) (default_class q) st) =
                    find_class_for_packet p q) by (intros p; by erewrite (find_class_replace p q id c _ (h_stats q)); destruct q).
  simpl. rewrite lookup_insert_Some. intros [[<- <-]|[Hne Hc']].
  - simpl. eapply Forall_impl; [exact Hq|]. intros x Hx. by rewrite Hf.
  - eapply Forall_impl; [by eapply Hcl|]. intros x Hx. by rewrite Hf.
Qed.

Lemma htb_queued_replace q id c queue st b : 
  htb_queued (mkHtb (<[id := with_queue queue c]> (classes q)) (default_class q) st) b =
  if decide (b = id) then queue else htb_queued q b.
Proof. unfold htb_queued. simpl. case_decide as Hb; [subst b; by rewrite lookup_insert_eq|by rewrite lookup_insert_ne]. Qed.

#[global] Program Instance Htb_laws : QdiscLaws HtbQdisc := {
  good := htb_good; flow q p := find_class_for_packet p q; queued := htb_queued;
}.
Next Obligation.
  intros p q Hg. cbn [enqueue Htb_qdisc]. unfold htb_enqueue.
  destruct (classes q !! _) as [c|] eqn:Hc; eexists _, _; (split; [done|]).
  - split_and!.
    + apply htb_good_replace; [done..| |].
      * rewrite Forall_app. split; [by apply (hg_class q Hg)|by constructor].
      * rewrite !class_depth. erewrite map_sum_replace by done. simpl. rewrite depth_snoc.
        rewrite Z.add_assoc, Z.sub_add. apply counted_in. rewrite <- class_depth. by apply hg_count.
    + intros x. rewrite (find_class_replace x q _ c _ (h_stats q)) by done. by destruct q.
    + intros b. rewrite htb_queued_replace. simpl. case_decide as Hb.
      * subst b. rewrite bool_decide_eq_true_2 by done. unfold htb_queued. by rewrite Hc.
      * rewrite bool_decide_eq_false_2 by congruence. by rewrite app_nil_r.
  - split_and!; [by destruct Hg; constructor|done|]. intros b. by rewrite app_nil_r.
Qed.
Next Obligation.
  intros now q q' r Hg. cbn [dequeue Htb_qdisc]. unfold htb_dequeue.
  destruct (first_class (classes q)) as [[id c]|] eqn:Hf; [|by intros [= <- <-]].
  apply first_class_Some in Hf as (Hc & _ & _).
  destruct (pop_front (c_queue c)) as [[p queue]|] eqn:Hp; intros [= <- <-]; [|done].
  apply pop_front_Some in Hp. pose proof (hg_class q Hg id c Hc) as Hall. rewrite Hp in Hall.
  apply Forall_cons in Hall as [Hid Hrest]. rewrite Hid. split_and!.
  - apply htb_good_replace; [done..|]. apply counted_out. rewrite class_depth. erewrite map_sum_replace by done.
    simpl. rewrite Hp, depth_cons, <- class_depth. replace (_ + 1) with (sum_depth (class_queues (classes q))) by lia.
    by apply hg_count.
  - intros x. rewrite (find_class_replace x q _ c _ (h_stats q)) by done. by destruct q.
  - rewrite htb_queued_replace, decide_True by done. unfold htb_queued. rewrite Hc. done.
  - intros b Hb. by rewrite htb_queued_replace, decide_False.
Qed.
Next Obligation. by intros q [_ Hc]. Qed.

(** A boxed discipline keeps the laws of the one inside. *)
#[global] Program Instance Any_laws : QdiscLaws AnyQdisc := {
  good q := match q with AnyFifo q => good q | AnyPrio q => good q | AnyTbf q => good q | AnyHtb q => good q end;
  flow q := match q with AnyFifo q => flow q | AnyPrio q => flow q | AnyTbf q => flow q | AnyHtb q => flow q end;
  queued q := match q with AnyFifo q => queued q | AnyPrio q => queued q | AnyTbf q => queued q | AnyHtb q => queued q end;
}.
Next Obligation.
  intros p [q|q|q|q] Hg; cbn [enqueue Any_qdisc]; unfold lift_enqueue;
    destruct (law_enqueue p q Hg) as (q' & r & -> & ?); cbn [mbind option_bind]; by eexists _, _.
Qed.
Next Obligation.
  intros now [q|q|q|q] q' r Hg; cbn [dequeue Any_qdisc]; unfold lift_dequeue;
    destruct (dequeue now q) as [q1 r1] eqn:Hd; intros [= <- <-]; by apply (law_dequeue now q).
Qed.
Next Obligation. intros [q|q|q|q] Hg; exact (law_count q Hg). Qed.

(** ** The token bucket's rate *)

Record tbf_ok (q : TbfQdisc) : Prop := {
  to_rate : 0 ≤ rate q;
  to_tokens : 0 ≤ tokens q ≤ bucket_size q;
  to_queue : Forall (λ p, 0 ≤ len_of p) (t_queue q);
}.

Definition credit (r elapsed : Z) : Z := r * elapsed / 1000000.

Lemma credit_add r a b : credit r a + credit r b ≤ credit r (a + b).
Proof.
  unfold credit. apply Z.div_le_lower_bound; [lia|].
  pose proof (Z.mul_div_le (r * a) 1000000). pose proof (Z.mul_div_le (r * b) 1000000). lia.
Qed.

Lemma credit_mono r a b : 0 ≤ r → a ≤ b → credit r a ≤ credit r b.
Proof. intros ??. unfold credit. apply Z.div_le_mono; [lia|nia]. Qed.

Lemma u64_le z : 0 ≤ z → u64 z ≤ z.
Proof. intros. unfold u64, wrap. apply Z.mod_le; lia. Qed.

Lemma update_tokens_ok now q : tbf_ok q → let q' := update_tokens now q in
  tbf_ok q' ∧ t_queue q' = t_queue q ∧ rate q' = rate q ∧ bucket_size q' = bucket_size q ∧
  last_update q' = Z.max (last_update q) now ∧ tokens q' ≤ tokens q + credit (rate q) (last_update q' - last_update q).
Proof.
  intros [Hr Ht Hlen]. unfold update_tokens. case_decide as Hn; cbn zeta.
  - pose proof (u64_le (rate q * (now - last_update q)) ltac:(nia)) as Hm.
    assert (Hc : 0 ≤ u64_mul (rate q) (now - last_update q) / 1000000 ≤ credit (rate q) (now - last_update q)).
    { split; [apply Z.div_pos; [apply u64_range|lia]|]. apply Z.div_le_mono; [lia|done]. }
    pose proof (u64_le (tokens q + u64_mul (rate q) (now - last_update q) / 1000000) ltac:(lia)).
    pose proof (u64_range (tokens q + u64_mul (rate q) (now - last_update q) / 1000000)) as Hrange. unfold is_u64 in Hrange.
    split_and!; [constructor; simpl; [done|unfold u64_add; lia|done]|done..|simpl; lia|simpl; unfold u64_add; lia].
  - split_and!; [done..|lia|]. rewrite Z.sub_diag. unfold credit. rewrite Z.mul_0_r, Z.div_0_l by lia. lia.
Qed.

Definition bytes (l : Queue) : Z := foldr Z.add 0 (len_of <$> l).
Lemma bytes_cons p l : bytes (p :: l) = len_of p + bytes l.
Proof. done. Qed.
Definition sent_now (r : option QueuedPacket) : Z := match r with Some p => len_of p | None => 0 end.

(** The clock readings of a history are at most [T], and its packets have a length. *)
Definition history_to (T : Z) (ops : list Op) : Prop :=
  Forall (λ o, match o with Deq now => now ≤ T | Enq p => 0 ≤ len_of p end) ops.

(** One dequeue spends what it sends. *)
Lemma tbf_dequeue_spends now q q' r : tbf_ok q → tbf_dequeue now q = (q', r) →
  tbf_ok q' ∧ rate q' = rate q ∧ last_update q' = Z.max (last_update q) now ∧
  tokens q' + sent_now r ≤ tokens q + credit (rate q) (last_update q' - last_update q).
Proof.
  intros Hok. unfold tbf_dequeue. destruct (update_tokens_ok now q Hok) as (Hok' & _ & Hr & _ & Hl & Ht).
  revert Hok' Hr Hl Ht. generalize (update_tokens now q) as q1. intros q1 [Hr1 Ht1 Hlen] Hr Hl Ht.
  destruct (pop_front (t_queue q1)) as [[p l]|] eqn:Hp; [destruct (can_transmit _ _) eqn:Hc|]; intros [= <- <-]; simpl.
  - apply Z.leb_le in Hc. apply pop_front_Some in Hp. rewrite Hp in Hlen. apply Forall_cons in Hlen as [Hlp Hlen].
    split_and!; [constructor; simpl; [done|lia|done]|done..|lia].
  - split_and!; [by constructor|done..|lia].
  - split_and!; [by constructor|done..|lia].
Qed.

Lemma tbf_enqueue_spends p q q' r : tbf_ok q → 0 ≤ len_of p → tbf_enqueue p q = Some (q', r) →
  tbf_ok q' ∧ rate q' = rate q ∧ last_update q' = last_update q ∧ tokens q' = tokens q.
Proof.
  intros [Hr Ht Hlen] Hp. unfold tbf_enqueue. case_decide; intros [= <- <-]; split_and!; [constructor; simpl..]; try done.
  rewrite Forall_app. by repeat constructor.
Qed.

Lemma run_spends T ops : ∀ q q' accepted sent, tbf_ok q → last_update q ≤ T → history_to T ops →
  run ops q = Some (q', (accepted, sent)) →
  tbf_ok q' ∧ tokens q' + bytes sent ≤ tokens q + credit (rate q) (T - last_update q).
Proof.
  induction ops as [|[p|now] ops IH]; intros q q' accepted sent Hok Hl Hh; cbn [run].
  - intros [= <- <- <-]. pose proof (credit_mono (rate q) 0 (T - last_update q) (to_rate q Hok) ltac:(lia)) as Hc.
    unfold credit at 1 in Hc. rewrite Z.mul_0_r, Z.div_0_l in Hc by lia. unfold bytes. simpl. split; [done|lia].
  - apply Forall_cons in Hh as [Hp Hh]. cbn [enqueue Tbf_qdisc]. destruct (tbf_enqueue p q) as [[q1 r]|] eqn:He; [|done].
    destruct (tbf_enqueue_spends p q q1 r Hok Hp He) as (Hok1 & Hr & Hl1 & Ht1). cbn [mbind option_bind].
    destruct (run ops q1) as [[q2 [acc s]]|] eqn:Hrun; [|done]. intros [= <- <- <-].
    specialize (IH q1 _ _ _ Hok1 ltac:(lia) Hh Hrun). rewrite Hr, Hl1, Ht1 in IH. done.
  - apply Forall_cons in Hh as [Hnow Hh]. cbn [dequeue Tbf_qdisc]. destruct (tbf_dequeue now q) as [q1 r] eqn:Hd.
    destruct (tbf_dequeue_spends now q q1 r Hok Hd) as (Hok1 & Hr & Hl1 & Ht1).
    destruct (run ops q1) as [[q2 [acc s]]|] eqn:Hrun; [|done]. cbn [mbind option_bind]. intros [= <- <- <-].
    destruct (IH q1 _ _ _ Hok1 ltac:(lia) Hh Hrun) as [Hok2 Hs]. split; [done|]. rewrite Hr in Hs.
    pose proof (credit_add (rate q) (last_update q1 - last_update q) (T - last_update q1)) as Hadd.
    replace (last_update q1 - last_update q + (T - last_update q1)) with (T - last_update q) in Hadd by lia.
    destruct r as [p|]; rewrite ?bytes_cons; simpl in Ht1; lia.
Qed.

(** [C36] The token bucket holds its rate: over any history, from any state of the bucket, with
    the clock read as any numbers up to [T], the bytes sent are at most one bucket plus the
    rate times the time since the last refill, a millionth of the rate for each tick, although
    the product and the sum of the refill may wrap. *)
Theorem tbf_rate T ops q q' accepted sent : tbf_ok q → last_update q ≤ T → history_to T ops →
  run ops q = Some (q', (accepted, sent)) →
  bytes sent ≤ bucket_size q + rate q * (T - last_update q) / 1000000.
Proof.
  intros Hok Hl Hh Hrun. destruct (run_spends T ops q q' accepted sent Hok Hl Hh Hrun) as [Hok' Hs].
  pose proof (to_tokens q' Hok'). pose proof (to_tokens q Hok). unfold credit in Hs. lia.
Qed.

(** A packet longer than the bucket is never sent, and holds everything behind it. *)
Lemma tbf_dequeue_stuck now q p l : tokens q ≤ bucket_size q → t_queue q = p :: l → bucket_size q < len_of p →
  ∃ q', tbf_dequeue now q = (q', None) ∧ t_queue q' = p :: l ∧ bucket_size q' = bucket_size q ∧ tokens q' ≤ bucket_size q.
Proof.
  intros Ht Hq Hp. unfold tbf_dequeue.
  assert (Hu : let q1 := update_tokens now q in t_queue q1 = p :: l ∧ bucket_size q1 = bucket_size q ∧ tokens q1 ≤ bucket_size q)
    by (unfold update_tokens; case_decide; simpl; split_and!; [done..|lia|done|done|done]).
  cbn zeta in Hu. revert Hu. generalize (update_tokens now q) as q1. intros q1 (Hq1 & Hb1 & Ht1). rewrite Hq1. simpl.
  replace (can_transmit (len_of p) q1) with false; [by eexists|]. symmetry. apply Z.leb_gt. lia.
Qed.

Lemma oversized_blocks ops : ∀ q p l q' accepted sent, tokens q ≤ bucket_size q → t_queue q = p :: l → bucket_size q < len_of p →
  run ops q = Some (q', (accepted, sent)) → sent = [].
Proof.
  induction ops as [|[x|now] ops IH]; intros q p l q' accepted sent Ht Hq Hp; cbn [run].
  - by intros [= _ _ <-].
  - cbn [enqueue Tbf_qdisc]. destruct (tbf_enqueue x q) as [[q1 r]|] eqn:He; [|done]. cbn [mbind option_bind].
    assert (H1 : ∃ l', t_queue q1 = p :: l' ∧ bucket_size q1 = bucket_size q ∧ tokens q1 = tokens q).
    { revert He. unfold tbf_enqueue. case_decide; intros [= <- <-]; simpl; [by exists l|]. exists (l ++ [x]). by rewrite Hq. }
    destruct H1 as (l' & Hq1 & Hb1 & Ht1). destruct (run ops q1) as [[q2 [acc s]]|] eqn:Hrun; [|done].
    intros [= _ _ <-]. eapply (IH q1 p l'); [lia|done|lia|done].
  - cbn [dequeue Tbf_qdisc]. destruct (tbf_dequeue_stuck now q p l Ht Hq Hp) as (q1 & -> & Hq1 & Hb1 & Ht1).
    destruct (run ops q1) as [[q2 [acc s]]|] eqn:Hrun; [|done]. cbn [mbind option_bind].
    intros [= _ _ <-]. eapply (IH q1 p l); [lia|done|lia|done].
Qed.

(** Once it has waited for its bytes, the first packet is sent. *)
Lemma tbf_sends now q p l : tbf_ok q → t_queue q = p :: l → last_update q < now → len_of p ≤ bucket_size q →
  bucket_size q + rate q * (now - last_update q) < 2 ^ 64 →
  len_of p ≤ tokens q + rate q * (now - last_update q) / 1000000 → (tbf_dequeue now q).2 = Some p.
Proof.
  intros [Hr Ht Hlen] Hq Hnow Hb Hw Hp.
  assert (Hdiv : 0 ≤ rate q * (now - last_update q) / 1000000 ≤ rate q * (now - last_update q)).
  { split; [apply Z.div_pos; nia|]. apply Z.div_le_upper_bound; nia. }
  unfold tbf_dequeue, update_tokens. rewrite decide_True by done. simpl. rewrite Hq. simpl.
  unfold can_transmit. simpl. unfold u64_mul. rewrite (u64_small (rate q * _)) by (unfold is_u64; nia).
  rewrite u64_add_small by lia. replace (_ <=? _) with true; [done|]. symmetry. apply Z.leb_le. lia.
Qed.

(** ** Which packet goes first *)

(** The bands are served strictly: nothing of a lower band while a higher one waits. *)
Lemma prio_strict now q q' p i b : prio_good q → prio_dequeue now q = (q', Some p) →
  (i < band_of q p)%nat → bands q !! i = Some b → b = [].
Proof.
  intros Hg. unfold prio_dequeue. destruct (take_first (bands q)) as [[x bs]|] eqn:Ht; [|done]. intros [= <- <-].
  apply take_first_Some in Ht as (j & c & Hj & -> & Hlt). pose proof (pg_band q Hg j _ Hj) as [-> _]%Forall_cons. apply Hlt.
Qed.

(** So are the classes, by their ids: no rate, ceiling, quantum or token is read. *)
Lemma htb_strict now q q' p id c : htb_good q → htb_dequeue now q = (q', Some p) →
  classes q !! id = Some c → c_queue c ≠ [] → find_class_for_packet p q ≤ id.
Proof.
  intros Hg. unfold htb_dequeue. destruct (first_class (classes q)) as [[k x]|] eqn:Hf; [|done].
  apply first_class_Some in Hf as (Hk & _ & Hmin). destruct (pop_front (c_queue x)) as [[y l]|] eqn:Hp; [|done].
  intros [= <- <-]. apply pop_front_Some in Hp. pose proof (hg_class q Hg k x Hk) as Hall. rewrite Hp in Hall.
  apply Forall_cons in Hall as [-> _]. apply Hmin.
Qed.

(** Two classes that differ in the rates only are served alike. *)
Definition same_but_rates (c c' : HtbClass) : Prop := c_queue c = c_queue c'.

Lemma htb_no_rates now q c' id c p q' : first_class (classes q) = Some (id, c) → same_but_rates c c' →
  htb_dequeue now q = (q', Some p) → (htb_dequeue now (mkHtb (<[id := c']> (classes q)) (default_class q) (h_stats q))).2 = Some p.
Proof.
  intros Hf Hs. unfold htb_dequeue at 1. rewrite Hf. destruct (pop_front (c_queue c)) as [[y l]|] eqn:Hp; [|done].
  intros [= _ <-]. apply first_class_Some in Hf as (Hc & Hne & Hmin). unfold htb_dequeue. simpl.
  assert (Hf' : first_class (<[id := c']> (classes q)) = Some (id, c')); [|by rewrite Hf', <- Hs, Hp].
  destruct (first_class (<[id := c']> (classes q))) as [[id' x]|] eqn:Hf'.
  - apply first_class_Some in Hf' as (Hx & Hxne & Hxmin).
    specialize (Hxmin id c'). rewrite lookup_insert_eq, <- Hs in Hxmin. specialize (Hxmin eq_refl Hne).
    apply lookup_insert_Some in Hx as [[<- <-]|[Hd Hx]]; [done|]. specialize (Hmin id' x Hx Hxne). lia.
  - rewrite first_class_None in Hf'. specialize (Hf' id c'). rewrite lookup_insert_eq, <- Hs in Hf'. by destruct Hne; apply Hf'.
Qed.

(** What a look shows is what the next dequeue hands out, unless the bucket is too empty. *)
Lemma peek_dequeue now (q : AnyQdisc) : match q with AnyTbf _ => (dequeue now q).2 = None ∨ (dequeue now q).2 = peek q | _ => (dequeue now q).2 = peek q end.
Proof.
  destruct q as [q|q|q|q]; cbn [dequeue peek Any_qdisc]; unfold lift_dequeue; simpl.
  - unfold fifo_dequeue. by destruct (f_queue q).
  - unfold prio_dequeue. by destruct (take_first (bands q)) as [[p bs]|].
  - assert (Hu : t_queue (update_tokens now q) = t_queue q) by (unfold update_tokens; by case_decide).
    unfold tbf_dequeue. rewrite Hu. destruct (t_queue q) as [|p l]; simpl; [by left|].
    destruct (can_transmit _ _); [by right|by left].
  - unfold htb_dequeue. destruct (first_class (classes q)) as [[id c]|] eqn:Hf; [|done]. simpl.
    by destruct (c_queue c).
Qed.

(** ** Starting and replacing a discipline *)

Lemma prio_new_good n m : (0 < n)%nat → good (prio_new n m).
Proof.
  intros Hn. constructor; [by simpl; rewrite length_replicate| |].
  - intros i b Hb. simpl in Hb. apply lookup_replicate in Hb as [-> _]. done.
  - simpl. replace (sum_depth (replicate n [])) with 0; [done|].
    clear Hn. induction n as [|n IH]; [done|]. simpl. rewrite sum_depth_cons, <- IH. done.
Qed.

Lemma prio_new_empty n m b : queued (prio_new n m) b = [].
Proof.
  cbn [queued Prio_laws]. unfold prio_queued. case_decide; [|done]. unfold prio_new. cbn [bands].
  destruct (replicate n [] !! Z.to_nat b) as [l|] eqn:Hl; [|done]. by apply lookup_replicate in Hl as [-> _].
Qed.

(** With no bands the first packet is an index out of bounds. *)
Lemma prio_no_bands p m : enqueue p (prio_new 0 m) = None.
Proof. done. Qed.

Lemma tbf_new_ok r b m : 0 ≤ r → 0 ≤ b → tbf_ok (tbf_new r b m).
Proof. intros ??. constructor; simpl; [done|lia|done]. Qed.

(** A discipline whose classes are all empty is sound. *)
Lemma htb_empty_good m d : (∀ id c, m !! id = Some c → c_queue c = []) → good (mkHtb m d QdiscStats_default).
Proof.
  intros Hm. constructor; simpl.
  - intros id c Hc. by rewrite (Hm id c Hc).
  - rewrite class_depth. replace (map_sum _ m) with 0; [done|]. induction m as [|k c m Hk IH] using map_ind; [done|].
    rewrite map_sum_insert, <- IH by (done || (intros id c' Hc'; apply (Hm id); rewrite lookup_insert_ne; [done|congruence])).
    rewrite (Hm k c) by apply lookup_insert_eq. done.
Qed.

(** What [set_qdisc] can install is sound and empty. *)
Lemma installed_good ty q : qdisc_of_type ty = Some q → good q ∧ ∀ b, queued q b = [].
Proof.
  unfold qdisc_of_type. repeat case_decide; intros [= <-]; cbn [good queued Any_laws].
  - split; [done|]. intros b. simpl. by case_decide.
  - split; [by apply prio_new_good; lia|exact (prio_new_empty 5 200)].
  - split; [done|]. intros b. simpl. by case_decide.
  - split; [by apply htb_empty_good|done].
Qed.

(** Replacing a discipline drops what it held: whatever was queued, nothing is. *)
Lemma set_qdisc_drops interface ty m m' : set_qdisc interface ty m = (m', Ok tt) →
  ∃ tc, m' !! interface = Some tc ∧ ∀ b, queued (tc_qdisc tc) b = [].
Proof.
  unfold set_qdisc. destruct (m !! interface) as [tc|]; [|done]. destruct (qdisc_of_type ty) as [q|] eqn:Hq; [|done].
  intros [= <-]. eexists. split; [apply lookup_insert_eq|]. by apply installed_good in Hq as [_ Hq].
Qed.

(** While disabled, a packet is answered [Ok] and is neither queued nor counted. *)
Lemma disabled_loses data i t : tc_enabled t = false → tc_enqueue data i t = Some (t, Ok tt).
Proof. intros He. unfold tc_enqueue. by rewrite He. Qed.

(** The HTB of [set_qdisc] has no class and refuses every packet. *)
Lemma htb_installed_refuses p : ∃ q', enqueue p (AnyHtb htb_new) = Some (q', Err InvalidConfig).
Proof.
  cbn [enqueue Any_qdisc]. unfold lift_enqueue. cbn [enqueue Htb_qdisc]. unfold htb_enqueue. simpl. rewrite lookup_empty.
  by eexists.
Qed.

(** The mapping of code points never gives the critical class. *)
Lemma dscp_never_critical d i : priority (set_dscp d i) ≠ Critical.
Proof. unfold set_dscp, dscp_priority. simpl. repeat case_match; done. Qed.

(** ** Concrete histories *)

Definition packet (pr : PacketPriority) (len id : Z) : QueuedPacket := mkPacket [id] (mkInfo pr len 0 0 0 0 0 0).

Definition two_classes : HtbQdisc := add_class (HtbClass_new 2 0 100 200) (add_class (HtbClass_new 9 0 100 200) htb_new).
Definition mixed : list Op :=
  [Enq (packet BestEffort 100 1); Enq (packet Voice 50 2); Enq (packet BestEffort 70 3); Deq 0; Deq 0; Enq (packet Voice 60 4)].

(** Of two best-effort and one voice packet the voice packet leaves first. *)
Example mixed_runs : snd <$> run mixed (AnyHtb two_classes) =
  Some ([packet BestEffort 100 1; packet Voice 50 2; packet BestEffort 70 3; packet Voice 60 4],
        [packet Voice 50 2; packet BestEffort 100 1]).
Proof. vm_compute. reflexivity. Qed.

Lemma two_classes_good : good (AnyHtb two_classes) ∧ ∀ b, queued (AnyHtb two_classes) b = [].
Proof.
  assert (Hq : ∀ id c, classes two_classes !! id = Some c → c_queue c = []).
  { intros id c. unfold two_classes, add_class, htb_new. simpl. rewrite !lookup_insert_Some. naive_solver. }
  split; [by apply (htb_empty_good (classes two_classes))|]. intros b. change (htb_queued two_classes b = []). unfold htb_queued.
  destruct (classes two_classes !! b) as [c|] eqn:Hc; [|done]. by apply (Hq b).
Qed.

Lemma flows_in_order_witness :
  (good (AnyHtb two_classes) ∧ ∀ b, queued (AnyHtb two_classes) b = []) ∧
  ∃ q' accepted sent, run mixed (AnyHtb two_classes) = Some (q', (accepted, sent)) ∧
    (∀ b, of_flow (AnyHtb two_classes) b accepted = of_flow (AnyHtb two_classes) b sent ++ queued q' b) ∧
    u64 (packets_dequeued (stats q') + qlen q') = u64 (packets_enqueued (stats q')).
Proof. split; [apply two_classes_good|apply (flows_in_order mixed (AnyHtb two_classes)); apply two_classes_good]. Defined.

(** A bucket of 1000 bytes at 500 bytes for a million ticks. *)
Definition small_bucket : TbfQdisc := tbf_new 500 1000 10.
Definition bursts : list Op :=
  [Enq (packet Voice 800 1); Enq (packet Voice 600 2); Deq 10; Deq 20; Deq 1000000].

Example bursts_run : ∃ q', run bursts small_bucket = Some (q', ([packet Voice 800 1; packet Voice 600 2], [packet Voice 800 1; packet Voice 600 2])).
Proof. eexists. vm_compute. reflexivity. Qed.

Lemma tbf_rate_witness : ∃ q', tbf_ok small_bucket ∧ history_to 1000000 bursts ∧
  run bursts small_bucket = Some (q', ([packet Voice 800 1; packet Voice 600 2], [packet Voice 800 1; packet Voice 600 2])) ∧
  bytes [packet Voice 800 1; packet Voice 600 2] ≤ 1000 + 500 * 1000000 / 1000000.
Proof.
  destruct bursts_run as [q' Hrun]. exists q'.
  assert (Hok : tbf_ok small_bucket) by (apply tbf_new_ok; lia).
  assert (Hh : history_to 1000000 bursts) by (repeat constructor; vm_compute; discriminate).
  split_and!; [done..|]. apply (tbf_rate 1000000 bursts small_bucket q' [packet Voice 800 1; packet Voice 600 2] _ Hok); [vm_compute; discriminate|done|exact Hrun].
Defined.
