(* ===== verification/Paths.v ===== *)
(** * Paths: the strings the file systems take apart

    A [&str] is its bytes. The string operations of the standard library the path
    code uses (trimming, splitting and searching at a slash), the order of names in
    a directory, and the components a path walks through. *)

From Stdlib Require Import ZArith Lia.
From stdpp Require Import sorting list gmap.
From S2P Require Import Prelude.

(** The bytes of a [String] or [&str]. *)
Abbreviation Str := (list Z).

Definition SLASH : Z := 47.
Definition DOT : Str := [46].
Definition DOTDOT : Str := [46; 46].

(** ** String operations *)

(** [trim_start_matches('/')]. *)
Fixpoint trim_start (s : Str) : Str :=
  match s with
  | c :: s' => if c =? SLASH then trim_start s' else s
  | [] => []
  end.

(** [trim_end_matches('/')]. *)
Definition trim_end (s : Str) : Str := rev (trim_start (rev s)).

(** [split('/')]: one piece more than there are slashes. *)
Fixpoint split (s : Str) : list Str :=
  match s with
  | [] => [[]]
  | c :: s' =>
      if c =? SLASH then [] :: split s'
      else match split s' with
           | piece :: pieces => (c :: piece) :: pieces
           | [] => [[c]]
           end
  end.

(** [rfind('/')]. *)
Fixpoint rfind (s : Str) : option nat :=
  match s with
  | [] => None
  | c :: s' =>
      match rfind s' with
      | Some i => Some (S i)
      | None => if c =? SLASH then Some O else None
      end
  end.

(** [rsplit_once('/')]. *)
Definition rsplit_once (s : Str) : option (Str * Str) :=
  i ← rfind s; Some (take i s, drop (S i) s).

(** [starts_with]. *)
Definition starts_with (s prefix : Str) : bool := bool_decide (take (length prefix) s = prefix).

(** A component the walks skip: an empty one, [.] and [..]. *)
Definition skipped (c : Str) : bool :=
  bool_decide (c = []) || bool_decide (c = DOT) || bool_decide (c = DOTDOT).

(** The components a walk looks up. *)
Definition components (s : Str) : list Str :=
  List.filter (λ c, negb (skipped c)) (split (trim_start s)).

(** ** Their laws *)

Definition no_slash (s : Str) : Prop := SLASH ∉ s.

Lemma split_nonempty s : split s ≠ [].
Proof. induction s as [|c s IH]; simpl; [done|]. destruct (c =? SLASH); [done|]. by destruct (split s). Qed.

Lemma split_no_slash s : Forall no_slash (split s).
Proof.
  induction s as [|c s IH]; simpl.
  - repeat constructor. unfold no_slash. set_solver.
  - destruct (Z.eqb_spec c SLASH) as [->|Hc]; [constructor; [unfold no_slash; set_solver|done]|].
    destruct (split s); [repeat constructor|inversion IH; subst; constructor; [|done]];
      unfold no_slash in *; set_solver.
Qed.

Lemma split_single s : no_slash s → split s = [s].
Proof.
  unfold no_slash. induction s as [|c s IH]; simpl; intros H; [done|].
  destruct (Z.eqb_spec c SLASH) as [->|Hc]; [set_solver|]. rewrite IH by set_solver. done.
Qed.

(** Splitting undoes joining with a slash. *)
Lemma split_app a b : split (a ++ SLASH :: b) = split a ++ split b.
Proof.
  induction a as [|c a IH]; simpl; [done|].
  destruct (c =? SLASH); [by rewrite IH|]. rewrite IH.
  destruct (split a) eqn:E; [by apply split_nonempty in E|done].
Qed.

Lemma trim_start_id s : head s ≠ Some SLASH → trim_start s = s.
Proof. destruct s as [|c s]; simpl; [done|]. destruct (Z.eqb_spec c SLASH); naive_solver. Qed.

Lemma trim_start_head s : head (trim_start s) ≠ Some SLASH.
Proof. induction s as [|c s IH]; simpl; [done|]. destruct (Z.eqb_spec c SLASH); naive_solver. Qed.

Lemma trim_start_length s : (length (trim_start s) ≤ length s)%nat.
Proof. induction s as [|c s IH]; simpl; [done|]. destruct (c =? SLASH); simpl; lia. Qed.

(** Leading slashes only add empty components. *)
Lemma components_trim s : components (SLASH :: s) = components s.
Proof. unfold components. simpl. done. Qed.

Lemma components_split s : components s = List.filter (λ c, negb (skipped c)) (split s).
Proof.
  induction s as [|c s IH]; simpl; [done|].
  unfold components in *. simpl.
  destruct (Z.eqb_spec c SLASH) as [->|Hc]; simpl; [done|].
  apply Z.eqb_neq in Hc. by rewrite Hc.
Qed.

Lemma components_app a b :
  components (a ++ SLASH :: b) = components a ++ components b.
Proof. by rewrite !components_split, split_app, List.filter_app. Qed.

Lemma components_ok s : Forall (λ c, no_slash c ∧ skipped c = false) (components s).
Proof.
  rewrite components_split. apply Forall_forall. intros c Hc.
  apply list_elem_of_In, List.filter_In in Hc as [Hc Hs%negb_true_iff].
  split; [|done]. pose proof (split_no_slash s) as Hall. rewrite Forall_forall in Hall.
  apply Hall. by apply list_elem_of_In.
Qed.

Lemma rfind_Some s i : rfind s = Some i →
  s !! i = Some SLASH ∧ no_slash (drop (S i) s) ∧ s = take i s ++ SLASH :: drop (S i) s.
Proof.
  revert i. induction s as [|c s IH]; intros i; simpl; [done|].
  destruct (rfind s) as [j|] eqn:E.
  - intros [= <-]. destruct (IH j eq_refl) as (? & ? & Hs). simpl. split_and!; [done..|]. congruence.
  - destruct (Z.eqb_spec c SLASH) as [->|]; [|done]. intros [= <-]. simpl. split_and!; try done.
    clear IH. unfold no_slash. rewrite drop_0. revert E. induction s as [|d s IH]; simpl; [set_solver|].
    destruct (rfind s); [done|]. destruct (Z.eqb_spec d SLASH); [done|]. intros _.
    apply not_elem_of_cons. split; [congruence|auto].
Qed.

Lemma rfind_None s : rfind s = None ↔ no_slash s.
Proof.
  unfold no_slash. induction s as [|c s IH]; simpl; [set_solver|].
  rewrite not_elem_of_cons, <- IH.
  destruct (rfind s); [naive_solver|]. destruct (Z.eqb_spec c SLASH); naive_solver.
Qed.

(** ** The order of names in a directory *)

(** [Ord] of [String]: byte by byte. *)
Fixpoint str_leb (a b : Str) : bool :=
  match a, b with
  | [], _ => true
  | _ :: _, [] => false
  | x :: a', y :: b' => (x <? y) || (x =? y) && str_leb a' b'
  end.

#[global] Instance Str_order : KeyOrder Str.
Proof.
  refine {| key_le a b := str_leb a b = true |}.
  - intros x y. apply _.
  - intros x y z. revert y z. induction x as [|c x IH]; intros [|d y] [|e z]; simpl; try done.
    intros H1 H2. destruct (Z.ltb_spec c d), (Z.ltb_spec d e), (Z.ltb_spec c e);
      destruct (Z.eqb_spec c d), (Z.eqb_spec d e), (Z.eqb_spec c e); simpl in *; try lia; try done.
    by eapply IH.
  - induction x as [|c x IH]; intros [|d y]; simpl; [by left..|by right|].
    destruct (Z.ltb_spec c d), (Z.ltb_spec d c), (Z.eqb_spec c d), (Z.eqb_spec d c); simpl; auto; lia.
  - induction x as [|c x IH]; intros [|d y]; simpl; try done.
    destruct (Z.ltb_spec c d), (Z.ltb_spec d c), (Z.eqb_spec c d), (Z.eqb_spec d c);
      simpl; try lia; try done. subst. intros. f_equal. by apply IH.
Defined.

(** Iteration in key order commutes with mapping the values. *)
Lemma btree_iter_fmap {K V W} `{Countable K, !KeyOrder K} (f : V → W) (m : gmap K V) :
  btree_iter (f <$> m) = (λ kv, (kv.1, f kv.2)) <$> btree_iter m.
Proof.
  apply (StronglySorted_unique_strong entry_le).
  - intros [k1 v1] [k2 v2] H1%elem_of_btree_iter H2 Hle Hge.
    apply list_elem_of_fmap in H2 as ([k v] & [= -> ->] & Hk%elem_of_btree_iter). simpl in *.
    assert (k1 = k) as -> by by apply key_le_antisym. rewrite lookup_fmap, Hk in H1. simplify_eq/=. done.
  - apply btree_iter_sorted.
  - pose proof (btree_iter_sorted m) as Hs.
    induction Hs as [|[k v] l Hs IH Hall]; simpl; constructor; [done|].
    apply Forall_fmap. eapply Forall_impl; [exact Hall|]. by intros [].
  - rewrite !btree_iter_perm, map_to_list_fmap. by apply reflexive_eq.
Qed.

(** ** Trimming, and the last component *)

Lemma trim_start_split s : ∃ k, s = replicate k SLASH ++ trim_start s.
Proof.
  induction s as [|c s [k IH]]; [by exists O|]. simpl. destruct (Z.eqb_spec c SLASH) as [->|]; [|by exists O].
  exists (S k). simpl. congruence.
Qed.

Lemma components_slashes k s : components (replicate k SLASH ++ s) = components s.
Proof. induction k as [|k IH]; simpl; [done|]. by rewrite components_trim. Qed.

Lemma components_trim_start s : components (trim_start s) = components s.
Proof. destruct (trim_start_split s) as [k Hk]. rewrite Hk at 2. by rewrite components_slashes. Qed.

Lemma components_trim_end s : components (trim_end s) = components s.
Proof.
  unfold trim_end. destruct (trim_start_split (rev s)) as [k Hk].
  assert (s = rev (trim_start (rev s)) ++ replicate k SLASH) as Hs.
  { rewrite <- (rev_involutive s), Hk at 1. rewrite rev_app_distr. f_equal. rewrite rev_alt. apply reverse_replicate. }
  rewrite Hs at 2. destruct k as [|k]; simpl; [by rewrite app_nil_r|].
  rewrite components_app. by rewrite <- (app_nil_r (replicate k SLASH)), components_slashes, app_nil_r.
Qed.

Lemma components_single s : no_slash s → skipped s = false → components s = [s].
Proof. intros Hs Hk. rewrite components_split, split_single by done. simpl. by rewrite Hk. Qed.
