(* ===== verification/Fs.v ===== *)
(** * Fs: the kernel's file system in memory ([kernel/src/fs/mod.rs])

    The [RamFs] the kernel's shell and loaders use: a vector of inodes with a list of
    free indices, directories that map names to indices, and path resolution over
    strings. The specification is a finite map from paths to entries; the code refines
    it on every branch of every operation.

    [get_ticks] is read once or twice by an operation: the readings are arguments. An
    index out of bounds is a panic, [None]. *)

From Stdlib Require Import ZArith Lia String.
From stdpp Require Import list gmap strings.
From S2P Require Import Prelude.
From S2P Require Import Utf8.
From S2P Require Import Paths.
From S2P Require Import Sums.

#[local] Open Scope res_scope.

Definition MAX_FILE_SIZE : Z := 4 * 1024 * 1024.
Definition MAX_PATH_LEN : nat := 256.
Definition MAX_NAME_LEN : nat := 64.

Inductive FsError :=
  | NotFound | PermissionDenied | AlreadyExists | NotADirectory | NotAFile | NotEmpty
  | PathTooLong | NameTooLong | FileTooLarge | NoSpace | InvalidPath.
#[global] Instance FsError_eq_dec : EqDecision FsError.
Proof. solve_decision. Defined.

Inductive FileType := File | Directory.
#[global] Instance FileType_eq_dec : EqDecision FileType.
Proof. solve_decision. Defined.

Record Metadata := mkMetadata { m_file_type : FileType; m_size : nat; m_created : Z; m_modified : Z }.

Record Inode := mkInode {
  file_type : FileType;
  content : list Z;
  children : gmap Str nat;
  created : Z;
  modified : Z;
}.

Definition new_file (now : Z) : Inode := mkInode File [] ∅ now now.
Definition new_directory (now : Z) : Inode := mkInode Directory [] ∅ now now.

Definition metadata (i : Inode) : Metadata :=
  mkMetadata (file_type i) (length (content i)) (created i) (modified i).

Record RamFs := mkFs {
  inodes : list Inode;
  free_inodes : list nat;
  bytes_used : Z;
  max_size : Z;
}.

Definition RamFs_new (max : Z) (now : Z) : RamFs := mkFs [new_directory now] [] 0 max.

(** ** Inodes *)

Definition set_inode (idx : nat) (i : Inode) (fs : RamFs) : RamFs :=
  mkFs (<[idx := i]> (inodes fs)) (free_inodes fs) (bytes_used fs) (max_size fs).

Definition set_bytes_used (n : Z) (fs : RamFs) : RamFs :=
  mkFs (inodes fs) (free_inodes fs) n (max_size fs).

Definition alloc_inode (inode : Inode) (fs : RamFs) : option (RamFs * option nat) :=
  match vec_pop (free_inodes fs) with
  | Some (idx, rest) =>
      if decide (idx < length (inodes fs))%nat
      then Some (mkFs (<[idx := inode]> (inodes fs)) rest (bytes_used fs) (max_size fs), Some idx)
      else None
  | None =>
      Some (mkFs (inodes fs ++ [inode]) (free_inodes fs) (bytes_used fs) (max_size fs),
            Some (length (inodes fs)))
  end.

Definition free_inode (idx : nat) (now : Z) (fs : RamFs) : RamFs :=
  match inodes fs !! idx with
  | Some inode =>
      if decide (0 < idx)%nat then
        mkFs (<[idx := new_file now]> (inodes fs)) (free_inodes fs ++ [idx])
             (sat_sub (bytes_used fs) (Z.of_nat (length (content inode)))) (max_size fs)
      else fs
  | None => fs
  end.

(** ** Path resolution *)

Fixpoint resolve_components (fs : RamFs) (cs : list Str) (current : nat) : option (Result nat FsError) :=
  match cs with
  | [] => Some (Ok current)
  | component :: cs' =>
      if bool_decide (component = []) || bool_decide (component = DOT) then resolve_components fs cs' current
      else if bool_decide (component = DOTDOT) then resolve_components fs cs' current
      else
        inode ← inodes fs !! current;
        if decide (file_type inode ≠ Directory) then Some (Err NotADirectory)
        else match children inode !! component with
             | None => Some (Err NotFound)
             | Some next => resolve_components fs cs' next
             end
  end.

Definition resolve_path (fs : RamFs) (path : Str) : option (Result nat FsError) :=
  if decide (MAX_PATH_LEN < length path)%nat then Some (Err PathTooLong)
  else
    let path := trim_start path in
    if decide (path = []) then Some (Ok O)
    else resolve_components fs (split path) O.

Definition parent_and_name (path : Str) : Str * Str :=
  match rfind path with
  | Some pos => (take pos path, drop (S pos) path)
  | None => ([], path)
  end.

Definition resolve_parent (fs : RamFs) (path : Str) : option (Result (nat * Str) FsError) :=
  let path := trim_end (trim_start path) in
  if decide (path = []) then Some (Err InvalidPath)
  else
    let '(parent_path, name) := parent_and_name path in
    if decide (MAX_NAME_LEN < length name)%nat then Some (Err NameTooLong)
    else
      r ← resolve_path fs (if decide (parent_path = []) then [SLASH] else parent_path);
      match r with
      | Err e => Some (Err e)
      | Ok parent_idx =>
          parent ← inodes fs !! parent_idx;
          if decide (file_type parent ≠ Directory) then Some (Err NotADirectory)
          else Some (Ok (parent_idx, name))
      end.

(** ** Operations *)

(** An operation may panic; otherwise it leaves a state and a result. *)
Abbreviation fs_result A := (option (RamFs * Result A FsError)).

(** [create_file] and [create_dir] differ in the inode they make. *)
Definition create (inode : Inode) (path : Str) (now : Z) (fs : RamFs) : fs_result unit :=
  r ← resolve_parent fs path;
  match r with
  | Err e => Some (fs, Err e)
  | Ok (parent_idx, name) =>
      parent ← inodes fs !! parent_idx;
      if decide (is_Some (children parent !! name)) then Some (fs, Err AlreadyExists)
      else
        '(fs, idx) ← alloc_inode inode fs;
        match idx with
        | None => Some (fs, Err NoSpace)
        | Some inode_idx =>
            parent ← inodes fs !! parent_idx;
            Some (set_inode parent_idx
                    (mkInode (file_type parent) (content parent) (<[name := inode_idx]> (children parent))
                             (created parent) now) fs, Ok tt)
        end
  end.

Definition create_file (path : Str) (t0 t1 : Z) (fs : RamFs) : fs_result unit := create (new_file t0) path t1 fs.
Definition create_dir (path : Str) (t0 t1 : Z) (fs : RamFs) : fs_result unit := create (new_directory t0) path t1 fs.

Definition read_file (path : Str) (fs : RamFs) : option (Result (list Z) FsError) :=
  r ← resolve_path fs path;
  match r with
  | Err e => Some (Err e)
  | Ok idx =>
      inode ← inodes fs !! idx;
      if decide (file_type inode ≠ File) then Some (Err NotAFile) else Some (Ok (content inode))
  end.

Definition set_content (data : list Z) (now : Z) (i : Inode) : Inode :=
  mkInode (file_type i) data (children i) (created i) now.

Definition write_file (path : Str) (data : list Z) (now : Z) (fs : RamFs) : fs_result unit :=
  if decide (MAX_FILE_SIZE < Z.of_nat (length data)) then Some (fs, Err FileTooLarge)
  else
    r ← resolve_path fs path;
    match r with
    | Err e => Some (fs, Err e)
    | Ok idx =>
        inode ← inodes fs !! idx;
        if decide (file_type inode ≠ File) then Some (fs, Err NotAFile)
        else
          let old_size := Z.of_nat (length (content inode)) in
          let new_bytes := u64_add (u64_sub (bytes_used fs) old_size) (Z.of_nat (length data)) in
          if decide (max_size fs < new_bytes) then Some (fs, Err NoSpace)
          else Some (set_bytes_used new_bytes (set_inode idx (set_content data now inode) fs), Ok tt)
    end.

Definition append_file (path : Str) (data : list Z) (now : Z) (fs : RamFs) : fs_result unit :=
  r ← resolve_path fs path;
  match r with
  | Err e => Some (fs, Err e)
  | Ok idx =>
      inode ← inodes fs !! idx;
      if decide (file_type inode ≠ File) then Some (fs, Err NotAFile)
      else
        let new_size := u64_add (Z.of_nat (length (content inode))) (Z.of_nat (length data)) in
        if decide (MAX_FILE_SIZE < new_size) then Some (fs, Err FileTooLarge)
        else
          let new_bytes := u64_add (bytes_used fs) (Z.of_nat (length data)) in
          if decide (max_size fs < new_bytes) then Some (fs, Err NoSpace)
          else Some (set_bytes_used new_bytes (set_inode idx (set_content (content inode ++ data) now inode) fs),
                     Ok tt)
  end.

Definition list_dir (path : Str) (fs : RamFs) : option (Result (list (Str * Metadata)) FsError) :=
  r ← resolve_path fs path;
  match r with
  | Err e => Some (Err e)
  | Ok idx =>
      inode ← inodes fs !! idx;
      if decide (file_type inode ≠ Directory) then Some (Err NotADirectory)
      else
        entries ← mapM (λ '(name, child_idx), child ← inodes fs !! child_idx; Some (name, metadata child))
                       (btree_iter (children inode));
        Some (Ok entries)
  end.

Definition stat (path : Str) (fs : RamFs) : option (Result Metadata FsError) :=
  r ← resolve_path fs path;
  match r with
  | Err e => Some (Err e)
  | Ok idx => inode ← inodes fs !! idx; Some (Ok (metadata inode))
  end.

Definition unlink_child (parent_idx : nat) (name : Str) (child_idx : nat) (t0 t1 : Z) (fs : RamFs) : fs_result unit :=
  parent ← inodes fs !! parent_idx;
  Some (free_inode child_idx t1
          (set_inode parent_idx
             (mkInode (file_type parent) (content parent) (delete name (children parent)) (created parent) t0) fs),
        Ok tt).

Definition remove_file (path : Str) (t0 t1 : Z) (fs : RamFs) : fs_result unit :=
  r ← resolve_parent fs path;
  match r with
  | Err e => Some (fs, Err e)
  | Ok (parent_idx, name) =>
      parent ← inodes fs !! parent_idx;
      match children parent !! name with
      | None => Some (fs, Err NotFound)
      | Some child_idx =>
          child ← inodes fs !! child_idx;
          if decide (file_type child ≠ File) then Some (fs, Err NotAFile)
          else unlink_child parent_idx name child_idx t0 t1 fs
      end
  end.

Definition remove_dir (path : Str) (t0 t1 : Z) (fs : RamFs) : fs_result unit :=
  if decide (path = [SLASH]) then Some (fs, Err PermissionDenied)
  else
    r ← resolve_parent fs path;
    match r with
    | Err e => Some (fs, Err e)
    | Ok (parent_idx, name) =>
        parent ← inodes fs !! parent_idx;
        match children parent !! name with
        | None => Some (fs, Err NotFound)
        | Some child_idx =>
            child ← inodes fs !! child_idx;
            if decide (file_type child ≠ Directory) then Some (fs, Err NotADirectory)
            else if decide (children child ≠ ∅) then Some (fs, Err NotEmpty)
            else unlink_child parent_idx name child_idx t0 t1 fs
        end
    end.

Record FsStats := mkStats { total_bytes : Z; used_bytes : Z; inode_count : nat; free_count : nat }.

Definition stats (fs : RamFs) : FsStats :=
  mkStats (max_size fs) (bytes_used fs) (length (inodes fs)) (length (free_inodes fs)).

(** ** Specification: a map from paths to entries *)

Inductive Entry := AFile (data : list Z) | ADir.
#[global] Instance Entry_eq_dec : EqDecision Entry.
Proof. solve_decision. Defined.

(** The root, the empty path, is a directory and is not in the map. *)
Abbreviation Tree := (gmap (list Str) Entry).

Definition entry_size (e : Entry) : Z := match e with AFile data => Z.of_nat (length data) | ADir => 0 end.
Definition used (m : Tree) : Z := map_sum entry_size m.

Definition at_path (m : Tree) (p : list Str) : option Entry :=
  match p with [] => Some ADir | _ => m !! p end.

(** The walk from the directory [at] through the components [cs]. *)
Fixpoint spec_walk (m : Tree) (at_ : list Str) (cs : list Str) : Result (list Str) FsError :=
  match cs with
  | [] => Ok at_
  | c :: cs' =>
      match at_path m at_ with
      | Some ADir =>
          match at_path m (at_ ++ [c]) with
          | Some _ => spec_walk m (at_ ++ [c]) cs'
          | None => Err NotFound
          end
      | _ => Err NotADirectory
      end
  end.

Definition spec_resolve (m : Tree) (path : Str) : Result (list Str) FsError :=
  if decide (MAX_PATH_LEN < length path)%nat then Err PathTooLong else spec_walk m [] (components path).

Definition spec_parent (m : Tree) (path : Str) : Result (list Str * Str) FsError :=
  let path := trim_end (trim_start path) in
  if decide (path = []) then Err InvalidPath
  else
    let '(parent_path, name) := parent_and_name path in
    if decide (MAX_NAME_LEN < length name)%nat then Err NameTooLong
    else let? p := spec_resolve m parent_path in
         if decide (at_path m p = Some ADir) then Ok (p, name) else Err NotADirectory.

Inductive Request :=
  | CreateFile (path : Str)
  | CreateDir (path : Str)
  | WriteFile (path : Str) (data : list Z)
  | AppendFile (path : Str) (data : list Z)
  | ReadFile (path : Str)
  | ListDir (path : Str)
  | Stat (path : Str)
  | RemoveFile (path : Str)
  | RemoveDir (path : Str).

(** What a caller sees of an answer; the times of the metadata are left out. *)
Inductive Answer :=
  | Done
  | Data (data : list Z)
  | Listing (entries : list (Str * (FileType * nat)))
  | Meta (m : FileType * nat).
#[global] Instance Answer_eq_dec : EqDecision Answer.
Proof. solve_decision. Defined.

Definition entry_meta (e : Entry) : FileType * nat :=
  match e with AFile data => (File, length data) | ADir => (Directory, O) end.

(** The entries of a directory, by name. *)
Definition children_of (m : Tree) (p : list Str) : gmap Str Entry :=
  map_fold (λ q e acc, match last q with
                       | Some n => if decide (q = p ++ [n]) then <[n := e]> acc else acc
                       | None => acc
                       end) ∅ m.

Definition spec_add (m : Tree) (path : Str) (e : Entry) : Tree * Result Answer FsError :=
  match spec_parent m path with
  | Err err => (m, Err err)
  | Ok (p, name) =>
      match m !! (p ++ [name]) with
      | Some _ => (m, Err AlreadyExists)
      | None => (<[p ++ [name] := e]> m, Ok Done)
      end
  end.

(** Replaces the data of a file by a function of them, within the limits. *)
Definition spec_update (max : Z) (m : Tree) (path : Str) (f : list Z → list Z) : Tree * Result Answer FsError :=
  match spec_resolve m path with
  | Err err => (m, Err err)
  | Ok p =>
      match at_path m p with
      | Some (AFile old) =>
          if decide (MAX_FILE_SIZE < Z.of_nat (length (f old))) then (m, Err FileTooLarge)
          else if decide (max < used m - Z.of_nat (length old) + Z.of_nat (length (f old))) then (m, Err NoSpace)
          else (<[p := AFile (f old)]> m, Ok Done)
      | _ => (m, Err NotAFile)
      end
  end.

Definition spec_step (max : Z) (m : Tree) (r : Request) : Tree * Result Answer FsError :=
  match r with
  | CreateFile path => spec_add m path (AFile [])
  | CreateDir path => spec_add m path ADir
  | WriteFile path data =>
      if decide (MAX_FILE_SIZE < Z.of_nat (length data)) then (m, Err FileTooLarge)
      else spec_update max m path (λ _, data)
  | AppendFile path data => spec_update max m path (λ old, old ++ data)
  | ReadFile path =>
      (m, let? p := spec_resolve m path in
          match at_path m p with Some (AFile data) => Ok (Data data) | _ => Err NotAFile end)
  | ListDir path =>
      (m, let? p := spec_resolve m path in
          match at_path m p with
          | Some ADir => Ok (Listing ((λ ne, (ne.1, entry_meta ne.2)) <$> btree_iter (children_of m p)))
          | _ => Err NotADirectory
          end)
  | Stat path =>
      (m, let? p := spec_resolve m path in
          match at_path m p with Some e => Ok (Meta (entry_meta e)) | None => Err NotFound end)
  | RemoveFile path =>
      match spec_parent m path with
      | Err err => (m, Err err)
      | Ok (p, name) =>
          match m !! (p ++ [name]) with
          | None => (m, Err NotFound)
          | Some ADir => (m, Err NotAFile)
          | Some (AFile _) => (delete (p ++ [name]) m, Ok Done)
          end
      end
  | RemoveDir path =>
      if decide (path = [SLASH]) then (m, Err PermissionDenied)
      else
        match spec_parent m path with
        | Err err => (m, Err err)
        | Ok (p, name) =>
            match m !! (p ++ [name]) with
            | None => (m, Err NotFound)
            | Some (AFile _) => (m, Err NotADirectory)
            | Some ADir =>
                if decide (children_of m (p ++ [name]) ≠ ∅) then (m, Err NotEmpty)
                else (delete (p ++ [name]) m, Ok Done)
            end
        end
  end.

Fixpoint spec_run (max : Z) (m : Tree) (rs : list Request) : Tree * list (Result Answer FsError) :=
  match rs with
  | [] => (m, [])
  | r :: rs' =>
      let '(m, a) := spec_step max m r in
      let '(m, answers) := spec_run max m rs' in (m, a :: answers)
  end.

(** ** The code under the same requests *)

Definition answer_of {A} (f : A → Answer) (r : Result A FsError) : Result Answer FsError :=
  match r with Ok a => Ok (f a) | Err e => Err e end.

Definition visible (md : Metadata) : FileType * nat := (m_file_type md, m_size md).

Definition fs_step (t0 t1 : Z) (r : Request) (fs : RamFs) : fs_result Answer :=
  let change (m : fs_result unit) := '(fs, x) ← m; Some (fs, answer_of (λ _, Done) x) in
  let query {A} (f : A → Answer) (m : option (Result A FsError)) := x ← m; Some (fs, answer_of f x) in
  match r with
  | CreateFile path => change (create_file path t0 t1 fs)
  | CreateDir path => change (create_dir path t0 t1 fs)
  | WriteFile path data => change (write_file path data t0 fs)
  | AppendFile path data => change (append_file path data t0 fs)
  | ReadFile path => query Data (read_file path fs)
  | ListDir path => query (λ es, Listing ((λ ne, (ne.1, visible ne.2)) <$> es)) (list_dir path fs)
  | Stat path => query (λ md, Meta (visible md)) (stat path fs)
  | RemoveFile path => change (remove_file path t0 t1 fs)
  | RemoveDir path => change (remove_dir path t0 t1 fs)
  end.

(** A history of calls, with the two clock readings of each. *)
Fixpoint fs_run (rs : list (Z * Z * Request)) (fs : RamFs) : option (RamFs * list (Result Answer FsError)) :=
  match rs with
  | [] => Some (fs, [])
  | (t0, t1, r) :: rs' =>
      '(fs, a) ← fs_step t0 t1 r fs;
      '(fs, answers) ← fs_run rs' fs;
      Some (fs, a :: answers)
  end.

(** ** Facts about the specification *)

Lemma entry_size_nonneg e : 0 ≤ entry_size e.
Proof. destruct e; simpl; lia. Qed.

Lemma used_nonneg m : 0 ≤ used m.
Proof. apply map_sum_nonneg, entry_size_nonneg. Qed.

Lemma children_of_lookup m p n : children_of m p !! n = m !! (p ++ [n]).
Proof.
  unfold children_of.
  apply (map_fold_weak_ind (λ acc m, acc !! n = m !! (p ++ [n]))); [done|].
  intros q e m' acc Hq IH.
  destruct (decide (q = p ++ [n])) as [->|Hne].
  - rewrite last_snoc, decide_True, !lookup_insert_eq by done. done.
  - rewrite (lookup_insert_ne m') by done. destruct (last q) as [n'|] eqn:Hl; [|done].
    destruct (decide (q = p ++ [n'])) as [->|]; [|done].
    rewrite lookup_insert_ne; [done|]. intros ->. done.
Qed.

(** ** The tree of inodes *)

(** The child of an inode under a name. *)
Definition kids (fs : RamFs) (i : nat) (n : Str) : option nat := d ← inodes fs !! i; children d !! n.

Definition walk (fs : RamFs) (p : list Str) : option nat := foldl (λ oi n, i ← oi; kids fs i n) (Some O) p.

Definition entry_of (i : Inode) : Entry :=
  match file_type i with File => AFile (content i) | Directory => ADir end.

Definition view (fs : RamFs) (p : list Str) : option Entry := i ← walk fs p; entry_of <$> inodes fs !! i.

Record fs_wf (fs : RamFs) : Prop := {
  wf_root : ∃ d, inodes fs !! O = Some d ∧ file_type d = Directory;
  wf_child : ∀ i n j, kids fs i n = Some j → j ≠ O ∧ (j < length (inodes fs))%nat ∧ j ∉ free_inodes fs;
  wf_parent : ∀ i1 n1 i2 n2 j, kids fs i1 n1 = Some j → kids fs i2 n2 = Some j → i1 = i2 ∧ n1 = n2;
  wf_file : ∀ i d, inodes fs !! i = Some d → file_type d = File → children d = ∅;
  wf_dir : ∀ i d, inodes fs !! i = Some d → file_type d = Directory → content d = [];
  wf_free_nodup : NoDup (free_inodes fs);
  wf_free : ∀ i, i ∈ free_inodes fs →
    i ≠ O ∧ ∃ d, inodes fs !! i = Some d ∧ file_type d = File ∧ content d = [];
  wf_reach : ∀ i, (i < length (inodes fs))%nat → i ∉ free_inodes fs → ∃ p, walk fs p = Some i;
}.

(** The code's state stands for a map of the specification. *)
Record refines (fs : RamFs) (m : Tree) : Prop := {
  ref_wf : fs_wf fs;
  ref_root : m !! [] = None;
  ref_view : ∀ p, at_path m p = view fs p;
  ref_used : bytes_used fs = used m;
  ref_max : bytes_used fs ≤ max_size fs ≤ 2 ^ 63;
}.

Lemma walk_snoc fs p n : walk fs (p ++ [n]) = i ← walk fs p; kids fs i n.
Proof. unfold walk. by rewrite foldl_snoc. Qed.

Lemma walk_ext fs fs' p : (∀ i n, kids fs' i n = kids fs i n) → walk fs' p = walk fs p.
Proof.
  intros Hk. induction p as [|n p IH] using rev_ind; [done|].
  rewrite !walk_snoc, IH. by destruct (walk fs p); simpl.
Qed.

Lemma walk_bound fs p i : fs_wf fs → walk fs p = Some i → (i < length (inodes fs))%nat ∧ i ∉ free_inodes fs.
Proof.
  intros Hwf. destruct p as [|n p] using rev_ind.
  - intros [= <-]. destruct (wf_root _ Hwf) as (d & Hd & _). split; [by eapply lookup_lt_Some|].
    intros Hf. by destruct (wf_free _ Hwf _ Hf).
  - rewrite walk_snoc. destruct (walk fs p) as [k|]; simpl; [|done].
    intros Hk%(wf_child _ Hwf). tauto.
Qed.

Lemma walk_inode fs p i : fs_wf fs → walk fs p = Some i → ∃ d, inodes fs !! i = Some d.
Proof. intros Hwf Hw. apply lookup_lt_is_Some. by destruct (walk_bound _ _ _ Hwf Hw). Qed.

Lemma walk_inj fs : fs_wf fs → ∀ p q i, walk fs p = Some i → walk fs q = Some i → p = q.
Proof.
  intros Hwf p. induction p as [|n p IH] using rev_ind; intros q i.
  - intros [= <-]. destruct q as [|n q] using rev_ind; [done|].
    rewrite walk_snoc. destruct (walk fs q); simpl; [|done]. by intros [? _]%(wf_child _ Hwf).
  - rewrite walk_snoc. destruct (walk fs p) as [k|] eqn:Ek; simpl; [|done]. intros Hk.
    destruct q as [|n' q _] using rev_ind.
    + intros [= <-]. by apply (wf_child _ Hwf) in Hk as [? _].
    + rewrite walk_snoc. destruct (walk fs q) as [k'|] eqn:Ek'; simpl; [|done]. intros Hk'.
      destruct (wf_parent _ Hwf _ _ _ _ _ Hk Hk') as [-> ->]. f_equal. by eapply IH.
Qed.

(** Changing one entry of one directory changes one path, when the entries before
    and after are without children. *)
Lemma walk_update fs fs' p0 pi name v :
  fs_wf fs → walk fs p0 = Some pi →
  (∀ i n, kids fs' i n = if decide (i = pi ∧ n = name) then v else kids fs i n) →
  (∀ j n, kids fs pi name = Some j → kids fs j n = None) →
  (∀ j n, v = Some j → j ≠ pi ∧ kids fs j n = None) →
  ∀ q, walk fs' q = if decide (q = p0 ++ [name]) then v else walk fs q.
Proof.
  intros Hwf Hp Hk Hold Hnew q. induction q as [|n q IH] using rev_ind.
  - rewrite decide_False; [done|]. intros H. by destruct p0.
  - rewrite walk_snoc, IH. destruct (decide (q = p0 ++ [name])) as [->|Hq].
    + rewrite decide_False by (intros [H _]%app_inj_tail; apply (f_equal length) in H; rewrite length_app in H; simpl in H; lia).
      rewrite !walk_snoc, Hp. simpl. destruct v as [j|] eqn:Ev; simpl.
      * destruct (Hnew j n eq_refl) as [Hj Hjn]. rewrite Hk, decide_False, Hjn by tauto.
        destruct (kids fs pi name) as [j'|] eqn:Ej; simpl; [|done]. by rewrite Hold.
      * destruct (kids fs pi name) as [j'|] eqn:Ej; simpl; [|done]. by rewrite Hold.
    + rewrite walk_snoc. destruct (walk fs q) as [i|] eqn:Ei; simpl.
      * rewrite Hk. destruct (decide (i = pi ∧ n = name)) as [[-> ->]|Hne].
        -- by rewrite decide_True by (f_equal; by eapply walk_inj).
        -- rewrite decide_False; [done|]. intros [-> ->]%app_inj_tail. rewrite Hp in Ei. naive_solver.
      * rewrite decide_False; [done|]. intros [-> ->]%app_inj_tail. congruence.
Qed.

Lemma kids_file fs i d n : fs_wf fs → inodes fs !! i = Some d → file_type d = File → kids fs i n = None.
Proof. intros Hwf Hd Hf. unfold kids. rewrite Hd. simpl. by rewrite (wf_file _ Hwf i d). Qed.

Lemma kids_free fs i n : fs_wf fs → i ∈ free_inodes fs → kids fs i n = None.
Proof. intros Hwf Hi. destruct (wf_free _ Hwf i Hi) as (_ & d & Hd & Hf & _). by eapply kids_file. Qed.

Lemma view_root fs : fs_wf fs → view fs [] = Some ADir.
Proof. intros Hwf. destruct (wf_root _ Hwf) as (d & Hd & Ht). unfold view. simpl. rewrite Hd. simpl. unfold entry_of. by rewrite Ht. Qed.

Lemma at_path_snoc m p n : at_path m (p ++ [n]) = m !! (p ++ [n]).
Proof. by destruct p. Qed.

(** ** Resolution refines the walk of the specification *)

(** Results that agree: the same error, or an index and the path that leads to it. *)
Definition same_place (fs : RamFs) (r : Result nat FsError) (s : Result (list Str) FsError) : Prop :=
  match r, s with
  | Ok i, Ok p => walk fs p = Some i
  | Err e, Err e' => e = e'
  | _, _ => False
  end.

Section refinement.
Context (fs : RamFs) (m : Tree) (Href : refines fs m).

Lemma at_path_walk p i d : walk fs p = Some i → inodes fs !! i = Some d → at_path m p = Some (entry_of d).
Proof. intros Hw Hd. rewrite (ref_view _ _ Href). unfold view. rewrite Hw. simpl. by rewrite Hd. Qed.

Lemma at_path_kids p i n : walk fs p = Some i → is_Some (at_path m (p ++ [n])) ↔ is_Some (kids fs i n).
Proof.
  intros Hw. rewrite (ref_view _ _ Href). unfold view. rewrite walk_snoc, Hw. simpl.
  destruct (kids fs i n) as [j|] eqn:Hj; simpl; [|done].
  destruct (wf_child _ (ref_wf _ _ Href) _ _ _ Hj) as (_ & [d Hd]%lookup_lt_is_Some & _). rewrite Hd. naive_solver.
Qed.

Lemma resolve_components_refines cs : ∀ i p, walk fs p = Some i →
  ∃ r, resolve_components fs cs i = Some r ∧
       same_place fs r (spec_walk m p (List.filter (λ c, negb (skipped c)) cs)).
Proof.
  pose proof (ref_wf _ _ Href) as Hwf.
  induction cs as [|c cs IH]; intros i p Hw; simpl; [by exists (Ok i)|].
  unfold skipped at 1. destruct (bool_decide (c = []) || bool_decide (c = DOT)); simpl; [by apply IH|].
  destruct (bool_decide (c = DOTDOT)); simpl; [by apply IH|].
  destruct (walk_inode _ _ _ Hwf Hw) as [d Hd]. rewrite Hd. simpl.
  rewrite (at_path_walk p i d) by done. unfold entry_of.
  destruct (file_type d) eqn:Ht; [rewrite decide_True by done; by exists (Err NotADirectory)|].
  rewrite decide_False by naive_solver.
  assert (Hk : kids fs i c = children d !! c) by (unfold kids; by rewrite Hd).
  pose proof (at_path_kids p i c Hw) as Hc. rewrite Hk in Hc.
  destruct (children d !! c) as [j|] eqn:Hj.
  - assert (is_Some (at_path m (p ++ [c]))) as [e ->] by (apply Hc; eauto).
    apply IH. rewrite walk_snoc, Hw. simpl. congruence.
  - destruct (at_path m (p ++ [c])); [|by exists (Err NotFound)].
    destruct Hc as [[? [=]] _]. eauto.
Qed.

Lemma resolve_path_refines path :
  ∃ r, resolve_path fs path = Some r ∧ same_place fs r (spec_resolve m path).
Proof.
  unfold resolve_path, spec_resolve. case_decide; [by exists (Err PathTooLong)|].
  case_decide as He.
  - exists (Ok O). split; [done|]. unfold components. by rewrite He.
  - apply (resolve_components_refines _ O []). done.
Qed.

Lemma spec_resolve_at path p : spec_resolve m path = Ok p → ∃ i d, walk fs p = Some i ∧ inodes fs !! i = Some d.
Proof.
  intros Hs. destruct (resolve_path_refines path) as (r & _ & Hr). rewrite Hs in Hr.
  destruct r as [i|]; [|done]. destruct (walk_inode _ _ _ (ref_wf _ _ Href) Hr) as [d ?]. eauto.
Qed.

(** What [resolve_parent] finds: a directory of the tree, and the name. *)
Definition same_parent (r : Result (nat * Str) FsError) (s : Result (list Str * Str) FsError) : Prop :=
  match r, s with
  | Ok (i, n), Ok (p, n') => n = n' ∧ walk fs p = Some i ∧ at_path m p = Some ADir
  | Err e, Err e' => e = e'
  | _, _ => False
  end.

Lemma resolve_parent_refines path :
  ∃ r, resolve_parent fs path = Some r ∧ same_parent r (spec_parent m path).
Proof.
  unfold resolve_parent, spec_parent. case_decide; [by exists (Err InvalidPath)|].
  destruct (parent_and_name _) as [pp name]. case_decide; [by exists (Err NameTooLong)|].
  assert (spec_resolve m pp = spec_resolve m (if decide (pp = []) then [SLASH] else pp)) as ->.
  { case_decide; [subst|done]. done. }
  destruct (resolve_path_refines (if decide (pp = []) then [SLASH] else pp)) as (r & -> & Hr). simpl.
  destruct r as [i|e], (spec_resolve m _) as [p|e']; simpl in *; try done; [|exists (Err e); by subst].
  destruct (walk_inode _ _ _ (ref_wf _ _ Href) Hr) as [d Hd]. rewrite Hd. simpl.
  rewrite (at_path_walk p i d) by done. assert (He : entry_of d = ADir ↔ file_type d = Directory) by (unfold entry_of; destruct (file_type d); naive_solver).
  destruct (decide (file_type d = Directory)) as [Ht|Ht].
  - rewrite decide_False, decide_True by (try f_equal; tauto). exists (Ok (i, name)). split; [done|].
    split_and!; [done..|]. rewrite (at_path_walk p i d) by done. f_equal. tauto.
  - rewrite decide_True by done. rewrite decide_False by (intros [= ?]; tauto). by exists (Err NotADirectory).
Qed.

End refinement.

(** ** Changes of state *)

(** What [alloc_inode] promises: an index outside the tree, taken off the free list. *)
Record allocated (fs : RamFs) (inode : Inode) (fs1 : RamFs) (j : nat) : Prop := {
  al_new : inodes fs1 !! j = Some inode;
  al_old : ∀ i, i ≠ j → inodes fs1 !! i = inodes fs !! i;
  al_root : j ≠ O;
  al_unused : ∀ i n, kids fs i n ≠ Some j;
  al_leaf : ∀ n, kids fs j n = None;
  al_outside : ∀ p, walk fs p ≠ Some j;
  al_free : ∀ i, i ∈ free_inodes fs1 ↔ i ∈ free_inodes fs ∧ i ≠ j;
  al_nodup : NoDup (free_inodes fs1);
  al_length : ∀ i, (i < length (inodes fs1))%nat ↔ (i < length (inodes fs))%nat ∨ i = j;
  al_used : bytes_used fs1 = bytes_used fs;
  al_max : max_size fs1 = max_size fs;
}.

Lemma alloc_inode_spec fs inode : fs_wf fs →
  ∃ fs1 j, alloc_inode inode fs = Some (fs1, Some j) ∧ allocated fs inode fs1 j.
Proof.
  intros Hwf. unfold alloc_inode.
  destruct (vec_pop (free_inodes fs)) as [[j rest]|] eqn:Hpop.
  - apply vec_pop_Some in Hpop as Hf.
    assert (Hin : j ∈ free_inodes fs) by (rewrite Hf; set_solver).
    destruct (wf_free _ Hwf j Hin) as (Hj0 & d & Hd & Ht & Hc).
    pose proof (lookup_lt_Some _ _ _ Hd) as Hlt. rewrite decide_True by done.
    eexists _, j. split; [done|].
    pose proof (wf_free_nodup _ Hwf) as Hnd. rewrite Hf, NoDup_app in Hnd. destruct Hnd as (Hnd & Hdisj & _).
    split; simpl; try done.
    + by rewrite list_lookup_insert_eq.
    + intros i Hi. by rewrite list_lookup_insert_ne.
    + intros i n (_ & _ & H)%(wf_child _ Hwf). done.
    + intros n. by apply kids_free.
    + intros p H%walk_bound; [tauto|done].
    + intros i. rewrite Hf. specialize (Hdisj j). set_solver.
    + intros i. rewrite length_insert. naive_solver.
  - apply vec_pop_None in Hpop as Hf. eexists _, (length (inodes fs)). split; [done|].
    split; simpl; try done.
    + by rewrite lookup_app_r, Nat.sub_diag by lia.
    + intros i Hi. destruct (decide (i < length (inodes fs))%nat); [by rewrite lookup_app_l|].
      rewrite !lookup_ge_None_2; [done|lia|rewrite length_app; simpl; lia].
    + destruct (wf_root _ Hwf) as (d & Hd & _). apply lookup_lt_Some in Hd. lia.
    + intros i n (_ & H & _)%(wf_child _ Hwf). lia.
    + intros n. unfold kids. by rewrite lookup_ge_None_2.
    + intros p [H _]%walk_bound; [lia|done].
    + intros i. rewrite Hf. set_solver.
    + by rewrite Hf; constructor.
    + intros i. rewrite length_app. simpl. lia.
Qed.

(** The view after [walk_update], when the other entries of the tree are the same. *)
Lemma view_update fs fs' p0 name v q :
  (∀ q, walk fs' q = if decide (q = p0 ++ [name]) then v else walk fs q) →
  (q ≠ p0 ++ [name] → ∀ i, walk fs q = Some i → entry_of <$> inodes fs' !! i = entry_of <$> inodes fs !! i) →
  view fs' q = if decide (q = p0 ++ [name]) then (i ← v; entry_of <$> inodes fs' !! i) else view fs q.
Proof.
  intros Hw He. unfold view. rewrite Hw. destruct (decide (q = p0 ++ [name])); [done|].
  destruct (walk fs q) as [i|] eqn:Ei; simpl; [|done]. by apply He.
Qed.

Lemma refines_set_content fs m p i d data now n :
  refines fs m → walk fs p = Some i → inodes fs !! i = Some d → file_type d = File →
  n = used m - Z.of_nat (length (content d)) + Z.of_nat (length data) → n ≤ max_size fs →
  refines (set_bytes_used n (set_inode i (set_content data now d) fs)) (<[p := AFile data]> m).
Proof.
  intros Href Hw Hd Ht Hn Hmax. pose proof (ref_wf _ _ Href) as Hwf.
  set (fs' := set_bytes_used n _).
  assert (Hin : ∀ k, inodes fs' !! k = if decide (k = i) then Some (set_content data now d) else inodes fs !! k).
  { intros k. simpl. destruct (decide (k = i)) as [->|]; [|by rewrite list_lookup_insert_ne].
    apply list_lookup_insert_eq. by eapply lookup_lt_Some. }
  assert (Hk : ∀ k x, kids fs' k x = kids fs k x).
  { intros k x. unfold kids. rewrite Hin. destruct (decide (k = i)) as [->|]; [|done]. by rewrite Hd. }
  assert (Hwalk : ∀ q, walk fs' q = walk fs q) by (intros; by apply walk_ext).
  assert (Hlen : length (inodes fs') = length (inodes fs)) by (simpl; apply length_insert).
  assert (Hp : p ≠ []).
  { intros ->. destruct (wf_root _ Hwf) as (e & He & ?). injection Hw as <-. congruence. }
  assert (Hmp : m !! p = Some (AFile (content d))).
  { pose proof (ref_view _ _ Href p) as Hv. unfold view in Hv. rewrite Hw in Hv. simpl in Hv. rewrite Hd in Hv.
    simpl in Hv. unfold entry_of in Hv. rewrite Ht in Hv. by destruct p. }
  split.
  - split; try setoid_rewrite Hk; try setoid_rewrite Hwalk; rewrite ?Hlen; try apply Hwf.
    + rewrite Hin. case_decide as Hi; [|apply Hwf]. destruct (wf_root _ Hwf) as (e & He & ?). rewrite Hi in He. congruence.
    + intros k e. rewrite Hin. case_decide; subst; [|by apply Hwf]. intros [= <-] _. by apply (wf_file _ Hwf i d).
    + intros k e. rewrite Hin. case_decide; subst; [|by apply Hwf]. intros [= <-]. simpl. congruence.
    + intros k Hkf. destruct (wf_free _ Hwf k Hkf) as (? & e & He & ?). split; [done|].
      rewrite Hin. rewrite decide_False; [eauto|]. intros ->. by destruct (walk_bound _ _ _ Hwf Hw).
  - rewrite lookup_insert_ne by done. apply Href.
  - intros q. unfold view. rewrite Hwalk. destruct (decide (q = p)) as [->|Hq].
    + rewrite Hw. cbn [mbind option_bind]. rewrite Hin, decide_True by done. simpl.
      unfold entry_of. simpl. rewrite Ht. destruct p; [done|]. simpl. by rewrite lookup_insert_eq.
    + transitivity (at_path m q); [destruct q; [done|]; simpl; by rewrite lookup_insert_ne|].
      rewrite (ref_view _ _ Href). unfold view. destruct (walk fs q) as [k|] eqn:Ek; [|done].
      cbn [mbind option_bind]. rewrite Hin, decide_False; [done|]. intros ->. apply Hq. by eapply walk_inj.
  - simpl. unfold used. by rewrite (map_sum_replace _ m p (AFile (content d))).
  - pose proof (ref_max _ _ Href). simpl. lia.
Qed.

(** A parent directory with another map of children. *)
Definition set_children (c : gmap Str nat) (now : Z) (i : Inode) : Inode :=
  mkInode (file_type i) (content i) c (created i) now.

Lemma refines_add fs m p pi d name inode fs1 j now :
  refines fs m → walk fs p = Some pi → inodes fs !! pi = Some d → file_type d = Directory →
  m !! (p ++ [name]) = None → children inode = ∅ → content inode = [] → allocated fs inode fs1 j →
  refines (set_inode pi (set_children (<[name := j]> (children d)) now d) fs1) (<[p ++ [name] := entry_of inode]> m).
Proof.
  intros Href Hw Hd Ht Hm Hch Hct Hal. pose proof (ref_wf _ _ Href) as Hwf. destruct Hal.
  assert (Hpj : pi ≠ j) by (intros ->; by eapply al_outside0).
  destruct (walk_bound _ _ _ Hwf Hw) as [Hpl Hpf].
  set (fs' := set_inode pi _ fs1).
  assert (Hin : ∀ k, inodes fs' !! k = if decide (k = pi) then Some (set_children (<[name := j]> (children d)) now d)
                                       else if decide (k = j) then Some inode else inodes fs !! k).
  { intros k. simpl. destruct (decide (k = pi)) as [->|Hk].
    - apply list_lookup_insert_eq, al_length0. by left.
    - rewrite list_lookup_insert_ne by done. destruct (decide (k = j)) as [->|]; [done|]. by apply al_old0. }
  assert (Hnone : kids fs pi name = None).
  { apply eq_None_not_Some. rewrite <- (at_path_kids fs m Href p) by done. rewrite at_path_snoc, Hm. by intros []. }
  assert (Hk : ∀ i n, kids fs' i n = if decide (i = pi ∧ n = name) then Some j else kids fs i n).
  { intros i n. unfold kids. rewrite Hin. destruct (decide (i = pi)) as [->|Hi].
    - simpl. destruct (decide (n = name)) as [->|Hn].
      + by rewrite decide_True, lookup_insert_eq by done.
      + rewrite decide_False, lookup_insert_ne by naive_solver. by rewrite Hd.
    - rewrite (decide_False (P := i = pi ∧ _)) by tauto. destruct (decide (i = j)) as [->|]; [|done]. simpl. rewrite Hch, lookup_empty.
      symmetry. apply al_leaf0. }
  assert (Hwalk : ∀ q, walk fs' q = if decide (q = p ++ [name]) then Some j else walk fs q).
  { apply walk_update with (pi := pi); try done; [naive_solver|]. intros ? n [= <-]. auto. }
  assert (Hpn : walk fs (p ++ [name]) = None) by (by rewrite walk_snoc, Hw).
  assert (Hlen : ∀ i, (i < length (inodes fs'))%nat ↔ (i < length (inodes fs))%nat ∨ i = j).
  { intros i. simpl. rewrite length_insert. apply al_length0. }
  split.
  - split.
    + rewrite Hin. destruct (wf_root _ Hwf) as (e & He & ?). case_decide; [by eauto|].
      rewrite decide_False by congruence. eauto.
    + intros i n k. rewrite Hk, Hlen. change (free_inodes fs') with (free_inodes fs1). rewrite al_free0. case_decide.
      * intros [= <-]. naive_solver.
      * intros (? & ? & ?)%(wf_child _ Hwf). naive_solver.
    + intros i1 n1 i2 n2 k. rewrite !Hk. do 2 case_decide; [naive_solver|..].
      * intros [= <-] H2. by apply al_unused0 in H2.
      * intros H1 [= <-]. by apply al_unused0 in H1.
      * apply (wf_parent _ Hwf).
    + intros i e. rewrite Hin. repeat case_decide; [|by intros [= <-]|by apply Hwf].
      intros [= <-]. simpl. congruence.
    + intros i e. rewrite Hin. repeat case_decide; [|by intros [= <-]|by apply Hwf].
      intros [= <-]. simpl. by apply (wf_dir _ Hwf pi).
    + done.
    + intros i Hi. apply al_free0 in Hi as [Hi Hij]. destruct (wf_free _ Hwf i Hi) as (? & e & ? & ?). split; [done|].
      exists e. rewrite Hin. rewrite !decide_False; [done|done|congruence].
    + intros i Hi Hif. apply Hlen in Hi. change (i ∉ free_inodes fs1) in Hif. rewrite al_free0 in Hif.
      destruct (decide (i = j)) as [->|Hij]; [exists (p ++ [name]); by rewrite Hwalk, decide_True|].
      destruct (wf_reach _ Hwf i) as [q Hq]; [tauto|tauto|]. exists q. rewrite Hwalk, decide_False; [done|]. congruence.
  - rewrite lookup_insert_ne; [apply Href|]. by destruct p.
  - intros q. rewrite (view_update fs fs' p name (Some j)); [|done|].
    + destruct (decide (q = p ++ [name])) as [->|Hq].
      * rewrite at_path_snoc, lookup_insert_eq. cbn [mbind option_bind]. by rewrite Hin, decide_False, decide_True by done.
      * rewrite <- (ref_view _ _ Href). destruct q; [done|]. simpl. by rewrite lookup_insert_ne.
    + intros _ i Hi. rewrite Hin. destruct (decide (i = pi)) as [->|]; [by rewrite Hd|].
      rewrite decide_False; [done|]. intros ->. by eapply al_outside0.
  - simpl. rewrite al_used0, (ref_used _ _ Href). unfold used. rewrite map_sum_insert by done. unfold entry_of. destruct (file_type inode); [|done].
    by rewrite Hct.
  - simpl. rewrite al_used0, al_max0. apply Href.
Qed.

Lemma refines_remove fs m p pi d name j c t0 t1 :
  refines fs m → walk fs p = Some pi → inodes fs !! pi = Some d →
  children d !! name = Some j → inodes fs !! j = Some c → children c = ∅ →
  refines (free_inode j t1 (set_inode pi (set_children (delete name (children d)) t0 d) fs)) (delete (p ++ [name]) m).
Proof.
  intros Href Hw Hd Hj Hc Hch. pose proof (ref_wf _ _ Href) as Hwf.
  assert (Hkj : kids fs pi name = Some j) by (unfold kids; by rewrite Hd).
  destruct (wf_child _ Hwf _ _ _ Hkj) as (Hj0 & Hjl & Hjf).
  assert (Hleaf : ∀ n, kids fs j n = None) by (intros; unfold kids; rewrite Hc; simpl; by rewrite Hch).
  assert (Hpj : pi ≠ j) by (intros ->; congruence).
  destruct (walk_bound _ _ _ Hwf Hw) as [Hpl Hpf].
  set (fs1 := set_inode pi _ fs). set (fs' := free_inode j t1 fs1).
  assert (Hfs : fs' = mkFs (<[j := new_file t1]> (inodes fs1)) (free_inodes fs ++ [j])
                       (sat_sub (bytes_used fs) (Z.of_nat (length (content c)))) (max_size fs)).
  { unfold fs', free_inode. simpl. rewrite list_lookup_insert_ne, Hc, decide_True by (done || lia). done. }
  clearbody fs'. subst fs'.
  set (fs' := mkFs _ _ _ _).
  assert (Hin : ∀ k, inodes fs' !! k = if decide (k = j) then Some (new_file t1)
                                       else if decide (k = pi) then Some (set_children (delete name (children d)) t0 d)
                                       else inodes fs !! k).
  { intros k. simpl. destruct (decide (k = j)) as [->|Hk]; [apply list_lookup_insert_eq; by rewrite length_insert|].
    rewrite list_lookup_insert_ne by done. destruct (decide (k = pi)) as [->|]; [by apply list_lookup_insert_eq|].
    by apply list_lookup_insert_ne. }
  assert (Hk : ∀ i n, kids fs' i n = if decide (i = pi ∧ n = name) then None else kids fs i n).
  { intros i n. unfold kids. rewrite Hin. destruct (decide (i = j)) as [->|Hi].
    - rewrite decide_False by naive_solver. symmetry. apply Hleaf.
    - destruct (decide (i = pi)) as [->|]; [|by rewrite decide_False by tauto]. simpl. rewrite Hd. simpl.
      destruct (decide (n = name)) as [->|]; [by rewrite decide_True, lookup_delete_eq|].
      by rewrite decide_False, lookup_delete_ne by naive_solver. }
  assert (Hwalk : ∀ q, walk fs' q = if decide (q = p ++ [name]) then None else walk fs q).
  { apply walk_update with (pi := pi); try done. intros ? n. rewrite Hkj. intros [= <-]. apply Hleaf. }
  assert (Hpn : walk fs (p ++ [name]) = Some j) by (by rewrite walk_snoc, Hw).
  assert (Hent : m !! (p ++ [name]) = Some (entry_of c)).
  { rewrite <- at_path_snoc, (ref_view _ _ Href). unfold view. rewrite Hpn. simpl. by rewrite Hc. }
  assert (Hlen : length (inodes fs') = length (inodes fs)) by (simpl; by rewrite !length_insert).
  assert (Hsz : Z.of_nat (length (content c)) = entry_size (entry_of c)).
  { unfold entry_of. destruct (file_type c) eqn:Et; [done|]. by rewrite (wf_dir _ Hwf j c). }
  split.
  - split.
    + rewrite Hin. rewrite decide_False by done. destruct (wf_root _ Hwf) as (e & He & ?). case_decide; [|by eauto].
      eexists. split; [done|]. simpl. congruence.
    + intros i n k. rewrite Hk, Hlen. case_decide; [done|]. intros Hkk.
      destruct (wf_child _ Hwf _ _ _ Hkk) as (? & ? & ?). split_and!; [done..|]. simpl.
      rewrite elem_of_app, list_elem_of_singleton. intros [?| ->]; [done|].
      destruct (wf_parent _ Hwf _ _ _ _ _ Hkk Hkj). tauto.
    + intros i1 n1 i2 n2 k. rewrite !Hk. do 2 case_decide; try done. apply (wf_parent _ Hwf).
    + intros i e. rewrite Hin. repeat case_decide; [by intros [= <-]| |by apply Hwf].
      intros [= <-]. simpl. intros Hf. rewrite (wf_file _ Hwf pi d) by done. apply delete_empty.
    + intros i e. rewrite Hin. repeat case_decide; [by intros [= <-]| |by apply Hwf].
      intros [= <-]. simpl. by apply (wf_dir _ Hwf pi).
    + simpl. apply NoDup_app. split_and!; [apply Hwf|set_solver|apply NoDup_singleton].
    + simpl. intros i. rewrite elem_of_app, list_elem_of_singleton. intros [Hi| ->].
      * destruct (wf_free _ Hwf i Hi) as (? & e & ? & ?). split; [done|]. exists e. rewrite Hin.
        rewrite !decide_False; [done|..]; intros ->; done.
      * split; [done|]. exists (new_file t1). by rewrite Hin, decide_True.
    + intros i. rewrite Hlen. simpl. rewrite not_elem_of_app, list_elem_of_singleton. intros Hi [Hif Hij].
      destruct (wf_reach _ Hwf i Hi Hif) as [q Hq]. exists q. rewrite Hwalk, decide_False; congruence.
  - rewrite lookup_delete_ne; [apply Href|]. by destruct p.
  - intros q. rewrite (view_update fs fs' p name None); [|done|].
    + destruct (decide (q = p ++ [name])) as [->|Hq]; [by rewrite at_path_snoc, lookup_delete_eq|].
      rewrite <- (ref_view _ _ Href). destruct q; [done|]. simpl. by rewrite lookup_delete_ne.
    + intros Hq i Hi. rewrite Hin. rewrite decide_False; [|intros ->; apply Hq; by eapply walk_inj].
      destruct (decide (i = pi)) as [->|]; [by rewrite Hd|done].
  - simpl. rewrite (ref_used _ _ Href). pose proof (used_nonneg (delete (p ++ [name]) m)). unfold used in *.
    rewrite (map_sum_delete _ m (p ++ [name]) (entry_of c)) by done. unfold sat_sub. lia.
  - simpl. pose proof (ref_max _ _ Href). pose proof (used_nonneg m). rewrite <- (ref_used _ _ Href) in *.
    unfold sat_sub. lia.
Qed.

(** ** Every operation refines its specification *)

(** A slice has at most [isize::MAX] bytes. *)
Definition sized (r : Request) : Prop :=
  match r with WriteFile _ data | AppendFile _ data => Z.of_nat (length data) < 2 ^ 63 | _ => True end.

(** One step of the code beside one step of the specification. *)
Definition step_refines (max : Z) (x : fs_result Answer) (y : Tree * Result Answer FsError) : Prop :=
  ∃ fs' a m', x = Some (fs', a) ∧ y = (m', a) ∧ refines fs' m' ∧ max_size fs' = max.

Lemma unchanged fs m a : refines fs m → step_refines (max_size fs) (Some (fs, a)) (m, a).
Proof. intros. by exists fs, a, m. Qed.
#[local] Hint Resolve unchanged : core.

Section steps.
Context (fs : RamFs) (m : Tree) (Href : refines fs m).

(** The entry of a path, with the inode that carries it. *)
Lemma at_path_inode p i : walk fs p = Some i →
  ∃ d, inodes fs !! i = Some d ∧ at_path m p = Some (entry_of d) ∧
       entry_meta (entry_of d) = visible (metadata d).
Proof.
  intros Hw. destruct (walk_inode _ _ _ (ref_wf _ _ Href) Hw) as [d Hd]. exists d.
  split_and!; [done|by apply (at_path_walk fs m Href p i)|].
  unfold entry_of, visible. destruct (file_type d) eqn:Ht; simpl; rewrite Ht; [done|].
  by rewrite (wf_dir _ (ref_wf _ _ Href) i d).
Qed.

Lemma children_of_kids p i d : walk fs p = Some i → inodes fs !! i = Some d →
  children_of m p = (λ j, default ADir (entry_of <$> inodes fs !! j)) <$> children d.
Proof.
  intros Hw Hd. apply map_eq. intros n.
  rewrite children_of_lookup, <- at_path_snoc, (ref_view _ _ Href), lookup_fmap.
  unfold view. rewrite walk_snoc, Hw. cbn [mbind option_bind]. unfold kids. rewrite Hd. cbn [mbind option_bind].
  destruct (children d !! n) as [j|] eqn:Hj; [|done]. cbn [mbind option_bind fmap option_fmap option_map].
  assert (kids fs i n = Some j) as Hk by (unfold kids; by rewrite Hd).
  apply (wf_child _ (ref_wf _ _ Href)) in Hk as (_ & [c ->]%lookup_lt_is_Some & _). done.
Qed.

Lemma add_refines path inode t : children inode = ∅ → content inode = [] →
  step_refines (max_size fs) ('(fs, x) ← create inode path t fs; Some (fs, answer_of (λ _, Done) x))
    (spec_add m path (entry_of inode)).
Proof.
  intros Hch Hct. unfold create, spec_add.
  destruct (resolve_parent_refines fs m Href path) as (r & -> & Hr). cbn [mbind option_bind].
  destruct r as [[pi n]|e], (spec_parent m path) as [[p n']|e']; simpl in Hr; try done; [|subst; by apply unchanged].
  destruct Hr as (<- & Hw & Hdir).
  destruct (at_path_inode p pi Hw) as (d & Hd & He & _). rewrite Hd. cbn [mbind option_bind].
  assert (Ht : file_type d = Directory).
  { unfold entry_of in He. rewrite Hdir in He. by destruct (file_type d). }
  pose proof (at_path_kids fs m Href p pi n Hw) as Hk. rewrite at_path_snoc in Hk.
  assert (Hkd : kids fs pi n = children d !! n) by (unfold kids; by rewrite Hd). rewrite Hkd in Hk.
  case_decide as Hex.
  - destruct (m !! (p ++ [n])); [by apply unchanged|]. destruct Hk as [_ Hk]. by destruct (Hk Hex).
  - destruct (m !! (p ++ [n])) eqn:Hm; [destruct Hex; apply Hk; eauto|].
    destruct (alloc_inode_spec fs inode (ref_wf _ _ Href)) as (fs1 & j & -> & Hal). cbn [mbind option_bind].
    assert (Hpj : pi ≠ j) by (intros ->; by eapply al_outside).
    rewrite (al_old _ _ _ _ Hal), Hd by done. cbn [mbind option_bind].
    eexists _, _, _. split_and!; [done..| |simpl; apply Hal].
    by apply (refines_add fs m p pi d n inode fs1 j t).
Qed.

(** The file a path names. *)
Lemma resolve_inode path :
  ∃ r, resolve_path fs path = Some r ∧
    match r, spec_resolve m path with
    | Ok i, Ok p => ∃ d, walk fs p = Some i ∧ inodes fs !! i = Some d ∧ at_path m p = Some (entry_of d) ∧
                         entry_meta (entry_of d) = visible (metadata d)
    | Err e, Err e' => e = e'
    | _, _ => False
    end.
Proof.
  destruct (resolve_path_refines fs m Href path) as (r & -> & Hr). exists r. split; [done|].
  destruct r as [i|e], (spec_resolve m path) as [p|e']; simpl in Hr; try done.
  destruct (at_path_inode p i Hr) as (d & ?). eauto.
Qed.

Lemma used_file p i d : walk fs p = Some i → inodes fs !! i = Some d → file_type d = File →
  Z.of_nat (length (content d)) ≤ used m.
Proof.
  intros Hw Hd Ht. destruct (at_path_inode p i Hw) as (d' & Hd' & He & _). simplify_eq.
  unfold entry_of in He. rewrite Ht in He. destruct p; [done|]. simpl in He. apply (map_sum_ge _ entry_size_nonneg _ _ _ He).
Qed.

Lemma write_refines path data t : 
  step_refines (max_size fs) ('(fs, x) ← write_file path data t fs; Some (fs, answer_of (λ _, Done) x))
    (spec_step (max_size fs) m (WriteFile path data)).
Proof.
  unfold write_file, spec_step. case_decide as Hlen; [by apply unchanged|]. unfold spec_update.
  destruct (resolve_inode path) as (r & -> & Hr). cbn [mbind option_bind].
  destruct r as [i|e], (spec_resolve m path) as [p|e']; try done; [|subst; by apply unchanged].
  destruct Hr as (d & Hw & Hd & -> & _). rewrite Hd. cbn [mbind option_bind]. unfold entry_of.
  destruct (file_type d) eqn:Ht; [rewrite decide_False by naive_solver|rewrite decide_True by naive_solver; by apply unchanged].
  rewrite (decide_False (P := MAX_FILE_SIZE < _)) by done.
  pose proof (used_file p i d Hw Hd Ht) as Hu. pose proof (ref_max _ _ Href) as Hmax.
  pose proof (ref_used _ _ Href) as Hus. unfold MAX_FILE_SIZE in *.
  rewrite u64_sub_small, u64_add_small by lia. rewrite Hus.
  case_decide; [by apply unchanged|].
  eexists _, _, _. split_and!; [done..| |done]. apply refines_set_content with (i := i); try done; lia.
Qed.

Lemma append_refines path data t : Z.of_nat (length data) < 2 ^ 63 →
  step_refines (max_size fs) ('(fs, x) ← append_file path data t fs; Some (fs, answer_of (λ _, Done) x))
    (spec_step (max_size fs) m (AppendFile path data)).
Proof.
  intros Hlen. unfold append_file, spec_step, spec_update.
  destruct (resolve_inode path) as (r & -> & Hr). cbn [mbind option_bind].
  destruct r as [i|e], (spec_resolve m path) as [p|e']; try done; [|subst; by apply unchanged].
  destruct Hr as (d & Hw & Hd & -> & _). rewrite Hd. cbn [mbind option_bind]. unfold entry_of.
  destruct (file_type d) eqn:Ht; [rewrite decide_False by naive_solver|rewrite decide_True by naive_solver; by apply unchanged].
  pose proof (used_file p i d Hw Hd Ht) as Hu.
  pose proof (ref_max _ _ Href) as Hmax. pose proof (ref_used _ _ Href) as Hus. unfold MAX_FILE_SIZE in *.
  rewrite length_app. rewrite u64_add_small by lia.
  replace (Z.of_nat (length (content d) + length data)) with (Z.of_nat (length (content d)) + Z.of_nat (length data)) by lia.
  case_decide; [by apply unchanged|]. rewrite u64_add_small by lia. rewrite Hus.
  replace (used m - Z.of_nat (length (content d)) + (Z.of_nat (length (content d)) + Z.of_nat (length data)))
    with (used m + Z.of_nat (length data)) by lia.
  case_decide; [by apply unchanged|].
  eexists _, _, _. split_and!; [done..| |done]. apply refines_set_content with (i := i); try done;
    rewrite ?length_app; lia.
Qed.

(** The entries [list_dir] collects. *)
Lemma collect_entries (l : list (Str * nat)) :
  (∀ n j, (n, j) ∈ l → is_Some (inodes fs !! j)) →
  ∃ es, mapM (λ '(name, child_idx), child ← inodes fs !! child_idx; Some (name, metadata child)) l = Some es ∧
        (λ ne, (ne.1, visible ne.2)) <$> es =
        (λ nj, (nj.1, default (Directory, O) (visible ∘ metadata <$> inodes fs !! nj.2))) <$> l.
Proof.
  induction l as [|[n j] l IH]; intros Hall; [by exists []|].
  destruct (Hall n j) as [c Hc]; [by left|]. destruct IH as (es & Hes & Heq); [intros n' j' ?; apply (Hall n' j'); by right|].
  exists ((n, metadata c) :: es). cbn [mapM]. rewrite Hc. cbn [mbind option_bind]. rewrite Hes. split; [done|].
  rewrite !fmap_cons, Heq. simpl. by rewrite Hc.
Qed.

Lemma list_refines path :
  step_refines (max_size fs) (x ← list_dir path fs; Some (fs, answer_of (λ es, Listing ((λ ne, (ne.1, visible ne.2)) <$> es)) x))
    (spec_step (max_size fs) m (ListDir path)).
Proof.
  unfold list_dir, spec_step.
  destruct (resolve_inode path) as (r & -> & Hr). cbn [mbind option_bind].
  destruct r as [i|e], (spec_resolve m path) as [p|e']; try done; [|subst; by apply unchanged]. cbn [res_bind].
  destruct Hr as (d & Hw & Hd & -> & _). rewrite Hd. cbn [mbind option_bind]. unfold entry_of at 1.
  destruct (file_type d) eqn:Ht; [rewrite decide_True by naive_solver; by apply unchanged|rewrite decide_False by naive_solver].
  rewrite (children_of_kids p i d), btree_iter_fmap by done.
  assert (Hc : ∀ n j, (n, j) ∈ btree_iter (children d) → is_Some (inodes fs !! j)).
  { intros n j Hj%elem_of_btree_iter. apply lookup_lt_is_Some.
    apply (wf_child _ (ref_wf _ _ Href) i n). unfold kids. by rewrite Hd. }
  destruct (collect_entries (btree_iter (children d)) Hc) as (es & -> & Heq).
  cbn [mbind option_bind answer_of]. rewrite Heq, <- list_fmap_compose.
  erewrite list_fmap_ext; [by apply unchanged|].
  intros k [n j] Hk%list_elem_of_lookup_2. simpl. destruct (Hc n j Hk) as [c Hcj]. rewrite Hcj. simpl.
  unfold entry_of, visible. destruct (file_type c) eqn:Etc; simpl; [by rewrite Etc|].
  by rewrite Etc, (wf_dir _ (ref_wf _ _ Href) j c).
Qed.

Lemma read_refines path :
  step_refines (max_size fs) (x ← read_file path fs; Some (fs, answer_of Data x)) (spec_step (max_size fs) m (ReadFile path)).
Proof.
  unfold read_file, spec_step.
  destruct (resolve_inode path) as (r & -> & Hr). cbn [mbind option_bind].
  destruct r as [i|e], (spec_resolve m path) as [p|e']; try done; [|subst; by apply unchanged]. cbn [res_bind].
  destruct Hr as (d & Hw & Hd & -> & _). rewrite Hd. cbn [mbind option_bind]. unfold entry_of.
  destruct (file_type d) eqn:Ht; [rewrite decide_False by naive_solver|rewrite decide_True by naive_solver]; by apply unchanged.
Qed.

Lemma stat_refines path :
  step_refines (max_size fs) (x ← stat path fs; Some (fs, answer_of (λ md, Meta (visible md)) x)) (spec_step (max_size fs) m (Stat path)).
Proof.
  unfold stat, spec_step.
  destruct (resolve_inode path) as (r & -> & Hr). cbn [mbind option_bind].
  destruct r as [i|e], (spec_resolve m path) as [p|e']; try done; [|subst; by apply unchanged]. cbn [res_bind].
  destruct Hr as (d & Hw & Hd & -> & Hv). rewrite Hd. cbn [mbind option_bind answer_of]. rewrite Hv. by apply unchanged.
Qed.

(** The child a removal finds. *)
Lemma find_child p pi n d : walk fs p = Some pi → inodes fs !! pi = Some d →
  match children d !! n, m !! (p ++ [n]) with
  | Some j, Some e => ∃ c, inodes fs !! j = Some c ∧ e = entry_of c ∧ walk fs (p ++ [n]) = Some j
  | None, None => True
  | _, _ => False
  end.
Proof.
  intros Hw Hd. rewrite <- at_path_snoc, (ref_view _ _ Href). unfold view. rewrite walk_snoc, Hw.
  cbn [mbind option_bind]. assert (Hk : kids fs pi n = children d !! n) by (unfold kids; by rewrite Hd). rewrite Hk.
  destruct (children d !! n) as [j|]; [|done]. cbn [mbind option_bind].
  apply (wf_child _ (ref_wf _ _ Href)) in Hk as (_ & [c Hc]%lookup_lt_is_Some & _). rewrite Hc. simpl. eauto.
Qed.

(** Both removals: the child is taken out when it passes the checks. *)
Lemma unlink_refines p pi n d j c t0 t1 : walk fs p = Some pi → inodes fs !! pi = Some d →
  children d !! n = Some j → inodes fs !! j = Some c → children c = ∅ →
  step_refines (max_size fs) ('(fs, x) ← unlink_child pi n j t0 t1 fs; Some (fs, answer_of (λ _, Done) x))
    (delete (p ++ [n]) m, Ok Done).
Proof.
  intros Hw Hd Hj Hc Hch. unfold unlink_child. rewrite Hd. cbn [mbind option_bind answer_of].
  eexists _, _, _. split_and!; [done..| |].
  - by apply (refines_remove fs m p pi d n j c t0 t1).
  - unfold free_inode. simpl. repeat case_match; done.
Qed.

Lemma remove_file_refines path t0 t1 :
  step_refines (max_size fs) ('(fs, x) ← remove_file path t0 t1 fs; Some (fs, answer_of (λ _, Done) x))
    (spec_step (max_size fs) m (RemoveFile path)).
Proof.
  unfold remove_file, spec_step.
  destruct (resolve_parent_refines fs m Href path) as (r & -> & Hr). cbn [mbind option_bind].
  destruct r as [[pi n]|e], (spec_parent m path) as [[p n']|e']; simpl in Hr; try done; [|subst; by apply unchanged].
  destruct Hr as (<- & Hw & _). destruct (walk_inode _ _ _ (ref_wf _ _ Href) Hw) as [d Hd]. rewrite Hd. cbn [mbind option_bind].
  pose proof (find_child p pi n d Hw Hd) as Hf.
  destruct (children d !! n) as [j|] eqn:Hj, (m !! (p ++ [n])) as [e|]; try done; [|by apply unchanged].
  destruct Hf as (c & Hc & -> & Hwj). rewrite Hc. cbn [mbind option_bind]. unfold entry_of.
  destruct (file_type c) eqn:Etc; [rewrite decide_False by naive_solver|rewrite decide_True by naive_solver; by apply unchanged].
  apply (unlink_refines p pi n d j c); try done. by apply (wf_file _ (ref_wf _ _ Href) j c).
Qed.

Lemma remove_dir_refines path t0 t1 :
  step_refines (max_size fs) ('(fs, x) ← remove_dir path t0 t1 fs; Some (fs, answer_of (λ _, Done) x))
    (spec_step (max_size fs) m (RemoveDir path)).
Proof.
  unfold remove_dir, spec_step. case_decide; [by apply unchanged|].
  destruct (resolve_parent_refines fs m Href path) as (r & -> & Hr). cbn [mbind option_bind].
  destruct r as [[pi n]|e], (spec_parent m path) as [[p n']|e']; simpl in Hr; try done; [|subst; by apply unchanged].
  destruct Hr as (<- & Hw & _). destruct (walk_inode _ _ _ (ref_wf _ _ Href) Hw) as [d Hd]. rewrite Hd. cbn [mbind option_bind].
  pose proof (find_child p pi n d Hw Hd) as Hf.
  destruct (children d !! n) as [j|] eqn:Hj, (m !! (p ++ [n])) as [e|]; try done; [|by apply unchanged].
  destruct Hf as (c & Hc & -> & Hwj). rewrite Hc. cbn [mbind option_bind]. unfold entry_of.
  destruct (file_type c) eqn:Etc; [rewrite decide_True by naive_solver; by apply unchanged|rewrite decide_False by naive_solver].
  rewrite (children_of_kids (p ++ [n]) j c) by done.
  destruct (decide (children c = ∅)) as [He|He].
  - rewrite !decide_False by (rewrite He, ?fmap_empty; tauto). by apply (unlink_refines p pi n d j c).
  - rewrite !decide_True by (rewrite ?fmap_empty_iff; done). by apply unchanged.
Qed.
End steps.

(** One call of the code is one step of the specification. *)
Lemma fs_step_refines fs m t0 t1 r : refines fs m → sized r →
  step_refines (max_size fs) (fs_step t0 t1 r fs) (spec_step (max_size fs) m r).
Proof.
  intros Href Hs. destruct r; cbn [fs_step spec_step sized] in *.
  - by apply (add_refines fs m Href path (new_file t0) t1).
  - by apply (add_refines fs m Href path (new_directory t0) t1).
  - by apply write_refines.
  - by apply append_refines.
  - by apply read_refines.
  - by apply list_refines.
  - by apply stat_refines.
  - by apply remove_file_refines.
  - by apply remove_dir_refines.
Qed.

Lemma refines_new max now : 0 ≤ max ≤ 2 ^ 63 → refines (RamFs_new max now) ∅.
Proof.
  intros Hmax.
  assert (Hk : ∀ i n, kids (RamFs_new max now) i n = None).
  { intros [|i] n; unfold kids; simpl; [apply lookup_empty|done]. }
  assert (Hw : ∀ p n, walk (RamFs_new max now) (p ++ [n]) = None).
  { intros p n. rewrite walk_snoc. destruct (walk _ p); simpl; [apply Hk|done]. }
  split; [split| | | |]; try setoid_rewrite Hk; simpl; try done.
  - by exists (new_directory now).
  - by intros [|i] d ? ?; simplify_eq/=.
  - intros [|i] d ? ?; simplify_eq/=; done.
  - constructor.
  - set_solver.
  - intros i Hi _. exists []. assert (i = O) as -> by (simpl in Hi; lia). done.
  - intros p. destruct p as [|n p _] using rev_ind; [done|]. rewrite at_path_snoc. unfold view. by rewrite Hw.
Qed.

(** ** Facts about the specification's trees *)

(** Every entry lies in a directory. *)
Definition closed (m : Tree) : Prop := ∀ p n, is_Some (m !! (p ++ [n])) → at_path m p = Some ADir.

Lemma spec_walk_Ok m cs : ∀ p q, spec_walk m p cs = Ok q → q = p ++ cs.
Proof.
  induction cs as [|c cs IH]; intros p q; simpl; [intros [= <-]; by rewrite app_nil_r|].
  destruct (at_path m p) as [[|]|]; try done. destruct (at_path m (p ++ [c])); [|done].
  intros ->%IH. by rewrite <- app_assoc.
Qed.

Lemma spec_resolve_Ok m path p : spec_resolve m path = Ok p → p = components path.
Proof. unfold spec_resolve. case_decide; [done|]. apply spec_walk_Ok. Qed.

Lemma spec_resolve_short m path p : spec_resolve m path = Ok p → (length path ≤ MAX_PATH_LEN)%nat.
Proof. unfold spec_resolve. case_decide; [done|lia]. Qed.

(** In a closed tree the directories above an entry are there. *)
Lemma closed_prefix m : closed m → ∀ cs p, is_Some (at_path m (p ++ cs)) → cs ≠ [] → at_path m p = Some ADir.
Proof.
  intros Hc cs. induction cs as [|c cs IH] using rev_ind; intros p He Hn; [done|].
  rewrite app_assoc, at_path_snoc in He. apply Hc in He.
  destruct cs as [|c' cs]; [by rewrite app_nil_r in He|]. apply IH; [eauto|done].
Qed.

Lemma spec_walk_present m cs : closed m → ∀ p, is_Some (at_path m (p ++ cs)) → spec_walk m p cs = Ok (p ++ cs).
Proof.
  intros Hc. induction cs as [|c cs IH]; intros p He; simpl; [by rewrite app_nil_r|].
  rewrite (closed_prefix m Hc (c :: cs) p) by done.
  destruct (at_path m (p ++ [c])) eqn:Hp.
  - replace (p ++ c :: cs) with ((p ++ [c]) ++ cs) in * by (by rewrite <- app_assoc). by apply IH.
  - destruct cs as [|c' cs]; [rewrite Hp in He; by destruct He|].
    rewrite (closed_prefix m Hc (c' :: cs) (p ++ [c])) in Hp; [done| |done]. by rewrite <- app_assoc.
Qed.

Lemma spec_parent_Ok m path p n : spec_parent m path = Ok (p, n) →
  at_path m p = Some ADir ∧ no_slash n ∧ (skipped n = false → components path = p ++ [n]).
Proof.
  unfold spec_parent. rewrite <- (components_trim_start path), <- components_trim_end.
  set (t := trim_end (trim_start path)). case_decide; [done|]. unfold parent_and_name.
  destruct (rfind t) as [i|] eqn:Hr; case_decide; try done;
    (destruct (spec_resolve m _) as [q|] eqn:Hq; simpl; [|done]); case_decide; try done;
    intros [= <- <-]; apply spec_resolve_Ok in Hq; subst q; (split; [done|]).
  - apply rfind_Some in Hr as (_ & Hns & Ht). split; [done|]. intros Hs. rewrite Ht at 1.
    by rewrite components_app, (components_single (drop _ _)).
  - apply rfind_None in Hr. split; [done|]. intros Hs. by apply components_single.
Qed.

Lemma at_path_insert_ne m p e q : p ≠ q → at_path (<[p := e]> m) q = at_path m q.
Proof. intros. destruct q; [done|]. by apply lookup_insert_ne. Qed.

Lemma at_path_delete_ne m p q : p ≠ q → at_path (delete p m) q = at_path m q.
Proof. intros. destruct q; [done|]. by apply lookup_delete_ne. Qed.

Lemma at_path_file m p d : at_path m p = Some (AFile d) → m !! p = Some (AFile d).
Proof. by destruct p. Qed.

Lemma closed_insert m p e : closed m → (∀ q n, p = q ++ [n] → at_path m q = Some ADir) →
  (m !! p = None ∨ e = ADir ∨ ∃ d, m !! p = Some (AFile d)) → closed (<[p := e]> m).
Proof.
  intros Hc Hp He q n Hq. destruct (decide (p = q)) as [<-|Hpq].
  - rewrite lookup_insert_ne in Hq by (intros H; apply (f_equal length) in H; rewrite length_app in H; simpl in H; lia).
    apply Hc in Hq. destruct p as [|c p]; [done|]. simpl in *. rewrite lookup_insert_eq.
    destruct He as [He|[->|[d He]]]; congruence.
  - rewrite at_path_insert_ne by done. destruct (decide (p = q ++ [n])) as [->|Hpn]; [by eapply Hp|].
    rewrite lookup_insert_ne in Hq by done. by apply (Hc q n).
Qed.

Lemma closed_delete m p : closed m → (∀ n, m !! (p ++ [n]) = None) → closed (delete p m).
Proof.
  intros Hc Hp q n Hq. apply lookup_delete_is_Some in Hq as [Hne Hq].
  rewrite at_path_delete_ne; [by apply (Hc q n)|]. intros ->. rewrite Hp in Hq. by destruct Hq.
Qed.

(** The requests that may take or change the data of the file at [q]. *)
Definition touches (q : list Str) (r : Request) : bool :=
  match r with
  | WriteFile path _ | AppendFile path _ | RemoveFile path => bool_decide (components path = q)
  | _ => false
  end.

Definition proper (q : list Str) : Prop := ∃ path, q = components path.

Lemma proper_snoc p n : proper (p ++ [n]) → skipped n = false.
Proof.
  intros [path Hp]. pose proof (components_ok path) as Hc. rewrite <- Hp, Forall_app in Hc.
  destruct Hc as [_ Hc]. by apply Forall_singleton in Hc as [_ ?].
Qed.

Lemma spec_update_keeps max m path f m' a : closed m → spec_update max m path f = (m', a) →
  closed m' ∧ ∀ q, components path ≠ q → at_path m' q = at_path m q.
Proof.
  intros Hc. unfold spec_update. destruct (spec_resolve m path) as [p|] eqn:Hp; [|by intros [= <- <-]].
  apply spec_resolve_Ok in Hp as <-.
  destruct (at_path m p) as [[old|]|] eqn:He; try by intros [= <- <-].
  repeat case_decide; intros [= <- <-]; try done. split.
  - apply closed_insert; [done| |right; right; exists old; by apply at_path_file].
    intros q n Hq. apply (Hc q n). rewrite <- at_path_snoc, <- Hq. eauto.
  - intros q Hq. by apply at_path_insert_ne.
Qed.

Lemma spec_add_keeps m path e m' a : closed m → spec_add m path e = (m', a) →
  closed m' ∧ ∀ q, is_Some (at_path m q) → at_path m' q = at_path m q.
Proof.
  intros Hc. unfold spec_add. destruct (spec_parent m path) as [[p n]|] eqn:Hp; [|by intros [= <- <-]].
  apply spec_parent_Ok in Hp as (Hd & _). destruct (m !! (p ++ [n])) eqn:Hm; intros [= <- <-]; [done|]. split.
  - apply closed_insert; [done| |by left]. intros q n' [<- _]%app_inj_tail. done.
  - intros q Hq. apply at_path_insert_ne. intros <-. rewrite at_path_snoc, Hm in Hq. by destruct Hq.
Qed.

Lemma spec_add_effect m path e : closed m → closed (spec_add m path e).1 ∧
  ∀ q, is_Some (at_path m q) → at_path (spec_add m path e).1 q = at_path m q.
Proof. intros Hc. destruct (spec_add m path e) as [m' a] eqn:Hs. by apply (spec_add_keeps m path e m' a). Qed.

Lemma spec_update_effect max m path f : closed m → closed (spec_update max m path f).1 ∧
  ∀ q, components path ≠ q → at_path (spec_update max m path f).1 q = at_path m q.
Proof. intros Hc. destruct (spec_update max m path f) as [m' a] eqn:Hs. by apply (spec_update_keeps max m path f m' a). Qed.

(** Deleting an entry without entries below it. *)
Lemma delete_effect m p : closed m → (∀ n, m !! (p ++ [n]) = None) →
  closed (delete p m) ∧ ∀ q, p ≠ q → at_path (delete p m) q = at_path m q.
Proof. intros. split; [by apply closed_delete|]. intros. by apply at_path_delete_ne. Qed.

(** A step keeps the tree closed, and a file that the request does not touch. *)
Lemma spec_step_effect max m r : closed m → closed (spec_step max m r).1 ∧
  ∀ q data, proper q → at_path m q = Some (AFile data) → touches q r = false →
  at_path (spec_step max m r).1 q = Some (AFile data).
Proof.
  intros Hc. destruct r; cbn [spec_step touches].
  1,2: edestruct (spec_add_effect m path) as [? Hk]; [done|]; split; [done|]; intros; rewrite Hk; eauto.
  1: case_decide; [done|].
  1,2: edestruct (spec_update_effect max m path) as [? Hk]; [done|]; split; [done|];
       intros q d _ He Ht%bool_decide_eq_false; by rewrite Hk, He.
  1-3: done.
  - destruct (spec_parent m path) as [[p n]|] eqn:Hp; [|done].
    apply spec_parent_Ok in Hp as (_ & _ & Hpc). destruct (m !! (p ++ [n])) as [[d|]|] eqn:Hm; [|done..].
    destruct (delete_effect m (p ++ [n])) as [? Hk]; [done| |].
    { intros n'. apply eq_None_not_Some. intros H%Hc. by rewrite at_path_snoc, Hm in H. }
    split; [done|]. intros q d' Hq He Ht%bool_decide_eq_false. simpl. rewrite Hk; [done|].
    intros <-. apply Ht, Hpc. by eapply proper_snoc.
  - case_decide; [done|]. destruct (spec_parent m path) as [[p n]|] eqn:Hp; [|done].
    destruct (m !! (p ++ [n])) as [[d|]|] eqn:Hm; [done| |done]. case_decide as Hch; [done|].
    destruct (delete_effect m (p ++ [n])) as [? Hk]; [done| |].
    { intros n'. by rewrite <- children_of_lookup, Hch, lookup_empty. }
    split; [done|]. intros q d Hq He _. simpl. rewrite Hk; [done|]. intros <-. by rewrite at_path_snoc, Hm in He.
Qed.

Lemma spec_run_app max rs1 rs2 : ∀ m,
  spec_run max m (rs1 ++ rs2) =
  let '(m1, a1) := spec_run max m rs1 in let '(m2, a2) := spec_run max m1 rs2 in (m2, a1 ++ a2).
Proof.
  induction rs1 as [|r rs1 IH]; intros m; simpl; [by destruct (spec_run max m rs2)|].
  destruct (spec_step max m r) as [m1 a]. rewrite IH. destruct (spec_run max m1 rs1) as [m2 a2].
  by destruct (spec_run max m2 rs2).
Qed.

Lemma spec_run_effect max rs : ∀ m, closed m → closed (spec_run max m rs).1 ∧
  ∀ q data, proper q → at_path m q = Some (AFile data) → forallb (λ r, negb (touches q r)) rs = true →
  at_path (spec_run max m rs).1 q = Some (AFile data).
Proof.
  induction rs as [|r rs IH]; intros m Hc; [done|]. simpl.
  destruct (spec_step_effect max m r Hc) as [Hc' Hk].
  destruct (spec_step max m r) as [m1 a]. simpl in *. destruct (IH m1 Hc') as [Hc2 Hk2].
  destruct (spec_run max m1 rs) as [m2 a2]. split; [done|].
  intros q d Hq He [Ht%negb_true_iff Hts]%andb_true_iff. auto.
Qed.

(** ** Histories *)

Lemma fs_run_refines rs : ∀ fs m, refines fs m → Forall (λ x, sized x.2) rs →
  ∃ fs' answers m', fs_run rs fs = Some (fs', answers) ∧
    spec_run (max_size fs) m (snd <$> rs) = (m', answers) ∧ refines fs' m' ∧ max_size fs' = max_size fs.
Proof.
  induction rs as [|[[t0 t1] r] rs IH]; intros fs m Href Hs; [by exists fs, [], m|].
  inversion Hs as [|?? Hr Hrs]; subst. cbn [fs_run fmap list_fmap snd spec_run].
  destruct (fs_step_refines fs m t0 t1 r Href Hr) as (fs1 & a & m1 & -> & -> & Href1 & Hmax1). cbn [mbind option_bind].
  destruct (IH fs1 m1 Href1 Hrs) as (fs2 & answers & m2 & -> & Hsp & Href2 & Hmax2). cbn [mbind option_bind].
  rewrite Hmax1 in Hsp. rewrite Hsp. exists fs2, (a :: answers), m2. split_and!; [done..|congruence].
Qed.

(** [C25] The file system in memory refines a finite map from paths to files and
    directories: over any history of calls from an empty file system no call panics,
    every call gives the answer of the specification (success, data, sorted listings and
    each error, out of space included), and in the final state the inodes form a tree,
    those outside it are exactly the free list, and the bytes used are the total size
    of the files, within the capacity. *)
Theorem fs_refines max now rs :
  0 ≤ max ≤ 2 ^ 63 → Forall (λ x, sized x.2) rs →
  ∃ fs' answers m', fs_run rs (RamFs_new max now) = Some (fs', answers) ∧
    spec_run max ∅ (snd <$> rs) = (m', answers) ∧
    fs_wf fs' ∧ (∀ p, at_path m' p = view fs' p) ∧ bytes_used fs' = used m' ∧ used m' ≤ max.
Proof.
  intros Hmax Hs. destruct (fs_run_refines rs _ ∅ (refines_new max now Hmax) Hs) as (fs' & answers & m' & Hr & Hsp & Href & Hm).
  simpl in Hm, Hsp. exists fs', answers, m'. pose proof (ref_max _ _ Href). pose proof (ref_used _ _ Href).
  split_and!; [done..| | | |lia]; [apply Href|apply Href|done].
Qed.

(** The data of a written file after calls that do not touch it. *)
Lemma write_lasts max now before t0 t1 path data after t2 t3 fs1 a1 fs2 :
  0 ≤ max ≤ 2 ^ 63 →
  Forall (λ x, sized x.2) (before ++ (t0, t1, WriteFile path data) :: after) →
  fs_run before (RamFs_new max now) = Some (fs1, a1) →
  fs_step t0 t1 (WriteFile path data) fs1 = Some (fs2, Ok Done) →
  Forall (λ x, touches (components path) x.2 = false) after →
  ∃ fs3 a3, fs_run after fs2 = Some (fs3, a3) ∧
    fs_step t2 t3 (ReadFile path) fs3 = Some (fs3, Ok (Data data)).
Proof.
  intros Hmax [Hsb [Hsw Hsa]%Forall_cons]%Forall_app Hb Hw Ha.
  destruct (fs_run_refines before _ ∅ (refines_new max now Hmax) Hsb) as (fs1' & a1' & m1 & Hb' & Hsp1 & Href1 & Hm1).
  simplify_eq. simpl in Hm1, Hsp1. change (sized (WriteFile path data)) in Hsw.
  assert (Hc1 : closed m1).
  { destruct (spec_run_effect max (snd <$> before) ∅) as [Hc _]; [by intros p n []|]. by rewrite Hsp1 in Hc. }
  destruct (fs_step_refines fs1 m1 t0 t1 _ Href1 Hsw) as (fs2' & a & m2 & Hw' & Hsp2 & Href2 & Hm2). simplify_eq.
  assert (Hat : at_path m2 (components path) = Some (AFile data) ∧ (length path ≤ MAX_PATH_LEN)%nat).
  { cbn [spec_step] in Hsp2. case_decide; [done|]. unfold spec_update in Hsp2.
    destruct (spec_resolve m1 path) as [p|] eqn:Hp; [|done].
    pose proof (spec_resolve_short _ _ _ Hp).
    apply spec_resolve_Ok in Hp as ->. destruct (at_path m1 (components path)) as [[old|]|] eqn:He; try done.
    repeat case_decide; simplify_eq. split; [|done]. destruct (components path); [done|]. apply lookup_insert_eq. }
  destruct Hat as [Hat Hlen].
  assert (Hc2 : closed m2) by (pose proof (spec_step_effect (max_size fs1) m1 (WriteFile path data) Hc1) as [Hc _]; by rewrite Hsp2 in Hc).
  destruct (fs_run_refines after fs2 m2 Href2 Hsa) as (fs3 & a3 & m3 & -> & Hsp3 & Href3 & Hm3).
  exists fs3, a3. split; [done|].
  destruct (spec_run_effect (max_size fs2) (snd <$> after) m2 Hc2) as [Hc3 Hk]. rewrite Hsp3 in Hc3, Hk. simpl in Hc3, Hk.
  specialize (Hk (components path) data). 
  assert (Hts : forallb (λ r, negb (touches (components path) r)) (snd <$> after) = true).
  { apply forallb_forall. intros r Hr%list_elem_of_In%list_elem_of_fmap. destruct Hr as (x & -> & Hx).
    rewrite Forall_forall in Ha. by rewrite Ha. }
  destruct (fs_step_refines fs3 m3 t2 t3 (ReadFile path) Href3 I) as (fs4 & a4 & m4 & Hrd & Hsp4 & _).
  assert (at_path m3 (components path) = Some (AFile data)) as Hat3 by (apply Hk; [by exists path|done..]).
  cbn [spec_step] in Hsp4. unfold spec_resolve in Hsp4. rewrite decide_False in Hsp4 by lia.
  rewrite (spec_walk_present m3 (components path) Hc3 []) in Hsp4 by (simpl; eauto). simpl in Hsp4. rewrite Hat3 in Hsp4.
  simplify_eq. cbn [fs_step] in *. destruct (read_file path fs3); simplify_eq/=. congruence.
Qed.

(** [C26] What is written to a file stays: after any history, a successful write to a path,
    and any further calls that do not write, append to or remove a file of the same
    components (they may create, list, remove directories and anything else), reading
    the path gives back the data written. *)
Theorem write_is_durable max now before t0 t1 path data after t2 t3 fs1 a1 fs2 :
  0 ≤ max ≤ 2 ^ 63 →
  Forall (λ x, sized x.2) (before ++ (t0, t1, WriteFile path data) :: after) →
  fs_run before (RamFs_new max now) = Some (fs1, a1) →
  fs_step t0 t1 (WriteFile path data) fs1 = Some (fs2, Ok Done) →
  Forall (λ x, touches (components path) x.2 = false) after →
  ∃ fs3 a3, fs_run after fs2 = Some (fs3, a3) ∧
    fs_step t2 t3 (ReadFile path) fs3 = Some (fs3, Ok (Data data)).
Proof. apply write_lasts. Qed.

(** ** The boot image *)

Abbreviation str := bytes_of_string.

(** The modules [init] writes to [/bin]. *)
Definition test_wasm : list Z :=
  [0x00; 0x61; 0x73; 0x6D; 0x01; 0x00; 0x00; 0x00;
   0x01; 0x05; 0x01; 0x60; 0x00; 0x01; 0x7F;
   0x03; 0x02; 0x01; 0x00;
   0x07; 0x08; 0x01; 0x04; 109; 97; 105; 110; 0x00; 0x00;
   0x0A; 0x06; 0x01; 0x04; 0x00; 0x41; 0x2A; 0x0B].

Definition add_wasm : list Z :=
  [0x00; 0x61; 0x73; 0x6D; 0x01; 0x00; 0x00; 0x00;
   0x01; 0x07; 0x01; 0x60; 0x02; 0x7F; 0x7F; 0x01; 0x7F;
   0x03; 0x02; 0x01; 0x00;
   0x07; 0x07; 0x01; 0x03; 97; 100; 100; 0x00; 0x00;
   0x0A; 0x09; 0x01; 0x07; 0x00; 0x20; 0x00; 0x20; 0x01; 0x6A; 0x0B].

(** The calls of [init], whose results it drops. *)
Definition boot_calls : list Request :=
  (CreateDir ∘ str <$> ["/bin"; "/etc"; "/tmp"; "/home"; "/var"; "/var/log"; "/proc"; "/dev"; "/sys"]%string) ++
  [CreateFile (str "/etc/hostname"); WriteFile (str "/etc/hostname") (str "splax");
   CreateFile (str "/etc/version"); WriteFile (str "/etc/version") (str "Splax OS v0.1.0" ++ [10]);
   CreateFile (str "/var/log/kernel.log");
   WriteFile (str "/var/log/kernel.log") (str "[kernel] Filesystem initialized" ++ [10]);
   CreateFile (str "/etc/motd");
   WriteFile (str "/etc/motd")
     (str "Welcome to Splax OS!" ++ [10; 10] ++ str "A capability-secure, distributed-first operating system."
      ++ [10; 10] ++ str "Type 'help' for available commands." ++ [10]);
   CreateFile (str "/bin/hello.wasm"); WriteFile (str "/bin/hello.wasm") test_wasm;
   CreateFile (str "/bin/add.wasm"); WriteFile (str "/bin/add.wasm") add_wasm].

(** The global state: the flag and the file system behind the lock. *)
Record Global := mkGlobal { FS_INITIALIZED : bool; FILESYSTEM : RamFs }.

Definition Global_static : Global := mkGlobal false (mkFs [] [] 0 (4 * 1024 * 1024)).

Definition init (now : Z) (g : Global) : option Global :=
  if FS_INITIALIZED g then Some g
  else '(fs, _) ← fs_run ((λ r, (now, now, r)) <$> boot_calls) (RamFs_new (4 * 1024 * 1024) now);
       Some (mkGlobal true fs).

(** Booting succeeds at any time, and the files are there with their data. *)
Lemma init_boots now : ∃ g, init now Global_static = Some g ∧
  read_file (str "/etc/hostname") (FILESYSTEM g) = Some (Ok (str "splax")) ∧
  read_file (str "//bin/./hello.wasm") (FILESYSTEM g) = Some (Ok test_wasm) ∧
  (∃ es, list_dir (str "/") (FILESYSTEM g) = Some (Ok es) ∧
    es.*1 = str <$> ["bin"; "dev"; "etc"; "home"; "proc"; "sys"; "tmp"; "var"]%string) ∧
  (stats (FILESYSTEM g)).(used_bytes) = 247 ∧ init now g = Some g.
Proof. eexists. split; [vm_compute; reflexivity|]. split_and!; try (vm_compute; reflexivity). eexists. split; vm_compute; reflexivity. Qed.

(** Before [init] the table has no root and every resolution panics. *)
Lemma before_init_panics : list_dir (str "/") (FILESYSTEM Global_static) = None.
Proof. reflexivity. Qed.

(** ** What paths mean *)

(** A component [..] does not go up: it is dropped, and so is [.]. *)
Lemma dotdot_ignored m a b :
  (length (a ++ SLASH :: DOTDOT ++ SLASH :: b) ≤ MAX_PATH_LEN)%nat →
  spec_resolve m (a ++ SLASH :: DOTDOT ++ SLASH :: b) = spec_walk m [] (components a ++ components b).
Proof.
  intros Hlen. unfold spec_resolve. rewrite decide_False by lia. by rewrite !components_app.
Qed.

(** A file called [..] (or [.]) can be made, shows up in the listing, and can be removed,
    but no call can open it: its path is that of the directory. *)
Lemma dotdot_file_unreachable :
  (λ x, x.2) <$> fs_run ((λ r, (0, 0, r)) <$>
    [CreateDir (str "/tmp"); CreateFile (str "/tmp/.."); ReadFile (str "/tmp/.."); WriteFile (str "/tmp/..") [1];
     RemoveDir (str "/tmp"); ListDir (str "/tmp"); RemoveFile (str "/tmp/.."); RemoveDir (str "/tmp")])
    (RamFs_new 1000 0)
  = Some [Ok Done; Ok Done; Err NotAFile; Err NotAFile; Err NotEmpty; Ok (Listing [(DOTDOT, (File, O))]);
          Ok Done; Ok Done].
Proof. vm_compute. reflexivity. Qed.

(** Only the path of the parent is held to the limit: a file can be made whose own path is too
    long to open. *)
Lemma long_path_unreachable :
  let dir := SLASH :: replicate 60 97 in
  let deep := dir ++ dir ++ dir ++ dir in
  (λ x, x.2) <$> fs_run ((λ r, (0, 0, r)) <$>
    [CreateDir dir; CreateDir (dir ++ dir); CreateDir (dir ++ dir ++ dir); CreateDir deep;
     CreateFile (deep ++ dir); ReadFile (deep ++ dir); Stat (deep ++ dir); RemoveFile (deep ++ dir)])
    (RamFs_new 1000 0)
  = Some [Ok Done; Ok Done; Ok Done; Ok Done; Ok Done; Err PathTooLong; Err PathTooLong; Ok Done].
Proof. vm_compute. reflexivity. Qed.

(** ** Witnesses *)

Definition example_calls : list (Z * Z * Request) :=
  [(1, 2, CreateDir (str "/a")); (3, 4, CreateFile (str "/a/f")); (5, 5, WriteFile (str "/a/f") [7; 8; 9]);
   (6, 6, AppendFile (str "a/f/") [10]); (7, 7, WriteFile (str "/a/f") (replicate 20 0));
   (8, 8, RemoveDir (str "/a")); (9, 9, ListDir (str "/a"))].

Lemma fs_refines_witness :
  ∃ fs' answers m', fs_run example_calls (RamFs_new 16 0) = Some (fs', answers) ∧
    spec_run 16 ∅ (snd <$> example_calls) = (m', answers) ∧
    fs_wf fs' ∧ (∀ p, at_path m' p = view fs' p) ∧ bytes_used fs' = used m' ∧ used m' ≤ 16.
Proof.
  apply (fs_refines 16 0 example_calls); [lia|].
  repeat constructor; simpl; lia.
Defined.

(** The answers of that history, with the write that does not fit refused. *)
Lemma example_answers :
  (λ x, x.2) <$> fs_run example_calls (RamFs_new 16 0) =
  Some [Ok Done; Ok Done; Ok Done; Ok Done; Err NoSpace; Err NotEmpty; Ok (Listing [(str "f", (File, 4%nat))])].
Proof. vm_compute. reflexivity. Qed.

Definition two_calls : list (Z * Z * Request) := [(1, 2, CreateDir (str "/a")); (3, 4, CreateFile (str "/a/f"))].
Definition later_calls : list (Z * Z * Request) :=
  [(6, 6, CreateFile (str "/a/g")); (7, 7, WriteFile (str "/a/g") [1]); (8, 8, RemoveDir (str "/a"))].
Definition after_two : RamFs := default (RamFs_new 100 0) (fst <$> fs_run two_calls (RamFs_new 100 0)).
Definition after_write : RamFs :=
  default after_two (fst <$> fs_step 5 5 (WriteFile (str "/a/f") [7; 8; 9]) after_two).

Lemma write_is_durable_witness : ∃ fs3 a3,
  fs_run later_calls after_write = Some (fs3, a3) ∧
  fs_step 9 9 (ReadFile (str "/a/f")) fs3 = Some (fs3, Ok (Data [7; 8; 9])).
Proof.
  apply (write_is_durable 100 0 two_calls 5 5 (str "/a/f") [7; 8; 9] later_calls 9 9 after_two [Ok Done; Ok Done]).
  - lia.
  - repeat constructor; simpl; lia.
  - vm_compute. reflexivity.
  - vm_compute. reflexivity.
  - repeat constructor.
Defined.
