(* ===== verification/VfsIface.v ===== *)
(** * VfsIface: what a file system promises to the VFS ([kernel/src/fs/vfs.rs])

    The types of the virtual file system and the trait [Filesystem] as a class of
    operations. [FilesystemLaws] states what the VFS and its callers rely on; the
    file system in memory of [Ramfs] discharges it.

    An operation that reads the clock takes its readings as arguments, in the order of
    the calls to [get_ticks]; one that may panic returns an option. *)

From Stdlib Require Import ZArith Lia.
From stdpp Require Import list gmap.
From S2P Require Import Prelude.
From S2P Require Import Paths.

Inductive VfsError :=
  | NotFound | PermissionDenied | AlreadyExists | NotADirectory | NotAFile | IsADirectory | NotEmpty | BadFd
  | TooManyOpenFiles | NoSpace | ReadOnlyFs | InvalidArgument | IoError | NotSupported | PathTooLong
  | CrossDevice | NoFilesystem | Busy.
#[global] Instance VfsError_eq_dec : EqDecision VfsError.
Proof. solve_decision. Defined.

Inductive VfsFileType := Regular | Directory | Symlink | CharDevice | BlockDevice | Fifo | Socket.
#[global] Instance VfsFileType_eq_dec : EqDecision VfsFileType.
Proof. solve_decision. Defined.

Record VfsPermissions := mkPerm { readable : bool; writable : bool; executable : bool }.
Definition VfsPermissions_default : VfsPermissions := mkPerm true true false.

(** [InodeNum] is a [u64]. *)
Record VfsAttr := mkAttr {
  a_ino : Z;
  a_file_type : VfsFileType;
  a_perm : VfsPermissions;
  a_size : Z;
  a_nlink : Z;
  a_blksize : Z;
  a_blocks : Z;
  a_atime : Z;
  a_mtime : Z;
  a_ctime : Z;
  a_crtime : Z;
}.

Record VfsDirEntry := mkDirEntry { d_name : Str; d_ino : Z; d_file_type : VfsFileType }.

Record VfsStatFs := mkStatFs {
  s_blocks : Z; s_bfree : Z; s_bavail : Z; s_files : Z; s_ffree : Z; s_bsize : Z; s_namelen : Z;
}.

(** The outcome of an operation that changes the file system: [None] is a panic. *)
Abbreviation outcome F A := (option (F * Result A VfsError)).

(** [trait Filesystem]. *)
Class Filesystem (F : Type) := {
  fs_lookup (parent : Z) (name : Str) : F → Result Z VfsError;
  fs_getattr (ino : Z) : F → Result VfsAttr VfsError;
  fs_readdir (ino : Z) : F → Result (list VfsDirEntry) VfsError;
  fs_read (now ino offset size : Z) : F → outcome F (list Z);
  fs_write (now ino offset : Z) (data : list Z) : F → outcome F Z;
  fs_create (t0 t1 parent : Z) (name : Str) (file_type : VfsFileType) : F → outcome F Z;
  fs_unlink (now parent : Z) (name : Str) : F → outcome F unit;
  fs_rename (t0 t1 old_parent : Z) (old_name : Str) (new_parent : Z) (new_name : Str) : F → outcome F unit;
  fs_truncate (now ino size : Z) : F → outcome F unit;
  fs_sync : F → Result unit VfsError;
  fs_statfs : F → Result VfsStatFs VfsError;
  fs_readlink (ino : Z) : F → Result Str VfsError;
  fs_symlink (t0 t1 parent : Z) (name target : Str) : F → outcome F Z;
  fs_link (t0 t1 ino new_parent : Z) (new_name : Str) : F → outcome F unit;
  fs_setattr (now ino : Z) (attr : VfsAttr) : F → outcome F unit;
}.

(** A slice has at most [isize::MAX] bytes. *)
Definition slice (data : list Z) : Prop := Z.of_nat (length data) < 2 ^ 63.

(** What a client relies on. [fs_ok k] are the states the operations keep, with room for
    [k] more files. *)
Class FilesystemLaws (F : Type) `{Filesystem F} := {
  fs_ok : Z → F → Prop;
  (** Data written to a file are what a read at the same place gives. *)
  write_then_read now now' ino off data f f' n k :
    fs_ok k f → is_u64 off → off + Z.of_nat (length data) < 2 ^ 64 → fs_write now ino off data f = Some (f', Ok n) →
    n = Z.of_nat (length data) ∧ fs_ok k f' ∧ ∃ f'', fs_read now' ino off n f' = Some (f'', Ok data) ∧ fs_ok k f'';
  (** A file that can be written can be found to have at least the size written. *)
  write_then_getattr now ino off data f f' n k :
    fs_ok k f → is_u64 off → off + Z.of_nat (length data) < 2 ^ 64 → fs_write now ino off data f = Some (f', Ok n) →
    ∃ a, fs_getattr ino f' = Ok a ∧ off + n ≤ a_size a;
  (** Writing changes no names. *)
  write_keeps_names now ino off data f f' n p name :
    fs_write now ino off data f = Some (f', Ok n) → fs_lookup p name f' = fs_lookup p name f;
  (** A created file is found under its name, with the type asked for and empty. *)
  create_then_lookup t0 t1 p name ty f f' ino k :
    fs_ok (k + 1) f → 0 ≤ k → fs_create t0 t1 p name ty f = Some (f', Ok ino) →
    fs_ok k f' ∧ fs_lookup p name f' = Ok ino ∧
    ∃ a, fs_getattr ino f' = Ok a ∧ a_file_type a = ty ∧ a_size a = 0;
}.
