(* ===== verification/Ramfs.v ===== *)
(** * Ramfs: the file system of the VFS in memory ([kernel/src/fs/ramfs.rs])

    A map of inodes by number with hard links, symbolic links, directories that map
    names to numbers, and an account of the bytes in use. Each operation of the trait
    [Filesystem] is a definition; the instance of the class collects them.

    The locks are taken for the whole of an operation. Arithmetic wraps, as in the
    release build; [None] is a panic. *)

From Stdlib Require Import ZArith Lia.
From stdpp Require Import list gmap.
From S2P Require Import Prelude.
From S2P Require Import Paths.
From S2P Require Import Sums.
From S2P Require Import VfsIface.

#[local] Open Scope res_scope.

Definition MAX_FILE_SIZE : Z := 4 * 1024 * 1024.
Definition MAX_NAME_LEN : nat := 255.

Record RamInode := mkInode {
  ino : Z;
  file_type : VfsFileType;
  content : list Z;
  children : gmap Str Z;
  link_target : option Str;
  perm : VfsPermissions;
  nlink : Z;
  atime : Z;
  mtime : Z;
  ctime : Z;
  crtime : Z;
}.

Definition new_file (n now : Z) : RamInode :=
  mkInode n Regular [] ∅ None VfsPermissions_default 1 now now now now.
Definition new_directory (n now : Z) : RamInode :=
  mkInode n Directory [] ∅ None (mkPerm true true true) 2 now now now now.
Definition new_symlink (n : Z) (target : Str) (now : Z) : RamInode :=
  mkInode n Symlink [] ∅ (Some target) (mkPerm true false false) 1 now now now now.

Definition size_of (i : RamInode) : Z := Z.of_nat (length (content i)).

Definition to_attr (i : RamInode) : VfsAttr :=
  mkAttr (ino i) (file_type i) (perm i) (size_of i) (nlink i) 4096
         ((size_of i + 511) / 512) (atime i) (mtime i) (ctime i) (crtime i).

(** Updates of one field. *)
Definition with_content (c : list Z) (i : RamInode) : RamInode :=
  mkInode (ino i) (file_type i) c (children i) (link_target i) (perm i) (nlink i) (atime i) (mtime i) (ctime i) (crtime i).
Definition with_children (c : gmap Str Z) (i : RamInode) : RamInode :=
  mkInode (ino i) (file_type i) (content i) c (link_target i) (perm i) (nlink i) (atime i) (mtime i) (ctime i) (crtime i).
Definition with_nlink (n : Z) (i : RamInode) : RamInode :=
  mkInode (ino i) (file_type i) (content i) (children i) (link_target i) (perm i) n (atime i) (mtime i) (ctime i) (crtime i).
Definition with_ctime (t : Z) (i : RamInode) : RamInode :=
  mkInode (ino i) (file_type i) (content i) (children i) (link_target i) (perm i) (nlink i) (atime i) (mtime i) t (crtime i).
Definition touch_access (now : Z) (i : RamInode) : RamInode :=
  mkInode (ino i) (file_type i) (content i) (children i) (link_target i) (perm i) (nlink i) now (mtime i) (ctime i) (crtime i).
Definition touch_modify (now : Z) (i : RamInode) : RamInode :=
  mkInode (ino i) (file_type i) (content i) (children i) (link_target i) (perm i) (nlink i) (atime i) now now (crtime i).

Record RamFs := mkFs {
  inodes : gmap Z RamInode;
  next_ino : Z;
  bytes_used : Z;
  max_size : Z;
}.

Definition RamFs_new (max now : Z) : RamFs := mkFs {[1 := new_directory 1 now]} 2 0 max.

Definition set_inodes (m : gmap Z RamInode) (f : RamFs) : RamFs := mkFs m (next_ino f) (bytes_used f) (max_size f).
Definition put (n : Z) (i : RamInode) (f : RamFs) : RamFs := set_inodes (<[n := i]> (inodes f)) f.
Definition set_bytes_used (n : Z) (f : RamFs) : RamFs := mkFs (inodes f) (next_ino f) n (max_size f).

Definition alloc_ino (f : RamFs) : RamFs * Z :=
  (mkFs (inodes f) (u64_add (next_ino f) 1) (bytes_used f) (max_size f), next_ino f).

Definition inode_count (f : RamFs) : nat := size (inodes f).

(** [inodes.get_mut(&n)]: the inode is replaced when it is there. *)
Definition update (n : Z) (g : RamInode → RamInode) (f : RamFs) : RamFs :=
  match inodes f !! n with Some i => put n (g i) f | None => f end.

(** [Vec::resize(n, 0)]: a capacity above [isize::MAX] panics. *)
Definition resize (n : Z) (l : list Z) : option (list Z) :=
  if decide (2 ^ 63 ≤ n) then None
  else Some (take (Z.to_nat n) l ++ replicate (Z.to_nat n - length l) 0).

(** [content[offset..offset + data.len()].copy_from_slice(data)]. *)
Definition copy_into (offset : Z) (data l : list Z) : option (list Z) :=
  let o := Z.to_nat offset in
  if decide (o + length data ≤ length l)%nat
  then Some (take o l ++ data ++ drop (o + length data) l) else None.

(** ** The operations of the trait *)

Definition lookup (parent : Z) (name : Str) (f : RamFs) : Result Z VfsError :=
  let? p := ok_or (inodes f !! parent) NotFound in
  if decide (file_type p ≠ Directory) then Err NotADirectory
  else ok_or (children p !! name) NotFound.

Definition getattr (n : Z) (f : RamFs) : Result VfsAttr VfsError :=
  let? i := ok_or (inodes f !! n) NotFound in Ok (to_attr i).

Definition readdir (n : Z) (f : RamFs) : Result (list VfsDirEntry) VfsError :=
  let? i := ok_or (inodes f !! n) NotFound in
  if decide (file_type i ≠ Directory) then Err NotADirectory
  else Ok ([mkDirEntry DOT n Directory; mkDirEntry DOTDOT n Directory] ++
           omap (λ '(name, c), child ← inodes f !! c; Some (mkDirEntry name c (file_type child)))
                (btree_iter (children i))).

Definition read (now n offset size : Z) (f : RamFs) : outcome RamFs (list Z) :=
  match inodes f !! n with
  | None => Some (f, Err NotFound)
  | Some i =>
      if decide (file_type i ≠ Regular) then Some (f, Err NotAFile)
      else
        let f := put n (touch_access now i) f in
        if decide (size_of i ≤ offset) then Some (f, Ok [])
        else
          let end_ := Z.min (u64_add offset size) (size_of i) in
          if decide (end_ < offset) then None
          else Some (f, Ok (take (Z.to_nat (end_ - offset)) (drop (Z.to_nat offset) (content i))))
  end.

Definition write (now n offset : Z) (data : list Z) (f : RamFs) : outcome RamFs Z :=
  match inodes f !! n with
  | None => Some (f, Err NotFound)
  | Some i =>
      if decide (file_type i ≠ Regular) then Some (f, Err NotAFile)
      else
        let len := Z.of_nat (length data) in
        let new_len := u64_add offset len in
        if decide (MAX_FILE_SIZE < new_len) then Some (f, Err NoSpace)
        else
          let additional := if decide (size_of i < new_len) then new_len - size_of i else 0 in
          if decide (max_size f < u64_add (bytes_used f) additional) then Some (f, Err NoSpace)
          else
            let f := set_bytes_used (u64_add (bytes_used f) additional) f in
            c ← (if decide (size_of i < offset) then resize offset (content i) else Some (content i));
            c ← (if decide (Z.of_nat (length c) < new_len) then resize new_len c else Some c);
            c ← copy_into offset data c;
            Some (put n (touch_modify now (with_content c i)) f, Ok len)
  end.

(** [create] and [symlink] differ in the inode they make. *)
Definition add_entry (t1 parent : Z) (name : Str) (new : Z → Result RamInode VfsError) (f : RamFs) : outcome RamFs Z :=
  if decide (MAX_NAME_LEN < length name)%nat then Some (f, Err InvalidArgument)
  else
    let '(f, n) := alloc_ino f in
    match inodes f !! parent with
    | None => Some (f, Err NotFound)
    | Some p =>
        if decide (file_type p ≠ Directory) then Some (f, Err NotADirectory)
        else if decide (is_Some (children p !! name)) then Some (f, Err AlreadyExists)
        else
          match new n with
          | Err e => Some (f, Err e)
          | Ok i =>
              let p := touch_modify t1 (with_children (<[name := n]> (children p)) p) in
              let p := if decide (file_type i = Directory) then with_nlink (u32 (nlink p + 1)) p else p in
              Some (put n i (put parent p f), Ok n)
          end
    end.

(** The [match file_type] of [create]. *)
Definition new_node (ty : VfsFileType) (t0 n : Z) : Result RamInode VfsError :=
  match ty with
  | Regular => Ok (new_file n t0)
  | Directory => Ok (new_directory n t0)
  | _ => Err NotSupported
  end.

Definition create (t0 t1 parent : Z) (name : Str) (ty : VfsFileType) : RamFs → outcome RamFs Z :=
  add_entry t1 parent name (new_node ty t0).

Definition symlink (t0 t1 parent : Z) (name target : Str) : RamFs → outcome RamFs Z :=
  add_entry t1 parent name (λ n, Ok (new_symlink n target t0)).

(** The last part of [unlink]: one link less, and the inode goes with the last. *)
Definition drop_link (child_ino parent : Z) (f : RamFs) : RamFs :=
  match inodes f !! child_ino with
  | None => f
  | Some child =>
      let left := u32 (nlink child - 1) in
      let f := put child_ino (with_nlink left child) f in
      let f := if decide (left = 0)
               then set_inodes (delete child_ino (inodes f)) (set_bytes_used (u64_sub (bytes_used f) (size_of child)) f)
               else f in
      if decide (file_type child = Directory)
      then update parent (λ p, with_nlink (sat_sub (nlink p) 1) p) f
      else f
  end.

Definition unlink (now parent : Z) (name : Str) (f : RamFs) : outcome RamFs unit :=
  match inodes f !! parent with
  | None => Some (f, Err NotFound)
  | Some p =>
      if decide (file_type p ≠ Directory) then Some (f, Err NotADirectory)
      else
        match children p !! name with
        | None => Some (f, Err NotFound)
        | Some child_ino =>
            let blocked := match inodes f !! child_ino with
                           | Some child => bool_decide (file_type child = Directory ∧ children child ≠ ∅)
                           | None => false
                           end in
            if blocked then Some (f, Err NotEmpty)
            else
              let f := put parent (touch_modify now (with_children (delete name (children p)) p)) f in
              Some (drop_link child_ino parent f, Ok tt)
        end
  end.

Definition rename (t0 t1 old_parent : Z) (old_name : Str) (new_parent : Z) (new_name : Str) (f : RamFs) :
    outcome RamFs unit :=
  if decide (MAX_NAME_LEN < length new_name)%nat then Some (f, Err InvalidArgument)
  else
    match ok_or (inodes f !! old_parent) NotFound with
    | Err e => Some (f, Err e)
    | Ok op =>
        match children op !! old_name with
        | None => Some (f, Err NotFound)
        | Some n =>
            match inodes f !! new_parent with
            | None => Some (f, Err NotFound)
            | Some np =>
                if decide (file_type np ≠ Directory) then Some (f, Err NotADirectory)
                else
                  let f := put old_parent (touch_modify t0 (with_children (delete old_name (children op)) op)) f in
                  np ← inodes f !! new_parent;
                  let place (f : RamFs) : outcome RamFs unit :=
                    np ← inodes f !! new_parent;
                    Some (put new_parent (touch_modify t1 (with_children (<[new_name := n]> (children np)) np)) f, Ok tt) in
                  match children np !! new_name with
                  | None => place f
                  | Some existing =>
                      let blocked := match inodes f !! existing with
                                     | Some e => bool_decide (file_type e = Directory ∧ children e ≠ ∅)
                                     | None => false
                                     end in
                      if blocked
                      then Some (update old_parent (λ op, with_children (<[old_name := n]> (children op)) op) f, Err NotEmpty)
                      else place (set_inodes (delete existing (inodes f)) f)
                  end
            end
        end
    end.

Definition truncate (now n new_len : Z) (f : RamFs) : outcome RamFs unit :=
  match inodes f !! n with
  | None => Some (f, Err NotFound)
  | Some i =>
      if decide (file_type i ≠ Regular) then Some (f, Err NotAFile)
      else if decide (MAX_FILE_SIZE < new_len) then Some (f, Err NoSpace)
      else
        let finish (used : Z) : outcome RamFs unit :=
          c ← resize new_len (content i);
          Some (put n (touch_modify now (with_content c i)) (set_bytes_used used f), Ok tt) in
        if decide (size_of i < new_len) then
          let additional := new_len - size_of i in
          if decide (max_size f < u64_add (bytes_used f) additional) then Some (f, Err NoSpace)
          else finish (u64_add (bytes_used f) additional)
        else finish (u64_sub (bytes_used f) (size_of i - new_len))
  end.

Definition sync (f : RamFs) : Result unit VfsError := Ok tt.

Definition statfs (f : RamFs) : Result VfsStatFs VfsError :=
  let total_blocks := max_size f / 4096 in
  let used_blocks := bytes_used f / 4096 in
  Ok (mkStatFs total_blocks (sat_sub total_blocks used_blocks) (sat_sub total_blocks used_blocks)
               (u64_add (Z.of_nat (inode_count f)) 1000) 1000 4096 (Z.of_nat MAX_NAME_LEN)).

Definition readlink (n : Z) (f : RamFs) : Result Str VfsError :=
  let? i := ok_or (inodes f !! n) NotFound in
  if decide (file_type i ≠ Symlink) then Err InvalidArgument else ok_or (link_target i) IoError.

Definition link (t0 t1 n new_parent : Z) (new_name : Str) (f : RamFs) : outcome RamFs unit :=
  if decide (MAX_NAME_LEN < length new_name)%nat then Some (f, Err InvalidArgument)
  else
    match inodes f !! n with
    | None => Some (f, Err NotFound)
    | Some i =>
        if decide (file_type i = Directory) then Some (f, Err NotSupported)
        else
          let f := put n (with_ctime t0 (with_nlink (u32 (nlink i + 1)) i)) f in
          match inodes f !! new_parent with
          | None => Some (f, Err NotFound)
          | Some p =>
              if decide (file_type p ≠ Directory) then Some (f, Err NotADirectory)
              else if decide (is_Some (children p !! new_name))
              then Some (update n (λ i, with_nlink (u32 (nlink i - 1)) i) f, Err AlreadyExists)
              else Some (put new_parent (touch_modify t1 (with_children (<[new_name := n]> (children p)) p)) f, Ok tt)
          end
    end.

Definition setattr (now n : Z) (attr : VfsAttr) (f : RamFs) : outcome RamFs unit :=
  match inodes f !! n with
  | None => Some (f, Err NotFound)
  | Some i =>
      Some (put n (mkInode (ino i) (file_type i) (content i) (children i) (link_target i) (a_perm attr) (nlink i)
                           (a_atime attr) (a_mtime attr) now (crtime i)) f, Ok tt)
  end.

#[export] Instance RamFs_filesystem : Filesystem RamFs := {
  fs_lookup := lookup; fs_getattr := getattr; fs_readdir := readdir; fs_read := read; fs_write := write;
  fs_create := create; fs_unlink := unlink; fs_rename := rename; fs_truncate := truncate; fs_sync := sync;
  fs_statfs := statfs; fs_readlink := readlink; fs_symlink := symlink; fs_link := link; fs_setattr := setattr;
}.

(** ** Requests: any change the trait offers *)

Inductive Request :=
  | Read (ino offset size : Z)
  | Write (ino offset : Z) (data : list Z)
  | Create (parent : Z) (name : Str) (ty : VfsFileType)
  | Unlink (parent : Z) (name : Str)
  | Rename (old_parent : Z) (old_name : Str) (new_parent : Z) (new_name : Str)
  | Truncate (ino size : Z)
  | SymlinkTo (parent : Z) (name target : Str)
  | Link (ino new_parent : Z) (new_name : Str)
  | SetAttr (ino : Z) (attr : VfsAttr).

(** The state a request leaves, with the clock readings of its call. *)
Definition step (t0 t1 : Z) (r : Request) (f : RamFs) : option RamFs :=
  match r with
  | Read n off len => fst <$> read t0 n off len f
  | Write n off data => fst <$> write t0 n off data f
  | Create p name ty => fst <$> create t0 t1 p name ty f
  | Unlink p name => fst <$> unlink t0 p name f
  | Rename op on np nn => fst <$> rename t0 t1 op on np nn f
  | Truncate n len => fst <$> truncate t0 n len f
  | SymlinkTo p name target => fst <$> symlink t0 t1 p name target f
  | Link n p name => fst <$> link t0 t1 n p name f
  | SetAttr n attr => fst <$> setattr t0 n attr f
  end.

Fixpoint run (rs : list (Z * Z * Request)) (f : RamFs) : option RamFs :=
  match rs with
  | [] => Some f
  | (t0, t1, r) :: rs' => f ← step t0 t1 r f; run rs' f
  end.

(** The arguments fit: integers of their width, slices, and no range past the end of the
    64-bit offsets. *)
Definition fits (r : Request) : Prop :=
  match r with
  | Read _ off len => 0 ≤ off ∧ 0 ≤ len ∧ off + len < 2 ^ 64
  | Write _ off data => 0 ≤ off ∧ off + Z.of_nat (length data) < 2 ^ 64
  | Truncate _ len => 0 ≤ len
  | _ => True
  end.

Definition is_rename (r : Request) : bool := match r with Rename _ _ _ _ => true | _ => false end.

(** ** The account of the space *)

Definition total (f : RamFs) : Z := map_sum size_of (inodes f).

Lemma size_nonneg i : 0 ≤ size_of i.
Proof. unfold size_of. lia. Qed.

Section account.
Context (cap : Z).

(** [lost] bytes are counted that no inode holds; [k] more numbers can be given out. *)
Record sound (lost k : Z) (f : RamFs) : Prop := {
  sd_used : bytes_used f = total f + lost;
  sd_lost : 0 ≤ lost;
  sd_max : bytes_used f ≤ max_size f ≤ 2 ^ 63 ∧ max_size f = cap;
  sd_file : ∀ n i, inodes f !! n = Some i → size_of i ≤ MAX_FILE_SIZE;
  sd_fresh : ∀ n i, inodes f !! n = Some i → n < next_ino f;
  sd_next : 0 ≤ k ∧ 0 ≤ next_ino f ∧ next_ino f + k < 2 ^ 64;
}.

(** Replacing an inode by one with content of another length. *)
Lemma sound_put lost k f n i i' used :
  sound lost k f → inodes f !! n = Some i → size_of i' ≤ MAX_FILE_SIZE →
  used = bytes_used f - size_of i + size_of i' → used ≤ max_size f →
  sound lost k (put n i' (set_bytes_used used f)).
Proof.
  intros [Hu Hl Hm Hf Hn Hk] Hi Hs He Hle. split; simpl; try done; try lia.
  - unfold total in *. simpl. rewrite (map_sum_replace _ _ n i) by done. lia.
  - intros n' j. rewrite lookup_insert_Some. intros [[_ <-]|[_ ?]]; eauto.
  - intros n' j. rewrite lookup_insert_Some. intros [[<- _]|[_ ?]]; eauto.
Qed.

Lemma sound_update lost k f n i i' :
  sound lost k f → inodes f !! n = Some i → content i' = content i → sound lost k (put n i' f).
Proof.
  intros Hs Hi Hc. assert (size_of i' = size_of i) as Hz by (unfold size_of; by rewrite Hc).
  pose proof (sd_file _ _ _ Hs n i Hi). pose proof (sd_max _ _ _ Hs).
  replace f with (set_bytes_used (bytes_used f) f) by by destruct f.
  apply sound_put with (i := i); [done..|lia|lia|lia].
Qed.

Lemma sound_update_fn lost k f n g :
  sound lost k f → (∀ i, content (g i) = content i) → sound lost k (update n g f).
Proof.
  intros Hs Hg. unfold update. destruct (inodes f !! n) as [i|] eqn:Hi; [|done].
  apply sound_update with (i := i); auto.
Qed.

(** Removing an inode, with its bytes given back or lost. *)
Lemma sound_delete lost k f n i used lost' :
  sound lost k f → inodes f !! n = Some i → used = bytes_used f - size_of i - lost + lost' → 0 ≤ lost' ≤ lost + size_of i →
  sound lost' k (set_inodes (delete n (inodes f)) (set_bytes_used used f)).
Proof.
  intros [Hu Hl Hm Hf Hn Hk] Hi He Hl'. unfold total in *.
  rewrite (map_sum_delete _ (inodes f) n i) in Hu by done.
  split; unfold total; simpl; try done; try lia.
  - intros n' j [_ ?]%lookup_delete_Some. eauto.
  - intros n' j [_ ?]%lookup_delete_Some. eauto.
Qed.

Lemma sound_weaken lost k k' f : sound lost k f → 0 ≤ k' ≤ k → sound lost k' f.
Proof. intros [] ?. split; try done. lia. Qed.

(** ** Every operation keeps the account *)

(** The outcome is not a panic and leaves a sound state. *)
Definition keeps {A} (lost k : Z) (x : outcome RamFs A) : Prop := ∃ f' r, x = Some (f', r) ∧ sound lost k f'.

Lemma sound_ret {A} lost k f (r : Result A VfsError) : sound lost k f → keeps lost k (Some (f, r)).
Proof. intros. by exists f, r. Qed.
#[local] Hint Resolve sound_ret : core.

Lemma read_keeps lost k now n off len f : 0 ≤ off → 0 ≤ len → off + len < 2 ^ 64 →
  sound lost k f → keeps lost k (read now n off len f).
Proof.
  intros Ho Hl Hw Hs. unfold read. destruct (inodes f !! n) as [i|] eqn:Hi; [|auto].
  case_decide; [auto|]. assert (sound lost k (put n (touch_access now i) f)) by by eapply sound_update.
  case_decide; [auto|]. rewrite u64_add_small by lia. rewrite decide_False by lia. auto.
Qed.

Lemma resize_ok n l : 0 ≤ n < 2 ^ 63 → resize n l = Some (take (Z.to_nat n) l ++ replicate (Z.to_nat n - length l) 0).
Proof. intros. unfold resize. by rewrite decide_False by lia. Qed.

(** The content a write leaves: the old bytes, zeros up to the offset, the data. *)
Definition overwrite (offset : Z) (data l : list Z) : list Z :=
  let o := Z.to_nat offset in
  take o l ++ replicate (o - length l) 0 ++ data ++ drop (o + length data) l.

Lemma length_overwrite offset data l : 0 ≤ offset →
  Z.of_nat (length (overwrite offset data l)) = Z.max (Z.of_nat (length l)) (offset + Z.of_nat (length data)).
Proof. intros. unfold overwrite. rewrite !length_app, length_take, length_replicate, length_drop. lia. Qed.

(** The code's two extensions and the copy make that content. *)
Lemma write_content offset data l : 0 ≤ offset → offset + Z.of_nat (length data) < 2 ^ 63 →
  (c ← (if decide (Z.of_nat (length l) < offset) then resize offset l else Some l);
   c ← (if decide (Z.of_nat (length c) < offset + Z.of_nat (length data)) then resize (offset + Z.of_nat (length data)) c else Some c);
   copy_into offset data c) = Some (overwrite offset data l).
Proof.
  intros Ho Hn.
  set (c1 := if decide (Z.of_nat (length l) < offset) then take (Z.to_nat offset) l ++ replicate (Z.to_nat offset - length l) 0 else l).
  transitivity (c ← (if decide (Z.of_nat (length c1) < offset + Z.of_nat (length data))
                     then resize (offset + Z.of_nat (length data)) c1 else Some c1); copy_into offset data c).
  { unfold c1. case_decide; [|done]. by rewrite resize_ok by lia. }
  assert (Hc1 : c1 = l ++ replicate (Z.to_nat offset - length l) 0).
  { unfold c1. case_decide; [by rewrite take_ge by lia|]. replace (Z.to_nat offset - length l)%nat with O by lia. by rewrite app_nil_r. }
  clearbody c1. subst c1.
  set (c2 := (l ++ replicate (Z.to_nat offset - length l) 0) ++ replicate (Z.to_nat offset + length data - (Nat.max (length l) (Z.to_nat offset))) 0).
  transitivity (copy_into offset data c2).
  { rewrite length_app, length_replicate. case_decide.
    - rewrite resize_ok by lia. cbn [mbind option_bind]. f_equal. unfold c2.
      rewrite take_ge by (rewrite length_app, length_replicate; lia). rewrite length_app, length_replicate. do 2 f_equal. lia.
    - cbn [mbind option_bind]. f_equal. unfold c2. replace (_ + _ - Nat.max _ _)%nat with O by lia. by rewrite app_nil_r. }
  unfold copy_into. rewrite decide_True by (unfold c2; rewrite !length_app, !length_replicate; lia). f_equal.
  unfold overwrite, c2. rewrite <- !app_assoc, take_app, drop_app, <- app_assoc. f_equal. f_equal.
  - rewrite take_app_le by (rewrite length_replicate; lia). by rewrite take_ge by (rewrite length_replicate; lia).
  - f_equal. rewrite (drop_ge (_ ++ _)); [by rewrite app_nil_r|]. rewrite length_app, !length_replicate. lia.
Qed.

Lemma write_inv lost k now n off data f : sound lost k f → 0 ≤ off → off + Z.of_nat (length data) < 2 ^ 64 →
  (∃ e, write now n off data f = Some (f, Err e)) ∨
  ∃ i used, inodes f !! n = Some i ∧ file_type i = Regular ∧ off + Z.of_nat (length data) ≤ MAX_FILE_SIZE ∧
    used = bytes_used f + Z.max 0 (off + Z.of_nat (length data) - size_of i) ∧ used ≤ max_size f ∧
    write now n off data f =
      Some (put n (touch_modify now (with_content (overwrite off data (content i)) i)) (set_bytes_used used f),
            Ok (Z.of_nat (length data))).
Proof.
  intros Hs Ho Hl. unfold write. destruct (inodes f !! n) as [i|] eqn:Hi; [|eauto].
  destruct (decide (file_type i ≠ Regular)) as [|Ht%dec_stable]; [eauto|].
  rewrite u64_add_small by lia. case_decide as Hmax; [eauto|].
  set (additional := if decide (size_of i < off + Z.of_nat (length data)) then off + Z.of_nat (length data) - size_of i else 0).
  assert (additional = Z.max 0 (off + Z.of_nat (length data) - size_of i)) as Ha.
  { unfold additional. case_decide; lia. }
  pose proof (size_nonneg i).
  clearbody additional. pose proof (sd_max _ _ _ Hs). pose proof (sd_used _ _ _ Hs). pose proof (sd_lost _ _ _ Hs).
  pose proof (map_sum_nonneg _ size_nonneg (inodes f)). unfold total, MAX_FILE_SIZE in *.
  rewrite u64_add_small by lia. case_decide; [eauto|]. right. exists i, (bytes_used f + additional).
  split_and!; try done; try lia.
  pose proof (write_content off data (content i)) as Hc. fold (size_of i) in Hc.
  destruct (if decide (size_of i < off) then _ else _) as [c1|]; cbn [mbind option_bind] in *; [|by discriminate Hc; lia].
  destruct (if decide (Z.of_nat (length c1) < _) then _ else _) as [c2|]; cbn [mbind option_bind] in *; [|by discriminate Hc; lia].
  by rewrite Hc by lia.
Qed.

Lemma write_keeps lost k now n off data f : 0 ≤ off → off + Z.of_nat (length data) < 2 ^ 64 →
  sound lost k f → keeps lost k (write now n off data f).
Proof.
  intros Ho Hl Hs. destruct (write_inv lost k now n off data f Hs Ho Hl) as [[e ->]|(i & used & Hi & _ & Hm & Hu & Hle & ->)];
    [auto|]. apply sound_ret. unfold MAX_FILE_SIZE in *. pose proof (sd_file _ _ _ Hs n i Hi) as Hf. unfold MAX_FILE_SIZE in Hf.
  assert (size_of (touch_modify now (with_content (overwrite off data (content i)) i)) = Z.max (size_of i) (off + Z.of_nat (length data))) as Hz
    by (unfold size_of; simpl; by apply length_overwrite).
  eapply sound_put; [done..|rewrite Hz; unfold MAX_FILE_SIZE; lia|lia|lia].
Qed.

Lemma truncate_keeps lost k now n len f : 0 ≤ len → sound lost k f → keeps lost k (truncate now n len f).
Proof.
  intros Hl Hs. unfold truncate. destruct (inodes f !! n) as [i|] eqn:Hi; [|auto]. case_decide; [auto|]. case_decide; [auto|].
  pose proof (sd_max _ _ _ Hs). pose proof (sd_used _ _ _ Hs). pose proof (sd_lost _ _ _ Hs).
  pose proof (map_sum_ge _ size_nonneg _ _ _ Hi). unfold total, MAX_FILE_SIZE in *. pose proof (size_nonneg i).
  rewrite resize_ok by lia. cbn [mbind option_bind].
  set (c := take _ _ ++ _). assert (size_of (touch_modify now (with_content c i)) = len) as Hc.
  { unfold size_of, c. simpl. rewrite length_app, length_take, length_replicate. lia. }
  case_decide.
  - rewrite u64_add_small by lia. case_decide; [auto|]. apply sound_ret.
    eapply sound_put; [done..| | |lia]; rewrite Hc; unfold MAX_FILE_SIZE; lia.
  - rewrite u64_sub_small by lia. apply sound_ret.
    eapply sound_put; [done..| | |lia]; rewrite Hc; unfold MAX_FILE_SIZE; lia.
Qed.

Lemma add_entry_keeps lost k t1 parent name new f :
  (∀ n i, new n = Ok i → content i = []) → sound lost (k + 1) f → 0 ≤ k → keeps lost k (add_entry t1 parent name new f).
Proof.
  intros Hnew Hs Hk. unfold add_entry. pose proof (sound_weaken _ _ k _ Hs ltac:(lia)) as Hs'. case_decide; [auto|].
  pose proof (sd_next _ _ _ Hs) as (_ & Hn0 & Hn). unfold alloc_ino. cbn [fst snd].
  set (f1 := mkFs _ _ _ _).
  assert (Hs1 : sound lost k f1).
  { destruct Hs. split; unfold f1, total in *; simpl in *; rewrite ?u64_add_small by lia; try done; try lia.
    intros n i Hi. specialize (sd_fresh0 n i Hi). lia. }
  change (inodes f1) with (inodes f). destruct (inodes f !! parent) as [p|] eqn:Hp; [|auto].
  do 2 (case_decide; [auto|]). destruct (new (next_ino f)) as [i|] eqn:Hi; [|auto].
  apply sound_ret. set (p' := if decide _ then _ else _).
  assert (content p' = content p) as Hp' by (unfold p'; by case_decide).
  assert (Hs2 : sound lost k (put parent p' f1)) by by eapply sound_update.
  clearbody p'. destruct Hs2. apply Hnew in Hi.
  assert (size_of i = 0) as Hz by (unfold size_of; by rewrite Hi).
  assert (inodes (put parent p' f1) !! next_ino f = None) as Hfree.
  { apply eq_None_not_Some. intros [j Hj]. simpl in Hj. apply lookup_insert_Some in Hj as [[-> _]|[_ Hj]].
    - pose proof (sd_fresh _ _ _ Hs _ _ Hp). lia.
    - pose proof (sd_fresh _ _ _ Hs _ _ Hj). lia. }
  split; try done.
  - unfold total in *. cbn [put set_inodes inodes] in *. rewrite map_sum_insert by done. simpl in *. lia.
  - intros n j. simpl. rewrite lookup_insert_Some. intros [[_ <-]|[_ Hj]]; [rewrite Hz; done|]. by apply (sd_file0 n).
  - intros n j. simpl. rewrite lookup_insert_Some. intros [[<- _]|[_ Hj]]; [rewrite u64_add_small by lia; lia|]. by apply (sd_fresh0 n j).
Qed.

Lemma drop_link_sound lost k child parent f : sound lost k f → sound lost k (drop_link child parent f).
Proof.
  intros Hs. unfold drop_link. destruct (inodes f !! child) as [c|] eqn:Hc; [|done].
  set (f1 := put child _ f). assert (Hs1 : sound lost k f1) by by eapply sound_update.
  set (f2 := if decide (u32 (nlink c - 1) = 0) then _ else _). assert (Hs2 : sound lost k f2).
  { unfold f2. case_decide; [|done]. pose proof (sd_max _ _ _ Hs). pose proof (sd_used _ _ _ Hs). pose proof (sd_lost _ _ _ Hs).
    pose proof (map_sum_ge _ size_nonneg _ _ _ Hc). unfold total in *. pose proof (size_nonneg c).
    assert (u64_sub (bytes_used f1) (size_of c) = bytes_used f1 - size_of c - lost + lost) as ->.
    { change (bytes_used f1) with (bytes_used f). rewrite u64_sub_small by lia. lia. }
    apply sound_delete with (lost := lost) (i := with_nlink (u32 (nlink c - 1)) c); [done| | |].
    - apply lookup_insert_eq.
    - done.
    - change (size_of (with_nlink _ c)) with (size_of c). lia. }
  case_decide; [|done]. by apply sound_update_fn.
Qed.

Lemma unlink_keeps lost k now parent name f : sound lost k f → keeps lost k (unlink now parent name f).
Proof.
  intros Hs. unfold unlink. destruct (inodes f !! parent) as [p|] eqn:Hp; [|auto].
  case_decide; [auto|]. destruct (children p !! name) as [c|]; [|auto]. case_match; [auto|].
  apply sound_ret, drop_link_sound. by eapply sound_update.
Qed.

Lemma link_keeps lost k t0 t1 n parent name f : sound lost k f → keeps lost k (link t0 t1 n parent name f).
Proof.
  intros Hs. unfold link. case_decide; [auto|]. destruct (inodes f !! n) as [i|] eqn:Hi; [|auto].
  case_decide; [auto|]. set (f1 := put n _ f). assert (Hs1 : sound lost k f1) by by eapply sound_update.
  clearbody f1. destruct (inodes f1 !! parent) as [p|] eqn:Hp; [|auto]. case_decide; [auto|].
  case_decide; apply sound_ret; [by apply sound_update_fn|]. by eapply sound_update.
Qed.

Lemma setattr_keeps lost k now n attr f : sound lost k f → keeps lost k (setattr now n attr f).
Proof.
  intros Hs. unfold setattr. destruct (inodes f !! n) as [i|] eqn:Hi; [|auto]. apply sound_ret. by eapply sound_update.
Qed.

(** Renaming never gives bytes back: what it replaces is lost to the account. *)
Lemma rename_keeps lost k t0 t1 op on np nn f : sound lost k f →
  ∃ lost', lost ≤ lost' ∧ keeps lost' k (rename t0 t1 op on np nn f).
Proof.
  intros Hs. assert (∀ f' (r : Result unit VfsError), sound lost k f' → ∃ lost', lost ≤ lost' ∧ keeps lost' k (Some (f', r))) as Hret.
  { intros. exists lost. auto with lia. }
  unfold rename. case_decide; [auto|]. destruct (inodes f !! op) as [o|] eqn:Ho; cbn [ok_or]; [|auto].
  destruct (children o !! on) as [n|]; [|auto]. destruct (inodes f !! np) as [p|] eqn:Hp; [|auto].
  case_decide as Hd; [auto|].
  set (f1 := put op _ f). assert (Hs1 : sound lost k f1) by by eapply sound_update.
  assert (∃ p1, inodes f1 !! np = Some p1 ∧ file_type p1 = Directory) as (p1 & Hp1 & Ht1).
  { unfold f1. simpl. destruct (decide (op = np)) as [->|]; [rewrite lookup_insert_eq|rewrite lookup_insert_ne by done; eauto].
    eexists. split; [done|]. simpl. congruence. }
  clearbody f1. rewrite Hp1. cbn [mbind option_bind].
  assert (Hplace : ∀ lost' f' q, sound lost' k f' → inodes f' !! np = Some q → lost ≤ lost' →
    ∃ lost', lost ≤ lost' ∧ keeps lost' k (np' ← inodes f' !! np;
      Some (put np (touch_modify t1 (with_children (<[nn := n]> (children np')) np')) f', Ok tt))).
  { intros lost' f' q Hsf Hq Hle. exists lost'. split; [done|]. rewrite Hq. apply sound_ret. by eapply sound_update. }
  destruct (children p1 !! nn) as [e|] eqn:He; [|apply Hret; by eapply sound_update].
  case_match eqn:Hb; [apply Hret; by apply sound_update_fn|].
  destruct (inodes f1 !! e) as [ei|] eqn:Hei.
  - assert (e ≠ np) as Hne.
    { intros ->. rewrite Hp1 in Hei. injection Hei as <-. apply bool_decide_eq_false in Hb. apply Hb. split; [done|].
      intros Hc. by rewrite Hc, lookup_empty in He. }
    pose proof (size_nonneg ei). pose proof (sd_lost _ _ _ Hs).
    apply (Hplace (lost + size_of ei) _ p1); [| |lia].
    + replace f1 with (set_bytes_used (bytes_used f1) f1) at 2 by by destruct f1.
      apply sound_delete with (lost := lost) (i := ei); [done|done|lia|lia].
    + simpl. by rewrite lookup_delete_ne.
  - apply (Hplace lost _ p1); [|simpl; by rewrite delete_id|done].
    rewrite delete_id by done. by destruct f1.
Qed.

(** ** Histories *)

Lemma keeps_step {A} lost k (x : outcome RamFs A) : keeps lost k x → ∃ f', fst <$> x = Some f' ∧ sound lost k f'.
Proof. intros (f' & r & -> & ?). by exists f'. Qed.

Lemma step_sound lost k t0 t1 r f : fits r → 0 ≤ k → sound lost (k + 1) f →
  ∃ f' lost', step t0 t1 r f = Some f' ∧ sound lost' k f' ∧ lost ≤ lost' ∧ (is_rename r = false → lost' = lost).
Proof.
  intros Hf Hk Hs. pose proof (sound_weaken _ _ k _ Hs ltac:(lia)) as Hs'.
  destruct (is_rename r) eqn:Hr.
  - destruct r as [| | | |op on np nn| | | |]; try done. cbn [step].
    destruct (rename_keeps lost k t0 t1 op on np nn f Hs') as (lost' & Hle & (f' & x & -> & Hs2)).
    exists f', lost'. by split_and!.
  - assert (∃ f', step t0 t1 r f = Some f' ∧ sound lost k f') as (f' & ? & ?);
      [|exists f', lost; by split_and!].
    destruct r; try done; cbn [step fits] in *; apply keeps_step.
    + apply read_keeps; tauto.
    + apply write_keeps; tauto.
    + apply add_entry_keeps; [|done..]. intros n i. destruct ty; intros [= <-]; done.
    + by apply unlink_keeps.
    + by apply truncate_keeps.
    + apply add_entry_keeps; [|done..]. by intros n i [= <-].
    + by apply link_keeps.
    + by apply setattr_keeps.
Qed.

Lemma new_sound now k : 0 ≤ cap ≤ 2 ^ 63 → 0 ≤ k < 2 ^ 63 → sound 0 k (RamFs_new cap now).
Proof.
  intros Hm Hk. split; simpl; try done; try lia.
  - intros n i. rewrite lookup_singleton_Some. intros [_ <-]. done.
  - intros n i. rewrite lookup_singleton_Some. intros [<- _]. lia.
Qed.

Lemma run_sound rs : ∀ lost k f, Forall (λ x, fits x.2) rs → 0 ≤ k → sound lost (Z.of_nat (length rs) + k) f →
  ∃ f' lost', run rs f = Some f' ∧ sound lost' k f' ∧ lost ≤ lost' ∧
    (Forall (λ x, is_rename x.2 = false) rs → lost' = lost).
Proof.
  induction rs as [|[[t0 t1] r] rs IH]; intros lost k f Hf Hk Hs.
  - by exists f, lost.
  - apply Forall_cons in Hf as [Hr Hf].
    destruct (step_sound lost (Z.of_nat (length rs) + k) t0 t1 r f Hr ltac:(lia)) as (f1 & lost1 & Hst & Hs1 & Hle1 & Heq1).
    { replace (Z.of_nat (length rs) + k + 1) with (Z.of_nat (length ((t0, t1, r) :: rs)) + k) by (simpl; lia). done. }
    destruct (IH lost1 k f1 Hf Hk Hs1) as (f2 & lost2 & Hrun & Hs2 & Hle2 & Heq2).
    exists f2, lost2. cbn [run]. rewrite Hst. split_and!; [done..|lia|].
    intros [Hn Hns]%Forall_cons. rewrite Heq2 by done. auto.
Qed.

End account.

(** [C33] The account of the space is sound: over any history of calls whose ranges do not
    pass the end of the 64-bit offsets, no call panics, the bytes counted cover the
    content of all inodes and stay within the capacity, no file exceeds 4 MB, and no
    inode number is given out twice; without renames the count is exact (a rename
    that replaces a file keeps counting it). *)
Theorem space_accounted max now rs :
  0 ≤ max ≤ 2 ^ 63 → Z.of_nat (length rs) < 2 ^ 63 → Forall (λ x, fits x.2) rs →
  ∃ f, run rs (RamFs_new max now) = Some f ∧ total f ≤ bytes_used f ≤ max ∧
    (∀ n i, inodes f !! n = Some i → size_of i ≤ MAX_FILE_SIZE ∧ n < next_ino f) ∧
    (Forall (λ x, is_rename x.2 = false) rs → bytes_used f = total f).
Proof.
  intros Hm Hl Hf.
  destruct (run_sound max rs 0 0 (RamFs_new max now) Hf ltac:(lia)) as (f & lost & Hr & Hs & Hle & Heq).
  { rewrite Z.add_0_r. apply new_sound; lia. }
  exists f. pose proof (sd_used _ _ _ _ Hs). pose proof (sd_max _ _ _ _ Hs). split_and!; [done|lia..| |].
  - intros n i Hi. split; [by eapply sd_file|by eapply sd_fresh].
  - intros Hn. specialize (Heq Hn). lia.
Qed.

(** ** What the VFS relies on *)

(** Reading back a range that was written. *)
Lemma read_overwrite off data l : 0 ≤ off →
  take (length data) (drop (Z.to_nat off) (overwrite off data l)) = data.
Proof.
  intros Ho. unfold overwrite. set (o := Z.to_nat off).
  rewrite (app_assoc (take o l)), drop_app_length' by (rewrite length_app, length_take, length_replicate; lia).
  by rewrite take_app_length.
Qed.

Lemma write_Ok cap lost k now n off data f f' r : sound cap lost k f → 0 ≤ off → off + Z.of_nat (length data) < 2 ^ 64 →
  write now n off data f = Some (f', Ok r) →
  r = Z.of_nat (length data) ∧ sound cap lost k f' ∧
  ∃ i, inodes f !! n = Some i ∧ file_type i = Regular ∧
    inodes f' = <[n := touch_modify now (with_content (overwrite off data (content i)) i)]> (inodes f).
Proof.
  intros Hs Ho Hl Hw. destruct (write_keeps cap lost k now n off data f Ho Hl Hs) as (f1 & r1 & Hw1 & Hs1).
  rewrite Hw in Hw1. injection Hw1 as <- <-.
  destruct (write_inv cap lost k now n off data f Hs Ho Hl) as [[e He]|(i & used & Hi & Ht & _ & _ & _ & He)];
    rewrite Hw in He; [done|]. injection He as -> ->. split_and!; [done..|]. by exists i.
Qed.

Lemma add_entry_Ok cap lost k t1 parent name new f f' n :
  (∀ n i, new n = Ok i → content i = []) → sound cap lost (k + 1) f → 0 ≤ k →
  add_entry t1 parent name new f = Some (f', Ok n) →
  sound cap lost k f' ∧ lookup parent name f' = Ok n ∧ ∃ i, new n = Ok i ∧ inodes f' !! n = Some i.
Proof.
  intros Hnew Hs Hk Ha. destruct (add_entry_keeps cap lost k t1 parent name new f Hnew Hs Hk) as (f1 & r1 & Ha1 & Hs1).
  rewrite Ha in Ha1. injection Ha1 as <- <-. split; [done|].
  unfold add_entry in Ha. case_decide; [done|]. simpl in Ha.
  destruct (inodes f !! parent) as [p|] eqn:Hp; [|done]. pose proof (sd_fresh _ _ _ _ Hs _ _ Hp) as Hlt.
  case_decide as Hd; [done|]. case_decide; [done|].
  destruct (new (next_ino f)) as [i|] eqn:Hi; [|done]. injection Ha as <- <-. split; [|exists i; split; [done|apply lookup_insert_eq]].
  unfold lookup. simpl. rewrite lookup_insert_ne, lookup_insert_eq by lia. cbn [ok_or res_bind].
  rewrite decide_False by (case_decide; simpl; tauto).
  destruct (decide (file_type i = Directory)); simpl; by rewrite lookup_insert_eq.
Qed.

(** The sound states, with room for [k] more inodes. *)
Definition ram_ok (k : Z) (f : RamFs) : Prop := ∃ cap lost, sound cap lost k f.

Lemma ram_write_then_read now now' n off data f f' r k :
  ram_ok k f → is_u64 off → off + Z.of_nat (length data) < 2 ^ 64 → write now n off data f = Some (f', Ok r) →
  r = Z.of_nat (length data) ∧ ram_ok k f' ∧ ∃ f'', read now' n off r f' = Some (f'', Ok data) ∧ ram_ok k f''.
Proof.
  intros (cap & lost & Hs) [Ho _] Hl Hw.
  destruct (write_Ok _ _ _ _ _ _ _ _ _ _ Hs Ho Hl Hw) as (-> & Hs' & i & Hi & Ht & Hf').
  split; [done|]. split; [by exists cap, lost|].
  destruct (read_keeps cap lost k now' n off (Z.of_nat (length data)) f' Ho ltac:(lia) Hl Hs') as (f'' & r & Hr & Hs'').
  exists f''. split; [|by exists cap, lost]. simpl. rewrite Hr. do 2 f_equal.
  unfold read in Hr. rewrite Hf', lookup_insert_eq in Hr. simpl in Hr. rewrite decide_False in Hr by (rewrite Ht; naive_solver).
  set (c := overwrite off data (content i)) in *.
  assert (Hc : Z.of_nat (length c) = Z.max (Z.of_nat (length (content i))) (off + Z.of_nat (length data))) by by apply length_overwrite.
  unfold size_of in Hr. simpl in Hr. case_decide as Hoff.
  { injection Hr as _ <-. destruct data; [done|]. simpl in *. lia. }
  rewrite u64_add_small in Hr by lia. rewrite Z.min_l, decide_False in Hr by lia. injection Hr as _ <-.
  replace (off + Z.of_nat (length data) - off) with (Z.of_nat (length data)) by lia. rewrite Nat2Z.id.
  unfold c. by rewrite read_overwrite.
Qed.

Lemma ram_write_then_getattr now n off data f f' r k :
  ram_ok k f → is_u64 off → off + Z.of_nat (length data) < 2 ^ 64 → write now n off data f = Some (f', Ok r) →
  ∃ a, getattr n f' = Ok a ∧ off + r ≤ a_size a.
Proof.
  intros (cap & lost & Hs) [Ho _] Hl Hw.
  destruct (write_Ok _ _ _ _ _ _ _ _ _ _ Hs Ho Hl Hw) as (-> & Hs' & i & Hi & Ht & Hf').
  eexists. simpl. unfold getattr. rewrite Hf', lookup_insert_eq. split; [done|]. simpl. unfold size_of. simpl.
  rewrite length_overwrite by done. lia.
Qed.

Lemma ram_write_keeps_names now n off data f f' r p name :
  write now n off data f = Some (f', Ok r) → lookup p name f' = lookup p name f.
Proof.
  intros Hw. unfold write in Hw.
  destruct (inodes f !! n) as [i|] eqn:Hi; [|done]. do 3 (case_decide; [done|]).
  destruct (if decide (size_of i < off) then _ else _); cbn [mbind option_bind] in Hw; [|done].
  destruct (if decide (_ < _) then _ else Some _); cbn [mbind option_bind] in Hw; [|done].
  destruct (copy_into _ _ _); cbn [mbind option_bind] in Hw; [|done]. injection Hw as <- _.
  unfold lookup. simpl. destruct (decide (p = n)) as [->|]; [rewrite lookup_insert_eq, Hi|rewrite lookup_insert_ne by done]; done.
Qed.

Lemma ram_create_then_lookup t0 t1 p name ty f f' n k :
  ram_ok (k + 1) f → 0 ≤ k → create t0 t1 p name ty f = Some (f', Ok n) →
  ram_ok k f' ∧ lookup p name f' = Ok n ∧ ∃ a, getattr n f' = Ok a ∧ a_file_type a = ty ∧ a_size a = 0.
Proof.
  intros (cap & lost & Hs) Hk Hc.
  destruct (add_entry_Ok cap lost k t1 p name (new_node ty t0) f f' n) with (4 := Hc) as (Hs' & Hlk & i & Hi & Hfi); [|done..|].
  { intros m j. destruct ty; intros [= <-]; done. }
  split; [by exists cap, lost|]. split; [done|]. exists (to_attr i). unfold getattr. rewrite Hfi. split; [done|].
  destruct ty; try done; injection Hi as <-; done.
Qed.

#[export] Instance RamFs_laws : FilesystemLaws RamFs := {
  fs_ok := ram_ok;
  VfsIface.write_then_read := ram_write_then_read;
  VfsIface.write_then_getattr := ram_write_then_getattr;
  VfsIface.write_keeps_names := ram_write_keeps_names;
  VfsIface.create_then_lookup := ram_create_then_lookup;
}.

(** ** What the operations do not do *)

(** A removed directory is never freed: it starts with two links and loses one. *)
Lemma removed_directory_stays :
  let f := RamFs_new 100 0 in
  match create 1 1 1 [97] Directory f with
  | Some (f1, Ok n) => match unlink 2 1 [97] f1 with
                       | Some (f2, Ok _) => lookup 1 [97] f2 = Err NotFound ∧ (inodes f2 !! n) ≠ None ∧ inode_count f2 = 2%nat
                       | _ => False
                       end
  | _ => False
  end.
Proof. vm_compute. split_and!; congruence. Qed.

(** Renaming over a file removes its inode whatever other names it has, and its bytes
    stay counted: here the file is also linked as [c], which dangles afterwards. *)
Definition rename_calls : list (Z * Z * Request) :=
  [(0, 0, Create 1 [97] Regular); (0, 0, Create 1 [98] Regular); (0, 0, Write 3 0 [1; 2; 3]);
   (0, 0, Link 3 1 [99]); (0, 0, Rename 1 [97] 1 [98])].

Lemma rename_replaces_badly :
  match run rename_calls (RamFs_new 100 0) with
  | Some f => lookup 1 [99] f = Ok 3 ∧ getattr 3 f = Err NotFound ∧ bytes_used f = 3 ∧ total f = 0
  | None => False
  end.
Proof. vm_compute. by split_and!. Qed.

(** A directory can be moved into itself, and is then reachable from nowhere. *)
Lemma rename_detaches :
  match run [(0, 0, Create 1 [97] Directory); (0, 0, Rename 1 [97] 2 [98])] (RamFs_new 100 0) with
  | Some f => lookup 1 [97] f = Err NotFound ∧ lookup 2 [98] f = Ok 2
  | None => False
  end.
Proof. vm_compute. by split_and!. Qed.

(** A failed link keeps the count it has raised. *)
Lemma failed_link_counts :
  match run [(0, 0, Create 1 [97] Regular); (0, 0, Link 2 7 [98])] (RamFs_new 100 0) with
  | Some f => a_nlink <$> match getattr 2 f with Ok a => Some a | Err _ => None end = Some 2
  | None => False
  end.
Proof. vm_compute. done. Qed.

(** A write whose end passes [u64::MAX] is not refused: the wrapped length passes the checks and
    the vector is grown to the offset, a panic. *)
Lemma wrapped_write_panics now n off data f i :
  inodes f !! n = Some i → file_type i = Regular → size_of i ≤ MAX_FILE_SIZE → 2 ^ 63 ≤ off < 2 ^ 64 → 
  2 ^ 64 ≤ off + Z.of_nat (length data) ≤ 2 ^ 64 + size_of i → 0 ≤ bytes_used f ≤ max_size f → max_size f < 2 ^ 64 →
  write now n off data f = None.
Proof.
  intros Hi Ht Hsz Ho Hl Hu Hm. unfold write. rewrite Hi, decide_False by (rewrite Ht; naive_solver). unfold MAX_FILE_SIZE in *.
  assert (u64_add off (Z.of_nat (length data)) = off + Z.of_nat (length data) - 2 ^ 64) as Hw.
  { unfold u64_add, u64, wrap. symmetry. apply Z.mod_unique with (q := 1); lia. }
  rewrite Hw. rewrite decide_False by lia. rewrite (decide_False (P := size_of i < _)) by lia.
  rewrite u64_add_small by lia. rewrite decide_False by lia. rewrite decide_True by lia.
  unfold resize. by rewrite decide_True by lia.
Qed.

(** The same for a read: the wrapped end lies before the offset, and slicing panics. *)
Lemma wrapped_read_panics now n off len f i :
  inodes f !! n = Some i → file_type i = Regular → 0 ≤ off < size_of i → size_of i ≤ MAX_FILE_SIZE → len < 2 ^ 64 → 2 ^ 64 ≤ off + len →
  read now n off len f = None.
Proof.
  intros Hi Ht Ho Hsz Hl Hw. unfold MAX_FILE_SIZE in Hsz. unfold read. rewrite Hi, decide_False by (rewrite Ht; naive_solver). rewrite decide_False by lia.
  assert (u64_add off len = off + len - 2 ^ 64) as ->.
  { unfold u64_add, u64, wrap. symmetry. apply Z.mod_unique with (q := 1); [|lia]. unfold size_of in *. lia. }
  by rewrite decide_True by lia.
Qed.

(** ** Witness *)

Lemma space_accounted_witness : ∃ f, run rename_calls (RamFs_new 100 0) = Some f ∧ total f ≤ bytes_used f ≤ 100 ∧
    (∀ n i, inodes f !! n = Some i → size_of i ≤ MAX_FILE_SIZE ∧ n < next_ino f) ∧
    (Forall (λ x, is_rename x.2 = false) rename_calls → bytes_used f = total f).
Proof.
  apply (space_accounted 100 0 rename_calls); [lia|simpl; lia|].
  repeat constructor; simpl; lia.
Defined.
