(* ===== verification/Vfs.v ===== *)
(** * Vfs: mounts, paths and descriptors ([kernel/src/fs/vfs.rs])

    The mount table with its longest-match search, path resolution through the
    lookups of a mounted file system, and the descriptor tables of the processes, over
    any [Filesystem]. An [Arc<dyn Filesystem>] is an index into a store of file
    systems, so that two mounts of one file system share its state.

    The buffer of a read is what the call copies into it, returned beside the count. *)

From Stdlib Require Import ZArith Lia.
From stdpp Require Import sorting list gmap.
From S2P Require Import Prelude.
From S2P Require Import Paths.
From S2P Require Import VfsIface.
From S2P Require Ramfs.

Definition MAX_OPEN_FILES : nat := 256.
Definition MAX_MOUNTS : nat := 64.

Record OpenFlags := mkFlags {
  fl_read : bool; fl_write : bool; fl_append : bool; fl_create : bool; fl_exclusive : bool; fl_truncate : bool;
  fl_directory : bool;
}.
Definition read_only : OpenFlags := mkFlags true false false false false false false.
Definition write_only : OpenFlags := mkFlags false true false false false false false.
Definition read_write : OpenFlags := mkFlags true true false false false false false.
Definition create_write : OpenFlags := mkFlags false true false true false true false.

Inductive SeekFrom := SeekStart (n : Z) | SeekCurrent (n : Z) | SeekEnd (n : Z).

Record MountPoint := mkMount { m_path : Str; m_fs : nat; m_root_ino : Z; m_read_only : bool }.

Record OpenFile := mkOpen { f_mount : MountPoint; f_ino : Z; f_offset : Z; f_flags : OpenFlags }.

Record FdTable := mkTable { files : gmap Z OpenFile; next_fd : Z }.
Definition FdTable_new : FdTable := mkTable ∅ 3.

Definition table_alloc (file : OpenFile) (t : FdTable) : FdTable * Result Z VfsError :=
  if decide (MAX_OPEN_FILES ≤ size (files t))%nat then (t, Err TooManyOpenFiles)
  else (mkTable (<[next_fd t := file]> (files t)) (u32 (next_fd t + 1)), Ok (next_fd t)).

Definition table_close (fd : Z) (t : FdTable) : FdTable * Result unit VfsError :=
  match files t !! fd with
  | Some _ => (mkTable (delete fd (files t)) (next_fd t), Ok tt)
  | None => (t, Err BadFd)
  end.

Section vfs.
Context {F : Type} `{Filesystem F}.

Record Vfs := mkVfs {
  mounts : list MountPoint;
  next_ino : Z;
  fd_tables : gmap Z FdTable;
  (** The file systems the mounts share. *)
  store : nat → F;
}.

Definition Vfs_new (st : nat → F) : Vfs := mkVfs [] 1 ∅ st.

Definition set_mounts (l : list MountPoint) (v : Vfs) : Vfs := mkVfs l (next_ino v) (fd_tables v) (store v).
Definition set_table (pid : Z) (t : FdTable) (v : Vfs) : Vfs :=
  mkVfs (mounts v) (next_ino v) (<[pid := t]> (fd_tables v)) (store v).
Definition set_fs (id : nat) (f : F) (v : Vfs) : Vfs :=
  mkVfs (mounts v) (next_ino v) (fd_tables v) (λ i, if decide (i = id) then f else store v i).

Definition alloc_ino (v : Vfs) : Vfs * Z :=
  (mkVfs (mounts v) (u64_add (next_ino v) 1) (fd_tables v) (store v), next_ino v).

(** An operation of a mounted file system. *)
Definition on_fs {A} (id : nat) (op : F → outcome F A) (v : Vfs) : outcome Vfs A :=
  '(f, r) ← op (store v id); Some (set_fs id f v, r).

(** ** The mount table *)

(** The stable sort by descending length of the path. *)
Fixpoint insert_mount (m : MountPoint) (l : list MountPoint) : list MountPoint :=
  match l with
  | [] => [m]
  | x :: l' => if decide (length (m_path x) ≤ length (m_path m))%nat then m :: l else x :: insert_mount m l'
  end.
Definition sort_mounts (l : list MountPoint) : list MountPoint := foldr insert_mount [] l.

Definition mount (path : Str) (fs : nat) (ro : bool) (v : Vfs) : Vfs * Result unit VfsError :=
  if decide (MAX_MOUNTS ≤ length (mounts v))%nat then (v, Err NoSpace)
  else if existsb (λ m, bool_decide (m_path m = path)) (mounts v) then (v, Err AlreadyExists)
  else (set_mounts (sort_mounts (mounts v ++ [mkMount path fs 1 ro])) v, Ok tt).

Definition unmount (path : Str) (v : Vfs) : Vfs * Result unit VfsError :=
  match position (λ m, bool_decide (m_path m = path)) (mounts v) with
  | None => (v, Err NotFound)
  | Some pos => (set_mounts (take pos (mounts v) ++ drop (S pos) (mounts v)) v, Ok tt)
  end.

Definition matches (path : Str) (m : MountPoint) : bool :=
  bool_decide (path = m_path m) || starts_with path (m_path m ++ [SLASH]).

Definition find_mount (path : Str) (v : Vfs) : option (MountPoint * Str) :=
  m ← List.find (matches path) (mounts v);
  Some (m, if decide (m_path m = [SLASH]) then path else drop (length (m_path m)) path).

(** ** Path resolution *)

Fixpoint lookup_all (f : F) (cs : list Str) (current : Z) : Result Z VfsError :=
  match cs with
  | [] => Ok current
  | c :: cs' =>
      if bool_decide (c = []) || bool_decide (c = DOT) then lookup_all f cs' current
      else if bool_decide (c = DOTDOT) then lookup_all f cs' current
      else match fs_lookup current c f with
           | Ok next => lookup_all f cs' next
           | Err e => Err e
           end
  end.

Definition resolve_path (path : Str) (v : Vfs) : Result (MountPoint * Z) VfsError :=
  match find_mount path v with
  | None => Err NotFound
  | Some (m, relative) =>
      let path := trim_start (if decide (relative = []) then [SLASH] else relative) in
      if decide (path = []) then Ok (m, m_root_ino m)
      else match lookup_all (store v (m_fs m)) (split path) (m_root_ino m) with
           | Ok ino => Ok (m, ino)
           | Err e => Err e
           end
  end.

(** ** Descriptors *)

(** [open] splits at the last slash and does not mend an empty parent. *)
Definition open_parent (path : Str) : Str * Str :=
  match rsplit_once path with Some (p, n) => (p, n) | None => ([SLASH], path) end.

(** [mkdir], [unlink] and [rename] do. *)
Definition parent_of (path : Str) : Str * Str :=
  match rsplit_once path with
  | Some (p, n) => (if decide (p = []) then [SLASH] else p, n)
  | None => ([SLASH], path)
  end.

(** The inode [open] works on, made if [create] asks for it. *)
Definition open_inode (t0 t1 : Z) (path : Str) (flags : OpenFlags) (v : Vfs) : outcome Vfs (MountPoint * Z) :=
  if fl_create flags then
    match resolve_path path v with
    | Ok (m, ino) => if fl_exclusive flags then Some (v, Err AlreadyExists) else Some (v, Ok (m, ino))
    | Err NotFound =>
        let '(parent_path, name) := open_parent path in
        match resolve_path parent_path v with
        | Err e => Some (v, Err e)
        | Ok (m, parent_ino) =>
            '(v, r) ← on_fs (m_fs m) (fs_create t0 t1 parent_ino name Regular) v;
            match r with Ok ino => Some (v, Ok (m, ino)) | Err e => Some (v, Err e) end
        end
    | Err e => Some (v, Err e)
    end
  else Some (v, resolve_path path v).

Definition table_of (pid : Z) (v : Vfs) : FdTable := default FdTable_new (fd_tables v !! pid).

(** [get_fd_table] makes the table but hands out another, empty one. *)
Definition get_fd_table (pid : Z) (v : Vfs) : Vfs * FdTable := (set_table pid (table_of pid v) v, FdTable_new).

Definition open (t0 t1 t2 pid : Z) (path : Str) (flags : OpenFlags) (v : Vfs) : outcome Vfs Z :=
  let v := set_table pid (table_of pid v) v in
  '(v, r) ← open_inode t0 t1 path flags v;
  match r with
  | Err e => Some (v, Err e)
  | Ok (m, ino) =>
      match fs_getattr ino (store v (m_fs m)) with
      | Err e => Some (v, Err e)
      | Ok attr =>
          if bool_decide (a_file_type attr = Directory) && negb (fl_directory flags) then Some (v, Err IsADirectory)
          else
            '(v, r) ← (if fl_truncate flags && fl_write flags
                       then on_fs (m_fs m) (fs_truncate t2 ino 0) v else Some (v, Ok tt));
            match r with
            | Err e => Some (v, Err e)
            | Ok _ =>
                let '(t, r) := table_alloc (mkOpen m ino 0 flags) (table_of pid v) in
                Some (set_table pid t v, r)
            end
      end
  end.

Definition close (pid fd : Z) (v : Vfs) : Vfs * Result unit VfsError :=
  match fd_tables v !! pid with
  | None => (v, Err BadFd)
  | Some t => let '(t, r) := table_close fd t in (set_table pid t v, r)
  end.

(** The open file behind a descriptor of a process. *)
Definition get_file (pid fd : Z) (v : Vfs) : option OpenFile := t ← fd_tables v !! pid; files t !! fd.

Definition set_offset (pid fd off : Z) (v : Vfs) : Vfs :=
  match fd_tables v !! pid with
  | Some t =>
      match files t !! fd with
      | Some file =>
          set_table pid (mkTable (<[fd := mkOpen (f_mount file) (f_ino file) off (f_flags file)]> (files t)) (next_fd t)) v
      | None => v
      end
  | None => v
  end.

Definition read (now pid fd len : Z) (v : Vfs) : outcome Vfs (list Z) :=
  match get_file pid fd v with
  | None => Some (v, Err BadFd)
  | Some file =>
      if negb (fl_read (f_flags file)) then Some (v, Err PermissionDenied)
      else
        '(v, r) ← on_fs (m_fs (f_mount file)) (fs_read now (f_ino file) (f_offset file) len) v;
        match r with
        | Err e => Some (v, Err e)
        | Ok data =>
            let data := take (Z.to_nat len) data in
            Some (set_offset pid fd (u64_add (f_offset file) (Z.of_nat (length data))) v, Ok data)
        end
  end.

Definition write (now pid fd : Z) (buf : list Z) (v : Vfs) : outcome Vfs Z :=
  match get_file pid fd v with
  | None => Some (v, Err BadFd)
  | Some file =>
      if negb (fl_write (f_flags file)) then Some (v, Err PermissionDenied)
      else if m_read_only (f_mount file) then Some (v, Err ReadOnlyFs)
      else
        let id := m_fs (f_mount file) in
        match (if fl_append (f_flags file)
               then match fs_getattr (f_ino file) (store v id) with Ok a => Ok (a_size a) | Err e => Err e end
               else Ok (f_offset file)) with
        | Err e => Some (v, Err e)
        | Ok offset =>
            '(v, r) ← on_fs id (fs_write now (f_ino file) offset buf) v;
            match r with
            | Err e => Some (v, Err e)
            | Ok written => Some (set_offset pid fd (u64_add offset written) v, Ok written)
            end
        end
  end.

Definition sat_add (a b : Z) : Z := Z.min u64_max (a + b).

(** [(-n) as u64] of a negative [i64]: the magnitude, also of the least one. *)
Definition move (base n : Z) : Z := if decide (0 ≤ n) then sat_add base n else sat_sub base (u64 (- n)).

Definition seek (pid fd : Z) (pos : SeekFrom) (v : Vfs) : Vfs * Result Z VfsError :=
  match get_file pid fd v with
  | None => (v, Err BadFd)
  | Some file =>
      match fs_getattr (f_ino file) (store v (m_fs (f_mount file))) with
      | Err e => (v, Err e)
      | Ok attr =>
          let new_offset := match pos with
                            | SeekStart n => n
                            | SeekCurrent n => move (f_offset file) n
                            | SeekEnd n => move (a_size attr) n
                            end in
          (set_offset pid fd new_offset v, Ok new_offset)
      end
  end.

(** ** Operations on paths *)

Definition stat (path : Str) (v : Vfs) : Result VfsAttr VfsError :=
  match resolve_path path v with
  | Ok (m, ino) => fs_getattr ino (store v (m_fs m))
  | Err e => Err e
  end.

Definition fstat (pid fd : Z) (v : Vfs) : Result VfsAttr VfsError :=
  match get_file pid fd v with
  | None => Err BadFd
  | Some file => fs_getattr (f_ino file) (store v (m_fs (f_mount file)))
  end.

Definition readdir (path : Str) (v : Vfs) : Result (list VfsDirEntry) VfsError :=
  match resolve_path path v with
  | Ok (m, ino) => fs_readdir ino (store v (m_fs m))
  | Err e => Err e
  end.

Definition mkdir (t0 t1 : Z) (path : Str) (v : Vfs) : outcome Vfs unit :=
  let '(parent_path, name) := parent_of path in
  match resolve_path parent_path v with
  | Err e => Some (v, Err e)
  | Ok (m, parent_ino) =>
      '(v, r) ← on_fs (m_fs m) (fs_create t0 t1 parent_ino name Directory) v;
      match r with Ok _ => Some (v, Ok tt) | Err e => Some (v, Err e) end
  end.

Definition unlink (now : Z) (path : Str) (v : Vfs) : outcome Vfs unit :=
  let '(parent_path, name) := parent_of path in
  match resolve_path parent_path v with
  | Err e => Some (v, Err e)
  | Ok (m, parent_ino) => on_fs (m_fs m) (fs_unlink now parent_ino name) v
  end.

Definition rmdir : Z → Str → Vfs → outcome Vfs unit := unlink.

Definition rename (t0 t1 : Z) (old_path new_path : Str) (v : Vfs) : outcome Vfs unit :=
  let '(old_parent, old_name) := parent_of old_path in
  let '(new_parent, new_name) := parent_of new_path in
  match resolve_path old_parent v with
  | Err e => Some (v, Err e)
  | Ok (old_mount, old_ino) =>
      match resolve_path new_parent v with
      | Err e => Some (v, Err e)
      | Ok (new_mount, new_ino) =>
          if decide (m_fs old_mount ≠ m_fs new_mount) then Some (v, Err CrossDevice)
          else on_fs (m_fs old_mount) (fs_rename t0 t1 old_ino old_name new_ino new_name) v
      end
  end.

Definition list_mounts (v : Vfs) : list Str := m_path <$> mounts v.
End vfs.
Arguments Vfs F : clear implicits.

(** ** Descriptors belong to their process *)

(** A call of a process, or of anybody on a path; clock readings included. *)
Inductive Call :=
  | Open (t0 t1 t2 : Z) (path : Str) (flags : OpenFlags)
  | Close (fd : Z)
  | ReadFd (now fd len : Z)
  | WriteFd (now fd : Z) (data : list Z)
  | Seek (fd : Z) (pos : SeekFrom)
  | Mkdir (t0 t1 : Z) (path : Str)
  | Unlink (now : Z) (path : Str)
  | Rename (t0 t1 : Z) (old new : Str)
  | Mount (path : Str) (fs : nat) (ro : bool)
  | Unmount (path : Str).

Section calls.
Context {F : Type} `{Filesystem F}.
Implicit Type v : Vfs F.

Definition call (pid : Z) (c : Call) (v : Vfs F) : option (Vfs F) :=
  match c with
  | Open t0 t1 t2 path flags => fst <$> open t0 t1 t2 pid path flags v
  | Close fd => Some (close pid fd v).1
  | ReadFd now fd len => fst <$> read now pid fd len v
  | WriteFd now fd data => fst <$> write now pid fd data v
  | Seek fd pos => Some (seek pid fd pos v).1
  | Mkdir t0 t1 path => fst <$> mkdir t0 t1 path v
  | Unlink now path => fst <$> unlink now path v
  | Rename t0 t1 old new => fst <$> rename t0 t1 old new v
  | Mount path fs ro => Some (mount path fs ro v).1
  | Unmount path => Some (unmount path v).1
  end.

Fixpoint calls (cs : list (Z * Call)) (v : Vfs F) : option (Vfs F) :=
  match cs with
  | [] => Some v
  | (pid, c) :: cs' => v ← call pid c v; calls cs' v
  end.

Definition within_limit v : Prop := ∀ p t, fd_tables v !! p = Some t → (size (files t) ≤ MAX_OPEN_FILES)%nat.

(** What a call may do to the tables: only that of its process, within the limit. *)
Record step_ok (pid : Z) (v v' : Vfs F) : Prop := {
  so_others : ∀ pid', pid' ≠ pid → fd_tables v' !! pid' = fd_tables v !! pid';
  so_limit : within_limit v → within_limit v';
}.

Lemma step_ok_refl pid v v' : fd_tables v' = fd_tables v → step_ok pid v v'.
Proof. intros He. split; unfold within_limit; by rewrite He. Qed.

Lemma step_ok_trans pid v1 v2 v3 : step_ok pid v1 v2 → step_ok pid v2 v3 → step_ok pid v1 v3.
Proof. intros [H1 L1] [H2 L2]. split; [|intros Hl; by apply L2, L1]. intros pid' Hp. by rewrite H2, H1. Qed.

Lemma step_ok_table pid t v v' : fd_tables v' = fd_tables v →
  ((∀ t0, fd_tables v !! pid = Some t0 → (size (files t0) ≤ MAX_OPEN_FILES)%nat) → (size (files t) ≤ MAX_OPEN_FILES)%nat) →
  step_ok pid v (set_table pid t v').
Proof.
  intros He Ht. split; unfold within_limit; simpl; rewrite He.
  - intros pid' Hp. by rewrite lookup_insert_ne.
  - intros Hl p t'. rewrite lookup_insert_Some. intros [[<- <-]|[_ ?]]; [|by eapply Hl]. apply Ht. intros t0. apply Hl.
Qed.

Lemma on_fs_tables {A} id (op : F → outcome F A) v v' r : on_fs id op v = Some (v', r) → fd_tables v' = fd_tables v ∧ mounts v' = mounts v.
Proof. unfold on_fs. destruct (op _) as [[f x]|]; [|done]. by intros [= <- _]. Qed.

Lemma open_inode_tables t0 t1 path flags v v' r : open_inode t0 t1 path flags v = Some (v', r) → fd_tables v' = fd_tables v.
Proof.
  unfold open_inode. destruct (fl_create flags); [|by intros [= <- _]].
  destruct (resolve_path path v) as [[m i]|e]; [destruct (fl_exclusive flags); by intros [= <- _]|].
  destruct e; try by intros [= <- _]. destruct (open_parent path) as [pp n].
  destruct (resolve_path pp v) as [[m i]|e]; [|by intros [= <- _]].
  destruct (on_fs _ _ v) as [[v1 x]|] eqn:Ho; [|done]. apply on_fs_tables in Ho as [Ho _]. cbn [mbind option_bind].
  destruct x; intros [= <- _]; done.
Qed.

Lemma size_alloc file t t' r : table_alloc file t = (t', r) → (size (files t) ≤ MAX_OPEN_FILES)%nat →
  (size (files t') ≤ MAX_OPEN_FILES)%nat.
Proof.
  unfold table_alloc. case_decide as Hl; intros [= <- _] Ht; [done|]. simpl.
  destruct (files t !! next_fd t) eqn:E; [rewrite map_size_insert_Some by eauto|rewrite map_size_insert_None by done]; lia.
Qed.

Lemma table_of_limit pid v : (∀ t, fd_tables v !! pid = Some t → (size (files t) ≤ MAX_OPEN_FILES)%nat) →
  (size (files (table_of pid v)) ≤ MAX_OPEN_FILES)%nat.
Proof. intros Hl. unfold table_of. destruct (fd_tables v !! pid) eqn:E; simpl; [auto|]. unfold MAX_OPEN_FILES. rewrite map_size_empty. lia. Qed.

Lemma set_offset_ok pid fd off v v' : fd_tables v' = fd_tables v → step_ok pid v (set_offset pid fd off v').
Proof.
  intros He. unfold set_offset. rewrite He. destruct (fd_tables v !! pid) as [t|] eqn:Ht; [|by apply step_ok_refl].
  destruct (files t !! fd) as [file|] eqn:Hf; [|by apply step_ok_refl].
  apply step_ok_table; [done|]. intros Hl. simpl. rewrite map_size_insert_Some by eauto. by apply Hl.
Qed.

Lemma open_step t0 t1 t2 pid path flags v v' r : open t0 t1 t2 pid path flags v = Some (v', r) → step_ok pid v v'.
Proof.
  unfold open. set (v0 := set_table _ _ v).
  assert (H0 : step_ok pid v v0) by (apply step_ok_table; [done|apply table_of_limit]).
  destruct (open_inode _ _ _ _ v0) as [[v1 x]|] eqn:Ho; [|done]. apply open_inode_tables in Ho. cbn [mbind option_bind].
  assert (H1 : step_ok pid v v1) by (eapply step_ok_trans; [exact H0|by apply step_ok_refl]).
  destruct x as [[m i]|e]; [|by intros [= <- _]]. destruct (fs_getattr _ _) as [a|e]; [|by intros [= <- _]].
  destruct (_ && _); [by intros [= <- _]|].
  destruct (if fl_truncate flags && fl_write flags then _ else _) as [[v2 y]|] eqn:Ht; [|done]. cbn [mbind option_bind].
  assert (He : fd_tables v2 = fd_tables v1).
  { destruct (_ && _); [by apply on_fs_tables in Ht as [? _]|by injection Ht as <- _]. }
  assert (H2 : step_ok pid v v2) by (eapply step_ok_trans; [exact H1|by apply step_ok_refl]).
  destruct y; [|by intros [= <- _]].
  destruct (table_alloc _ _) as [t z] eqn:Ha. intros [= <- _]. eapply step_ok_trans; [exact H2|].
  apply step_ok_table; [done|]. intros Hl. eapply size_alloc; [exact Ha|]. by apply table_of_limit.
Qed.

(** An early return leaves the tables alone. *)
#[local] Ltac same H := injection H as <- _; by apply step_ok_refl.

Lemma close_step pid fd v : step_ok pid v (close pid fd v).1.
Proof.
  unfold close, table_close. destruct (fd_tables v !! pid) as [t|] eqn:Ht; [|by apply step_ok_refl].
  destruct (files t !! fd) eqn:Hf; simpl; (apply step_ok_table; [done|]); intros Hl; simpl; [|by apply Hl].
  specialize (Hl t Ht). rewrite map_size_delete. destruct (files t !! fd); simpl; lia.
Qed.

Lemma read_step now pid fd len v v' r : read now pid fd len v = Some (v', r) → step_ok pid v v'.
Proof.
  unfold read. intros Ho. destruct (get_file pid fd v) as [file|]; [|same Ho].
  destruct (negb _); [same Ho|].
  destruct (on_fs _ _ v) as [[v2 x]|] eqn:Hf; [|done]. apply on_fs_tables in Hf as [Hf _]. cbn [mbind option_bind] in Ho.
  destruct x; [injection Ho as <- _; by apply set_offset_ok|same Ho].
Qed.

Lemma write_step now pid fd data v v' r : write now pid fd data v = Some (v', r) → step_ok pid v v'.
Proof.
  unfold write. intros Ho. destruct (get_file pid fd v) as [file|]; [|same Ho].
  destruct (negb _); [same Ho|]. destruct (m_read_only _); [same Ho|].
  destruct (if fl_append _ then _ else _) as [off|e]; [|same Ho].
  destruct (on_fs _ _ v) as [[v2 x]|] eqn:Hf; [|done]. apply on_fs_tables in Hf as [Hf _]. cbn [mbind option_bind] in Ho.
  destruct x; [injection Ho as <- _; by apply set_offset_ok|same Ho].
Qed.

Lemma seek_step pid fd pos v : step_ok pid v (seek pid fd pos v).1.
Proof.
  unfold seek. destruct (get_file pid fd v) as [file|]; [|by apply step_ok_refl].
  destruct (fs_getattr _ _); [by apply set_offset_ok|by apply step_ok_refl].
Qed.

(** Operations on paths do not look at the tables. *)
Lemma mkdir_step t0 t1 path pid v v' r : mkdir t0 t1 path v = Some (v', r) → step_ok pid v v'.
Proof.
  unfold mkdir. intros Ho. destruct (parent_of path). destruct (resolve_path _ v) as [[m i]|]; [|same Ho].
  destruct (on_fs _ _ v) as [[v2 x]|] eqn:Hf; [|done]. apply on_fs_tables in Hf as [Hf _]. cbn [mbind option_bind] in Ho.
  destruct x; same Ho.
Qed.

Lemma unlink_step now path pid v v' r : unlink now path v = Some (v', r) → step_ok pid v v'.
Proof.
  unfold unlink. intros Ho. destruct (parent_of path). destruct (resolve_path _ v) as [[m i]|]; [|same Ho].
  apply on_fs_tables in Ho as [Hf _]. by apply step_ok_refl.
Qed.

Lemma rename_step t0 t1 old new pid v v' r : rename t0 t1 old new v = Some (v', r) → step_ok pid v v'.
Proof.
  unfold rename. intros Ho. destruct (parent_of old), (parent_of new).
  destruct (resolve_path _ v) as [[m i]|]; [|same Ho]. destruct (resolve_path _ v) as [[m' i']|]; [|same Ho].
  case_decide; [same Ho|]. apply on_fs_tables in Ho as [Hf _]. by apply step_ok_refl.
Qed.

Lemma call_step pid c v v' : call pid c v = Some v' → step_ok pid v v'.
Proof.
  destruct c; cbn [call]; intros Hc;
    try (apply fmap_Some in Hc as ([v1 r] & Ho & ->)); try (injection Hc as <-);
    eauto using open_step, close_step, read_step, write_step, seek_step, mkdir_step, unlink_step, rename_step.
  - unfold mount. case_decide; [by apply step_ok_refl|]. destruct (existsb _ _); by apply step_ok_refl.
  - unfold unmount. destruct (position _ _); by apply step_ok_refl.
Qed.

(** [C28] Descriptors are private and bounded: whatever calls other processes make, and
    whatever is mounted, unmounted, made, removed or renamed in between, the descriptor
    table of a process stays as it is; and no process ever has more than 256 open files. *)
Theorem descriptor_isolation pid cs : ∀ v v',
  calls cs v = Some v' →
  (Forall (λ x, x.1 ≠ pid) cs → fd_tables v' !! pid = fd_tables v !! pid) ∧
  (within_limit v → within_limit v').
Proof.
  induction cs as [|[p c] cs IH]; intros v v' Hc; cbn [calls] in Hc; [by injection Hc as <-|].
  destruct (call p c v) as [v1|] eqn:E; [|done]. apply call_step in E as [Ho Hl].
  destruct (IH v1 v' Hc) as [Hs Hl']. split; [|intros HL; by apply Hl', Hl].
  intros [Hp Hps]%Forall_cons. rewrite Hs by done. apply Ho. simpl in Hp. congruence.
Qed.

(** ** A file written is the file read *)

Lemma get_file_offset pid fd off v file : get_file pid fd v = Some file →
  get_file pid fd (set_offset pid fd off v) = Some (mkOpen (f_mount file) (f_ino file) off (f_flags file)) ∧
  store (set_offset pid fd off v) = store v.
Proof.
  unfold get_file, set_offset. destruct (fd_tables v !! pid) as [t|] eqn:Ht; [|done]. cbn [mbind option_bind].
  intros Hf. rewrite Hf. split; [|done]. simpl. rewrite lookup_insert_eq. simpl. by rewrite lookup_insert_eq.
Qed.

Lemma store_set_fs id f v : store (set_fs id f v) id = f.
Proof. simpl. by rewrite decide_True. Qed.

Lemma get_file_set_fs pid fd id f v : get_file pid fd (set_fs id f v) = get_file pid fd v.
Proof. done. Qed.

Section roundtrip.
Context `{!FilesystemLaws F}.

(** What [open] leaves when it makes a file: a descriptor at the start of an empty file,
    under its name in its directory. *)
Lemma open_creates t0 t1 t2 pid path flags v v' fd k :
  (∀ id, fs_ok (k + 1) (store v id)) → 0 ≤ k → fl_create flags = true → fl_truncate flags = false →
  resolve_path path v = Err NotFound → open t0 t1 t2 pid path flags v = Some (v', Ok fd) →
  ∃ m p ino a, get_file pid fd v' = Some (mkOpen m ino 0 flags) ∧ resolve_path (open_parent path).1 v = Ok (m, p) ∧
    fs_ok k (store v' (m_fs m)) ∧ fs_lookup p (open_parent path).2 (store v' (m_fs m)) = Ok ino ∧
    fs_getattr ino (store v' (m_fs m)) = Ok a ∧ a_size a = 0.
Proof.
  intros Hok Hk Hc Ht Hr Ho. unfold open in Ho. set (v0 := set_table pid (table_of pid v) v) in *.
  unfold open_inode in Ho. rewrite Hc in Ho. change (resolve_path path v0) with (resolve_path path v) in Ho. rewrite Hr in Ho.
  destruct (open_parent path) as [pp name]. change (resolve_path pp v0) with (resolve_path pp v) in Ho.
  destruct (resolve_path pp v) as [[m p]|e] eqn:Hp; [|done]. unfold on_fs in Ho. change (store v0) with (store v) in Ho.
  destruct (fs_create t0 t1 p name Regular (store v (m_fs m))) as [[f r]|] eqn:Hcr; [|done].
  cbn [mbind option_bind] in Ho. destruct r as [ino|e]; [|done].
  destruct (create_then_lookup _ _ _ _ _ _ _ _ k (Hok (m_fs m)) Hk Hcr) as (Hokf & Hlk & a & Ha & _ & Hsz).
  cbn [mbind option_bind] in Ho. rewrite store_set_fs, Ha in Ho. rewrite Ht in Ho. cbn [andb mbind option_bind] in Ho.
  destruct (_ && _); [done|].
  destruct (table_alloc _ _) as [t x] eqn:Hal. injection Ho as <- ->.
  exists m, p, ino, a. simpl. rewrite decide_True by done. split_and!; try done.
  unfold table_alloc in Hal. case_decide; [done|]. injection Hal as <- <-.
  unfold get_file. simpl. rewrite lookup_insert_eq. simpl. by rewrite lookup_insert_eq.
Qed.

(** Writing at a descriptor, when the file system accepts the data. *)
Lemma write_fd_inv now pid fd buf v v' n file off : get_file pid fd v = Some file →
  (if fl_append (f_flags file) then ∃ a, fs_getattr (f_ino file) (store v (m_fs (f_mount file))) = Ok a ∧ off = a_size a
   else off = f_offset file) →
  write now pid fd buf v = Some (v', Ok n) →
  ∃ f', fs_write now (f_ino file) off buf (store v (m_fs (f_mount file))) = Some (f', Ok n) ∧
    store v' (m_fs (f_mount file)) = f' ∧
    get_file pid fd v' = Some (mkOpen (f_mount file) (f_ino file) (u64_add off n) (f_flags file)).
Proof.
  intros Hg Hoff Hw. unfold write in Hw. rewrite Hg in Hw. destruct (negb _); [done|]. destruct (m_read_only _); [done|].
  assert ((if fl_append (f_flags file)
           then match fs_getattr (f_ino file) (store v (m_fs (f_mount file))) with Ok a => Ok (a_size a) | Err e => Err e end
           else Ok (f_offset file)) = (Ok off : Result Z VfsError)) as Hm.
  { destruct (fl_append _); [destruct Hoff as (a & -> & ->)|]; congruence. }
  rewrite Hm in Hw. unfold on_fs in Hw.
  destruct (fs_write now (f_ino file) off buf _) as [[f r]|] eqn:Hf; [|done]. cbn [mbind option_bind] in Hw.
  destruct r as [w|]; [|done]. injection Hw as <- <-. exists f.
  destruct (get_file_offset pid fd (u64_add off w) (set_fs (m_fs (f_mount file)) f v) file Hg) as [Hg' ->].
  split_and!; [done|by rewrite store_set_fs|done].
Qed.

(** [C27] A file made through the VFS carries its data: over any file system that keeps the
    laws, opening a path that does not resolve with [create], writing, seeking back to
    the start and reading as many bytes gives exactly the bytes written, at the
    descriptor of the caller. *)
Theorem file_roundtrip t0 t1 t2 t3 t4 pid path flags data v v1 v2 fd n k :
  (∀ id, fs_ok (k + 1) (store v id)) → 0 ≤ k → slice data →
  fl_create flags = true → fl_truncate flags = false → fl_read flags = true →
  resolve_path path v = Err NotFound →
  open t0 t1 t2 pid path flags v = Some (v1, Ok fd) →
  write t3 pid fd data v1 = Some (v2, Ok n) →
  n = Z.of_nat (length data) ∧
  ∃ v3 v4, seek pid fd (SeekStart 0) v2 = (v3, Ok 0) ∧ read t4 pid fd n v3 = Some (v4, Ok data).
Proof.
  intros Hok Hk Hd Hc Ht Hr Hres Ho Hw. unfold slice in Hd.
  destruct (open_creates _ _ _ _ _ _ _ _ _ _ Hok Hk Hc Ht Hres Ho) as (m & p & ino & a & Hg & _ & Hokf & _ & Ha & Hsz).
  destruct (write_fd_inv t3 pid fd data v1 v2 n _ 0 Hg) as (f2 & Hf2 & Hst2 & Hg2); [|done|].
  { simpl. destruct (fl_append flags); [exists a|]; done. }
  simpl in *. assert (is_u64 0) as H0 by (unfold is_u64; lia).
  destruct (write_then_read t3 t4 ino 0 data _ f2 n k Hokf H0 ltac:(lia) Hf2) as (-> & Hok2 & f3 & Hrd & _).
  destruct (write_then_getattr t3 ino 0 data _ f2 _ k Hokf H0 ltac:(lia) Hf2) as (a2 & Ha2 & _).
  split; [done|]. unfold seek. rewrite Hg2. simpl. rewrite Hst2, Ha2.
  eexists. unfold read.
  destruct (get_file_offset pid fd 0 v2 _ Hg2) as [Hg3 Hst3]. rewrite Hg3. simpl. rewrite Hr. simpl.
  unfold on_fs. rewrite Hst3, Hst2, Hrd. cbn [mbind option_bind]. rewrite Nat2Z.id, firstn_all. eauto.
Qed.
End roundtrip.
End calls.

(** ** The longest mount wins *)

Definition longer (a b : MountPoint) : Prop := (length (m_path b) ≤ length (m_path a))%nat.
Definition ordered (l : list MountPoint) : Prop := StronglySorted longer l.

Lemma insert_mount_perm m l : insert_mount m l ≡ₚ m :: l.
Proof. induction l as [|x l IH]; simpl; [done|]. case_decide; [done|]. rewrite IH. apply Permutation_swap. Qed.

Lemma insert_mount_ordered m l : ordered l → ordered (insert_mount m l).
Proof.
  induction 1 as [|x l Hs IH Hx]; simpl; [by repeat constructor|]. case_decide as Hl.
  - constructor; [by constructor|]. constructor; [done|]. eapply Forall_impl; [exact Hx|]. unfold longer. intros. lia.
  - constructor; [done|]. rewrite insert_mount_perm. constructor; [unfold longer; lia|done].
Qed.

Lemma sort_mounts_ordered l : ordered (sort_mounts l) ∧ sort_mounts l ≡ₚ l.
Proof.
  induction l as [|m l [IH1 IH2]]; simpl; [by split; [constructor|]|].
  split; [by apply insert_mount_ordered|]. by rewrite insert_mount_perm, IH2.
Qed.

Section mounts.
Context {F : Type} `{Filesystem F}.
Implicit Type v : Vfs F.

Lemma mount_ordered path fs ro v : ordered (mounts v) → ordered (mounts (mount path fs ro v).1).
Proof. intros Hv. unfold mount. case_decide; [done|]. destruct (existsb _ _); [done|]. apply sort_mounts_ordered. Qed.

Lemma remove_ordered l : ordered l → ∀ pos, ordered (take pos l ++ drop (S pos) l).
Proof.
  induction 1 as [|x l Hs IH Hx]; intros [|pos]; simpl; try constructor; try done; [apply IH|].
  apply Forall_app. split; [by apply Forall_take|by apply Forall_drop].
Qed.

Lemma unmount_ordered path v : ordered (mounts v) → ordered (mounts (unmount path v).1).
Proof. intros Hv. unfold unmount. destruct (position _ _) as [pos|]; [|done]. by apply remove_ordered. Qed.

(** Among the mounts that cover a path, [find_mount] takes one with the longest path,
    and strips it from the path. *)
Lemma find_mount_longest path v m rel : ordered (mounts v) → find_mount path v = Some (m, rel) →
  m ∈ mounts v ∧ matches path m = true ∧ (∀ m', m' ∈ mounts v → matches path m' = true → longer m m') ∧
  (m_path m ≠ [SLASH] → path = m_path m ++ rel).
Proof.
  intros Ho. unfold find_mount. destruct (List.find (matches path) (mounts v)) as [x|] eqn:Hf; [|done].
  intros [= <- <-]. pose proof (find_some _ _ Hf) as [Hin%list_elem_of_In Hm]. split_and!; [done..| |].
  - clear Hin Hm. induction Ho as [|y l Hs IH Hall]; [done|]. simpl in Hf. destruct (matches path y) eqn:Ey.
    + injection Hf as <-. intros m' [->|Hm']%elem_of_cons _; [unfold longer; lia|]. rewrite Forall_forall in Hall. auto.
    + intros m' [->|Hm']%elem_of_cons Hmm; [congruence|]. by apply IH.
  - intros Hr. rewrite decide_False by done. unfold matches in Hm. apply orb_true_iff in Hm as [->%bool_decide_eq_true|Hm].
    + by rewrite drop_all, app_nil_r.
    + unfold starts_with in Hm. apply bool_decide_eq_true in Hm.
      rewrite <- (take_drop (length (m_path x)) path) at 1. f_equal.
      apply (f_equal (take (length (m_path x)))) in Hm. rewrite take_take, take_app_length, length_app in Hm.
      by rewrite Nat.min_l in Hm by lia.
Qed.

(** A file system mounted at the root covers only the root itself and paths that start
    with two slashes: every other path is unknown, whatever the file system holds. *)
Lemma root_mount_unreachable path fs ro v : mounts v = [mkMount [SLASH] fs 1 ro] →
  path ≠ [SLASH] → starts_with path [SLASH; SLASH] = false → resolve_path path v = Err NotFound.
Proof.
  intros Hm Hp Hs. unfold resolve_path, find_mount. rewrite Hm. simpl.
  assert (matches path (mkMount [SLASH] fs 1 ro) = false) as ->; [|done].
  unfold matches. simpl. by rewrite bool_decide_eq_false_2.
Qed.

(** Nothing resolves before something is mounted. *)
Lemma no_mount_not_found path v : mounts v = [] → resolve_path path v = Err NotFound.
Proof. intros Hm. unfold resolve_path, find_mount. by rewrite Hm. Qed.
End mounts.

(** ** Over the file system in memory *)

#[local] Existing Instance Ramfs.RamFs_filesystem.
#[local] Existing Instance Ramfs.RamFs_laws.

(** One file system mounted at [/m]. *)
Definition one_mount (ro : bool) : Vfs Ramfs.RamFs :=
  (mount [SLASH; 109] 0 ro (Vfs_new (λ _, Ramfs.RamFs_new 1000 0))).1.

Definition rwc : OpenFlags := mkFlags true true false true false false false.

(** A file at [/m/f], opened and holding three bytes. *)
Definition opened (ro : bool) : option (Vfs Ramfs.RamFs) := fst <$> open 1 1 1 7 [SLASH; 109; SLASH; 102] rwc (one_mount ro).

(** A mount that is read-only still makes files and directories, truncates and removes: only
    [write] looks at the flag. *)
Lemma read_only_not_enforced :
  match mkdir 1 1 [SLASH; 109; SLASH; 100] (one_mount true) with
  | Some (v, Ok _) => match unlink 1 [SLASH; 109; SLASH; 100] v with Some (_, Ok _) => True | _ => False end
  | _ => False
  end ∧
  match open 1 1 1 7 [SLASH; 109; SLASH; 102] create_write (one_mount true) with
  | Some (v, Ok fd) => match write 1 7 fd [1] v with Some (_, Err ReadOnlyFs) => True | _ => False end
  | _ => False
  end.
Proof. vm_compute. done. Qed.

(** A process can stop the kernel: it seeks to the end of the 64-bit offsets and writes a few
    bytes over it. *)
Lemma seek_and_write_panics :
  match opened false with
  | Some v => match seek 7 3 (SeekStart (2 ^ 64 - 2)) v with
              | (v, Ok _) => write 1 7 3 [1; 2; 3; 4] v = None
              | _ => False
              end
  | None => False
  end.
Proof. vm_compute. done. Qed.

(** Opening a file to be made directly below the root fails even where a mount covers the path:
    its parent is the empty string. *)
Lemma open_below_root :
  (mount [SLASH] 0 false (Vfs_new (λ _, Ramfs.RamFs_new 1000 0))).2 = Ok tt ∧
  match open 1 1 1 7 [SLASH; 102] rwc (mount [SLASH] 0 false (Vfs_new (λ _, Ramfs.RamFs_new 1000 0))).1 with
  | Some (_, r) => r = Err NotFound
  | None => False
  end.
Proof. by vm_compute. Qed.

(** ** Witnesses *)

Definition other_calls : list (Z * Call) :=
  [(8, Open 1 1 1 [SLASH; 109; SLASH; 103] rwc); (8, WriteFd 1 3 [5; 6]); (8, Unlink 1 [SLASH; 109; SLASH; 102]); (8, Close 3)].

Definition opened_state : Vfs Ramfs.RamFs := default (one_mount false) (opened false).
Definition others_state : Vfs Ramfs.RamFs := default opened_state (calls other_calls opened_state).

Definition written_state : Vfs Ramfs.RamFs :=
  default opened_state (fst <$> write 2 7 3 [9; 8; 7] opened_state).

Lemma descriptor_isolation_witness :
  calls other_calls opened_state = Some others_state ∧ fd_tables others_state !! 7 = fd_tables opened_state !! 7.
Proof.
  assert (calls other_calls opened_state = Some others_state) as Hc by (vm_compute; reflexivity).
  split; [exact Hc|]. apply (descriptor_isolation 7 other_calls opened_state others_state Hc).
  repeat constructor; simpl; lia.
Defined.

Lemma file_roundtrip_witness : ∃ v3 v4,
  write 2 7 3 [9; 8; 7] opened_state = Some (written_state, Ok 3) ∧
  seek 7 3 (SeekStart 0) written_state = (v3, Ok 0) ∧ read 3 7 3 3 v3 = Some (v4, Ok [9; 8; 7]).
Proof.
  assert (write 2 7 3 [9; 8; 7] opened_state = Some (written_state, Ok 3)) as Hw by (vm_compute; reflexivity).
  destruct (file_roundtrip 1 1 1 2 3 7 [SLASH; 109; SLASH; 102] rwc [9; 8; 7] (one_mount false) opened_state
    written_state 3 3 0) as (_ & v3 & v4 & Hs & Hr).
  - intros id. exists 1000, 0. apply Ramfs.new_sound; lia.
  - lia.
  - unfold slice. simpl. lia.
  - reflexivity.
  - reflexivity.
  - reflexivity.
  - vm_compute. reflexivity.
  - vm_compute. reflexivity.
  - exact Hw.
  - exists v3, v4. exact (conj Hw (conj Hs Hr)).
Defined.
