(* ===== verification/Launch.v ===== *)
(** * Launch: starting programs from files ([kernel/src/process/exec.rs])

    [exec] reads its file through the VFS, [spawn] from the kernel's file system in
    memory; both hand the bytes to [exec_from_memory]. Also the two modules the boot
    image ships, in the wave runtime. *)

From Stdlib Require Import ZArith Lia String.
From stdpp Require Import list gmap strings.
From S2P Require Import Prelude.
From S2P Require Import Ids.
From S2P Require Import Utf8.
From S2P Require Import Paths.
From S2P Require Import Elf.
From S2P Require Import Exec.
From S2P Require Import SchedIface.
From S2P Require Import Process.
From S2P Require WaveValue.
From S2P Require WaveInst.
From S2P Require WaveModule.
From S2P Require Import VfsIface.
From S2P Require Fs.
From S2P Require Vfs.

(** ** From the file system in memory *)

Definition read_file_from_vfs (path : Str) (fs : Fs.RamFs) : option (Result (list Z) ExecError) :=
  r ← Fs.read_file path fs;
  match r with
  | Ok data => if decide (data = []) then Some (Err FileNotFound) else Some (Ok data)
  | Err _ => Some (Err FileNotFound)
  end.

(** [path.rsplit('/').next()]: what follows the last slash. *)
Definition file_name (path : Str) : Str :=
  match rfind path with Some i => drop (S i) path | None => path end.

Section launch.
Context {S : Type} `{SchedIface S}.

Definition spawn (path : Str) (fs : Fs.RamFs) (w : Machine S) : option (Machine S * Result ProcessId (Stop ExecError)) :=
  let name := string_of_bytes (file_name path) in
  file_data ← read_file_from_vfs path fs;
  match file_data with
  | Err e => Some (w, Err (Fails e))
  | Ok data =>
      match exec_from_memory data [name] [] name w with
      | (w, Ok pid) => Some (w, Ok (mkPid pid))
      | (w, Err e) => Some (w, Err e)
      end
  end.

(** ** From the VFS *)

Definition KERNEL_PID : Z := 0.

Definition open_error (e : VfsError) : ExecError :=
  match e with
  | NotFound => FileNotFound
  | PermissionDenied => ExecPermissionDenied
  | _ => InvalidFormat
  end.

(** The clock readings of [open] and [read] are [t0] to [t3]. *)
Definition exec {F} `{Filesystem F} (t0 t1 t2 t3 : Z) (path : Str) (args env : list string)
    (st : Vfs.Vfs F * Machine S) : option ((Vfs.Vfs F * Machine S) * Result Z (Stop ExecError)) :=
  let '(v, w) := st in
  '(v, r) ← Vfs.open t0 t1 t2 KERNEL_PID path Vfs.read_only v;
  match r with
  | Err e => Some ((v, w), Err (Fails (open_error e)))
  | Ok fd =>
      match Vfs.fstat KERNEL_PID fd v with
      | Err _ => Some ((v, w), Err (Fails InvalidFormat))
      | Ok attr =>
          let file_size := a_size attr in
          if decide (file_size = 0) then Some (((Vfs.close KERNEL_PID fd v).1, w), Err (Fails InvalidFormat))
          else
            '(v, r) ← Vfs.read t3 KERNEL_PID fd file_size v;
            match r with
            | Err _ => Some ((v, w), Err (Fails InvalidFormat))
            | Ok data =>
                let v := (Vfs.close KERNEL_PID fd v).1 in
                if decide (data = []) then Some ((v, w), Err (Fails InvalidFormat))
                else let '(w, r) := exec_from_memory data args env (string_of_bytes path) w in Some ((v, w), r)
            end
      end
  end.

(** Spawning a program that was written to the file system runs exactly the bytes
    written, whatever was done to other files since. *)
Lemma spawn_runs_written max now before t0 t1 path data after fs1 a1 fs2 w :
  0 ≤ max ≤ 2 ^ 63 → data ≠ [] →
  Forall (λ x, Fs.sized x.2) (before ++ (t0, t1, Fs.WriteFile path data) :: after) →
  Fs.fs_run before (Fs.RamFs_new max now) = Some (fs1, a1) →
  Fs.fs_step t0 t1 (Fs.WriteFile path data) fs1 = Some (fs2, Ok Fs.Done) →
  Forall (λ x, Fs.touches (components path) x.2 = false) after →
  ∃ fs3 a3, Fs.fs_run after fs2 = Some (fs3, a3) ∧
    let name := string_of_bytes (file_name path) in
    spawn path fs3 w =
      Some (let '(w', r) := exec_from_memory data [name] [] name w in
            (w', match r with Ok pid => Ok (mkPid pid) | Err e => Err e end)).
Proof.
  intros Hm Hd Hs Hb Hw Ha.
  destruct (Fs.write_lasts max now before t0 t1 path data after 0 0 fs1 a1 fs2 Hm Hs Hb Hw Ha) as (fs3 & a3 & Hr & Hread).
  exists fs3, a3. split; [done|]. unfold spawn, read_file_from_vfs. cbn [Fs.fs_step] in Hread.
  destruct (Fs.read_file path fs3) as [[d|e]|]; cbn [mbind option_bind Fs.answer_of] in *; simplify_eq.
  rewrite decide_False by done. cbn [mbind option_bind]. by destruct (exec_from_memory _ _ _ _ w) as [w' [pid|e]].
Qed.

(** No file system is ever mounted in the kernel, so [exec] finds no file at all. *)
Lemma exec_without_mounts {F} `{Filesystem F} t0 t1 t2 t3 path args env (v : Vfs.Vfs F) w :
  Vfs.mounts v = [] → ∃ v', exec t0 t1 t2 t3 path args env (v, w) = Some ((v', w), Err (Fails FileNotFound)).
Proof.
  intros Hm. unfold exec, Vfs.open, Vfs.open_inode. cbn [Vfs.fl_create Vfs.read_only].
  rewrite Vfs.no_mount_not_found by done. cbn [mbind option_bind]. by eexists.
Qed.
End launch.

(** ** The modules of the boot image *)

(** Both load in the wave runtime. But [main] of [hello.wasm], whose body is [i32.const 42],
    gives 0: calls by name run a built-in of that name and not the body. *)
Lemma boot_modules `{WaveInst.Platform} :
  let hello := WaveModule.load Fs.test_wasm None (WaveModule.new WaveModule.default_config) in
  let add := WaveModule.load Fs.add_wasm None (WaveModule.new WaveModule.default_config) in
  hello.2 = Ok 1 ∧ (WaveModule.wave_call 1 "main" [] (WaveModule.instantiate_simple 1 hello.1).1).2 = Ok [WaveValue.I32 0] ∧
  add.2 = Ok 1 ∧ (WaveModule.wave_call 1 "add" [WaveValue.I32 2; WaveValue.I32 3] (WaveModule.instantiate_simple 1 add.1).1).2 = Ok [WaveValue.I32 5].
Proof. by vm_compute. Qed.
