(* ===== verification/KernelWasm.v ===== *)
(** * KernelWasm: the kernel's WASM host ([kernel/src/wasm/mod.rs])

    The kernel keeps one wave runtime, loads modules for it from the file system in
    memory and remembers what it loaded. Each call locks the runtime once; a history is
    a list of [Call]s, each with the file system it finds. Lines on the serial port are
    left out. *)

From Stdlib Require Import ZArith Lia String.
From stdpp Require Import list gmap strings.
From S2P Require Import Prelude.
From S2P Require Import Ids.
From S2P Require Import Bytes.
From S2P Require Import Utf8.
From S2P Require Import Paths.
From S2P Require Import WaveValue.
From S2P Require Import WaveHost.
From S2P Require Import Leb128.
From S2P Require Import WaveInst.
From S2P Require Import WaveCalls.
From S2P Require Import WaveModule.
From S2P Require Fs.
From S2P Require Launch.

(** ** State *)

Record LoadedModule := mkLoaded { lm_id : Z; lm_name : Str; lm_path : Str; lm_size : Z }.

Record Host := mkHost { WAVE_RUNTIME : option Wave; LOADED_MODULES : list LoadedModule }.

Definition off : Host := mkHost None [].

Inductive WasmError :=
  | NotInitialized | FileNotFound | InvalidFile | NoModule | NoInstance | ExecutionError | CapabilityError
  | MemoryError | FromWave (e : WaveError).

(** An error, or a stop of the runtime that is not a result: a panic, or a loop for ever. *)
Inductive Halt := Throws (e : WasmError) | Stops (s : Stop).

(** [From<WaveError>]. *)
Definition from_wave (s : Stop) : Halt := match s with Fail e => Throws (FromWave e) | _ => Stops s end.

Definition K (A : Type) : Type := op Host Halt A.

(** The configuration [init] writes. It names four fields of six; the values the other
    two would have are arguments. *)
Definition kernel_config (jit : bool) (threshold : Z) : WaveConfig :=
  mkConfig 256 1024 (64 * 1024 * 1024) 100000000 jit threshold.

Definition init (jit : bool) (threshold : Z) (h : Host) : Host :=
  mkHost (Some (new (kernel_config jit threshold))) (LOADED_MODULES h).

(** [runtime_guard.as_mut().ok_or(NotInitialized)?], then a call of the runtime. *)
Definition with_runtime {A} (m : W A) : K A := λ h,
  match WAVE_RUNTIME h with
  | None => (h, Err (Throws NotInitialized))
  | Some w => let '(w', r) := m w in
              (mkHost (Some w') (LOADED_MODULES h), match r with Ok a => Ok a | Err s => Err (from_wave s) end)
  end.

(** ** Loading *)

(** [fs::cat], whose errors all become [FileNotFound]. *)
Definition cat (path : Str) (fs : Fs.RamFs) : Result (list Z) Halt :=
  match Fs.read_file path fs with
  | None => Err (Stops Panics)
  | Some (Err _) => Err (Throws FileNotFound)
  | Some (Ok data) => Ok data
  end.

(** [trim_end_matches(".wasm")], on the reversed string. *)
Fixpoint strip_wasm (s : Str) : Str :=
  match s with
  | 109 :: 115 :: 97 :: 119 :: 46 :: s' => strip_wasm s'
  | _ => s
  end.
Definition module_name (path : Str) : Str := rev (strip_wasm (rev (Launch.file_name path))).

Definition MEMORY_PATH : Str := bytes_of_string "<memory>".

Definition check_header (data : list Z) : Result unit Halt :=
  if decide (length data < 8)%nat then Err (Throws InvalidFile)
  else if decide (take 4 data ≠ magic) then Err (Throws InvalidFile)
  else Ok tt.

Definition track (m : LoadedModule) : K unit := op_modify (λ h, mkHost (WAVE_RUNTIME h) (LOADED_MODULES h ++ [m])).

(** What the two loaders do once they have the bytes. *)
Definition load_named (name path : Str) (data : list Z) : K Z :=
  (do! op_lift (check_header data) in
   let! module_id := with_runtime (load data (Some (string_of_bytes name))) in
   do! track (mkLoaded module_id name path (Z.of_nat (length data))) in
   op_ret module_id)%op.

Definition load_bytes (name : Str) (data : list Z) : K Z := load_named name MEMORY_PATH data.

Definition load_file (path : Str) (fs : Fs.RamFs) : K Z :=
  (let! data := op_lift (cat path fs) in load_named (module_name path) path data)%op.

(** ** Instances *)

Definition host_instantiate (module_id : Z) : K Z := with_runtime (instantiate_simple module_id).

Definition instantiate_with_caps (module_id : Z) (caps : list (HostFunction * CapabilityToken)) : K Z :=
  with_runtime (instantiate module_id [] caps).

Section calls.
Context `{Platform}.

Definition host_call (instance_id : Z) (func_name : string) (args : list WasmValue) : K (list WasmValue) :=
  with_runtime (wave_call instance_id func_name args).

(** [if let Ok(r) = call(...)], over the entry points in their order. *)
Fixpoint first_entry (instance_id : Z) (names : list string) : K (list WasmValue) :=
  match names with
  | [] => op_ret []
  | name :: names' => λ h,
      match host_call instance_id name [] h with
      | (h, Ok r) => (h, Ok r)
      | (h, Err (Throws _)) => first_entry instance_id names' h
      | (h, Err (Stops s)) => (h, Err (Stops s))
      end
  end.

Definition entry_points : list string := ["_start"; "main"; "run"]%string.

Definition run_file (path : Str) (fs : Fs.RamFs) : K (list WasmValue) :=
  (let! module_id := load_file path fs in
   let! instance_id := host_instantiate module_id in
   first_entry instance_id entry_points)%op.

Definition host_unload (module_id : Z) : K unit :=
  (do! with_runtime (unload module_id) in
   op_modify (λ h, mkHost (WAVE_RUNTIME h) (List.filter (λ m, negb (lm_id m =? module_id)) (LOADED_MODULES h))))%op.

Definition host_read_memory (id offset length : Z) : K (list Z) := with_runtime (wave_read_memory id offset length).
Definition host_write_memory (id offset : Z) (data : list Z) : K unit := with_runtime (wave_write_memory id offset data).
Definition host_instance_state (id : Z) : K InstanceState := with_runtime (instance_state id).
Definition host_steps_executed (id : Z) : K Z := with_runtime (wave_steps_executed id).
Definition host_reset_instance (id : Z) : K unit := with_runtime (reset_instance id).
Definition host_list_instances (h : Host) : list Z := from_option list_instances [] (WAVE_RUNTIME h).

Record WasmStats := mkWasmStats { modules_loaded : Z; total_wasm_size : Z; runtime_initialized : bool }.
Definition host_stats (h : Host) : WasmStats :=
  mkWasmStats (Z.of_nat (length (LOADED_MODULES h))) (u64 (foldr Z.add 0 (lm_size <$> LOADED_MODULES h)))
              (bool_decide (is_Some (WAVE_RUNTIME h))).

(** The module [execute_bytecode] wraps around some code. *)
Definition wrap_code (code : list Z) : list Z :=
  let code_body_size := Z.of_nat (length code) + 2 in
  magic ++ version ++
  [0x01; 0x01; 0x00] ++
  [0x03; 0x02; 0x01; 0x00] ++
  [0x05; 0x03; 0x01; 0x00; 0x01] ++
  [0x07; 0x08; 0x01; 0x04] ++ bytes_of_string "main" ++ [0x00; 0x00] ++
  [0x0A; u8 (code_body_size + 2); 0x01; u8 code_body_size; 0x00] ++ code ++ [0x0B].

(** [let _ = f()]: an error is dropped, a panic is not. *)
Definition ignore {A} (m : K A) : K unit := λ h,
  match m h with
  | (h, Err (Stops s)) => (h, Err (Stops s))
  | (h, _) => (h, Ok tt)
  end.

Definition host_execute_bytecode (code : list Z) (locals : list WasmValue) : K (list WasmValue) :=
  (let! module_id := load_bytes (bytes_of_string "__bytecode__") (wrap_code code) in
   let! instance_id := host_instantiate module_id in
   let! result := host_call instance_id "main" locals in
   do! ignore (host_unload module_id) in
   op_ret result)%op.
End calls.

(** ** Validation without loading *)

Record ValidationResult := mkValidation {
  valid : bool; v_size : Z; v_version : Z; has_memory : bool; has_start : bool;
  import_count : Z; export_count : Z; function_count : Z;
}.

#[local] Open Scope res_scope.

Section validate.
Context (data : list Z).

Definition unknown : ValidationResult := mkValidation false (Z.of_nat (length data)) 0 false false 0 0 0.

(** The bytes of a section's size; the shift is masked to five bits. *)
Fixpoint section_size (bytes : list Z) (shift acc : Z) : Z * nat :=
  match bytes with
  | [] => (acc, O)
  | byte :: bytes' =>
      let acc := Z.lor acc (u32 (Z.shiftl (Z.land byte 0x7F) (shift mod 32))) in
      if Z.land byte 0x80 =? 0 then (acc, 1%nat)
      else let '(acc, n) := section_size bytes' (shift + 7) acc in (acc, S n)
  end.

(** [data[pos]], which panics beyond the end. *)
Definition index (pos : nat) : Result Z Stop := ok_or (data !! pos) Panics.

Definition see_section (id : Z) (pos section_end : nat) (r : ValidationResult) : Result ValidationResult Stop :=
  let counted (f : Z → ValidationResult) :=
    if decide (pos < section_end)%nat then let? count := index pos in Ok (f count) else Ok r in
  match id with
  | 2 => counted (λ c, mkValidation (valid r) (v_size r) (v_version r) (has_memory r) (has_start r) c (export_count r) (function_count r))
  | 3 => counted (λ c, mkValidation (valid r) (v_size r) (v_version r) (has_memory r) (has_start r) (import_count r) (export_count r) c)
  | 5 => Ok (mkValidation (valid r) (v_size r) (v_version r) true (has_start r) (import_count r) (export_count r) (function_count r))
  | 7 => counted (λ c, mkValidation (valid r) (v_size r) (v_version r) (has_memory r) (has_start r) (import_count r) c (function_count r))
  | 8 => Ok (mkValidation (valid r) (v_size r) (v_version r) (has_memory r) true (import_count r) (export_count r) (function_count r))
  | _ => Ok r
  end.

(** [while pos < data.len()]: a section takes at least one byte. *)
Fixpoint validate_loop (fuel : nat) (pos : nat) (r : ValidationResult) : Result ValidationResult Stop :=
  match fuel with
  | O => Err Diverges
  | S fuel =>
      if decide (pos < length data)%nat then
        let? section_id := index pos in
        let '(size, n) := section_size (drop (S pos) data) 0 0 in
        let pos := (S pos + n)%nat in
        let section_end := (pos + Z.to_nat size)%nat in
        if decide (length data < section_end)%nat then Ok r
        else let? r := see_section section_id pos section_end r in validate_loop fuel section_end r
      else Ok r
  end.

Definition with_version (v : Z) (r : ValidationResult) : ValidationResult :=
  mkValidation (valid r) (v_size r) v (has_memory r) (has_start r) (import_count r) (export_count r) (function_count r).
Definition accept (r : ValidationResult) : ValidationResult :=
  mkValidation true (v_size r) (v_version r) (has_memory r) (has_start r) (import_count r) (export_count r) (function_count r).

Definition validate_bytes : Result ValidationResult Stop :=
  if decide (length data < 8)%nat then Ok unknown
  else if decide (take 4 data ≠ magic) then Ok unknown
  else
    let r := with_version (from_le_bytes (take 4 (drop 4 data))) unknown in
    if decide (v_version r ≠ 1) then Ok r
    else let? r := validate_loop (S (length data)) 8 r in Ok (accept r).
End validate.

Definition validate_file (path : Str) (fs : Fs.RamFs) : Result ValidationResult Halt :=
  let? data := cat path fs in
  match validate_bytes data with Ok r => Ok r | Err s => Err (Stops s) end.

(** The loop ends, reads no byte outside the data, and leaves size and version alone. *)
Lemma see_section_keeps data id pos e r : (e ≤ length data)%nat →
  ∃ r', see_section data id pos e r = Ok r' ∧ v_size r' = v_size r ∧ v_version r' = v_version r.
Proof.
  intros He. unfold see_section, index.
  assert (Hc : ∀ f : Z → ValidationResult, (∀ c, v_size (f c) = v_size r ∧ v_version (f c) = v_version r) →
    ∃ r', (if decide (pos < e)%nat then res_bind (ok_or (data !! pos) Panics) (λ c, Ok (f c)) else Ok r) = Ok r' ∧
      v_size r' = v_size r ∧ v_version r' = v_version r).
  { intros f Hf. case_decide as Hp; [|by exists r].
    destruct (lookup_lt_is_Some_2 data pos) as [c ->]; [lia|]. simpl. eexists. split; [done|]. apply Hf. }
  repeat case_match; subst; first [by apply Hc|by eexists].
Qed.

Lemma validate_loop_ends data fuel : ∀ pos r, (0 < fuel)%nat → (length data < fuel + pos)%nat →
  ∃ r', validate_loop data fuel pos r = Ok r' ∧ v_size r' = v_size r ∧ v_version r' = v_version r.
Proof.
  induction fuel as [|fuel IH]; intros pos r H0 Hf; [lia|]. cbn [validate_loop]. case_decide as Hp; [|by exists r].
  unfold index. destruct (lookup_lt_is_Some_2 data pos Hp) as [id ->]. cbn [ok_or res_bind].
  destruct (section_size (drop (S pos) data) 0 0) as [size n]. case_decide as Hend; [by exists r|].
  destruct (see_section_keeps data id (S pos + n) (S pos + n + Z.to_nat size) r) as (r1 & -> & Hs & Hv); [lia|]. cbn [res_bind].
  destruct (IH (S pos + n + Z.to_nat size)%nat r1) as (r' & -> & ? & ?); [lia..|]. exists r'. split_and!; congruence.
Qed.

(** Validation answers for every string of bytes, without a panic and without running
    for ever, and accepts exactly the strings that start with the magic number and
    version 1: nothing in the sections can make it refuse. *)
Theorem validation_is_the_header data : ∃ r, validate_bytes data = Ok r ∧ v_size r = Z.of_nat (length data) ∧
  (valid r = true ↔ (8 ≤ length data)%nat ∧ take 4 data = magic ∧ from_le_bytes (take 4 (drop 4 data)) = 1).
Proof.
  unfold validate_bytes. case_decide as Hl; [eexists; split_and!; [done..|]; split; [done|lia]|].
  case_decide as Hm; [eexists; split_and!; [done..|]; naive_solver|].
  cbn zeta. cbn [v_version with_version]. case_decide as Hv; [eexists; split_and!; [done..|]; naive_solver|].
  destruct (validate_loop_ends data (S (length data)) 8 (with_version (from_le_bytes (take 4 (drop 4 data))) (unknown data)))
    as (r & -> & Hs & _); [lia..|].
  cbn [res_bind]. eexists. split_and!; [done|done|]. simpl. split; [|done]. intros _. split_and!; [lia|done..].
Qed.

(** ** Histories *)

Inductive HostCall :=
  | CLoadFile (path : Str) (fs : Fs.RamFs)
  | CLoadBytes (name : Str) (data : list Z)
  | CInstantiate (module_id : Z)
  | CInstantiateCaps (module_id : Z) (caps : list (HostFunction * CapabilityToken))
  | CCall (id : Z) (name : string) (args : list WasmValue)
  | CRunFile (path : Str) (fs : Fs.RamFs)
  | CUnload (module_id : Z)
  | CRead (id offset length : Z)
  | CWrite (id offset : Z) (data : list Z)
  | CReset (id : Z)
  | CExecute (code : list Z) (locals : list WasmValue).

Section histories.
Context `{Platform}.

Definition serve_host (c : HostCall) (h : Host) : Host :=
  match c with
  | CLoadFile path fs => (load_file path fs h).1
  | CLoadBytes name data => (load_bytes name data h).1
  | CInstantiate mid => (host_instantiate mid h).1
  | CInstantiateCaps mid caps => (instantiate_with_caps mid caps h).1
  | CCall id name args => (host_call id name args h).1
  | CRunFile path fs => (run_file path fs h).1
  | CUnload mid => (host_unload mid h).1
  | CRead id offset length => (host_read_memory id offset length h).1
  | CWrite id offset data => (host_write_memory id offset data h).1
  | CReset id => (host_reset_instance id h).1
  | CExecute code locals => (host_execute_bytecode code locals h).1
  end.

(** The capabilities a call hands to a module. *)
Definition handed_out (c : HostCall) : list (HostFunction * CapabilityToken) :=
  match c with CInstantiateCaps _ caps => caps | _ => [] end.

(** *** The host is a client of the runtime

    What an operation does to the runtime is a history of the runtime's own requests. *)

Definition requests (G : list (HostFunction * CapabilityToken)) {A} (m : K A) : Prop := ∀ h w, WAVE_RUNTIME h = Some w →
  ∃ rs, WAVE_RUNTIME (m h).1 = Some (run_ops serve rs w) ∧ ∀ g, g ∈ concat (granted <$> rs) → g ∈ G.

Lemma requests_none G {A} (m : K A) : (∀ h, WAVE_RUNTIME (m h).1 = WAVE_RUNTIME h) → requests G m.
Proof. intros Hm h w Hw. exists []. rewrite Hm. split; [done|]. intros g Hg. by apply elem_of_nil in Hg. Qed.

Lemma requests_one G {A} (m : W A) (r : Request) : (∀ w, (m w).1 = serve r w) → (∀ g, g ∈ granted r → g ∈ G) →
  requests G (with_runtime m).
Proof.
  intros Hm HG h w Hw. exists [r]. unfold with_runtime. rewrite Hw. specialize (Hm w). destruct (m w) as [w' x]. simpl in *.
  subst w'. split; [done|]. intros g. rewrite app_nil_r. apply HG.
Qed.

Lemma requests_bind G {A B} (m : K A) (k : A → K B) : requests G m → (∀ a, requests G (k a)) → requests G (op_bind m k).
Proof.
  intros Hm Hk h w Hw. destruct (Hm h w Hw) as (rs & Hrs & HG). unfold op_bind. destruct (m h) as [h' [a|e]]; [|by exists rs].
  destruct (Hk a h' _ Hrs) as (rs' & Hrs' & HG'). exists (rs ++ rs'). rewrite run_ops_app. split; [done|].
  intros g. rewrite fmap_app, concat_app, elem_of_app. naive_solver.
Qed.

Lemma requests_load_named G name path data : requests G (load_named name path data).
Proof.
  apply requests_bind; [by apply requests_none|]. intros _. apply requests_bind; [|intros id].
  - apply (requests_one _ _ (RLoad data (Some (string_of_bytes name)))); [done|]. intros g Hg. by apply elem_of_nil in Hg.
  - apply requests_bind; [by apply requests_none|]. intros _. by apply requests_none.
Qed.

Lemma requests_load_bytes G name data : requests G (load_bytes name data).
Proof. exact (requests_load_named G name MEMORY_PATH data). Qed.

Lemma requests_load_file G path fs : requests G (load_file path fs).
Proof. apply requests_bind; [by apply requests_none|]. intros data. apply requests_load_named. Qed.

Lemma requests_instantiate G mid : requests G (host_instantiate mid).
Proof. apply (requests_one _ _ (RInstantiate mid [] [])); [done|]. intros g Hg. by apply elem_of_nil in Hg. Qed.

Lemma requests_call G id name args : requests G (host_call id name args).
Proof. apply (requests_one _ _ (RCall id name args)); [done|]. intros g Hg. by apply elem_of_nil in Hg. Qed.

Lemma requests_first_entry G id names : requests G (first_entry id names).
Proof.
  induction names as [|name names IH]; [by apply requests_none|]. intros h w Hw.
  destruct (requests_call G id name [] h w Hw) as (rs & Hrs & HG). cbn [first_entry].
  destruct (host_call id name [] h) as [h' [r|[e|s]]]; [by exists rs| |by exists rs].
  destruct (IH h' _ Hrs) as (rs' & Hrs' & HG'). exists (rs ++ rs'). rewrite run_ops_app. split; [done|].
  intros g. rewrite fmap_app, concat_app, elem_of_app. naive_solver.
Qed.

Lemma requests_unload G mid : requests G (host_unload mid).
Proof.
  apply requests_bind; [|intros _; by apply requests_none].
  apply (requests_one _ _ (RUnload mid)); [done|]. intros g Hg. by apply elem_of_nil in Hg.
Qed.

Lemma requests_ignore G {A} (m : K A) : requests G m → requests G (ignore m).
Proof. intros Hm h w Hw. unfold ignore. destruct (Hm h w Hw) as (rs & Hrs & HG). exists rs. by destruct (m h) as [h' [a|[e|s]]]. Qed.

(** Every call of the host is a history of requests that hands out only its own
    capabilities. *)
Lemma serve_host_requests c h w : WAVE_RUNTIME h = Some w →
  ∃ rs, WAVE_RUNTIME (serve_host c h) = Some (run_ops serve rs w) ∧ ∀ g, g ∈ concat (granted <$> rs) → g ∈ handed_out c.
Proof.
  assert (Hno : ∀ g : HostFunction * CapabilityToken, g ∈ [] → g ∈ handed_out c) by (intros g Hg; by apply elem_of_nil in Hg).
  intros Hw. destruct c; cbn [serve_host]; revert h w Hw.
  - apply requests_load_file.
  - apply requests_load_bytes.
  - apply requests_instantiate.
  - by apply (requests_one _ _ (RInstantiate module_id [] caps)).
  - apply requests_call.
  - apply requests_bind; [apply requests_load_file|intros mid]. apply requests_bind; [apply requests_instantiate|intros id].
    apply requests_first_entry.
  - apply requests_unload.
  - by apply (requests_one _ _ (RRead id offset length)).
  - by apply (requests_one _ _ (RWrite id offset data)).
  - by apply (requests_one _ _ (RReset id)).
  - apply requests_bind; [apply requests_load_bytes|intros mid]. apply requests_bind; [apply requests_instantiate|intros id].
    apply requests_bind; [apply requests_call|intros r]. apply requests_bind; [apply requests_ignore, requests_unload|intros _].
    by apply requests_none.
Qed.

(** Many requests keep what one request keeps. *)
Lemma run_requests_inv G rs w : wave_inv G w → (∀ g, g ∈ concat (granted <$> rs) → g ∈ G) → wave_inv G (run_ops serve rs w).
Proof.
  revert w. induction rs as [|r rs IH]; intros w Hw HG; [done|]. cbn [run_ops]. apply IH.
  - apply (wave_inv_mono (G ++ granted r)); [|by apply serve_inv]. intros g [?|?]%elem_of_app; [done|]. apply HG. simpl. apply elem_of_app. by left.
  - intros g Hg. apply HG. simpl. apply elem_of_app. by right.
Qed.

(** [C34] Programs run from files get no authority but what the kernel hands out: over any
    history of loading, running, calling and executing, whatever the files hold, every
    system call, serial byte and clock reading of the runtime goes back to a capability
    given to [instantiate_with_caps], and every binding of an instance is one. A history
    without that call causes none at all. *)
Theorem kernel_modules_confined jit threshold cs :
  ∃ w, WAVE_RUNTIME (run_ops serve_host cs (init jit threshold off)) = Some w ∧
    (∀ e, e ∈ os_trace w → ∃ f cap, (f, cap) ∈ concat (handed_out <$> cs) ∧ f ∈ event_sources e) ∧
    (∀ id i bf, instances w !! id = Some i → bf ∈ host_functions i → (function bf, capability bf) ∈ concat (handed_out <$> cs)).
Proof.
  assert (Hrun : ∀ G h w, WAVE_RUNTIME h = Some w → wave_inv G w → (∀ g, g ∈ concat (handed_out <$> cs) → g ∈ G) →
    ∃ w', WAVE_RUNTIME (run_ops serve_host cs h) = Some w' ∧ wave_inv G w').
  { induction cs as [|c cs' IH]; intros G h w Hw Hi HG; [by exists w|]. cbn [run_ops].
    destruct (serve_host_requests c h w Hw) as (rs & Hrs & Hg). apply (IH G _ _ Hrs).
    - apply run_requests_inv; [done|]. intros g Hg'. apply HG. simpl. apply elem_of_app. left. by apply Hg.
    - intros g Hg'. apply HG. simpl. apply elem_of_app. by right. }
  destruct (Hrun (concat (handed_out <$> cs)) (init jit threshold off) _ eq_refl) as (w & Hw & [Hb Ht]).
  - split; simpl; [by intros ??? ?%lookup_empty_Some|by intros ? ?%elem_of_nil].
  - done.
  - exists w. split_and!; [done|exact Ht|exact Hb].
Qed.

(** *** What is loaded is what is remembered *)

(** Requests other than loading and unloading leave the modules alone. *)
Definition same_modules (w w' : Wave) : Prop :=
  modules w' = modules w ∧ next_module_id w' = next_module_id w ∧ config w' = config w.

Lemma on_instance_modules {A} id (m : M A) w : same_modules w (on_instance id m w).1.
Proof.
  unfold on_instance, get_instance, op_bind, op_gets, op_lift. destruct (instances w !! id); simpl; [|done].
  by destruct (m _) as [w' r].
Qed.

Lemma instantiate_modules mid imports bindings w : same_modules w (instantiate mid imports bindings w).1.
Proof.
  unfold instantiate, op_bind, op_gets, op_lift, op_guard, op_modify, op_ret. repeat case_match; simplify_eq/=; done.
Qed.

Lemma reset_modules id w : same_modules w (reset_instance id w).1.
Proof. unfold reset_instance, get_instance, put_instance, op_bind, op_gets, op_lift, op_modify. destruct (instances w !! id); done. Qed.

Lemma load_outcome data name w : config (load data name w).1 = config w ∧
  match (load data name w).2 with
  | Ok id => id = next_module_id w ∧ count_of (modules w) < max_modules (config w) ∧ next_module_id (load data name w).1 = u64_add id 1 ∧
      ∃ p, modules (load data name w).1 = <[id := mkModule id name data p true]> (modules w)
  | Err _ => modules (load data name w).1 = modules w ∧
      (next_module_id (load data name w).1 = next_module_id w ∨ next_module_id (load data name w).1 = u64_add (next_module_id w) 1)
  end.
Proof.
  unfold load, op_bind, op_guard, op_gets, op_modify, op_lift, op_ret.
  repeat case_match; simplify_eq/=; split_and!; try done; try (by left); try (by right); try lia. by eexists.
Qed.

Record tracked (n : Z) (w : Wave) (l : list LoadedModule) : Prop := {
  tr_nodup : NoDup (lm_id <$> l);
  tr_module m : m ∈ l → ∃ md, modules w !! lm_id m = Some md ∧ m_name md = Some (string_of_bytes (lm_name m)) ∧
    Z.of_nat (length (m_bytes md)) = lm_size m;
  tr_back id : is_Some (modules w !! id) → id ∈ lm_id <$> l;
  tr_next id : is_Some (modules w !! id) → id < next_module_id w;
  tr_bound : 1 ≤ next_module_id w ≤ n;
  tr_config : max_modules (config w) = 256;
  tr_count : count_of (modules w) ≤ 256;
}.

Definition tracked_host (n : Z) (h : Host) : Prop := ∃ w, WAVE_RUNTIME h = Some w ∧ tracked n w (LOADED_MODULES h).

Lemma tracked_same n n' w w' l : tracked n w l → same_modules w w' → n ≤ n' → tracked n' w' l.
Proof. intros [] (Hm & Hn & Hc) Hle. constructor; rewrite ?Hm, ?Hn, ?Hc; try done. lia. Qed.

(** An operation that takes at most [k] module numbers keeps the account. *)
Definition takes (k : Z) {A} (m : K A) : Prop := ∀ n h, n + k < 2 ^ 64 → tracked_host n h → tracked_host (n + k) (m h).1.

Lemma takes_mono n n' h : tracked_host n h → n ≤ n' → tracked_host n' h.
Proof. intros (w & Hw & Ht) Hle. exists w. split; [done|]. by eapply tracked_same. Qed.

Lemma takes_bind k k' {A B} (m : K A) (f : A → K B) : 0 ≤ k → 0 ≤ k' → takes k m → (∀ a, takes k' (f a)) → takes (k + k') (op_bind m f).
Proof.
  intros Hk Hk' Hm Hf n h Hn Ht. specialize (Hm n h ltac:(lia) Ht). unfold op_bind. destruct (m h) as [h' [a|e]].
  - rewrite Z.add_assoc. apply Hf; [lia|done].
  - eapply takes_mono; [exact Hm|lia].
Qed.

Lemma takes_none {A} (m : K A) : (∀ h, (m h).1 = h) → takes 0 m.
Proof. intros Hm n h _ Ht. rewrite Hm. by rewrite Z.add_0_r. Qed.

Lemma takes_runtime {A} (m : W A) : (∀ w, same_modules w (m w).1) → takes 0 (with_runtime m).
Proof.
  intros Hm n h Hn (w & Hw & Ht). rewrite Z.add_0_r. unfold with_runtime. rewrite Hw. specialize (Hm w). destruct (m w) as [w' r].
  exists w'. split; [done|]. by eapply tracked_same.
Qed.

Lemma takes_load name path data : takes 1 (load_named name path data).
Proof.
  intros n h Hn (w & Hw & Ht). unfold load_named, op_bind, op_lift. destruct (check_header data); [|by apply (takes_mono n); [exists w|lia]].
  unfold with_runtime. rewrite Hw. destruct (load_outcome data (Some (string_of_bytes name)) w) as [Hc Ho].
  pose proof (tr_bound n w _ Ht) as Hb. revert Hc Ho.
  destruct (load data (Some (string_of_bytes name)) w) as [w' [id|e]]; simpl; intros Hc Ho; exists w'; (split; [done|]).
  - destruct Ho as (-> & Hcount & Hnext & p & Hmod). rewrite u64_add_small in Hnext by lia. destruct Ht.
    assert (Hnew : modules w !! next_module_id w = None).
    { apply eq_None_not_Some. intros Hs%tr_next0. lia. }
    constructor; simpl; rewrite ?Hc, ?Hnext, ?Hmod.
    + rewrite fmap_app, NoDup_app. split_and!; [done| |apply NoDup_singleton]. intros id Hid ->%list_elem_of_singleton.
      apply list_elem_of_fmap in Hid as (m & Hm & Hin). destruct (tr_module0 m Hin) as (md & Hmd & _). simpl in *. congruence.
    + intros m [Hm| ->%list_elem_of_singleton]%elem_of_app.
      * destruct (tr_module0 m Hm) as (md & Hmd & Hrest). exists md. split; [|done]. rewrite lookup_insert_ne; [done|]. congruence.
      * eexists. by rewrite lookup_insert_eq.
    + intros id. rewrite fmap_app, elem_of_app, lookup_insert_is_Some. intros [<-|[_ Hs]]; [right; by apply list_elem_of_singleton|left; by apply tr_back0].
    + intros id. rewrite lookup_insert_is_Some. intros [<-|[_ Hs]]; [lia|]. specialize (tr_next0 id Hs). lia.
    + lia.
    + done.
    + unfold count_of in *. rewrite map_size_insert_None by done. lia.
  - destruct Ho as [Hmod Hnext]. destruct Ht. constructor; simpl; rewrite ?Hc, ?Hmod; try done.
    + intros id Hs. specialize (tr_next0 id Hs). destruct Hnext as [->| ->]; [done|]. rewrite u64_add_small by lia. lia.
    + destruct Hnext as [->| ->]; [lia|]. rewrite u64_add_small by lia. lia.
Qed.

Lemma takes_load_file path fs : takes 1 (load_file path fs).
Proof. change 1 with (0 + 1). apply takes_bind; [done..|by apply takes_none|]. intros data. apply takes_load. Qed.

Lemma takes_instantiate mid : takes 0 (host_instantiate mid).
Proof. apply takes_runtime. intros w. apply instantiate_modules. Qed.

Lemma takes_call id name args : takes 0 (host_call id name args).
Proof. apply takes_runtime. intros w. apply on_instance_modules. Qed.

Lemma takes_first_entry id names : takes 0 (first_entry id names).
Proof.
  induction names as [|name names IH]; [by apply takes_none|]. intros n h Hn Ht. cbn [first_entry].
  pose proof (takes_call id name [] n h Hn Ht) as Hc. destruct (host_call id name [] h) as [h' [r|[e|s]]]; [done| |done].
  rewrite Z.add_0_r in *. specialize (IH n h' ltac:(lia) Hc). by rewrite Z.add_0_r in IH.
Qed.

Lemma takes_unload mid : takes 0 (host_unload mid).
Proof.
  intros n h Hn (w & Hw & Ht). rewrite Z.add_0_r. unfold host_unload, op_bind, with_runtime. rewrite Hw.
  unfold unload, op_bind, op_gets, op_lift, op_modify. destruct (modules w !! mid) as [md|] eqn:Hmd; simpl; [|by exists w].
  eexists. split; [done|]. destruct Ht. simpl.
  assert (Hin : ∀ m, m ∈ List.filter (λ m, negb (lm_id m =? mid)) (LOADED_MODULES h) ↔ lm_id m ≠ mid ∧ m ∈ LOADED_MODULES h).
  { intros m. rewrite !list_elem_of_In, filter_In. split; intros [? ?]; split; try done; lia. }
  constructor; simpl; try done.
  - clear -tr_nodup0. induction (LOADED_MODULES h) as [|m l IH]; [done|]. simpl in *. apply NoDup_cons in tr_nodup0 as [Hm Hl].
    destruct (negb _); [|by apply IH]. simpl. apply NoDup_cons. split; [|by apply IH].
    intros (m' & Heq & Hin')%list_elem_of_fmap. apply Hm. apply list_elem_of_fmap. exists m'. split; [done|].
    apply list_elem_of_In, filter_In in Hin' as [Hin' _]. by apply list_elem_of_In.
  - intros m [Hne Hm]%Hin. destruct (tr_module0 m Hm) as (md' & Hmd' & Hrest). exists md'. split; [|done]. by rewrite lookup_delete_ne.
  - intros id. rewrite lookup_delete_is_Some. intros [Hne Hs]. apply tr_back0 in Hs. apply list_elem_of_fmap in Hs as (m & -> & Hm).
    apply list_elem_of_fmap. exists m. split; [done|]. by apply Hin.
  - intros id. rewrite lookup_delete_is_Some. intros [_ Hs]. by apply tr_next0.
  - unfold count_of in *. rewrite map_size_delete_Some by done. lia.
Qed.

Lemma takes_ignore k {A} (m : K A) : takes k m → takes k (ignore m).
Proof. intros Hm n h Hn Ht. specialize (Hm n h Hn Ht). unfold ignore. by destruct (m h) as [h' [a|[e|s]]]. Qed.

Lemma takes_load_bytes name data : takes 1 (load_bytes name data).
Proof. exact (takes_load name MEMORY_PATH data). Qed.

Lemma takes_run_file path fs : takes 1 (run_file path fs).
Proof.
  apply (takes_bind 1 0); [done..|apply takes_load_file|intros mid].
  apply (takes_bind 0 0); [done..|apply takes_instantiate|intros id]. apply takes_first_entry.
Qed.

Lemma takes_execute code locals : takes 1 (host_execute_bytecode code locals).
Proof.
  apply (takes_bind 1 0); [done..|apply takes_load_bytes|intros mid].
  apply (takes_bind 0 0); [done..|apply takes_instantiate|intros id].
  apply (takes_bind 0 0); [done..|apply takes_call|intros r].
  apply (takes_bind 0 0); [done..|apply takes_ignore, takes_unload|intros _]. by apply takes_none.
Qed.

Lemma serve_host_takes c h n : n + 1 < 2 ^ 64 → tracked_host n h → tracked_host (n + 1) (serve_host c h).
Proof.
  intros Hn Ht. assert (Hk : ∀ k A (m : K A), takes k m → k ≤ 1 → tracked_host (n + 1) (m h).1).
  { intros k A m Hm Hle. apply (takes_mono (n + k)); [apply Hm; [lia|done]|lia]. }
  destruct c; cbn [serve_host].
  - exact (Hk _ _ _ (takes_load_file path fs) ltac:(done)).
  - exact (Hk _ _ _ (takes_load_bytes name data) ltac:(done)).
  - exact (Hk _ _ _ (takes_instantiate module_id) ltac:(done)).
  - exact (Hk _ _ _ (takes_runtime _ (instantiate_modules module_id [] caps)) ltac:(done)).
  - exact (Hk _ _ _ (takes_call id name args) ltac:(done)).
  - exact (Hk _ _ _ (takes_run_file path fs) ltac:(done)).
  - exact (Hk _ _ _ (takes_unload module_id) ltac:(done)).
  - exact (Hk _ _ _ (takes_runtime _ (on_instance_modules id (read_memory offset length))) ltac:(done)).
  - exact (Hk _ _ _ (takes_runtime _ (on_instance_modules id (write_memory offset data))) ltac:(done)).
  - exact (Hk _ _ _ (takes_runtime _ (reset_modules id)) ltac:(done)).
  - exact (Hk _ _ _ (takes_execute code locals) ltac:(done)).
Qed.

(** The host's list is the runtime's table: over any history of fewer than 2^64 - 1
    calls, the modules remembered are exactly those the runtime holds, each once, with its
    name and its size in bytes, and never more than 256 of them. *)
Theorem modules_tracked jit threshold cs : Z.of_nat (length cs) < 2 ^ 64 - 1 →
  let h := run_ops serve_host cs (init jit threshold off) in
  ∃ w, WAVE_RUNTIME h = Some w ∧ NoDup (lm_id <$> LOADED_MODULES h) ∧
    (∀ id, id ∈ lm_id <$> LOADED_MODULES h ↔ id ∈ list_modules w) ∧
    (∀ m, m ∈ LOADED_MODULES h → ∃ md, modules w !! lm_id m = Some md ∧ m_name md = Some (string_of_bytes (lm_name m)) ∧
       Z.of_nat (length (m_bytes md)) = lm_size m) ∧
    modules_loaded (host_stats h) ≤ 256.
Proof.
  intros Hlen. assert (Hrun : ∀ n h, n + Z.of_nat (length cs) < 2 ^ 64 → tracked_host n h →
    tracked_host (n + Z.of_nat (length cs)) (run_ops serve_host cs h)).
  { clear Hlen. induction cs as [|c cs' IH]; intros n h Hn Ht; [by rewrite Z.add_0_r|]. cbn [run_ops length] in *.
    replace (n + Z.of_nat (S (length cs'))) with (n + 1 + Z.of_nat (length cs')) in * by lia.
    apply IH; [done|]. apply serve_host_takes; [lia|done]. }
  destruct (Hrun 1 (init jit threshold off)) as (w & Hw & Ht); [lia| |].
  - eexists. split; [done|]. constructor; simpl; try done; try (intros ? ?%elem_of_nil; done); [apply NoDup_nil_2|intros id [? ?%lookup_empty_Some]; done..].
  - destruct Ht. exists w. split_and!; try done.
    + intros id. unfold list_modules. rewrite elem_of_btree_keys. split; [|apply tr_back0].
      intros (m & -> & Hm)%list_elem_of_fmap. destruct (tr_module0 m Hm) as (md & Hmd & _). by exists md.
    + unfold host_stats. cbn [modules_loaded]. rewrite <- (length_fmap lm_id).
      transitivity (count_of (modules w)); [|done]. unfold count_of. rewrite <- size_dom.
      rewrite <- (size_list_to_set (C := gset Z) (lm_id <$> LOADED_MODULES _)) by done.
      apply Nat2Z.inj_le, subseteq_size. intros id Hid%elem_of_list_to_set. apply elem_of_dom.
      apply list_elem_of_fmap in Hid as (m & -> & Hm). destruct (tr_module0 m Hm) as (md & Hmd & _). by exists md.
Qed.

(** ** What running a file runs *)

(** A new instance without capabilities: ready, with nothing bound and an empty stack. *)
Definition bare (i : Instance_) : Prop := state i = Ready ∧ imports i = [] ∧ host_functions i = [] ∧ value_stack i = [].

Lemma instantiate_bare mid w w' id : instantiate_simple mid w = (w', Ok id) → ∃ i, instances w' !! id = Some i ∧ bare i.
Proof.
  unfold instantiate_simple, instantiate, op_bind, op_gets, op_lift, op_guard, op_modify, op_ret.
  destruct (modules w !! mid) as [m|]; simpl; [|done].
  destruct (p_host_imports (m_parsed m)) as [|[n f] hosts]; simpl; [|done].
  destruct (_ <? _); [done|]. destruct (_ <=? count_of _); [done|]. simpl. destruct (_ <=? _); [done|].
  intros [= <- <-]. eexists. split; [apply lookup_insert_eq|done].
Qed.

(** Both entry points are built-in functions of the runtime, found by their name. *)
Lemma call_entry id i name b args w : instances w !! id = Some i → bare i → builtin_of name = Some b →
  (wave_call id name args w).2 =
  (set_ready (execute_builtin b) (mkWorld (with_counts (<[name_to_func_idx name :=
     u64_add (default 0 (execution_counts i !! name_to_func_idx name)) 1]> (execution_counts i))
     (with_stack args (with_steps 0 (with_state Running i)))) (os_trace w))).2.
Proof.
  intros Hi (Hs & Him & Hf & Hv) Hb. unfold wave_call, on_instance, get_instance, op_bind, op_gets, op_lift. rewrite Hi. simpl.
  rewrite call_ready by done. unfold enter. cbn [inst trace]. rewrite Hv. simpl app.
  unfold set_ready, execute_function, count_execution, op_bind, modify, gets. cbn [inst trace].
  unfold lookup_host_function. simpl. rewrite Hf, Him. simpl. rewrite Hb.
  by destruct (execute_builtin b _) as [w' [r|[e| | |]]].
Qed.

Lemma host_call_entry id name b args h w i : WAVE_RUNTIME h = Some w → instances w !! id = Some i → bare i → builtin_of name = Some b →
  b = BStart ∨ b = BMain → (host_call id name args h).2 = Ok (match b with BStart => [] | _ => [I32 0] end).
Proof.
  intros Hw Hi Hbare Hb Hcase. unfold host_call, with_runtime. rewrite Hw.
  pose proof (call_entry id i name b args w Hi Hbare Hb) as Hc. destruct (wave_call id name args w) as [w' r]. simpl in *. subst r.
  destruct Hcase as [-> | ->]; done.
Qed.

Lemma host_instantiate_bare mid h h' id : host_instantiate mid h = (h', Ok id) →
  ∃ w i, WAVE_RUNTIME h' = Some w ∧ instances w !! id = Some i ∧ bare i.
Proof.
  unfold host_instantiate, with_runtime. destruct (WAVE_RUNTIME h) as [w|]; [|done].
  destruct (instantiate_simple mid w) as [w' [x|e]] eqn:Hi; [|done]. intros [= <- <-].
  destruct (instantiate_bare _ _ _ _ Hi) as (i & ? & ?). by exists w', i.
Qed.

(** Whatever the file holds, a run that succeeds ends at once with no values: [_start] is
    found as a built-in of the runtime, exported or not, and the code of the module is not
    looked at. *)
Lemma run_file_runs_nothing path fs h h' r : run_file path fs h = (h', Ok r) → r = [].
Proof.
  unfold run_file, op_bind. destruct (load_file path fs h) as [h1 [mid|e]]; [|done].
  destruct (host_instantiate mid h1) as [h2 [id|e]] eqn:Hi; [|done].
  destruct (host_instantiate_bare _ _ _ _ Hi) as (w & i & Hw & Hid & Hbare). cbn [first_entry entry_points].
  pose proof (host_call_entry id "_start" BStart [] h2 w i Hw Hid Hbare eq_refl ltac:(by left)) as Hc.
  destruct (host_call id "_start" [] h2) as [h3 x]. simpl in Hc. subst x. by intros [= _ <-].
Qed.

(** And no bytecode is executed: the answer is 0, whatever the code and its arguments. *)
Lemma execute_bytecode_answers_zero code locals h h' r : host_execute_bytecode code locals h = (h', Ok r) → r = [I32 0].
Proof.
  unfold host_execute_bytecode, op_bind. destruct (load_bytes _ _ h) as [h1 [mid|e]]; [|done].
  destruct (host_instantiate mid h1) as [h2 [id|e]] eqn:Hi; [|done].
  destruct (host_instantiate_bare _ _ _ _ Hi) as (w & i & Hw & Hid & Hbare).
  pose proof (host_call_entry id "main" BMain locals h2 w i Hw Hid Hbare eq_refl ltac:(by right)) as Hc.
  destruct (host_call id "main" locals h2) as [h3 x]. simpl in Hc. subst x.
  destruct (ignore (host_unload mid) h3) as [h4 [u|e]]; [|done]. by intros [= _ <-].
Qed.
End histories.

(** A module written to the file system is loaded with the bytes written, whatever was done to other files since. *)
Lemma load_written max now before t0 t1 path data after fs1 a1 fs2 h :
  0 ≤ max ≤ 2 ^ 63 →
  Forall (λ x, Fs.sized x.2) (before ++ (t0, t1, Fs.WriteFile path data) :: after) →
  Fs.fs_run before (Fs.RamFs_new max now) = Some (fs1, a1) →
  Fs.fs_step t0 t1 (Fs.WriteFile path data) fs1 = Some (fs2, Ok Fs.Done) →
  Forall (λ x, Fs.touches (components path) x.2 = false) after →
  ∃ fs3 a3, Fs.fs_run after fs2 = Some (fs3, a3) ∧ load_file path fs3 h = load_named (module_name path) path data h.
Proof.
  intros Hm Hs Hb Hw Ha.
  destruct (Fs.write_lasts max now before t0 t1 path data after 0 0 fs1 a1 fs2 Hm Hs Hb Hw Ha) as (fs3 & a3 & Hr & Hread).
  exists fs3, a3. split; [done|]. unfold load_file, cat, op_bind, op_lift. cbn [Fs.fs_step] in Hread.
  destruct (Fs.read_file path fs3) as [[d|e]|]; cbn [mbind option_bind Fs.answer_of] in *; simplify_eq. done.
Qed.

(** What loads also validates. *)
Lemma loaded_validates name path data h h' id r : load_named name path data h = (h', Ok id) →
  validate_bytes data = Ok r → valid r = true ∧ v_version r = 1.
Proof.
  intros Hl Hr. assert (Hh : (8 ≤ length data)%nat ∧ take 4 data = magic ∧ take 4 (drop 4 data) = version).
  { revert Hl. unfold load_named, op_bind, op_lift. destruct (check_header data); [|done]. unfold with_runtime.
    destruct (WAVE_RUNTIME h) as [w|]; [|done]. unfold load, op_bind, op_guard, op_gets, op_modify, op_lift, op_ret.
    repeat case_match; simplify_eq/=; try done. intros _.
    repeat match goal with Hb : negb _ = false |- _ => apply negb_false_iff, bool_decide_eq_true in Hb
                         | Hb : bool_decide _ = false |- _ => apply bool_decide_eq_false in Hb end. split_and!; [lia|done..]. }
  destruct Hh as (Hl8 & Hmagic & Hver). revert Hr. unfold validate_bytes.
  rewrite decide_False by lia. rewrite decide_False by naive_solver. cbn zeta. cbn [v_version with_version].
  rewrite Hver. rewrite decide_False by naive_solver.
  destruct (validate_loop_ends data (S (length data)) 8 (with_version (from_le_bytes version) (unknown data))) as (r' & -> & _ & Hv); [lia..|].
  intros [= <-]. split; [done|]. cbn [v_version accept]. by rewrite Hv.
Qed.

(** ** Examples *)

#[local] Instance quiet : Platform := {| os_reply := λ _ _, 0; nan32 := λ _ _, 0x7FC00000; nan64 := λ _ _, 0 |}.

Definition started : Host := init true 1000 off.
Definition hello : HostCall := CLoadBytes (bytes_of_string "hello") Fs.test_wasm.
Definition add : HostCall := CLoadBytes (bytes_of_string "add") Fs.add_wasm.

(** Two modules are loaded, some code is run, the first is unloaded: one is left. *)
Definition busy : list HostCall := [hello; add; CExecute [0x41; 0x05] []; CUnload 1].

Example busy_left : LOADED_MODULES (run_ops serve_host busy started) =
  [mkLoaded 2 (bytes_of_string "add") MEMORY_PATH (Z.of_nat (length Fs.add_wasm))].
Proof. vm_compute. reflexivity. Qed.

Lemma modules_tracked_witness :
  let h := run_ops serve_host busy (init true 1000 off) in
  ∃ w, WAVE_RUNTIME h = Some w ∧ NoDup (lm_id <$> LOADED_MODULES h) ∧
    (∀ id, id ∈ lm_id <$> LOADED_MODULES h ↔ id ∈ list_modules w) ∧
    (∀ m, m ∈ LOADED_MODULES h → ∃ md, modules w !! lm_id m = Some md ∧ m_name md = Some (string_of_bytes (lm_name m)) ∧
       Z.of_nat (length (m_bytes md)) = lm_size m) ∧
    modules_loaded (host_stats h) ≤ 256.
Proof. apply (modules_tracked true 1000 busy). done. Defined.

(** The body [i32.const 5] answers 0. The instance stays in the table after its module is gone, one
    more for every call, until 1024 are reached. *)
Example bytecode_five : let (h, r) := host_execute_bytecode [0x41; 0x05] [] started in
  r = Ok [I32 0] ∧ LOADED_MODULES h = [] ∧ host_list_instances h = [1].
Proof. vm_compute. done. Qed.

(** The size of the code section is one byte: from 124 bytes of code on it reads as the
    first byte of a longer number, and the module is refused. *)
Example bytecode_too_long : (host_execute_bytecode (replicate 123 0x01) [] started).2 = Ok [I32 0] ∧
  (host_execute_bytecode (replicate 124 0x01) [] started).2 = Err (Throws (FromWave InvalidModule)).
Proof. split; vm_compute; reflexivity. Qed.

(** A module cut in the middle of a section is valid, and does not load. *)
Example truncated_is_valid : let data := take 20 Fs.add_wasm in
  (∃ r, validate_bytes data = Ok r ∧ valid r = true) ∧
  (load_bytes [] data started).2 = Err (Throws (FromWave InvalidModule)).
Proof. split; [eexists; split; [vm_compute; reflexivity|done]|vm_compute; reflexivity]. Qed.

(** The counts are the first byte of a number of several: 300 functions are reported as
    172. *)
Example count_is_one_byte : ∃ r, validate_bytes (magic ++ version ++ enc_section 3 (enc_vec (λ _ : unit, [0]) (replicate 300 tt))) = Ok r ∧
  function_count r = 172.
Proof. eexists. split; vm_compute; reflexivity. Qed.

(** Starting the subsystem again forgets the runtime but not what it had loaded. *)
Lemma init_again_stale h jit threshold : LOADED_MODULES (init jit threshold h) = LOADED_MODULES h ∧
  from_option list_modules [] (WAVE_RUNTIME (init jit threshold h)) = [].
Proof. done. Qed.
