(* ===== verification/JitIr.v ===== *)
(** * JitIr: the intermediate form of the optimising compiler and its passes
    ([runtime/wave/src/jit/ir.rs], [jit/ir/optimize.rs])

    Typed instructions over virtual registers, and the optimiser. A meaning is given to
    straight-line code, with the instructions the passes do not look into as a parameter,
    and the passes are proved to keep it. Virtual registers, labels and indices are [Z]. *)

From Stdlib Require Import ZArith Lia String.
From stdpp Require Import list gmap.
From S2P Require Import Prelude.
From S2P Require Import Bytes.
From S2P Require Import WaveValue.
From S2P Require Import Leb128.

(** ** The intermediate form *)

Inductive IrType := TI32 | TI64 | TF32 | TF64 | TPtr | TVoid.
#[global] Instance IrType_eq_dec : EqDecision IrType.
Proof. solve_decision. Defined.

Definition type_size (t : IrType) : Z :=
  match t with TI32 | TF32 => 4 | TI64 | TF64 | TPtr => 8 | TVoid => 0 end.
Definition is_float (t : IrType) : bool := match t with TF32 | TF64 => true | _ => false end.

Inductive IrOp :=
  | Iconst32 | Iconst64 | Fconst32 | Fconst64
  | Iadd | Isub | Imul | Idiv | Udiv | Irem | Urem
  | And | Or | Xor | Shl | Shr | Ushr | Rotl | Rotr
  | Clz | Ctz | Popcnt
  | Fadd | Fsub | Fmul | Fdiv | Fmin | Fmax | Fsqrt | Fabs | Fneg | Fceil | Ffloor | Ftrunc | Fnearest
  | Eq | Ne | Lt | Ult | Le | Ule | Gt | Ugt | Ge | Uge
  | Wrap | Extend | Uextend | Trunc | Utrunc | Convert | Uconvert | Demote | Promote | Reinterpret
  | Load | Store
  | Jump | BrIf | BrTable | Call | CallIndirect | Return
  | Copy | Select
  | Nop | Unreachable | MemorySize | MemoryGrow.
#[global] Instance IrOp_eq_dec : EqDecision IrOp.
Proof. solve_decision. Defined.

(** Floats are their bit patterns. *)
Inductive Operand :=
  | Reg (v : Z) | Imm32 (z : Z) | Imm64 (z : Z) | ImmF32 (bits : Z) | ImmF64 (bits : Z)
  | Label (l : Z) | FuncIdx (f : Z) | Offset (o : Z).
#[global] Instance Operand_eq_dec : EqDecision Operand.
Proof. solve_decision. Defined.

Record IrInst := mkInst { iop : IrOp; result_type : IrType; dest : option Z; operands : list Operand }.

Definition IrInst_new (o : IrOp) (t : IrType) : IrInst := mkInst o t None [].
Definition with_dest (d : Z) (i : IrInst) : IrInst := mkInst (iop i) (result_type i) (Some d) (operands i).
Definition with_operand (o : Operand) (i : IrInst) : IrInst := mkInst (iop i) (result_type i) (dest i) (operands i ++ [o]).

Definition has_side_effects (i : IrInst) : bool :=
  match iop i with Store | Call | CallIndirect | MemoryGrow | Unreachable => true | _ => false end.
Definition is_terminator (i : IrInst) : bool :=
  match iop i with Jump | BrIf | BrTable | Return | Unreachable => true | _ => false end.

Record BasicBlock := mkBlock { b_id : Z; instructions : list IrInst; predecessors : list Z; successors : list Z }.
Definition BasicBlock_new (id : Z) : BasicBlock := mkBlock id [] [] [].
Definition block_push (i : IrInst) (b : BasicBlock) : BasicBlock :=
  mkBlock (b_id b) (instructions b ++ [i]) (predecessors b) (successors b).
Definition terminator (b : BasicBlock) : option IrInst :=
  i ← last (instructions b); if is_terminator i then Some i else None.

Record FunctionSig := mkSig { params : list IrType; returns : list IrType }.

Record IrFunction := mkFun {
  f_index : Z; f_name : option string; signature : FunctionSig; locals : list IrType;
  blocks : list BasicBlock; next_vreg : Z
}.
Definition IrFunction_new (index : Z) (s : FunctionSig) : IrFunction := mkFun index None s [] [] 0.

Definition with_blocks (bs : list BasicBlock) (f : IrFunction) : IrFunction :=
  mkFun (f_index f) (f_name f) (signature f) (locals f) bs (next_vreg f).
Definition alloc_vreg (f : IrFunction) : IrFunction * Z :=
  (mkFun (f_index f) (f_name f) (signature f) (locals f) (blocks f) (u32 (next_vreg f + 1)), next_vreg f).
Definition add_block (f : IrFunction) : IrFunction * Z :=
  let id := u32 (Z.of_nat (length (blocks f))) in (with_blocks (blocks f ++ [BasicBlock_new id]) f, id).
Definition block (id : Z) (f : IrFunction) : option BasicBlock := blocks f !! Z.to_nat id.
(** What a caller does through [block_mut]. *)
Definition block_mut (id : Z) (g : BasicBlock → BasicBlock) (f : IrFunction) : IrFunction :=
  with_blocks (alter g (Z.to_nat id) (blocks f)) f.
Definition entry_block (f : IrFunction) : option BasicBlock := head (blocks f).

(** [for block in &mut func.blocks] over the instructions of each. *)
Definition map_code (g : list IrInst → list IrInst) (f : IrFunction) : IrFunction :=
  with_blocks ((λ b, mkBlock (b_id b) (g (instructions b)) (predecessors b) (successors b)) <$> blocks f) f.

(** All instructions, in the order of the blocks. *)
Definition code (f : IrFunction) : list IrInst := concat (instructions <$> blocks f).

(** The registers an instruction reads. *)
Definition reg_of (o : Operand) : option Z := match o with Reg v => Some v | _ => None end.
Definition uses (i : IrInst) : list Z := omap reg_of (operands i).

(** ** The passes *)

Definition try_fold_constant (i : IrInst) : option IrInst :=
  match operands i with
  | [Imm32 a; Imm32 b] =>
      result ← match iop i with
               | Iadd => Some (signed 32 (a + b))
               | Isub => Some (signed 32 (a - b))
               | Imul => Some (signed 32 (a * b))
               | And => Some (Z.land a b)
               | Or => Some (Z.lor a b)
               | Xor => Some (Z.lxor a b)
               | Shl => Some (shl_signed 32 a b)
               | Shr => Some (shr_signed 32 a b)
               | _ => None
               end;
      d ← dest i;
      Some (with_operand (Imm32 result) (with_dest d (IrInst_new Iconst32 (result_type i))))
  | _ => None
  end.

Definition fold_inst (i : IrInst) : IrInst := default i (try_fold_constant i).
Definition constant_fold (f : IrFunction) : IrFunction := map_code (fmap fold_inst) f.

Definition used_regs (f : IrFunction) : gset Z := list_to_set (mjoin (uses <$> code f)).

Definition keep (used : gset Z) (i : IrInst) : bool :=
  has_side_effects i || is_terminator i ||
  match dest i with Some d => bool_decide (d ∈ used) | None => false end.
Definition eliminate_dead_code (f : IrFunction) : IrFunction :=
  map_code (List.filter (keep (used_regs f))) f.

(** [copy_map]: later copies to the same register win. *)
Definition copy_entry (i : IrInst) (m : gmap Z Z) : gmap Z Z :=
  if decide (iop i = Copy) then
    match dest i, head (operands i) with
    | Some d, Some (Reg s) => <[d := s]> m
    | _, _ => m
    end
  else m.
Definition copy_map (f : IrFunction) : gmap Z Z := foldl (λ m i, copy_entry i m) ∅ (code f).

(** [while let Some(&source) = copy_map.get(&current)]: [None] when the fuel, one more than
    the entries, does not reach the end of the chain, which is then a cycle. *)
Fixpoint follow (fuel : nat) (m : gmap Z Z) (v : Z) : option Z :=
  match fuel with
  | O => None
  | S fuel => match m !! v with Some s => follow fuel m s | None => Some v end
  end.

Definition propagate_operand (m : gmap Z Z) (o : Operand) : option Operand :=
  match o with Reg v => Reg <$> follow (S (size m)) m v | _ => Some o end.
Definition propagate_inst (m : gmap Z Z) (i : IrInst) : option IrInst :=
  os ← mapM (propagate_operand m) (operands i); Some (mkInst (iop i) (result_type i) (dest i) os).
Definition propagate_block (m : gmap Z Z) (b : BasicBlock) : option BasicBlock :=
  insts ← mapM (propagate_inst m) (instructions b); Some (mkBlock (b_id b) insts (predecessors b) (successors b)).
Definition propagate_copies (f : IrFunction) : option IrFunction :=
  bs ← mapM (propagate_block (copy_map f)) (blocks f); Some (with_blocks bs f).

Definition is_power_of_two (n : Z) : bool := (0 <? n) && (Z.land n (n - 1) =? 0).

(** A [u32] other than 0 has a bit set among its 32. *)
Fixpoint count_zeros (fuel : nat) (val : Z) : Z :=
  match fuel with
  | O => 0
  | S fuel => if Z.land val 1 =? 0 then 1 + count_zeros fuel (Z.shiftr val 1) else 0
  end.
Definition trailing_zeros (n : Z) : Z := if n =? 0 then 32 else count_zeros 32 n.

Definition second (i : IrInst) : option Operand := operands i !! 1%nat.
Definition to_shift (o : IrOp) (i : IrInst) : IrInst :=
  match second i with
  | Some (Imm32 val) =>
      if is_power_of_two val
      then mkInst o (result_type i) (dest i) (<[1%nat := Imm32 (trailing_zeros (u32 val))]> (operands i))
      else i
  | _ => i
  end.
Definition to_const (z : Z) (i : IrInst) : IrInst := mkInst Iconst32 (result_type i) (dest i) [Imm32 z].
Definition to_copy (i : IrInst) : IrInst := mkInst Copy (result_type i) (dest i) (removelast (operands i)).

Definition reduce_inst (i : IrInst) : IrInst :=
  let i := if decide (iop i = Imul) then to_shift Shl i else i in
  let i := if decide (iop i = Udiv) then to_shift Ushr i else i in
  let i := if decide (iop i = Imul ∧ second i = Some (Imm32 0)) then to_const 0 i else i in
  if decide ((iop i = Iadd ∨ iop i = Isub) ∧ second i = Some (Imm32 0)) then to_copy i else i.
Definition reduce_strength (f : IrFunction) : IrFunction := map_code (fmap reduce_inst) f.

Definition simplify_inst (i : IrInst) : IrInst :=
  match iop i, second i with
  | And, Some (Imm32 0) => to_const 0 i
  | Or, Some (Imm32 0) => to_copy i
  | Xor, Some (Imm32 0) => to_copy i
  | And, Some (Imm32 (-1)) => to_copy i
  | Or, Some (Imm32 (-1)) => to_const (-1) i
  | _, _ => i
  end.
Definition simplify_algebraic (f : IrFunction) : IrFunction := map_code (fmap simplify_inst) f.

Definition optimize_all (f : IrFunction) : option IrFunction :=
  f ← propagate_copies (constant_fold f);
  Some (eliminate_dead_code (constant_fold (eliminate_dead_code (simplify_algebraic (reduce_strength f))))).

(** [JitCompiler::optimize], by its configuration. *)
Definition optimize (constant_folding dead_code_elimination : bool) (f : IrFunction) : IrFunction :=
  let f := if constant_folding then constant_fold f else f in
  if dead_code_elimination then eliminate_dead_code f else f.

(** ** What straight-line code means

    A specification: registers hold numbers, integers signed at their width and floats
    as bit patterns; every instruction takes its operands, may change the world, and gives a
    value to its destination. *)

Inductive Arg := Val (z : Z) | ALabel (l : Z) | AFunc (f : Z) | AOffset (o : Z).

(** How a run of the code ends. *)
Inductive Outcome (World : Type) := Falls (w : World) | Returns (args : list Arg) (w : World) | Traps (w : World).
Arguments Falls {World}. Arguments Returns {World}. Arguments Traps {World}.

Definition width (t : IrType) : Z := match t with TI64 => 64 | _ => 32 end.

(** The integer operations the passes look into, at width [w]. *)
Definition arith (o : IrOp) (w : Z) : option (Z → Z → Z) :=
  match o with
  | Iadd => Some (λ a b, signed w (a + b))
  | Isub => Some (λ a b, signed w (a - b))
  | Imul => Some (λ a b, signed w (a * b))
  | And => Some Z.land
  | Or => Some Z.lor
  | Xor => Some Z.lxor
  | Shl => Some (shl_signed w)
  | Shr => Some (shr_signed w)
  | Ushr => Some (λ a b, signed w (Z.shiftr (wrap w a) (wrap w b mod w)))
  | _ => None
  end.

(** Registers that can be read and written: virtual ones, or the places they are given. *)
Class RegFile (E : Type) := { read_reg (v : Z) : E → option Z; write_reg (v z : Z) : E → E }.

#[global] Instance vregs : RegFile (gmap Z Z) := { read_reg v e := e !! v; write_reg v z e := <[v := z]> e }.

Section meaning.
Context {World : Type} (other : IrOp → IrType → list Arg → World → option (World * Z)).

(** [None] is a trap. *)
Definition meaning (o : IrOp) (t : IrType) (args : list Arg) (w : World) : option (World * Z) :=
  match o, args with
  | Iconst32, [Val z] | Iconst64, [Val z] | Copy, [Val z] => Some (w, z)
  | Udiv, [Val a; Val b] =>
      if wrap (width t) b =? 0 then None else Some (w, signed (width t) (wrap (width t) a / wrap (width t) b))
  | _, [Val a; Val b] =>
      match arith o (width t) with
      | Some f => Some (w, f a b)
      | None => other o t args w
      end
  | _, _ => other o t args w
  end.

Section run.
Context {E : Type} `{RegFile E}.

(** [None]: the register was never written. *)
Definition arg_of (e : E) (o : Operand) : option Arg :=
  match o with
  | Reg v => Val <$> read_reg v e
  | Imm32 z | Imm64 z | ImmF32 z | ImmF64 z => Some (Val z)
  | Label l => Some (ALabel l)
  | FuncIdx f => Some (AFunc f)
  | Offset n => Some (AOffset n)
  end.

Definition set_dest (d : option Z) (z : Z) (e : E) : E := match d with Some v => write_reg v z e | None => e end.

(** Control leaves the code at a return or an unreachable point, or falls out of its end. *)
Fixpoint run (l : list IrInst) (e : E) (w : World) : option (Outcome World) :=
  match l with
  | [] => Some (Falls w)
  | i :: l' =>
      args ← mapM (arg_of e) (operands i);
      match iop i with
      | Return => Some (Returns args w)
      | Unreachable => Some (Traps w)
      | _ => match meaning (iop i) (result_type i) args w with
             | None => Some (Traps w)
             | Some (w', z) => run l' (set_dest (dest i) z e) w'
             end
      end
  end.
End run.

Definition finishes (o : Outcome World) : Prop := match o with Traps _ => False | _ => True end.

(** ** Well-typed code *)

Definition in_range (t : IrType) (z : Z) : Prop :=
  match t with TI32 => is_signed 32 z | TI64 => is_signed 64 z | _ => True end.

Context (Γ : Z → IrType).

(** An operand of an integer instruction of type [t]: a register of that type, or an
    immediate of that width. *)
Definition operand_ok (t : IrType) (o : Operand) : Prop :=
  match o with
  | Reg v => Γ v = t
  | Imm32 z => t = TI32 ∧ is_signed 32 z
  | Imm64 z => t = TI64 ∧ is_signed 64 z
  | _ => False
  end.

Definition is_int (t : IrType) : Prop := t = TI32 ∨ t = TI64.
Definition binary (o : IrOp) : bool :=
  match o with Iadd | Isub | Imul | Udiv | And | Or | Xor | Shl | Shr | Ushr => true | _ => false end.
Definition exits (o : IrOp) : bool := match o with Return | Unreachable => true | _ => false end.

Record typed (i : IrInst) : Prop := {
  ty_dest d : dest i = Some d → Γ d = result_type i;
  ty_binary : binary (iop i) = true → is_int (result_type i) ∧
    ∃ a b, operands i = [a; b] ∧ operand_ok (result_type i) a ∧ operand_ok (result_type i) b;
  ty_copy : iop i = Copy → ∃ a, operands i = [a] ∧ operand_ok (result_type i) a;
  ty_const : iop i = Iconst32 ∨ iop i = Iconst64 → ∃ a, operands i = [a] ∧ reg_of a = None ∧ operand_ok (result_type i) a;
}.

Definition env_ok (e : gmap Z Z) : Prop := ∀ v z, e !! v = Some z → in_range (Γ v) z.

(** What the parameter owes: values of their type, and no effect where the compiler assumes
    none. *)
Definition other_ranges : Prop := ∀ o t args w w' z, other o t args w = Some (w', z) → in_range t z.
Definition other_pure : Prop := ∀ o t args w w' z,
  has_side_effects (mkInst o t None []) = false → is_terminator (mkInst o t None []) = false →
  other o t args w = Some (w', z) → w' = w.

(** The value an instruction computes. *)
Definition value (i : IrInst) (e : gmap Z Z) (w : World) : option (World * Z) :=
  args ← mapM (arg_of e) (operands i); meaning (iop i) (result_type i) args w.

Lemma run_value i l e w o : exits (iop i) = false → run (i :: l) e w = Some o → finishes o →
  ∃ w' z, value i e w = Some (w', z) ∧ run l (set_dest (dest i) z e) w' = Some o.
Proof.
  intros Hx Hr Hf. cbn [run] in Hr. unfold value. destruct (mapM (arg_of e) (operands i)) as [args|]; [|done].
  cbn [mbind option_bind] in *. destruct (meaning (iop i) (result_type i) args w) as [[w' z]|] eqn:Hm.
  - exists w', z. split; [done|]. by destruct (iop i).
  - destruct (iop i); try done; injection Hr as <-; done.
Qed.

Lemma value_run i l e w w' z : exits (iop i) = false → value i e w = Some (w', z) →
  run (i :: l) e w = run l (set_dest (dest i) z e) w'.
Proof.
  intros Hx Hv. cbn [run]. unfold value in Hv. destruct (mapM (arg_of e) (operands i)) as [args|]; [|done].
  cbn [mbind option_bind] in *. rewrite Hv. by destruct (iop i).
Qed.

(** ** Values keep to their types *)

Lemma operand_value t o e a : operand_ok t o → env_ok e → arg_of e o = Some a → ∃ z, a = Val z ∧ in_range t z.
Proof.
  intros Ho He. destruct o; simpl in *; try done.
  - destruct (e !! v) as [z|] eqn:Hz; [|done]. intros [= <-]. exists z. split; [done|]. rewrite <- Ho. by apply (He v).
  - destruct Ho as [-> Hz]. intros [= <-]. by exists z.
  - destruct Ho as [-> Hz]. intros [= <-]. by exists z.
Qed.

Lemma in_range_signed t z : is_int t → in_range t z ↔ is_signed (width t) z.
Proof. intros [-> | ->]; done. Qed.
Lemma width_pos t : 0 < width t.
Proof. by destruct t. Qed.

Lemma arith_range o t f a b : is_int t → arith o (width t) = Some f → in_range t a → in_range t b → in_range t (f a b).
Proof.
  intros Ht Hf. rewrite !in_range_signed by done. pose proof (width_pos t). intros Ha Hb.
  destruct o; simplify_eq/=; eauto using signed_range, shr_signed_range with kernel.
Qed.

(** The two operands of a binary instruction. *)
Lemma binary_args i e args : typed i → env_ok e → binary (iop i) = true → mapM (arg_of e) (operands i) = Some args →
  ∃ a b, args = [Val a; Val b] ∧ in_range (result_type i) a ∧ in_range (result_type i) b.
Proof.
  intros Ht He Hb Ha. destruct (ty_binary i Ht Hb) as (_ & x & y & Hops & Hx & Hy). rewrite Hops in Ha.
  apply mapM_Some_1 in Ha. apply Forall2_cons_inv_l in Ha as (a & l & Ha & Hl & ->).
  apply Forall2_cons_inv_l in Hl as (b & l' & Hb' & Hl & ->). apply Forall2_nil_inv_l in Hl as ->.
  destruct (operand_value _ _ _ _ Hx He Ha) as (za & -> & ?). destruct (operand_value _ _ _ _ Hy He Hb') as (zb & -> & ?).
  by exists za, zb.
Qed.

(** The one operand of a copy or a constant. *)
Lemma unary_args i e args a : env_ok e → operands i = [a] → operand_ok (result_type i) a →
  mapM (arg_of e) (operands i) = Some args → ∃ z, args = [Val z] ∧ arg_of e a = Some (Val z) ∧ in_range (result_type i) z.
Proof.
  intros He Hops Ha. rewrite Hops. intros Hm%mapM_Some_1. apply Forall2_cons_inv_l in Hm as (x & l & Hx & Hl & ->).
  apply Forall2_nil_inv_l in Hl as ->. destruct (operand_value _ _ _ _ Ha He Hx) as (z & -> & ?). by exists z.
Qed.

Lemma value_range i e w w' z : other_ranges → typed i → env_ok e → value i e w = Some (w', z) → in_range (result_type i) z.
Proof.
  intros Hr Ht He Hv. unfold value in Hv. destruct (mapM (arg_of e) (operands i)) as [args|] eqn:Hargs; [|done].
  cbn [mbind option_bind] in Hv. destruct (binary (iop i)) eqn:Hb.
  - destruct (binary_args i e args Ht He Hb Hargs) as (a & b & -> & Ha & Hb'). destruct (ty_binary i Ht Hb) as [Hint _].
    destruct (decide (iop i = Udiv)) as [Hu|Hu].
    + rewrite Hu in Hv. simpl in Hv. case_match; [done|]. injection Hv as _ <-. apply in_range_signed; [done|]. apply signed_range, width_pos.
    + destruct (arith (iop i) (width (result_type i))) as [f|] eqn:Hf; [|by destruct (iop i)].
      assert (Hm : meaning (iop i) (result_type i) [Val a; Val b] w = Some (w, f a b)) by (destruct (iop i); simplify_eq/=; done).
      rewrite Hm in Hv. injection Hv as _ <-. by eapply arith_range.
  - destruct (decide (iop i = Copy ∨ iop i = Iconst32 ∨ iop i = Iconst64)) as [Hc|Hc].
    + assert (Hone : ∃ a, operands i = [a] ∧ operand_ok (result_type i) a).
      { destruct Hc as [Hc|Hc]; [by apply (ty_copy i Ht)|]. destruct (ty_const i Ht Hc) as (a & ? & _ & ?). by exists a. }
      destruct Hone as (a & Hops & Ha). destruct (unary_args i e args a He Hops Ha Hargs) as (x & -> & _ & Hx).
      assert (Hm : meaning (iop i) (result_type i) [Val x] w = Some (w, x)) by (destruct Hc as [->|[-> | ->]]; done).
      rewrite Hm in Hv. by injection Hv as _ <-.
    + eapply Hr. instantiate (1 := w'). instantiate (1 := w). instantiate (1 := args). instantiate (1 := iop i).
      rewrite <- Hv. destruct (iop i); simplify_eq/=; try done; try (exfalso; tauto); repeat case_match; done.
Qed.

Lemma set_dest_ok i e w w' z : other_ranges → typed i → env_ok e → value i e w = Some (w', z) → env_ok (set_dest (dest i) z e).
Proof.
  intros Hr Ht He Hv. destruct (dest i) as [d|] eqn:Hd; [|done]. intros v x. simpl. rewrite lookup_insert_Some.
  intros [[<- <-]|[_ Hx]]; [|by apply (He v)]. rewrite (ty_dest i Ht d Hd). by eapply value_range.
Qed.

(** ** Passes that rewrite one instruction at a time *)

Record improves (p : IrInst → IrInst) : Prop := {
  im_typed i : typed i → typed (p i);
  im_dest i : dest (p i) = dest i;
  im_exits i : typed i → exits (iop i) = true → p i = i;
  im_stays i : typed i → exits (iop i) = false → exits (iop (p i)) = false;
  im_value i e w r : typed i → env_ok e → exits (iop i) = false → value i e w = Some r → value (p i) e w = Some r;
}.

Lemma improves_run p l : other_ranges → improves p → Forall typed l → ∀ e w o, env_ok e → run l e w = Some o → finishes o →
  run (p <$> l) e w = Some o.
Proof.
  intros Hr Hp. induction l as [|i l IH]; intros Hl e w o He Hrun Hf; [done|]. apply Forall_cons in Hl as [Hi Hl].
  rewrite fmap_cons. destruct (exits (iop i)) eqn:Hx.
  - rewrite (im_exits p Hp i Hi Hx). cbn [run] in Hrun |- *. destruct (mapM (arg_of e) (operands i)); [|done].
    by destruct (iop i).
  - destruct (run_value i l e w o Hx Hrun Hf) as (w' & z & Hv & Hrest).
    rewrite (value_run _ _ _ _ w' z (im_stays p Hp i Hi Hx) (im_value p Hp i e w _ Hi He Hx Hv)). rewrite (im_dest p Hp).
    apply IH; [done| |done|done]. by eapply set_dest_ok.
Qed.

(** A rewriting of binary instructions into others that compute the same. *)
Lemma improves_binary p : (∀ i, binary (iop i) = false → p i = i) → (∀ i, dest (p i) = dest i) →
  (∀ i, typed i → binary (iop i) = true → typed (p i) ∧ exits (iop (p i)) = false ∧
     ∀ e w r, env_ok e → value i e w = Some r → value (p i) e w = Some r) → improves p.
Proof.
  intros Hid Hd Hp. constructor; [|done|..].
  - intros i Hi. destruct (binary (iop i)) eqn:Hb; [by apply Hp|by rewrite Hid].
  - intros i Hi Hx. apply Hid. by destruct (iop i).
  - intros i Hi Hx. destruct (binary (iop i)) eqn:Hb; [by apply Hp|by rewrite Hid].
  - intros i e w r Hi He Hx Hv. destruct (binary (iop i)) eqn:Hb; [by apply (Hp i Hi Hb)|by rewrite Hid].
Qed.

Lemma value_one o t d x e w : value (mkInst o t d [x]) e w = (a ← arg_of e x; meaning o t [a] w).
Proof. unfold value. simpl. by destruct (arg_of e x). Qed.
Lemma value_two o t d x y e w : value (mkInst o t d [x; y]) e w = (a ← arg_of e x; b ← arg_of e y; meaning o t [a; b] w).
Proof. unfold value. simpl. destruct (arg_of e x); [|done]. by destruct (arg_of e y). Qed.

(** An instruction whose value is the constant [z]. *)
Lemma const_typed t d z : (∀ v, d = Some v → Γ v = t) → t = TI32 → is_signed 32 z → typed (mkInst Iconst32 t d [Imm32 z]).
Proof. intros Hd Ht Hz. constructor; simpl; try done. intros _. by exists (Imm32 z). Qed.
Lemma copy_typed t d x : (∀ v, d = Some v → Γ v = t) → operand_ok t x → typed (mkInst Copy t d [x]).
Proof. intros Hd Hx. constructor; simpl; try done; [|by intros [?|?]]. intros _. by exists x. Qed.
Lemma binary_typed o t d x y : (∀ v, d = Some v → Γ v = t) → binary o = true → is_int t → operand_ok t x → operand_ok t y →
  typed (mkInst o t d [x; y]).
Proof.
  intros Hd Hb Ht Hx Hy. constructor; simpl; try done.
  - intros _. split; [done|]. by exists x, y.
  - intros ->. done.
  - by intros [-> | ->].
Qed.

(** A binary instruction, taken apart. *)
Lemma binary_inv i : typed i → binary (iop i) = true → ∃ o t d x y, i = mkInst o t d [x; y] ∧ binary o = true ∧ is_int t ∧
  (∀ v, d = Some v → Γ v = t) ∧ operand_ok t x ∧ operand_ok t y.
Proof.
  intros Hi Hb. destruct (ty_binary i Hi Hb) as (Ht & x & y & Hops & Hx & Hy). pose proof (ty_dest i Hi) as Hd.
  destruct i as [o t d ops]. simpl in *. subst ops. by exists o, t, d, x, y.
Qed.

Lemma fold_dest i : dest (fold_inst i) = dest i.
Proof.
  unfold fold_inst, try_fold_constant. destruct (operands i) as [|[] [|[] []]]; try done.
  destruct (dest i) as [d|] eqn:Hd; destruct (iop i); simpl; by rewrite ?Hd.
Qed.

Lemma improves_fold : improves fold_inst.
Proof.
  apply improves_binary; [|apply fold_dest|].
  - intros i Hb. unfold fold_inst, try_fold_constant. destruct (operands i) as [|[] [|[] []]]; try done. by destruct (iop i).
  - intros i Hi Hb. destruct (binary_inv i Hi Hb) as (o & t & d & x & y & -> & Ho & Ht & Hd & Hx & Hy). clear Hb.
    unfold fold_inst, try_fold_constant. cbn [operands dest iop].
    assert (Hid : typed (mkInst o t d [x; y]) ∧ exits o = false ∧ ∀ e w r, env_ok e →
      value (mkInst o t d [x; y]) e w = Some r → value (mkInst o t d [x; y]) e w = Some r) by (split_and!; [done|by destruct o|done]).
    destruct x as [|a| | | | | |]; try exact Hid. destruct y as [|b| | | | | |]; try exact Hid.
    destruct Hx as [-> Ha], Hy as [_ Hb]. destruct d as [d|]; [|by destruct o].
    assert (Hfold : ∀ f, arith o 32 = Some f → typed (mkInst Iconst32 TI32 (Some d) [Imm32 (f a b)]) ∧ exits Iconst32 = false ∧
      ∀ e w r, env_ok e → value (mkInst o TI32 (Some d) [Imm32 a; Imm32 b]) e w = Some r → value (mkInst Iconst32 TI32 (Some d) [Imm32 (f a b)]) e w = Some r).
    { intros f Hf. split_and!; [|done|].
      - apply const_typed; [done..|]. by apply (arith_range o TI32 f a b Ht Hf).
      - intros e w r _. rewrite value_one, value_two. simpl. by destruct o; simplify_eq/=. }
    destruct o; first [done|exact Hid|exact (Hfold _ eq_refl)].
Qed.

(** ** Powers of two *)

Lemma trailing_zeros_pow k : 0 ≤ k < 32 → trailing_zeros (2 ^ k) = k.
Proof.
  intros Hk. assert (Hall : Forall (λ n, trailing_zeros (2 ^ Z.of_nat n) = Z.of_nat n) (seq 0 32)) by (vm_compute; repeat constructor).
  rewrite Forall_forall in Hall. rewrite <- (Z2Nat.id k) by lia. apply Hall. apply elem_of_seq. lia.
Qed.

Lemma power_of_two n : is_power_of_two n = true → is_signed 32 n → ∃ k, 0 ≤ k < 31 ∧ n = 2 ^ k ∧ trailing_zeros (u32 n) = k.
Proof.
  unfold is_power_of_two. rewrite andb_true_iff, Z.ltb_lt, Z.eqb_eq. intros [Hpos Hland] [_ Hn]. simpl in Hn.
  exists (Z.log2 n). assert (Hl : Z.log2 n < 31) by (apply Z.log2_lt_pow2; lia). pose proof (Z.log2_nonneg n).
  assert (Hp : n = 2 ^ Z.log2 n).
  { pose proof (Z.log2_spec n Hpos) as [Hle Hlt]. destruct (decide (n = 2 ^ Z.log2 n)) as [|Hne]; [done|]. exfalso.
    assert (Hbit : Z.testbit (Z.land n (n - 1)) (Z.log2 n) = true).
    { rewrite Z.land_spec, Z.bit_log2 by done. replace (Z.log2 n) with (Z.log2 (n - 1)); [apply Z.bit_log2; lia|].
      apply Z.log2_unique; [done|]. lia. }
    by rewrite Hland, Z.testbit_0_l in Hbit. }
  split_and!; [done|done|done|]. assert (Hu : u32 n = n) by (apply wrap_small; unfold is_word; lia).
  rewrite Hu, Hp at 1. rewrite trailing_zeros_pow by lia. done.
Qed.

Lemma mul_shift a k : 0 ≤ k < 32 → shl_signed 32 a k = signed 32 (a * 2 ^ k).
Proof.
  intros Hk. unfold shl_signed. rewrite (wrap_small 32 k) by (unfold is_word; lia). rewrite Z.mod_small by lia.
  by rewrite Z.shiftl_mul_pow2 by lia.
Qed.

Lemma div_shift a k : 0 ≤ k < 31 → Z.shiftr (wrap 32 a) (wrap 32 k mod 32) = wrap 32 a / wrap 32 (2 ^ k).
Proof.
  intros Hk. rewrite (wrap_small 32 k) by (unfold is_word; lia). rewrite Z.mod_small by lia.
  assert (2 ^ k < 2 ^ 31) by (apply Z.pow_lt_mono_r; lia). pose proof (Z.pow_pos_nonneg 2 k ltac:(lia) ltac:(lia)).
  rewrite (wrap_small 32 (2 ^ k)) by (unfold is_word; lia). by rewrite Z.shiftr_div_pow2 by lia.
Qed.

(** ** Strength reduction and simplification *)

Lemma reduce_dest i : dest (reduce_inst i) = dest i.
Proof.
  assert (Hs : ∀ o j, dest (to_shift o j) = dest j) by (intros o j; unfold to_shift; repeat case_match; done).
  unfold reduce_inst. repeat case_decide; simpl; rewrite ?Hs; done.
Qed.

Lemma reduce_mul t d x y : reduce_inst (mkInst Imul t d [x; y]) =
  match y with
  | Imm32 v => if is_power_of_two v then mkInst Shl t d [x; Imm32 (trailing_zeros (u32 v))]
               else if decide (v = 0) then mkInst Iconst32 t d [Imm32 0] else mkInst Imul t d [x; y]
  | _ => mkInst Imul t d [x; y]
  end.
Proof.
  unfold reduce_inst. rewrite (decide_True _ _ (eq_refl Imul)). unfold to_shift at 1. cbn [second operands lookup list_lookup].
  destruct y as [v|v|v|v|v|v|v|v]; cbn; try done. destruct (is_power_of_two v); cbn; [done|].
  destruct (decide (v = 0)) as [->|Hv]; [done|]. by destruct v.
Qed.

Lemma reduce_div t d x y : reduce_inst (mkInst Udiv t d [x; y]) =
  match y with
  | Imm32 v => if is_power_of_two v then mkInst Ushr t d [x; Imm32 (trailing_zeros (u32 v))] else mkInst Udiv t d [x; y]
  | _ => mkInst Udiv t d [x; y]
  end.
Proof.
  assert (Hs : ∀ i, iop i = Udiv → reduce_inst i = to_shift Ushr i).
  { intros [o t' d' ops] Hi. simpl in Hi. subst o. set (i := mkInst _ _ _ _). assert (Hi : iop i = Udiv) by done.
    unfold reduce_inst. rewrite (decide_False (P := iop i = Imul)), (decide_True (P := iop i = Udiv)) by congruence.
    unfold to_shift. destruct (second i) as [[]|]; try destruct (is_power_of_two _); reflexivity. }
  rewrite Hs by done. by destruct y.
Qed.

Lemma reduce_add o t d x y : o = Iadd ∨ o = Isub → reduce_inst (mkInst o t d [x; y]) =
  if decide (y = Imm32 0) then mkInst Copy t d [x] else mkInst o t d [x; y].
Proof.
  intros Ho. unfold reduce_inst. destruct Ho as [-> | ->]; cbn; unfold second; cbn;
    (destruct (decide (y = Imm32 0)) as [->|Hy]; [done|]); destruct y as [|[]| | | | | |]; done.
Qed.

(** The instruction is replaced by another with the same value. *)
Definition better (i i' : IrInst) : Prop := typed i' ∧ exits (iop i') = false ∧
  ∀ e w r, env_ok e → value i e w = Some r → value i' e w = Some r.

Lemma better_refl i : typed i → exits (iop i) = false → better i i.
Proof. by intros ??. Qed.

(** One register or constant against an immediate. *)
Lemma better_imm o o' t d x v ops : binary o = true → exits o' = false → operand_ok t x → is_signed 32 v →
  typed (mkInst o' t d ops) →
  (∀ e w a r, arg_of e x = Some (Val a) → in_range t a → meaning o t [Val a; Val v] w = Some r → value (mkInst o' t d ops) e w = Some r) →
  better (mkInst o t d [x; Imm32 v]) (mkInst o' t d ops).
Proof.
  intros Hb Ho' Hx Hv Ht Hm. split_and!; [done..|]. intros e w r He. rewrite value_two.
  destruct (arg_of e x) as [a|] eqn:Ha; [|done]. destruct (operand_value t x e a Hx He Ha) as (z & -> & Hz).
  cbn [mbind option_bind arg_of]. by apply Hm.
Qed.

Lemma improves_reduce : improves reduce_inst.
Proof.
  apply improves_binary; [|apply reduce_dest|].
  - intros [o t d ops] Hb. simpl in Hb. by destruct o.
  - intros i Hi Hb. destruct (binary_inv i Hi Hb) as (o & t & d & x & y & -> & Ho & Ht & Hd & Hx & Hy). clear Hb.
    change (better (mkInst o t d [x; y]) (reduce_inst (mkInst o t d [x; y]))).
    assert (Hid : better (mkInst o t d [x; y]) (mkInst o t d [x; y])) by (apply better_refl; [done|by destruct o]).
    destruct (decide (o = Imul)) as [->|Hmul]; [|destruct (decide (o = Udiv)) as [->|Hdiv]; [|
      destruct (decide (o = Iadd ∨ o = Isub)) as [Has|Has]; [|by destruct o; try exact Hid; naive_solver]]].
    + rewrite reduce_mul. destruct y as [|v| | | | | |]; try exact Hid. destruct Hy as [-> Hv].
      destruct (is_power_of_two v) eqn:Hpow; [|case_decide as Hz; [subst v|exact Hid]].
      * destruct (power_of_two v Hpow Hv) as (k & Hk & Hvk & Htz). rewrite Htz. apply better_imm; [done..| |].
        -- apply binary_typed; try done. split; [done|]. split; simpl; lia.
        -- intros e w a r Ha _. rewrite value_two, Ha. simpl. rewrite mul_shift by lia. by rewrite <- Hvk.
      * apply better_imm; [done..|by apply const_typed|]. intros e w a r _ _. rewrite value_one. simpl. by rewrite Z.mul_0_r.
    + rewrite reduce_div. destruct y as [|v| | | | | |]; try exact Hid. destruct Hy as [-> Hv].
      destruct (is_power_of_two v) eqn:Hpow; [|exact Hid]. destruct (power_of_two v Hpow Hv) as (k & Hk & Hvk & Htz).
      rewrite Htz. apply better_imm; [done..| |].
      * apply binary_typed; try done. split; [done|]. split; simpl; lia.
      * intros e w a r Ha _. rewrite value_two, Ha. cbn [mbind option_bind arg_of meaning width arith].
        case_match; [done|]. rewrite div_shift by lia. by rewrite <- Hvk.
    + rewrite reduce_add by done. case_decide as Hz; [subst y|exact Hid]. destruct Hy as [-> Hv].
      apply better_imm; [by destruct Has as [-> | ->]|done..|by apply copy_typed|].
      intros e w a r Ha Hr. rewrite value_one, Ha. simpl in Hr. destruct Has as [-> | ->]; simpl; rewrite ?Z.add_0_r, ?Z.sub_0_r; by rewrite signed_small.
Qed.

Lemma simplify_dest i : dest (simplify_inst i) = dest i.
Proof. unfold simplify_inst. repeat case_match; done. Qed.

Lemma improves_simplify : improves simplify_inst.
Proof.
  apply improves_binary; [|apply simplify_dest|].
  - intros [o t d ops] Hb. simpl in Hb. by destruct o.
  - intros i Hi Hb. destruct (binary_inv i Hi Hb) as (o & t & d & x & y & -> & Ho & Ht & Hd & Hx & Hy). clear Hb.
    change (better (mkInst o t d [x; y]) (simplify_inst (mkInst o t d [x; y]))).
    assert (Hid : better (mkInst o t d [x; y]) (mkInst o t d [x; y])) by (apply better_refl; [done|by destruct o]).
    destruct y as [|v| | | | | |]; try (by destruct o; exact Hid). destruct Hy as [-> Hv].
    destruct (decide (v = 0)) as [->|Hz]; [|destruct (decide (v = -1)) as [->|Hm]; [|]].
    + destruct o; try exact Hid; unfold simplify_inst, second, to_const, to_copy; cbn [iop operands result_type dest lookup list_lookup removelast]; (apply better_imm; [done..|by first [apply const_typed|apply copy_typed]|]);
        intros e w a r Ha Hr; rewrite value_one; simpl; rewrite ?Ha; simpl; by rewrite ?Z.land_0_r, ?Z.lor_0_r, ?Z.lxor_0_r.
    + destruct o; try exact Hid; unfold simplify_inst, second, to_const, to_copy; cbn [iop operands result_type dest lookup list_lookup removelast]; (apply better_imm; [done..|by first [apply const_typed|apply copy_typed]|]);
        intros e w a r Ha Hr; rewrite value_one; simpl; rewrite ?Ha; simpl; by rewrite ?Z.land_m1_r, ?Z.lor_m1_r.
    + assert (Hs : simplify_inst (mkInst o TI32 d [x; Imm32 v]) = mkInst o TI32 d [x; Imm32 v]); [|by rewrite Hs].
      unfold simplify_inst. cbn. destruct o; try done; destruct v as [|p|[p|p|]]; done.
Qed.

(** ** Dead code *)

Definition agree (U : gset Z) (e e' : gmap Z Z) : Prop := ∀ v, v ∈ U → e !! v = e' !! v.

Lemma args_agree U e e' ops : (∀ v, v ∈ omap reg_of ops → v ∈ U) → agree U e e' → mapM (arg_of e) ops = mapM (arg_of e') ops.
Proof.
  intros Hu Ha. induction ops as [|o ops IH]; [done|]. simpl. rewrite IH by (intros v Hv; apply Hu; simpl; destruct (reg_of o); [by right|done]).
  assert (Ho : arg_of e o = arg_of e' o); [|by rewrite Ho]. destruct o; try done. simpl. rewrite (Ha v); [done|]. apply Hu. by left.
Qed.

Lemma value_pure i e w w' z : other_pure → has_side_effects i = false → is_terminator i = false → value i e w = Some (w', z) → w' = w.
Proof.
  intros Hp Hs Ht. unfold value. destruct (mapM (arg_of e) (operands i)) as [args|]; [|done]. cbn [mbind option_bind].
  assert (Hother : other (iop i) (result_type i) args w = Some (w', z) → w' = w) by (by apply Hp).
  unfold meaning. intros Hm. destruct (iop i); repeat case_match; simplify_eq; try done; by apply Hother.
Qed.

Lemma set_dest_agree U d z e e' : agree U e e' → agree U (set_dest d z e) (set_dest d z e').
Proof.
  intros Ha. destruct d as [d|]; [|done]. intros v Hv. simpl. destruct (decide (v = d)) as [->|Hne]; [by rewrite !lookup_insert_eq|].
  rewrite !lookup_insert_ne by done. by apply Ha.
Qed.

Lemma dead_run U l : other_pure → (∀ i, i ∈ l → ∀ v, v ∈ uses i → v ∈ U) → ∀ e e' w o, agree U e e' →
  run l e w = Some o → finishes o → run (List.filter (keep U) l) e' w = Some o.
Proof.
  intros Hp. induction l as [|i l IH]; intros Hu e e' w o Ha Hrun Hf; [done|].
  assert (Hargs : mapM (arg_of e) (operands i) = mapM (arg_of e') (operands i)) by (apply (args_agree U); [apply Hu; by left|done]).
  assert (Hu' : ∀ i, i ∈ l → ∀ v, v ∈ uses i → v ∈ U) by (intros j Hj; apply Hu; by right).
  cbn [List.filter]. destruct (keep U i) eqn:Hk.
  - destruct (exits (iop i)) eqn:Hx.
    + cbn [run] in Hrun |- *. rewrite <- Hargs. destruct (mapM (arg_of e) (operands i)); [|done]. by destruct (iop i).
    + destruct (run_value i l e w o Hx Hrun Hf) as (w' & z & Hv & Hrest). rewrite (value_run i _ e' w w' z Hx).
      * apply (IH Hu' (set_dest (dest i) z e)); [by apply set_dest_agree|done|done].
      * unfold value in *. by rewrite <- Hargs.
  - unfold keep in Hk. apply orb_false_iff in Hk as [[Hs Ht]%orb_false_iff Hd].
    destruct (run_value i l e w o) as (w' & z & Hv & Hrest); [by unfold is_terminator in Ht; destruct (iop i)|done|done|].
    rewrite <- (value_pure i e w w' z Hp Hs Ht Hv). apply (IH Hu' (set_dest (dest i) z e)); [|done|done].
    destruct (dest i) as [d|]; [|done]. apply bool_decide_eq_false in Hd. intros v Hvu. simpl. rewrite lookup_insert_ne by congruence. by apply Ha.
Qed.

Lemma code_map_code g f : (∀ l1 l2, g (l1 ++ l2) = g l1 ++ g l2) → g [] = [] → code (map_code g f) = g (code f).
Proof.
  intros Happ Hnil. unfold code, map_code. simpl. induction (blocks f) as [|b bs IH]; [done|]. rewrite !fmap_cons. simpl. by rewrite IH, Happ.
Qed.
Lemma code_fmap p f : code (map_code (fmap p) f) = p <$> code f.
Proof. apply code_map_code; [apply fmap_app|done]. Qed.
Lemma code_filter p f : code (map_code (List.filter p) f) = List.filter p (code f).
Proof. apply code_map_code; [apply List.filter_app|done]. Qed.

Lemma used_regs_spec f i v : i ∈ code f → v ∈ uses i → v ∈ used_regs f.
Proof.
  intros Hi Hv. unfold used_regs. apply elem_of_list_to_set, list_elem_of_join. exists (uses i). split; [done|]. by apply list_elem_of_fmap_2.
Qed.

(** ** Copies *)

(** Straight-line code in static single assignment form: registers are read after they
    are written, and written once. *)
Fixpoint ssa (D : gset Z) (l : list IrInst) : Prop :=
  match l with
  | [] => True
  | i :: l' => (∀ v, v ∈ uses i → v ∈ D) ∧
      match dest i with Some d => (d ∉ D) ∧ ssa ({[d]} ∪ D) l' | None => ssa D l' end
  end.

Lemma ssa_fmap p D l : (∀ i, dest (p i) = dest i) → (∀ i v, v ∈ uses (p i) → v ∈ uses i) → ssa D l → ssa D (p <$> l).
Proof.
  intros Hd Hu. revert D. induction l as [|i l IH]; intros D; [done|]. simpl. rewrite Hd. intros [Hi Hl]. split; [by eauto|].
  destruct (dest i); [destruct Hl; split; [done|]|]; by apply IH.
Qed.

Definition copy_source (i : IrInst) : option Z := if decide (iop i = Copy) then o ← head (operands i); reg_of o else None.

Lemma copy_entry_lookup i m v : copy_entry i m !! v = match dest i, copy_source i with
  | Some d, Some s => if decide (v = d) then Some s else m !! v | _, _ => m !! v end.
Proof.
  unfold copy_entry, copy_source. destruct (dest i) as [d|]; case_decide; try done.
  destruct (head (operands i)) as [[]|]; simpl; try done. case_decide as Hv; [subst v; by rewrite lookup_insert_eq|by rewrite lookup_insert_ne].
Qed.

Lemma copy_fold l : ∀ D m0, ssa D l → (∀ v s, m0 !! v = Some s → v ∈ D) → let m := foldl (λ m i, copy_entry i m) m0 l in
  (∀ v, v ∈ D → m !! v = m0 !! v) ∧ (∀ i d, i ∈ l → dest i = Some d → m !! d = copy_source i) ∧
  (∀ v s, m !! v = Some s → m0 !! v = Some s ∨ ∃ i, i ∈ l ∧ dest i = Some v ∧ copy_source i = Some s).
Proof.
  induction l as [|i l IH]; intros D m0 Hssa Hm0; cbn [foldl].
  { split_and!; [done| |by left]. intros i d Hi. by apply elem_of_nil in Hi. }
  destruct Hssa as [_ Hssa]. destruct (dest i) as [d|] eqn:Hd.
  - destruct Hssa as [HdD Hssa]. destruct (IH ({[d]} ∪ D) (copy_entry i m0) Hssa) as (H1 & H2 & H3).
    { intros v s. rewrite copy_entry_lookup, Hd. destruct (copy_source i); [case_decide; [subst; set_solver|]|]; intros Hs%Hm0; set_solver. }
    assert (Hlook : ∀ v, copy_entry i m0 !! v = match copy_source i with Some s => if decide (v = d) then Some s else m0 !! v | None => m0 !! v end)
      by (intros v; rewrite copy_entry_lookup, Hd; by destruct (copy_source i)).
    split_and!.
    + intros v Hv. rewrite H1, Hlook by set_solver. destruct (copy_source i); [|done]. rewrite decide_False; [done|]. by intros ->.
    + intros j d' [->|Hj]%elem_of_cons Hd'; [|by eapply H2]. rewrite Hd in Hd'. injection Hd' as <-. rewrite H1, Hlook by set_solver.
      destruct (copy_source i); [by rewrite decide_True|]. apply eq_None_not_Some. intros [s Hs%Hm0]. done.
    + intros v s [Hs|(j & Hj & Hdj & Hs)]%H3; [|right; exists j; split; [by right|done]]. rewrite Hlook in Hs.
      destruct (copy_source i) as [s'|] eqn:Hsrc; [case_decide as Hv; [|by left]|by left]. injection Hs as ->. subst v. right. exists i. split; [by left|done].
  - destruct (IH D (copy_entry i m0) Hssa) as (H1 & H2 & H3); [intros v s; rewrite copy_entry_lookup, Hd; apply Hm0|].
    split_and!.
    + intros v Hv. by rewrite H1, copy_entry_lookup, Hd by done.
    + intros j d' [->|Hj]%elem_of_cons Hd'; [congruence|by eapply H2].
    + intros v s [Hs|(j & Hj & Hdj & Hs)]%H3; [left; by rewrite copy_entry_lookup, Hd in Hs|right; exists j; split; [by right|done]].
Qed.

(** Chains of copies end: each link goes back to a register written before. *)
Definition descends (rank : Z → nat) (m : gmap Z Z) : Prop := ∀ v s, m !! v = Some s → (rank s < rank v)%nat.

Lemma follow_delete rank m d k : descends rank m → ∀ v r, (rank v < rank d)%nat → follow k (delete d m) v = Some r → follow k m v = Some r.
Proof.
  intros Hr. induction k as [|k IH]; intros v r Hv; [done|]. cbn [follow]. rewrite lookup_delete_ne by (intros ->; lia).
  destruct (m !! v) as [s|] eqn:Hs; [|done]. apply IH. specialize (Hr v s Hs). lia.
Qed.

Lemma follow_total rank m v : descends rank m → ∃ r, follow (S (size m)) m v = Some r.
Proof.
  intros Hr. remember (size m) as n eqn:Hn. revert m v Hr Hn. induction n as [|n IH]; intros m v Hr Hn; cbn [follow].
  - symmetry in Hn. apply map_size_empty_inv in Hn as ->. rewrite lookup_empty. by eexists.
  - destruct (m !! v) as [s|] eqn:Hs; [|by eexists]. destruct (IH (delete v m) s) as [r Hf].
    + intros u t [_ Hu]%lookup_delete_Some. by apply Hr.
    + rewrite map_size_delete_Some by done. lia.
    + exists r. by apply (follow_delete rank m v (S n) Hr s r (Hr v s Hs)).
Qed.

Definition root (m : gmap Z Z) (v : Z) : Z := default v (follow (S (size m)) m v).
Definition root_operand (m : gmap Z Z) (o : Operand) : Operand := match o with Reg v => Reg (root m v) | _ => o end.
Definition root_inst (m : gmap Z Z) (i : IrInst) : IrInst := mkInst (iop i) (result_type i) (dest i) (root_operand m <$> operands i).

Lemma mapM_total {A B} (f : A → option B) (g : A → B) l : (∀ x, f x = Some (g x)) → mapM f l = Some (g <$> l).
Proof. intros Hf. apply mapM_Some_2. induction l; constructor; done. Qed.

Lemma propagate_total rank f : descends rank (copy_map f) →
  propagate_copies f = Some (map_code (fmap (root_inst (copy_map f))) f).
Proof.
  intros Hr. set (m := copy_map f) in *.
  assert (Ho : ∀ o, propagate_operand m o = Some (root_operand m o)).
  { intros []; try done. unfold propagate_operand, root_operand, root. by destruct (follow_total rank m v Hr) as [r ->]. }
  assert (Hi : ∀ i, propagate_inst m i = Some (root_inst m i)).
  { intros i. unfold propagate_inst. rewrite (mapM_total (propagate_operand m) (root_operand m)); [done|]. intros o. apply Ho. }
  assert (Hb : ∀ b, propagate_block m b = Some (mkBlock (b_id b) (root_inst m <$> instructions b) (predecessors b) (successors b))).
  { intros b. unfold propagate_block. rewrite (mapM_total (propagate_inst m) (root_inst m)); [done|]. intros i. apply Hi. }
  unfold propagate_copies. fold m. erewrite mapM_total; [done|]. intros b. apply Hb.
Qed.

(** The root of a register shares what its copies share. *)
Lemma root_inv rank m (P : Z → Prop) v : descends rank m → (∀ u s, m !! u = Some s → P u → P s) → P v → P (root m v).
Proof.
  intros Hr Hstep. unfold root. destruct (follow_total rank m v Hr) as [r Hf]. rewrite Hf. simpl.
  revert Hf. generalize (S (size m)) as k. intros k. revert v. induction k as [|k IH]; intros v; [done|]. cbn [follow].
  destruct (m !! v) as [s|] eqn:Hs; [|by intros [= <-]]. intros Hf Hv. apply (IH s Hf). by eapply Hstep.
Qed.

(** Registers are ranked by where they are written. *)
Lemma ssa_rank l : ∀ D n r0, ssa D l → (∀ v, v ∈ D → (r0 v < n)%nat) → ∃ rank : Z → nat, (∀ v, v ∈ D → rank v = r0 v) ∧
  ∀ i d u, i ∈ l → dest i = Some d → u ∈ uses i → (rank u < rank d)%nat.
Proof.
  induction l as [|i l IH]; intros D n r0 Hssa Hr0; [exists r0; split; [done|]; intros ? ? ? Hi; by apply elem_of_nil in Hi|].
  destruct Hssa as [Huse Hssa]. destruct (dest i) as [d|] eqn:Hd.
  - destruct Hssa as [HdD Hssa]. destruct (IH ({[d]} ∪ D) (S n) (λ v, if decide (v = d) then n else r0 v) Hssa) as (rank & Hsame & Hrank).
    + intros v Hv. case_decide; [lia|]. assert (v ∈ D) as Hv' by set_solver. specialize (Hr0 v Hv'). lia.
    + exists rank. split; [intros v Hv; rewrite Hsame by set_solver; rewrite decide_False; [done|by intros ->]|].
      intros j d' u [->|Hj]%elem_of_cons Hd' Hu; [|by eapply Hrank]. rewrite Hd in Hd'. injection Hd' as <-.
      specialize (Huse u Hu). rewrite !Hsame by set_solver. rewrite (decide_True (P := d = d)) by done.
      rewrite decide_False by (by intros ->). by apply Hr0.
  - destruct (IH D n r0 Hssa Hr0) as (rank & Hsame & Hrank). exists rank. split; [done|].
    intros j d' u [->|Hj]%elem_of_cons Hd' Hu; [congruence|by eapply Hrank].
Qed.

Lemma copy_source_uses i s : copy_source i = Some s → s ∈ uses i.
Proof.
  unfold copy_source, uses. case_decide; [|done]. destruct (operands i) as [|[] os]; simpl; try done. intros [= ->]. by left.
Qed.

Lemma copy_map_descends f : ssa ∅ (code f) → ∃ rank, descends rank (copy_map f).
Proof.
  intros Hs. destruct (ssa_rank (code f) ∅ O (λ _, O) Hs) as (rank & _ & Hrank); [set_solver|]. exists rank. intros v s Hv.
  destruct (copy_fold (code f) ∅ ∅ Hs) as (_ & _ & H3); [by intros ?? ?%lookup_empty_Some|].
  destruct (H3 v s Hv) as [He%lookup_empty_Some|(i & Hi & Hd & Hc)]; [done|]. eapply Hrank; [done..|]. by apply copy_source_uses.
Qed.

(** While the code runs, a register already written equals the one it copies. *)
Lemma propagate_run rank m l : descends rank m → (∀ i d, i ∈ l → dest i = Some d → m !! d = copy_source i) → Forall typed l →
  ∀ D e w, ssa D l → (∀ v s, v ∈ D → m !! v = Some s → s ∈ D ∧ e !! v = e !! s) →
  run (root_inst m <$> l) e w = run l e w.
Proof.
  intros Hr. induction l as [|i l IH]; intros Hm Ht D e w Hssa He; [done|]. apply Forall_cons in Ht as [Hti Ht].
  destruct Hssa as [Huse Hssa].
  assert (Hroot : ∀ v, v ∈ D → e !! root m v = e !! v).
  { intros v Hv. apply (root_inv rank m (λ u, u ∈ D ∧ e !! u = e !! v) v Hr); [|done].
    intros u s Hs [Hu Heq]. destruct (He u s Hu Hs) as [Hsd Hes]. by rewrite <- Hes. }
  assert (Hargs : mapM (arg_of e) (root_operand m <$> operands i) = mapM (arg_of e) (operands i)).
  { unfold uses in Huse. clear -Hroot Huse. induction (operands i) as [|o ops IHo]; [done|]. rewrite fmap_cons. simpl.
    rewrite IHo by (intros v Hv; apply Huse; simpl; destruct (reg_of o); [by right|done]).
    assert (Ho : arg_of e (root_operand m o) = arg_of e o); [|by rewrite Ho]. destruct o; try done. simpl. rewrite Hroot; [done|].
    apply Huse. simpl. by left. }
  rewrite fmap_cons. cbn [run]. cbn [root_inst operands iop result_type dest]. rewrite Hargs.
  destruct (mapM (arg_of e) (operands i)) as [args|] eqn:Ha; [|done]. cbn [mbind option_bind].
  assert (Hrest : ∀ w' z, meaning (iop i) (result_type i) args w = Some (w', z) →
    run (root_inst m <$> l) (set_dest (dest i) z e) w' = run l (set_dest (dest i) z e) w').
  { intros w' z Hmean. destruct (dest i) as [d|] eqn:Hd.
    - destruct Hssa as [HdD Hssa]. apply (IH ltac:(intros j d' Hj; apply Hm; by right) Ht ({[d]} ∪ D)); [done|].
      intros v s Hv Hs. simpl. destruct (decide (v = d)) as [->|Hvd].
      + rewrite (Hm i d) in Hs by (done || by left). pose proof (Huse s (copy_source_uses i s Hs)) as HsD. split; [set_solver|].
        rewrite lookup_insert_eq, lookup_insert_ne by (intros ->; done).
        unfold copy_source in Hs. case_decide as Hc; [|done]. destruct (ty_copy i Hti Hc) as (x & Hops & Hx).
        rewrite Hops in Hs, Ha. destruct x; try done. simpl in Hs. injection Hs as ->. simpl in Ha.
        destruct (e !! s) as [zs|] eqn:Hes; [|done]. simpl in Ha. injection Ha as <-. rewrite Hc in Hmean. simpl in Hmean. congruence.
      + assert (v ∈ D) as HvD by set_solver. destruct (He v s HvD Hs) as [HsD Hes]. split; [set_solver|].
        rewrite !lookup_insert_ne; [done|congruence..].
    - apply (IH ltac:(intros j d' Hj; apply Hm; by right) Ht D); done. }
  destruct (iop i); try done; destruct (meaning _ _ args w) as [[w' z]|]; try done; by apply Hrest.
Qed.

Lemma propagate_typed rank m l : descends rank m → (∀ v s, m !! v = Some s → Γ s = Γ v) → Forall typed l → Forall typed (root_inst m <$> l).
Proof.
  intros Hr Hm Hl. rewrite Forall_fmap. eapply Forall_impl; [exact Hl|]. intros i [Hd Hb Hc Hk].
  assert (Hop : ∀ t o, operand_ok t o → operand_ok t (root_operand m o)).
  { intros t o Ho. destruct o; try done. simpl in *. apply (root_inv rank m (λ u, Γ u = t) v Hr); [|done].
    intros u s Hs <-. by apply Hm. }
  constructor; unfold compose; cbn [root_inst dest result_type iop operands]; [done|..].
  - intros (Ht & a & b & -> & Ha & Hb')%Hb. split; [done|]. exists (root_operand m a), (root_operand m b). by split_and!; [|apply Hop|apply Hop].
  - intros (a & -> & Ha)%Hc. exists (root_operand m a). split; [done|by apply Hop].
  - intros (a & -> & Hreg & Ha)%Hk. exists (root_operand m a). split_and!; [done|by destruct a|by apply Hop].
Qed.

(** ** The optimiser *)

(** What [f] finishes with, [f'] finishes with. *)
Definition keeps_results (f f' : IrFunction) : Prop :=
  ∀ w o, run (code f) ∅ w = Some o → finishes o → run (code f') ∅ w = Some o.

Lemma keeps_results_trans f f' f'' : keeps_results f f' → keeps_results f' f'' → keeps_results f f''.
Proof. intros H1 H2 w o Hr Hf. apply H2; [|done]. by apply H1. Qed.

Lemma local_keeps p f : other_ranges → improves p → Forall typed (code f) →
  keeps_results f (map_code (fmap p) f) ∧ Forall typed (code (map_code (fmap p) f)).
Proof.
  intros Hr Hp Ht. split.
  - intros w o Hrun Hf. rewrite code_fmap. apply improves_run; [done..| |done|done]. by intros v z ?%lookup_empty_Some.
  - rewrite code_fmap, Forall_fmap. eapply Forall_impl; [exact Ht|]. apply (im_typed p Hp).
Qed.

Lemma dead_keeps f : other_pure → Forall typed (code f) →
  keeps_results f (eliminate_dead_code f) ∧ Forall typed (code (eliminate_dead_code f)).
Proof.
  intros Hp Ht. unfold eliminate_dead_code, keeps_results. rewrite code_filter. split.
  - intros w o. apply dead_run; [done| |by intros v Hv]. intros i Hi v Hv. by eapply used_regs_spec.
  - rewrite Forall_forall in *. intros i Hi. apply Ht. apply list_elem_of_In, filter_In in Hi as [Hi _]. by apply list_elem_of_In.
Qed.

Lemma propagate_keeps f : Forall typed (code f) → ssa ∅ (code f) → ∃ f', propagate_copies f = Some f' ∧
  keeps_results f f' ∧ Forall typed (code f').
Proof.
  intros Ht Hs. destruct (copy_map_descends f Hs) as [rank Hr].
  destruct (copy_fold (code f) ∅ ∅ Hs) as (_ & Hsrc & Hfrom); [by intros ?? ?%lookup_empty_Some|].
  rewrite (propagate_total rank f Hr). eexists. split; [done|]. unfold keeps_results. rewrite code_fmap. split.
  - intros w o Hrun _. rewrite (propagate_run rank (copy_map f) (code f) Hr Hsrc Ht ∅); [done..|]. intros v s Hv. set_solver.
  - apply (propagate_typed rank); [done| |done]. intros v s Hv. destruct (Hfrom v s Hv) as [?%lookup_empty_Some|(i & Hi & Hd & Hc)]; [done|].
    rewrite Forall_forall in Ht. specialize (Ht i Hi). rewrite (ty_dest i Ht v Hd). unfold copy_source in Hc. case_decide as Hcopy; [|done].
    destruct (ty_copy i Ht Hcopy) as (x & Hops & Hx). rewrite Hops in Hc. destruct x; try done. simpl in Hc. by injection Hc as <-.
Qed.

Lemma fold_uses i v : v ∈ uses (fold_inst i) → v ∈ uses i.
Proof.
  unfold fold_inst. destruct (try_fold_constant i) as [i'|] eqn:Hf; [|done]. unfold try_fold_constant in Hf.
  destruct (operands i) as [|[] [|[] []]]; try done. destruct (dest i); destruct (iop i); simplify_eq/=; intros Hv; by apply elem_of_nil in Hv.
Qed.

(** [C37] The optimiser keeps the meaning of straight-line code: on well-typed code in static
    single assignment form, all its passes in their order end, copy chains included, and
    the optimised code returns the same values and leaves the same world whenever the code
    finishes without a trap; so do the passes the compiler's configuration selects. *)
Theorem optimiser_correct f folding dead : other_ranges → other_pure → Forall typed (code f) → ssa ∅ (code f) →
  (∃ f', optimize_all f = Some f' ∧ keeps_results f f') ∧ keeps_results f (optimize folding dead f).
Proof.
  intros Hr Hp Ht Hs. destruct (local_keeps fold_inst f Hr improves_fold Ht) as [K1 T1].
  fold (constant_fold f) in K1, T1. split.
  - destruct (propagate_keeps (constant_fold f)) as (f2 & Hf2 & K2 & T2); [done|unfold constant_fold; rewrite code_fmap; by apply ssa_fmap; [apply fold_dest|apply fold_uses|]|].
    destruct (local_keeps reduce_inst f2 Hr improves_reduce T2) as [K3 T3]. fold (reduce_strength f2) in K3, T3.
    destruct (local_keeps simplify_inst _ Hr improves_simplify T3) as [K4 T4]. fold (simplify_algebraic (reduce_strength f2)) in K4, T4.
    destruct (dead_keeps _ Hp T4) as [K5 T5]. destruct (local_keeps fold_inst _ Hr improves_fold T5) as [K6 T6].
    fold (constant_fold (eliminate_dead_code (simplify_algebraic (reduce_strength f2)))) in K6, T6.
    destruct (dead_keeps _ Hp T6) as [K7 _]. unfold optimize_all. rewrite Hf2. eexists. split; [done|].
    eapply keeps_results_trans; [exact K1|]. eapply keeps_results_trans; [exact K2|]. eapply keeps_results_trans; [exact K3|].
    eapply keeps_results_trans; [exact K4|]. eapply keeps_results_trans; [exact K5|]. by eapply keeps_results_trans.
  - unfold optimize. destruct folding, dead; [|done|..].
    + destruct (dead_keeps _ Hp T1) as [K2 _]. by eapply keeps_results_trans.
    + by destruct (dead_keeps f Hp Ht).
    + by intros w o.
Qed.
End meaning.
Arguments Falls {World}. Arguments Returns {World}. Arguments Traps {World}.

(** ** Examples *)

(** A world of stored values; every other instruction that the passes do not look into stops
    the code. *)
Definition store_only (o : IrOp) (t : IrType) (args : list Arg) (w : list Z) : option (list Z * Z) :=
  match o, args with Store, [Val z] => Some (w ++ [z], 0) | Nop, [] => Some (w, 0) | _, _ => None end.

Lemma store_only_ranges : other_ranges store_only.
Proof.
  intros o t args w w' z. unfold store_only. destruct o; try done; repeat case_match; intros [= _ <-]; destruct t; done.
Qed.
Lemma store_only_pure : other_pure store_only.
Proof. intros o t args w w' z. unfold store_only. destruct o; try done; repeat case_match; by intros _ _ [= <- _]. Qed.

Definition of_code (l : list IrInst) : IrFunction := with_blocks [mkBlock 0 l [] []] (IrFunction_new 0 (mkSig [] [])).
Definition op32 (o : IrOp) (d : Z) (l : list Operand) : IrInst := mkInst o TI32 (Some d) l.

Definition sample : IrFunction := of_code
  [op32 Iconst32 0 [Imm32 6]; op32 Copy 1 [Reg 0]; op32 Imul 2 [Reg 1; Imm32 8]; op32 Iadd 3 [Imm32 2; Imm32 3];
   op32 Iadd 4 [Reg 2; Imm32 0]; op32 Udiv 5 [Reg 4; Imm32 4]; op32 Isub 6 [Reg 5; Reg 3]; op32 And 7 [Reg 6; Imm32 (-1)];
   mkInst Store TVoid None [Reg 7]; mkInst Return TVoid None [Reg 6]].

Example sample_optimised : code <$> optimize_all sample = Some
  [op32 Iconst32 0 [Imm32 6]; op32 Shl 2 [Reg 0; Imm32 3]; op32 Iconst32 3 [Imm32 5];
   op32 Copy 4 [Reg 2]; op32 Ushr 5 [Reg 4; Imm32 2]; op32 Isub 6 [Reg 5; Reg 3]; op32 Copy 7 [Reg 6];
   mkInst Store TVoid None [Reg 7]; mkInst Return TVoid None [Reg 6]].
Proof. vm_compute. reflexivity. Qed.

Example sample_runs : run store_only (code sample) (∅ : gmap Z Z) [] = Some (Returns [Val 7] [7]).
Proof. vm_compute. reflexivity. Qed.

Lemma sample_typed : Forall (typed (λ _, TI32)) (code sample).
Proof.
  repeat constructor; simpl; try done; intros *; try (intros [[=]|[=]]); intros; try naive_solver;
    repeat first [split|eexists]; unfold is_int; try naive_solver; done.
Qed.

Lemma sample_ssa : ssa ∅ (code sample).
Proof. simpl. repeat match goal with |- _ ∧ _ => split end; try set_solver; intros v; rewrite ?elem_of_cons, ?elem_of_nil; set_solver. Qed.

Lemma optimiser_correct_witness : (∃ f', optimize_all sample = Some f' ∧ keeps_results store_only sample f') ∧
  keeps_results store_only sample (optimize true true sample).
Proof.
  apply (optimiser_correct store_only (λ _, TI32) sample true true store_only_ranges store_only_pure sample_typed sample_ssa).
Defined.

(** ** Where the passes go wrong *)

(** Two copies of each other, in code that is not in single assignment form, and the chain is
    followed for ever. *)
Lemma copy_cycle_hangs : propagate_copies (of_code [op32 Copy 0 [Reg 1]; op32 Copy 1 [Reg 0]; mkInst Return TVoid None [Reg 0]]) = None.
Proof. vm_compute. reflexivity. Qed.

(** 32-bit immediates in a 64-bit instruction are folded at 32 bits: 2^31 comes out
    negative. *)
Lemma fold_is_32_bits :
  run store_only [mkInst Iadd TI64 (Some 0) [Imm32 (2 ^ 31 - 1); Imm32 1]; mkInst Return TVoid None [Reg 0]] (∅ : gmap Z Z) [] =
    Some (Returns [Val (2 ^ 31)] []) ∧
  run store_only (code (constant_fold (of_code [mkInst Iadd TI64 (Some 0) [Imm32 (2 ^ 31 - 1); Imm32 1]; mkInst Return TVoid None [Reg 0]])))
    (∅ : gmap Z Z) [] = Some (Returns [Val (- 2 ^ 31)] []).
Proof. split; vm_compute; reflexivity. Qed.

(** A division is no side effect: one by zero whose result is not used is dropped, with its
    trap. *)
Lemma dead_division_dropped :
  let f := of_code [op32 Udiv 0 [Imm32 1; Imm32 0]; mkInst Return TVoid None []] in
  run store_only (code f) (∅ : gmap Z Z) [] = Some (Traps []) ∧
  run store_only (code (eliminate_dead_code f)) (∅ : gmap Z Z) [] = Some (Returns [] []).
Proof. split; vm_compute; reflexivity. Qed.

(** What [generate_ir] emits has registers only in its arithmetic: folding, reduction and
    simplification leave such code as it is. *)
Lemma registers_unchanged f : Forall (λ i, ∀ a b, operands i = [a; b] → is_Some (reg_of b)) (code f) →
  Forall (λ i, length (operands i) ≤ 2)%nat (code f) →
  code (constant_fold f) = code f ∧ code (simplify_algebraic f) = code f.
Proof.
  intros Hreg Hlen. unfold constant_fold, simplify_algebraic. rewrite !code_fmap.
  assert (Hid : ∀ p, (∀ i, (∀ a b, operands i = [a; b] → is_Some (reg_of b)) → (length (operands i) ≤ 2)%nat → p i = i) →
    p <$> code f = code f).
  { intros p Hp. induction (code f) as [|i l IH]; [done|]. apply Forall_cons in Hreg as [Hr Hreg]. apply Forall_cons in Hlen as [Hl Hlen].
    rewrite fmap_cons, IH, Hp; done. }
  split; apply Hid; intros [o t d ops] Hr Hl; simpl in *.
  - unfold fold_inst, try_fold_constant. simpl. destruct ops as [|[] [|y [|]]]; try done; [|by destruct y]. destruct (Hr _ y eq_refl) as [v Hv]. by destruct y.
  - unfold simplify_inst, second. simpl. destruct ops as [|x [|y [|]]]; simpl in *; try lia; [by destruct o..|].
    destruct (Hr x y eq_refl) as [v Hv]. destruct y; try done. by destruct o.
Qed.
