(* ===== verification/RegAlloc.v ===== *)
(** * RegAlloc: the linear-scan register allocator
    ([runtime/wave/src/jit/regalloc.rs])

    Live intervals, the scan, spilling and the frame. A physical register is its number on
    x86-64, the architecture the lists of registers are taken from; [None] of an operation
    is an index out of bounds. *)

From Stdlib Require Import ZArith Lia String.
From stdpp Require Import list gmap sorting.
From S2P Require Import Prelude.
From S2P Require Import Bytes.
From S2P Require Import JitIr.

(** ** Registers *)

Abbreviation PhysReg := Z (only parsing).

Definition is_callee_saved (r : PhysReg) : bool := (r =? 3) || (r =? 5) || ((12 <=? r) && (r <=? 15)).
Definition is_caller_saved (r : PhysReg) : bool := negb (is_callee_saved r).

(** All but the stack pointer 4 and the frame pointer 5. *)
Definition GP_REGS : list PhysReg := [0; 1; 2; 3; 6; 7; 8; 9; 10; 11; 12; 13; 14; 15].
Definition FP_REGS : list PhysReg := [16; 17; 18; 19; 20; 21; 22; 23].

Inductive RegClass := GP | FP.
#[global] Instance RegClass_eq_dec : EqDecision RegClass.
Proof. solve_decision. Defined.

(** [From<IrType>]. *)
Definition class_of (t : IrType) : RegClass := match t with TF32 | TF64 => FP | _ => GP end.

(** ** Live intervals *)

Record LiveInterval := mkInterval {
  i_vreg : Z; i_start : Z; i_end : Z; phys_reg : option PhysReg; spill_slot : option Z; reg_class : RegClass
}.

Definition LiveInterval_new (v s e : Z) (c : RegClass) : LiveInterval := mkInterval v s e None None c.
Definition overlaps (a b : LiveInterval) : bool := (i_start a <? i_end b) && (i_start b <? i_end a).
Definition contains (a : LiveInterval) (pos : Z) : bool := (i_start a <=? pos) && (pos <? i_end a).

Definition with_phys (r : option PhysReg) (a : LiveInterval) : LiveInterval :=
  mkInterval (i_vreg a) (i_start a) (i_end a) r (spill_slot a) (reg_class a).
Definition with_slot (s : option Z) (a : LiveInterval) : LiveInterval :=
  mkInterval (i_vreg a) (i_start a) (i_end a) (phys_reg a) s (reg_class a).

Inductive RegAlloc := InReg (r : PhysReg) | Spill (slot : Z).
#[global] Instance RegAlloc_eq_dec : EqDecision RegAlloc.
Proof. solve_decision. Defined.

(** [JitError]. *)
Inductive JitError :=
  | InvalidBytecode (msg : string) | UnsupportedInstruction (byte : Z) | RegisterAllocationFailed
  | CodeGenFailed (msg : string) | MemoryAllocationFailed | FunctionNotFound (idx : Z).

Record AllocatedFunction := mkAllocated {
  ir : IrFunction; allocations : gmap Z RegAlloc; frame_size : Z; callee_saved : list PhysReg
}.

(** ** The allocator *)

Record RegisterAllocator := mkRA {
  intervals : list LiveInterval;
  active : list nat;
  free_gp_regs : list PhysReg;
  free_fp_regs : list PhysReg;
  next_spill_slot : Z;
  used_callee_saved : list PhysReg
}.

Definition RegisterAllocator_new : RegisterAllocator := mkRA [] [] [] [] 0 [].

Definition with_intervals l s := mkRA l (active s) (free_gp_regs s) (free_fp_regs s) (next_spill_slot s) (used_callee_saved s).
Definition with_active l s := mkRA (intervals s) l (free_gp_regs s) (free_fp_regs s) (next_spill_slot s) (used_callee_saved s).
Definition with_slots n s := mkRA (intervals s) (active s) (free_gp_regs s) (free_fp_regs s) n (used_callee_saved s).
Definition with_saved l s := mkRA (intervals s) (active s) (free_gp_regs s) (free_fp_regs s) (next_spill_slot s) l.
Definition free_regs (c : RegClass) (s : RegisterAllocator) : list PhysReg :=
  match c with GP => free_gp_regs s | FP => free_fp_regs s end.
Definition with_free (c : RegClass) (l : list PhysReg) (s : RegisterAllocator) : RegisterAllocator :=
  match c with
  | GP => mkRA (intervals s) (active s) l (free_fp_regs s) (next_spill_slot s) (used_callee_saved s)
  | FP => mkRA (intervals s) (active s) (free_gp_regs s) l (next_spill_slot s) (used_callee_saved s)
  end.

Definition reset (s : RegisterAllocator) : RegisterAllocator := mkRA [] [] GP_REGS FP_REGS 0 [].

(** *** Live intervals of a function *)

Abbreviation Ranges := (gmap Z (Z * Z * RegClass)) (only parsing).

(** [entry(dest).or_insert((pos, pos + 1, class)).0 = pos]. *)
Definition define_at (pos : Z) (i : IrInst) (m : Ranges) : Ranges :=
  match dest i with
  | Some d =>
      let '(_, e, c) := default (pos, u32 (pos + 1), class_of (result_type i)) (m !! d) in <[d := (pos, e, c)]> m
  | None => m
  end.
Definition use_at (pos : Z) (m : Ranges) (v : Z) : Ranges :=
  match m !! v with Some (s, _, c) => <[v := (s, u32 (pos + 1), c)]> m | None => m end.

(** The ranges with the position they were counted to. *)
Definition scan_inst (st : Ranges * Z) (i : IrInst) : Ranges * Z :=
  let '(m, pos) := st in (foldl (use_at pos) (define_at pos i m) (uses i), u32 (pos + 1)).
Definition live_ranges (f : IrFunction) : Ranges := (foldl scan_inst (∅, 0) (code f)).1.

Definition compute_live_intervals (f : IrFunction) (s : RegisterAllocator) : RegisterAllocator :=
  with_intervals (intervals s ++ ((λ e, LiveInterval_new e.1 e.2.1.1 e.2.1.2 e.2.2) <$> btree_iter (live_ranges f))) s.

(** *** The scan *)

(** [sort_by_key], which is stable. *)
Fixpoint insert_by {A} (key : A → Z) (x : A) (l : list A) : list A :=
  match l with
  | [] => [x]
  | y :: l' => if key x <=? key y then x :: l else y :: insert_by key x l'
  end.
Definition sort_by_key {A} (key : A → Z) (l : list A) : list A := foldr (insert_by key) [] l.

(** The end of an active interval; the indices in [active] are in range. *)
Definition end_of (s : RegisterAllocator) (idx : nat) : Z := from_option i_end 0 (intervals s !! idx).
Definition activate (i : nat) (s : RegisterAllocator) : RegisterAllocator :=
  with_active (sort_by_key (end_of s) (active s ++ [i])) s.

Definition update (i : nat) (g : LiveInterval → LiveInterval) (s : RegisterAllocator) : RegisterAllocator :=
  with_intervals (alter g i (intervals s)) s.

(** The loop over the active intervals: the registers of the expired ones go back to their
    pools, the others stay active. *)
Fixpoint expire_list (pos : Z) (act : list nat) (s : RegisterAllocator) : option (RegisterAllocator * list nat) :=
  match act with
  | [] => Some (s, [])
  | idx :: act' =>
      a ← intervals s !! idx;
      if decide (i_end a ≤ pos) then
        expire_list pos act'
          (match phys_reg a with
           | Some r => with_free (reg_class a) (free_regs (reg_class a) s ++ [r]) s
           | None => s
           end)
      else '(s', kept) ← expire_list pos act' s; Some (s', idx :: kept)
  end.
Definition expire_old_intervals (pos : Z) (s : RegisterAllocator) : option RegisterAllocator :=
  '(s', kept) ← expire_list pos (active s) s; Some (with_active kept s').

Definition allocate_spill_slot (s : RegisterAllocator) : RegisterAllocator * Z :=
  (with_slots (u32 (next_spill_slot s + 1)) s, next_spill_slot s).

Definition spill_current (i : nat) (s : RegisterAllocator) : RegisterAllocator :=
  let '(s, slot) := allocate_spill_slot s in update i (with_slot (Some slot)) s.

Definition spill_at_interval (i : nat) (s : RegisterAllocator) : option RegisterAllocator :=
  match last (active s) with
  | Some spill_idx =>
      victim ← intervals s !! spill_idx;
      current ← intervals s !! i;
      if decide (i_end current < i_end victim) then
        let s := update i (with_phys (phys_reg victim)) (update spill_idx (with_phys None) s) in
        let '(s, slot) := allocate_spill_slot s in
        let s := update spill_idx (with_slot (Some slot)) s in
        Some (activate i (with_active (removelast (active s)) s))
      else Some (spill_current i s)
  | None => Some (spill_current i s)
  end.

Definition track_saved (r : PhysReg) (s : RegisterAllocator) : RegisterAllocator :=
  if is_callee_saved r && negb (bool_decide (r ∈ used_callee_saved s)) then with_saved (used_callee_saved s ++ [r]) s else s.

Definition scan_interval (s : RegisterAllocator) (i : nat) : option RegisterAllocator :=
  a ← intervals s !! i;
  s ← expire_old_intervals (i_start a) s;
  match vec_pop (free_regs (reg_class a) s) with
  | Some (reg, rest) => Some (activate i (track_saved reg (update i (with_phys (Some reg)) (with_free (reg_class a) rest s))))
  | None => spill_at_interval i s
  end.

Definition linear_scan (s : RegisterAllocator) : option RegisterAllocator :=
  foldl (λ r i, s ← r; scan_interval s i) (Some s) (seq 0 (length (intervals s))).

(** *** The result *)

Definition calculate_frame_size (f : IrFunction) (s : RegisterAllocator) : Z :=
  let size := u32 (next_spill_slot s * 8) in
  let size := foldl (λ n t, u32 (n + type_size t)) size (locals f) in
  let size := u32 (size + u32 (Z.of_nat (length (used_callee_saved s)) * 8)) in
  Z.land (u32 (size + 15)) (u32 (Z.lnot 15)).

Definition place (a : LiveInterval) : option RegAlloc :=
  match phys_reg a with Some r => Some (InReg r) | None => Spill <$> spill_slot a end.

Definition allocate (f : IrFunction) (s : RegisterAllocator) : option (RegisterAllocator * Result AllocatedFunction JitError) :=
  let s := compute_live_intervals f (reset s) in
  s ← linear_scan (with_intervals (sort_by_key i_start (intervals s)) s);
  Some (s, match mapM (λ a, pair (i_vreg a) <$> place a) (intervals s) with
           | None => Err RegisterAllocationFailed
           | Some l => Ok (mkAllocated f (foldl (λ m e, <[e.1 := e.2]> m) ∅ l) (calculate_frame_size f s) (used_callee_saved s))
           end).

(** *** Moves *)

Inductive MoveLocation := LReg (r : PhysReg) | LStack (slot : Z).
#[global] Instance MoveLocation_eq_dec : EqDecision MoveLocation.
Proof. solve_decision. Defined.
Record Move := mkMove { from : MoveLocation; to : MoveLocation }.

Definition resolve_moves (moves : list Move) : list Move := moves.

(** ** Sorting *)

Lemma insert_by_perm {A} (key : A → Z) x l : insert_by key x l ≡ₚ x :: l.
Proof. induction l as [|y l IH]; simpl; [done|]. destruct (key x <=? key y); [done|]. rewrite IH. constructor. Qed.

Lemma sort_by_key_perm {A} (key : A → Z) l : sort_by_key key l ≡ₚ l.
Proof. induction l as [|x l IH]; simpl; [done|]. by rewrite insert_by_perm, IH. Qed.

Definition sorted_by {A} (key : A → Z) (l : list A) : Prop := StronglySorted (λ x y, key x ≤ key y) l.

Lemma insert_by_sorted {A} (key : A → Z) x l : sorted_by key l → sorted_by key (insert_by key x l).
Proof.
  induction 1 as [|y l Hl IH Hy]; simpl; [repeat constructor|]. destruct (Z.leb_spec (key x) (key y)).
  - constructor; [by constructor|]. constructor; [done|]. eapply Forall_impl; [exact Hy|]. intros z Hz. simpl in Hz. lia.
  - constructor; [done|]. rewrite insert_by_perm. constructor; [lia|done].
Qed.

Lemma sort_by_key_sorted {A} (key : A → Z) l : sorted_by key (sort_by_key key l).
Proof. induction l; simpl; [constructor|]. by apply insert_by_sorted. Qed.

(** ** The scan *)

Definition shape (a : LiveInterval) : Z * Z * Z * RegClass := (i_vreg a, i_start a, i_end a, reg_class a).
Definition pools (s : RegisterAllocator) : list PhysReg := free_gp_regs s ++ free_fp_regs s.
Definition reg_at (s : RegisterAllocator) (j : nat) : option PhysReg := a ← intervals s !! j; phys_reg a.
Definition held (s : RegisterAllocator) (act : list nat) : list PhysReg := omap (reg_at s) act.

#[global] Instance held_perm s : Proper ((≡ₚ) ==> (≡ₚ)) (held s).
Proof. intros l l' Hl. unfold held. by rewrite Hl. Qed.

Lemma pools_with_free c l s : ∃ rest, pools s ≡ₚ free_regs c s ++ rest ∧ pools (with_free c l s) ≡ₚ l ++ rest.
Proof. destruct c; [by exists (free_fp_regs s)|]. exists (free_gp_regs s). unfold pools. simpl. split; apply Permutation_app_comm. Qed.

Lemma with_free_intervals c l s : intervals (with_free c l s) = intervals s ∧ active (with_free c l s) = active s ∧
  next_spill_slot (with_free c l s) = next_spill_slot s ∧ used_callee_saved (with_free c l s) = used_callee_saved s.
Proof. by destruct c. Qed.

(** The expired registers go back to the pools; nothing else changes. *)
Lemma expire_list_spec pos act : ∀ s, (∀ j, j ∈ act → is_Some (intervals s !! j)) → ∃ s' kept, expire_list pos act s = Some (s', kept) ∧
  intervals s' = intervals s ∧ next_spill_slot s' = next_spill_slot s ∧ used_callee_saved s' = used_callee_saved s ∧
  (∀ j, j ∈ kept ↔ j ∈ act ∧ pos < end_of s j) ∧ pools s' ++ held s kept ≡ₚ pools s ++ held s act.
Proof.
  induction act as [|j act IH]; intros s Hs; cbn [expire_list].
  { exists s, []. split_and!; try done. intros j. split; [by intros ?%elem_of_nil|by intros [?%elem_of_nil ?]]. }
  destruct (Hs j ltac:(by left)) as [a Ha]. rewrite Ha. cbn [mbind option_bind].
  assert (Hend : end_of s j = i_end a) by (unfold end_of; by rewrite Ha).
  assert (Hact : ∀ j, j ∈ act → is_Some (intervals s !! j)) by (intros j' Hj'; apply Hs; by right).
  case_decide as Hp.
  - set (s1 := match phys_reg a with Some r => with_free (reg_class a) (free_regs (reg_class a) s ++ [r]) s | None => s end).
    assert (Hs1 : intervals s1 = intervals s ∧ next_spill_slot s1 = next_spill_slot s ∧ used_callee_saved s1 = used_callee_saved s ∧
      pools s1 ≡ₚ pools s ++ option_list (phys_reg a)).
    { unfold s1. destruct (phys_reg a) as [r|]; simpl; [|split_and!; [done..|by rewrite app_nil_r]].
      destruct (with_free_intervals (reg_class a) (free_regs (reg_class a) s ++ [r]) s) as (-> & _ & -> & ->).
      destruct (pools_with_free (reg_class a) (free_regs (reg_class a) s ++ [r]) s) as (rest & -> & ->). split_and!; [done..|].
      rewrite <- !app_assoc. f_equiv. apply Permutation_app_comm. }
    destruct Hs1 as (Hi & Hn & Hu & Hpools). destruct (IH s1) as (s' & kept & -> & Hi' & Hn' & Hu' & Hk & Hperm); [by rewrite Hi|].
    assert (Hheld : ∀ l, held s1 l = held s l) by (intros l; unfold held, reg_at; by rewrite Hi).
    exists s', kept. split_and!; [done|congruence..| |].
    + intros j'. rewrite Hk. unfold end_of in *. rewrite Hi, elem_of_cons. split; [intros [? ?]; split; [by right|done]|].
      intros [[->|?] ?]; [exfalso; lia|done].
    + rewrite !Hheld in Hperm. rewrite Hperm, Hpools, <- app_assoc. f_equiv. unfold held, reg_at. simpl. rewrite Ha. simpl. by destruct (phys_reg a).
  - destruct (IH s Hact) as (s' & kept & -> & Hi' & Hn' & Hu' & Hk & Hperm). cbn [mbind option_bind].
    exists s', (j :: kept). split_and!; [done..| |].
    + intros j'. rewrite !elem_of_cons, Hk. split; [intros [->|[? ?]]; [split; [by left|lia]|split; [by right|done]]|].
      intros [[->|?] ?]; [by left|by right].
    + unfold held in *. simpl. destruct (reg_at s j) as [r|]; [|done]. by rewrite <- !Permutation_middle, Hperm.
Qed.

(** What holds once [k] intervals are placed; the intervals are those of [L], in order of
    their starts. *)
Record scanned (L : list LiveInterval) (k : nat) (s : RegisterAllocator) : Prop := {
  sc_shape : shape <$> intervals s = shape <$> L;
  sc_todo j a : (k ≤ j)%nat → intervals s !! j = Some a → phys_reg a = None ∧ spill_slot a = None;
  sc_done j a : (j < k)%nat → intervals s !! j = Some a → is_Some (place a) ∧ (phys_reg a = None ∨ spill_slot a = None);
  sc_active j : j ∈ active s → (j < k)%nat ∧ is_Some (reg_at s j);
  sc_nodup : NoDup (pools s ++ held s (active s));
  sc_old j a r j' a' : intervals s !! j = Some a → phys_reg a = Some r → j ∉ active s → (k ≤ j')%nat →
    intervals s !! j' = Some a' → i_end a ≤ i_start a';
  sc_disjoint j j' a a' r : (j < j')%nat → intervals s !! j = Some a → intervals s !! j' = Some a' →
    phys_reg a = Some r → phys_reg a' = Some r → i_end a ≤ i_start a';
  sc_pool r : r ∈ pools s → r ∈ GP_REGS ++ FP_REGS;
  sc_reg j r : reg_at s j = Some r → r ∈ GP_REGS ++ FP_REGS ∧ (is_callee_saved r = true → r ∈ used_callee_saved s);
  sc_saved : NoDup (used_callee_saved s) ∧ Forall (λ r, is_callee_saved r = true) (used_callee_saved s);
  sc_slot j a n : intervals s !! j = Some a → spill_slot a = Some n → 0 ≤ n < next_spill_slot s;
  sc_slots j j' a a' n : intervals s !! j = Some a → intervals s !! j' = Some a' → spill_slot a = Some n → spill_slot a' = Some n → j = j';
  sc_next : 0 ≤ next_spill_slot s;
}.

Lemma update_lookup i g s j b : intervals (update i g s) !! j = Some b →
  ∃ a, intervals s !! j = Some a ∧ b = (if decide (j = i) then g a else a).
Proof.
  unfold update. simpl. case_decide as Hj; [subst j; rewrite list_lookup_alter_eq, fmap_Some|rewrite list_lookup_alter_ne by done]; naive_solver.
Qed.

Lemma update_shape i g s : (∀ a, shape (g a) = shape a) → shape <$> intervals (update i g s) = shape <$> intervals s.
Proof.
  intros Hg. unfold update. simpl. apply list_eq. intros j. rewrite !list_lookup_fmap.
  destruct (decide (j = i)) as [->|Hj]; [rewrite list_lookup_alter_eq|by rewrite list_lookup_alter_ne].
  destruct (intervals s !! i); simpl; [by rewrite Hg|done].
Qed.

Lemma reg_at_update i g s j : reg_at (update i g s) j = if decide (j = i) then a ← intervals s !! j; phys_reg (g a) else reg_at s j.
Proof.
  unfold reg_at, update. simpl. case_decide as Hj; [subst j; rewrite list_lookup_alter_eq|by rewrite list_lookup_alter_ne].
  by destruct (intervals s !! i).
Qed.

Lemma reg_at_Some s j a : intervals s !! j = Some a → reg_at s j = phys_reg a.
Proof. intros Ha. unfold reg_at. by rewrite Ha. Qed.

Lemma held_cons s j l : held s (j :: l) = option_list (reg_at s j) ++ held s l.
Proof. unfold held. simpl. by destruct (reg_at s j). Qed.

Lemma held_ext s s' l : (∀ j, j ∈ l → reg_at s' j = reg_at s j) → held s' l = held s l.
Proof.
  intros Hl. induction l as [|j l IH]; [done|]. rewrite !held_cons, (Hl j) by (by left).
  by rewrite IH by (intros j' Hj'; apply Hl; by right).
Qed.

Lemma elem_of_held s l r : r ∈ held s l ↔ ∃ j, j ∈ l ∧ reg_at s j = Some r.
Proof. unfold held. rewrite list_elem_of_omap. done. Qed.

Lemma activate_active i s : active (activate i s) ≡ₚ active s ++ [i].
Proof. unfold activate. simpl. apply sort_by_key_perm. Qed.

(** The starts are in order. *)
Lemma scanned_sorted L k s j j' a a' : sorted_by i_start L → scanned L k s → (j ≤ j')%nat → intervals s !! j = Some a →
  intervals s !! j' = Some a' → i_start a ≤ i_start a'.
Proof.
  intros HL Hs Hj Ha Ha'. assert (Hin : ∀ n b, intervals s !! n = Some b → ∃ c, L !! n = Some c ∧ i_start c = i_start b).
  { intros n b Hb. pose proof (f_equal (λ l, l !! n) (sc_shape L k s Hs)) as Heq. simpl in Heq. rewrite !list_lookup_fmap, Hb in Heq.
    destruct (L !! n) as [c|]; [|done]. simpl in Heq. exists c. split; [done|]. unfold shape in Heq. congruence. }
  destruct (Hin j a Ha) as (c & Hc & <-). destruct (Hin j' a' Ha') as (c' & Hc' & <-).
  destruct (decide (j = j')) as [->|Hne]; [by simplify_eq|]. apply (StronglySorted_lookup (λ x y, i_start x ≤ i_start y) L j j' c c' HL Hc Hc'). lia.
Qed.

Lemma expire_scanned L k s a : sorted_by i_start L → scanned L k s → intervals s !! k = Some a →
  ∃ s1, expire_old_intervals (i_start a) s = Some s1 ∧ scanned L k s1 ∧ intervals s1 = intervals s.
Proof.
  intros HL Hs Ha. unfold expire_old_intervals.
  destruct (expire_list_spec (i_start a) (active s) s) as (s1 & kept & -> & Hi & Hn & Hu & Hk & Hperm).
  { intros j Hj. destruct (sc_active L k s Hs j Hj) as [_ [r Hr]]. unfold reg_at in Hr. by destruct (intervals s !! j). }
  cbn [mbind option_bind]. eexists. split; [done|]. split; [|done].
  assert (Hr : ∀ j, reg_at (with_active kept s1) j = reg_at s j) by (intros j; unfold reg_at; simpl; by rewrite Hi).
  assert (Hall : pools s1 ++ held (with_active kept s1) kept ≡ₚ pools s ++ held s (active s)).
  { rewrite <- Hperm. f_equiv. rewrite (held_ext s) by (intros; apply Hr). done. }
  destruct Hs. constructor; cbn [intervals with_active active next_spill_slot used_callee_saved]; rewrite ?Hi, ?Hn, ?Hu; try done.
  - intros j [Hj _]%Hk. rewrite Hr. by apply sc_active0.
  - unfold pools in *. cbn [with_active free_gp_regs free_fp_regs]. by rewrite Hall.
  - intros j b r j' a' Hb Hreg Hact Hj' Ha'. destruct (decide (j ∈ active s)) as [Hin|]; [|by eapply (sc_old0 j b r j' a')].
    assert (i_end b ≤ i_start a); [|pose proof (scanned_sorted L k s k j' a a' HL ltac:(by constructor) Hj' Ha Ha'); lia].
    destruct (decide (i_end b ≤ i_start a)); [done|]. exfalso. apply Hact, Hk. split; [done|]. unfold end_of. rewrite Hb. simpl. lia.
  - intros r Hin. assert (r ∈ pools s ++ held s (active s)) as [Hp|Hh]%elem_of_app.
    { rewrite <- Hall. apply elem_of_app. by left. }
    + by apply sc_pool0.
    + apply elem_of_held in Hh as (j & _ & Hj). by apply (sc_reg0 j).
  - intros j r. rewrite Hr. apply sc_reg0.
Qed.

(** The next interval is given a register that nobody holds. *)
Lemma give_register L k s a r : scanned L k s → intervals s !! k = Some a → r ∉ pools s ++ held s (active s) →
  r ∈ GP_REGS ++ FP_REGS → (is_callee_saved r = true → r ∈ used_callee_saved s) →
  scanned L (S k) (activate k (update k (with_phys (Some r)) s)).
Proof.
  intros Hs Ha Hfree Hreg Hsaved. destruct (sc_todo L k s Hs k a ltac:(lia) Ha) as [Hnone Hslot].
  set (s1 := update k (with_phys (Some r)) s).
  assert (Hat : ∀ j, reg_at s1 j = if decide (j = k) then Some r else reg_at s j).
  { intros j. unfold s1. rewrite reg_at_update. case_decide as Hj; [subst j; by rewrite Ha|done]. }
  assert (Hk : k ∉ active s) by (intros Hin; destruct (sc_active L k s Hs k Hin); lia).
  assert (Hheld : held s1 (active s1 ++ [k]) ≡ₚ r :: held s (active s)).
  { unfold held. rewrite omap_app. simpl. rewrite Hat, decide_True by done.
    change (omap (reg_at s1) (active s)) with (held s1 (active s)). rewrite (held_ext s s1).
    - rewrite Permutation_app_comm. done.
    - intros j Hj. rewrite Hat, decide_False; [done|]. by intros ->. }
  pose proof (activate_active k s1) as Hact.
  destruct Hs. constructor.
  - cbn [activate intervals with_active]. unfold s1. by rewrite update_shape.
  - intros j b Hj (x & Hx & ->)%update_lookup. rewrite decide_False by lia. apply (sc_todo0 j); [lia|done].
  - intros j b Hj (x & Hx & ->)%update_lookup. case_decide as Heq.
    + subst j. assert (x = a) as -> by congruence. simpl. rewrite Hslot. split; [done|by right].
    + apply (sc_done0 j); [lia|done].
  - intros j. rewrite Hact. change (reg_at (activate k s1) j) with (reg_at s1 j). rewrite Hat.
    intros [Hj|Hj%list_elem_of_singleton]%elem_of_app; [|subst j; rewrite decide_True by done; by split; [lia|]].
    destruct (sc_active0 j Hj) as [? ?]. rewrite decide_False by lia. split; [lia|done].
  - change (pools (activate k s1)) with (pools s). change (held (activate k s1)) with (held s1). rewrite Hact. rewrite Hheld.
    rewrite <- Permutation_middle. by constructor.
  - intros j b r' j' a' (x & Hx & ->)%update_lookup Hr' Hnot Hj' (y & Hy & ->)%update_lookup.
    rewrite (decide_False (P := j' = k)) by lia. assert (Hj : (j ∉ active s) ∧ j ≠ k) by (rewrite Hact in Hnot; set_solver).
    rewrite decide_False in * by tauto. apply (sc_old0 j x r' j' y); try done; [tauto|lia].
  - intros j j' b b' r' Hlt (x & Hx & ->)%update_lookup (y & Hy & ->)%update_lookup.
    destruct (decide (j' = k)) as [->|Hj'k].
    + rewrite decide_False by lia. intros Hr1 [= <-]. assert (y = a) as -> by congruence. simpl.
      apply (sc_old0 j x r k a); try done. intros Hin. apply Hfree, elem_of_app. right. apply elem_of_held. exists j. split; [done|].
      by rewrite (reg_at_Some s j x Hx).
    + intros Hr1 Hr2. destruct (decide (j = k)) as [->|Hjk]; [|by apply (sc_disjoint0 j j' x y r')].
      exfalso. destruct (sc_todo0 j' y) as [Hn _]; [lia|done|]. congruence.
  - apply sc_pool0.
  - intros j r'. change (reg_at (activate k s1) j) with (reg_at s1 j). rewrite Hat. case_decide; [intros [= <-]; done|apply sc_reg0].
  - apply sc_saved0.
  - intros j b n (x & Hx & ->)%update_lookup. case_decide as Hj; [subst j; assert (x = a) as -> by congruence; simpl; congruence|]. by apply (sc_slot0 j).
  - intros j j' b b' n (x & Hx & ->)%update_lookup (y & Hy & ->)%update_lookup Hn Hn'. apply (sc_slots0 j j' x y n); try done.
    + revert Hn. by destruct (decide (j = k)).
    + revert Hn'. by destruct (decide (j' = k)).
  - done.
Qed.

(** The victim's register is taken away, and a slot given to it. *)
Definition evict (v : nat) (act : list nat) (s : RegisterAllocator) : RegisterAllocator :=
  update v (with_slot (Some (next_spill_slot s)))
    (with_slots (next_spill_slot s + 1) (with_active act (update v (with_phys None) s))).

Lemma evict_lookup v act s j b : intervals (evict v act s) !! j = Some b → ∃ a, intervals s !! j = Some a ∧
  b = (if decide (j = v) then with_slot (Some (next_spill_slot s)) (with_phys None a) else a).
Proof.
  intros (x & (y & Hy & ->)%update_lookup & ->)%update_lookup. exists y. split; [done|]. by case_decide.
Qed.

Lemma evict_reg_at v act s j : reg_at (evict v act s) j = if decide (j = v) then None else reg_at s j.
Proof.
  unfold evict. rewrite reg_at_update. cbn [intervals with_slots with_active].
  case_decide as Hj; [subst j; unfold update; simpl; rewrite list_lookup_alter_eq; by destruct (intervals s !! v)|].
  change (reg_at (with_slots _ (with_active act (update v (with_phys None) s))) j) with (reg_at (update v (with_phys None) s) j).
  by rewrite reg_at_update, decide_False.
Qed.

Lemma evict_scanned L k s v act r : scanned L k s → active s = act ++ [v] → reg_at s v = Some r →
  scanned L k (evict v act s) ∧ r ∉ pools (evict v act s) ++ held (evict v act s) act.
Proof.
  intros Hs Hact Hr. destruct (sc_active L k s Hs v) as [Hvk _]; [rewrite Hact; set_solver|].
  pose proof (sc_nodup L k s Hs) as Hnodup. rewrite Hact in Hnodup. unfold held in Hnodup. rewrite omap_app in Hnodup.
  cbn [omap list_omap] in Hnodup. rewrite Hr in Hnodup. change (omap (reg_at s) act) with (held s act) in Hnodup. rewrite app_assoc in Hnodup.
  apply NoDup_app in Hnodup as (Hnd & Hdisj & _).
  assert (Hv : v ∉ act).
  { intros Hin. apply (Hdisj r); [|by left]. apply elem_of_app. right. apply elem_of_held. by exists v. }
  assert (Hheld : held (evict v act s) act = held s act).
  { apply held_ext. intros j Hj. rewrite evict_reg_at, decide_False; [done|]. by intros ->. }
  split; [|rewrite Hheld; intros Hin; apply (Hdisj r); [done|by left]].
  destruct Hs. constructor.
  - unfold evict. rewrite update_shape by done. cbn [intervals with_slots with_active]. by rewrite update_shape.
  - intros j b Hj (x & Hx & ->)%evict_lookup. rewrite decide_False by lia. by apply (sc_todo0 j).
  - intros j b Hj (x & Hx & ->)%evict_lookup. case_decide; [split; [by eexists|by left]|by apply (sc_done0 j)].
  - intros j Hj. rewrite evict_reg_at, decide_False by (intros ->; done). apply sc_active0. rewrite Hact. set_solver.
  - change (active (evict v act s)) with act. rewrite Hheld. done.
  - intros j b r' j' a' (x & Hx & ->)%evict_lookup Hr' Hnot Hj' (y & Hy & ->)%evict_lookup. rewrite (decide_False (P := j' = v)) by lia.
    case_decide as Hjv; [done|]. apply (sc_old0 j x r' j' y); try done. rewrite Hact. change (active (evict v act s)) with act in Hnot. set_solver.
  - intros j j' b b' r' Hlt (x & Hx & ->)%evict_lookup (y & Hy & ->)%evict_lookup. do 2 (case_decide; [done|]). by apply (sc_disjoint0 j j').
  - apply sc_pool0.
  - intros j r'. rewrite evict_reg_at. case_decide; [done|]. apply sc_reg0.
  - apply sc_saved0.
  - intros j b n (x & Hx & ->)%evict_lookup. change (next_spill_slot (evict v act s)) with (next_spill_slot s + 1).
    case_decide; [intros [= <-]; lia|]. intros Hn. pose proof (sc_slot0 j x n Hx Hn). lia.
  - intros j j' b b' n (x & Hx & ->)%evict_lookup (y & Hy & ->)%evict_lookup.
    destruct (decide (j = v)) as [->|], (decide (j' = v)) as [->|]; simpl; [done|..].
    + intros [= <-] Hn. pose proof (sc_slot0 j' y _ Hy Hn). lia.
    + intros Hn [= <-]. pose proof (sc_slot0 j x _ Hx Hn). lia.
    + by apply (sc_slots0 j j' x y).
  - change (next_spill_slot (evict v act s)) with (next_spill_slot s + 1). lia.
Qed.

(** The next interval is spilled itself. *)
Lemma spill_current_scanned L k s a : scanned L k s → intervals s !! k = Some a → next_spill_slot s + 1 < 2 ^ 32 →
  scanned L (S k) (spill_current k s) ∧ next_spill_slot (spill_current k s) = next_spill_slot s + 1.
Proof.
  intros Hs Ha Hnext. destruct (sc_todo L k s Hs k a ltac:(lia) Ha) as [Hphys Hslot]. pose proof (sc_next L k s Hs) as Hpos.
  unfold spill_current, allocate_spill_slot. assert (Hu : u32 (next_spill_slot s + 1) = next_spill_slot s + 1) by (apply Z.mod_small; lia).
  rewrite Hu. split; [|done]. set (s1 := update k (with_slot (Some (next_spill_slot s))) (with_slots (next_spill_slot s + 1) s)).
  assert (Hat : ∀ j, reg_at s1 j = reg_at s j).
  { intros j. unfold s1. rewrite reg_at_update. change (reg_at (with_slots _ s) j) with (reg_at s j). cbn [intervals with_slots].
    case_decide as Hj; [subst j|done]. unfold reg_at. by destruct (intervals s !! k). }
  destruct Hs. constructor.
  - unfold s1. by rewrite update_shape.
  - intros j b Hj (x & Hx & ->)%update_lookup. rewrite decide_False by lia. apply (sc_todo0 j); [lia|done].
  - intros j b Hj (x & Hx & ->)%update_lookup. case_decide as Heq; [|apply (sc_done0 j); [lia|done]].
    subst j. assert (x = a) as -> by (simpl in Hx; congruence). unfold place. simpl. rewrite Hphys. split; [by eexists|by left].
  - intros j Hj. rewrite Hat. destruct (sc_active0 j Hj). split; [lia|done].
  - rewrite (held_ext s s1) by (intros; apply Hat). done.
  - intros j b r j' a' (x & Hx & ->)%update_lookup Hr Hnot Hj' (y & Hy & ->)%update_lookup. rewrite (decide_False (P := j' = k)) by lia.
    case_decide as Heq; [subst j; assert (x = a) as -> by (simpl in Hx; congruence); simpl in Hr; congruence|].
    apply (sc_old0 j x r j' y); try done. lia.
  - intros j j' b b' r Hlt (x & Hx & ->)%update_lookup (y & Hy & ->)%update_lookup Hr Hr'.
    assert (Hend : i_end (if decide (j = k) then with_slot (Some (next_spill_slot s)) x else x) = i_end x) by (by destruct (decide (j = k))).
    assert (Hstart : i_start (if decide (j' = k) then with_slot (Some (next_spill_slot s)) y else y) = i_start y) by (by destruct (decide (j' = k))).
    rewrite Hend, Hstart. apply (sc_disjoint0 j j' x y r); try done; [revert Hr; by destruct (decide (j = k))|revert Hr'; by destruct (decide (j' = k))].
  - apply sc_pool0.
  - intros j r. rewrite Hat. apply sc_reg0.
  - apply sc_saved0.
  - intros j b n (x & Hx & ->)%update_lookup. change (next_spill_slot s1) with (next_spill_slot s + 1).
    case_decide; [intros [= <-]; lia|]. intros Hn. pose proof (sc_slot0 j x n Hx Hn). lia.
  - intros j j' b b' n (x & Hx & ->)%update_lookup (y & Hy & ->)%update_lookup.
    destruct (decide (j = k)) as [->|], (decide (j' = k)) as [->|]; simpl; [done|..].
    + intros [= <-] Hn. pose proof (sc_slot0 j' y _ Hy Hn). lia.
    + intros Hn [= <-]. pose proof (sc_slot0 j x _ Hx Hn). lia.
    + by apply (sc_slots0 j j' x y).
  - change (next_spill_slot s1) with (next_spill_slot s + 1). lia.
Qed.

(** Tracking a register only adds to the list of saved ones. *)
Lemma track_saved_scanned L k s r : scanned L k s → scanned L k (track_saved r s) ∧ (is_callee_saved r = true → r ∈ used_callee_saved (track_saved r s)) ∧
  next_spill_slot (track_saved r s) = next_spill_slot s ∧ intervals (track_saved r s) = intervals s ∧
  pools (track_saved r s) = pools s ∧ active (track_saved r s) = active s.
Proof.
  intros Hs. unfold track_saved. destruct (is_callee_saved r && negb (bool_decide (r ∈ used_callee_saved s))) eqn:Hc.
  - apply andb_true_iff in Hc as [Hc Hn%negb_true_iff%bool_decide_eq_false]. split_and!; [|by intros _; simpl; set_solver|done..].
    destruct Hs. constructor; try done.
    + intros j r' Hr'. destruct (sc_reg0 j r' Hr') as [? Hin]. split; [done|]. intros Hcs. simpl. apply elem_of_app. left. by apply Hin.
    + destruct sc_saved0 as [Hnd Hall]. simpl. split; [|rewrite Forall_app; split; [done|by constructor]].
      apply NoDup_app. split_and!; [done| |apply NoDup_singleton]. intros x Hx Heq%list_elem_of_singleton. by subst x.
  - split_and!; [done| |done..]. intros Hcs. rewrite Hcs in Hc. simpl in Hc. by apply negb_false_iff, bool_decide_eq_true in Hc.
Qed.

Lemma vec_pop_last {A} (l rest : list A) x : vec_pop l = Some (x, rest) → l = rest ++ [x].
Proof. apply vec_pop_Some. Qed.

(** A register taken from its pool is free. *)
Lemma take_scanned L k s c reg rest : scanned L k s → free_regs c s = rest ++ [reg] →
  scanned L k (with_free c rest s) ∧
  (reg ∉ pools (with_free c rest s) ++ held (with_free c rest s) (active (with_free c rest s))) ∧ reg ∈ pools s.
Proof.
  intros Hs Hfree. destruct (pools_with_free c rest s) as (others & Hp & Hp'). rewrite Hfree in Hp.
  destruct (with_free_intervals c rest s) as (Hi & Ha & Hn & Hu).
  assert (Hperm : pools s ≡ₚ reg :: pools (with_free c rest s)) by (rewrite Hp, Hp', <- app_assoc; symmetry; apply Permutation_middle).
  assert (Hat : ∀ j, reg_at (with_free c rest s) j = reg_at s j) by (intros j; unfold reg_at; by rewrite Hi).
  assert (Hheld : held (with_free c rest s) (active (with_free c rest s)) = held s (active s)) by (rewrite Ha; by apply held_ext).
  pose proof (sc_nodup L k s Hs) as Hnd. rewrite Hperm in Hnd. simpl in Hnd. apply NoDup_cons in Hnd as [Hout Hnd].
  rewrite Hheld. split_and!; [|done|rewrite Hperm; by left].
  destruct Hs. constructor; rewrite ?Hi, ?Ha, ?Hn, ?Hu; try done.
  - intros j Hj. rewrite Hat. by apply sc_active0.
  - rewrite <- Ha, Hheld. done.
  - intros r Hr. apply sc_pool0. rewrite Hperm. by right.
  - intros j r. rewrite Hat. apply sc_reg0.
Qed.

Lemma alter_commute i j g h s : i ≠ j → update i g (update j h s) = update j h (update i g s).
Proof. intros Hij. unfold update, with_intervals. simpl. f_equal. by apply list_alter_alter_ne. Qed.

(** One interval more. *)
Lemma scan_interval_ok L k s : sorted_by i_start L → scanned L k s → (k < length L)%nat → next_spill_slot s + 1 < 2 ^ 32 →
  ∃ s', scan_interval s k = Some s' ∧ scanned L (S k) s' ∧ next_spill_slot s' ≤ next_spill_slot s + 1.
Proof.
  intros HL Hs Hk Hnext. assert (Hlen : length (intervals s) = length L) by (rewrite <- (length_fmap shape), (sc_shape L k s Hs); apply length_fmap).
  destruct (lookup_lt_is_Some_2 (intervals s) k) as [a Ha]; [lia|]. unfold scan_interval. rewrite Ha. cbn [mbind option_bind].
  assert (Hexp := expire_scanned L k s a HL Hs Ha). destruct Hexp as (s1 & Hexp & Hs1 & Hi1). rewrite Hexp. cbn [mbind option_bind].
  assert (Hn1 : next_spill_slot s1 = next_spill_slot s).
  { unfold expire_old_intervals in Hexp. destruct (expire_list_spec (i_start a) (active s) s) as (s2 & kept & He & _ & Hn & _).
    - intros j Hj. destruct (sc_active L k s Hs j Hj) as [_ [r Hr]]. unfold reg_at in Hr. by destruct (intervals s !! j).
    - rewrite He in Hexp. cbn [mbind option_bind] in Hexp. injection Hexp as <-. done. }
  assert (Ha1 : intervals s1 !! k = Some a) by (by rewrite Hi1).
  destruct (vec_pop (free_regs (reg_class a) s1)) as [[reg rest]|] eqn:Hpop.
  - apply vec_pop_Some in Hpop. destruct (take_scanned L k s1 _ _ _ Hs1 Hpop) as (Hs2 & Hfree & Hin).
    destruct (with_free_intervals (reg_class a) rest s1) as (Hi2 & Hact2 & Hn2 & Hu2).
    set (s2 := with_free (reg_class a) rest s1) in *. destruct (track_saved_scanned L k s2 reg Hs2) as (Hs3 & Hsaved & Hn3 & Hi3 & Hp3 & Hact3).
    eexists. split; [done|].
    assert (Hcomm : track_saved reg (update k (with_phys (Some reg)) s2) = update k (with_phys (Some reg)) (track_saved reg s2))
      by (unfold track_saved; cbn [used_callee_saved update with_intervals]; by destruct (is_callee_saved reg && _)).
    rewrite Hcomm. split.
    + apply (give_register L k (track_saved reg s2) a); [done|by rewrite Hi3, Hi2| |by apply (sc_pool L k s1 Hs1)|done].
      rewrite Hp3, Hact3. rewrite (held_ext s2); [done|]. intros j _. unfold reg_at. by rewrite Hi3.
    + change (next_spill_slot (activate k (update k (with_phys (Some reg)) (track_saved reg s2)))) with (next_spill_slot (track_saved reg s2)). lia.
  - unfold spill_at_interval. destruct (spill_current_scanned L k s1 a Hs1 Ha1) as [Hs2 Hn2]; [lia|].
    destruct (last (active s1)) as [v|] eqn:Hlast; [|eexists; split; [done|]; split; [done|lia]].
    apply last_Some in Hlast as [act Hact]. destruct (sc_active L k s1 Hs1 v) as [Hvk [r Hr]]; [rewrite Hact; set_solver|].
    destruct (intervals s1 !! v) as [b|] eqn:Hb; [|unfold reg_at in Hr; by rewrite Hb in Hr].
    rewrite Ha1. cbn [mbind option_bind]. case_decide; [|eexists; split; [done|]; split; [done|lia]].
    assert (Hbr : phys_reg b = Some r) by (by rewrite (reg_at_Some s1 v b Hb) in Hr).
    destruct (evict_scanned L k s1 v act r Hs1 Hact Hr) as [Hs3 Hfree].
    unfold allocate_spill_slot. cbn [next_spill_slot update with_intervals]. rewrite Hbr.
    assert (Hu : u32 (next_spill_slot s1 + 1) = next_spill_slot s1 + 1) by (pose proof (sc_next L k s1 Hs1); apply Z.mod_small; lia).
    rewrite Hu. eexists. split; [done|].
    assert (Heq : activate k (with_active (removelast (active s1))
        (update v (with_slot (Some (next_spill_slot s1))) (with_slots (next_spill_slot s1 + 1) (update k (with_phys (Some r)) (update v (with_phys None) s1)))))
      = activate k (update k (with_phys (Some r)) (evict v act s1))).
    { rewrite Hact, removelast_last. unfold evict. rewrite (alter_commute k v (with_phys (Some r)) (with_slot (Some (next_spill_slot s1)))) by lia. done. }
    split; [|cbn; lia]. cbn [active with_slots update with_intervals] in *.
    match goal with |- scanned L (S k) ?x => replace x with (activate k (update k (with_phys (Some r)) (evict v act s1))) by (symmetry; exact Heq) end.
    apply (give_register L k (evict v act s1) a); [done| |done|by apply (sc_reg L k s1 Hs1 v)|].
    + unfold evict, update. simpl. rewrite !list_lookup_alter_ne by lia. done.
    + intros Hcs. by apply (sc_reg L k s1 Hs1 v).
Qed.

(** All of them. *)
Lemma linear_scan_ok L s : sorted_by i_start L → Forall (λ a, phys_reg a = None ∧ spill_slot a = None) L →
  Z.of_nat (length L) < 2 ^ 32 →
  ∃ s', linear_scan (with_intervals L (reset s)) = Some s' ∧ scanned L (length L) s' ∧ next_spill_slot s' ≤ Z.of_nat (length L).
Proof.
  intros HL Hnone Hlen. unfold linear_scan. cbn [intervals with_intervals].
  assert (Hall : ∀ k, (k ≤ length L)%nat → ∃ s', foldl (λ r i, s ← r; scan_interval s i) (Some (with_intervals L (reset s))) (seq 0 k) = Some s' ∧
    scanned L k s' ∧ next_spill_slot s' ≤ Z.of_nat k); [|by apply Hall].
  induction k as [|k IH]; intros Hk.
  - eexists. split; [done|]. split; [|done]. constructor; try done.
    + intros j a _ Ha. rewrite Forall_lookup in Hnone. by apply (Hnone j).
    + intros j a Hj. lia.
    + intros j Hj. by apply elem_of_nil in Hj.
    + apply (bool_decide_unpack _). by vm_compute.
    + intros j a r j' a' Ha Hr. rewrite Forall_lookup in Hnone. destruct (Hnone j a Ha). congruence.
    + intros j j' a a' r _ Ha _ Hr. rewrite Forall_lookup in Hnone. destruct (Hnone j a Ha). congruence.
    + intros j r. unfold reg_at. simpl. destruct (L !! j) as [a|] eqn:Ha; [|done]. simpl. rewrite Forall_lookup in Hnone.
      destruct (Hnone j a Ha). congruence.
    + simpl. split; constructor.
    + intros j a n Ha Hn. rewrite Forall_lookup in Hnone. destruct (Hnone j a Ha). congruence.
    + intros j j' a a' n Ha _ Hn. rewrite Forall_lookup in Hnone. destruct (Hnone j a Ha). congruence.
  - destruct (IH ltac:(lia)) as (s1 & Hrun & Hs1 & Hn1). rewrite seq_S, foldl_app, Hrun. cbn [foldl mbind option_bind Nat.add].
    destruct (scan_interval_ok L k s1 HL Hs1) as (s2 & Hstep & Hs2 & Hn2); [lia..|]. exists s2. split_and!; [done|done|lia].
Qed.

(** ** The allocation *)

Lemma foldl_insert {V} (l : list (Z * V)) : ∀ (m : gmap Z V) v p, NoDup l.*1 →
  foldl (λ m e, <[e.1 := e.2]> m) m l !! v = Some p ↔ (v, p) ∈ l ∨ ((v ∉ l.*1) ∧ m !! v = Some p).
Proof.
  induction l as [|[k x] l IH]; intros m v p Hnd; cbn [foldl fmap list_fmap fst snd].
  - rewrite elem_of_nil. set_solver.
  - apply NoDup_cons in Hnd as [Hk Hnd]. rewrite IH, lookup_insert_Some by done. cbn [fst] in Hk.
    rewrite !elem_of_cons. split.
    + intros [?|[Hv [[-> ->]|[Hne Hm]]]]; [by left; right|by left; left|]. right. split; [|done]. by intros [->|?].
    + intros [[[= -> ->]|?]|[Hv Hm]]; [right; split; [done|by left]|by left|]. right. split; [naive_solver|right]. split; [naive_solver|done].
Qed.

(** The intervals of a function, as the scan finds them. *)
Definition start_intervals (f : IrFunction) : list LiveInterval :=
  sort_by_key i_start ((λ e, LiveInterval_new e.1 e.2.1.1 e.2.1.2 e.2.2) <$> btree_iter (live_ranges f)).

Lemma start_intervals_spec f a : a ∈ start_intervals f ↔ ∃ v s e c, live_ranges f !! v = Some (s, e, c) ∧ a = LiveInterval_new v s e c.
Proof.
  unfold start_intervals. rewrite sort_by_key_perm, list_elem_of_fmap. split.
  - intros ([v [[s e] c]] & -> & Hin%elem_of_btree_iter). by exists v, s, e, c.
  - intros (v & s & e & c & Hl & ->). exists (v, (s, e, c)). split; [done|]. by apply elem_of_btree_iter.
Qed.

Lemma start_intervals_nodup f : NoDup (i_vreg <$> start_intervals f).
Proof.
  unfold start_intervals. rewrite sort_by_key_perm, <- list_fmap_compose. exact (NoDup_btree_keys (live_ranges f)).
Qed.

Lemma define_size pos i m : (size (define_at pos i m) ≤ S (size m))%nat.
Proof.
  unfold define_at. destruct (dest i) as [d|]; [|lia]. destruct (default _ _) as [[? e] c].
  rewrite map_size_insert. destruct (m !! d); simpl; lia.
Qed.

Lemma use_size pos vs : ∀ m, size (foldl (use_at pos) m vs) = size m.
Proof.
  induction vs as [|v vs IH]; intros m; [done|]. cbn [foldl]. rewrite IH. unfold use_at. destruct (m !! v) as [[[s e] c]|] eqn:Hv; [|done].
  by rewrite map_size_insert, Hv.
Qed.

Lemma start_intervals_length f : (length (start_intervals f) ≤ length (code f))%nat.
Proof.
  unfold start_intervals. rewrite sort_by_key_perm, length_fmap, btree_iter_perm, length_map_to_list.
  unfold live_ranges. enough (∀ l st, (size (foldl scan_inst st l).1 ≤ size st.1 + length l)%nat) as H; [etransitivity; [exact (H (code f) (∅, 0))|]; cbn [fst]; by rewrite map_size_empty|].
  induction l as [|i l IH]; intros [m pos]; cbn [foldl]; [simpl; lia|]. etransitivity; [apply IH|].
  cbn [scan_inst fst length]. rewrite use_size. pose proof (define_size pos i m). lia.
Qed.

Lemma scanned_vregs L k s : scanned L k s → i_vreg <$> intervals s = i_vreg <$> L.
Proof.
  intros Hs. pose proof (f_equal (fmap (λ x : Z * Z * Z * RegClass, x.1.1.1)) (sc_shape _ _ _ Hs)) as Heq.
  by rewrite <- !list_fmap_compose in Heq.
Qed.

(** Every register of a finished scan has its place. *)
Lemma scanned_all L s v : scanned L (length L) s → v ∈ i_vreg <$> L →
  ∃ j a p, intervals s !! j = Some a ∧ i_vreg a = v ∧ place a = Some p.
Proof.
  intros Hs Hin. rewrite <- (scanned_vregs _ _ _ Hs) in Hin. apply list_elem_of_fmap in Hin as (a & -> & [j Hj]%list_elem_of_lookup).
  assert (Hl : length (intervals s) = length L) by (rewrite <- (length_fmap shape), (sc_shape _ _ _ Hs); apply length_fmap).
  destruct (sc_done _ _ _ Hs j a) as [[p Hp] _]; [apply lookup_lt_Some in Hj; lia|done|]. by exists j, a, p.
Qed.

(** Two intervals that overlap have different places. *)
Lemma scanned_apart L k s j j' a a' p : scanned L k s → j ≠ j' → intervals s !! j = Some a → intervals s !! j' = Some a' →
  place a = Some p → place a' = Some p → i_start a < i_end a' → i_start a' < i_end a → False.
Proof.
  intros Hs Hjj Hj Hj' Hp Hp' Hbe Hbe'. unfold place in Hp, Hp'.
  destruct (phys_reg a) as [r|] eqn:Hr, (phys_reg a') as [r'|] eqn:Hr'; simplify_eq.
  - destruct (decide (j < j')%nat); [pose proof (sc_disjoint _ _ _ Hs j j' a a' _ ltac:(lia) Hj Hj' Hr Hr'); lia|].
    pose proof (sc_disjoint _ _ _ Hs j' j a' a _ ltac:(lia) Hj' Hj Hr' Hr). lia.
  - by destruct (spill_slot a').
  - by destruct (spill_slot a).
  - destruct (spill_slot a) as [n|] eqn:Hn; [|done]. destruct (spill_slot a') as [n'|] eqn:Hn'; [|done]. simplify_eq/=.
    by apply Hjj, (sc_slots _ _ _ Hs j j' a a' n').
Qed.

(** The map built from the intervals of a finished scan: the place of each register. *)
Lemma placed_map L s : NoDup (i_vreg <$> L) → scanned L (length L) s →
  ∃ l, mapM (λ a, pair (i_vreg a) <$> place a) (intervals s) = Some l ∧
    ∀ v p, foldl (λ m e, <[e.1 := e.2]> m) (∅ : gmap Z RegAlloc) l !! v = Some p ↔
      ∃ j a, intervals s !! j = Some a ∧ i_vreg a = v ∧ place a = Some p.
Proof.
  intros Hnd Hs.
  assert (Hl : length (intervals s) = length L) by (rewrite <- (length_fmap shape), (sc_shape _ _ _ Hs); apply length_fmap).
  set (pairs := (λ a, (i_vreg a, default (Spill 0) (place a))) <$> intervals s). exists pairs. split.
  { apply mapM_Some_2, Forall2_fmap_r, Forall2_same_length_lookup_2; [done|]. intros j a a' Ha Ha'. assert (a' = a) as -> by congruence.
    destruct (sc_done _ _ _ Hs j a) as [[p Hp] _]; [apply lookup_lt_Some in Ha; lia|done|]. unfold compose. by rewrite Hp. }
  assert (Hkeys : pairs.*1 = i_vreg <$> L) by (unfold pairs; by rewrite <- list_fmap_compose, <- (scanned_vregs _ _ _ Hs)).
  intros v p. rewrite foldl_insert by (by rewrite Hkeys). rewrite lookup_empty. unfold pairs at 1. rewrite list_elem_of_fmap. split.
  - intros [(a & [= -> ->] & [j Hj]%list_elem_of_lookup)|[_ ?]]; [|done]. exists j, a. split_and!; [done..|].
    destruct (sc_done _ _ _ Hs j a) as [[q Hq] _]; [apply lookup_lt_Some in Hj; lia|done|]. by rewrite Hq.
  - intros (j & a & Hj & <- & Hp). left. exists a. rewrite Hp. split; [done|]. by apply list_elem_of_lookup_2 in Hj.
Qed.

Lemma scanned_ranges f k s j a : scanned (start_intervals f) k s → intervals s !! j = Some a →
  live_ranges f !! i_vreg a = Some (i_start a, i_end a, reg_class a).
Proof.
  intros Hs Hj. pose proof (f_equal (λ l, l !! j) (sc_shape _ _ _ Hs)) as Heq. cbn beta in Heq. rewrite !list_lookup_fmap, Hj in Heq.
  destruct (start_intervals f !! j) as [b|] eqn:Hb; [|done].
  apply list_elem_of_lookup_2, start_intervals_spec in Hb as (v & x & y & c & Hv & ->).
  simpl in Heq. unfold shape in Heq. simpl in Heq. by injection Heq as -> -> -> ->.
Qed.

(** What the allocator answers: no error and no panic, a place for every register with a range,
    none shared where ranges overlap, usable machine registers and saved ones listed. *)
Lemma allocation_safe f s : Z.of_nat (length (code f)) < 2 ^ 32 →
  ∃ s' a, allocate f s = Some (s', Ok a) ∧ ir a = f ∧
    (∀ v, is_Some (allocations a !! v) ↔ is_Some (live_ranges f !! v)) ∧
    (∀ v v' b e c b' e' c' p, v ≠ v' → live_ranges f !! v = Some (b, e, c) → live_ranges f !! v' = Some (b', e', c') →
       b < e' → b' < e → allocations a !! v = Some p → allocations a !! v' ≠ Some p) ∧
    (∀ v r, allocations a !! v = Some (InReg r) → r ∈ GP_REGS ++ FP_REGS ∧ (is_callee_saved r = true → r ∈ callee_saved a)) ∧
    (∀ v n, allocations a !! v = Some (Spill n) → 0 ≤ n < next_spill_slot s') ∧
    0 ≤ next_spill_slot s' ≤ Z.of_nat (length (code f)) ∧ callee_saved a = used_callee_saved s' ∧
    (NoDup (used_callee_saved s') ∧ Forall (λ r, is_callee_saved r = true) (used_callee_saved s')) ∧
    frame_size a = calculate_frame_size f s'.
Proof.
  intros Hlen. unfold allocate. cbn [intervals with_intervals compute_live_intervals reset app]. fold (start_intervals f).
  pose proof (start_intervals_length f) as Hle. set (L := start_intervals f) in *.
  assert (Hnone : Forall (λ a, phys_reg a = None ∧ spill_slot a = None) L).
  { rewrite Forall_forall. intros a (v & b & e & c & _ & ->)%start_intervals_spec. done. }
  destruct (linear_scan_ok L s (sort_by_key_sorted _ _) Hnone) as (s' & Hrun & Hs & Hslots); [lia|].
  change (with_intervals L (compute_live_intervals f (reset s))) with (with_intervals L (reset s)). rewrite Hrun. cbn [mbind option_bind].
  destruct (placed_map L s' (start_intervals_nodup f) Hs) as (l & -> & Hlook).
  assert (Hof : ∀ j a, intervals s' !! j = Some a → live_ranges f !! i_vreg a = Some (i_start a, i_end a, reg_class a))
    by (intros j a; by apply (scanned_ranges f (length L))).
  eexists _, _. split; [done|]. split; [done|]. cbn [allocations callee_saved]. split_and!.
  - intros v. split; [intros [p (j & a & Hj & <- & _)%Hlook]; rewrite (Hof j a Hj); by eexists|].
    intros [[[b e] c] Hv]. assert (Hin : LiveInterval_new v b e c ∈ L) by (apply start_intervals_spec; by exists v, b, e, c).
    destruct (scanned_all L s' v Hs) as (j & a & p & Hj & Hav & Hp); [apply list_elem_of_fmap; by exists (LiveInterval_new v b e c)|].
    exists p. apply Hlook. by exists j, a.
  - intros v v' b e c b' e' c' p Hne Hv Hv' Hbe Hbe' (j & a & Hj & <- & Hp)%Hlook (j' & a' & Hj' & <- & Hp')%Hlook.
    rewrite (Hof j a Hj) in Hv. rewrite (Hof j' a' Hj') in Hv'. simplify_eq.
    assert (Hjj : j ≠ j') by (intros ->; congruence). exact (scanned_apart L _ s' j j' a a' p Hs Hjj Hj Hj' Hp Hp' Hbe Hbe').
  - intros v r (j & a & Hj & _ & Hp)%Hlook. apply (sc_reg _ _ _ Hs j). rewrite (reg_at_Some s' j a Hj). unfold place in Hp.
    destruct (phys_reg a); [congruence|]. by destruct (spill_slot a).
  - intros v n (j & a & Hj & _ & Hp)%Hlook. unfold place in Hp. destruct (phys_reg a); [done|].
    destruct (spill_slot a) as [n'|] eqn:Hn; [|done]. simpl in Hp. injection Hp as <-. by apply (sc_slot _ _ _ Hs j a).
  - exact (sc_next _ _ _ Hs).
  - lia.
  - done.
  - exact (proj1 (sc_saved _ _ _ Hs)).
  - exact (proj2 (sc_saved _ _ _ Hs)).
  - done.
Qed.

(** ** Running on the places

    Code that runs on machine registers and frame slots, each virtual register read and
    written at the place the allocation gives it. *)

#[global] Instance RegAlloc_countable : Countable RegAlloc.
Proof.
  refine (inj_countable' (λ p, match p with InReg r => inl r | Spill n => inr n end)
            (λ x, match x with inl r => InReg r | inr n => Spill n end) _). by intros [].
Defined.

Definition placed (al : gmap Z RegAlloc) : RegFile (gmap RegAlloc Z) :=
  {| read_reg v e := p ← al !! v; e !! p;
     write_reg v z e := match al !! v with Some p => <[p := z]> e | None => e end |}.

(** *** Live ranges of code in single assignment form *)

(** The registers defined so far, with ranges inside the positions counted. *)
Definition ranged (D : gset Z) (m : Ranges) (pos : Z) : Prop :=
  ∀ v, v ∈ D → ∃ b e c, m !! v = Some (b, e, c) ∧ b < pos ∧ e ≤ pos.
Definition grows (D : gset Z) (m m' : Ranges) : Prop :=
  ∀ v b e c, v ∈ D → m !! v = Some (b, e, c) → ∃ e', m' !! v = Some (b, e', c) ∧ e ≤ e'.

Lemma uses_lookup pos vs v : ∀ m, foldl (use_at pos) m vs !! v =
  (λ r : Z * Z * RegClass, if decide (v ∈ vs) then (r.1.1, u32 (pos + 1), r.2) else r) <$> m !! v.
Proof.
  induction vs as [|x vs IH]; intros m; cbn [foldl].
  - by destruct (m !! v).
  - rewrite IH. unfold use_at. destruct (decide (x = v)) as [->|Hne].
    + destruct (m !! v) as [[[b e] c]|] eqn:Hv; [|by rewrite Hv]. rewrite lookup_insert_eq. simpl.
      rewrite (decide_True (P := v ∈ v :: vs)) by left. by case_decide.
    + assert (Hsame : (match m !! x with Some (s, _, c) => <[x := (s, u32 (pos + 1), c)]> m | None => m end) !! v = m !! v)
        by (destruct (m !! x) as [[[? ?] ?]|]; [by rewrite lookup_insert_ne|done]).
      rewrite Hsame. destruct (m !! v); [|done]. simpl. f_equal. destruct (decide (v ∈ vs)), (decide (v ∈ x :: vs)); set_solver.
Qed.

(** One instruction: its uses reach past it, and its destination starts there. *)
Lemma scan_inst_spec D m pos i : ranged D m pos → dom m ⊆ D → 0 ≤ pos → pos + 1 < 2 ^ 32 → (∀ v, v ∈ uses i → v ∈ D) →
  (∀ d, dest i = Some d → d ∉ D) →
  let D' := match dest i with Some d => {[d]} ∪ D | None => D end in
  let m' := (scan_inst (m, pos) i).1 in
  ranged D' m' (pos + 1) ∧ dom m' ⊆ D' ∧ grows D m m' ∧
  (∀ v, v ∈ uses i → ∃ b c, m' !! v = Some (b, pos + 1, c)) ∧ (∀ d, dest i = Some d → ∃ c, m' !! d = Some (pos, pos + 1, c)).
Proof.
  intros Hr Hdom Hpos Hlt Huse Hdest D' m'. unfold m'. cbn [scan_inst fst].
  assert (Hu : u32 (pos + 1) = pos + 1) by (apply Z.mod_small; lia).
  assert (Hdef : ∀ v, define_at pos i m !! v = match dest i with
    | Some d => if decide (v = d) then Some (pos, pos + 1, class_of (result_type i)) else m !! v | None => m !! v end).
  { intros v. unfold define_at. destruct (dest i) as [d|] eqn:Hd; [|done]. pose proof (Hdest d eq_refl) as Hd'.
    assert (m !! d = None) as Hm by (apply not_elem_of_dom; set_solver). rewrite Hm, Hu. cbn [default from_option id].
    case_decide as Hv; [subst v; by rewrite lookup_insert_eq|by rewrite lookup_insert_ne by done]. }
  assert (Hold : ∀ v, v ∈ D → define_at pos i m !! v = m !! v).
  { intros v Hv. rewrite Hdef. destruct (dest i) as [d|] eqn:Hd; [|done]. rewrite decide_False; [done|]. intros ->. by apply (Hdest d). }
  split_and!.
  - intros v Hv. rewrite uses_lookup, Hdef, Hu. unfold D' in Hv. destruct (dest i) as [d|] eqn:Hd.
    + destruct (decide (v = d)) as [->|Hne].
      { simpl. rewrite decide_False by (intros ?%Huse; by apply (Hdest d)). eexists _, _, _. split; [done|lia]. }
      destruct (Hr v) as (b & e & c & -> & ? & ?); [set_solver|]. simpl. case_decide; eexists _, _, _; (split; [done|simpl; lia]).
    + destruct (Hr v) as (b & e & c & -> & ? & ?); [done|]. simpl. case_decide; eexists _, _, _; (split; [done|simpl; lia]).
  - intros v [r Hv]%elem_of_dom. rewrite uses_lookup, Hdef in Hv. unfold D'. destruct (dest i) as [d|].
    + destruct (decide (v = d)); [set_solver|]. destruct (m !! v) eqn:Hm; [|done]. apply elem_of_dom_2 in Hm. set_solver.
    + destruct (m !! v) eqn:Hm; [|done]. apply elem_of_dom_2 in Hm. set_solver.
  - intros v b e c Hv Hm. rewrite uses_lookup, Hold, Hm, Hu by done. simpl. destruct (Hr v Hv) as (b' & e' & c' & Hm' & ? & ?).
    simplify_eq. case_decide; eexists; (split; [done|lia]).
  - intros v Hv. rewrite uses_lookup, Hold, Hu by auto. destruct (Hr v) as (b & e & c & -> & _); [auto|]. simpl. rewrite decide_True by done. by eexists _, _.
  - intros d Hd. rewrite uses_lookup, Hdef, Hd, decide_True by done. simpl.
    rewrite decide_False by (intros ?%Huse; by apply (Hdest d)). by eexists.
Qed.

(** The rest of the code only makes the ranges longer. *)
Lemma scan_grows l : ∀ D m pos, ssa D l → ranged D m pos → dom m ⊆ D → 0 ≤ pos → pos + Z.of_nat (length l) < 2 ^ 32 →
  grows D m (foldl scan_inst (m, pos) l).1.
Proof.
  induction l as [|i l IH]; intros D m pos Hs Hr Hdom Hpos Hlt; [intros v b e c _ Hv; exists e; by split|].
  cbn [length] in Hlt. destruct Hs as [Huse Hs]. cbn [foldl].
  destruct (scan_inst_spec D m pos i Hr Hdom Hpos) as (Hr' & Hdom' & Hg & _); [lia|done| |].
  { intros d Hd. rewrite Hd in Hs. by destruct Hs. }
  assert (Hpair : scan_inst (m, pos) i = ((scan_inst (m, pos) i).1, pos + 1)) by (cbn [scan_inst fst]; f_equal; apply Z.mod_small; lia).
  rewrite Hpair. intros v b e c Hv Hm. destruct (Hg v b e c Hv Hm) as (e1 & Hm1 & ?).
  destruct (IH _ _ _ (match dest i as o return (match o with Some d => (d ∉ D) ∧ ssa ({[d]} ∪ D) l | None => ssa D l end →
      ssa (match o with Some d => {[d]} ∪ D | None => D end) l) with Some _ => λ H, proj2 H | None => λ H, H end Hs)
      Hr' Hdom' ltac:(lia) ltac:(lia) v b e1 c) as (e2 & Hm2 & ?); [destruct (dest i); set_solver|done|].
  exists e2. split; [done|lia].
Qed.

(** The places [al] are apart where the ranges [R] overlap. *)
Definition apart (R : Ranges) (al : gmap Z RegAlloc) : Prop :=
  (∀ v, is_Some (R !! v) → is_Some (al !! v)) ∧
  ∀ v v' b e c b' e' c' p, v ≠ v' → R !! v = Some (b, e, c) → R !! v' = Some (b', e', c') →
    b < e' → b' < e → al !! v = Some p → al !! v' ≠ Some p.

Section simulation.
Context {World : Type} (other : IrOp → IrType → list Arg → World → option (World * Z)) (R : Ranges) (al : gmap Z RegAlloc).

Definition run_placed : list IrInst → gmap RegAlloc Z → World → option (Outcome World) := @run World other _ (placed al).

(** The registers still needed at [pos] are at their places. *)
Definition at_places (D : gset Z) (pos : Z) (e : gmap Z Z) (p : gmap RegAlloc Z) : Prop :=
  ∀ v b en c, v ∈ D → R !! v = Some (b, en, c) → pos < en → e !! v = @read_reg _ (placed al) v p.

Lemma args_placed D pos e p ops : at_places D pos e p →
  (∀ v, v ∈ omap reg_of ops → v ∈ D ∧ ∃ b en c, R !! v = Some (b, en, c) ∧ pos < en) →
  mapM (arg_of e) ops = mapM (@arg_of _ (placed al) p) ops.
Proof.
  intros Hat. induction ops as [|o ops IH]; intros Hops; [done|]. simpl.
  rewrite IH by (intros v Hv; apply Hops; simpl; destruct (reg_of o); [by right|done]).
  assert (Ho : arg_of e o = @arg_of _ (placed al) p o); [|by rewrite Ho]. destruct o; try done.
  destruct (Hops v) as (Hv & b & en & c & HR & ?); [by left|]. unfold arg_of. f_equal. by eapply Hat.
Qed.

Lemma write_placed D pos d z e p en c : apart R al → at_places D pos e p → (d ∉ D) → R !! d = Some (pos, en, c) → pos < en →
  (∀ v b e' c', v ∈ D → R !! v = Some (b, e', c') → b < pos) →
  at_places ({[d]} ∪ D) (pos + 1) (<[d := z]> e) (@write_reg _ (placed al) d z p).
Proof.
  intros [Hall Hap] Hat Hd HR Hen Hbefore v b en' c' Hv HRv Hlt. destruct (Hall d) as [pd Hpd]; [by eexists|].
  cbn [read_reg write_reg placed]. rewrite Hpd. destruct (decide (v = d)) as [->|Hne].
  - rewrite lookup_insert_eq, Hpd. cbn [mbind option_bind]. by rewrite lookup_insert_eq.
  - assert (Hv' : v ∈ D) by set_solver. rewrite lookup_insert_ne by done. rewrite (Hat v b en' c') by (done || lia).
    cbn [read_reg placed]. destruct (al !! v) as [pv|] eqn:Hpv; [|done]. cbn [mbind option_bind]. rewrite lookup_insert_ne; [done|].
    intros ->. pose proof (Hbefore v b en' c' Hv' HRv). by apply (Hap v d b en' c' pos en c pv Hne HRv HR ltac:(lia) ltac:(lia) Hpv).
Qed.

(** From a position on, the code runs on the places as it does on the registers. *)
Lemma placed_run l : ∀ D m pos e p w, apart R al → ssa D l → ranged D m pos → dom m ⊆ D → 0 ≤ pos → pos + Z.of_nat (length l) < 2 ^ 32 →
  (foldl scan_inst (m, pos) l).1 = R → at_places D pos e p → run_placed l p w = run other l e w.
Proof.
  induction l as [|i l IH]; intros D m pos e p w Hap Hs Hr Hdom Hpos Hlt HR Hat; [done|].
  pose proof (scan_grows _ D m pos Hs Hr Hdom Hpos Hlt) as Hgrow. rewrite HR in Hgrow. cbn [length] in Hlt. destruct Hs as [Huse Hs].
  destruct (scan_inst_spec D m pos i Hr Hdom Hpos) as (Hr' & Hdom' & Hg & Hread & Hnew); [lia|done|intros d Hd; rewrite Hd in Hs; by destruct Hs|].
  assert (Hpair : scan_inst (m, pos) i = ((scan_inst (m, pos) i).1, pos + 1)) by (cbn [scan_inst fst]; f_equal; apply Z.mod_small; lia).
  cbn [foldl] in HR. rewrite Hpair in HR. set (D' := match dest i with Some d => {[d]} ∪ D | None => D end) in *.
  assert (Hs' : ssa D' l) by (unfold D'; destruct (dest i); [by destruct Hs|done]).
  pose proof (scan_grows l D' _ (pos + 1) Hs' Hr' Hdom' ltac:(lia) ltac:(lia)) as Hgrow'. rewrite HR in Hgrow'.
  assert (Hargs : mapM (arg_of e) (operands i) = mapM (@arg_of _ (placed al) p) (operands i)).
  { apply (args_placed D pos); [done|]. intros v Hv. split; [by apply Huse|]. destruct (Hread v Hv) as (b & c & Hm).
    destruct (Hgrow' v b (pos + 1) c) as (en & HRv & ?); [unfold D'; pose proof (Huse v Hv); destruct (dest i); set_solver|done|].
    exists b, en, c. split; [done|lia]. }
  assert (Hstep : ∀ z, at_places D' (pos + 1) (set_dest (dest i) z e) (@set_dest _ (placed al) (dest i) z p)).
  { intros z. unfold D', set_dest. unfold D' in Hgrow'. destruct (dest i) as [d|] eqn:Hd.
    - destruct (Hnew d eq_refl) as [c Hm]. destruct (Hgrow' d pos (pos + 1) c) as (en & HRd & ?); [set_solver|done|].
      apply (write_placed D pos d z e p en c); [done..|by destruct Hs|done|lia|]. intros v b e' c' Hv HRv.
      destruct (Hr v Hv) as (b1 & e1 & c1 & Hm1 & ? & _). destruct (Hgrow v b1 e1 c1 Hv Hm1) as (e2 & HR2 & _). simplify_eq. done.
    - intros v b en c Hv HRv Hen. apply (Hat v b en c Hv HRv). lia. }
  unfold run_placed in *. cbn [run]. rewrite <- Hargs. destruct (mapM (arg_of e) (operands i)) as [args|]; [|done]. cbn [mbind option_bind].
  assert (Hnext : ∀ w' z, @run World other _ (placed al) l (@set_dest _ (placed al) (dest i) z p) w' = run other l (set_dest (dest i) z e) w').
  { intros w' z. by apply (IH D' (scan_inst (m, pos) i).1 (pos + 1)); [..|lia|lia|done|]. }
  destruct (iop i); try done; destruct (meaning other _ _ args w) as [[w' z]|]; by try apply Hnext.
Qed.
End simulation.

(** *** The frame *)

Definition locals_size (f : IrFunction) : Z := foldr (λ t n, type_size t + n) 0 (locals f).

Lemma type_size_nonneg t : 0 ≤ type_size t.
Proof. by destruct t. Qed.

Lemma locals_sum l : ∀ n, 0 ≤ n → n + foldr (λ t n, type_size t + n) 0 l < 2 ^ 32 →
  foldl (λ n t, u32 (n + type_size t)) n l = n + foldr (λ t n, type_size t + n) 0 l ∧ 0 ≤ foldr (λ t n, type_size t + n) 0 l.
Proof.
  assert (Hpos : ∀ l, 0 ≤ foldr (λ t n, type_size t + n) 0 l) by (induction l0 as [|t l0 IH]; simpl; [done|pose proof (type_size_nonneg t); lia]).
  induction l as [|t l IH]; intros n Hn Hlt; cbn [foldl foldr] in *; [lia|]. pose proof (type_size_nonneg t). pose proof (Hpos l).
  assert (Hu : u32 (n + type_size t) = n + type_size t) by (apply Z.mod_small; lia). rewrite Hu.
  destruct (IH (n + type_size t)) as [-> ?]; lia.
Qed.

Lemma saved_few (l : list PhysReg) : NoDup l → Forall (λ r, is_callee_saved r = true) l → (length l ≤ 6)%nat.
Proof.
  intros Hnd Hall. change 6%nat with (length ([3; 5; 12; 13; 14; 15] : list Z)). apply submseteq_length, NoDup_submseteq; [done|].
  intros r Hr. rewrite Forall_forall in Hall. specialize (Hall r Hr). unfold is_callee_saved in Hall.
  rewrite !orb_true_iff, andb_true_iff, !Z.eqb_eq, !Z.leb_le in Hall. rewrite !elem_of_cons. lia.
Qed.

(** Rounding up to a multiple of 16. *)
Lemma align_16 n : 0 ≤ n → n + 15 < 2 ^ 32 → let r := Z.land (u32 (n + 15)) (u32 (Z.lnot 15)) in n ≤ r ∧ r mod 16 = 0.
Proof.
  intros Hn Hlt r. assert (Hu : u32 (n + 15) = n + 15) by (apply Z.mod_small; lia).
  assert (Hr : r = (n + 15) / 16 * 16).
  { unfold r. rewrite Hu. change (u32 (Z.lnot 15)) with (word_not 32 (2 ^ 4 - 1)). apply (land_word_not 32 4); [lia|split; lia]. }
  rewrite Hr. split; [|by rewrite Z.mod_mul by lia]. pose proof (Z.div_mod (n + 15) 16). pose proof (Z.mod_pos_bound (n + 15) 16). lia.
Qed.

Lemma frame_size_ok f s : 0 ≤ next_spill_slot s → (length (used_callee_saved s) ≤ 6)%nat →
  8 * next_spill_slot s + locals_size f + 63 < 2 ^ 32 →
  8 * next_spill_slot s + locals_size f + 8 * Z.of_nat (length (used_callee_saved s)) ≤ calculate_frame_size f s ∧
  calculate_frame_size f s mod 16 = 0.
Proof.
  intros Hn Hsaved Hlt. unfold calculate_frame_size, locals_size in *.
  assert (Hpos : 0 ≤ foldr (λ t n, type_size t + n) 0 (locals f))
    by (induction (locals f) as [|t l IH]; simpl; [done|pose proof (type_size_nonneg t)]; simpl in Hlt; lia).
  assert (H1 : u32 (next_spill_slot s * 8) = next_spill_slot s * 8) by (apply Z.mod_small; lia). rewrite H1.
  destruct (locals_sum (locals f) (next_spill_slot s * 8)) as [-> _]; [lia..|].
  assert (H2 : u32 (Z.of_nat (length (used_callee_saved s)) * 8) = Z.of_nat (length (used_callee_saved s)) * 8) by (apply Z.mod_small; lia). rewrite H2.
  set (n := next_spill_slot s * 8 + foldr (λ t n, type_size t + n) 0 (locals f)) in *.
  assert (H3 : u32 (n + Z.of_nat (length (used_callee_saved s)) * 8) = n + Z.of_nat (length (used_callee_saved s)) * 8) by (apply Z.mod_small; lia).
  rewrite H3. destruct (align_16 (n + Z.of_nat (length (used_callee_saved s)) * 8)); [lia..|]. split; [lia|done].
Qed.

(** *** The ranges are those of the registers the code defines *)

Lemma use_dom pos vs : ∀ m, dom (foldl (use_at pos) m vs) = dom m.
Proof.
  induction vs as [|v vs IH]; intros m; [done|]. cbn [foldl]. rewrite IH. unfold use_at. destruct (m !! v) as [[[s e] c]|] eqn:Hv; [|done].
  rewrite dom_insert_L. apply elem_of_dom_2 in Hv. set_solver.
Qed.

Lemma live_ranges_dom f v : is_Some (live_ranges f !! v) ↔ ∃ i, i ∈ code f ∧ dest i = Some v.
Proof.
  unfold live_ranges. enough (∀ l st, v ∈ dom (foldl scan_inst st l).1 ↔ v ∈ dom st.1 ∨ ∃ i, i ∈ l ∧ dest i = Some v) as H.
  { rewrite <- elem_of_dom, H. set_solver. }
  induction l as [|i l IH]; intros [m pos]; cbn [foldl]; [set_solver|]. rewrite IH. cbn [scan_inst fst]. rewrite use_dom.
  unfold define_at. destruct (dest i) as [d|] eqn:Hd.
  - destruct (default _ _) as [[? e] c]. rewrite dom_insert_L. set_solver.
  - set_solver.
Qed.

(** ** The allocator is correct *)

(** [C38] Register allocation is correct: every function of fewer than 2^32 instructions is
    allocated without an error or a panic; exactly the registers it defines get a place, a
    machine register that may be used or a slot of the frame; two registers whose ranges
    overlap never share one; every register the caller expects back is among those saved; the
    frame is a multiple of 16 bytes that holds the slots, the locals and the saved registers;
    and straight-line code in single assignment form runs on the places with the results it
    has on its virtual registers, whatever its instructions do. *)
Theorem allocation_correct {World : Type} (other : IrOp → IrType → list Arg → World → option (World * Z)) f s :
  Z.of_nat (length (code f)) < 2 ^ 32 →
  ∃ s' a, allocate f s = Some (s', Ok a) ∧ ir a = f ∧
    (∀ v, is_Some (allocations a !! v) ↔ ∃ i, i ∈ code f ∧ dest i = Some v) ∧
    (∀ v v' b e c b' e' c' p, v ≠ v' → live_ranges f !! v = Some (b, e, c) → live_ranges f !! v' = Some (b', e', c') →
       b < e' → b' < e → allocations a !! v = Some p → allocations a !! v' ≠ Some p) ∧
    (∀ v r, allocations a !! v = Some (InReg r) → r ∈ GP_REGS ++ FP_REGS ∧ (is_callee_saved r = true → r ∈ callee_saved a)) ∧
    (8 * Z.of_nat (length (code f)) + locals_size f + 63 < 2 ^ 32 →
       frame_size a mod 16 = 0 ∧
       ∀ v n, allocations a !! v = Some (Spill n) →
         0 ≤ n ∧ 8 * (n + 1) + locals_size f + 8 * Z.of_nat (length (callee_saved a)) ≤ frame_size a) ∧
    (ssa ∅ (code f) → ∀ w, run_placed other (allocations a) (code f) ∅ w = run other (code f) (∅ : gmap Z Z) w).
Proof.
  intros Hlen. destruct (allocation_safe f s Hlen) as (s' & a & Hrun & Hir & Hdom & Hap & Hreg & Hslot & Hnext & Hsv & [Hnd Hall] & Hframe).
  exists s', a. split_and!; [done|done| |done|done| |].
  - intros v. by rewrite Hdom, live_ranges_dom.
  - intros Hbound. pose proof (saved_few _ Hnd Hall) as Hfew. rewrite Hframe, Hsv.
    destruct (frame_size_ok f s') as [Hfit Hmod]; [lia..|]. split; [done|]. intros v n Hv. pose proof (Hslot v n Hv). lia.
  - intros Hssa w. apply (placed_run other (live_ranges f) (allocations a) (code f) ∅ ∅ 0); [split; [|done]|done|..|lia|lia|done|].
    + intros v Hv. by apply Hdom.
    + intros v Hv. set_solver.
    + by rewrite dom_empty_L.
    + intros v b e c Hv. set_solver.
Qed.

Lemma allocation_correct_witness : ∃ s' a, allocate sample RegisterAllocator_new = Some (s', Ok a) ∧
  run_placed store_only (allocations a) (code sample) ∅ [] = Some (Returns [Val 7] [7]).
Proof.
  destruct (allocation_correct store_only sample RegisterAllocator_new) as (s' & a & Hrun & _ & _ & _ & _ & _ & Hsame); [by vm_compute|].
  exists s', a. split; [exact Hrun|]. rewrite (Hsame sample_ssa []). exact sample_runs.
Defined.

(** ** What the allocator does not see *)

(** Spilling takes the register of the interval that ends last, of either class: with all
    the floating-point registers taken, a float is put into the general register of an
    integer. *)
Definition crowded : IrFunction := of_code
  (op32 Iconst32 0 [Imm32 1] :: ((λ v, mkInst Fconst32 TF32 (Some v) [ImmF32 0]) <$> [1; 2; 3; 4; 5; 6; 7; 8; 9]) ++
   [mkInst Call TVoid None (Reg <$> [1; 2; 3; 4; 5; 6; 7; 8; 9]); mkInst Return TVoid None [Reg 0]]).

Lemma spill_crosses_classes : ∃ s a, allocate crowded RegisterAllocator_new = Some (s, Ok a) ∧
  live_ranges crowded !! 9 = Some (9, 11, FP) ∧ allocations a !! 9 = Some (InReg 15) ∧ 15 ∈ GP_REGS ∧ allocations a !! 0 = Some (Spill 0).
Proof. eexists _, _. split; [vm_compute; reflexivity|]. split_and!; try (vm_compute; reflexivity). apply (bool_decide_unpack _). by vm_compute. Qed.

(** Ranges follow the order of the instructions and not the jumps: a register read at the
    head of a loop shares its place with one written later in the body, and is lost when the
    jump goes back. *)
Definition looping : IrFunction := with_blocks
  [mkBlock 0 [op32 Iconst32 0 [Imm32 1]] [] [1];
   mkBlock 1 [mkInst Store TVoid None [Reg 0]; op32 Iconst32 1 [Imm32 5]; mkInst BrIf TVoid None [Reg 1; Label 1]] [0; 1] [1]]
  (IrFunction_new 0 (mkSig [] [])).

Lemma loop_shares_place : ∃ s a, allocate looping RegisterAllocator_new = Some (s, Ok a) ∧
  allocations a !! 0 = Some (InReg 15) ∧ allocations a !! 1 = Some (InReg 15).
Proof. eexists _, _. split; [vm_compute; reflexivity|]. by vm_compute. Qed.

(** Moves are meant to happen at once; done one after the other as [resolve_moves] leaves
    them, a swap of two registers loses one value. *)
Definition do_move (e : MoveLocation → Z) (m : Move) : MoveLocation → Z := λ l, if decide (l = to m) then e (from m) else e l.

Lemma resolve_moves_loses e : let swap := [mkMove (LReg 0) (LReg 1); mkMove (LReg 1) (LReg 0)] in
  foldl do_move e (resolve_moves swap) (LReg 0) = e (LReg 0) ∧ foldl do_move e (resolve_moves swap) (LReg 1) = e (LReg 0).
Proof. done. Qed.
